(* ===== verification/_CoqProject ===== *)
-Q . S2P
Prelude.v
Sorting.v
HirBody.v
Cfg.v
CfgBuild.v
CfgBuildWf.v
Dataflow.v
FlowDiag.v
Exec.v
DefAssign.v
NullFlow.v
Analyze.v
Structured.v
Exceptions.v
Simulation.v
Str.v
Text.v
Edit.v
Document.v
Utf8.v
FileIds.v
VirtualDocs.v
Vfs.v
Fuzzy.v
Trigram.v
DocPrinter.v
Budget.v
MemoryManager.v
Modules.v
ClassReader.v
Descriptor.v
ConstantPool.v
ModifiedUtf8.v
Signature.v
ByteGrammar.v
PoolGrammar.v
Annotation.v
ClassFile.v
ModuleClass.v
Stub.v
Wire.v
Literals.v
FloatBits.v
FloatLiterals.v
Unescape.v
TextBlock.v
LegacyWire.v
CborCheck.v
JdwpCodec.v
JdwpEvents.v
JdwpClient.v
Windows.v
Debouncer.v
RequestContext.v
Watchdog.v
Types.v
Subtype.v
SubtypeExact.v
Conversions.v
