(* ===== verification/Prelude.v ===== *)
(** * Verification of Nova, a Java language server

    Nova (the crates under src/crates) analyses Java sources and class files for editors.  This library
    models the parts of it that carry core logic of their own, as Rocq functions that can be
    run, and proves what makes them correct.

    ** How code is modelled

    - Code that can panic returns [run] (this file): [Done], [Panic] (an index out of range,
      an [expect] on [None], [unreachable!], a failed [debug_assert!], an overflow), or
      [OutOfFuel].  Loops and recursion that are not structural take fuel.  Every theorem on a
      result also says that the code returns ([Done]); fuel is computed from the input and
      shown to be enough.  [wp m Q] is total correctness: [m] returns a value that satisfies
      [Q].
    - [Result] of nova-classfile is [result] of ClassReader.v: [run] of an error or a value,
      with [x <-? m ;; k] for the [?] operator.
    - Indices are [nat], machine integers are [N] or [Z] with their width written out where it
      matters (casts to [u32], ids, offsets, big-endian integers, two's complement).
    - [String] and [&str] are lists of characters ([str], Str.v), with their UTF-8 bytes;
      byte offsets, slices and character boundaries are those of Rust.
    - The text-size crate (third party) is a parameter, the class [TextSizeCrate] of Str.v, and
      what the code relies on is the class [TextSizeLaws]; the module [U32Size] is an instance.
    - Callbacks that only check for cancellation are left out.

    ** The flow analysis of method bodies (nova-hir, nova-flow)

    [Body] (HirBody.v, nova-hir/src/body.rs) is a method body in three arenas; [BodyBuilder]
    makes it.  [build_cfg] (CfgBuild.v, nova-flow/src/flow.rs) lowers it to a
    [ControlFlowGraph] (Cfg.v, nova-flow/src/cfg.rs).  Two dataflow analyses run on the graph,
    over one worklist solver (Dataflow.v): definite assignment (DefAssign.v) and nullability
    (NullFlow.v), both in flow.rs.  [analyze] (Analyze.v) puts them together with the report
    of unreachable code, removes repeated diagnostics and sorts.  FlowDiag.v has the
    diagnostics (nova-flow/src/diagnostics.rs, nova-types/src/lib.rs).

    - HirBody.v: what the builder makes is well formed ([wf_body]: references are in range and
      go backwards, which bounds the recursion over bodies by the size of an arena), and ids
      resolve to their nodes.
    - Cfg.v: the successor iterator, the predecessor lists and reachability are exact.
    - CfgBuildWf.v: the lowering is total on well-formed bodies, and the blocks it makes hold
      only simple statements of the body.
    - Exec.v is not code of the repository: a semantics of expressions, statements and graphs
      ([eval], steps along edges), the reference for the analyses.
    - Dataflow.v: the class [AnalysisLaws] is the interface of an analysis to the solver
      (monotone, keeps the shape of states); against it the loop ends, with fuel for each
      change of each local of each block, and its result solves the dataflow equations.  The
      two analyses are instances.
    - DefAssign.v: the states are exactly the meet over all paths.  NullFlow.v: conditions tell
      the truth, states are sound for executions, the two transfer functions agree.
    - Analyze.v: [analyze] returns on every well-formed body, its diagnostics are sorted and
      not repeated, unreachable code is exactly reported, and no read of an unassigned local
      and no dereference of null that an execution of the graph performs is missed, within the
      budget of five million state cells that the code sets.
    - Structured.v is a semantics of bodies by the structure of their statements, in two versions:
      that of the graphs, where the handlers of a [try] start from the locals of its start and only
      [throw] raises an exception that leaves it, and Java's, where every evaluation may raise one and
      handlers and [finally] blocks start where it is raised.  Simulation.v proves that [build_cfg]
      simulates the first, so that what [analyze] guarantees for graphs holds for bodies;
      Exceptions.v that the second is contained in it where no [try] has a [finally] block and no
      [try] with handlers changes a local in its body.  Elsewhere [analyze] misses faults
      ([analyze_misses_catch], [analyze_misses_finally]).  The depth of the stack is not modelled.

    ** Texts and edits (nova-core)

    Text.v (text.rs) is [LineIndex]: the tables are the lines of the text, and the conversions
    between byte offsets, byte columns and UTF-16 positions are inverse to each other.  Edit.v
    (edit.rs) is the normalisation and application of edits: it equals simultaneous replacement
    (the reference [splice]), errors are justified, normalised edits do not touch.  Texts are
    shorter than 2^32 bytes, the range of [TextSize].

    ** Documents and files (nova-vfs)

    Document.v (document.rs) applies the changes of an editor to a text.  FileIds.v (file_id.rs,
    open_documents.rs) gives paths (path.rs) their ids.  VirtualDocs.v (virtual_documents.rs) keeps
    decompiled texts within a budget; the lru crate (third party) is the class [LruCrate] with its
    documented laws [LruLaws].  Vfs.v (overlay_fs.rs, vfs.rs, change.rs) puts them together; its operations
    refine the map from paths to open texts.  Operations are atomic and sequential: the
    interleaving of threads inside one of them is not modelled; the file system below is one
    snapshot.  Utf8.v is UTF-8 decoding as Rust does it.

    ** Search (nova-fuzzy)

    Fuzzy.v: the matcher finds the best score over all alignments (the reference), with 32-bit
    scores.  Trigram.v: the candidates of the index are exactly the texts with all trigrams of the
    query.  Without the feature unicode; candidates are shorter than 2^25 bytes.

    ** The document printer (nova-format)

    DocPrinter.v (doc.rs): the printer returns (fuel is the weight of the document), loses no text, and
    breaks a group only where it does not fit.

    ** Memory (nova-memory)

    Budget.v (types.rs, budget.rs, cgroup.rs): budgets, their overrides and sizes in text.
    MemoryManager.v (manager.rs, pressure.rs, degraded.rs, eviction.rs, report.rs, process.rs): ratios
    are binary64 floats ([SpecFloat]); what the components and the process report is the class
    [World]; the order of a [HashMap] is that of a list; mutexes, system calls and the files of
    cgroups are left out.

    ** Modules (nova-modules)

    Modules.v (lib.rs): the search of [readable_modules] computes the readability relation.

    ** The readers of nova-classfile

    ClassReader.v (reader.rs, error.rs) is the byte reader, Descriptor.v (descriptor.rs) and
    Signature.v (signature.rs) the parsers of descriptors and generic signatures,
    ConstantPool.v (constant_pool.rs) the constant pool and modified UTF-8, Annotation.v
    (annotation.rs), ClassFile.v (classfile.rs), ModuleClass.v (module_info.rs) and Stub.v (stub.rs)
    the rest of the crate.  The references are printers, encoders, the units and characters of
    modified UTF-8 (ModifiedUtf8.v) and the grammars of ByteGrammar.v, PoolGrammar.v and, for attributes
    and indices, Annotation.v and ClassFile.v; the grammar of class files is written apart from the
    parser.  Parsing returns on every input, what is printed is read back,
    and what is accepted is the print of what is returned (for signatures, up to empty argument
    lists, which the parser accepts).  Inputs are shorter than 2^63 bytes, as Rust slices are.

    ** The remote protocol (nova-remote-proto)

    Wire.v has the limits, the results and the codecs that the decoders share.  LegacyWire.v
    (legacy_v2.rs): the decoder accepts exactly the encodings.  CborCheck.v (validate_cbor.rs): the
    check accepts exactly the items of a grammar, [data], which is RFC 8949 but for simple values below
    32 in two bytes ([two_byte_simple_accepted]); its recursion has 66 levels, one for each
    permitted depth and one that reports the excess, its loops are bounded by the bytes left.
    Failures of allocation are not modelled.

    ** The debugger client (nova-jdwp)

    JdwpCodec.v (wire/codec.rs, wire/types.rs): the encoding; a float is its bits.  JdwpEvents.v:
    requests for events, as the client writes them and the scripted debuggee (wire/mock.rs) reads
    them, and [handle_event_packet].  JdwpClient.v (wire/client.rs): requests and the read loop
    as a transition system in which the steps of all tasks interleave; the invariants hold in every
    reachable state, for fewer than 2^32 requests where ids matter.  [act] runs steps on concrete
    states.  The time of a timeout is arbitrary; sending to a channel of events never fails.

    ** Scheduling (nova-scheduler)

    Debouncer.v (debouncer.rs, task.rs), RequestContext.v (context.rs, progress.rs, scheduler.rs) and
    Watchdog.v (watchdog.rs) are transition systems whose steps interleave; tokio's tokens and tasks
    and rayon's pools are replaced by steps with their documented behaviour, copies of a token are
    one place in the state.  Windows.v (lib.rs) is the debouncer of the file watcher, as functions.
    The newest request for a key wins if calls for the key do not overlap; progress is bracketed;
    a call with a deadline comes back within four steps of its own after it, and its answer is
    that of its own closure; ids do not wrap around.

    ** Types (nova-types)

    Types.v (lib.rs) has the types, the trait [TypeEnv] as a class and [TypeStore], whose ids, cast
    to 32 bits, stay valid below 2^32 classes.  Subtype.v is [is_subtype] with the containment of type arguments and the search of
    superclasses; fuel is the depth of the stack and the rounds of a search, and running out of it
    means that the code goes on.  The test is sound for the relation [Sub]; SubtypeExact.v: it is
    exact on ground types in a coherent environment, it returns where classes and bounds, lower
    bounds of captured variables included, have no cycle and the target has no [? super], and it does not
    return on examples with [? super] and with a lower bound that mentions its variable.  Conversions.v: the
    method-invocation and assignment conversions are decided exactly against JLS-like tables, constants
    are narrowed exactly where they fit, and numeric promotion is the least common type.

    ** Literals (nova-syntax)

    The file literals.rs, whole.  [parses m Q] (Literals.v) says that a parser returns and succeeds
    with exactly the values of [Q]; the theorems give [Q] as a grammar with its values, and the
    errors keep their messages and spans.  Literals.v: integers, accepted and rejected by radix and
    range.  FloatBits.v: the rounding of hexadecimal numbers to the bits of a float, with its guard
    and sticky bits and saturated exponents, is rounding to the nearest, ties to even; this file
    also has the reference [round_ratio], which models the decimal [str::parse] of the standard
    library.  FloatLiterals.v: validation and reading of decimal and hexadecimal literals, for
    texts below 2^58 bytes, so that lengths in bits fit the 64-bit exponents.  Unescape.v:
    characters and strings, on characters with byte offsets, and a round trip of every string.
    TextBlock.v: text blocks, and where they differ from Java.  The loop over a string has as fuel
    the bytes it covers, the one over a block twice as many and one more, for it goes round again
    at each start of a line.

    Sorting.v has the stable sort of [sort_by] and comparisons as lawful orders, used by
    Analyze.v and Edit.v.

    ** What is not modelled

    Bounds (lub, glb), capture, inference and overload resolution of nova-types, the lexer, the
    parser on top of the rowan crate and the formatters, the salsa queries and what is built on
    them (nova-ide, nova-lsp, nova-refactor, nova-workspace), persistence, the sockets below the
    protocols, the commands of the debugger client that only wrap the modelled encoding, the debug
    adapter, and build integration.

    This file: computations that may panic, their rules and tactics, and lemmas on lists. *)

From stdpp Require Import base list numbers strings option.

(** [Option::is_some]. *)
Definition is_some {A} (o : option A) : bool := match o with Some _ => true | None => false end.

(** A loop over [out.iter_mut().zip(inp)] that sets each slot to [f slot v]: the slots past
    the end of [inp] stay as they are. *)
Fixpoint zip_update {A B} (f : A -> B -> A) (out : list A) (inp : list B) : list A :=
  match out, inp with
  | x :: out, y :: inp => f x y :: zip_update f out inp
  | _, _ => out
  end.

Lemma length_zip_update {A B} (f : A -> B -> A) out inp :
  length (zip_update f out inp) = length out.
Proof. revert inp; induction out as [|x out IH]; intros [|y inp]; simpl; auto. Qed.

Lemma lookup_zip_update {A B} (f : A -> B -> A) out inp i x y :
  out !! i = Some x -> inp !! i = Some y -> zip_update f out inp !! i = Some (f x y).
Proof.
  revert inp i; induction out as [|x' out IH]; intros [|y' inp] [|i] Hx Hy; simplify_eq/=; auto.
Qed.

Lemma lookup_zip_update_inv {A B} (f : A -> B -> A) out inp i z :
  zip_update f out inp !! i = Some z ->
  exists x, out !! i = Some x /\ (z = x \/ exists y, inp !! i = Some y /\ z = f x y).
Proof.
  revert inp i; induction out as [|x' out IH]; intros [|y' inp] [|i] Hz; simplify_eq/=; eauto 10.
Qed.

Lemma length_foldl_zip_update {A} (f : A -> A -> A) l o :
  length (foldl (zip_update f) o l) = length o.
Proof. revert o; induction l as [|x l IH]; intros o; [done|]. simpl. by rewrite IH, length_zip_update. Qed.

(** [alter] on a list, read back. *)
Lemma lookup_alter_Some {A} (f : A -> A) (t : nat) (l : list A) u x :
  alter f t l !! u = Some x -> (u = t /\ exists y, l !! t = Some y /\ x = f y) \/ (u <> t /\ l !! u = Some x).
Proof.
  destruct (decide (u = t)) as [->|Hne].
  - rewrite list_lookup_alter_eq. intros (y & Hy & ->)%fmap_Some. left. eauto.
  - rewrite list_lookup_alter_ne by done. auto.
Qed.

Lemma fmap_alter_same {A B} (g : A -> B) (f : A -> A) (t : nat) (l : list A) :
  (forall x, g (f x) = g x) -> g <$> alter f t l = g <$> l.
Proof.
  intros Hf. apply list_eq. intros u. rewrite !list_lookup_fmap. destruct (decide (u = t)) as [->|Hne].
  - rewrite list_lookup_alter_eq. destruct (l !! t); simpl; [by rewrite Hf|done].
  - by rewrite list_lookup_alter_ne.
Qed.

Lemma elem_of_option_list {A} (o : option A) x : x ∈ option_list o <-> o = Some x.
Proof.
  destruct o; simpl; [rewrite list_elem_of_singleton; naive_solver|].
  split; [by intros ?%not_elem_of_nil|done].
Qed.

(** ** Computations that may panic or run out of fuel *)

Module Run.

(** The result of running Rust code: a value, a panic (an index out of range, an
    [unreachable!], an [expect] on [None]), or the exhaustion of the fuel that bounds a
    recursion or a loop of the model.  Totality theorems exclude the last two. *)
Inductive run (A : Type) : Type :=
| Done (a : A)
| Panic
| OutOfFuel.
Global Arguments Done {A} a.
Global Arguments Panic {A}.
Global Arguments OutOfFuel {A}.

Global Instance run_ret : MRet run := fun A a => Done a.
Global Instance run_bind : MBind run := fun A B f m =>
  match m with Done a => f a | Panic => Panic | OutOfFuel => OutOfFuel end.
Global Instance run_fmap : FMap run := fun A B f m =>
  match m with Done a => Done (f a) | Panic => Panic | OutOfFuel => OutOfFuel end.
Global Instance run_eq_dec {A} `{EqDecision A} : EqDecision (run A).
Proof. solve_decision. Defined.

(** Rust's [v[i]]: the element, or a panic when [i] is out of range. *)
Definition idx {A} (l : list A) (i : nat) : run A :=
  match l !! i with Some x => Done x | None => Panic end.

(** Rust's [v[i] = x] on a slice or [Vec]: a panic when [i] is out of range. *)
Definition set_idx {A} (l : list A) (i : nat) (x : A) : run (list A) :=
  if decide (i < length l) then Done (<[i := x]> l) else Panic.

(** A [for] loop over [l] that threads a mutable state. *)
Fixpoint for_each {A S} (f : S -> A -> run S) (l : list A) (s : S) : run S :=
  match l with
  | [] => Done s
  | x :: l => s' ← f s x; for_each f l s'
  end.

(** Total correctness: the computation returns, and its result satisfies [Q]. *)
Definition wp {A} (m : run A) (Q : A -> Prop) : Prop :=
  match m with Done a => Q a | _ => False end.

Lemma wp_ret {A} (a : A) (Q : A -> Prop) : Q a -> wp (Done a) Q.
Proof. done. Qed.

Lemma wp_bind {A B} (m : run A) (f : A -> run B) (Q : B -> Prop) :
  wp m (fun a => wp (f a) Q) -> wp (m ≫= f) Q.
Proof. by destruct m. Qed.

Lemma wp_mono {A} (m : run A) (Q R : A -> Prop) :
  wp m Q -> (forall a, Q a -> R a) -> wp m R.
Proof. destruct m; simpl; auto. Qed.

(** Run [m], then go on from what is known of its result. *)
Lemma wp_seq {A B} (m : run A) (f : A -> run B) (Q : A -> Prop) (R : B -> Prop) :
  wp m Q -> (forall a, Q a -> wp (f a) R) -> wp (m ≫= f) R.
Proof. destruct m; simpl; auto. Qed.

Lemma wp_inv {A} (m : run A) (Q : A -> Prop) : wp m Q <-> exists a, m = Done a /\ Q a.
Proof. destruct m; naive_solver. Qed.

Lemma wp_and {A} (m : run A) (Q R : A -> Prop) :
  wp m Q -> wp m R -> wp m (fun a => Q a /\ R a).
Proof. by destruct m. Qed.

Lemma wp_idx {A} (l : list A) i (Q : A -> Prop) :
  i < length l -> (forall x, l !! i = Some x -> Q x) -> wp (idx l i) Q.
Proof.
  intros [x Hx]%lookup_lt_is_Some HQ. unfold idx. rewrite Hx. by apply HQ.
Qed.

Lemma wp_set_idx {A} (l : list A) i x (Q : list A -> Prop) :
  i < length l -> Q (<[i := x]> l) -> wp (set_idx l i x) Q.
Proof. intros Hi HQ. unfold set_idx. by rewrite decide_True. Qed.

(** The rule of the [for] loop: [I] holds of the state before each element, given the
    elements already done. *)
Lemma wp_for_each {A S} (f : S -> A -> run S) (l : list A) (I : list A -> S -> Prop) s :
  I [] s ->
  (forall done x rest s, l = done ++ x :: rest -> I done s ->
    wp (f s x) (I (done ++ [x]))) ->
  wp (for_each f l s) (I l).
Proof.
  intros H0 Hstep.
  assert (Hgen : forall rest done s, l = done ++ rest -> I done s ->
    wp (for_each f rest s) (I l)).
  { induction rest as [|x rest IH]; intros done s' Hl HI; simpl.
    - by rewrite app_nil_r in Hl; subst.
    - eapply wp_seq; [by eapply Hstep|].
      intros s'' HI'. eapply IH; [|exact HI']. by rewrite <-app_assoc. }
  by apply (Hgen l []).
Qed.

(** The same for a loop that is known to return. *)
Lemma for_each_Done {A S} (f : S -> A -> run S) (l : list A) (I : list A -> S -> Prop) s s' :
  for_each f l s = Done s' -> I [] s ->
  (forall done x rest s s1, l = done ++ x :: rest -> I done s -> f s x = Done s1 ->
    I (done ++ [x]) s1) ->
  I l s'.
Proof.
  intros Hr H0 Hstep.
  assert (Hgen : forall rest done s, l = done ++ rest -> I done s ->
    for_each f rest s = Done s' -> I l s').
  { induction rest as [|x rest IH]; intros done s1 Hl HI Hr'; simpl in Hr'.
    - injection Hr' as <-. by rewrite app_nil_r in Hl; subst.
    - destruct (f s1 x) as [s2| |] eqn:E; [|done..].
      eapply IH; [|by eapply Hstep|exact Hr']. by rewrite <-app_assoc. }
  by apply (Hgen l [] s).
Qed.

Lemma Done_inj {A} (a a' : A) : Done a = Done a' -> a = a'.
Proof. by intros [= ->]. Qed.

Lemma bind_Done_l {A B} (a : A) (f : A -> run B) : Done a ≫= f = f a.
Proof. done. Qed.

Lemma bind_Done {A B} (m : run A) (f : A -> run B) b :
  m ≫= f = Done b <-> exists a, m = Done a /\ f a = Done b.
Proof. destruct m; naive_solver. Qed.

Lemma idx_Done {A} (l : list A) i x : idx l i = Done x <-> l !! i = Some x.
Proof. unfold idx. destruct (l !! i); naive_solver. Qed.

Lemma set_idx_Done {A} (l l' : list A) i x :
  set_idx l i x = Done l' <-> i < length l /\ l' = <[i := x]> l.
Proof. unfold set_idx. case_decide; naive_solver. Qed.

Lemma for_each_app {A S} (f : S -> A -> run S) (l1 l2 : list A) s :
  for_each f (l1 ++ l2) s = s' ← for_each f l1 s; for_each f l2 s'.
Proof.
  revert s; induction l1 as [|x l1 IH]; intros s; simpl; [done|].
  destruct (f s x); simpl; auto.
Qed.

End Run.
Export Run.

Create HintDb run.
#[export] Hint Resolve wp_ret : run.
#[export] Hint Rewrite @length_zip_update @length_foldl_zip_update @bind_Done_l : run.

(** Invert the hypotheses of the form [m ≫= f = Done b]. *)
Ltac run_inv :=
  repeat match goal with
  | H : Done _ = Done _ |- _ => injection H as H; subst
  | H : mret _ = Done _ |- _ => unfold mret, run_ret in H
  | H : Panic = Done _ |- _ => discriminate H
  | H : OutOfFuel = Done _ |- _ => discriminate H
  | H : _ ≫= _ = Done _ |- _ =>
      let a := fresh "a" in let Ha := fresh "Ha" in
      apply bind_Done in H as (a & Ha & H)
  | H : idx _ _ = Done _ |- _ => apply idx_Done in H
  end.
