(* ===== verification/Sorting.v ===== *)
(** * Comparators and stable sorting

    [Ordering::then_with], the orders of the standard library the code compares with, and
    [slice::sort_by], a stable sort.  A comparator that satisfies [CmpLaws] is a total
    preorder; the sort is then sorted, a permutation, and keeps the order of equal elements. *)

From stdpp Require Import base list numbers strings option.
From Stdlib Require Import Sorting.Sorted.
From S2P Require Import Prelude.

(** ** Comparators *)

(** [Ordering::then_with]. *)
Definition then_with (c1 c2 : comparison) : comparison := match c1 with Eq => c2 | c => c end.

Class CmpLaws {A} (cmp : A -> A -> comparison) : Prop := {
  cmp_opp x y : cmp y x = CompOpp (cmp x y);
  cmp_lt x y z : cmp x y = Lt -> cmp y z = Lt -> cmp x z = Lt;
  cmp_eq x y z : cmp x y = Eq -> cmp x z = cmp y z
}.

Global Instance N_cmp_laws : CmpLaws N.compare.
Proof.
  split.
  - intros x y. apply N.compare_antisym.
  - intros x y z. rewrite !N.compare_lt_iff. lia.
  - intros x y z ->%N.compare_eq_iff. done.
Qed.

Global Instance nat_cmp_laws : CmpLaws Nat.compare.
Proof.
  split.
  - intros x y. apply Nat.compare_antisym.
  - intros x y z. rewrite !Nat.compare_lt_iff. lia.
  - intros x y z ->%Nat.compare_eq_iff. done.
Qed.

(** [str::cmp] compares bytes. *)
Lemma string_compare_lt x y z :
  String.compare x y = Lt -> String.compare y z = Lt -> String.compare x z = Lt.
Proof.
  revert y z; induction x as [|a x IH]; intros [|b y] [|c z] H1 H2; try done. simpl in *.
  destruct (Ascii.compare a b) eqn:E1; try done.
  - apply Ascii.compare_eq_iff in E1 as ->. destruct (Ascii.compare b c); try done. eauto.
  - destruct (Ascii.compare b c) eqn:E2; try done.
    + apply Ascii.compare_eq_iff in E2 as ->. by rewrite E1.
    + unfold Ascii.compare in *. by rewrite (cmp_lt _ _ _ E1 E2).
Qed.

Global Instance string_cmp_laws : CmpLaws String.compare.
Proof.
  split; [intros; apply String.compare_antisym|apply string_compare_lt|].
  intros x y z ->%String.compare_eq_iff. done.
Qed.

Global Instance cmp_on_laws {A B} (f : A -> B) (cmp : B -> B -> comparison) :
  CmpLaws cmp -> CmpLaws (fun x y => cmp (f x) (f y)).
Proof. intros [H1 H2 H3]. split; eauto. Qed.

Global Instance then_with_laws {A} (c1 c2 : A -> A -> comparison) :
  CmpLaws c1 -> CmpLaws c2 -> CmpLaws (fun x y => then_with (c1 x y) (c2 x y)).
Proof.
  intros [O1 L1 E1] [O2 L2 E2]. split.
  - intros x y. rewrite O1, O2. by destruct (c1 x y).
  - intros x y z. destruct (c1 x y) eqn:Hxy; simpl; try done.
    + rewrite (E1 _ _ _ Hxy). destruct (c1 y z); simpl; eauto.
    + intros _. destruct (c1 y z) eqn:Hyz; simpl; try done.
      * intros _. assert (Hzy : c1 z y = Eq) by by rewrite O1, Hyz.
        pose proof (E1 _ _ x Hzy) as H. rewrite (O1 x z), (O1 x y), Hxy in H. simpl in H.
        destruct (c1 x z); done.
      * by rewrite (L1 _ _ _ Hxy Hyz).
  - intros x y z. destruct (c1 x y) eqn:Hxy; simpl; try done.
    intros H. by rewrite (E1 _ _ _ Hxy), (E2 _ _ _ H).
Qed.

(** ** The order of a comparator *)

Section Order.
Context {A : Type} (cmp : A -> A -> comparison) `{!CmpLaws cmp}.

Definition cmp_le (x y : A) : Prop := cmp x y <> Gt.

Lemma cmp_refl x : cmp x x = Eq.
Proof. pose proof (cmp_opp x x) as H. destruct (cmp x x); done. Qed.

Lemma cmp_le_gt x y : cmp x y = Gt -> cmp_le y x.
Proof. intros H. unfold cmp_le. rewrite (cmp_opp x y), H. done. Qed.

Global Instance cmp_le_preorder : PreOrder cmp_le.
Proof.
  split; [intros x; unfold cmp_le; by rewrite cmp_refl|].
  intros x y z Hxy Hyz. unfold cmp_le in *. destruct (cmp x y) eqn:E; try done.
  - by rewrite (cmp_eq _ _ _ E).
  - destruct (cmp y z) eqn:E2; try done.
    + assert (Hzy : cmp z y = Eq) by by rewrite (cmp_opp y z), E2.
      pose proof (cmp_eq _ _ x Hzy) as H. rewrite (cmp_opp x z), (cmp_opp x y), E in H.
      destruct (cmp x z); done.
    + by rewrite (cmp_lt _ _ _ E E2).
Qed.

(** ** [sort_by] *)

(** Insert [x] before the first element that is not less. *)
Fixpoint insert_sorted (x : A) (l : list A) : list A :=
  match l with
  | [] => [x]
  | y :: l => match cmp x y with Gt => y :: insert_sorted x l | _ => x :: y :: l end
  end.

Definition sort_by (l : list A) : list A := foldr insert_sorted [] l.

Lemma insert_sorted_perm x l : insert_sorted x l ≡ₚ x :: l.
Proof.
  induction l as [|y l IH]; [done|]. simpl. destruct (cmp x y); try done.
  rewrite IH. apply Permutation_swap.
Qed.

Lemma sort_by_perm l : sort_by l ≡ₚ l.
Proof. induction l as [|x l IH]; [done|]. simpl. by rewrite insert_sorted_perm, IH. Qed.

Lemma elem_of_sort_by x l : x ∈ sort_by l <-> x ∈ l.
Proof. by rewrite sort_by_perm. Qed.

Lemma insert_sorted_sorted x l :
  StronglySorted cmp_le l -> StronglySorted cmp_le (insert_sorted x l).
Proof.
  induction 1 as [|y l Hs IH Hy]; simpl; [repeat constructor|].
  destruct (cmp x y) eqn:E.
  1,2: assert (Hxy : cmp_le x y) by (unfold cmp_le; congruence);
    constructor; [by constructor|constructor; [done|]];
    (eapply List.Forall_impl; [|exact Hy]); intros z Hz; by transitivity y.
  constructor; [done|]. apply List.Forall_forall. intros z Hz%list_elem_of_In.
  rewrite insert_sorted_perm in Hz. apply elem_of_cons in Hz as [->|Hz].
  - by apply cmp_le_gt.
  - rewrite List.Forall_forall in Hy. apply Hy. by apply list_elem_of_In.
Qed.

Lemma sort_by_sorted l : StronglySorted cmp_le (sort_by l).
Proof. induction l as [|x l IH]; simpl; [constructor|by apply insert_sorted_sorted]. Qed.

(** Stability: the elements equal to [z] keep their order. *)
Definition same (z x : A) : bool := match cmp z x with Eq => true | _ => false end.

Lemma insert_sorted_stable z x l :
  List.filter (same z) (insert_sorted x l) = List.filter (same z) (x :: l).
Proof.
  induction l as [|y l IH]; [done|]. simpl in *. destruct (cmp x y) eqn:E; try done.
  simpl. rewrite IH. unfold same. destruct (cmp z x) eqn:Ex; try done.
  rewrite (cmp_eq _ _ _ Ex), E. done.
Qed.

Lemma sort_by_stable z l : List.filter (same z) (sort_by l) = List.filter (same z) l.
Proof.
  induction l as [|x l IH]; [done|]. simpl. rewrite insert_sorted_stable. simpl. by rewrite IH.
Qed.
End Order.

(** ** [Vec::dedup]: the first of equal neighbours is kept *)

Section Dedup.
Context {A : Type} `{EqDecision A}.

Fixpoint dedup (l : list A) : list A :=
  match l with
  | x :: ((y :: _) as rest) => if decide (x = y) then dedup rest else x :: dedup rest
  | _ => l
  end.

Lemma dedup_cons x y l :
  dedup (x :: y :: l) = if decide (x = y) then dedup (y :: l) else x :: dedup (y :: l).
Proof. done. Qed.

Lemma elem_of_dedup x l : x ∈ dedup l <-> x ∈ l.
Proof.
  induction l as [|y [|z l] IH]; [done..|]. rewrite dedup_cons. case_decide as Hyz.
  - subst. rewrite IH, !elem_of_cons. tauto.
  - rewrite elem_of_cons, IH. by rewrite !elem_of_cons.
Qed.

Lemma dedup_sorted (R S : relation A) l :
  (forall x y, R x y -> x <> y -> S x y) -> (forall x y z, S x y -> R y z -> S x z) ->
  StronglySorted R l -> StronglySorted S (dedup l).
Proof.
  intros Hne Htr. induction l as [|y [|z l] IH]; intros Hl; [constructor|repeat constructor|].
  apply StronglySorted_inv in Hl as [Hl Hy]. rewrite dedup_cons. case_decide as Hyz; [by apply IH|].
  constructor; [by apply IH|]. apply List.Forall_forall. intros x Hx%list_elem_of_In.
  rewrite elem_of_dedup in Hx. rewrite List.Forall_forall in Hy.
  pose proof (Hne _ _ (Hy z (or_introl eq_refl)) Hyz) as Hyz'.
  apply elem_of_cons in Hx as [->|Hx]; [done|].
  apply StronglySorted_inv in Hl as [_ Hz]. rewrite List.Forall_forall in Hz.
  apply (Htr y z); [done|]. apply Hz. by apply list_elem_of_In.
Qed.
End Dedup.
