(* ===== verification/HirBody.v ===== *)
(** * The flow-oriented method body (crates/nova-hir/src/body.rs)

    A method body is three arenas, of locals, expressions and statements, and a root
    statement; nodes name each other by index.  The file has the data, the accessors of
    [Body] (which panic on an index out of range), the [BodyBuilder], and the
    well-formedness of a body: every reference is in range and a node refers only to nodes
    that were built before it, so that recursion over a body ends.  The builder keeps it. *)

From stdpp Require Import base list numbers strings option.
From S2P Require Import Prelude.

(** ** Identifiers and spans *)

(** [LocalId(u32)], [ExprId(u32)], [StmtId(u32)]: what the code uses of them is
    [index()], the arena index. *)
Notation LocalId := nat (only parsing).
Notation ExprId := nat (only parsing).
Notation StmtId := nat (only parsing).

(** [Id(self.arena.len() as u32)]: the cast keeps the length modulo [2^32]. *)
Definition id_of_len (len : nat) : nat := N.to_nat (N.of_nat len mod 2 ^ 32).

(** [nova_types::Span], a byte range in the source. *)
Record Span := mkSpan { span_start : N; span_end : N }.

Global Instance Span_eq_dec : EqDecision Span.
Proof. solve_decision. Defined.

(** ** Data *)

Inductive LocalKind := Param | LocalVar.

Record Local_ := mkLocal { local_name : string; local_kind : LocalKind; local_span : Span }.

Inductive UnaryOp := Not.
Inductive BinaryOp := EqEq | NotEq | AndAnd | OrOr.

Module ExprKind.

Inductive t :=
| Local (local : LocalId)
| Null
| Bool (value : bool)
| Int (value : Z)
| Str (value : string)
| New (class_name : string) (args : list ExprId)
| Unary (op : UnaryOp) (expr : ExprId)
| Binary (op : BinaryOp) (lhs rhs : ExprId)
| FieldAccess (receiver : ExprId) (name : string)
| Call (receiver : option ExprId) (name : string) (args : list ExprId)
| Invalid (children : list ExprId).

End ExprKind.

Record Expr := mkExpr { expr_kind : ExprKind.t; expr_span : Span }.

Record SwitchArm := mkArm {
  arm_values : list ExprId;
  arm_has_default : bool;
  arm_body : StmtId;
  arm_is_arrow : bool
}.

Module StmtKind.

Inductive t :=
| Block (stmts : list StmtId)
| Let (local : LocalId) (initializer : option ExprId)
| Assign (target : LocalId) (value : ExprId)
| Expr (expr : ExprId)
| If (condition : ExprId) (then_branch : StmtId) (else_branch : option StmtId)
| While (condition : ExprId) (body : StmtId)
| DoWhile (body : StmtId) (condition : ExprId)
| For (init : option StmtId) (condition : option ExprId) (update : option StmtId)
      (body : StmtId)
| Switch (expression : ExprId) (arms : list SwitchArm)
| Try (body : StmtId) (catches : list StmtId) (finally : option StmtId)
| Return (value : option ExprId)
| Throw (exception : ExprId)
| Break
| Continue
| Nop.

End StmtKind.

Record Stmt := mkStmt { stmt_kind : StmtKind.t; stmt_span : Span }.

Record Body := mkBody {
  locals : list Local_;
  exprs : list Expr;
  stmts : list Stmt;
  root : StmtId
}.

(** ** [impl Body] *)

Definition expr (b : Body) (id : ExprId) : run Expr := idx (exprs b) id.

Definition stmt (b : Body) (id : StmtId) : run Stmt := idx (stmts b) id.

(** ** [impl BodyBuilder] *)

Module BodyBuilder.

Record t := mk {
  b_locals : list Local_;
  b_exprs : list Expr;
  b_stmts : list Stmt
}.

Definition new : t := mk [] [] [].

Definition local_with_span (name : string) (kind : LocalKind) (span : Span) (b : t)
    : LocalId * t :=
  (id_of_len (length (b_locals b)),
   mk (b_locals b ++ [mkLocal name kind span]) (b_exprs b) (b_stmts b)).

Definition local (name : string) (kind : LocalKind) (b : t) : LocalId * t :=
  local_with_span name kind (mkSpan 0 0) b.

Definition expr_with_span (kind : ExprKind.t) (span : Span) (b : t) : ExprId * t :=
  (id_of_len (length (b_exprs b)),
   mk (b_locals b) (b_exprs b ++ [mkExpr kind span]) (b_stmts b)).

Definition expr (kind : ExprKind.t) (b : t) : ExprId * t :=
  expr_with_span kind (mkSpan 0 0) b.

Definition stmt_with_span (kind : StmtKind.t) (span : Span) (b : t) : StmtId * t :=
  (id_of_len (length (b_stmts b)),
   mk (b_locals b) (b_exprs b) (b_stmts b ++ [mkStmt kind span])).

Definition stmt (kind : StmtKind.t) (b : t) : StmtId * t :=
  stmt_with_span kind (mkSpan 0 0) b.

Definition finish (root : StmtId) (b : t) : Body :=
  mkBody (b_locals b) (b_exprs b) (b_stmts b) root.

End BodyBuilder.

(** [Body::empty]: one empty block as the root. *)
Definition empty_body (range : Span) : Body :=
  let '(root, b) := BodyBuilder.stmt_with_span (StmtKind.Block []) range BodyBuilder.new in
  BodyBuilder.finish root b.

(** ** Well-formed bodies *)

(** The sub-expressions of an expression and the sub-statements of a statement. *)
Definition expr_children (k : ExprKind.t) : list ExprId :=
  match k with
  | ExprKind.New _ args => args
  | ExprKind.Unary _ e => [e]
  | ExprKind.Binary _ l r => [l; r]
  | ExprKind.FieldAccess r _ => [r]
  | ExprKind.Call r _ args => option_list r ++ args
  | ExprKind.Invalid cs => cs
  | _ => []
  end.

Definition stmt_children (k : StmtKind.t) : list StmtId :=
  match k with
  | StmtKind.Block ss => ss
  | StmtKind.If _ t e => t :: option_list e
  | StmtKind.While _ b | StmtKind.DoWhile b _ => [b]
  | StmtKind.For i _ u b => option_list i ++ b :: option_list u
  | StmtKind.Switch _ arms => arm_body <$> arms
  | StmtKind.Try b cs f => b :: cs ++ option_list f
  | _ => []
  end.

(** The expressions a statement evaluates itself, its [case] labels included. *)
Definition stmt_exprs (k : StmtKind.t) : list ExprId :=
  match k with
  | StmtKind.Let _ i => option_list i
  | StmtKind.Assign _ v => [v]
  | StmtKind.Expr e => [e]
  | StmtKind.If c _ _ | StmtKind.While c _ | StmtKind.DoWhile _ c => [c]
  | StmtKind.For _ c _ _ => option_list c
  | StmtKind.Switch e arms => e :: concat (arm_values <$> arms)
  | StmtKind.Return v => option_list v
  | StmtKind.Throw e => [e]
  | _ => []
  end.

(** The locals a statement declares or writes. *)
Definition stmt_writes (k : StmtKind.t) : list LocalId :=
  match k with
  | StmtKind.Let l _ => [l]
  | StmtKind.Assign l _ => [l]
  | _ => []
  end.

Definition expr_reads (k : ExprKind.t) : list LocalId :=
  match k with ExprKind.Local l => [l] | _ => [] end.

(** A declaration declares a [LocalVar], never a parameter. *)
Definition let_declares_local (ls : list Local_) (k : StmtKind.t) : Prop :=
  match k with
  | StmtKind.Let l _ => forall x, ls !! l = Some x -> local_kind x = LocalVar
  | _ => True
  end.

Record wf_expr (nlocals id : nat) (e : Expr) : Prop := {
  wfe_children : Forall (fun c => c < id) (expr_children (expr_kind e));
  wfe_locals : Forall (fun l => l < nlocals) (expr_reads (expr_kind e))
}.

Record wf_stmt (ls : list Local_) (nexprs id : nat) (s : Stmt) : Prop := {
  wfs_children : Forall (fun c => c < id) (stmt_children (stmt_kind s));
  wfs_exprs : Forall (fun e => e < nexprs) (stmt_exprs (stmt_kind s));
  wfs_locals : Forall (fun l => l < length ls) (stmt_writes (stmt_kind s));
  wfs_let : let_declares_local ls (stmt_kind s)
}.

(** References are in range, and every node is newer than the nodes it refers to. *)
Record wf_body (b : Body) : Prop := {
  wfb_exprs : forall id e, exprs b !! id = Some e -> wf_expr (length (locals b)) id e;
  wfb_stmts : forall id s, stmts b !! id = Some s ->
    wf_stmt (locals b) (length (exprs b)) id s;
  wfb_root : root b < length (stmts b)
}.

(** The accessors of [Body] return on every reference of a well-formed body. *)
Lemma wp_expr b id (Q : Expr -> Prop) :
  id < length (exprs b) -> (forall e, exprs b !! id = Some e -> Q e) -> wp (expr b id) Q.
Proof. apply wp_idx. Qed.

Lemma wp_stmt b id (Q : Stmt -> Prop) :
  id < length (stmts b) -> (forall s, stmts b !! id = Some s -> Q s) -> wp (stmt b id) Q.
Proof. apply wp_idx. Qed.

Lemma expr_Done b e ed : expr b e = Done ed <-> exprs b !! e = Some ed.
Proof. apply idx_Done. Qed.

Lemma stmt_Done b s sd : stmt b s = Done sd <-> stmts b !! s = Some sd.
Proof. apply idx_Done. Qed.

Section WfFacts.
Context (b : Body) (Hwf : wf_body b).

Lemma wf_expr_child id e c :
  exprs b !! id = Some e -> In c (expr_children (expr_kind e)) ->
  c < id /\ c < length (exprs b).
Proof.
  intros He Hc. pose proof (wfb_exprs b Hwf id e He) as [Hcs _].
  rewrite List.Forall_forall in Hcs. apply Hcs in Hc.
  apply lookup_lt_Some in He. lia.
Qed.

Lemma wf_expr_local id e l :
  exprs b !! id = Some e -> In l (expr_reads (expr_kind e)) -> l < length (locals b).
Proof.
  intros He Hl. pose proof (wfb_exprs b Hwf id e He) as [_ Hls].
  rewrite List.Forall_forall in Hls. auto.
Qed.

Lemma wf_stmt_child id s c :
  stmts b !! id = Some s -> In c (stmt_children (stmt_kind s)) ->
  c < id /\ c < length (stmts b).
Proof.
  intros Hs Hc. pose proof (wfb_stmts b Hwf id s Hs) as [Hcs _ _ _].
  rewrite List.Forall_forall in Hcs. apply Hcs in Hc.
  apply lookup_lt_Some in Hs. lia.
Qed.

Lemma wf_stmt_expr id s e :
  stmts b !! id = Some s -> In e (stmt_exprs (stmt_kind s)) -> e < length (exprs b).
Proof.
  intros Hs He. pose proof (wfb_stmts b Hwf id s Hs) as [_ Hes _ _].
  rewrite List.Forall_forall in Hes. auto.
Qed.

Lemma wf_stmt_local id s l :
  stmts b !! id = Some s -> In l (stmt_writes (stmt_kind s)) -> l < length (locals b).
Proof.
  intros Hs Hl. pose proof (wfb_stmts b Hwf id s Hs) as [_ _ Hls _].
  rewrite List.Forall_forall in Hls. auto.
Qed.
End WfFacts.

(** ** Deciding well-formedness *)

Definition wf_exprb (nlocals id : nat) (e : Expr) : bool :=
  forallb (fun c => bool_decide (c < id)) (expr_children (expr_kind e)) &&
  forallb (fun l => bool_decide (l < nlocals)) (expr_reads (expr_kind e)).

Definition let_declares_localb (ls : list Local_) (k : StmtKind.t) : bool :=
  match k with
  | StmtKind.Let l _ =>
      match ls !! l with
      | Some x => match local_kind x with LocalVar => true | Param => false end
      | None => true
      end
  | _ => true
  end.

Definition wf_stmtb (ls : list Local_) (nexprs id : nat) (s : Stmt) : bool :=
  forallb (fun c => bool_decide (c < id)) (stmt_children (stmt_kind s)) &&
  forallb (fun e => bool_decide (e < nexprs)) (stmt_exprs (stmt_kind s)) &&
  forallb (fun l => bool_decide (l < length ls)) (stmt_writes (stmt_kind s)) &&
  let_declares_localb ls (stmt_kind s).

Definition wf_bodyb (b : Body) : bool :=
  forallb id (imap (wf_exprb (length (locals b))) (exprs b)) &&
  forallb id (imap (wf_stmtb (locals b) (length (exprs b))) (stmts b)) &&
  bool_decide (root b < length (stmts b)).

Lemma forallb_imap_id {A} (f : nat -> A -> bool) (l : list A) i x :
  forallb id (imap f l) = true -> l !! i = Some x -> f i x = true.
Proof.
  intros Hall Hl. rewrite forallb_forall in Hall. apply (Hall (f i x)).
  apply list_elem_of_In, list_elem_of_lookup. exists i. by rewrite list_lookup_imap, Hl.
Qed.

Lemma forallb_lt_Forall (n : nat) (l : list nat) :
  forallb (fun c => bool_decide (c < n)) l = true -> Forall (fun c => c < n) l.
Proof.
  rewrite forallb_forall, List.Forall_forall. intros H x Hx.
  by apply H, bool_decide_eq_true in Hx.
Qed.

Lemma wf_bodyb_sound b : wf_bodyb b = true -> wf_body b.
Proof.
  unfold wf_bodyb. rewrite !andb_true_iff, bool_decide_eq_true.
  intros [[He Hs] Hr]. split; [| |done].
  - intros i e Hi. pose proof (forallb_imap_id _ _ _ _ He Hi) as H.
    unfold wf_exprb in H. apply andb_true_iff in H as [? ?].
    split; by apply forallb_lt_Forall.
  - intros i s Hi. pose proof (forallb_imap_id _ _ _ _ Hs Hi) as H.
    unfold wf_stmtb in H. rewrite !andb_true_iff in H. destruct H as [[[? ?] ?] H].
    split; [by apply forallb_lt_Forall..|].
    destruct (stmt_kind s); try done. intros x Hx. simpl in H. rewrite Hx in H.
    by destruct (local_kind x).
Qed.

(** ** The builder builds well-formed bodies *)

(** What the caller of the builder provides: references it got from the builder. *)
Inductive builder_op : Type :=
| OpLocal (name : string) (kind : LocalKind) (span : Span)
| OpExpr (kind : ExprKind.t) (span : Span)
| OpStmt (kind : StmtKind.t) (span : Span).

Definition apply_op (op : builder_op) (b : BodyBuilder.t) : nat * BodyBuilder.t :=
  match op with
  | OpLocal n k s => BodyBuilder.local_with_span n k s b
  | OpExpr k s => BodyBuilder.expr_with_span k s b
  | OpStmt k s => BodyBuilder.stmt_with_span k s b
  end.

(** The references of an operation name nodes the builder has already made. *)
Definition op_refs_ok (op : builder_op) (b : BodyBuilder.t) : Prop :=
  match op with
  | OpLocal _ _ _ => True
  | OpExpr k s =>
      wf_expr (length (BodyBuilder.b_locals b)) (length (BodyBuilder.b_exprs b)) (mkExpr k s)
  | OpStmt k s =>
      wf_stmt (BodyBuilder.b_locals b) (length (BodyBuilder.b_exprs b))
        (length (BodyBuilder.b_stmts b)) (mkStmt k s)
  end.

(** The bodies under construction that a caller can reach. *)
Inductive built : BodyBuilder.t -> Prop :=
| built_new : built BodyBuilder.new
| built_op b op : built b -> op_refs_ok op b -> built (apply_op op b).2.

Lemma wf_stmt_locals_app ls1 ls2 nexprs n s :
  wf_stmt ls1 nexprs n s -> wf_stmt (ls1 ++ ls2) nexprs n s.
Proof.
  intros [H1 H2 H3 H4]. split; [done..| |].
  - eapply List.Forall_impl; [|exact H3]. intros l Hl. simpl in Hl. rewrite length_app. lia.
  - destruct (stmt_kind s); try done. simpl in *. intros x Hx.
    apply Forall_inv in H3. apply H4. by rewrite lookup_app_l in Hx.
Qed.

Lemma wf_stmt_exprs_le ls n m id s : n <= m -> wf_stmt ls n id s -> wf_stmt ls m id s.
Proof.
  intros Hle [H1 H2 H3 H4]. split; try done.
  eapply List.Forall_impl; [|exact H2]. simpl. lia.
Qed.

Lemma wf_expr_locals_le n m id e : n <= m -> wf_expr n id e -> wf_expr m id e.
Proof.
  intros Hle [H1 H2]. split; [done|]. eapply List.Forall_impl; [|exact H2]. simpl. lia.
Qed.

Lemma lookup_snoc_Some' {A} (l : list A) x i y :
  (l ++ [x]) !! i = Some y -> l !! i = Some y \/ (i = length l /\ y = x).
Proof. rewrite lookup_snoc_Some. naive_solver. Qed.

Lemma built_wf b :
  built b ->
  (forall id e, BodyBuilder.b_exprs b !! id = Some e ->
     wf_expr (length (BodyBuilder.b_locals b)) id e) /\
  (forall id s, BodyBuilder.b_stmts b !! id = Some s ->
     wf_stmt (BodyBuilder.b_locals b) (length (BodyBuilder.b_exprs b)) id s).
Proof.
  induction 1 as [|b op Hb [IHe IHs] Hrefs]; [by split|].
  destruct op as [n k s|k s|k s]; simpl in *; split; intros i x Hx.
  - rewrite length_app. eapply wf_expr_locals_le; [|by apply IHe]. lia.
  - by apply wf_stmt_locals_app, IHs.
  - apply lookup_snoc_Some' in Hx as [Hx|[-> ->]]; [by apply IHe|done].
  - rewrite length_app. eapply wf_stmt_exprs_le; [|by apply IHs]. lia.
  - by apply IHe.
  - apply lookup_snoc_Some' in Hx as [Hx|[-> ->]]; [by apply IHs|done].
Qed.

Lemma id_of_len_small n : (N.of_nat n < 2 ^ 32)%N -> id_of_len n = n.
Proof. intros H. unfold id_of_len. rewrite N.mod_small by done. lia. Qed.

(** A body that is built through [BodyBuilder], from nodes that refer to nodes the builder
    has already handed out, is well formed when it is finished: every reference is in range and
    the references of expressions and statements go backwards. *)
Theorem builder_finish_wf b r :
  built b -> r < length (BodyBuilder.b_stmts b) -> wf_body (BodyBuilder.finish r b).
Proof. intros [He Hs]%built_wf Hr. by split. Qed.

(** What the accessors return for the id an operation handed out. *)
Definition op_resolves (op : builder_op) (id : nat) (body : Body) : Prop :=
  match op with
  | OpLocal n k s => locals body !! id = Some (mkLocal n k s)
  | OpExpr k s => expr body id = Done (mkExpr k s)
  | OpStmt k s => stmt body id = Done (mkStmt k s)
  end.

Definition arena_len (op : builder_op) (b : BodyBuilder.t) : nat :=
  match op with
  | OpLocal _ _ _ => length (BodyBuilder.b_locals b)
  | OpExpr _ _ => length (BodyBuilder.b_exprs b)
  | OpStmt _ _ => length (BodyBuilder.b_stmts b)
  end.

(** Later operations only append. *)
Inductive extends : BodyBuilder.t -> BodyBuilder.t -> Prop :=
| extends_refl b : extends b b
| extends_op b b' op : extends b b' -> extends b (apply_op op b').2.

Lemma extends_prefix b b' :
  extends b b' ->
  BodyBuilder.b_locals b `prefix_of` BodyBuilder.b_locals b' /\
  BodyBuilder.b_exprs b `prefix_of` BodyBuilder.b_exprs b' /\
  BodyBuilder.b_stmts b `prefix_of` BodyBuilder.b_stmts b'.
Proof.
  induction 1 as [b|b b' op _ (IH1 & IH2 & IH3)]; [done|].
  destruct op; simpl; auto using prefix_app_r.
Qed.

(** An id handed out by the builder resolves, in the finished body, to the node it was handed out for,
    whatever is built in between, as long as the arena has fewer than [2^32] nodes. *)
Theorem builder_id_resolves op b b' r :
  extends (apply_op op b).2 b' ->
  (N.of_nat (arena_len op b) < 2 ^ 32)%N ->
  op_resolves op (apply_op op b).1 (BodyBuilder.finish r b').
Proof.
  intros (Hl & He & Hs)%extends_prefix Hsmall.
  destruct op as [n k s|k s|k s]; simpl in *; rewrite id_of_len_small by done.
  - eapply prefix_lookup_Some; [|done]. by apply lookup_snoc_Some; auto.
  - apply idx_Done. eapply prefix_lookup_Some; [|done]. by apply lookup_snoc_Some; auto.
  - apply idx_Done. eapply prefix_lookup_Some; [|done]. by apply lookup_snoc_Some; auto.
Qed.

(** ** An example

<<
    void m(Object p) {
      Object x;
      if (p == null) { x = p; }
      x.foo();
    }
>> *)

Definition sample_builder : BodyBuilder.t :=
  let add op b := (apply_op op b).2 in
  foldl (fun b op => add op b) BodyBuilder.new
    [ OpLocal "p" Param (mkSpan 7 8);
      OpLocal "x" LocalVar (mkSpan 20 21);
      OpExpr (ExprKind.Local 0) (mkSpan 30 31);
      OpExpr ExprKind.Null (mkSpan 35 39);
      OpExpr (ExprKind.Binary EqEq 0 1) (mkSpan 30 39);
      OpExpr (ExprKind.Local 0) (mkSpan 47 48);
      OpExpr (ExprKind.Local 1) (mkSpan 55 56);
      OpExpr (ExprKind.Call (Some 4) "foo" []) (mkSpan 55 62);
      OpStmt (StmtKind.Let 1 None) (mkSpan 13 22);
      OpStmt (StmtKind.Assign 1 3) (mkSpan 43 49);
      OpStmt (StmtKind.Block [1]) (mkSpan 41 51);
      OpStmt (StmtKind.If 2 2 None) (mkSpan 26 51);
      OpStmt (StmtKind.Expr 5) (mkSpan 55 63);
      OpStmt (StmtKind.Block [0; 3; 4]) (mkSpan 10 65) ].

Definition sample_body : Body := BodyBuilder.finish 5 sample_builder.

Lemma sample_body_wf : wf_body sample_body.
Proof. apply wf_bodyb_sound. vm_compute. reflexivity. Qed.

(** The builder of [Body::empty], through the operations. *)
Definition empty_op : builder_op := OpStmt (StmtKind.Block []) (mkSpan 0 9).

Lemma builder_finish_wf_witness : wf_body (empty_body (mkSpan 0 9)).
Proof.
  apply (builder_finish_wf (apply_op empty_op BodyBuilder.new).2 0); [|simpl; lia].
  apply (built_op BodyBuilder.new empty_op built_new). split; constructor.
Defined.

Lemma builder_id_resolves_witness :
  stmt sample_body 1 = Done (mkStmt (StmtKind.Assign 1 3) (mkSpan 43 49)).
Proof.
  pose (b := BodyBuilder.mk (BodyBuilder.b_locals sample_builder)
    (BodyBuilder.b_exprs sample_builder) (take 1 (BodyBuilder.b_stmts sample_builder))).
  pose (op := OpStmt (StmtKind.Assign 1 3) (mkSpan 43 49)).
  apply (builder_id_resolves op b sample_builder 5).
  - apply (extends_op _ _ (OpStmt (StmtKind.Block [0; 3; 4]) (mkSpan 10 65))).
    apply (extends_op _ _ (OpStmt (StmtKind.Expr 5) (mkSpan 55 63))).
    apply (extends_op _ _ (OpStmt (StmtKind.If 2 2 None) (mkSpan 26 51))).
    apply (extends_op _ _ (OpStmt (StmtKind.Block [1]) (mkSpan 41 51))).
    apply extends_refl.
  - vm_compute. reflexivity.
Defined.
