(* ===== verification/Cfg.v ===== *)
(** * Control-flow graphs (crates/nova-flow/src/cfg.rs)

    Basic blocks and terminators, the iterator over the successors of a terminator, the
    graph builder and the computation of the reachable blocks.  The theorems: the iterator
    yields the successor list; [build] recomputes exactly the inverse of the successor
    relation; [reachable_blocks] ends and marks exactly the blocks that a path from the
    entry reaches. *)

From stdpp Require Import base list numbers strings option relations.
From S2P Require Import Prelude HirBody.

(** [BlockId(usize)]. *)
Notation BlockId := nat (only parsing).

Module Terminator.

Inductive t :=
| Goto (target : BlockId) (from : option StmtId)
| Multi (targets : list BlockId) (from : StmtId)
| If (condition : ExprId) (then_target else_target : BlockId) (from : StmtId)
| Switch (expression : ExprId) (targets : list BlockId) (from : StmtId)
| Return (value : option ExprId) (from : StmtId)
| Throw (exception : ExprId) (from : StmtId)
| Exit.

End Terminator.

(** ** The successor iterator *)

Module Successors.

(** [Many(iter, extra)] holds the rest of the slice iterator and an optional last item. *)
Inductive t :=
| None_
| One (bb : BlockId)
| Two (blocks : BlockId * BlockId) (index : nat)
| Many (iter : list BlockId) (extra : option BlockId).

(** [Iterator::next]. *)
Definition next (s : t) : option BlockId * t :=
  match s with
  | None_ => (None, None_)
  | One bb => (Some bb, None_)
  | Two (a, b) index =>
      let out := [a; b] !! index in
      let index := S index in
      (out, if decide (2 <= index) then None_ else Two (a, b) index)
  | Many (x :: iter) extra => (Some x, Many iter extra)
  | Many [] extra => (extra, Many [] None)
  end.

(** What a [for] loop over the iterator sees, with at most [fuel] calls of [next]. *)
Fixpoint collect (fuel : nat) (s : t) : run (list BlockId) :=
  match fuel with
  | 0 => OutOfFuel
  | S fuel =>
      match next s with
      | (None, _) => Done []
      | (Some x, s') => xs ← collect fuel s'; Done (x :: xs)
      end
  end.

End Successors.

(** [Terminator::successors]. *)
Definition terminator_successors (term : Terminator.t) : Successors.t :=
  match term with
  | Terminator.Goto target _ => Successors.One target
  | Terminator.If _ then_target else_target _ => Successors.Two (then_target, else_target) 0
  | Terminator.Multi targets _ | Terminator.Switch _ targets _ => Successors.Many targets None
  | Terminator.Return _ _ | Terminator.Throw _ _ | Terminator.Exit => Successors.None_
  end.

(** [Terminator::from_stmt]. *)
Definition from_stmt (term : Terminator.t) : option StmtId :=
  match term with
  | Terminator.Goto _ from => from
  | Terminator.If _ _ _ from => Some from
  | Terminator.Switch _ _ from => Some from
  | Terminator.Multi _ from => Some from
  | Terminator.Return _ from => Some from
  | Terminator.Throw _ from => Some from
  | Terminator.Exit => None
  end.

Record BasicBlock := mkBlock { bb_stmts : list StmtId; bb_term : Terminator.t }.

(** The items of the successor iterator, as a list. *)
Definition term_succs (term : Terminator.t) : list BlockId :=
  match term with
  | Terminator.Goto target _ => [target]
  | Terminator.If _ t e _ => [t; e]
  | Terminator.Multi ts _ | Terminator.Switch _ ts _ => ts
  | _ => []
  end.

(** [BasicBlock::successors], drained. *)
Definition succs (bb : BasicBlock) : list BlockId := term_succs (bb_term bb).

(** ** Graphs *)

Record ControlFlowGraph := mkCfg {
  entry : BlockId;
  blocks : list BasicBlock;
  preds : list (list BlockId)
}.

(** [ControlFlowGraph::block], [predecessors], [successors]: they panic out of range. *)
Definition block (g : ControlFlowGraph) (id : BlockId) : run BasicBlock := idx (blocks g) id.

Definition predecessors (g : ControlFlowGraph) (id : BlockId) : run (list BlockId) :=
  idx (preds g) id.

Definition successors (g : ControlFlowGraph) (id : BlockId) : run (list BlockId) :=
  bb ← idx (blocks g) id; Done (succs bb).

(** The [while let Some(bb) = stack.pop()] loop of [reachable_blocks_with]; the stack has
    its top first, so [stack.extend] puts the successors in reverse order in front. *)
Fixpoint reachable_loop (fuel : nat) (g : ControlFlowGraph) (stack : list BlockId)
    (reachable : list bool) : run (list bool) :=
  match fuel with
  | 0 => OutOfFuel
  | S fuel =>
      match stack with
      | [] => Done reachable
      | bb :: stack =>
          seen ← idx reachable bb;
          if seen : bool then reachable_loop fuel g stack reachable
          else
            reachable ← set_idx reachable bb true;
            ss ← successors g bb;
            reachable_loop fuel g (rev ss ++ stack) reachable
      end
  end.

(** One more than the number of edges: each edge is pushed at most once, and the entry. *)
Definition edge_count (bs : list BasicBlock) : nat :=
  sum_list ((fun bb => length (succs bb)) <$> bs).

Definition reach_fuel (g : ControlFlowGraph) : nat := 2 + edge_count (blocks g).

(** [reachable_blocks_with]; [check_cancelled] does nothing when called from
    [reachable_blocks]. *)
Definition reachable_blocks (g : ControlFlowGraph) : run (list bool) :=
  reachable_loop (reach_fuel g) g [entry g] (replicate (length (blocks g)) false).

(** ** The builder *)

Record CfgBuilder := mkBuilder { cb_blocks : list BasicBlock; cb_preds : list (list BlockId) }.

Definition builder_new : CfgBuilder := mkBuilder [] [].

Definition new_block (b : CfgBuilder) : BlockId * CfgBuilder :=
  (length (cb_blocks b),
   mkBuilder (cb_blocks b ++ [mkBlock [] Terminator.Exit]) (cb_preds b ++ [[]])).

Definition push_stmt (bb : BlockId) (s : StmtId) (b : CfgBuilder) : run CfgBuilder :=
  blk ← idx (cb_blocks b) bb;
  bs ← set_idx (cb_blocks b) bb (mkBlock (bb_stmts blk ++ [s]) (bb_term blk));
  Done (mkBuilder bs (cb_preds b)).

Definition set_terminator (bb : BlockId) (term : Terminator.t) (b : CfgBuilder)
    : run CfgBuilder :=
  blk ← idx (cb_blocks b) bb;
  bs ← set_idx (cb_blocks b) bb (mkBlock (bb_stmts blk) term);
  Done (mkBuilder bs (cb_preds b)).

(** [self.preds[to].push(from)]. *)
Definition push_pred (from : BlockId) (ps : list (list BlockId)) (to : BlockId)
    : run (list (list BlockId)) :=
  p ← idx ps to; set_idx ps to (p ++ [from]).

Definition build (b : CfgBuilder) (e : BlockId) : run ControlFlowGraph :=
  let cleared := (fun _ => []) <$> cb_preds b in
  ps ← for_each (fun ps '(from, bb) => for_each (push_pred from) (succs bb) ps)
         (imap pair (cb_blocks b)) cleared;
  Done (mkCfg e (cb_blocks b) ps).

(** ** Well-formed graphs *)

Definition edge (g : ControlFlowGraph) (p s : BlockId) : Prop :=
  exists bb, blocks g !! p = Some bb /\ s ∈ succs bb.

(** Every edge target is a block, and the two targets of a conditional differ. *)
Definition wf_term (n : nat) (term : Terminator.t) : Prop :=
  Forall (fun s => s < n) (term_succs term) /\
  match term with Terminator.If _ t e _ => t <> e | _ => True end.

Record wf_cfg (g : ControlFlowGraph) : Prop := {
  wfc_entry : entry g < length (blocks g);
  wfc_terms : forall i bb, blocks g !! i = Some bb -> wf_term (length (blocks g)) (bb_term bb);
  wfc_preds_len : length (preds g) = length (blocks g);
  wfc_preds : forall i ps p, preds g !! i = Some ps -> (p ∈ ps <-> edge g p i)
}.

(** [b] is on a path from the entry. *)
Definition reachable (g : ControlFlowGraph) (b : BlockId) : Prop := rtc (edge g) (entry g) b.

(** ** The successor iterator yields the successor list *)

Lemma collect_many l fuel :
  length l < fuel -> Successors.collect fuel (Successors.Many l None) = Done l.
Proof.
  revert fuel; induction l as [|x l IH]; intros [|fuel] Hf; simpl in *; try lia; [done|].
  rewrite IH by lia. done.
Qed.

(** The iterator [Terminator::successors] returns yields exactly the successors of the
    terminator, in order, and then stops. *)
Theorem successors_iterator term fuel :
  length (term_succs term) < fuel ->
  Successors.collect fuel (terminator_successors term) = Done (term_succs term).
Proof.
  destruct term; simpl; intros Hf; try by (apply collect_many).
  all: repeat (destruct fuel as [|fuel]; [simpl in *; lia|]); done.
Qed.

Lemma successors_iterator_witness :
  Successors.collect 4 (terminator_successors (Terminator.If 0 3 5 0)) = Done [3; 5].
Proof. apply (successors_iterator (Terminator.If 0 3 5 0) 4). simpl. lia. Defined.

(** ** [build] computes the predecessors *)

(** [p] occurs in the list at [i] exactly when [E p i]. *)
Definition preds_are (n : nat) (E : BlockId -> BlockId -> Prop) (ps : list (list BlockId)) :=
  length ps = n /\ forall i l p, ps !! i = Some l -> (p ∈ l <-> E p i).

Lemma preds_are_ext n (E F : BlockId -> BlockId -> Prop) ps :
  (forall p i, E p i <-> F p i) -> preds_are n E ps -> preds_are n F ps.
Proof. intros HEF [Hn Hp]. split; [done|]. intros i l p Hl. rewrite <-HEF. by apply Hp. Qed.

Lemma wp_push_pred n E from ps to :
  preds_are n E ps -> to < n ->
  wp (push_pred from ps to)
     (preds_are n (fun p i => E p i \/ (p = from /\ i = to))).
Proof.
  intros [Hn Hp] Hto. unfold push_pred. apply wp_bind, wp_idx; [lia|]. intros l Hl.
  apply wp_set_idx; [lia|]. split; [by rewrite length_insert|].
  intros i l' p Hl'. destruct (decide (i = to)) as [->|Hne].
  - rewrite list_lookup_insert_eq in Hl' by lia. injection Hl' as <-.
    rewrite elem_of_app, list_elem_of_singleton, (Hp _ _ p Hl). naive_solver.
  - rewrite list_lookup_insert_ne in Hl' by done. rewrite (Hp _ _ p Hl'). naive_solver.
Qed.

Lemma wp_push_preds n E from ps ss :
  preds_are n E ps -> Forall (fun s => s < n) ss ->
  wp (for_each (push_pred from) ss ps)
     (preds_are n (fun p i => E p i \/ (p = from /\ i ∈ ss))).
Proof.
  intros Hps Hss.
  apply (wp_for_each (push_pred from) ss
    (fun dn => preds_are n (fun p i => E p i \/ (p = from /\ i ∈ dn)))).
  - eapply preds_are_ext; [|exact Hps]. intros p i. set_solver.
  - intros dn x rest ps' Heq Hdn. subst ss.
    apply Forall_app in Hss as [_ [Hx _]%Forall_cons].
    eapply wp_mono; [by apply wp_push_pred|]. intros ps''.
    apply preds_are_ext. intros p i. set_solver.
Qed.

(** The edges that leave the blocks numbered below [k]. *)
Definition edge_upto (bs : list BasicBlock) (k : nat) (p s : BlockId) : Prop :=
  p < k /\ exists bb, bs !! p = Some bb /\ s ∈ succs bb.

Lemma imap_pair_split {A} (l : list A) dn i x rest :
  imap pair l = dn ++ (i, x) :: rest -> i = length dn /\ l !! i = Some x.
Proof.
  intros H. assert (Hi : imap pair l !! length dn = Some (i, x)).
  { by rewrite H, list_lookup_middle. }
  rewrite list_lookup_imap in Hi. destruct (l !! length dn) eqn:E; naive_solver.
Qed.

Lemma wp_build b e :
  length (cb_preds b) = length (cb_blocks b) ->
  e < length (cb_blocks b) ->
  (forall i bb, cb_blocks b !! i = Some bb -> wf_term (length (cb_blocks b)) (bb_term bb)) ->
  wp (build b e) (fun g => wf_cfg g /\ entry g = e /\ blocks g = cb_blocks b).
Proof.
  intros Hlen He Hterms. set (n := length (cb_blocks b)).
  eapply wp_seq.
  - apply (wp_for_each _ (imap pair (cb_blocks b))
      (fun dn => preds_are n (edge_upto (cb_blocks b) (length dn)))).
    + split; [by rewrite length_fmap|]. intros i l p Hl.
      apply list_lookup_fmap_Some in Hl as (? & -> & ?).
      unfold edge_upto. simpl. split; [by intros ?%not_elem_of_nil|lia].
    + intros dn [from bb] rest ps Heq Hps.
      apply imap_pair_split in Heq as [-> Hbb].
      eapply wp_mono; [apply (wp_push_preds n _ _ _ _ Hps), (Hterms _ _ Hbb)|].
      intros ps'. apply preds_are_ext. intros p i. unfold edge_upto.
      rewrite length_app. simpl. split.
      * intros [[? ?]|[-> ?]]; split; eauto; lia.
      * intros [Hp (bb' & Hbb' & Hs)].
        destruct (decide (p = length dn)) as [->|]; [right; split; [done|]; by simplify_eq|].
        left. split; [lia|eauto].
  - intros ps [Hps1 Hps2]. split; [|done]. split; simpl; try done.
    intros i l p Hl. rewrite (Hps2 i l p Hl). unfold edge_upto, edge. simpl.
    rewrite length_imap. split; [naive_solver|].
    intros (bb & Hbb & Hs). split; [by eapply lookup_lt_Some|eauto].
Qed.

(** ** [reachable_blocks] computes reachability *)

Lemma wf_cfg_edge g p s : wf_cfg g -> edge g p s -> s < length (blocks g).
Proof.
  intros Hwf (bb & Hbb & Hs). destruct (wfc_terms g Hwf _ _ Hbb) as [H _].
  rewrite Forall_forall in H. by apply H.
Qed.

Lemma reachable_lt g b : wf_cfg g -> reachable g b -> b < length (blocks g).
Proof.
  intros Hwf Hr. apply rtc_inv_r in Hr as [<-|(p & _ & Hp)].
  - by apply wfc_entry.
  - by eapply wf_cfg_edge.
Qed.

(** The edges that leave blocks not marked yet. *)
Fixpoint pending (bs : list BasicBlock) (r : list bool) : nat :=
  match bs, r with
  | bb :: bs, m :: r => (if m : bool then 0 else length (succs bb)) + pending bs r
  | _, _ => 0
  end.

Lemma pending_insert bs r i bb :
  bs !! i = Some bb -> r !! i = Some false ->
  pending bs r = length (succs bb) + pending bs (<[i := true]> r).
Proof.
  revert r i; induction bs as [|bb' bs IH]; intros [|m r] [|i] Hb Hr; simplify_eq/=; [lia|].
  rewrite (IH _ _ Hb Hr). lia.
Qed.

Lemma pending_replicate bs : pending bs (replicate (length bs) false) = edge_count bs.
Proof. induction bs as [|bb bs IH]; simpl; [done|]. rewrite IH. done. Qed.

Section Reach.
Context (g : ControlFlowGraph) (Hwf : wf_cfg g).

Record reach_inv (stack : list BlockId) (r : list bool) : Prop := {
  ri_len : length r = length (blocks g);
  ri_stack : forall b, b ∈ stack -> reachable g b;
  ri_sound : forall b, r !! b = Some true -> reachable g b;
  ri_entry : entry g ∈ stack \/ r !! entry g = Some true;
  ri_closed : forall p s, r !! p = Some true -> edge g p s -> s ∈ stack \/ r !! s = Some true
}.

Lemma reach_inv_skip bb stack r :
  reach_inv (bb :: stack) r -> r !! bb = Some true -> reach_inv stack r.
Proof.
  intros [H1 H2 H3 H4 H5] Hbb. split; [done|set_solver|done| |].
  - destruct H4 as [[->|?]%elem_of_cons|?]; auto.
  - intros p s Hp He. destruct (H5 p s Hp He) as [[->|?]%elem_of_cons|?]; auto.
Qed.

Lemma reach_inv_mark bb stack r blk :
  reach_inv (bb :: stack) r -> blocks g !! bb = Some blk ->
  reach_inv (rev (succs blk) ++ stack) (<[bb := true]> r).
Proof.
  intros [H1 H2 H3 H4 H5] Hblk.
  assert (Hlt : bb < length r) by (rewrite H1; by eapply lookup_lt_Some).
  assert (Hbb : reachable g bb) by set_solver.
  assert (Hmark : forall b, r !! b = Some true -> <[bb:=true]> r !! b = Some true).
  { intros b Hb. destruct (decide (bb = b)) as [->|];
      [by apply list_lookup_insert_eq|by rewrite list_lookup_insert_ne]. }
  assert (Hself : <[bb:=true]> r !! bb = Some true) by by apply list_lookup_insert_eq.
  split.
  - by rewrite length_insert.
  - intros b [Hb|?]%elem_of_app; [|set_solver].
    apply list_elem_of_In in Hb. rewrite <-in_rev in Hb. apply list_elem_of_In in Hb.
    eapply rtc_r; [exact Hbb|]. by exists blk.
  - intros b Hb. apply list_lookup_insert_Some in Hb as [(<- & _ & _)|[_ Hb]]; auto.
  - destruct H4 as [[->|?]%elem_of_cons|?]; [by right|left; set_solver|right; auto].
  - intros p s Hp He.
    apply list_lookup_insert_Some in Hp as [(<- & _ & _)|[_ Hp]].
    + destruct He as (blk' & Hblk' & Hs). simplify_eq. left. apply elem_of_app. left.
      apply list_elem_of_In. rewrite <-in_rev. by apply list_elem_of_In.
    + destruct (H5 p s Hp He) as [[->|?]%elem_of_cons|?]; [by right|left; set_solver|auto].
Qed.

Lemma reach_inv_final r :
  reach_inv [] r -> forall b, r !! b = Some true <-> reachable g b.
Proof.
  intros [H1 H2 H3 H4 H5] b. split; [apply H3|].
  assert (Hgen : forall x y, rtc (edge g) x y -> r !! x = Some true -> r !! y = Some true).
  { induction 1 as [|x y z Hxy _ IH]; [done|]. intros Hx. apply IH.
    destruct (H5 _ _ Hx Hxy); [set_solver|done]. }
  intros Hr. apply (Hgen _ _ Hr). destruct H4; [set_solver|done].
Qed.

Lemma wp_reachable_loop fuel stack r :
  reach_inv stack r -> length stack + pending (blocks g) r < fuel ->
  wp (reachable_loop fuel g stack r)
     (fun r => length r = length (blocks g) /\ forall b, r !! b = Some true <-> reachable g b).
Proof.
  revert stack r; induction fuel as [|fuel IH]; intros stack r Hinv Hf; [lia|].
  destruct stack as [|bb stack]; simpl.
  { split; [apply Hinv|by apply reach_inv_final]. }
  assert (Hbb : bb < length (blocks g)).
  { apply reachable_lt; [done|]. apply (ri_stack _ _ Hinv). set_solver. }
  apply wp_bind, wp_idx; [by rewrite (ri_len _ _ Hinv)|]. intros [] Hr.
  - apply IH; [by eapply reach_inv_skip|]. simpl in Hf. lia.
  - apply wp_bind, wp_set_idx; [by rewrite (ri_len _ _ Hinv)|].
    apply wp_bind, wp_bind, wp_idx; [done|]. intros blk Hblk. simpl.
    apply IH; [by apply reach_inv_mark|].
    pose proof (pending_insert _ _ _ _ Hblk Hr). simpl in Hf.
    rewrite length_app, length_rev. lia.
Qed.

Lemma wp_reachable_blocks :
  wp (reachable_blocks g)
     (fun r => length r = length (blocks g) /\ forall b, r !! b = Some true <-> reachable g b).
Proof.
  apply wp_reachable_loop.
  - split.
    + by rewrite length_replicate.
    + intros b ->%list_elem_of_singleton. apply rtc_refl.
    + intros b [? _]%lookup_replicate_1. done.
    + left. by apply list_elem_of_singleton.
    + intros p s [? _]%lookup_replicate_1. done.
  - unfold reach_fuel. rewrite pending_replicate. simpl. lia.
Qed.
End Reach.

(** On a well-formed graph [reachable_blocks] returns, with one flag per block, set exactly
    for the blocks on a path from the entry. *)
Theorem reachable_blocks_exact g :
  wf_cfg g ->
  exists r, reachable_blocks g = Done r /\ length r = length (blocks g) /\
    forall x, r !! x = Some true <-> reachable g x.
Proof. intros Hwf. by apply wp_inv, wp_reachable_blocks. Qed.

(** A graph that [CfgBuilder::build] makes of blocks whose terminators go to blocks of the
    builder is well formed: its predecessor lists hold exactly the sources of the edges. *)
Theorem build_preds_exact c e :
  length (cb_preds c) = length (cb_blocks c) -> e < length (cb_blocks c) ->
  (forall i bb, cb_blocks c !! i = Some bb -> wf_term (length (cb_blocks c)) (bb_term bb)) ->
  exists g, build c e = Done g /\ blocks g = cb_blocks c /\ entry g = e /\
    forall i ps p, preds g !! i = Some ps -> (p ∈ ps <-> edge g p i).
Proof.
  intros H1 H2 H3. pose proof (wp_build c e H1 H2 H3) as (g & Hg & Hwf & He & Hb)%wp_inv.
  exists g. split_and!; [done..|]. apply Hwf.
Qed.

(** A builder with a loop: 0 goes to 1 or 2, 1 goes back to 0, 3 is not reachable. *)
Definition sample_cfg_builder : CfgBuilder :=
  mkBuilder
    [ mkBlock [] (Terminator.If 0 1 2 0); mkBlock [] (Terminator.Goto 0 None);
      mkBlock [] Terminator.Exit; mkBlock [] (Terminator.Goto 2 None) ]
    [[]; []; []; []].

Lemma sample_terms_wf i bb :
  cb_blocks sample_cfg_builder !! i = Some bb -> wf_term 4 (bb_term bb).
Proof.
  destruct i as [|[|[|[|i]]]]; intros [= <-]; split; simpl; try done;
    repeat (constructor; [lia|]); constructor.
Qed.

Definition sample_cfg : ControlFlowGraph :=
  mkCfg 0 (cb_blocks sample_cfg_builder) [[1]; [0]; [0; 3]; []].

Lemma build_preds_exact_witness :
  exists g, build sample_cfg_builder 0 = Done g /\ blocks g = cb_blocks sample_cfg_builder /\
    entry g = 0 /\ forall i ps p, preds g !! i = Some ps -> (p ∈ ps <-> edge g p i).
Proof.
  apply (build_preds_exact sample_cfg_builder 0); [done|simpl; lia|].
  apply sample_terms_wf.
Defined.

Lemma sample_cfg_wf : wf_cfg sample_cfg.
Proof.
  pose proof (wp_build sample_cfg_builder 0 eq_refl ltac:(simpl; lia) sample_terms_wf)
    as (g & Hg & Hwf & _)%wp_inv.
  vm_compute in Hg. injection Hg as <-. exact Hwf.
Qed.

Lemma reachable_blocks_exact_witness :
  exists r, reachable_blocks sample_cfg = Done r /\ length r = 4 /\
    forall x, r !! x = Some true <-> reachable sample_cfg x.
Proof. apply (reachable_blocks_exact sample_cfg), sample_cfg_wf. Defined.
