(* ===== verification/CfgBuildWf.v ===== *)
(** * The lowering returns a well-formed graph

    The invariant of [HirCfgBuilder] (crates/nova-flow/src/flow.rs): every block, [break] or
    [continue] target and [finally] target is in range, only simple statements are put in
    blocks, and nothing jumps to the entry block from elsewhere.  Every step of the builder
    preserves it, so [build_cfg] neither panics nor runs out of fuel on a well-formed body. *)

From stdpp Require Import base list numbers strings option sorting sets.
From S2P Require Import Prelude HirBody Cfg CfgBuild.

(** ** Totality of constant evaluation *)

Section ConstBool.
Context (b : Body) (Hwf : wf_body b).

Lemma wp_eval_const_bool_fuel fuel e :
  e < fuel -> e < length (exprs b) -> wp (eval_const_bool_fuel fuel b e) (fun _ => True).
Proof.
  revert e; induction fuel as [|fuel IH]; intros e Hf He; [lia|]. simpl.
  apply wp_bind, wp_expr; [done|]. intros ed Hed.
  assert (Hrec : forall c, In c (expr_children (expr_kind ed)) ->
    wp (eval_const_bool_fuel fuel b c) (fun _ => True)).
  { intros c Hc. destruct (wf_expr_child b Hwf _ _ _ Hed Hc). apply IH; lia. }
  destruct (expr_kind ed) as [| | | | | |[] c|[] l r| | |] eqn:Ek; simpl in *; try done.
  all: eapply wp_seq; [apply Hrec; by left|]; intros v _; simpl; try done.
  all: destruct v as [[]|]; try done; apply Hrec; auto.
Qed.

Lemma wp_eval_const_bool e :
  e < length (exprs b) -> wp (eval_const_bool b e) (fun _ => True).
Proof. intros He. by apply wp_eval_const_bool_fuel. Qed.
End ConstBool.

(** ** Total correctness in the builder monad *)

Definition wpm {A} (m : M A) (Q : A -> HirCfgBuilder -> Prop) (s : HirCfgBuilder) : Prop :=
  wp (m s) (fun '(a, s') => Q a s').

Lemma wpm_ret {A} (a : A) Q s : Q a s -> wpm (mret a) Q s.
Proof. done. Qed.

Lemma wpm_bind {A B} (m : M A) (f : A -> M B) Q s :
  wpm m (fun a s' => wpm (f a) Q s') s -> wpm (m ≫= f) Q s.
Proof. unfold wpm, mbind, M_bind. by destruct (m s) as [[a s']| |]. Qed.

Lemma wpm_mono {A} (m : M A) (Q R : A -> HirCfgBuilder -> Prop) s :
  wpm m Q s -> (forall a s', Q a s' -> R a s') -> wpm m R s.
Proof. intros HQ HR. eapply wp_mono; [exact HQ|]. intros [a s']. apply HR. Qed.

Lemma wpm_get Q s : Q s s -> wpm get_state Q s.
Proof. done. Qed.

Lemma wpm_lift {A} (m : run A) (P : A -> Prop) (Q : A -> HirCfgBuilder -> Prop) s :
  wp m P -> (forall a, P a -> Q a s) -> wpm (lift m) Q s.
Proof. unfold wpm, lift. destruct m; simpl; auto. Qed.

Notation nblocks s := (length (cb_blocks (cfg s))).

(** ** The invariant *)

(** The kinds of statement that are put into blocks. *)
Definition leaf_kind (k : StmtKind.t) : Prop :=
  match k with
  | StmtKind.Let _ _ | StmtKind.Assign _ _ | StmtKind.Expr _ | StmtKind.Nop
  | StmtKind.Return _ | StmtKind.Throw _ => True
  | _ => False
  end.

Definition leaf_stmt (b : Body) (st : StmtId) : Prop :=
  exists sd, stmts b !! st = Some sd /\ leaf_kind (stmt_kind sd).

(** The expressions a terminator evaluates. *)
Definition term_exprs (term : Terminator.t) : list ExprId :=
  match term with
  | Terminator.If c _ _ _ => [c]
  | Terminator.Switch e _ _ => [e]
  | Terminator.Return v _ => option_list v
  | Terminator.Throw e _ => [e]
  | _ => []
  end.

(** Terminators of block [i] of a graph of [n] blocks whose entry is [e0]. *)
Record term_ok (b : Body) (e0 n i : nat) (term : Terminator.t) : Prop := {
  tok_wf : wf_term n term;
  tok_entry : e0 ∈ term_succs term -> i = e0;
  tok_exprs : Forall (fun e => e < length (exprs b)) (term_exprs term);
  tok_from : forall st, from_stmt term = Some st -> st < length (stmts b)
}.

Record block_ok (b : Body) (e0 n i : nat) (bb : BasicBlock) : Prop := {
  bok_stmts : Forall (leaf_stmt b) (bb_stmts bb);
  bok_term : term_ok b e0 n i (bb_term bb)
}.

(** A jump target other than the entry. *)
Definition target_ok (e0 n t : nat) : Prop := t < n /\ t <> e0.

Record finally_ok (e0 n : nat) (ctx : FinallyContext) : Prop := {
  fok_bb : target_ok e0 n (finally_bb ctx);
  fok_scope : scope_start ctx < n;
  fok_targets : Forall (target_ok e0 n) (targets ctx)
}.

Definition break_ok (e0 n : nat) (ctx : BreakContext) : Prop :=
  target_ok e0 n (break_target ctx) /\
  forall t, continue_target ctx = Some t -> target_ok e0 n t.

Record inv (b : Body) (e0 : nat) (s : HirCfgBuilder) : Prop := {
  inv_preds : length (cb_preds (cfg s)) = nblocks s;
  inv_entry : e0 < nblocks s;
  inv_blocks : forall i bb, cb_blocks (cfg s) !! i = Some bb -> block_ok b e0 (nblocks s) i bb;
  inv_breaks : Forall (break_ok e0 (nblocks s)) (break_stack s);
  inv_finally : Forall (finally_ok e0 (nblocks s)) (finally_stack s);
  inv_exit : target_ok e0 (nblocks s) (exit_bb s)
}.

(** What a step leaves alone: blocks are never removed, and the stacks keep their shape. *)
Definition same_ctx (c c' : FinallyContext) : Prop :=
  finally_bb c = finally_bb c' /\ scope_start c = scope_start c'.

Record ext (s s' : HirCfgBuilder) : Prop := {
  ext_blocks : nblocks s <= nblocks s';
  ext_breaks : break_stack s' = break_stack s;
  ext_finally : Forall2 same_ctx (finally_stack s) (finally_stack s');
  ext_exit : exit_bb s' = exit_bb s
}.

Global Instance same_ctx_equiv : Equivalence same_ctx.
Proof. split; repeat intros []; split; congruence. Qed.

Global Instance ext_preorder : PreOrder ext.
Proof.
  split.
  - intros s. split; done.
  - intros s1 s2 s3 [H1 H2 H3 H4] [H5 H6 H7 H8]. split; [lia|congruence| |congruence].
    by etransitivity.
Qed.

(** A block into which a statement may be lowered: it is inside every open [try]. *)
Record in_scope (x : BlockId) (s : HirCfgBuilder) : Prop := {
  is_lt : x < nblocks s;
  is_inside : Forall (fun ctx => scope_start ctx < x) (finally_stack s)
}.

(** The post-condition of lowering a statement in state [s]. *)
Record lowered (b : Body) (e0 : nat) (s : HirCfgBuilder) (r : option BlockId)
    (s' : HirCfgBuilder) : Prop := {
  low_inv : inv b e0 s';
  low_ext : ext s s';
  low_res : forall x, r = Some x -> in_scope x s'
}.

(** ** Monotonicity *)

Lemma target_ok_mono e0 n m t : n <= m -> target_ok e0 n t -> target_ok e0 m t.
Proof. intros ? [? ?]. split; [lia|done]. Qed.

Lemma term_ok_mono b e0 n m i term : n <= m -> term_ok b e0 n i term -> term_ok b e0 m i term.
Proof.
  intros Hle [[H1 H1'] H2 H3 H4]. split; try done. split; [|done].
  eapply List.Forall_impl; [|exact H1]. simpl. lia.
Qed.

Lemma block_ok_mono b e0 n m i bb : n <= m -> block_ok b e0 n i bb -> block_ok b e0 m i bb.
Proof. intros Hle [H1 H2]. split; [done|]. by eapply term_ok_mono. Qed.

Lemma break_ok_mono e0 n m c : n <= m -> break_ok e0 n c -> break_ok e0 m c.
Proof.
  intros Hle [H1 H2]. split; [by eapply target_ok_mono|].
  intros t Ht. by eapply target_ok_mono, H2.
Qed.

Lemma finally_ok_mono e0 n m c : n <= m -> finally_ok e0 n c -> finally_ok e0 m c.
Proof.
  intros Hle [H1 H2 H3]. split; [by eapply target_ok_mono|lia|].
  eapply List.Forall_impl; [|exact H3]. intros t. by apply target_ok_mono.
Qed.

Lemma in_scope_ext x s s' : ext s s' -> in_scope x s -> in_scope x s'.
Proof.
  intros [H1 _ H3 _] [H4 H5]. split; [lia|].
  revert H5. induction H3 as [|c c' l l' [_ Hc] _ IH]; intros H5; [constructor|].
  apply Forall_cons in H5 as [? ?]. constructor; [by rewrite <-Hc|auto].
Qed.

(** A block created after [s] is inside every [try] that was open in [s]. *)
Lemma in_scope_fresh b e0 x s s' :
  inv b e0 s -> ext s s' -> nblocks s <= x -> x < nblocks s' -> in_scope x s'.
Proof.
  intros Hinv He Hx Hx'. split; [done|].
  assert (Hin : Forall (fun ctx => scope_start ctx < x) (finally_stack s)).
  { eapply List.Forall_impl; [|apply (inv_finally _ _ _ Hinv)].
    intros c [_ Hc _]. simpl. lia. }
  revert Hin. induction (ext_finally _ _ He) as [|c c' l l' [_ Hc] _ IH]; intros H; [done|].
  apply Forall_cons in H as [? ?]. constructor; [by rewrite <-Hc|auto].
Qed.

(** ** The primitive steps *)

Section Steps.
Context (b : Body) (e0 : nat).

(** Invariant kept, shape kept: the post-condition of a step without a result. *)
Definition kept (s : HirCfgBuilder) (_ : unit) (s' : HirCfgBuilder) : Prop :=
  inv b e0 s' /\ ext s s' /\ nblocks s' = nblocks s.

Lemma inv_with_blocks s c :
  inv b e0 s ->
  nblocks s <= length (cb_blocks c) ->
  length (cb_preds c) = length (cb_blocks c) ->
  (forall i bb, cb_blocks c !! i = Some bb -> block_ok b e0 (length (cb_blocks c)) i bb) ->
  inv b e0 (with_cfg c s) /\ ext s (with_cfg c s).
Proof.
  intros [H1 H2 H3 H4 H5 H6] Hle Hp Hb. split; split; simpl; try done; [lia| | |].
  - eapply List.Forall_impl; [|exact H4]. intros c'. by apply break_ok_mono.
  - eapply List.Forall_impl; [|exact H5]. intros c'. by apply finally_ok_mono.
  - by eapply target_ok_mono.
Qed.

Lemma wpm_new_block s (Q : BlockId -> HirCfgBuilder -> Prop) :
  inv b e0 s ->
  (forall s', inv b e0 s' -> ext s s' -> nblocks s' = S (nblocks s) -> Q (nblocks s) s') ->
  wpm m_new_block Q s.
Proof.
  intros Hinv HQ. unfold wpm, m_new_block. simpl.
  destruct (inv_with_blocks s (mkBuilder (cb_blocks (cfg s) ++ [mkBlock [] Terminator.Exit])
    (cb_preds (cfg s) ++ [[]])) Hinv) as [Hi He]; simpl.
  - rewrite length_app. lia.
  - rewrite !length_app. by rewrite (inv_preds _ _ _ Hinv).
  - intros i bb Hbb. rewrite length_app.
    apply lookup_snoc_Some' in Hbb as [Hbb|[-> ->]].
    + eapply block_ok_mono; [|by apply (inv_blocks _ _ _ Hinv)]. lia.
    + split; [constructor|]. split; simpl; try done; set_solver.
  - apply HQ; [done..|]. simpl. rewrite length_app. simpl. lia.
Qed.

Lemma inv_update_block s bb blk :
  inv b e0 s -> bb < nblocks s -> block_ok b e0 (nblocks s) bb blk ->
  kept s tt (with_cfg (mkBuilder (<[bb := blk]> (cb_blocks (cfg s))) (cb_preds (cfg s))) s).
Proof.
  intros Hinv Hbb Hok.
  destruct (inv_with_blocks s (mkBuilder (<[bb := blk]> (cb_blocks (cfg s)))
    (cb_preds (cfg s))) Hinv) as [Hi He]; simpl; rewrite ?length_insert.
  - done.
  - apply (inv_preds _ _ _ Hinv).
  - intros i bb' [(<- & -> & _)|[_ Hi]]%list_lookup_insert_Some; [done|].
    by apply (inv_blocks _ _ _ Hinv).
  - split; [done|split; [done|]]. simpl. by rewrite length_insert.
Qed.

Lemma wpm_set_terminator s bb term (Q : unit -> HirCfgBuilder -> Prop) :
  inv b e0 s -> bb < nblocks s -> term_ok b e0 (nblocks s) bb term ->
  (forall s', kept s tt s' -> Q tt s') ->
  wpm (m_set_terminator bb term) Q s.
Proof.
  intros Hinv Hbb Hok HQ. unfold wpm, m_set_terminator, set_terminator.
  apply wp_bind, wp_bind, wp_idx; [done|]. intros blk Hblk.
  apply wp_bind, wp_set_idx; [done|]. simpl. apply HQ, inv_update_block; [done..|].
  split; [apply (inv_blocks _ _ _ Hinv _ _ Hblk)|done].
Qed.

Lemma wpm_push_stmt s bb st (Q : unit -> HirCfgBuilder -> Prop) :
  inv b e0 s -> bb < nblocks s -> leaf_stmt b st ->
  (forall s', kept s tt s' -> Q tt s') ->
  wpm (m_push_stmt bb st) Q s.
Proof.
  intros Hinv Hbb Hok HQ. unfold wpm, m_push_stmt, push_stmt.
  apply wp_bind, wp_bind, wp_idx; [done|]. intros blk Hblk.
  apply wp_bind, wp_set_idx; [done|]. simpl. apply HQ, inv_update_block; [done..|].
  destruct (inv_blocks _ _ _ Hinv _ _ Hblk) as [H1 H2].
  split; [|done]. simpl. apply Forall_app. split; [done|]. by constructor.
Qed.

(** Jumps to an in-range target that is not the entry. *)
Lemma goto_ok n i t from :
  target_ok e0 n t -> (forall st, from = Some st -> st < length (stmts b)) ->
  term_ok b e0 n i (Terminator.Goto t from).
Proof.
  intros [H1 H2] Hf. split; simpl; [|set_solver|done|done].
  split; [|done]. by constructor.
Qed.

Lemma wpm_goto_from s fall t (Q : unit -> HirCfgBuilder -> Prop) :
  inv b e0 s -> (forall x, fall = Some x -> x < nblocks s) -> target_ok e0 (nblocks s) t ->
  (forall s', kept s tt s' -> Q tt s') ->
  wpm (goto_from fall t) Q s.
Proof.
  intros Hinv Hx Ht HQ. destruct fall as [x|]; simpl.
  - apply wpm_set_terminator; auto. by apply goto_ok.
  - apply HQ. by split.
Qed.

Lemma wpm_cond_terminator s bb c t e st (Q : unit -> HirCfgBuilder -> Prop) :
  wf_body b ->
  inv b e0 s -> bb < nblocks s -> c < length (exprs b) -> st < length (stmts b) ->
  target_ok e0 (nblocks s) t -> target_ok e0 (nblocks s) e -> t <> e ->
  (forall s', kept s tt s' -> Q tt s') ->
  wpm (cond_terminator b bb c t e st) Q s.
Proof.
  intros Hwf Hinv Hbb Hc Hst Ht He Hne HQ. apply wpm_bind.
  eapply wpm_lift; [by apply wp_eval_const_bool|]. intros v _.
  destruct v as [[]|]; apply wpm_set_terminator; auto.
  - apply goto_ok; naive_solver.
  - apply goto_ok; naive_solver.
  - destruct Ht, He. split; simpl; [|set_solver|by constructor|naive_solver].
    split; [|done]. by repeat constructor.
Qed.

(** The stack operations. *)
Lemma inv_set_stacks s bs fs :
  inv b e0 s -> Forall (break_ok e0 (nblocks s)) bs -> Forall (finally_ok e0 (nblocks s)) fs ->
  inv b e0 (mkHir (cfg s) bs fs (exit_bb s)).
Proof. intros [H1 H2 H3 H4 H5 H6] Hb Hf. by split. Qed.

Definition pushed_break (ctx : BreakContext) (s : HirCfgBuilder) : HirCfgBuilder :=
  mkHir (cfg s) (break_stack s ++ [ctx]) (finally_stack s) (exit_bb s).

(** A loop or [switch] body: the context is pushed, the body lowered, the context popped. *)
Lemma wpm_with_break {A B} (m : M A) (k : A -> M B) (P : A -> HirCfgBuilder -> Prop) ctx s
    (Q : B -> HirCfgBuilder -> Prop) :
  inv b e0 s -> break_ok e0 (nblocks s) ctx ->
  (forall s', inv b e0 s' -> cfg s' = cfg s -> finally_stack s' = finally_stack s ->
    wpm m (fun a s'' => inv b e0 s'' /\ ext s' s'' /\ P a s'') s') ->
  (forall a s'' s3, P a s'' -> inv b e0 s3 -> ext s s3 -> cfg s3 = cfg s'' ->
    finally_stack s3 = finally_stack s'' -> wpm (k a) Q s3) ->
  wpm (_ ← push_break ctx; a ← m; _ ← pop_break; k a) Q s.
Proof.
  intros Hinv Hctx Hm HQ. apply wpm_bind, wpm_bind, wpm_get. simpl.
  assert (Hi : inv b e0 (pushed_break ctx s)).
  { apply inv_set_stacks; [done| |apply Hinv].
    apply Forall_app. split; [apply Hinv|by constructor]. }
  apply wpm_bind. eapply wpm_mono; [by apply (Hm (pushed_break ctx s))|].
  intros a s'' (Hi'' & He'' & HP). apply wpm_bind, wpm_bind, wpm_get.
  pose proof (ext_breaks _ _ He'') as Hbs. simpl in Hbs.
  assert (Hrl : removelast (break_stack s'') = break_stack s).
  { rewrite Hbs. apply removelast_last. }
  apply (HQ a s''); try done.
  - apply inv_set_stacks; [done| |apply Hi'']. rewrite Hrl.
    pose proof (inv_breaks _ _ _ Hi'') as H. rewrite Hbs in H. by apply Forall_app in H as [? _].
  - destruct He'' as [E1 E2 E3 E4]. split; simpl in *; done.
Qed.
End Steps.

(** ** The statement kinds *)

(** Chains of [ext], and bounds on block numbers from the facts at hand. *)
Ltac ext_tac :=
  match goal with
  | |- ext ?x ?x => reflexivity
  | H : ext ?x ?y |- ext ?x ?y => exact H
  | H : ext ?x ?z |- ext ?x ?y => etransitivity; [exact H|]; ext_tac
  end.

Ltac blia :=
  repeat match goal with
  | H : ext _ _ |- _ => apply ext_blocks in H
  | H : inv _ _ _ |- _ => apply inv_entry in H
  | H : in_scope _ _ |- _ => apply is_lt in H
  | H : target_ok _ _ _ |- _ => destruct H
  end; unfold target_ok; lia.

(** [in_scope x s'] for an [x] that was in scope in, or created after, an earlier state. *)
Ltac scope_tac :=
  match goal with
  | H : in_scope ?x ?s |- in_scope ?x ?s' => apply (in_scope_ext x s s'); [ext_tac|exact H]
  | Hi : inv ?b ?e ?s |- in_scope ?x ?s' =>
      apply (in_scope_fresh b e x s s'); [exact Hi|ext_tac|solve [blia]|solve [blia]]
  end.

Ltac mnew s Hi He Hn :=
  apply wpm_bind; eapply wpm_new_block; [eassumption|]; intros s Hi He Hn.

Ltac mkept s Hi He Hn := intros s (Hi & He & Hn).

Section Kinds.
Context (b : Body) (e0 : nat) (Hwf : wf_body b).
Context (rec : StmtId -> BlockId -> M (option BlockId)) (bound : nat).
Context (Hrec : forall c entry s, c < bound -> inv b e0 s -> in_scope entry s ->
  wpm (rec c entry) (lowered b e0 s) s).

Lemma wpm_rec_bind {A} c entry s (k : option BlockId -> M A) Q :
  c < bound -> inv b e0 s -> in_scope entry s ->
  (forall r s', inv b e0 s' -> ext s s' -> (forall x, r = Some x -> in_scope x s') ->
    wpm (k r) Q s') ->
  wpm (r ← rec c entry; k r) Q s.
Proof.
  intros Hc Hi Hs Hk. apply wpm_bind. eapply wpm_mono; [by apply Hrec|].
  intros r s' [? ? ?]. by apply Hk.
Qed.

Lemma wpm_build_seq_loop ss rc uc s0 s :
  Forall (fun c => c < bound) ss -> inv b e0 s -> ext s0 s ->
  (forall x, rc = Some x -> in_scope x s) -> (forall x, uc = Some x -> in_scope x s) ->
  wpm (build_seq_loop rec ss rc uc) (lowered b e0 s0) s.
Proof.
  revert rc uc s; induction ss as [|st ss IH]; intros rc uc s Hss Hi He Hrc Huc; simpl.
  { apply wpm_ret. by split. }
  apply Forall_cons in Hss as [Hst Hss]. destruct rc as [cur|].
  - eapply wpm_rec_bind; [done..|by apply Hrc|]. intros r s' Hi' He' Hr.
    apply IH; [done..|ext_tac|done|]. intros x Hx. specialize (Huc x Hx). scope_tac.
  - assert (Hcont : forall cur s', inv b e0 s' -> ext s s' -> in_scope cur s' ->
      wpm (u ← rec st cur; build_seq_loop rec ss None u) (lowered b e0 s0) s').
    { intros cur s' Hi' He' Hcur. eapply wpm_rec_bind; [done..|]. intros r s2 Hi2 He2 Hr.
      apply IH; [done..|ext_tac|done|done]. }
    apply wpm_bind. destruct uc as [bb|].
    + apply wpm_ret, Hcont; auto. reflexivity.
    + eapply wpm_new_block; [eassumption|]. intros s' Hi' He' Hn.
      apply Hcont; auto. scope_tac.
Qed.

Lemma wpm_build_if st c t e entry s :
  st < length (stmts b) -> c < length (exprs b) -> t < bound ->
  (forall x, e = Some x -> x < bound) ->
  inv b e0 s -> in_scope entry s ->
  wpm (build_if b rec st c t e entry) (lowered b e0 s) s.
Proof.
  intros Hst Hc Ht He Hi Hsc. unfold build_if.
  mnew s1 Hi1 He1 Hn1. mnew s2 Hi2 He2 Hn2. mnew s3 Hi3 He3 Hn3.
  apply wpm_bind. eapply wpm_cond_terminator; try done; try blia.
  mkept s4 Hi4 He4 Hn4.
  eapply wpm_rec_bind; [done..|scope_tac|]. intros rt s5 Hi5 He5 Hrt.
  apply wpm_bind. eapply wpm_goto_from; [done|intros; by apply Hrt|blia|].
  mkept s6 Hi6 He6 Hn6.
  apply wpm_bind.
  assert (Hcont : forall re s7, inv b e0 s7 -> ext s6 s7 ->
    (forall x, re = Some x -> in_scope x s7) ->
    wpm (_ ← goto_from re (nblocks s2);
         mret (if is_some rt || is_some re then Some (nblocks s2) else None))
      (lowered b e0 s) s7).
  { intros re s7 Hi7 He7 Hre. apply wpm_bind.
    eapply wpm_goto_from; [done|intros; by apply Hre|blia|].
    mkept s8 Hi8 He8 Hn8. apply wpm_ret. split; [done|ext_tac|].
    intros x Hx. assert (x = nblocks s2) as -> by (destruct (_ || _); congruence). scope_tac. }
  destruct e as [e|].
  - eapply wpm_mono; [apply Hrec; [by apply He|done|scope_tac]|].
    intros re s7 [? ? ?]. by apply Hcont.
  - apply wpm_ret, Hcont; [done|reflexivity|]. intros x [= <-]. scope_tac.
Qed.

(** A loop body is lowered between [push_break] and [pop_break]. *)
Lemma wpm_loop_body {A} ctx body entry s (k : option BlockId -> M A) Q :
  body < bound -> inv b e0 s -> break_ok e0 (nblocks s) ctx -> in_scope entry s ->
  (forall r s', inv b e0 s' -> ext s s' -> (forall x, r = Some x -> in_scope x s') ->
    wpm (k r) Q s') ->
  wpm (_ ← push_break ctx; r ← rec body entry; _ ← pop_break; k r) Q s.
Proof.
  intros Hb Hi Hctx Hsc Hk.
  eapply (wpm_with_break b e0 (rec body entry) k
    (fun r s'' => forall x, r = Some x -> in_scope x s'')); [done..| |].
  - intros s' Hi' Hcfg Hfin. eapply wpm_mono.
    + apply Hrec; [done..|]. destruct Hsc. split; [by rewrite Hcfg|by rewrite Hfin].
    + intros r s'' [? ? ?]. auto.
  - intros r s'' s3 Hr Hi3 He3 Hcfg Hfin. apply Hk; [done..|].
    intros x Hx. destruct (Hr x Hx). split; [by rewrite Hcfg|by rewrite Hfin].
Qed.

Lemma wpm_build_while st c body entry s :
  st < length (stmts b) -> c < length (exprs b) -> body < bound ->
  inv b e0 s -> in_scope entry s ->
  wpm (build_while b rec st c body entry) (lowered b e0 s) s.
Proof.
  intros Hst Hc Hb Hi Hsc. unfold build_while.
  mnew s1 Hi1 He1 Hn1. mnew s2 Hi2 He2 Hn2. mnew s3 Hi3 He3 Hn3.
  apply wpm_bind. eapply wpm_set_terminator; [done|blia|apply goto_ok; [blia|done]|].
  mkept s4 Hi4 He4 Hn4.
  apply wpm_bind. eapply wpm_cond_terminator; try done; try blia.
  mkept s5 Hi5 He5 Hn5.
  eapply wpm_loop_body; [done..| |scope_tac|].
  { split; simpl; [blia|]. intros t [= <-]. blia. }
  intros r s6 Hi6 He6 Hr.
  apply wpm_bind. eapply wpm_goto_from; [done|intros; by apply Hr|blia|].
  mkept s7 Hi7 He7 Hn7. apply wpm_ret. split; [done|ext_tac|]. intros x [= <-]. scope_tac.
Qed.

Lemma wpm_build_do_while st body c entry s :
  st < length (stmts b) -> c < length (exprs b) -> body < bound ->
  inv b e0 s -> in_scope entry s ->
  wpm (build_do_while b rec st body c entry) (lowered b e0 s) s.
Proof.
  intros Hst Hc Hb Hi Hsc. unfold build_do_while.
  mnew s1 Hi1 He1 Hn1. mnew s2 Hi2 He2 Hn2. mnew s3 Hi3 He3 Hn3.
  apply wpm_bind. eapply wpm_set_terminator; [done|blia|apply goto_ok; [blia|done]|].
  mkept s4 Hi4 He4 Hn4.
  eapply wpm_loop_body; [done..| |scope_tac|].
  { split; simpl; [blia|]. intros t [= <-]. blia. }
  intros r s5 Hi5 He5 Hr.
  apply wpm_bind. eapply wpm_goto_from; [done|intros; by apply Hr|blia|].
  mkept s6 Hi6 He6 Hn6.
  apply wpm_bind. eapply wpm_cond_terminator; try done; try blia.
  mkept s7 Hi7 He7 Hn7. apply wpm_ret. split; [done|ext_tac|]. intros x [= <-]. scope_tac.
Qed.

Lemma wpm_build_for_loop st c u body init_end s0 s :
  st < length (stmts b) -> (forall x, c = Some x -> x < length (exprs b)) ->
  (forall x, u = Some x -> x < bound) -> body < bound ->
  inv b e0 s -> ext s0 s -> in_scope init_end s ->
  wpm (build_for_loop b rec st c u body init_end) (lowered b e0 s0) s.
Proof.
  intros Hst Hc Hu Hb Hi He Hsc. unfold build_for_loop.
  mnew s1 Hi1 He1 Hn1. mnew s2 Hi2 He2 Hn2. apply wpm_bind.
  assert (Hcont : forall ub s3, inv b e0 s3 -> ext s2 s3 -> nblocks s <= ub ->
    ub < nblocks s3 ->
    wpm (after_bb ← m_new_block;
         _ ← m_set_terminator init_end (Terminator.Goto (nblocks s) None);
         _ ← match c with
             | Some cond => cond_terminator b (nblocks s) cond (nblocks s1) after_bb st
             | None => m_set_terminator (nblocks s) (Terminator.Goto (nblocks s1) (Some st))
             end;
         _ ← push_break (mkBreak after_bb (Some ub));
         body_fallthrough ← rec body (nblocks s1);
         _ ← pop_break;
         _ ← goto_from body_fallthrough ub;
         _ ← match u with
             | Some update_stmt =>
                 update_fallthrough ← rec update_stmt ub;
                 goto_from update_fallthrough (nblocks s)
             | None => mret tt
             end;
         mret (Some after_bb)) (lowered b e0 s0) s3).
  { intros ub s3 Hi3 He3 Hub1 Hub2. mnew s4 Hi4 He4 Hn4.
    apply wpm_bind. eapply wpm_set_terminator; [done|blia|apply goto_ok; [blia|done]|].
    mkept s5 Hi5 He5 Hn5. apply wpm_bind.
    assert (Hc6 : wpm match c with
             | Some cond => cond_terminator b (nblocks s) cond (nblocks s1) (nblocks s3) st
             | None => m_set_terminator (nblocks s) (Terminator.Goto (nblocks s1) (Some st))
             end (kept b e0 s5) s5).
    { destruct c as [c|].
      - apply (wpm_cond_terminator b e0); auto; blia.
      - eapply wpm_set_terminator; [done|blia|apply goto_ok; [blia|naive_solver]|]. by intros. }
    eapply wpm_mono; [exact Hc6|]. intros _ s6 (Hi6 & He6 & Hn6).
    eapply wpm_loop_body; [done..| |scope_tac|].
    { split; simpl; [blia|]. intros t [= <-]. blia. }
    intros r s7 Hi7 He7 Hr.
    apply wpm_bind. eapply wpm_goto_from; [done|intros; by apply Hr|blia|].
    mkept s8 Hi8 He8 Hn8.
    assert (Hfin : forall s9, inv b e0 s9 -> ext s8 s9 ->
      wpm (mret (Some (nblocks s3))) (lowered b e0 s0) s9).
    { intros s9 Hi9 He9. apply wpm_ret. split; [done|ext_tac|]. intros x [= <-]. scope_tac. }
    apply wpm_bind. destruct u as [u|]; [|by apply wpm_ret, Hfin].
    eapply wpm_rec_bind; [by apply Hu|done|scope_tac|]. intros ru s9 Hi9 He9 Hru.
    eapply wpm_goto_from; [done|intros; by apply Hru|blia|].
    mkept s10 Hi10 He10 Hn10. apply Hfin; [done|ext_tac]. }
  destruct u as [u|].
  - eapply wpm_new_block; [eassumption|]. intros s3 Hi3 He3 Hn3. apply Hcont; auto; blia.
  - apply wpm_ret, Hcont; auto; [reflexivity|blia..].
Qed.

Lemma wpm_build_for st i c u body entry s :
  st < length (stmts b) -> (forall x, i = Some x -> x < bound) ->
  (forall x, c = Some x -> x < length (exprs b)) ->
  (forall x, u = Some x -> x < bound) -> body < bound ->
  inv b e0 s -> in_scope entry s ->
  wpm (build_for b rec st i c u body entry) (lowered b e0 s) s.
Proof.
  intros Hst Hinit Hc Hu Hb Hi Hsc. unfold build_for. apply wpm_bind.
  destruct i as [i|].
  - eapply wpm_mono; [by apply Hrec; [apply Hinit|..]|]. intros r s1 [Hi1 He1 Hr].
    destruct r as [x|]; [by apply wpm_build_for_loop; auto|]. apply wpm_ret. by split.
  - apply wpm_ret, wpm_build_for_loop; auto. reflexivity.
Qed.

(** Several fresh blocks. *)
Lemma wpm_new_blocks n s (Q : list BlockId -> HirCfgBuilder -> Prop) :
  inv b e0 s ->
  (forall l s', inv b e0 s' -> ext s s' -> length l = n ->
    Forall (fun x => nblocks s <= x < nblocks s') l -> Q l s') ->
  wpm (new_blocks n) Q s.
Proof.
  revert s Q; induction n as [|n IH]; intros s Q Hi HQ; simpl.
  { apply wpm_ret, HQ; try done. }
  mnew s1 Hi1 He1 Hn1. apply wpm_bind, IH; [done|]. intros l s2 Hi2 He2 Hl Hin.
  apply wpm_ret, HQ; [done|ext_tac|by simpl; lia|].
  constructor; [blia|]. eapply List.Forall_impl; [|exact Hin]. simpl. blia.
Qed.

(** Loops over the arms or the catches: every iteration keeps the invariant. *)
Lemma wpm_m_for {A} (f : A -> M unit) (l : list A) s0 :
  (forall x s, In x l -> inv b e0 s -> ext s0 s ->
    wpm (f x) (fun _ s' => inv b e0 s' /\ ext s s') s) ->
  forall s, inv b e0 s -> ext s0 s ->
  wpm (m_for f l) (fun _ s' => inv b e0 s' /\ ext s s') s.
Proof.
  induction l as [|x l IH]; intros Hf s Hi He; simpl; [by apply wpm_ret|].
  apply wpm_bind. eapply wpm_mono; [apply Hf; [by left|done..]|].
  intros _ s1 [Hi1 He1]. eapply wpm_mono.
  - apply IH; [intros; apply Hf; [by right|done..]|done|ext_tac].
  - intros _ s2 [Hi2 He2]. split; [done|ext_tac].
Qed.

Lemma multi_ok n i (ts : list BlockId) (term : Terminator.t) :
  term_succs term = ts -> Forall (target_ok e0 n) ts ->
  match term with Terminator.Multi _ _ | Terminator.Switch _ _ _ => True | _ => False end ->
  Forall (fun e => e < length (exprs b)) (term_exprs term) ->
  (forall st, from_stmt term = Some st -> st < length (stmts b)) ->
  term_ok b e0 n i term.
Proof.
  intros <- Hts Hk He Hf. split; try done.
  - split; [|by destruct term]. eapply List.Forall_impl; [|exact Hts]. by intros t [? _].
  - rewrite Forall_forall in Hts. intros Hin. by destruct (Hts _ Hin).
Qed.

Lemma wpm_build_arm arm_entries after_bb i arm s :
  arm_body arm < bound -> inv b e0 s -> i < length arm_entries ->
  (forall x, x ∈ arm_entries -> in_scope x s /\ x <> e0) ->
  target_ok e0 (nblocks s) after_bb ->
  wpm (build_arm rec arm_entries after_bb (i, arm))
    (fun _ s' => inv b e0 s' /\ ext s s') s.
Proof.
  intros Hb Hi Hlt Harms Hafter. unfold build_arm. apply wpm_bind.
  eapply wpm_lift; [apply (wp_idx arm_entries i (fun x => x ∈ arm_entries)); [done|]|].
  { intros x Hx. by eapply list_elem_of_lookup_2. }
  intros x Hx. destruct (Harms x Hx) as [Hsx _].
  eapply wpm_rec_bind; [done..|]. intros [end_|] s1 Hi1 He1 Hr; [|by apply wpm_ret].
  eapply wpm_set_terminator; [done|by apply Hr|apply goto_ok; [|done]|].
  - destruct (arm_is_arrow arm); [blia|].
    destruct (arm_entries !! S i) as [y|] eqn:Hy; simpl; [|blia].
    apply list_elem_of_lookup_2 in Hy. destruct (Harms y Hy). blia.
  - mkept s2 Hi2 He2 Hn2. split; [done|ext_tac].
Qed.

Lemma wpm_build_switch st e arms entry s :
  st < length (stmts b) -> e < length (exprs b) ->
  (forall arm, In arm arms -> arm_body arm < bound) ->
  inv b e0 s -> in_scope entry s ->
  wpm (build_switch rec st e arms entry) (lowered b e0 s) s.
Proof.
  intros Hst He Harms Hi Hsc. unfold build_switch. mnew s1 Hi1 He1 Hn1.
  apply wpm_bind, wpm_new_blocks; [done|]. intros l s2 Hi2 He2 Hl Hfresh. simpl.
  assert (Hts : Forall (target_ok e0 (nblocks s2)) l).
  { eapply List.Forall_impl; [|exact Hfresh]. simpl. intros x Hx. blia. }
  apply wpm_bind. eapply wpm_set_terminator; [done|blia| |].
  { eapply multi_ok; [done| |done|by repeat constructor|naive_solver]. simpl.
    destruct (existsb _ _); [done|]. apply Forall_app. split; [done|].
    constructor; [blia|constructor]. }
  mkept s3 Hi3 He3 Hn3.
  eapply (wpm_with_break b e0 (m_for _ _) (fun _ => mret (Some (nblocks s)))
    (fun _ _ => True)); [done|split; [simpl; blia|done]| |].
  - intros s4 Hi4 Hcfg Hfin.
    eapply wpm_mono; [eapply (wpm_m_for _ _ s4); [|done|reflexivity]|naive_solver].
    intros [i arm] s5 Hin Hi5 He5. apply list_elem_of_In, list_elem_of_lookup in Hin as [j Hj].
    rewrite list_lookup_imap in Hj. destruct (arms !! j) as [arm'|] eqn:Harm; simplify_eq/=.
    apply wpm_build_arm; [|done| | |].
    + by apply Harms, list_elem_of_In, (list_elem_of_lookup_2 _ i).
    + rewrite Hl. by eapply lookup_lt_Some.
    + rewrite Forall_forall in Hfresh. intros x Hx. specialize (Hfresh x Hx). simpl in Hfresh.
      split; [|blia]. apply (in_scope_ext x s4); [done|].
      assert (Hsx : in_scope x s3) by scope_tac. destruct Hsx.
      split; [by rewrite Hcfg|by rewrite Hfin].
    + pose proof (ext_blocks _ _ He5). rewrite Hcfg in *. blia.
  - intros [] s4 s5 _ Hi5 He5 Hcfg Hfin. apply wpm_ret. split; [done|ext_tac|].
    intros x [= <-]. scope_tac.
Qed.
End Kinds.

(** ** Jumps *)

Section Jumps.
Context (b : Body) (e0 : nat).

Lemma wp_push_leave_targets n k t fs :
  Forall (finally_ok e0 n) fs -> target_ok e0 n t ->
  wp (push_leave_targets k t fs)
     (fun fs' => Forall (finally_ok e0 n) fs' /\ Forall2 same_ctx fs fs').
Proof.
  intros Hfs Ht. unfold push_leave_targets.
  apply (wp_for_each _ _
    (fun _ fs' => Forall (finally_ok e0 n) fs' /\ Forall2 same_ctx fs fs')); [done|].
  intros dn i rest fs' Heq [Hok Hsame].
  assert (Hi : k <= i < length fs).
  { assert (Hin : i ∈ seq k (length fs - k)) by (rewrite Heq; set_solver).
    apply elem_of_seq in Hin. lia. }
  pose proof (Forall2_length _ _ _ Hsame) as Hlen.
  apply wp_bind. apply (wp_mono _ (target_ok e0 n)).
  - case_decide; [done|]. apply wp_idx; [rewrite length_fmap; lia|].
    intros x Hx. apply list_lookup_fmap_Some in Hx as (ctx & -> & Hctx).
    rewrite Forall_lookup in Hfs. apply (Hfs _ _ Hctx).
  - intros dest Hdest. apply wp_bind, wp_idx; [lia|]. intros ctx Hctx.
    apply wp_set_idx; [lia|]. pose proof Hok as Hok'. rewrite Forall_lookup in Hok'.
    destruct (Hok' _ _ Hctx) as [H1 H2 H3]. split.
    + apply Forall_insert; [done|]. split; simpl; [done..|].
      apply Forall_app. split; [done|by constructor].
    + destruct (Forall2_lookup_r _ _ _ _ _ Hsame Hctx) as (c & Hc & Hcc).
      rewrite <-(list_insert_id fs i c) by done. by apply Forall2_insert.
Qed.

Lemma wpm_route s k t entry st :
  inv b e0 s -> in_scope entry s -> target_ok e0 (nblocks s) t -> st < length (stmts b) ->
  finally_stack s <> [] ->
  wpm (route_through_finally k t entry st) (lowered b e0 s) s.
Proof.
  intros Hi Hsc Ht Hst Hne. unfold route_through_finally.
  apply wpm_bind, wpm_get, wpm_bind.
  eapply wpm_lift; [by apply (wp_push_leave_targets (nblocks s)); [apply Hi|]|].
  intros fs' [Hfs' Hsame]. apply wpm_bind.
  set (s1 := mkHir (cfg s) (break_stack s) fs' (exit_bb s)).
  assert (Hi1 : inv b e0 s1) by (apply inv_set_stacks; [done|apply Hi|done]).
  assert (He1 : ext s s1) by by split.
  change (wpm (match list.last (finally_bb <$> finally_stack s) with
    | Some f => _ ← m_set_terminator entry (Terminator.Goto f (Some st)); mret None
    | None => lift Panic end) (lowered b e0 s) s1).
  destruct (list.last (finally_bb <$> finally_stack s)) as [f|] eqn:Hlast.
  - rewrite fmap_last in Hlast. apply fmap_Some in Hlast as (ctx & Hctx & ->).
    apply last_Some_elem_of in Hctx.
    pose proof (inv_finally _ _ _ Hi) as Hf. rewrite Forall_forall in Hf.
    destruct (Hf _ Hctx) as [Hbb _ _].
    apply wpm_bind. eapply wpm_set_terminator; [done|apply Hsc|apply goto_ok|].
    + exact Hbb.
    + naive_solver.
    + mkept s2 Hi2 He2 Hn2. apply wpm_ret. split; [done|ext_tac|done].
  - apply last_None in Hlast. by destruct (finally_stack s).
Qed.

(** The counting loop ends; it counts nothing when the target is inside every [try]. *)
Lemma wp_leaving_loop fs t fuel k :
  length fs - k < fuel -> k <= length fs ->
  wp (leaving_loop fuel fs t k)
     (fun r => k <= r <= length fs /\
               (Forall (fun ctx => scope_start ctx < t) fs -> r = k)).
Proof.
  revert k; induction fuel as [|fuel IH]; intros k Hf Hk; [lia|]. simpl.
  case_decide as Hlt; simpl; [|split; [lia|done]].
  apply wp_bind, wp_idx; [lia|]. intros ctx Hctx. case_decide as Ht; simpl; [|split; [lia|done]].
  eapply wp_mono; [apply IH; lia|]. intros r [Hr _]. split; [lia|].
  intros Hall. rewrite Forall_lookup in Hall. specialize (Hall _ _ Hctx). simpl in Hall. lia.
Qed.

Lemma wpm_jump_to t entry st s :
  inv b e0 s -> in_scope entry s -> st < length (stmts b) ->
  (target_ok e0 (nblocks s) t \/ t = entry) ->
  wpm (jump_to t entry st) (lowered b e0 s) s.
Proof.
  intros Hi Hsc Hst Ht. unfold jump_to. apply wpm_bind, wpm_get.
  assert (Hgoto : wpm (_ ← m_set_terminator entry (Terminator.Goto t (Some st)); mret None)
    (lowered b e0 s) s).
  { apply wpm_bind. eapply wpm_set_terminator; [done|apply Hsc| |].
    - destruct Ht as [Ht| ->]; [apply goto_ok; naive_solver|].
      split; simpl; [split; [by constructor; [apply Hsc|]|done]|set_solver|done|naive_solver].
    - mkept s1 Hi1 He1 Hn1. apply wpm_ret. by split. }
  destruct (finally_stack s) as [|c fs] eqn:Hfs; [done|]. rewrite <-Hfs.
  apply wpm_bind. eapply wpm_lift; [apply wp_leaving_loop; lia|]. intros r [_ Hr].
  case_decide as H0; [done|]. destruct Ht as [Ht| ->].
  - apply wpm_route; auto. congruence.
  - exfalso. apply H0, Hr, Hsc.
Qed.

Lemma find_continue_ok n bs t :
  Forall (break_ok e0 n) bs -> find_continue bs = Some t -> target_ok e0 n t.
Proof.
  induction 1 as [|ctx bs [_ Hc] _ IH]; simpl; [done|].
  destruct (continue_target ctx) eqn:E; naive_solver.
Qed.

Lemma wpm_build_break st entry s :
  inv b e0 s -> in_scope entry s -> st < length (stmts b) ->
  wpm (build_break st entry) (lowered b e0 s) s.
Proof.
  intros Hi Hsc Hst. apply wpm_bind, wpm_get, wpm_jump_to; auto.
  unfold break_dest. destruct (list.last (break_stack s)) as [ctx|] eqn:E; [|auto].
  left. apply last_Some_elem_of in E. pose proof (inv_breaks _ _ _ Hi) as H.
  rewrite Forall_forall in H. exact (proj1 (H _ E)).
Qed.

Lemma wpm_build_continue st entry s :
  inv b e0 s -> in_scope entry s -> st < length (stmts b) ->
  wpm (build_continue st entry) (lowered b e0 s) s.
Proof.
  intros Hi Hsc Hst. apply wpm_bind, wpm_get, wpm_jump_to; auto.
  unfold continue_dest. destruct (find_continue (rev (break_stack s))) as [t|] eqn:E; [|auto].
  left. simpl. eapply find_continue_ok; [|exact E]. apply Forall_rev, Hi.
Qed.

(** [return] and [throw]: a terminator of their own, or a detour through [finally]. *)
Lemma wpm_leave (term : Terminator.t) st entry s :
  inv b e0 s -> in_scope entry s -> leaf_stmt b st -> st < length (stmts b) ->
  term_ok b e0 (nblocks s) entry term ->
  wpm (s ← get_state;
       match finally_stack s with
       | [] => _ ← m_set_terminator entry term; mret None
       | _ => _ ← m_push_stmt entry st; route_through_finally 0 (exit_bb s) entry st
       end) (lowered b e0 s) s.
Proof.
  intros Hi Hsc Hleaf Hst Hok. apply wpm_bind, wpm_get.
  destruct (finally_stack s) as [|c fs] eqn:Hfs; apply wpm_bind.
  - eapply wpm_set_terminator; [done|apply Hsc|done|].
    mkept s1 Hi1 He1 Hn1. apply wpm_ret. by split.
  - eapply wpm_push_stmt; [done|apply Hsc|done|]. mkept s1 Hi1 He1 Hn1.
    eapply wpm_mono; [apply wpm_route; [done|scope_tac| |done|]|].
    + rewrite <-(ext_exit _ _ He1). apply Hi1.
    + intros H. pose proof (ext_finally _ _ He1) as H2. rewrite H, Hfs in H2. inversion H2.
    + intros r s2 [Hi2 He2 Hr]. split; [done|ext_tac|done].
Qed.
End Jumps.

(** ** [try], and the whole of [build_stmt] *)

Section Try.
Context (b : Body) (e0 : nat).
Context (rec : StmtId -> BlockId -> M (option BlockId)) (bound : nat).
Context (Hrec : forall c entry s, c < bound -> inv b e0 s -> in_scope entry s ->
  wpm (rec c entry) (lowered b e0 s) s).

Lemma sort_dedup_subset l x : x ∈ sort_dedup l -> x ∈ l.
Proof.
  unfold sort_dedup.
  set (dedup := fix dedup (l : list nat) : list nat := _).
  assert (Hd : forall l, x ∈ dedup l -> x ∈ l).
  { induction l0 as [|y l0 IH]; simpl; [done|].
    destruct (dedup l0) as [|z r] eqn:E; [set_solver|]. case_decide; set_solver. }
  intros Hx%Hd. by rewrite merge_sort_Permutation in Hx.
Qed.

Lemma abrupt_ok n i ts st :
  Forall (target_ok e0 n) ts -> st < length (stmts b) ->
  term_ok b e0 n i (abrupt_terminator ts st).
Proof.
  intros Hts Hst. unfold abrupt_terminator.
  assert (Hs : Forall (target_ok e0 n) (sort_dedup ts)).
  { rewrite Forall_forall in *. intros x Hx. by apply Hts, sort_dedup_subset. }
  destruct (sort_dedup ts) as [|x [|y l]].
  - split; simpl; [by split|set_solver|done|done].
  - apply goto_ok; [by inversion Hs|done].
  - eapply multi_ok; try done. naive_solver.
Qed.

(** The body and the handlers of a [try], lowered under its [finally] context if any. *)
Lemma wpm_with_finally {A} (m : M unit) (k : option FinallyContext -> M A) f after s Q :
  inv b e0 s -> target_ok e0 (nblocks s) after ->
  (forall x, f = Some x -> target_ok e0 (nblocks s) x) ->
  (forall s', inv b e0 s' -> cfg s' = cfg s ->
    finally_stack s' = finally_stack s ++
      match f with Some x => [mkFinally x after []] | None => [] end ->
    wpm m (fun _ s'' => inv b e0 s'' /\ ext s' s'') s') ->
  (forall o s3, inv b e0 s3 -> ext s s3 ->
    (forall ctx, o = Some ctx -> finally_ok e0 (nblocks s3) ctx) -> wpm (k o) Q s3) ->
  wpm (_ ← match f with
           | Some x => push_finally (mkFinally x after [])
           | None => mret tt
           end;
       _ ← m;
       o ← match f with Some _ => pop_finally | None => mret None end;
       k o) Q s.
Proof.
  intros Hi Hafter Hf Hm Hk. destruct f as [x|].
  - apply wpm_bind, wpm_bind, wpm_get.
    assert (Hi1 : inv b e0 (mkHir (cfg s) (break_stack s)
      (finally_stack s ++ [mkFinally x after []]) (exit_bb s))).
    { apply inv_set_stacks; [done|apply Hi|]. apply Forall_app. split; [apply Hi|].
      constructor; [|done]. split; [by apply Hf|apply Hafter|done]. }
    apply wpm_bind. eapply wpm_mono; [by apply (Hm _ Hi1)|]. intros _ s2 [Hi2 He2].
    apply wpm_bind, wpm_bind, wpm_get, wpm_bind, wpm_ret.
    pose proof (ext_finally _ _ He2) as Hfs. simpl in Hfs.
    apply Forall2_app_inv_l in Hfs as (fs1 & fs2 & H1 & H2 & Heq). apply Forall2_cons_inv_l in H2 as (c & fs3 & [Hc1 Hc2] & H3 & ->).
    apply Forall2_nil_inv_l in H3 as ->.
    pose proof (inv_finally _ _ _ Hi2) as Hfin. rewrite Heq in Hfin.
    apply Forall_app in Hfin as [Hfin1 Hfin2].
    apply Hk; simpl; rewrite Heq, ?removelast_last, ?last_snoc.
    + apply inv_set_stacks; [done|apply Hi2|done].
    + destruct He2 as [E1 E2 _ E4]. by split.
    + intros ctx [= <-]. by apply Forall_inv in Hfin2.
  - apply wpm_bind, wpm_ret, wpm_bind. eapply wpm_mono; [apply (Hm s); try done|].
    { by rewrite app_nil_r. }
    intros _ s2 [Hi2 He2]. apply wpm_bind, wpm_ret. by apply Hk.
Qed.

Lemma wpm_build_protected body body_entry join catches catch_entries s :
  body < bound -> (forall c, In c catches -> c < bound) ->
  inv b e0 s -> in_scope body_entry s -> target_ok e0 (nblocks s) join ->
  (forall x, In x catch_entries -> in_scope x s) ->
  wpm (build_protected rec body body_entry join catches catch_entries)
    (fun _ s' => inv b e0 s' /\ ext s s') s.
Proof.
  intros Hb Hcs Hi Hsc Hj Hces. unfold build_protected.
  eapply (wpm_rec_bind b e0 rec bound Hrec); [done..|]. intros r s1 Hi1 He1 Hr.
  apply wpm_bind. eapply wpm_goto_from; [done|intros; by apply Hr|blia|].
  mkept s2 Hi2 He2 Hn2.
  eapply wpm_mono; [eapply (wpm_m_for b e0 _ _ s2); [|done|reflexivity]|].
  - intros [c x] s3 Hin%list_elem_of_In Hi3 He3. unfold build_catch.
    pose proof (elem_of_zip_l _ _ _ _ Hin) as Hc%list_elem_of_In.
    pose proof (Hces x ltac:(by apply list_elem_of_In, (elem_of_zip_r _ _ _ _ Hin))) as Hx.
    eapply (wpm_rec_bind b e0 rec bound Hrec); [by apply Hcs|done|scope_tac|].
    intros rc s4 Hi4 He4 Hrc.
    eapply wpm_goto_from; [done|intros; by apply Hrc|blia|].
    mkept s5 Hi5 He5 Hn5. split; [done|ext_tac].
  - intros _ s3 [Hi3 He3]. split; [done|ext_tac].
Qed.

Lemma wpm_build_finally_copies st f fn fa after o s :
  st < length (stmts b) -> (forall x, f = Some x -> x < bound) ->
  (forall x, fn = Some x -> in_scope x s) -> (forall x, fa = Some x -> in_scope x s) ->
  target_ok e0 (nblocks s) after -> inv b e0 s ->
  (forall ctx, o = Some ctx -> finally_ok e0 (nblocks s) ctx) ->
  wpm (build_finally_copies rec st f fn fa after o) (fun _ s' => inv b e0 s' /\ ext s s') s.
Proof.
  intros Hst Hf Hfn Hfa Hafter Hi Ho. unfold build_finally_copies. apply wpm_bind.
  apply (wpm_mono _ (fun _ s' => inv b e0 s' /\ ext s s')).
  - destruct f as [f|], fn as [fn|]; try by apply wpm_ret.
    eapply (wpm_rec_bind b e0 rec bound Hrec); [by apply Hf|done|by apply Hfn|]. intros r s1 Hi1 He1 Hr.
    eapply wpm_goto_from; [done|intros; by apply Hr|blia|].
    mkept s2 Hi2 He2 Hn2. split; [done|ext_tac].
  - intros _ s1 [Hi1 He1]. destruct f as [f|], fa as [fa|], o as [ctx|]; try by apply wpm_ret.
    specialize (Hfa fa eq_refl). eapply (wpm_rec_bind b e0 rec bound Hrec); [by apply Hf|done|scope_tac|].
    intros [end_|] s2 Hi2 He2 Hr; [|apply wpm_ret; split; [done|ext_tac]].
    eapply wpm_set_terminator; [done|by apply Hr| |].
    + apply abrupt_ok; [|done].
      eapply List.Forall_impl; [|apply (fok_targets _ _ _ (Ho ctx eq_refl))].
      intros t. apply target_ok_mono. blia.
    + mkept s3 Hi3 He3 Hn3. split; [done|ext_tac].
Qed.

Lemma in_scope_pushed x f after s s' :
  in_scope x s -> after < x -> cfg s' = cfg s ->
  finally_stack s' = finally_stack s ++
    match f with Some y => [mkFinally y after []] | None => [] end ->
  in_scope x s'.
Proof.
  intros [H1 H2] Hlt Hcfg Hfs. split; [by rewrite Hcfg|]. rewrite Hfs.
  apply Forall_app. split; [done|]. destruct f; [|done]. by constructor.
Qed.

(** From the point where the blocks of the [try] exist. *)
Lemma wpm_try_core st body body_entry catches catch_entries f fn fa after s0 s :
  st < length (stmts b) -> body < bound -> (forall c, In c catches -> c < bound) ->
  (forall x, f = Some x -> x < bound) ->
  inv b e0 s -> ext s0 s -> in_scope body_entry s -> after < body_entry ->
  (forall x, In x catch_entries -> in_scope x s /\ after < x) ->
  (forall x, fn = Some x -> in_scope x s /\ target_ok e0 (nblocks s) x) ->
  (forall x, fa = Some x -> in_scope x s /\ target_ok e0 (nblocks s) x) ->
  in_scope after s -> target_ok e0 (nblocks s) after ->
  wpm (_ ← match fa with
           | Some x => push_finally (mkFinally x after [])
           | None => mret tt
           end;
       _ ← build_protected rec body body_entry (default after fn) catches catch_entries;
       o ← match fa with Some _ => pop_finally | None => mret None end;
       _ ← build_finally_copies rec st f fn fa after o;
       mret (Some after)) (lowered b e0 s0) s.
Proof.
  intros Hst Hb Hcs Hf Hi He Hsc Hlt Hces Hfn Hfa Hafter Htafter.
  assert (Hj : target_ok e0 (nblocks s) (default after fn)).
  { destruct fn as [x|]; [apply (Hfn x eq_refl)|done]. }
  apply wpm_with_finally; try done.
  - intros x Hx. apply (Hfa x Hx).
  - intros s1 Hi1 Hcfg Hfs. apply wpm_build_protected; [done..| | |].
    + by eapply in_scope_pushed.
    + by rewrite Hcfg.
    + intros x Hx. destruct (Hces x Hx). by eapply in_scope_pushed.
  - intros o s1 Hi1 He1 Ho. apply wpm_bind.
    eapply wpm_mono; [apply wpm_build_finally_copies; try done|].
    + intros x Hx. destruct (Hfn x Hx) as [? _]. scope_tac.
    + intros x Hx. destruct (Hfa x Hx) as [? _]. scope_tac.
    + blia.
    + intros _ s2 [Hi2 He2]. apply wpm_ret. split; [done|ext_tac|]. intros x [= <-]. scope_tac.
Qed.

Lemma wpm_build_try st body catches f entry s :
  st < length (stmts b) -> body < bound -> (forall c, In c catches -> c < bound) ->
  (forall x, f = Some x -> x < bound) ->
  inv b e0 s -> in_scope entry s ->
  wpm (build_try rec st body catches f entry) (lowered b e0 s) s.
Proof.
  intros Hst Hb Hcs Hf Hi Hsc. unfold build_try. mnew s1 Hi1 He1 Hn1.
  apply wpm_bind.
  apply (wpm_mono _ (fun '(fn, fa) s2 => inv b e0 s2 /\ ext s1 s2 /\
    (forall x, fn = Some x -> in_scope x s2 /\ target_ok e0 (nblocks s2) x) /\
    (forall x, fa = Some x -> in_scope x s2 /\ target_ok e0 (nblocks s2) x))).
  - destruct f as [f|]; [|by apply wpm_ret]. mnew s2 Hi2 He2 Hn2. mnew s3 Hi3 He3 Hn3.
    apply wpm_ret. split; [done|]. split; [ext_tac|].
    split; intros x [= <-]; (split; [scope_tac|blia]).
  - intros [fn fa] s2 (Hi2 & He2 & Hfn & Hfa). mnew s3 Hi3 He3 Hn3.
    apply wpm_bind, (wpm_new_blocks b e0); [done|]. intros ces s4 Hi4 He4 Hlen Hces.
    apply wpm_bind.
    assert (Hces' : forall x, In x ces -> nblocks s3 <= x < nblocks s4).
    { rewrite List.Forall_forall in Hces. exact Hces. }
    apply (wpm_mono _ (kept b e0 s4)).
    + destruct ces as [|c ces].
      * eapply wpm_set_terminator; [done|blia|apply goto_ok; [blia|naive_solver]|]. by intros.
      * eapply wpm_set_terminator; [done|blia| |by intros].
        eapply multi_ok; [done| |done|done|naive_solver]. constructor; [blia|].
        rewrite List.Forall_forall. intros x Hx. specialize (Hces' x Hx). blia.
    + intros _ s5 (Hi5 & He5 & Hn5). apply wpm_try_core; try done; try (solve [scope_tac|blia]).
      * ext_tac.
      * intros x Hx. specialize (Hces' x Hx). split; [scope_tac|blia].
      * intros x Hx. destruct (Hfn x Hx) as [? ?]. split; [scope_tac|blia].
      * intros x Hx. destruct (Hfa x Hx) as [? ?]. split; [scope_tac|blia].
Qed.
End Try.

Section BuildStmt.
Context (b : Body) (e0 : nat) (Hwf : wf_body b).

Lemma In_option_list {A} (o : option A) x : o = Some x -> In x (option_list o).
Proof. intros ->. by left. Qed.

Lemma wpm_build_stmt fuel st entry s :
  st < fuel -> st < length (stmts b) -> inv b e0 s -> in_scope entry s ->
  wpm (build_stmt fuel b st entry) (lowered b e0 s) s.
Proof.
  revert st entry s; induction fuel as [|fuel IH]; intros st entry s Hf Hst Hi Hsc; [lia|].
  simpl. apply wpm_bind.
  eapply (wpm_lift _ (fun sd => stmts b !! st = Some sd)); [by apply wp_stmt|].
  intros sd Hsd.
  assert (Hrec : forall c entry s, c < st -> inv b e0 s -> in_scope entry s ->
    wpm (build_stmt fuel b c entry) (lowered b e0 s) s).
  { intros c entry' s' Hc Hi' Hsc'. apply IH; auto; lia. }
  assert (Hchild : forall c, In c (stmt_children (stmt_kind sd)) -> c < st).
  { intros c Hc. apply (wf_stmt_child b Hwf st sd c Hsd Hc). }
  assert (Hexpr : forall e, In e (stmt_exprs (stmt_kind sd)) -> e < length (exprs b)).
  { intros e. by apply (wf_stmt_expr b Hwf st sd). }
  assert (Hleaf : leaf_kind (stmt_kind sd) -> leaf_stmt b st) by (intros; by exists sd).
  assert (Hpush : leaf_kind (stmt_kind sd) ->
    wpm (_ ← m_push_stmt entry st; mret (Some entry)) (lowered b e0 s) s).
  { intros Hk. apply wpm_bind. eapply wpm_push_stmt; [done|apply Hsc|by apply Hleaf|].
    mkept s1 Hi1 He1 Hn1. apply wpm_ret. split; [done..|]. intros x [= <-]. scope_tac. }
  destruct (stmt_kind sd) as [ss| | | |c t e|c bd|bd c|i c u bd|e arms|bd cs f|v|e| | |]
    eqn:Ek; simpl in *; try (by apply Hpush).
  - eapply wpm_build_seq_loop; eauto; [by apply List.Forall_forall|reflexivity| |done].
    intros x [= <-]. done.
  - eapply wpm_build_if; eauto. intros x ->. apply Hchild. by right; left.
  - eapply wpm_build_while; eauto.
  - eapply wpm_build_do_while; eauto.
  - eapply wpm_build_for; eauto using In_option_list.
    + intros x Hx. apply Hchild, in_app_iff. eauto using In_option_list.
    + intros x Hx. apply Hchild, in_app_iff. right; right. by apply In_option_list.
    + apply Hchild, in_app_iff. right. by left.
  - eapply wpm_build_switch; eauto. intros arm Ha. apply Hchild, in_map_iff. eauto.
  - eapply wpm_build_try; eauto.
    + intros c Hc. apply Hchild. right. apply in_app_iff. auto.
    + intros x Hx. apply Hchild. right. apply in_app_iff. eauto using In_option_list.
  - eapply wpm_leave; eauto. split; simpl; [by split|set_solver| |naive_solver].
    by apply List.Forall_forall.
  - eapply wpm_leave; eauto. split; simpl; [by split|set_solver| |naive_solver].
    by apply List.Forall_forall.
  - by apply wpm_build_break.
  - by apply wpm_build_continue.
Qed.
End BuildStmt.

(** What the analyses rely on: the graph is well formed, its blocks hold simple statements
    and expressions of the body, and only the entry block may jump to the entry block. *)
Record cfg_for (b : Body) (g : ControlFlowGraph) : Prop := {
  cf_wf : wf_cfg g;
  cf_blocks : forall i bb, blocks g !! i = Some bb ->
    block_ok b (entry g) (length (blocks g)) i bb
}.

Lemma inv_start b :
  wp hir_new (fun h => let '(e, c) := new_block (cfg h) in
    inv b e (with_cfg c h) /\ in_scope e (with_cfg c h)).
Proof.
  simpl. split; split; simpl; try done; try (by constructor); try lia.
  - intros i bb Hi. destruct i as [|[|i]]; simplify_eq/=.
    all: split; [constructor|]; split; simpl; [by split|set_solver|done|done].
  - split; lia.
Qed.

Lemma wp_build_cfg b : wf_body b -> wp (build_cfg b) (cfg_for b).
Proof.
  intros Hwf. unfold build_cfg. eapply wp_seq; [apply (inv_start b)|]. intros h Hs.
  destruct (new_block (cfg h)) as [e c] eqn:En. injection En as <- <-. destruct Hs as [Hi Hsc].
  eapply wp_seq.
  - apply (wpm_build_stmt b (nblocks h) Hwf); [by apply wfb_root..|exact Hi|exact Hsc].
  - intros [r s] [Hi' He' Hr]. eapply wp_mono.
    + apply wp_build; [apply Hi'..|]. intros i bb Hbb. apply (inv_blocks _ _ _ Hi' _ _ Hbb).
    + intros g (Hg & He & Hbs). split; [done|]. intros i bb Hbb. rewrite Hbs in *.
      rewrite He. by apply (inv_blocks _ _ _ Hi').
Qed.

(** The lowering is total: on a well-formed body [build_cfg] neither panics nor runs out of
    fuel, and the graph it returns is well formed. *)
Theorem build_cfg_total b :
  wf_body b -> exists g, build_cfg b = Done g /\ cfg_for b g.
Proof. intros Hwf. by apply wp_inv, wp_build_cfg. Qed.

Lemma build_cfg_total_witness :
  exists g, build_cfg sample_body = Done g /\ cfg_for sample_body g.
Proof. apply (build_cfg_total sample_body), wf_bodyb_sound. vm_compute. reflexivity. Defined.
