(* ===== verification/Dataflow.v ===== *)
(** * The worklist solver of the dataflow analyses (crates/nova-flow/src/flow.rs)

    [definite_assignment_states] and [null_states] run the same loop over different states.
    The loop is modelled once, over an [Analysis]: the operations an analysis provides.
    [AnalysisLaws] is the interface it must satisfy (its operations return, keep the shape of
    states and are monotone), and the theorems of this file are proved against it: the loop
    ends, its result is a solution of the dataflow equations, and it inherits every property
    that holds of the initial states and is kept by the equations. *)

From stdpp Require Import base list numbers strings option relations sets.
From S2P Require Import Prelude HirBody Cfg.

(** ** Operations *)

(** The facts of an analysis: one value of [A] per local; [top] is the initial value. *)
Class FlatTop (A : Type) := ftop : A.

Class Analysis (A : Type) := {
  (** The state at the entry block. *)
  a_init : list A;
  (** The state a predecessor passes to a successor, from the state at its end. *)
  a_edge : BlockId -> BlockId -> list A -> run (list A);
  (** The state at the start of a block, from those its predecessors pass. *)
  a_join : list (list A) -> list A;
  (** The state at the end of a block, from the one at its start. *)
  a_transfer : BlockId -> list A -> run (list A)
}.

Section Solver.
Context {A : Type} `{EqDecision A} `{FlatTop A} `{Analysis A}.
Context (g : ControlFlowGraph) (reach : list bool).

(** [cfg.predecessors(bb).iter().filter_map(..)]: the states of the reachable predecessors. *)
Definition pred_state (outs : list (list A)) (bb : BlockId) (acc : list (list A))
    (p : BlockId) : run (list (list A)) :=
  r ← idx reach p;
  if r : bool then
    o ← idx outs p;
    s ← a_edge p bb o;
    Done (acc ++ [s])
  else Done acc.

Definition pred_states (outs : list (list A)) (bb : BlockId) (ps : list BlockId)
    : run (list (list A)) :=
  for_each (pred_state outs bb) ps [].

Definition block_in (outs : list (list A)) (bb : BlockId) : run (list A) :=
  if decide (bb = entry g) then Done a_init
  else
    ps ← predecessors g bb;
    inputs ← pred_states outs bb ps;
    Done (a_join inputs).

(** The [while let Some(bb) = worklist.pop_front()] loop. *)
Fixpoint solve_loop (fuel : nat) (worklist : list BlockId) (ins outs : list (list A))
    : run (list (list A) * list (list A)) :=
  match fuel with
  | 0 => OutOfFuel
  | S fuel =>
      match worklist with
      | [] => Done (ins, outs)
      | bb :: worklist =>
          r ← idx reach bb;
          if negb r then solve_loop fuel worklist ins outs
          else
            new_in ← block_in outs bb;
            old_in ← idx ins bb;
            ins ← (if decide (new_in = old_in) then Done ins else set_idx ins bb new_in);
            new_out ← a_transfer bb new_in;
            old_out ← idx outs bb;
            if decide (new_out = old_out) then solve_loop fuel worklist ins outs
            else
              outs ← set_idx outs bb new_out;
              ss ← successors g bb;
              solve_loop fuel (worklist ++ ss) ins outs
      end
  end.

(** The blocks pushed before the loop: the reachable ones, in order. *)
Definition initial_worklist : list BlockId :=
  omap (fun '(i, r) => if r : bool then Some i else None) (imap pair reach).

(** Each block is pushed once at the start, and each edge once per change of its source;
    the state of a block changes at most once per local. *)
Definition solve_fuel (n_locals : nat) : nat :=
  S (length reach + n_locals * edge_count (blocks g)).

Definition solve (n_locals : nat) (ins outs : list (list A))
    : run (list (list A) * list (list A)) :=
  solve_loop (solve_fuel n_locals) initial_worklist ins outs.
End Solver.

(** ** The order on states *)

Section Order.
Context {A : Type} `{EqDecision A} `{FlatTop A}.

(** Facts only move from [top] to something else. *)
Definition fle (x y : A) : Prop := x = y \/ y = ftop.
Definition sle : list A -> list A -> Prop := Forall2 fle.

Global Instance fle_preorder : PreOrder fle.
Proof. unfold fle. split; [by left|]. intros x y z [-> | ->] [-> | ->]; auto. Qed.

Global Instance sle_preorder : PreOrder sle.
Proof. unfold sle. split; apply _. Qed.

Lemma sle_top l : sle l (replicate (length l) ftop).
Proof. induction l; simpl; constructor; [by right|done]. Qed.

Lemma sle_length l1 l2 : sle l1 l2 -> length l1 = length l2.
Proof. apply Forall2_length. Qed.

(** The number of [top]s of a state. *)
Fixpoint rank (l : list A) : nat :=
  match l with
  | [] => 0
  | x :: l => (if decide (x = ftop) then 1 else 0) + rank l
  end.

Lemma rank_le l1 l2 : sle l1 l2 -> rank l1 <= rank l2.
Proof.
  induction 1 as [|x y l1 l2 [-> | ->] _ IH]; simpl; [lia..|].
  case_decide; rewrite decide_True by done; lia.
Qed.

Lemma rank_lt l1 l2 : sle l1 l2 -> l1 <> l2 -> rank l1 < rank l2.
Proof.
  induction 1 as [|x y l1 l2 Hxy Hl IH]; intros Hne; [done|]. simpl.
  destruct (decide (x = y)) as [->|Hxy'].
  - assert (rank l1 < rank l2) by (apply IH; congruence). lia.
  - destruct Hxy as [?| ->]; [done|]. apply rank_le in Hl.
    rewrite decide_False by done. rewrite decide_True by done. lia.
Qed.

Lemma rank_bound l : rank l <= length l.
Proof. induction l; simpl; [done|]. case_decide; lia. Qed.

(** The pushes that are still possible: for each block, its out-degree for each [top]. *)
Fixpoint potential (bs : list BasicBlock) (outs : list (list A)) : nat :=
  match bs, outs with
  | bb :: bs, o :: outs => rank o * length (succs bb) + potential bs outs
  | _, _ => 0
  end.

Lemma potential_insert bs outs i bb o o' :
  bs !! i = Some bb -> outs !! i = Some o -> rank o' < rank o ->
  potential bs (<[i := o']> outs) + length (succs bb) <= potential bs outs.
Proof.
  revert outs i; induction bs as [|b0 bs IH]; intros [|o0 outs] [|i] Hb Ho Hlt;
    simplify_eq/=; [nia|]. specialize (IH _ _ Hb Ho Hlt). lia.
Qed.

Lemma potential_replicate bs n :
  potential bs (replicate (length bs) (replicate n ftop)) <= n * edge_count bs.
Proof.
  induction bs as [|bb bs IH]; simpl; [lia|].
  pose proof (rank_bound (replicate n ftop)) as Hr. rewrite length_replicate in Hr.
  change (edge_count (bb :: bs)) with (length (succs bb) + edge_count bs). nia.
Qed.
End Order.

Lemma zip_update_sle {A} `{FlatTop A} (f : A -> A -> A) o1 o2 i1 i2 :
  (forall x x' y y', fle x x' -> fle y y' -> fle (f x y) (f x' y')) ->
  sle o1 o2 -> sle i1 i2 -> sle (zip_update f o1 i1) (zip_update f o2 i2).
Proof.
  intros Hf Ho. revert i1 i2; induction Ho as [|x x' o1 o2 Hx Ho IH]; intros i1 i2 Hi.
  { destruct i1, i2; constructor. }
  destruct Hi; simpl; constructor; [done|done|by apply Hf|by apply IH].
Qed.

Lemma foldl_zip_update_sle {A} `{FlatTop A} (f : A -> A -> A) l1 l2 o1 o2 :
  (forall x x' y y', fle x x' -> fle y y' -> fle (f x y) (f x' y')) ->
  sle o1 o2 -> Forall2 sle l1 l2 ->
  sle (foldl (zip_update f) o1 l1) (foldl (zip_update f) o2 l2).
Proof.
  intros Hf Ho Hl. revert o1 o2 Ho; induction Hl as [|x y l1 l2 Hx Hl IH]; intros o1 o2 Ho; [done|].
  simpl. apply IH. by apply zip_update_sle.
Qed.

(** ** What an analysis promises to the solver *)

Class AnalysisLaws {A : Type} `{EqDecision A} `{FlatTop A} `{Analysis A}
    (g : ControlFlowGraph) (n : nat) : Prop := {
  al_init : length a_init = n;
  al_edge p s o : edge g p s -> length o = n -> wp (a_edge p s o) (fun o' => length o' = n);
  al_edge_mono p s o1 o2 r1 r2 :
    edge g p s -> length o1 = n -> sle o1 o2 -> a_edge p s o1 = Done r1 -> a_edge p s o2 = Done r2 -> sle r1 r2;
  al_join l : Forall (fun s => length s = n) l -> length (a_join l) = n;
  al_join_mono l1 l2 :
    Forall (fun s => length s = n) l1 -> Forall2 sle l1 l2 -> sle (a_join l1) (a_join l2);
  al_transfer bb s :
    bb < length (blocks g) -> length s = n -> wp (a_transfer bb s) (fun s' => length s' = n);
  al_transfer_mono bb s1 s2 r1 r2 :
    bb < length (blocks g) -> length s1 = n -> sle s1 s2 -> a_transfer bb s1 = Done r1 -> a_transfer bb s2 = Done r2 -> sle r1 r2
}.

Section Laws.
Context {A : Type} `{EqDecision A} `{FlatTop A} `{Analysis A}.
Context (g : ControlFlowGraph) (n : nat) `{!AnalysisLaws g n} (Hwf : wf_cfg g).
Context (reach : list bool) (Hlen : length reach = length (blocks g)).
Context (Hreach : forall b, reach !! b = Some true <-> reachable g b).

Definition shaped (outs : list (list A)) : Prop :=
  length outs = length (blocks g) /\ Forall (fun s => length s = n) outs.

(** One evaluation of the equations of a block. *)
Definition eval_block (outs : list (list A)) (bb : BlockId) : run (list A * list A) :=
  i ← block_in g reach outs bb; o ← a_transfer bb i; Done (i, o).

Lemma shaped_lookup outs b : shaped outs -> b < length (blocks g) ->
  exists o, outs !! b = Some o /\ length o = n.
Proof.
  intros [Hl Hs] Hb. rewrite <-Hl in Hb. apply lookup_lt_is_Some in Hb as [o Ho].
  exists o. split; [done|]. rewrite Forall_lookup in Hs. by apply (Hs b).
Qed.

Lemma shaped_insert outs b o : shaped outs -> length o = n -> shaped (<[b := o]> outs).
Proof.
  intros [Hl Hs] Ho. split; [by rewrite length_insert|]. by apply Forall_insert.
Qed.

Lemma preds_are_edges bb ps p : preds g !! bb = Some ps -> p ∈ ps -> edge g p bb.
Proof. intros Hps Hp. by apply (wfc_preds g Hwf _ _ _ Hps). Qed.

Lemma wp_pred_states outs bb ps :
  shaped outs -> (forall p, p ∈ ps -> edge g p bb) ->
  wp (pred_states reach outs bb ps) (Forall (fun s => length s = n)).
Proof.
  intros Hs Hps. unfold pred_states.
  apply (wp_for_each _ ps (fun _ acc => Forall (fun s => length s = n) acc)); [done|].
  intros dn p rest acc Heq Hacc.
  assert (Hp : edge g p bb) by (apply Hps; rewrite Heq; set_solver).
  assert (Hlt : p < length (blocks g)) by (destruct Hp as (x & Hx & _); by eapply lookup_lt_Some).
  apply wp_bind, wp_idx; [by rewrite Hlen|]. intros [] _; [|done].
  destruct (shaped_lookup outs p Hs Hlt) as (o & Ho & Hol).
  apply wp_bind, wp_idx; [by eapply lookup_lt_Some|]. intros o' Ho'. simplify_eq.
  eapply wp_seq; [by apply al_edge|]. intros s Hsn.
  apply Forall_app. split; [done|]. by constructor.
Qed.

Lemma wp_block_in outs bb :
  shaped outs -> bb < length (blocks g) ->
  wp (block_in g reach outs bb) (fun s => length s = n).
Proof.
  intros Hs Hbb. unfold block_in. case_decide; [by apply (al_init (g := g))|].
  apply wp_bind, wp_idx; [by rewrite (wfc_preds_len g Hwf)|]. intros ps Hps.
  eapply wp_seq; [apply wp_pred_states; [done|]|].
  - intros p Hp. by eapply preds_are_edges.
  - intros l Hl. by apply (al_join (g := g)).
Qed.

Lemma wp_eval_block outs bb :
  shaped outs -> bb < length (blocks g) ->
  wp (eval_block outs bb) (fun '(i, o) => length i = n /\ length o = n).
Proof.
  intros Hs Hbb. eapply wp_seq; [by apply wp_block_in|]. intros i Hi.
  eapply wp_seq; [by apply al_transfer|]. intros o Ho. done.
Qed.

(** The states a block gets from its predecessors. *)
Lemma pred_states_elem outs bb ps :
  shaped outs -> (forall p, p ∈ ps -> edge g p bb) ->
  wp (pred_states reach outs bb ps) (fun l => forall s, s ∈ l <->
    exists p o, p ∈ ps /\ reach !! p = Some true /\ outs !! p = Some o /\
      a_edge p bb o = Done s).
Proof.
  intros Hs Hps. unfold pred_states.
  apply (wp_for_each _ ps (fun dn l => forall s, s ∈ l <->
    exists p o, p ∈ dn /\ reach !! p = Some true /\ outs !! p = Some o /\
      a_edge p bb o = Done s)); [set_solver|].
  intros dn p rest l Heq Hl.
  assert (Hp : edge g p bb) by (apply Hps; rewrite Heq; set_solver).
  assert (Hlt : p < length (blocks g)) by (destruct Hp as (? & ? & _); by eapply lookup_lt_Some).
  apply wp_bind, wp_idx; [by rewrite Hlen|]. intros r Hr.
  destruct (shaped_lookup outs p Hs Hlt) as (o & Ho & Hol). destruct r.
  - rewrite (proj2 (idx_Done _ _ _) Ho). simpl.
    pose proof (al_edge p bb o Hp Hol) as He. apply wp_inv in He as (t & He & _).
    rewrite He. simpl. intros s.
    rewrite elem_of_app, list_elem_of_singleton, Hl. split.
    + intros [(q & oq & ? & ? & ? & ?)| ->]; [exists q, oq|exists p, o]; set_solver.
    + intros (q & oq & [Hq|Hq]%elem_of_app & Hrq & Hoq & Heq'); [left; eauto 10|].
      apply list_elem_of_singleton in Hq as ->. right. congruence.
  - intros s. rewrite Hl. split; intros (q & oq & Hq & Hrq & Hoq); exists q, oq; split; try done.
    + set_solver.
    + apply elem_of_app in Hq as [?|Hq]; [done|].
      apply list_elem_of_singleton in Hq as ->. congruence.
Qed.

Lemma reachable_pred x : reachable g x -> x <> entry g ->
  exists p, reachable g p /\ edge g p x.
Proof.
  intros Hx Hne. apply rtc_inv_r in Hx as [<-|(p & Hp & He)]; [done|]. eauto.
Qed.

(** The state at the start of a block that is not the entry is the join of what its
    reachable predecessors pass, and there is one. *)
Lemma block_in_inputs outs x i :
  shaped outs -> reachable g x -> x <> entry g -> block_in g reach outs x = Done i ->
  exists inputs, i = a_join inputs /\ inputs <> [] /\
    Forall (fun s => length s = n) inputs /\
    forall s, s ∈ inputs <-> exists p o, reachable g p /\ edge g p x /\ outs !! p = Some o /\
      a_edge p x o = Done s.
Proof.
  intros Hs Hx Hne Hi. unfold block_in in Hi. rewrite decide_False in Hi by done.
  apply bind_Done in Hi as (ps & Hps & Hi). apply idx_Done in Hps.
  apply bind_Done in Hi as (inputs & Hin & [= <-]).
  assert (Hedge : forall p, p ∈ ps <-> edge g p x) by (intros p; by apply (wfc_preds g Hwf)).
  pose proof (pred_states_elem outs x ps Hs ltac:(intros p; apply Hedge)) as Hw.
  pose proof (wp_pred_states outs x ps Hs ltac:(intros p; apply Hedge)) as Hw2.
  rewrite Hin in Hw, Hw2. simpl in Hw, Hw2.
  assert (Hel : forall s, s ∈ inputs <-> exists p o, reachable g p /\ edge g p x /\
    outs !! p = Some o /\ a_edge p x o = Done s).
  { intros s. rewrite Hw. split; intros (p & o & H1 & H2 & H3); exists p, o.
    - split; [by apply Hreach|]. split; [by apply Hedge|done].
    - split; [by apply Hedge|]. split; [by apply Hreach|done]. }
  exists inputs. split_and!; [done| |done|done].
  destruct (reachable_pred x Hx Hne) as (p & Hp & He).
  assert (Hlt : p < length (blocks g)) by (destruct He as (? & ? & _); by eapply lookup_lt_Some).
  destruct (shaped_lookup outs p Hs Hlt) as (o & Ho & Hol). intros ->.
  pose proof (al_edge p x o He Hol) as (t & Ht & _)%wp_inv.
  assert (t ∈ @nil (list A)) as []%not_elem_of_nil. apply Hel. eauto 10.
Qed.

(** The parts of an evaluation. *)
Lemma eval_block_inv outs x i o :
  shaped outs -> reachable g x -> eval_block outs x = Done (i, o) ->
  block_in g reach outs x = Done i /\ length i = n /\ a_transfer x i = Done o.
Proof.
  intros Hs Hx He. unfold eval_block in He. apply bind_Done in He as (i' & Hi & He).
  apply bind_Done in He as (o' & Ho & [= -> ->]). split; [done|].
  pose proof (wp_block_in outs x Hs (reachable_lt _ _ Hwf Hx)) as Hw.
  by rewrite Hi in Hw.
Qed.

(** *** Monotonicity *)

Lemma pred_states_mono outs1 outs2 bb ps acc1 acc2 l1 l2 :
  shaped outs1 -> (forall p, p ∈ ps -> edge g p bb) ->
  Forall2 sle outs1 outs2 -> Forall2 sle acc1 acc2 ->
  for_each (pred_state reach outs1 bb) ps acc1 = Done l1 ->
  for_each (pred_state reach outs2 bb) ps acc2 = Done l2 ->
  Forall2 sle l1 l2.
Proof.
  intros Hs Hps Houts. revert Hps acc1 acc2.
  induction ps as [|p ps IH]; intros Hps acc1 acc2 Hacc H1 H2.
  { simpl in *. by simplify_eq. }
  simpl in H1, H2. apply bind_Done in H1 as (a1 & Ha1 & H1).
  apply bind_Done in H2 as (a2 & Ha2 & H2). eapply (IH ltac:(set_solver) a1 a2); [|done..].
  unfold pred_state in *. apply bind_Done in Ha1 as (r & Hr & Ha1). rewrite Hr in Ha2.
  simpl in Ha2. destruct r; [|by simplify_eq]. run_inv.
  apply Forall2_app; [done|]. constructor; [|done].
  match goal with
  | Ho1 : outs1 !! p = Some ?o1, Ho2 : outs2 !! p = Some ?o2 |- _ =>
      apply (al_edge_mono (g := g) (n := n) p bb o1 o2); try done;
      [apply (Hps p); set_solver
      |apply (proj1 (Forall_lookup _ _) (proj2 Hs) _ _ Ho1)
      |apply (Forall2_lookup_lr _ _ _ _ _ _ Houts Ho1 Ho2)]
  end.
Qed.

Lemma block_in_mono outs1 outs2 bb i1 i2 :
  shaped outs1 -> Forall2 sle outs1 outs2 ->
  block_in g reach outs1 bb = Done i1 -> block_in g reach outs2 bb = Done i2 -> sle i1 i2.
Proof.
  intros Hs Houts. unfold block_in. case_decide; [intros; by simplify_eq|].
  intros E1 E2. unfold predecessors in *.
  apply bind_Done in E1 as (ps & Hps & E1). rewrite Hps in E2. simpl in E2.
  apply idx_Done in Hps. run_inv.
  assert (Hedges : forall p, p ∈ ps -> edge g p bb) by (intros p; by apply preds_are_edges).
  apply (al_join_mono (g := g) (n := n)).
  - pose proof (wp_pred_states outs1 bb ps Hs Hedges) as Hw. by rewrite Ha0 in Hw.
  - by apply (pred_states_mono outs1 outs2 bb ps [] []); [..|exact Ha0|exact Ha].
Qed.

Lemma eval_block_mono outs1 outs2 bb i1 i2 o1 o2 :
  bb < length (blocks g) -> shaped outs1 -> Forall2 sle outs1 outs2 ->
  eval_block outs1 bb = Done (i1, o1) -> eval_block outs2 bb = Done (i2, o2) -> sle o1 o2.
Proof.
  intros Hbb Hs Houts H1 H2. unfold eval_block in *.
  apply bind_Done in H1 as (x1 & Hx1 & H1). apply bind_Done in H2 as (x2 & Hx2 & H2).
  run_inv. simplify_eq. pose proof (wp_block_in outs1 bb Hs Hbb) as Hw. rewrite Hx1 in Hw.
  eapply al_transfer_mono; [done|exact Hw| |eassumption..]. by eapply block_in_mono.
Qed.

(** The equations of a block look at its predecessors only. *)
Lemma pred_states_local outs p o bb ps acc :
  p ∉ ps -> for_each (pred_state reach (<[p := o]> outs) bb) ps acc =
            for_each (pred_state reach outs bb) ps acc.
Proof.
  revert acc; induction ps as [|q ps IH]; intros acc Hp; [done|]. simpl.
  assert (pred_state reach (<[p:=o]> outs) bb acc q = pred_state reach outs bb acc q) as ->.
  { unfold pred_state, idx. by rewrite list_lookup_insert_ne by set_solver. }
  destruct (pred_state _ _ _ _ _); simpl; auto. apply IH. set_solver.
Qed.

Lemma eval_block_local outs p o bb :
  bb < length (blocks g) -> ~ edge g p bb ->
  eval_block (<[p := o]> outs) bb = eval_block outs bb.
Proof.
  intros Hbb Hne. unfold eval_block, block_in. case_decide; [done|].
  unfold predecessors, idx. destruct (preds g !! bb) as [ps|] eqn:Hps; [|done]. simpl.
  unfold pred_states. rewrite pred_states_local; [done|].
  intros Hp. by eapply Hne, preds_are_edges.
Qed.

(** *** The invariant of the loop *)

Lemma reach_lt b : reach !! b = Some true -> b < length (blocks g).
Proof. intros Hb%Hreach. by apply reachable_lt. Qed.

(** [P] relates a reachable block to the state at its end; the equations keep it. *)
Context (P : BlockId -> list A -> Prop).

Definition all_blocks (outs : list (list A)) : Prop :=
  forall b o, reach !! b = Some true -> outs !! b = Some o -> P b o.

Context (HP : forall outs b i o, shaped outs -> all_blocks outs ->
  reach !! b = Some true -> eval_block outs b = Done (i, o) -> P b o).

Record solver_inv (wl : list BlockId) (ins outs : list (list A)) : Prop := {
  si_ins : shaped ins;
  si_outs : shaped outs;
  si_wl : Forall (fun b => b < length (blocks g)) wl;
  si_decr : forall b i o cur, reach !! b = Some true ->
    eval_block outs b = Done (i, o) -> outs !! b = Some cur -> sle o cur;
  si_stable : forall b, reach !! b = Some true -> b ∉ wl ->
    exists i o, ins !! b = Some i /\ outs !! b = Some o /\ eval_block outs b = Done (i, o);
  si_prop : all_blocks outs
}.

Lemma sle_insert outs b o cur :
  outs !! b = Some cur -> sle o cur -> Forall2 sle (<[b := o]> outs) outs.
Proof.
  intros Hc Hle. rewrite <-(list_insert_id outs b cur) at 2 by done.
  apply Forall2_insert; [done|done].
Qed.

(** An evaluation that changes nothing. *)
Lemma solver_inv_same bb wl ins outs i o :
  solver_inv (bb :: wl) ins outs -> reach !! bb = Some true ->
  eval_block outs bb = Done (i, o) -> outs !! bb = Some o -> length i = n ->
  solver_inv wl (<[bb := i]> ins) outs.
Proof.
  intros [I1 I2 I3 I4 I5 I6] Hr He Ho Hi. apply Forall_cons in I3 as [Hlt I3].
  split; try done; [by apply shaped_insert|].
  intros b Hb Hnin. destruct (decide (b = bb)) as [->|Hne].
  - exists i, o. rewrite list_lookup_insert_eq; [done|]. by rewrite (proj1 I1).
  - rewrite list_lookup_insert_ne by done. apply I5; [done|]. set_solver.
Qed.

(** An evaluation that lowers the state of a block. *)
Lemma solver_inv_lower bb wl ins outs i o cur blk :
  solver_inv (bb :: wl) ins outs -> reach !! bb = Some true ->
  eval_block outs bb = Done (i, o) -> outs !! bb = Some cur -> length i = n -> length o = n ->
  blocks g !! bb = Some blk ->
  solver_inv (wl ++ succs blk) (<[bb := i]> ins) (<[bb := o]> outs).
Proof.
  intros [I1 I2 I3 I4 I5 I6] Hr He Hcur Hi Ho Hblk.
  apply Forall_cons in I3 as [Hlt I3].
  assert (Hs : shaped (<[bb := o]> outs)) by by apply shaped_insert.
  assert (Hle : Forall2 sle (<[bb := o]> outs) outs).
  { eapply sle_insert; [done|]. by eapply I4. }
  assert (Hself : <[bb := o]> outs !! bb = Some o).
  { apply list_lookup_insert_eq. by rewrite (proj1 I2). }
  split; [by apply shaped_insert|done| | | |].
  - apply Forall_app. split; [done|]. apply (wfc_terms g Hwf _ _ Hblk).
  - intros b i' o' cur' Hb He' Hc'.
    pose proof (wp_eval_block outs b I2 (reach_lt b Hb)) as Hw.
    destruct (eval_block outs b) as [[i2 o2]| |] eqn:E2; try done.
    assert (Hoo : sle o' o2) by (eapply eval_block_mono; [by apply reach_lt|done..]).
    destruct (decide (b = bb)) as [->|Hne].
    { rewrite Hself in Hc'. rewrite He in E2. by simplify_eq. }
    rewrite list_lookup_insert_ne in Hc' by done. transitivity o2; [done|]. by eapply I4.
  - intros b Hb Hnin.
    assert (Hnedge : ~ edge g bb b).
    { intros (blk' & Hblk' & Hsucc). simplify_eq. set_solver. }
    rewrite eval_block_local by (done || by apply reach_lt).
    destruct (decide (b = bb)) as [->|Hne].
    + exists i, o. rewrite list_lookup_insert_eq by (by rewrite (proj1 I1)). done.
    + rewrite !list_lookup_insert_ne by done. apply I5; [done|]. set_solver.
  - intros b o' Hb [(<- & -> & _)|[_ Ho']]%list_lookup_insert_Some.
    + by eapply (HP outs).
    + by eapply I6.
Qed.

Lemma solver_inv_skip bb wl ins outs :
  solver_inv (bb :: wl) ins outs -> reach !! bb = Some false -> solver_inv wl ins outs.
Proof.
  intros [I1 I2 I3 I4 I5 I6] Hr. apply Forall_cons in I3 as [_ I3]. split; try done.
  intros b Hb Hnin. apply I5; [done|]. intros [->|?]%elem_of_cons; [congruence|done].
Qed.

(** The result: both families satisfy the equations at every reachable block. *)
Definition solved (ins outs : list (list A)) : Prop :=
  shaped ins /\ shaped outs /\ all_blocks outs /\
  forall b, reach !! b = Some true ->
    exists i o, ins !! b = Some i /\ outs !! b = Some o /\ eval_block outs b = Done (i, o).

Lemma set_if_changed (ins : list (list A)) bb i old (Q : list (list A) -> Prop) :
  ins !! bb = Some old -> Q (<[bb := i]> ins) ->
  wp (if decide (i = old) then Done ins else set_idx ins bb i) Q.
Proof.
  intros Hold HQ. case_decide as Hd.
  - subst. by rewrite list_insert_id in HQ.
  - apply wp_set_idx; [by eapply lookup_lt_Some|done].
Qed.

Lemma wp_solve_loop fuel wl ins outs :
  solver_inv wl ins outs -> length wl + potential (blocks g) outs < fuel ->
  wp (solve_loop g reach fuel wl ins outs) (fun '(ins, outs) => solved ins outs).
Proof.
  revert wl ins outs; induction fuel as [|fuel IH]; intros wl ins outs Hinv Hf; [lia|].
  destruct wl as [|bb wl]; simpl.
  { destruct Hinv as [I1 I2 I3 I4 I5 I6]. split_and!; try done.
    intros b Hb. apply I5; [done|]. apply not_elem_of_nil. }
  pose proof (si_wl _ _ _ Hinv) as [Hbb _]%Forall_cons.
  apply wp_bind, wp_idx; [by rewrite Hlen|]. intros [] Hr; simpl.
  2:{ apply IH; [by eapply solver_inv_skip|]. simpl in Hf. lia. }
  pose proof (wp_eval_block outs bb (si_outs _ _ _ Hinv) Hbb) as Hw.
  unfold eval_block in Hw. destruct (eval_block outs bb) as [[i o]| |] eqn:He;
    unfold eval_block in He; rewrite He in Hw; try done. destruct Hw as [Hi Ho].
  apply bind_Done in He as (i' & Hin & He). apply bind_Done in He as (o' & Hout & [= -> ->]).
  assert (He : eval_block outs bb = Done (i, o)) by (unfold eval_block; by rewrite Hin; simpl; rewrite Hout).
  destruct (shaped_lookup ins bb (si_ins _ _ _ Hinv) Hbb) as (oldi & Hoi & _).
  destruct (shaped_lookup outs bb (si_outs _ _ _ Hinv) Hbb) as (oldo & Hoo & _).
  rewrite Hin. simpl. rewrite (proj2 (idx_Done _ _ _) Hoi). simpl.
  apply wp_bind, set_if_changed; [done|]. rewrite Hout. simpl.
  rewrite (proj2 (idx_Done _ _ _) Hoo). simpl.
  case_decide as Hd.
  - subst. apply IH; [by eapply solver_inv_same|]. simpl in Hf. lia.
  - apply wp_bind, wp_set_idx; [by eapply lookup_lt_Some|].
    apply wp_bind, wp_bind, wp_idx; [done|]. intros blk Hblk. simpl.
    apply IH; [by eapply solver_inv_lower|].
    assert (Hlt : rank o < rank oldo).
    { apply rank_lt; [|done]. by eapply (si_decr _ _ _ Hinv). }
    pose proof (potential_insert _ _ _ _ _ _ Hblk Hoo Hlt). simpl in Hf.
    rewrite length_app. lia.
Qed.

Lemma elem_of_initial_worklist b : b ∈ initial_worklist reach <-> reach !! b = Some true.
Proof.
  unfold initial_worklist. rewrite list_elem_of_omap. split.
  - intros ([i r] & Hin & Hb). apply list_elem_of_lookup in Hin as [j Hj].
    rewrite list_lookup_imap in Hj. destruct (reach !! j) eqn:E; simplify_eq/=.
    destruct r; by simplify_eq.
  - intros Hb. exists (b, true). split; [|done]. apply list_elem_of_lookup. exists b.
    by rewrite list_lookup_imap, Hb.
Qed.

Lemma length_initial_worklist : length (initial_worklist reach) <= length reach.
Proof.
  unfold initial_worklist. rewrite <-(length_imap pair reach).
  induction (imap pair reach) as [|[i []] l IH]; csimpl in *; lia.
Qed.

(** The solver, from states that are all [top], returns a solution. *)
Lemma wp_solve ins :
  shaped ins ->
  (forall b, reach !! b = Some true -> P b (replicate n ftop)) ->
  wp (solve g reach n ins (replicate (length (blocks g)) (replicate n ftop)))
     (fun '(ins, outs) => solved ins outs).
Proof.
  intros Hins HP0. apply wp_solve_loop.
  - split; try done.
    + split; [by rewrite length_replicate|]. apply Forall_replicate, length_replicate.
    + rewrite Forall_forall. intros b Hb%elem_of_initial_worklist. by apply reach_lt.
    + intros b i o cur Hb He [-> _]%lookup_replicate_1.
      assert (Hs : shaped (replicate (length (blocks g)) (replicate n ftop))).
      { split; [by rewrite length_replicate|]. apply Forall_replicate, length_replicate. }
      pose proof (wp_eval_block _ b Hs (reach_lt b Hb)) as Hw. rewrite He in Hw.
      destruct Hw as [_ <-]. apply sle_top.
    + intros b Hb Hnin. exfalso. by apply Hnin, elem_of_initial_worklist.
    + intros b o Hb [-> _]%lookup_replicate_1. by apply HP0.
  - unfold solve_fuel. pose proof (potential_replicate (blocks g) n).
    pose proof length_initial_worklist. lia.
Qed.
End Laws.
