(* ===== verification/FlowDiag.v ===== *)
(** * Diagnostics of the flow analyses

    [nova_types::Diagnostic] (crates/nova-types/src/lib.rs) and the constructor the flow
    analyses use (crates/nova-flow/src/diagnostics.rs). *)

From stdpp Require Import base list numbers strings option.
From S2P Require Import Prelude HirBody.

Inductive Severity := Error | Warning | Info.

Record Diagnostic := mkDiag {
  severity : Severity;
  code : string;
  message : string;
  span : option Span
}.

Global Instance Severity_eq_dec : EqDecision Severity.
Proof. solve_decision. Defined.
Global Instance Diagnostic_eq_dec : EqDecision Diagnostic.
Proof. solve_decision. Defined.

(** [Diagnostic::error] and [Diagnostic::warning]. *)
Definition diag_error (code message : string) (span : option Span) : Diagnostic :=
  mkDiag Error code message span.

Definition diag_warning (code message : string) (span : option Span) : Diagnostic :=
  mkDiag Warning code message span.

Inductive FlowDiagnosticKind := UseBeforeAssignment | UnreachableCode | PossibleNullDereference.

Record FlowConfig := mkConfig {
  report_unreachable : bool;
  report_possible_null_deref : bool
}.

(** [FlowConfig::default]. *)
Definition default_config : FlowConfig := mkConfig true true.

Definition diagnostic (kind : FlowDiagnosticKind) (span : option Span) (message : string)
    : Diagnostic :=
  match kind with
  | UseBeforeAssignment => diag_error "FLOW_UNASSIGNED" message span
  | UnreachableCode => diag_warning "FLOW_UNREACHABLE" message span
  | PossibleNullDereference => diag_warning "FLOW_NULL_DEREF" message span
  end.
