(* ===== verification/Exec.v ===== *)
(** * Executions of a control-flow graph

    The concrete semantics the analyses of crates/nova-flow/src/flow.rs are sound for.  A
    local holds nothing (not assigned), [null], a boolean or another value; an expression
    evaluates to any of its possible results (calls and field reads return anything);
    executions follow the edges of the graph.  The two faults: reading a local that is not
    assigned, and dereferencing [null], each with the expression where it happens. *)

From stdpp Require Import base list numbers strings option relations.
From S2P Require Import Prelude HirBody Cfg CfgBuild.

Inductive value := VNull | VBool (b : bool) | VOther.

Notation env := (list (option value)).

(** The results [==] may have: it is determined when an operand is [null]. *)
Definition eq_result (v1 v2 : value) (r : bool) : Prop :=
  match v1, v2 with
  | VNull, VNull => r = true
  | VNull, _ | _, VNull => r = false
  | _, _ => True
  end.

Section Exec.
Context (b : Body).

(** [eval ρ e v]: the expression [e] may evaluate to [v]. *)
Inductive eval (ρ : env) : ExprId -> value -> Prop :=
| eval_local e sp l v :
    exprs b !! e = Some (mkExpr (ExprKind.Local l) sp) -> ρ !! l = Some (Some v) ->
    eval ρ e v
| eval_null e sp : exprs b !! e = Some (mkExpr ExprKind.Null sp) -> eval ρ e VNull
| eval_bool e sp x : exprs b !! e = Some (mkExpr (ExprKind.Bool x) sp) -> eval ρ e (VBool x)
| eval_int e sp z : exprs b !! e = Some (mkExpr (ExprKind.Int z) sp) -> eval ρ e VOther
| eval_str e sp s : exprs b !! e = Some (mkExpr (ExprKind.Str s) sp) -> eval ρ e VOther
| eval_new e sp c args :
    exprs b !! e = Some (mkExpr (ExprKind.New c args) sp) -> eval ρ e VOther
| eval_not e sp e1 x :
    exprs b !! e = Some (mkExpr (ExprKind.Unary Not e1) sp) -> eval ρ e1 (VBool x) ->
    eval ρ e (VBool (negb x))
| eval_eq e sp l r v1 v2 x :
    exprs b !! e = Some (mkExpr (ExprKind.Binary EqEq l r) sp) ->
    eval ρ l v1 -> eval ρ r v2 -> eq_result v1 v2 x -> eval ρ e (VBool x)
| eval_ne e sp l r v1 v2 x :
    exprs b !! e = Some (mkExpr (ExprKind.Binary NotEq l r) sp) ->
    eval ρ l v1 -> eval ρ r v2 -> eq_result v1 v2 x -> eval ρ e (VBool (negb x))
| eval_and_false e sp l r :
    exprs b !! e = Some (mkExpr (ExprKind.Binary AndAnd l r) sp) ->
    eval ρ l (VBool false) -> eval ρ e (VBool false)
| eval_and_true e sp l r x :
    exprs b !! e = Some (mkExpr (ExprKind.Binary AndAnd l r) sp) ->
    eval ρ l (VBool true) -> eval ρ r (VBool x) -> eval ρ e (VBool x)
| eval_or_true e sp l r :
    exprs b !! e = Some (mkExpr (ExprKind.Binary OrOr l r) sp) ->
    eval ρ l (VBool true) -> eval ρ e (VBool true)
| eval_or_false e sp l r x :
    exprs b !! e = Some (mkExpr (ExprKind.Binary OrOr l r) sp) ->
    eval ρ l (VBool false) -> eval ρ r (VBool x) -> eval ρ e (VBool x)
| eval_field e sp r nm v :
    exprs b !! e = Some (mkExpr (ExprKind.FieldAccess r nm) sp) -> eval ρ e v
| eval_call e sp r nm args v :
    exprs b !! e = Some (mkExpr (ExprKind.Call r nm args) sp) -> eval ρ e v
| eval_invalid e sp cs v :
    exprs b !! e = Some (mkExpr (ExprKind.Invalid cs) sp) -> eval ρ e v.

(** [visits ρ e x]: evaluating [e] may reach the sub-expression [x]; the right operand of a
    short-circuit operator is reached only when the left one lets it. *)
Inductive visits (ρ : env) : ExprId -> ExprId -> Prop :=
| visits_self e : visits ρ e e
| visits_binary_r e sp op l r x :
    exprs b !! e = Some (mkExpr (ExprKind.Binary op l r) sp) ->
    (op = AndAnd -> eval ρ l (VBool true)) -> (op = OrOr -> eval ρ l (VBool false)) ->
    visits ρ r x -> visits ρ e x
| visits_binary_l e sp op l r x :
    exprs b !! e = Some (mkExpr (ExprKind.Binary op l r) sp) ->
    visits ρ l x -> visits ρ e x
| visits_child e ed c x :
    exprs b !! e = Some ed ->
    match expr_kind ed with ExprKind.Binary _ _ _ => False | _ => True end ->
    c ∈ expr_children (expr_kind ed) ->
    visits ρ c x -> visits ρ e x.

(** Evaluating [e] may read, at the expression [x], the local [l] that is not assigned. *)
Definition unassigned_read (ρ : env) (e x : ExprId) (l : LocalId) : Prop :=
  visits ρ e x /\ (exists sp, exprs b !! x = Some (mkExpr (ExprKind.Local l) sp)) /\
  ρ !! l = Some None.

(** The receiver of a field access or of a call. *)
Definition receiver_of (k : ExprKind.t) : option ExprId :=
  match k with
  | ExprKind.FieldAccess r _ => Some r
  | ExprKind.Call r _ _ => r
  | _ => None
  end.

(** Evaluating [e] may dereference [null] at the expression [x]. *)
Definition null_deref (ρ : env) (e x : ExprId) : Prop :=
  visits ρ e x /\ exists xd r, exprs b !! x = Some xd /\
    receiver_of (expr_kind xd) = Some r /\ eval ρ r VNull.

(** ** Statements and blocks *)

(** The effect of a statement of a block on the locals.  What is returned or thrown does
    not change them; such a statement is in a block when a [finally] block runs next. *)
Inductive exec_stmt (ρ : env) : StmtId -> env -> Prop :=
| exec_let st sp l e v :
    stmts b !! st = Some (mkStmt (StmtKind.Let l (Some e)) sp) -> eval ρ e v ->
    exec_stmt ρ st (<[l := Some v]> ρ)
| exec_let_none st sp l :
    stmts b !! st = Some (mkStmt (StmtKind.Let l None) sp) ->
    exec_stmt ρ st (<[l := None]> ρ)
| exec_assign st sp l e v :
    stmts b !! st = Some (mkStmt (StmtKind.Assign l e) sp) -> eval ρ e v ->
    exec_stmt ρ st (<[l := Some v]> ρ)
| exec_expr st sp e :
    stmts b !! st = Some (mkStmt (StmtKind.Expr e) sp) -> exec_stmt ρ st ρ
| exec_nop st sp : stmts b !! st = Some (mkStmt StmtKind.Nop sp) -> exec_stmt ρ st ρ
| exec_return st sp v :
    stmts b !! st = Some (mkStmt (StmtKind.Return v) sp) -> exec_stmt ρ st ρ
| exec_throw st sp e :
    stmts b !! st = Some (mkStmt (StmtKind.Throw e) sp) -> exec_stmt ρ st ρ.

Inductive exec_stmts (ρ : env) : list StmtId -> env -> Prop :=
| exec_nil : exec_stmts ρ [] ρ
| exec_snoc ss st ρ1 ρ2 :
    exec_stmts ρ ss ρ1 -> exec_stmt ρ1 st ρ2 -> exec_stmts ρ (ss ++ [st]) ρ2.

(** The block a terminator goes to. *)
Inductive exec_term (ρ : env) : Terminator.t -> BlockId -> Prop :=
| exec_goto t from : exec_term ρ (Terminator.Goto t from) t
| exec_then c t e from : eval ρ c (VBool true) -> exec_term ρ (Terminator.If c t e from) t
| exec_else c t e from : eval ρ c (VBool false) -> exec_term ρ (Terminator.If c t e from) e
| exec_multi ts from t : t ∈ ts -> exec_term ρ (Terminator.Multi ts from) t
| exec_switch e ts from t : t ∈ ts -> exec_term ρ (Terminator.Switch e ts from) t.

Context (g : ControlFlowGraph).

(** From the start of a block to the start of the next. *)
Definition block_step (c1 c2 : BlockId * env) : Prop :=
  exists bb ρ, blocks g !! c1.1 = Some bb /\ exec_stmts c1.2 (bb_stmts bb) ρ /\
    exec_term ρ (bb_term bb) c2.1 /\ c2.2 = ρ.

(** At the entry, parameters are assigned and the other locals are not. *)
Definition initial_env (ρ : env) : Prop :=
  length ρ = length (locals b) /\
  forall l x, locals b !! l = Some x ->
    match local_kind x with
    | Param => exists v, ρ !! l = Some (Some v)
    | LocalVar => ρ !! l = Some None
    end.

(** [runs_to bb ρ]: some execution from the entry arrives at [bb] with the locals [ρ]. *)
Definition runs_to (bb : BlockId) (ρ : env) : Prop :=
  exists ρ0, initial_env ρ0 /\ rtc block_step (entry g, ρ0) (bb, ρ).

(** [evaluates ρ e]: some execution evaluates [e] with the locals [ρ], as part of a
    statement of a block or of its terminator. *)
Inductive evaluates (ρ : env) : ExprId -> Prop :=
| evaluates_stmt bb blk ρ0 pre st post sd e :
    runs_to bb ρ0 -> blocks g !! bb = Some blk -> bb_stmts blk = pre ++ st :: post ->
    exec_stmts ρ0 pre ρ -> stmts b !! st = Some sd -> e ∈ stmt_exprs (stmt_kind sd) ->
    evaluates ρ e
| evaluates_term bb blk ρ0 e :
    runs_to bb ρ0 -> blocks g !! bb = Some blk ->
    exec_stmts ρ0 (bb_stmts blk) ρ ->
    (match bb_term blk with
     | Terminator.If c _ _ _ => e = c
     | Terminator.Switch x _ _ => e = x
     | Terminator.Return v _ => v = Some e
     | Terminator.Throw x _ => e = x
     | _ => False
     end) ->
    evaluates ρ e.
End Exec.

(** ** Facts about executions *)

(** Inversion of an evaluation whose expression is known. *)
Ltac inv_eval :=
  match goal with
  | H : eval ?b ?ρ ?e _, He : exprs ?b !! ?e = Some _ |- _ =>
      inversion H; clear H; subst;
      repeat match goal with
      | H2 : exprs b !! e = Some _ |- _ =>
          first [ constr_eq H2 He; fail 1
                | rewrite He in H2; injection H2; clear H2; intros; subst; try discriminate ]
      end
  end.

Lemma expr_eta b e ed :
  exprs b !! e = Some ed -> exprs b !! e = Some (mkExpr (expr_kind ed) (expr_span ed)).
Proof. by destruct ed. Qed.

(** Constant conditions have the value [eval_const_bool] computes. *)
Lemma eval_const_bool_sound b ρ fuel e x y :
  eval_const_bool_fuel fuel b e = Done (Some x) -> eval b ρ e (VBool y) -> y = x.
Proof.
  revert e x y; induction fuel as [|fuel IH]; intros e x y Hc Hev; [done|]. simpl in Hc.
  run_inv. apply expr_Done, expr_eta in Ha.
  destruct (expr_kind a) as [| |v| | | |[] c|[] l r| | |] eqn:Ek; try discriminate.
  - injection Hc as ->. inversion Hev; simplify_eq; congruence.
  - run_inv. destruct a0 as [v|]; [|done]. injection Hc as <-.
    inversion Hev; simplify_eq. f_equal. by eapply IH.
  - run_inv. inversion Hev; simplify_eq; destruct a0 as [[]|]; simplify_eq; eauto.
    all: match goal with
         | H1 : eval_const_bool_fuel _ _ ?l = Done (Some ?v), H2 : eval _ _ ?l (VBool ?w) |- _ =>
             specialize (IH _ _ _ H1 H2); congruence
         end.
  - run_inv. inversion Hev; simplify_eq; destruct a0 as [[]|]; simplify_eq; eauto.
    all: match goal with
         | H1 : eval_const_bool_fuel _ _ ?l = Done (Some ?v), H2 : eval _ _ ?l (VBool ?w) |- _ =>
             specialize (IH _ _ _ H1 H2); congruence
         end.
Qed.

Lemma exec_term_succ b ρ term t : exec_term b ρ term t -> t ∈ term_succs term.
Proof. destruct 1; simpl; set_solver. Qed.

Lemma block_step_edge b g c1 c2 : block_step b g c1 c2 -> edge g c1.1 c2.1.
Proof.
  intros (bb & ρ & Hbb & _ & Ht & _). exists bb. split; [done|]. by eapply exec_term_succ.
Qed.

Lemma runs_to_reachable b g bb ρ : runs_to b g bb ρ -> reachable g bb.
Proof.
  intros (ρ0 & _ & Hr). unfold reachable.
  assert (Hgen : forall c1 c2, rtc (block_step b g) c1 c2 -> rtc (edge g) c1.1 c2.1).
  { induction 1 as [|x y z Hxy _ IH]; [constructor|].
    eapply rtc_l; [by apply (block_step_edge b g x y)|exact IH]. }
  apply (Hgen _ _ Hr).
Qed.

Lemma exec_stmt_length b ρ st ρ' : exec_stmt b ρ st ρ' -> length ρ' = length ρ.
Proof. destruct 1; rewrite ?length_insert; done. Qed.

Lemma exec_stmts_length b ρ ss ρ' : exec_stmts b ρ ss ρ' -> length ρ' = length ρ.
Proof. induction 1 as [|ss st ρ1 ρ2 _ IH Hs]; [done|]. apply exec_stmt_length in Hs. congruence. Qed.

(** Rule induction along executions. *)
Lemma runs_to_ind b g (Q : BlockId -> env -> Prop) :
  (forall ρ0, initial_env b ρ0 -> Q (entry g) ρ0) ->
  (forall bb ρ bb' ρ', runs_to b g bb ρ -> Q bb ρ ->
     block_step b g (bb, ρ) (bb', ρ') -> Q bb' ρ') ->
  forall bb ρ, runs_to b g bb ρ -> Q bb ρ.
Proof.
  intros H0 Hstep bb ρ (ρ0 & Hi & Hr).
  apply (rtc_ind_r (fun c => Q c.1 c.2) (entry g, ρ0) (H0 _ Hi)
    (fun c1 c2 Hc Hs IH => ltac:(clear Hr; destruct c1 as [bb1 ρ1], c2 as [bb2 ρ2];
      eapply Hstep; [by exists ρ0|exact IH|exact Hs])) (bb, ρ) Hr).
Qed.

(** The property that locals outside the arena do not exist. *)
Lemma runs_to_length b g bb ρ : runs_to b g bb ρ -> length ρ = length (locals b).
Proof.
  revert bb ρ.
  apply (runs_to_ind b g (fun _ ρ => length ρ = length (locals b))); [by intros ρ0 [? _]|].
  intros bb1 ρ1 bb2 ρ2 _ IH (blk & ρ' & _ & Hs & _ & Heq). simpl in *. subst.
  apply exec_stmts_length in Hs. congruence.
Qed.

(** The cases of [visits], for an expression whose node is known. *)
Lemma visits_inv b ρ e x ed :
  exprs b !! e = Some ed -> visits b ρ e x ->
  x = e \/
  match expr_kind ed with
  | ExprKind.Binary op l r =>
      visits b ρ l x \/
      ((op = AndAnd -> eval b ρ l (VBool true)) /\ (op = OrOr -> eval b ρ l (VBool false)) /\
       visits b ρ r x)
  | k => exists c, c ∈ expr_children k /\ visits b ρ c x
  end.
Proof.
  intros He Hv. destruct Hv as [e|e sp op l r x H1 H2 H3 H4|e sp op l r x H1 H2|e ed' c x H1 H2 H3 H4].
  - by left.
  - right. rewrite He in H1. injection H1 as ->. simpl. auto.
  - right. rewrite He in H1. injection H1 as ->. simpl. auto.
  - right. rewrite He in H1. injection H1 as ->. destruct (expr_kind ed'); try done; eauto.
Qed.
