(* ===== verification/DefAssign.v ===== *)
(** * Definite assignment (crates/nova-flow/src/flow.rs)

    The transfer functions of the definite-assignment analysis, its states and its
    diagnostics.  The theorems: the analysis returns; the states at block entries are exactly
    the meet over all paths; and every read of an unassigned local that an execution of the
    graph can perform is reported. *)

From stdpp Require Import base list numbers strings option relations sets.
From S2P Require Import Prelude HirBody Cfg CfgBuild CfgBuildWf Dataflow FlowDiag Exec.

(** ** Checking expressions *)

(** [format!("use of local `{name}` before definite assignment")]. *)
Definition unassigned_message (name : string) : string :=
  "use of local `" +:+ name +:+ "` before definite assignment".

Fixpoint check_expr_assigned_fuel (fuel : nat) (b : Body) (e : ExprId) (state : list bool)
    (diags : list Diagnostic) : run (list Diagnostic) :=
  match fuel with
  | 0 => OutOfFuel
  | S fuel =>
      let check_all es diags :=
        for_each (fun d c => check_expr_assigned_fuel fuel b c state d) es diags in
      ed ← expr b e;
      match expr_kind ed with
      | ExprKind.Local l =>
          if decide (l < length state) then
            assigned ← idx state l;
            if negb assigned then
              x ← idx (locals b) l;
              Done (diags ++ [diagnostic UseBeforeAssignment (Some (expr_span ed))
                                (unassigned_message (local_name x))])
            else Done diags
          else Done diags
      | ExprKind.Unary _ c => check_expr_assigned_fuel fuel b c state diags
      | ExprKind.Binary op lhs rhs =>
          diags ← check_expr_assigned_fuel fuel b lhs state diags;
          skip ← match op with
                 | AndAnd => v ← eval_const_bool b lhs; Done (bool_decide (v = Some false))
                 | OrOr => v ← eval_const_bool b lhs; Done (bool_decide (v = Some true))
                 | _ => Done false
                 end;
          if skip : bool then Done diags else check_expr_assigned_fuel fuel b rhs state diags
      | ExprKind.FieldAccess r _ => check_expr_assigned_fuel fuel b r state diags
      | ExprKind.Call r _ args =>
          diags ← match r with
                  | Some r => check_expr_assigned_fuel fuel b r state diags
                  | None => Done diags
                  end;
          check_all args diags
      | ExprKind.New _ args | ExprKind.Invalid args => check_all args diags
      | ExprKind.Null | ExprKind.Bool _ | ExprKind.Int _ | ExprKind.Str _ => Done diags
      end
  end.

Definition check_expr_assigned (b : Body) (e : ExprId) (state : list bool)
    (diags : list Diagnostic) : run (list Diagnostic) :=
  check_expr_assigned_fuel (length (exprs b)) b e state diags.

(** ** Transfer functions *)

(** The state and the diagnostics, both updated in place. *)
Definition da_acc : Type := list bool * list Diagnostic.

Definition transfer_stmt_definite_assignment (b : Body) (acc : da_acc) (st : StmtId)
    : run da_acc :=
  let '(state, diags) := acc in
  sd ← stmt b st;
  match stmt_kind sd with
  | StmtKind.Let l initializer =>
      match initializer with
      | Some init =>
          diags ← check_expr_assigned b init state diags;
          state ← set_idx state l true;
          Done (state, diags)
      | None => state ← set_idx state l false; Done (state, diags)
      end
  | StmtKind.Assign target value =>
      diags ← check_expr_assigned b value state diags;
      state ← set_idx state target true;
      Done (state, diags)
  | StmtKind.Expr e => diags ← check_expr_assigned b e state diags; Done (state, diags)
  | StmtKind.Return value =>
      match value with
      | Some value => diags ← check_expr_assigned b value state diags; Done (state, diags)
      | None => Done (state, diags)
      end
  | StmtKind.Throw exception =>
      diags ← check_expr_assigned b exception state diags; Done (state, diags)
  | StmtKind.Block _ => Panic
  | _ => Done (state, diags)
  end.

Definition transfer_terminator_definite_assignment (b : Body) (term : Terminator.t)
    (acc : da_acc) : run da_acc :=
  let '(state, diags) := acc in
  match term with
  | Terminator.If condition _ _ _ =>
      diags ← check_expr_assigned b condition state diags; Done (state, diags)
  | Terminator.Switch expression _ _ =>
      diags ← check_expr_assigned b expression state diags; Done (state, diags)
  | Terminator.Return value _ =>
      match value with
      | Some value => diags ← check_expr_assigned b value state diags; Done (state, diags)
      | None => Done (state, diags)
      end
  | Terminator.Throw exception _ =>
      diags ← check_expr_assigned b exception state diags; Done (state, diags)
  | Terminator.Goto _ _ | Terminator.Multi _ _ | Terminator.Exit => Done (state, diags)
  end.

(** The loop over the statements of a block, then its terminator. *)
Definition walk_block_definite_assignment (b : Body) (blk : BasicBlock) (acc : da_acc)
    : run da_acc :=
  acc ← for_each (transfer_stmt_definite_assignment b) (bb_stmts blk) acc;
  transfer_terminator_definite_assignment b (bb_term blk) acc.

(** The diagnostics of the walk are dropped. *)
Definition transfer_definite_assignment (b : Body) (g : ControlFlowGraph) (bb : BlockId)
    (in_state : list bool) : run (list bool) :=
  blk ← block g bb;
  '(state, _) ← walk_block_definite_assignment b blk (in_state, []);
  Done state.

(** ** The analysis *)

Definition initial_assigned (b : Body) : list bool :=
  (fun l => match local_kind l with Param => true | LocalVar => false end) <$> locals b.

Definition meet_assigned (n_locals : nat) (inputs : list (list bool)) : list bool :=
  match inputs with
  | [] => replicate n_locals false
  | first :: inputs => foldl (zip_update andb) first inputs
  end.

Global Instance bool_top : FlatTop bool := true.

Definition assignment_analysis (b : Body) (g : ControlFlowGraph) : Analysis bool := {|
  a_init := initial_assigned b;
  a_edge := fun _ _ out => Done out;
  a_join := meet_assigned (length (locals b));
  a_transfer := transfer_definite_assignment b g
|}.

Definition definite_assignment_states (b : Body) (g : ControlFlowGraph) (reach : list bool)
    : run (list (list bool) * list (list bool)) :=
  let n_blocks := length (blocks g) in
  let n_locals := length (locals b) in
  let in_states := replicate n_blocks (replicate n_locals true) in
  let out_states := replicate n_blocks (replicate n_locals true) in
  in_states ← set_idx in_states (entry g) (initial_assigned b);
  solve (H0 := assignment_analysis b g) g reach n_locals in_states out_states.

(** One iteration of the loop of [definite_assignment_diagnostics]. *)
Definition block_assignment_diagnostics (b : Body) (reach : list bool)
    (in_states : list (list bool)) (diags : list Diagnostic) (ib : nat * BasicBlock)
    : run (list Diagnostic) :=
  let '(i, blk) := ib in
  r ← idx reach i;
  if negb r then Done diags
  else
    state ← idx in_states i;
    '(_, diags) ← walk_block_definite_assignment b blk (state, diags);
    Done diags.

Definition definite_assignment_diagnostics (b : Body) (g : ControlFlowGraph)
    (reach : list bool) : run (list Diagnostic) :=
  '(in_states, _) ← definite_assignment_states b g reach;
  for_each (block_assignment_diagnostics b reach in_states) (imap pair (blocks g)) [].

(** ** The checks return, and report what they should *)

(** The locals a state says are assigned are assigned. *)
Definition agrees (ρ : env) (state : list bool) : Prop :=
  forall l, state !! l = Some true -> exists v, ρ !! l = Some (Some v).

(** The diagnostic for a read of the local [l] at the expression [x]. *)
Definition reports (b : Body) (x : ExprId) (l : LocalId) (d : Diagnostic) : Prop :=
  exists xd lx, exprs b !! x = Some xd /\ locals b !! l = Some lx /\
    d = diagnostic UseBeforeAssignment (Some (expr_span xd)) (unassigned_message (local_name lx)).

(** [diags] has a diagnostic for each faulty read in [e], from any locals that agree. *)
Definition covers (b : Body) (state : list bool) (e : ExprId) (diags : list Diagnostic) : Prop :=
  forall ρ x l, agrees ρ state -> unassigned_read b ρ e x l ->
    exists d, d ∈ diags /\ reports b x l d.

Lemma covers_mono b state e d1 d2 : d1 ⊆ d2 -> covers b state e d1 -> covers b state e d2.
Proof. intros Hd H ρ x l Ha Hu. destruct (H ρ x l Ha Hu) as (d & ? & ?). eauto. Qed.

Section Check.
Context (b : Body) (Hwf : wf_body b) (state : list bool).
Context (Hlen : length state = length (locals b)).

Definition checked (e : ExprId) (d1 d2 : list Diagnostic) : Prop :=
  d1 ⊆ d2 /\ covers b state e d2.

Lemma wp_check_list (f : ExprId -> list Diagnostic -> run (list Diagnostic)) es d :
  (forall c d, c ∈ es -> wp (f c d) (checked c d)) ->
  wp (for_each (fun d c => f c d) es d)
     (fun d' => d ⊆ d' /\ forall c, c ∈ es -> covers b state c d').
Proof.
  intros Hf.
  apply (wp_for_each _ es (fun dn d' => d ⊆ d' /\ forall c, c ∈ dn -> covers b state c d')).
  { split; [done|set_solver]. }
  intros dn c rest d' Heq [Hd Hdn].
  eapply wp_mono; [apply Hf; rewrite Heq; set_solver|]. intros d'' [Hd'' Hc].
  split; [set_solver|]. intros c' [Hc'|Hc']%elem_of_app.
  - eapply covers_mono; [done|]. by apply Hdn.
  - apply list_elem_of_singleton in Hc' as ->. done.
Qed.

(** From the sub-expressions to the expression, when it is not a local nor a binary. *)
Lemma covers_children e ed d :
  exprs b !! e = Some ed ->
  match expr_kind ed with ExprKind.Binary _ _ _ | ExprKind.Local _ => False | _ => True end ->
  (forall c, c ∈ expr_children (expr_kind ed) -> covers b state c d) ->
  covers b state e d.
Proof.
  intros He Hk Hc ρ x l Ha (Hv & [sp Hx] & Hl).
  destruct (visits_inv _ _ _ _ _ He Hv) as [->|Hv'].
  - rewrite He in Hx. injection Hx as ->. done.
  - destruct (expr_kind ed) eqn:Ek; try done; destruct Hv' as (c & Hin & Hvc);
      apply (Hc c Hin ρ x l Ha); split; eauto.
Qed.

Lemma covers_local e sp l s d :
  exprs b !! e = Some (mkExpr (ExprKind.Local l) sp) -> state !! l = Some s ->
  (s = false -> exists lx, locals b !! l = Some lx /\
     diagnostic UseBeforeAssignment (Some sp) (unassigned_message (local_name lx)) ∈ d) ->
  covers b state e d.
Proof.
  intros He Hs Hd ρ x l' Ha (Hv & [sp' Hx] & Hl').
  destruct (visits_inv _ _ _ _ _ He Hv) as [->|(c & Hin & _)]; [|simpl in Hin; set_solver].
  rewrite He in Hx. injection Hx as -> ->. destruct s.
  - destruct (Ha _ Hs). congruence.
  - destruct (Hd eq_refl) as (lx & Hlx & Hin). eexists. split; [exact Hin|].
    by exists (mkExpr (ExprKind.Local l') sp'), lx.
Qed.

Lemma covers_binary e sp op l r d :
  exprs b !! e = Some (mkExpr (ExprKind.Binary op l r) sp) ->
  covers b state l d ->
  (covers b state r d \/
   (op = AndAnd /\ eval_const_bool b l = Done (Some false)) \/
   (op = OrOr /\ eval_const_bool b l = Done (Some true))) ->
  covers b state e d.
Proof.
  intros He Hl Hr ρ x l' Ha (Hv & Hx & Hl').
  destruct (visits_inv _ _ _ _ _ He Hv) as [->|[Hvl|(Hand & Hor & Hvr)]].
  - destruct Hx as [? Hx]. congruence.
  - apply (Hl ρ x l' Ha). by split_and!.
  - destruct Hr as [Hr|[[-> Hc]|[-> Hc]]].
    + apply (Hr ρ x l' Ha). by split_and!.
    + pose proof (eval_const_bool_sound _ _ _ _ _ _ Hc (Hand eq_refl)). done.
    + pose proof (eval_const_bool_sound _ _ _ _ _ _ Hc (Hor eq_refl)). done.
Qed.

Lemma wp_check_binary_skip op l (Q : bool -> Prop) :
  l < length (exprs b) ->
  (forall skip, (skip = true ->
     (op = AndAnd /\ eval_const_bool b l = Done (Some false)) \/
     (op = OrOr /\ eval_const_bool b l = Done (Some true))) -> Q skip) ->
  wp (match op with
      | AndAnd => v ← eval_const_bool b l; Done (bool_decide (v = Some false))
      | OrOr => v ← eval_const_bool b l; Done (bool_decide (v = Some true))
      | _ => Done false
      end) Q.
Proof.
  intros Hl HQ. pose proof (wp_eval_const_bool b Hwf l Hl) as Hw.
  destruct (eval_const_bool b l) as [v| |] eqn:E; try done.
  destruct op; simpl; apply HQ; intros H; try done; apply bool_decide_eq_true in H; subst; auto.
Qed.

Lemma wp_check_expr_assigned_fuel fuel e d :
  e < fuel -> e < length (exprs b) ->
  wp (check_expr_assigned_fuel fuel b e state d) (checked e d).
Proof.
  revert e d; induction fuel as [|fuel IH]; intros e d Hf He; [lia|]. simpl.
  apply wp_bind, wp_expr; [done|]. intros ed Hed.
  assert (Hrec : forall c d, c ∈ expr_children (expr_kind ed) ->
    wp (check_expr_assigned_fuel fuel b c state d) (checked c d)).
  { intros c d' Hc%list_elem_of_In. destruct (wf_expr_child b Hwf _ _ _ Hed Hc).
    apply IH; lia. }
  pose proof (expr_eta _ _ _ Hed) as Hed'.
  destruct (expr_kind ed) as [l| | | | |cn args|op c|op l r|rc nm|rc nm args|cs] eqn:Ek.
  2-5: split; [done|]; eapply covers_children; rewrite ?Ek; [done..|]; set_solver.
  - assert (Hl : l < length (locals b)).
    { apply (wf_expr_local b Hwf _ _ l Hed). rewrite Ek. by left. }
    rewrite decide_True by lia. apply wp_bind, wp_idx; [lia|]. intros s Hs.
    destruct s; simpl.
    + split; [done|]. eapply covers_local; [done..|]. done.
    + apply wp_bind, wp_idx; [done|]. intros lx Hlx. split; [set_solver|].
      eapply covers_local; [done..|]. intros _. exists lx. set_solver.
  - eapply wp_mono; [by apply wp_check_list|]. intros d' [Hd Hc]. split; [done|].
    eapply covers_children; rewrite ?Ek; done.
  - eapply wp_mono; [apply Hrec; set_solver|]. intros d' [Hd Hc]. split; [done|].
    eapply covers_children; rewrite ?Ek; [done..|]. set_solver.
  - eapply wp_seq; [apply Hrec; set_solver|]. intros d1 [Hd1 Hc1].
    apply wp_bind, wp_check_binary_skip.
    { apply (wf_expr_child b Hwf e ed l Hed). rewrite Ek. by left. }
    intros [] Hskip.
    + split; [done|]. eapply covers_binary; [done..|]. auto.
    + eapply wp_mono; [apply Hrec; set_solver|]. intros d2 [Hd2 Hc2].
      split; [set_solver|]. eapply covers_binary; [done| |by left].
      by eapply covers_mono.
  - eapply wp_mono; [apply Hrec; set_solver|]. intros d' [Hd Hc]. split; [done|].
    eapply covers_children; rewrite ?Ek; [done..|]. set_solver.
  - apply wp_bind.
    apply (wp_mono _ (fun d1 => d ⊆ d1 /\ forall r, rc = Some r -> covers b state r d1)).
    { destruct rc as [r|]; [|done]. eapply wp_mono; [apply Hrec; set_solver|].
      intros d1 [? ?]. split; [done|]. by intros ? [= <-]. }
    intros d1 [Hd1 Hr]. eapply wp_mono; [apply wp_check_list|].
    + intros c d2 Hc. apply Hrec. simpl. set_solver.
    + intros d2 [Hd2 Hc]. split; [set_solver|].
      eapply covers_children; rewrite ?Ek; [done..|]. simpl.
      intros c [Hin|Hin]%elem_of_app; [|by apply Hc].
      eapply covers_mono; [done|]. apply Hr. destruct rc; set_solver.
  - eapply wp_mono; [by apply wp_check_list|]. intros d' [Hd Hc]. split; [done|].
    eapply covers_children; rewrite ?Ek; done.
Qed.

Lemma wp_check_expr_assigned e d :
  e < length (exprs b) -> wp (check_expr_assigned b e state d) (checked e d).
Proof. intros He. by apply wp_check_expr_assigned_fuel. Qed.
End Check.

(** ** The effect of a block *)

(** What a statement does to the assigned locals. *)
Definition kind_effect (k : StmtKind.t) (state : list bool) : list bool :=
  match k with
  | StmtKind.Let l (Some _) | StmtKind.Assign l _ => <[l := true]> state
  | StmtKind.Let l None => <[l := false]> state
  | _ => state
  end.

Definition stmt_effect (b : Body) (state : list bool) (st : StmtId) : list bool :=
  match stmts b !! st with Some sd => kind_effect (stmt_kind sd) state | None => state end.

Definition stmts_effect (b : Body) (state : list bool) (ss : list StmtId) : list bool :=
  foldl (stmt_effect b) state ss.

Lemma length_stmt_effect b state st : length (stmt_effect b state st) = length state.
Proof.
  unfold stmt_effect. destruct (stmts b !! st) as [sd|]; [|done].
  destruct (stmt_kind sd) as [|l []| | | | | | | | | | | | |]; simpl; by rewrite ?length_insert.
Qed.

Lemma length_stmts_effect b state ss : length (stmts_effect b state ss) = length state.
Proof.
  unfold stmts_effect. revert state; induction ss as [|st ss IH]; intros state; [done|]. simpl.
  by rewrite IH, length_stmt_effect.
Qed.

Lemma stmts_effect_snoc b state ss st :
  stmts_effect b state (ss ++ [st]) = stmt_effect b (stmts_effect b state ss) st.
Proof. unfold stmts_effect. by rewrite foldl_app. Qed.

Section Walk.
Context (b : Body) (Hwf : wf_body b).

Lemma wp_transfer_stmt state d st :
  leaf_stmt b st -> length state = length (locals b) ->
  wp (transfer_stmt_definite_assignment b (state, d) st)
     (fun '(s', d') => s' = stmt_effect b state st /\ d ⊆ d' /\
        forall sd e, stmts b !! st = Some sd -> e ∈ stmt_exprs (stmt_kind sd) ->
          covers b state e d').
Proof.
  intros (sd & Hsd & Hk) Hl. unfold transfer_stmt_definite_assignment, stmt_effect.
  apply wp_bind, wp_stmt; [by eapply lookup_lt_Some|]. intros sd' Hsd'.
  assert (sd' = sd) as -> by congruence. clear Hsd'. rewrite Hsd.
  assert (Hex : forall e d, e ∈ stmt_exprs (stmt_kind sd) ->
    wp (check_expr_assigned b e state d) (checked b state e d)).
  { intros e d' He%list_elem_of_In. apply wp_check_expr_assigned; [done..|].
    by eapply wf_stmt_expr. }
  assert (Hlt : forall l, l ∈ stmt_writes (stmt_kind sd) -> l < length state).
  { intros l H%list_elem_of_In. rewrite Hl. by eapply wf_stmt_local. }
  destruct (stmt_kind sd) as [|l [i|]|l v|e| | | | | | |[v|]|e| | |] eqn:Ek; try done; simpl in *.
  all: try (eapply wp_seq; [apply Hex; set_solver|]; intros d1 [Hd1 Hc1]).
  all: try (apply wp_bind, wp_set_idx; [apply Hlt; set_solver|]).
  all: simpl; split_and!; [done|done|].
  all: intros sd' e' [= <-]; rewrite Ek; simpl; set_solver.
Qed.

(** The diagnostics of a walk cover the expressions of the statements and terminator. *)
Definition walk_covers (blk : BasicBlock) (state : list bool) (d : list Diagnostic) : Prop :=
  (forall pre st post sd e, bb_stmts blk = pre ++ st :: post -> stmts b !! st = Some sd ->
     e ∈ stmt_exprs (stmt_kind sd) -> covers b (stmts_effect b state pre) e d) /\
  (forall e, e ∈ term_exprs (bb_term blk) ->
     covers b (stmts_effect b state (bb_stmts blk)) e d).

Lemma wp_walk_stmts ss state d :
  Forall (leaf_stmt b) ss -> length state = length (locals b) ->
  wp (for_each (transfer_stmt_definite_assignment b) ss (state, d))
     (fun '(s', d') => s' = stmts_effect b state ss /\ d ⊆ d' /\
        forall pre st post sd e, ss = pre ++ st :: post -> stmts b !! st = Some sd ->
          e ∈ stmt_exprs (stmt_kind sd) -> covers b (stmts_effect b state pre) e d').
Proof.
  intros Hss Hl.
  apply (wp_for_each _ ss (fun dn '(s', d') => s' = stmts_effect b state dn /\ d ⊆ d' /\
    forall pre st post sd e, dn = pre ++ st :: post -> stmts b !! st = Some sd ->
      e ∈ stmt_exprs (stmt_kind sd) -> covers b (stmts_effect b state pre) e d')).
  { split_and!; [done..|]. intros [] ? ? ? ? ?; done. }
  intros dn st rest [s' d'] Heq (-> & Hd & Hc). subst ss.
  apply Forall_app in Hss as [_ [Hst _]%Forall_cons].
  eapply wp_mono; [apply wp_transfer_stmt; [done|by rewrite length_stmts_effect]|].
  intros [s2 d2] (-> & Hd2 & Hc2). rewrite stmts_effect_snoc.
  split_and!; [done|set_solver|].
  intros pre st' post sd e Hsplit Hsd He.
  destruct post as [|x post _] using rev_ind.
  - apply app_inj_tail in Hsplit as [<- <-]. by eapply Hc2.
  - rewrite app_comm_cons, app_assoc in Hsplit. apply app_inj_tail in Hsplit as [-> ->].
    eapply covers_mono; [exact Hd2|]. by eapply Hc.
Qed.

Lemma wp_walk n i e0 blk state d :
  block_ok b e0 n i blk -> length state = length (locals b) ->
  wp (walk_block_definite_assignment b blk (state, d))
     (fun '(s', d') => s' = stmts_effect b state (bb_stmts blk) /\ d ⊆ d' /\
        walk_covers blk state d').
Proof.
  intros [Hss Ht] Hl. eapply wp_seq; [by apply wp_walk_stmts|].
  intros [s1 d1] (-> & Hd1 & Hc1).
  set (s1 := stmts_effect b state (bb_stmts blk)).
  assert (Hl1 : length s1 = length (locals b)) by (unfold s1; by rewrite length_stmts_effect).
  assert (Hex : forall e, e ∈ term_exprs (bb_term blk) ->
    wp (check_expr_assigned b e s1 d1) (checked b s1 e d1)).
  { intros e He. apply wp_check_expr_assigned; [done..|].
    pose proof (tok_exprs _ _ _ _ _ Ht) as H. rewrite Forall_forall in H. by apply H. }
  unfold walk_covers. fold s1. unfold transfer_terminator_definite_assignment.
  destruct (bb_term blk) as [| |c| |[v|]| |]; simpl in *.
  all: try (eapply wp_seq; [apply Hex; set_solver|]; intros d2 [Hd2 Hc2]).
  all: simpl; split_and!; [done|set_solver| |set_solver].
  all: intros pre st post sd e' H1 H2 H3.
  all: eapply covers_mono; [|by eapply Hc1]; set_solver.
Qed.

Lemma wp_transfer_block g bb state :
  cfg_for b g -> bb < length (blocks g) -> length state = length (locals b) ->
  wp (transfer_definite_assignment b g bb state)
     (fun s' => exists blk, blocks g !! bb = Some blk /\
        s' = stmts_effect b state (bb_stmts blk)).
Proof.
  intros Hg Hbb Hl. apply wp_bind, wp_idx; [done|]. intros blk Hblk.
  eapply wp_seq; [eapply wp_walk; [by eapply cf_blocks|done]|].
  intros [s' d'] (-> & _). simpl. eauto.
Qed.
End Walk.

(** ** Definite assignment is an analysis *)

Lemma andb_fle (x x' y y' : bool) : fle x x' -> fle y y' -> fle (x && y) (x' && y').
Proof. unfold fle, ftop, bool_top. destruct x, x', y, y'; naive_solver. Qed.

(** A local is assigned after the meet when it is in every input. *)
Lemma meet_assigned_true n inputs l :
  Forall (fun s => length s = n) inputs -> inputs <> [] -> l < n ->
  meet_assigned n inputs !! l = Some true <-> forall s, s ∈ inputs -> s !! l = Some true.
Proof.
  intros Hlen Hne Hl. destruct inputs as [|first inputs]; [done|]. clear Hne.
  apply Forall_cons in Hlen as [Hf Hlen]. simpl.
  revert first Hf; induction inputs as [|i inputs IH]; intros first Hf; simpl.
  { split; [intros H s ->%list_elem_of_singleton; done|intros H; apply H; by left]. }
  apply Forall_cons in Hlen as [Hi Hlen].
  rewrite IH by (done || by autorewrite with run).
  assert (Hz : zip_update andb first i !! l = Some true <->
    first !! l = Some true /\ i !! l = Some true).
  { destruct (lookup_lt_is_Some_2 first l) as [x Hx]; [lia|].
    destruct (lookup_lt_is_Some_2 i l) as [y Hy]; [lia|].
    rewrite (lookup_zip_update _ _ _ _ _ _ Hx Hy), Hx, Hy.
    destruct x, y; naive_solver. }
  split.
  - intros H s. assert (H1 := H (zip_update andb first i) ltac:(by left)).
    apply Hz in H1 as [? ?]. intros [->|[->|Hs]%elem_of_cons]%elem_of_cons; [done..|].
    apply H. by right.
  - intros H s [->|Hs]%elem_of_cons; [apply Hz; split; apply H; by repeat constructor|].
    apply H. by do 2 right.
Qed.

Lemma meet_assigned_false n inputs l :
  Forall (fun s => length s = n) inputs -> inputs <> [] -> l < n ->
  meet_assigned n inputs !! l = Some false -> exists s, s ∈ inputs /\ s !! l = Some false.
Proof.
  intros Hlen Hne Hl. destruct inputs as [|first inputs]; [done|]. clear Hne.
  apply Forall_cons in Hlen as [Hf Hlen]. simpl.
  revert first Hf; induction inputs as [|i inputs IH]; intros first Hf H; simpl in H.
  { exists first. split; [by left|done]. }
  apply Forall_cons in Hlen as [Hi Hlen].
  destruct (IH Hlen (zip_update andb first i) ltac:(by autorewrite with run) H)
    as (s & [->|Hs]%elem_of_cons & Hsl).
  - destruct (lookup_lt_is_Some_2 first l) as [x Hx]; [lia|].
    destruct (lookup_lt_is_Some_2 i l) as [y Hy]; [lia|].
    rewrite (lookup_zip_update _ _ _ _ _ _ Hx Hy) in Hsl.
    destruct x; simpl in Hsl.
    + exists i. split; [set_solver|congruence].
    + exists first. split; [set_solver|done].
  - exists s. split; [set_solver|done].
Qed.

Lemma kind_effect_sle k s1 s2 : sle s1 s2 -> sle (kind_effect k s1) (kind_effect k s2).
Proof.
  intros Hs. destruct k as [|l []| | | | | | | | | | | | |]; simpl; try done;
    apply Forall2_insert; try done; reflexivity.
Qed.

Lemma stmts_effect_sle b s1 s2 ss : sle s1 s2 -> sle (stmts_effect b s1 ss) (stmts_effect b s2 ss).
Proof.
  unfold stmts_effect. revert s1 s2; induction ss as [|st ss IH]; intros s1 s2 Hs; [done|]. simpl.
  apply IH. unfold stmt_effect. destruct (stmts b !! st); [|done]. by apply kind_effect_sle.
Qed.

Section Assignment.
Context (b : Body) (g : ControlFlowGraph) (Hwf : wf_body b) (Hg : cfg_for b g).
Context (reach : list bool) (Hrlen : length reach = length (blocks g)).
Context (Hreach : forall x, reach !! x = Some true <-> reachable g x).

Lemma assignment_laws :
  @AnalysisLaws bool _ _ (assignment_analysis b g) g (length (locals b)).
Proof.
  split; simpl.
  - apply length_fmap.
  - done.
  - intros p s o1 o2 r1 r2 _ _ Hle [= <-] [= <-]. done.
  - intros [|first l] Hl; simpl; [apply length_replicate|].
    apply Forall_cons in Hl as [Hf _]. by autorewrite with run.
  - intros l1 l2 _ Hl. destruct Hl as [|x y l1 l2 Hx Hl]; [reflexivity|].
    simpl. apply foldl_zip_update_sle; [apply andb_fle|done..].
  - intros bb s Hbb Hs. eapply wp_mono; [by apply wp_transfer_block|].
    intros s' (blk & _ & ->). by rewrite length_stmts_effect.
  - intros bb s1 s2 r1 r2 Hbb Hl Hle H1 H2.
    pose proof (wp_transfer_block b Hwf g bb s1 Hg Hbb Hl) as W1. rewrite H1 in W1.
    pose proof (wp_transfer_block b Hwf g bb s2 Hg Hbb
      ltac:(rewrite <-(sle_length _ _ Hle); done)) as W2. rewrite H2 in W2.
    destruct W1 as (blk & Hblk & ->), W2 as (blk' & Hblk' & ->). simplify_eq.
    by apply stmts_effect_sle.
Qed.

(** A solution of the definite-assignment equations. *)
Record assignment_solution (P : BlockId -> list bool -> Prop)
    (ins outs : list (list bool)) : Prop := {
  as_ins : forall x, reachable g x -> exists i, ins !! x = Some i /\ length i = length (locals b);
  as_out : forall x i blk, reachable g x -> ins !! x = Some i -> blocks g !! x = Some blk ->
    outs !! x = Some (stmts_effect b i (bb_stmts blk));
  as_entry : ins !! entry g = Some (initial_assigned b);
  as_in : forall x i l, reachable g x -> x <> entry g -> ins !! x = Some i -> l < length (locals b) ->
    (i !! l = Some true <->
     forall p o, reachable g p -> edge g p x -> outs !! p = Some o -> o !! l = Some true);
  as_in_false : forall x i l, reachable g x -> x <> entry g -> ins !! x = Some i ->
    i !! l = Some false ->
    exists p o, reachable g p /\ edge g p x /\ outs !! p = Some o /\ o !! l = Some false;
  as_prop : forall x o, reachable g x -> outs !! x = Some o -> P x o
}.

#[local] Instance assignment_analysis_inst : Analysis bool := assignment_analysis b g.
#[local] Instance assignment_laws_inst : AnalysisLaws g (length (locals b)) := assignment_laws.

Lemma assignment_inputs outs x i :
  shaped g (length (locals b)) outs -> reachable g x -> x <> entry g ->
  block_in g reach outs x = Done i ->
  exists inputs, i = meet_assigned (length (locals b)) inputs /\ inputs <> [] /\
    Forall (fun s => length s = length (locals b)) inputs /\
    forall s, s ∈ inputs <-> exists p, reachable g p /\ edge g p x /\ outs !! p = Some s.
Proof.
  intros Hs Hx Hne Hi.
  destruct (block_in_inputs g (length (locals b)) (cf_wf b g Hg) reach Hrlen Hreach outs x i
    Hs Hx Hne Hi) as (inputs & -> & Hn & Hlen & Hel).
  exists inputs. split_and!; try done. intros s. rewrite Hel. simpl. naive_solver.
Qed.

Lemma block_in_spec outs x i l :
  shaped g (length (locals b)) outs -> reachable g x -> x <> entry g ->
  block_in g reach outs x = Done i -> l < length (locals b) ->
  i !! l = Some true <->
  forall p o, reachable g p -> edge g p x -> outs !! p = Some o -> o !! l = Some true.
Proof.
  intros Hs Hx Hne Hi Hl.
  destruct (assignment_inputs outs x i Hs Hx Hne Hi) as (inputs & -> & Hn & Hlen & Hel).
  rewrite meet_assigned_true by done. split.
  - intros H p o Hp He Ho. apply H, Hel. eauto.
  - intros H s (p & Hp & He & Ho)%Hel. by eapply H.
Qed.

Lemma block_in_false outs x i l :
  shaped g (length (locals b)) outs -> reachable g x -> x <> entry g ->
  block_in g reach outs x = Done i -> i !! l = Some false ->
  exists p o, reachable g p /\ edge g p x /\ outs !! p = Some o /\ o !! l = Some false.
Proof.
  intros Hs Hx Hne Hi Hl.
  destruct (assignment_inputs outs x i Hs Hx Hne Hi) as (inputs & -> & Hn & Hlen & Hel).
  assert (Hlt : l < length (locals b)).
  { apply lookup_lt_Some in Hl. pose proof (al_join (g := g) (n := length (locals b)) inputs Hlen).
    simpl in *. lia. }
  destruct (meet_assigned_false _ _ _ Hlen Hn Hlt Hl) as (s & (p & ? & ? & ?)%Hel & Hsl).
  exists p, s. done.
Qed.

Lemma eval_block_spec outs x i o :
  shaped g (length (locals b)) outs -> reachable g x ->
  eval_block g reach outs x = Done (i, o) ->
  block_in g reach outs x = Done i /\ length i = length (locals b) /\
  exists blk, blocks g !! x = Some blk /\ o = stmts_effect b i (bb_stmts blk).
Proof.
  intros Hs Hx He.
  destruct (eval_block_inv g (length (locals b)) (cf_wf b g Hg) reach Hrlen Hreach outs x i o
    Hs Hx He) as (Hi & Hl & Ho).
  split_and!; [done..|].
  pose proof (wp_transfer_block b Hwf g x i Hg (reachable_lt _ _ (cf_wf b g Hg) Hx) Hl) as Ht.
  simpl in Ho. by rewrite Ho in Ht.
Qed.

(** The analysis returns a solution, which has every property the equations keep. *)
Lemma wp_definite_assignment_states (P : BlockId -> list bool -> Prop) :
  (forall x, reachable g x -> P x (replicate (length (locals b)) true)) ->
  (forall outs x i blk, shaped g (length (locals b)) outs -> reachable g x ->
    (forall y o, reachable g y -> outs !! y = Some o -> P y o) ->
    block_in g reach outs x = Done i -> blocks g !! x = Some blk ->
    P x (stmts_effect b i (bb_stmts blk))) ->
  wp (definite_assignment_states b g reach)
     (fun '(ins, outs) => assignment_solution P ins outs).
Proof.
  intros HP0 HP. unfold definite_assignment_states.
  pose proof (wfc_entry g (cf_wf b g Hg)) as Hentry.
  apply wp_bind, wp_set_idx; [by rewrite length_replicate|].
  assert (Hentry' : reachable g (entry g)) by apply rtc_refl.
  eapply wp_mono.
  - apply (wp_solve g (length (locals b)) (cf_wf b g Hg) reach Hrlen Hreach P).
    + intros outs x i o Hs Hall Hr He. apply Hreach in Hr.
      destruct (eval_block_spec outs x i o Hs Hr He) as (Hi & _ & blk & Hblk & ->).
      eapply HP; [done..| |done|done]. intros y o Hy Ho. by apply Hall; [apply Hreach|].
    + split; [by rewrite length_insert, length_replicate|].
      apply Forall_insert; [|apply length_fmap]. apply Forall_replicate, length_replicate.
    + intros x Hx. apply HP0. by apply Hreach.
  - intros [ins outs] (Hsi & Hso & Hall & Heq).
    assert (Heq' : forall x, reachable g x -> exists i o, ins !! x = Some i /\
      outs !! x = Some o /\ eval_block g reach outs x = Done (i, o)).
    { intros x Hx. by apply Heq, Hreach. }
    split.
    + intros x Hx. destruct (Heq' x Hx) as (i & o & Hi & Ho & He).
      apply eval_block_spec in He as (_ & Hl & _); eauto.
    + intros x i blk Hx Hi Hblk. destruct (Heq' x Hx) as (i' & o & Hi' & Ho & He).
      apply eval_block_spec in He as (_ & _ & blk' & Hblk' & ->); [|done..]. by simplify_eq.
    + destruct (Heq' _ Hentry') as (i & o & Hi & Ho & He).
      apply eval_block_spec in He as (Hb & _); [|done..]. unfold block_in in Hb.
      rewrite decide_True in Hb by done. simpl in Hb. by simplify_eq.
    + intros x i l Hx Hne Hi Hl. destruct (Heq' x Hx) as (i' & o & Hi' & Ho & He).
      apply eval_block_spec in He as (Hb & _); [|done..]. simplify_eq.
      by apply (block_in_spec outs).
    + intros x i l Hx Hne Hi Hl. destruct (Heq' x Hx) as (i' & o & Hi' & Ho & He).
      apply eval_block_spec in He as (Hb & _); [|done..]. simplify_eq.
      by apply (block_in_false outs x i l).
    + intros x o Hx Ho. by apply Hall; [apply Hreach|].
Qed.
End Assignment.

(** ** Executions agree with the states *)

Lemma agrees_stmt b ρ s st ρ' :
  length s = length ρ -> agrees ρ s -> exec_stmt b ρ st ρ' -> agrees ρ' (stmt_effect b s st).
Proof.
  intros Hl Ha He l Hs. unfold stmt_effect in Hs.
  destruct He as [st sp l' e v Hst Hv|st sp l' Hst|st sp l' e v Hst Hv|st sp e Hst|st sp Hst
    |st sp v Hst|st sp e Hst]; rewrite Hst in Hs; simpl in Hs; auto.
  - apply list_lookup_insert_Some in Hs as [(<- & _ & Hlt)|[Hne Hs]].
    + rewrite list_lookup_insert_eq by lia. eauto.
    + rewrite list_lookup_insert_ne by done. auto.
  - apply list_lookup_insert_Some in Hs as [(<- & ? & _)|[Hne Hs]]; [done|].
    rewrite list_lookup_insert_ne by done. auto.
  - apply list_lookup_insert_Some in Hs as [(<- & _ & Hlt)|[Hne Hs]].
    + rewrite list_lookup_insert_eq by lia. eauto.
    + rewrite list_lookup_insert_ne by done. auto.
Qed.

Lemma agrees_stmts b ρ s ss ρ' :
  length s = length ρ -> agrees ρ s -> exec_stmts b ρ ss ρ' -> agrees ρ' (stmts_effect b s ss).
Proof.
  intros Hl Ha. induction 1 as [|ss st ρ1 ρ2 Hss IH Hst]; [done|].
  rewrite stmts_effect_snoc. eapply agrees_stmt; [|done|done].
  rewrite length_stmts_effect. apply exec_stmts_length in Hss. congruence.
Qed.

(** Parameters stay assigned: no declaration declares one. *)
Lemma params_stmt b ρ st ρ' :
  wf_body b -> length ρ = length (locals b) ->
  agrees ρ (initial_assigned b) -> exec_stmt b ρ st ρ' -> agrees ρ' (initial_assigned b).
Proof.
  intros Hwf Hl Ha He l Hs. specialize (Ha l Hs) as [w Hw].
  destruct He as [st sp l' e v Hst Hv|st sp l' Hst|st sp l' e v Hst Hv|st sp e Hst|st sp Hst
    |st sp v Hst|st sp e Hst]; eauto.
  all: destruct (decide (l = l')) as [->|Hne]; [|rewrite list_lookup_insert_ne by done; eauto].
  all: try (rewrite list_lookup_insert_eq by (by eapply lookup_lt_Some); eauto).
  exfalso. pose proof (wfs_let _ _ _ _ (wfb_stmts b Hwf _ _ Hst)) as H. simpl in H.
  unfold initial_assigned in Hs. apply list_lookup_fmap_Some in Hs as (lx & Hk & Hlx).
  rewrite (H _ Hlx) in Hk. done.
Qed.

Lemma params_stmts b ρ ss ρ' :
  wf_body b -> length ρ = length (locals b) ->
  agrees ρ (initial_assigned b) -> exec_stmts b ρ ss ρ' -> agrees ρ' (initial_assigned b).
Proof.
  intros Hwf Hl Ha. induction 1 as [|ss st ρ1 ρ2 Hss IH Hst]; [done|].
  eapply params_stmt; [done| |done|done]. apply exec_stmts_length in Hss. congruence.
Qed.

Lemma initial_env_agrees b ρ : initial_env b ρ -> agrees ρ (initial_assigned b).
Proof.
  intros [Hl Hi] l Hs. unfold initial_assigned in Hs.
  apply list_lookup_fmap_Some in Hs as (lx & Hk & Hlx).
  specialize (Hi l lx Hlx). by destruct (local_kind lx).
Qed.

Section Soundness.
Context (b : Body) (g : ControlFlowGraph) (Hwf : wf_body b) (Hg : cfg_for b g).
Context (P : BlockId -> list bool -> Prop) (ins outs : list (list bool)).
Context (Hsol : assignment_solution b g P ins outs).

Lemma runs_agree x ρ :
  runs_to b g x ρ ->
  agrees ρ (initial_assigned b) /\ exists i, ins !! x = Some i /\ agrees ρ i.
Proof.
  revert x ρ. apply (runs_to_ind b g (fun x ρ =>
    agrees ρ (initial_assigned b) /\ exists i, ins !! x = Some i /\ agrees ρ i)).
  - intros ρ0 Hi%initial_env_agrees. split; [done|].
    exists (initial_assigned b). split; [apply Hsol|done].
  - intros x ρ y ρ' Hr (Hp & i & Hi & Ha) Hstep.
    pose proof (runs_to_reachable _ _ _ _ Hr) as Hx.
    pose proof (runs_to_length _ _ _ _ Hr) as Hlρ.
    pose proof (block_step_edge _ _ _ _ Hstep) as Hedge. simpl in Hedge.
    destruct Hstep as (blk & ρ1 & Hblk & Hss & Ht & Heq). simpl in *. subst ρ1.
    assert (Hp' : agrees ρ' (initial_assigned b)) by by eapply params_stmts.
    split; [done|].
    assert (Hy : reachable g y) by (eapply rtc_r; [exact Hx|done]).
    destruct (as_ins _ _ _ _ _ Hsol y Hy) as (j & Hj & Hjl).
    exists j. split; [done|]. destruct (decide (y = entry g)) as [->|Hne].
    + rewrite (as_entry _ _ _ _ _ Hsol) in Hj. by simplify_eq.
    + destruct (as_ins _ _ _ _ _ Hsol x Hx) as (i' & Hi' & Hil). simplify_eq.
      intros l Hl. assert (Hll : l < length (locals b)).
      { rewrite <-Hjl. by eapply lookup_lt_Some. }
      assert (Ha' : agrees ρ' (stmts_effect b i (bb_stmts blk))).
      { eapply agrees_stmts; [|done|done]. congruence. }
      apply Ha', (proj1 (as_in _ _ _ _ _ Hsol y j l Hy Hne Hj Hll) Hl x); [done..|].
      by apply (as_out _ _ _ _ _ Hsol).
Qed.
End Soundness.

Section Diagnostics.
Context (b : Body) (g : ControlFlowGraph) (Hwf : wf_body b) (Hg : cfg_for b g).
Context (reach : list bool) (Hrlen : length reach = length (blocks g)).
Context (Hreach : forall x, reach !! x = Some true <-> reachable g x).

Lemma wp_block_diagnostics ins d i blk :
  (forall x, reachable g x -> exists s, ins !! x = Some s /\ length s = length (locals b)) ->
  blocks g !! i = Some blk ->
  wp (block_assignment_diagnostics b reach ins d (i, blk))
     (fun d' => d ⊆ d' /\
        forall s, reachable g i -> ins !! i = Some s -> walk_covers b blk s d').
Proof.
  intros Hins Hblk. unfold block_assignment_diagnostics.
  apply wp_bind, wp_idx; [rewrite Hrlen; by eapply lookup_lt_Some|]. intros r Hr.
  destruct r; simpl.
  - apply Hreach in Hr. destruct (Hins i Hr) as (s & Hs & Hsl).
    rewrite (proj2 (idx_Done _ _ _) Hs). simpl. apply wp_bind.
    eapply wp_mono; [eapply wp_walk; [done|by eapply cf_blocks|done]|].
    intros [s' d'] (_ & Hd & Hc). simpl. split; [done|]. intros s2 _ Hs2. by simplify_eq.
  - split; [done|]. intros s Hri%Hreach. congruence.
Qed.

Lemma wp_definite_assignment_diagnostics (P : BlockId -> list bool -> Prop) :
  (forall x, reachable g x -> P x (replicate (length (locals b)) true)) ->
  (forall outs x i blk, shaped g (length (locals b)) outs -> reachable g x ->
    (forall y o, reachable g y -> outs !! y = Some o -> P y o) ->
    @block_in bool (assignment_analysis b g) g reach outs x = Done i ->
    blocks g !! x = Some blk -> P x (stmts_effect b i (bb_stmts blk))) ->
  wp (definite_assignment_diagnostics b g reach)
     (fun d => exists ins outs, assignment_solution b g P ins outs /\
        forall i blk s, reachable g i -> blocks g !! i = Some blk -> ins !! i = Some s ->
          walk_covers b blk s d).
Proof.
  intros HP0 HP. apply wp_bind.
  eapply wp_mono; [by apply (wp_definite_assignment_states b g Hwf Hg reach Hrlen Hreach P)|].
  intros [ins outs] Hsol. simpl. eapply wp_mono.
  - apply (wp_for_each _ (imap pair (blocks g)) (fun dn d =>
      forall i blk s, (i, blk) ∈ dn -> reachable g i -> ins !! i = Some s ->
        walk_covers b blk s d)); [set_solver|].
    intros dn [i blk] rest d Heq Hdn. apply imap_pair_split in Heq as [_ Hblk].
    eapply wp_mono; [apply wp_block_diagnostics; [apply Hsol|done]|].
    intros d' [Hd Hc] j blk' s [Hin|Hin]%elem_of_app Hj Hs.
    + destruct (Hdn j blk' s Hin Hj Hs) as [H1 H2].
      split; [intros pre st post sd e E1 E2 E3|intros e He].
      * eapply covers_mono; [exact Hd|]. by eapply H1.
      * eapply covers_mono; [exact Hd|]. by eapply H2.
    + apply list_elem_of_singleton in Hin as [= -> ->]. by apply Hc.
  - intros d Hd. exists ins, outs. split; [done|]. intros i blk s Hi Hblk Hs.
    apply (Hd i blk s); [|done..]. apply list_elem_of_lookup. exists i.
    by rewrite list_lookup_imap, Hblk.
Qed.

Lemma covers_evaluates d P ins outs ρ e x l :
  assignment_solution b g P ins outs ->
  (forall i blk s, reachable g i -> blocks g !! i = Some blk -> ins !! i = Some s ->
     walk_covers b blk s d) ->
  evaluates b g ρ e -> unassigned_read b ρ e x l ->
  exists dg, dg ∈ d /\ reports b x l dg.
Proof.
  intros Hsol Hd Hev Hu.
  destruct Hev as [bb blk ρ0 pre st post sd e Hr Hblk Hsplit Hpre Hsd He
    |bb blk ρ0 e Hr Hblk Hss He].
  - pose proof (runs_to_reachable _ _ _ _ Hr) as Hx.
    destruct (runs_agree b g Hwf P ins outs Hsol bb ρ0 Hr) as (_ & i & Hi & Ha).
    destruct (as_ins _ _ _ _ _ Hsol bb Hx) as (i' & Hi' & Hil). simplify_eq.
    eapply (proj1 (Hd bb blk i Hx Hblk Hi)); [done..| |done].
    eapply agrees_stmts; [|done|done]. by rewrite (runs_to_length _ _ _ _ Hr).
  - pose proof (runs_to_reachable _ _ _ _ Hr) as Hx.
    destruct (runs_agree b g Hwf P ins outs Hsol bb ρ0 Hr) as (_ & i & Hi & Ha).
    destruct (as_ins _ _ _ _ _ Hsol bb Hx) as (i' & Hi' & Hil). simplify_eq.
    eapply (proj2 (Hd bb blk i Hx Hblk Hi)); [| |done].
    + destruct (bb_term blk) as [| | | |[v|]| |]; simpl; naive_solver set_solver.
    + eapply agrees_stmts; [|done|done]. by rewrite (runs_to_length _ _ _ _ Hr).
Qed.
End Diagnostics.

(** ** The states are the meet over all paths *)

(** [path_in x s]: a path from the entry to the start of [x] transfers the initial state
    to [s].  A path does not come back to the entry block. *)
Inductive path_in (b : Body) (g : ControlFlowGraph) : BlockId -> list bool -> Prop :=
| path_entry : path_in b g (entry g) (initial_assigned b)
| path_step x s s' y :
    path_in b g x s -> transfer_definite_assignment b g x s = Done s' ->
    edge g x y -> y <> entry g -> path_in b g y s'.

(** Bit by bit, an effect is a constant or the identity. *)
Lemma stmts_effect_bit b ss s1 s2 l b1 b2 :
  s1 !! l = Some b1 -> s2 !! l = Some b2 -> (b1 = true -> b2 = true) ->
  stmts_effect b s2 ss !! l = Some false -> stmts_effect b s1 ss !! l = Some false.
Proof.
  revert s1 s2 b1 b2; induction ss as [|st ss IH]; intros s1 s2 b1 b2 H1 H2 Hle; simpl.
  { destruct b1, b2; naive_solver. }
  assert (Hins : forall l' v, exists c1 c2, <[l' := v]> s1 !! l = Some c1 /\
    <[l' := v]> s2 !! l = Some c2 /\ (c1 = true -> c2 = true)).
  { intros l' v. destruct (decide (l' = l)) as [->|Hne].
    - exists v, v. rewrite !list_lookup_insert_eq by (by eapply lookup_lt_Some). done.
    - exists b1, b2. by rewrite !list_lookup_insert_ne. }
  unfold stmt_effect. destruct (stmts b !! st) as [sd|]; [|by eapply IH].
  destruct (stmt_kind sd) as [|l' [e|]|l' e| | | | | | | | | | | |]; simpl; try by eapply IH.
  - destruct (Hins l' true) as (c1 & c2 & ? & ? & ?). by eapply IH.
  - destruct (Hins l' false) as (c1 & c2 & ? & ? & ?). by eapply IH.
  - destruct (Hins l' true) as (c1 & c2 & ? & ? & ?). by eapply IH.
Qed.

Section Paths.
Context (b : Body) (g : ControlFlowGraph) (Hwf : wf_body b) (Hg : cfg_for b g).

Lemma path_length x s : path_in b g x s -> length s = length (locals b) /\ reachable g x.
Proof.
  induction 1 as [|x s s' y Hp [IHl IHr] Ht He Hne]; [split; [apply length_fmap|apply rtc_refl]|].
  pose proof (wp_transfer_block b Hwf g x s Hg (reachable_lt _ _ (cf_wf _ _ Hg) IHr) IHl) as W.
  rewrite Ht in W. destruct W as (blk & _ & ->). rewrite length_stmts_effect.
  split; [done|]. by eapply rtc_r.
Qed.

Lemma path_step_effect x s blk y :
  path_in b g x s -> blocks g !! x = Some blk -> edge g x y -> y <> entry g ->
  path_in b g y (stmts_effect b s (bb_stmts blk)).
Proof.
  intros Hp Hblk He Hne. destruct (path_length x s Hp) as [Hl Hr].
  pose proof (wp_transfer_block b Hwf g x s Hg (reachable_lt _ _ (cf_wf _ _ Hg) Hr) Hl) as W.
  apply wp_inv in W as (s' & Ht & blk' & Hblk' & ->). simplify_eq. by eapply path_step.
Qed.

Lemma path_exists x : reachable g x -> exists s, path_in b g x s.
Proof.
  unfold reachable. revert x. refine (rtc_ind_r _ _ _ _).
  - eexists. constructor.
  - intros x y Hx He [s Hs]. destruct (decide (y = entry g)) as [->|Hne].
    + eexists. constructor.
    + destruct He as (blk & Hblk & Hin) eqn:E. eexists.
      eapply path_step_effect; [exact Hs|exact Hblk|by exists blk|done].
Qed.

(** The property the solver keeps: an unassigned local has a path to blame. *)
Definition blamed (x : BlockId) (o : list bool) : Prop :=
  forall l blk, o !! l = Some false -> blocks g !! x = Some blk ->
    exists s, path_in b g x s /\ stmts_effect b s (bb_stmts blk) !! l = Some false.

Context (reach : list bool) (Hrlen : length reach = length (blocks g)).
Context (Hreach : forall x, reach !! x = Some true <-> reachable g x).

Lemma blamed_kept outs x i blk :
  shaped g (length (locals b)) outs -> reachable g x ->
  (forall y o, reachable g y -> outs !! y = Some o -> blamed y o) ->
  @block_in bool (assignment_analysis b g) g reach outs x = Done i ->
  blocks g !! x = Some blk -> blamed x (stmts_effect b i (bb_stmts blk)).
Proof.
  intros Hs Hx Hall Hi Hblk l blk' Hl Hblk'. simplify_eq.
  destruct (decide (x = entry g)) as [->|Hne].
  { unfold block_in in Hi. rewrite decide_True in Hi by done. injection Hi as <-.
    exists (initial_assigned b). split; [constructor|done]. }
  destruct (lookup_lt_is_Some_2 i l) as [bit Hbit].
  { apply lookup_lt_Some in Hl. by rewrite length_stmts_effect in Hl. }
  destruct bit.
  - destruct (path_exists x Hx) as [s Hp]. exists s. split; [done|].
    destruct (path_length x s Hp) as [Hsl _].
    destruct (lookup_lt_is_Some_2 s l) as [c Hc].
    { rewrite Hsl. apply lookup_lt_Some in Hbit.
      pose proof (wp_block_in (H0 := assignment_analysis b g)
        (AnalysisLaws0 := assignment_laws b g Hwf Hg) g (length (locals b))
        (cf_wf b g Hg) reach Hrlen Hreach outs x Hs (reachable_lt _ _ (cf_wf b g Hg) Hx)) as W.
      rewrite Hi in W. simpl in W. lia. }
    by eapply (stmts_effect_bit b _ s i).
  - destruct (block_in_false b g Hwf Hg reach Hrlen Hreach outs x i l Hs Hx Hne Hi Hbit)
      as (p & o & Hp & He & Ho & Hol).
    pose proof He as (pblk & Hpblk & _).
    destruct (Hall p o Hp Ho l pblk Hol Hpblk) as (s & Hps & Hsl).
    exists (stmts_effect b s (bb_stmts pblk)). split; [by eapply path_step_effect|].
    by eapply (stmts_effect_bit b _ _ i).
Qed.

Lemma solution_mop ins outs x i l :
  assignment_solution b g blamed ins outs -> reachable g x -> ins !! x = Some i ->
  l < length (locals b) ->
  i !! l = Some true <-> forall s, path_in b g x s -> s !! l = Some true.
Proof.
  intros Hsol Hx Hi Hl. split.
  - intros Hil s Hp. revert i l Hi Hl Hil.
    induction Hp as [|x s s' y Hp IH Ht He Hne]; intros i l Hi Hl Hil.
    { rewrite (as_entry _ _ _ _ _ Hsol) in Hi. by simplify_eq. }
    destruct (path_length x s Hp) as [Hsl Hrx].
    pose proof (wp_transfer_block b Hwf g x s Hg (reachable_lt _ _ (cf_wf _ _ Hg) Hrx) Hsl) as W.
    rewrite Ht in W. destruct W as (blk & Hblk & ->).
    destruct (as_ins _ _ _ _ _ Hsol x Hrx) as (j & Hj & Hjl).
    pose proof (as_out _ _ _ _ _ Hsol x j blk Hrx Hj Hblk) as Ho.
    pose proof (proj1 (as_in _ _ _ _ _ Hsol y i l Hx Hne Hi Hl) Hil x _ Hrx He Ho) as Hol.
    destruct (stmts_effect b s (bb_stmts blk) !! l) as [[]|] eqn:E; [done| |].
    + destruct (lookup_lt_is_Some_2 j l) as [c Hc]; [lia|].
      destruct (lookup_lt_is_Some_2 s l) as [d Hd]; [lia|].
      assert (stmts_effect b j (bb_stmts blk) !! l = Some false); [|congruence].
      eapply (stmts_effect_bit b _ j s); [done..| |done].
      intros ->. specialize (IH Hrx j l Hj Hl Hc). congruence.
    + apply lookup_ge_None in E. rewrite length_stmts_effect in E. lia.
  - intros Hall. destruct (as_ins _ _ _ _ _ Hsol x Hx) as (i' & Hi' & Hil). simplify_eq.
    destruct (lookup_lt_is_Some_2 i l) as [[] Hbit]; [lia|done|]. exfalso.
    destruct (decide (x = entry g)) as [->|Hne].
    { rewrite (as_entry _ _ _ _ _ Hsol) in Hi. simplify_eq.
      specialize (Hall _ (path_entry b g)). congruence. }
    destruct (as_in_false _ _ _ _ _ Hsol x i l Hx Hne Hi Hbit) as (p & o & Hp & He & Ho & Hol).
    pose proof He as (pblk & Hpblk & _).
    destruct (as_prop _ _ _ _ _ Hsol p o Hp Ho l pblk Hol Hpblk) as (s & Hps & Hsl).
    assert (Hy : path_in b g x (stmts_effect b s (bb_stmts pblk))) by by eapply path_step_effect.
    specialize (Hall _ Hy). congruence.
Qed.
End Paths.

(** C27: the states of the definite-assignment analysis are exactly the meet over all paths.
    On the graph of a well-formed body the analysis returns, and at the start of a reachable
    block a local is marked as assigned exactly when every path from the entry to the block
    assigns it. *)
Theorem definite_assignment_mop b :
  wf_body b ->
  exists g reach ins outs,
    build_cfg b = Done g /\ reachable_blocks g = Done reach /\
    definite_assignment_states b g reach = Done (ins, outs) /\
    forall x l, reachable g x -> l < length (locals b) ->
      exists i, ins !! x = Some i /\
        (i !! l = Some true <-> forall s, path_in b g x s -> s !! l = Some true).
Proof.
  intros Hwf. pose proof (wp_build_cfg b Hwf) as (g & Hb & Hg)%wp_inv.
  pose proof (wp_reachable_blocks g (cf_wf b g Hg)) as (reach & Hr & Hrlen & Hreach)%wp_inv.
  pose proof (wp_definite_assignment_states b g Hwf Hg reach Hrlen Hreach (blamed b g)
    ltac:(intros x _ l blk [? _]%lookup_replicate_1; done)
    (blamed_kept b g Hwf Hg reach Hrlen Hreach)) as ([ins outs] & Hs & Hsol)%wp_inv.
  exists g, reach, ins, outs. split_and!; [done..|]. intros x l Hx Hl.
  destruct (as_ins _ _ _ _ _ Hsol x Hx) as (i & Hi & _). exists i. split; [done|].
  by apply (solution_mop b g Hwf Hg reach Hrlen ins outs).
Qed.

Lemma definite_assignment_mop_witness :
  exists g reach ins outs,
    build_cfg sample_body = Done g /\ reachable_blocks g = Done reach /\
    definite_assignment_states sample_body g reach = Done (ins, outs) /\
    forall x l, reachable g x -> l < 2 ->
      exists i, ins !! x = Some i /\
        (i !! l = Some true <-> forall s, path_in sample_body g x s -> s !! l = Some true).
Proof. apply (definite_assignment_mop sample_body), wf_bodyb_sound. vm_compute. reflexivity. Defined.
