(* ===== verification/NullFlow.v ===== *)
(** * Null dereferences (crates/nova-flow/src/flow.rs)

    The nullability analysis: what conditions tell about locals, the narrowing of states on
    the edges of a conditional, the transfer functions and the diagnostics.  The theorems: the
    analysis returns; the two transfer functions of the source agree; and every dereference
    of [null] that an execution of the graph can perform is reported. *)

From stdpp Require Import base list numbers strings option relations sets.
From S2P Require Import Prelude HirBody Cfg CfgBuild CfgBuildWf Dataflow FlowDiag Exec.

(** ** States *)

Module NullState.
Inductive t := Null | NonNull | Unknown.

Global Instance eq_dec : EqDecision t.
Proof. solve_decision. Defined.

Definition join (self other : t) : t := if decide (self = other) then self else Unknown.
End NullState.

Notation NullConstraints := (list (nat * NullState.t)) (only parsing).

Definition get_state (state : list NullState.t) (l : LocalId) : NullState.t :=
  default NullState.Unknown (state !! l).

(** ** What a condition tells *)

(** [lhs.iter_mut().find(..)]: the first entry of the local is joined, or one is added. *)
Fixpoint merge_null_constraint (lhs : NullConstraints) (l : LocalId) (value : NullState.t)
    : NullConstraints :=
  match lhs with
  | [] => [(l, value)]
  | (l', v) :: lhs =>
      if decide (l' = l) then (l', NullState.join v value) :: lhs
      else (l', v) :: merge_null_constraint lhs l value
  end.

Definition merge_null_constraints (lhs rhs : NullConstraints) : NullConstraints :=
  foldl (fun acc '(l, value) => merge_null_constraint acc l value) lhs rhs.

(** The local compared with [null], in either order. *)
Definition null_comparand (lhs rhs : ExprKind.t) : option LocalId :=
  match lhs, rhs with
  | ExprKind.Local l, ExprKind.Null | ExprKind.Null, ExprKind.Local l => Some l
  | _, _ => None
  end.

(** The constraints of [lhs == rhs] ([is_eq]) or [lhs != rhs], when it is true and when it is
    false. *)
Definition comparison_constraints (is_eq : bool) (l : option LocalId)
    : NullConstraints * NullConstraints :=
  match l with
  | None => ([], [])
  | Some l =>
      if is_eq then ([(l, NullState.Null)], [(l, NullState.NonNull)])
      else ([(l, NullState.NonNull)], [(l, NullState.Null)])
  end.

Fixpoint null_constraints_fuel (fuel : nat) (b : Body) (e : ExprId)
    : run (NullConstraints * NullConstraints) :=
  match fuel with
  | 0 => OutOfFuel
  | S fuel =>
      ed ← expr b e;
      match expr_kind ed with
      | ExprKind.Unary Not c =>
          '(on_true, on_false) ← null_constraints_fuel fuel b c;
          Done (on_false, on_true)
      | ExprKind.Binary EqEq lhs rhs =>
          l ← expr b lhs; r ← expr b rhs;
          Done (comparison_constraints true (null_comparand (expr_kind l) (expr_kind r)))
      | ExprKind.Binary NotEq lhs rhs =>
          l ← expr b lhs; r ← expr b rhs;
          Done (comparison_constraints false (null_comparand (expr_kind l) (expr_kind r)))
      | ExprKind.Binary AndAnd lhs rhs =>
          '(lhs_true, _) ← null_constraints_fuel fuel b lhs;
          '(rhs_true, _) ← null_constraints_fuel fuel b rhs;
          Done (merge_null_constraints lhs_true rhs_true, [])
      | ExprKind.Binary OrOr lhs rhs =>
          '(_, lhs_false) ← null_constraints_fuel fuel b lhs;
          '(_, rhs_false) ← null_constraints_fuel fuel b rhs;
          Done ([], merge_null_constraints lhs_false rhs_false)
      | _ => Done ([], [])
      end
  end.

Definition null_constraints (b : Body) (e : ExprId) : run (NullConstraints * NullConstraints) :=
  null_constraints_fuel (length (exprs b)) b e.

(** The loop that writes constraints into a state. *)
Definition apply_constraint (state : list NullState.t) (c : nat * NullState.t)
    : list NullState.t :=
  let '(l, value) := c in
  if decide (value = NullState.Unknown) then state
  else if decide (l < length state) then <[l := value]> state
  else state.

Definition apply_constraints (state : list NullState.t) (cs : NullConstraints)
    : list NullState.t :=
  foldl apply_constraint state cs.

Definition branch_to (succ then_target else_target : BlockId) : option bool :=
  if decide (succ = then_target) then Some true
  else if decide (succ = else_target) then Some false
  else None.

Definition edge_narrow_null (b : Body) (g : ControlFlowGraph) (pred succ : BlockId)
    (out_state : list NullState.t) : run (list NullState.t) :=
  blk ← block g pred;
  match bb_term blk with
  | Terminator.If condition then_target else_target _ =>
      match branch_to succ then_target else_target with
      | None => Done out_state
      | Some branch =>
          '(on_true, on_false) ← null_constraints b condition;
          Done (apply_constraints out_state (if branch then on_true else on_false))
      end
  | _ => Done out_state
  end.

Definition join_nullability (n_locals : nat) (inputs : list (list NullState.t))
    : list NullState.t :=
  match inputs with
  | [] => replicate n_locals NullState.Unknown
  | first :: inputs => foldl (zip_update NullState.join) first inputs
  end.

(** ** Transfer functions *)

Fixpoint expr_null_state_fuel (fuel : nat) (b : Body) (e : ExprId) (state : list NullState.t)
    : run NullState.t :=
  match fuel with
  | 0 => OutOfFuel
  | S fuel =>
      ed ← expr b e;
      match expr_kind ed with
      | ExprKind.Null => Done NullState.Null
      | ExprKind.New _ _ | ExprKind.Bool _ | ExprKind.Int _ | ExprKind.Str _ =>
          Done NullState.NonNull
      | ExprKind.Local l => Done (get_state state l)
      | ExprKind.Unary _ c => expr_null_state_fuel fuel b c state
      | ExprKind.Binary _ _ _ => Done NullState.NonNull
      | ExprKind.FieldAccess _ _ | ExprKind.Call _ _ _ | ExprKind.Invalid _ =>
          Done NullState.Unknown
      end
  end.

Definition expr_null_state (b : Body) (e : ExprId) (state : list NullState.t)
    : run NullState.t :=
  expr_null_state_fuel (length (exprs b)) b e state.

Definition transfer_stmt_nullability (b : Body) (state : list NullState.t) (st : StmtId)
    : run (list NullState.t) :=
  sd ← stmt b st;
  match stmt_kind sd with
  | StmtKind.Let l initializer =>
      value ← match initializer with
              | Some e => expr_null_state b e state
              | None => Done NullState.Unknown
              end;
      set_idx state l value
  | StmtKind.Assign target value =>
      value_state ← expr_null_state b value state;
      set_idx state target value_state
  | StmtKind.Block _ => Panic
  | _ => Done state
  end.

Definition transfer_nullability (b : Body) (g : ControlFlowGraph) (bb : BlockId)
    (in_state : list NullState.t) : run (list NullState.t) :=
  blk ← block g bb;
  for_each (transfer_stmt_nullability b) (bb_stmts blk) in_state.

Global Instance null_top : FlatTop NullState.t := NullState.Unknown.

Definition null_analysis (b : Body) (g : ControlFlowGraph) : Analysis NullState.t := {|
  a_init := replicate (length (locals b)) NullState.Unknown;
  a_edge := edge_narrow_null b g;
  a_join := join_nullability (length (locals b));
  a_transfer := transfer_nullability b g
|}.

Definition null_states (b : Body) (g : ControlFlowGraph) (reach : list bool)
    : run (list (list NullState.t) * list (list NullState.t)) :=
  let n_blocks := length (blocks g) in
  let n_locals := length (locals b) in
  let in_states := replicate n_blocks (replicate n_locals NullState.Unknown) in
  let out_states := replicate n_blocks (replicate n_locals NullState.Unknown) in
  solve (H0 := null_analysis b g) g reach n_locals in_states out_states.

(** ** Diagnostics *)

Definition null_message : string := "possible null dereference".

(** [if recv_state != NonNull { diags.push(..) }], at an expression with this span. *)
Definition push_null_deref (recv_state : NullState.t) (span : Span) (diags : list Diagnostic)
    : list Diagnostic :=
  if decide (recv_state = NullState.NonNull) then diags
  else diags ++ [diagnostic PossibleNullDereference (Some span) null_message].

(** A constraint on the left operand that the current state excludes. *)
Definition contradicted (state : list NullState.t) (cs : NullConstraints) : bool :=
  existsb (fun '(l, required) =>
    let current := get_state state l in
    bool_decide (required <> NullState.Unknown) &&
    bool_decide (current <> NullState.Unknown) &&
    bool_decide (current <> required)) cs.

Fixpoint check_expr_null_deref_fuel (fuel : nat) (b : Body) (e : ExprId)
    (state : list NullState.t) (diags : list Diagnostic)
    : run (NullState.t * list Diagnostic) :=
  match fuel with
  | 0 => OutOfFuel
  | S fuel =>
      let check_all es diags :=
        for_each (fun d c =>
          '(_, d) ← check_expr_null_deref_fuel fuel b c state d; Done d) es diags in
      (* The right operand of a short-circuit operator, under the constraints [cs]. *)
      let check_rhs rhs cs diags :=
        if contradicted state cs then Done (NullState.NonNull, diags)
        else
          let rhs_state := apply_constraints state cs in
          '(_, diags) ← check_expr_null_deref_fuel fuel b rhs rhs_state diags;
          Done (NullState.NonNull, diags) in
      ed ← expr b e;
      match expr_kind ed with
      | ExprKind.Local l => Done (get_state state l, diags)
      | ExprKind.Null => Done (NullState.Null, diags)
      | ExprKind.New _ args =>
          diags ← check_all args diags; Done (NullState.NonNull, diags)
      | ExprKind.Bool _ | ExprKind.Int _ | ExprKind.Str _ => Done (NullState.NonNull, diags)
      | ExprKind.Invalid children =>
          diags ← check_all children diags; Done (NullState.Unknown, diags)
      | ExprKind.Unary _ c => check_expr_null_deref_fuel fuel b c state diags
      | ExprKind.Binary AndAnd lhs rhs =>
          '(_, diags) ← check_expr_null_deref_fuel fuel b lhs state diags;
          v ← eval_const_bool b lhs;
          if decide (v = Some false) then Done (NullState.NonNull, diags)
          else
            '(on_true, _) ← null_constraints b lhs;
            check_rhs rhs on_true diags
      | ExprKind.Binary OrOr lhs rhs =>
          '(_, diags) ← check_expr_null_deref_fuel fuel b lhs state diags;
          v ← eval_const_bool b lhs;
          if decide (v = Some true) then Done (NullState.NonNull, diags)
          else
            '(_, on_false) ← null_constraints b lhs;
            check_rhs rhs on_false diags
      | ExprKind.Binary _ lhs rhs =>
          '(_, diags) ← check_expr_null_deref_fuel fuel b lhs state diags;
          '(_, diags) ← check_expr_null_deref_fuel fuel b rhs state diags;
          Done (NullState.NonNull, diags)
      | ExprKind.FieldAccess receiver _ =>
          '(recv_state, diags) ← check_expr_null_deref_fuel fuel b receiver state diags;
          Done (NullState.Unknown, push_null_deref recv_state (expr_span ed) diags)
      | ExprKind.Call receiver _ args =>
          '(recv_state, diags) ← match receiver with
            | Some r => check_expr_null_deref_fuel fuel b r state diags
            | None => Done (NullState.NonNull, diags)
            end;
          diags ← check_all args diags;
          Done (NullState.Unknown,
                if is_some receiver then push_null_deref recv_state (expr_span ed) diags
                else diags)
      end
  end.

Definition check_expr_null_deref (b : Body) (e : ExprId) (state : list NullState.t)
    (diags : list Diagnostic) : run (NullState.t * list Diagnostic) :=
  check_expr_null_deref_fuel (length (exprs b)) b e state diags.

(** The state and the diagnostics, both updated in place. *)
Definition nd_acc : Type := list NullState.t * list Diagnostic.

Definition transfer_stmt_null_deref (b : Body) (acc : nd_acc) (st : StmtId) : run nd_acc :=
  let '(state, diags) := acc in
  sd ← stmt b st;
  match stmt_kind sd with
  | StmtKind.Let l initializer =>
      match initializer with
      | Some e =>
          '(value_state, diags) ← check_expr_null_deref b e state diags;
          state ← set_idx state l value_state;
          Done (state, diags)
      | None => state ← set_idx state l NullState.Unknown; Done (state, diags)
      end
  | StmtKind.Assign target value =>
      '(value_state, diags) ← check_expr_null_deref b value state diags;
      state ← set_idx state target value_state;
      Done (state, diags)
  | StmtKind.Expr e =>
      '(_, diags) ← check_expr_null_deref b e state diags; Done (state, diags)
  | StmtKind.Return value =>
      match value with
      | Some value =>
          '(_, diags) ← check_expr_null_deref b value state diags; Done (state, diags)
      | None => Done (state, diags)
      end
  | StmtKind.Throw exception =>
      '(_, diags) ← check_expr_null_deref b exception state diags; Done (state, diags)
  | StmtKind.Block _ => Panic
  | _ => Done (state, diags)
  end.

Definition transfer_terminator_null_deref (b : Body) (term : Terminator.t) (acc : nd_acc)
    : run nd_acc :=
  let '(state, diags) := acc in
  match term with
  | Terminator.If condition _ _ _ =>
      '(_, diags) ← check_expr_null_deref b condition state diags; Done (state, diags)
  | Terminator.Switch expression _ _ =>
      '(_, diags) ← check_expr_null_deref b expression state diags; Done (state, diags)
  | Terminator.Return value _ =>
      match value with
      | Some value =>
          '(_, diags) ← check_expr_null_deref b value state diags; Done (state, diags)
      | None => Done (state, diags)
      end
  | Terminator.Throw exception _ =>
      '(_, diags) ← check_expr_null_deref b exception state diags; Done (state, diags)
  | Terminator.Goto _ _ | Terminator.Multi _ _ | Terminator.Exit => Done (state, diags)
  end.

(** The loop over the statements of a block, then its terminator. *)
Definition walk_block_null_deref (b : Body) (blk : BasicBlock) (acc : nd_acc) : run nd_acc :=
  acc ← for_each (transfer_stmt_null_deref b) (bb_stmts blk) acc;
  transfer_terminator_null_deref b (bb_term blk) acc.

(** One iteration of the loop of [null_deref_diagnostics]. *)
Definition block_null_diagnostics (b : Body) (reach : list bool)
    (in_states : list (list NullState.t)) (diags : list Diagnostic) (ib : nat * BasicBlock)
    : run (list Diagnostic) :=
  let '(i, blk) := ib in
  r ← idx reach i;
  if negb r then Done diags
  else
    state ← idx in_states i;
    '(_, diags) ← walk_block_null_deref b blk (state, diags);
    Done diags.

Definition null_deref_diagnostics (b : Body) (g : ControlFlowGraph) (reach : list bool)
    : run (list Diagnostic) :=
  '(in_states, _) ← null_states b g reach;
  for_each (block_null_diagnostics b reach in_states) (imap pair (blocks g)) [].

(** ** What states mean *)

(** The values a state allows. *)
Definition allows (s : NullState.t) (v : value) : Prop :=
  match s with
  | NullState.Null => v = VNull
  | NullState.NonNull => v <> VNull
  | NullState.Unknown => True
  end.

(** The assigned locals have values their states allow. *)
Definition nagrees (ρ : env) (state : list NullState.t) : Prop :=
  forall l s v, state !! l = Some s -> ρ !! l = Some (Some v) -> allows s v.

(** A constraint holds: the local is assigned and has a value the constraint allows. *)
Definition holds (ρ : env) (c : nat * NullState.t) : Prop :=
  exists v, ρ !! c.1 = Some (Some v) /\ allows c.2 v.

Lemma allows_join s1 s2 v : allows s1 v -> allows s2 v -> allows (NullState.join s1 s2) v.
Proof. unfold NullState.join. case_decide; by subst. Qed.

Lemma allows_join_l s1 s2 v : allows s1 v -> allows (NullState.join s1 s2) v.
Proof. unfold NullState.join. case_decide; by subst. Qed.

Lemma allows_join_r s1 s2 v : allows s2 v -> allows (NullState.join s1 s2) v.
Proof. unfold NullState.join. case_decide; by subst. Qed.

Lemma get_state_allows ρ state l v :
  nagrees ρ state -> ρ !! l = Some (Some v) -> allows (get_state state l) v.
Proof.
  intros Ha Hl. unfold get_state. destruct (state !! l) as [s|] eqn:E; [|done]. simpl. eauto.
Qed.

Lemma nagrees_insert ρ state l s o :
  nagrees ρ state -> (forall v, o = Some v -> allows s v) ->
  nagrees (<[l := o]> ρ) (<[l := s]> state).
Proof.
  intros Ha Hs l' s' v Hs' Hv.
  apply list_lookup_insert_Some in Hs' as [(<- & -> & _)|[Hne Hs']].
  - apply list_lookup_insert_Some in Hv as [(_ & [= Hv] & _)|[? _]]; [|done]. by apply Hs.
  - rewrite list_lookup_insert_ne in Hv by done. eauto.
Qed.

Lemma nagrees_refine ρ state l s :
  nagrees ρ state -> holds ρ (l, s) -> nagrees ρ (<[l := s]> state).
Proof.
  intros Ha (w & Hw & Hs) l' s' v Hs' Hv. simpl in *.
  apply list_lookup_insert_Some in Hs' as [(<- & -> & _)|[_ Hs']]; [|eauto]. by simplify_eq.
Qed.

Lemma nagrees_apply ρ state cs :
  nagrees ρ state -> Forall (holds ρ) cs -> nagrees ρ (apply_constraints state cs).
Proof.
  intros Ha Hcs. unfold apply_constraints. revert state Ha.
  induction Hcs as [|[l s] cs Hc Hcs IH]; intros state Ha; [done|]. simpl. apply IH.
  unfold apply_constraint. repeat case_decide; try done. by apply nagrees_refine.
Qed.

Lemma length_apply_constraints state cs : length (apply_constraints state cs) = length state.
Proof.
  unfold apply_constraints. revert state; induction cs as [|[l s] cs IH]; intros state; [done|].
  simpl. rewrite IH. unfold apply_constraint. repeat case_decide; by rewrite ?length_insert.
Qed.

Lemma contradicted_not_holds ρ state cs :
  nagrees ρ state -> Forall (holds ρ) cs -> contradicted state cs = false.
Proof.
  intros Ha Hcs. unfold contradicted. apply not_true_is_false. rewrite existsb_exists.
  intros ([l s] & Hin & Hc). apply list_elem_of_In in Hin. rewrite Forall_forall in Hcs.
  destruct (Hcs _ Hin) as (v & Hv & Hs). simpl in *.
  pose proof (get_state_allows _ _ _ _ Ha Hv) as Hg.
  rewrite !andb_true_iff, !bool_decide_eq_true in Hc. destruct Hc as [[? ?] Hne].
  destruct s, (get_state state l); simpl in *; congruence.
Qed.

Lemma merge_holds ρ lhs l s :
  Forall (holds ρ) lhs -> holds ρ (l, s) -> Forall (holds ρ) (merge_null_constraint lhs l s).
Proof.
  intros Hl (v & Hv & Hs). induction Hl as [|[l' s'] lhs (w & Hw & Hs') Hl IH]; simpl in *.
  { constructor; [by exists v|constructor]. }
  case_decide as Hd.
  - subst. constructor; [|done]. exists w. split; [done|]. simpl. by apply allows_join_l.
  - constructor; [by exists w|done].
Qed.

Lemma merges_hold ρ lhs rhs :
  Forall (holds ρ) lhs -> Forall (holds ρ) rhs -> Forall (holds ρ) (merge_null_constraints lhs rhs).
Proof.
  intros Hl Hr. unfold merge_null_constraints. revert lhs Hl.
  induction Hr as [|[l s] rhs Hc Hr IH]; intros lhs Hl; [done|]. simpl. by apply IH, merge_holds.
Qed.

(** ** Constraints hold when the condition has its value *)

Definition constraints_sound (b : Body) (e : ExprId) (cs : NullConstraints * NullConstraints) :=
  forall ρ, (eval b ρ e (VBool true) -> Forall (holds ρ) cs.1) /\
            (eval b ρ e (VBool false) -> Forall (holds ρ) cs.2).

(** The value of a comparison of a local with [null]. *)
Lemma null_comparand_sound b ρ l r lk rk lsp rsp x v1 v2 res :
  exprs b !! l = Some (mkExpr lk lsp) -> exprs b !! r = Some (mkExpr rk rsp) ->
  null_comparand lk rk = Some x -> eval b ρ l v1 -> eval b ρ r v2 -> eq_result v1 v2 res ->
  exists v, ρ !! x = Some (Some v) /\ (res = true <-> v = VNull).
Proof.
  intros Hl Hr Hc H1 H2 Hres.
  destruct lk, rk; simplify_eq/=; inversion H1; simplify_eq; inversion H2; simplify_eq.
  - exists v1. split; [done|]. destruct v1, res; naive_solver.
  - exists v2. split; [done|]. destruct v2, res; naive_solver.
Qed.

Lemma comparison_constraints_sound b ρ is_eq l r lk rk lsp rsp v1 v2 res :
  exprs b !! l = Some (mkExpr lk lsp) -> exprs b !! r = Some (mkExpr rk rsp) ->
  eval b ρ l v1 -> eval b ρ r v2 -> eq_result v1 v2 res ->
  let cs := comparison_constraints is_eq (null_comparand lk rk) in
  Forall (holds ρ) (if Bool.eqb res is_eq then cs.1 else cs.2).
Proof.
  intros Hl Hr H1 H2 Hres. destruct (null_comparand lk rk) as [x|] eqn:Hc; simpl.
  2:{ destruct (Bool.eqb _ _); constructor. }
  destruct (null_comparand_sound _ _ _ _ _ _ _ _ _ _ _ _ Hl Hr Hc H1 H2 Hres) as (v & Hv & Hn).
  destruct is_eq, res; simpl; repeat constructor; exists v; (split; [done|]); simpl; naive_solver.
Qed.

Lemma eval_binary_bool b ρ e op l r sp v :
  exprs b !! e = Some (mkExpr (ExprKind.Binary op l r) sp) -> eval b ρ e v ->
  exists x, v = VBool x.
Proof. intros He Hv. inversion Hv; simplify_eq; eauto. Qed.

Section Constraints.
Context (b : Body) (Hwf : wf_body b).

Lemma wp_null_constraints_fuel fuel e :
  e < fuel -> e < length (exprs b) ->
  wp (null_constraints_fuel fuel b e) (constraints_sound b e).
Proof.
  revert e; induction fuel as [|fuel IH]; intros e Hf He; [lia|]. simpl.
  apply wp_bind, wp_expr; [done|]. intros ed Hed.
  assert (Hch : forall c, c ∈ expr_children (expr_kind ed) -> c < e /\ c < length (exprs b)).
  { intros c Hc%list_elem_of_In. destruct (wf_expr_child b Hwf _ _ _ Hed Hc). lia. }
  pose proof (expr_eta _ _ _ Hed) as Hed'.
  assert (Hnone : constraints_sound b e ([], [])) by (intros ρ; split; constructor).
  destruct (expr_kind ed) as [| | | | | |[] c|op l r| | |] eqn:Ek; try done.
  - destruct (Hch c ltac:(set_solver)). apply wp_bind.
    eapply wp_mono; [apply IH; lia|]. intros [t f] Hs ρ. simpl in *.
    split; intros Hev; inversion Hev; simplify_eq;
      match goal with H : _ = negb ?x |- _ => destruct x | H : negb ?x = _ |- _ => destruct x end;
      try done; by apply Hs.
  - destruct (Hch l ltac:(set_solver)), (Hch r ltac:(set_solver)). destruct op.
    + apply wp_bind, wp_expr; [done|]. intros [lk lsp] Hl.
      apply wp_bind, wp_expr; [done|]. intros [rk rsp] Hr. intros ρ. split; intros Hev.
      all: inversion Hev; simplify_eq.
      all: by pose proof (comparison_constraints_sound _ _ true _ _ _ _ _ _ _ _ _ Hl Hr
        ltac:(eassumption) ltac:(eassumption) ltac:(eassumption)).
    + apply wp_bind, wp_expr; [done|]. intros [lk lsp] Hl.
      apply wp_bind, wp_expr; [done|]. intros [rk rsp] Hr. intros ρ. split; intros Hev.
      all: inversion Hev; simplify_eq.
      all: pose proof (comparison_constraints_sound _ _ false _ _ _ _ _ _ _ _ _ Hl Hr
        ltac:(eassumption) ltac:(eassumption) ltac:(eassumption)) as Hc.
      all: match goal with H : _ = negb ?x |- _ => destruct x | H : negb ?x = _ |- _ => destruct x end;
        done.
    + eapply wp_seq; [apply IH; lia|]. intros [t f] Hs1.
      eapply wp_seq; [apply IH; lia|]. intros [t2 f2] Hs2.
      intros ρ. split; [|constructor]. intros Hev. inversion Hev; simplify_eq.
      apply merges_hold; [by apply Hs1|by apply Hs2].
    + eapply wp_seq; [apply IH; lia|]. intros [t f] Hs1.
      eapply wp_seq; [apply IH; lia|]. intros [t2 f2] Hs2.
      intros ρ. split; [constructor|]. intros Hev. inversion Hev; simplify_eq.
      apply merges_hold; [by apply Hs1|by apply Hs2].
Qed.

Lemma wp_null_constraints e :
  e < length (exprs b) -> wp (null_constraints b e) (constraints_sound b e).
Proof. intros He. by apply wp_null_constraints_fuel. Qed.

(** ** States of expressions *)

Lemma wp_expr_null_state_fuel fuel e state :
  e < fuel -> e < length (exprs b) ->
  wp (expr_null_state_fuel fuel b e state) (fun s =>
    forall ρ v, nagrees ρ state -> eval b ρ e v -> allows s v).
Proof.
  revert e; induction fuel as [|fuel IH]; intros e Hf He; [lia|]. simpl.
  apply wp_bind, wp_expr; [done|]. intros ed Hed.
  pose proof (expr_eta _ _ _ Hed) as Hed'.
  destruct (expr_kind ed) as [| | | | | |[] c|op l r| | |] eqn:Ek; simpl.
  7:{ destruct (wf_expr_child b Hwf _ _ c Hed) as [Hc1 Hc2]; [rewrite Ek; by left|].
      eapply wp_mono; [apply IH; lia|].
      intros s Hs ρ v Ha Hev. inversion Hev; simplify_eq.
      match goal with H : eval b ρ c _ |- _ => pose proof (Hs ρ _ Ha H) as Hx end.
      destruct s; naive_solver. }
  all: intros ρ v Ha Hev; inversion Hev; simplify_eq/=; try done.
  by eapply get_state_allows.
Qed.

Lemma wp_expr_null_state e state :
  e < length (exprs b) ->
  wp (expr_null_state b e state) (fun s =>
    forall ρ v, nagrees ρ state -> eval b ρ e v -> allows s v).
Proof. intros He. by apply wp_expr_null_state_fuel. Qed.
End Constraints.

(** ** The checks return, and report what they should *)

(** The diagnostic for a dereference at the expression [x]. *)
Definition reports_null (b : Body) (x : ExprId) (d : Diagnostic) : Prop :=
  exists xd, exprs b !! x = Some xd /\
    d = diagnostic PossibleNullDereference (Some (expr_span xd)) null_message.

(** [diags] has a diagnostic for each dereference of [null] in [e], from locals that agree. *)
Definition ncovers (b : Body) (state : list NullState.t) (e : ExprId) (diags : list Diagnostic)
    : Prop :=
  forall ρ x, nagrees ρ state -> null_deref b ρ e x -> exists d, d ∈ diags /\ reports_null b x d.

Lemma ncovers_mono b state e d1 d2 : d1 ⊆ d2 -> ncovers b state e d1 -> ncovers b state e d2.
Proof. intros Hd H ρ x Ha Hu. destruct (H ρ x Ha Hu) as (d & ? & ?). eauto. Qed.

(** The state of [e] as the other transfer function computes it, with any fuel that is enough. *)
Definition has_state (b : Body) (e : ExprId) (state : list NullState.t) (s : NullState.t) :=
  forall fuel, e < fuel -> expr_null_state_fuel fuel b e state = Done s.

Lemma has_state_intro b e ed state s :
  exprs b !! e = Some ed ->
  (forall fuel, e <= fuel -> expr_null_state_fuel (S fuel) b e state = Done s) ->
  has_state b e state s.
Proof. intros He H [|fuel] Hf; [lia|]. apply H. lia. Qed.

(** Solve [has_state] when the node decides the state at once. *)
Ltac has_state_tac Hed Ek :=
  apply (has_state_intro _ _ _ _ _ Hed); intros ? ?; simpl; unfold expr, idx;
  rewrite Hed; simpl; rewrite Ek; done.

Section NullCheck.
Context (b : Body) (Hwf : wf_body b).

Definition nchecked (e : ExprId) (state : list NullState.t) (d1 : list Diagnostic)
    (r : NullState.t * list Diagnostic) : Prop :=
  has_state b e state r.1 /\ d1 ⊆ r.2 /\ ncovers b state e r.2.

Lemma wp_ncheck_list (f : ExprId -> list Diagnostic -> run (NullState.t * list Diagnostic))
    state es d :
  (forall c d, c ∈ es -> wp (f c d) (nchecked c state d)) ->
  wp (for_each (fun d c => '(_, d) ← f c d; Done d) es d)
     (fun d' => d ⊆ d' /\ forall c, c ∈ es -> ncovers b state c d').
Proof.
  intros Hf.
  apply (wp_for_each _ es (fun dn d' => d ⊆ d' /\ forall c, c ∈ dn -> ncovers b state c d')).
  { split; [done|set_solver]. }
  intros dn c rest d' Heq [Hd Hdn]. apply wp_bind.
  eapply wp_mono; [apply Hf; rewrite Heq; set_solver|]. intros [s d''] (_ & Hd'' & Hc).
  simpl in *. split; [set_solver|]. intros c' [Hc'|Hc']%elem_of_app.
  - eapply ncovers_mono; [done|]. by apply Hdn.
  - apply list_elem_of_singleton in Hc' as ->. done.
Qed.

(** From the sub-expressions to the expression, when it is not a binary: what is left is a
    dereference at the expression itself. *)
Lemma ncovers_children state e ed d :
  exprs b !! e = Some ed ->
  match expr_kind ed with ExprKind.Binary _ _ _ => False | _ => True end ->
  (forall c, c ∈ expr_children (expr_kind ed) -> ncovers b state c d) ->
  (forall ρ r, nagrees ρ state -> receiver_of (expr_kind ed) = Some r -> eval b ρ r VNull ->
     diagnostic PossibleNullDereference (Some (expr_span ed)) null_message ∈ d) ->
  ncovers b state e d.
Proof.
  intros He Hk Hc Hself ρ x Ha (Hv & xd & r & Hx & Hrc & Hev).
  destruct (visits_inv _ _ _ _ _ He Hv) as [->|Hv'].
  - simplify_eq. eexists. split; [by eapply Hself|]. by exists ed.
  - destruct (expr_kind ed) eqn:Ek; try done; destruct Hv' as (c & Hin & Hvc);
      apply (Hc c Hin ρ x Ha); split; eauto 10.
Qed.

Lemma ncovers_binary state e sp op l r d :
  exprs b !! e = Some (mkExpr (ExprKind.Binary op l r) sp) ->
  ncovers b state l d ->
  (forall ρ x, nagrees ρ state -> (op = AndAnd -> eval b ρ l (VBool true)) ->
     (op = OrOr -> eval b ρ l (VBool false)) -> null_deref b ρ r x ->
     exists dg, dg ∈ d /\ reports_null b x dg) ->
  ncovers b state e d.
Proof.
  intros He Hl Hr ρ x Ha (Hv & Hx).
  destruct (visits_inv _ _ _ _ _ He Hv) as [->|[Hvl|(Hand & Hor & Hvr)]].
  - destruct Hx as (xd & rc & Hx & Hrc & _). simplify_eq.
  - apply (Hl ρ x Ha). by split.
  - apply (Hr ρ x Ha); [done..|]. by split.
Qed.

Lemma elem_push_null s sp d : d ⊆ push_null_deref s sp d.
Proof. unfold push_null_deref. case_decide; set_solver. Qed.

(** A receiver that may be [null] is reported. *)
Lemma push_null_reports state ρ r s sp d :
  r < length (exprs b) -> has_state b r state s -> nagrees ρ state -> eval b ρ r VNull ->
  diagnostic PossibleNullDereference (Some sp) null_message ∈ push_null_deref s sp d.
Proof.
  intros Hr Hs Ha Hev. unfold push_null_deref. case_decide as Hd; [|set_solver].
  pose proof (wp_expr_null_state b Hwf r state Hr) as Hw. unfold expr_null_state in Hw.
  rewrite (Hs (length (exprs b)) Hr) in Hw. simpl in Hw.
  specialize (Hw ρ VNull Ha Hev). by subst.
Qed.

(** The right operand of a short-circuit operator. *)
Lemma wp_check_rhs fuel state lhs rhs (v : bool) cs d Q :
  (forall st d, wp (check_expr_null_deref_fuel fuel b rhs st d) (nchecked rhs st d)) ->
  (forall ρ, eval b ρ lhs (VBool v) -> Forall (holds ρ) cs) ->
  (forall d', d ⊆ d' ->
     (forall ρ x, nagrees ρ state -> eval b ρ lhs (VBool v) -> null_deref b ρ rhs x ->
        exists dg, dg ∈ d' /\ reports_null b x dg) -> Q (NullState.NonNull, d')) ->
  wp (if contradicted state cs then Done (NullState.NonNull, d)
      else
        let rhs_state := apply_constraints state cs in
        '(_, diags) ← check_expr_null_deref_fuel fuel b rhs rhs_state d;
        Done (NullState.NonNull, diags)) Q.
Proof.
  intros Hrec Hcs HQ. destruct (contradicted state cs) eqn:Hc.
  - apply HQ; [done|]. intros ρ x Ha Hl _.
    pose proof (contradicted_not_holds ρ state cs Ha (Hcs ρ Hl)). congruence.
  - eapply wp_seq; [apply Hrec|]. intros [s d'] (_ & Hd & Hcov).
    simpl in *. apply HQ; [done|]. intros ρ x Ha Hl Hn.
    apply (Hcov ρ x); [|done]. by apply nagrees_apply; [|apply Hcs].
Qed.

(** One step of the recursion, by the kind of the expression. *)
Section Step.
Context (fuel e : nat) (ed : Expr) (Hed : exprs b !! e = Some ed).
Hypothesis Hlt : forall c, c ∈ expr_children (expr_kind ed) -> c < e /\ c < length (exprs b).
Hypothesis Hrec : forall c st d, c ∈ expr_children (expr_kind ed) ->
  wp (check_expr_null_deref_fuel fuel b c st d) (nchecked c st d).

Ltac step_in Ek := cbn [check_expr_null_deref_fuel]; unfold expr, idx; rewrite Hed;
  cbn [mbind run_bind]; pose proof (expr_eta _ _ _ Hed) as Hed'; rewrite Ek in *.

Lemma wp_ncheck_binary op l r state d :
  expr_kind ed = ExprKind.Binary op l r ->
  wp (check_expr_null_deref_fuel (S fuel) b e state d) (nchecked e state d).
Proof.
  intros Ek. assert (Hst : has_state b e state NullState.NonNull) by has_state_tac Hed Ek.
  step_in Ek. assert (Hl : l < length (exprs b)) by (apply (Hlt l); set_solver).
  pose proof (wp_eval_const_bool b Hwf l Hl) as [v [Hv _]]%wp_inv. destruct op.
  1,2: eapply wp_seq; [apply Hrec; set_solver|]; intros [s1 d1] (_ & Hd1 & Hc1);
    eapply wp_seq; [apply Hrec; set_solver|]; intros [s2 d2] (_ & Hd2 & Hc2);
    simpl in *; split_and!; [done|set_solver|]; eapply ncovers_binary; [done| |];
    [by eapply ncovers_mono|]; intros ρ x Ha _ _ Hn; by apply (Hc2 ρ x).
  - eapply wp_seq; [apply Hrec; set_solver|]. intros [s1 d1] (_ & Hd1 & Hc1).
    rewrite Hv. simpl in *. case_decide as Hd.
    { subst v. split_and!; [done..|]. eapply ncovers_binary; [done..|].
      intros ρ x Ha Hand _ _.
      pose proof (eval_const_bool_sound _ _ _ _ _ _ Hv (Hand eq_refl)). done. }
    eapply wp_seq; [by apply wp_null_constraints|]. intros [t f] Hcs.
    apply (wp_check_rhs fuel state l r true); [intros; apply Hrec; set_solver|apply Hcs|].
    intros d' Hd' Hr. split_and!; [done|set_solver|].
    eapply ncovers_binary; [done|by eapply ncovers_mono|].
    intros ρ x Ha Hand _ Hn. by apply (Hr ρ x Ha (Hand eq_refl)).
  - eapply wp_seq; [apply Hrec; set_solver|]. intros [s1 d1] (_ & Hd1 & Hc1).
    rewrite Hv. simpl in *. case_decide as Hd.
    { subst v. split_and!; [done..|]. eapply ncovers_binary; [done..|].
      intros ρ x Ha _ Hor _.
      pose proof (eval_const_bool_sound _ _ _ _ _ _ Hv (Hor eq_refl)). done. }
    eapply wp_seq; [by apply wp_null_constraints|]. intros [t f] Hcs.
    apply (wp_check_rhs fuel state l r false); [intros; apply Hrec; set_solver|apply Hcs|].
    intros d' Hd' Hr. split_and!; [done|set_solver|].
    eapply ncovers_binary; [done|by eapply ncovers_mono|].
    intros ρ x Ha _ Hor Hn. by apply (Hr ρ x Ha (Hor eq_refl)).
Qed.

Lemma wp_ncheck_call rc nm args state d :
  expr_kind ed = ExprKind.Call rc nm args ->
  wp (check_expr_null_deref_fuel (S fuel) b e state d) (nchecked e state d).
Proof.
  intros Ek. assert (Hst : has_state b e state NullState.Unknown) by has_state_tac Hed Ek.
  step_in Ek.
  apply (wp_seq _ _ (fun r => d ⊆ r.2 /\ forall rc', rc = Some rc' ->
    has_state b rc' state r.1 /\ ncovers b state rc' r.2)).
  { destruct rc as [r|]; [|done]. eapply wp_mono; [apply Hrec; set_solver|].
    intros r1 (? & ? & ?). split; [done|]. by intros ? [= <-]. }
  intros [s d1] [Hd1 Hr]. eapply wp_seq; [apply (wp_ncheck_list _ state)|].
  { intros c d2 Hc. apply Hrec. simpl. set_solver. }
  intros d2 [Hd2 Hc]. simpl in *.
  assert (Hd3 : d2 ⊆ if is_some rc then push_null_deref s (expr_span ed) d2 else d2).
  { destruct rc; simpl; [apply elem_push_null|done]. }
  split_and!; [done|simpl; set_solver|]. eapply ncovers_children; [exact Hed|by rewrite Ek|..]; rewrite ?Ek.
  - simpl. intros c [Hin|Hin]%elem_of_app; (eapply ncovers_mono; [exact Hd3|]); [|by apply Hc].
    eapply ncovers_mono; [exact Hd2|]. apply Hr. destruct rc; set_solver.
  - intros ρ r Ha [= ->] Hev. simpl. eapply push_null_reports; [|by apply Hr|done..].
    apply (Hlt r). set_solver.
Qed.
End Step.

Lemma wp_check_expr_null_deref_fuel fuel e state d :
  e < fuel -> e < length (exprs b) ->
  wp (check_expr_null_deref_fuel fuel b e state d) (nchecked e state d).
Proof.
  revert e state d; induction fuel as [|fuel IH]; intros e state d Hf He; [lia|].
  destruct (lookup_lt_is_Some_2 _ _ He) as [ed Hed].
  assert (Hlt : forall c, c ∈ expr_children (expr_kind ed) -> c < e /\ c < length (exprs b)).
  { intros c Hc%list_elem_of_In. destruct (wf_expr_child b Hwf _ _ _ Hed Hc). lia. }
  assert (Hrec : forall c st d, c ∈ expr_children (expr_kind ed) ->
    wp (check_expr_null_deref_fuel fuel b c st d) (nchecked c st d)).
  { intros c st d' Hc. destruct (Hlt c Hc). apply IH; lia. }
  destruct (expr_kind ed) as [l| | | | |cn args|[] c|op l r|rc nm|rc nm args|cs] eqn:Ek.
  8: { rewrite <-Ek in *. by eapply wp_ncheck_binary. }
  9: { rewrite <-Ek in *. by eapply wp_ncheck_call. }
  all: simpl; apply wp_bind, wp_expr; [done|]; intros ed' Hed'; simplify_eq; rewrite Ek.
  1-5: split_and!; [has_state_tac Hed Ek|done|];
    eapply ncovers_children; rewrite ?Ek; [done..|set_solver|done].
  - eapply wp_seq; [apply (wp_ncheck_list _ state); eauto|].
    intros d' [Hd Hc]. split_and!; [has_state_tac Hed Ek|done|].
    eapply ncovers_children; rewrite ?Ek; done.
  - eapply wp_mono; [apply Hrec; set_solver|]. intros [s d'] (Hs & Hd & Hc).
    destruct (Hlt c ltac:(set_solver)). split_and!; [|done|].
    + apply (has_state_intro _ _ _ _ _ Hed). intros f Hf'. simpl. unfold expr, idx.
      rewrite Hed. simpl. rewrite Ek. apply Hs. lia.
    + eapply ncovers_children; rewrite ?Ek; [done..|set_solver|done].
  - eapply wp_seq; [apply Hrec; set_solver|]. intros [s d'] (Hs & Hd & Hc).
    pose proof (elem_push_null s (expr_span ed) d').
    split_and!; [has_state_tac Hed Ek|simpl in *; set_solver|].
    eapply ncovers_children; rewrite ?Ek; [done..| |].
    + simpl. intros c ->%list_elem_of_singleton. by eapply ncovers_mono.
    + intros ρ r Ha [= <-] Hev. simpl. eapply push_null_reports; [|done..].
      apply (Hlt rc). set_solver.
  - eapply wp_seq; [apply (wp_ncheck_list _ state); eauto|].
    intros d' [Hd Hc]. split_and!; [has_state_tac Hed Ek|done|].
    eapply ncovers_children; rewrite ?Ek; done.
Qed.

Lemma wp_check_expr_null_deref e state d :
  e < length (exprs b) ->
  wp (check_expr_null_deref b e state d) (nchecked e state d).
Proof. intros He. by apply wp_check_expr_null_deref_fuel. Qed.
End NullCheck.

(** ** Statements and blocks *)

Section NullWalk.
Context (b : Body) (Hwf : wf_body b).

Lemma wp_transfer_stmt_nullability state st :
  leaf_stmt b st -> length state = length (locals b) ->
  wp (transfer_stmt_nullability b state st)
     (fun s' => length s' = length state /\
        forall ρ ρ', nagrees ρ state -> exec_stmt b ρ st ρ' -> nagrees ρ' s').
Proof.
  intros (sd & Hsd & Hk) Hl. unfold transfer_stmt_nullability.
  apply wp_bind, wp_stmt; [by eapply lookup_lt_Some|]. intros sd' Hsd'. simplify_eq.
  assert (Hex : forall e, e ∈ stmt_exprs (stmt_kind sd) -> e < length (exprs b)).
  { intros e He%list_elem_of_In. by eapply wf_stmt_expr. }
  assert (Hlt : forall l, l ∈ stmt_writes (stmt_kind sd) -> l < length state).
  { intros l H%list_elem_of_In. rewrite Hl. by eapply wf_stmt_local. }
  destruct sd as [k sp]. simpl in *.
  destruct k as [|l [i|]|l v|e| | | | | | |[v|]|e| | |]; try done; simpl in *.
  - eapply wp_seq; [apply wp_expr_null_state; [done|apply Hex; set_solver]|].
    intros s Hs. apply wp_set_idx; [apply Hlt; set_solver|]. rewrite length_insert.
    split; [done|]. intros ρ ρ' Ha He. inversion He; simplify_eq.
    apply nagrees_insert; [done|]. intros w [= <-]. by eapply Hs.
  - apply wp_set_idx; [apply Hlt; set_solver|]. rewrite length_insert.
    split; [done|]. intros ρ ρ' Ha He. inversion He; simplify_eq.
    by apply nagrees_insert.
  - eapply wp_seq; [apply wp_expr_null_state; [done|apply Hex; set_solver]|].
    intros s Hs. apply wp_set_idx; [apply Hlt; set_solver|]. rewrite length_insert.
    split; [done|]. intros ρ ρ' Ha He. inversion He; simplify_eq.
    apply nagrees_insert; [done|]. intros w [= <-]. by eapply Hs.
  - split; [done|]. intros ρ ρ' Ha He. by inversion He; simplify_eq.
  - split; [done|]. intros ρ ρ' Ha He. by inversion He; simplify_eq.
  - split; [done|]. intros ρ ρ' Ha He. by inversion He; simplify_eq.
  - split; [done|]. intros ρ ρ' Ha He. by inversion He; simplify_eq.
  - split; [done|]. intros ρ ρ' Ha He. by inversion He; simplify_eq.
Qed.

Lemma wp_transfer_stmts_nullability ss state :
  Forall (leaf_stmt b) ss -> length state = length (locals b) ->
  wp (for_each (transfer_stmt_nullability b) ss state)
     (fun s' => length s' = length state /\
        forall ρ ρ', nagrees ρ state -> exec_stmts b ρ ss ρ' -> nagrees ρ' s').
Proof.
  intros Hss Hl.
  apply (wp_for_each _ ss (fun dn s' => length s' = length state /\
    forall ρ ρ', nagrees ρ state -> exec_stmts b ρ dn ρ' -> nagrees ρ' s')).
  { split; [done|]. intros ρ ρ' Ha He. inversion He; [by simplify_eq|].
    by destruct ss0. }
  intros dn st rest s Heq [Hsl Hs]. subst ss.
  apply Forall_app in Hss as [_ [Hst _]%Forall_cons].
  eapply wp_mono; [apply wp_transfer_stmt_nullability; [done|lia]|].
  intros s' [Hsl' Hs']. split; [lia|]. intros ρ ρ' Ha He.
  inversion He as [|ss0 st0 ρ1 ρ2 He1 He2 Heq]; [by destruct dn|].
  apply app_inj_tail in Heq as [-> ->]. eauto.
Qed.

(** The two transfer functions of a statement agree on the state. *)
Lemma wp_transfer_stmt_null_deref state d st :
  leaf_stmt b st -> length state = length (locals b) ->
  wp (transfer_stmt_null_deref b (state, d) st)
     (fun '(s', d') => transfer_stmt_nullability b state st = Done s' /\ d ⊆ d' /\
        forall sd e, stmts b !! st = Some sd -> e ∈ stmt_exprs (stmt_kind sd) ->
          ncovers b state e d').
Proof.
  intros (sd & Hsd & Hk) Hl. unfold transfer_stmt_null_deref, transfer_stmt_nullability.
  unfold stmt, idx. rewrite Hsd. simpl.
  assert (Hex : forall e d, e ∈ stmt_exprs (stmt_kind sd) ->
    wp (check_expr_null_deref b e state d)
       (fun r => expr_null_state b e state = Done r.1 /\ d ⊆ r.2 /\ ncovers b state e r.2)).
  { intros e d' He%list_elem_of_In.
    assert (e < length (exprs b)) by by eapply wf_stmt_expr.
    eapply wp_mono; [by apply wp_check_expr_null_deref|].
    intros r (Hs & Hd & Hc). split_and!; [by apply Hs|done..]. }
  assert (Hlt : forall l, l ∈ stmt_writes (stmt_kind sd) -> l < length state).
  { intros l H%list_elem_of_In. rewrite Hl. by eapply wf_stmt_local. }
  destruct (stmt_kind sd) as [|l [i|]|l v|e| | | | | | |[v|]|e| | |] eqn:Ek; try done; simpl in *.
  all: try (eapply wp_seq; [apply Hex; set_solver|]; intros [s1 d1] (Hs1 & Hd1 & Hc1)).
  all: simpl in *; try (rewrite Hs1; simpl).
  all: try (apply wp_bind, wp_set_idx; [apply Hlt; set_solver|]).
  all: simpl; unfold set_idx; try (rewrite decide_True by (apply Hlt; set_solver)).
  all: split_and!; [done|done|].
  all: intros sd' e' [= <-]; rewrite Ek; simpl; set_solver.
Qed.

(** The diagnostics of a walk cover the expressions of the statements and terminator. *)
Definition nwalk_covers (blk : BasicBlock) (state : list NullState.t) (d : list Diagnostic)
    : Prop :=
  (forall pre st post sd e s, bb_stmts blk = pre ++ st :: post -> stmts b !! st = Some sd ->
     e ∈ stmt_exprs (stmt_kind sd) ->
     for_each (transfer_stmt_nullability b) pre state = Done s -> ncovers b s e d) /\
  (forall e s, e ∈ term_exprs (bb_term blk) ->
     for_each (transfer_stmt_nullability b) (bb_stmts blk) state = Done s -> ncovers b s e d).

Lemma nwalk_covers_mono blk state d1 d2 :
  d1 ⊆ d2 -> nwalk_covers blk state d1 -> nwalk_covers blk state d2.
Proof. intros Hd [H1 H2]. split; intros; (eapply ncovers_mono; [exact Hd|]); eauto. Qed.

Lemma wp_nwalk_stmts ss state d :
  Forall (leaf_stmt b) ss -> length state = length (locals b) ->
  wp (for_each (transfer_stmt_null_deref b) ss (state, d))
     (fun '(s', d') => for_each (transfer_stmt_nullability b) ss state = Done s' /\ d ⊆ d' /\
        forall pre st post sd e s, ss = pre ++ st :: post -> stmts b !! st = Some sd ->
          e ∈ stmt_exprs (stmt_kind sd) ->
          for_each (transfer_stmt_nullability b) pre state = Done s -> ncovers b s e d').
Proof.
  intros Hss Hl.
  apply (wp_for_each _ ss (fun dn '(s', d') =>
    for_each (transfer_stmt_nullability b) dn state = Done s' /\ d ⊆ d' /\
    forall pre st post sd e s, dn = pre ++ st :: post -> stmts b !! st = Some sd ->
      e ∈ stmt_exprs (stmt_kind sd) ->
      for_each (transfer_stmt_nullability b) pre state = Done s -> ncovers b s e d')).
  { split_and!; [done..|]. intros [] ? ? ? ? ? ?; done. }
  intros dn st rest [s' d'] Heq (Hs & Hd & Hc). subst ss.
  apply Forall_app in Hss as [Hdn [Hst _]%Forall_cons].
  pose proof (wp_transfer_stmts_nullability dn state Hdn Hl) as Hw. rewrite Hs in Hw.
  destruct Hw as [Hsl _].
  eapply wp_mono; [apply wp_transfer_stmt_null_deref; [done|lia]|].
  intros [s2 d2] (Hs2 & Hd2 & Hc2). split_and!; [|set_solver|].
  { rewrite for_each_app, Hs. simpl. by rewrite Hs2. }
  intros pre st' post sd e s Hsplit Hsd He Hpre.
  destruct post as [|x post _] using rev_ind.
  - apply app_inj_tail in Hsplit as [<- <-]. assert (s = s') as -> by congruence. by eapply Hc2.
  - rewrite app_comm_cons, app_assoc in Hsplit. apply app_inj_tail in Hsplit as [-> ->].
    eapply ncovers_mono; [exact Hd2|]. by eapply Hc.
Qed.

Lemma wp_nwalk n i e0 blk state d :
  block_ok b e0 n i blk -> length state = length (locals b) ->
  wp (walk_block_null_deref b blk (state, d))
     (fun '(_, d') => d ⊆ d' /\ nwalk_covers blk state d').
Proof.
  intros [Hss Ht] Hl. eapply wp_seq; [by apply wp_nwalk_stmts|].
  intros [s1 d1] (Hs1 & Hd1 & Hc1).
  assert (Hex : forall e, e ∈ term_exprs (bb_term blk) ->
    wp (check_expr_null_deref b e s1 d1) (nchecked b e s1 d1)).
  { intros e He. apply wp_check_expr_null_deref; [done|].
    pose proof (tok_exprs _ _ _ _ _ Ht) as H. rewrite Forall_forall in H. by apply H. }
  unfold nwalk_covers, transfer_terminator_null_deref. rewrite Hs1.
  destruct (bb_term blk) as [| |c| |[v|]| |]; simpl in *.
  all: try (eapply wp_seq; [apply Hex; set_solver|];
    intros [s2 d2] (_ & Hd2 & Hc2); simpl in *).
  all: simpl; split_and!; [set_solver| |].
  all: try (intros pre st post sd e' s H1 H2 H3 H4; eapply ncovers_mono; [|by eapply Hc1]; done).
  all: intros e' s He [= <-]; set_solver.
Qed.

Lemma wp_transfer_nullability g bb state :
  cfg_for b g -> bb < length (blocks g) -> length state = length (locals b) ->
  wp (transfer_nullability b g bb state)
     (fun s' => length s' = length state /\ forall blk ρ ρ', blocks g !! bb = Some blk ->
        nagrees ρ state -> exec_stmts b ρ (bb_stmts blk) ρ' -> nagrees ρ' s').
Proof.
  intros Hg Hbb Hl. apply wp_bind, wp_idx; [done|]. intros blk Hblk.
  eapply wp_mono; [apply wp_transfer_stmts_nullability; [by apply (cf_blocks _ _ Hg _ _ Hblk)|done]|].
  intros s' [Hsl Hs]. split; [done|]. intros blk' ρ ρ' Hblk'. simplify_eq. apply Hs.
Qed.

(** Narrowing keeps the agreement along an edge an execution takes. *)
Lemma wp_edge_narrow_null g p s state :
  cfg_for b g -> edge g p s ->
  wp (edge_narrow_null b g p s state)
     (fun s' => length s' = length state /\ forall blk ρ, blocks g !! p = Some blk ->
        nagrees ρ state -> exec_term b ρ (bb_term blk) s -> nagrees ρ s').
Proof.
  intros Hg (blk & Hblk & _). unfold edge_narrow_null, block, idx. rewrite Hblk. simpl.
  destruct (bb_term blk) as [| |c t e from| | | |] eqn:Ht; simpl.
  1,2,4-7: split; [done|]; intros ? ρ Hb' Ha _; by simplify_eq.
  destruct (cf_blocks _ _ Hg _ _ Hblk) as [_ Htok].
  assert (Hc : c < length (exprs b)).
  { pose proof (tok_exprs _ _ _ _ _ Htok) as H. rewrite Ht in H. by apply Forall_cons in H as [? _]. }
  assert (Hte : t <> e).
  { pose proof (wfc_terms _ (cf_wf _ _ Hg) _ _ Hblk) as [_ H]. by rewrite Ht in H. }
  unfold branch_to. destruct (decide (s = t)) as [->|Hst].
  { eapply wp_seq; [by apply wp_null_constraints|]. intros [on_t on_f] Hcs.
    simpl. split; [apply length_apply_constraints|]. intros blk' ρ Hb' Ha Hx. simplify_eq.
    rewrite Ht in Hx. inversion Hx; simplify_eq. apply nagrees_apply; [done|]. by apply Hcs. }
  destruct (decide (s = e)) as [->|Hse].
  { eapply wp_seq; [by apply wp_null_constraints|]. intros [on_t on_f] Hcs.
    simpl. split; [apply length_apply_constraints|]. intros blk' ρ Hb' Ha Hx. simplify_eq.
    rewrite Ht in Hx. inversion Hx; simplify_eq. apply nagrees_apply; [done|]. by apply Hcs. }
  split; [done|]. intros ? ρ Hb' Ha _. done.
Qed.
End NullWalk.

(** ** Nullability is an analysis *)

Lemma fle_unknown s : fle s NullState.Unknown.
Proof. by right. Qed.

Lemma null_join_fle (x x' y y' : NullState.t) :
  fle x x' -> fle y y' -> fle (NullState.join x y) (NullState.join x' y').
Proof.
  unfold fle, ftop, null_top. destruct x, x', y, y'; naive_solver.
Qed.

Lemma get_state_fle s1 s2 l : sle s1 s2 -> fle (get_state s1 l) (get_state s2 l).
Proof.
  intros Hs. unfold get_state. destruct (s1 !! l) eqn:E1, (s2 !! l) eqn:E2; simpl.
  - by apply (Forall2_lookup_lr _ _ _ _ _ _ Hs E1 E2).
  - apply fle_unknown.
  - apply lookup_lt_Some in E2. apply lookup_ge_None in E1. apply sle_length in Hs. lia.
  - by left.
Qed.

Lemma expr_null_state_mono fuel b e s1 s2 r1 r2 :
  sle s1 s2 -> expr_null_state_fuel fuel b e s1 = Done r1 ->
  expr_null_state_fuel fuel b e s2 = Done r2 -> fle r1 r2.
Proof.
  intros Hs. revert e; induction fuel as [|fuel IH]; intros e H1 H2; [done|]. simpl in *.
  destruct (expr b e) as [ed| |]; try done. simpl in *.
  destruct (expr_kind ed); simplify_eq; try (by left); [by apply get_state_fle|by eapply IH].
Qed.

Lemma apply_constraints_sle s1 s2 cs :
  sle s1 s2 -> sle (apply_constraints s1 cs) (apply_constraints s2 cs).
Proof.
  unfold apply_constraints. revert s1 s2; induction cs as [|[l s] cs IH]; intros s1 s2 Hs; [done|].
  simpl. apply IH. unfold apply_constraint. rewrite (sle_length _ _ Hs).
  repeat case_decide; try done. by apply Forall2_insert; [|left].
Qed.

Lemma set_idx_sle (s1 s2 r1 r2 : list NullState.t) l x1 x2 :
  sle s1 s2 -> fle x1 x2 -> set_idx s1 l x1 = Done r1 -> set_idx s2 l x2 = Done r2 -> sle r1 r2.
Proof.
  intros Hs Hx [_ ->]%set_idx_Done [_ ->]%set_idx_Done. by apply Forall2_insert.
Qed.

Lemma transfer_stmt_nullability_mono b st s1 s2 r1 r2 :
  sle s1 s2 -> transfer_stmt_nullability b s1 st = Done r1 ->
  transfer_stmt_nullability b s2 st = Done r2 -> sle r1 r2.
Proof.
  intros Hs H1 H2. unfold transfer_stmt_nullability in *.
  destruct (stmt b st) as [sd| |]; try done. simpl in *.
  destruct (stmt_kind sd) as [|l [i|]|l v|e| | | | | | |[v|]|e| | |]; simplify_eq; try done.
  - apply bind_Done in H1 as (x1 & Hx1 & H1), H2 as (x2 & Hx2 & H2).
    eapply set_idx_sle; [done| |done..]. by eapply expr_null_state_mono.
  - eapply (set_idx_sle s1 s2); [done|by left|done..].
  - apply bind_Done in H1 as (x1 & Hx1 & H1), H2 as (x2 & Hx2 & H2).
    eapply set_idx_sle; [done| |done..]. by eapply expr_null_state_mono.
Qed.

Lemma transfer_stmts_nullability_mono b ss s1 s2 r1 r2 :
  sle s1 s2 -> for_each (transfer_stmt_nullability b) ss s1 = Done r1 ->
  for_each (transfer_stmt_nullability b) ss s2 = Done r2 -> sle r1 r2.
Proof.
  revert s1 s2; induction ss as [|st ss IH]; intros s1 s2 Hs H1 H2; simpl in *; [by simplify_eq|].
  apply bind_Done in H1 as (x1 & Hx1 & H1), H2 as (x2 & Hx2 & H2).
  eapply IH; [|done..]. by eapply transfer_stmt_nullability_mono.
Qed.

Lemma edge_narrow_null_mono b g p s o1 o2 r1 r2 :
  sle o1 o2 -> edge_narrow_null b g p s o1 = Done r1 -> edge_narrow_null b g p s o2 = Done r2 ->
  sle r1 r2.
Proof.
  intros Ho H1 H2. unfold edge_narrow_null in *. destruct (block g p) as [blk| |]; try done.
  simpl in *. destruct (bb_term blk); try by simplify_eq.
  destruct (branch_to s then_target else_target); [|by simplify_eq].
  destruct (null_constraints b condition) as [[t f]| |]; try done. simpl in *. simplify_eq.
  by apply apply_constraints_sle.
Qed.

(** Joining loses no execution. *)
Lemma nagrees_zip_l ρ s1 s2 : nagrees ρ s1 -> nagrees ρ (zip_update NullState.join s1 s2).
Proof.
  intros Ha l t v (x & Hx & [-> |(y & Hy & ->)])%lookup_zip_update_inv Hv; [eauto|].
  apply allows_join_l. eauto.
Qed.

Lemma nagrees_zip_r ρ s1 s2 :
  length s1 = length s2 -> nagrees ρ s2 -> nagrees ρ (zip_update NullState.join s1 s2).
Proof.
  intros Hl Ha l t v Ht Hv. destruct (lookup_zip_update_inv _ _ _ _ _ Ht) as (x & Hx & _).
  destruct (lookup_lt_is_Some_2 s2 l) as [y Hy]; [rewrite <-Hl; by eapply lookup_lt_Some|].
  rewrite (lookup_zip_update _ _ _ _ _ _ Hx Hy) in Ht. injection Ht as <-.
  apply allows_join_r. eauto.
Qed.

Lemma nagrees_foldl ρ inputs s :
  nagrees ρ s -> nagrees ρ (foldl (zip_update NullState.join) s inputs).
Proof.
  revert s; induction inputs as [|i inputs IH]; intros s Ha; [done|]. by apply IH, nagrees_zip_l.
Qed.

Lemma join_nullability_agrees ρ n inputs s :
  s ∈ inputs -> nagrees ρ s -> Forall (fun s => length s = n) inputs ->
  nagrees ρ (join_nullability n inputs).
Proof.
  intros Hin Ha Hlen. destruct inputs as [|first inputs]; [by apply not_elem_of_nil in Hin|].
  apply Forall_cons in Hlen as [Hf Hlen]. simpl.
  apply elem_of_cons in Hin as [->|Hin]; [by apply nagrees_foldl|].
  revert first Hf; induction Hlen as [|i inputs Hi Hlen IH]; intros first Hf; simpl.
  { by apply not_elem_of_nil in Hin. }
  apply elem_of_cons in Hin as [->|Hin].
  - apply nagrees_foldl, nagrees_zip_r; [lia|done].
  - apply IH; [done|]. by autorewrite with run.
Qed.

Section NullAnalysis.
Context (b : Body) (g : ControlFlowGraph) (Hwf : wf_body b) (Hg : cfg_for b g).
Context (reach : list bool) (Hrlen : length reach = length (blocks g)).
Context (Hreach : forall x, reach !! x = Some true <-> reachable g x).

Lemma null_laws :
  @AnalysisLaws NullState.t _ _ (null_analysis b g) g (length (locals b)).
Proof.
  split; simpl.
  - apply length_replicate.
  - intros p s o He Ho. eapply wp_mono; [by apply wp_edge_narrow_null|].
    intros s' [? _]. lia.
  - intros p s o1 o2 r1 r2 _ _. apply edge_narrow_null_mono.
  - intros [|first l] Hl; simpl; [apply length_replicate|].
    apply Forall_cons in Hl as [Hf _]. by autorewrite with run.
  - intros l1 l2 _ Hl. destruct Hl as [|x y l1 l2 Hx Hl]; [reflexivity|].
    simpl. apply foldl_zip_update_sle; [apply null_join_fle|done..].
  - intros bb s Hbb Hs. eapply wp_mono; [by apply wp_transfer_nullability|].
    intros s' [? _]. lia.
  - intros bb s1 s2 r1 r2 Hbb Hl Hle H1 H2. unfold transfer_nullability in *.
    apply bind_Done in H1 as (blk & Hblk & H1). rewrite Hblk in H2.
    by eapply transfer_stmts_nullability_mono.
Qed.

#[local] Instance null_analysis_inst : Analysis NullState.t := null_analysis b g.
#[local] Instance null_laws_inst : AnalysisLaws g (length (locals b)) := null_laws.

(** The states of the blocks are sound for executions. *)
Definition null_sound (ins : list (list NullState.t)) : Prop :=
  forall x, reachable g x -> exists i, ins !! x = Some i /\ length i = length (locals b) /\
    forall ρ, runs_to b g x ρ -> nagrees ρ i.

Lemma initial_nagrees ρ n : nagrees ρ (replicate n NullState.Unknown).
Proof. intros l s v [-> _]%lookup_replicate_1 _. done. Qed.

(** A solution of the equations is sound: executions follow the equations. *)
Lemma null_solution_sound ins outs :
  solved g (length (locals b)) reach (fun _ _ => True) ins outs -> null_sound ins.
Proof.
  intros (Hsi & Hso & _ & Heq) x Hx. destruct (Heq x (proj2 (Hreach x) Hx)) as (i & o & Hi & Ho & He).
  destruct (eval_block_inv g _ (cf_wf b g Hg) reach Hrlen Hreach outs x i o Hso Hx He) as (_ & Hil & _).
  exists i. split_and!; [done..|]. intros ρ Hr.
  enough (forall x ρ, runs_to b g x ρ -> forall i, ins !! x = Some i -> nagrees ρ i) by eauto.
  clear -Hwf Hg Hrlen Hreach Hsi Hso Heq. apply (runs_to_ind b g (fun x ρ => forall i, ins !! x = Some i -> nagrees ρ i)).
  - intros ρ _ i Hi. destruct (Heq _ (proj2 (Hreach _) (rtc_refl _ _))) as (i' & o & Hi' & _ & He).
    simplify_eq. unfold eval_block, block_in in He. rewrite decide_True in He by done.
    run_inv. simplify_eq. apply initial_nagrees.
  - intros p ρ y ρ' Hr IH Hstep j Hj.
    pose proof (runs_to_reachable _ _ _ _ Hr) as Hp.
    pose proof (block_step_edge _ _ _ _ Hstep) as Hedge. simpl in Hedge.
    destruct Hstep as (blk & ρ1 & Hblk & Hss & Ht & Heq1). simpl in *. subst ρ1.
    assert (Hy : reachable g y) by by eapply rtc_r.
    destruct (Heq p (proj2 (Hreach p) Hp)) as (i & o & Hi & Ho & He).
    destruct (Heq y (proj2 (Hreach y) Hy)) as (j' & o' & Hj' & Ho' & He').
    simplify_eq.
    destruct (eval_block_inv g _ (cf_wf b g Hg) reach Hrlen Hreach outs _ _ _ Hso Hp He)
      as (_ & Hil & Hto).
    destruct (eval_block_inv g _ (cf_wf b g Hg) reach Hrlen Hreach outs _ _ _ Hso Hy He')
      as (Hbj & _ & _).
    pose proof (wp_transfer_nullability b Hwf g p i Hg (reachable_lt _ _ (cf_wf b g Hg) Hp) Hil) as Hw.
    simpl in Hto. rewrite Hto in Hw. destruct Hw as [_ Hw].
    assert (Hao : nagrees ρ' o) by (eapply Hw; eauto).
    destruct (decide (y = entry g)) as [->|Hne].
    { unfold block_in in Hbj. rewrite decide_True in Hbj by done. simpl in Hbj. simplify_eq.
      apply initial_nagrees. }
    destruct (block_in_inputs g _ (cf_wf b g Hg) reach Hrlen Hreach outs _ _ Hso Hy Hne Hbj)
      as (inputs & -> & _ & Hlen & Hel).
    pose proof (wp_edge_narrow_null b Hwf g p y o Hg Hedge) as (s' & Hs' & _ & Hn)%wp_inv.
    apply (join_nullability_agrees _ _ _ s'); [|by eapply Hn|done].
    apply Hel. by exists p, o.
Qed.

Lemma wp_null_states :
  wp (null_states b g reach) (fun '(ins, _) => null_sound ins).
Proof.
  unfold null_states. eapply wp_mono.
  - apply (wp_solve g (length (locals b)) (cf_wf b g Hg) reach Hrlen Hreach (fun _ _ => True)); [done| |done].
    split; [by rewrite length_replicate|]. apply Forall_replicate, length_replicate.
  - intros [ins outs] Hs. by eapply null_solution_sound.
Qed.

Lemma wp_block_null_diagnostics ins d i blk :
  null_sound ins -> blocks g !! i = Some blk ->
  wp (block_null_diagnostics b reach ins d (i, blk))
     (fun d' => d ⊆ d' /\
        forall s, reachable g i -> ins !! i = Some s -> nwalk_covers b blk s d').
Proof.
  intros Hins Hblk. unfold block_null_diagnostics.
  apply wp_bind, wp_idx; [rewrite Hrlen; by eapply lookup_lt_Some|]. intros r Hr.
  destruct r; simpl.
  - apply Hreach in Hr. destruct (Hins i Hr) as (s & Hs & Hsl & _).
    rewrite (proj2 (idx_Done _ _ _) Hs). simpl. apply wp_bind.
    eapply wp_mono; [eapply wp_nwalk; [done|by eapply cf_blocks|done]|].
    intros [s' d'] (Hd & Hc). simpl. split; [done|]. intros s2 _ Hs2. by simplify_eq.
  - split; [done|]. intros s Hri%Hreach. congruence.
Qed.

Lemma wp_null_deref_diagnostics :
  wp (null_deref_diagnostics b g reach)
     (fun d => exists ins, null_sound ins /\
        forall i blk s, reachable g i -> blocks g !! i = Some blk -> ins !! i = Some s ->
          nwalk_covers b blk s d).
Proof.
  eapply wp_seq; [apply wp_null_states|].
  intros [ins outs] Hsol. simpl. eapply wp_mono.
  - apply (wp_for_each _ (imap pair (blocks g)) (fun dn d =>
      forall i blk s, (i, blk) ∈ dn -> reachable g i -> ins !! i = Some s ->
        nwalk_covers b blk s d)); [set_solver|].
    intros dn [i blk] rest d Heq Hdn. apply imap_pair_split in Heq as [_ Hblk].
    eapply wp_mono; [by apply wp_block_null_diagnostics|].
    intros d' [Hd Hc] j blk' s [Hin|Hin]%elem_of_app Hj Hs.
    + eapply nwalk_covers_mono; [exact Hd|]. by eapply Hdn.
    + apply list_elem_of_singleton in Hin as [= -> ->]. by apply Hc.
  - intros d Hd. exists ins. split; [done|]. intros i blk s Hi Hblk Hs.
    apply (Hd i blk s); [|done..]. apply list_elem_of_lookup. exists i.
    by rewrite list_lookup_imap, Hblk.
Qed.

Lemma ncovers_evaluates d ins ρ e x :
  null_sound ins ->
  (forall i blk s, reachable g i -> blocks g !! i = Some blk -> ins !! i = Some s ->
     nwalk_covers b blk s d) ->
  evaluates b g ρ e -> null_deref b ρ e x ->
  exists dg, dg ∈ d /\ reports_null b x dg.
Proof.
  intros Hsol Hd Hev Hu.
  destruct Hev as [bb blk ρ0 pre st post sd e Hr Hblk Hsplit Hpre Hsd He
    |bb blk ρ0 e Hr Hblk Hss He].
  all: pose proof (runs_to_reachable _ _ _ _ Hr) as Hx.
  all: destruct (Hsol bb Hx) as (i & Hi & Hil & Ha); specialize (Ha ρ0 Hr).
  all: destruct (cf_blocks _ _ Hg _ _ Hblk) as [Hleaf _].
  - rewrite Hsplit in Hleaf. apply Forall_app in Hleaf as [Hleaf _].
    pose proof (wp_transfer_stmts_nullability b Hwf pre i Hleaf Hil) as (s & Hs & _ & Hag)%wp_inv.
    eapply (proj1 (Hd bb blk i Hx Hblk Hi)); [done..| |done]. by eapply Hag.
  - pose proof (wp_transfer_stmts_nullability b Hwf _ i Hleaf Hil) as (s & Hs & _ & Hag)%wp_inv.
    eapply (proj2 (Hd bb blk i Hx Hblk Hi)); [|done|by eapply Hag|done].
    destruct (bb_term blk) as [| | | |[v|]| |]; simpl; naive_solver set_solver.
Qed.
End NullAnalysis.

(** ** Theorems *)

(** A condition tells the truth.  When [null_constraints] returns constraints for a
    condition, they hold of every locals with which the condition evaluates to [true],
    respectively to [false]; and on a well-formed body it returns. *)
Theorem null_constraints_sound b e :
  wf_body b -> e < length (exprs b) ->
  exists on_true on_false, null_constraints b e = Done (on_true, on_false) /\
    forall ρ, (eval b ρ e (VBool true) -> Forall (holds ρ) on_true) /\
              (eval b ρ e (VBool false) -> Forall (holds ρ) on_false).
Proof.
  intros Hwf He. pose proof (wp_null_constraints b Hwf e He) as ([t f] & Hc & Hs)%wp_inv. eauto.
Qed.

Lemma null_constraints_sound_witness :
  exists on_true on_false, null_constraints sample_body 2 = Done (on_true, on_false) /\
    forall ρ, (eval sample_body ρ 2 (VBool true) -> Forall (holds ρ) on_true) /\
              (eval sample_body ρ 2 (VBool false) -> Forall (holds ρ) on_false).
Proof.
  apply (null_constraints_sound sample_body 2); [|vm_compute; lia].
  apply wf_bodyb_sound. vm_compute. reflexivity.
Defined.

(** The two transfer functions of the source agree.  Walking the statements of a block
    with [transfer_stmt_null_deref], which reports, and with [transfer_stmt_nullability],
    which the solver uses, gives the same state: the reports are made in the states that were
    solved for. *)
Theorem null_transfers_agree b ss state diags :
  wf_body b -> Forall (leaf_stmt b) ss -> length state = length (locals b) ->
  exists state' diags',
    for_each (transfer_stmt_null_deref b) ss (state, diags) = Done (state', diags') /\
    for_each (transfer_stmt_nullability b) ss state = Done state' /\ diags ⊆ diags'.
Proof.
  intros Hwf Hss Hl.
  pose proof (wp_nwalk_stmts b Hwf ss state diags Hss Hl) as ([s d] & H1 & H2 & H3 & _)%wp_inv.
  eauto.
Qed.

Lemma null_transfers_agree_witness :
  exists state' diags',
    for_each (transfer_stmt_null_deref sample_body) [1; 4]
      ([NullState.Null; NullState.Unknown], []) = Done (state', diags') /\
    for_each (transfer_stmt_nullability sample_body) [1; 4]
      [NullState.Null; NullState.Unknown] = Done state' /\ [] ⊆ diags'.
Proof.
  apply (null_transfers_agree sample_body [1; 4] [NullState.Null; NullState.Unknown] []);
    [exact sample_body_wf| |reflexivity].
  constructor; [eexists; split; [reflexivity|exact I]|].
  constructor; [eexists; split; [reflexivity|exact I]|constructor].
Defined.

(** C28: the nullability states are sound.  On the graph of a well-formed body the analysis
    returns, and whenever an execution arrives at a block, every assigned local that the state
    of the block marks [Null] holds [null] and every one it marks [NonNull] does not. *)
Theorem null_states_sound b :
  wf_body b ->
  exists g reach ins outs,
    build_cfg b = Done g /\ reachable_blocks g = Done reach /\
    null_states b g reach = Done (ins, outs) /\
    forall x ρ, runs_to b g x ρ -> exists i, ins !! x = Some i /\ nagrees ρ i.
Proof.
  intros Hwf. pose proof (wp_build_cfg b Hwf) as (g & Hb & Hg)%wp_inv.
  pose proof (wp_reachable_blocks g (cf_wf b g Hg)) as (reach & Hr & Hrlen & Hreach)%wp_inv.
  pose proof (wp_null_states b g Hwf Hg reach Hrlen Hreach) as ([ins outs] & Hs & Hsol)%wp_inv.
  exists g, reach, ins, outs. split_and!; [done..|]. intros x ρ Hrun.
  destruct (Hsol x (runs_to_reachable _ _ _ _ Hrun)) as (i & Hi & _ & Ha). eauto.
Qed.

Lemma null_states_sound_witness :
  exists g reach ins outs,
    build_cfg sample_body = Done g /\ reachable_blocks g = Done reach /\
    null_states sample_body g reach = Done (ins, outs) /\
    forall x ρ, runs_to sample_body g x ρ -> exists i, ins !! x = Some i /\ nagrees ρ i.
Proof. apply (null_states_sound sample_body), wf_bodyb_sound. vm_compute. reflexivity. Defined.
