(* ===== verification/Analyze.v ===== *)
(** * The flow analysis of a method body (crates/nova-flow/src/flow.rs)

    [unreachable_diagnostics] and [analyze], which lowers a body to a graph, runs the three
    analyses, drops repeated reports and sorts.  The theorems are about what a user of
    [analyze] gets: it returns on every well-formed body, the reports are sorted and not
    repeated, unreachable code is not executed, and the faults an execution can perform are
    reported as long as the analyses are within their budget. *)

From stdpp Require Import base list numbers strings option relations sets gmap.
From Stdlib Require Import Sorting.Sorted.
From S2P Require Import Prelude Sorting HirBody Cfg CfgBuild CfgBuildWf Dataflow FlowDiag Exec.
From S2P Require Import DefAssign NullFlow.

(** ** Unreachable code *)

(** The statements of the reachable blocks: one iteration of the first loop. *)
Definition collect_reachable (reach : list bool) (acc : gset nat) (ib : nat * BasicBlock)
    : run (gset nat) :=
  let '(i, bb) := ib in
  r ← idx reach i;
  if negb r then Done acc
  else
    let acc := acc ∪ list_to_set (bb_stmts bb) in
    Done (match from_stmt (bb_term bb) with Some st => {[st]} ∪ acc | None => acc end).

(** [bb.stmts.first().copied().or_else(..)]. *)
Definition first_stmt (bb : BasicBlock) : option StmtId :=
  match head (bb_stmts bb) with
  | Some st => Some st
  | None => from_stmt (bb_term bb)
  end.

Definition unreachable_message : string := "unreachable code".

(** One iteration of the second loop. *)
Definition report_unreachable_block (b : Body) (reach : list bool) (reachable_stmts : gset nat)
    (diags : list Diagnostic) (ib : nat * BasicBlock) : run (list Diagnostic) :=
  let '(i, bb) := ib in
  r ← idx reach i;
  if r : bool then Done diags
  else
    match first_stmt bb with
    | None => Done diags
    | Some st =>
        if decide (st ∈ reachable_stmts) then Done diags
        else
          sd ← stmt b st;
          Done (diags ++ [diagnostic UnreachableCode (Some (stmt_span sd)) unreachable_message])
    end.

Definition unreachable_diagnostics (b : Body) (g : ControlFlowGraph) (reach : list bool)
    : run (list Diagnostic) :=
  reachable_stmts ← for_each (collect_reachable reach) (imap pair (blocks g)) ∅;
  for_each (report_unreachable_block b reach reachable_stmts) (imap pair (blocks g)) [].

(** ** [analyze] *)

Record FlowAnalysisResult := mkResult {
  res_cfg : ControlFlowGraph;
  res_reachable : list bool;
  res_diagnostics : list Diagnostic
}.

Definition usize_max : N := 2 ^ 64 - 1.

Definition MAX_DATAFLOW_STATE_CELLS : N := 5000000.

(** [usize::saturating_mul]. *)
Definition saturating_mul (x y : N) : N := N.min (x * y) usize_max.

Definition dataflow_state_cells (b : Body) (g : ControlFlowGraph) : N :=
  saturating_mul (N.of_nat (length (blocks g))) (N.of_nat (length (locals b))).

(** [diagnostics.retain(|d| seen.insert((d.code.clone(), d.span)))]. *)
Fixpoint retain_new (seen : list (string * option Span)) (l : list Diagnostic)
    : list Diagnostic :=
  match l with
  | [] => []
  | d :: l =>
      if decide ((code d, span d) ∈ seen) then retain_new seen l
      else d :: retain_new ((code d, span d) :: seen) l
  end.

(** A diagnostic without a span is sorted as if it were at the end of the largest file. *)
Definition sort_span (d : Diagnostic) : Span :=
  default (mkSpan usize_max usize_max) (span d).

Definition compare_diagnostics (a b : Diagnostic) : comparison :=
  then_with (then_with (then_with
    (N.compare (span_start (sort_span a)) (span_start (sort_span b)))
    (N.compare (span_end (sort_span a)) (span_end (sort_span b))))
    (String.compare (code a) (code b)))
    (String.compare (message a) (message b)).

(** The analyses that need a state per block and local. *)
Definition dataflow_diagnostics (b : Body) (config : FlowConfig) (g : ControlFlowGraph)
    (reach : list bool) (diags : list Diagnostic) : run (list Diagnostic) :=
  if decide (dataflow_state_cells b g <= MAX_DATAFLOW_STATE_CELLS)%N then
    assigned ← definite_assignment_diagnostics b g reach;
    let diags := diags ++ assigned in
    if report_possible_null_deref config then
      nulls ← null_deref_diagnostics b g reach;
      Done (diags ++ nulls)
    else Done diags
  else Done diags.

Definition analyze (b : Body) (config : FlowConfig) : run FlowAnalysisResult :=
  g ← build_cfg b;
  reach ← reachable_blocks g;
  diags ← (if report_unreachable config then unreachable_diagnostics b g reach else Done []);
  diags ← dataflow_diagnostics b config g reach diags;
  Done (mkResult g reach (sort_by compare_diagnostics (retain_new [] diags))).

(** ** Dropping repeated reports *)

Lemma elem_retain_new seen l d :
  d ∈ retain_new seen l -> d ∈ l /\ (code d, span d) ∉ seen.
Proof.
  revert seen; induction l as [|x l IH]; intros seen Hd; simpl in Hd; [by apply not_elem_of_nil in Hd|].
  case_decide as Hx.
  - apply IH in Hd as [? ?]. split; [by right|done].
  - apply elem_of_cons in Hd as [->|Hd]; [split; [by left|done]|].
    apply IH in Hd as [? ?]. split; [by right|set_solver].
Qed.

Lemma retain_new_nodup seen l : NoDup ((fun d => (code d, span d)) <$> retain_new seen l).
Proof.
  revert seen; induction l as [|x l IH]; intros seen; simpl; [constructor|].
  case_decide; [done|]. rewrite fmap_cons. constructor; [|done].
  intros (d & Heq & [_ Hd]%elem_retain_new)%list_elem_of_fmap. apply Hd. rewrite <-Heq. by left.
Qed.

(** Each report is represented by one with the same code and span. *)
Lemma retain_new_complete seen l d :
  d ∈ l -> (code d, span d) ∉ seen ->
  exists d', d' ∈ retain_new seen l /\ code d' = code d /\ span d' = span d.
Proof.
  revert seen; induction l as [|x l IH]; intros seen Hd Hn; [by apply not_elem_of_nil in Hd|].
  simpl. apply elem_of_cons in Hd as [->|Hd].
  - rewrite decide_False by done. exists x. split; [by left|done].
  - case_decide as Hx; [by apply IH|].
    destruct (decide ((code d, span d) = (code x, span x))) as [[= Hc Hs]|Hne].
    + exists x. split; [by left|done].
    + destruct (IH ((code x, span x) :: seen) Hd) as (d' & ? & ?); [set_solver|].
      exists d'. split; [by right|done].
Qed.

Global Instance compare_diagnostics_laws : CmpLaws compare_diagnostics.
Proof.
  unfold compare_diagnostics. repeat apply then_with_laws.
  - apply (cmp_on_laws (fun d => span_start (sort_span d)) N.compare _).
  - apply (cmp_on_laws (fun d => span_end (sort_span d)) N.compare _).
  - apply (cmp_on_laws code String.compare _).
  - apply (cmp_on_laws message String.compare _).
Qed.

(** ** Unreachable statements *)

(** [st] is in the block, as one of its statements or as the origin of its terminator. *)
Definition mentions (bb : BasicBlock) (st : StmtId) : Prop :=
  st ∈ bb_stmts bb \/ from_stmt (bb_term bb) = Some st.

Definition in_reachable_block (g : ControlFlowGraph) (st : StmtId) : Prop :=
  exists i bb, reachable g i /\ blocks g !! i = Some bb /\ mentions bb st.

(** The report of an unreachable block. *)
Definition unreachable_report (b : Body) (g : ControlFlowGraph) (d : Diagnostic) (i : BlockId)
    : Prop :=
  exists bb st sd, blocks g !! i = Some bb /\ ~ reachable g i /\ first_stmt bb = Some st /\
    ~ in_reachable_block g st /\ stmts b !! st = Some sd /\
    d = diagnostic UnreachableCode (Some (stmt_span sd)) unreachable_message.

(** *** The reference: what is reported *)

(** The statement a terminator was made for. *)
Inductive origin : Terminator.t -> StmtId -> Prop :=
| origin_goto target st : origin (Terminator.Goto target (Some st)) st
| origin_if c t e st : origin (Terminator.If c t e st) st
| origin_switch e ts st : origin (Terminator.Switch e ts st) st
| origin_multi ts st : origin (Terminator.Multi ts st) st
| origin_return v st : origin (Terminator.Return v st) st
| origin_throw e st : origin (Terminator.Throw e st) st.

(** [st] is in the block; it is the first one there. *)
Definition holds (bb : BasicBlock) (st : StmtId) : Prop := st ∈ bb_stmts bb \/ origin (bb_term bb) st.
Definition starts (bb : BasicBlock) (st : StmtId) : Prop :=
  (exists rest, bb_stmts bb = st :: rest) \/ bb_stmts bb = [] /\ origin (bb_term bb) st.

(** The block [i] cannot be reached, and its first statement [st] is in no block that can. *)
Definition dead (g : ControlFlowGraph) (i : BlockId) (st : StmtId) : Prop :=
  exists bb, blocks g !! i = Some bb /\ starts bb st /\ ~ reachable g i /\
    forall x bb', reachable g x -> blocks g !! x = Some bb' -> ~ holds bb' st.

Lemma origin_iff t st : from_stmt t = Some st <-> origin t st.
Proof. split; [destruct t as [? []| | | | | |]; simpl; intros [= ->]; constructor|by intros []]. Qed.

Lemma holds_iff bb st : mentions bb st <-> holds bb st.
Proof. unfold mentions, holds. by rewrite origin_iff. Qed.

Lemma starts_iff bb st : first_stmt bb = Some st <-> starts bb st.
Proof.
  unfold first_stmt, starts. destruct (bb_stmts bb) as [|s ss]; simpl.
  - rewrite origin_iff. naive_solver.
  - naive_solver.
Qed.

Lemma dead_iff g i st : dead g i st <->
  exists bb, blocks g !! i = Some bb /\ ~ reachable g i /\ first_stmt bb = Some st /\ ~ in_reachable_block g st.
Proof.
  unfold dead, in_reachable_block. setoid_rewrite <-starts_iff. setoid_rewrite <-holds_iff. naive_solver.
Qed.

Section Unreachable.
Context (b : Body) (g : ControlFlowGraph) (Hwf : wf_body b) (Hg : cfg_for b g).
Context (reach : list bool) (Hrlen : length reach = length (blocks g)).
Context (Hreach : forall x, reach !! x = Some true <-> reachable g x).

Lemma wp_collect_reachable :
  wp (for_each (collect_reachable reach) (imap pair (blocks g)) ∅)
     (fun s => forall st, st ∈ s <-> in_reachable_block g st).
Proof.
  eapply wp_mono.
  - apply (wp_for_each _ (imap pair (blocks g)) (fun dn s => forall st, st ∈ s <->
      exists i bb, (i, bb) ∈ dn /\ reachable g i /\ mentions bb st)); [set_solver|].
    intros dn [i bb] rest s Heq Hs. apply imap_pair_split in Heq as [_ Hbb].
    apply wp_bind, wp_idx; [rewrite Hrlen; by eapply lookup_lt_Some|]. intros r Hr.
    destruct r; simpl; intros st.
    + apply Hreach in Hr. unfold mentions in *.
      destruct (from_stmt (bb_term bb)) as [t|] eqn:Et; set_unfold; rewrite Hs; split.
      * intros [->|[(j & bb' & ?)|?]]; [exists i, bb|exists j, bb'|exists i, bb]; naive_solver.
      * intros (j & bb' & [?|[[= -> ->]|[]]] & Hj & Hm); [right; left; eauto|].
        destruct Hm; [tauto|]. left. congruence.
      * intros [(j & bb' & ?)|?]; [exists j, bb'|exists i, bb]; naive_solver.
      * intros (j & bb' & [?|[[= -> ->]|[]]] & Hj & Hm); [left; eauto|].
        destruct Hm; [tauto|]. congruence.
    + assert (Hni : ~ reachable g i) by (intros Hri%Hreach; congruence).
      rewrite Hs. set_unfold. split; intros (j & bb' & H1 & H2 & H3); exists j, bb'; [tauto|].
      destruct H1 as [?|[[= -> ->]|[]]]; [done|tauto].
  - intros s Hs st. cbv beta in Hs. rewrite Hs. split; intros (i & bb & H1 & H2 & H3); exists i, bb.
    + split_and!; [done| |done]. apply list_elem_of_lookup in H1 as [j Hj].
      rewrite list_lookup_imap in Hj. destruct (blocks g !! j) eqn:E; naive_solver.
    + split_and!; [|done|done]. apply list_elem_of_lookup. exists i.
      by rewrite list_lookup_imap, H2.
Qed.

Lemma first_stmt_lt i bb st :
  blocks g !! i = Some bb -> first_stmt bb = Some st -> st < length (stmts b).
Proof.
  intros Hbb Hf. destruct (cf_blocks _ _ Hg _ _ Hbb) as [Hss Ht]. unfold first_stmt in Hf.
  destruct (bb_stmts bb) as [|s ss] eqn:E; simpl in Hf.
  - by eapply tok_from.
  - injection Hf as <-. apply Forall_cons in Hss as [(sd & Hsd & _) _]. by eapply lookup_lt_Some.
Qed.

(** The report for the statement [st]. *)
Definition report_of (st : StmtId) (dg : Diagnostic) : Prop :=
  exists sd, stmts b !! st = Some sd /\ dg = diagnostic UnreachableCode (Some (stmt_span sd)) unreachable_message.

(** What is reported: [picks] are the blocks with their first statements. *)
Definition blocks_reported (n : nat) (picks : list (BlockId * StmtId)) (d : list Diagnostic) : Prop :=
  StronglySorted lt picks.*1 /\ (forall i st, (i, st) ∈ picks <-> i < n /\ dead g i st) /\
  Forall2 (fun p => report_of p.2) picks d.

Lemma blocks_reported_skip n picks d : blocks_reported n picks d -> (forall st, ~ dead g n st) -> blocks_reported (S n) picks d.
Proof.
  intros (H1 & H2 & H3) Hn. split_and!; [done| |done]. intros i st. rewrite H2. split; [intros [? ?]; split; [lia|done]|].
  intros [Hi Hd]. split; [|done]. destruct (decide (i = n)) as [->|]; [by apply Hn in Hd|lia].
Qed.

Lemma sorted_snoc l n : StronglySorted lt l -> (forall i, i ∈ l -> i < n) -> StronglySorted lt (l ++ [n]).
Proof.
  induction 1 as [|i l Hl IH Hi]; intros Hn; simpl; [repeat constructor|]. constructor.
  - apply IH. intros j ?. apply Hn. by right.
  - apply Forall_app. split; [done|]. constructor; [|constructor]. apply Hn. by left.
Qed.

Lemma blocks_reported_add n picks d st dg : blocks_reported n picks d -> dead g n st -> report_of st dg ->
  blocks_reported (S n) (picks ++ [(n, st)]) (d ++ [dg]).
Proof.
  intros (H1 & H2 & H3) Hd Hr. split_and!.
  - rewrite fmap_app. apply sorted_snoc; [done|]. intros i ([j st'] & -> & [? _]%H2)%list_elem_of_fmap. done.
  - intros i st'. rewrite elem_of_app, list_elem_of_singleton, H2. split.
    + intros [[? ?]|[= -> ->]]; split; (lia || done).
    + intros [Hi Hd']. destruct (decide (i = n)) as [->|]; [|left; split; [lia|done]]. right.
      apply dead_iff in Hd as (bb & Hbb & _ & Hf & _). apply dead_iff in Hd' as (bb' & Hbb' & _ & Hf' & _). by simplify_eq.
  - apply Forall2_app; [done|]. by constructor.
Qed.

(** The reports are those of the unreachable blocks, in the order of the blocks. *)
Lemma wp_unreachable_exact :
  wp (unreachable_diagnostics b g reach) (fun d => exists picks, blocks_reported (length (blocks g)) picks d).
Proof.
  eapply wp_seq; [apply wp_collect_reachable|]. intros rs Hrs.
  eapply wp_mono.
  - apply (wp_for_each _ (imap pair (blocks g)) (fun dn d => exists picks, blocks_reported (length dn) picks d)).
    { exists []. split_and!; [constructor| |constructor]. intros i st. rewrite elem_of_nil. simpl. lia. }
    intros dn [i bb] rest d Heq (picks & Hp). apply imap_pair_split in Heq as [Hi Hbb]. simpl in Hi. subst i.
    rewrite length_app, Nat.add_1_r. apply wp_bind, wp_idx; [rewrite Hrlen; by eapply lookup_lt_Some|]. intros r Hr.
    assert (Hdead : forall st, dead g (length dn) st -> reach !! length dn = Some false /\ first_stmt bb = Some st /\ st ∉ rs).
    { intros st (bb' & Hbb' & Hn & Hf & Hnr)%dead_iff. simplify_eq. split_and!; [|done|intros Hin; by apply Hnr, Hrs].
      destruct r; [|done]. by apply Hreach in Hr. }
    destruct r.
    { exists picks. apply blocks_reported_skip; [done|]. intros st (? & _)%Hdead. congruence. }
    assert (Hni : ~ reachable g (length dn)) by (intros Hri%Hreach; congruence).
    destruct (first_stmt bb) as [st|] eqn:Ef.
    2:{ exists picks. apply blocks_reported_skip; [done|]. by intros st (_ & ? & _)%Hdead. }
    case_decide as Hst.
    { exists picks. apply blocks_reported_skip; [done|]. intros st' (_ & [= <-] & ?)%Hdead. done. }
    apply wp_bind, wp_stmt; [by eapply first_stmt_lt|]. intros sd Hsd.
    exists (picks ++ [(length dn, st)]). apply blocks_reported_add; [done| |by exists sd].
    apply dead_iff. exists bb. split_and!; [done..|]. intros Hin. by apply Hst, Hrs.
  - intros d Hd. by rewrite length_imap in Hd.
Qed.

Lemma wp_unreachable_diagnostics :
  wp (unreachable_diagnostics b g reach)
     (fun d => (forall dg, dg ∈ d -> exists i, unreachable_report b g dg i) /\
        forall i bb st, blocks g !! i = Some bb -> ~ reachable g i -> first_stmt bb = Some st ->
          ~ in_reachable_block g st -> exists dg, dg ∈ d /\ unreachable_report b g dg i).
Proof.
  eapply wp_mono; [apply wp_unreachable_exact|]. intros d (picks & _ & Hp & Hd).
  assert (Hrep : forall i st dg, (i, st) ∈ picks -> report_of st dg -> unreachable_report b g dg i).
  { intros i st dg [_ (bb & ? & ? & ? & ?)%dead_iff]%Hp (sd & ? & ->). by exists bb, st, sd. }
  split.
  - intros dg [k Hk]%list_elem_of_lookup. destruct (Forall2_lookup_r _ _ _ _ _ Hd Hk) as ([i st] & Hi & Hr).
    exists i. eapply Hrep; [by eapply list_elem_of_lookup_2|done].
  - intros i bb st Hbb Hn Hf Hnr. assert (Hin : (i, st) ∈ picks).
    { apply Hp. split; [by eapply lookup_lt_Some|]. apply dead_iff. by exists bb. }
    apply list_elem_of_lookup in Hin as [k Hk]. destruct (Forall2_lookup_l _ _ _ _ _ Hd Hk) as (dg & Hdg & Hr).
    exists dg. split; [by eapply list_elem_of_lookup_2|]. eapply Hrep; [by eapply list_elem_of_lookup_2|done].
Qed.
End Unreachable.

(** ** The whole analysis *)

(** A report with the code of [kind] at [sp]. *)
Definition reported (r : FlowAnalysisResult) (kind : FlowDiagnosticKind) (sp : Span) : Prop :=
  exists d, d ∈ res_diagnostics r /\ code d = code (diagnostic kind (Some sp) "") /\
    span d = Some sp.

Definition within_budget (b : Body) (g : ControlFlowGraph) : Prop :=
  (dataflow_state_cells b g <= MAX_DATAFLOW_STATE_CELLS)%N.

Lemma reported_intro g reach l d sp kind :
  d ∈ l -> code d = code (diagnostic kind (Some sp) "") -> span d = Some sp ->
  reported (mkResult g reach (sort_by compare_diagnostics (retain_new [] l))) kind sp.
Proof.
  intros Hd Hc Hs.
  destruct (retain_new_complete [] l d Hd (not_elem_of_nil _)) as (d' & Hd' & Hc' & Hs').
  exists d'. split_and!; [by apply elem_of_sort_by|congruence..].
Qed.

(** What the result of [analyze] satisfies. *)
Record analysis_ok (b : Body) (config : FlowConfig) (r : FlowAnalysisResult) : Prop := {
  ok_cfg : build_cfg b = Done (res_cfg r) /\ cfg_for b (res_cfg r);
  ok_reach : length (res_reachable r) = length (blocks (res_cfg r)) /\
    forall x, res_reachable r !! x = Some true <-> reachable (res_cfg r) x;
  ok_unassigned : within_budget b (res_cfg r) ->
    forall ρ e x l xd, evaluates b (res_cfg r) ρ e -> unassigned_read b ρ e x l ->
      exprs b !! x = Some xd -> reported r UseBeforeAssignment (expr_span xd);
  ok_null : within_budget b (res_cfg r) -> report_possible_null_deref config = true ->
    forall ρ e x xd, evaluates b (res_cfg r) ρ e -> null_deref b ρ e x ->
      exprs b !! x = Some xd -> reported r PossibleNullDereference (expr_span xd);
  ok_unreachable : report_unreachable config = true ->
    forall i bb st sd, blocks (res_cfg r) !! i = Some bb -> ~ reachable (res_cfg r) i ->
      first_stmt bb = Some st -> ~ in_reachable_block (res_cfg r) st -> stmts b !! st = Some sd ->
      reported r UnreachableCode (stmt_span sd)
}.

Section Analyze.
Context (b : Body) (g : ControlFlowGraph) (Hwf : wf_body b) (Hg : cfg_for b g).
Context (reach : list bool) (Hrlen : length reach = length (blocks g)).
Context (Hreach : forall x, reach !! x = Some true <-> reachable g x).

(** The diagnostics before they are deduplicated and sorted. *)
Lemma wp_dataflow_diagnostics config diags :
  wp (dataflow_diagnostics b config g reach diags) (fun l => diags ⊆ l /\
    (within_budget b g -> forall ρ e x l', evaluates b g ρ e -> unassigned_read b ρ e x l' ->
       exists d, d ∈ l /\ reports b x l' d) /\
    (within_budget b g -> report_possible_null_deref config = true -> forall ρ e x,
       evaluates b g ρ e -> null_deref b ρ e x -> exists d, d ∈ l /\ reports_null b x d)).
Proof.
  unfold dataflow_diagnostics, within_budget. case_decide as Hb; [|split_and!; done].
  eapply wp_seq.
  { by apply (wp_definite_assignment_diagnostics b g Hwf Hg reach Hrlen Hreach (fun _ _ => True)). }
  intros da (ins & outs & Hsol & Hcov).
  assert (Hda : forall ρ e x l', evaluates b g ρ e -> unassigned_read b ρ e x l' ->
    exists d, d ∈ da /\ reports b x l' d).
  { intros ρ e x l' Hev Hu. by eapply (covers_evaluates b g Hwf). }
  destruct (report_possible_null_deref config).
  - eapply wp_seq.
    { by apply (wp_null_deref_diagnostics b g Hwf Hg reach Hrlen Hreach). }
    intros nd (nins & Hns & Hncov). split_and!; [set_solver| |].
    + intros _ ρ e x l' Hev Hu. destruct (Hda ρ e x l' Hev Hu) as (d & ? & ?).
      exists d. set_solver.
    + intros _ _ ρ e x Hev Hu.
      destruct (ncovers_evaluates b g Hwf Hg reach Hrlen Hreach nd nins ρ e x Hns Hncov Hev Hu) as (d & ? & ?).
      exists d. set_solver.
  - split_and!; [set_solver| |done].
    intros _ ρ e x l' Hev Hu. destruct (Hda ρ e x l' Hev Hu) as (d & ? & ?). exists d. set_solver.
Qed.

Lemma wp_first_diagnostics config :
  wp (if report_unreachable config then unreachable_diagnostics b g reach else Done [])
     (fun d => report_unreachable config = true ->
        forall i bb st sd, blocks g !! i = Some bb -> ~ reachable g i ->
          first_stmt bb = Some st -> ~ in_reachable_block g st -> stmts b !! st = Some sd ->
          exists dg, dg ∈ d /\
            dg = diagnostic UnreachableCode (Some (stmt_span sd)) unreachable_message).
Proof.
  destruct (report_unreachable config); [|done].
  eapply wp_mono; [by apply wp_unreachable_diagnostics|].
  intros d [_ Hd] _ i bb st sd Hbb Hn Hf Hnr Hsd.
  destruct (Hd i bb st Hbb Hn Hf Hnr) as (dg & Hdg & bb' & st' & sd' & ? & _ & ? & _ & ? & ->).
  simplify_eq. eauto.
Qed.
End Analyze.

Lemma wp_analyze b config : wf_body b -> wp (analyze b config) (analysis_ok b config).
Proof.
  intros Hwf. unfold analyze.
  pose proof (wp_build_cfg b Hwf) as (g & Hb & Hg)%wp_inv. rewrite Hb. simpl.
  eapply wp_seq; [apply (wp_reachable_blocks g (cf_wf b g Hg))|].
  intros reach [Hrlen Hreach]. apply wp_bind.
  eapply wp_mono; [by apply (wp_first_diagnostics b g)|]. intros ud Hud. apply wp_bind.
  eapply wp_mono; [by apply (wp_dataflow_diagnostics b g)|]. intros l (Hsub & Hua & Hnd).
  split; simpl; [done..| | |].
  - intros Hbud ρ e x l' xd Hev Hu Hx.
    destruct (Hua Hbud ρ e x l' Hev Hu) as (d & Hd & xd' & lx & ? & _ & ->). simplify_eq.
    by eapply reported_intro.
  - intros Hbud Hc ρ e x xd Hev Hu Hx.
    destruct (Hnd Hbud Hc ρ e x Hev Hu) as (d & Hd & xd' & ? & ->). simplify_eq.
    by eapply reported_intro.
  - intros Hc i bb st sd Hbb Hn Hf Hnr Hsd.
    destruct (Hud Hc i bb st sd Hbb Hn Hf Hnr Hsd) as (dg & Hdg & ->).
    eapply reported_intro; [by apply Hsub|done..].
Qed.

(** ** Theorems *)

(** C1: [analyze] returns on every well-formed body, whatever the configuration: no index is
    out of range, no [unreachable!] is reached and every loop ends.  The reachability flags of
    the result are exact. *)
Theorem analyze_total b config :
  wf_body b ->
  exists r, analyze b config = Done r /\ build_cfg b = Done (res_cfg r) /\
    forall x, res_reachable r !! x = Some true <-> reachable (res_cfg r) x.
Proof.
  intros Hwf. pose proof (wp_analyze b config Hwf) as (r & Hr & [[H1 _] [_ H2] _ _ _])%wp_inv. eauto.
Qed.

Lemma analyze_total_witness :
  exists r, analyze sample_body default_config = Done r /\
    build_cfg sample_body = Done (res_cfg r) /\
    forall x, res_reachable r !! x = Some true <-> reachable (res_cfg r) x.
Proof.
  apply (analyze_total sample_body default_config), wf_bodyb_sound. vm_compute. reflexivity.
Defined.

(** C4: no read of an unassigned local escapes.  If an execution of the body's graph evaluates
    an expression that reads a local before it is assigned, [analyze] reports
    [FLOW_UNASSIGNED] at that read, provided the analysis is within its budget. *)
Theorem analyze_reports_unassigned b config r ρ e x l xd :
  wf_body b -> analyze b config = Done r -> within_budget b (res_cfg r) ->
  evaluates b (res_cfg r) ρ e -> unassigned_read b ρ e x l -> exprs b !! x = Some xd ->
  reported r UseBeforeAssignment (expr_span xd).
Proof.
  intros Hwf Hr Hb Hev Hu Hx. pose proof (wp_analyze b config Hwf) as Hw. rewrite Hr in Hw.
  by eapply (ok_unassigned _ _ _ Hw).
Qed.

(** C5: no dereference of [null] escapes.  If an execution of the body's graph evaluates a
    field access or a call on a receiver that is [null], [analyze] reports
    [FLOW_NULL_DEREF] at it, provided the report is enabled and the analysis within its
    budget. *)
Theorem analyze_reports_null_deref b config r ρ e x xd :
  wf_body b -> analyze b config = Done r -> within_budget b (res_cfg r) ->
  report_possible_null_deref config = true ->
  evaluates b (res_cfg r) ρ e -> null_deref b ρ e x -> exprs b !! x = Some xd ->
  reported r PossibleNullDereference (expr_span xd).
Proof.
  intros Hwf Hr Hb Hc Hev Hu Hx. pose proof (wp_analyze b config Hwf) as Hw. rewrite Hr in Hw.
  by eapply (ok_null _ _ _ Hw).
Qed.

(** The diagnostics of [analyze] are sorted by position, code and message, and no two have
    the same code and span. *)
Theorem analyze_sorted_unique b config r :
  analyze b config = Done r ->
  StronglySorted (cmp_le compare_diagnostics) (res_diagnostics r) /\
  NoDup ((fun d => (code d, span d)) <$> res_diagnostics r).
Proof.
  intros Hr. unfold analyze in Hr. run_inv. simpl. split.
  - apply sort_by_sorted. apply _.
  - rewrite sort_by_perm. apply retain_new_nodup.
Qed.

(** C36: Unreachable code is reported exactly.  [unreachable_diagnostics] returns one warning for
    each block that cannot be reached from the entry and whose first statement is in no block that
    can be reached, in the order of the blocks and with the span of that statement; and no
    execution of the graph arrives at such a block, or at another one that contains the statement. *)
Theorem unreachable_diagnostics_exact b :
  wf_body b ->
  exists g reach d picks, build_cfg b = Done g /\ reachable_blocks g = Done reach /\
    unreachable_diagnostics b g reach = Done d /\
    StronglySorted lt picks.*1 /\ (forall i st, (i, st) ∈ picks <-> dead g i st) /\
    Forall2 (fun p dg => exists sd, stmts b !! p.2 = Some sd /\
      dg = mkDiag Warning "FLOW_UNREACHABLE" "unreachable code" (Some (stmt_span sd))) picks d /\
    forall i st x bb ρ, (i, st) ∈ picks -> blocks g !! x = Some bb -> x = i \/ holds bb st -> ~ runs_to b g x ρ.
Proof.
  intros Hwf. pose proof (wp_build_cfg b Hwf) as (g & Hb & Hg)%wp_inv.
  pose proof (wp_reachable_blocks g (cf_wf b g Hg)) as (reach & Hr & Hrlen & Hreach)%wp_inv.
  pose proof (wp_unreachable_exact b g Hwf Hg reach Hrlen Hreach) as (d & Hd & picks & Hs & Hp & Hrep)%wp_inv.
  assert (Hp' : forall i st, (i, st) ∈ picks <-> dead g i st).
  { intros i st. rewrite Hp. split; [by intros [_ ?]|]. intros Hdd. split; [|done].
    destruct Hdd as (bb & Hbb & _). by eapply lookup_lt_Some. }
  exists g, reach, d, picks. split_and!; [done..|]. intros i st x bb ρ (bb0 & Hbb0 & _ & Hn & Hno)%Hp' Hbb [->|Hh] Hrun%runs_to_reachable.
  - done.
  - by eapply Hno.
Qed.

(** ** The theorems at work on the example *)

Definition sample_result : FlowAnalysisResult :=
  match analyze sample_body default_config with
  | Done r => r
  | _ => mkResult (mkCfg 0 [] []) [] []
  end.

Lemma sample_result_eq : analyze sample_body default_config = Done sample_result.
Proof. vm_compute. reflexivity. Qed.

(** With a parameter that is not [null], [x] is not assigned at the call. *)
Lemma sample_run_nonnull :
  runs_to sample_body (res_cfg sample_result) 4 [Some VOther; None].
Proof.
  exists [Some VOther; None]. split.
  { split; [done|]. intros [|[|l]] x [= <-]; simpl; eauto. }
  eapply rtc_l with (y := (3, [Some VOther; None])).
  { eexists _, _. split_and!; [reflexivity| | |reflexivity].
    - eapply (exec_snoc _ _ [] 0); [constructor|]. exact (exec_let_none sample_body [Some VOther; None] 0 _ 1 eq_refl).
    - eapply exec_else, eval_eq; [reflexivity|by eapply eval_local|by eapply eval_null|done]. }
  eapply rtc_l with (y := (4, [Some VOther; None])); [|constructor].
  eexists _, _. split_and!; [reflexivity|constructor|constructor|reflexivity].
Qed.

(** With [null], [x] is [null] at the call. *)
Lemma sample_run_null :
  runs_to sample_body (res_cfg sample_result) 4 [Some VNull; Some VNull].
Proof.
  exists [Some VNull; None]. split.
  { split; [done|]. intros [|[|l]] x [= <-]; simpl; eauto. }
  eapply rtc_l with (y := (2, [Some VNull; None])).
  { eexists _, _. split_and!; [reflexivity| | |reflexivity].
    - eapply (exec_snoc _ _ [] 0); [constructor|]. exact (exec_let_none sample_body [Some VNull; None] 0 _ 1 eq_refl).
    - eapply exec_then, eval_eq; [reflexivity|by eapply eval_local|by eapply eval_null|done]. }
  eapply rtc_l with (y := (4, [Some VNull; Some VNull])); [|constructor].
  eexists _, _. split_and!; [reflexivity| |constructor|reflexivity].
  apply (exec_snoc _ _ [] 1 [Some VNull; None]); [constructor|].
  exact (exec_assign sample_body [Some VNull; None] 1 _ 1 3 VNull eq_refl
    (eval_local sample_body [Some VNull; None] 3 _ 0 VNull eq_refl eq_refl)).
Qed.

Lemma analyze_reports_unassigned_witness :
  reported sample_result UseBeforeAssignment (mkSpan 55 56).
Proof.
  apply (analyze_reports_unassigned sample_body default_config sample_result
    [Some VOther; None] 5 4 1 (mkExpr (ExprKind.Local 1) (mkSpan 55 56))).
  - exact sample_body_wf.
  - exact sample_result_eq.
  - vm_compute. discriminate.
  - eapply (evaluates_stmt _ _ _ 4 _ _ [] 4 [] _ 5 sample_run_nonnull); [reflexivity..|constructor|reflexivity|].
    simpl. by left.
  - split_and!; [|by eexists|reflexivity].
    eapply (visits_child _ _ 5 _ 4); [reflexivity|exact I|by left|constructor].
  - reflexivity.
Defined.

Lemma analyze_reports_null_deref_witness :
  reported sample_result PossibleNullDereference (mkSpan 55 62).
Proof.
  apply (analyze_reports_null_deref sample_body default_config sample_result
    [Some VNull; Some VNull] 5 5 (mkExpr (ExprKind.Call (Some 4) "foo" []) (mkSpan 55 62))).
  - exact sample_body_wf.
  - exact sample_result_eq.
  - vm_compute. discriminate.
  - reflexivity.
  - eapply (evaluates_stmt _ _ _ 4 _ _ [] 4 [] _ 5 sample_run_null); [reflexivity..|constructor|reflexivity|].
    simpl. by left.
  - split; [constructor|]. eexists _, 4. split_and!; [reflexivity..|]. by eapply eval_local.
  - reflexivity.
Defined.

Lemma analyze_sorted_unique_witness :
  StronglySorted (cmp_le compare_diagnostics) (res_diagnostics sample_result) /\
  NoDup ((fun d => (code d, span d)) <$> res_diagnostics sample_result).
Proof. apply (analyze_sorted_unique sample_body default_config), sample_result_eq. Defined.

Lemma unreachable_diagnostics_exact_witness :
  exists g reach d picks, build_cfg sample_body = Done g /\ reachable_blocks g = Done reach /\
    unreachable_diagnostics sample_body g reach = Done d /\
    StronglySorted lt picks.*1 /\ (forall i st, (i, st) ∈ picks <-> dead g i st) /\
    Forall2 (fun p dg => exists sd, stmts sample_body !! p.2 = Some sd /\
      dg = mkDiag Warning "FLOW_UNREACHABLE" "unreachable code" (Some (stmt_span sd))) picks d /\
    forall i st x bb ρ, (i, st) ∈ picks -> blocks g !! x = Some bb -> x = i \/ holds bb st -> ~ runs_to sample_body g x ρ.
Proof. apply (unreachable_diagnostics_exact sample_body). exact sample_body_wf. Defined.
