(* ===== verification/Structured.v ===== *)
(** * Executions of a method body

    The reference semantics of the statements of crates/nova-hir/src/body.rs, by recursion on
    the statement and not on a graph: the semantics Java gives to blocks, conditionals, loops,
    [switch] and [try]/[finally], over the expressions of Exec.v.  Simulation.v shows that the
    graphs of [build_cfg] have all these executions.

    An execution ends with an outcome.  The outcome [OEval e] stops it just before it evaluates
    [e], so that executions that do not end, or that fault, are observed through their
    prefixes.  What a [break] or a [continue] outside a loop does is left open: it has no
    execution.

    There are two semantics, which differ in [try] only.  In Java's, any evaluation may raise an
    exception, and a handler or a [finally] block starts from the locals where it is raised.  In
    the one of the graphs, the source approximates: a handler starts from the locals at the start
    of the [try] statement, and only [throw] raises an exception that no handler catches.
    Exceptions.v relates the two. *)

From stdpp Require Import base list numbers strings option.
From S2P Require Import Prelude HirBody Cfg CfgBuild Exec.

Inductive outcome :=
| ONormal
| OBreak
| OContinue
| OReturn
| OThrow
| OEval (e : ExprId).

Notation rel := (env -> outcome -> env -> Prop).

(** The body of a loop lets the loop go on. *)
Definition continues (o : outcome) : Prop := o = ONormal \/ o = OContinue.

(** An outcome of the body of a loop that is the outcome of the loop. *)
Definition leaves (o : outcome) : Prop :=
  match o with OReturn | OThrow | OEval _ => True | _ => False end.

Definition is_eval (o : outcome) : Prop := match o with OEval _ => True | _ => False end.

(** ** Sequences, loops and the arms of a [switch], over the semantics of their parts *)

Inductive seq_exec (R : StmtId -> rel) : list StmtId -> rel :=
| se_nil ρ : seq_exec R [] ρ ONormal ρ
| se_next st ss ρ ρ1 o ρ2 :
    R st ρ ONormal ρ1 -> seq_exec R ss ρ1 o ρ2 -> seq_exec R (st :: ss) ρ o ρ2
| se_stop st ss ρ o ρ1 : R st ρ o ρ1 -> o <> ONormal -> seq_exec R (st :: ss) ρ o ρ1.

(** A loop, [true] from its test and [false] from its body; a missing condition holds always.
    [U] is the update of a [for] loop. *)
Inductive loop_exec (b : Body) (c : option ExprId) (R U : rel) : bool -> rel :=
| le_eval ρ e : c = Some e -> loop_exec b c R U true ρ (OEval e) ρ
| le_exit ρ e : c = Some e -> eval b ρ e (VBool false) -> loop_exec b c R U true ρ ONormal ρ
| le_enter ρ o ρ' :
    (forall e, c = Some e -> eval b ρ e (VBool true)) -> loop_exec b c R U false ρ o ρ' ->
    loop_exec b c R U true ρ o ρ'
| le_break ρ ρ' : R ρ OBreak ρ' -> loop_exec b c R U false ρ ONormal ρ'
| le_leave ρ o ρ' : R ρ o ρ' -> leaves o -> loop_exec b c R U false ρ o ρ'
| le_update ρ o1 ρ1 o ρ' :
    R ρ o1 ρ1 -> continues o1 -> U ρ1 o ρ' -> o <> ONormal ->
    loop_exec b c R U false ρ o ρ'
| le_next ρ o1 ρ1 ρ2 o ρ' :
    R ρ o1 ρ1 -> continues o1 -> U ρ1 ONormal ρ2 -> loop_exec b c R U true ρ2 o ρ' ->
    loop_exec b c R U false ρ o ρ'.

(** The arms of a [switch] from the one that is selected: an old-style arm falls through to
    the next one. *)
Inductive arms_exec (R : StmtId -> rel) : list SwitchArm -> rel :=
| ae_nil ρ : arms_exec R [] ρ ONormal ρ
| ae_fall arm arms ρ ρ1 o ρ2 :
    R (arm_body arm) ρ ONormal ρ1 -> arm_is_arrow arm = false -> arms_exec R arms ρ1 o ρ2 ->
    arms_exec R (arm :: arms) ρ o ρ2
| ae_arrow arm arms ρ ρ1 :
    R (arm_body arm) ρ ONormal ρ1 -> arm_is_arrow arm = true ->
    arms_exec R (arm :: arms) ρ ONormal ρ1
| ae_break arm arms ρ ρ1 :
    R (arm_body arm) ρ OBreak ρ1 -> arms_exec R (arm :: arms) ρ ONormal ρ1
| ae_leave arm arms ρ o ρ1 :
    R (arm_body arm) ρ o ρ1 -> leaves o \/ o = OContinue ->
    arms_exec R (arm :: arms) ρ o ρ1.

(** An optional part: nothing is done when it is missing. *)
Inductive opt_exec (R : StmtId -> rel) : option StmtId -> rel :=
| oe_none ρ : opt_exec R None ρ ONormal ρ
| oe_some st ρ o ρ' : R st ρ o ρ' -> opt_exec R (Some st) ρ o ρ'.

(** An execution that has ended with an exception, or may raise one in the expression it has come to. *)
Definition raises (o : outcome) : Prop := o = OThrow \/ is_eval o.

(** The body of a [try] and its handlers.  In the graphs, a handler runs in place of the body; in Java,
    from where the body raises an exception. *)
Inductive part_exec (java : bool) (R : StmtId -> rel) (body : StmtId) (cs : list StmtId) : rel :=
| pe_body ρ o ρ' : R body ρ o ρ' -> part_exec java R body cs ρ o ρ'
| pe_start h ρ o ρ' : java = false -> h ∈ cs -> R h ρ o ρ' -> part_exec java R body cs ρ o ρ'
| pe_catch h ρ o1 ρ1 o ρ' :
    java = true -> R body ρ o1 ρ1 -> raises o1 -> h ∈ cs -> R h ρ1 o ρ' -> part_exec java R body cs ρ o ρ'.

(** ** Statements *)

(** A statement that a block of a graph may hold without leaving it. *)
Definition simple_kind (k : StmtKind.t) : Prop :=
  match k with
  | StmtKind.Let _ _ | StmtKind.Assign _ _ | StmtKind.Expr _ | StmtKind.Nop => True
  | _ => False
  end.

(** The expressions a statement evaluates before anything else happens. *)
Definition first_exprs (k : StmtKind.t) : list ExprId :=
  match k with
  | StmtKind.Let _ i => option_list i
  | StmtKind.Assign _ v => [v]
  | StmtKind.Expr e => [e]
  | StmtKind.If c _ _ => [c]
  | StmtKind.Switch e _ => [e]
  | StmtKind.Return v => option_list v
  | StmtKind.Throw e => [e]
  | _ => []
  end.

Section Sexec.
Context (b : Body) (java : bool).

(** [stmt_is st k]: the statement [st] has the kind [k]. *)
Definition stmt_is (st : StmtId) (k : StmtKind.t) : Prop :=
  exists sd, stmts b !! st = Some sd /\ stmt_kind sd = k.

(** [sexec_with brk cnt st ρ o ρ']: from the locals [ρ], [st] may end with the outcome [o] and the
    locals [ρ'].  [brk]: inside a loop or [switch]; [cnt]: inside a loop. *)
Inductive sexec_with : bool -> bool -> StmtId -> rel :=
| sx_eval brk cnt st k e ρ :
    stmt_is st k -> e ∈ first_exprs k -> sexec_with brk cnt st ρ (OEval e) ρ
| sx_simple brk cnt st k ρ ρ' :
    stmt_is st k -> simple_kind k -> exec_stmt b ρ st ρ' -> sexec_with brk cnt st ρ ONormal ρ'
| sx_block brk cnt st ss ρ o ρ' :
    stmt_is st (StmtKind.Block ss) -> seq_exec (sexec_with brk cnt) ss ρ o ρ' ->
    sexec_with brk cnt st ρ o ρ'
| sx_then brk cnt st c t e ρ o ρ' :
    stmt_is st (StmtKind.If c t e) -> eval b ρ c (VBool true) -> sexec_with brk cnt t ρ o ρ' ->
    sexec_with brk cnt st ρ o ρ'
| sx_else brk cnt st c t e ρ o ρ' :
    stmt_is st (StmtKind.If c t e) -> eval b ρ c (VBool false) ->
    opt_exec (sexec_with brk cnt) e ρ o ρ' -> sexec_with brk cnt st ρ o ρ'
| sx_while brk cnt st c body ρ o ρ' :
    stmt_is st (StmtKind.While c body) ->
    loop_exec b (Some c) (sexec_with true true body)
      (opt_exec (sexec_with brk cnt) None) true ρ o ρ' -> sexec_with brk cnt st ρ o ρ'
| sx_do_while brk cnt st c body ρ o ρ' :
    stmt_is st (StmtKind.DoWhile body c) ->
    loop_exec b (Some c) (sexec_with true true body)
      (opt_exec (sexec_with brk cnt) None) false ρ o ρ' -> sexec_with brk cnt st ρ o ρ'
| sx_for_init brk cnt st i c u body ρ o ρ' :
    stmt_is st (StmtKind.For i c u body) -> opt_exec (sexec_with brk cnt) i ρ o ρ' ->
    o <> ONormal -> sexec_with brk cnt st ρ o ρ'
| sx_for brk cnt st i c u body ρ ρ1 o ρ' :
    stmt_is st (StmtKind.For i c u body) -> opt_exec (sexec_with brk cnt) i ρ ONormal ρ1 ->
    loop_exec b c (sexec_with true true body) (opt_exec (sexec_with brk cnt) u) true ρ1 o ρ' ->
    sexec_with brk cnt st ρ o ρ'
| sx_switch_none brk cnt st e arms ρ :
    stmt_is st (StmtKind.Switch e arms) -> existsb arm_has_default arms = false ->
    sexec_with brk cnt st ρ ONormal ρ
| sx_switch brk cnt st e arms i ρ o ρ' :
    stmt_is st (StmtKind.Switch e arms) -> i < length arms ->
    arms_exec (sexec_with true cnt) (drop i arms) ρ o ρ' -> sexec_with brk cnt st ρ o ρ'
| sx_try brk cnt st body cs ρ o ρ' :
    stmt_is st (StmtKind.Try body cs None) ->
    part_exec java (sexec_with brk cnt) body cs ρ o ρ' -> sexec_with brk cnt st ρ o ρ'
| sx_try_eval brk cnt st body cs f ρ e ρ' :
    stmt_is st (StmtKind.Try body cs (Some f)) ->
    part_exec java (sexec_with brk cnt) body cs ρ (OEval e) ρ' -> sexec_with brk cnt st ρ (OEval e) ρ'
| sx_try_finally brk cnt st body cs f ρ o ρ1 ρ' :
    stmt_is st (StmtKind.Try body cs (Some f)) ->
    part_exec java (sexec_with brk cnt) body cs ρ o ρ1 -> ~ is_eval o ->
    sexec_with brk cnt f ρ1 ONormal ρ' -> sexec_with brk cnt st ρ o ρ'
| sx_try_override brk cnt st body cs f ρ o1 ρ1 o ρ' :
    stmt_is st (StmtKind.Try body cs (Some f)) ->
    part_exec java (sexec_with brk cnt) body cs ρ o1 ρ1 -> ~ is_eval o1 ->
    sexec_with brk cnt f ρ1 o ρ' -> o <> ONormal -> sexec_with brk cnt st ρ o ρ'
| sx_try_raise brk cnt st body cs f ρ e ρ1 ρ' :
    java = true -> stmt_is st (StmtKind.Try body cs (Some f)) ->
    part_exec java (sexec_with brk cnt) body cs ρ (OEval e) ρ1 ->
    sexec_with brk cnt f ρ1 ONormal ρ' -> sexec_with brk cnt st ρ OThrow ρ'
| sx_try_raise_override brk cnt st body cs f ρ e ρ1 o ρ' :
    java = true -> stmt_is st (StmtKind.Try body cs (Some f)) ->
    part_exec java (sexec_with brk cnt) body cs ρ (OEval e) ρ1 ->
    sexec_with brk cnt f ρ1 o ρ' -> o <> ONormal -> sexec_with brk cnt st ρ o ρ'
| sx_return brk cnt st v ρ : stmt_is st (StmtKind.Return v) -> sexec_with brk cnt st ρ OReturn ρ
| sx_throw brk cnt st e ρ : stmt_is st (StmtKind.Throw e) -> sexec_with brk cnt st ρ OThrow ρ
| sx_break cnt st ρ : stmt_is st StmtKind.Break -> sexec_with true cnt st ρ OBreak ρ
| sx_continue brk st ρ :
    stmt_is st StmtKind.Continue -> sexec_with brk true st ρ OContinue ρ.

(** The kind of a statement is unique. *)
Lemma stmt_is_inj st k1 k2 : stmt_is st k1 -> stmt_is st k2 -> k1 = k2.
Proof. intros (? & ? & <-) (? & ? & <-). by simplify_eq. Qed.

(** The executions of a [try] statement. *)
Definition try_exec (brk cnt : bool) (body : StmtId) (cs : list StmtId) (f : option StmtId) : rel := fun ρ o ρ' =>
  exists o1 ρ1, part_exec java (sexec_with brk cnt) body cs ρ o1 ρ1 /\
    match f with
    | None => o = o1 /\ ρ' = ρ1
    | Some f =>
        (is_eval o1 /\ o = o1 /\ ρ' = ρ1) \/
        (~ is_eval o1 /\ o = o1 /\ sexec_with brk cnt f ρ1 ONormal ρ') \/
        (~ is_eval o1 /\ o <> ONormal /\ sexec_with brk cnt f ρ1 o ρ') \/
        (java = true /\ is_eval o1 /\ o = OThrow /\ sexec_with brk cnt f ρ1 ONormal ρ') \/
        (java = true /\ is_eval o1 /\ o <> ONormal /\ sexec_with brk cnt f ρ1 o ρ')
    end.

(** The executions of a statement of a given kind. *)
Definition kind_exec (brk cnt : bool) (st : StmtId) (k : StmtKind.t) : rel := fun ρ o ρ' =>
  match k with
  | StmtKind.Let _ _ | StmtKind.Assign _ _ | StmtKind.Expr _ | StmtKind.Nop =>
      (exists e, e ∈ stmt_exprs k /\ o = OEval e /\ ρ' = ρ) \/
      (o = ONormal /\ exec_stmt b ρ st ρ')
  | StmtKind.Block ss => seq_exec (sexec_with brk cnt) ss ρ o ρ'
  | StmtKind.If c t e =>
      (o = OEval c /\ ρ' = ρ) \/
      (eval b ρ c (VBool true) /\ sexec_with brk cnt t ρ o ρ') \/
      (eval b ρ c (VBool false) /\ opt_exec (sexec_with brk cnt) e ρ o ρ')
  | StmtKind.While c body =>
      loop_exec b (Some c) (sexec_with true true body) (opt_exec (sexec_with brk cnt) None) true ρ o ρ'
  | StmtKind.DoWhile body c =>
      loop_exec b (Some c) (sexec_with true true body) (opt_exec (sexec_with brk cnt) None) false ρ o ρ'
  | StmtKind.For i c u body =>
      (opt_exec (sexec_with brk cnt) i ρ o ρ' /\ o <> ONormal) \/
      exists ρ1, opt_exec (sexec_with brk cnt) i ρ ONormal ρ1 /\
        loop_exec b c (sexec_with true true body) (opt_exec (sexec_with brk cnt) u) true ρ1 o ρ'
  | StmtKind.Switch e arms =>
      (o = OEval e /\ ρ' = ρ) \/
      (existsb arm_has_default arms = false /\ o = ONormal /\ ρ' = ρ) \/
      exists i, i < length arms /\ arms_exec (sexec_with true cnt) (drop i arms) ρ o ρ'
  | StmtKind.Try body cs f => try_exec brk cnt body cs f ρ o ρ'
  | StmtKind.Return v =>
      (exists e, v = Some e /\ o = OEval e /\ ρ' = ρ) \/ (o = OReturn /\ ρ' = ρ)
  | StmtKind.Throw e => (o = OEval e /\ ρ' = ρ) \/ (o = OThrow /\ ρ' = ρ)
  | StmtKind.Break => brk = true /\ o = OBreak /\ ρ' = ρ
  | StmtKind.Continue => cnt = true /\ o = OContinue /\ ρ' = ρ
  end.

Lemma sexec_inv brk cnt st k ρ o ρ' :
  stmt_is st k -> sexec_with brk cnt st ρ o ρ' -> kind_exec brk cnt st k ρ o ρ'.
Proof.
  intros Hk Hx. destruct Hx;
    match goal with H : stmt_is st ?k' |- _ => pose proof (stmt_is_inj _ _ _ H Hk); subst end.
  1: destruct k; simpl in *; repeat match goal with
     | H : _ ∈ [] |- _ => by apply not_elem_of_nil in H
     | H : _ ∈ [_] |- _ => apply list_elem_of_singleton in H; subst
     | H : _ ∈ option_list _ |- _ => apply elem_of_option_list in H; subst
     end; simpl; eauto using list_elem_of_here.
  1: destruct k; try done; simpl; eauto.
  all: simpl; unfold try_exec; eauto 11.
  all: eexists (OEval e), _; (split; [done|]); simpl; auto 10.
Qed.
End Sexec.

(** The semantics of the graphs, and Java's. *)
Notation sexec b := (sexec_with b false).

(** [body_evaluates ρ e]: some execution of the method evaluates [e] with the locals [ρ]. *)
Definition body_evaluates (b : Body) (ρ : env) (e : ExprId) : Prop :=
  exists ρ0, initial_env b ρ0 /\ sexec b false false (root b) ρ0 (OEval e) ρ.

Definition java_evaluates (b : Body) (ρ : env) (e : ExprId) : Prop :=
  exists ρ0, initial_env b ρ0 /\ sexec_with b true false false (root b) ρ0 (OEval e) ρ.

(** The executions of a [try] statement in the graphs. *)
Lemma try_exec_graph b brk cnt body cs f ρ o ρ' : try_exec b false brk cnt body cs f ρ o ρ' ->
  exists p o1 ρ1, (p = body \/ p ∈ cs) /\ sexec b brk cnt p ρ o1 ρ1 /\
    match f with
    | None => o = o1 /\ ρ' = ρ1
    | Some f =>
        (is_eval o1 /\ o = o1 /\ ρ' = ρ1) \/
        (~ is_eval o1 /\ o = o1 /\ sexec b brk cnt f ρ1 ONormal ρ') \/
        (~ is_eval o1 /\ o <> ONormal /\ sexec b brk cnt f ρ1 o ρ')
    end.
Proof.
  intros (o1 & ρ1 & Hp & Hf).
  assert (exists p, (p = body \/ p ∈ cs) /\ sexec b brk cnt p ρ o1 ρ1) as (p & Hin & Hx) by (destruct Hp; eauto; done).
  exists p, o1, ρ1. split_and!; [done..|]. destruct f; naive_solver.
Qed.
