(* ===== verification/Exceptions.v ===== *)
(** * Exceptions in method bodies

    Java's semantics of [try] against the one of the graphs (Structured.v).  Where no [try] has a
    [finally] block and the body of a [try] with handlers changes no local, the executions of the
    two are the same up to the place where an exception is raised, and everything that Java
    evaluates is evaluated in the semantics of the graphs with the same locals. *)

From stdpp Require Import base numbers strings option sets list.
From S2P Require Import Prelude HirBody Cfg CfgBuild Exec Structured.

(** ** Statements that change no local *)

Definition changes_locals (k : StmtKind.t) : bool :=
  match k with StmtKind.Let _ _ | StmtKind.Assign _ _ => true | _ => false end.

(** No declaration and no assignment in [st]; [fuel] bounds the nesting. *)
Fixpoint quiet (fuel : nat) (b : Body) (st : StmtId) : bool :=
  match fuel with
  | 0 => false
  | S fuel =>
      match stmts b !! st with
      | None => true
      | Some sd => negb (changes_locals (stmt_kind sd)) && forallb (quiet fuel b) (stmt_children (stmt_kind sd))
      end
  end.

(** No [finally], and no change of a local in the body of a [try] that has handlers. *)
Definition plain_try (b : Body) (k : StmtKind.t) : bool :=
  match k with
  | StmtKind.Try body cs f => bool_decide (f = None) && (bool_decide (cs = []) || quiet (length (stmts b)) b body)
  | _ => true
  end.

Definition plain_tries (b : Body) : bool := forallb (fun sd => plain_try b (stmt_kind sd)) (stmts b).

(** ** What holds of parts holds of the whole *)

Section Frames.
Context (b : Body).

(** [R] leaves the locals as they are. *)
Definition keeps (R : rel) : Prop := forall ρ o ρ', R ρ o ρ' -> ρ' = ρ.

Lemma seq_keeps R ss : Forall (fun st => keeps (R st)) ss -> keeps (seq_exec R ss).
Proof.
  intros Hss ρ o ρ' Hx. induction Hx as [|st ss ρ ρ1 o ρ2 H1 _ IH|st ss ρ o ρ1 H1]; [done|..];
    assert (Hst := Forall_inv Hss); apply Forall_inv_tail in Hss; apply Hst in H1 as ->; auto.
Qed.

Lemma opt_keeps R m : (forall st, m = Some st -> keeps (R st)) -> keeps (opt_exec R m).
Proof. intros Hm ρ o ρ' Hx. destruct Hx as [|st ρ o ρ' Hx]; [done|]. by eapply Hm. Qed.

Lemma loop_keeps c R U t : keeps R -> keeps U -> keeps (loop_exec b c R U t).
Proof.
  intros HR HU ρ o ρ' Hx.
  induction Hx as [| | | | |ρ o1 ρ1 o ρ' H1 _ H2 _|ρ o1 ρ1 ρ2 o ρ' H1 _ H2 _ IH]; try done; try (by eapply HR).
  - apply HR in H1 as ->. by eapply HU.
  - apply HR in H1 as ->. by apply HU in H2 as ->.
Qed.

Lemma arms_keeps R arms : Forall (fun arm => keeps (R (arm_body arm))) arms -> keeps (arms_exec R arms).
Proof.
  intros Hss ρ o ρ' Hx. induction Hx as [|arm arms ρ ρ1 o ρ2 H1 _ _ IH|arm arms ρ ρ1 H1 _|arm arms ρ ρ1 H1|arm arms ρ o ρ1 H1 _];
    [done|..]; assert (Hst := Forall_inv Hss); apply Forall_inv_tail in Hss; apply Hst in H1 as ->; auto.
Qed.

Lemma part_keeps java R body cs : keeps (R body) -> Forall (fun h => keeps (R h)) cs -> keeps (part_exec java R body cs).
Proof.
  intros Hb Hcs ρ o ρ' Hx. rewrite Forall_forall in Hcs. destruct Hx as [|h ρ o ρ' _ Hh Hx|h ρ o1 ρ1 o ρ' _ H1 _ Hh Hx].
  - eapply Hb; eauto.
  - eapply Hcs; eauto.
  - apply Hb in H1 as ->. eapply Hcs; eauto.
Qed.

(** ** Inclusion of executions *)

Definition within (R S : rel) : Prop := forall ρ o ρ', R ρ o ρ' -> S ρ o ρ'.

Lemma seq_within R S ss : Forall (fun st => within (R st) (S st)) ss -> within (seq_exec R ss) (seq_exec S ss).
Proof.
  intros Hss ρ o ρ' Hx. induction Hx as [|st ss ρ ρ1 o ρ2 H1 _ IH|st ss ρ o ρ1 H1 Hne]; [constructor|..];
    assert (Hst := Forall_inv Hss); apply Forall_inv_tail in Hss; apply Hst in H1.
  - eapply se_next; eauto.
  - by apply se_stop.
Qed.

Lemma opt_within R S m : (forall st, m = Some st -> within (R st) (S st)) -> within (opt_exec R m) (opt_exec S m).
Proof. intros Hm ρ o ρ' Hx. destruct Hx as [|st ρ o ρ' Hx]; constructor. by eapply Hm. Qed.

Lemma loop_within c R U S V t : within R S -> within U V -> within (loop_exec b c R U t) (loop_exec b c S V t).
Proof.
  intros HR HU ρ o ρ' Hx. induction Hx as [| | | | |ρ o1 ρ1 o ρ' H1 Hc H2 Hne|ρ o1 ρ1 ρ2 o ρ' H1 Hc H2 _ IH].
  - by apply le_eval.
  - by eapply le_exit.
  - by apply le_enter.
  - apply le_break. by apply HR.
  - apply le_leave; [by apply HR|done].
  - eapply le_update; [by apply HR|done|by apply HU|done].
  - eapply le_next; [by apply HR|done|by apply HU|done].
Qed.

Lemma arms_within R S arms : Forall (fun arm => within (R (arm_body arm)) (S (arm_body arm))) arms ->
  within (arms_exec R arms) (arms_exec S arms).
Proof.
  intros Hss ρ o ρ' Hx. induction Hx as [|arm arms ρ ρ1 o ρ2 H1 Ha _ IH|arm arms ρ ρ1 H1 Ha|arm arms ρ ρ1 H1|arm arms ρ o ρ1 H1 Ho];
    [constructor|..]; assert (Hst := Forall_inv Hss); apply Forall_inv_tail in Hss; apply Hst in H1.
  - eapply ae_fall; eauto.
  - by apply ae_arrow.
  - by apply ae_break.
  - by apply ae_leave.
Qed.
End Frames.

(** ** A quiet statement leaves the locals as they are *)

Section Quiet.
Context (b : Body) (java : bool).

(** The parts of a statement leave the locals as they are, inside whatever loop. *)
Definition still (st : StmtId) : Prop := forall brk cnt, keeps (sexec_with b java brk cnt st).

Lemma still_option m : (forall st, st ∈ option_list m -> still st) ->
  forall brk cnt, keeps (opt_exec (sexec_with b java brk cnt) m).
Proof. intros Hm brk cnt. apply opt_keeps. intros st ->. apply Hm. by left. Qed.

Lemma try_keeps brk cnt body cs f : still body -> Forall still cs -> (forall st, st ∈ option_list f -> still st) ->
  keeps (try_exec b java brk cnt body cs f).
Proof.
  intros Hb Hcs Hf ρ o ρ' (o1 & ρ1 & Hp & Hx).
  apply part_keeps in Hp as ->; [|done|by eapply Forall_impl]. destruct f as [f|]; [|naive_solver].
  assert (still f) as Hs by (apply Hf; by left).
  destruct Hx as [(_ & _ & ->)|[(_ & _ & Hx)|[(_ & _ & Hx)|[(_ & _ & _ & Hx)|(_ & _ & _ & Hx)]]]]; [done|by eapply Hs..].
Qed.

Lemma kind_keeps brk cnt st k : stmt_is b st k -> changes_locals k = false -> (forall c, c ∈ stmt_children k -> still c) ->
  keeps (kind_exec b java brk cnt st k).
Proof.
  intros (sd & Hsd & Hk) Hq Hcs ρ o ρ' Hx.
  destruct k as [ss| | |e|c t e|c bd|bd c|i c u bd|e arms|bd cs f|v|e| | |]; simpl in *; try done.
  - apply seq_keeps in Hx; [done|]. apply Forall_forall. intros s Hs. by apply Hcs.
  - destruct Hx as [(? & _ & _ & ->)|[_ Hx]]; [done|]. destruct sd. simpl in Hk. subst.
    inversion Hx; simplify_eq; done.
  - destruct Hx as [[_ ->]|[[_ Hx]|[_ Hx]]]; [done| |].
    + eapply Hcs; [by left|done].
    + eapply still_option; [|done]. intros s Hs. apply Hcs. by right.
  - apply loop_keeps in Hx; [done| |by apply still_option; intros ? ?%not_elem_of_nil]. apply Hcs. by left.
  - apply loop_keeps in Hx; [done| |by apply still_option; intros ? ?%not_elem_of_nil]. apply Hcs. by left.
  - assert (forall brk cnt, keeps (opt_exec (sexec_with b java brk cnt) i)) as Hi
      by (apply still_option; intros s Hs; apply Hcs; set_solver).
    destruct Hx as [[Hx _]|(ρ1 & H1 & Hx)]; [by eapply Hi|].
    apply Hi in H1 as ->. apply loop_keeps in Hx; [done|apply Hcs; set_solver|].
    apply still_option. intros s Hs. apply Hcs. set_solver.
  - destruct Hx as [[_ ->]|[(_ & _ & ->)|(j & _ & Hx)]]; [done..|].
    apply arms_keeps in Hx; [done|]. apply Forall_forall. intros arm Harm.
    apply Hcs, list_elem_of_fmap_2, (subseteq_drop j arms _ Harm).
  - apply try_keeps in Hx; [done|apply Hcs; by left|apply Forall_forall; intros h Hh|intros h Hh]; apply Hcs; set_solver.
  - destruct Hx as [(? & _ & _ & ->)|[_ ->]]; done.
  - destruct Hx as [[_ ->]|[_ ->]]; done.
  - by destruct Hx as (_ & _ & ->).
  - by destruct Hx as (_ & _ & ->).
  - destruct Hx as [(? & ? & _ & ->)|[_ Hx]]; [done|]. destruct sd. simpl in Hk. subst.
    inversion Hx; simplify_eq; done.
Qed.
End Quiet.

Lemma quiet_still b java fuel st : quiet fuel b st = true -> still b java st.
Proof.
  revert st. induction fuel as [|fuel IH]; intros st Hq brk cnt ρ o ρ' Hx; [done|]. simpl in Hq.
  destruct (stmts b !! st) as [sd|] eqn:Hsd.
  - apply andb_true_iff in Hq as [Hk%negb_true_iff Hcs]. rewrite forallb_forall in Hcs.
    assert (stmt_is b st (stmt_kind sd)) as Hst by (by exists sd).
    eapply kind_keeps; [done..| |by eapply sexec_inv].
    intros c Hc. apply IH, Hcs. by apply list_elem_of_In.
  - destruct Hx; match goal with H : stmt_is _ _ _ |- _ => destruct H as (? & ? & _); congruence end.
Qed.

(** ** Java's executions are executions of the graphs *)

Section Inclusion.
Context (b : Body).

(** The executions of a statement, from those of its kind. *)
Lemma sexec_intro java brk cnt st k ρ o ρ' :
  stmt_is b st k -> kind_exec b java brk cnt st k ρ o ρ' -> sexec_with b java brk cnt st ρ o ρ'.
Proof.
  intros Hk Hx. destruct k as [ss|l i|l v|e|c t e|c bd|bd c|i c u bd|e arms|bd cs f|v|e| | |]; simpl in Hx.
  - by eapply sx_block.
  - destruct Hx as [(x & Hin & -> & ->)|[-> Hx]]; [by eapply sx_eval|by eapply sx_simple].
  - destruct Hx as [(x & Hin & -> & ->)|[-> Hx]]; [by eapply sx_eval|by eapply sx_simple].
  - destruct Hx as [(x & Hin & -> & ->)|[-> Hx]]; [by eapply sx_eval|by eapply sx_simple].
  - destruct Hx as [[-> ->]|[[Hc Hx]|[Hc Hx]]]; [eapply sx_eval; [done|by left]|by eapply sx_then|by eapply sx_else].
  - by eapply sx_while.
  - by eapply sx_do_while.
  - destruct Hx as [[Hx Ho]|(ρ1 & H1 & Hx)]; [by eapply sx_for_init|by eapply sx_for].
  - destruct Hx as [[-> ->]|[(Hd & -> & ->)|(j & Hj & Hx)]]; [eapply sx_eval; [done|by left]|by eapply sx_switch_none|by eapply sx_switch].
  - destruct Hx as (o1 & ρ1 & Hp & Hx). destruct f as [f|]; [|destruct Hx as [-> ->]; by eapply sx_try].
    destruct Hx as [(He & -> & ->)|[(Hn & -> & Hx)|[(Hn & Ho & Hx)|[(Hj & He & -> & Hx)|(Hj & He & Ho & Hx)]]]].
    + destruct o1; try done. by eapply sx_try_eval.
    + by eapply sx_try_finally.
    + by eapply sx_try_override.
    + destruct o1; try done. by eapply sx_try_raise.
    + destruct o1; try done. by eapply sx_try_raise_override.
  - destruct Hx as [(x & -> & -> & ->)|[-> ->]]; [eapply sx_eval; [done|by left]|by eapply sx_return].
  - destruct Hx as [[-> ->]|[-> ->]]; [eapply sx_eval; [done|by left]|by eapply sx_throw].
  - destruct Hx as (-> & -> & ->). by apply sx_break.
  - destruct Hx as (-> & -> & ->). by apply sx_continue.
  - destruct Hx as [(x & Hin & -> & ->)|[-> Hx]]; [by eapply sx_eval|by eapply sx_simple].
Qed.

(** Java's executions of [st] are executions of the graphs. *)
Definition agrees (st : StmtId) : Prop :=
  forall brk cnt, within (sexec_with b true brk cnt st) (sexec b brk cnt st).

Lemma agrees_option m : (forall st, st ∈ option_list m -> agrees st) ->
  forall brk cnt, within (opt_exec (sexec_with b true brk cnt) m) (opt_exec (sexec b brk cnt) m).
Proof. intros Hm brk cnt. apply opt_within. intros st ->. apply Hm. by left. Qed.

(** A plain [try]: an exception is raised with the locals of its start. *)
Lemma try_within brk cnt body cs f : plain_try b (StmtKind.Try body cs f) = true ->
  agrees body -> (forall h, h ∈ cs -> agrees h) ->
  within (try_exec b true brk cnt body cs f) (try_exec b false brk cnt body cs f).
Proof.
  simpl. rewrite andb_true_iff, orb_true_iff, !bool_decide_eq_true.
  intros [-> Hp] Hb Hcs ρ o ρ' (o1 & ρ1 & Hx & -> & ->). exists o1, ρ1. split; [|done].
  destruct Hx as [ρ o ρ' Hx|h ρ o ρ' ? _ _|h ρ o1 ρ1 o ρ' _ H1 _ Hh Hx]; [by apply pe_body, Hb|done|].
  destruct Hp as [->|Hq]; [by apply not_elem_of_nil in Hh|].
  apply (quiet_still b true _ _ Hq) in H1 as ->. by apply (pe_start _ _ _ _ h), Hcs.
Qed.

Lemma kind_within brk cnt st k : plain_try b k = true -> (forall c, c ∈ stmt_children k -> agrees c) ->
  within (kind_exec b true brk cnt st k) (kind_exec b false brk cnt st k).
Proof.
  intros Hp Hcs ρ o ρ' Hx.
  destruct k as [ss| | |e|c t e|c bd|bd c|i c u bd|e arms|bd cs f|v|e| | |]; simpl in Hcs, Hx |- *; try done.
  - eapply seq_within; [|done]. apply Forall_forall. intros s Hs. by apply Hcs.
  - destruct Hx as [Hx|[[Hc Hx]|[Hc Hx]]]; [by left|right; left|right; right]; (split; [done|]).
    + apply Hcs; [by left|done].
    + eapply agrees_option; [|done]. intros s Hs. apply Hcs. by right.
  - eapply loop_within, Hx; [apply Hcs; by left|apply agrees_option; by intros ? ?%not_elem_of_nil].
  - eapply loop_within, Hx; [apply Hcs; by left|apply agrees_option; by intros ? ?%not_elem_of_nil].
  - assert (forall brk cnt, within (opt_exec (sexec_with b true brk cnt) i) (opt_exec (sexec b brk cnt) i)) as Hi
      by (apply agrees_option; intros s Hs; apply Hcs; set_solver).
    destruct Hx as [[Hx Ho]|(ρ1 & H1 & Hx)]; [left; split; [by apply Hi|done]|].
    right. exists ρ1. split; [by apply Hi|]. eapply loop_within, Hx; [apply Hcs; set_solver|].
    apply agrees_option. intros s Hs. apply Hcs. set_solver.
  - destruct Hx as [Hx|[Hx|(j & Hj & Hx)]]; [auto..|]. right; right. exists j. split; [done|].
    eapply arms_within; [|done]. apply Forall_forall. intros arm Harm.
    apply Hcs, list_elem_of_fmap_2, (subseteq_drop j arms _ Harm).
  - eapply try_within, Hx; [done|apply Hcs; by left|]. intros h Hh. apply Hcs. set_solver.
Qed.

Lemma java_graph st : wf_body b -> plain_tries b = true -> agrees st.
Proof.
  intros Hwf Hp. induction (lt_wf st) as [st _ IH]. intros brk cnt ρ o ρ' Hx.
  assert (exists sd, stmts b !! st = Some sd) as [sd Hsd]
    by (destruct Hx; match goal with H : stmt_is _ _ _ |- _ => destruct H as (? & ? & _); eauto end).
  assert (stmt_is b st (stmt_kind sd)) as Hst by (by exists sd).
  eapply sexec_intro; [done|]. eapply kind_within, sexec_inv; [| |done..].
  - unfold plain_tries in Hp. rewrite forallb_forall in Hp. apply Hp, list_elem_of_In. by eapply list_elem_of_lookup_2.
  - intros c Hc. apply IH. eapply wf_stmt_child; [done..|]. by apply list_elem_of_In.
Qed.

Lemma java_body ρ e : wf_body b -> plain_tries b = true -> java_evaluates b ρ e -> body_evaluates b ρ e.
Proof. intros Hwf Hp (ρ0 & H0 & Hx). exists ρ0. split; [done|]. by apply java_graph. Qed.
End Inclusion.
