(* ===== verification/Simulation.v ===== *)
(** * The graph of a body has the executions of the body

    [build_cfg] (crates/nova-flow/src/flow.rs) against the semantics of Structured.v.  The
    builder patches blocks as it goes: it sets terminators of blocks made earlier and records
    in the [finally] contexts the targets of jumps that pass them.  So a statement is related
    to the final graph: [frame] says which blocks a step may change, [fin] what the state of
    the builder tells about the final graph, and [built] that lowering a statement gives the
    final graph a path for every execution of the statement. *)

From stdpp Require Import base list numbers strings option relations sorting sets.
From S2P Require Import Prelude HirBody Cfg CfgBuild CfgBuildWf Exec Structured Exceptions FlowDiag Analyze.

Notation nblocks s := (length (cb_blocks (cfg s))).

(** ** Points of a graph *)

(** A block, the number of its statements that have run, and the locals. *)
Notation point := (BlockId * nat * env)%type.

Inductive pstep (b : Body) (G : list BasicBlock) : point -> point -> Prop :=
| ps_stmt i k ρ ρ' blk st :
    G !! i = Some blk -> bb_stmts blk !! k = Some st -> exec_stmt b ρ st ρ' ->
    pstep b G (i, k, ρ) (i, S k, ρ')
| ps_term i k ρ blk t :
    G !! i = Some blk -> k = length (bb_stmts blk) -> exec_term b ρ (bb_term blk) t ->
    pstep b G (i, k, ρ) (t, 0, ρ).

Notation preach b G := (rtc (pstep b G)).

(** The expressions that are evaluated at a point. *)
Definition at_expr (b : Body) (G : list BasicBlock) (p : point) (e : ExprId) : Prop :=
  exists blk, G !! p.1.1 = Some blk /\
    ((exists st sd, bb_stmts blk !! p.1.2 = Some st /\ stmts b !! st = Some sd /\
        e ∈ stmt_exprs (stmt_kind sd)) \/
     (p.1.2 = length (bb_stmts blk) /\ e ∈ term_exprs (bb_term blk))).

Lemma exec_stmts_take b ρ ss k st ρ1 ρ2 :
  exec_stmts b ρ (take k ss) ρ1 -> ss !! k = Some st -> exec_stmt b ρ1 st ρ2 ->
  exec_stmts b ρ (take (S k) ss) ρ2.
Proof. intros H1 Hst H2. rewrite (take_S_r _ _ _ Hst). by eapply exec_snoc. Qed.

(** A point that is reached is in a block that is reached. *)
Lemma preach_runs_to b g ρ0 p :
  initial_env b ρ0 -> preach b (blocks g) (entry g, 0, ρ0) p ->
  exists ρ1, runs_to b g p.1.1 ρ1 /\
    forall blk, blocks g !! p.1.1 = Some blk -> exec_stmts b ρ1 (take p.1.2 (bb_stmts blk)) p.2.
Proof.
  intros Hi. apply (rtc_ind_r (fun p => exists ρ1, runs_to b g p.1.1 ρ1 /\
    forall blk, blocks g !! p.1.1 = Some blk -> exec_stmts b ρ1 (take p.1.2 (bb_stmts blk)) p.2)).
  - exists ρ0. split; [by exists ρ0|]. intros blk _. rewrite take_0. constructor.
  - intros p1 p2 _ Hstep (ρ1 & (ρs & Hi' & Hr) & Hs).
    destruct Hstep as [i k ρ ρ' blk st Hblk Hst He|i k ρ blk t Hblk -> He]; simpl in *.
    + exists ρ1. split; [by exists ρs|]. intros blk' Hblk'. simplify_eq.
      by eapply exec_stmts_take; [apply Hs| |].
    + exists ρ. split.
      * exists ρs. split; [done|]. eapply rtc_r; [exact Hr|].
        exists blk, ρ. split_and!; try done. specialize (Hs blk Hblk).
        by rewrite take_ge in Hs by lia.
      * intros blk' _. rewrite take_0. constructor.
Qed.

Lemma at_expr_evaluates b g ρ0 p e :
  initial_env b ρ0 -> preach b (blocks g) (entry g, 0, ρ0) p -> at_expr b (blocks g) p e ->
  evaluates b g p.2 e.
Proof.
  intros Hi Hp (blk & Hblk & Hat). destruct (preach_runs_to b g ρ0 p Hi Hp) as (ρ1 & Hr & Hs).
  specialize (Hs blk Hblk). destruct Hat as [(st & sd & Hst & Hsd & He)|[Hk He]].
  - eapply (evaluates_stmt _ _ _ _ _ _ _ st); eauto. by symmetry; apply take_drop_middle.
  - eapply evaluates_term; eauto.
    + by rewrite Hk, firstn_all in Hs.
    + destruct (bb_term blk) as [| | | |[v|]| |]; set_solver.
Qed.

(** ** What a step may change *)

(** The statements of a block under construction. *)
Definition sts (s : HirCfgBuilder) (i : BlockId) : list StmtId :=
  match cb_blocks (cfg s) !! i with Some blk => bb_stmts blk | None => [] end.

(** [finally] contexts only collect targets. *)
Definition ctx_le (c c' : FinallyContext) : Prop := same_ctx c c' /\ targets c ⊆ targets c'.

Global Instance ctx_le_preorder : PreOrder ctx_le.
Proof.
  split.
  - intros c. by split.
  - intros c1 c2 c3 [H1 H2] [H3 H4]. split; [by etransitivity|set_solver].
Qed.

(** Of the blocks of [s], only those in [l] change, and they only gain statements. *)
Record frame (l : list BlockId) (s s' : HirCfgBuilder) : Prop := {
  fr_n : nblocks s <= nblocks s';
  fr_same : forall i, i < nblocks s -> i ∉ l -> cb_blocks (cfg s') !! i = cb_blocks (cfg s) !! i;
  fr_sts : forall i, i < nblocks s -> sts s i `prefix_of` sts s' i;
  fr_breaks : break_stack s' = break_stack s;
  fr_finally : Forall2 ctx_le (finally_stack s) (finally_stack s');
  fr_exit : exit_bb s' = exit_bb s
}.

Lemma frame_refl s : frame [] s s.
Proof. by split. Qed.

Lemma frame_trans l1 l2 s1 s2 s3 :
  frame l1 s1 s2 -> frame l2 s2 s3 -> frame (l1 ++ l2) s1 s3.
Proof.
  intros [N1 B1 P1 K1 F1 E1] [N2 B2 P2 K2 F2 E2]. split; [lia| | |congruence| |congruence].
  - intros i Hi Hnl. rewrite B2, B1; [done|done|set_solver|lia|set_solver].
  - intros i Hi. etransitivity; [by apply P1|apply P2; lia].
  - by etransitivity.
Qed.

(** Blocks made after [s] do not count. *)
Lemma frame_weaken l l' s s' :
  frame l s s' -> (forall i, i ∈ l -> i < nblocks s -> i ∈ l') -> frame l' s s'.
Proof. intros [N B P K F E] Hl. split; try done. intros i Hi Hn. apply B; naive_solver. Qed.

Lemma frame_sts l s s' i :
  frame l s s' -> i < nblocks s -> i ∉ l -> sts s' i = sts s i.
Proof. intros [_ B _ _ _ _] Hi Hn. unfold sts. by rewrite B. Qed.

Lemma frame_contexts l s s' :
  frame l s s' -> Forall2 ctx_le (rev (finally_stack s)) (rev (finally_stack s')).
Proof. intros F. rewrite !rev_alt. apply Forall2_reverse, (fr_finally _ _ _ F). Qed.

(** ** What the state tells about the final graph [G] *)

(** The blocks of [s] other than those in [O] are final; the others may gain statements and
    change their terminator. *)
Definition fin (O : BlockId -> Prop) (s : HirCfgBuilder) (G : list BasicBlock) : Prop :=
  forall i blk, cb_blocks (cfg s) !! i = Some blk ->
    exists blk', G !! i = Some blk' /\ bb_stmts blk `prefix_of` bb_stmts blk' /\
      (~ O i -> blk' = blk).

Lemma fin_frame O l s s' G :
  fin O s' G -> frame l s s' -> fin (fun i => O i \/ i ∈ l) s G.
Proof.
  intros HG [N B P _ _ _] i blk Hblk. assert (Hi : i < nblocks s) by by eapply lookup_lt_Some.
  destruct (lookup_lt_is_Some_2 (cb_blocks (cfg s')) i) as [blk1 Hblk1]; [lia|].
  destruct (HG i blk1 Hblk1) as (blk' & HG' & Hpre & Heq). exists blk'. split_and!; [done| |].
  - specialize (P i Hi). unfold sts in P. rewrite Hblk, Hblk1 in P. by etransitivity.
  - intros Hn. rewrite Heq by naive_solver.
    specialize (B i Hi ltac:(naive_solver)). congruence.
Qed.

Lemma fin_closed O s G i blk :
  fin O s G -> cb_blocks (cfg s) !! i = Some blk -> ~ O i -> G !! i = Some blk.
Proof. intros HG Hi Hn. destruct (HG i blk Hi) as (blk' & ? & _ & Heq). by rewrite <-Heq. Qed.

Lemma fin_stmt O s G i k st :
  fin O s G -> sts s i !! k = Some st ->
  exists blk, G !! i = Some blk /\ bb_stmts blk !! k = Some st.
Proof.
  intros HG Hk. unfold sts in Hk. destruct (cb_blocks (cfg s) !! i) as [blk|] eqn:E; [|done].
  destruct (HG i blk E) as (blk' & ? & Hpre & _). exists blk'. split; [done|].
  by eapply prefix_lookup_Some.
Qed.

(** ** Partial correctness in the builder monad *)

(** If [m] returns, its result satisfies [Q]; that it returns is [wp_build_cfg]. *)
Definition pm {A} (m : M A) (Q : A -> HirCfgBuilder -> Prop) (s : HirCfgBuilder) : Prop :=
  forall a s', m s = Done (a, s') -> Q a s'.

Lemma pm_ret {A} (a : A) Q s : Q a s -> pm (mret a) Q s.
Proof. intros HQ a' s' [= <- <-]. done. Qed.

Lemma pm_bind {A B} (m : M A) (f : A -> M B) Q s :
  pm m (fun a s' => pm (f a) Q s') s -> pm (m ≫= f) Q s.
Proof.
  intros H a s' Hr. unfold mbind, M_bind in Hr.
  destruct (m s) as [[a1 s1]| |] eqn:E; [|done..]. by apply (H a1 s1 E).
Qed.

Lemma pm_mono {A} (m : M A) (Q R : A -> HirCfgBuilder -> Prop) s :
  pm m Q s -> (forall a s', Q a s' -> R a s') -> pm m R s.
Proof. intros HQ HR a s' Hm. by apply HR, HQ. Qed.

(** Run [m], then go on from what is known of its result. *)
Lemma pm_seq {A B} (m : M A) (f : A -> M B) Q R s :
  pm m Q s -> (forall a s', Q a s' -> pm (f a) R s') -> pm (m ≫= f) R s.
Proof. intros HQ HR. apply pm_bind. by eapply pm_mono. Qed.

Lemma pm_get Q s : Q s s -> pm get_state Q s.
Proof. intros HQ a s' [= <- <-]. done. Qed.

Lemma pm_lift {A} (m : run A) (Q : A -> HirCfgBuilder -> Prop) s :
  (forall a, m = Done a -> Q a s) -> pm (lift m) Q s.
Proof.
  intros HQ a s' Hr. unfold lift in Hr. destruct m; simpl in Hr; [|done..].
  injection Hr as <- <-. by apply HQ.
Qed.

(** ** The primitive steps *)

Lemma pm_new_block s (Q : BlockId -> HirCfgBuilder -> Prop) :
  (forall s', frame [] s s' -> nblocks s' = S (nblocks s) -> (forall i, sts s' i = sts s i) ->
     Q (nblocks s) s') ->
  pm m_new_block Q s.
Proof.
  intros HQ a s' [= <- <-]. apply HQ.
  - split; simpl; try done.
    + rewrite length_app. lia.
    + intros i Hi _. by apply lookup_app_l.
    + intros i Hi. unfold sts. simpl. by rewrite lookup_app_l.
  - simpl. rewrite length_app. simpl. lia.
  - intros i. unfold sts. simpl.
    destruct (decide (i < nblocks s)); [by rewrite lookup_app_l|].
    rewrite (lookup_ge_None_2 (cb_blocks (cfg s))) by lia.
    destruct (decide (i = nblocks s)) as [->|]; [by rewrite list_lookup_middle|].
    by rewrite lookup_ge_None_2 by (rewrite length_app; simpl; lia).
Qed.

(** Replacing a block by one with at least its statements. *)
Lemma frame_update s bb blk blk' :
  cb_blocks (cfg s) !! bb = Some blk -> bb_stmts blk `prefix_of` bb_stmts blk' ->
  frame [bb] s (with_cfg (mkBuilder (<[bb := blk']> (cb_blocks (cfg s))) (cb_preds (cfg s))) s).
Proof.
  intros Hbb Hpre. assert (Hlt := lookup_lt_Some _ _ _ Hbb). split; simpl; try done.
  - by rewrite length_insert.
  - intros i Hi Hn. rewrite list_lookup_insert_ne; [done|set_solver].
  - intros i Hi. unfold sts. simpl. destruct (decide (i = bb)) as [->|].
    + by rewrite list_lookup_insert_eq, Hbb.
    + by rewrite list_lookup_insert_ne.
Qed.

Lemma pm_set_terminator s bb term (Q : unit -> HirCfgBuilder -> Prop) :
  (forall s', frame [bb] s s' -> nblocks s' = nblocks s -> bb < nblocks s ->
     (forall i, sts s' i = sts s i) ->
     cb_blocks (cfg s') !! bb = Some (mkBlock (sts s bb) term) -> Q tt s') ->
  pm (m_set_terminator bb term) Q s.
Proof.
  intros HQ a s' Hr. unfold m_set_terminator, set_terminator in Hr. run_inv.
  apply set_idx_Done in Ha1 as [Hlt ->]. rename a into blk, Ha0 into Hblk.
  assert (Hsts : sts s bb = bb_stmts blk) by (unfold sts; by rewrite Hblk).
  apply HQ; simpl; [by eapply frame_update|by rewrite length_insert|done| |].
  - intros i. unfold sts. simpl. destruct (decide (i = bb)) as [->|].
    + by rewrite list_lookup_insert_eq, Hblk.
    + by rewrite list_lookup_insert_ne.
  - by rewrite list_lookup_insert_eq, Hsts.
Qed.

Lemma pm_push_stmt s bb st (Q : unit -> HirCfgBuilder -> Prop) :
  (forall s', frame [bb] s s' -> nblocks s' = nblocks s -> bb < nblocks s ->
     sts s' bb = sts s bb ++ [st] -> Q tt s') ->
  pm (m_push_stmt bb st) Q s.
Proof.
  intros HQ a s' Hr. unfold m_push_stmt, push_stmt in Hr. run_inv.
  apply set_idx_Done in Ha1 as [Hlt ->]. rename a into blk, Ha0 into Hblk.
  apply HQ; simpl; [|by rewrite length_insert|done|].
  - eapply frame_update; [done|]. by apply prefix_app_r.
  - unfold sts. simpl. by rewrite list_lookup_insert_eq, Hblk.
Qed.

(** The stacks, pushed and popped. *)
Lemma frame_pushed_break l ctx s s' :
  frame l (pushed_break ctx s) s' ->
  frame l s (mkHir (cfg s') (removelast (break_stack s')) (finally_stack s') (exit_bb s')).
Proof.
  intros [N B P K F E]. split; simpl in *; try done. rewrite K. apply removelast_last.
Qed.

Definition pushed_finally (ctx : FinallyContext) (s : HirCfgBuilder) : HirCfgBuilder :=
  mkHir (cfg s) (break_stack s) (finally_stack s ++ [ctx]) (exit_bb s).

Lemma frame_pushed_finally l ctx s s' :
  frame l (pushed_finally ctx s) s' ->
  exists fs ctx', finally_stack s' = fs ++ [ctx'] /\ ctx_le ctx ctx' /\
    frame l s (mkHir (cfg s') (break_stack s') fs (exit_bb s')).
Proof.
  intros [N B P K F E]. simpl in F.
  apply Forall2_app_inv_l in F as (fs & l2 & H1 & H2 & Heq).
  apply Forall2_cons_inv_l in H2 as (ctx' & l3 & Hc & H3 & ->).
  apply Forall2_nil_inv_l in H3 as ->. exists fs, ctx'. split_and!; [done..|]. by split.
Qed.

(** ** Leaving [finally] blocks *)

(** Where a jump to [T] goes first, given the open [finally] contexts, innermost first: a
    context whose [try] statement does not contain [T] is left through its [finally] block. *)
Definition next_stop (fs : list FinallyContext) (T : BlockId) : BlockId :=
  match fs with
  | [] => T
  | ctx :: _ => if decide (T < scope_start ctx) then finally_bb ctx else T
  end.

(** Every context that is left has recorded where to go on. *)
Fixpoint recorded (fs : list FinallyContext) (T : BlockId) : Prop :=
  match fs with
  | [] => True
  | ctx :: fs =>
      T < scope_start ctx -> next_stop fs T ∈ targets ctx /\ recorded fs T
  end.

Lemma next_stop_mono fs fs' T : Forall2 ctx_le fs fs' -> next_stop fs' T = next_stop fs T.
Proof. intros [|c c' l l' [[H1 H2] _] _]; simpl; [done|]. by rewrite H1, H2. Qed.

Lemma recorded_mono fs fs' T : Forall2 ctx_le fs fs' -> recorded fs T -> recorded fs' T.
Proof.
  induction 1 as [|c c' l l' [[H1 H2] H3] Hl IH]; simpl; [done|]. rewrite <-H2.
  intros H HT. destruct (H HT). rewrite (next_stop_mono _ _ _ Hl). split; [set_solver|auto].
Qed.

(** The record kept by index, as [push_leave_targets] makes it. *)
Definition leave_dest (fs : list FinallyContext) (k : nat) (T : BlockId) (i : nat) : BlockId :=
  if decide (i = k) then T
  else match fs !! (i - 1) with Some ctx => finally_bb ctx | None => T end.

Lemma recorded_by_index fs k T :
  k <= length fs ->
  (forall i ctx, fs !! i = Some ctx -> k <= i ->
     T < scope_start ctx /\ leave_dest fs k T i ∈ targets ctx) ->
  (forall ctx, 0 < k -> fs !! (k - 1) = Some ctx -> ~ T < scope_start ctx) ->
  recorded (rev fs) T.
Proof.
  induction fs as [|ctx fs IH] using rev_ind; [done|]. intros Hk Hin Hout.
  rewrite rev_app_distr. simpl. intros HT. rewrite length_app in Hk; simpl in Hk.
  assert (Hkf : k <= length fs).
  { destruct (decide (k = S (length fs))) as [->|]; [|lia]. exfalso.
    eapply Hout; [lia| |exact HT]. by rewrite Nat.sub_1_r, list_lookup_middle. }
  destruct (Hin (length fs) ctx) as [_ Hd]; [by rewrite list_lookup_middle|done|].
  split.
  - replace (next_stop (rev fs) T) with (leave_dest (fs ++ [ctx]) k T (length fs)); [done|].
    unfold leave_dest, next_stop. destruct (rev fs) as [|c r] eqn:Er.
    { apply (f_equal length) in Er. rewrite length_rev in Er. simpl in Er.
      rewrite decide_True by lia. done. }
    assert (Hc : fs !! (length fs - 1) = Some c).
    { apply (f_equal (@rev _)) in Er. rewrite rev_involutive in Er. simpl in Er. subst fs.
      rewrite length_app. simpl. by rewrite Nat.add_sub, list_lookup_middle. }
    assert (Hlt := lookup_lt_Some _ _ _ Hc). rewrite lookup_app_l, Hc by lia.
    case_decide as H1; [subst k|]; case_decide as H2; try done.
    + exfalso. apply (Hout c); [lia|by rewrite lookup_app_l|done].
    + exfalso. apply H2. apply (Hin (length fs - 1) c); [by rewrite lookup_app_l|lia].
  - apply IH; [done| |].
    + intros i c Hc Hki. assert (Hlt := lookup_lt_Some _ _ _ Hc).
      destruct (Hin i c) as [H1 H2]; [by rewrite lookup_app_l|done|]. split; [done|].
      unfold leave_dest in *. by rewrite lookup_app_l in H2 by lia.
    + intros c H0 Hc. apply Hout; [done|]. apply lookup_lt_Some in Hc as Hlt.
      by rewrite lookup_app_l.
Qed.

Lemma leave_dest_same fs fs' k T i :
  Forall2 same_ctx fs fs' -> leave_dest fs' k T i = leave_dest fs k T i.
Proof.
  intros H. unfold leave_dest. case_decide; [done|].
  destruct (fs !! (i - 1)) as [c|] eqn:E.
  - destruct (Forall2_lookup_l _ _ _ _ _ H E) as (c' & -> & [-> _]). done.
  - rewrite lookup_ge_None_2; [done|]. apply lookup_ge_None_1 in E.
    by rewrite <-(Forall2_length _ _ _ H).
Qed.

Lemma push_leave_targets_spec k T fs fs' :
  push_leave_targets k T fs = Done fs' ->
  Forall2 ctx_le fs fs' /\
  forall i ctx, fs' !! i = Some ctx -> k <= i -> leave_dest fs k T i ∈ targets ctx.
Proof.
  unfold push_leave_targets. intros Hr.
  apply (for_each_Done _ _ (fun dn fs1 => Forall2 ctx_le fs fs1 /\
    forall i ctx, fs1 !! i = Some ctx -> i ∈ dn -> leave_dest fs k T i ∈ targets ctx)) in Hr.
  - destruct Hr as [Hle Hrec]. split; [done|]. intros i ctx Hi Hk. apply (Hrec i ctx Hi).
    apply lookup_lt_Some in Hi. rewrite <-(Forall2_length _ _ _ Hle) in Hi.
    apply elem_of_seq. lia.
  - split; [done|]. by intros i ctx _ ?%not_elem_of_nil.
  - intros dn i rest fs1 fs2 Heq [Hle Hrec] Hs. run_inv. rename a into dest, a0 into c.
    apply set_idx_Done in Hs as [Hlt ->].
    assert (Hdest : dest = leave_dest fs k T i).
    { unfold leave_dest. case_decide; [by injection Ha as <-|]. apply idx_Done in Ha.
      apply list_lookup_fmap_Some in Ha as (c' & -> & ->). done. }
    split.
    + destruct (Forall2_lookup_r _ _ _ _ _ Hle Ha0) as (c0 & Hc0 & [Hs Ht]).
      rewrite <-(list_insert_id fs i c0 Hc0). apply Forall2_insert; [done|].
      split; [done|]. simpl. set_solver.
    + intros j ctx [(<- & <- & _)|[Hne Hj]]%list_lookup_insert_Some Hin; simpl.
      * rewrite <-Hdest. set_solver.
      * eapply Hrec; [done|]. set_solver.
Qed.

(** The counting loop stops at the first context that contains the target. *)
Lemma leaving_loop_spec fuel fs T k r :
  leaving_loop fuel fs T k = Done r -> k <= length fs ->
  (forall i ctx, fs !! i = Some ctx -> length fs - k <= i -> T < scope_start ctx) ->
  k <= r <= length fs /\
  (forall i ctx, fs !! i = Some ctx -> length fs - r <= i -> T < scope_start ctx) /\
  (forall ctx, r < length fs -> fs !! (length fs - r - 1) = Some ctx -> ~ T < scope_start ctx).
Proof.
  revert k; induction fuel as [|fuel IH]; intros k Hr Hk Hall; [done|]. simpl in Hr.
  case_decide as Hlt; [|injection Hr as <-; split_and!; [lia|lia|done|intros; lia]].
  run_inv. rename a into ctx, Ha into Hctx. case_decide as HT.
  - destruct (IH (S k) Hr) as (H1 & H2 & H3); [lia| |split_and!; [lia|lia|done|done]].
    intros i c Hc Hi. destruct (decide (i = length fs - 1 - k)) as [->|]; [by simplify_eq|].
    apply (Hall i c Hc). lia.
  - injection Hr as <-. split_and!; [lia|lia|done|]. intros c _ Hc.
    replace (length fs - k - 1) with (length fs - 1 - k) in Hc by lia. by simplify_eq.
Qed.

(** ** Outcomes in the final graph *)

(** The jump to [T] out of [s] is in the graph: from [p] the next stop is reached, and the
    [finally] contexts know how to go on. *)
Definition goes (b : Body) (G : list BasicBlock) (s : HirCfgBuilder) (T : BlockId) (p : point)
    (ρ : env) : Prop :=
  preach b G p (next_stop (rev (finally_stack s)) T, 0, ρ) /\ recorded (rev (finally_stack s)) T.

Definition const_expr (b : Body) (e : ExprId) : Prop :=
  exists v, eval_const_bool b e = Done (Some v).

(** An abrupt outcome [o] of a statement that starts at [p]. *)
Definition abrupt (b : Body) (G : list BasicBlock) (s : HirCfgBuilder) (p : point)
    (o : outcome) (ρ : env) : Prop :=
  match o with
  | ONormal => False
  | OBreak => exists ctx, list.last (break_stack s) = Some ctx /\
      goes b G s (break_target ctx) p ρ
  | OContinue => exists T, find_continue (rev (break_stack s)) = Some T /\ goes b G s T p ρ
  | OReturn | OThrow => finally_stack s <> [] -> goes b G s (exit_bb s) p ρ
  | OEval e => const_expr b e \/
      exists q, preach b G p q /\ at_expr b G q e /\ q.2 = ρ
  end.

Lemma goes_frame b G l s s' T p ρ : frame l s s' -> goes b G s T p ρ -> goes b G s' T p ρ.
Proof.
  intros Hf [H1 H2].
  pose proof (frame_contexts _ _ _ Hf) as Hr.
  split; [by rewrite (next_stop_mono _ _ _ Hr)|by eapply recorded_mono].
Qed.

Lemma abrupt_frame b G l s s' p o ρ : frame l s s' -> abrupt b G s p o ρ -> abrupt b G s' p o ρ.
Proof.
  intros Hf. pose proof (goes_frame b G l s s') as Hg. destruct o; simpl.
  - done.
  - rewrite (fr_breaks _ _ _ Hf). naive_solver.
  - rewrite (fr_breaks _ _ _ Hf). naive_solver.
  - rewrite (fr_exit _ _ _ Hf). intros H Hne. eapply Hg; [done|]. apply H.
    intros E. apply Hne. pose proof (fr_finally _ _ _ Hf) as H2. rewrite E in H2. by inversion H2.
  - rewrite (fr_exit _ _ _ Hf). intros H Hne. eapply Hg; [done|]. apply H.
    intros E. apply Hne. pose proof (fr_finally _ _ _ Hf) as H2. rewrite E in H2. by inversion H2.
  - done.
Qed.

Lemma goes_prepend b G s T p q ρ : preach b G p q -> goes b G s T q ρ -> goes b G s T p ρ.
Proof. intros H [H1 H2]. split; [by etransitivity|done]. Qed.

Lemma abrupt_prepend b G s p q o ρ :
  preach b G p q -> abrupt b G s q o ρ -> abrupt b G s p o ρ.
Proof.
  intros Hp. destruct o; simpl; try naive_solver eauto using goes_prepend.
  intros [?|(q' & ? & ? & ?)]; [by left|]. right. exists q'. split_and!; [by etransitivity|done..].
Qed.

(** Contexts that contain [T] are not left. *)
Lemma next_stop_inside fs T :
  Forall (fun ctx => scope_start ctx <= T) fs -> next_stop (rev fs) T = T.
Proof.
  destruct fs as [|ctx fs] using rev_ind; [done|]. intros [_ H]%Forall_app.
  rewrite rev_app_distr. simpl. apply Forall_inv in H. case_decide; [lia|done].
Qed.

(** ** The statement of the simulation *)

(** Bounds on the contexts: targets exist, and every open [try] began after the exit block. *)
Record ctx_ok (s : HirCfgBuilder) : Prop := {
  co_breaks : Forall (fun ctx => break_target ctx < nblocks s /\
    forall T, continue_target ctx = Some T -> T < nblocks s) (break_stack s);
  co_finally : Forall (fun ctx => exit_bb s < scope_start ctx < nblocks s) (finally_stack s);
  co_exit : exit_bb s < nblocks s
}.

Lemma ctx_ok_frame l s s' : frame l s s' -> ctx_ok s -> ctx_ok s'.
Proof.
  intros [N _ _ K F E] [H1 H2 H3]. split; [| |rewrite E; lia].
  - rewrite K. eapply List.Forall_impl; [|exact H1]. simpl. intros ctx [? Hc].
    split; [lia|]. intros T HT%Hc. lia.
  - rewrite E. clear -H2 F N. induction F as [|c c' l l' [[_ Hc] _] _ IH]; [done|].
    apply Forall_cons in H2 as [? ?]. constructor; [rewrite <-Hc; lia|auto].
Qed.

(** [break] and [continue] have a context when the semantics says they are inside a loop. *)
Definition flags_ok (brk cnt : bool) (s : HirCfgBuilder) : Prop :=
  (brk = true -> is_Some (list.last (break_stack s))) /\
  (cnt = true -> is_Some (find_continue (rev (break_stack s)))).

Lemma flags_ok_eq brk cnt s s' :
  break_stack s' = break_stack s -> flags_ok brk cnt s -> flags_ok brk cnt s'.
Proof. unfold flags_ok. by intros ->. Qed.

(** Something that starts at [p] ends normally at the end of [r], or abruptly. *)
Definition reaches (b : Body) (G : list BasicBlock) (s : HirCfgBuilder) (r : option BlockId)
    (p : point) (o : outcome) (ρ : env) : Prop :=
  (o = ONormal /\ exists x, r = Some x /\ preach b G p (x, length (sts s x), ρ)) \/
  abrupt b G s p o ρ.

(** The blocks a later step may change: the open end, and those that were there before. *)
Definition opened (O : BlockId -> Prop) (r : option BlockId) (entry : BlockId)
    (s s' : HirCfgBuilder) : Prop :=
  forall i, O i -> i < nblocks s' -> r = Some i \/ (i < nblocks s /\ i <> entry).

(** Code with the semantics [R] has been lowered into [entry], from [s] to [s']. *)
Record built (b : Body) (R : bool -> bool -> rel) (entry : BlockId) (s : HirCfgBuilder)
    (r : option BlockId) (s' : HirCfgBuilder) : Prop := {
  bu_frame : frame [entry] s s';
  bu_res : forall x, r = Some x -> (x = entry \/ nblocks s <= x) /\ x < nblocks s';
  bu_sim : forall G O brk cnt ρ o ρ', fin O s' G -> opened O r entry s s' ->
    flags_ok brk cnt s -> R brk cnt ρ o ρ' ->
    reaches b G s' r (entry, length (sts s entry), ρ) o ρ'
}.

(** The builder [m], started at [entry], lowers code with the semantics [R]. *)
Definition lowers (b : Body) (R : bool -> bool -> rel) (entry : BlockId)
    (m : M (option BlockId)) : Prop :=
  forall s, ctx_ok s -> entry < nblocks s -> pm m (built b R entry s) s.

(** *** Tactics: chains of frames, bounds, and membership in lists of changed blocks *)

Ltac frame_tac :=
  match goal with
  | |- frame _ ?x ?x => apply frame_refl
  | H : frame ?l ?x ?y |- frame _ ?x ?y => exact H
  | H : frame ?l ?x ?z |- frame _ ?x ?y => eapply (frame_trans l); [exact H|frame_tac]
  end.

Ltac res_facts :=
  repeat match goal with
  | H : forall x, ?r = Some x -> _, E : ?r = Some ?i |- _ => destruct (H i E); clear H
  | H : forall x, Some ?i = Some x -> _ |- _ => destruct (H i eq_refl); clear H
  end.

Ltac fr_lia :=
  res_facts;
  repeat match goal with H : frame _ _ _ |- _ => apply fr_n in H end; lia.

Ltac mem_cases H :=
  first
    [ apply elem_of_app in H as [H|H]; mem_cases H
    | apply elem_of_cons in H as [H|H]; [subst|mem_cases H]
    | apply not_elem_of_nil in H; destruct H
    | apply elem_of_option_list in H
    | idtac ].

Ltac notin := let H := fresh "Hmem" in intros H; mem_cases H; fr_lia.

(** The composed frame of the steps at hand, with the blocks that are new left out. *)
Ltac frame_sum :=
  eapply frame_weaken; [frame_tac|];
  let i := fresh "i" in let H := fresh "Hmem" in let Hi := fresh "Hlt" in
  intros i H Hi; mem_cases H;
  solve [apply list_elem_of_singleton; fr_lia | exfalso; fr_lia].

Ltac ok_tac :=
  match goal with
  | H : ctx_ok ?s |- ctx_ok ?s => exact H
  | H : ctx_ok ?s0 |- ctx_ok ?s => eapply (ctx_ok_frame _ s0 s); [frame_tac|exact H]
  end.

(** The blocks that later steps change are no blocks of this part, except its open end. *)
Ltac open_tac :=
  let i := fresh "i" in let H := fresh "Hi" in let Hlt := fresh "Hlt" in
  intros i [H|H] Hlt;
  [ match goal with
    | HO : opened _ _ _ _ _ |- _ => destruct (HO i H ltac:(fr_lia)) as [?|[? ?]]
    end
  | mem_cases H ];
  simplify_eq/=;
  first
    [ left; congruence
    | match goal with
      | |- Some ?x = Some ?j \/ _ => destruct (decide (j = x)) as [->|]; [by left|right; fr_lia]
      end
    | right; fr_lia
    | exfalso; fr_lia ].

Lemma sts_fresh s i : nblocks s <= i -> sts s i = [].
Proof. intros Hi. unfold sts. by rewrite lookup_ge_None_2. Qed.

(** The statements of a block before the steps that do not touch it. *)
Ltac sts_back :=
  repeat match goal with
  | S : forall i, sts ?s i = sts _ i |- context [sts ?s _] => rewrite !S
  | F : frame _ ?s0 ?s |- context [sts ?s ?i] =>
      rewrite (frame_sts _ s0 s i F) by first [fr_lia | notin]
  end.

Ltac sts_nil := sts_back; apply sts_fresh; fr_lia.

(** A block that is closed in the final state. *)
Ltac not_open :=
  let H := fresh "Ho" in intros H;
  match goal with
  | HO : opened _ _ _ _ _ |- _ => destruct (HO _ H ltac:(fr_lia)) as [?|[? ?]]
  end; simplify_eq/=; fr_lia.

(** ** Pieces of paths *)

Section Paths.
Context (b : Body) (G : list BasicBlock).

Lemma preach_term i ss term t ρ :
  G !! i = Some (mkBlock ss term) -> exec_term b ρ term t ->
  preach b G (i, length ss, ρ) (t, 0, ρ).
Proof. intros Hi Ht. apply rtc_once. by eapply ps_term. Qed.

Lemma preach_goto i ss t from ρ :
  G !! i = Some (mkBlock ss (Terminator.Goto t from)) ->
  preach b G (i, length ss, ρ) (t, 0, ρ).
Proof. intros Hi. eapply preach_term; [done|constructor]. Qed.

Lemma preach_stmt O s i st ρ ρ' ss :
  fin O s G -> sts s i = ss ++ [st] -> exec_stmt b ρ st ρ' ->
  preach b G (i, length ss, ρ) (i, length (sts s i), ρ').
Proof.
  intros HG Hs He. destruct (fin_stmt O s G i (length ss) st HG) as (blk & Hblk & Hst).
  { by rewrite Hs, list_lookup_middle. }
  rewrite Hs, length_app, Nat.add_1_r. apply rtc_once. by eapply ps_stmt.
Qed.

Lemma at_stmt O s i st k ρ ss e :
  fin O s G -> sts s i = ss ++ [st] -> stmt_is b st k -> e ∈ stmt_exprs k ->
  at_expr b G (i, length ss, ρ) e.
Proof.
  intros HG Hs (sd & Hsd & <-) He.
  destruct (fin_stmt O s G i (length ss) st HG) as (blk & Hblk & Hst).
  { by rewrite Hs, list_lookup_middle. }
  exists blk. split; [done|]. left. eauto.
Qed.

Lemma at_term i ss term ρ e :
  G !! i = Some (mkBlock ss term) -> e ∈ term_exprs term -> at_expr b G (i, length ss, ρ) e.
Proof. intros Hi He. exists (mkBlock ss term). split; [done|]. by right. Qed.

Lemma abrupt_eval s p e ρ : at_expr b G p e -> p.2 = ρ -> abrupt b G s p (OEval e) ρ.
Proof. intros Hat Hp. right. exists p. by split_and!. Qed.

(** A block that is set in [s] and not changed on the way to the final state. *)
Lemma final_block O l s sf i blk :
  fin O sf G -> frame l s sf -> cb_blocks (cfg s) !! i = Some blk -> ~ O i -> i ∉ l ->
  G !! i = Some blk.
Proof.
  intros HG Hf Hi HO Hl. eapply fin_closed; [by eapply fin_frame|done|]. by intros [?|?].
Qed.
End Paths.

Ltac final B :=
  eapply final_block; [eassumption| |exact B| |]; [frame_tac|not_open|notin].

(** The use of a part [built] on the way to a final state [sf]. *)
Lemma built_use b R e s1 r1 s2 O l sf G brk cnt ρ o ρ' :
  built b R e s1 r1 s2 -> fin O sf G -> frame l s2 sf ->
  (forall i, O i \/ i ∈ l -> i < nblocks s2 -> r1 = Some i \/ (i < nblocks s1 /\ i <> e)) ->
  flags_ok brk cnt s1 -> R brk cnt ρ o ρ' ->
  (o = ONormal /\ exists x, r1 = Some x /\
     preach b G (e, length (sts s1 e), ρ) (x, length (sts s2 x), ρ')) \/
  abrupt b G sf (e, length (sts s1 e), ρ) o ρ'.
Proof.
  intros [_ _ Hsim] HG Hf HO Hfl HR.
  destruct (Hsim G _ brk cnt ρ o ρ' (fin_frame _ _ _ _ _ HG Hf) HO Hfl HR) as [?|?]; [by left|].
  right. by eapply abrupt_frame.
Qed.

Ltac flags_tac :=
  match goal with
  | H : flags_ok ?b ?c ?s |- flags_ok ?b ?c ?s' =>
      apply (flags_ok_eq b c s s'); [eapply fr_breaks; frame_tac|exact H]
  end.

Ltac use Hb Hx :=
  eapply built_use; [exact Hb|eassumption| | | |exact Hx]; [frame_tac|open_tac|flags_tac].

Tactic Notation "part" constr(Hb) constr(Hx) "as" simple_intropattern(pat) :=
  let H := fresh in eassert (H : (_ /\ _) \/ _) by use Hb Hx; destruct H as pat.

(** A step that ends abruptly needs no end. *)
Lemma reaches_abrupt b G s r p o ρ : abrupt b G s p o ρ -> reaches b G s r p o ρ.
Proof. by right. Qed.

Lemma reaches_normal b G s x p ρ :
  preach b G p (x, length (sts s x), ρ) -> reaches b G s (Some x) p ONormal ρ.
Proof. left. eauto. Qed.

(** ** Simple statements *)

Lemma lowers_simple b st k entry :
  stmt_is b st k -> simple_kind k ->
  lowers b (fun brk cnt => sexec b brk cnt st) entry (_ ← m_push_stmt entry st; mret (Some entry)).
Proof.
  intros Hk Hs s Hok He. apply pm_bind, pm_push_stmt. intros s1 F1 N1 _ S1. apply pm_ret. split.
  - done.
  - intros x [= <-]. split; [by left|lia].
  - intros G O brk cnt ρ o ρ' HG _ _ Hx%(sexec_inv _ _ _ _ _ _ _ _ _ Hk).
    assert (Hx' : (exists e, e ∈ stmt_exprs k /\ o = OEval e /\ ρ' = ρ) \/
      (o = ONormal /\ exec_stmt b ρ st ρ')) by (by destruct k).
    destruct Hx' as [(e & Hin & -> & ->)|[-> Hx']].
    + by eapply reaches_abrupt, abrupt_eval; [eapply at_stmt|].
    + eapply reaches_normal. by eapply preach_stmt.
Qed.

(** ** Sequences *)

Section Kinds.
Context (b : Body) (rec : StmtId -> BlockId -> M (option BlockId)).
Context (Hrec : forall st entry,
  lowers b (fun brk cnt => sexec b brk cnt st) entry (rec st entry)).

(** Code that is not reached changes new blocks only, and the block it is put into. *)
Lemma pm_seq_unreached ss u s :
  ctx_ok s -> (forall x, u = Some x -> x < nblocks s) ->
  pm (build_seq_loop rec ss None u) (fun r s' => r = None /\ frame (option_list u) s s') s.
Proof.
  revert u s; induction ss as [|st ss IH]; intros u s Hok Hu; simpl.
  { apply pm_ret. split; [done|]. eapply frame_weaken; [apply frame_refl|set_solver]. }
  eapply (pm_seq _ _ (fun cur s1 => cur < nblocks s1 /\ frame [] s s1 /\
    (u = Some cur \/ (u = None /\ nblocks s <= cur)))).
  { destruct u as [x|]; [apply pm_ret; split_and!; [by apply Hu|apply frame_refl|by left]|].
    apply pm_new_block. intros s1 F1 N1 _. split_and!; [lia|done|by right]. }
  intros cur s1 (Hcur & F1 & Hu1). eapply pm_seq.
  { apply Hrec; [ok_tac|done]. }
  intros u2 s2 [F2 Hu2 _]. eapply pm_mono.
  { apply IH; [ok_tac|]. intros x Hx. by apply Hu2. }
  intros r s3 [-> F3]. split; [done|]. eapply frame_weaken; [frame_tac|].
  intros i Hi Hlt. apply elem_of_option_list. mem_cases Hi.
  - destruct Hu1 as [?|[_ ?]]; [done|lia].
  - destruct (Hu2 _ Hi) as [[->|?] _]; [destruct Hu1 as [?|[_ ?]]; [done|lia]|fr_lia].
Qed.

Lemma lowers_seq ss entry :
  lowers b (fun brk cnt => seq_exec (sexec b brk cnt) ss) entry (build_seq rec ss entry).
Proof.
  unfold build_seq. revert entry. induction ss as [|st ss IH]; intros entry s Hok He; simpl.
  { apply pm_ret. split.
    - eapply frame_weaken; [apply frame_refl|set_solver].
    - intros x [= <-]. auto.
    - intros G O brk cnt ρ o ρ' _ _ _ Hx. inversion Hx; subst. by apply reaches_normal. }
  eapply pm_seq; [by apply Hrec|]. intros [x|] s1 Hb1; pose proof Hb1 as [F1 R1 _].
  - eapply pm_mono; [apply IH; [ok_tac|fr_lia]|]. intros r s2 Hb2. pose proof Hb2 as [F2 R2 _].
    split; [frame_sum|intros y Hy; fr_lia|].
    intros G O brk cnt ρ o ρ' HG HO Hfl Hx.
    inversion Hx as [|? ? ? ρ1 ? ? Hst Hss|? ? ? ? ? Hst Hne]; subst.
    + part Hb1 Hst as [(_ & y & [= <-] & Hp)|[]].
      part Hb2 Hss as [(-> & y & -> & Hp2)|Ha].
      * apply reaches_normal. by etransitivity.
      * right. by eapply abrupt_prepend.
    + part Hb1 Hst as [(-> & _)|Ha]; [done|]. by right.
  - eapply pm_mono; [apply pm_seq_unreached; [ok_tac|done]|]. intros r s2 [-> F2].
    split; [frame_sum|done|]. intros G O brk cnt ρ o ρ' HG HO Hfl Hx.
    inversion Hx as [|? ? ? ρ1 ? ? Hst Hss|? ? ? ? ? Hst Hne]; subst.
    all: part Hb1 Hst as [(_ & y & ? & _)|Ha]; [done|]; try done; by right.
Qed.

(** ** Conditionals *)

(** The terminator of a block that tests [c]. *)
Record tests (c : ExprId) (t e : BlockId) (term : Terminator.t) : Prop := {
  te_step : forall ρ v, eval b ρ c (VBool v) -> exec_term b ρ term (if v : bool then t else e);
  te_expr : const_expr b c \/ c ∈ term_exprs term
}.

Lemma pm_cond_terminator s bb c t e st (Q : unit -> HirCfgBuilder -> Prop) :
  (forall s' term, frame [bb] s s' -> nblocks s' = nblocks s -> bb < nblocks s ->
     (forall i, sts s' i = sts s i) ->
     cb_blocks (cfg s') !! bb = Some (mkBlock (sts s bb) term) -> tests c t e term -> Q tt s') ->
  pm (cond_terminator b bb c t e st) Q s.
Proof.
  intros HQ. apply pm_bind, pm_lift. intros v Hv.
  assert (Hc : forall w, v = Some w -> const_expr b c) by (intros w ->; by exists w).
  assert (Hs : forall ρ w x, v = Some w -> eval b ρ c (VBool x) -> x = w).
  { intros ρ w x ->. by eapply eval_const_bool_sound. }
  destruct v as [[]|]; apply pm_set_terminator; intros s' F N H1 H2 H3; eapply HQ; eauto; split.
  1,3: intros ρ x Hx; rewrite (Hs _ _ _ eq_refl Hx); constructor.
  - left. by eapply Hc.
  - left. by eapply Hc.
  - intros ρ [] Hx; by constructor.
  - right. simpl. set_solver.
Qed.

Lemma pm_goto_from s r t (Q : unit -> HirCfgBuilder -> Prop) :
  (forall s', frame (option_list r) s s' -> nblocks s' = nblocks s ->
     (forall i, sts s' i = sts s i) ->
     (forall x, r = Some x -> x < nblocks s /\
        cb_blocks (cfg s') !! x = Some (mkBlock (sts s x) (Terminator.Goto t None))) -> Q tt s') ->
  pm (goto_from r t) Q s.
Proof.
  intros HQ. destruct r as [x|]; simpl.
  - apply pm_set_terminator. intros s' F N H1 H2 H3. apply HQ; auto. intros y [= <-]. done.
  - apply pm_ret, HQ; [apply frame_refl|done..].
Qed.

(** The test at the end of a block of the final graph. *)
Lemma tests_path G i ss c t e term ρ v :
  G !! i = Some (mkBlock ss term) -> tests c t e term -> eval b ρ c (VBool v) ->
  preach b G (i, length ss, ρ) (if v : bool then t else e, 0, ρ).
Proof. intros Hi [Hs _] Hv. eapply preach_term; [done|]. by apply Hs. Qed.

Lemma tests_eval G s i ss c t e term ρ :
  G !! i = Some (mkBlock ss term) -> tests c t e term ->
  abrupt b G s (i, length ss, ρ) (OEval c) ρ.
Proof.
  intros Hi [_ [Hc|Hc]]; [by left|]. eapply abrupt_eval; [|done]. by eapply at_term.
Qed.

(** An optional part: it is lowered into its block, or its block is left empty. *)
Lemma lowers_opt o entry :
  lowers b (fun brk cnt => opt_exec (sexec b brk cnt) o) entry
    (match o with Some st => rec st entry | None => mret (Some entry) end).
Proof.
  destruct o as [st|]; intros s Hok He.
  - eapply pm_mono; [by apply Hrec|]. intros r s' [F R Hs]. split; [done..|].
    intros G O brk cnt ρ o ρ' HG HO Hfl Hx. inversion Hx; subst. by eapply Hs.
  - apply pm_ret. split.
    + eapply frame_weaken; [apply frame_refl|set_solver].
    + intros x [= <-]. auto.
    + intros G O brk cnt ρ o ρ' _ _ _ Hx. inversion Hx; subst. by apply reaches_normal.
Qed.

(** A part that ends at [r], from where the graph goes on to [t]. *)
Lemma then_goto G sf e0 s0 r s1 t ρ o ρ' :
  (o = ONormal /\ exists x, r = Some x /\ preach b G (e0, length (sts s0 e0), ρ)
     (x, length (sts s1 x), ρ')) \/ abrupt b G sf (e0, length (sts s0 e0), ρ) o ρ' ->
  sts s0 e0 = [] ->
  (forall x, r = Some x -> G !! x = Some (mkBlock (sts s1 x) (Terminator.Goto t None))) ->
  (o = ONormal /\ is_Some r /\ preach b G (e0, 0, ρ) (t, 0, ρ')) \/ abrupt b G sf (e0, 0, ρ) o ρ'.
Proof.
  intros H Hnil Hg. rewrite Hnil in H. destruct H as [(-> & x & -> & Hp)|?]; [|by right].
  left. split_and!; [done|by eexists|]. etransitivity; [exact Hp|]. by eapply preach_goto, Hg.
Qed.

Lemma lowers_if st c t e entry :
  stmt_is b st (StmtKind.If c t e) ->
  lowers b (fun brk cnt => sexec b brk cnt st) entry (build_if b rec st c t e entry).
Proof.
  intros Hk s Hok He. unfold build_if.
  apply pm_bind, pm_new_block. intros s1 F1 N1 S1.
  apply pm_bind, pm_new_block. intros s2 F2 N2 S2.
  apply pm_bind, pm_new_block. intros s3 F3 N3 S3.
  set (te := nblocks s) in *. set (ee := nblocks s1) in *. set (jn := nblocks s2) in *.
  apply pm_bind, pm_cond_terminator. intros s4 term F4 N4 _ S4 B4 Ht.
  eapply pm_seq; [apply Hrec; [ok_tac|fr_lia]|].
  intros r1 s5 Hb1; pose proof Hb1 as [F5 R5 _].
  apply pm_bind, pm_goto_from. intros s6 F6 N6 S6 B6.
  eapply pm_seq; [apply lowers_opt; [ok_tac|fr_lia]|].
  intros r2 s7 Hb2; pose proof Hb2 as [F7 R7 _].
  apply pm_bind, pm_goto_from. intros s8 F8 N8 S8 B8. apply pm_ret. split.
  - frame_sum.
  - intros x Hx. destruct (is_some r1 || is_some r2); simplify_eq. fr_lia.
  - intros G O brk cnt ρ o ρ' HG HO Hfl Hx%(sexec_inv _ _ _ _ _ _ _ _ _ Hk).
    assert (HO' : opened O (Some jn) entry s s8).
    { intros i Hi Hlt. specialize (HO i Hi Hlt). destruct (is_some r1 || is_some r2); naive_solver. }
    clear HO.
    assert (HE : G !! entry = Some (mkBlock (sts s entry) term)).
    { rewrite S3, S2, S1 in B4. final B4. }
    assert (H1 : forall x, r1 = Some x ->
      G !! x = Some (mkBlock (sts s5 x) (Terminator.Goto jn None))).
    { intros x E1. destruct (B6 x E1) as [_ Bx]. final Bx. }
    assert (H2 : forall x, r2 = Some x ->
      G !! x = Some (mkBlock (sts s7 x) (Terminator.Goto jn None))).
    { intros x E1. destruct (B8 x E1) as [_ Bx]. final Bx. }
    assert (Hj : sts s8 jn = []) by sts_nil.
    destruct Hx as [[-> ->]|[[Hv Hx]|[Hv Hx]]].
    + right. by eapply tests_eval.
    + pose proof (tests_path _ _ _ _ _ _ _ _ true HE Ht Hv) as Hp.
      destruct (then_goto G s8 te s4 r1 s5 jn ρ o ρ') as [(-> & [x ->] & Hp2)|Ha];
        [by use Hb1 Hx|sts_nil|done| |].
      * apply reaches_normal. rewrite Hj. by etransitivity.
      * right. by eapply abrupt_prepend.
    + pose proof (tests_path _ _ _ _ _ _ _ _ false HE Ht Hv) as Hp.
      destruct (then_goto G s8 ee s6 r2 s7 jn ρ o ρ') as [(-> & [x ->] & Hp2)|Ha];
        [by use Hb2 Hx|sts_nil|done| |].
      * rewrite orb_true_r. apply reaches_normal. rewrite Hj. by etransitivity.
      * right. by eapply abrupt_prepend.
Qed.

(** ** Loops *)

(** What the final graph has for a loop with the condition [c], the body [R] and the update
    [U]: its blocks for the test, the body, the update and what follows. *)
Record loop_in (G : list BasicBlock) (sf : HirCfgBuilder) (c : option ExprId) (R U : rel)
    (cond body upd after : BlockId) : Prop := {
  lo_none : c = None -> forall ρ, preach b G (cond, 0, ρ) (body, 0, ρ);
  lo_test : forall e ρ v, c = Some e -> eval b ρ e (VBool v) ->
    preach b G (cond, 0, ρ) (if v : bool then body else after, 0, ρ);
  lo_eval : forall e ρ, c = Some e -> abrupt b G sf (cond, 0, ρ) (OEval e) ρ;
  lo_body : forall ρ o ρ', R ρ o ρ' ->
    (continues o /\ preach b G (body, 0, ρ) (upd, 0, ρ')) \/
    (o = OBreak /\ preach b G (body, 0, ρ) (after, 0, ρ')) \/
    (leaves o /\ abrupt b G sf (body, 0, ρ) o ρ');
  lo_upd : forall ρ o ρ', U ρ o ρ' ->
    (o = ONormal /\ preach b G (upd, 0, ρ) (cond, 0, ρ')) \/ abrupt b G sf (upd, 0, ρ) o ρ'
}.

Lemma loop_path G sf c R U cond body upd after tst ρ o ρ' :
  loop_in G sf c R U cond body upd after -> loop_exec b c R U tst ρ o ρ' ->
  let p := if tst : bool then cond else body in
  (o = ONormal /\ preach b G (p, 0, ρ) (after, 0, ρ')) \/ abrupt b G sf (p, 0, ρ) o ρ'.
Proof.
  intros L. induction 1 as [ρ e Hc|ρ e Hc Hv|ρ o ρ' Hc _ IH|ρ ρ' HR|ρ o ρ' HR Hl
    |ρ o1 ρ1 o ρ' HR Hcn HU Hne|ρ o1 ρ1 ρ2 o ρ' HR Hcn HU _ IH]; simpl in *.
  - right. by eapply lo_eval.
  - left. split; [done|]. apply (lo_test _ _ _ _ _ _ _ _ _ L e ρ false Hc Hv).
  - assert (Hp : preach b G (cond, 0, ρ) (body, 0, ρ)).
    { destruct c as [e|]; [|by eapply lo_none].
      apply (lo_test _ _ _ _ _ _ _ _ _ L e ρ true eq_refl). by apply Hc. }
    destruct IH as [[-> IH]|IH]; [left; split; [done|]; by etransitivity|].
    right. by eapply abrupt_prepend.
  - destruct (lo_body _ _ _ _ _ _ _ _ _ L _ _ _ HR) as [[[] _]|[[_ ?]|[[] _]]]; auto; done.
  - right. destruct (lo_body _ _ _ _ _ _ _ _ _ L _ _ _ HR) as [[Hcn _]|[[-> _]|[_ ?]]]; try done.
    destruct Hcn as [-> | ->]; done.
  - destruct (lo_body _ _ _ _ _ _ _ _ _ L _ _ _ HR) as [[_ Hp]|[[-> _]|[Hl _]]];
      [|by destruct Hcn|by destruct Hcn; subst].
    destruct (lo_upd _ _ _ _ _ _ _ _ _ L _ _ _ HU) as [[-> _]|Ha]; [done|].
    right. by eapply abrupt_prepend.
  - destruct (lo_body _ _ _ _ _ _ _ _ _ L _ _ _ HR) as [[_ Hp]|[[-> _]|[Hl _]]];
      [|by destruct Hcn|by destruct Hcn; subst].
    destruct (lo_upd _ _ _ _ _ _ _ _ _ L _ _ _ HU) as [[_ Hp2]|[]].
    assert (Hp3 : preach b G (body, 0, ρ) (cond, 0, ρ2)) by by etransitivity.
    destruct IH as [[-> IH]|IH]; [left; split; [done|]; by etransitivity|].
    right. by eapply abrupt_prepend.
Qed.

(** The body of a loop or an arm of a [switch], lowered under a [break] context that is then
    popped. *)
Definition popped (s : HirCfgBuilder) : HirCfgBuilder :=
  mkHir (cfg s) (removelast (break_stack s)) (finally_stack s) (exit_bb s).

(** Outcomes that a loop or [switch] passes on do not depend on its context. *)
Lemma abrupt_leaves G s s' p o ρ :
  finally_stack s' = finally_stack s -> exit_bb s' = exit_bb s -> leaves o ->
  abrupt b G s p o ρ -> abrupt b G s' p o ρ.
Proof. intros Hf He Hl. destruct o; try done; simpl; unfold goes; by rewrite Hf, He. Qed.

(** A jump to a target inside every open [try]. *)
Lemma goes_inside G s T p ρ :
  Forall (fun ctx => scope_start ctx <= T) (finally_stack s) -> goes b G s T p ρ ->
  preach b G p (T, 0, ρ).
Proof. intros Hin [Hp _]. by rewrite next_stop_inside in Hp. Qed.

Lemma scopes_frame l s s' T :
  frame l s s' -> ctx_ok s -> nblocks s <= T ->
  Forall (fun ctx => scope_start ctx <= T) (finally_stack s').
Proof.
  intros F [_ H _] HT. pose proof (fr_finally _ _ _ F) as Hf. clear F.
  induction Hf as [|c c' l1 l2 [[_ Hc] _] _ IH]; [constructor|].
  apply Forall_cons in H as [? ?]. constructor; [rewrite <-Hc; lia|auto].
Qed.

Lemma pm_with_break {A B} (m : M A) (k : A -> M B) ctx s Qm Q :
  pm m Qm (pushed_break ctx s) ->
  (forall a s2, Qm a s2 -> pm (k a) Q (popped s2)) ->
  pm (_ ← push_break ctx; a ← m; _ ← pop_break; k a) Q s.
Proof.
  intros Hm Hk. apply pm_bind, pm_bind, pm_get. intros [] s1 [= <-].
  eapply pm_seq; [exact Hm|]. intros a s2 Ha.
  apply pm_bind, pm_bind, pm_get. intros [] s3 [= <-]. by apply Hk.
Qed.

Record loop_body (body bb after cont : BlockId) (s : HirCfgBuilder) (r : option BlockId)
    (s' : HirCfgBuilder) : Prop := {
  lb_frame : frame [bb] s s';
  lb_res : forall x, r = Some x -> (x = bb \/ nblocks s <= x) /\ x < nblocks s';
  lb_path : forall G O l sf ρ o ρ', fin O sf G -> frame l s' sf ->
    (forall i, O i \/ i ∈ l -> i < nblocks s' -> r = Some i \/ (i < nblocks s /\ i <> bb)) ->
    sts s bb = [] ->
    (forall x, r = Some x -> G !! x = Some (mkBlock (sts s' x) (Terminator.Goto cont None))) ->
    sexec b true true body ρ o ρ' ->
    (continues o /\ preach b G (bb, 0, ρ) (cont, 0, ρ')) \/
    (o = OBreak /\ preach b G (bb, 0, ρ) (after, 0, ρ')) \/
    (leaves o /\ abrupt b G sf (bb, 0, ρ) o ρ')
}.

(** [s0] is the state before the blocks of the loop were made. *)
Lemma pm_loop_body {A} body bb after cont (k : option BlockId -> M A) l0 s0 s Q :
  ctx_ok s0 -> frame l0 s0 s -> bb < nblocks s ->
  nblocks s0 <= after < nblocks s -> nblocks s0 <= cont < nblocks s ->
  (forall r s', loop_body body bb after cont s r s' -> pm (k r) Q s') ->
  pm (_ ← push_break (mkBreak after (Some cont)); r ← rec body bb; _ ← pop_break; k r) Q s.
Proof.
  intros Hok0 F0 Hbb Ha Hc Hk. set (ctx := mkBreak after (Some cont)).
  assert (Hok : ctx_ok (pushed_break ctx s)).
  { destruct (ctx_ok_frame _ _ _ F0 Hok0) as [H1 H2 H3]. split; simpl; [|done..].
    apply Forall_app. split; [done|]. constructor; [|done]. simpl. split; [lia|].
    intros T [= <-]. lia. }
  eapply pm_with_break; [by apply Hrec|]. intros r s2 [F2 R2 Hsim]. apply Hk.
  assert (Hfl : flags_ok true true (pushed_break ctx s)).
  { split; intros _; simpl; [rewrite last_snoc|rewrite rev_app_distr]; by eexists. }
  split; [by eapply frame_pushed_break|done|].
  intros G O l sf ρ o ρ' HG Hf HO Hnil Hg Hx.
  destruct (Hsim G _ true true ρ o ρ' (fin_frame _ _ _ _ _ HG Hf) HO Hfl Hx) as [(-> & x & -> & Hp)|Hab];
    change (sts (pushed_break ctx s) bb) with (sts s bb) in *; rewrite Hnil in *.
  - left. split; [by left|]. etransitivity; [exact Hp|]. by eapply preach_goto, Hg.
  - assert (Hsc : forall T, nblocks s0 <= T ->
      Forall (fun ctx => scope_start ctx <= T) (finally_stack s2)).
    { intros T HT. eapply (scopes_frame (l0 ++ [bb]) s0 (popped s2)); [|done..].
      eapply frame_trans; [exact F0|by eapply frame_pushed_break]. }
    destruct o; simpl in Hab; try done.
    + right; left. split; [done|]. destruct Hab as (c' & Hl & Hgo).
      rewrite (fr_breaks _ _ _ F2) in Hl. simpl in Hl. rewrite last_snoc in Hl.
      injection Hl as <-. eapply goes_inside; [|exact Hgo]. apply Hsc. simpl. lia.
    + left. split; [by right|]. destruct Hab as (T & Hl & Hgo).
      rewrite (fr_breaks _ _ _ F2) in Hl. simpl in Hl. rewrite rev_app_distr in Hl.
      injection Hl as <-. eapply goes_inside; [|exact Hgo]. apply Hsc. lia.
    + right; right. split; [done|]. eapply abrupt_frame; [exact Hf|].
      eapply (abrupt_leaves G s2); done.
    + right; right. split; [done|]. eapply abrupt_frame; [exact Hf|].
      eapply (abrupt_leaves G s2); done.
    + right; right. split; [done|]. eapply abrupt_frame; [exact Hf|].
      eapply (abrupt_leaves G s2); done.
Qed.

(** The test at the start of an empty block of the final graph. *)
Lemma loop_test G sf cond body after term e :
  G !! cond = Some (mkBlock [] term) -> tests e body after term ->
  (forall e' ρ v, Some e = Some e' -> eval b ρ e' (VBool v) ->
     preach b G (cond, 0, ρ) (if v : bool then body else after, 0, ρ)) /\
  (forall e' ρ, Some e = Some e' -> abrupt b G sf (cond, 0, ρ) (OEval e') ρ).
Proof.
  intros Hb Ht. split.
  - intros e' ρ v [= <-] Hv. by eapply (tests_path G cond []).
  - intros e' ρ [= <-]. by eapply (tests_eval G sf cond []).
Qed.

Lemma no_update G sf cond brk cnt ρ o ρ' :
  opt_exec (sexec b brk cnt) None ρ o ρ' ->
  (o = ONormal /\ preach b G (cond, 0, ρ) (cond, 0, ρ')) \/ abrupt b G sf (cond, 0, ρ) o ρ'.
Proof. intros Hx. inversion Hx; subst. by left. Qed.

Lemma lowers_while st c body entry :
  stmt_is b st (StmtKind.While c body) ->
  lowers b (fun brk cnt => sexec b brk cnt st) entry (build_while b rec st c body entry).
Proof.
  intros Hk s Hok He. unfold build_while.
  apply pm_bind, pm_new_block. intros s1 F1 N1 S1.
  apply pm_bind, pm_new_block. intros s2 F2 N2 S2.
  apply pm_bind, pm_new_block. intros s3 F3 N3 S3.
  set (cb := nblocks s) in *. set (bb := nblocks s1) in *. set (ab := nblocks s2) in *.
  apply pm_bind, pm_set_terminator. intros s4 F4 N4 _ S4 B4.
  apply pm_bind, pm_cond_terminator. intros s5 term F5 N5 _ S5 B5 Ht.
  eapply (pm_loop_body _ _ _ _ _ _ s); [done|frame_tac|fr_lia..|].
  intros r s6 Hb; pose proof Hb as [F6 R6 Hpath].
  apply pm_bind, pm_goto_from. intros s7 F7 N7 S7 B7. apply pm_ret. split.
  - frame_sum.
  - intros x [= <-]. fr_lia.
  - intros G O brk cnt ρ o ρ' HG HO Hfl Hx%(sexec_inv _ _ _ _ _ _ _ _ _ Hk).
    assert (HE : G !! entry = Some (mkBlock (sts s entry) (Terminator.Goto cb None))).
    { rewrite S3, S2, S1 in B4. final B4. }
    assert (HC : G !! cb = Some (mkBlock [] term)).
    { replace (sts s4 cb) with (@nil StmtId) in B5 by (symmetry; sts_nil). final B5. }
    assert (HR : forall x, r = Some x ->
      G !! x = Some (mkBlock (sts s6 x) (Terminator.Goto cb None))).
    { intros x E1. destruct (B7 x E1) as [_ Bx]. final Bx. }
    destruct (loop_test G s7 cb bb ab term c HC Ht) as [HT1 HT2].
    assert (L : loop_in G s7 (Some c) (sexec b true true body) (opt_exec (sexec b brk cnt) None)
      cb bb cb ab).
    { split; [done|done|done| |].
      - intros ρ0 o0 ρ1 H0. eapply Hpath; [exact HG|frame_tac|open_tac|sts_nil|done|done].
      - intros ρ0 o0 ρ1. apply no_update. }
    pose proof (preach_goto b G entry _ cb _ ρ HE) as Hp.
    destruct (loop_path _ _ _ _ _ _ _ _ _ _ _ _ _ L Hx) as [[-> Hp2]|Ha].
    + apply reaches_normal. replace (sts s7 ab) with (@nil StmtId) by (symmetry; sts_nil).
      by etransitivity.
    + right. by eapply abrupt_prepend.
Qed.

Lemma lowers_do_while st c body entry :
  stmt_is b st (StmtKind.DoWhile body c) ->
  lowers b (fun brk cnt => sexec b brk cnt st) entry (build_do_while b rec st body c entry).
Proof.
  intros Hk s Hok He. unfold build_do_while.
  apply pm_bind, pm_new_block. intros s1 F1 N1 S1.
  apply pm_bind, pm_new_block. intros s2 F2 N2 S2.
  apply pm_bind, pm_new_block. intros s3 F3 N3 S3.
  set (bb := nblocks s) in *. set (cb := nblocks s1) in *. set (ab := nblocks s2) in *.
  apply pm_bind, pm_set_terminator. intros s4 F4 N4 _ S4 B4.
  eapply (pm_loop_body _ _ _ _ _ _ s); [done|frame_tac|fr_lia..|].
  intros r s5 Hb; pose proof Hb as [F5 R5 Hpath].
  apply pm_bind, pm_goto_from. intros s6 F6 N6 S6 B6.
  apply pm_bind, pm_cond_terminator. intros s7 term F7 N7 _ S7 B7 Ht. apply pm_ret. split.
  - frame_sum.
  - intros x [= <-]. fr_lia.
  - intros G O brk cnt ρ o ρ' HG HO Hfl Hx%(sexec_inv _ _ _ _ _ _ _ _ _ Hk).
    assert (HE : G !! entry = Some (mkBlock (sts s entry) (Terminator.Goto bb None))).
    { rewrite S3, S2, S1 in B4. final B4. }
    assert (HC : G !! cb = Some (mkBlock [] term)).
    { replace (sts s6 cb) with (@nil StmtId) in B7 by (symmetry; sts_nil). final B7. }
    assert (HR : forall x, r = Some x ->
      G !! x = Some (mkBlock (sts s5 x) (Terminator.Goto cb None))).
    { intros x E1. destruct (B6 x E1) as [_ Bx]. final Bx. }
    destruct (loop_test G s7 cb bb ab term c HC Ht) as [HT1 HT2].
    assert (L : loop_in G s7 (Some c) (sexec b true true body) (opt_exec (sexec b brk cnt) None)
      cb bb cb ab).
    { split; [done|done|done| |].
      - intros ρ0 o0 ρ1 H0. eapply Hpath; [exact HG|frame_tac|open_tac|sts_nil|done|done].
      - intros ρ0 o0 ρ1. apply no_update. }
    pose proof (preach_goto b G entry _ bb _ ρ HE) as Hp.
    destruct (loop_path _ _ _ _ _ _ _ _ _ _ _ _ _ L Hx) as [[-> Hp2]|Ha].
    + apply reaches_normal. replace (sts s7 ab) with (@nil StmtId) by (symmetry; sts_nil).
      by etransitivity.
    + right. by eapply abrupt_prepend.
Qed.

(** The block of the update, or the one of the test when there is none. *)
Lemma pm_update_block (u : option StmtId) cb s (Q : BlockId -> HirCfgBuilder -> Prop) :
  (forall ub s', frame [] s s' -> nblocks s <= nblocks s' -> (forall i, sts s' i = sts s i) ->
     (u = None /\ ub = cb) \/ (is_Some u /\ ub = nblocks s /\ nblocks s < nblocks s') -> Q ub s') ->
  pm (match u with Some _ => m_new_block | None => mret cb end) Q s.
Proof.
  intros HQ. destruct u as [u|].
  - apply pm_new_block. intros s' F N S. apply HQ; [done|lia|done|]. right.
    split_and!; [by eexists|done|lia].
  - apply pm_ret, HQ; [apply frame_refl|done|done|]. by left.
Qed.

(** The test of a [for] loop. *)
Lemma pm_for_test (c : option ExprId) st cb bb ab s (Q : unit -> HirCfgBuilder -> Prop) :
  (forall s' term, frame [cb] s s' -> nblocks s' = nblocks s -> cb < nblocks s ->
     (forall i, sts s' i = sts s i) ->
     cb_blocks (cfg s') !! cb = Some (mkBlock (sts s cb) term) ->
     match c with
     | Some c => tests c bb ab term
     | None => term = Terminator.Goto bb (Some st)
     end -> Q tt s') ->
  pm (match c with
      | Some c => cond_terminator b cb c bb ab st
      | None => m_set_terminator cb (Terminator.Goto bb (Some st))
      end) Q s.
Proof.
  intros HQ. destruct c as [c|].
  - apply pm_cond_terminator. eauto.
  - apply pm_set_terminator. intros s' F N H1 H2 H3. by eapply HQ.
Qed.

(** The update, lowered into its block [ub], and the way back to the test [cb]. *)
Lemma pm_for_update (u : option StmtId) cb ub s (Q : unit -> HirCfgBuilder -> Prop) :
  ctx_ok s -> (is_Some u -> ub < nblocks s /\ sts s ub = []) -> (u = None -> ub = cb) ->
  (forall s' ou, frame (option_list ou) s s' ->
     (forall x, ou = Some x -> is_Some u /\ x = ub) ->
     (forall G O l sf brk cnt ρ o ρ', fin O sf G -> frame l s' sf ->
        (forall i, O i \/ i ∈ l -> i < nblocks s' -> i < nblocks s /\ (is_Some u -> i <> ub)) ->
        flags_ok brk cnt s -> opt_exec (sexec b brk cnt) u ρ o ρ' ->
        (o = ONormal /\ preach b G (ub, 0, ρ) (cb, 0, ρ')) \/ abrupt b G sf (ub, 0, ρ) o ρ') ->
     Q tt s') ->
  pm (match u with
      | Some u => r ← rec u ub; goto_from r cb
      | None => mret tt
      end) Q s.
Proof.
  intros Hok Hub Hnone HQ. destruct u as [u|].
  - destruct (Hub ltac:(by eexists)) as [Hlt Hnil]. eapply pm_seq; [by apply Hrec|].
    intros r s1 Hb; pose proof Hb as [F1 R1 _]. apply pm_goto_from. intros s2 F2 N2 S2 B2.
    apply (HQ s2 (Some ub)); [frame_sum| |].
    + intros x [= <-]. split; [by eexists|done].
    + intros G O l sf brk cnt ρ o ρ' HG Hf HO Hfl Hx. inversion Hx as [|? ? ? ? Hx']; subst.
      assert (HO' : forall i, O i \/ i ∈ l -> i < nblocks s2 -> i < nblocks s /\ i <> ub).
      { intros i Hi Hlt2. destruct (HO i Hi Hlt2) as [? Hne]. split; [done|]. apply Hne. by eexists. }
      destruct (then_goto G sf ub s r s1 cb ρ o ρ') as [(-> & _ & Hp)|Ha]; auto.
      * eapply built_use; [exact Hb|exact HG|frame_tac| |exact Hfl|exact Hx'].
        intros i [Hi|Hi] Hlt2; [destruct (HO' i (or_introl Hi) ltac:(fr_lia)); by right|].
        mem_cases Hi; [by left|]. destruct (HO' i (or_intror Hi) ltac:(fr_lia)). by right.
      * intros x E1. destruct (B2 x E1) as [Hx2 Bx].
        eapply final_block; [exact HG|exact Hf|exact Bx| |].
        -- intros Hi. destruct (HO' x (or_introl Hi) ltac:(fr_lia)). fr_lia.
        -- intros Hi. destruct (HO' x (or_intror Hi) ltac:(fr_lia)). fr_lia.
  - pose proof (Hnone eq_refl) as ->. apply pm_ret. apply (HQ s None); [apply frame_refl|done|].
    intros G O l sf brk cnt ρ o ρ' _ _ _ _ Hx. by eapply no_update.
Qed.

Lemma lowers_for_loop st c u body entry :
  lowers b (fun brk cnt => loop_exec b c (sexec b true true body) (opt_exec (sexec b brk cnt) u) true)
    entry (build_for_loop b rec st c u body entry).
Proof.
  intros s Hok He. unfold build_for_loop.
  apply pm_bind, pm_new_block. intros s1 F1 N1 S1.
  apply pm_bind, pm_new_block. intros s2 F2 N2 S2.
  set (cb := nblocks s) in *. set (bb := nblocks s1) in *.
  apply pm_bind, pm_update_block. intros ub s3 F3 N3 S3 Hub.
  apply pm_bind, pm_new_block. intros s4 F4 N4 S4. set (ab := nblocks s3) in *.
  apply pm_bind, pm_set_terminator. intros s5 F5 N5 _ S5 B5.
  apply pm_bind, pm_for_test. intros s6 term F6 N6 _ S6 B6 Ht.
  assert (Hubr : cb <= ub /\ ub < ab) by (destruct Hub as [[_ ->]|(_ & -> & ?)]; fr_lia).
  assert (Hubu : is_Some u -> bb < ub) by (intros [? ->]; destruct Hub as [[? _]|(_ & -> & _)]; [done|fr_lia]).
  eapply (pm_loop_body _ _ _ _ _ _ s); [done|frame_tac|fr_lia..|].
  intros r s7 Hb; pose proof Hb as [F7 R7 Hpath].
  apply pm_bind, pm_goto_from. intros s8 F8 N8 S8 B8.
  apply pm_bind, pm_for_update; [ok_tac| | |].
  { intros Hu. specialize (Hubu Hu). split; [fr_lia|]. sts_nil. }
  { intros ->. by destruct Hub as [[_ ->]|[[? ?] _]]. }
  intros s9 ou F9 Hou Hupd. apply pm_ret.
  assert (R9 : forall x, ou = Some x -> bb < x /\ x < ab).
  { intros x Hx. destruct (Hou x Hx) as [Hu ->]. by split; [apply Hubu|apply Hubr]. }
  split; [frame_sum|intros x [= <-]; fr_lia|].
  intros G O brk cnt ρ o ρ' HG HO Hfl Hx.
  assert (HE : G !! entry = Some (mkBlock (sts s entry) (Terminator.Goto cb None))).
  { rewrite S4, S3, S2, S1 in B5. final B5. }
  assert (HC : G !! cb = Some (mkBlock [] term)).
  { replace (sts s5 cb) with (@nil StmtId) in B6 by (symmetry; sts_nil). final B6. }
  assert (HR : forall x, r = Some x ->
    G !! x = Some (mkBlock (sts s7 x) (Terminator.Goto ub None))).
  { intros x E1. destruct (B8 x E1) as [_ Bx]. final Bx. }
  assert (L : loop_in G s9 c (sexec b true true body) (opt_exec (sexec b brk cnt) u) cb bb ub ab).
  { assert (Hfl8 : flags_ok brk cnt s8) by flags_tac.
    split.
    - intros -> ρ0. subst term. by eapply (preach_goto b G cb []).
    - intros e ρ0 v -> Hv. by eapply (loop_test G s9).
    - intros e ρ0 ->. by eapply (loop_test G s9).
    - intros ρ0 o0 ρ1 H0. eapply Hpath; [exact HG|frame_tac|open_tac|sts_nil|done|done].
    - intros ρ0 o0 ρ1 H0. eapply Hupd; [exact HG|apply frame_refl| |exact Hfl8|exact H0].
      intros i [Hi|Hi] Hlt; [|by apply not_elem_of_nil in Hi].
      destruct (HO i Hi Hlt) as [[= <-]|[? ?]]; (split; [fr_lia|]); intros Hu%Hubu; fr_lia. }
  pose proof (preach_goto b G entry _ cb _ ρ HE) as Hp.
  destruct (loop_path _ _ _ _ _ _ _ _ _ _ _ _ _ L Hx) as [[-> Hp2]|Ha].
  - apply reaches_normal. replace (sts s9 ab) with (@nil StmtId) by (symmetry; sts_nil).
    by etransitivity.
  - right. by eapply abrupt_prepend.
Qed.

Lemma lowers_for st i c u body entry :
  stmt_is b st (StmtKind.For i c u body) ->
  lowers b (fun brk cnt => sexec b brk cnt st) entry (build_for b rec st i c u body entry).
Proof.
  intros Hk s Hok He. unfold build_for.
  eapply pm_seq; [by apply lowers_opt|]. intros [x|] s1 Hb1; pose proof Hb1 as [F1 R1 _].
  - eapply pm_mono; [apply lowers_for_loop; [ok_tac|fr_lia]|].
    intros r s2 Hb2; pose proof Hb2 as [F2 R2 _].
    split; [frame_sum|intros y Hy; fr_lia|].
    intros G O brk cnt ρ o ρ' HG HO Hfl [[Hx Hne]|(ρ1 & Hx1 & Hx2)]%(sexec_inv _ _ _ _ _ _ _ _ _ Hk).
    + part Hb1 Hx as [[-> _]|Ha]; [done|]. by right.
    + part Hb1 Hx1 as [(_ & y & [= <-] & Hp)|[]].
      part Hb2 Hx2 as [(-> & y & -> & Hp2)|Ha].
      * apply reaches_normal. by etransitivity.
      * right. by eapply abrupt_prepend.
  - apply pm_ret. split; [done..|].
    intros G O brk cnt ρ o ρ' HG HO Hfl [[Hx Hne]|(ρ1 & Hx1 & Hx2)]%(sexec_inv _ _ _ _ _ _ _ _ _ Hk).
    + part Hb1 Hx as [[-> _]|Ha]; [done|]. by right.
    + part Hb1 Hx1 as [(_ & y & ? & Hp)|[]]. done.
Qed.

(** ** [switch] *)

Lemma pm_new_blocks n s (Q : list BlockId -> HirCfgBuilder -> Prop) :
  (forall s', frame [] s s' -> nblocks s' = nblocks s + n -> (forall i, sts s' i = sts s i) ->
     Q (seq (nblocks s) n) s') ->
  pm (new_blocks n) Q s.
Proof.
  revert s Q; induction n as [|n IH]; intros s Q HQ; simpl.
  - apply pm_ret, HQ; [apply frame_refl|lia|done].
  - apply pm_bind, pm_new_block. intros s1 F1 N1 S1.
    apply pm_bind, IH. intros s2 F2 N2 S2. apply pm_ret. rewrite N1. apply HQ.
    + apply (frame_trans [] [] _ _ _ F1 F2).
    + lia.
    + intros i. by rewrite S2.
Qed.

Lemma scopes_keep l s s' T :
  frame l s s' -> Forall (fun ctx => scope_start ctx <= T) (finally_stack s) ->
  Forall (fun ctx => scope_start ctx <= T) (finally_stack s').
Proof.
  intros F H. pose proof (fr_finally _ _ _ F) as Hf. clear F.
  induction Hf as [|c c' l1 l2 [[_ Hc] _] _ IH]; [constructor|].
  apply Forall_cons in H as [? ?]. constructor; [by rewrite <-Hc|auto].
Qed.

(** The state while the arms are lowered: [after] is where [break] goes. *)
Record in_switch (after : BlockId) (s : HirCfgBuilder) : Prop := {
  iw_ok : ctx_ok s;
  iw_break : list.last (break_stack s) = Some (mkBreak after None);
  iw_scopes : Forall (fun ctx => scope_start ctx <= after) (finally_stack s)
}.

Lemma in_switch_frame after l s s' : frame l s s' -> in_switch after s -> in_switch after s'.
Proof.
  intros F [H1 H2 H3]. split; [by eapply ctx_ok_frame|by rewrite (fr_breaks _ _ _ F)|].
  by eapply scopes_keep.
Qed.

(** The end of an arm, or of the arms from one on: [break] has become a normal end. *)
Definition arm_end (G : list BasicBlock) (s : HirCfgBuilder) (t : BlockId) (p : point)
    (o : outcome) (ρ : env) : Prop :=
  (o = ONormal /\ preach b G p (t, 0, ρ)) \/ ((leaves o \/ o = OContinue) /\ abrupt b G s p o ρ).

(** The arms [arms], whose blocks are [e0 + k] and the following up to [e0 + n]. *)
Record arms_built (after e0 n k : nat) (arms : list SwitchArm) (s s' : HirCfgBuilder) : Prop := {
  ab_frame : frame (seq (e0 + k) (n - k)) s s';
  ab_path : forall G O cnt j ρ o ρ', fin O s' G ->
    (forall i, O i -> i < nblocks s' -> i < nblocks s /\ i ∉ seq (e0 + k) (n - k)) ->
    flags_ok true cnt s -> j < length arms ->
    arms_exec (sexec b true cnt) (drop j arms) ρ o ρ' ->
    arm_end G s' after (e0 + k + j, 0, ρ) o ρ'
}.

(** One arm, and the jump from its end to [next]. *)
Lemma pm_build_arm after e0 n k arm s (Q : unit -> HirCfgBuilder -> Prop) :
  in_switch after s -> k < n -> e0 + n <= nblocks s -> sts s (e0 + k) = [] ->
  let next := if arm_is_arrow arm then after else default after (seq e0 n !! S k) in
  (forall s', frame [e0 + k] s s' ->
     (forall G O cnt ρ o ρ', fin O s' G ->
        (forall i, O i -> i < nblocks s' -> i < nblocks s /\ i <> e0 + k) ->
        flags_ok true cnt s -> sexec b true cnt (arm_body arm) ρ o ρ' ->
        (o = OBreak /\ preach b G (e0 + k, 0, ρ) (after, 0, ρ')) \/
        arm_end G s' next (e0 + k, 0, ρ) o ρ') -> Q tt s') ->
  pm (build_arm rec (seq e0 n) after (k, arm)) Q s.
Proof.
  intros [Hok Hbr Hsc] Hk Hn Hnil next HQ. unfold build_arm.
  apply pm_bind, pm_lift. intros ae Hae%idx_Done. apply lookup_seq in Hae as [-> _].
  eapply pm_seq; [apply Hrec; [done|lia]|]. intros r s1 Hb; pose proof Hb as [F1 R1 _].
  eapply (pm_mono (goto_from r next)); [|intros [] s2 H; exact H].
  apply pm_goto_from. intros s2 F2 N2 S2 B2. apply HQ; [frame_sum|].
  intros G O cnt ρ o ρ' HG HO' Hfl Hx.
  assert (HO : opened O None (e0 + k) s s2) by (intros i Hi Hlt; right; by apply HO').
  assert (HR : forall x, r = Some x ->
    G !! x = Some (mkBlock (sts s1 x) (Terminator.Goto next None))).
  { intros x E1. destruct (B2 x E1) as [_ Bx]. final Bx. }
  destruct (then_goto G s2 (e0 + k) s r s1 next ρ o ρ') as [(-> & _ & Hp)|Ha];
    [by use Hb Hx|done|done|right; by left|].
  destruct o; simpl in Ha; try done.
  - left. split; [done|]. destruct Ha as (ctx & Hl & Hgo).
    assert (F : frame ([e0 + k] ++ option_list r) s s2) by frame_tac.
    rewrite (fr_breaks _ _ _ F), Hbr in Hl. injection Hl as <-.
    eapply goes_inside; [|exact Hgo]. by eapply scopes_keep.
  - right; right. split; [by right|]. done.
  - right; right. split; [by left|]. done.
  - right; right. split; [by left|]. done.
  - right; right. split; [by left|]. done.
Qed.

Lemma pm_build_arms after e0 n k arms s :
  in_switch after s -> k + length arms = n -> e0 + n <= nblocks s ->
  (forall i, k <= i < n -> sts s (e0 + i) = []) ->
  pm (m_for (build_arm rec (seq e0 n) after) (imap (fun i arm => (k + i, arm)) arms))
    (fun _ s' => arms_built after e0 n k arms s s') s.
Proof.
  revert k s; induction arms as [|arm arms IH]; intros k s Hsw Hlen Hn Hnil; simpl in *.
  { apply pm_ret. split; [|simpl; lia]. eapply frame_weaken; [apply frame_refl|set_solver]. }
  rewrite Nat.add_0_r. apply pm_bind, pm_build_arm; [done|lia|done|apply Hnil; lia|].
  intros s1 F1 Harm.
  rewrite (imap_ext _ (fun i a => (S k + i, a))) by (intros; simpl; f_equal; lia).
  eapply pm_mono; [apply IH|].
  { by eapply in_switch_frame. } { lia. } { fr_lia. }
  { intros i Hi. rewrite (frame_sts _ _ _ _ F1); [apply Hnil; lia|lia|notin]. }
  intros [] s2 [F2 Htail].
  assert (F1' : frame (seq (e0 + S k) (n - S k)) s1 s2) by done. split.
  { eapply frame_weaken; [frame_tac|]. intros i Hi Hlt. apply elem_of_seq.
    apply elem_of_app in Hi as [Hi|Hi]; [apply list_elem_of_singleton in Hi; lia|].
    apply elem_of_seq in Hi. lia. }
  intros G O cnt j ρ o ρ' HG HO Hfl Hj Hx.
  assert (Hfl1 : flags_ok true cnt s1) by flags_tac.
  assert (HO2 : forall i, O i -> i < nblocks s2 ->
    i < nblocks s1 /\ i ∉ seq (e0 + S k) (n - S k)).
  { intros i Hi Hlt. destruct (HO i Hi Hlt) as [? Hni]. rewrite elem_of_seq in *. fr_lia. }
  destruct j as [|j]; simpl in Hx.
  2: { rewrite <-Nat.add_succ_comm, <-Nat.add_succ_r. eapply Htail; eauto. simpl in Hj. lia. }
  rewrite Nat.add_0_r.
  assert (Hhead : forall o ρ', sexec b true cnt (arm_body arm) ρ o ρ' ->
    (o = OBreak /\ preach b G (e0 + k, 0, ρ) (after, 0, ρ')) \/
    arm_end G s2 (if arm_is_arrow arm then after else default after (seq e0 n !! S k))
      (e0 + k, 0, ρ) o ρ').
  { intros o1 ρ1 H1. destruct (Harm G _ cnt ρ o1 ρ1 (fin_frame _ _ _ _ _ HG F2)) as [?|[?|[? ?]]];
      [|done|done|by left|by right; left|].
    - intros i [Hi|Hi] Hlt.
      + destruct (HO i Hi ltac:(fr_lia)) as [? Hni]. rewrite elem_of_seq in Hni. lia.
      + apply elem_of_seq in Hi. lia.
    - right; right. split; [done|]. by eapply abrupt_frame. }
  inversion Hx as [|? ? ? ρ1 ? ? H1 Har H2|? ? ? ? H1 Har|? ? ? ? H1|? ? ? ? ? H1 Hl]; subst.
  - destruct (Hhead _ _ H1) as [[? _]|[[_ Hp]|[[[]|?] _]]]; try done. rewrite Har in Hp.
    destruct arms as [|arm2 arms].
    + inversion H2; subst. left. split; [done|]. by rewrite lookup_seq_ge in Hp by (simpl; lia).
    + rewrite lookup_seq_lt in Hp by (simpl; lia). simpl in Hp.
      destruct (Htail G O cnt 0 ρ1 o ρ' HG HO2 Hfl1) as [[-> Hp2]|[Hl Ha]]; [simpl; lia|done| |].
      all: rewrite Nat.add_0_r, ?Nat.add_succ_r in *.
      * left. split; [done|]. by etransitivity.
      * right. split; [done|]. by eapply abrupt_prepend.
  - destruct (Hhead _ _ H1) as [[? _]|[[_ Hp]|[[[]|?] _]]]; try done. rewrite Har in Hp. by left.
  - destruct (Hhead _ _ H1) as [[_ Hp]|[[? _]|[[[]|?] _]]]; try done. by left.
  - destruct (Hhead _ _ H1) as [[-> _]|[[-> _]|[_ Ha]]]; try (by destruct Hl). by right.
Qed.

(** A [switch] passes on what its context did not catch. *)
Lemma abrupt_popped G after s s2 l p o ρ :
  frame l (pushed_break (mkBreak after None) s) s2 -> leaves o \/ o = OContinue ->
  abrupt b G s2 p o ρ -> abrupt b G (popped s2) p o ρ.
Proof.
  intros F [Hl| ->]; [by apply abrupt_leaves|]. simpl. rewrite (fr_breaks _ _ _ F). simpl.
  rewrite removelast_last, rev_app_distr. done.
Qed.

Lemma lowers_switch st e arms entry :
  stmt_is b st (StmtKind.Switch e arms) ->
  lowers b (fun brk cnt => sexec b brk cnt st) entry (build_switch rec st e arms entry).
Proof.
  intros Hk s Hok He. unfold build_switch.
  apply pm_bind, pm_new_block. intros s1 F1 N1 S1.
  apply pm_bind, pm_new_blocks. intros s2 F2 N2 S2. rewrite N1.
  set (ab := nblocks s) in *. set (n := length arms) in *.
  apply pm_bind, pm_set_terminator. intros s3 F3 N3 _ S3 B3.
  set (ts := if existsb arm_has_default arms then seq (S ab) n else seq (S ab) n ++ [ab]) in *.
  set (ctx := mkBreak ab None).
  assert (Hsw : in_switch ab (pushed_break ctx s3)).
  { assert (F : frame ([] ++ [] ++ [entry]) s s3) by frame_tac.
    destruct (ctx_ok_frame _ _ _ F Hok) as [H1 H2 H3]. split; simpl.
    - split; [|done..]. apply Forall_app. split; [done|]. constructor; [|done]. simpl.
      split; [lia|done].
    - by rewrite last_snoc.
    - by eapply (scopes_frame _ s s3). }
  eapply pm_with_break; [apply (pm_build_arms ab (S ab) n 0); [done|done|simpl; lia|]|].
  { intros i Hi. change (sts (pushed_break ctx s3)) with (sts s3). sts_nil. }
  intros [] s4 [F4 Hpath]. rewrite Nat.sub_0_r, Nat.add_0_r in *. simpl in Hpath.
  apply pm_ret. pose proof (frame_pushed_break _ _ _ _ F4) as F4'. fold (popped s4) in F4'.
  set (s5 := popped s4) in *.
  assert (R4 : forall i, i ∈ seq (S ab) n -> ab < i < nblocks s3).
  { intros i Hi%elem_of_seq. lia. }
  split.
  - eapply frame_weaken; [frame_tac|]. intros i Hi Hlt. mem_cases Hi; [set_solver|].
    apply R4 in Hi. lia.
  - intros x [= <-]. fr_lia.
  - intros G O brk cnt ρ o ρ' HG HO Hfl Hx%(sexec_inv _ _ _ _ _ _ _ _ _ Hk).
    assert (HE : G !! entry = Some (mkBlock (sts s entry) (Terminator.Switch e ts st))).
    { rewrite S2, S1 in B3. eapply final_block; [exact HG|exact F4'|exact B3|not_open|].
      intros Hi%R4. lia. }
    assert (Hj : sts s5 ab = []).
    { rewrite (frame_sts _ _ _ _ F4') by first [fr_lia | intros Hi%R4; lia]. sts_nil. }
    destruct Hx as [[-> ->]|[(Hd & -> & ->)|(i & Hi & Hx)]].
    + right. eapply abrupt_eval; [|done]. eapply at_term; [exact HE|]. by left.
    + apply reaches_normal. rewrite Hj. eapply preach_term; [exact HE|]. constructor.
      unfold ts. rewrite Hd. set_solver.
    + assert (Hp : preach b G (entry, length (sts s entry), ρ) (S ab + i, 0, ρ)).
      { eapply preach_term; [exact HE|]. constructor. unfold ts.
        destruct (existsb _ _); [|apply elem_of_app; left]; apply elem_of_seq; lia. }
      destruct (Hpath G O cnt i ρ o ρ' HG) as [[-> Hp2]|[Hl Ha]]; [| |done|done| |].
      * intros j Hoj Hlt. destruct (HO j Hoj Hlt) as [[= <-]|[? ?]].
        -- split; [fr_lia|]. intros Hj'%R4. lia.
        -- split; [simpl; fr_lia|]. intros Hj'%R4. lia.
      * split; intros Hc; simpl; [rewrite last_snoc; by eexists|].
        rewrite rev_app_distr. simpl. destruct Hfl as [_ Hfl].
        assert (F : frame ([] ++ [] ++ [entry]) s s3) by frame_tac.
        rewrite (fr_breaks _ _ _ F). by apply Hfl.
      * apply reaches_normal. rewrite Hj. by etransitivity.
      * right. eapply abrupt_prepend; [exact Hp|]. by eapply abrupt_popped.
Qed.
End Kinds.

(** ** Jumps *)

Section Jumps.
Context (b : Body).

(** The jump to [T] has been lowered into [entry]: the block goes to the next stop, and the
    contexts that are left have recorded where to go on. *)
Record jumped (T entry : BlockId) (st : StmtId) (s s' : HirCfgBuilder) : Prop := {
  ju_frame : frame [entry] s s';
  ju_block : exists from, cb_blocks (cfg s') !! entry =
    Some (mkBlock (sts s entry)
      (Terminator.Goto (next_stop (rev (finally_stack s')) T) from));
  ju_recorded : recorded (rev (finally_stack s')) T
}.

Lemma next_stop_last fs ctx T :
  list.last fs = Some ctx -> T < scope_start ctx -> next_stop (rev fs) T = finally_bb ctx.
Proof.
  intros (fs' & ->)%last_Some HT. rewrite rev_app_distr. simpl. by rewrite decide_True.
Qed.

(** The contexts from [k] on are left, and no other. *)
Lemma pm_route k T entry st s :
  k < length (finally_stack s) ->
  (forall i ctx, finally_stack s !! i = Some ctx -> k <= i -> T < scope_start ctx) ->
  (forall ctx, 0 < k -> finally_stack s !! (k - 1) = Some ctx -> ~ T < scope_start ctx) ->
  pm (route_through_finally k T entry st) (fun r s' => r = None /\ jumped T entry st s s') s.
Proof.
  intros Hk Hin Hout. unfold route_through_finally.
  apply pm_bind, pm_get, pm_bind, pm_lift. intros fs Hfs.
  destruct (push_leave_targets_spec _ _ _ _ Hfs) as [Hle Hrec].
  apply pm_bind. intros [] s1 [= <-]. set (s1 := mkHir (cfg s) (break_stack s) fs (exit_bb s)).
  assert (F1 : frame [] s s1) by (by split).
  rewrite fmap_last. destruct (list.last (finally_stack s)) as [ctx|] eqn:El; simpl.
  2: { apply last_None in El. rewrite El in Hk. simpl in Hk. lia. }
  apply pm_bind, pm_set_terminator. intros s2 F2 N2 _ S2 B2. apply pm_ret. split; [done|].
  assert (Hctx : finally_stack s !! (length (finally_stack s) - 1) = Some ctx).
  { rewrite last_lookup in El. by rewrite Nat.sub_1_r. }
  assert (Hfs2 : Forall2 ctx_le (rev (finally_stack s)) (rev (finally_stack s2)))
    by (eapply frame_contexts; frame_tac).
  split; [frame_sum| |].
  - exists (Some st). rewrite (next_stop_mono _ _ _ Hfs2), (next_stop_last _ ctx); [done|done|].
    apply (Hin _ _ Hctx). lia.
  - eapply recorded_mono; [by eapply frame_contexts|]. simpl.
    pose proof (Forall2_length _ _ _ Hle) as Hlen. apply (recorded_by_index fs k).
    + lia.
    + intros i c Hc Hki. destruct (Forall2_lookup_r _ _ _ _ _ Hle Hc) as (c0 & Hc0 & [[_ Hs] _]).
      rewrite <-Hs. split; [by eapply Hin|].
      rewrite (leave_dest_same (finally_stack s)); [by apply Hrec|].
      eapply Forall2_impl; [exact Hle|]. by intros ? ? [].
    + intros c H0 Hc. destruct (Forall2_lookup_r _ _ _ _ _ Hle Hc) as (c0 & Hc0 & [[_ Hs] _]).
      rewrite <-Hs. by apply Hout.
Qed.

Lemma pm_jump_to T entry st s :
  pm (jump_to T entry st) (fun r s' => r = None /\ jumped T entry st s s') s.
Proof.
  unfold jump_to. apply pm_bind, pm_get.
  assert (Hgoto : next_stop (rev (finally_stack s)) T = T -> recorded (rev (finally_stack s)) T ->
    pm (_ ← m_set_terminator entry (Terminator.Goto T (Some st)); mret (@None BlockId))
      (fun r s' => r = None /\ jumped T entry st s s') s).
  { intros Hn Hr. apply pm_bind, pm_set_terminator. intros s1 F1 N1 _ S1 B1. apply pm_ret.
    pose proof (frame_contexts _ _ _ F1) as Hfs.
    split; [done|]. split; [done| |by eapply recorded_mono].
    exists (Some st). by rewrite (next_stop_mono _ _ _ Hfs), Hn. }
  destruct (finally_stack s) as [|c0 fs0] eqn:Efs; [by apply Hgoto|]. rewrite <-Efs in *.
  apply pm_bind, pm_lift. intros r Hr.
  destruct (leaving_loop_spec _ _ _ _ _ Hr) as (Hle & Hin & Hout); [lia| |].
  { intros i ctx Hi%lookup_lt_Some. lia. }
  case_decide as H0.
  - subst r. destruct (finally_stack s) as [|c fs _] using rev_ind; [done|].
    assert (Hc : ~ T < scope_start c).
    { rewrite length_app in Hout. simpl in Hout. apply Hout; [lia|].
      by rewrite Nat.sub_0_r, Nat.add_sub, list_lookup_middle. }
    rewrite rev_app_distr in *. simpl in *. apply Hgoto; [by rewrite decide_False|done].
  - apply pm_route; [lia|done|]. intros ctx Hk. apply Hout. lia.
Qed.

(** The path of a jump in the final graph. *)
Lemma jumped_goes T entry st s s' G O ρ :
  jumped T entry st s s' -> fin O s' G -> ~ O entry ->
  goes b G s' T (entry, length (sts s entry), ρ) ρ.
Proof.
  intros [F [from B] Hr] HG HO. split; [|done]. eapply preach_goto.
  by eapply fin_closed.
Qed.

Lemma opened_entry O r entry s s' :
  opened O r entry s s' -> frame [entry] s s' -> entry < nblocks s -> r = None -> ~ O entry.
Proof. intros HO F He -> Hi. destruct (HO entry Hi ltac:(fr_lia)) as [?|[_ ?]]; done. Qed.

Lemma lowers_break st entry :
  stmt_is b st StmtKind.Break ->
  lowers b (fun brk cnt => sexec b brk cnt st) entry (build_break st entry).
Proof.
  intros Hk s Hok He. apply pm_bind, pm_get.
  eapply pm_mono; [apply pm_jump_to|]. intros r s1 [-> J]. pose proof J as [F _ _].
  split; [done..|]. intros G O brk cnt ρ o ρ' HG HO [Hfl _] Hx%(sexec_inv _ _ _ _ _ _ _ _ _ Hk).
  destruct Hx as (-> & -> & ->). destruct (Hfl eq_refl) as [ctx Hctx]. right. simpl.
  rewrite (fr_breaks _ _ _ F). exists ctx. split; [done|].
  unfold break_dest in J. rewrite Hctx in J. eapply jumped_goes; [done..|]. by eapply opened_entry.
Qed.

Lemma lowers_continue st entry :
  stmt_is b st StmtKind.Continue ->
  lowers b (fun brk cnt => sexec b brk cnt st) entry (build_continue st entry).
Proof.
  intros Hk s Hok He. apply pm_bind, pm_get.
  eapply pm_mono; [apply pm_jump_to|]. intros r s1 [-> J]. pose proof J as [F _ _].
  split; [done..|]. intros G O brk cnt ρ o ρ' HG HO [_ Hfl] Hx%(sexec_inv _ _ _ _ _ _ _ _ _ Hk).
  destruct Hx as (-> & -> & ->). destruct (Hfl eq_refl) as [T HT]. right. simpl.
  rewrite (fr_breaks _ _ _ F). exists T. split; [done|].
  unfold continue_dest in J. rewrite HT in J. eapply jumped_goes; [done..|]. by eapply opened_entry.
Qed.

(** [return] and [throw] evaluate [v] first, then leave every open [try]. *)
Lemma lowers_leave st k (v : option ExprId) term o0 entry :
  stmt_is b st k -> stmt_exprs k = option_list v -> term_exprs term = option_list v ->
  o0 = OReturn \/ o0 = OThrow -> (forall ρ, exec_stmt b ρ st ρ) ->
  lowers b (fun _ _ ρ o ρ' => ((exists e, v = Some e /\ o = OEval e) \/ o = o0) /\ ρ' = ρ) entry
    (s ← get_state;
     match finally_stack s with
     | [] => _ ← m_set_terminator entry term; mret None
     | _ => _ ← m_push_stmt entry st; route_through_finally 0 (exit_bb s) entry st
     end).
Proof.
  intros Hk Hex Htx Ho0 Hst s Hok He. apply pm_bind, pm_get.
  destruct (finally_stack s) as [|c0 fs0] eqn:Efs.
  - apply pm_bind, pm_set_terminator. intros s1 F1 N1 _ S1 B1. apply pm_ret. split; [done..|].
    intros G O brk cnt ρ o ρ' HG HO Hfl [Hx ->]. right.
    destruct Hx as [(e & -> & ->)| ->].
    + eapply abrupt_eval; [|done]. eapply at_term; [|rewrite Htx; set_solver].
      eapply fin_closed; [exact HG|exact B1|]. by eapply opened_entry.
    + assert (Hnil : finally_stack s1 = []).
      { pose proof (fr_finally _ _ _ F1) as H. rewrite Efs in H. by inversion H. }
      by destruct Ho0 as [-> | ->].
  - apply pm_bind, pm_push_stmt. intros s1 F1 N1 _ S1.
    assert (Hok1 : ctx_ok s1) by ok_tac. pose proof (fr_exit _ _ _ F1) as Hexit.
    eapply pm_mono; [apply (pm_route 0)|].
    + rewrite <-(Forall2_length _ _ _ (fr_finally _ _ _ F1)), Efs. simpl. lia.
    + intros i ctx Hi _. pose proof (co_finally _ Hok1) as H. rewrite Forall_lookup in H.
      rewrite <-Hexit. by apply (H _ _ Hi).
    + lia.
    + intros r s2 [-> J]. pose proof J as [F2 _ _]. split; [frame_sum|done|].
      intros G O brk cnt ρ o ρ' HG HO Hfl [Hx ->]. right.
      pose proof (fin_frame _ _ _ _ _ HG F2) as HG1.
      destruct Hx as [(e & -> & ->)| ->].
      * eapply abrupt_eval; [|done]. eapply at_stmt; [done..|]. rewrite Hex. set_solver.
      * assert (Hg : goes b G s2 (exit_bb s2) (entry, length (sts s entry), ρ) ρ).
        { rewrite (fr_exit _ _ _ F2), Hexit. eapply goes_prepend; [by eapply preach_stmt|].
          eapply jumped_goes; [done..|]. eapply opened_entry; [exact HO|frame_sum|done..]. }
        destruct Ho0 as [-> | ->]; by intros _.
Qed.

(** Code with fewer executions. *)
Lemma lowers_mono (R R' : bool -> bool -> rel) entry m :
  lowers b R entry m -> (forall brk cnt ρ o ρ', R' brk cnt ρ o ρ' -> R brk cnt ρ o ρ') ->
  lowers b R' entry m.
Proof.
  intros Hm HR s Hok He. eapply pm_mono; [by apply Hm|]. intros r s' [F Hr Hs].
  split; [done..|]. eauto.
Qed.

Lemma lowers_return st v entry :
  stmt_is b st (StmtKind.Return v) ->
  lowers b (fun brk cnt => sexec b brk cnt st) entry (build_return st v entry).
Proof.
  intros Hk. eapply lowers_mono; [eapply (lowers_leave st _ v _ OReturn); eauto|].
  - intros ρ. destruct Hk as ([k sp] & Hsd & [= ->]). by eapply exec_return.
  - intros brk cnt ρ o ρ' Hx%(sexec_inv _ _ _ _ _ _ _ _ _ Hk). simpl in Hx. naive_solver.
Qed.

Lemma lowers_throw st e entry :
  stmt_is b st (StmtKind.Throw e) ->
  lowers b (fun brk cnt => sexec b brk cnt st) entry (build_throw st e entry).
Proof.
  intros Hk. eapply lowers_mono; [eapply (lowers_leave st _ (Some e) _ OThrow); eauto|].
  - intros ρ. destruct Hk as ([k sp] & Hsd & [= ->]). by eapply exec_throw.
  - intros brk cnt ρ o ρ' Hx%(sexec_inv _ _ _ _ _ _ _ _ _ Hk). simpl in Hx. naive_solver.
Qed.
End Jumps.

(** ** [try] *)

Section Try.
Context (b : Body) (rec : StmtId -> BlockId -> M (option BlockId)).
Context (Hrec : forall st entry,
  lowers b (fun brk cnt => sexec b brk cnt st) entry (rec st entry)).

(** The body of a [try] and its handlers [ss], in blocks from [e0] on; each goes to [join]. *)
Record parts_built (join e0 : BlockId) (ss : list StmtId) (s s' : HirCfgBuilder) : Prop := {
  pb_frame : frame (seq e0 (length ss)) s s';
  pb_path : forall G O brk cnt j st ρ o ρ', fin O s' G ->
    (forall i, O i -> i < nblocks s' -> i < nblocks s /\ i ∉ seq e0 (length ss)) ->
    flags_ok brk cnt s -> ss !! j = Some st -> sexec b brk cnt st ρ o ρ' ->
    (o = ONormal /\ preach b G (e0 + j, 0, ρ) (join, 0, ρ')) \/ abrupt b G s' (e0 + j, 0, ρ) o ρ'
}.

Lemma pm_parts join e0 ss s :
  ctx_ok s -> e0 + length ss <= nblocks s ->
  (forall i, e0 <= i < e0 + length ss -> sts s i = []) ->
  pm (m_for (build_catch rec join) (zip ss (seq e0 (length ss))))
    (fun _ s' => parts_built join e0 ss s s') s.
Proof.
  revert e0 s; induction ss as [|st ss IH]; intros e0 s Hok Hn Hnil; simpl in *.
  { apply pm_ret. split; [apply frame_refl|done]. }
  apply pm_bind. eapply pm_seq; [apply Hrec; [done|lia]|].
  intros r s1 Hb; pose proof Hb as [F1 R1 _]. apply pm_goto_from. intros s2 F2 N2 S2 B2.
  eapply pm_mono; [apply IH; [ok_tac|fr_lia|]|].
  { intros i Hi. sts_back. apply Hnil. lia. }
  intros [] s3 [F3 Htail]. split.
  { eapply frame_weaken; [frame_tac|]. intros i Hi Hlt. mem_cases Hi; [by left| |by right].
    destruct (R1 _ Hi) as [[->|?] _]; [by left|fr_lia]. }
  intros G O brk cnt j st' ρ o ρ' HG HO Hfl Hj Hx.
  assert (Hfl2 : flags_ok brk cnt s2) by flags_tac.
  assert (HO3 : forall i, O i -> i < nblocks s3 -> i < nblocks s2 /\ i ∉ seq (S e0) (length ss)).
  { intros i Hi Hlt. destruct (HO i Hi Hlt) as [? Hni]. split; [fr_lia|set_solver]. }
  destruct j as [|j]; simpl in Hj.
  - injection Hj as ->. rewrite Nat.add_0_r.
    assert (Hbl : forall i, O i \/ i ∈ seq (S e0) (length ss) -> i < nblocks s2 ->
      i < nblocks s /\ i <> e0).
    { intros i [Hi|Hi] Hlt; [destruct (HO i Hi ltac:(fr_lia)) as [? Hni]; set_solver|].
      apply elem_of_seq in Hi. lia. }
    destruct (then_goto b G s3 e0 s r s1 join ρ o ρ') as [(-> & _ & Hp)|Ha]; [..|by left|by right].
    + eapply built_use; [exact Hb|exact HG|frame_tac| |exact Hfl|exact Hx].
      intros i [Hi|Hi] Hlt; [right; apply Hbl; [by left|lia]|]. mem_cases Hi; [by left|].
      right; apply Hbl; [by right|lia].
    + apply Hnil. lia.
    + intros x E1. destruct (B2 x E1) as [Hx2 Bx].
      eapply final_block; [exact HG|exact F3|exact Bx| |]; intros Hi;
        destruct (Hbl x ltac:(auto) ltac:(fr_lia)); fr_lia.
  - replace (e0 + S j) with (S e0 + j) by lia. by eapply Htail.
Qed.

Lemma sort_dedup_superset l x : x ∈ l -> x ∈ sort_dedup l.
Proof.
  unfold sort_dedup. set (dedup := fix dedup (l : list nat) : list nat := _).
  assert (Hd : forall l, x ∈ l -> x ∈ dedup l).
  { induction l0 as [|y l0 IH]; simpl; [done|]. intros Hx.
    destruct (dedup l0) as [|z r] eqn:E; [set_solver|]. case_decide; set_solver. }
  intros Hx. apply Hd. by rewrite merge_sort_Permutation.
Qed.

(** After the copy of [finally] for abrupt completion, every recorded target is reached. *)
Lemma exec_abrupt_terminator ρ ts st t : t ∈ ts -> exec_term b ρ (abrupt_terminator ts st) t.
Proof.
  intros Ht%sort_dedup_superset. unfold abrupt_terminator.
  destruct (sort_dedup ts) as [|x [|y l]].
  - by apply not_elem_of_nil in Ht.
  - apply list_elem_of_singleton in Ht as ->. constructor.
  - by constructor.
Qed.

Lemma break_target_lt s ctx :
  ctx_ok s -> list.last (break_stack s) = Some ctx -> break_target ctx < nblocks s.
Proof.
  intros [H _ _] Hl%last_Some_elem_of. rewrite Forall_forall in H. by destruct (H _ Hl).
Qed.

Lemma continue_target_lt s T :
  ctx_ok s -> find_continue (rev (break_stack s)) = Some T -> T < nblocks s.
Proof.
  intros [H _ _]. apply Forall_rev in H. revert H.
  induction (rev (break_stack s)) as [|ctx l IH]; simpl; [done|].
  intros [[_ Hc] Hl]%Forall_cons. destruct (continue_target ctx); [|auto].
  intros [= <-]. by apply Hc.
Qed.

(** An abrupt outcome inside a [try] with a [finally] block enters the block, and goes on from
    its end when the block completes normally.  [s0] is the state before the [try]. *)
Lemma leave_try G l s0 s fs ctx p o ρ :
  ctx_ok s0 -> break_stack s = break_stack s0 -> exit_bb s = exit_bb s0 ->
  finally_stack s = fs ++ [ctx] -> scope_start ctx = nblocks s0 ->
  frame l s0 (mkHir (cfg s) (break_stack s) fs (exit_bb s)) ->
  ~ is_eval o -> abrupt b G s p o ρ ->
  preach b G p (finally_bb ctx, 0, ρ) /\
  forall ρ', (forall t, t ∈ targets ctx -> preach b G p (t, 0, ρ')) ->
    abrupt b G (mkHir (cfg s) (break_stack s) fs (exit_bb s)) p o ρ'.
Proof.
  intros Hok Hbs Hex Hfs Hsc F Hne Ha.
  assert (Hgo : forall T, T < nblocks s0 -> goes b G s T p ρ ->
    preach b G p (finally_bb ctx, 0, ρ) /\
    forall ρ', (forall t, t ∈ targets ctx -> preach b G p (t, 0, ρ')) ->
      goes b G (mkHir (cfg s) (break_stack s) fs (exit_bb s)) T p ρ').
  { intros T HT [Hp Hr]. rewrite Hfs, rev_app_distr in Hp, Hr. simpl in Hp, Hr.
    rewrite decide_True in Hp by lia. destruct (Hr ltac:(lia)) as [Hin Hr'].
    split; [done|]. intros ρ' Ht. split; [by apply Ht|done]. }
  assert (Hf : finally_stack s <> []) by (rewrite Hfs; by destruct fs).
  pose proof (co_exit _ Hok) as Hlt. destruct o; simpl in Ha; try done.
  - destruct Ha as (c & Hl & Hg). destruct (Hgo (break_target c)) as [H1 H2]; [|done|].
    { eapply break_target_lt; [exact Hok|by rewrite <-Hbs]. }
    split; [done|]. intros ρ' Ht. exists c. split; [done|auto].
  - destruct Ha as (T & Hl & Hg). destruct (Hgo T) as [H1 H2]; [|done|].
    { eapply continue_target_lt; [exact Hok|by rewrite <-Hbs]. }
    split; [done|]. intros ρ' Ht. exists T. split; [done|auto].
  - destruct (Hgo (exit_bb s)) as [H1 H2]; [by rewrite Hex|by apply Ha|].
    split; [done|]. intros ρ' Ht _. auto.
  - destruct (Hgo (exit_bb s)) as [H1 H2]; [by rewrite Hex|by apply Ha|].
    split; [done|]. intros ρ' Ht _. auto.
Qed.

(** The entry of a [try]: the graph may go to its body and to each handler. *)
Definition try_entry (bd : BlockId) (ces : list BlockId) (st : StmtId) : Terminator.t :=
  match ces with
  | [] => Terminator.Goto bd (Some st)
  | _ => Terminator.Multi (bd :: ces) st
  end.

Lemma exec_try_entry ρ e0 n st j :
  j < S n -> exec_term b ρ (try_entry e0 (seq (S e0) n) st) (e0 + j).
Proof.
  intros Hj. destruct n as [|n]; simpl.
  - replace (e0 + j) with e0 by lia. constructor.
  - constructor. apply (elem_of_seq e0 (S (S n))). lia.
Qed.

Lemma try_entry_fold bd ces st entry :
  match ces with
  | [] => m_set_terminator entry (Terminator.Goto bd (Some st))
  | _ => m_set_terminator entry (Terminator.Multi (bd :: ces) st)
  end = m_set_terminator entry (try_entry bd ces st).
Proof. by destruct ces. Qed.

(** The part of a [try] that runs first, as an element of the list of its parts. *)
Lemma try_part (body : StmtId) cs p : p = body \/ p ∈ cs -> exists j, (body :: cs) !! j = Some p.
Proof.
  intros [->|Hp]; [by exists 0|]. apply list_elem_of_lookup in Hp as [j Hj]. by exists (S j).
Qed.

Lemma build_protected_parts join body bd cs ces s :
  build_protected rec body bd join cs ces s =
  m_for (build_catch rec join) ((body, bd) :: zip cs ces) s.
Proof.
  unfold build_protected. simpl. unfold mbind, M_bind.
  destruct (rec body bd s) as [[r s1]| |]; [|done..]. by destruct (goto_from r join s1) as [[[] s2]| |].
Qed.

Lemma pm_protected join body e0 cs s :
  ctx_ok s -> e0 + S (length cs) <= nblocks s ->
  (forall i, e0 <= i < e0 + S (length cs) -> sts s i = []) ->
  pm (build_protected rec body e0 join cs (seq (S e0) (length cs)))
    (fun _ s' => parts_built join e0 (body :: cs) s s') s.
Proof.
  intros Hok Hn Hnil a s' Hr. rewrite build_protected_parts in Hr.
  by apply (pm_parts join e0 (body :: cs) s Hok Hn Hnil a s').
Qed.

Lemma lowers_try_plain st body cs entry :
  stmt_is b st (StmtKind.Try body cs None) ->
  lowers b (fun brk cnt => sexec b brk cnt st) entry (build_try rec st body cs None entry).
Proof.
  intros Hk s Hok He. unfold build_try.
  apply pm_bind, pm_new_block. intros s1 F1 N1 S1. apply pm_bind, pm_ret. simpl.
  apply pm_bind, pm_new_block. intros s2 F2 N2 S2.
  apply pm_bind, pm_new_blocks. intros s3 F3 N3 S3. rewrite N2.
  set (ab := nblocks s) in *. set (e0 := nblocks s1) in *. set (n := length cs) in *.
  rewrite try_entry_fold. apply pm_bind, pm_set_terminator. intros s4 F4 N4 _ S4 B4.
  apply pm_bind, pm_ret. eapply pm_seq; [apply pm_protected; [ok_tac|lia|]|].
  { intros i Hi. sts_nil. }
  intros [] s5 [F5 Hpath]. apply pm_bind, pm_ret.
  change (pm (mret (Some ab)) (built b (fun brk cnt => sexec b brk cnt st) entry s) s5).
  apply pm_ret. simpl in F5, Hpath. fold n in F5, Hpath.
  change (e0 :: seq (S e0) n) with (seq e0 (S n)) in *.
  assert (R5 : forall i, i ∈ seq e0 (S n) -> ab < i < nblocks s4).
  { intros i Hi%elem_of_seq. lia. }
  split.
  - eapply frame_weaken; [frame_tac|]. intros i Hi Hlt. mem_cases Hi; [set_solver|fr_lia|].
    apply elem_of_seq in Hi. lia.
  - intros x [= <-]. fr_lia.
  - intros G O brk cnt ρ o ρ' HG HO Hfl Hx%(sexec_inv _ _ _ _ _ _ _ _ _ Hk)%try_exec_graph.
    destruct Hx as (q & o1 & ρ1 & Hq & Hx & -> & ->).
    destruct (try_part _ _ _ Hq) as [j Hj]. assert (Hlt := lookup_lt_Some _ _ _ Hj).
    simpl in Hlt. fold n in Hlt.
    assert (HE : G !! entry = Some (mkBlock (sts s entry) (try_entry e0 (seq (S e0) n) st))).
    { rewrite S3, S2, S1 in B4. eapply final_block; [exact HG|exact F5|exact B4|not_open|].
      intros Hi%R5. lia. }
    pose proof (preach_term b G _ _ _ _ _ HE (exec_try_entry ρ e0 n st j Hlt)) as Hp.
    destruct (Hpath G O brk cnt j q ρ o1 ρ1 HG) as [[-> Hp2]|Ha];
      [|flags_tac|done|done| |].
    + intros i Hi Hlt2. destruct (HO i Hi Hlt2) as [[= <-]|[? ?]];
        (split; [fr_lia|]); intros Hz%R5; lia.
    + apply reaches_normal. replace (sts s5 ab) with (@nil StmtId); [by etransitivity|].
      symmetry. rewrite (frame_sts _ _ _ _ F5) by first [fr_lia | intros Hz%R5; lia]. sts_nil.
    + right. by eapply abrupt_prepend.
Qed.

(** The two copies of the [finally] block: the one in [fn] goes on to [after], the one in [fa]
    to each of [ts]. *)
Record copies_built (f : StmtId) (fn fa after : BlockId) (ts : list BlockId)
    (s s' : HirCfgBuilder) : Prop := {
  cp_frame : frame [fn; fa] s s';
  cp_path : forall G O brk cnt ρ o ρ', fin O s' G ->
    (forall i, O i -> i < nblocks s' -> i < nblocks s /\ i <> fn /\ i <> fa) ->
    flags_ok brk cnt s -> sexec b brk cnt f ρ o ρ' ->
    ((o = ONormal /\ preach b G (fn, 0, ρ) (after, 0, ρ')) \/ abrupt b G s' (fn, 0, ρ) o ρ') /\
    ((o = ONormal /\ forall t, t ∈ ts -> preach b G (fa, 0, ρ) (t, 0, ρ')) \/
     abrupt b G s' (fa, 0, ρ) o ρ')
}.

Lemma pm_copies st f fn fa after ctx s :
  ctx_ok s -> fn < nblocks s -> fa < nblocks s -> fn <> fa -> sts s fn = [] -> sts s fa = [] ->
  pm (build_finally_copies rec st (Some f) (Some fn) (Some fa) after (Some ctx))
    (fun _ s' => copies_built f fn fa after (targets ctx) s s') s.
Proof.
  intros Hok Hfn Hfa Hne Sn Sa. unfold build_finally_copies. apply pm_bind.
  eapply pm_seq; [by apply Hrec|]. intros r1 s1 Hb1; pose proof Hb1 as [F1 R1 _].
  apply pm_goto_from. intros s2 F2 N2 S2 B2.
  eapply pm_seq; [apply Hrec; [ok_tac|fr_lia]|]. intros r2 s3 Hb2; pose proof Hb2 as [F3 R3 _].
  eapply (pm_mono _ (fun _ s4 => frame (option_list r2) s3 s4 /\
    (forall x, r2 = Some x ->
       cb_blocks (cfg s4) !! x = Some (mkBlock (sts s3 x) (abrupt_terminator (targets ctx) st))))).
  { destruct r2 as [x|]; [|apply pm_ret; split; [apply frame_refl|done]].
    apply pm_set_terminator. intros s4 F4 N4 _ S4 B4. split; [done|]. by intros y [= <-]. }
  intros [] s4 [F4 B4]. split.
  { eapply frame_weaken; [frame_tac|]. intros i Hi Hlt.
    assert (i = fn \/ i = fa) as [->| ->]; [|set_solver..]. mem_cases Hi; fr_lia. }
  intros G O brk cnt ρ o ρ' HG HO' Hfl Hx.
  assert (HO : opened O None fn s s4) by (intros i Hi Hlt; destruct (HO' i Hi Hlt); right; naive_solver).
  assert (HOa : forall i, O i -> i < nblocks s4 -> i <> fa) by (intros; by apply HO').
  split.
  - destruct (then_goto b G s4 fn s r1 s1 after ρ o ρ') as [(-> & _ & Hp)|Ha]; [..|by left|by right].
    + by use Hb1 Hx.
    + done.
    + intros x E1. destruct (B2 x E1) as [_ Bx]. final Bx.
  - assert (Hnil : sts s2 fa = []) by (sts_back; done).
    eassert (H : (_ /\ _) \/ _).
    { eapply built_use; [exact Hb2|exact HG|frame_tac| | |exact Hx]; [|flags_tac].
      intros i [Hi|Hi] Hlt; [|mem_cases Hi; by left].
      specialize (HOa i Hi ltac:(fr_lia)). destruct (HO i Hi ltac:(fr_lia)) as [?|[? ?]]; [done|].
      right. split; [fr_lia|done]. }
    rewrite Hnil in H. destruct H as [(-> & x & Ex & Hp)|Ha]; [|by right].
    left. split; [done|]. intros t Ht. etransitivity; [exact Hp|].
    eapply preach_term; [|by apply exec_abrupt_terminator].
    eapply fin_closed; [exact HG|by apply B4|]. intros Hi.
    specialize (HOa x Hi ltac:(fr_lia)). destruct (HO x Hi ltac:(fr_lia)) as [?|[? ?]]; [done|].
    fr_lia.
Qed.

(** The paths of a [try] with a [finally] block, from those of its parts and copies.  [P] is
    the entry of the [try], [s0] the state before it, [s] the one after its parts and [sf] the
    final one. *)
Lemma finally_paths G l l2 s0 s sf fs ctx fn ab brk cnt f q P ρ o1 ρ1 o ρ' :
  ctx_ok s0 -> break_stack s = break_stack s0 -> exit_bb s = exit_bb s0 ->
  finally_stack s = fs ++ [ctx] -> scope_start ctx = nblocks s0 ->
  frame l s0 (mkHir (cfg s) (break_stack s) fs (exit_bb s)) ->
  frame l2 (mkHir (cfg s) (break_stack s) fs (exit_bb s)) sf ->
  (forall o ρ', sexec b brk cnt q ρ o ρ' ->
     (o = ONormal /\ preach b G P (fn, 0, ρ')) \/ abrupt b G s P o ρ') ->
  (forall ρ o ρ', sexec b brk cnt f ρ o ρ' ->
    ((o = ONormal /\ preach b G (fn, 0, ρ) (ab, 0, ρ')) \/ abrupt b G sf (fn, 0, ρ) o ρ') /\
    ((o = ONormal /\ forall t, t ∈ targets ctx -> preach b G (finally_bb ctx, 0, ρ) (t, 0, ρ')) \/
     abrupt b G sf (finally_bb ctx, 0, ρ) o ρ')) ->
  sexec b brk cnt q ρ o1 ρ1 ->
  (is_eval o1 /\ o = o1 /\ ρ' = ρ1) \/
  (~ is_eval o1 /\ o = o1 /\ sexec b brk cnt f ρ1 ONormal ρ') \/
  (~ is_eval o1 /\ o <> ONormal /\ sexec b brk cnt f ρ1 o ρ') ->
  (o = ONormal /\ preach b G P (ab, 0, ρ')) \/ abrupt b G sf P o ρ'.
Proof.
  intros Hok Hbs Hex Hfs Hsc F F2 Hparts Hcopies Hq Hcases.
  destruct (Hparts _ _ Hq) as [[-> Hp]|Ha].
  - destruct Hcases as [[[] _]|[(_ & -> & Hf)|(_ & Hne & Hf)]].
    + destruct (Hcopies _ _ _ Hf) as [[[_ Hp2]|[]] _]. left. split; [done|]. by etransitivity.
    + destruct (Hcopies _ _ _ Hf) as [[[-> _]|Ha2] _]; [done|]. right. by eapply abrupt_prepend.
  - destruct Hcases as [(He & -> & ->)|[(Hne & -> & Hf)|(Hne & Hno & Hf)]].
    + right. by destruct o1.
    + destruct (leave_try G l s0 s fs ctx P o1 ρ1 Hok Hbs Hex Hfs Hsc F Hne Ha) as [Hp Hgo].
      destruct (Hcopies _ _ _ Hf) as [_ [[_ Ht]|[]]]. right.
      eapply abrupt_frame; [exact F2|]. apply Hgo. intros t Hin. etransitivity; [exact Hp|].
      by apply Ht.
    + destruct (leave_try G l s0 s fs ctx P o1 ρ1 Hok Hbs Hex Hfs Hsc F Hne Ha) as [Hp _].
      destruct (Hcopies _ _ _ Hf) as [_ [[-> _]|Ha2]]; [done|]. right. by eapply abrupt_prepend.
Qed.

Lemma lowers_try_finally st body cs f entry :
  stmt_is b st (StmtKind.Try body cs (Some f)) ->
  lowers b (fun brk cnt => sexec b brk cnt st) entry (build_try rec st body cs (Some f) entry).
Proof.
  intros Hk s Hok He. unfold build_try.
  apply pm_bind, pm_new_block. intros s1 F1 N1 S1.
  apply pm_bind, pm_bind, pm_new_block. intros s2 F2 N2 S2.
  apply pm_bind, pm_new_block. intros s3 F3 N3 S3. apply pm_ret. simpl.
  apply pm_bind, pm_new_block. intros s4 F4 N4 S4.
  apply pm_bind, pm_new_blocks. intros s5 F5 N5 S5. rewrite N4.
  set (ab := nblocks s) in *. set (fn := nblocks s1) in *. set (fa := nblocks s2) in *.
  set (e0 := nblocks s3) in *. set (n := length cs) in *.
  rewrite try_entry_fold. apply pm_bind, pm_set_terminator. intros s6 F6 N6 _ S6 B6.
  apply pm_bind, pm_bind, pm_get. intros [] s7 [= <-].
  set (ctx := mkFinally fa ab []). fold (pushed_finally ctx s6).
  assert (Hok6 : ctx_ok s6) by ok_tac.
  eapply pm_seq; [apply pm_protected|].
  { destruct Hok6 as [H1 H2 H3]. split; simpl; [done| |done]. apply Forall_app. split; [done|].
    constructor; [|done]. simpl. pose proof (co_exit _ Hok).
    assert (F : frame ([] ++ [] ++ [] ++ [] ++ [] ++ [entry]) s s6) by frame_tac.
    rewrite (fr_exit _ _ _ F). lia. }
  { simpl. lia. }
  { intros i Hi. change (sts (pushed_finally ctx s6)) with (sts s6). sts_nil. }
  intros [] s7 [F7 Hpath]. simpl in F7, Hpath. fold n in F7, Hpath.
  change (e0 :: seq (S e0) n) with (seq e0 (S n)) in *.
  destruct (frame_pushed_finally _ _ _ _ F7) as (fs & ctx' & Hfs & [[Hc1 Hc2] _] & F7').
  simpl in Hc1, Hc2.
  apply pm_bind, pm_bind, pm_get, pm_bind. intros [] s8 [= <-]. apply pm_ret.
  rewrite Hfs, removelast_last, last_snoc. set (s8 := mkHir _ _ _ _) in F7' |- *.
  assert (R7 : forall i, i ∈ seq e0 (S n) -> fa < i < nblocks s6).
  { intros i Hi%elem_of_seq. lia. }
  assert (Hst : forall i, i < nblocks s6 -> i < e0 -> sts s8 i = sts s6 i).
  { intros i H1 H2. apply (frame_sts _ _ _ _ F7' H1). intros Hz%R7. lia. }
  eapply pm_seq; [apply pm_copies; [ok_tac|fr_lia|fr_lia|lia| |]|].
  { rewrite Hst by lia. sts_nil. }
  { rewrite Hst by lia. sts_nil. }
  intros [] s9 [F9 Hcopies]. apply pm_ret.
  clear F7. split.
  - eapply frame_weaken; [frame_tac|]. intros i Hi Hlt. mem_cases Hi; [set_solver|fr_lia| |fr_lia..].
    apply elem_of_seq in Hi. lia.
  - intros x [= <-]. fr_lia.
  - intros G O brk cnt ρ o ρ' HG HO Hfl Hx%(sexec_inv _ _ _ _ _ _ _ _ _ Hk)%try_exec_graph.
    destruct Hx as (q & o1 & ρ1 & Hq & Hx & Hcases).
    destruct (try_part _ _ _ Hq) as [j Hj]. assert (Hlt := lookup_lt_Some _ _ _ Hj).
    simpl in Hlt. fold n in Hlt.
    assert (HE : G !! entry = Some (mkBlock (sts s entry) (try_entry e0 (seq (S e0) n) st))).
    { rewrite S5, S4, S3, S2, S1 in B6.
      eapply final_block; [exact HG| |exact B6|not_open|]; [frame_tac|].
      intros Hi. mem_cases Hi; [fr_lia| |fr_lia..]. apply elem_of_seq in Hi. lia. }
    pose proof (preach_term b G _ _ _ _ _ HE (exec_try_entry ρ e0 n st j Hlt)) as Hp.
    assert (F : frame ([] ++ [] ++ [] ++ [] ++ [] ++ [entry] ++ seq e0 (S n)) s s8) by frame_tac.
    assert (Hj2 : sts s9 ab = []).
    { rewrite (frame_sts _ _ _ _ F9) by first [fr_lia | notin]. rewrite Hst by lia. sts_nil. }
    destruct (finally_paths G _ _ s s7 s9 fs ctx' fn ab brk cnt f q
      (entry, length (sts s entry), ρ) ρ o1 ρ1 o ρ' Hok (fr_breaks _ _ _ F) (fr_exit _ _ _ F)
      Hfs (eq_sym Hc2) F F9) as [[-> Hp2]|Ha]; [..|by right].
    + intros o2 ρ2 H2.
      destruct (Hpath G _ brk cnt j q ρ o2 ρ2 (fin_frame _ _ _ _ _ HG F9)) as [[-> Hp2]|Ha];
        [|apply (flags_ok_eq _ _ s6); [done|flags_tac]|done|done
        |left; split; [done|by etransitivity]|right; by eapply abrupt_prepend].
      change (nblocks s7) with (nblocks s8).
      intros i [Hi|Hi] Hl; [|mem_cases Hi; (split; [lia|]); intros Hz%R7; lia].
      destruct (HO i Hi ltac:(fr_lia)) as [[= <-]|[? ?]];
        (split; [fr_lia|]); intros Hz%R7; lia.
    + intros ρ2 o2 ρ3 H2. rewrite <-Hc1. apply (Hcopies G O brk cnt); [done| |flags_tac|done].
      intros i Hi Hl. destruct (HO i Hi Hl) as [[= <-]|[? ?]]; split_and!; fr_lia.
    + done.
    + done.
    + apply reaches_normal. by rewrite Hj2.
Qed.
End Try.

(** ** The whole builder *)

Lemma lowers_build_stmt b fuel st entry :
  lowers b (fun brk cnt => sexec b brk cnt st) entry (build_stmt fuel b st entry).
Proof.
  revert st entry; induction fuel as [|fuel IH]; intros st entry s Hok He.
  { intros a s' Hr. done. }
  simpl. apply pm_bind, pm_lift. intros sd Hsd%stmt_Done.
  assert (Hk : stmt_is b st (stmt_kind sd)) by (by exists sd).
  destruct (stmt_kind sd) as [ss| | | |c t e|c bd|bd c|i c u bd|e arms|bd cs [f|]|v|e| | |] eqn:Ek;
    try (by eapply lowers_simple).
  - eapply lowers_mono; [by apply lowers_seq| |done..].
    intros brk cnt ρ o ρ' Hx. by apply (sexec_inv _ _ _ _ _ _ _ _ _ Hk).
  - by eapply lowers_if.
  - by eapply lowers_while.
  - by eapply lowers_do_while.
  - by eapply lowers_for.
  - by eapply lowers_switch.
  - by eapply lowers_try_finally.
  - by eapply lowers_try_plain.
  - by eapply lowers_return.
  - by eapply lowers_throw.
  - by eapply lowers_break.
  - by eapply lowers_continue.
Qed.

(** What the graph has for an execution of the body. *)
Lemma build_cfg_evaluates b g ρ e :
  build_cfg b = Done g -> body_evaluates b ρ e -> const_expr b e \/ evaluates b g ρ e.
Proof.
  intros Hg (ρ0 & Hi & Hx). unfold build_cfg in Hg. simpl in Hg. run_inv.
  destruct a as [r s]. unfold build in Hg. run_inv. simpl in *.
  match goal with H : build_stmt _ _ _ _ ?s0 = _ |- _ => set (s1 := s0) in * end.
  assert (Hok : ctx_ok s1) by (split; simpl; [done|done|lia]).
  destruct (lowers_build_stmt b _ _ 1 s1 Hok ltac:(simpl; lia) _ _ Ha) as [_ _ Hsim].
  destruct (Hsim (cb_blocks (cfg s)) (fun _ => False) false false ρ0 (OEval e) ρ) as [[? _]|Hab];
    [|by intros i []|by split|done|done|].
  - intros i blk Hblk. exists blk. by split_and!.
  - simpl in Hab. destruct Hab as [?|(q & Hp & Hat & <-)]; [by left|]. right.
    eapply at_expr_evaluates; [exact Hi| |exact Hat]. exact Hp.
Qed.

(** A constant condition reads no local and dereferences nothing. *)
Lemma const_visits b ρ fuel e x xd v :
  eval_const_bool_fuel fuel b e = Done (Some v) -> visits b ρ e x -> exprs b !! x = Some xd ->
  match expr_kind xd with
  | ExprKind.Bool _ | ExprKind.Unary _ _ | ExprKind.Binary _ _ _ => True
  | _ => False
  end.
Proof.
  revert e v; induction fuel as [|fuel IH]; intros e v Hc Hv Hx; [done|]. simpl in Hc.
  run_inv. rename a into ed. apply expr_Done in Ha. apply (visits_inv _ _ _ _ _ Ha) in Hv.
  destruct Hv as [->|Hv]; [simplify_eq; by destruct (expr_kind ed) as [| | | | | |[]|[]| | |]|].
  destruct (expr_kind ed) as [| |w| | | |[] c|[] l r| | |] eqn:Ek; try done.
  - destruct Hv as (c & Hc' & _). by apply not_elem_of_nil in Hc'.
  - run_inv. destruct a as [w|]; [|done]. destruct Hv as (c' & Hc' & Hv).
    apply list_elem_of_singleton in Hc' as ->. by eapply IH.
  - run_inv. destruct Hv as [Hv|(H1 & _ & Hv)]; destruct a as [[]|]; try done.
    + by eapply (IH l).
    + by eapply (IH l).
    + by eapply (IH r).
    + by pose proof (eval_const_bool_sound _ _ _ _ _ _ Ha0 (H1 eq_refl)).
  - run_inv. destruct Hv as [Hv|(_ & H1 & Hv)]; destruct a as [[]|]; try done.
    + by eapply (IH l).
    + by eapply (IH l).
    + by pose proof (eval_const_bool_sound _ _ _ _ _ _ Ha0 (H1 eq_refl)).
    + by eapply (IH r).
Qed.

Lemma const_unassigned b ρ e x l : const_expr b e -> ~ unassigned_read b ρ e x l.
Proof. intros [v Hc] (Hv & [sp Hx] & _). apply (const_visits b ρ _ _ _ _ _ Hc Hv Hx). Qed.

Lemma const_null_deref b ρ e x : const_expr b e -> ~ null_deref b ρ e x.
Proof.
  intros [v Hc] (Hv & xd & r & Hx & Hr & _). pose proof (const_visits b ρ _ _ _ _ _ Hc Hv Hx) as H.
  by destruct (expr_kind xd).
Qed.

(** ** Theorems *)

(** C3: the graph of a body has every execution of the body in which a handler starts with the locals of the
    start of its [try] and only [throw] leaves a [try] by an exception.  If, in this semantics of structured
    statements, an execution evaluates an expression with certain locals, then the
    graph [build_cfg] returns has an execution that evaluates it with the same locals, unless
    the expression is a constant condition, which the graph does not test. *)
Theorem build_cfg_simulates b :
  wf_body b ->
  exists g, build_cfg b = Done g /\
    forall ρ e, body_evaluates b ρ e ->
      evaluates b g ρ e \/ exists v, eval_const_bool b e = Done (Some v).
Proof.
  intros Hwf. pose proof (wp_build_cfg b Hwf) as (g & Hg & _)%wp_inv. exists g. split; [done|].
  intros ρ e Hx. destruct (build_cfg_evaluates b g ρ e Hg Hx); auto.
Qed.

(** C2: what [analyze] promises.  Take an execution in which a handler starts with the locals of the start of its
    [try], as the graphs have it, or, where no [try] has a [finally] block and no [try] with handlers changes a
    local in its body, any execution of Java, in which each evaluation may raise an exception and a handler
    starts where it is raised.  If the execution reads a local before it is assigned, or dereferences [null],
    then [analyze] reports it at that expression, provided the report is enabled and the analysis within its
    budget.  Without the condition on [try], Java's executions are not covered: [analyze_misses_catch]. *)
Theorem analyze_sound b config :
  wf_body b ->
  exists r, analyze b config = Done r /\
    (within_budget b (res_cfg r) -> forall ρ e x xd,
       body_evaluates b ρ e \/ plain_tries b = true /\ java_evaluates b ρ e ->
       exprs b !! x = Some xd ->
       (forall l, unassigned_read b ρ e x l -> reported r UseBeforeAssignment (expr_span xd)) /\
       (report_possible_null_deref config = true -> null_deref b ρ e x ->
          reported r PossibleNullDereference (expr_span xd))).
Proof.
  intros Hwf. pose proof (wp_analyze b config Hwf) as (r & Hr & Hok)%wp_inv.
  exists r. split; [done|]. intros Hb ρ e x xd Hx Hxd.
  assert (body_evaluates b ρ e) as Hx' by (destruct Hx as [?|[? ?]]; [done|by apply java_body]).
  destruct (build_cfg_evaluates b (res_cfg r) ρ e (proj1 (ok_cfg _ _ _ Hok)) Hx') as [Hc|Hev].
  - split; [by intros l ?%const_unassigned|by intros _ ?%const_null_deref].
  - split; [intros l Hu; by eapply (ok_unassigned _ _ _ Hok)|].
    intros Hcfg Hn. by eapply (ok_null _ _ _ Hok).
Qed.

(** ** The theorems at work: a jump out of a [try] in a loop

    { T x; while (c()) { try { if (d()) break; x = p; } finally {} } x.foo(); } *)

Definition jump_body : Body :=
  mkBody
    [mkLocal "p" Param (mkSpan 0 1); mkLocal "x" LocalVar (mkSpan 2 3)]
    [mkExpr (ExprKind.Call None "c" []) (mkSpan 10 13);
     mkExpr (ExprKind.Call None "d" []) (mkSpan 20 23);
     mkExpr (ExprKind.Local 0) (mkSpan 34 35);
     mkExpr (ExprKind.Local 1) (mkSpan 50 51);
     mkExpr (ExprKind.Call (Some 3) "foo" []) (mkSpan 50 57)]
    [mkStmt (StmtKind.Let 1 None) (mkSpan 2 4);
     mkStmt StmtKind.Break (mkSpan 24 29);
     mkStmt (StmtKind.If 1 1 None) (mkSpan 18 29);
     mkStmt (StmtKind.Assign 1 2) (mkSpan 30 36);
     mkStmt (StmtKind.Block [2; 3]) (mkSpan 17 37);
     mkStmt StmtKind.Nop (mkSpan 40 41);
     mkStmt (StmtKind.Try 4 [] (Some 5)) (mkSpan 16 42);
     mkStmt (StmtKind.While 0 6) (mkSpan 5 43);
     mkStmt (StmtKind.Expr 4) (mkSpan 50 58);
     mkStmt (StmtKind.Block [0; 7; 8]) (mkSpan 1 60)]
    9.

Lemma jump_body_wf : wf_body jump_body.
Proof. apply wf_bodyb_sound. vm_compute. reflexivity. Qed.

(** The kind of a statement of a concrete body. *)
Ltac kind := eexists; split; reflexivity.

(** The [break] leaves the loop before [x] is assigned. *)
Lemma jump_body_evaluates : body_evaluates jump_body [Some VOther; None] 4.
Proof.
  exists [Some VOther; None]. split.
  { split; [done|]. intros [|[|l]] x [= <-]; simpl; eauto. }
  eapply sx_block; [kind|].
  eapply se_next; [eapply sx_simple; [kind|done|]|].
  { by eapply (exec_let_none jump_body [Some VOther; None] 0 _ 1). }
  eapply se_next.
  { eapply sx_while; [kind|].
    eapply le_enter; [intros e [= <-]; by eapply (eval_call _ _ 0)|]. apply le_break.
    eapply sx_try_finally; [kind|apply pe_body|auto|].
    - eapply sx_block; [kind|]. eapply se_stop; [|done].
      eapply sx_then; [kind|by eapply (eval_call _ _ 1)|].
      apply sx_break. kind.
    - eapply sx_simple; [kind|done|]. by eapply (exec_nop jump_body _ 5). }
  eapply se_stop; [|done]. eapply sx_eval; [kind|]. by left.
Qed.

Lemma build_cfg_simulates_witness :
  exists g, build_cfg jump_body = Done g /\
    (evaluates jump_body g [Some VOther; None] 4 \/
     exists v, eval_const_bool jump_body 4 = Done (Some v)).
Proof.
  destruct (build_cfg_simulates jump_body jump_body_wf) as (g & Hg & Hsim).
  exists g. split; [exact Hg|]. apply Hsim, jump_body_evaluates.
Defined.

Definition jump_result : FlowAnalysisResult :=
  match analyze jump_body default_config with
  | Done r => r
  | _ => mkResult (mkCfg 0 [] []) [] []
  end.

Lemma jump_result_eq : analyze jump_body default_config = Done jump_result.
Proof. vm_compute. reflexivity. Qed.

Lemma analyze_sound_witness : reported jump_result UseBeforeAssignment (mkSpan 50 51).
Proof.
  destruct (analyze_sound jump_body default_config jump_body_wf) as (r & Hr & Hs).
  rewrite jump_result_eq in Hr. apply Done_inj in Hr as <-.
  destruct (Hs ltac:(vm_compute; discriminate) _ 4 3 (mkExpr (ExprKind.Local 1) (mkSpan 50 51))
    (or_introl jump_body_evaluates) eq_refl) as [Hu _].
  apply (Hu 1). split_and!; [|by eexists|reflexivity].
  eapply (visits_child _ _ 4 _ 3); [reflexivity|exact I|by left|constructor].
Defined.

(** ** Exceptions the analysis does not see

    { x = new Object(); try { x = null; throw new E(); } catch { x.foo(); } } *)

Definition catch_body : Body :=
  mkBody
    [mkLocal "x" LocalVar (mkSpan 0 1)]
    [mkExpr (ExprKind.New "Object" []) (mkSpan 10 12);
     mkExpr ExprKind.Null (mkSpan 20 24);
     mkExpr (ExprKind.New "E" []) (mkSpan 30 32);
     mkExpr (ExprKind.Local 0) (mkSpan 40 41);
     mkExpr (ExprKind.Call (Some 3) "foo" []) (mkSpan 40 47)]
    [mkStmt (StmtKind.Let 0 (Some 0)) (mkSpan 8 13);
     mkStmt (StmtKind.Assign 0 1) (mkSpan 18 25);
     mkStmt (StmtKind.Throw 2) (mkSpan 28 33);
     mkStmt (StmtKind.Block [1; 2]) (mkSpan 17 34);
     mkStmt (StmtKind.Expr 4) (mkSpan 40 48);
     mkStmt (StmtKind.Block [4]) (mkSpan 39 49);
     mkStmt (StmtKind.Try 3 [5] None) (mkSpan 16 50);
     mkStmt (StmtKind.Block [0; 6]) (mkSpan 7 51)]
    7.

(** An analysis that reports nothing, by evaluation. *)
Lemma reports_nothing b config :
  match analyze b config with Done r => res_diagnostics r = [] | _ => False end ->
  exists r, analyze b config = Done r /\ res_diagnostics r = [].
Proof. destruct (analyze b config) as [r| |]; [by exists r|done..]. Qed.

(** A dereference of [null] in a handler, of a local the body of the [try] has set, is not reported. *)
Theorem analyze_misses_catch :
  java_evaluates catch_body [Some VNull] 4 /\ null_deref catch_body [Some VNull] 4 4 /\
  report_possible_null_deref default_config = true /\
  exists r, analyze catch_body default_config = Done r /\ res_diagnostics r = [].
Proof.
  split_and!; [| |reflexivity|apply reports_nothing; vm_compute; reflexivity].
  - exists [None]. split; [split; [done|]; intros [|l] x [= <-]; done|].
    eapply sx_block; [kind|]. eapply se_next; [eapply sx_simple; [kind|done|]|].
    { by eapply (exec_let catch_body [None] 0 _ 0 0 VOther), eval_new. }
    eapply se_stop; [|done]. eapply sx_try; [kind|].
    eapply (pe_catch _ _ _ _ 5 _ OThrow); [done| |by left|by left|].
    + eapply sx_block; [kind|]. eapply se_next; [eapply sx_simple; [kind|done|]|].
      { by eapply (exec_assign catch_body [Some VOther] 1 _ 0 1 VNull), eval_null. }
      eapply se_stop; [|done]. eapply sx_throw. kind.
    + eapply sx_block; [kind|]. eapply se_stop; [|done]. eapply sx_eval; [kind|]. by left.
  - split; [constructor|]. eexists _, 3. split_and!; [reflexivity..|]. by eapply eval_local.
Qed.

(** { T x; try { foo(); x = new T(); } finally { x.bar(); } } *)
Definition finally_body : Body :=
  mkBody
    [mkLocal "x" LocalVar (mkSpan 0 1)]
    [mkExpr (ExprKind.Call None "foo" []) (mkSpan 10 15);
     mkExpr (ExprKind.New "T" []) (mkSpan 20 27);
     mkExpr (ExprKind.Local 0) (mkSpan 40 41);
     mkExpr (ExprKind.Call (Some 2) "bar" []) (mkSpan 40 47)]
    [mkStmt (StmtKind.Let 0 None) (mkSpan 2 5);
     mkStmt (StmtKind.Expr 0) (mkSpan 10 16);
     mkStmt (StmtKind.Assign 0 1) (mkSpan 18 28);
     mkStmt (StmtKind.Block [1; 2]) (mkSpan 9 30);
     mkStmt (StmtKind.Expr 3) (mkSpan 40 48);
     mkStmt (StmtKind.Block [4]) (mkSpan 39 49);
     mkStmt (StmtKind.Try 3 [] (Some 5)) (mkSpan 6 50);
     mkStmt (StmtKind.Block [0; 6]) (mkSpan 1 51)]
    7.

(** A read in a [finally] block of a local that the body of the [try] has not assigned when it raises an
    exception is not reported. *)
Theorem analyze_misses_finally :
  java_evaluates finally_body [None] 3 /\ unassigned_read finally_body [None] 3 2 0 /\
  exists r, analyze finally_body default_config = Done r /\ res_diagnostics r = [].
Proof.
  split_and!; [| |apply reports_nothing; vm_compute; reflexivity].
  - exists [None]. split; [split; [done|]; intros [|l] x [= <-]; done|].
    eapply sx_block; [kind|]. eapply se_next; [eapply sx_simple; [kind|done|]|].
    { by eapply (exec_let_none finally_body [None] 0 _ 0). }
    eapply se_stop; [|done]. eapply (sx_try_raise_override _ _ _ _ _ _ _ _ _ 0); [done|kind|apply pe_body| |done].
    + eapply sx_block; [kind|]. eapply se_stop; [|done]. eapply sx_eval; [kind|]. by left.
    + eapply sx_block; [kind|]. eapply se_stop; [|done]. eapply sx_eval; [kind|]. by left.
  - split_and!; [|by eexists|reflexivity]. eapply (visits_child _ _ 3 _ 2); [reflexivity|exact I|by left|constructor].
Qed.
