(* ===== verification/Str.v ===== *)
(** * Strings and text sizes

    Rust's [str] as the list of its characters, with the UTF-8 lengths and byte offsets the
    code works with, and the interface of the [text-size] crate ([TextSize], [TextRange]),
    which the sources use and which is not part of the repository: its operations are the
    class [TextSizeCrate], what its documentation promises of them the class
    [TextSizeLaws]. *)

From stdpp Require Import base list numbers strings option.
From S2P Require Import Prelude.

(** ** Characters *)

(** A [char]: a Unicode scalar value. *)
Notation char := N (only parsing).

Definition is_scalar (c : char) : bool :=
  (c <? 0xD800)%N || ((0xE000 <=? c) && (c <? 0x110000))%N.

Definition len_utf8 (c : char) : nat :=
  if (c <? 0x80)%N then 1 else if (c <? 0x800)%N then 2 else if (c <? 0x10000)%N then 3 else 4.

Definition len_utf16 (c : char) : N := if (c <? 0x10000)%N then 1%N else 2%N.

(** The six low bits at [shift], as a continuation byte. *)
Definition continuation (c : char) (shift : N) : N :=
  N.lor 0x80 (N.land (N.shiftr c shift) 0x3F).

Definition encode_utf8 (c : char) : list N :=
  if (c <? 0x80)%N then [c]
  else if (c <? 0x800)%N then [N.lor 0xC0 (N.shiftr c 6); continuation c 0]
  else if (c <? 0x10000)%N then
    [N.lor 0xE0 (N.shiftr c 12); continuation c 6; continuation c 0]
  else
    [N.lor 0xF0 (N.shiftr c 18); continuation c 12; continuation c 6; continuation c 0].

(** ** Strings *)

Notation str := (list N) (only parsing).

(** The literals of the source as lists of characters. *)
Definition lit (s : string) : str := (fun a => N.of_nat (Ascii.nat_of_ascii a)) <$> String.list_ascii_of_string s.

Definition str_len (s : str) : nat := sum_list_with len_utf8 s.

Definition as_bytes (s : str) : list N := concat (encode_utf8 <$> s).

Definition utf16_len (s : str) : N := foldr (fun c n => (len_utf16 c + n)%N) 0%N s.

(** The parts of [s] before and after the byte offset [i], when it is between characters. *)
Fixpoint split_at (s : str) (i : nat) : option (str * str) :=
  match i with
  | 0 => Some ([], s)
  | _ =>
      match s with
      | [] => None
      | c :: s =>
          if decide (len_utf8 c <= i) then
            '(p, q) ← split_at s (i - len_utf8 c); Some (c :: p, q)
          else None
      end
  end.

Definition is_char_boundary (s : str) (i : nat) : bool := is_some (split_at s i).

(** [&s[start..end]]: panics when an offset is out of range or inside a character. *)
Definition slice (s : str) (start end_ : nat) : run str :=
  match split_at s start with
  | Some (_, rest) =>
      if decide (start <= end_) then
        match split_at rest (end_ - start) with
        | Some (mid, _) => Done mid
        | None => Panic
        end
      else Panic
  | None => Panic
  end.

(** [s.char_indices()]. *)
Fixpoint char_indices_from (i : nat) (s : str) : list (nat * char) :=
  match s with
  | [] => []
  | c :: s => (i, c) :: char_indices_from (i + len_utf8 c) s
  end.

Definition char_indices (s : str) : list (nat * char) := char_indices_from 0 s.

(** ** Lemmas *)

#[global] Arguments str_len : simpl never.
#[global] Arguments as_bytes : simpl never.

Lemma len_utf8_pos c : 1 <= len_utf8 c.
Proof. unfold len_utf8. repeat case_match; lia. Qed.

Lemma len_utf16_pos c : (1 <= len_utf16 c)%N.
Proof. unfold len_utf16. case_match; lia. Qed.

Lemma len_utf16_le_utf8 c : (len_utf16 c <= N.of_nat (len_utf8 c))%N.
Proof.
  unfold len_utf16, len_utf8. destruct (c <? 0x10000)%N eqn:E.
  - repeat case_match; lia.
  - apply N.ltb_ge in E. repeat case_match; rewrite ?N.ltb_lt in *; lia.
Qed.

Lemma length_encode_utf8 c : length (encode_utf8 c) = len_utf8 c.
Proof. unfold encode_utf8, len_utf8. by repeat case_match. Qed.

Lemma length_as_bytes s : length (as_bytes s) = str_len s.
Proof.
  induction s as [|c s IH]; [done|].
  change (as_bytes (c :: s)) with (encode_utf8 c ++ as_bytes s).
  by rewrite length_app, length_encode_utf8, IH.
Qed.

Lemma str_len_app s t : str_len (s ++ t) = str_len s + str_len t.
Proof. apply sum_list_with_app. Qed.

Lemma str_len_cons c s : str_len (c :: s) = len_utf8 c + str_len s.
Proof. done. Qed.

Lemma str_len_nil_inv s : str_len s = 0 -> s = [].
Proof.
  destruct s as [|c s]; [done|]. rewrite str_len_cons. pose proof (len_utf8_pos c). lia.
Qed.

Lemma as_bytes_app s t : as_bytes (s ++ t) = as_bytes s ++ as_bytes t.
Proof. unfold as_bytes. by rewrite fmap_app, concat_app. Qed.

Lemma utf16_len_app s t : utf16_len (s ++ t) = (utf16_len s + utf16_len t)%N.
Proof. induction s as [|c s IH]; simpl; [done|]. rewrite IH. lia. Qed.

Lemma utf16_len_le s : (utf16_len s <= N.of_nat (str_len s))%N.
Proof.
  induction s as [|c s IH]; simpl; [done|]. rewrite str_len_cons.
  pose proof (len_utf16_le_utf8 c). lia.
Qed.

Lemma split_at_Some s i p q : split_at s i = Some (p, q) <-> s = p ++ q /\ str_len p = i.
Proof.
  split.
  - revert s p; induction i as [i IH] using lt_wf_ind; intros s p H.
    destruct i as [|i]; [by destruct s; injection H as <- <-|].
    destruct s as [|c s]; [done|]. simpl in H. case_decide as Hc; [|done].
    pose proof (len_utf8_pos c).
    apply bind_Some in H as ([p' q'] & H & [= <- <-]).
    apply IH in H as [-> Hl]; [|lia]. split; [done|]. rewrite str_len_cons. lia.
  - intros [-> <-]. induction p as [|c p IH]; [by destruct q|].
    pose proof (len_utf8_pos c). rewrite str_len_cons. simpl.
    destruct (len_utf8 c + str_len p) as [|n] eqn:E; [lia|].
    rewrite decide_True by lia. rewrite <-E.
    replace (len_utf8 c + str_len p - len_utf8 c) with (str_len p) by lia. by rewrite IH.
Qed.

Lemma split_at_app p q : split_at (p ++ q) (str_len p) = Some (p, q).
Proof. by apply split_at_Some. Qed.

Lemma is_char_boundary_spec s i :
  is_char_boundary s i = true <-> exists p q, s = p ++ q /\ str_len p = i.
Proof.
  unfold is_char_boundary. split.
  - destruct (split_at s i) as [[p q]|] eqn:E; [|done]. intros _. exists p, q.
    by apply split_at_Some.
  - intros (p & q & -> & <-). by rewrite split_at_app.
Qed.

(** Two splits of a string at increasing offsets are nested. *)
Lemma split_nested (p1 q1 p2 q2 : str) :
  p1 ++ q1 = p2 ++ q2 -> str_len p1 <= str_len p2 -> exists m, p2 = p1 ++ m /\ q1 = m ++ q2.
Proof.
  revert p2; induction p1 as [|c p1 IH]; intros p2 Heq Hle; [by exists p2|].
  destruct p2 as [|c2 p2]; simpl in *.
  { rewrite str_len_cons in Hle. pose proof (len_utf8_pos c).
    change (str_len []) with 0 in Hle. lia. }
  simplify_eq. rewrite !str_len_cons in Hle.
  destruct (IH p2) as (m & -> & ->); [done|lia|]. by exists m.
Qed.

Lemma slice_app p m q :
  slice (p ++ m ++ q) (str_len p) (str_len p + str_len m) = Done m.
Proof.
  unfold slice. rewrite split_at_app. rewrite decide_True by lia.
  replace (str_len p + str_len m - str_len p) with (str_len m) by lia. by rewrite split_at_app.
Qed.

(** The bytes of a character that is not ASCII are not ASCII. *)
Lemma lor_ge a x : (a <= N.lor a x)%N.
Proof.
  apply N.ldiff_le, N.bits_inj. intros n. rewrite N.ldiff_spec, N.lor_spec, N.bits_0.
  by destruct (N.testbit a n), (N.testbit x n).
Qed.

Lemma encode_utf8_high c x : (0x80 <= c)%N -> x ∈ encode_utf8 c -> (0x80 <= x)%N.
Proof.
  intros Hc Hx. unfold encode_utf8 in Hx. rewrite (proj2 (N.ltb_ge _ _) Hc) in Hx.
  assert (Hcont : forall s, (0x80 <= continuation c s)%N) by (intros; apply lor_ge).
  pose proof (lor_ge 0xC0 (N.shiftr c 6)). pose proof (lor_ge 0xE0 (N.shiftr c 12)).
  pose proof (lor_ge 0xF0 (N.shiftr c 18)).
  repeat case_match; repeat (apply elem_of_cons in Hx as [->|Hx]; [first [apply Hcont|lia]|]);
    by apply not_elem_of_nil in Hx.
Qed.

(** ** The [text-size] crate *)

(** The operations the sources use: [TextSize::from], [u32::from], [Ord], [+], [-],
    [TextRange::new], [start] and [end]. *)
Class TextSizeCrate := {
  TextSize : Type;
  ts_from : N -> TextSize;
  ts_to : TextSize -> N;
  ts_cmp : TextSize -> TextSize -> comparison;
  ts_add : TextSize -> TextSize -> run TextSize;
  ts_sub : TextSize -> TextSize -> run TextSize;
  TextRange : Type;
  tr_new : TextSize -> TextSize -> run TextRange;
  tr_start : TextRange -> TextSize;
  tr_end : TextRange -> TextSize
}.

(** A [TextSize] is a [u32]; arithmetic is that of [u32] where it does not overflow;
    [TextRange::new] panics when the end is before the start. *)
Class TextSizeLaws `(TextSizeCrate) : Prop := {
  ts_to_from n : (n < 2 ^ 32)%N -> ts_to (ts_from n) = n;
  ts_from_to x : ts_from (ts_to x) = x;
  ts_bound x : (ts_to x < 2 ^ 32)%N;
  ts_cmp_spec x y : ts_cmp x y = N.compare (ts_to x) (ts_to y);
  ts_add_spec x y : (ts_to x + ts_to y < 2 ^ 32)%N ->
    ts_add x y = Done (ts_from (ts_to x + ts_to y));
  ts_sub_spec x y : (ts_to y <= ts_to x)%N -> ts_sub x y = Done (ts_from (ts_to x - ts_to y));
  tr_new_spec x y : (ts_to x <= ts_to y)%N ->
    exists r, tr_new x y = Done r /\ tr_start r = x /\ tr_end r = y;
  tr_new_panic x y : (ts_to y < ts_to x)%N -> tr_new x y = Panic;
  tr_ordered r : (ts_to (tr_start r) <= ts_to (tr_end r))%N
}.

(** [a <= b] and [Ord::min]. *)
Definition ts_leb `{TextSizeCrate} (x y : TextSize) : bool :=
  match ts_cmp x y with Gt => false | _ => true end.

Definition ts_min `{TextSizeCrate} (x y : TextSize) : TextSize := if ts_leb x y then x else y.

(** The cast [i as u32]. *)
Definition as_u32 (i : nat) : N := (N.of_nat i mod 2 ^ 32)%N.

Lemma as_u32_small i : (N.of_nat i < 2 ^ 32)%N -> as_u32 i = N.of_nat i.
Proof. intros H. unfold as_u32. by rewrite N.mod_small. Qed.

Section TextSizeFacts.
Context `{TextSizeLaws}.

Lemma ts_to_inj x y : ts_to x = ts_to y -> x = y.
Proof. intros H1. by rewrite <-(ts_from_to x), <-(ts_from_to y), H1. Qed.

Lemma ts_leb_spec x y : ts_leb x y = (ts_to x <=? ts_to y)%N.
Proof. unfold ts_leb, N.leb. by rewrite ts_cmp_spec. Qed.

Lemma ts_to_min x y : ts_to (ts_min x y) = N.min (ts_to x) (ts_to y).
Proof.
  unfold ts_min. rewrite ts_leb_spec. destruct (N.leb_spec (ts_to x) (ts_to y)); lia.
Qed.

Lemma ts_to_from_nat i : (N.of_nat i < 2 ^ 32)%N -> ts_to (ts_from (as_u32 i)) = N.of_nat i.
Proof. intros Hi. rewrite as_u32_small by done. by apply ts_to_from. Qed.
End TextSizeFacts.

(** A [u32] and a pair of them satisfy the laws: the instance of the examples. *)
Module U32Size.
Record size := mk { raw : N; raw_bound : bool_decide (raw < 2 ^ 32)%N }.

Lemma size_eq x y : raw x = raw y -> x = y.
Proof.
  destruct x as [x Hx], y as [y Hy]; simpl. intros ->. f_equal. apply proof_irrel.
Qed.

Lemma mod_bound n : bool_decide (n mod 2 ^ 32 < 2 ^ 32)%N.
Proof. apply bool_decide_pack, N.mod_lt. done. Qed.

Definition of_N (n : N) : size := mk (n mod 2 ^ 32) (mod_bound n).

Record range := mkRange { lo : size; hi : size; ordered : bool_decide (raw lo <= raw hi)%N }.

Definition new (x y : size) : run range :=
  match decide (bool_decide (raw x <= raw y)%N) with
  | left H => Done (mkRange x y H)
  | right _ => Panic
  end.

Definition add (x y : size) : run size :=
  if decide (raw x + raw y < 2 ^ 32)%N then Done (of_N (raw x + raw y)) else Panic.

Definition sub (x y : size) : run size :=
  if decide (raw y <= raw x)%N then Done (of_N (raw x - raw y)) else Panic.

Global Instance crate : TextSizeCrate := {|
  TextSize := size; ts_from := of_N; ts_to := raw;
  ts_cmp x y := N.compare (raw x) (raw y); ts_add := add; ts_sub := sub;
  TextRange := range; tr_new := new; tr_start := lo; tr_end := hi
|}.

Global Instance laws : TextSizeLaws crate.
Proof.
  split; simpl.
  - intros n Hn. by apply N.mod_small.
  - intros x. apply size_eq. simpl. apply N.mod_small. apply (bool_decide_unpack _ (raw_bound x)).
  - intros x. apply (bool_decide_unpack _ (raw_bound x)).
  - done.
  - intros x y Hs. unfold add. by rewrite decide_True.
  - intros x y Hs. unfold sub. by rewrite decide_True.
  - intros x y Hs. unfold new. destruct (decide _) as [Hd|Hd]; [eexists; split; done|].
    exfalso. apply Hd. by apply bool_decide_pack.
  - intros x y Hs. unfold new. destruct (decide _) as [Hd|Hd]; [|done].
    pose proof (bool_decide_unpack _ Hd). lia.
  - intros r. apply (bool_decide_unpack _ (ordered r)).
Qed.
End U32Size.
