(* ===== verification/Text.v ===== *)
(** * Positions in a text (crates/nova-core/src/text.rs)

    [LineIndex] converts between byte offsets, line and byte column, and the line and UTF-16
    column of the language server protocol.  The theorems: the index has the lines of the
    text; the conversions return; and they are inverse to each other, in both directions. *)

From stdpp Require Import base list numbers strings option.
From S2P Require Import Prelude Str.

(** ** Data *)

Record LineCol := mkLineCol { lc_line : N; lc_col : N }.

Record Position := mkPosition { pos_line : N; pos_character : N }.

Record Range := mkRange { range_start : Position; range_end : Position }.

(** [Range::point]. *)
Definition point (pos : Position) : Range := mkRange pos pos.

(** The result of [slice::binary_search]. *)
Inductive search_result := Found (i : nat) | NotFound (insert : nat).

(** [u32] addition; an overflow panics when overflow checks are on. *)
Definition add_u32 (x y : N) : run N := if decide (x + y < 2 ^ 32)%N then Done (x + y)%N else Panic.

(** [.map(|c| c.len_utf16() as u32).sum()]. *)
Definition sum_utf16 (s : str) : run N := for_each (fun n c => add_u32 n (len_utf16 c)) s 0%N.

(** [debug_assert!]. *)
Definition debug_assert (x : bool) : run unit := if x then Done () else Panic.

(** ** [impl LineIndex] *)

Section LineIndex.
Context `{TextSizeCrate}.

Record LineIndex := mkLineIndex {
  line_starts : list TextSize;
  line_ends : list TextSize;
  text_len : TextSize
}.

Definition ts_of_len (i : nat) : TextSize := ts_from (as_u32 i).

(** The loop of [new], at the byte [i]. *)
Fixpoint new_loop (fuel : nat) (bytes : list N) (i : nat) (starts ends : list TextSize)
    : run (list TextSize * list TextSize) :=
  match fuel with
  | 0 => OutOfFuel
  | S fuel =>
      if decide (i < length bytes) then
        x ← idx bytes i;
        if decide (x = 10%N) then
          new_loop fuel bytes (i + 1) (starts ++ [ts_of_len (i + 1)]) (ends ++ [ts_of_len i])
        else if decide (x = 13%N) then
          crlf ← (if decide (i + 1 < length bytes) then
                    y ← idx bytes (i + 1); Done (bool_decide (y = 10%N))
                  else Done false);
          if crlf : bool then
            new_loop fuel bytes (i + 2) (starts ++ [ts_of_len (i + 2)]) (ends ++ [ts_of_len i])
          else
            new_loop fuel bytes (i + 1) (starts ++ [ts_of_len (i + 1)]) (ends ++ [ts_of_len i])
        else new_loop fuel bytes (i + 1) starts ends
      else Done (starts, ends)
  end.

Definition new (text : str) : run LineIndex :=
  let bytes := as_bytes text in
  '(starts, ends) ← new_loop (S (length bytes)) bytes 0 [ts_from 0] [];
  Done (mkLineIndex starts (ends ++ [ts_of_len (str_len text)]) (ts_of_len (str_len text))).

Definition line_count (ix : LineIndex) : N := as_u32 (length (line_starts ix)).

Definition line_start (ix : LineIndex) (line : N) : option TextSize :=
  line_starts ix !! N.to_nat line.

Definition line_end (ix : LineIndex) (line : N) : option TextSize :=
  line_ends ix !! N.to_nat line.

(** [binary_search] on a strictly increasing vector: the index of [x], or the index where
    it would be inserted. *)
Fixpoint search_from (i : nat) (l : list TextSize) (x : TextSize) : search_result :=
  match l with
  | [] => NotFound i
  | y :: l =>
      match ts_cmp y x with
      | Lt => search_from (S i) l x
      | Eq => Found i
      | Gt => NotFound i
      end
  end.

Definition binary_search (l : list TextSize) (x : TextSize) : search_result :=
  search_from 0 l x.

Definition line_index (ix : LineIndex) (offset : TextSize) : nat :=
  let offset := ts_min offset (text_len ix) in
  match binary_search (line_starts ix) offset with
  | Found line => line
  | NotFound insert => insert - 1
  end.

Definition line_col (ix : LineIndex) (offset : TextSize) : run LineCol :=
  let offset := ts_min offset (text_len ix) in
  let line := line_index ix offset in
  line_start ← idx (line_starts ix) line;
  line_end ← idx (line_ends ix) line;
  col ← ts_sub (ts_min offset line_end) line_start;
  Done (mkLineCol (as_u32 line) (ts_to col)).

Definition offset (ix : LineIndex) (lc : LineCol) : run (option TextSize) :=
  match line_start ix (lc_line lc), line_end ix (lc_line lc) with
  | Some start, Some end_ =>
      offset ← ts_add start (ts_from (lc_col lc));
      if ts_leb offset end_ then Done (Some offset) else Done None
  | _, _ => Done None
  end.

Definition ts_eqb (x y : TextSize) : bool :=
  match ts_cmp x y with Eq => true | _ => false end.

Definition position (ix : LineIndex) (text : str) (offset : TextSize) : run Position :=
  _ ← debug_assert (ts_eqb (ts_of_len (str_len text)) (text_len ix));
  let offset := ts_min offset (text_len ix) in
  let line := line_index ix offset in
  line_start ← idx (line_starts ix) line;
  line_end ← idx (line_ends ix) line;
  let offset := ts_min offset line_end in
  s ← slice text (N.to_nat (ts_to line_start)) (N.to_nat (ts_to offset));
  utf16_col ← sum_utf16 s;
  Done (mkPosition (as_u32 line) utf16_col).

(** The loop of [offset_of_position] over the characters of the line; [inl] is a [return]
    from it. *)
Fixpoint column_loop (chars : list (nat * N)) (line_start : TextSize) (character utf16 : N)
    : run (option TextSize + N) :=
  match chars with
  | [] => Done (inr utf16)
  | (byte_idx, ch) :: chars =>
      let ch_utf16 := len_utf16 ch in
      if decide (utf16 = character) then
        o ← ts_add line_start (ts_of_len byte_idx); Done (inl (Some o))
      else
        s ← add_u32 utf16 ch_utf16;
        if decide (character < s)%N then Done (inl None)
        else
          utf16 ← add_u32 utf16 ch_utf16;
          column_loop chars line_start character utf16
  end.

Definition offset_of_position (ix : LineIndex) (text : str) (position : Position)
    : run (option TextSize) :=
  _ ← debug_assert (ts_eqb (ts_of_len (str_len text)) (text_len ix));
  match line_start ix (pos_line position), line_end ix (pos_line position) with
  | Some line_start, Some line_end =>
      line_text ← slice text (N.to_nat (ts_to line_start)) (N.to_nat (ts_to line_end));
      if decide (pos_character position = 0%N) then Done (Some line_start)
      else
        r ← column_loop (char_indices line_text) line_start (pos_character position) 0%N;
        match r with
        | inl o => Done o
        | inr utf16 =>
            if decide (utf16 = pos_character position) then Done (Some line_end) else Done None
        end
  | _, _ => Done None
  end.

Definition range (ix : LineIndex) (text : str) (r : TextRange) : run Range :=
  s ← position ix text (tr_start r);
  e ← position ix text (tr_end r);
  Done (mkRange s e).

Definition text_range (ix : LineIndex) (text : str) (r : Range) : run (option TextRange) :=
  s ← offset_of_position ix text (range_start r);
  match s with
  | None => Done None
  | Some s =>
      e ← offset_of_position ix text (range_end r);
      match e with
      | None => Done None
      | Some e => tr ← tr_new s e; Done (Some tr)
      end
  end.
End LineIndex.

(** ** The lines of a text *)

(** The line breaks of [s], which starts at the byte [i]: where each starts and ends. *)
Fixpoint breaks (i : nat) (s : str) : list (nat * nat) :=
  match s with
  | [] => []
  | c :: s =>
      if decide (c = 10%N) then (i, i + 1) :: breaks (i + 1) s
      else if decide (c = 13%N) then
        match s with
        | d :: s' =>
            if decide (d = 10%N) then (i, i + 2) :: breaks (i + 2) s'
            else (i, i + 1) :: breaks (i + 1) s
        | [] => [(i, i + 1)]
        end
      else breaks (i + len_utf8 c) s
  end.

Definition no_newline (s : str) : Prop := Forall (fun c => c <> 10%N /\ c <> 13%N) s.

Definition starts_of (s : str) : list nat := 0 :: (snd <$> breaks 0 s).
Definition ends_of (s : str) : list nat := (fst <$> breaks 0 s) ++ [str_len s].
#[global] Arguments starts_of : simpl never.
#[global] Arguments ends_of : simpl never.

(** A line terminator, with what follows it. *)
Definition terminated (t rest : str) : Prop :=
  t = [10%N] \/ t = [13%N; 10%N] \/ (t = [13%N] /\ head rest <> Some 10%N).

(** The line [k], for tables of starts and ends: its content [l], between [p] and its
    terminator [t]; the last line has none. *)
Record line_in (text : str) (starts ends : list nat) (k : nat) (p l t rest : str) : Prop := {
  li_text : text = p ++ l ++ t ++ rest;
  li_start : starts !! k = Some (str_len p);
  li_end : ends !! k = Some (str_len (p ++ l));
  li_content : no_newline l;
  li_next : (terminated t rest /\ starts !! S k = Some (str_len (p ++ l ++ t))) \/
            (t = [] /\ rest = [] /\ starts !! S k = None)
}.

Definition line_at (text : str) : nat -> str -> str -> str -> str -> Prop :=
  line_in text (starts_of text) (ends_of text).

Lemma line_in_shift text starts ends a b k p l t rest :
  line_in text starts ends k p l t rest ->
  line_in text (a :: starts) (b :: ends) (S k) p l t rest.
Proof. intros [H1 H2 H3 H4 H5]. by split. Qed.

(** The breaks at a terminator. *)
Lemma breaks_terminated i t rest :
  terminated t rest -> breaks i (t ++ rest) = (i, i + str_len t) :: breaks (i + str_len t) rest.
Proof.
  intros [->|[->|[-> Hr]]]; [done..|]. simpl. destruct rest as [|d rest]; [done|]. simpl in Hr.
  rewrite decide_False by congruence. done.
Qed.

(** A string is empty, or starts with a terminator, or with another character. *)
Lemma str_cases (s : str) :
  s = [] \/ (exists t rest, s = t ++ rest /\ terminated t rest /\ t <> []) \/
  (exists x rest, s = x :: rest /\ x <> 10%N /\ x <> 13%N).
Proof.
  destruct s as [|x s]; [by left|right].
  destruct (decide (x = 10%N)) as [->|H10]; [left; exists [10%N], s; by split_and!; [|left|]|].
  destruct (decide (x = 13%N)) as [->|H13]; [left|right; eauto].
  destruct s as [|y s].
  { exists [13%N], []. split_and!; [done| |done]. by right; right. }
  destruct (decide (y = 10%N)) as [->|Hy].
  - exists [13%N; 10%N], s. split_and!; [done| |done]. by right; left.
  - exists [13%N], (y :: s). split_and!; [done| |done]. right; right. split; [done|]. simpl. congruence.
Qed.

Lemma breaks_other i x s :
  x <> 10%N -> x <> 13%N -> breaks i (x :: s) = breaks (i + len_utf8 x) s.
Proof. intros H1 H2. simpl. by rewrite !decide_False. Qed.

(** Each entry of the two tables is a line: [p] is where the current line starts and [c] its
    content up to here. *)
Lemma breaks_lines s p c k :
  no_newline c -> k < S (length (breaks (str_len (p ++ c)) s)) ->
  exists p' l t rest,
    line_in (p ++ c ++ s) (str_len p :: (snd <$> breaks (str_len (p ++ c)) s))
      ((fst <$> breaks (str_len (p ++ c)) s) ++ [str_len (p ++ c ++ s)]) k p' l t rest.
Proof.
  revert p c k. induction s as [s IH] using (induction_ltof1 _ length). unfold ltof in IH.
  intros p c k Hc Hk. destruct (str_cases s) as [->|[(t & rest & -> & Ht & Hne)|(x & rest & -> & H1 & H2)]].
  - simpl in Hk. destruct k as [|k]; [|lia]. exists p, c, [], []. rewrite !app_nil_r.
    split; [by rewrite ?app_nil_r|done..|]. by right.
  - rewrite breaks_terminated in * by done. rewrite <-str_len_app, <-app_assoc in *.
    destruct k as [|k].
    { exists p, c, t, rest. split; [by rewrite ?app_assoc|done..|]. left. done. }
    destruct (IH rest) with (p := p ++ c ++ t) (c := @nil N) (k := k) as (p' & l & t' & rest' & Hl).
    + rewrite length_app. destruct t; [done|]. simpl. lia.
    + constructor.
    + rewrite app_nil_r. simpl in Hk. lia.
    + exists p', l, t', rest'. rewrite app_nil_r in Hl. simpl in *.
      rewrite <-!app_assoc in Hl. by apply line_in_shift.
  - rewrite breaks_other in * by done.
    replace (str_len (p ++ c) + len_utf8 x) with (str_len (p ++ c ++ [x])) in *.
    2:{ rewrite !str_len_app. rewrite str_len_cons. change (str_len []) with 0. lia. }
    destruct (IH rest) with (p := p) (c := c ++ [x]) (k := k) as (p' & l & t' & rest' & Hl).
    + simpl. lia.
    + apply Forall_app. split; [done|]. by repeat constructor.
    + done.
    + exists p', l, t', rest'. by rewrite <-app_assoc in Hl.
Qed.

Lemma line_exists text k :
  k < length (starts_of text) -> exists p l t rest, line_at text k p l t rest.
Proof.
  intros Hk. unfold starts_of in Hk. simpl in Hk. rewrite length_fmap in Hk.
  apply (breaks_lines text [] [] k); [constructor|]. done.
Qed.

Lemma terminated_pos t rest : terminated t rest -> 1 <= str_len t <= 2.
Proof. intros [->|[->|[-> _]]]; vm_compute; lia. Qed.

(** ** The tables are increasing *)

Definition increasing (l : list nat) : Prop :=
  forall k x y, l !! k = Some x -> l !! S k = Some y -> x < y.

Lemma increasing_lt l i j x y : increasing l -> i < j -> l !! i = Some x -> l !! j = Some y -> x < y.
Proof.
  intros Hl Hij Hx. revert y. induction Hij as [|j Hij IH]; intros y Hy; [by eapply Hl|].
  destruct (lookup_lt_is_Some_2 l j) as [z Hz]; [apply lookup_lt_Some in Hy; lia|].
  specialize (IH z Hz). pose proof (Hl _ _ _ Hz Hy). lia.
Qed.

Lemma starts_increasing text : increasing (starts_of text).
Proof.
  intros k x y Hx Hy.
  destruct (line_exists text k) as (p & l & t & rest & [_ H2 _ _ H5]); [by eapply lookup_lt_Some|].
  destruct H5 as [[Ht H5]|(_ & _ & H5)]; [|congruence]. simplify_eq.
  apply terminated_pos in Ht. rewrite !str_len_app. lia.
Qed.

(** The line of an offset is unique. *)
Lemma line_unique text o k1 k2 x1 x2 :
  starts_of text !! k1 = Some x1 -> x1 <= o ->
  (forall y, starts_of text !! S k1 = Some y -> o < y) ->
  starts_of text !! k2 = Some x2 -> x2 <= o ->
  (forall y, starts_of text !! S k2 = Some y -> o < y) -> k1 = k2.
Proof.
  intros H1 L1 N1 H2 L2 N2.
  assert (Hcase : forall a b xa xb, starts_of text !! a = Some xa -> starts_of text !! b = Some xb ->
    (forall y, starts_of text !! S a = Some y -> o < y) -> xb <= o -> ~ a < b).
  { intros a b xa xb Ha Hb Hn Hle Hab.
    destruct (lookup_lt_is_Some_2 (starts_of text) (S a)) as [y Hy].
    { apply lookup_lt_Some in Hb. lia. }
    specialize (Hn y Hy). destruct (decide (S a = b)) as [<-|Hne]; [simplify_eq; lia|].
    pose proof (increasing_lt _ (S a) b y xb (starts_increasing text) ltac:(lia) Hy Hb). lia. }
  pose proof (Hcase k1 k2 _ _ H1 H2 N1 L2). pose proof (Hcase k2 k1 _ _ H2 H1 N2 L1). lia.
Qed.

(** ** [new] computes the tables *)

Section New.
Context `{TextSizeCrate}.

(** The loop passes over bytes that are not line breaks. *)
Lemma new_loop_skip fuel k bytes i starts ends :
  (forall j, j < k -> exists x, bytes !! (i + j) = Some x /\ x <> 10%N /\ x <> 13%N) ->
  new_loop (k + fuel) bytes i starts ends = new_loop fuel bytes (i + k) starts ends.
Proof.
  revert i; induction k as [|k IH]; intros i Hk; [by rewrite Nat.add_0_r|].
  destruct (Hk 0) as (x & Hx & H1 & H2); [lia|]. rewrite Nat.add_0_r in Hx. simpl.
  rewrite decide_True by (by eapply lookup_lt_Some).
  rewrite (proj2 (idx_Done _ _ _) Hx). simpl. rewrite !decide_False by done.
  rewrite IH; [by rewrite <-Nat.add_assoc|]. intros j Hj. rewrite <-Nat.add_assoc.
  apply Hk. lia.
Qed.

Lemma as_bytes_lookup pre s j :
  as_bytes (pre ++ s) !! (str_len pre + j) = as_bytes s !! j.
Proof.
  rewrite as_bytes_app, <-length_as_bytes, lookup_app_r by lia. f_equal. lia.
Qed.

Lemma new_loop_skip_char fuel pre x s starts ends :
  x <> 10%N -> x <> 13%N ->
  new_loop (len_utf8 x + fuel) (as_bytes (pre ++ x :: s)) (str_len pre) starts ends =
  new_loop fuel (as_bytes (pre ++ x :: s)) (str_len pre + len_utf8 x) starts ends.
Proof.
  intros H1 H2. apply new_loop_skip. intros j Hj. rewrite as_bytes_lookup.
  change (as_bytes (x :: s)) with (encode_utf8 x ++ as_bytes s).
  rewrite lookup_app_l by (by rewrite length_encode_utf8).
  destruct (lookup_lt_is_Some_2 (encode_utf8 x) j) as [y Hy]; [by rewrite length_encode_utf8|].
  exists y. split; [done|].
  destruct (decide (x < 0x80)%N) as [Hlo|Hhi].
  - unfold encode_utf8 in Hy. rewrite (proj2 (N.ltb_lt _ _) Hlo) in Hy.
    destruct j; by simplify_eq/=.
  - apply list_elem_of_lookup_2 in Hy. apply encode_utf8_high in Hy; lia.
Qed.

Definition table (f : nat * nat -> nat) (bs : list (nat * nat)) : list TextSize :=
  (fun b => ts_of_len (f b)) <$> bs.

(** One terminator. *)
Lemma new_loop_terminated fuel pre t rest starts ends :
  terminated t rest -> 0 < fuel ->
  new_loop fuel (as_bytes (pre ++ t ++ rest)) (str_len pre) starts ends =
  new_loop (pred fuel) (as_bytes (pre ++ t ++ rest)) (str_len pre + str_len t)
    (starts ++ [ts_of_len (str_len pre + str_len t)]) (ends ++ [ts_of_len (str_len pre)]).
Proof.
  intros Ht Hf. destruct fuel as [|fuel]; [lia|]. simpl.
  set (bytes := as_bytes (pre ++ t ++ rest)).
  assert (Hlk : forall j, bytes !! (str_len pre + j) = as_bytes (t ++ rest) !! j)
    by (intros; apply as_bytes_lookup).
  pose proof (Hlk 0) as H0. rewrite Nat.add_0_r in H0. pose proof (Hlk 1) as H1.
  destruct Ht as [->|[->|[-> Hr]]]; simpl in H0, H1.
  - rewrite decide_True by (by eapply lookup_lt_Some). rewrite (proj2 (idx_Done _ _ _) H0).
    done.
  - rewrite decide_True by (by eapply lookup_lt_Some). rewrite (proj2 (idx_Done _ _ _) H0).
    simpl. rewrite decide_True by (by eapply lookup_lt_Some).
    by rewrite (proj2 (idx_Done _ _ _) H1).
  - rewrite decide_True by (by eapply lookup_lt_Some). rewrite (proj2 (idx_Done _ _ _) H0).
    simpl. change (str_len [13%N]) with 1.
    case_decide as Hlt; [|done]. destruct rest as [|d rest].
    { apply lookup_lt_is_Some in Hlt as [y Hy]. rewrite H1 in Hy. done. }
    clear H1. assert (H1 : bytes !! (str_len pre + 1) = (encode_utf8 d ++ as_bytes rest) !! 0)
      by (by rewrite Hlk).
    destruct (encode_utf8 d) as [|y ys] eqn:Ed.
    { pose proof (length_encode_utf8 d) as Hl. rewrite Ed in Hl. pose proof (len_utf8_pos d). simpl in Hl. lia. }
    simpl in H1. rewrite (proj2 (idx_Done _ _ _) H1). simpl.
    rewrite bool_decide_eq_false_2; [done|]. intros ->. simpl in Hr. apply Hr. f_equal.
    destruct (decide (d < 0x80)%N) as [Hlo|Hhi].
    + unfold encode_utf8 in Ed. rewrite (proj2 (N.ltb_lt _ _) Hlo) in Ed. by simplify_eq.
    + assert (Hin : 10%N ∈ encode_utf8 d) by (rewrite Ed; by left).
      apply encode_utf8_high in Hin; lia.
Qed.

Lemma new_loop_spec s pre fuel starts ends :
  str_len s < fuel ->
  new_loop fuel (as_bytes (pre ++ s)) (str_len pre) starts ends =
  Done (starts ++ table snd (breaks (str_len pre) s), ends ++ table fst (breaks (str_len pre) s)).
Proof.
  revert pre fuel starts ends. induction s as [s IH] using (induction_ltof1 _ length).
  unfold ltof in IH. intros pre fuel starts ends Hf.
  destruct (str_cases s) as [->|[(t & rest & -> & Ht & Hne)|(x & rest & -> & H1 & H2)]].
  - rewrite app_nil_r. destruct fuel as [|fuel]; [lia|]. simpl.
    rewrite decide_False by (rewrite length_as_bytes; lia). by rewrite !app_nil_r.
  - rewrite new_loop_terminated, breaks_terminated by (done || lia).
    pose proof (terminated_pos _ _ Ht). rewrite str_len_app in Hf.
    rewrite <-str_len_app, app_assoc. rewrite IH; [|rewrite length_app; destruct t; [done|]; simpl; lia|lia].
    simpl. by rewrite <-!app_assoc.
  - rewrite breaks_other by done. rewrite str_len_cons in Hf.
    replace fuel with (len_utf8 x + (fuel - len_utf8 x)) by lia.
    rewrite new_loop_skip_char by done.
    replace (pre ++ x :: rest) with ((pre ++ [x]) ++ rest) by (by rewrite <-app_assoc).
    replace (str_len pre + len_utf8 x) with (str_len (pre ++ [x])).
    2:{ rewrite str_len_app, str_len_cons. change (str_len []) with 0. lia. }
    apply IH; [simpl; lia|lia].
Qed.

(** The index of a text. *)
Definition index_of (text : str) : LineIndex :=
  mkLineIndex (ts_of_len <$> starts_of text) (ts_of_len <$> ends_of text)
    (ts_of_len (str_len text)).

Lemma new_spec text : new text = Done (index_of text).
Proof.
  unfold new. rewrite length_as_bytes.
  pose proof (new_loop_spec text [] (S (str_len text)) [ts_from 0] [] ltac:(lia)) as Hl.
  cbn [app] in Hl. change (str_len []) with 0 in Hl. rewrite Hl. simpl. f_equal. unfold index_of, starts_of, ends_of, table. f_equal.
  - simpl. f_equal. by rewrite <-list_fmap_compose.
  - rewrite fmap_app, <-list_fmap_compose. done.
Qed.
End New.

(** ** Columns *)

Lemma add_u32_Done x y : (x + y < 2 ^ 32)%N -> add_u32 x y = Done (x + y)%N.
Proof. intros Hs. unfold add_u32. by rewrite decide_True. Qed.

Lemma for_each_utf16 s n :
  (n + utf16_len s < 2 ^ 32)%N ->
  for_each (fun n c => add_u32 n (len_utf16 c)) s n = Done (n + utf16_len s)%N.
Proof.
  revert n; induction s as [|c s IH]; intros n Hn; simpl in *; [f_equal; lia|].
  rewrite add_u32_Done by lia. simpl. rewrite IH by lia. f_equal. lia.
Qed.

Lemma sum_utf16_spec s : (N.of_nat (str_len s) < 2 ^ 32)%N -> sum_utf16 s = Done (utf16_len s).
Proof.
  intros Hs. unfold sum_utf16. pose proof (utf16_len_le s). rewrite for_each_utf16 by lia. done.
Qed.

(** The offset, in a line, of a UTF-16 column. *)
Definition column_split (l : str) (c : N) (l1 : str) : Prop :=
  exists l2, l = l1 ++ l2 /\ utf16_len l1 = c.

(** ** Looking up the line of an offset *)

Section Lookup.
Context `{TextSizeLaws} (text : str) (Hsmall : (N.of_nat (str_len text) < 2 ^ 32)%N).

Lemma ts_of_len_to i : i <= str_len text -> ts_to (ts_of_len i) = N.of_nat i.
Proof. intros Hi. apply ts_to_from_nat. lia. Qed.

Lemma line_at_le k p l t rest :
  line_at text k p l t rest -> str_len (p ++ l) <= str_len text.
Proof. intros [-> _ _ _ _]. rewrite !str_len_app. lia. Qed.

Lemma starts_le k x : starts_of text !! k = Some x -> x <= str_len text.
Proof.
  intros Hx. destruct (line_exists text k) as (p & l & t & rest & Hl); [by eapply lookup_lt_Some|].
  pose proof (line_at_le _ _ _ _ _ Hl) as Hle. destruct Hl as [_ Hs _ _ _]. simplify_eq.
  rewrite str_len_app in Hle. lia.
Qed.

(** The search ends at the last start that is not past [o]. *)
Lemma search_from_spec l i o :
  increasing l -> Forall (fun y => y <= str_len text) l -> o <= str_len text ->
  match search_from i (ts_of_len <$> l) (ts_of_len o) with
  | Found j => i <= j /\ l !! (j - i) = Some o
  | NotFound j => i <= j /\ (forall y, l !! (j - i) = Some y -> o < y) /\
      (forall k, j - i = S k -> exists y, l !! k = Some y /\ y < o)
  end.
Proof.
  intros Hinc Hall Ho. revert i; induction l as [|y l IH]; intros i; simpl.
  { split_and!; [lia|done|]. intros k Hk. lia. }
  pose proof (Forall_cons_1 _ _ _ Hall) as [Hy Hall'].
  change (list_fmap nat TextSize ts_of_len l) with (ts_of_len <$> l).
  rewrite ts_cmp_spec, !ts_of_len_to by done.
  destruct (N.compare_spec (N.of_nat y) (N.of_nat o)) as [He|Hlt|Hgt].
  - split; [lia|]. rewrite Nat.sub_diag. simpl. f_equal. lia.
  - assert (Hinc' : increasing l) by (intros k a b; apply (Hinc (S k))).
    specialize (IH Hinc' Hall' (S i)).
    destruct (search_from (S i) _ _) as [j|j].
    + destruct IH as [Hle Hj]. split; [lia|]. replace (j - i) with (S (j - S i)) by lia. done.
    + destruct IH as (Hle & Hj & Hk). replace (j - i) with (S (j - S i)) by lia.
      split_and!; [lia|done|]. intros k [= <-].
      destruct (j - S i) as [|k] eqn:Ek; [exists y; split; [done|lia]|].
      by apply Hk.
  - rewrite Nat.sub_diag. split_and!; [lia| |lia]. intros y' [= <-]. lia.
Qed.

Lemma line_index_spec o :
  o <= str_len text ->
  exists x, starts_of text !! line_index (index_of text) (ts_of_len o) = Some x /\ x <= o /\
    forall y, starts_of text !! S (line_index (index_of text) (ts_of_len o)) = Some y -> o < y.
Proof.
  intros Ho. unfold line_index, binary_search.
  assert (Hmin : ts_min (ts_of_len o) (text_len (index_of text)) = ts_of_len o).
  { apply ts_to_inj. rewrite ts_to_min. simpl. rewrite !ts_of_len_to by lia. lia. }
  rewrite Hmin. simpl line_starts.
  assert (Hall : Forall (fun y => y <= str_len text) (starts_of text)).
  { apply Forall_lookup. intros k y. apply starts_le. }
  pose proof (search_from_spec (starts_of text) 0 o (starts_increasing text) Hall Ho) as Hs.
  destruct (search_from 0 _ _) as [j|j].
  - destruct Hs as [_ Hj]. rewrite Nat.sub_0_r in Hj. exists o. split_and!; [done|lia|].
    intros y Hy. by eapply (starts_increasing text).
  - destruct Hs as (_ & Hj & Hk). rewrite Nat.sub_0_r in Hj, Hk. destruct j as [|j].
    { specialize (Hj 0 eq_refl). lia. }
    destruct (Hk j eq_refl) as (y & Hy & Hlt).
    replace (S j - 1) with j by lia. exists y. split_and!; [done|lia|]. intros z Hz. by apply Hj.
Qed.

(** An offset within a line, up to its terminator, is found there. *)
Lemma line_index_in k p l t rest o :
  line_at text k p l t rest -> str_len p <= o <= str_len (p ++ l) ->
  line_index (index_of text) (ts_of_len o) = k.
Proof.
  intros Hl Ho. pose proof (line_at_le _ _ _ _ _ Hl) as Hle.
  destruct (line_index_spec o) as (x & Hx & Hxo & Hn); [lia|].
  destruct Hl as [_ Hs _ _ Hnext].
  eapply (line_unique text o); [exact Hx|done|exact Hn|exact Hs|lia|].
  intros y Hy. destruct Hnext as [[Ht Hnx]|(_ & _ & Hnx)]; [|congruence]. simplify_eq.
  apply terminated_pos in Ht. rewrite !str_len_app in *. lia.
Qed.

(** The line of an offset. *)
Lemma line_of_offset o :
  o <= str_len text ->
  exists p l t rest, line_at text (line_index (index_of text) (ts_of_len o)) p l t rest /\
    str_len p <= o /\ (o <= str_len (p ++ l) \/
      (t = [13%N; 10%N] /\ o = str_len (p ++ l) + 1)).
Proof.
  intros Ho. destruct (line_index_spec o Ho) as (x & Hx & Hxo & Hn).
  destruct (line_exists text (line_index (index_of text) (ts_of_len o)))
    as (p & l & t & rest & Hl); [by eapply lookup_lt_Some|].
  exists p, l, t, rest. split; [done|]. pose proof Hl as [Ht Hs _ _ Hnext].
  assert (x = str_len p) as -> by congruence.
  split; [done|].
  destruct (decide (o <= str_len (p ++ l))) as [|Hgt]; [by left|right].
  destruct Hnext as [[Hterm Hnx]|(-> & -> & _)].
  - specialize (Hn _ Hnx). rewrite !str_len_app in *.
    destruct Hterm as [->|[->|[-> _]]]; [change (str_len [10%N]) with 1 in Hn; lia| |
      change (str_len [13%N]) with 1 in Hn; lia].
    change (str_len [13%N; 10%N]) with 2 in Hn. split; [done|lia].
  - exfalso. rewrite Ht, !str_len_app in Ho. rewrite str_len_app in Hgt.
    change (str_len []) with 0 in Ho. lia.
Qed.
(** *** The conversions *)

Definition ix : LineIndex := index_of text.
#[local] Arguments ix : simpl never.

Lemma index_le_start k x : starts_of text !! k = Some x -> k <= x.
Proof.
  revert x; induction k as [|k IH]; intros x Hx; [lia|].
  destruct (lookup_lt_is_Some_2 (starts_of text) k) as [y Hy]; [apply lookup_lt_Some in Hx; lia|].
  pose proof (starts_increasing text _ _ _ Hy Hx). specialize (IH y Hy). lia.
Qed.

Lemma line_number k p l t rest : line_at text k p l t rest -> as_u32 k = N.of_nat k.
Proof.
  intros [_ Hs _ _ _]. apply as_u32_small. pose proof (index_le_start _ _ Hs).
  pose proof (starts_le _ _ Hs). lia.
Qed.

Lemma line_tables k p l t rest :
  line_at text k p l t rest ->
  line_starts ix !! k = Some (ts_of_len (str_len p)) /\
  line_ends ix !! k = Some (ts_of_len (str_len (p ++ l))).
Proof. intros [_ H1 H2 _ _]. unfold ix. cbn [index_of line_starts line_ends]. split; rewrite list_lookup_fmap; [by rewrite H1|by rewrite H2]. Qed.

Lemma debug_assert_len : debug_assert (ts_eqb (ts_of_len (str_len text)) (text_len ix)) = Done ().
Proof. unfold ts_eqb, ix. simpl. rewrite ts_cmp_spec. by rewrite N.compare_refl. Qed.

(** Offsets are clamped to the content of the line. *)
Lemma clamp_offset o k p l t rest :
  line_at text k p l t rest -> o <= str_len text ->
  ts_min (ts_min (ts_of_len o) (text_len ix)) (ts_of_len (str_len (p ++ l))) =
  ts_of_len (Nat.min o (str_len (p ++ l))).
Proof.
  intros Hl Ho. pose proof (line_at_le _ _ _ _ _ Hl).
  apply ts_to_inj. rewrite !ts_to_min. unfold ix. simpl.
  rewrite !ts_of_len_to by (done || lia). lia.
Qed.

Lemma min_text_len o : o <= str_len text -> ts_min (ts_of_len o) (text_len ix) = ts_of_len o.
Proof.
  intros Ho. apply ts_to_inj. rewrite ts_to_min. unfold ix. simpl.
  rewrite !ts_of_len_to by (done || lia). lia.
Qed.

Lemma line_slice k p l1 l2 t rest :
  line_at text k p (l1 ++ l2) t rest ->
  slice text (N.to_nat (ts_to (ts_of_len (str_len p))))
    (N.to_nat (ts_to (ts_of_len (str_len (p ++ l1))))) = Done l1.
Proof.
  intros Hl. pose proof (line_at_le _ _ _ _ _ Hl) as Hle. destruct Hl as [Ht _ _ _ _].
  rewrite !str_len_app in *. rewrite !ts_of_len_to by (done || lia). rewrite !Nat2N.id.
  rewrite Ht, <-!app_assoc. apply slice_app.
Qed.

Lemma position_spec o k p l1 l2 t rest :
  line_at text k p (l1 ++ l2) t rest -> o <= str_len text ->
  line_index ix (ts_of_len o) = k -> Nat.min o (str_len (p ++ l1 ++ l2)) = str_len (p ++ l1) ->
  position ix text (ts_of_len o) = Done (mkPosition (N.of_nat k) (utf16_len l1)).
Proof.
  intros Hl Ho Hk Hmin. unfold position. rewrite debug_assert_len, bind_Done_l.
  rewrite (min_text_len o Ho). rewrite Hk.
  destruct (line_tables _ _ _ _ _ Hl) as [Hs He].
  rewrite (proj2 (idx_Done _ _ _) Hs), bind_Done_l, (proj2 (idx_Done _ _ _) He), bind_Done_l.
  cbv zeta.
  rewrite <-(min_text_len o Ho) at 1. rewrite (clamp_offset _ _ _ _ _ _ Hl Ho), Hmin.
  rewrite (line_slice _ _ _ _ _ _ Hl). simpl. rewrite sum_utf16_spec.
  - simpl. by rewrite (line_number _ _ _ _ _ Hl).
  - pose proof (line_at_le _ _ _ _ _ Hl) as Hle. rewrite !str_len_app in Hle. lia.
Qed.

(** The loop over the characters of a line finds the split at the column. *)
Lemma wp_column_loop p l1 l2 c :
  (utf16_len l1 <= c)%N -> str_len (p ++ l1 ++ l2) <= str_len text ->
  wp (column_loop (char_indices_from (str_len l1) l2) (ts_of_len (str_len p)) c (utf16_len l1))
     (fun r => match r with
        | inl (Some o) => exists a b, l2 = a ++ b /\ utf16_len (l1 ++ a) = c /\
            o = ts_of_len (str_len (p ++ l1 ++ a))
        | inl None => forall a b, l2 = a ++ b -> utf16_len (l1 ++ a) <> c
        | inr u => u = utf16_len (l1 ++ l2) /\ (u <= c)%N
        end).
Proof.
  revert l1; induction l2 as [|x l2 IH]; intros l1 Hle Hlen; simpl.
  { rewrite app_nil_r. done. }
  case_decide as Hc.
  { rewrite !str_len_app in Hlen.
    rewrite ts_add_spec; rewrite !ts_of_len_to by (done || lia); [|lia].
    exists [], (x :: l2). rewrite app_nil_r. split_and!; [done..|].
    unfold ts_of_len. rewrite as_u32_small by (rewrite str_len_app; lia). f_equal.
    rewrite str_len_app. lia. }
  pose proof (utf16_len_le (l1 ++ x :: l2)) as Hub. rewrite !str_len_app, str_len_cons in *.
  rewrite utf16_len_app in Hub. simpl in Hub.
  rewrite add_u32_Done by lia. simpl. case_decide as Hlt.
  - intros a b Hab. destruct a as [|y a]; simpl in Hab; [by rewrite app_nil_r|]. simplify_eq.
    rewrite utf16_len_app. simpl. lia.
  - assert (Hl1 : utf16_len (l1 ++ [x]) = (utf16_len l1 + len_utf16 x)%N).
    { rewrite utf16_len_app. simpl. lia. }
    assert (Hs1 : str_len (l1 ++ [x]) = str_len l1 + len_utf8 x).
    { rewrite str_len_app, str_len_cons. change (str_len []) with 0. lia. }
    rewrite <-Hl1, <-Hs1. eapply wp_mono.
    + apply IH; [lia|]. rewrite !str_len_app, str_len_cons. change (str_len []) with 0. lia.
    + intros [[o|]|u].
      * intros (a & b & -> & Hu & ->). exists (x :: a), b.
        rewrite <-app_assoc in *. done.
      * intros Hn a b Hab. destruct a as [|y a]; simpl in Hab; [by rewrite app_nil_r|].
        simplify_eq. specialize (Hn a b eq_refl). by rewrite <-app_assoc in Hn.
      * by rewrite <-app_assoc.
Qed.

(** Prefixes with the same column are the same. *)
Lemma utf16_prefix_inj (a1 b1 a2 b2 : str) :
  a1 ++ b1 = a2 ++ b2 -> utf16_len a1 = utf16_len a2 -> a1 = a2.
Proof.
  revert a2; induction a1 as [|x a1 IH]; intros [|y a2] Heq Hu; simpl in *; [done| | |].
  - pose proof (len_utf16_pos y). lia.
  - pose proof (len_utf16_pos x). lia.
  - simplify_eq. f_equal. apply (IH a2); [done|lia].
Qed.

Lemma utf16_prefix_le (l a b : str) : l = a ++ b -> (utf16_len a <= utf16_len l)%N.
Proof. intros ->. rewrite utf16_len_app. lia. Qed.

Lemma wp_offset_of_position k p l t rest c :
  line_at text k p l t rest ->
  wp (offset_of_position ix text (mkPosition (N.of_nat k) c)) (fun r => match r with
    | Some o => exists l1, column_split l c l1 /\ o = ts_of_len (str_len (p ++ l1))
    | None => forall l1, ~ column_split l c l1
    end).
Proof.
  intros Hl. unfold offset_of_position. rewrite debug_assert_len, bind_Done_l.
  unfold line_start, line_end. simpl pos_line. rewrite Nat2N.id.
  destruct (line_tables _ _ _ _ _ Hl) as [Hs He]. rewrite Hs, He.
  assert (Hl' : line_at text k p (l ++ []) t rest) by by rewrite app_nil_r.
  rewrite (line_slice _ _ _ _ _ _ Hl'). simpl. case_decide as Hc.
  { subst c. exists []. split; [by exists l|]. by rewrite app_nil_r. }
  eapply wp_seq.
  { apply (wp_column_loop p [] l c); [simpl; lia|]. apply (line_at_le _ _ _ _ _ Hl). }
  intros [[o|]|u]; simpl.
  - intros (a & b & -> & Hu & ->). exists a. split; [by exists b|done].
  - intros Hn l1 (l2 & -> & Hu). by apply (Hn l1 l2).
  - intros [-> Hle]. case_decide as Hu.
    + exists l. split; [by exists []; rewrite app_nil_r|done].
    + intros l1 (l2 & Heq & Hu2). apply utf16_prefix_le in Heq. lia.
Qed.

Lemma offset_of_position_no_line n c :
  length (starts_of text) <= N.to_nat n ->
  offset_of_position ix text (mkPosition n c) = Done None.
Proof.
  intros Hn. unfold offset_of_position. rewrite debug_assert_len, bind_Done_l.
  unfold line_start, ix. cbn [index_of line_starts pos_line].
  rewrite list_lookup_fmap, lookup_ge_None_2 by done. done.
Qed.

Lemma offset_of_position_at k p l1 l2 t rest :
  line_at text k p (l1 ++ l2) t rest ->
  offset_of_position ix text (mkPosition (N.of_nat k) (utf16_len l1)) =
  Done (Some (ts_of_len (str_len (p ++ l1)))).
Proof.
  intros Hl. pose proof (wp_offset_of_position k p _ t rest (utf16_len l1) Hl) as (r & Hr & Hs)%wp_inv.
  rewrite Hr. destruct r as [o|].
  - destruct Hs as (l1' & (l2' & Heq & Hu) & ->).
    by rewrite (utf16_prefix_inj _ _ _ _ (eq_sym Heq) Hu).
  - exfalso. apply (Hs l1). by exists l2.
Qed.

Lemma line_col_spec o k p l t rest :
  line_at text k p l t rest -> o <= str_len text -> line_index ix (ts_of_len o) = k ->
  str_len p <= o ->
  line_col ix (ts_of_len o) =
  Done (mkLineCol (N.of_nat k) (N.of_nat (Nat.min o (str_len (p ++ l)) - str_len p))).
Proof.
  intros Hl Ho Hk Hp. unfold line_col. cbv zeta. rewrite (min_text_len o Ho), Hk.
  pose proof (line_at_le _ _ _ _ _ Hl) as Hle.
  destruct (line_tables _ _ _ _ _ Hl) as [Hs He].
  rewrite (proj2 (idx_Done _ _ _) Hs), bind_Done_l, (proj2 (idx_Done _ _ _) He), bind_Done_l.
  rewrite <-(min_text_len o Ho) at 1. rewrite (clamp_offset _ _ _ _ _ _ Hl Ho).
  rewrite str_len_app in *.
  rewrite ts_sub_spec; rewrite !ts_of_len_to by (done || lia); [|lia].
  rewrite bind_Done_l, (line_number _ _ _ _ _ Hl), ts_to_from by lia. do 2 f_equal. lia.
Qed.

Lemma offset_spec k p l t rest col :
  line_at text k p l t rest -> col <= str_len l ->
  offset ix (mkLineCol (N.of_nat k) (N.of_nat col)) = Done (Some (ts_of_len (str_len p + col))).
Proof.
  intros Hl Hcol. unfold offset, line_start, line_end. cbn [lc_line lc_col]. rewrite Nat2N.id.
  pose proof (line_at_le _ _ _ _ _ Hl) as Hle.
  destruct (line_tables _ _ _ _ _ Hl) as [Hs He]. rewrite Hs, He.
  rewrite str_len_app in Hle.
  rewrite ts_add_spec; rewrite ts_of_len_to, ts_to_from by (done || lia); [|lia].
  rewrite bind_Done_l, ts_leb_spec.
  assert (Heq : ts_from (N.of_nat (str_len p) + N.of_nat col) = ts_of_len (str_len p + col)).
  { unfold ts_of_len. rewrite as_u32_small by lia. f_equal. lia. }
  rewrite Heq, !ts_of_len_to by (done || rewrite ?str_len_app; lia).
  rewrite (proj2 (N.leb_le _ _)); [done|]. rewrite str_len_app. lia.
Qed.

(** A boundary splits the content of its line, unless it is inside a terminator. *)
Lemma boundary_split o p l t rest k :
  is_char_boundary text o = true -> line_at text k p l t rest ->
  str_len p <= o <= str_len (p ++ l) ->
  exists l1 l2, l = l1 ++ l2 /\ o = str_len (p ++ l1).
Proof.
  intros (a & b & Hab & <-)%is_char_boundary_spec Hl [Ho1 Ho2].
  destruct Hl as [Ht _ _ _ _].
  destruct (split_nested p (l ++ t ++ rest) a b) as (m & -> & Hm); [congruence|done|].
  rewrite !str_len_app in Ho2.
  destruct (split_nested m b l (t ++ rest)) as (m' & -> & _); [done|lia|]. eauto.
Qed.
End Lookup.

(** A split of a string is determined by its offset, and so is a line by its number. *)
Lemma split_unique (p1 q1 p2 q2 : str) :
  p1 ++ q1 = p2 ++ q2 -> str_len p1 = str_len p2 -> p1 = p2 /\ q1 = q2.
Proof.
  intros Heq Hl. destruct (split_nested _ _ _ _ Heq) as (m & -> & ->); [lia|].
  rewrite str_len_app in Hl. assert (Hm : str_len m = 0) by lia.
  apply str_len_nil_inv in Hm as ->. by rewrite app_nil_r.
Qed.

Lemma line_at_fun text k p l t rest p' l' t' rest' :
  line_at text k p l t rest -> line_at text k p' l' t' rest' -> p = p' /\ l = l'.
Proof.
  intros [H1 H2 H3 _ _] [H1' H2' H3' _ _].
  destruct (split_unique p (l ++ t ++ rest) p' (l' ++ t' ++ rest')) as [-> Hq]; [congruence..|].
  split; [done|]. rewrite !str_len_app in *.
  apply (split_unique l (t ++ rest) l' (t' ++ rest') Hq).
  assert (H : str_len p' + str_len l = str_len p' + str_len l') by congruence. lia.
Qed.

(** The offset that the conversions keep: an offset between the two characters of a CRLF is
    moved before it. *)
Definition inside_crlf (text : str) (o : nat) : Prop :=
  exists p rest, text = p ++ [13%N; 10%N] ++ rest /\ o = str_len p + 1.

(** ** Theorems *)

Section Theorems.
Context `{TextSizeLaws}.

(** The tables of [LineIndex::new] are the lines of the text.  [new] returns; the entry
    [k] of the tables delimits a line without line breaks, followed by its terminator (LF,
    CRLF or CR) and the start of the next line, or by the end of the text. *)
Theorem line_index_lines (text : str) :
  (N.of_nat (str_len text) < 2 ^ 32)%N ->
  exists ix, new text = Done ix /\ ts_to (text_len ix) = N.of_nat (str_len text) /\
    length (line_ends ix) = length (line_starts ix) /\
    forall k, k < length (line_starts ix) -> exists p l t rest,
      text = p ++ l ++ t ++ rest /\ no_newline l /\
      line_starts ix !! k = Some (ts_of_len (str_len p)) /\
      line_ends ix !! k = Some (ts_of_len (str_len (p ++ l))) /\
      ((terminated t rest /\ line_starts ix !! S k = Some (ts_of_len (str_len (p ++ l ++ t)))) \/
       (t = [] /\ rest = [] /\ S k = length (line_starts ix))).
Proof.
  intros Hs. exists (index_of text). cbn [index_of line_starts line_ends text_len].
  split_and!; [apply new_spec|by apply (ts_of_len_to text)| |].
  { rewrite !length_fmap. unfold starts_of, ends_of. rewrite length_app, !length_fmap. simpl.
    rewrite length_fmap. lia. }
  intros k Hk. rewrite length_fmap in *.
  destruct (line_exists text k Hk) as (p & l & t & rest & [H1 H2 H3 H4 H5]).
  exists p, l, t, rest. rewrite !list_lookup_fmap, H2, H3. split_and!; try done.
  destruct H5 as [[Ht Hn]|(-> & -> & Hn)]; [left; by rewrite Hn|right].
  split_and!; [done..|]. apply lookup_ge_None in Hn. lia.
Qed.

(** From offset to position and back, in the index of the text. *)
Lemma position_offset (text : str) o :
  (N.of_nat (str_len text) < 2 ^ 32)%N -> is_char_boundary text o = true ->
  exists pos, position (index_of text) text (ts_of_len o) = Done pos /\
    exists o', offset_of_position (index_of text) text pos = Done (Some (ts_of_len o')) /\
      (o' = o \/ (inside_crlf text o /\ o' + 1 = o)).
Proof.
  intros Hs Hb. assert (Ho : o <= str_len text).
  { apply is_char_boundary_spec in Hb as (a & b & -> & <-). rewrite str_len_app. lia. }
  destruct (line_of_offset text Hs o Ho) as (p & l & t & rest & Hl & Hp & [Hle|[-> Heq]]).
  - destruct (boundary_split text Hs o p l t rest _ Hb Hl (conj Hp Hle)) as (l1 & l2 & -> & Heq).
    eexists. split.
    + eapply (position_spec text Hs o); [exact Hl|done|done|]. lia.
    + exists o. split; [|by left]. 
      rewrite (offset_of_position_at text Hs _ _ _ _ _ _ Hl). by rewrite <-Heq.
  - rewrite <-(app_nil_r l) in Hl.
    eexists. split.
    + eapply (position_spec text Hs o); [exact Hl|done|done|]. rewrite app_nil_r. lia.
    + exists (str_len (p ++ l)). split; [by eapply (offset_of_position_at text Hs)|].
      right. split; [|lia]. rewrite app_nil_r in Hl. destruct Hl as [Ht _ _ _ _].
      exists (p ++ l), rest. split; [|done]. by rewrite Ht, <-!app_assoc.
Qed.

(** From offset to position and back.  For an offset between characters, [position]
    returns (no slice panics, no column overflows), and [offset_of_position] takes the
    position back to the offset; an offset inside a CRLF is taken to the end of its line. *)
Theorem position_roundtrip (text : str) o :
  (N.of_nat (str_len text) < 2 ^ 32)%N -> is_char_boundary text o = true ->
  exists ix pos, new text = Done ix /\ position ix text (ts_of_len o) = Done pos /\
    exists o', offset_of_position ix text pos = Done (Some (ts_of_len o')) /\
      (o' = o \/ (inside_crlf text o /\ o' + 1 = o)).
Proof.
  intros Hs Hb. destruct (position_offset text o Hs Hb) as (pos & Hpos & Ho).
  exists (index_of text), pos. split_and!; [apply new_spec|done|done].
Qed.

(** From position to offset and back.  [offset_of_position] returns on every position,
    and when it gives an offset, [position] takes it back to the position: no two positions
    share an offset. *)
Theorem offset_roundtrip (text : str) pos :
  (N.of_nat (str_len text) < 2 ^ 32)%N ->
  exists ix r, new text = Done ix /\ offset_of_position ix text pos = Done r /\
    forall o, r = Some o -> position ix text o = Done pos.
Proof.
  intros Hs. destruct pos as [n c].
  destruct (decide (N.to_nat n < length (starts_of text))) as [Hn|Hn].
  - destruct (line_exists text _ Hn) as (p & l & t & rest & Hl).
    pose proof (wp_offset_of_position text Hs _ p l t rest c Hl) as (r & Hr & Hspec)%wp_inv.
    rewrite N2Nat.id in Hr. exists (index_of text), r. split_and!; [apply new_spec|done|].
    intros o ->. destruct Hspec as (l1 & (l2 & -> & <-) & ->).
    pose proof (line_at_le text Hs _ _ _ _ _ Hl) as Hle.
    rewrite (position_spec text Hs (str_len (p ++ l1)) (N.to_nat n) p l1 l2 t rest).
    + by rewrite N2Nat.id.
    + done.
    + rewrite !str_len_app in *. lia.
    + eapply (line_index_in text Hs); [exact Hl|]. rewrite !str_len_app. lia.
    + rewrite !str_len_app. lia.
  - exists (index_of text), None. split_and!; [apply new_spec| |done].
    apply offset_of_position_no_line. lia.
Qed.

(** Which positions have an offset.  [offset_of_position] returns [None] exactly when
    there is no such line, or no character of the line starts (and the line does not end) at
    the UTF-16 column: past the end of the line, or inside a surrogate pair. *)
Theorem offset_of_position_none (text : str) n c :
  (N.of_nat (str_len text) < 2 ^ 32)%N ->
  exists ix r, new text = Done ix /\ offset_of_position ix text (mkPosition n c) = Done r /\
    (r = None <-> forall p l t rest, line_at text (N.to_nat n) p l t rest ->
       forall l1 l2, l = l1 ++ l2 -> utf16_len l1 <> c).
Proof.
  intros Hs. destruct (decide (N.to_nat n < length (starts_of text))) as [Hn|Hn].
  - destruct (line_exists text _ Hn) as (p & l & t & rest & Hl).
    pose proof (wp_offset_of_position text Hs _ p l t rest c Hl) as (r & Hr & Hspec)%wp_inv.
    rewrite N2Nat.id in Hr. exists (index_of text), r. split_and!; [apply new_spec|done|].
    destruct r as [o|].
    + destruct Hspec as (l1 & (l2 & -> & Hu) & _). split; [done|].
      intros Hall. exfalso. by eapply (Hall p (l1 ++ l2) t rest Hl l1 l2).
    + split; [|done]. intros _ p' l' t' rest' Hl' l1 l2 -> Hu.
      destruct (line_at_fun _ _ _ _ _ _ _ _ _ _ Hl Hl') as [<- ->].
      apply (Hspec l1). by exists l2.
  - exists (index_of text), None. split_and!; [apply new_spec| |].
    { apply offset_of_position_no_line. lia. }
    split; [|done]. intros _ p l t rest [_ Hst _ _ _]. apply lookup_lt_Some in Hst. lia.
Qed.

(** Byte columns.  [line_col] returns, and [offset] takes its result back to the offset,
    which for an offset inside a line terminator is the end of the line. *)
Theorem line_col_roundtrip (text : str) o :
  (N.of_nat (str_len text) < 2 ^ 32)%N -> o <= str_len text ->
  exists ix lc o', new text = Done ix /\ line_col ix (ts_of_len o) = Done lc /\
    offset ix lc = Done (Some (ts_of_len o')) /\
    (o' = o \/ (inside_crlf text o /\ o' + 1 = o)).
Proof.
  intros Hs Ho.
  destruct (line_of_offset text Hs o Ho) as (p & l & t & rest & Hl & Hp & Hcase).
  eexists (index_of text), _, (Nat.min o (str_len (p ++ l))).
  split_and!; [apply new_spec|by eapply (line_col_spec text Hs)| |].
  - rewrite (offset_spec text Hs _ _ _ _ _ _ Hl); [|rewrite str_len_app; lia].
    do 3 f_equal. rewrite str_len_app. lia.
  - destruct Hcase as [Hle|[-> ->]]; [left; lia|right]. split; [|lia].
    destruct Hl as [Ht _ _ _ _]. exists (p ++ l), rest. split; [|done].
    by rewrite Ht, <-!app_assoc.
Qed.

(** C40: ranges.  Take two offsets between characters, neither inside a CRLF, and their
    positions.  When the first is not after the second, [text_range] returns the byte range
    of the two positions, and [range] takes it back to them; when it is after the second,
    [text_range] panics (in [TextRange::new]) instead of returning [None]. *)
Theorem text_range_roundtrip (text : str) s e :
  (N.of_nat (str_len text) < 2 ^ 32)%N ->
  is_char_boundary text s = true -> is_char_boundary text e = true ->
  ~ inside_crlf text s -> ~ inside_crlf text e ->
  exists ix ps pe, new text = Done ix /\
    position ix text (ts_of_len s) = Done ps /\ position ix text (ts_of_len e) = Done pe /\
    (s <= e -> exists r, text_range ix text (mkRange ps pe) = Done (Some r) /\
       tr_start r = ts_of_len s /\ tr_end r = ts_of_len e /\
       range ix text r = Done (mkRange ps pe)) /\
    (e < s -> text_range ix text (mkRange ps pe) = Panic).
Proof.
  intros Hl Hs He Hcs Hce.
  destruct (position_offset text s Hl Hs) as (ps & Hps & s' & Hs' & [->|[? _]]); [|done].
  destruct (position_offset text e Hl He) as (pe & Hpe & e' & He' & [->|[? _]]); [|done].
  exists (index_of text), ps, pe. unfold text_range. cbn [range_start range_end].
  rewrite Hs'. simpl. rewrite He'. simpl.
  assert (Hto : forall o, is_char_boundary text o = true -> ts_to (ts_of_len o) = N.of_nat o).
  { intros o (a & b & Ht & Ho)%is_char_boundary_spec. apply (ts_of_len_to text); [done|].
    rewrite Ht, str_len_app. lia. }
  split_and!; [apply new_spec|done..| |].
  - intros Hle. destruct (tr_new_spec (ts_of_len s) (ts_of_len e)) as (r & Hr & Hrs & Hre).
    { rewrite !Hto by done. lia. }
    exists r. rewrite Hr. split_and!; [done..|]. unfold range. by rewrite Hrs, Hre, Hps; simpl; rewrite Hpe.
  - intros Hlt. rewrite tr_new_panic; [done|]. rewrite !Hto by done. lia.
Qed.
End Theorems.

(** ** The theorems at work: a line with a character outside the BMP, CRLF, a second line *)

Definition sample_text : str := [97; 0x1F600; 13; 10; 98]%N.

Lemma sample_text_small : (N.of_nat (str_len sample_text) < 2 ^ 32)%N.
Proof. vm_compute. reflexivity. Qed.

Lemma line_index_lines_witness :
  exists ix, new sample_text = Done ix /\ ts_to (text_len ix) = N.of_nat (str_len sample_text) /\
    length (line_ends ix) = length (line_starts ix) /\
    forall k, k < length (line_starts ix) -> exists p l t rest,
      sample_text = p ++ l ++ t ++ rest /\ no_newline l /\
      line_starts ix !! k = Some (ts_of_len (str_len p)) /\
      line_ends ix !! k = Some (ts_of_len (str_len (p ++ l))) /\
      ((terminated t rest /\ line_starts ix !! S k = Some (ts_of_len (str_len (p ++ l ++ t)))) \/
       (t = [] /\ rest = [] /\ S k = length (line_starts ix))).
Proof. apply (line_index_lines sample_text), sample_text_small. Defined.

Lemma position_roundtrip_witness :
  exists ix pos, new sample_text = Done ix /\ position ix sample_text (ts_of_len 5) = Done pos /\
    exists o', offset_of_position ix sample_text pos = Done (Some (ts_of_len o')) /\
      (o' = 5 \/ (inside_crlf sample_text 5 /\ o' + 1 = 5)).
Proof. apply (position_roundtrip sample_text 5 sample_text_small). vm_compute. reflexivity. Defined.

Lemma offset_roundtrip_witness :
  exists ix r, new sample_text = Done ix /\
    offset_of_position ix sample_text (mkPosition 0 3) = Done r /\
    forall o, r = Some o -> position ix sample_text o = Done (mkPosition 0 3).
Proof. apply (offset_roundtrip sample_text (mkPosition 0 3) sample_text_small). Defined.

Lemma offset_of_position_none_witness :
  exists ix r, new sample_text = Done ix /\
    offset_of_position ix sample_text (mkPosition 0 2) = Done r /\
    (r = None <-> forall p l t rest, line_at sample_text (N.to_nat 0) p l t rest ->
       forall l1 l2, l = l1 ++ l2 -> utf16_len l1 <> 2%N).
Proof. apply (offset_of_position_none sample_text 0 2 sample_text_small). Defined.

Lemma line_col_roundtrip_witness :
  exists ix lc o', new sample_text = Done ix /\ line_col ix (ts_of_len 6) = Done lc /\
    offset ix lc = Done (Some (ts_of_len o')) /\
    (o' = 6 \/ (inside_crlf sample_text 6 /\ o' + 1 = 6)).
Proof.
  apply (line_col_roundtrip sample_text 6 sample_text_small).
  apply Nat.leb_le. vm_compute. reflexivity.
Defined.

(** The range of the first two characters, and the same range inverted. *)
Lemma text_range_roundtrip_witness :
  exists ix ps pe, new sample_text = Done ix /\
    (exists r, text_range ix sample_text (mkRange ps pe) = Done (Some r)) /\
    text_range ix sample_text (mkRange pe ps) = Panic.
Proof.
  assert (Hc : forall o, o < 6 -> ~ inside_crlf sample_text o).
  { intros o Ho (p & rest & Hp & ->). destruct p as [|a [|b p]]; simplify_eq/=.
    injection Hp as <- <- _. rewrite !str_len_cons in Ho. change (len_utf8 97) with 1 in Ho. change (len_utf8 0x1F600) with 4 in Ho. lia. }
  destruct (text_range_roundtrip sample_text 0 5 sample_text_small) as (ix & ps & pe & H1 & H2 & H3 & H4 & _);
    [reflexivity..|apply Hc; lia|apply Hc; lia|].
  destruct (text_range_roundtrip sample_text 5 0 sample_text_small) as (ix' & pe' & ps' & H1' & H2' & H3' & _ & H5);
    [reflexivity..|apply Hc; lia|apply Hc; lia|].
  rewrite H1 in H1'. injection H1' as <-. rewrite H2' in H3. injection H3 as <-.
  rewrite H3' in H2. injection H2 as <-.
  exists ix, ps', pe'. split; [exact H1|]. split; [|apply H5; lia].
  destruct (H4 ltac:(lia)) as (r & Hr & _). exists r. exact Hr.
Defined.
