(* ===== verification/Edit.v ===== *)
(** * Text edits (crates/nova-core/src/edit.rs)

    Edits are sorted, checked, coalesced and applied from the end of the text backwards.  The
    reference is [splice], the simultaneous replacement of the ranges in one pass over the
    text.  The theorems: applying edits returns, succeeds exactly when the edits can be applied
    at once, and gives the result of the reference; normalised edits are disjoint and do not
    touch. *)

From stdpp Require Import base list numbers strings option gmap sorting.
From Stdlib Require Import Sorting.Sorted.
From S2P Require Import Prelude Sorting Str.

Section Edit.
Context `{TextSizeCrate}.

(** ** Data *)

Record TextEdit := mkEdit { edit_range : TextRange; replacement : str }.

(** [TextEdit::insert]. *)
Definition edit_insert (offset : TextSize) (text : str) : run TextEdit :=
  r ← tr_new offset offset; Done (mkEdit r text).

Definition edit_start (e : TextEdit) : nat := N.to_nat (ts_to (tr_start (edit_range e))).
Definition edit_end (e : TextEdit) : nat := N.to_nat (ts_to (tr_end (edit_range e))).

(** [delta_bytes]: [TextRange::len] is the end minus the start. *)
Definition delta_bytes (e : TextEdit) : Z :=
  Z.of_nat (str_len (replacement e)) -
  (Z.of_N (ts_to (tr_end (edit_range e))) - Z.of_N (ts_to (tr_start (edit_range e)))).

Inductive EditError :=
| RangeOutOfBounds (range : TextRange) (text_len : TextSize)
| InvalidUtf8Boundary (offset : TextSize)
| OverlappingEdits (first second : TextRange).

(** [WorkspaceEdit]: a map from files to edits. *)
Definition WorkspaceEdit : Type := gmap nat (list TextEdit).

Definition workspace_is_empty (w : WorkspaceEdit) : bool := bool_decide (map_to_list w = []).

Definition add_edit (w : WorkspaceEdit) (file : nat) (e : TextEdit) : WorkspaceEdit :=
  <[file := default [] (w !! file) ++ [e]]> w.

(** ** Normalisation *)

(** The key [(start, end)]. *)
Definition compare_edits (a b : TextEdit) : comparison :=
  then_with (ts_cmp (tr_start (edit_range a)) (tr_start (edit_range b)))
    (ts_cmp (tr_end (edit_range a)) (tr_end (edit_range b))).

(** The body of the first loop: [None] when the edit passes. *)
Definition check_edit (text : str) (text_len : TextSize) (e : TextEdit) : option EditError :=
  let r := edit_range e in
  if negb (ts_leb (tr_start r) (tr_end r)) || negb (ts_leb (tr_end r) text_len) then
    Some (RangeOutOfBounds r text_len)
  else if negb (is_char_boundary text (edit_start e)) then
    Some (InvalidUtf8Boundary (tr_start r))
  else if negb (is_char_boundary text (edit_end e)) then
    Some (InvalidUtf8Boundary (tr_end r))
  else None.

Fixpoint check_edits (text : str) (text_len : TextSize) (edits : list TextEdit)
    : option EditError :=
  match edits with
  | [] => None
  | e :: edits =>
      match check_edit text text_len e with
      | Some err => Some err
      | None => check_edits text text_len edits
      end
  end.

(** The loop over [edits.windows(2)]. *)
Fixpoint check_overlaps (edits : list TextEdit) : option EditError :=
  match edits with
  | first :: ((second :: _) as rest) =>
      if negb (ts_leb (tr_end (edit_range first)) (tr_start (edit_range second))) then
        Some (OverlappingEdits (edit_range first) (edit_range second))
      else check_overlaps rest
  | _ => None
  end.

Definition edit_eqb (x y : TextSize) : bool := match ts_cmp x y with Eq => true | _ => false end.

(** The body of the last loop: the edit is merged into the last one when they touch. *)
Definition coalesce_step (merged : list TextEdit) (e : TextEdit) : run (list TextEdit) :=
  match list.last merged with
  | Some l =>
      if edit_eqb (tr_end (edit_range l)) (tr_start (edit_range e)) then
        r ← tr_new (tr_start (edit_range l)) (tr_end (edit_range e));
        Done (removelast merged ++ [mkEdit r (replacement l ++ replacement e)])
      else Done (merged ++ [e])
  | None => Done (merged ++ [e])
  end.

Definition coalesce (edits : list TextEdit) : run (list TextEdit) :=
  for_each coalesce_step edits [].

Definition normalize_text_edits (text : str) (edits : list TextEdit)
    : run (EditError + list TextEdit) :=
  let edits := sort_by compare_edits edits in
  let text_len := ts_from (as_u32 (str_len text)) in
  match check_edits text text_len edits with
  | Some err => Done (inl err)
  | None =>
      match check_overlaps edits with
      | Some err => Done (inl err)
      | None => merged ← coalesce edits; Done (inr merged)
      end
  end.

(** ** Application *)

(** [String::replace_range]. *)
Definition replace_range (s : str) (start end_ : nat) (with_ : str) : run str :=
  if decide (start <= end_) then
    match split_at s start with
    | Some (p, rest) =>
        match split_at rest (end_ - start) with
        | Some (_, q) => Done (p ++ with_ ++ q)
        | None => Panic
        end
    | None => Panic
    end
  else Panic.

Definition apply_edit (out : str) (e : TextEdit) : run str :=
  _ ← (if is_char_boundary out (edit_start e) && is_char_boundary out (edit_end e)
       then Done () else Panic);
  replace_range out (edit_start e) (edit_end e) (replacement e).

Definition apply_text_edits (text : str) (edits : list TextEdit) : run (EditError + str) :=
  r ← normalize_text_edits text edits;
  match r with
  | inl err => Done (inl err)
  | inr edits => out ← for_each apply_edit (rev edits) text; Done (inr out)
  end.

(** ** The reference *)

(** Replace the ranges of [edits], which are in order, in one pass; [text] starts at the
    offset [pos]. *)
Fixpoint splice (text : str) (pos : nat) (edits : list TextEdit) : option str :=
  match edits with
  | [] => Some text
  | e :: edits =>
      if decide (pos <= edit_start e /\ edit_start e <= edit_end e) then
        '(keep, rest) ← split_at text (edit_start e - pos);
        '(_, after) ← split_at rest (edit_end e - edit_start e);
        out ← splice after (edit_end e) edits;
        Some (keep ++ replacement e ++ out)
      else None
  end.
End Edit.

Section EditFacts.
Context `{TextSizeLaws}.

#[global] Instance compare_edits_laws : CmpLaws compare_edits.
Proof.
  unfold compare_edits. apply then_with_laws.
  - split; intros; rewrite !ts_cmp_spec in *.
    + apply cmp_opp.
    + by eapply cmp_lt.
    + by apply cmp_eq.
  - split; intros; rewrite !ts_cmp_spec in *.
    + apply cmp_opp.
    + by eapply cmp_lt.
    + by apply cmp_eq.
Qed.

Lemma edit_ordered e : edit_start e <= edit_end e.
Proof. unfold edit_start, edit_end. pose proof (tr_ordered (edit_range e)). lia. Qed.

(** A success of [splice], in terms of the parts of the text. *)
Lemma splice_cons text pos e es out :
  splice text pos (e :: es) = Some out <->
  pos <= edit_start e /\
  exists keep del after out', text = keep ++ del ++ after /\
    str_len keep = edit_start e - pos /\ str_len del = edit_end e - edit_start e /\
    splice after (edit_end e) es = Some out' /\ out = keep ++ replacement e ++ out'.
Proof.
  pose proof (edit_ordered e). simpl. case_decide as Hd; [|split; [done|naive_solver]].
  split.
  - intros ([keep rest] & [-> Hk]%split_at_Some & H2)%bind_Some.
    apply bind_Some in H2 as ([del after] & [-> Hdl]%split_at_Some & H2).
    apply bind_Some in H2 as (out' & Ho & [= <-]). split; [lia|]. by exists keep, del, after, out'.
  - intros (_ & keep & del & after & out' & -> & <- & <- & Ho & ->).
    rewrite split_at_app. simpl. rewrite split_at_app. simpl. by rewrite Ho.
Qed.

(** *** Applying from the end *)

Lemma replace_range_app p d q r :
  replace_range (p ++ d ++ q) (str_len p) (str_len p + str_len d) r = Done (p ++ r ++ q).
Proof.
  unfold replace_range. rewrite decide_True by lia. rewrite split_at_app.
  replace (str_len p + str_len d - str_len p) with (str_len d) by lia. by rewrite split_at_app.
Qed.

Lemma apply_edit_app p d q e :
  edit_start e = str_len p -> edit_end e = str_len p + str_len d ->
  apply_edit (p ++ d ++ q) e = Done (p ++ replacement e ++ q).
Proof.
  intros Hs He. unfold apply_edit. rewrite Hs, He.
  rewrite (proj2 (is_char_boundary_spec _ _)) by (exists p, (d ++ q); done).
  rewrite (proj2 (is_char_boundary_spec _ _)).
  - simpl. apply replace_range_app.
  - exists (p ++ d), q. by rewrite <-app_assoc, str_len_app.
Qed.

Lemma apply_rev pre text es out :
  splice text (str_len pre) es = Some out ->
  for_each apply_edit (rev es) (pre ++ text) = Done (pre ++ out).
Proof.
  revert pre text out; induction es as [|e es IH]; intros pre text out Hs.
  { simpl in Hs. by simplify_eq. }
  apply splice_cons in Hs as (Hle & keep & del & after & out' & -> & Hk & Hd & Ho & ->).
  pose proof (edit_ordered e). simpl. rewrite for_each_app.
  assert (Hend : edit_end e = str_len (pre ++ keep ++ del)) by (rewrite !str_len_app; lia).
  rewrite Hend in Ho. specialize (IH _ _ _ Ho).
  rewrite <-!app_assoc in IH. rewrite IH. simpl.
  replace (pre ++ keep ++ del ++ out') with ((pre ++ keep) ++ del ++ out') by (by rewrite <-app_assoc).
  rewrite apply_edit_app; [by rewrite <-app_assoc|..]; rewrite ?str_len_app in *; lia.
Qed.

(** *** Coalescing keeps the meaning *)

Lemma edit_eqb_spec x y : edit_eqb x y = true <-> x = y.
Proof.
  unfold edit_eqb. rewrite ts_cmp_spec. split.
  - intros Hc. apply ts_to_inj, N.compare_eq_iff. by destruct (_ ?= _)%N.
  - intros ->. by rewrite N.compare_refl.
Qed.

Lemma splice_merge text pos pre l e r es out :
  edit_end l = edit_start e -> tr_start r = tr_start (edit_range l) ->
  tr_end r = tr_end (edit_range e) ->
  splice text pos (pre ++ l :: e :: es) = Some out ->
  splice text pos (pre ++ mkEdit r (replacement l ++ replacement e) :: es) = Some out.
Proof.
  intros Heq Hs He. revert text pos out; induction pre as [|x pre IH]; intros text pos out.
  - simpl app. rewrite !splice_cons.
    intros (H1 & k1 & d1 & a1 & o1 & -> & Hk1 & Hd1 & (_ & k2 & d2 & a2 & o2 & -> & Hk2 & Hd2 & Ho & ->)%splice_cons & ->).
    assert (Hm1 : edit_start (mkEdit r (replacement l ++ replacement e)) = edit_start l)
      by (unfold edit_start; simpl; by rewrite Hs).
    assert (Hm2 : edit_end (mkEdit r (replacement l ++ replacement e)) = edit_end e)
      by (unfold edit_end; simpl; by rewrite He).
    rewrite Hm1, Hm2. pose proof (edit_ordered l). pose proof (edit_ordered e).
    assert (k2 = []) as -> by (apply str_len_nil_inv; lia).
    split; [done|]. exists k1, (d1 ++ d2), a2, o2. split_and!; try done.
    + by rewrite <-app_assoc.
    + rewrite str_len_app. lia.
    + simpl. by rewrite <-!app_assoc.
  - simpl app. rewrite !splice_cons.
    intros (H1 & k1 & d1 & a1 & o1 & -> & Hk1 & Hd1 & Ho & ->). split; [done|].
    exists k1, d1, a1, o1. split_and!; try done. by apply IH.
Qed.

(** What the list of merged edits satisfies. *)
Definition gapped (es : list TextEdit) : Prop :=
  forall i a b, es !! i = Some a -> es !! S i = Some b -> edit_end a < edit_start b.

Lemma gapped_snoc es e :
  gapped es -> (forall l, list.last es = Some l -> edit_end l < edit_start e) -> gapped (es ++ [e]).
Proof.
  intros Hg Hl i a b Ha Hb. apply lookup_snoc_Some in Hb as [[Hlt Hb]|[Hi <-]].
  - rewrite lookup_app_l in Ha by lia. by eapply Hg.
  - apply Hl. rewrite last_lookup. rewrite lookup_app_l in Ha by lia.
    replace (pred (length es)) with i by lia. done.
Qed.

Lemma splice_chain text pos pre l e es out :
  splice text pos (pre ++ l :: e :: es) = Some out -> edit_end l <= edit_start e.
Proof.
  revert text pos out; induction pre as [|x pre IH]; intros text pos out Hs; simpl app in Hs;
    apply splice_cons in Hs as (_ & k1 & d1 & a1 & o1 & _ & _ & _ & Ho & _); [|by eapply IH].
  by apply splice_cons in Ho as [? _].
Qed.

Lemma last_snoc_inv {A} (l : list A) x : list.last l = Some x -> l = removelast l ++ [x].
Proof.
  destruct l as [|y l _] using rev_ind; [done|]. rewrite last_snoc. intros [= <-].
  by rewrite removelast_last.
Qed.

Lemma wp_coalesce_step text merged e es out :
  gapped merged -> splice text 0 (merged ++ e :: es) = Some out ->
  wp (coalesce_step merged e) (fun m => gapped m /\ splice text 0 (m ++ es) = Some out).
Proof.
  intros Hg Hs. unfold coalesce_step. destruct (list.last merged) as [l|] eqn:El.
  - apply last_snoc_inv in El as Hm. set (pre := removelast merged) in *.
    rewrite Hm, <-app_assoc in Hs. simpl in Hs.
    pose proof (splice_chain _ _ _ _ _ _ _ Hs) as Hle.
    destruct (edit_eqb _ _) eqn:Et.
    + apply edit_eqb_spec in Et.
      assert (Heq : edit_end l = edit_start e) by (unfold edit_end, edit_start; by rewrite Et).
      destruct (tr_new_spec (tr_start (edit_range l)) (tr_end (edit_range e))) as (r & Hr & Hr1 & Hr2).
      { pose proof (tr_ordered (edit_range l)). pose proof (tr_ordered (edit_range e)).
        rewrite Et in *. lia. }
      rewrite Hr. simpl. rewrite <-app_assoc. simpl. split; [|by eapply splice_merge].
      apply gapped_snoc.
      * intros i a b Ha Hb. apply (Hg i); rewrite Hm; by apply lookup_app_l_Some.
      * intros l' Hl'. unfold edit_start. simpl. rewrite Hr1.
        rewrite last_lookup in Hl'. apply (Hg (pred (length pre))).
        -- rewrite Hm. by apply lookup_app_l_Some.
        -- rewrite Hm. apply lookup_snoc_Some. right. split; [|done].
           apply lookup_lt_Some in Hl'. lia.
    + split; [|by rewrite Hm, <-!app_assoc].
      apply gapped_snoc; [done|]. intros l' Hl'. simplify_eq.
      destruct (decide (edit_end l = edit_start e)) as [Heq|Hne]; [|lia].
      exfalso. apply not_true_iff_false in Et. apply Et, edit_eqb_spec, ts_to_inj.
      unfold edit_end, edit_start in Heq. lia.
  - split; [|by rewrite <-app_assoc]. apply gapped_snoc; [done|]. congruence.
Qed.

Lemma wp_coalesce text es out :
  splice text 0 es = Some out ->
  wp (coalesce es) (fun m => gapped m /\ splice text 0 m = Some out).
Proof.
  intros Hs. unfold coalesce. eapply wp_mono.
  - apply (wp_for_each _ es (fun dn m => gapped m /\
      forall rest, es = dn ++ rest -> splice text 0 (m ++ rest) = Some out)).
    + split; [|by intros rest ->]. intros i a b Ha. done.
    + intros dn e rest m Heq [Hg Hm]. eapply wp_mono; [by eapply wp_coalesce_step; [|apply Hm]|].
      intros m' [Hg' Hm']. split; [done|]. intros rest' Heq'.
      rewrite Heq, <-app_assoc in Heq'. apply app_inv_head in Heq'. simpl in Heq'. by simplify_eq.
  - intros m [Hg Hm]. split; [done|]. specialize (Hm []). rewrite !app_nil_r in Hm. by apply Hm.
Qed.
Lemma check_overlaps_None a b es :
  check_overlaps (a :: b :: es) = None <->
  edit_end a <= edit_start b /\ check_overlaps (b :: es) = None.
Proof.
  simpl. rewrite ts_leb_spec. unfold edit_end, edit_start.
  destruct (N.leb_spec (ts_to (tr_end (edit_range a))) (ts_to (tr_start (edit_range b)))) as [Hl|Hl]; simpl.
  - split; [intros Hc; split; [lia|exact Hc]|by intros [_ Hc]].
  - split; [done|]. intros [Hle _]. lia.
Qed.
End EditFacts.

(** ** Checking *)

(** What the offsets of an edit that passes the first loop satisfy. *)
Definition edit_fits `{TextSizeCrate} (text : str) (e : TextEdit) : Prop :=
  edit_end e <= str_len text /\ is_char_boundary text (edit_start e) = true /\
  is_char_boundary text (edit_end e) = true.

Section Checks.
Context `{TextSizeLaws} (text : str) (Hsmall : (N.of_nat (str_len text) < 2 ^ 32)%N).

Definition size : TextSize := ts_from (as_u32 (str_len text)).

Lemma check_edit_None e : check_edit text size e = None <-> edit_fits text e.
Proof.
  unfold check_edit, edit_fits. rewrite !ts_leb_spec.
  pose proof (tr_ordered (edit_range e)) as Ho. rewrite (proj2 (N.leb_le _ _) Ho). simpl.
  unfold size. rewrite (ts_to_from_nat _ Hsmall).
  destruct (N.leb_spec (ts_to (tr_end (edit_range e))) (N.of_nat (str_len text))) as [Hle|Hgt]; simpl.
  - assert (edit_end e <= str_len text) by (unfold edit_end; lia).
    destruct (is_char_boundary text (edit_start e)), (is_char_boundary text (edit_end e)); naive_solver.
  - split; [done|]. unfold edit_end. lia.
Qed.

Lemma check_edits_None es : check_edits text size es = None <-> Forall (edit_fits text) es.
Proof.
  induction es as [|e es IH]; simpl; [split; [constructor|done]|].
  rewrite Forall_cons, <-check_edit_None, <-IH. destruct (check_edit text size e); naive_solver.
Qed.

(** Edits that pass the checks can be applied at once. *)
Lemma checks_splice pre suf es :
  text = pre ++ suf -> Forall (edit_fits text) es -> check_overlaps es = None ->
  (forall e, head es = Some e -> str_len pre <= edit_start e) ->
  exists out, splice suf (str_len pre) es = Some out.
Proof.
  intros Ht Hall. revert pre suf Ht; induction Hall as [|e es (Hend & Hb1 & Hb2) Hall IH];
    intros pre suf Ht Hov Hhd; [by eexists|].
  specialize (Hhd e eq_refl). pose proof (edit_ordered e) as Hord.
  apply is_char_boundary_spec in Hb1 as (p1 & q1 & H1 & Hl1).
  apply is_char_boundary_spec in Hb2 as (p2 & q2 & H2 & Hl2).
  destruct (split_nested pre suf p1 q1) as (keep & -> & ->); [congruence|lia|].
  destruct (split_nested (pre ++ keep) q1 p2 q2) as (del & -> & ->).
  { rewrite <-app_assoc. congruence. } { lia. }
  destruct (IH ((pre ++ keep) ++ del) q2) as (out & Hout).
  - done.
  - destruct es as [|e2 es]; [done|]. by apply check_overlaps_None in Hov as [_ ?].
  - intros e2 He2. destruct es as [|e' es]; [done|]. simpl in He2. simplify_eq.
    apply check_overlaps_None in Hov as [Hov _]. lia.
  - exists (keep ++ replacement e ++ out). apply splice_cons. split; [done|].
    exists keep, del, q2, out. rewrite !str_len_app in *. split_and!; try done; try lia.
    by rewrite <-Hl2.
Qed.

Lemma splice_checks pre suf es out :
  text = pre ++ suf -> splice suf (str_len pre) es = Some out ->
  Forall (edit_fits text) es /\ check_overlaps es = None.
Proof.
  revert pre suf out; induction es as [|e es IH]; intros pre suf out Ht Hs; [by split|].
  apply splice_cons in Hs as (Hle & keep & del & after & out' & -> & Hk & Hd & Ho & _).
  pose proof (edit_ordered e).
  assert (Hend : edit_end e = str_len ((pre ++ keep) ++ del)) by (rewrite !str_len_app; lia).
  assert (Hchain : forall e2 es2, es = e2 :: es2 -> edit_end e <= edit_start e2).
  { intros e2 es2 ->. by apply splice_cons in Ho as [? _]. }
  rewrite Hend in Ho.
  destruct (IH ((pre ++ keep) ++ del) after out') as [IH1 IH2];
    [by rewrite Ht, <-!app_assoc|done|].
  split.
  - constructor; [|done]. rewrite Ht. split_and!.
    + rewrite Hend, !str_len_app. lia.
    + apply is_char_boundary_spec. exists (pre ++ keep), (del ++ after).
      rewrite <-app_assoc, str_len_app. split; [done|lia].
    + apply is_char_boundary_spec. exists ((pre ++ keep) ++ del), after.
      rewrite <-!app_assoc. by rewrite Hend, <-!app_assoc.
  - destruct es as [|e2 es]; [done|]. apply check_overlaps_None. split; [by eapply Hchain|done].
Qed.

Lemma wp_normalize edits :
  wp (normalize_text_edits text edits) (fun r => match r with
    | inl _ => splice text 0 (sort_by compare_edits edits) = None
    | inr m => gapped m /\ exists out, splice text 0 (sort_by compare_edits edits) = Some out /\
        splice text 0 m = Some out
    end).
Proof.
  unfold normalize_text_edits. fold size.
  set (es := sort_by compare_edits edits).
  destruct (check_edits text size es) as [err|] eqn:E1.
  { simpl. destruct (splice text 0 es) as [out|] eqn:Es; [|done].
    apply (splice_checks [] text) in Es as [Hf _]; [|done].
    apply check_edits_None in Hf. congruence. }
  apply check_edits_None in E1. destruct (check_overlaps es) as [err|] eqn:E2.
  { simpl. destruct (splice text 0 es) as [out|] eqn:Es; [|done].
    apply (splice_checks [] text) in Es as [_ Hc]; [|done]. congruence. }
  destruct (checks_splice [] text es eq_refl E1 E2) as (out & Hout).
  { intros e _. change (str_len []) with 0. lia. }
  change (str_len []) with 0 in Hout.
  eapply wp_seq; [by eapply wp_coalesce|]. intros m [Hg Hm]. simpl. eauto.
Qed.

(** Each error is about edits of the list. *)
Lemma check_edits_Some es err :
  check_edits text size es = Some err -> exists e, e ∈ es /\ check_edit text size e = Some err.
Proof.
  induction es as [|e es IH]; simpl; [done|]. destruct (check_edit text size e) as [x|] eqn:E.
  - intros [= ->]. exists e. split; [by left|done].
  - intros (e' & ? & ?)%IH. exists e'. split; [by right|done].
Qed.

Lemma check_overlaps_Some es err :
  StronglySorted (cmp_le compare_edits) es -> check_overlaps es = Some err ->
  exists a b, a ∈ es /\ b ∈ es /\ err = OverlappingEdits (edit_range a) (edit_range b) /\
    edit_start a <= edit_start b /\ edit_start b < edit_end a.
Proof.
  induction 1 as [|a es Hs IH Ha]; [done|]. destruct es as [|b es]; [done|].
  change (check_overlaps (a :: b :: es)) with
    (if negb (ts_leb (tr_end (edit_range a)) (tr_start (edit_range b))) then
       Some (OverlappingEdits (edit_range a) (edit_range b)) else check_overlaps (b :: es)).
  rewrite ts_leb_spec.
  destruct (N.leb_spec (ts_to (tr_end (edit_range a))) (ts_to (tr_start (edit_range b)))) as [Hl|Hl]; simpl.
  - intros Hc. destruct (IH Hc) as (x & y & Hx & Hy & Hrest). exists x, y. split_and!; [by right..|tauto|tauto|tauto].
  - intros [= <-]. exists a, b. apply Forall_inv in Ha. split_and!; [set_solver..| |].
    + unfold cmp_le, compare_edits in Ha. rewrite ts_cmp_spec in Ha. unfold edit_start.
      destruct (N.compare_spec (ts_to (tr_start (edit_range a))) (ts_to (tr_start (edit_range b))));
        simpl in Ha; [lia..|done].
    + unfold edit_start, edit_end. lia.
Qed.
End Checks.

(** ** Theorems *)

(** The total change of length. *)
Definition total_delta `{TextSizeCrate} (edits : list TextEdit) : Z :=
  foldr (fun e n => (delta_bytes e + n)%Z) 0%Z edits.

Lemma total_delta_perm `{TextSizeCrate} es1 es2 :
  es1 ≡ₚ es2 -> total_delta es1 = total_delta es2.
Proof.
  induction 1 as [|x l1 l2 _ IH|x y l|l1 l2 l3 _ IH1 _ IH2]; unfold total_delta in *; simpl; lia.
Qed.

Lemma splice_length `{TextSizeLaws} text pos es out :
  splice text pos es = Some out ->
  Z.of_nat (str_len out) = (Z.of_nat (str_len text) + total_delta es)%Z.
Proof.
  revert text pos out; induction es as [|e es IH]; intros text pos out Hs.
  { simpl in Hs. simplify_eq. unfold total_delta. simpl. lia. }
  apply splice_cons in Hs as (Hle & keep & del & after & out' & -> & Hk & Hd & Ho & ->).
  specialize (IH _ _ _ Ho). pose proof (edit_ordered e).
  change (total_delta (e :: es)) with (delta_bytes e + total_delta es)%Z.
  rewrite !str_len_app. unfold delta_bytes. unfold edit_start, edit_end in *. lia.
Qed.

Section Theorems.
Context `{TextSizeLaws}.

(** C37: applying edits to a text of fewer than 2^32 bytes is simultaneous replacement.  [apply_text_edits]
    returns on every list of edits; it gives a text exactly when the sorted edits can be applied in one pass, and
    then that text, although it coalesces the edits and applies them from the end. *)
Theorem apply_text_edits_splice (text : str) edits :
  (N.of_nat (str_len text) < 2 ^ 32)%N ->
  exists r, apply_text_edits text edits = Done r /\
    match r with
    | inl _ => splice text 0 (sort_by compare_edits edits) = None
    | inr out => splice text 0 (sort_by compare_edits edits) = Some out
    end.
Proof.
  intros Hs. unfold apply_text_edits.
  pose proof (wp_normalize text Hs edits) as (r & Hr & Hspec)%wp_inv. rewrite Hr. autorewrite with run.
  destruct r as [err|m]; [by exists (inl err)|]. destruct Hspec as (_ & out & Hout & Hm).
  pose proof (apply_rev [] text m out Hm) as Hrev. cbn [app] in Hrev. rewrite Hrev.
  by exists (inr out).
Qed.

(** Normalised edits are in order, disjoint and do not touch: each ends strictly before
    the next one starts; and they have the same effect as the edits they come from. *)
Theorem normalize_text_edits_gapped (text : str) edits m :
  (N.of_nat (str_len text) < 2 ^ 32)%N ->
  normalize_text_edits text edits = Done (inr m) ->
  (forall i a b, m !! i = Some a -> m !! S i = Some b -> edit_end a < edit_start b) /\
  splice text 0 m = splice text 0 (sort_by compare_edits edits) /\
  is_Some (splice text 0 m).
Proof.
  intros Hs Hm. pose proof (wp_normalize text Hs edits) as Hw. rewrite Hm in Hw.
  destruct Hw as (Hg & out & H1 & H2). split_and!; [exact Hg|congruence|by exists out].
Qed.

(** Every error is justified.  A range that is reported out of bounds, an offset that is
    reported inside a character, and two ranges that are reported as overlapping belong to
    edits of the list that have the fault. *)
Theorem normalize_text_edits_error (text : str) edits err :
  (N.of_nat (str_len text) < 2 ^ 32)%N ->
  normalize_text_edits text edits = Done (inl err) ->
  match err with
  | RangeOutOfBounds r len => ts_to len = N.of_nat (str_len text) /\
      exists e, e ∈ edits /\ edit_range e = r /\ str_len text < edit_end e
  | InvalidUtf8Boundary o => is_char_boundary text (N.to_nat (ts_to o)) = false /\
      exists e, e ∈ edits /\ (tr_start (edit_range e) = o \/ tr_end (edit_range e) = o)
  | OverlappingEdits r1 r2 => exists a b, a ∈ edits /\ b ∈ edits /\ edit_range a = r1 /\
      edit_range b = r2 /\ edit_start a <= edit_start b /\ edit_start b < edit_end a
  end.
Proof.
  intros Hs Hn. unfold normalize_text_edits in Hn. fold (size text) in Hn.
  destruct (check_edits text (size text) _) as [err'|] eqn:E1.
  - injection Hn as ->. apply check_edits_Some in E1 as (e & Hin & He).
    apply elem_of_sort_by in Hin. unfold check_edit in He. rewrite !ts_leb_spec in He.
    rewrite (proj2 (N.leb_le _ _) (tr_ordered (edit_range e))) in He. simpl in He.
    assert (Hsz : ts_to (size text) = N.of_nat (str_len text)) by by apply ts_to_from_nat.
    destruct (N.leb_spec (ts_to (tr_end (edit_range e))) (ts_to (size text))) as [Hle|Hgt]; simpl in He.
    + destruct (is_char_boundary text (edit_start e)) eqn:B1; simpl in He.
      * destruct (is_char_boundary text (edit_end e)) eqn:B2; simpl in He; [done|]. simplify_eq.
        split; [exact B2|]. eauto.
      * simplify_eq. split; [exact B1|]. eauto.
    + simplify_eq. split; [done|]. exists e. split_and!; [done..|]. unfold edit_end. lia.
  - destruct (check_overlaps _) as [err'|] eqn:E2.
    + injection Hn as ->. apply (check_overlaps_Some text Hs) in E2 as (a & b & Ha & Hb & -> & ?).
      * apply elem_of_sort_by in Ha, Hb. exists a, b. tauto.
      * apply sort_by_sorted. apply _.
    + destruct (coalesce _) as [m| |]; simpl in Hn; done.
Qed.

(** The order in which edits are listed does not matter when no two have the same
    range. *)
Theorem apply_text_edits_permutation (text : str) es1 es2 :
  es1 ≡ₚ es2 -> NoDup ((fun e => (edit_start e, edit_end e)) <$> es1) ->
  apply_text_edits text es1 = apply_text_edits text es2.
Proof.
  intros Hp Hnd. unfold apply_text_edits, normalize_text_edits.
  assert (Heq : sort_by compare_edits es1 = sort_by compare_edits es2); [|by rewrite Heq].
  apply (StronglySorted_unique_strong (cmp_le compare_edits));
    [|apply sort_by_sorted, _..|by rewrite !sort_by_perm].
  intros a b Ha%elem_of_sort_by Hb%elem_of_sort_by Hab Hba.
  rewrite <-Hp in Hb. apply list_elem_of_lookup in Ha as [i Hi], Hb as [j Hj].
  assert (Hk : (edit_start a, edit_end a) = (edit_start b, edit_end b)).
  { unfold cmp_le, compare_edits in Hab, Hba. rewrite !ts_cmp_spec in Hab, Hba.
    unfold edit_start, edit_end.
    destruct (N.compare_spec (ts_to (tr_start (edit_range a))) (ts_to (tr_start (edit_range b)))) as [E1|E1|E1];
    destruct (N.compare_spec (ts_to (tr_start (edit_range b))) (ts_to (tr_start (edit_range a)))) as [E2|E2|E2];
    destruct (N.compare_spec (ts_to (tr_end (edit_range a))) (ts_to (tr_end (edit_range b)))) as [E3|E3|E3];
    destruct (N.compare_spec (ts_to (tr_end (edit_range b))) (ts_to (tr_end (edit_range a)))) as [E4|E4|E4];
    simpl in *; try done; try lia; f_equal; lia. }
  assert (i = j) as ->; [|congruence].
  eapply (NoDup_lookup _ i j); [exact Hnd|rewrite list_lookup_fmap, Hi; done|].
  rewrite list_lookup_fmap, Hj. simpl. by rewrite Hk.
Qed.

(** The length of the result is the length of the text plus the [delta_bytes] of the
    edits. *)
Theorem apply_text_edits_delta (text : str) edits out :
  (N.of_nat (str_len text) < 2 ^ 32)%N ->
  apply_text_edits text edits = Done (inr out) ->
  Z.of_nat (str_len out) = (Z.of_nat (str_len text) + total_delta edits)%Z.
Proof.
  intros Hs Ha. unfold apply_text_edits in Ha.
  pose proof (wp_normalize text Hs edits) as (r & Hr & Hspec)%wp_inv.
  rewrite Hr, bind_Done_l in Ha. destruct r as [err|m]; [done|].
  destruct Hspec as (_ & out' & Hout & Hm).
  pose proof (apply_rev [] text m out' Hm) as Hrev. cbn [app] in Hrev.
  rewrite Hrev in Ha. simpl in Ha. simplify_eq.
  rewrite (splice_length _ _ _ _ Hout). by rewrite (total_delta_perm _ _ (sort_by_perm _ edits)).
Qed.
End Theorems.

(** ** The theorems at work: [abcdef], with two edits that touch, out of order *)

Definition sample_edit_text : str := [97; 98; 99; 100; 101; 102]%N.

Definition range_3_3 : TextRange := U32Size.mkRange (U32Size.of_N 3) (U32Size.of_N 3) I.
Definition range_1_3 : TextRange := U32Size.mkRange (U32Size.of_N 1) (U32Size.of_N 3) I.
Definition range_2_4 : TextRange := U32Size.mkRange (U32Size.of_N 2) (U32Size.of_N 4) I.
Definition range_4_5 : TextRange := U32Size.mkRange (U32Size.of_N 4) (U32Size.of_N 5) I.

Definition sample_edits : list TextEdit :=
  [mkEdit range_3_3 [89%N]; mkEdit range_1_3 [88%N]; mkEdit range_4_5 []].

Lemma sample_edit_text_small : (N.of_nat (str_len sample_edit_text) < 2 ^ 32)%N.
Proof. vm_compute. reflexivity. Qed.

Definition sample_normalized : list TextEdit :=
  match normalize_text_edits sample_edit_text sample_edits with Done (inr m) => m | _ => [] end.

Lemma apply_text_edits_splice_witness :
  exists r, apply_text_edits sample_edit_text sample_edits = Done r /\
    match r with
    | inl _ => splice sample_edit_text 0 (sort_by compare_edits sample_edits) = None
    | inr out => splice sample_edit_text 0 (sort_by compare_edits sample_edits) = Some out
    end.
Proof. apply (apply_text_edits_splice sample_edit_text sample_edits sample_edit_text_small). Defined.

Lemma normalize_text_edits_gapped_witness :
  (forall i a b, sample_normalized !! i = Some a -> sample_normalized !! S i = Some b ->
     edit_end a < edit_start b) /\
  splice sample_edit_text 0 sample_normalized =
    splice sample_edit_text 0 (sort_by compare_edits sample_edits) /\
  is_Some (splice sample_edit_text 0 sample_normalized).
Proof.
  apply (normalize_text_edits_gapped sample_edit_text sample_edits sample_normalized
    sample_edit_text_small).
  reflexivity.
Defined.

(** Two edits that overlap. *)
Definition overlapping_edits : list TextEdit :=
  [mkEdit range_1_3 []; mkEdit range_2_4 []].

Lemma normalize_text_edits_error_witness :
  exists a b, a ∈ overlapping_edits /\ b ∈ overlapping_edits /\
    edit_range a = range_1_3 /\
    edit_range b = range_2_4 /\
    edit_start a <= edit_start b /\ edit_start b < edit_end a.
Proof.
  apply (normalize_text_edits_error sample_edit_text overlapping_edits
    (OverlappingEdits range_1_3 range_2_4)
    sample_edit_text_small).
  reflexivity.
Defined.

Lemma apply_text_edits_permutation_witness :
  apply_text_edits sample_edit_text sample_edits =
  apply_text_edits sample_edit_text (rev sample_edits).
Proof.
  apply (apply_text_edits_permutation sample_edit_text sample_edits (rev sample_edits)).
  - apply Permutation_rev.
  - apply (bool_decide_unpack _). vm_compute. exact I.
Defined.

Lemma apply_text_edits_delta_witness :
  Z.of_nat (str_len [97; 88; 89; 100; 102]%N) =
  (Z.of_nat (str_len sample_edit_text) + total_delta sample_edits)%Z.
Proof.
  apply (apply_text_edits_delta sample_edit_text sample_edits [97; 88; 89; 100; 102]%N
    sample_edit_text_small).
  reflexivity.
Defined.
