(* ===== verification/Document.v ===== *)
(** * Open documents (crates/nova-vfs/src/document.rs)

    An in-memory document and the changes of the language-server protocol: a position, in lines
    and UTF-16 columns, is clamped to a byte offset, and a range is replaced.  Documents have
    their own table of lines; the theorems show that it is the one of the line index of
    nova-core (Text.v), that positions the line index resolves are resolved alike, and that the
    edits a batch of changes returns, replayed by nova-core's [apply_text_edits] (Edit.v), give
    the document's new text.  A batch that fails keeps the changes before the failing one. *)

From stdpp Require Import base list numbers strings option.
From S2P Require Import Prelude Sorting Str Text Edit.

(** ** Data *)

(** [range] is [None] for a replacement of the whole document. *)
Record ContentChange := mkChange { cc_range : option Range; cc_text : str }.

Definition full (text : str) : ContentChange := mkChange None text.
Definition replace (range : Range) (text : str) : ContentChange := mkChange (Some range) text.

Inductive DocumentError := DocumentNotOpen | InvalidRange.

Global Instance DocumentError_eq_dec : EqDecision DocumentError.
Proof. solve_decision. Defined.

Record Document := mkDocument {
  doc_text : str;
  doc_version : Z;
  line_offsets : list nat
}.

(** ** Lines *)

(** The loop of [compute_line_offsets], at the byte [i]. *)
Fixpoint offsets_loop (fuel : nat) (bytes : list N) (i : nat) (offsets : list nat)
    : run (list nat) :=
  match fuel with
  | 0 => OutOfFuel
  | S fuel =>
      if decide (i < length bytes) then
        x ← idx bytes i;
        if decide (x = 10%N) then offsets_loop fuel bytes (i + 1) (offsets ++ [i + 1])
        else if decide (x = 13%N) then
          crlf ← (if decide (i + 1 < length bytes) then
                    y ← idx bytes (i + 1); Done (bool_decide (y = 10%N))
                  else Done false);
          if crlf : bool then offsets_loop fuel bytes (i + 2) (offsets ++ [i + 2])
          else offsets_loop fuel bytes (i + 1) (offsets ++ [i + 1])
        else offsets_loop fuel bytes (i + 1) offsets
      else Done offsets
  end.

Definition compute_line_offsets (text : str) : run (list nat) :=
  offsets_loop (S (length (as_bytes text))) (as_bytes text) 0 [0].

Definition document_new (text : str) (version : Z) : run Document :=
  offsets ← compute_line_offsets text; Done (mkDocument text version offsets).

(** ** Positions *)

(** [u32::saturating_add]. *)
Definition saturating_add_u32 (x y : N) : N := N.min (x + y) (2 ^ 32 - 1).

(** The loop of [utf16_column_to_byte_offset_clamped]; [None] when it runs to the end. *)
Fixpoint clamp_loop (chars : list (nat * char)) (column_utf16 col : N) : run (option nat) :=
  match chars with
  | [] => Done None
  | (i, ch) :: chars =>
      let ch_len := len_utf16 ch in
      if decide (column_utf16 <= col)%N then Done (Some i)
      else
        next ← add_u32 col ch_len;
        if decide (column_utf16 < next)%N then Done (Some i)
        else clamp_loop chars column_utf16 (saturating_add_u32 col ch_len)
  end.

Definition utf16_column_to_byte_offset_clamped (line : str) (column_utf16 : N) : run nat :=
  r ← clamp_loop (char_indices line) column_utf16 0%N;
  Done (match r with Some i => i | None => str_len line end).

(** [line_end] less the line terminator. *)
Definition trim_terminator (bytes : list N) (line_start line_end : nat) : run nat :=
  if decide (line_start < line_end) then
    x ← idx bytes (line_end - 1);
    if decide (x = 10%N) then
      let line_end := line_end - 1 in
      if decide (line_start < line_end) then
        y ← idx bytes (line_end - 1);
        Done (if decide (y = 13%N) then line_end - 1 else line_end)
      else Done line_end
    else Done (if decide (x = 13%N) then line_end - 1 else line_end)
  else Done line_end.

Definition position_to_offset (self : Document) (position : Position) : run nat :=
  let line := N.to_nat (pos_line position) in
  if decide (length (line_offsets self) <= line) then Done (str_len (doc_text self))
  else
    line_start ← idx (line_offsets self) line;
    line_end ← (if decide (line + 1 < length (line_offsets self))
                then idx (line_offsets self) (line + 1)
                else Done (str_len (doc_text self)));
    line_end ← trim_terminator (as_bytes (doc_text self)) line_start line_end;
    line_slice ← slice (doc_text self) line_start line_end;
    rel ← utf16_column_to_byte_offset_clamped line_slice (pos_character position);
    Done (line_start + rel).

(** [n as u32]. *)
Definition wrap_u32 (n : N) : N := (n mod 2 ^ 32)%N.

Definition end_position (self : Document) : run Position :=
  let last_line := as_u32 (length (line_offsets self) - 1) in
  let line_start := default 0 (list.last (line_offsets self)) in
  line_text ← slice (doc_text self) line_start (str_len (doc_text self));
  Done (mkPosition last_line (wrap_u32 (utf16_len line_text))).

(** ** Changes *)

Section Changes.
Context `{TextSizeCrate}.

(** [u32::try_from]. *)
Definition try_u32 (i : nat) : option N :=
  if decide (N.of_nat i < 2 ^ 32)%N then Some (N.of_nat i) else None.

(** The part of [apply_change] from the check of the offsets on. *)
Definition replace_at (self : Document) (start end_ : nat) (replacement_ : str)
    : run ((DocumentError + TextEdit) * Document) :=
  if decide (end_ < start \/ str_len (doc_text self) < end_) then Done (inl InvalidRange, self)
  else
    text ← replace_range (doc_text self) start end_ replacement_;
    offsets ← compute_line_offsets text;
    let self := mkDocument text (doc_version self) offsets in
    match try_u32 start, try_u32 end_ with
    | Some start, Some end_ =>
        r ← tr_new (ts_from start) (ts_from end_);
        Done (inr (mkEdit r replacement_), self)
    | _, _ => Done (inl InvalidRange, self)
    end.

(** The document is changed in place: it is returned along with the result. *)
Definition apply_change (self : Document) (change : ContentChange)
    : run ((DocumentError + TextEdit) * Document) :=
  range ← match cc_range change with
          | Some range => Done range
          | None => e ← end_position self; Done (mkRange (mkPosition 0 0) e)
          end;
  start ← position_to_offset self (range_start range);
  end_ ← position_to_offset self (range_end range);
  replace_at self start end_ (cc_text change).

(** The loop of [apply_changes]. *)
Fixpoint changes_loop (self : Document) (changes : list ContentChange) (edits : list TextEdit)
    : run ((DocumentError + list TextEdit) * Document) :=
  match changes with
  | [] => Done (inr edits, self)
  | change :: changes =>
      '(r, self) ← apply_change self change;
      match r with
      | inl e => Done (inl e, self)
      | inr edit => changes_loop self changes (edits ++ [edit])
      end
  end.

Definition apply_changes (self : Document) (new_version : Z) (changes : list ContentChange)
    : run ((DocumentError + list TextEdit) * Document) :=
  '(r, self) ← changes_loop self changes [];
  match r with
  | inl e => Done (inl e, self)
  | inr edits => Done (inr edits, mkDocument (doc_text self) new_version (line_offsets self))
  end.
End Changes.

(** ** The reference *)

(** The table of lines is that of the text. *)
Definition wf_document (d : Document) : Prop := line_offsets d = starts_of (doc_text d).

(** [l1] is what is before the column [c] in the line [l]: its longest prefix of at most [c]
    UTF-16 units. *)
Definition clamped (l : str) (c : N) (l1 : str) : Prop :=
  exists l2, l = l1 ++ l2 /\ (utf16_len l1 <= c)%N /\
    match l2 with [] => True | x :: _ => (c < utf16_len l1 + len_utf16 x)%N end.

(** The text before a position: past the last line, all of it. *)
Definition before (text : str) (pos : Position) (p : str) : Prop :=
  length (starts_of text) <= N.to_nat (pos_line pos) /\ p = text \/
  exists q l t rest l1, line_at text (N.to_nat (pos_line pos)) q l t rest /\
    clamped l (pos_character pos) l1 /\ p = q ++ l1.

(** ** The table of lines *)

(** The bytes of a character that is not a line break are not line breaks. *)
Lemma plain_bytes pre x s j :
  x <> 10%N -> x <> 13%N -> j < len_utf8 x ->
  exists y, as_bytes (pre ++ x :: s) !! (str_len pre + j) = Some y /\ y <> 10%N /\ y <> 13%N.
Proof.
  intros H1 H2 Hj. rewrite as_bytes_lookup.
  change (as_bytes (x :: s)) with (encode_utf8 x ++ as_bytes s).
  rewrite lookup_app_l by (by rewrite length_encode_utf8).
  destruct (lookup_lt_is_Some_2 (encode_utf8 x) j) as [y Hy]; [by rewrite length_encode_utf8|].
  exists y. split; [done|]. destruct (decide (x < 0x80)%N) as [Hlo|Hhi].
  - unfold encode_utf8 in Hy. rewrite (proj2 (N.ltb_lt _ _) Hlo) in Hy. destruct j; by simplify_eq/=.
  - apply list_elem_of_lookup_2 in Hy. apply encode_utf8_high in Hy; lia.
Qed.

Lemma offsets_loop_skip fuel k bytes i offsets :
  (forall j, j < k -> exists x, bytes !! (i + j) = Some x /\ x <> 10%N /\ x <> 13%N) ->
  offsets_loop (k + fuel) bytes i offsets = offsets_loop fuel bytes (i + k) offsets.
Proof.
  revert i; induction k as [|k IH]; intros i Hk; [by rewrite Nat.add_0_r|].
  destruct (Hk 0) as (x & Hx & H1 & H2); [lia|]. rewrite Nat.add_0_r in Hx. simpl.
  rewrite decide_True by (by eapply lookup_lt_Some). rewrite (proj2 (idx_Done _ _ _) Hx). simpl.
  rewrite !decide_False by done. rewrite IH; [by rewrite <-Nat.add_assoc|].
  intros j Hj. rewrite <-Nat.add_assoc. apply Hk. lia.
Qed.

(** The byte after a carriage return that is a terminator by itself is not a line feed. *)
Lemma lone_cr pre rest y :
  head rest <> Some 10%N -> as_bytes (pre ++ [13%N] ++ rest) !! (str_len pre + 1) = Some y ->
  y <> 10%N.
Proof.
  rewrite as_bytes_lookup. change (as_bytes ([13%N] ++ rest) !! 1) with (as_bytes rest !! 0).
  destruct rest as [|d rest]; [done|]. simpl. intros Hd Hy ->.
  change (as_bytes (d :: rest)) with (encode_utf8 d ++ as_bytes rest) in Hy.
  destruct (encode_utf8 d) as [|z zs] eqn:Ed.
  { pose proof (length_encode_utf8 d) as Hl. rewrite Ed in Hl. pose proof (len_utf8_pos d). simpl in Hl. lia. }
  simplify_eq/=. apply Hd. f_equal. destruct (decide (d < 0x80)%N) as [Hlo|Hhi].
  - unfold encode_utf8 in Ed. rewrite (proj2 (N.ltb_lt _ _) Hlo) in Ed. by simplify_eq.
  - assert (Hin : 10%N ∈ encode_utf8 d) by (rewrite Ed; by left). apply encode_utf8_high in Hin; lia.
Qed.

Lemma offsets_loop_terminated fuel pre t rest offsets :
  terminated t rest ->
  offsets_loop (S fuel) (as_bytes (pre ++ t ++ rest)) (str_len pre) offsets =
  offsets_loop fuel (as_bytes (pre ++ t ++ rest)) (str_len pre + str_len t)
    (offsets ++ [str_len pre + str_len t]).
Proof.
  intros Ht. pose proof (lone_cr pre rest) as Hcr.
  pose proof (as_bytes_lookup pre (t ++ rest) 0) as H0. rewrite Nat.add_0_r in H0.
  pose proof (as_bytes_lookup pre (t ++ rest) 1) as H1. cbn [offsets_loop].
  set (bytes := as_bytes (pre ++ t ++ rest)) in *.
  destruct Ht as [->|[->|[-> Hr]]]; simpl in H0, H1;
    (rewrite decide_True by (by eapply lookup_lt_Some)); rewrite (proj2 (idx_Done _ _ _) H0); simpl.
  - done.
  - rewrite decide_True by (by eapply lookup_lt_Some). by rewrite (proj2 (idx_Done _ _ _) H1).
  - case_decide as Hlt; [|done]. apply lookup_lt_is_Some in Hlt as [y Hy].
    pose proof (Hcr y Hr Hy). rewrite (proj2 (idx_Done _ _ _) Hy). simpl.
    by rewrite bool_decide_eq_false_2.
Qed.

Lemma offsets_loop_spec s pre fuel offsets :
  str_len s < fuel ->
  offsets_loop fuel (as_bytes (pre ++ s)) (str_len pre) offsets =
  Done (offsets ++ (snd <$> breaks (str_len pre) s)).
Proof.
  revert pre fuel offsets. induction s as [s IH] using (induction_ltof1 _ length).
  unfold ltof in IH. intros pre fuel offsets Hf.
  destruct (str_cases s) as [->|[(t & rest & -> & Ht & Hne)|(x & rest & -> & H1 & H2)]].
  - rewrite app_nil_r. destruct fuel as [|fuel]; [lia|]. simpl.
    rewrite decide_False by (rewrite length_as_bytes; lia). by rewrite app_nil_r.
  - destruct fuel as [|fuel]; [lia|]. rewrite offsets_loop_terminated, breaks_terminated by done.
    pose proof (terminated_pos _ _ Ht). rewrite str_len_app in Hf.
    rewrite <-str_len_app, app_assoc. rewrite IH; [|rewrite length_app; destruct t; [done|]; simpl; lia|lia].
    simpl. by rewrite <-!app_assoc.
  - rewrite breaks_other by done. rewrite str_len_cons in Hf.
    replace fuel with (len_utf8 x + (fuel - len_utf8 x)) by lia.
    rewrite offsets_loop_skip by (intros; by apply plain_bytes).
    replace (pre ++ x :: rest) with ((pre ++ [x]) ++ rest) by (by rewrite <-app_assoc).
    replace (str_len pre + len_utf8 x) with (str_len (pre ++ [x])).
    2:{ rewrite str_len_app, str_len_cons. change (str_len []) with 0. lia. }
    apply IH; [simpl; lia|lia].
Qed.

Lemma compute_line_offsets_spec text : compute_line_offsets text = Done (starts_of text).
Proof.
  unfold compute_line_offsets. rewrite length_as_bytes.
  apply (offsets_loop_spec text [] (S (str_len text)) [0]). lia.
Qed.

(** ** Columns *)

Lemma clamp_loop_spec l1 l2 c :
  (utf16_len l1 <= c)%N -> (utf16_len (l1 ++ l2) < 2 ^ 32)%N ->
  exists r, clamp_loop (char_indices_from (str_len l1) l2) c (utf16_len l1) = Done r /\
    exists a, clamped (l1 ++ l2) c (l1 ++ a) /\
      match r with Some i => i = str_len (l1 ++ a) | None => a = l2 end.
Proof.
  revert l1; induction l2 as [|x l2 IH]; intros l1 Hc Hb; simpl.
  { exists None. split; [done|]. exists []. rewrite app_nil_r. split; [|done]. by exists []; rewrite app_nil_r. }
  assert (Hhere : (c < utf16_len l1 + len_utf16 x)%N -> exists a,
    clamped (l1 ++ x :: l2) c (l1 ++ a) /\ str_len l1 = str_len (l1 ++ a)).
  { intros Hlt. exists []. rewrite app_nil_r. split; [|done]. by exists (x :: l2). }
  pose proof (len_utf16_pos x). case_decide as H1; [eexists; split; [done|]; apply Hhere; lia|].
  rewrite utf16_len_app in Hb. simpl in Hb. rewrite add_u32_Done by lia. simpl.
  case_decide as H2; [eexists; split; [done|]; by apply Hhere|].
  assert (Hs : saturating_add_u32 (utf16_len l1) (len_utf16 x) = utf16_len (l1 ++ [x])).
  { unfold saturating_add_u32. rewrite utf16_len_app. simpl. lia. }
  replace (str_len l1 + len_utf8 x) with (str_len (l1 ++ [x])).
  2:{ rewrite str_len_app, str_len_cons. change (str_len []) with 0. lia. }
  rewrite Hs. destruct (IH (l1 ++ [x])) as (r & Hr & a & Ha & Hm).
  - rewrite utf16_len_app. simpl. lia.
  - rewrite !utf16_len_app. simpl. lia.
  - exists r. split; [done|]. exists (x :: a). do 2 rewrite <-app_assoc in Ha. rewrite <-?app_assoc in Hm. split; [exact Ha|].
    destruct r; [done|by subst].
Qed.

Lemma clamp_spec l c :
  (utf16_len l < 2 ^ 32)%N ->
  exists l1, clamped l c l1 /\ utf16_column_to_byte_offset_clamped l c = Done (str_len l1).
Proof.
  intros Hl. destruct (clamp_loop_spec [] l c) as (r & Hr & a & Ha & Hm); [simpl; lia|done|].
  exists a. split; [done|]. unfold utf16_column_to_byte_offset_clamped, char_indices.
  change (char_indices_from 0 l) with (char_indices_from (str_len []) l).
  change 0%N with (utf16_len []) at 1. rewrite Hr. simpl. destruct r; by subst.
Qed.

Lemma clamped_le l c a b : clamped l c a -> clamped l c b -> str_len b <= str_len a.
Proof.
  intros (a2 & Ha & _ & Hna) (b2 & Hb & Hcb & _). destruct (decide (str_len b <= str_len a)) as [|Hlt]; [done|].
  exfalso. subst l. destruct (split_nested a a2 b b2) as (m & -> & ->); [done|lia|].
  destruct m as [|x m]; [rewrite app_nil_r in Hlt; lia|]. simpl in Hna.
  rewrite utf16_len_app in Hcb. simpl in Hcb. lia.
Qed.

Lemma clamped_fun l c a b : clamped l c a -> clamped l c b -> a = b.
Proof.
  intros Ha Hb. pose proof (clamped_le _ _ _ _ Ha Hb). pose proof (clamped_le _ _ _ _ Hb Ha).
  destruct Ha as (a2 & -> & _), Hb as (b2 & Hab & _).
  apply (split_unique a a2 b b2 Hab). lia.
Qed.

(** A column inside the line is not clamped. *)
Lemma clamped_column l c l1 : column_split l c l1 -> clamped l c l1.
Proof.
  intros (l2 & -> & <-). exists l2. split_and!; [done..|]. destruct l2 as [|x l2]; [done|].
  pose proof (len_utf16_pos x). lia.
Qed.

(** ** Positions *)

(** The last byte of a line that is not empty is not a line break. *)
Lemma last_byte p l s :
  no_newline l -> l <> [] ->
  exists y, as_bytes (p ++ l ++ s) !! (str_len (p ++ l) - 1) = Some y /\ y <> 10%N /\ y <> 13%N.
Proof.
  intros Hn Hl. destruct (list_eq_nil_dec l) as [|_]; [done|].
  destruct l as [|x l _] using rev_ind; [done|]. apply Forall_app in Hn as [_ Hx].
  apply Forall_inv in Hx as [H1 H2]. pose proof (len_utf8_pos x).
  destruct (plain_bytes (p ++ l) x s (len_utf8 x - 1)) as (y & Hy & Hn); [done|done|lia|].
  exists y. split; [|done]. rewrite <-Hy. rewrite <-app_assoc. f_equal.
  - rewrite !str_len_app, str_len_cons. change (str_len []) with 0. lia.
  - by rewrite <-app_assoc.
Qed.

Lemma trim_terminator_spec text k p l t rest :
  line_at text k p l t rest ->
  trim_terminator (as_bytes text) (str_len p) (str_len (p ++ l ++ t)) = Done (str_len (p ++ l)).
Proof.
  intros [-> _ _ Hn Ht].
  assert (Hlast : l <> [] -> exists y, as_bytes (p ++ l ++ t ++ rest) !! (str_len (p ++ l) - 1) = Some y /\
    y <> 10%N /\ y <> 13%N) by (intros; by apply last_byte).
  assert (Hlen : l <> [] -> str_len p < str_len (p ++ l)).
  { intros Hl. rewrite str_len_app. pose proof (fun E => Hl (str_len_nil_inv l E)). lia. }
  pose proof (as_bytes_lookup (p ++ l) (t ++ rest) 0) as H0.
  pose proof (as_bytes_lookup (p ++ l) (t ++ rest) 1) as H1. rewrite <-app_assoc in H0, H1.
  set (bytes := as_bytes (p ++ l ++ t ++ rest)) in *. unfold trim_terminator. destruct Ht as [[[->|[->|[-> _]]] _]|(-> & -> & _)]; simpl in H0, H1.
  - replace (str_len (p ++ l ++ [10%N])) with (S (str_len (p ++ l))) by (rewrite !str_len_app; change (str_len [10%N]) with 1; lia).
    rewrite decide_True by (rewrite str_len_app; lia). rewrite Nat.add_0_r in H0.
    replace (S (str_len (p ++ l)) - 1) with (str_len (p ++ l)) by lia.
    rewrite (proj2 (idx_Done _ _ _) H0). simpl. case_decide as Hlt; [|done].
    destruct Hlast as (y & Hy & _ & Hy13); [intros ->; rewrite app_nil_r in Hlt; lia|].
    rewrite (proj2 (idx_Done _ _ _) Hy). simpl. by rewrite decide_False.
  - replace (str_len (p ++ l ++ [13%N; 10%N])) with (str_len (p ++ l) + 2) by (rewrite !str_len_app; change (str_len [13%N; 10%N]) with 2; lia).
    rewrite decide_True by (rewrite str_len_app; lia).
    replace (str_len (p ++ l) + 2 - 1) with (str_len (p ++ l) + 1) by lia.
    rewrite (proj2 (idx_Done _ _ _) H1). simpl. rewrite decide_True by (rewrite str_len_app; lia).
    rewrite Nat.add_0_r in H0.
    replace (str_len (p ++ l) + 1 - 1) with (str_len (p ++ l)) by lia.
    rewrite (proj2 (idx_Done _ _ _) H0). done.
  - replace (str_len (p ++ l ++ [13%N])) with (S (str_len (p ++ l))) by (rewrite !str_len_app; change (str_len [13%N]) with 1; lia).
    rewrite decide_True by (rewrite str_len_app; lia). rewrite Nat.add_0_r in H0.
    replace (S (str_len (p ++ l)) - 1) with (str_len (p ++ l)) by lia.
    rewrite (proj2 (idx_Done _ _ _) H0). done.
  - rewrite app_nil_r. case_decide as Hlt; [|done].
    destruct Hlast as (y & Hy & Hy10 & Hy13); [intros ->; rewrite app_nil_r in Hlt; lia|].
    rewrite (proj2 (idx_Done _ _ _) Hy). simpl. by rewrite !decide_False.
Qed.

(** Where the line ends, terminator included. *)
Lemma line_end_spec text k p l t rest :
  line_at text k p l t rest ->
  (if decide (k + 1 < length (starts_of text)) then idx (starts_of text) (k + 1)
   else Done (str_len text)) = Done (str_len (p ++ l ++ t)).
Proof.
  intros [Ht _ _ _ [[_ Hn]|(-> & -> & Hn)]]; rewrite Nat.add_1_r.
  - rewrite decide_True by (by eapply lookup_lt_Some). by apply idx_Done.
  - rewrite decide_False by (apply lookup_ge_None in Hn; lia). rewrite Ht.
    by rewrite !app_nil_r.
Qed.

Section Positions.
Context (d : Document) (Hwf : wf_document d).
Context (Hsmall : (N.of_nat (str_len (doc_text d)) < 2 ^ 32)%N).

Lemma position_to_offset_spec pos :
  exists p, before (doc_text d) pos p /\ position_to_offset d pos = Done (str_len p).
Proof.
  unfold position_to_offset. rewrite Hwf. case_decide as Hk.
  { exists (doc_text d). split; [by left|done]. }
  destruct (line_exists (doc_text d) (N.to_nat (pos_line pos))) as (p & l & t & rest & Hl); [lia|].
  rewrite (proj2 (idx_Done _ _ _) (li_start _ _ _ _ _ _ _ _ Hl)), bind_Done_l.
  rewrite (line_end_spec _ _ _ _ _ _ Hl), bind_Done_l.
  rewrite (trim_terminator_spec _ _ _ _ _ _ Hl), bind_Done_l.
  pose proof (li_text _ _ _ _ _ _ _ _ Hl) as Ht.
  assert (Hsl : slice (doc_text d) (str_len p) (str_len (p ++ l)) = Done l).
  { by rewrite Ht, str_len_app, slice_app. }
  rewrite Hsl, bind_Done_l.
  destruct (clamp_spec l (pos_character pos)) as (l1 & Hc & ->).
  { pose proof (utf16_len_le l). apply (f_equal str_len) in Ht. rewrite !str_len_app in Ht. lia. }
  exists (p ++ l1). split; [right; eauto 10|]. simpl. by rewrite str_len_app.
Qed.

(** A position is resolved in one way, to a prefix of the text. *)
Lemma before_prefix pos p : before (doc_text d) pos p -> exists q, doc_text d = p ++ q.
Proof.
  intros [[_ ->]|(q & l & t & rest & l1 & Hl & (l2 & -> & _) & ->)]; [by exists []; rewrite app_nil_r|].
  exists (l2 ++ t ++ rest). rewrite (li_text _ _ _ _ _ _ _ _ Hl). by rewrite <-!app_assoc.
Qed.
End Positions.

Lemma before_fun text pos p p' : before text pos p -> before text pos p' -> p = p'.
Proof.
  assert (Hlt : forall k q l t rest, line_at text k q l t rest -> k < length (starts_of text)).
  { intros k q l t rest Hl. eapply lookup_lt_Some, (li_start _ _ _ _ _ _ _ _ Hl). }
  intros [[H1 ->]|(q & l & t & rest & l1 & Hl & Hc & ->)] [[H2 ->]|(q' & l' & t' & rest' & l1' & Hl' & Hc' & ->)].
  - done.
  - apply Hlt in Hl'. lia.
  - apply Hlt in Hl. lia.
  - destruct (line_at_fun _ _ _ _ _ _ _ _ _ _ Hl Hl') as [-> ->]. f_equal. by eapply clamped_fun.
Qed.

(** The end of a document is past everything. *)
Lemma end_position_spec d :
  wf_document d -> (N.of_nat (str_len (doc_text d)) < 2 ^ 32)%N ->
  exists pos, end_position d = Done pos /\ before (doc_text d) pos (doc_text d).
Proof.
  intros Hwf Hs. unfold end_position. rewrite Hwf. set (text := doc_text d) in *.
  assert (Hlen : 0 < length (starts_of text)) by (unfold starts_of; simpl; lia).
  set (k := length (starts_of text) - 1).
  destruct (line_exists text k) as (p & l & t & rest & Hl); [lia|].
  pose proof Hl as [Ht Hst _ _ [[_ Hn]|(-> & -> & _)]].
  { apply lookup_lt_Some in Hn. lia. }
  rewrite !app_nil_r in Ht. assert (Hlast : list.last (starts_of text) = Some (str_len p)).
  { rewrite last_lookup. rewrite <-Hst. f_equal. unfold k. lia. }
  rewrite Hlast. cbn [default from_option id].
  assert (Hslice : slice text (str_len p) (str_len text) = Done l).
  { pose proof (slice_app p l []) as H. by rewrite app_nil_r, <-Ht, <-str_len_app, <-Ht in H. }
  rewrite Hslice. simpl. eexists. split; [done|]. right. simpl.
  rewrite as_u32_small.
  2:{ pose proof (lookup_lt_Some _ _ _ Hst). unfold k.
      pose proof (index_le_start text Hs k (str_len p) Hst) as Hk. unfold k in Hk.
      apply (f_equal str_len) in Ht. rewrite str_len_app in Ht. lia. }
  rewrite Nat2N.id. exists p, l, [], [], l. split_and!; [done| |done].
  exists []. rewrite app_nil_r. split_and!; [done| |done]. unfold wrap_u32. rewrite N.mod_small; [done|].
  pose proof (utf16_len_le l). apply (f_equal str_len) in Ht. rewrite str_len_app in Ht. lia.
Qed.

(** ** Changes *)

(** What a change selects: the text is [p ++ m ++ q] and [m] is replaced. *)
Definition selects (text : str) (change : ContentChange) (p m q : str) : Prop :=
  text = p ++ m ++ q /\
  match cc_range change with
  | None => p = [] /\ q = []
  | Some range => before text (range_start range) p /\ before text (range_end range) (p ++ m)
  end.

(** The end of the range of a change is before its start. *)
Definition reversed (text : str) (change : ContentChange) : Prop :=
  exists range p1 p2, cc_range change = Some range /\ before text (range_start range) p1 /\
    before text (range_end range) p2 /\ str_len p2 < str_len p1.

Section ChangeFacts.
Context `{TextSizeLaws}.

(** The edit [e] replaces [m] by [r] in a text that starts with [p ++ m]. *)
Definition edit_of (e : TextEdit) (p m r : str) : Prop :=
  edit_start e = str_len p /\ edit_end e = str_len (p ++ m) /\ replacement e = r.

Lemma try_u32_Some i : (N.of_nat i < 2 ^ 32)%N -> try_u32 i = Some (N.of_nat i).
Proof. intros Hi. unfold try_u32. by rewrite decide_True. Qed.

Lemma replace_spec d r p m q :
  (N.of_nat (str_len (doc_text d)) < 2 ^ 32)%N -> doc_text d = p ++ m ++ q ->
  exists e, edit_of e p m r /\
    replace_at d (str_len p) (str_len (p ++ m)) r =
    Done (inr e, mkDocument (p ++ r ++ q) (doc_version d) (starts_of (p ++ r ++ q))).
Proof.
  intros Hs Ht. unfold replace_at. rewrite Ht in *. rewrite !str_len_app in *.
  rewrite decide_False by lia. rewrite replace_range_app, bind_Done_l.
  rewrite compute_line_offsets_spec, bind_Done_l. cbv zeta.
  rewrite !try_u32_Some by lia.
  destruct (tr_new_spec (ts_from (N.of_nat (str_len p))) (ts_from (N.of_nat (str_len p + str_len m))))
    as (rg & -> & Hrs & Hre); [rewrite !ts_to_from by lia; lia|].
  simpl. eexists. split; [|done]. unfold edit_of, edit_start, edit_end. simpl.
  rewrite Hrs, Hre, !ts_to_from, !Nat2N.id, str_len_app by lia. done.
Qed.

Lemma apply_change_spec d change :
  wf_document d -> (N.of_nat (str_len (doc_text d)) < 2 ^ 32)%N ->
  (exists p m q e, selects (doc_text d) change p m q /\ edit_of e p m (cc_text change) /\
     apply_change d change =
     Done (inr e, mkDocument (p ++ cc_text change ++ q) (doc_version d)
                    (starts_of (p ++ cc_text change ++ q)))) \/
  (reversed (doc_text d) change /\ apply_change d change = Done (inl InvalidRange, d)).
Proof.
  intros Hwf Hs. unfold apply_change, selects, reversed. destruct (cc_range change) as [[s e]|] eqn:Hr.
  - rewrite bind_Done_l. cbn [range_start range_end].
    destruct (position_to_offset_spec d Hwf Hs s) as (p1 & Hp1 & ->).
    destruct (position_to_offset_spec d Hwf Hs e) as (p2 & Hp2 & ->). rewrite !bind_Done_l.
    destruct (before_prefix d s p1 Hp1) as (q1 & Hq1). destruct (before_prefix d e p2 Hp2) as (q2 & Hq2).
    destruct (decide (str_len p2 < str_len p1)) as [Hlt|Hge].
    + right. split; [by exists (mkRange s e), p1, p2|]. unfold replace_at. by rewrite decide_True by lia.
    + left. destruct (split_nested p1 q1 p2 q2) as (m & -> & ->); [congruence|lia|].
      destruct (replace_spec d (cc_text change) p1 m q2 Hs Hq1) as (ed & Hed & ->).
      exists p1, m, q2, ed. done.
  - left. destruct (end_position_spec d Hwf Hs) as (pos & -> & Hpos). simpl.
    destruct (position_to_offset_spec d Hwf Hs (mkPosition 0 0)) as (p1 & Hp1 & ->).
    destruct (position_to_offset_spec d Hwf Hs pos) as (p2 & Hp2 & ->).
    rewrite (before_fun _ _ _ _ Hp2 Hpos). rewrite !bind_Done_l.
    assert (p1 = []) as ->.
    { destruct Hp1 as [[Hl _]|(p & l & t & rest & l1 & Hl & (l2 & _ & Hc & _) & ->)].
      - unfold starts_of in Hl. simpl in Hl. lia.
      - pose proof (li_start _ _ _ _ _ _ _ _ Hl) as Hst. simpl in Hst. injection Hst as Hp.
        symmetry in Hp. apply str_len_nil_inv in Hp as ->. simpl in *. destruct l1 as [|x l1]; [done|].
        simpl in Hc. pose proof (len_utf16_pos x). lia. }
    destruct (replace_spec d (cc_text change) [] (doc_text d) [] Hs) as (ed & Hed & He); [by rewrite app_nil_r|].
    cbn [app] in He. rewrite He. exists [], (doc_text d), [], ed. rewrite app_nil_r. done.
Qed.

(** The edits of a batch, replayed one after the other by nova-core. *)
Fixpoint replay (text : str) (edits : list TextEdit) : run (EditError + str) :=
  match edits with
  | [] => Done (inr text)
  | e :: edits =>
      r ← apply_text_edits text [e];
      match r with inl err => Done (inl err) | inr text => replay text edits end
  end.

(** An edit that replaces [m] between [p] and [q]. *)
Lemma apply_single e p m q :
  (N.of_nat (str_len (p ++ m ++ q)) < 2 ^ 32)%N -> edit_start e = str_len p ->
  edit_end e = str_len (p ++ m) ->
  apply_text_edits (p ++ m ++ q) [e] = Done (inr (p ++ replacement e ++ q)).
Proof.
  intros Hs He1 He2. unfold apply_text_edits, normalize_text_edits.
  change (sort_by compare_edits [e]) with [e]. cbv zeta.
  change (ts_from (as_u32 (str_len (p ++ m ++ q)))) with (size (p ++ m ++ q)).
  rewrite (proj2 (check_edits_None (p ++ m ++ q) Hs [e])).
  - simpl. unfold coalesce. simpl. rewrite (apply_edit_app p m q e He1); [done|].
    by rewrite He2, str_len_app.
  - constructor; [|constructor]. split_and!.
    + rewrite He2, !str_len_app. lia.
    + apply is_char_boundary_spec. by exists p, (m ++ q).
    + apply is_char_boundary_spec. exists (p ++ m), q. by rewrite <-app_assoc.
Qed.

(** The total size of the replacements. *)
Definition new_bytes (changes : list ContentChange) : nat :=
  sum_list_with (fun c => str_len (cc_text c)) changes.

(** A batch, change by change: the texts it goes through and the edits it returns. *)
Inductive batch : str -> list ContentChange -> list TextEdit -> str -> Prop :=
| batch_nil text : batch text [] [] text
| batch_cons text c p m q e cs es out :
    selects text c p m q -> edit_of e p m (cc_text c) ->
    batch (p ++ cc_text c ++ q) cs es out -> batch text (c :: cs) (e :: es) out.

Lemma selects_len text c p m q :
  selects text c p m q -> str_len (p ++ cc_text c ++ q) <= str_len text + str_len (cc_text c).
Proof. intros [-> _]. rewrite !str_len_app. lia. Qed.

Lemma changes_loop_spec changes : forall d acc,
  wf_document d -> (N.of_nat (str_len (doc_text d) + new_bytes changes) < 2 ^ 32)%N ->
  exists r d', changes_loop d changes acc = Done (r, d') /\ wf_document d' /\
    doc_version d' = doc_version d /\
    match r with
    | inr edits => exists es, edits = acc ++ es /\ batch (doc_text d) changes es (doc_text d')
    | inl e => e = InvalidRange /\ exists done c rest es, changes = done ++ c :: rest /\
        batch (doc_text d) done es (doc_text d') /\ reversed (doc_text d') c
    end.
Proof.
  induction changes as [|c changes IH]; intros d acc Hwf Hs; simpl.
  { eexists _, _. split; [done|]. split_and!; [done..|]. exists []. rewrite app_nil_r. split; [done|constructor]. }
  unfold new_bytes in Hs. simpl in Hs. fold (new_bytes changes) in Hs.
  destruct (apply_change_spec d c Hwf) as [(p & m & q & e & Hsel & He & ->)|[Hrev ->]]; [lia| |].
  - rewrite bind_Done_l. pose proof (selects_len _ _ _ _ _ Hsel) as Hlen.
    set (d1 := mkDocument _ _ _). destruct (IH d1 (acc ++ [e])) as (r & d' & -> & Hwf' & Hv & Hr).
    + done.
    + simpl. lia.
    + exists r, d'. split_and!; [done..|]. destruct r as [err|edits].
      * destruct Hr as (-> & done & c' & rest & es & -> & Hb & Hrev). split; [done|].
        exists (c :: done), c', rest, (e :: es). split_and!; [done| |done]. by econstructor.
      * destruct Hr as (es & -> & Hb). exists (e :: es). rewrite <-app_assoc. split; [done|].
        by econstructor.
  - eexists _, _. split; [done|]. split_and!; [done..|]. exists [], c, changes, [].
    split_and!; [done|constructor|done].
Qed.

Lemma batch_replay text changes edits out :
  batch text changes edits out -> (N.of_nat (str_len text + new_bytes changes) < 2 ^ 32)%N ->
  replay text edits = Done (inr out).
Proof.
  induction 1 as [|text c p m q e cs es out Hsel (H1 & H2 & H3) Hb IH]; intros Hs; [done|].
  unfold new_bytes in Hs. simpl in Hs. fold (new_bytes cs) in Hs.
  pose proof (selects_len _ _ _ _ _ Hsel) as Hlen. destruct Hsel as [-> _]. simpl.
  rewrite (apply_single e p m q) by (done || lia). simpl. rewrite H3. apply IH. lia.
Qed.

Lemma batch_full text c edits out :
  batch text [c] edits out -> cc_range c = None -> out = cc_text c.
Proof.
  intros Hb Hc. inversion Hb as [|? ? p m q e ? ? ? Hsel He Hb']; subst. inversion Hb'; subst.
  destruct Hsel as [_ Hsel]. rewrite Hc in Hsel. destruct Hsel as [-> ->]. simpl. by rewrite app_nil_r.
Qed.

(** What a batch of changes does to a document: the edits of a batch that is valid; the changes
    before the first invalid one, under the old version, otherwise. *)
Definition batch_result (d : Document) (v : Z) (changes : list ContentChange)
    (r : DocumentError + list TextEdit) (d' : Document) : Prop :=
  match r with
  | inr edits => doc_version d' = v /\ batch (doc_text d) changes edits (doc_text d') /\
      replay (doc_text d) edits = Done (inr (doc_text d'))
  | inl e => e = InvalidRange /\ doc_version d' = doc_version d /\
      exists done c rest es, changes = done ++ c :: rest /\
        batch (doc_text d) done es (doc_text d') /\ reversed (doc_text d') c
  end.

Lemma apply_changes_spec d v changes :
  wf_document d -> (N.of_nat (str_len (doc_text d) + new_bytes changes) < 2 ^ 32)%N ->
  exists r d', apply_changes d v changes = Done (r, d') /\ wf_document d' /\
    batch_result d v changes r d'.
Proof.
  intros Hwf Hs. unfold apply_changes.
  destruct (changes_loop_spec changes d [] Hwf Hs) as (r & d' & -> & Hwf' & Hv & Hr). simpl.
  destruct r as [e|edits]; simpl; eexists _, _; (split; [done|]); (split; [done|]).
  - by destruct Hr.
  - destruct Hr as (es & -> & Hb). split_and!; [done..|]. by eapply batch_replay.
Qed.

Lemma batch_len text cs es out : batch text cs es out -> str_len out <= str_len text + new_bytes cs.
Proof.
  induction 1 as [|text c p m q e cs es out Hsel _ _ IH]; [lia|].
  pose proof (selects_len _ _ _ _ _ Hsel). unfold new_bytes in *. simpl. lia.
Qed.

Lemma batch_result_len d v cs r d' :
  batch_result d v cs r d' -> str_len (doc_text d') <= str_len (doc_text d) + new_bytes cs.
Proof.
  destruct r as [e|edits]; simpl.
  - intros (_ & _ & done_ & c & rest & es & -> & Hb & _). apply batch_len in Hb.
    unfold new_bytes in *. rewrite sum_list_with_app. simpl. lia.
  - intros (_ & Hb & _). by eapply batch_len.
Qed.
End ChangeFacts.

(** ** Theorems *)

Section Theorems.
Context `{TextSizeLaws}.

(** [Document::apply_changes] returns on every batch of changes to a document whose table of
    lines is right (no index, slice or [replace_range] panics: offsets are between characters) and
    keeps the table right.  When it succeeds, the version is the new one and the edits it returns,
    replayed one after the other by nova-core's [apply_text_edits] on the old text, give the new
    text; each replaces what its change selects: from the text before the start position to the
    text before the end position, positions past the end of a line or inside a surrogate pair
    being clamped, or the whole document.  The only error is [InvalidRange], for a change whose
    end is before its start; then the version is kept and the changes before it stay applied. *)
Theorem apply_changes_replay d v changes :
  wf_document d -> (N.of_nat (str_len (doc_text d) + new_bytes changes) < 2 ^ 32)%N ->
  exists r d', apply_changes d v changes = Done (r, d') /\ wf_document d' /\
    match r with
    | inr edits => doc_version d' = v /\ batch (doc_text d) changes edits (doc_text d') /\
        replay (doc_text d) edits = Done (inr (doc_text d'))
    | inl e => e = InvalidRange /\ doc_version d' = doc_version d /\
        exists done c rest es, changes = done ++ c :: rest /\
          batch (doc_text d) done es (doc_text d') /\ reversed (doc_text d') c
    end.
Proof. apply apply_changes_spec. Qed.

(** Documents and the line index of nova-core agree: for a text, the table of lines of
    [Document::new] is that of [LineIndex::new], and a position that [LineIndex::offset_of_position]
    resolves is resolved to the same offset by [Document::position_to_offset]. *)
Theorem positions_agree (text : str) version pos :
  (N.of_nat (str_len text) < 2 ^ 32)%N ->
  exists d ix, document_new text version = Done d /\ new text = Done ix /\ wf_document d /\
    line_starts ix = (fun i => ts_of_len i) <$> line_offsets d /\
    (forall o, offset_of_position ix text pos = Done (Some o) ->
       position_to_offset d pos = Done (N.to_nat (ts_to o))).
Proof.
  intros Hs. set (d := mkDocument text version (starts_of text)).
  exists d, (index_of text). split_and!; [|apply new_spec|done|done|].
  { unfold document_new. by rewrite compute_line_offsets_spec. }
  intros o Ho. destruct (position_to_offset_spec d eq_refl Hs pos) as (p & Hp & ->). f_equal.
  destruct pos as [n c]. destruct Hp as [[Hn Hp]|(q & l & t & rest & l1 & Hl & Hc & ->)]; simpl in *.
  - pose proof (offset_of_position_no_line text n c Hn) as H1. unfold ix in H1. congruence.
  - pose proof (wp_offset_of_position text Hs (N.to_nat n) q l t rest c Hl) as Hw.
    rewrite N2Nat.id in Hw. unfold ix in Hw. rewrite Ho in Hw. simpl in Hw.
    destruct Hw as (l1' & Hcol & ->). apply clamped_column in Hcol.
    rewrite (clamped_fun _ _ _ _ Hc Hcol).
    rewrite (ts_of_len_to text Hs); [lia|]. destruct Hcol as (l2 & -> & _).
    rewrite (li_text _ _ _ _ _ _ _ _ Hl). rewrite !str_len_app. lia.
Qed.
End Theorems.

(** ** Witnesses *)

(** "aX\r\nb" from "a\r\nb" and then "aYb", the last over a line break. *)
Definition sample_document : Document := mkDocument [97; 13; 10; 98]%N 1 [0; 3].

Definition sample_changes : list ContentChange :=
  [replace (mkRange (mkPosition 0 7) (mkPosition 0 7)) [88]%N;
   replace (mkRange (mkPosition 0 1) (mkPosition 1 0)) [89]%N].

Lemma apply_changes_replay_witness :
  exists edits, apply_changes sample_document 2 sample_changes =
    Done (inr edits, mkDocument [97; 89; 98]%N 2 [0]) /\
    replay [97; 13; 10; 98]%N edits = Done (inr [97; 89; 98]%N).
Proof.
  destruct (apply_changes_replay sample_document 2 sample_changes) as (r & d' & He & Hwf & Hr).
  - vm_compute. reflexivity.
  - vm_compute. reflexivity.
  - assert (Hc : match apply_changes sample_document 2 sample_changes with
      | Done (inr _, d) => d = mkDocument [97; 89; 98]%N 2 [0] | _ => False end)
      by (vm_compute; reflexivity).
    rewrite He in Hc. destruct r as [e|edits]; [done|]. destruct Hr as (_ & _ & Hp). subst d'.
    by exists edits.
Defined.

Lemma positions_agree_witness :
  exists d ix, document_new [97; 13; 10; 98]%N 1 = Done d /\ new [97; 13; 10; 98]%N = Done ix /\
    wf_document d /\ position_to_offset d (mkPosition 1 1) = Done 4.
Proof.
  destruct (positions_agree [97; 13; 10; 98]%N 1 (mkPosition 1 1))
    as (d & ix & Hd & Hix & Hwf & _ & Hp); [vm_compute; reflexivity|].
  exists d, ix. split_and!; [done..|].
  assert (Ho : match offset_of_position (index_of [97; 13; 10; 98]%N) [97; 13; 10; 98]%N (mkPosition 1 1)
    with Done (Some o) => ts_to o = 4%N | _ => False end) by (vm_compute; reflexivity).
  rewrite new_spec in Hix. injection Hix as <-.
  destruct (offset_of_position _ _ _) as [[o|]| |]; [|done..]. rewrite (Hp o eq_refl), Ho. reflexivity.
Defined.
