(* ===== verification/Utf8.v ===== *)
(** * Decoding UTF-8

    [std::str::from_utf8], executable, and the proof that it inverts the encoder of Str.v: it
    accepts the encodings of strings and nothing else.  In particular a string is determined by
    its bytes. *)

From stdpp Require Import base list numbers strings option.
From S2P Require Import Prelude Str.

(** ** The decoder *)

(** The character [c], if [enc] is its encoding. *)
Definition utf8_char (c : char) (enc : list N) : option char :=
  if decide (encode_utf8 c = enc /\ is_scalar c = true) then Some c else None.

(** The low six bits of a continuation byte. *)
Definition low6 (b : N) : N := N.land b 0x3F.

Fixpoint from_utf8 (bytes : list N) : option str :=
  match bytes with
  | [] => Some []
  | b :: rest =>
      if (b <? 0x80)%N then s ← from_utf8 rest; Some (b :: s)
      else if (b <? 0xE0)%N then
        match rest with
        | b1 :: rest =>
            c ← utf8_char (N.lor (N.shiftl (N.land b 0x1F) 6) (low6 b1)) [b; b1];
            s ← from_utf8 rest; Some (c :: s)
        | _ => None
        end
      else if (b <? 0xF0)%N then
        match rest with
        | b1 :: b2 :: rest =>
            c ← utf8_char (N.lor (N.shiftl (N.lor (N.shiftl (N.land b 0x0F) 6) (low6 b1)) 6)
                             (low6 b2)) [b; b1; b2];
            s ← from_utf8 rest; Some (c :: s)
        | _ => None
        end
      else
        match rest with
        | b1 :: b2 :: b3 :: rest =>
            c ← utf8_char (N.lor (N.shiftl (N.lor (N.shiftl (N.lor (N.shiftl (N.land b 0x07) 6)
                             (low6 b1)) 6) (low6 b2)) 6) (low6 b3)) [b; b1; b2; b3];
            s ← from_utf8 rest; Some (c :: s)
        | _ => None
        end
  end.

Definition scalars (s : str) : Prop := Forall (fun c => is_scalar c = true) s.

(** ** Bits *)

(** A property of the numbers below a bound, by computation. *)
Lemma below (n : nat) (P : N -> bool) x :
  forallb P (N.of_nat <$> seq 0 n) = true -> (x < N.of_nat n)%N -> P x = true.
Proof.
  intros Hc Hx. rewrite forallb_forall in Hc. apply Hc. apply list_elem_of_In, list_elem_of_fmap.
  exists (N.to_nat x). split; [lia|]. apply elem_of_seq. lia.
Qed.

(** The six low bits and the others. *)
Lemma low6_join c : N.lor (N.shiftl (N.shiftr c 6) 6) (N.land c 0x3F) = c.
Proof.
  apply N.bits_inj. intros n. rewrite N.lor_spec. change 0x3F%N with (N.ones 6).
  rewrite N.land_ones. destruct (N.lt_ge_cases n 6) as [Hn|Hn].
  - rewrite N.shiftl_spec_low, N.mod_pow2_bits_low by done. done.
  - rewrite N.shiftl_spec_high', N.shiftr_spec', N.mod_pow2_bits_high by done.
    rewrite N.sub_add by done. by rewrite orb_false_r.
Qed.

Lemma low6_continuation c s : low6 (continuation c s) = N.land (N.shiftr c s) 0x3F.
Proof.
  unfold low6, continuation. set (x := N.land (N.shiftr c s) 0x3F).
  assert (Hx : (x < 64)%N).
  { unfold x. change 0x3F%N with (N.ones 6). rewrite N.land_ones. apply N.mod_lt. done. }
  apply N.eqb_eq. revert Hx. apply (below 64 (fun x => (N.land (N.lor 0x80 x) 0x3F =? x)%N)).
  vm_compute. reflexivity.
Qed.

Lemma join_continuation c s :
  N.lor (N.shiftl (N.shiftr c (s + 6)) 6) (low6 (continuation c s)) = N.shiftr c s.
Proof. rewrite low6_continuation, <-N.shiftr_shiftr. apply low6_join. Qed.

Lemma shiftr_lt c s n : (c < n * 2 ^ s)%N -> (N.shiftr c s < n)%N.
Proof.
  intros Hc. rewrite N.shiftr_div_pow2. apply N.Div0.div_lt_upper_bound. lia.
Qed.

(** The first byte tells the length and carries the high bits. *)
Definition lead_ok (lo hi mark mask x : N) : bool :=
  let b := N.lor mark x in
  negb (b <? 0x80)%N && negb (b <? lo)%N && (b <? hi)%N && (N.land b mask =? x)%N.

Lemma lead_spec lo hi mark mask n x :
  forallb (lead_ok lo hi mark mask) (N.of_nat <$> seq 0 n) = true -> (x < N.of_nat n)%N ->
  (N.lor mark x <? 0x80)%N = false /\ (N.lor mark x <? lo)%N = false /\
  (N.lor mark x <? hi)%N = true /\ N.land (N.lor mark x) mask = x.
Proof.
  intros Hc Hx. pose proof (below _ _ _ Hc Hx) as H. unfold lead_ok in H. cbv zeta in H.
  rewrite !andb_true_iff, !negb_true_iff, N.eqb_eq in H. tauto.
Qed.

(** ** The decoder inverts the encoder *)

Lemma utf8_char_Some c enc d : utf8_char c enc = Some d <-> d = c /\ enc = encode_utf8 c /\ is_scalar c = true.
Proof. unfold utf8_char. case_decide; naive_solver. Qed.

Lemma from_utf8_sound n : forall bytes s, length bytes <= n ->
  from_utf8 bytes = Some s -> bytes = as_bytes s /\ scalars s.
Proof.
  assert (Hcons : forall c enc rest s, encode_utf8 c = enc -> is_scalar c = true ->
    rest = as_bytes s /\ scalars s -> enc ++ rest = as_bytes (c :: s) /\ scalars (c :: s)).
  { intros c enc rest s <- Hc [-> Hs]. split; [done|by constructor]. }
  induction n as [|n IH]; intros [|b rest] s Hn Hs; simpl in Hn; try lia;
    try (injection Hs as <-; split; [done|constructor]).
  cbn [from_utf8] in Hs. destruct (N.ltb_spec b 0x80) as [Hb|Hb].
  { apply bind_Some in Hs as (t & Ht & [= <-]). apply (Hcons b [b]).
    - unfold encode_utf8. by rewrite (proj2 (N.ltb_lt _ _) Hb).
    - unfold is_scalar. rewrite (proj2 (N.ltb_lt _ _)); [done|lia].
    - apply IH; [lia|done]. }
  destruct (b <? 0xE0)%N; [|destruct (b <? 0xF0)%N]; repeat (destruct rest as [|? rest]; [done|]);
    apply bind_Some in Hs as (c & (-> & Henc & Hc)%utf8_char_Some & (t & Ht & [= <-])%bind_Some);
    symmetry in Henc; (eapply (Hcons _ _ rest t Henc Hc)); apply IH; simpl in *; (done || lia).
Qed.

Lemma from_utf8_char c rest :
  is_scalar c = true ->
  from_utf8 (encode_utf8 c ++ rest) = s ← from_utf8 rest; Some (c :: s).
Proof.
  intros Hc. assert (Henc : forall d enc, d = c -> enc = encode_utf8 c -> utf8_char d enc = Some c).
  { intros d enc -> ->. by apply utf8_char_Some. }
  assert (Hmax : (c < 0x110000)%N).
  { unfold is_scalar in Hc. apply orb_true_iff in Hc as [H|H]; [apply N.ltb_lt in H; lia|].
    apply andb_true_iff in H as [_ H]. by apply N.ltb_lt. }
  pose proof (join_continuation c 0) as J0. rewrite N.shiftr_0_r in J0.
  pose proof (join_continuation c 6) as J6. pose proof (join_continuation c 12) as J12.
  change (0 + 6)%N with 6%N in J0. change (6 + 6)%N with 12%N in J6. change (12 + 6)%N with 18%N in J12.
  unfold encode_utf8 in *. destruct (N.ltb_spec c 0x80) as [H1|H1].
  { cbn [app from_utf8]. by rewrite (proj2 (N.ltb_lt _ _) H1). }
  destruct (N.ltb_spec c 0x800) as [H2|H2].
  { assert (Hx : (N.shiftr c 6 < 32)%N) by (apply shiftr_lt; lia).
    destruct (lead_spec 0x80 0xE0 0xC0 0x1F 32 _ ltac:(vm_compute; reflexivity) Hx) as (A & _ & B & D).
    cbn [app from_utf8]. rewrite A, B, D. rewrite (Henc _ _); [done| |done].
    by rewrite J0. }
  destruct (N.ltb_spec c 0x10000) as [H3|H3].
  { assert (Hx : (N.shiftr c 12 < 16)%N) by (apply shiftr_lt; lia).
    destruct (lead_spec 0xE0 0xF0 0xE0 0x0F 16 _ ltac:(vm_compute; reflexivity) Hx) as (A & A2 & B & D).
    cbn [app from_utf8]. rewrite A, A2, B, D. rewrite (Henc _ _); [done| |done].
    by rewrite J6, J0. }
  assert (Hx : (N.shiftr c 18 < 8)%N) by (apply shiftr_lt; lia).
  destruct (lead_spec 0xF0 0xF8 0xF0 0x07 8 _ ltac:(vm_compute; reflexivity) Hx) as (A & A2 & _ & D).
  cbn [app from_utf8].
  rewrite A, A2. rewrite (proj2 (N.ltb_ge _ 0xE0)) by (apply N.ltb_ge in A2; lia).
  rewrite D. rewrite (Henc _ _); [done| |done].
  by rewrite J12, J6, J0.
Qed.

Lemma from_utf8_complete s : scalars s -> from_utf8 (as_bytes s) = Some s.
Proof.
  induction 1 as [|c s Hc _ IH]; [done|].
  change (as_bytes (c :: s)) with (encode_utf8 c ++ as_bytes s).
  rewrite from_utf8_char by done. by rewrite IH.
Qed.

Lemma from_utf8_exact bytes s : from_utf8 bytes = Some s <-> bytes = as_bytes s /\ scalars s.
Proof.
  split; [by apply (from_utf8_sound (length bytes))|]. intros [-> Hs]. by apply from_utf8_complete.
Qed.

(** A string is determined by its bytes. *)
Lemma as_bytes_inj s t : scalars s -> scalars t -> as_bytes s = as_bytes t -> s = t.
Proof.
  intros Hs Ht He. apply from_utf8_complete in Hs, Ht. rewrite He in Hs. congruence.
Qed.
