(* ===== verification/FileIds.v ===== *)
(** * Paths and file ids (crates/nova-vfs/src: path.rs, archive.rs, file_id.rs, open_documents.rs)

    The paths of the virtual file system, the registry that gives each path a stable id, and
    the set of open documents.  The invariant of the registry is that its two tables are
    inverse to each other; the theorem shows that every operation keeps it, which path each
    operation changes, and that an id is never given to a second path while it is in use. *)

From stdpp Require Import base list numbers strings option gmap fin_maps countable sets relations.
From Stdlib Require Import Sorting.Sorted.
From S2P Require Import Prelude Sorting.

(** ** Paths *)

Inductive ArchiveKind := Jar | Jmod.

Global Instance ArchiveKind_eq_dec : EqDecision ArchiveKind.
Proof. solve_decision. Defined.

(** A [PathBuf] is the bytes of a path. *)
Record ArchivePath := mkArchivePath { ap_kind : ArchiveKind; archive : string; entry : string }.

Global Instance ArchivePath_eq_dec : EqDecision ArchivePath.
Proof. solve_decision. Defined.

Module VfsPath.
Inductive t :=
| Local (path : string)
| Archive (path : ArchivePath)
| Decompiled (content_hash binary_name : string)
| LegacyDecompiled (internal_name : string)
| Uri (uri : string).

Global Instance eq_dec : EqDecision t.
Proof. solve_decision. Defined.

(** Paths are keys of maps. *)
Definition encode (p : t) : string + bool * string * string + string * string + string + string :=
  match p with
  | Local p => inl (inl (inl (inl p)))
  | Archive a => inl (inl (inl (inr (bool_decide (ap_kind a = Jar), archive a, entry a))))
  | Decompiled h n => inl (inl (inr (h, n)))
  | LegacyDecompiled n => inl (inr n)
  | Uri u => inr u
  end.

Definition decode (x : string + bool * string * string + string * string + string + string) : t :=
  match x with
  | inl (inl (inl (inl p))) => Local p
  | inl (inl (inl (inr (j, a, e)))) => Archive (mkArchivePath (if j : bool then Jar else Jmod) a e)
  | inl (inl (inr (h, n))) => Decompiled h n
  | inl (inr n) => LegacyDecompiled n
  | inr u => Uri u
  end.

Global Instance countable : Countable t.
Proof. apply (inj_countable' encode decode). by intros [| [[] ? ?] | | |]. Defined.
End VfsPath.

Notation VfsPath := VfsPath.t.

(** ** The registry *)

(** A [FileId] is a [u32]; here the index it stands for. *)
Notation FileId := nat (only parsing).

Record FileIdRegistry := mkRegistry {
  path_to_id : gmap VfsPath FileId;
  id_to_path : list (option VfsPath)
}.

Definition registry_new : FileIdRegistry := mkRegistry ∅ [].

(** [if let Some(slot) = self.id_to_path.get_mut(id) { *slot = x; }]. *)
Definition set_slot (l : list (option VfsPath)) (id : FileId) (x : option VfsPath)
    : list (option VfsPath) := <[id := x]> l.

Definition file_id (self : FileIdRegistry) (path : VfsPath) : run (FileId * FileIdRegistry) :=
  match path_to_id self !! path with
  | Some id => Done (id, self)
  | None =>
      let raw := length (id_to_path self) in
      if decide (N.of_nat raw < 2 ^ 32)%N then
        Done (raw, mkRegistry (<[path := raw]> (path_to_id self)) (id_to_path self ++ [Some path]))
      else Panic
  end.

Definition rename_path (self : FileIdRegistry) (from to : VfsPath)
    : run (FileId * FileIdRegistry) :=
  match path_to_id self !! from with
  | None => file_id self to
  | Some id_from =>
      let m := delete from (path_to_id self) in
      match m !! to with
      | Some id_to => Done (id_to, mkRegistry m (set_slot (id_to_path self) id_from None))
      | None =>
          Done (id_from, mkRegistry (<[to := id_from]> m)
                           (set_slot (id_to_path self) id_from (Some to)))
      end
  end.

Definition rename_path_displacing_destination (self : FileIdRegistry) (from to : VfsPath)
    : run (FileId * FileIdRegistry) :=
  match path_to_id self !! from with
  | None => file_id self to
  | Some id_from =>
      let m := delete from (path_to_id self) in
      let slots :=
        match m !! to with
        | Some id_to =>
            if decide (id_to <> id_from) then set_slot (id_to_path self) id_to None
            else id_to_path self
        | None => id_to_path self
        end in
      Done (id_from, mkRegistry (<[to := id_from]> (delete to m)) (set_slot slots id_from (Some to)))
  end.

Definition all_file_ids (self : FileIdRegistry) : list FileId :=
  dedup (sort_by Nat.compare ((map_to_list (path_to_id self)).*2)).

Definition get_id (self : FileIdRegistry) (path : VfsPath) : option FileId :=
  path_to_id self !! path.

Definition get_path (self : FileIdRegistry) (id : FileId) : option VfsPath :=
  mjoin (id_to_path self !! id).

(** ** Open documents *)

Notation OpenDocuments := (gset FileId) (only parsing).

Definition docs_open (s : OpenDocuments) (file : FileId) : OpenDocuments := {[file]} ∪ s.
Definition docs_close (s : OpenDocuments) (file : FileId) : OpenDocuments := s ∖ {[file]}.
Definition docs_is_open (s : OpenDocuments) (file : FileId) : bool := bool_decide (file ∈ s).

(** ** The invariant *)

(** The two tables are inverse to each other. *)
Definition wf_registry (r : FileIdRegistry) : Prop :=
  forall p id, path_to_id r !! p = Some id <-> id_to_path r !! id = Some (Some p).

Lemma wf_new : wf_registry registry_new.
Proof. intros p id. simpl. by rewrite lookup_empty. Qed.

Section Registry.
Context (r : FileIdRegistry) (Hwf : wf_registry r).

Lemma wf_inj p q id : path_to_id r !! p = Some id -> path_to_id r !! q = Some id -> p = q.
Proof. intros Hp%Hwf Hq%Hwf. congruence. Qed.

Lemma wf_lt p id : path_to_id r !! p = Some id -> id < length (id_to_path r).
Proof. intros Hp%Hwf. by eapply lookup_lt_Some. Qed.

(** The paths have the ids of [m]; the other ids have none. *)
Lemma wf_slot m slots p id :
  path_to_id r !! p = Some id ->
  (forall q j, j <> id -> m !! q = Some j <-> path_to_id r !! q = Some j) ->
  forall x, (forall q, m !! q = Some id <-> Some q = x) -> slots = set_slot (id_to_path r) id x ->
  wf_registry (mkRegistry m slots).
Proof.
  intros Hp Hm x Hx -> q j. simpl. unfold set_slot. destruct (decide (j = id)) as [->|Hne].
  - rewrite list_lookup_insert_eq by (by eapply wf_lt). rewrite Hx. naive_solver.
  - rewrite list_lookup_insert_ne by done. rewrite Hm by done. apply Hwf.
Qed.

Lemma wf_file_id path :
  wp (file_id r path) (fun '(id, r') => wf_registry r' /\ path_to_id r' !! path = Some id /\
    (forall q, q <> path -> path_to_id r' !! q = path_to_id r !! q) /\
    (path_to_id r !! path = None -> id = length (id_to_path r)) /\
    (forall j, path_to_id r !! path = Some j -> id = j /\ r' = r) /\
    length (id_to_path r) <= length (id_to_path r')) \/
  (file_id r path = Panic /\ (2 ^ 32 <= N.of_nat (length (id_to_path r)))%N).
Proof.
  unfold file_id. destruct (path_to_id r !! path) as [id|] eqn:Hp; [left|].
  { simpl. by split_and!; [..|intros j [= ->]|]. }
  case_decide as Hlt; [left|right; split; [done|lia]]. simpl. split_and!; [| | |done|done|].
  - intros q j. simpl. destruct (decide (q = path)) as [->|Hq].
    + rewrite lookup_insert_eq. split; [intros [= <-]; by rewrite list_lookup_middle|].
      intros Hj. destruct (decide (j < length (id_to_path r))) as [Hlt'|Hge].
      * rewrite lookup_app_l in Hj by done. apply Hwf in Hj. congruence.
      * assert (j = length (id_to_path r)) as ->; [|done].
        apply lookup_lt_Some in Hj. rewrite length_app in Hj. simpl in Hj. lia.
    + rewrite lookup_insert_ne by done. rewrite (Hwf q j). split.
      * intros Hj. rewrite lookup_app_l; [done|by eapply lookup_lt_Some].
      * intros Hj. apply lookup_app_Some in Hj as [Hj|[_ Hj]]; [done|].
        apply list_lookup_singleton_Some in Hj as [_ [= ->]]. done.
  - by rewrite lookup_insert_eq.
  - intros q Hq. by rewrite lookup_insert_ne.
  - rewrite length_app. lia.
Qed.
End Registry.

(** ** Operations *)

Inductive registry_op :=
| OpFileId (path : VfsPath)
| OpRename (from to : VfsPath)
| OpDisplace (from to : VfsPath).

Definition registry_run (r : FileIdRegistry) (op : registry_op) : run (FileId * FileIdRegistry) :=
  match op with
  | OpFileId path => file_id r path
  | OpRename from to => rename_path r from to
  | OpDisplace from to => rename_path_displacing_destination r from to
  end.

(** The path that the operation gives an id, and the one it takes it from. *)
Definition op_target (op : registry_op) : VfsPath :=
  match op with OpFileId p | OpRename _ p | OpDisplace _ p => p end.
Definition op_source (op : registry_op) : option VfsPath :=
  match op with OpFileId _ => None | OpRename from _ | OpDisplace from _ => Some from end.

(** The id that the target has afterwards. *)
Definition op_id (r : FileIdRegistry) (op : registry_op) : FileId :=
  let own := default (length (id_to_path r)) (get_id r (op_target op)) in
  match op with
  | OpFileId _ => own
  | OpRename from to =>
      match get_id r from with
      | None => own
      | Some id => if decide (from = to) then id else default id (get_id r to)
      end
  | OpDisplace from _ => default own (get_id r from)
  end.

(** What every operation guarantees. *)
Record registry_step (r r' : FileIdRegistry) (op : registry_op) (id : FileId) : Prop := {
  rs_wf : wf_registry r';
  rs_target : get_id r' (op_target op) = Some id;
  rs_source : forall from, op_source op = Some from -> from <> op_target op -> get_id r' from = None;
  rs_others : forall q, q <> op_target op -> op_source op <> Some q -> get_id r' q = get_id r q;
  rs_ids : forall j p', get_path r' j = Some p' -> get_path r j = Some p' \/
    (p' = op_target op /\ (length (id_to_path r) <= j \/ op_source op = get_path r j));
  rs_grows : length (id_to_path r) <= length (id_to_path r')
}.

Lemma get_path_iff r id p : wf_registry r -> get_path r id = Some p <-> get_id r p = Some id.
Proof.
  intros Hwf. unfold get_path, get_id. rewrite (Hwf p id). destruct (id_to_path r !! id) as [[q|]|]; simpl; naive_solver.
Qed.

(** The ids follow from the paths that changed. *)
Lemma step_ids r r' op id :
  wf_registry r -> wf_registry r' -> get_id r' (op_target op) = Some id ->
  (forall q, q <> op_target op -> op_source op <> Some q -> get_id r' q = get_id r q) ->
  (forall from, op_source op = Some from -> from <> op_target op -> get_id r' from = None) ->
  (length (id_to_path r) <= id \/ get_path r id = Some (op_target op) \/ op_source op = get_path r id) ->
  forall j p', get_path r' j = Some p' -> get_path r j = Some p' \/
    (p' = op_target op /\ (length (id_to_path r) <= j \/ op_source op = get_path r j)).
Proof.
  intros Hwf Hwf' Ht Ho Hs Hid j p' Hj. apply (get_path_iff r' _ _ Hwf') in Hj.
  destruct (decide (p' = op_target op)) as [->|Hne].
  - assert (j = id) as -> by congruence. destruct Hid as [?|[?|?]]; auto.
  - left. apply (get_path_iff r _ _ Hwf). rewrite <-Ho; [done..|]. intros Hsrc.
    by rewrite (Hs _ Hsrc Hne) in Hj.
Qed.

Section Steps.
Context (r : FileIdRegistry) (Hwf : wf_registry r).

(** A run does its step, or there is no id left. *)
Definition steps (m : run (FileId * FileIdRegistry)) (op : registry_op) : Prop :=
  (exists r', m = Done (op_id r op, r') /\ registry_step r r' op (op_id r op)) \/
  (m = Panic /\ (2 ^ 32 <= N.of_nat (length (id_to_path r)))%N).

Lemma file_id_step op :
  match op with OpFileId _ => True | OpRename from _ | OpDisplace from _ => get_id r from = None end ->
  steps (file_id r (op_target op)) op.
Proof.
  intros Hop. set (path := op_target op).
  assert (Hid : op_id r op = default (length (id_to_path r)) (get_id r path)).
  { destruct op; simpl in *; [done| |]; by rewrite Hop. }
  destruct (wf_file_id r Hwf path) as [Hw|?]; [left|by right].
  apply wp_inv in Hw as ([id r'] & He & Hwf' & Ht & Ho & Hn & Hs & Hg). exists r'.
  assert (id = op_id r op) as ->.
  { rewrite Hid. unfold get_id. destruct (path_to_id r !! path) as [j|]; [by destruct (Hs j)|by apply Hn]. }
  split; [done|].
  assert (Hothers : forall q, q <> path -> op_source op <> Some q -> get_id r' q = get_id r q)
    by (intros q Hq _; by apply Ho).
  assert (Hsrc : forall from, op_source op = Some from -> from <> path -> get_id r' from = None).
  { intros from Hf Hne. unfold get_id. rewrite Ho by done. by destruct op; simplify_eq/=. }
  split; [done|done|done|done| |done].
  eapply step_ids; try done. fold path. rewrite Hid. unfold get_id.
  destruct (path_to_id r !! path) as [j|] eqn:Hj; [|by left]. right. left.
  by apply get_path_iff.
Qed.

(** [from] gives its id to [to], whose own id, if it has one, is retired. *)
Definition moved_registry (from to : VfsPath) (i : FileId) : FileIdRegistry :=
  mkRegistry (<[to := i]> (delete to (delete from (path_to_id r))))
    (set_slot (match delete from (path_to_id r) !! to with
               | Some id_to => set_slot (id_to_path r) id_to None
               | None => id_to_path r
               end) i (Some to)).

Lemma length_retired (o : option FileId) :
  length (match o with Some id_to => set_slot (id_to_path r) id_to None | None => id_to_path r end) =
  length (id_to_path r).
Proof. destruct o as [k|]; [|done]. unfold set_slot. by rewrite length_insert. Qed.

Lemma wf_moved from to i :
  path_to_id r !! from = Some i -> wf_registry (moved_registry from to i).
Proof.
  intros Hf q j. pose proof (wf_lt r Hwf _ _ Hf) as Hi. unfold moved_registry, set_slot. simpl.
  destruct (decide (j = i)) as [->|Hj].
  - rewrite list_lookup_insert_eq by (by rewrite length_retired).
    destruct (decide (q = to)) as [->|Hq]; [by rewrite lookup_insert_eq|].
    rewrite lookup_insert_ne, lookup_delete_ne by done. split; [|congruence].
    intros [Hqf Hq']%lookup_delete_Some. by destruct Hqf; eapply wf_inj.
  - rewrite list_lookup_insert_ne by done.
    assert (Hslot : (match delete from (path_to_id r) !! to with
               | Some id_to => <[id_to := None]> (id_to_path r) | None => id_to_path r end) !! j
               = Some (Some q) <-> path_to_id r !! q = Some j /\ q <> to).
    { rewrite (Hwf q j). destruct (delete from (path_to_id r) !! to) as [k|] eqn:Hk.
      - apply lookup_delete_Some in Hk as [Hne Hk]. destruct (decide (j = k)) as [->|Hjk].
        + rewrite list_lookup_insert_eq by (by eapply wf_lt). split; [done|].
          intros [Hq Hqt]. apply Hwf in Hq. by destruct Hqt; eapply wf_inj.
        + rewrite list_lookup_insert_ne by done. split; [|by intros [? _]]. intros Hq. split; [done|].
          intros ->. apply Hwf in Hq. congruence.
      - split; [|by intros [? _]]. intros Hq. split; [done|]. intros ->. apply Hwf in Hq.
        apply lookup_delete_None in Hk as [->|Hk]; congruence. }
    rewrite Hslot. destruct (decide (q = to)) as [->|Hq].
    + rewrite lookup_insert_eq. split; [congruence|by intros [_ ?]].
    + rewrite lookup_insert_ne, lookup_delete_ne, lookup_delete_Some by done. split; [by intros [_ ?]|].
      intros [Hq' _]. split; [|done]. intros ->. congruence.
Qed.

Lemma moved_step op from to i :
  op = OpRename from to \/ op = OpDisplace from to -> path_to_id r !! from = Some i ->
  registry_step r (moved_registry from to i) op i.
Proof.
  intros Hop Hf. pose proof (wf_moved from to i Hf) as Hwf'.
  assert (Ht : op_target op = to) by (by destruct Hop as [-> | ->]).
  assert (Hsrc : op_source op = Some from) by (by destruct Hop as [-> | ->]).
  assert (H1 : get_id (moved_registry from to i) to = Some i) by (apply lookup_insert_eq).
  assert (H2 : forall q, q <> to -> Some from <> Some q -> get_id (moved_registry from to i) q = get_id r q).
  { intros q Hq Hqf. unfold get_id. simpl. rewrite lookup_insert_ne, !lookup_delete_ne by congruence. done. }
  assert (H3 : forall f, Some from = Some f -> f <> to -> get_id (moved_registry from to i) f = None).
  { intros f [= <-] Hq. unfold get_id. simpl.
    rewrite lookup_insert_ne, lookup_delete_ne by congruence. apply lookup_delete_eq. }
  split; [done|by rewrite Ht|by rewrite Ht, Hsrc|by rewrite Ht, Hsrc| |].
  - eapply step_ids; rewrite ?Ht, ?Hsrc; try done. right. right. symmetry. by apply get_path_iff.
  - unfold moved_registry, set_slot. simpl. rewrite length_insert. by rewrite length_retired.
Qed.

Lemma rename_step from to :
  steps (rename_path r from to) (OpRename from to).
Proof.
  unfold rename_path. destruct (path_to_id r !! from) as [i|] eqn:Hf; [|by apply (file_id_step (OpRename from to))].
  left. unfold op_id, get_id. simpl. rewrite Hf.
  destruct (delete from (path_to_id r) !! to) as [k|] eqn:Hk.
  - apply lookup_delete_Some in Hk as [Hne Hk]. rewrite decide_False, Hk by done. simpl.
    eexists. split; [done|]. set (r' := mkRegistry _ _).
    assert (Hik : i <> k) by (intros ->; destruct Hne; by eapply wf_inj).
    assert (Hwf' : wf_registry r').
    { eapply (wf_slot r Hwf); [exact Hf| |instantiate (1 := None)|done].
      - intros q j Hj. rewrite lookup_delete_Some. split; [by intros [_ ?]|]. intros Hq. split; [|done].
        intros ->. congruence.
      - intros q. rewrite lookup_delete_Some. split; [|done]. intros [Hq Hq'].
        destruct Hq. by eapply wf_inj. }
    assert (H1 : get_id r' to = Some k) by (unfold get_id; simpl; by rewrite lookup_delete_ne).
    assert (H2 : forall q, q <> to -> Some from <> Some q -> get_id r' q = get_id r q).
    { intros q Hq Hqf. unfold get_id. simpl. by rewrite lookup_delete_ne by congruence. }
    assert (H3 : forall f, Some from = Some f -> f <> to -> get_id r' f = None).
    { intros f [= <-] _. apply lookup_delete_eq. }
    split; [done..| |simpl; unfold set_slot; by rewrite length_insert].
    eapply step_ids; try done. right. left. by apply get_path_iff.
  - assert (Hmv : moved_registry from to i =
      mkRegistry (<[to := i]> (delete from (path_to_id r))) (set_slot (id_to_path r) i (Some to))).
    { unfold moved_registry. rewrite Hk. f_equal. by rewrite (delete_id (delete from _)). }
    assert (Hi : (if decide (from = to) then i else default i (path_to_id r !! to)) = i).
    { case_decide as Hd; [done|]. apply lookup_delete_None in Hk as [?|Hk]; [done|]. by rewrite Hk. }
    rewrite <-Hmv, Hi. eexists. split; [done|]. by apply moved_step; [left|].
Qed.

Lemma displace_step from to :
  steps (rename_path_displacing_destination r from to) (OpDisplace from to).
Proof.
  unfold rename_path_displacing_destination.
  destruct (path_to_id r !! from) as [i|] eqn:Hf; [|by apply (file_id_step (OpDisplace from to))].
  left. unfold op_id, get_id. simpl. rewrite Hf. simpl.
  assert (Hmv : moved_registry from to i = mkRegistry (<[to := i]> (delete to (delete from (path_to_id r))))
    (set_slot (match delete from (path_to_id r) !! to with
        | Some id_to => if decide (id_to <> i) then set_slot (id_to_path r) id_to None else id_to_path r
        | None => id_to_path r end) i (Some to))).
  { unfold moved_registry. destruct (delete from (path_to_id r) !! to) as [k|] eqn:Hk; [|done].
    rewrite decide_True; [done|]. intros ->. apply lookup_delete_Some in Hk as [Hne Hk].
    destruct Hne. by eapply wf_inj. }
  rewrite <-Hmv. eexists. split; [done|]. apply moved_step; [by right|done].
Qed.
End Steps.

(** Every operation of the registry. *)
Lemma registry_run_step r op : wf_registry r -> steps r (registry_run r op) op.
Proof.
  intros Hwf. destruct op as [p|from to|from to]; simpl.
  - by apply (file_id_step r Hwf (OpFileId p)).
  - by apply rename_step.
  - by apply displace_step.
Qed.

(** ** The list of ids *)

Lemma all_file_ids_spec r :
  StronglySorted lt (all_file_ids r) /\
  forall id, id ∈ all_file_ids r <-> exists p, get_id r p = Some id.
Proof.
  split.
  { eapply (dedup_sorted (cmp_le Nat.compare)); [..|apply sort_by_sorted; apply _]; unfold cmp_le; intros *;
      rewrite ?Nat.compare_le_iff; lia. }
  intros id. unfold all_file_ids, get_id.
  rewrite elem_of_dedup, elem_of_sort_by, list_elem_of_fmap. split.
  - intros ([p j] & -> & Hp%elem_of_map_to_list). by exists p.
  - intros [p Hp]. exists (p, id). split; [done|]. by apply elem_of_map_to_list.
Qed.

(** ** Theorems *)

(** The registries that operations build from the empty one. *)
Definition registry_next (r r' : FileIdRegistry) : Prop :=
  exists op id, registry_run r op = Done (id, r').

Definition registry_reachable (r : FileIdRegistry) : Prop := rtc registry_next registry_new r.

Lemma reachable_wf r : registry_reachable r -> wf_registry r.
Proof.
  intros Hr. revert r Hr. apply (rtc_ind_r wf_registry registry_new wf_new).
  intros r1 r2 _ (op & id & Hop) IH.
  destruct (registry_run_step r1 op IH) as [(r' & He & Hs)|[He _]]; [|congruence].
  rewrite Hop in He. injection He as -> ->. apply Hs.
Qed.

(** The ids of files are stable.  In every registry that [file_id] and the renames build from the
    empty one, the two tables are inverse to each other and [all_file_ids] lists the ids in use, in
    order and once.  Each operation returns unless 2^32 ids are taken; it gives its target path an
    id: the one it has, or the source's for a rename (a plain rename onto a known path keeps the
    id of that path and retires the source's, a displacing one retires the id of the destination),
    or a new one; the source path of a rename has no id afterwards, and no other path changes its
    id.  No id moves to another path except from the source of a rename to its target. *)
Theorem file_ids_stable r op :
  registry_reachable r ->
  (forall p id, get_id r p = Some id <-> get_path r id = Some p) /\
  StronglySorted lt (all_file_ids r) /\
  (forall id, id ∈ all_file_ids r <-> exists p, get_id r p = Some id) /\
  (registry_run r op = Panic /\ (2 ^ 32 <= N.of_nat (length (id_to_path r)))%N \/
   exists r', registry_run r op = Done (op_id r op, r') /\ registry_reachable r' /\
     registry_step r r' op (op_id r op)).
Proof.
  intros Hr. pose proof (reachable_wf r Hr) as Hwf. destruct (all_file_ids_spec r) as [H1 H2].
  split_and!; [intros; symmetry; by apply get_path_iff|done..|].
  destruct (registry_run_step r op Hwf) as [(r' & He & Hs)|?]; [right|by left].
  exists r'. split_and!; [done| |done]. eapply rtc_r; [exact Hr|]. by eexists _, _.
Qed.

(** ** Witnesses *)

Definition path_a : VfsPath := VfsPath.Local "/a.java".
Definition path_b : VfsPath := VfsPath.Local "/b.java".

Definition two_files : FileIdRegistry :=
  mkRegistry (<[path_b := 1]> (<[path_a := 0]> ∅)) [Some path_a; Some path_b].

Lemma file_ids_stable_witness :
  exists r', rename_path two_files path_a path_b = Done (1, r') /\ get_path r' 0 = None /\
    registry_step two_files r' (OpRename path_a path_b) 1.
Proof.
  assert (Hr : registry_reachable two_files).
  { eapply rtc_l; [exists (OpFileId path_a), 0; vm_compute; reflexivity|].
    eapply rtc_once. exists (OpFileId path_b), 1. vm_compute. reflexivity. }
  destruct (file_ids_stable two_files (OpRename path_a path_b) Hr) as (_ & _ & _ & [[_ Hf]|(r' & He & _ & Hs)]).
  - exfalso. vm_compute in Hf. by apply Hf.
  - exists r'. split; [exact He|]. split; [|exact Hs].
    assert (Hc : match registry_run two_files (OpRename path_a path_b) with
      Done (_, r) => get_path r 0 = None | _ => False end) by (vm_compute; reflexivity).
    by rewrite He in Hc.
Defined.
