(* ===== verification/VirtualDocs.v ===== *)
(** * Virtual documents (crates/nova-vfs/src: virtual_documents.rs, virtual_documents_fs.rs, fs.rs)

    The bounded store of decompiled sources, with its eviction of the least recently used
    documents, and the file system that serves them over a base file system.  The [lru] crate is
    not part of the repository: its operations are the class [LruCrate] and what its
    documentation promises of them the class [LruLaws].  A file system is the class
    [FileSystem], as the trait of fs.rs. *)

From stdpp Require Import base list numbers strings option gmap.
From S2P Require Import Prelude Str Utf8 FileIds.

(** ** The [lru] crate *)

Section Assoc.
Context {K V : Type} `{EqDecision K}.

Fixpoint assoc (k : K) (l : list (K * V)) : option V :=
  match l with
  | [] => None
  | (k', v) :: l => if decide (k = k') then Some v else assoc k l
  end.

Definition without (k : K) (l : list (K * V)) : list (K * V) := filter (fun e => e.1 <> k) l.
End Assoc.

(** [LruCache::unbounded], [put], [get], [pop], [pop_lru], [contains] and [iter]. *)
Class LruCrate (K V : Type) := {
  LruCache : Type;
  lru_unbounded : LruCache;
  lru_put : LruCache -> K -> V -> option V * LruCache;
  lru_get : LruCache -> K -> option V * LruCache;
  lru_pop : LruCache -> K -> option V * LruCache;
  lru_pop_lru : LruCache -> option (K * V) * LruCache;
  lru_contains : LruCache -> K -> bool;
  lru_iter : LruCache -> list (K * V)
}.

(** [iter] lists the entries, one for each key, from the most to the least recently used one;
    [put] and a successful [get] make an entry the most recently used, [contains] does not. *)
Class LruLaws (K V : Type) `{EqDecision K} (crate : LruCrate K V) : Prop := {
  lru_nodup c : NoDup (lru_iter c).*1;
  lru_unbounded_spec : lru_iter lru_unbounded = [];
  lru_put_spec c k v : (lru_put c k v).1 = assoc k (lru_iter c) /\
    lru_iter (lru_put c k v).2 = (k, v) :: without k (lru_iter c);
  lru_get_spec c k : (lru_get c k).1 = assoc k (lru_iter c) /\
    lru_iter (lru_get c k).2 =
    match assoc k (lru_iter c) with
    | Some v => (k, v) :: without k (lru_iter c)
    | None => lru_iter c
    end;
  lru_pop_spec c k : (lru_pop c k).1 = assoc k (lru_iter c) /\
    lru_iter (lru_pop c k).2 = without k (lru_iter c);
  lru_pop_lru_spec c : (lru_pop_lru c).1 = list.last (lru_iter c) /\
    lru_iter (lru_pop_lru c).2 = removelast (lru_iter c);
  lru_contains_spec c k : lru_contains c k = true <-> is_Some (assoc k (lru_iter c))
}.

(** ** The store *)

(** [usize] arithmetic. *)
Definition saturating_add_usize (x y : N) : N := N.min (x + y) (2 ^ 64 - 1).
Definition saturating_sub_usize (x y : N) : N := (x - y)%N.

(** [text.len()]. *)
Definition bytes_of (text : str) : N := N.of_nat (str_len text).

Definition is_decompiled_path (path : VfsPath) : bool :=
  match path with
  | VfsPath.Decompiled _ _ | VfsPath.LegacyDecompiled _ => true
  | _ => false
  end.

Section Store.
Context `{crate : LruCrate VfsPath str}.

Record VirtualDocumentStore := mkStore {
  max_bytes : N;
  total_bytes : N;
  lru : LruCache
}.

Definition store_new (max : N) : VirtualDocumentStore := mkStore max 0 lru_unbounded.

(** The [while inner.total_bytes > inner.max_bytes] loop. *)
Fixpoint evict_loop (fuel : nat) (self : VirtualDocumentStore) : run VirtualDocumentStore :=
  match fuel with
  | 0 => OutOfFuel
  | S fuel =>
      if decide (max_bytes self < total_bytes self)%N then
        match lru_pop_lru (lru self) with
        | (None, c) => Done (mkStore (max_bytes self) 0 c)
        | (Some (_, evicted), c) =>
            evict_loop fuel
              (mkStore (max_bytes self) (saturating_sub_usize (total_bytes self) (bytes_of evicted)) c)
        end
      else Done self
  end.

Definition insert_text (self : VirtualDocumentStore) (path : VfsPath) (text : str)
    : run VirtualDocumentStore :=
  if negb (is_decompiled_path path) then Done self
  else
    let bytes := bytes_of text in
    if decide (max_bytes self = 0%N \/ (max_bytes self < bytes)%N) then
      match lru_pop (lru self) path with
      | (Some prev, c) =>
          Done (mkStore (max_bytes self)
                  (saturating_sub_usize (total_bytes self) (bytes_of prev)) c)
      | (None, c) => Done (mkStore (max_bytes self) (total_bytes self) c)
      end
    else
      let '(prev, c) := lru_put (lru self) path text in
      let total :=
        match prev with
        | Some prev => saturating_sub_usize (total_bytes self) (bytes_of prev)
        | None => total_bytes self
        end in
      let self := mkStore (max_bytes self) (saturating_add_usize total bytes) c in
      evict_loop (S (S (length (lru_iter c)))) self.

Definition get_text (self : VirtualDocumentStore) (path : VfsPath)
    : option str * VirtualDocumentStore :=
  if negb (is_decompiled_path path) then (None, self)
  else
    let '(text, c) := lru_get (lru self) path in
    (text, mkStore (max_bytes self) (total_bytes self) c).

Definition store_estimated_bytes (self : VirtualDocumentStore) : N := total_bytes self.

Definition store_contains (self : VirtualDocumentStore) (path : VfsPath) : bool :=
  is_decompiled_path path && lru_contains (lru self) path.
End Store.
Global Arguments VirtualDocumentStore {crate}.

(** ** File systems *)

(** The kinds of [io::Error] that the code tells apart; the messages are left out. *)
Inductive ErrorKind := NotFound | Unsupported | InvalidData | OtherKind (name : string).

Global Instance ErrorKind_eq_dec : EqDecision ErrorKind.
Proof. solve_decision. Defined.

Notation io_result A := (ErrorKind + A)%type.

(** The trait; a file system as it is at one moment. *)
Class FileSystem := {
  Metadata : Type;
  fs_read_bytes : VfsPath -> io_result (list N);
  fs_read_to_string : VfsPath -> io_result str;
  fs_exists : VfsPath -> bool;
  fs_metadata : VfsPath -> io_result Metadata;
  fs_read_dir : VfsPath -> io_result (list VfsPath)
}.

Section VirtualFs.
Context `{crate : LruCrate VfsPath str} `{base : FileSystem}.

(** [VirtualDocumentsFs]: the reads cache what they find. *)
Definition vfs_read_bytes (store : VirtualDocumentStore) (path : VfsPath)
    : run (io_result (list N) * VirtualDocumentStore) :=
  if is_decompiled_path path then
    let '(cached, store) := get_text store path in
    match cached with
    | Some text => Done (inr (as_bytes text), store)
    | None =>
        if negb (fs_exists path) then Done (inl NotFound, store)
        else
          match fs_read_bytes path with
          | inr bytes =>
              store ← (match from_utf8 bytes with
                       | Some text => insert_text store path text
                       | None => Done store
                       end);
              Done (inr bytes, store)
          | inl err =>
              if decide (err = Unsupported \/ err = InvalidData) then
                match fs_read_to_string path with
                | inr text => store ← insert_text store path text; Done (inr (as_bytes text), store)
                | inl Unsupported => Done (inl NotFound, store)
                | inl err => Done (inl err, store)
                end
              else Done (inl err, store)
          end
    end
  else Done (fs_read_bytes path, store).

Definition vfs_read_to_string (store : VirtualDocumentStore) (path : VfsPath)
    : run (io_result str * VirtualDocumentStore) :=
  if is_decompiled_path path then
    let '(cached, store) := get_text store path in
    match cached with
    | Some text => Done (inr text, store)
    | None =>
        if negb (fs_exists path) then Done (inl NotFound, store)
        else
          match fs_read_to_string path with
          | inr text => store ← insert_text store path text; Done (inr text, store)
          | inl Unsupported => Done (inl NotFound, store)
          | inl err => Done (inl err, store)
          end
    end
  else Done (fs_read_to_string path, store).

Definition vfs_exists (store : VirtualDocumentStore) (path : VfsPath) : bool :=
  if is_decompiled_path path then store_contains store path || fs_exists path
  else fs_exists path.

Definition vfs_metadata (path : VfsPath) : io_result Metadata :=
  if is_decompiled_path path then inl Unsupported else fs_metadata path.

Definition vfs_read_dir (path : VfsPath) : io_result (list VfsPath) :=
  if is_decompiled_path path then inl Unsupported else fs_read_dir path.
End VirtualFs.

(** ** The reference *)

(** The bytes of some documents. *)
Definition total (l : list (VfsPath * str)) : N := foldr (fun e n => (bytes_of e.2 + n)%N) 0%N l.

(** The documents that are kept: as many as fit, from the most recently used one on. *)
Definition kept (max : N) (l k : list (VfsPath * str)) : Prop :=
  exists evicted, l = k ++ evicted /\ (total k <= max)%N /\
    match evicted with [] => True | e :: _ => (max < total (k ++ [e]))%N end.

Section StoreFacts.
Context `{crate : LruCrate VfsPath str} `{!LruLaws VfsPath str crate}.

Definition entries (s : VirtualDocumentStore) : list (VfsPath * str) := lru_iter (lru s).

(** The account is right, within the budget, and only virtual documents are stored. *)
Record wf_store (s : VirtualDocumentStore) : Prop := {
  ws_total : total_bytes s = total (entries s);
  ws_budget : (total (entries s) <= max_bytes s)%N;
  ws_max : (max_bytes s < 2 ^ 63)%N;
  ws_paths : Forall (fun e => is_decompiled_path e.1 = true) (entries s)
}.

Lemma total_app l1 l2 : total (l1 ++ l2) = (total l1 + total l2)%N.
Proof. induction l1 as [|e l1 IH]; simpl; [done|]. rewrite IH. lia. Qed.

Lemma assoc_None {V} k (l : list (VfsPath * V)) : assoc k l = None -> k ∉ l.*1.
Proof.
  induction l as [|[k' v] l IH]; simpl; [by intros _ ?%not_elem_of_nil|].
  case_decide as Hk; [done|]. intros Hl. apply not_elem_of_cons. auto.
Qed.

Lemma without_id {V} k (l : list (VfsPath * V)) : k ∉ l.*1 -> without k l = l.
Proof.
  induction l as [|[k' v] l IH]; intros Hk; [done|]. simpl in Hk. apply not_elem_of_cons in Hk as [H1 H2].
  unfold without. rewrite filter_cons, decide_True by (simpl; congruence). f_equal. by apply IH.
Qed.

(** Removing an entry removes its bytes. *)
Lemma total_without k l :
  NoDup l.*1 ->
  total l = (total (without k l) + match assoc k l with Some v => bytes_of v | None => 0 end)%N.
Proof.
  induction l as [|[k' v] l IH]; intros Hd; [done|]. simpl in Hd. apply NoDup_cons in Hd as [Hn Hd].
  unfold without. rewrite filter_cons. simpl. destruct (decide (k = k')) as [->|Hk].
  - rewrite decide_False by auto. fold (without k' l). rewrite without_id by done. simpl. lia.
  - rewrite decide_True by congruence. fold (without k l). simpl. rewrite IH by done. lia.
Qed.

Lemma Forall_without {V} (P : VfsPath * V -> Prop) k l : Forall P l -> Forall P (without k l).
Proof. intros Hl. unfold without. apply Forall_forall. intros x [_ Hx]%list_elem_of_filter.
  rewrite Forall_forall in Hl. auto. Qed.

Lemma removelast_snoc {A} (l : list A) x : removelast (l ++ [x]) = l.
Proof. by rewrite removelast_app, app_nil_r. Qed.

Lemma evict_loop_spec fuel s :
  length (entries s) < fuel -> total_bytes s = total (entries s) ->
  exists s', evict_loop fuel s = Done s' /\ max_bytes s' = max_bytes s /\
    kept (max_bytes s) (entries s) (entries s') /\ total_bytes s' = total (entries s').
Proof.
  revert s. induction fuel as [|fuel IH]; intros s Hf Ht; [lia|]. cbn [evict_loop].
  case_decide as Hm.
  2:{ exists s. split_and!; [done..| |done]. exists []. rewrite app_nil_r. split_and!; [done|lia|done]. }
  destruct (lru_pop_lru_spec (lru s)) as [H1 H2]. fold (entries s) in *.
  destruct (lru_pop_lru (lru s)) as [o c]. simpl in H1, H2. unfold entries in *.
  destruct (lru_iter (lru s)) as [|e l _] eqn:Hl using rev_ind; [simpl in Ht; lia|].
  rewrite last_snoc in H1. subst o. rewrite removelast_snoc in H2. destruct e as [k v].
  rewrite length_app in Hf. rewrite total_app in Ht. simpl in Hf, Ht.
  destruct (IH (mkStore (max_bytes s) (saturating_sub_usize (total_bytes s) (bytes_of v)) c))
    as (s' & -> & Hmax & (ev & Hev & Hle & Hnext) & Ht'); simpl in *.
  - rewrite H2. lia.
  - rewrite H2, Ht. unfold saturating_sub_usize. lia.
  - exists s'. split_and!; [done..| |done]. exists (ev ++ [(k, v)]). rewrite H2 in Hev.
    rewrite Hev, app_assoc. split_and!; [done..|]. destruct ev as [|e ev]; simpl; [|done].
    rewrite app_nil_r in Hev. subst l. rewrite total_app. simpl. rewrite Hev in Ht. lia.
Qed.

(** What is stored afterwards. *)
Definition inserted (s : VirtualDocumentStore) (path : VfsPath) (text : str)
    (l : list (VfsPath * str)) : Prop :=
  if is_decompiled_path path then
    if decide (max_bytes s = 0%N \/ (max_bytes s < bytes_of text)%N) then l = without path (entries s)
    else kept (max_bytes s) ((path, text) :: without path (entries s)) l
  else l = entries s.

Lemma kept_wf max l k P : kept max l k -> Forall P l -> Forall P k.
Proof. intros (ev & -> & _) H. by apply Forall_app in H as [? _]. Qed.

Lemma insert_text_spec s path text :
  wf_store s ->
  exists s', insert_text s path text = Done s' /\ wf_store s' /\ max_bytes s' = max_bytes s /\
    inserted s path text (entries s').
Proof.
  intros [H1 H2 H3 H4]. unfold insert_text, inserted. destruct (is_decompiled_path path) eqn:Hp; simpl.
  2:{ by exists s. }
  pose proof (total_without path (entries s) (lru_nodup (lru s))) as Hw. case_decide as Hm.
  - destruct (lru_pop_spec (lru s) path) as [Hr He]. fold (entries s) in *.
    destruct (lru_pop (lru s) path) as [prev c]. simpl in Hr, He. rewrite <-Hr in Hw.
    destruct prev as [prev|]; (eexists; split; [done|]); unfold entries in *; simpl; (split; [|by split]);
      (split; simpl; unfold entries; simpl; rewrite ?He;
       [unfold saturating_sub_usize; lia|lia|done|by apply Forall_without]).
  - destruct (lru_put_spec (lru s) path text) as [Hr He]. fold (entries s) in *.
    destruct (lru_put (lru s) path text) as [prev c]. simpl in Hr, He. rewrite <-Hr in Hw.
    set (t := match prev with Some _ => _ | None => _ end).
    assert (Htot : t = total (without path (entries s))).
    { unfold t, saturating_sub_usize. destruct prev; lia. }
    set (s1 := mkStore (max_bytes s) (saturating_add_usize t (bytes_of text)) c).
    assert (He1 : entries s1 = (path, text) :: without path (entries s)) by done.
    destruct (evict_loop_spec (S (S (length (lru_iter c)))) s1) as (s' & Hev & Hmax & Hk & Ht').
    + unfold s1, entries. simpl. lia.
    + rewrite He1. simpl. rewrite Htot. unfold saturating_add_usize.
      assert (2 ^ 63 + 2 ^ 63 = 2 ^ 64)%N by done. lia.
    + exists s'. split; [exact Hev|]. rewrite He1 in Hk. simpl in Hk, Hmax.
      split; [|by split]. pose proof Hk as (ev & _ & Hle & _).
      split; [done|by rewrite Hmax|by rewrite Hmax|].
      eapply kept_wf; [exact Hk|]. constructor; [done|by apply Forall_without].
Qed.

Lemma assoc_without {V} k (l : list (VfsPath * V)) : assoc k (without k l) = None.
Proof.
  induction l as [|[k' v] l IH]; [done|]. unfold without. rewrite filter_cons. simpl.
  case_decide as Hk; fold (without k l); [|done]. simpl. by rewrite decide_False by congruence.
Qed.

(** A look-up changes the order of the documents, and nothing else. *)
Lemma get_text_spec s path :
  wf_store s ->
  exists s', get_text s path = ((if is_decompiled_path path then assoc path (entries s) else None), s') /\
    wf_store s' /\ max_bytes s' = max_bytes s /\ total (entries s') = total (entries s) /\
    entries s' = match (if is_decompiled_path path then assoc path (entries s) else None) with
                 | Some v => (path, v) :: without path (entries s)
                 | None => entries s
                 end.
Proof.
  intros Hwf. pose proof Hwf as [H1 H2 H3 H4]. unfold get_text.
  destruct (is_decompiled_path path) eqn:Hp; simpl; [|by exists s].
  destruct (lru_get_spec (lru s) path) as [Hr He]. fold (entries s) in *.
  destruct (lru_get (lru s) path) as [o c]. simpl in Hr, He. subst o.
  eexists. split; [done|]. unfold entries at 1 2 4. cbn [lru max_bytes total_bytes].
  pose proof (total_without path (entries s) (lru_nodup (lru s))) as Hw.
  assert (Ht : total (lru_iter c) = total (entries s)).
  { rewrite He. destruct (assoc path (entries s)) as [v|]; [simpl; lia|done]. }
  split_and!; [|done..]. split; unfold entries; cbn [lru max_bytes total_bytes]; [congruence|lia|done|].
  rewrite He. destruct (assoc path (entries s)) as [v|]; [|done].
  constructor; [done|by apply Forall_without].
Qed.

(** ** Layered reads *)

Context `{base : FileSystem}.

(** The text of a virtual path: the cached one, or that of the base file system if it has one. *)
Definition virtual_text (s : VirtualDocumentStore) (path : VfsPath) : io_result str :=
  if is_decompiled_path path then
    match assoc path (entries s) with
    | Some text => inr text
    | None =>
        if fs_exists path then
          match fs_read_to_string path with inl Unsupported => inl NotFound | r => r end
        else inl NotFound
    end
  else fs_read_to_string path.

Lemma read_to_string_spec s path :
  wf_store s ->
  exists s', vfs_read_to_string s path = Done (virtual_text s path, s') /\ wf_store s' /\
    virtual_text s' path = virtual_text s path.
Proof.
  intros Hwf. unfold vfs_read_to_string, virtual_text. destruct (is_decompiled_path path) eqn:Hp.
  2:{ by exists s. }
  destruct (get_text_spec s path Hwf) as (s1 & Hg & Hwf1 & _ & _ & He). rewrite Hp in Hg, He. rewrite Hg.
  destruct (assoc path (entries s)) as [v|] eqn:Ha.
  { exists s1. split_and!; [done..|]. rewrite He. simpl. by rewrite decide_True. }
  destruct (fs_exists path) eqn:Hx; simpl; [|exists s1; split_and!; [done..|]; by rewrite He, Ha].
  destruct (fs_read_to_string path) as [err|text] eqn:Hr.
  { destruct err; (exists s1; split_and!; [done..|]; by rewrite He, Ha). }
  destruct (insert_text_spec s1 path text Hwf1) as (s2 & -> & Hwf2 & _ & Hins). simpl. exists s2.
  split_and!; [done..|]. unfold inserted in Hins. rewrite Hp in Hins.
  case_decide as Hm; [by rewrite Hins, assoc_without|].
  destruct Hins as (ev & Hk & _). destruct (entries s2) as [|[k w] l]; [done|]. simpl in Hk. simplify_eq.
  simpl. by rewrite decide_True.
Qed.

(** The bytes of a path: those of the cached text, or of the base file system, which may have only
    the text. *)
Definition virtual_bytes (s : VirtualDocumentStore) (path : VfsPath) : io_result (list N) :=
  if is_decompiled_path path then
    match assoc path (entries s) with
    | Some text => inr (as_bytes text)
    | None =>
        if fs_exists path then
          match fs_read_bytes path with
          | inl Unsupported | inl InvalidData =>
              match fs_read_to_string path with
              | inr text => inr (as_bytes text)
              | inl Unsupported => inl NotFound
              | inl err => inl err
              end
          | r => r
          end
        else inl NotFound
    end
  else fs_read_bytes path.

(** After an insertion the path has the text, or has no text. *)
Lemma insert_assoc s path text s' :
  is_decompiled_path path = true -> inserted s path text (entries s') ->
  assoc path (entries s') = Some text \/ assoc path (entries s') = None.
Proof.
  intros Hp Hins. unfold inserted in Hins. rewrite Hp in Hins. case_decide as Hm.
  - right. rewrite Hins. apply assoc_without.
  - destruct Hins as (ev & Hk & _). destruct (entries s') as [|[k w] l]; [by right|].
    simpl in Hk. simplify_eq. left. simpl. by rewrite decide_True.
Qed.

Lemma vfs_read_bytes_spec s path :
  wf_store s ->
  exists s', vfs_read_bytes s path = Done (virtual_bytes s path, s') /\ wf_store s' /\
    virtual_bytes s' path = virtual_bytes s path.
Proof.
  intros Hwf. unfold vfs_read_bytes, virtual_bytes. destruct (is_decompiled_path path) eqn:Hp.
  2:{ by exists s. }
  destruct (get_text_spec s path Hwf) as (s1 & Hg & Hwf1 & _ & _ & He). rewrite Hp in Hg, He. rewrite Hg.
  destruct (assoc path (entries s)) as [v|] eqn:Ha.
  { exists s1. split_and!; [done..|]. rewrite He. simpl. by rewrite decide_True. }
  assert (Ha1 : assoc path (entries s1) = None) by (by rewrite He).
  destruct (fs_exists path) eqn:Hx; simpl; [|exists s1; split_and!; [done..|]; by rewrite Ha1].
  destruct (fs_read_bytes path) as [err|bytes] eqn:Hb.
  - case_decide as Hd; [|exists s1; rewrite Ha1; destruct err; split_and!; try done; tauto].
    destruct (fs_read_to_string path) as [err'|text] eqn:Hr.
    { destruct Hd as [-> | ->]; destruct err'; (exists s1; split_and!; [done..|]; by rewrite Ha1). }
    destruct (insert_text_spec s1 path text Hwf1) as (s2 & -> & Hwf2 & _ & Hins). simpl. exists s2.
    destruct (insert_assoc _ _ _ _ Hp Hins) as [-> | ->]; destruct Hd as [-> | ->]; by split_and!.
  - destruct (from_utf8 bytes) as [text|] eqn:Hu.
    + apply from_utf8_exact in Hu as [-> _].
      destruct (insert_text_spec s1 path text Hwf1) as (s2 & -> & Hwf2 & _ & Hins). simpl. exists s2.
      destruct (insert_assoc _ _ _ _ Hp Hins) as [-> | ->]; by split_and!.
    + simpl. exists s1. split_and!; [done..|]. by rewrite Ha1.
Qed.
End StoreFacts.

(** ** Theorems *)

Section Theorems.
Context `{crate : LruCrate VfsPath str} `{!LruLaws VfsPath str crate}.

(** The store of virtual documents keeps its budget.  [insert_text] returns (the eviction loop
    ends) and keeps the invariant: the recorded size is that of the stored texts, it is at most
    the budget, and only decompiled paths are stored.  The new document becomes the most recently
    used one, and of the documents, from the most recently used on, the longest list that fits the
    budget is kept.  A document larger than the budget is not stored, and drops the one it would
    replace. *)
Theorem virtual_store_budget (s : VirtualDocumentStore) path text :
  wf_store s ->
  exists s', insert_text s path text = Done s' /\ wf_store s' /\ max_bytes s' = max_bytes s /\
    (is_decompiled_path path = false -> s' = s) /\
    (is_decompiled_path path = true -> (0 < max_bytes s)%N -> (bytes_of text <= max_bytes s)%N ->
     kept (max_bytes s) ((path, text) :: without path (entries s)) (entries s') /\
     assoc path (entries s') = Some text) /\
    (is_decompiled_path path = true -> (max_bytes s < bytes_of text)%N ->
     entries s' = without path (entries s)).
Proof.
  intros Hwf. destruct (insert_text_spec s path text Hwf) as (s' & He & Hwf' & Hm & Hins).
  exists s'. split_and!; [done..| | |].
  - intros Hp. unfold insert_text in He. rewrite Hp in He. by injection He as ->.
  - intros Hp H0 Hb. unfold inserted in Hins. rewrite Hp, decide_False in Hins by lia.
    split; [done|]. destruct Hins as (ev & Hk & Hle & Hnext).
    destruct (entries s') as [|[k w] l]; simpl in Hk.
    + subst ev. simpl in Hnext. lia.
    + simplify_eq. simpl. by rewrite decide_True.
  - intros Hp Hb. unfold inserted in Hins. by rewrite Hp, decide_True in Hins by auto.
Qed.

(** Reads through [VirtualDocumentsFs], over any base file system, are layered and stable: a read
    of a decompiled path gives the cached text, or else what the base file system has, with
    [NotFound] for a path it does not have or does not support; any other path is read from the
    base.  A read keeps the invariant of the store, and what it caches or evicts does not change
    what the next read of the path gives. *)
Theorem virtual_reads_stable `{base : FileSystem} (s : VirtualDocumentStore) path :
  wf_store s ->
  (exists s', vfs_read_to_string s path = Done (virtual_text s path, s') /\ wf_store s' /\
     virtual_text s' path = virtual_text s path) /\
  (exists s', vfs_read_bytes s path = Done (virtual_bytes s path, s') /\ wf_store s' /\
     virtual_bytes s' path = virtual_bytes s path).
Proof. intros Hwf. split; [by apply read_to_string_spec|by apply vfs_read_bytes_spec]. Qed.
End Theorems.

(** ** Witnesses *)

(** A cache as a list of its entries. *)
Module ListLru.
Section ListLru.
Context {K V : Type} `{EqDecision K}.

(** The entries, most recently used first, with distinct keys. *)
Record cache := mk { items : list (K * V); distinct : bool_decide (NoDup items.*1) }.

Lemma nodup_without k (l : list (K * V)) : NoDup l.*1 -> NoDup (without k l).*1.
Proof.
  induction l as [|[k' v] l IH]; intros Hd; [done|]. simpl in Hd. apply NoDup_cons in Hd as [Hn Hd].
  unfold without. rewrite filter_cons. case_decide as Hk; fold (without k l); [|by apply IH].
  simpl. apply NoDup_cons. split; [|by apply IH]. intros Hin. apply Hn.
  apply list_elem_of_fmap in Hin as (e & -> & He). apply list_elem_of_filter in He as [_ He].
  by apply list_elem_of_fmap_2.
Qed.

Lemma not_in_without k (l : list (K * V)) : k ∉ (without k l).*1.
Proof.
  intros (e & -> & He)%list_elem_of_fmap. by apply list_elem_of_filter in He as [? _].
Qed.

Definition of_list (l : list (K * V)) (H : NoDup l.*1) : cache := mk l (bool_decide_pack _ H).

Lemma nodup c : NoDup (items c).*1.
Proof. apply (bool_decide_unpack _ (distinct c)). Qed.

Lemma nodup_front k v (l : list (K * V)) : NoDup l.*1 -> NoDup ((k, v) :: without k l).*1.
Proof. intros Hl. apply NoDup_cons. split; [apply not_in_without|by apply nodup_without]. Qed.

Lemma nodup_removelast (l : list (K * V)) : NoDup l.*1 -> NoDup (removelast l).*1.
Proof.
  destruct l as [|e l _] using rev_ind; [done|]. rewrite removelast_snoc, fmap_app.
  by intros [? _]%NoDup_app.
Qed.

Definition front (c : cache) (k : K) (v : V) : cache :=
  of_list ((k, v) :: without k (items c)) (nodup_front k v _ (nodup c)).
Definition remove (c : cache) (k : K) : cache :=
  of_list (without k (items c)) (nodup_without k _ (nodup c)).

Global Instance crate : LruCrate K V := {|
  LruCache := cache;
  lru_unbounded := of_list [] (NoDup_nil_2 (A := K));
  lru_put c k v := (assoc k (items c), front c k v);
  lru_get c k := (assoc k (items c), match assoc k (items c) with Some v => front c k v | None => c end);
  lru_pop c k := (assoc k (items c), remove c k);
  lru_pop_lru c := (list.last (items c), of_list (removelast (items c)) (nodup_removelast _ (nodup c)));
  lru_contains c k := bool_decide (is_Some (assoc k (items c)));
  lru_iter := items
|}.

Global Instance laws : LruLaws K V crate.
Proof.
  split; simpl; try done.
  - apply nodup.
  - intros c k. by destruct (assoc k (items c)).
  - intros c k. apply bool_decide_eq_true.
Qed.
End ListLru.
End ListLru.

Definition doc_path (name : string) : VfsPath := VfsPath.LegacyDecompiled name.

(** A store of at most three bytes that holds two documents. *)
Definition sample_store : VirtualDocumentStore :=
  mkStore 3 3 (ListLru.mk [(doc_path "B", [98; 98]); (doc_path "A", [97])]%N I).

Lemma sample_store_wf : wf_store sample_store.
Proof. split; vm_compute; try reflexivity; [discriminate|repeat constructor]. Qed.

Lemma virtual_store_budget_witness :
  exists s', insert_text sample_store (doc_path "C") [99]%N = Done s' /\ wf_store s' /\
    kept 3 [(doc_path "C", [99]); (doc_path "B", [98; 98]); (doc_path "A", [97])]%N (entries s').
Proof.
  destruct (virtual_store_budget sample_store (doc_path "C") [99]%N sample_store_wf)
    as (s' & He & Hwf & _ & _ & Hk & _).
  exists s'. split_and!; [exact He|exact Hwf|].
  destruct Hk as [Hk _]; [reflexivity|vm_compute; reflexivity|vm_compute; discriminate|exact Hk].
Defined.

(** A file system that has one decompiled file, as text only. *)
Definition one_file : FileSystem := {|
  Metadata := unit;
  fs_read_bytes _ := inl Unsupported;
  fs_read_to_string p := if decide (p = doc_path "D") then inr [100]%N else inl NotFound;
  fs_exists p := bool_decide (p = doc_path "D");
  fs_metadata _ := inl Unsupported;
  fs_read_dir _ := inl Unsupported
|}.

Lemma virtual_reads_stable_witness :
  exists s', vfs_read_bytes (base := one_file) sample_store (doc_path "D") = Done (inr [100]%N, s') /\
    virtual_bytes (base := one_file) s' (doc_path "D") = inr [100]%N.
Proof.
  destruct (virtual_reads_stable (base := one_file) sample_store (doc_path "D") sample_store_wf)
    as [_ (s' & He & _ & Hs)].
  exists s'. split; [exact He|]. rewrite Hs. vm_compute. reflexivity.
Defined.
