(* ===== verification/Vfs.v ===== *)
(** * The virtual file system (crates/nova-vfs/src: overlay_fs.rs, vfs.rs, change.rs)

    The overlay of open documents over a base file system, and the facade that combines it with
    the registry of file ids (FileIds.v), the store of virtual documents (VirtualDocs.v) and the
    set of open documents.  The operations are steps of a state machine: each runs to its end
    before the next one starts.  The invariant relates the components: the open set holds
    exactly the ids of the overlaid paths, and the recorded size of the overlay is that of its
    texts. *)

From stdpp Require Import base list numbers strings option gmap fin_maps sets relations.
From S2P Require Import Prelude Str Text Edit Document Utf8 FileIds VirtualDocs.

(** ** The overlay *)

Record OverlayDocs := mkOverlay {
  docs : gmap VfsPath Document;
  text_bytes : N
}.

Definition overlay_new : OverlayDocs := mkOverlay ∅ 0.

(** [doc.text().len()]. *)
Definition doc_bytes (d : Document) : N := bytes_of (doc_text d).

Definition open_arc (self : OverlayDocs) (path : VfsPath) (text : str) (version : Z)
    : run OverlayDocs :=
  doc ← document_new text version;
  let bytes :=
    match docs self !! path with
    | Some old => saturating_sub_usize (text_bytes self) (doc_bytes old)
    | None => text_bytes self
    end in
  Done (mkOverlay (<[path := doc]> (docs self)) (saturating_add_usize bytes (bytes_of text))).

Definition close (self : OverlayDocs) (path : VfsPath) : OverlayDocs :=
  match docs self !! path with
  | Some doc =>
      mkOverlay (delete path (docs self)) (saturating_sub_usize (text_bytes self) (doc_bytes doc))
  | None => self
  end.

(** The document moves, unless one is open at the destination: that one is kept. *)
Definition rename (self : OverlayDocs) (from to : VfsPath) : bool * OverlayDocs :=
  if decide (from = to) then (false, self)
  else
    match docs self !! from with
    | None => (false, self)
    | Some doc =>
        let m := delete from (docs self) in
        let bytes := saturating_sub_usize (text_bytes self) (doc_bytes doc) in
        match m !! to with
        | None => (true, mkOverlay (<[to := doc]> m) (saturating_add_usize bytes (doc_bytes doc)))
        | Some _ => (false, mkOverlay m bytes)
        end
    end.

Definition rename_overwrite (self : OverlayDocs) (from to : VfsPath) : OverlayDocs :=
  match docs self !! from with
  | None => self
  | Some doc =>
      let m := delete from (docs self) in
      let bytes := saturating_sub_usize (text_bytes self) (doc_bytes doc) in
      let bytes := saturating_add_usize bytes (doc_bytes doc) in
      mkOverlay (<[to := doc]> m)
        (match m !! to with
         | Some old => saturating_sub_usize bytes (doc_bytes old)
         | None => bytes
         end)
  end.

Definition is_open (self : OverlayDocs) (path : VfsPath) : bool :=
  bool_decide (is_Some (docs self !! path)).

Definition document_text (self : OverlayDocs) (path : VfsPath) : option str :=
  doc_text <$> docs self !! path.

Section OverlayChanges.
Context `{TextSizeCrate}.

Definition overlay_apply_changes (self : OverlayDocs) (path : VfsPath) (new_version : Z)
    (changes : list ContentChange) : run ((DocumentError + list TextEdit) * OverlayDocs) :=
  match docs self !! path with
  | None => Done (inl DocumentNotOpen, self)
  | Some doc =>
      '(result, doc') ← apply_changes doc new_version changes;
      let before := doc_bytes doc in
      let after := doc_bytes doc' in
      let bytes :=
        if decide (before <= after)%N then saturating_add_usize (text_bytes self) (after - before)
        else saturating_sub_usize (text_bytes self) (before - after) in
      Done (result, mkOverlay (<[path := doc']> (docs self)) bytes)
  end.
End OverlayChanges.

(** ** The facade *)

Section Vfs.
Context `{TextSizeCrate} `{crate : LruCrate VfsPath str} `{base : FileSystem}.

Record Vfs := mkVfs {
  overlay : OverlayDocs;
  ids : FileIdRegistry;
  open_docs : OpenDocuments;
  virtual_documents : VirtualDocumentStore
}.

(** [ChangeEvent::DocumentChanged]. *)
Record DocumentChanged := mkChanged {
  ev_file_id : FileId;
  ev_path : VfsPath;
  ev_version : Z;
  ev_edits : list TextEdit
}.

Definition DEFAULT_VIRTUAL_DOCUMENT_BUDGET_BYTES : N := 64 * 1024 * 1024.

Definition new_with_virtual_document_budget (max : N) : Vfs :=
  mkVfs overlay_new registry_new ∅ (store_new max).

Definition vfs_new : Vfs := new_with_virtual_document_budget DEFAULT_VIRTUAL_DOCUMENT_BUDGET_BYTES.

Definition estimated_bytes (self : Vfs) : N :=
  saturating_add_usize (text_bytes (overlay self)) (store_estimated_bytes (virtual_documents self)).

Definition vfs_file_id (self : Vfs) (path : VfsPath) : run (FileId * Vfs) :=
  '(id, reg) ← file_id (ids self) path;
  Done (id, mkVfs (overlay self) reg (open_docs self) (virtual_documents self)).

Definition vfs_get_id (self : Vfs) (path : VfsPath) : option FileId := get_id (ids self) path.
Definition path_for_id (self : Vfs) (id : FileId) : option VfsPath := get_path (ids self) id.

Definition vfs_rename_path (self : Vfs) (from to : VfsPath) : run (FileId * Vfs) :=
  let id_from := vfs_get_id self from in
  let from_open := is_open (overlay self) from in
  let ov := if from_open then (rename (overlay self) from to).2 else overlay self in
  '(id, reg) ← rename_path (ids self) from to;
  let od :=
    if from_open then
      let od := match id_from with
                | Some i => if decide (i <> id) then docs_close (open_docs self) i else open_docs self
                | None => open_docs self
                end in
      if is_open ov to then docs_open od id else od
    else open_docs self in
  Done (id, mkVfs ov reg od (virtual_documents self)).

Definition open_document_arc (self : Vfs) (path : VfsPath) (text : str) (version : Z)
    : run (FileId * Vfs) :=
  '(id, self) ← vfs_file_id self path;
  ov ← open_arc (overlay self) path text version;
  Done (id, mkVfs ov (ids self) (docs_open (open_docs self) id) (virtual_documents self)).

Definition store_virtual_document (self : Vfs) (path : VfsPath) (text : str) : run Vfs :=
  vd ← insert_text (virtual_documents self) path text;
  Done (mkVfs (overlay self) (ids self) (open_docs self) vd).

Definition open_document_text_arc (self : Vfs) (path : VfsPath) : option str :=
  document_text (overlay self) path.

Definition close_document (self : Vfs) (path : VfsPath) : Vfs :=
  let od := match vfs_get_id self path with
            | Some id => docs_close (open_docs self) id
            | None => open_docs self
            end in
  mkVfs (close (overlay self) path) (ids self) od (virtual_documents self).

Definition apply_document_changes (self : Vfs) (path : VfsPath) (new_version : Z)
    (changes : list ContentChange) : run ((DocumentError + DocumentChanged) * Vfs) :=
  '(id, self) ← vfs_file_id self path;
  '(r, ov) ← overlay_apply_changes (overlay self) path new_version changes;
  let self := mkVfs ov (ids self) (open_docs self) (virtual_documents self) in
  match r with
  | inl e => Done (inl e, self)
  | inr edits => Done (inr (mkChanged id path new_version edits), self)
  end.

(** [impl FileSystem for Vfs]: the overlay first, then the virtual documents over the base. *)
Definition with_store (self : Vfs) (vd : VirtualDocumentStore) : Vfs :=
  mkVfs (overlay self) (ids self) (open_docs self) vd.

Definition read_to_string (self : Vfs) (path : VfsPath) : run (io_result str * Vfs) :=
  match document_text (overlay self) path with
  | Some text => Done (inr text, self)
  | None =>
      '(r, vd) ← vfs_read_to_string (virtual_documents self) path; Done (r, with_store self vd)
  end.

Definition read_bytes (self : Vfs) (path : VfsPath) : run (io_result (list N) * Vfs) :=
  match document_text (overlay self) path with
  | Some text => Done (inr (as_bytes text), self)
  | None => '(r, vd) ← vfs_read_bytes (virtual_documents self) path; Done (r, with_store self vd)
  end.

Definition exists_ (self : Vfs) (path : VfsPath) : bool :=
  if is_open (overlay self) path then true else vfs_exists (virtual_documents self) path.

Definition vfs_all_file_ids (self : Vfs) : list FileId := all_file_ids (ids self).
End Vfs.

(** ** The overlay: the recorded size *)

Definition overlay_total (m : gmap VfsPath Document) : N :=
  map_fold (fun _ d n => (doc_bytes d + n)%N) 0%N m.

Lemma overlay_total_insert m p d :
  m !! p = None -> overlay_total (<[p := d]> m) = (doc_bytes d + overlay_total m)%N.
Proof. intros Hp. unfold overlay_total. rewrite map_fold_insert_L; [done| |done]. intros. lia. Qed.

Lemma overlay_total_delete m p d :
  m !! p = Some d -> overlay_total m = (doc_bytes d + overlay_total (delete p m))%N.
Proof.
  intros Hp. rewrite <-(insert_delete_id m p d Hp) at 1. apply overlay_total_insert, lookup_delete_eq.
Qed.

Lemma overlay_total_replace m p d :
  overlay_total (<[p := d]> m) = (doc_bytes d + overlay_total (delete p m))%N.
Proof. rewrite <-insert_delete_eq. apply overlay_total_insert, lookup_delete_eq. Qed.

(** The documents are well formed and of a size that [TextSize] can hold. *)
Definition doc_ok (d : Document) : Prop :=
  wf_document d /\ (N.of_nat (str_len (doc_text d)) < 2 ^ 32)%N.

Record wf_overlay (ov : OverlayDocs) : Prop := {
  wo_bytes : text_bytes ov = overlay_total (docs ov);
  wo_docs : map_Forall (fun _ d => doc_ok d) (docs ov);
  wo_fits : (text_bytes ov < 2 ^ 64)%N
}.

Lemma saturating_add_small x y : (x + y < 2 ^ 64)%N -> saturating_add_usize x y = (x + y)%N.
Proof. intros Hs. unfold saturating_add_usize. lia. Qed.

Section OverlayFacts.
Context (ov : OverlayDocs) (Hwf : wf_overlay ov).

Lemma doc_bytes_le p d : docs ov !! p = Some d -> (doc_bytes d <= text_bytes ov)%N.
Proof.
  intros Hp. rewrite (wo_bytes _ Hwf), (overlay_total_delete _ _ _ Hp). lia.
Qed.

(** The size without the document at a path. *)
Lemma bytes_without p :
  match docs ov !! p with
  | Some old => saturating_sub_usize (text_bytes ov) (doc_bytes old)
  | None => text_bytes ov
  end = overlay_total (delete p (docs ov)).
Proof.
  rewrite (wo_bytes _ Hwf). destruct (docs ov !! p) as [old|] eqn:Hp.
  - rewrite (overlay_total_delete _ _ _ Hp). unfold saturating_sub_usize. lia.
  - by rewrite delete_id.
Qed.

Lemma total_delete_le p : (overlay_total (delete p (docs ov)) <= text_bytes ov)%N.
Proof.
  rewrite (wo_bytes _ Hwf). destruct (docs ov !! p) as [old|] eqn:Hp.
  - rewrite (overlay_total_delete _ _ _ Hp). lia.
  - by rewrite delete_id.
Qed.

Lemma wf_replace p d bytes :
  doc_ok d -> (overlay_total (delete p (docs ov)) + doc_bytes d < 2 ^ 64)%N ->
  bytes = (overlay_total (delete p (docs ov)) + doc_bytes d)%N ->
  wf_overlay (mkOverlay (<[p := d]> (docs ov)) bytes).
Proof.
  intros Hd Hs ->. split; simpl; [rewrite overlay_total_replace; lia| |lia].
  apply map_Forall_insert_2; [done|]. apply Hwf.
Qed.

Lemma wf_remove p bytes :
  bytes = overlay_total (delete p (docs ov)) -> wf_overlay (mkOverlay (delete p (docs ov)) bytes).
Proof.
  intros ->. pose proof (total_delete_le p). pose proof (wo_fits _ Hwf). split; simpl; [done| |lia].
  apply map_Forall_delete, Hwf.
Qed.

Lemma open_arc_spec path text version :
  (N.of_nat (str_len text) < 2 ^ 32)%N -> (text_bytes ov + bytes_of text < 2 ^ 64)%N ->
  exists ov', open_arc ov path text version = Done ov' /\ wf_overlay ov' /\
    docs ov' = <[path := mkDocument text version (starts_of text)]> (docs ov).
Proof.
  intros Ht Hs. unfold open_arc, document_new. rewrite compute_line_offsets_spec. simpl.
  rewrite bytes_without. pose proof (total_delete_le path). eexists. split_and!; [done| |done].
  apply wf_replace; [done|..]; unfold doc_bytes; simpl; [lia|]. by rewrite saturating_add_small by lia.
Qed.

Lemma close_spec path :
  wf_overlay (close ov path) /\ docs (close ov path) = delete path (docs ov).
Proof.
  pose proof (bytes_without path) as Hb. unfold close. destruct (docs ov !! path) as [d|] eqn:Hp.
  - split; [|done]. by apply wf_remove.
  - split; [done|]. by rewrite delete_id.
Qed.

Lemma rename_spec from to :
  wf_overlay (rename ov from to).2 /\
  docs (rename ov from to).2 =
  match docs ov !! from with
  | Some d => if decide (from = to) then docs ov
              else match docs ov !! to with
                   | Some _ => delete from (docs ov)
                   | None => <[to := d]> (delete from (docs ov))
                   end
  | None => docs ov
  end.
Proof.
  unfold rename. destruct (decide (from = to)) as [->|Hne].
  { split; [done|]. by destruct (docs ov !! to). }
  destruct (docs ov !! from) as [d|] eqn:Hf; [|done].
  pose proof (bytes_without from) as Hb. rewrite Hf in Hb.
  pose proof (wf_remove from _ Hb) as Hwf'. rewrite lookup_delete_ne by done.
  destruct (docs ov !! to) as [d'|] eqn:Ht; simpl; [done|]. split; [|done].
  pose proof (overlay_total_delete _ _ _ Hf) as Htot. pose proof (wo_bytes _ Hwf). pose proof (wo_fits _ Hwf).
  rewrite Hb. rewrite saturating_add_small by lia. split; simpl; [|by apply map_Forall_insert_2; [eapply Hwf|apply Hwf']|lia].
  rewrite overlay_total_insert; [lia|]. by rewrite lookup_delete_ne.
Qed.

(** The moved document replaces the one at the destination. *)
Lemma rename_overwrite_spec from to :
  wf_overlay (rename_overwrite ov from to) /\
  docs (rename_overwrite ov from to) =
  match docs ov !! from with Some d => <[to := d]> (delete from (docs ov)) | None => docs ov end.
Proof.
  unfold rename_overwrite. destruct (docs ov !! from) as [d|] eqn:Hf; [|done].
  pose proof (bytes_without from) as Hb. rewrite Hf in Hb. rewrite Hb. split; [|done].
  pose proof (overlay_total_delete _ _ _ Hf) as Htot. pose proof (wo_bytes _ Hwf). pose proof (wo_fits _ Hwf).
  pose proof (wf_remove from _ Hb) as Hwf'. rewrite saturating_add_small by lia.
  assert (Hd : doc_ok d) by (eapply Hwf, Hf).
  split; simpl.
  - rewrite overlay_total_replace. destruct (delete from (docs ov) !! to) as [old|] eqn:Ht.
    + rewrite (overlay_total_delete (delete from _) _ _ Ht) at 1. unfold saturating_sub_usize. lia.
    + rewrite (delete_id (delete from (docs ov)) to Ht). lia.
  - by apply map_Forall_insert_2; [|apply Hwf'].
  - destruct (delete from (docs ov) !! to); unfold saturating_sub_usize; lia.
Qed.
End OverlayFacts.

Section OverlayBatch.
Context `{TextSizeLaws} (ov : OverlayDocs) (Hwf : wf_overlay ov).

(** What a batch of changes does to an open document, failing or not. *)
Lemma overlay_apply_spec path d v cs :
  docs ov !! path = Some d ->
  (N.of_nat (str_len (doc_text d) + new_bytes cs) < 2 ^ 32)%N ->
  (text_bytes ov + N.of_nat (new_bytes cs) < 2 ^ 64)%N ->
  exists r d' ov', overlay_apply_changes ov path v cs = Done (r, ov') /\ wf_overlay ov' /\
    batch_result d v cs r d' /\ docs ov' = <[path := d']> (docs ov).
Proof.
  intros Hp Hsmall Hroom. destruct (wo_docs _ Hwf _ _ Hp) as [Hd _].
  unfold overlay_apply_changes. rewrite Hp.
  destruct (apply_changes_spec d v cs Hd Hsmall) as (r & d' & -> & Hd' & Hr). simpl.
  exists r, d'. eexists. split_and!; [done| |done..]. apply batch_result_len in Hr as Hlen.
  pose proof (overlay_total_delete _ _ _ Hp) as Htot. pose proof (wo_bytes _ Hwf) as Hb.
  assert (Hle : (doc_bytes d' <= doc_bytes d + N.of_nat (new_bytes cs))%N) by (unfold doc_bytes, bytes_of; lia).
  apply wf_replace; [done|split; [done|lia]|lia|]. case_decide.
  - rewrite saturating_add_small by lia. lia.
  - unfold saturating_sub_usize. lia.
Qed.
End OverlayBatch.

(** ** The invariant of the facade *)

#[local] Arguments op_id : simpl never.

Section VfsFacts.
Context `{TextSizeLaws} `{crate : LruCrate VfsPath str} `{!LruLaws VfsPath str crate} `{base : FileSystem}.

(** The id of an open document. *)
Definition open_id (v : Vfs) (j : FileId) : Prop :=
  exists p d, docs (overlay v) !! p = Some d /\ get_id (ids v) p = Some j.

Record wf_vfs (v : Vfs) : Prop := {
  wv_overlay : wf_overlay (overlay v);
  wv_ids : wf_registry (ids v);
  wv_store : wf_store (virtual_documents v);
  wv_known : forall p d, docs (overlay v) !! p = Some d -> exists j, get_id (ids v) p = Some j;
  wv_open : forall j, j ∈ open_docs v <-> open_id v j
}.

(** A rename of an open document: its id leaves the open set and that of the destination joins. *)
Lemma rename_open_set v r' from to d i :
  wf_vfs v -> docs (overlay v) !! from = Some d -> get_id (ids v) from = Some i -> from <> to ->
  registry_step (ids v) r' (OpRename from to) (op_id (ids v) (OpRename from to)) ->
  forall m : gmap VfsPath Document, (forall p, is_Some (m !! p) <-> p = to \/ (p <> from /\ is_Some (docs (overlay v) !! p))) ->
  forall j, j = op_id (ids v) (OpRename from to) \/ (j ∈ open_docs v /\ j <> i) <->
    exists p e, m !! p = Some e /\ get_id r' p = Some j.
Proof.
  intros [Hov Hids _ Hk Hopen] Hd Hi Hne Hs m Hm j. set (id := op_id _ _) in *.
  assert (Hto : get_id r' to = Some id) by apply (rs_target _ _ _ _ Hs).
  assert (Hoth : forall q, q <> to -> q <> from -> get_id r' q = get_id (ids v) q).
  { intros q H1 H2. apply (rs_others _ _ _ _ Hs); simpl; congruence. }
  assert (Hid : get_id (ids v) to = Some id \/ id = i).
  { unfold id, op_id. rewrite Hi, decide_False by done.
    unfold get_id. simpl. destruct (path_to_id (ids v) !! to); auto. }
  split.
  - intros [->|[Hj Hji]].
    + destruct (proj2 (Hm to) (or_introl eq_refl)) as [e He]. by exists to, e.
    + apply Hopen in Hj as (p & e & Hp & Hpj). assert (Hpf : p <> from) by congruence.
      destruct (proj2 (Hm p)) as [e' He']; [right; eauto|]. exists p, e'. split; [done|].
      destruct (decide (p = to)) as [->|Hpt]; [|by rewrite Hoth].
      rewrite Hto. destruct Hid as [Hid|Hid]; [congruence|].
      exfalso. apply Hji. unfold id, op_id in Hid. rewrite Hi, decide_False, Hpj in Hid by done. done.
  - intros (p & e & Hp & Hpj). destruct (proj1 (Hm p) ltac:(eauto)) as [->|[Hpf [e' He']]]; [left; congruence|].
    destruct (decide (p = to)) as [->|Hpt]; [left; congruence|]. right.
    rewrite Hoth in Hpj by done. split; [apply Hopen; by exists p, e'|]. intros ->.
    apply Hpf. by eapply (wf_inj _ Hids).
Qed.

(** All 2^32 ids are taken. *)
Definition full_registry (v : Vfs) : Prop := (2 ^ 32 <= N.of_nat (length (id_to_path (ids v))))%N.

(** Open documents keep their ids when other paths change theirs. *)
Lemma wf_ids_change v r' :
  wf_vfs v -> wf_registry r' ->
  (forall p d, docs (overlay v) !! p = Some d -> get_id r' p = get_id (ids v) p) ->
  wf_vfs (mkVfs (overlay v) r' (open_docs v) (virtual_documents v)).
Proof.
  intros [Hov Hids Hst Hk Hopen] Hr Hsame. split; simpl; [done..| |].
  - intros p d Hp. rewrite (Hsame _ _ Hp). by eapply Hk.
  - intros j. rewrite Hopen. unfold open_id. simpl.
    split; intros (p & d & Hp & Hj); exists p, d; (split; [done|]); [by rewrite (Hsame _ _ Hp)|by rewrite <-(Hsame _ _ Hp)].
Qed.

Lemma vfs_file_id_spec v p :
  wf_vfs v ->
  (exists id r', vfs_file_id v p = Done (id, mkVfs (overlay v) r' (open_docs v) (virtual_documents v)) /\
     wf_vfs (mkVfs (overlay v) r' (open_docs v) (virtual_documents v)) /\
     get_id r' p = Some id /\ forall j, get_id (ids v) p = Some j -> id = j) \/
  (vfs_file_id v p = Panic /\ full_registry v).
Proof.
  intros Hwf. pose proof Hwf as [Hov Hids Hst Hk Hopen]. unfold vfs_file_id.
  destruct (registry_run_step (ids v) (OpFileId p) Hids) as [(r' & He & Hs)|[He Hf]]; simpl in He; rewrite He.
  2:{ by right. }
  left. exists (op_id (ids v) (OpFileId p)), r'. split; [done|].
  assert (Hid : forall j, get_id (ids v) p = Some j -> op_id (ids v) (OpFileId p) = j).
  { intros j Hj. unfold op_id. simpl. by rewrite Hj. }
  split_and!; [|apply (rs_target _ _ _ _ Hs)|done].
  apply wf_ids_change; [done|apply Hs|]. intros q d Hq. destruct (decide (q = p)) as [->|Hne].
  - destruct (Hk _ _ Hq) as [j Hj]. rewrite Hj, <-(Hid j Hj). apply (rs_target _ _ _ _ Hs).
  - by apply (rs_others _ _ _ _ Hs).
Qed.

Lemma open_document_spec v p text version :
  wf_vfs v -> (N.of_nat (str_len text) < 2 ^ 32)%N ->
  (text_bytes (overlay v) + bytes_of text < 2 ^ 64)%N ->
  (exists id v', open_document_arc v p text version = Done (id, v') /\ wf_vfs v' /\
     get_id (ids v') p = Some id /\
     docs (overlay v') = <[p := mkDocument text version (starts_of text)]> (docs (overlay v))) \/
  (open_document_arc v p text version = Panic /\ full_registry v).
Proof.
  intros Hwf Ht Hs. unfold open_document_arc.
  destruct (vfs_file_id_spec v p Hwf) as [(id & r' & -> & Hwf1 & Hid & _)|[-> Hf]]; [|by right].
  left. rewrite bind_Done_l. cbn [overlay ids open_docs virtual_documents].
  destruct (open_arc_spec (overlay v) (wv_overlay _ Hwf) p text version Ht Hs) as (ov' & -> & Hov & Hd).
  eexists _, _. simpl. split_and!; [done| |done|done].
  destruct Hwf1 as [_ Hids Hst Hk Hopen]. simpl in *. split; simpl; [done..| |].
  - intros q d. rewrite Hd. destruct (decide (q = p)) as [->|Hq]; [eauto|].
    rewrite lookup_insert_ne by done. apply Hk.
  - intros j. unfold docs_open. rewrite elem_of_union, elem_of_singleton, Hopen. unfold open_id. simpl.
    rewrite Hd. split.
    + intros [->|(q & d & Hq & Hj)].
      * eexists p, _. split; [apply lookup_insert_eq|done].
      * destruct (decide (q = p)) as [->|Hne]; [eexists p, _; split; [apply lookup_insert_eq|done]|].
        exists q, d. by rewrite lookup_insert_ne.
    + intros (q & d & Hq & Hj). destruct (decide (q = p)) as [->|Hne]; [left; congruence|].
      rewrite lookup_insert_ne in Hq by done. right. by exists q, d.
Qed.

Lemma close_document_spec v p : wf_vfs v -> wf_vfs (close_document v p).
Proof.
  intros Hwf. pose proof Hwf as [Hov Hids Hst Hk Hopen].
  destruct (close_spec (overlay v) Hov p) as [Hov' Hd]. unfold close_document. split; simpl; [done..| |].
  - intros q d. rewrite Hd. intros [_ Hq]%lookup_delete_Some. by eapply Hk.
  - intros j. unfold open_id. simpl. rewrite Hd. unfold vfs_get_id.
    setoid_rewrite lookup_delete_Some. destruct (get_id (ids v) p) as [i|] eqn:Hi.
    + unfold docs_close. rewrite elem_of_difference, elem_of_singleton, Hopen. unfold open_id. split.
      * intros [(q & d & Hq & Hj) Hne]. exists q, d. split_and!; [congruence|done|done].
      * intros (q & d & [Hne Hq] & Hj). split; [by exists q, d|]. intros ->. apply Hne.
        by eapply (wf_inj _ Hids).
    + rewrite Hopen. unfold open_id. split; intros (q & d & Hq & Hj); exists q, d; [|naive_solver].
      split_and!; [|done|done]. intros ->. congruence.
Qed.

Lemma store_virtual_spec v p text :
  wf_vfs v -> exists v', store_virtual_document v p text = Done v' /\ wf_vfs v' /\ overlay v' = overlay v.
Proof.
  intros Hwf. unfold store_virtual_document.
  destruct (insert_text_spec (virtual_documents v) p text (wv_store _ Hwf)) as (s' & -> & Hs & _).
  simpl. eexists. split_and!; [done| |done]. by destruct Hwf; split.
Qed.

Lemma is_open_true ov p d : docs ov !! p = Some d -> is_open ov p = true.
Proof. intros Hp. apply bool_decide_eq_true. by exists d. Qed.

Lemma is_open_false ov p : docs ov !! p = None -> is_open ov p = false.
Proof. intros Hp. apply bool_decide_eq_false. rewrite Hp. by intros [? ?]. Qed.

(** The paths that are open after a rename. *)
Lemma renamed_open ov from to d :
  wf_overlay ov -> docs ov !! from = Some d -> from <> to ->
  forall p, is_Some (docs (rename ov from to).2 !! p) <-> p = to \/ (p <> from /\ is_Some (docs ov !! p)).
Proof.
  intros Hov Hf Hne p. destruct (rename_spec ov Hov from to) as [_ ->]. rewrite Hf, decide_False by done.
  destruct (docs ov !! to) as [e|] eqn:Ht.
  - destruct (decide (p = from)) as [->|Hp]; [rewrite lookup_delete_eq; split; [by intros [? ?]|naive_solver]|].
    rewrite lookup_delete_ne by done. split; [auto|]. intros [->|[_ ?]]; [by exists e|done].
  - destruct (decide (p = to)) as [->|Hp]; [rewrite lookup_insert_eq; split; [by left|by eexists]|].
    rewrite lookup_insert_ne by done. destruct (decide (p = from)) as [->|Hpf].
    + rewrite lookup_delete_eq. split; [by intros [? ?]|naive_solver].
    + rewrite lookup_delete_ne by done. naive_solver.
Qed.

(** The open set that [rename_path] computes. *)
Lemma renamed_set (od : OpenDocuments) (i id j : FileId) :
  j ∈ docs_open (if decide (i <> id) then docs_close od i else od) id <-> j = id \/ (j ∈ od /\ j <> i).
Proof.
  unfold docs_open, docs_close. rewrite elem_of_union, elem_of_singleton.
  case_decide as Hd; [by rewrite elem_of_difference, elem_of_singleton|].
  subst i. destruct (decide (j = id)) as [->|]; naive_solver.
Qed.

Lemma rename_closed v r' from to :
  wf_vfs v -> docs (overlay v) !! from = None ->
  registry_step (ids v) r' (OpRename from to) (op_id (ids v) (OpRename from to)) ->
  wf_vfs (mkVfs (overlay v) r' (open_docs v) (virtual_documents v)).
Proof.
  intros Hwf Hf Hs. apply wf_ids_change; [done|apply Hs|]. intros p d Hp.
  assert (Hpf : p <> from) by congruence. destruct (decide (p = to)) as [->|Hpt].
  - destruct (wv_known _ Hwf _ _ Hp) as [j Hj]. rewrite Hj.
    pose proof (rs_target _ _ _ _ Hs) as Ht. simpl in Ht. rewrite Ht. f_equal. unfold op_id. simpl.
    rewrite Hj. simpl. destruct (get_id (ids v) from); [|done]. by rewrite decide_False by congruence.
  - apply (rs_others _ _ _ _ Hs); simpl; congruence.
Qed.

Lemma rename_path_spec v from to :
  wf_vfs v ->
  (exists id v', vfs_rename_path v from to = Done (id, v') /\ wf_vfs v' /\
     get_id (ids v') to = Some id /\ docs (overlay v') = docs (rename (overlay v) from to).2) \/
  (vfs_rename_path v from to = Panic /\ full_registry v).
Proof.
  intros Hwf. pose proof Hwf as [Hov Hids Hst Hk Hopen]. unfold vfs_rename_path.
  destruct (registry_run_step (ids v) (OpRename from to) Hids) as [(r' & He & Hs)|[He Hf]]; simpl in He; rewrite He.
  2:{ by right. }
  left. rewrite bind_Done_l. pose proof (rs_target _ _ _ _ Hs) as Hto. simpl in Hto.
  destruct (rename_spec (overlay v) Hov from to) as [Hov' Hd]. eexists _, _. split; [done|].
  destruct (docs (overlay v) !! from) as [d|] eqn:Hfrom.
  2:{ rewrite (is_open_false _ _ Hfrom). split_and!; [by apply (rename_closed v r' from to)|done|by rewrite Hd]. }
  rewrite (is_open_true _ _ _ Hfrom). destruct (Hk _ _ Hfrom) as [i Hi]. unfold vfs_get_id. rewrite Hi.
  assert (Hisopen : is_open (rename (overlay v) from to).2 to = true).
  { apply bool_decide_eq_true. destruct (decide (from = to)) as [->|Hne].
    - rewrite Hd. eauto.
    - apply (renamed_open _ _ _ d Hov Hfrom Hne). by left. }
  rewrite Hisopen. split_and!; [|done|done].
  assert (Hfam : forall j, j ∈ docs_open (if decide (i <> op_id (ids v) (OpRename from to))
      then docs_close (open_docs v) i else open_docs v) (op_id (ids v) (OpRename from to)) <->
    exists p e, docs (rename (overlay v) from to).2 !! p = Some e /\ get_id r' p = Some j).
  { intros j. rewrite renamed_set. destruct (decide (from = to)) as [->|Hne].
    - rewrite Hd. assert (Hid : op_id (ids v) (OpRename to to) = i).
      { unfold op_id. by rewrite Hi, decide_True. }
      rewrite Hid in *.
      assert (Hsame : forall p, get_id r' p = get_id (ids v) p).
      { intros p. destruct (decide (p = to)) as [->|Hp]; [congruence|].
        apply (rs_others _ _ _ _ Hs); simpl; congruence. }
      setoid_rewrite Hsame. rewrite Hopen. split; [|destruct (decide (j = i)) as [->|]; auto].
      intros [->|[? _]]; [by exists to, d|done].
    - eapply rename_open_set; try done. by eapply renamed_open. }
  split; simpl; [done|apply Hs|done| |exact Hfam].
  intros p e Hp. destruct (decide (p = to)) as [->|Hpt]; [by eexists|].
  destruct (decide (from = to)) as [->|Hne].
  - rewrite Hd in Hp. destruct (Hk _ _ Hp) as [j Hj]. exists j. rewrite <-Hj.
    apply (rs_others _ _ _ _ Hs); simpl; congruence.
  - destruct (proj1 (renamed_open _ _ _ _ Hov Hfrom Hne p) ltac:(eauto)) as [?|[Hpf [e' He']]]; [done|].
    destruct (Hk _ _ He') as [j Hj]. exists j. rewrite <-Hj. apply (rs_others _ _ _ _ Hs); simpl; congruence.
Qed.

(** A document that changes its text stays open. *)
Lemma wf_doc_change v p d d' ov' :
  wf_vfs v -> wf_overlay ov' -> docs (overlay v) !! p = Some d ->
  docs ov' = <[p := d']> (docs (overlay v)) ->
  wf_vfs (mkVfs ov' (ids v) (open_docs v) (virtual_documents v)).
Proof.
  intros [Hov Hids Hst Hk Hopen] Hov' Hp Hd. split; simpl; [done..| |].
  - intros q e. rewrite Hd. destruct (decide (q = p)) as [->|Hq]; [intros _; by eapply Hk|].
    rewrite lookup_insert_ne by done. apply Hk.
  - intros j. rewrite Hopen. unfold open_id. simpl. rewrite Hd.
    split; intros (q & e & Hq & Hj); destruct (decide (q = p)) as [->|Hne].
    + eexists p, d'. split; [apply lookup_insert_eq|done].
    + exists q, e. by rewrite lookup_insert_ne.
    + by exists p, d.
    + rewrite lookup_insert_ne in Hq by done. by exists q, e.
Qed.

(** What a batch of changes to an open document does: the document's changes and the event. *)
Definition applied_to (v v' : Vfs) (p : VfsPath) (version : Z) (cs : list ContentChange) (d : Document)
    (r : DocumentError + DocumentChanged) : Prop :=
  exists r0 d', batch_result d version cs r0 d' /\
    docs (overlay v') = <[p := d']> (docs (overlay v)) /\
    match r0 with
    | inl e => r = inl e
    | inr edits => exists id, vfs_get_id v p = Some id /\ vfs_get_id v' p = Some id /\
        r = inr (mkChanged id p version edits)
    end.

Lemma apply_document_spec v p version cs :
  wf_vfs v ->
  (forall d, docs (overlay v) !! p = Some d ->
     (N.of_nat (str_len (doc_text d) + new_bytes cs) < 2 ^ 32)%N) ->
  (text_bytes (overlay v) + N.of_nat (new_bytes cs) < 2 ^ 64)%N ->
  (exists r v', apply_document_changes v p version cs = Done (r, v') /\ wf_vfs v' /\
     match docs (overlay v) !! p with
     | None => r = inl DocumentNotOpen /\ docs (overlay v') = docs (overlay v)
     | Some d => applied_to v v' p version cs d r
     end) \/
  (apply_document_changes v p version cs = Panic /\ full_registry v).
Proof.
  intros Hwf Hsmall Hroom. unfold apply_document_changes.
  destruct (vfs_file_id_spec v p Hwf) as [(id & r' & -> & Hwf1 & Hid & Hsame)|[-> Hf]]; [|by right].
  left. rewrite bind_Done_l. cbn [overlay ids open_docs virtual_documents].
  destruct (docs (overlay v) !! p) as [d|] eqn:Hp.
  - destruct (overlay_apply_spec (overlay v) (wv_overlay _ Hwf) p d version cs Hp (Hsmall d eq_refl) Hroom)
      as (r0 & d' & ov' & -> & Hov & Hap & Hd). rewrite bind_Done_l. cbv zeta.
    pose proof (wf_doc_change _ p d d' ov' Hwf1 Hov Hp Hd) as Hwf2. simpl in Hwf2.
    destruct (wv_known _ Hwf _ _ Hp) as [j Hj]. destruct r0 as [e|edits];
      eexists _, _; (split; [done|]); (split; [exact Hwf2|]); eexists _, d'; (split_and!; [done..|]); [done|].
    exists id. split_and!; [|done..]. unfold vfs_get_id. by rewrite (Hsame j Hj).
  - unfold overlay_apply_changes. rewrite Hp. simpl. eexists _, _. split; [done|].
    split; [exact Hwf1|done].
Qed.

(** The text of a path as a read gives it. *)
Definition text_of (v : Vfs) (path : VfsPath) : io_result str :=
  match docs (overlay v) !! path with
  | Some d => inr (doc_text d)
  | None => virtual_text (virtual_documents v) path
  end.

Lemma wf_with_store v vd : wf_vfs v -> wf_store vd -> wf_vfs (with_store v vd).
Proof. intros [] Hs. by split. Qed.

Lemma read_to_string_layered v path :
  wf_vfs v ->
  exists v', read_to_string v path = Done (text_of v path, v') /\ wf_vfs v' /\
    overlay v' = overlay v /\ text_of v' path = text_of v path.
Proof.
  intros Hwf. unfold read_to_string, text_of, document_text.
  destruct (docs (overlay v) !! path) as [d|] eqn:Hp; simpl; [exists v; by rewrite Hp|].
  destruct (read_to_string_spec (virtual_documents v) path (wv_store _ Hwf)) as (s' & -> & Hs & Hsame).
  simpl. eexists. split; [done|]. split_and!; [by apply wf_with_store|done|]. simpl. by rewrite Hp.
Qed.

Lemma read_bytes_wf v path :
  wf_vfs v -> exists r v', read_bytes v path = Done (r, v') /\ wf_vfs v'.
Proof.
  intros Hwf. unfold read_bytes. destruct (document_text (overlay v) path) as [t|]; [by eexists _, _|].
  destruct (vfs_read_bytes_spec (virtual_documents v) path (wv_store _ Hwf)) as (s' & -> & Hs & _).
  simpl. eexists _, _. split; [done|]. by apply wf_with_store.
Qed.

(** ** The state machine *)

Inductive vfs_op :=
| VFileId (path : VfsPath)
| VRename (from to : VfsPath)
| VOpen (path : VfsPath) (text : str) (version : Z)
| VStore (path : VfsPath) (text : str)
| VClose (path : VfsPath)
| VApply (path : VfsPath) (version : Z) (changes : list ContentChange)
| VRead (path : VfsPath)
| VReadBytes (path : VfsPath).

Definition vfs_run (v : Vfs) (op : vfs_op) : run Vfs :=
  match op with
  | VFileId p => snd <$> vfs_file_id v p
  | VRename from to => snd <$> vfs_rename_path v from to
  | VOpen p text version => snd <$> open_document_arc v p text version
  | VStore p text => store_virtual_document v p text
  | VClose p => Done (close_document v p)
  | VApply p version cs => snd <$> apply_document_changes v p version cs
  | VRead p => snd <$> read_to_string v p
  | VReadBytes p => snd <$> read_bytes v p
  end.

(** The texts fit: a document is below 4 GiB, the documents together below 2^64 bytes. *)
Definition op_fits (v : Vfs) (op : vfs_op) : Prop :=
  match op with
  | VOpen _ text _ => (N.of_nat (str_len text) < 2 ^ 32)%N /\
      (text_bytes (overlay v) + bytes_of text < 2 ^ 64)%N
  | VApply p _ cs =>
      (forall d, docs (overlay v) !! p = Some d ->
         (N.of_nat (str_len (doc_text d) + new_bytes cs) < 2 ^ 32)%N) /\
      (text_bytes (overlay v) + N.of_nat (new_bytes cs) < 2 ^ 64)%N
  | _ => True
  end.

Definition vfs_step (v v' : Vfs) : Prop := exists op, op_fits v op /\ vfs_run v op = Done v'.

Lemma vfs_run_wf v op :
  wf_vfs v -> op_fits v op ->
  (exists v', vfs_run v op = Done v' /\ wf_vfs v') \/ (vfs_run v op = Panic /\ full_registry v).
Proof.
  intros Hwf Hfits. destruct op as [p|from to|p text n|p text|p|p n cs|p|p]; simpl in *.
  - destruct (vfs_file_id_spec v p Hwf) as [(id & r' & -> & Hwf' & _)|[-> Hf]]; [left; eauto|by right].
  - destruct (rename_path_spec v from to Hwf) as [(id & v' & -> & Hwf' & _)|[-> Hf]]; [left; eauto|by right].
  - destruct Hfits as [H1 H2].
    destruct (open_document_spec v p text n Hwf H1 H2) as [(id & v' & -> & Hwf' & _)|[-> Hf]]; [left; eauto|by right].
  - left. destruct (store_virtual_spec v p text Hwf) as (v' & -> & Hwf' & _). eauto.
  - left. eexists. split; [done|]. by apply close_document_spec.
  - destruct Hfits as [H1 H2].
    destruct (apply_document_spec v p n cs Hwf H1 H2) as [(r & v' & -> & Hwf' & _)|[-> Hf]]; [left; eauto|by right].
  - left. destruct (read_to_string_layered v p Hwf) as (v' & -> & Hwf' & _). eauto.
  - left. destruct (read_bytes_wf v p Hwf) as (r & v' & -> & Hwf'). eauto.
Qed.

Lemma wf_vfs_new max : (max < 2 ^ 63)%N -> wf_vfs (new_with_virtual_document_budget max).
Proof.
  intros Hm. split; simpl.
  - split; simpl; [done|apply map_Forall_empty|done].
  - apply wf_new.
  - split; unfold entries; simpl; rewrite ?lru_unbounded_spec; simpl; [done|lia|done|constructor].
  - intros p d Hp. by rewrite lookup_empty in Hp.
  - intros j. rewrite elem_of_empty. unfold open_id. simpl.
    split; [done|]. intros (p & d & Hp & _). by rewrite lookup_empty in Hp.
Qed.

Definition vfs_reachable (max : N) (v : Vfs) : Prop :=
  rtc vfs_step (new_with_virtual_document_budget max) v.

Lemma vfs_reachable_wf max v : (max < 2 ^ 63)%N -> vfs_reachable max v -> wf_vfs v.
Proof.
  intros Hm. revert v. apply rtc_ind_r; [by apply wf_vfs_new|].
  intros v1 v2 _ (op & Hfits & Hop) IH.
  destruct (vfs_run_wf v1 op IH Hfits) as [(v' & He & Hwf)|[He _]]; congruence.
Qed.

(** ** The abstract file system: the texts of the open documents *)

Definition open_texts (v : Vfs) : gmap VfsPath str := doc_text <$> docs (overlay v).

(** The text that a batch of changes leaves: all of them are applied, or the ones before the first
    whose end is before its start. *)
Definition edited (text : str) (cs : list ContentChange) (out : str) : Prop :=
  exists done_ rest es, cs = done_ ++ rest /\ batch text done_ es out /\
    match rest with [] => True | c :: _ => reversed out c end.

(** The operations on the texts: opening sets a text, closing forgets it, a rename moves it unless
    the destination is open, changes edit it, and nothing else touches the texts. *)
Inductive texts_step (m : gmap VfsPath str) : vfs_op -> gmap VfsPath str -> Prop :=
| texts_open p text version : texts_step m (VOpen p text version) (<[p := text]> m)
| texts_close p : texts_step m (VClose p) (delete p m)
| texts_move from to text :
    m !! from = Some text -> from <> to -> m !! to = None ->
    texts_step m (VRename from to) (<[to := text]> (delete from m))
| texts_collapse from to :
    from <> to -> is_Some (m !! to) -> texts_step m (VRename from to) (delete from m)
| texts_rename_closed from to :
    m !! from = None \/ from = to -> texts_step m (VRename from to) m
| texts_edit p version cs text out :
    m !! p = Some text -> edited text cs out -> texts_step m (VApply p version cs) (<[p := out]> m)
| texts_edit_closed p version cs : m !! p = None -> texts_step m (VApply p version cs) m
| texts_file_id p : texts_step m (VFileId p) m
| texts_store p text : texts_step m (VStore p text) m
| texts_read p : texts_step m (VRead p) m
| texts_read_bytes p : texts_step m (VReadBytes p) m.

Lemma texts_lookup v p : open_texts v !! p = doc_text <$> docs (overlay v) !! p.
Proof. apply lookup_fmap. Qed.

Lemma edited_result d version cs r d' :
  batch_result d version cs r d' -> edited (doc_text d) cs (doc_text d').
Proof.
  destruct r as [e|edits]; simpl.
  - intros (_ & _ & done_ & c & rest & es & -> & Hb & Hrev). by exists done_, (c :: rest), es.
  - intros (_ & Hb & _). exists cs, [], edits. by rewrite app_nil_r.
Qed.

Lemma rename_texts v from to v' :
  wf_vfs v -> docs (overlay v') = docs (rename (overlay v) from to).2 ->
  texts_step (open_texts v) (VRename from to) (open_texts v').
Proof.
  intros Hwf. destruct (rename_spec (overlay v) (wv_overlay _ Hwf) from to) as [_ ->].
  destruct (docs (overlay v) !! from) as [d|] eqn:Hf.
  2:{ unfold open_texts. intros ->. apply texts_rename_closed. left. by rewrite lookup_fmap, Hf. }
  case_decide as Hne. { unfold open_texts. intros ->. apply texts_rename_closed. by right. }
  destruct (docs (overlay v) !! to) as [e|] eqn:Ht; unfold open_texts; intros ->.
  - rewrite fmap_delete. apply texts_collapse; [done|]. rewrite lookup_fmap, Ht. by eexists.
  - rewrite fmap_insert, fmap_delete. apply texts_move; [|done|]; by rewrite lookup_fmap, ?Hf, ?Ht.
Qed.

Lemma apply_texts v p version cs r v' :
  match docs (overlay v) !! p with
  | None => r = inl DocumentNotOpen /\ docs (overlay v') = docs (overlay v)
  | Some d => applied_to v v' p version cs d r
  end -> texts_step (open_texts v) (VApply p version cs) (open_texts v').
Proof.
  destruct (docs (overlay v) !! p) as [d|] eqn:Hp.
  - intros (r0 & d' & Hb & Hd & _). unfold open_texts. rewrite Hd, fmap_insert.
    apply (texts_edit _ _ _ _ (doc_text d)); [by rewrite lookup_fmap, Hp|by eapply edited_result].
  - intros [_ Hd]. unfold open_texts. rewrite Hd. apply texts_edit_closed. by rewrite lookup_fmap, Hp.
Qed.

Lemma vfs_run_texts v op v' :
  wf_vfs v -> op_fits v op -> vfs_run v op = Done v' -> texts_step (open_texts v) op (open_texts v').
Proof.
  intros Hwf Hfits. destruct op as [p|from to|p text n|p text|p|p n cs|p|p]; simpl in *.
  - destruct (vfs_file_id_spec v p Hwf) as [(id & r' & -> & _)|[-> _]]; intros [=<-]. constructor.
  - destruct (rename_path_spec v from to Hwf) as [(id & w & -> & _ & _ & Hd)|[-> _]]; intros [=<-].
    by apply rename_texts.
  - destruct Hfits as [H1 H2].
    destruct (open_document_spec v p text n Hwf H1 H2) as [(id & w & -> & _ & _ & Hd)|[-> _]]; intros [=<-].
    unfold open_texts. simpl. rewrite Hd, fmap_insert. constructor.
  - destruct (store_virtual_spec v p text Hwf) as (w & -> & _ & Ho). intros [=<-].
    unfold open_texts. rewrite Ho. constructor.
  - intros [=<-]. unfold open_texts. simpl.
    rewrite (proj2 (close_spec (overlay v) (wv_overlay _ Hwf) p)), fmap_delete. constructor.
  - destruct Hfits as [H1 H2].
    destruct (apply_document_spec v p n cs Hwf H1 H2) as [(r & w & -> & _ & Hr)|[-> _]]; intros [=<-].
    by eapply apply_texts.
  - destruct (read_to_string_layered v p Hwf) as (w & -> & _ & Ho & _). intros [=<-].
    unfold open_texts. rewrite Ho. constructor.
  - unfold read_bytes. destruct (document_text (overlay v) p) as [t|]; [intros [=<-]; constructor|].
    destruct (vfs_read_bytes_spec (virtual_documents v) p (wv_store _ Hwf)) as (s' & -> & _). intros [=<-]. constructor.
Qed.

Lemma exists_layered v path :
  exists_ v path = bool_decide (is_Some (open_texts v !! path)) || vfs_exists (virtual_documents v) path.
Proof. unfold exists_, is_open. rewrite texts_lookup. by destruct (docs (overlay v) !! path). Qed.

Lemma text_of_layered v path :
  text_of v path = match open_texts v !! path with
                   | Some text => inr text
                   | None => virtual_text (virtual_documents v) path
                   end.
Proof. unfold text_of. rewrite texts_lookup. by destruct (docs (overlay v) !! path). Qed.

(** ** Theorems *)

(** C31: in every state of the virtual file system that operations reach (texts within the machine
    limits, and a budget of virtual documents below 2^63 bytes), the set of open documents holds exactly the ids of the overlaid paths, ids and paths
    are inverse to each other, an open document has an id and a table of lines that fits its text,
    the estimate of the memory held is the size of the overlaid and of the cached texts, and these
    stay within their budget.  Every further operation returns, unless a new id is needed and all
    2^32 are taken. *)
Theorem vfs_invariant max v :
  (max < 2 ^ 63)%N -> vfs_reachable max v ->
  (forall id, docs_is_open (open_docs v) id = true <->
     exists p d, docs (overlay v) !! p = Some d /\ vfs_get_id v p = Some id) /\
  (forall p id, vfs_get_id v p = Some id <-> path_for_id v id = Some p) /\
  (forall p d, docs (overlay v) !! p = Some d -> is_Some (vfs_get_id v p) /\ wf_document d) /\
  (total (entries (virtual_documents v)) <= max_bytes (virtual_documents v))%N /\
  estimated_bytes v = N.min (2 ^ 64 - 1) (overlay_total (docs (overlay v)) + total (entries (virtual_documents v))) /\
  (forall op, op_fits v op ->
     (exists v', vfs_run v op = Done v') \/ (vfs_run v op = Panic /\ full_registry v)).
Proof.
  intros Hm Hr. pose proof (vfs_reachable_wf max v Hm Hr) as Hwf.
  pose proof Hwf as [Hov Hids Hst Hk Hopen]. split_and!.
  - intros id. unfold docs_is_open. rewrite bool_decide_eq_true. apply Hopen.
  - intros p id. symmetry. by apply get_path_iff.
  - intros p d Hp. split; [destruct (Hk _ _ Hp); eauto|apply (wo_docs _ Hov _ _ Hp)].
  - apply Hst.
  - unfold estimated_bytes, saturating_add_usize, store_estimated_bytes.
    rewrite (wo_bytes _ Hov), (ws_total _ Hst). lia.
  - intros op Hf. destruct (vfs_run_wf v op Hwf Hf) as [(v' & -> & _)|?]; eauto.
Qed.

(** C30: the virtual file system refines a map from paths to the texts of open documents.  From a
    reachable state, each operation changes the open texts as [texts_step] says (opening sets,
    closing forgets, a rename moves unless the destination is open, changes edit), and a read or a
    test for existence looks at the open texts first and then at the virtual documents over the
    base file system. *)
Theorem vfs_refines_texts max v op v' :
  (max < 2 ^ 63)%N -> vfs_reachable max v -> op_fits v op -> vfs_run v op = Done v' ->
  texts_step (open_texts v) op (open_texts v') /\
  (forall path, open_document_text_arc v' path = open_texts v' !! path) /\
  (forall path, exists_ v' path =
     bool_decide (is_Some (open_texts v' !! path)) || vfs_exists (virtual_documents v') path) /\
  (forall path, exists w, read_to_string v' path = Done (
     match open_texts v' !! path with
     | Some text => inr text
     | None => virtual_text (virtual_documents v') path
     end, w) /\ open_texts w = open_texts v').
Proof.
  intros Hm Hr Hf He. pose proof (vfs_reachable_wf max v Hm Hr) as Hwf.
  assert (Hwf' : wf_vfs v') by (destruct (vfs_run_wf v op Hwf Hf) as [(w & Hw & ?)|[Hw _]]; congruence).
  split_and!.
  - by apply vfs_run_texts.
  - intros path. by rewrite texts_lookup.
  - intros path. apply exists_layered.
  - intros path. destruct (read_to_string_layered v' path Hwf') as (w & -> & _ & Ho & _).
    exists w. rewrite <-text_of_layered. split; [done|]. unfold open_texts. by rewrite Ho.
Qed.

(** The event that [apply_document_changes] returns describes the change of the open text: it
    carries the id of the path, the new version and edits that, replayed one after the other by
    nova-core on the text read before, give the text read after. *)
Theorem vfs_change_event max v p version cs ev v' text :
  (max < 2 ^ 63)%N -> vfs_reachable max v -> op_fits v (VApply p version cs) ->
  open_document_text_arc v p = Some text ->
  apply_document_changes v p version cs = Done (inr ev, v') ->
  vfs_get_id v p = Some (ev_file_id ev) /\ path_for_id v' (ev_file_id ev) = Some p /\
  docs_is_open (open_docs v') (ev_file_id ev) = true /\ ev_path ev = p /\ ev_version ev = version /\
  exists text', replay text (ev_edits ev) = Done (inr text') /\
    open_document_text_arc v' p = Some text' /\
    forall q, q <> p -> open_document_text_arc v' q = open_document_text_arc v q.
Proof.
  intros Hm Hr [H1 H2] Ht He. pose proof (vfs_reachable_wf max v Hm Hr) as Hwf.
  destruct (apply_document_spec v p version cs Hwf H1 H2) as [(r & w & Hw & Hwf' & Hs)|[Hw _]]; [|congruence].
  rewrite He in Hw. injection Hw as <- <-.
  unfold open_document_text_arc, document_text in *. destruct (docs (overlay v) !! p) as [d|]; [|done].
  injection Ht as <-. destruct Hs as (r0 & d' & Hb & Hd & Hev). destruct r0 as [e|edits]; [done|].
  destruct Hev as (id & Hid & Hid' & [= ->]). destruct Hb as (_ & _ & Hrep). simpl.
  split_and!; [done|by apply get_path_iff; [apply Hwf'|]| |done|done|].
  - unfold docs_is_open. apply bool_decide_eq_true, (wv_open _ Hwf'). exists p, d'. by rewrite Hd, lookup_insert_eq.
  - exists (doc_text d'). rewrite Hd, lookup_insert_eq. split_and!; [done..|].
    intros q Hq. by rewrite lookup_insert_ne.
Qed.
End VfsFacts.

(** ** Witnesses *)

(** "ab" is opened at a path of a new file system. *)
Definition sample_path : VfsPath := doc_path "A".

Definition sample_vfs : Vfs :=
  match open_document_arc vfs_new sample_path [97; 98]%N 1 with Done (_, v) => v | _ => vfs_new end.

Lemma sample_vfs_reachable :
  vfs_reachable (base := one_file) DEFAULT_VIRTUAL_DOCUMENT_BUDGET_BYTES sample_vfs.
Proof.
  apply rtc_once. exists (VOpen sample_path [97; 98]%N 1). split; [split; vm_compute; reflexivity|].
  assert (Hd : match open_document_arc vfs_new sample_path [97; 98]%N 1 with Done _ => True | _ => False end)
    by (vm_compute; exact I).
  unfold sample_vfs. simpl. by destruct (open_document_arc _ _ _ _) as [[id v]| |].
Qed.

Lemma vfs_invariant_witness :
  docs_is_open (open_docs sample_vfs) 0 = true /\ estimated_bytes sample_vfs = 2%N /\
  exists v', vfs_run (base := one_file) sample_vfs (VClose sample_path) = Done v'.
Proof.
  destruct (vfs_invariant (base := one_file) DEFAULT_VIRTUAL_DOCUMENT_BUDGET_BYTES sample_vfs)
    as (Hopen & _ & _ & _ & He & Hops); [vm_compute; reflexivity|apply sample_vfs_reachable|].
  split_and!.
  - apply Hopen. eexists sample_path, _. split; vm_compute; reflexivity.
  - rewrite He. vm_compute. reflexivity.
  - destruct (Hops (VClose sample_path) I) as [Hr|[Hr _]]; [exact Hr|discriminate Hr].
Defined.

Lemma vfs_refines_texts_witness :
  exists v', vfs_run (base := one_file) sample_vfs (VRename sample_path (doc_path "B")) = Done v' /\
    texts_step (open_texts sample_vfs) (VRename sample_path (doc_path "B")) (open_texts v') /\
    open_document_text_arc v' (doc_path "B") = Some [97; 98]%N.
Proof.
  assert (Hc : match vfs_run (base := one_file) sample_vfs (VRename sample_path (doc_path "B")) with
    | Done v' => open_texts v' !! doc_path "B" = Some [97; 98]%N | _ => False end) by (vm_compute; reflexivity).
  destruct (vfs_run _ _) as [v'| |] eqn:Hrun; [|done..]. exists v'.
  destruct (vfs_refines_texts (base := one_file) DEFAULT_VIRTUAL_DOCUMENT_BUDGET_BYTES sample_vfs (VRename sample_path (doc_path "B")) v'
    ltac:(vm_compute; reflexivity) sample_vfs_reachable I Hrun) as (Hs & Ho & _).
  split_and!; [reflexivity|exact Hs|]. rewrite Ho. exact Hc.
Defined.

(** The first character is replaced. *)
Definition sample_change : list ContentChange :=
  [replace (mkRange (mkPosition 0 0) (mkPosition 0 1)) [88]%N].

Lemma sample_change_fits : op_fits sample_vfs (VApply sample_path 2 sample_change).
Proof. split; [intros d Hd; vm_compute in Hd; injection Hd as <-|]; vm_compute; reflexivity. Qed.

Lemma vfs_change_event_witness :
  exists ev v', apply_document_changes sample_vfs sample_path 2 sample_change = Done (inr ev, v') /\
    path_for_id v' (ev_file_id ev) = Some sample_path /\
    replay [97; 98]%N (ev_edits ev) = Done (inr [88; 98]%N).
Proof.
  assert (Hc : match apply_document_changes sample_vfs sample_path 2 sample_change with
    | Done (inr _, v') => open_document_text_arc v' sample_path = Some [88; 98]%N | _ => False end)
    by (vm_compute; reflexivity).
  destruct (apply_document_changes _ _ _ _) as [[[e|ev] v']| |] eqn:He; [done| |done..].
  exists ev, v'. split; [reflexivity|].
  destruct (vfs_change_event (base := one_file) DEFAULT_VIRTUAL_DOCUMENT_BUDGET_BYTES sample_vfs sample_path 2
    sample_change ev v' [97; 98]%N) as (_ & Hp & _ & _ & _ & text' & Hrep & Ht & _);
    [vm_compute; reflexivity|apply sample_vfs_reachable|apply sample_change_fits|vm_compute; reflexivity|exact He|].
  split; [exact Hp|]. rewrite Hc in Ht. by injection Ht as <-.
Defined.

(** Then the first character is removed, backwards. *)
Definition failing_batch : list ContentChange :=
  sample_change ++ [replace (mkRange (mkPosition 0 1) (mkPosition 0 0)) []].

(** A batch of changes that fails is not undone: of two changes of which the second has its end
    before its start, the first stays applied, although [apply_document_changes] returns an error
    and no event, and the document keeps its old version. *)
Theorem vfs_failed_batch_not_undone :
  exists v', apply_document_changes sample_vfs sample_path 2 failing_batch = Done (inl InvalidRange, v') /\
    open_document_text_arc sample_vfs sample_path = Some [97; 98]%N /\
    open_document_text_arc v' sample_path = Some [88; 98]%N /\
    (doc_version <$> docs (overlay v') !! sample_path) = Some 1%Z.
Proof.
  assert (Hc : match apply_document_changes sample_vfs sample_path 2 failing_batch with
    | Done (inl InvalidRange, v') => open_document_text_arc v' sample_path = Some [88; 98]%N /\
        (doc_version <$> docs (overlay v') !! sample_path) = Some 1%Z
    | _ => False end) by (vm_compute; done).
  destruct (apply_document_changes _ _ _ _) as [[[[]|ev] v']| |]; [done| |done..].
  exists v'. split_and!; [done|done|apply Hc..].
Qed.
