(* ===== verification/Fuzzy.v ===== *)
(** * Fuzzy matching (crates/nova-fuzzy/src/scoring.rs, lib.rs)

    The scorer that ranks completions and workspace symbols: a prefix test and a dynamic program
    over the bytes of the query and of the candidate, in the default configuration of the crate
    (without the feature "unicode").  The reference is the set of all alignments of the query
    with the candidate and their scores: the program finds the best one.  Scores are [i32], an
    overflow is a panic (as in a debug build); the theorems show that none happens on candidates
    of less than 2^25 bytes. *)

From stdpp Require Import base list numbers option relations.
From S2P Require Import Prelude Sorting Str.

(** ** Machine integers *)

Definition in_i32 (x : Z) : Prop := (- 2 ^ 31 <= x < 2 ^ 31)%Z.

Definition i32 (x : Z) : run Z := if decide (- 2 ^ 31 <= x < 2 ^ 31)%Z then Done x else Panic.
Definition add_i32 (x y : Z) : run Z := i32 (x + y).
Definition sub_i32 (x y : Z) : run Z := i32 (x - y).
Definition mul_i32 (x y : Z) : run Z := i32 (x * y).

(** [n as i32]. *)
Definition as_i32 (n : nat) : Z := ((Z.of_nat n + 2 ^ 31) mod 2 ^ 32 - 2 ^ 31)%Z.

(** [usize] subtraction. *)
Definition sub_usize (x y : nat) : run nat := if decide (y <= x) then Done (x - y) else Panic.

(** ** Results *)

Module MatchKind.
Inductive t := Prefix | Fuzzy.
End MatchKind.

Record MatchScore := mkScore { kind : MatchKind.t; score : Z }.
Record RankKey := mkRank { kind_rank : Z; rank_score : Z }.

Definition rank_key (self : MatchScore) : RankKey :=
  mkRank (match kind self with MatchKind.Prefix => 2 | MatchKind.Fuzzy => 1 end) (score self).

Definition rank_cmp (self other : RankKey) : comparison :=
  then_with (Z.compare (kind_rank self) (kind_rank other))
    (Z.compare (rank_score self) (rank_score other)).

(** ** Bytes *)

Definition is_ascii_uppercase (b : N) : bool := (65 <=? b)%N && (b <=? 90)%N.
Definition is_ascii_lowercase (b : N) : bool := (97 <=? b)%N && (b <=? 122)%N.
Definition is_ascii_alphabetic (b : N) : bool := is_ascii_uppercase b || is_ascii_lowercase b.
Definition is_ascii_digit (b : N) : bool := (48 <=? b)%N && (b <=? 57)%N.

(** [u8::to_ascii_lowercase]. *)
Definition fold_byte (b : N) : N := if is_ascii_uppercase b then (b + 32)%N else b.

Definition starts_with_case_insensitive (candidate query : list N) : bool :=
  if decide (length candidate < length query) then false
  else forallb (fun '(c, q) => bool_decide (fold_byte c = fold_byte q)) (zip candidate query).

Definition starts_with_case_insensitive_folded (candidate query_folded : list N) : bool :=
  if decide (length candidate < length query_folded) then false
  else forallb (fun '(c, q) => bool_decide (fold_byte c = q)) (zip candidate query_folded).

(** The bytes of "_- /\.:<>()[]". *)
Definition is_separator (b : N) : bool :=
  bool_decide (b ∈ [95; 45; 32; 47; 92; 46; 58; 60; 62; 40; 41; 91; 93]%N).

Definition boundary (prev b : N) : bool :=
  is_separator prev || (is_ascii_lowercase prev && is_ascii_uppercase b)
  || (is_ascii_alphabetic prev && is_ascii_digit b)
  || (is_ascii_digit prev && is_ascii_alphabetic b).

Fixpoint word_starts_loop (candidate cs : list N) (i : nat) (starts : list bool)
    : run (list bool) :=
  match cs with
  | [] => Done starts
  | b :: cs =>
      if decide (i = 0) then word_starts_loop candidate cs (S i) (starts ++ [true])
      else
        prev ← idx candidate (i - 1);
        word_starts_loop candidate cs (S i) (starts ++ [boundary prev b])
  end.

Definition compute_word_starts (candidate : list N) : run (list bool) :=
  word_starts_loop candidate candidate 0 [].

Definition case_bonus (query candidate : N) : Z := if decide (query = candidate) then 2 else 0.

(** ** The dynamic program *)

Definition MIN_SCORE : Z := - 536870912.
(** [MIN_SCORE / 2]. *)
Definition HALF : Z := - 268435456.

Definition BASE_MATCH : Z := 10.
Definition BONUS_WORD_START : Z := 15.
Definition BONUS_CONSECUTIVE : Z := 5.
Definition GAP_PENALTY : Z := 1.
Definition LEADING_PENALTY : Z := 1.
Definition TRAILING_PENALTY : Z := 1.

(** The bonuses of a match of [q] with [c] at [j], from a score. *)
Definition add_bonuses (word_starts : list bool) (j : nat) (q c : N) (s : Z) : run Z :=
  start ← idx word_starts j;
  s ← (if (start : bool) then add_i32 s BONUS_WORD_START else Done s);
  add_i32 s (case_bonus q c).

(** The loop for the first character of the query. *)
Fixpoint first_row (word_starts : list bool) (q0 q0_folded : N) (cs : list N) (j : nat)
    (dp : list Z) : run (list Z) :=
  match cs with
  | [] => Done dp
  | c :: cs =>
      if decide (fold_byte c <> q0_folded) then first_row word_starts q0 q0_folded cs (S j) dp
      else
        s ← add_bonuses word_starts j q0 c BASE_MATCH;
        penalty ← mul_i32 LEADING_PENALTY (as_i32 j);
        s ← sub_i32 s penalty;
        dp ← set_idx dp j s;
        first_row word_starts q0 q0_folded cs (S j) dp
  end.

(** [running_max] after the element before [j]. *)
Definition update_max (dp_prev : list Z) (j : nat) (running_max : Z) : run Z :=
  if decide (0 < j) then
    prev ← idx dp_prev (j - 1);
    if decide (HALF < prev)%Z then
      gap ← mul_i32 GAP_PENALTY (as_i32 j);
      s ← add_i32 prev gap;
      Done (Z.max running_max s)
    else Done running_max
  else Done running_max.

(** The best score of the characters before, for a match at [j]. *)
Definition prev_best (dp_prev : list Z) (j : nat) (running_max : Z) : run Z :=
  prev_non_consecutive ←
    (if decide (HALF < running_max)%Z then
       gap ← mul_i32 GAP_PENALTY (as_i32 j); sub_i32 running_max gap
     else Done MIN_SCORE);
  prev_consecutive ←
    (if decide (0 < j) then prev ← idx dp_prev (j - 1); add_i32 prev BONUS_CONSECUTIVE
     else Done MIN_SCORE);
  Done (Z.max prev_non_consecutive prev_consecutive).

(** The loop over the candidate for a further character of the query. *)
Fixpoint next_row (word_starts : list bool) (q q_folded : N) (dp_prev : list Z) (cs : list N)
    (j : nat) (running_max : Z) (dp_cur : list Z) : run (list Z) :=
  match cs with
  | [] => Done dp_cur
  | c :: cs =>
      running_max ← update_max dp_prev j running_max;
      if decide (fold_byte c <> q_folded) then
        next_row word_starts q q_folded dp_prev cs (S j) running_max dp_cur
      else
        best ← prev_best dp_prev j running_max;
        if decide (best <= HALF)%Z then
          next_row word_starts q q_folded dp_prev cs (S j) running_max dp_cur
        else
          s ← add_i32 best BASE_MATCH;
          s ← add_bonuses word_starts j q c s;
          dp_cur ← set_idx dp_cur j s;
          next_row word_starts q q_folded dp_prev cs (S j) running_max dp_cur
  end.

(** One character of the query: the rows are filled, computed and swapped. *)
Definition row (word_starts : list bool) (candidate : list N) (q q_folded : N)
    (dp : list Z * list Z) : run (list Z * list Z) :=
  let '(dp_prev, dp_cur) := dp in
  let dp_cur := replicate (length dp_cur) MIN_SCORE in
  dp_cur ← next_row word_starts q q_folded dp_prev candidate 0 MIN_SCORE dp_cur;
  Done (dp_cur, dp_prev).

(** The best score of the last row, less the penalty for what trails. *)
Fixpoint best_loop (len : nat) (dp : list Z) (j : nat) (best : Z) : run Z :=
  match dp with
  | [] => Done best
  | s :: dp =>
      if decide (s <= HALF)%Z then best_loop len dp (S j) best
      else
        trailing ← sub_usize len 1;
        trailing ← sub_usize trailing j;
        penalty ← mul_i32 TRAILING_PENALTY (as_i32 trailing);
        s ← sub_i32 s penalty;
        best_loop len dp (S j) (Z.max best s)
  end.

Definition best_of (candidate : list N) (dp_prev : list Z) : run (option Z) :=
  best ← best_loop (length candidate) dp_prev 0 MIN_SCORE;
  Done (if decide (best <= HALF)%Z then None else Some best).

Definition subsequence_score_alloc (query candidate : list N) : run (option Z) :=
  match query with
  | [] => Done (Some 0%Z)
  | q0 :: rest =>
      if decide (length candidate < length query) then Done None
      else
        word_starts ← compute_word_starts candidate;
        let dp_prev := replicate (length candidate) MIN_SCORE in
        let dp_cur := replicate (length candidate) MIN_SCORE in
        dp_prev ← first_row word_starts q0 (fold_byte q0) candidate 0 dp_prev;
        dp ← for_each (fun dp q => row word_starts candidate q (fold_byte q) dp) rest (dp_prev, dp_cur);
        best_of candidate dp.1
  end.

(** The score of a match as a prefix: [1_000_000 - candidate.len() as i32]. *)
Definition prefix_score (candidate : list N) : run MatchScore :=
  s ← sub_i32 1000000 (as_i32 (length candidate)); Done (mkScore MatchKind.Prefix s).

Definition fuzzy_match (query candidate : str) : run (option MatchScore) :=
  let q := as_bytes query in
  let c := as_bytes candidate in
  if decide (q = []) then Done (Some (mkScore MatchKind.Prefix 0))
  else if starts_with_case_insensitive c q then (s ← prefix_score c; Done (Some s))
  else
    s ← subsequence_score_alloc q c;
    Done (option_map (mkScore MatchKind.Fuzzy) s).

Definition prefix_match (query candidate : str) : run bool :=
  r ← fuzzy_match query candidate;
  Done (match r with Some (mkScore MatchKind.Prefix _) => true | _ => false end).

(** ** The matcher that keeps its buffers *)

Record FuzzyMatcher := mkMatcher {
  query : list N;
  query_folded : list N;
  dp_prev : list Z;
  dp_cur : list Z;
  word_starts : list bool
}.

Definition matcher_new (q : str) : FuzzyMatcher :=
  mkMatcher (as_bytes q) (fold_byte <$> as_bytes q) [] [] [].

(** The flags are written over those of the candidate before. *)
Fixpoint word_starts_fill (candidate cs : list N) (i : nat) (starts : list bool)
    : run (list bool) :=
  match cs with
  | [] => Done starts
  | b :: cs =>
      if decide (i = 0) then
        starts ← set_idx starts i true; word_starts_fill candidate cs (S i) starts
      else
        prev ← idx candidate (i - 1);
        starts ← set_idx starts i (boundary prev b);
        word_starts_fill candidate cs (S i) starts
  end.

Definition subsequence_score (self : FuzzyMatcher) (candidate : list N)
    : run (option Z * FuzzyMatcher) :=
  if decide (query self = []) then Done (Some 0%Z, self)
  else if decide (length candidate < length (query self)) then Done (None, self)
  else
    let n := length candidate in
    starts ← word_starts_fill candidate candidate 0 (resize n false (word_starts self));
    let prev := resize n MIN_SCORE (dp_prev self) in
    let cur := resize n MIN_SCORE (dp_cur self) in
    let prev := replicate (length prev) MIN_SCORE in
    q0 ← idx (query self) 0;
    q0_folded ← idx (query_folded self) 0;
    prev ← first_row starts q0 q0_folded candidate 0 prev;
    dp ← for_each (fun dp i =>
      q ← idx (query self) i;
      q_folded ← idx (query_folded self) i;
      row starts candidate q q_folded dp) (seq 1 (length (query self) - 1)) (prev, cur);
    best ← best_of candidate dp.1;
    Done (best, mkMatcher (query self) (query_folded self) dp.1 dp.2 starts).

Definition matcher_score (self : FuzzyMatcher) (candidate : str)
    : run (option MatchScore * FuzzyMatcher) :=
  let c := as_bytes candidate in
  if decide (query self = []) then Done (Some (mkScore MatchKind.Prefix 0), self)
  else if starts_with_case_insensitive_folded c (query_folded self) then
    s ← prefix_score c; Done (Some s, self)
  else
    '(s, self) ← subsequence_score self c;
    Done (option_map (mkScore MatchKind.Fuzzy) s, self).

(** ** Arithmetic *)

Lemma i32_small x : in_i32 x -> i32 x = Done x.
Proof. intros Hx. unfold i32. by rewrite decide_True. Qed.

Lemma as_i32_small n : (Z.of_nat n < 2 ^ 31)%Z -> as_i32 n = Z.of_nat n.
Proof. intros Hn. unfold as_i32. rewrite Z.mod_small; lia. Qed.

Lemma case_bonus_range q c : (0 <= case_bonus q c <= 2)%Z.
Proof. unfold case_bonus. case_decide; lia. Qed.

(** ** Word starts *)

Definition word_start (candidate : list N) (j : nat) : bool :=
  match j with
  | 0 => true
  | S k => match candidate !! k, candidate !! S k with
           | Some prev, Some b => boundary prev b
           | _, _ => false
           end
  end.

Definition word_starts_of (candidate : list N) : list bool :=
  word_start candidate <$> seq 0 (length candidate).

Lemma word_starts_of_lookup candidate j :
  j < length candidate -> word_starts_of candidate !! j = Some (word_start candidate j).
Proof. intros Hj. unfold word_starts_of. by rewrite list_lookup_fmap, lookup_seq_lt. Qed.

Lemma word_start_at candidate done b cs prev :
  candidate = done ++ b :: cs -> length done <> 0 -> candidate !! (length done - 1) = Some prev ->
  word_start candidate (length done) = boundary prev b.
Proof.
  intros Hc Hd Hp. assert (Hb : candidate !! length done = Some b) by (by rewrite Hc, list_lookup_middle).
  destruct (length done) as [|k]; [done|]. replace (S k - 1) with k in Hp by lia. simpl. by rewrite Hp, Hb.
Qed.

Lemma word_starts_loop_spec candidate done cs :
  candidate = done ++ cs ->
  word_starts_loop candidate cs (length done) (word_start candidate <$> seq 0 (length done)) =
  Done (word_starts_of candidate).
Proof.
  revert done. induction cs as [|b cs IH]; intros done Hc; simpl.
  { rewrite app_nil_r in Hc. unfold word_starts_of. by subst. }
  specialize (IH (done ++ [b])). rewrite length_app, Nat.add_1_r in IH.
  rewrite seq_S, fmap_app in IH. simpl in IH. rewrite <-app_assoc in IH. simpl in IH.
  case_decide as Hd.
  { apply nil_length_inv in Hd. subst done. simpl in *. by apply IH. }
  destruct (lookup_lt_is_Some_2 candidate (length done - 1)) as [prev Hp]; [rewrite Hc, length_app; simpl; lia|].
  unfold idx. rewrite Hp. simpl.
  rewrite <-(word_start_at _ _ _ _ _ Hc Hd Hp). by apply IH.
Qed.

Lemma compute_word_starts_spec candidate :
  compute_word_starts candidate = Done (word_starts_of candidate).
Proof. by apply (word_starts_loop_spec candidate []). Qed.

Lemma word_starts_fill_spec candidate cs : forall done old,
  candidate = done ++ cs -> length old = length cs ->
  word_starts_fill candidate cs (length done) ((word_start candidate <$> seq 0 (length done)) ++ old) =
  Done (word_starts_of candidate).
Proof.
  induction cs as [|b cs IH]; intros done old Hc Hl; simpl.
  { apply nil_length_inv in Hl. subst old. rewrite !app_nil_r in *. unfold word_starts_of. by subst. }
  destruct old as [|o old]; [done|]. injection Hl as Hl.
  assert (Hset : forall x, set_idx ((word_start candidate <$> seq 0 (length done)) ++ o :: old) (length done) x =
    Done ((word_start candidate <$> seq 0 (length done)) ++ x :: old)).
  { intros x. unfold set_idx. rewrite decide_True by (rewrite length_app, length_fmap, length_seq; simpl; lia).
    f_equal. by rewrite insert_app_r_alt, length_fmap, length_seq, Nat.sub_diag by (rewrite length_fmap, length_seq; done). }
  specialize (IH (done ++ [b]) old). rewrite length_app, Nat.add_1_r in IH.
  rewrite seq_S, fmap_app in IH. simpl in IH. rewrite <-!app_assoc in IH. simpl in IH.
  case_decide as Hd.
  { rewrite Hset. simpl. apply nil_length_inv in Hd. subst done. simpl in *. by apply IH. }
  destruct (lookup_lt_is_Some_2 candidate (length done - 1)) as [prev Hp]; [rewrite Hc, length_app; simpl; lia|].
  unfold idx. rewrite Hp. simpl. rewrite Hset. simpl.
  rewrite <-(word_start_at _ _ _ _ _ Hc Hd Hp). by apply IH.
Qed.

(** ** The reference: alignments *)

Section Alignments.
Context (cand : list N).

(** The score of matching [q] with the byte [c] at [j]. *)
Definition char_score (q : N) (j : nat) (c : N) : Z :=
  (BASE_MATCH + (if word_start cand j then BONUS_WORD_START else 0) + case_bonus q c)%Z.

(** The score of the step from a match at [k] to one at [j]: a bonus for neighbours, or one less
    for each byte between. *)
Definition link (k j : nat) : Z :=
  if decide (j = S k) then BONUS_CONSECUTIVE else (Z.of_nat k + 1 - Z.of_nat j)%Z.

(** [aligned qs j s]: the bytes [qs] match, up to case, bytes of the candidate in order, the last
    at [j], with the score [s]. *)
Inductive aligned : list N -> nat -> Z -> Prop :=
| aligned_one q j c :
    cand !! j = Some c -> fold_byte c = fold_byte q ->
    aligned [q] j (char_score q j c - Z.of_nat j)
| aligned_snoc qs k s q j c :
    aligned qs k s -> k < j -> cand !! j = Some c -> fold_byte c = fold_byte q ->
    aligned (qs ++ [q]) j (s + link k j + char_score q j c).

(** The score of a whole alignment: what trails counts too. *)
Definition alignment (qs : list N) (s : Z) : Prop :=
  exists j s0, aligned qs j s0 /\ s = (s0 - (Z.of_nat (length cand) - 1 - Z.of_nat j))%Z.

(** The best score of an alignment, if there is one. *)
Definition best_alignment (qs : list N) (r : option Z) : Prop :=
  match r with
  | Some s => alignment qs s /\ forall s', alignment qs s' -> (s' <= s)%Z
  | None => forall s, ~ alignment qs s
  end.

Lemma char_score_range q j c : (10 <= char_score q j c <= 27)%Z.
Proof.
  unfold char_score, BASE_MATCH, BONUS_WORD_START. pose proof (case_bonus_range q c).
  destruct (word_start cand j); lia.
Qed.

Lemma aligned_range qs j s :
  aligned qs j s ->
  j < length cand /\ (- Z.of_nat j <= s <= 32 * Z.of_nat (length qs))%Z.
Proof.
  induction 1 as [q j c Hc _|qs k s q j c _ [IH1 IH2] Hk Hc _].
  - pose proof (char_score_range q j c). split; [by eapply lookup_lt_Some|]. simpl. lia.
  - pose proof (char_score_range q j c). split; [by eapply lookup_lt_Some|]. rewrite length_app. simpl.
    unfold link, BONUS_CONSECUTIVE. case_decide; lia.
Qed.

Lemma aligned_one_inv q j s :
  aligned [q] j s <->
  exists c, cand !! j = Some c /\ fold_byte c = fold_byte q /\ s = (char_score q j c - Z.of_nat j)%Z.
Proof.
  split; [|intros (c & Hc & Hq & ->); by constructor].
  intros Ha. inversion Ha as [? ? c Hc Hq|qs k s0 q' ? c H0 Hk Hc Hq Heq]; subst; [by exists c|].
  destruct qs as [|? [|]]; [|discriminate Heq..]. inversion H0 as [|qs ? ? ? ? ? ? ? ? ? Heq']; by destruct qs.
Qed.

Lemma aligned_snoc_inv qs q j s :
  qs <> [] ->
  aligned (qs ++ [q]) j s <->
  exists c k s0, cand !! j = Some c /\ fold_byte c = fold_byte q /\ aligned qs k s0 /\ k < j /\
    s = (s0 + link k j + char_score q j c)%Z.
Proof.
  intros Hne. split; [|intros (c & k & s0 & Hc & Hq & Ha & Hk & ->); by constructor].
  intros Ha. inversion Ha as [q' ? c Hc Hq Heq|qs' k s0 q' ? c H0 Hk Hc Hq Heq]; subst.
  - destruct qs as [|? [|]]; [done|discriminate Heq..].
  - apply app_inj_tail in Heq as [-> ->]. by exists c, k, s0.
Qed.

(** ** The rows of the dynamic program *)

(** The entry of a row: the best score of an alignment that ends there, or [MIN_SCORE]. *)
Definition is_best (qs : list N) (j : nat) (v : Z) : Prop :=
  (v = MIN_SCORE /\ forall s, ~ aligned qs j s) \/
  (aligned qs j v /\ forall s, aligned qs j s -> (s <= v)%Z).

Definition row_ok (qs : list N) (dp : list Z) : Prop :=
  length dp = length cand /\ forall j v, dp !! j = Some v -> is_best qs j v.

Context (Hsmall : (Z.of_nat (length cand) < 2 ^ 25)%Z).

Lemma add_bonuses_spec j q c s :
  j < length cand -> (- 2 ^ 27 <= s < 2 ^ 31 - 17)%Z ->
  add_bonuses (word_starts_of cand) j q c s =
  Done (s + (if word_start cand j then BONUS_WORD_START else 0) + case_bonus q c)%Z.
Proof.
  intros Hj Hs. unfold add_bonuses, idx. rewrite word_starts_of_lookup by done. simpl.
  pose proof (case_bonus_range q c). unfold add_i32, BONUS_WORD_START in *.
  destruct (word_start cand j); simpl; repeat rewrite i32_small by (unfold in_i32; lia);
    rewrite ?bind_Done_l, ?i32_small by (unfold in_i32; lia); f_equal; lia.
Qed.

(** A row under construction: the entries before [j] are done, the others not yet set. *)
Definition partial (qs : list N) (j : nat) (dp : list Z) : Prop :=
  length dp = length cand /\
  forall i v, dp !! i = Some v -> if decide (i < j) then is_best qs i v else v = MIN_SCORE.

Lemma partial_start qs n : n = length cand -> partial qs 0 (replicate n MIN_SCORE).
Proof.
  intros ->. split; [by rewrite length_replicate|]. intros i v [-> _]%lookup_replicate. done.
Qed.

Lemma partial_end qs dp : partial qs (length cand) dp -> row_ok qs dp.
Proof.
  intros [Hl Hd]. split; [done|]. intros j v Hv. specialize (Hd _ _ Hv).
  apply lookup_lt_Some in Hv as Hj. by rewrite decide_True in Hd by lia.
Qed.

Lemma partial_skip qs j dp :
  partial qs j dp -> (forall s, ~ aligned qs j s) -> partial qs (S j) dp.
Proof.
  intros [Hl Hd] Hn. split; [done|]. intros i v Hv. specialize (Hd _ _ Hv).
  destruct (decide (i = j)) as [->|Hi].
  - rewrite decide_False in Hd by lia. rewrite decide_True by lia. by left.
  - do 2 case_decide; lia || done.
Qed.

Lemma partial_set qs j dp v :
  partial qs j dp -> j < length cand -> aligned qs j v -> (forall s, aligned qs j s -> (s <= v)%Z) ->
  exists dp', set_idx dp j v = Done dp' /\ partial qs (S j) dp'.
Proof.
  intros [Hl Hd] Hj Hv Hmax. unfold set_idx. rewrite decide_True by lia. eexists. split; [done|].
  split; [by rewrite length_insert|]. intros i w. destruct (decide (i = j)) as [->|Hi].
  - rewrite list_lookup_insert_eq by lia. intros [= <-]. rewrite decide_True by lia. by right.
  - rewrite list_lookup_insert_ne by done. intros Hw. specialize (Hd _ _ Hw). do 2 case_decide; lia || done.
Qed.

Lemma first_row_spec q cs : forall done dp,
  cand = done ++ cs -> partial [q] (length done) dp ->
  exists dp', first_row (word_starts_of cand) q (fold_byte q) cs (length done) dp = Done dp' /\ row_ok [q] dp'.
Proof.
  induction cs as [|c cs IH]; intros done dp Hc Hp; cbn [first_row].
  { exists dp. split; [done|]. apply partial_end. rewrite Hc at 1. by rewrite app_nil_r. }
  assert (Hlook : cand !! length done = Some c) by (by rewrite Hc, list_lookup_middle).
  apply lookup_lt_Some in Hlook as Hlt.
  specialize (IH (done ++ [c])). rewrite length_app, Nat.add_1_r, <-app_assoc in IH. simpl in IH.
  case_decide as Hf.
  { apply IH; [done|]. apply partial_skip; [done|]. intros s (c' & Hc' & Hq & _)%aligned_one_inv. congruence. }
  pose proof (case_bonus_range q c).
  rewrite add_bonuses_spec by (done || unfold BASE_MATCH; lia). rewrite bind_Done_l.
  change (BASE_MATCH + (if word_start cand (length done) then BONUS_WORD_START else 0) + case_bonus q c)%Z
    with (char_score q (length done) c).
  pose proof (char_score_range q (length done) c). rewrite as_i32_small by lia.
  unfold mul_i32, sub_i32, LEADING_PENALTY. rewrite i32_small by (unfold in_i32; lia). rewrite bind_Done_l.
  rewrite i32_small by (unfold in_i32; lia). rewrite bind_Done_l, Z.mul_1_l.
  destruct (partial_set [q] (length done) dp (char_score q (length done) c - Z.of_nat (length done)) Hp)
    as (dp' & -> & Hp'); [lia|by constructor| |rewrite bind_Done_l; by apply IH].
  intros s (c' & Hc' & Hq & ->)%aligned_one_inv. by simplify_eq.
Qed.

(** [running_max]: the best of the scores before [j], each made comparable by the distance of its
    end from the start. *)
Definition run_best (qs : list N) (j : nat) (rm : Z) : Prop :=
  (rm = MIN_SCORE /\ forall k s, k < j -> ~ aligned qs k s) \/
  ((exists k s, k < j /\ aligned qs k s /\ rm = (s + Z.of_nat k + 1)%Z) /\
   forall k s, k < j -> aligned qs k s -> (s + Z.of_nat k + 1 <= rm)%Z).

Context (qs : list N) (Hqs : qs <> []) (Hlen : length qs < length cand).
Context (dp_prev : list Z) (Hprev : row_ok qs dp_prev).

Lemma prev_lookup j : j < length cand -> exists v, dp_prev !! j = Some v /\ is_best qs j v.
Proof.
  intros Hj. destruct Hprev as [Hl Hd]. destruct (lookup_lt_is_Some_2 dp_prev j) as [v Hv]; [lia|].
  exists v. auto.
Qed.

Lemma aligned_lower j s : aligned qs j s -> (- 2 ^ 26 < s < 2 ^ 30)%Z.
Proof. intros Ha%aligned_range. lia. Qed.

Lemma update_max_spec j rm :
  j < length cand -> run_best qs (j - 1) rm ->
  exists rm', update_max dp_prev j rm = Done rm' /\ run_best qs j rm'.
Proof.
  intros Hj Hrm. unfold update_max. case_decide as H0.
  2:{ exists rm. split; [done|]. by replace (j - 1) with j in Hrm by lia. }
  destruct (prev_lookup (j - 1)) as (v & Hv & Hb); [lia|]. unfold idx. rewrite Hv, bind_Done_l.
  assert (Hk : forall k, k < j -> k < j - 1 \/ k = j - 1) by lia.
  destruct Hb as [[-> Hno]|[Ha Hmax]].
  - rewrite decide_False by (unfold HALF, MIN_SCORE; lia). exists rm. split; [done|].
    destruct Hrm as [[-> Hn]|[(k & s & Hkj & Ha & ->) Hm]]; [left|right].
    + split; [done|]. intros k s [?| ->]%Hk; auto.
    + split; [exists k, s; split_and!; [lia|done..]|]. intros k' s' [?| ->]%Hk Ha'; [by apply Hm|].
      by destruct (Hno s').
  - pose proof (aligned_lower _ _ Ha). apply aligned_range in Ha as Hr.
    rewrite decide_True by (unfold HALF; lia).
    unfold mul_i32, add_i32, GAP_PENALTY. rewrite as_i32_small, Z.mul_1_l by lia.
    rewrite i32_small by (unfold in_i32; lia). rewrite bind_Done_l.
    rewrite i32_small by (unfold in_i32; lia). rewrite bind_Done_l. eexists. split; [done|]. right.
    replace (v + Z.of_nat j)%Z with (v + Z.of_nat (j - 1) + 1)%Z by lia.
    assert (Hnew : forall k s, k < j -> aligned qs k s ->
      (s + Z.of_nat k + 1 <= Z.max rm (v + Z.of_nat (j - 1) + 1))%Z).
    { intros k s [Hkj| ->]%Hk Has; [|specialize (Hmax _ Has); lia].
      destruct Hrm as [[_ Hn]|[_ Hm]]; [by destruct (Hn k s)|]. specialize (Hm _ _ Hkj Has). lia. }
    split; [|exact Hnew].
    destruct (Z.max_spec rm (v + Z.of_nat (j - 1) + 1)) as [[_ ->]|[Hle ->]].
    + exists (j - 1), v. split_and!; [lia|done..].
    + destruct Hrm as [[-> _]|[(k & s & Hkj & Has & ->) _]]; [unfold MIN_SCORE in *; lia|].
      exists k, s. split_and!; [lia|done..].
Qed.

(** The best of the steps to [j]. *)
Lemma prev_best_spec j rm :
  j < length cand -> run_best qs j rm ->
  exists b, prev_best dp_prev j rm = Done b /\
    (((b <= HALF)%Z /\ forall k s, k < j -> ~ aligned qs k s) \/
     ((- 2 ^ 26 < b < 2 ^ 30 + 10)%Z /\ (exists k s, k < j /\ aligned qs k s /\ b = (s + link k j)%Z) /\
      forall k s, k < j -> aligned qs k s -> (s + link k j <= b)%Z)).
Proof.
  intros Hj Hrm. unfold prev_best. unfold mul_i32, sub_i32, add_i32, GAP_PENALTY.
  rewrite as_i32_small, Z.mul_1_l by lia.
  destruct Hrm as [[-> Hn]|[(k & s & Hkj & Ha & Hrm) Hm]].
  - rewrite (decide_False (P := (HALF < MIN_SCORE)%Z)) by (unfold HALF, MIN_SCORE; lia). rewrite bind_Done_l. case_decide as H0.
    + destruct (prev_lookup (j - 1)) as (v & Hv & [[-> Hno]|[Ha _]]); [lia| |].
      2:{ exfalso. eapply Hn; [|exact Ha]. lia. }
      unfold idx. rewrite Hv, bind_Done_l, i32_small by (unfold in_i32, MIN_SCORE, BONUS_CONSECUTIVE; lia).
      rewrite bind_Done_l. eexists. split; [done|]. left. split; [unfold MIN_SCORE, HALF, BONUS_CONSECUTIVE; lia|done].
    + rewrite bind_Done_l. eexists. split; [done|]. left. split; [unfold MIN_SCORE, HALF; lia|done].
  - pose proof (aligned_lower _ _ Ha). apply aligned_range in Ha as Hr.
    rewrite (decide_True (P := (HALF < rm)%Z)) by (unfold HALF; lia). rewrite i32_small by (unfold in_i32; lia). rewrite bind_Done_l.
    rewrite i32_small by (unfold in_i32; lia). rewrite bind_Done_l. rewrite decide_True by lia.
    destruct (prev_lookup (j - 1)) as (v & Hv & Hb); [lia|]. unfold idx. rewrite Hv, bind_Done_l.
    assert (Hvr : (- 2 ^ 30 < v < 2 ^ 30)%Z).
    { destruct Hb as [[-> _]|[Hav _]]; [unfold MIN_SCORE; lia|]. pose proof (aligned_lower _ _ Hav). lia. }
    unfold BONUS_CONSECUTIVE in *. rewrite i32_small by (unfold in_i32; lia). rewrite bind_Done_l.
    eexists. split; [done|]. right.
    assert (Hup : forall k s, k < j -> aligned qs k s -> (s + link k j <= Z.max (rm - Z.of_nat j) (v + 5))%Z).
    { intros k' s' Hk' Ha'. specialize (Hm _ _ Hk' Ha'). unfold link, BONUS_CONSECUTIVE. case_decide as Hd; [|lia].
      subst j. replace (S k' - 1) with k' in * by lia. destruct Hb as [[_ Hno]|[_ Hmax]]; [by destruct (Hno s')|].
      specialize (Hmax _ Ha'). lia. }
    split_and!; [lia..| |exact Hup].
    destruct (Z.max_spec (rm - Z.of_nat j) (v + 5)) as [[Hlt Hmax]|[Hle Hmax]]; rewrite Hmax in *.
    + destruct Hb as [[-> _]|[Hav _]]; [unfold MIN_SCORE in *; lia|]. exists (j - 1), v.
      split_and!; [lia|done|]. unfold link, BONUS_CONSECUTIVE. by rewrite decide_True by lia.
    + exists k, s. split_and!; [done..|]. specialize (Hup _ _ Hkj Ha).
      unfold link, BONUS_CONSECUTIVE in *. case_decide; lia.
Qed.

Lemma next_row_spec q cs : forall done rm dp,
  cand = done ++ cs -> run_best qs (length done - 1) rm -> partial (qs ++ [q]) (length done) dp ->
  exists dp', next_row (word_starts_of cand) q (fold_byte q) dp_prev cs (length done) rm dp = Done dp' /\
    row_ok (qs ++ [q]) dp'.
Proof.
  induction cs as [|c cs IH]; intros done rm dp Hc Hrm Hp; cbn [next_row].
  { exists dp. split; [done|]. apply partial_end. rewrite Hc at 1. by rewrite app_nil_r. }
  assert (Hlook : cand !! length done = Some c) by (by rewrite Hc, list_lookup_middle).
  apply lookup_lt_Some in Hlook as Hlt.
  specialize (IH (done ++ [c])). rewrite length_app, Nat.add_1_r, <-app_assoc in IH. simpl in IH.
  rewrite Nat.sub_0_r in IH.
  destruct (update_max_spec (length done) rm Hlt Hrm) as (rm' & -> & Hrm'). rewrite bind_Done_l.
  case_decide as Hf.
  { apply IH; [done..|]. apply partial_skip; [done|].
    intros s (c' & k & s0 & Hc' & Hq & _)%aligned_snoc_inv; [congruence|done]. }
  destruct (prev_best_spec (length done) rm' Hlt Hrm') as (b & -> & Hb). rewrite bind_Done_l.
  destruct Hb as [[Hb Hno]|(Hb & (k & s & Hk & Ha & ->) & Hmax)].
  { rewrite decide_True by done. apply IH; [done..|]. apply partial_skip; [done|].
    intros s (c' & k & s0 & _ & _ & Ha & Hk & _)%aligned_snoc_inv; [by eapply Hno|done]. }
  rewrite decide_False by (unfold HALF; lia). unfold add_i32, BASE_MATCH.
  rewrite i32_small by (unfold in_i32; lia). rewrite bind_Done_l.
  rewrite add_bonuses_spec by lia. rewrite bind_Done_l.
  replace (s + link k (length done) + 10 + _ + _)%Z with (s + link k (length done) + char_score q (length done) c)%Z
    by (unfold char_score, BASE_MATCH; lia).
  destruct (partial_set (qs ++ [q]) (length done) dp (s + link k (length done) + char_score q (length done) c) Hp Hlt)
    as (dp' & -> & Hp'); [by apply aligned_snoc| |rewrite bind_Done_l; by apply IH].
  intros s' (c' & k' & s0 & Hc' & _ & Ha' & Hk' & ->)%aligned_snoc_inv; [|done]. simplify_eq.
  specialize (Hmax _ _ Hk' Ha'). lia.
Qed.

Lemma row_spec q dp_cur :
  length dp_cur = length cand ->
  exists dp', row (word_starts_of cand) cand q (fold_byte q) (dp_prev, dp_cur) = Done (dp', dp_prev) /\
    row_ok (qs ++ [q]) dp'.
Proof.
  intros Hl. unfold row.
  destruct (next_row_spec q cand [] MIN_SCORE (replicate (length dp_cur) MIN_SCORE)) as (dp' & He & Hok).
  - done.
  - left. split; [done|]. simpl. lia.
  - by apply partial_start.
  - simpl in He. rewrite He. by exists dp'.
Qed.
End Alignments.

Section Scores.
Context (cand : list N) (Hsmall : (Z.of_nat (length cand) < 2 ^ 25)%Z).

Lemma rows_spec rest : forall qs dp_prev dp_cur,
  qs <> [] -> length qs + length rest <= length cand -> row_ok cand qs dp_prev ->
  length dp_cur = length cand ->
  exists dp, for_each (fun dp q => row (word_starts_of cand) cand q (fold_byte q) dp) rest (dp_prev, dp_cur) = Done dp /\
    row_ok cand (qs ++ rest) dp.1.
Proof.
  induction rest as [|q rest IH]; intros qs prev cur Hqs Hlen Hok Hcur; cbn [for_each].
  { exists (prev, cur). by rewrite app_nil_r. }
  simpl in Hlen. destruct (row_spec cand Hsmall qs Hqs ltac:(lia) prev Hok q cur Hcur) as (dp' & -> & Hok').
  rewrite bind_Done_l. destruct (IH (qs ++ [q]) dp' prev) as (dp & -> & Hdp).
  - by destruct qs.
  - rewrite length_app. simpl. lia.
  - done.
  - apply Hok.
  - exists dp. by rewrite <-app_assoc in Hdp.
Qed.

(** The best score of the alignments that end before [j]. *)
Definition best_before (qs : list N) (j : nat) (b : Z) : Prop :=
  (b = MIN_SCORE /\ forall k s, k < j -> ~ aligned cand qs k s) \/
  ((- 2 ^ 27 < b)%Z /\ (exists k s, k < j /\ aligned cand qs k s /\ b = (s - (Z.of_nat (length cand) - 1 - Z.of_nat k))%Z) /\
   forall k s, k < j -> aligned cand qs k s -> (s - (Z.of_nat (length cand) - 1 - Z.of_nat k) <= b)%Z).

Lemma best_before_step qs j b v :
  best_before qs j b -> is_best cand qs j v -> (v <= HALF)%Z -> best_before qs (S j) b.
Proof.
  intros Hb Hv Hle. assert (Hno : forall s, ~ aligned cand qs j s).
  { destruct Hv as [[_ Hno]|[Ha _]]; [done|]. apply aligned_range in Ha. unfold HALF in Hle. lia. }
  assert (Hk : forall k, k < S j -> k < j \/ k = j) by lia.
  destruct Hb as [[-> Hn]|(Hb & (k & s & Hkj & Ha & He) & Hm)]; [left|right].
  - split; [done|]. intros k s [?| ->]%Hk; auto.
  - split_and!; [done|exists k, s; split_and!; [lia|done..]|]. intros k' s' [?| ->]%Hk Ha'; [auto|]. by destruct (Hno s').
Qed.

Lemma best_before_max qs j b v :
  j < length cand -> best_before qs j b -> aligned cand qs j v -> (forall s, aligned cand qs j s -> (s <= v)%Z) ->
  best_before qs (S j) (Z.max b (v - (Z.of_nat (length cand) - 1 - Z.of_nat j))).
Proof.
  intros Hj Hb Ha Hmax. apply aligned_range in Ha as Hr. right. split_and!; [lia| |].
  - destruct (Z.max_spec b (v - (Z.of_nat (length cand) - 1 - Z.of_nat j))) as [[_ ->]|[Hle ->]].
    + exists j, v. split_and!; [lia|done..].
    + destruct Hb as [[-> _]|(_ & (k & s & Hk & Has & ->) & _)]; [unfold MIN_SCORE in *; lia|].
      exists k, s. split_and!; [lia|done..].
  - intros k s Hk Has. destruct (decide (k = j)) as [->|Hne]; [specialize (Hmax _ Has); lia|].
    destruct Hb as [[_ Hn]|(_ & _ & Hm)]; [destruct (Hn k s); [lia|done]|].
    assert (Hkj : k < j) by lia. specialize (Hm _ _ Hkj Has). lia.
Qed.

Lemma best_loop_spec qs dp : forall j b,
  length qs <= length cand -> j + length dp = length cand -> best_before qs j b ->
  (forall i v, dp !! i = Some v -> is_best cand qs (j + i) v) ->
  exists b', best_loop (length cand) dp j b = Done b' /\ best_before qs (length cand) b'.
Proof.
  induction dp as [|v dp IH]; intros j b Hq Hl Hb Hd; cbn [best_loop].
  { simpl in Hl. rewrite Nat.add_0_r in Hl. subst. by exists b. }
  simpl in Hl. pose proof (Hd 0 v eq_refl) as Hv. rewrite Nat.add_0_r in Hv.
  assert (Hd' : forall i w, dp !! i = Some w -> is_best cand qs (S j + i) w).
  { intros i w Hw. replace (S j + i) with (j + S i) by lia. by apply Hd. }
  case_decide as Hle; [apply IH; [done|lia| |done]; by eapply best_before_step|].
  destruct Hv as [[-> _]|[Ha Hmax]]; [unfold MIN_SCORE, HALF in Hle; lia|]. apply aligned_range in Ha as Hr.
  unfold sub_usize. do 2 (rewrite decide_True by lia; rewrite bind_Done_l).
  rewrite as_i32_small by lia. unfold mul_i32, sub_i32, TRAILING_PENALTY. rewrite Z.mul_1_l.
  rewrite i32_small by (unfold in_i32; lia). rewrite bind_Done_l.
  rewrite i32_small by (unfold in_i32; lia). rewrite bind_Done_l.
  apply IH; [done|lia| |done].
  replace (v - Z.of_nat (length cand - 1 - j))%Z with (v - (Z.of_nat (length cand) - 1 - Z.of_nat j))%Z by lia.
  apply best_before_max; [lia|done..].
Qed.

Lemma best_of_spec qs dp :
  length qs <= length cand -> row_ok cand qs dp ->
  exists r, best_of cand dp = Done r /\ best_alignment cand qs r.
Proof.
  intros Hq [Hl Hd]. unfold best_of.
  destruct (best_loop_spec qs dp 0 MIN_SCORE) as (b & -> & Hb); [done|lia| |done|].
  { left. split; [done|]. intros k s Hk. lia. }
  rewrite bind_Done_l. eexists. split; [done|].
  destruct Hb as [[-> Hn]|(Hb & (k & s & Hk & Ha & He) & Hm)].
  - rewrite decide_True by (unfold MIN_SCORE, HALF; lia). intros s (j & s0 & Ha & _).
    apply aligned_range in Ha as Hr. eapply Hn; [apply Hr|done].
  - rewrite decide_False by (unfold HALF; lia). split; [by exists k, s|].
    intros s' (j & s0 & Ha' & ->). apply aligned_range in Ha' as Hr. apply Hm; [apply Hr|done].
Qed.

(** Alignments are strictly increasing, so a longer query has none. *)
Lemma aligned_length qs j s : aligned cand qs j s -> length qs <= S j.
Proof. induction 1; simpl; [lia|]. rewrite length_app. simpl. lia. Qed.

Lemma long_query qs : length cand < length qs -> best_alignment cand qs None.
Proof.
  intros Hl s (j & s0 & Ha & _). pose proof (aligned_length _ _ _ Ha). apply aligned_range in Ha. lia.
Qed.

Lemma first_row_start q :
  exists dp, first_row (word_starts_of cand) q (fold_byte q) cand 0 (replicate (length cand) MIN_SCORE) = Done dp /\
    row_ok cand [q] dp.
Proof. apply (first_row_spec cand Hsmall q cand []); [done|]. by apply partial_start. Qed.

Lemma subsequence_score_alloc_spec q0 rest :
  exists r, subsequence_score_alloc (q0 :: rest) cand = Done r /\ best_alignment cand (q0 :: rest) r.
Proof.
  unfold subsequence_score_alloc. case_decide as Hl.
  { eexists. split; [done|]. by apply long_query. }
  rewrite compute_word_starts_spec, bind_Done_l. cbv zeta.
  destruct (first_row_start q0) as (dp & -> & Hok). rewrite bind_Done_l.
  destruct (rows_spec rest [q0] dp (replicate (length cand) MIN_SCORE)) as (dp' & -> & Hok'); [done|simpl in *; lia|done|apply length_replicate|].
  rewrite bind_Done_l. apply best_of_spec; [simpl in *; lia|done].
Qed.
End Scores.

(** ** Alignments and subsequences *)

Lemma aligned_sublist cand qs j s :
  aligned cand qs j s -> (fold_byte <$> qs) `sublist_of` (fold_byte <$> take (S j) cand).
Proof.
  induction 1 as [q j c Hc Hq|qs k s q j c Ha IH Hk Hc Hq]; rewrite (take_S_r _ _ _ Hc), fmap_app; simpl.
  - rewrite Hq. by apply sublist_inserts_l.
  - rewrite fmap_app. simpl. rewrite Hq. apply sublist_app; [|done]. etrans; [exact IH|].
    replace (take (S k) cand) with (take (S k) (take j cand)) by (rewrite take_take; f_equal; lia).
    rewrite (fmap_take _ (S k)). apply sublist_take.
Qed.

Lemma sublist_aligned cand qs : forall n,
  qs <> [] -> (fold_byte <$> qs) `sublist_of` (fold_byte <$> take n cand) ->
  exists j s, j < n /\ aligned cand qs j s.
Proof.
  induction qs as [|q qs IH] using rev_ind; intros n Hne Hs; [done|].
  rewrite fmap_app in Hs. apply sublist_app_l in Hs as (k1 & k2 & Hk & H1 & H2). simpl in H2.
  assert (He : fold_byte q ∈ k2) by (by apply singleton_sublist_l).
  apply list_elem_of_lookup in He as (i & Hi).
  assert (Hj : (fold_byte <$> take n cand) !! (length k1 + i) = Some (fold_byte q)).
  { rewrite Hk, lookup_app_r by lia. by replace (length k1 + i - length k1) with i by lia. }
  rewrite list_lookup_fmap in Hj. destruct (take n cand !! (length k1 + i)) as [c|] eqn:Hc; [|done].
  injection Hj as Hj. apply lookup_take_Some in Hc as [Hc Hlt].
  destruct (decide (qs = [])) as [->|Hqs].
  { eexists _, _. split; [exact Hlt|]. by apply aligned_one. }
  destruct (IH (length k1) Hqs) as (k & s & Hkl & Ha).
  { assert (Hpre : k1 = fold_byte <$> take (length k1) cand); [|by rewrite <-Hpre].
    rewrite fmap_take. apply (f_equal (take (length k1))) in Hk. rewrite take_app_length in Hk.
    rewrite <-Hk at 1. rewrite fmap_take, take_take. f_equal. lia. }
  eexists _, _. split; [exact Hlt|]. apply (aligned_snoc cand qs k s); [done|lia|done|done].
Qed.

Lemma best_alignment_subsequence cand qs r :
  qs <> [] -> best_alignment cand qs r ->
  is_Some r <-> (fold_byte <$> qs) `sublist_of` (fold_byte <$> cand).
Proof.
  intros Hne Hb. split.
  - intros [s ->]. destruct Hb as [(j & s0 & Ha & _) _]. apply aligned_sublist in Ha. etrans; [exact Ha|].
    rewrite fmap_take. apply sublist_take.
  - intros Hs. destruct r as [s|]; [by eexists|].
    destruct (sublist_aligned cand qs (length cand) Hne) as (j & s & _ & Ha).
    { by rewrite firstn_all. }
    destruct (Hb _ (ex_intro _ j (ex_intro _ s (conj Ha eq_refl)))).
Qed.

(** ** Prefixes *)

Lemma starts_with_spec candidate folded :
  (if decide (length candidate < length folded) then false
   else forallb (fun '(c, q) => bool_decide (fold_byte c = q)) (zip candidate folded)) = true <->
  folded `prefix_of` (fold_byte <$> candidate).
Proof.
  revert candidate. induction folded as [|q folded IH]; intros candidate.
  { destruct candidate; simpl; split; try done; intros _; apply prefix_nil. }
  destruct candidate as [|c candidate]; simpl.
  { split; [done|]. by intros ?%prefix_nil_not. }
  specialize (IH candidate). assert (Hcons : q :: folded `prefix_of` fold_byte c :: (fold_byte <$> candidate) <->
    q = fold_byte c /\ folded `prefix_of` (fold_byte <$> candidate)).
  { split; [|by intros [-> ?]; apply prefix_cons]. intros Hp.
    split; [by eapply prefix_cons_inv_1|by eapply prefix_cons_inv_2]. }
  rewrite Hcons, <-IH. case_decide as H1; case_decide as H2; try lia.
  rewrite andb_true_iff, bool_decide_eq_true. naive_solver.
Qed.

Lemma starts_with_folded candidate q :
  starts_with_case_insensitive candidate q =
  starts_with_case_insensitive_folded candidate (fold_byte <$> q).
Proof.
  unfold starts_with_case_insensitive, starts_with_case_insensitive_folded. rewrite length_fmap.
  case_decide; [done|]. clear. revert q. induction candidate as [|c candidate IH]; intros [|x q]; simpl; [done..|].
  by rewrite IH.
Qed.

Lemma starts_with_prefix candidate q :
  starts_with_case_insensitive candidate q = true <->
  (fold_byte <$> q) `prefix_of` (fold_byte <$> candidate).
Proof. rewrite starts_with_folded. apply starts_with_spec. Qed.

(** ** The matcher *)

(** Only the length of the second buffer matters: it is filled first. *)
Lemma row_buffer ws c q qf prev cur cur' :
  length cur = length cur' -> row ws c q qf (prev, cur) = row ws c q qf (prev, cur').
Proof. intros Hl. unfold row. by rewrite Hl. Qed.

Lemma rows_buffer ws c rest prev cur cur' :
  length cur = length cur' ->
  fst <$> for_each (fun dp q => row ws c q (fold_byte q) dp) rest (prev, cur) =
  fst <$> for_each (fun dp q => row ws c q (fold_byte q) dp) rest (prev, cur').
Proof.
  intros Hl. destruct rest as [|q rest]; [done|]. cbn [for_each]. by rewrite (row_buffer _ _ _ _ _ cur cur' Hl).
Qed.

(** The loop over indices is the loop over the query. *)
Lemma rows_by_index ws c rest : forall pre dp,
  for_each (fun dp i =>
      q ← idx (pre ++ rest) i;
      q_folded ← idx (fold_byte <$> (pre ++ rest)) i;
      row ws c q q_folded dp) (seq (length pre) (length rest)) dp =
  for_each (fun dp q => row ws c q (fold_byte q) dp) rest dp.
Proof.
  induction rest as [|q rest IH]; intros pre dp; [done|]. cbn [length seq for_each].
  assert (H1 : idx (pre ++ q :: rest) (length pre) = Done q) by (by apply idx_Done, list_lookup_middle).
  assert (H2 : idx (fold_byte <$> pre ++ q :: rest) (length pre) = Done (fold_byte q)).
  { apply idx_Done. by rewrite list_lookup_fmap, list_lookup_middle. }
  rewrite H1, bind_Done_l, H2, bind_Done_l.
  destruct (row ws c q (fold_byte q) dp) as [dp'| |]; simpl; [|done..].
  specialize (IH (pre ++ [q]) dp'). rewrite length_app, Nat.add_1_r, <-app_assoc in IH. exact IH.
Qed.

Definition wf_matcher (q : str) (m : FuzzyMatcher) : Prop :=
  query m = as_bytes q /\ query_folded m = fold_byte <$> as_bytes q.

Lemma fmap_bind_run {A B C} (f : B -> C) (m : run A) (k : A -> run B) :
  f <$> (m ≫= k) = m ≫= (fun a => f <$> k a).
Proof. by destruct m. Qed.

Lemma bind_fst {A B C} (m : run (A * B)) (k : A -> run C) :
  m ≫= (fun p => k p.1) = (fst <$> m) ≫= k.
Proof. by destruct m as [[]| |]. Qed.

Lemma subsequence_score_eq q m c :
  wf_matcher q m -> fst <$> subsequence_score m c = subsequence_score_alloc (as_bytes q) c.
Proof.
  intros [Hq Hf]. unfold subsequence_score, subsequence_score_alloc. rewrite Hq, Hf.
  destruct (as_bytes q) as [|q0 rest]; [done|]. rewrite decide_False by done.
  case_decide as Hl; [done|]. rewrite compute_word_starts_spec, bind_Done_l. cbv zeta.
  assert (Hw : word_starts_fill c c 0 (resize (length c) false (word_starts m)) = Done (word_starts_of c))
    by (apply (word_starts_fill_spec c c []); [done|apply length_resize]).
  rewrite Hw, bind_Done_l, length_resize. change (idx (q0 :: rest) 0) with (Done q0).
  change (idx (fold_byte <$> q0 :: rest) 0) with (Done (fold_byte q0)). rewrite !bind_Done_l, fmap_bind_run.
  destruct (first_row _ _ _ _ _ _) as [prev| |]; [|done..]. rewrite !bind_Done_l, fmap_bind_run.
  cbn [length]. rewrite Nat.sub_succ, Nat.sub_0_r.
  pose proof (rows_by_index (word_starts_of c) c rest [q0] (prev, resize (length c) MIN_SCORE (dp_cur m))) as He.
  cbn [length app] in He. rewrite He.
  rewrite (bind_fst _ (fun dp => best_of c dp)).
  rewrite <-(rows_buffer (word_starts_of c) c rest prev (resize (length c) MIN_SCORE (dp_cur m)))
    by by rewrite length_resize, length_replicate.
  clear He. destruct (for_each _ _ _) as [dp| |]; simpl; [|done..]. by destruct (best_of c dp.1).
Qed.

Lemma subsequence_score_keeps q m c r m' :
  wf_matcher q m -> subsequence_score m c = Done (r, m') -> wf_matcher q m'.
Proof.
  intros Hm. unfold subsequence_score. repeat case_decide; [by intros [= <- <-]..|].
  intros He. run_inv. by destruct Hm.
Qed.

Lemma matcher_score_eq q m c :
  wf_matcher q m -> fst <$> matcher_score m c = fuzzy_match q c.
Proof.
  intros Hm. pose proof Hm as [Hq Hf]. unfold matcher_score, fuzzy_match. rewrite Hq, Hf, starts_with_folded.
  case_decide; [done|]. destruct (starts_with_case_insensitive_folded _ _); [by destruct (prefix_score _)|].
  rewrite <-(subsequence_score_eq q m _ Hm). by destruct (subsequence_score m (as_bytes c)) as [[r m']| |].
Qed.

Lemma matcher_score_keeps q m c r m' :
  wf_matcher q m -> matcher_score m c = Done (r, m') -> wf_matcher q m'.
Proof.
  intros Hm. unfold matcher_score. case_decide; [by intros [= <- <-]|].
  destruct (starts_with_case_insensitive_folded _ _).
  { intros He. by run_inv. }
  intros He. run_inv. destruct a as [r0 m0]. run_inv. by eapply subsequence_score_keeps.
Qed.

(** A matcher that has scored any candidates. *)
Definition matcher_step (m m' : FuzzyMatcher) : Prop := exists c r, matcher_score m c = Done (r, m').

Lemma matcher_reachable_wf q m : rtc matcher_step (matcher_new q) m -> wf_matcher q m.
Proof.
  revert m. apply rtc_ind_r; [done|]. intros m1 m2 _ (c & r & He) Hm. by eapply matcher_score_keeps.
Qed.

(** ** Theorems *)

(** C38: [fuzzy_match] is exact.  For a candidate of less than 2^25 bytes it returns without
    overflow; an empty query matches everything; a query that is a prefix of the candidate up to
    ASCII case gives a prefix match whose score falls with the length of the candidate; any other
    query gives the best score over all its alignments with the candidate, and no match exactly
    when it is not a subsequence of the candidate up to case. *)
Theorem fuzzy_match_best q c :
  (Z.of_nat (str_len c) < 2 ^ 25)%Z ->
  exists r, fuzzy_match q c = Done r /\
    let qs := as_bytes q in
    let cs := as_bytes c in
    (is_Some r <-> (fold_byte <$> qs) `sublist_of` (fold_byte <$> cs)) /\
    (qs = [] -> r = Some (mkScore MatchKind.Prefix 0)) /\
    (qs <> [] -> (fold_byte <$> qs) `prefix_of` (fold_byte <$> cs) ->
     r = Some (mkScore MatchKind.Prefix (1000000 - Z.of_nat (length cs)))) /\
    (~ (fold_byte <$> qs) `prefix_of` (fold_byte <$> cs) ->
     exists s, r = option_map (mkScore MatchKind.Fuzzy) s /\ best_alignment cs qs s).
Proof.
  intros Hs. rewrite <-length_as_bytes in Hs. unfold fuzzy_match. cbv zeta.
  set (qs := as_bytes q). set (cs := as_bytes c) in *. case_decide as Hq.
  { eexists. split; [done|]. rewrite Hq. split_and!; [|done..|].
    - split; [intros _; apply sublist_nil_l|done].
    - intros Hn. destruct Hn. apply prefix_nil. }
  destruct (starts_with_case_insensitive cs qs) eqn:Hp.
  - apply starts_with_prefix in Hp. unfold prefix_score, sub_i32. rewrite as_i32_small by lia.
    rewrite i32_small by (unfold in_i32; lia). eexists. split; [done|]. split_and!; [|done..].
    split; [intros _|by eexists]. destruct Hp as [k ->]. by apply sublist_inserts_r.
  - assert (Hnp : ~ (fold_byte <$> qs) `prefix_of` (fold_byte <$> cs)) by (rewrite <-starts_with_prefix; congruence).
    destruct qs as [|q0 rest]; [done|].
    destruct (subsequence_score_alloc_spec cs Hs q0 rest) as (r & -> & Hr). eexists. split; [done|].
    split_and!; [|done..|by exists r].
    rewrite <-(best_alignment_subsequence cs _ r Hq Hr), !is_Some_alt. by destruct r.
Qed.

(** A [FuzzyMatcher] gives the scores of [fuzzy_match].  Whatever candidates it has scored
    before, and whatever its buffers hold from them, [score] gives for each candidate the result
    of [fuzzy_match] with the query it was made from, panics included. *)
Theorem matcher_equals_fuzzy_match q m c :
  rtc matcher_step (matcher_new q) m -> fst <$> matcher_score m c = fuzzy_match q c.
Proof. intros Hm. apply matcher_score_eq. by apply matcher_reachable_wf. Qed.

(** Prefix matches rank above fuzzy ones, and matches of one kind by their score. *)
Lemma rank_order s t :
  rank_cmp (rank_key s) (rank_key t) = Gt <->
  (kind s = MatchKind.Prefix /\ kind t = MatchKind.Fuzzy) \/ (kind s = kind t /\ (score t < score s)%Z).
Proof.
  unfold rank_cmp, rank_key, then_with. destruct s as [[] s], t as [[] t]; simpl;
    rewrite ?Z.compare_gt_iff; naive_solver.
Qed.

(** ** Witnesses *)

(** "fB" and "foo_bar": both letters start words. *)
Definition sample_query : str := [102; 66]%N.
Definition sample_candidate : str := [102; 111; 111; 95; 98; 97; 114]%N.

Lemma fuzzy_match_best_witness :
  exists r, fuzzy_match sample_query sample_candidate = Done r /\
    r = Some (mkScore MatchKind.Fuzzy 47) /\
    exists s, r = option_map (mkScore MatchKind.Fuzzy) s /\
      best_alignment (as_bytes sample_candidate) (as_bytes sample_query) s.
Proof.
  destruct (fuzzy_match_best sample_query sample_candidate) as (r & He & _ & _ & _ & Hb); [vm_compute; reflexivity|].
  exists r. split_and!; [exact He| |].
  - vm_compute in He. by injection He as <-.
  - apply Hb. intros Hp. apply starts_with_prefix in Hp. vm_compute in Hp. discriminate Hp.
Defined.

(** A matcher that has scored one candidate, and scores a longer one. *)
Definition used_matcher : FuzzyMatcher :=
  match matcher_score (matcher_new sample_query) [102; 120; 98]%N with
  | Done (_, m) => m
  | _ => matcher_new sample_query
  end.

Lemma matcher_equals_fuzzy_match_witness :
  fst <$> matcher_score used_matcher sample_candidate = Done (Some (mkScore MatchKind.Fuzzy 47)).
Proof.
  rewrite (matcher_equals_fuzzy_match sample_query used_matcher sample_candidate).
  - vm_compute. reflexivity.
  - apply rtc_once. eexists [102; 120; 98]%N, _. vm_compute. reflexivity.
Defined.
