(* ===== verification/Trigram.v ===== *)
(** * The trigram index (crates/nova-fuzzy/src/trigram.rs)

    The index that picks the candidates of a fuzzy search, in the default configuration of the
    crate (without the feature "unicode"): texts are cut into trigrams of bytes folded to lower
    case, the pairs of a trigram and an id are packed into [u64], sorted and laid out as posting
    lists, and a query intersects the posting lists of its trigrams with a galloping search.  The
    theorems give the set of candidates, show that a text that contains the query is always
    among them, and that [insert2] is two insertions. *)

From Stdlib Require Import Sorting.Sorted.
From stdpp Require Import base numbers option list sorting.
From S2P Require Import Prelude Sorting Str Utf8 Fuzzy.

(** ** Trigrams *)

Definition pack_trigram (a b c : N) : N := N.lor (N.lor (N.shiftl a 16) (N.shiftl b 8)) c.

Fixpoint trigrams_loop (a b : N) (cs : list N) (out : list N) : list N :=
  match cs with
  | [] => out
  | c_raw :: cs =>
      let c := fold_byte c_raw in
      trigrams_loop b c cs (out ++ [pack_trigram a b c])
  end.

Definition trigrams_ascii_bytes (bytes : list N) (out : list N) : run (list N) :=
  if decide (length bytes < 3) then Done out
  else
    b0 ← idx bytes 0;
    b1 ← idx bytes 1;
    Done (trigrams_loop (fold_byte b0) (fold_byte b1) (drop 2 bytes) out).

Definition trigrams (text : str) (out : list N) : run (list N) :=
  trigrams_ascii_bytes (as_bytes text) out.

(** ** The builder *)

Record TrigramIndexBuilder := mkBuilder { pairs : list N; scratch : list N }.

Definition builder_new : TrigramIndexBuilder := mkBuilder [] [].

(** [((g as u64) << 32) | id as u64]. *)
Definition pack_pair (id g : N) : N := N.lor (N.shiftl g 32) id.

Definition sorted_dedup (l : list N) : list N := dedup (sort_by N.compare l).

(** The end of [insert] and [insert2]. *)
Definition extend_pairs (self : TrigramIndexBuilder) (id : N) (gs : list N) : TrigramIndexBuilder :=
  if decide (gs = []) then mkBuilder (pairs self) gs
  else
    let gs := sorted_dedup gs in
    mkBuilder (pairs self ++ (pack_pair id <$> gs)) gs.

Definition insert (self : TrigramIndexBuilder) (id : N) (text : str) : run TrigramIndexBuilder :=
  gs ← trigrams text [];
  Done (extend_pairs self id gs).

Definition insert2 (self : TrigramIndexBuilder) (id : N) (a b : str) : run TrigramIndexBuilder :=
  if decide (a = b) then insert self id a
  else
    gs ← trigrams a [];
    gs ← trigrams b gs;
    Done (extend_pairs self id gs).

Record TrigramIndex := mkIndex { keys : list N; offsets : list N; values : list N }.

(** The loop of [build]: a key is written when the next one starts. *)
Fixpoint build_loop (ps : list N) (ks os vs : list N) (cur_key : option N)
    : list N * list N * list N * option N :=
  match ps with
  | [] => (ks, os, vs, cur_key)
  | p :: ps =>
      let trigram := (N.shiftr p 32 mod 2 ^ 32)%N in
      let id := (p mod 2 ^ 32)%N in
      match cur_key with
      | Some k =>
          if decide (k = trigram) then build_loop ps ks os (vs ++ [id]) cur_key
          else build_loop ps (ks ++ [k]) (os ++ [as_u32 (length vs)]) (vs ++ [id]) (Some trigram)
      | None => build_loop ps ks os (vs ++ [id]) (Some trigram)
      end
  end.

(** The [debug_assert_eq!] on the lengths of [offsets] and [keys] holds by [build_aligned]. *)
Definition build (self : TrigramIndexBuilder) : TrigramIndex :=
  let ps := sorted_dedup (pairs self) in
  let '(ks, os, vs, cur_key) := build_loop ps [] [0%N] [] None in
  match cur_key with
  | Some k => mkIndex (ks ++ [k]) (os ++ [as_u32 (length vs)]) vs
  | None => mkIndex ks os vs
  end.

(** ** The search *)

(** [binary_search] on a strictly increasing slice. *)
Inductive search_result := Found (i : nat) | Insert (i : nat).

Fixpoint search_from (i : nat) (l : list N) (x : N) : search_result :=
  match l with
  | [] => Insert i
  | y :: l =>
      match (y ?= x)%N with
      | Lt => search_from (S i) l x
      | Eq => Found i
      | Gt => Insert i
      end
  end.

Definition binary_search (l : list N) (x : N) : search_result := search_from 0 l x.

(** [&l[lo..hi]]. *)
Definition slice_of (l : list N) (lo hi : nat) : run (list N) :=
  if decide (lo <= hi /\ hi <= length l) then Done (take (hi - lo) (drop lo l)) else Panic.

(** The galloping loop: the step doubles while the element there is before the target. *)
Fixpoint gallop (fuel : nat) (l : list N) (ix step : nat) (target : N) : run nat :=
  match fuel with
  | 0 => OutOfFuel
  | S fuel =>
      if decide (ix + step < length l) then
        x ← idx l (ix + step);
        if decide (x < target)%N then gallop fuel l ix (step * 2) target else Done step
      else Done step
  end.

Definition advance_to (l : list N) (cursor : nat) (target : N) : run (bool * nat) :=
  let len := length l in
  let ix := cursor in
  if decide (len <= ix) then Done (false, cursor)
  else
    x ← idx l ix;
    ix ← (if decide (x < target)%N then
            step ← gallop (S len) l ix 1 target;
            let lo := ix + step / 2 in
            let hi := Nat.min (ix + step + 1) len in
            range ← slice_of l lo hi;
            match binary_search range target with
            | Found pos | Insert pos => Done (lo + pos)
            end
          else Done ix);
    found ← (if decide (ix < len) then y ← idx l ix; Done (bool_decide (y = target)) else Done false);
    Done (found, ix).

Definition postings (self : TrigramIndex) (trigram : N) : run (list N) :=
  match binary_search (keys self) trigram with
  | Found ix =>
      start ← idx (offsets self) ix;
      end_ ← idx (offsets self) (ix + 1);
      slice_of (values self) (N.to_nat start) (N.to_nat end_)
  | Insert _ => Done []
  end.

(** The buffers of a search. *)
Record TrigramCandidateScratch := mkScratch {
  q_trigrams : list N;
  lists : list (N * N);
  cursors : list nat;
  out : list N
}.

Definition scratch_default : TrigramCandidateScratch := mkScratch [] [] [] [].

(** The loop that collects the ranges of the posting lists. *)
Fixpoint collect_lists (self : TrigramIndex) (gs : list N) (ls : list (N * N)) : run (list (N * N)) :=
  match gs with
  | [] => Done ls
  | t :: gs =>
      match binary_search (keys self) t with
      | Insert _ => collect_lists self gs ls
      | Found ix =>
          start ← idx (offsets self) ix;
          end_ ← idx (offsets self) (ix + 1);
          collect_lists self gs (if decide (start <> end_) then ls ++ [(start, end_)] else ls)
      end
  end.

(** How the search for an id in the other lists ends: it is in all, it is not in one, or one has
    no more elements. *)
Inductive check := Present | Absent | Exhausted.

Fixpoint check_lists (vs : list N) (id : N) (cs : list nat) (ls : list (N * N))
    : run (check * list nat) :=
  match cs, ls with
  | cursor :: cs, (start, end_) :: ls =>
      other ← slice_of vs (N.to_nat start) (N.to_nat end_);
      '(found, cursor) ← advance_to other cursor id;
      if (found : bool) then
        '(r, cs) ← check_lists vs id cs ls; Done (r, cursor :: cs)
      else if decide (length other <= cursor) then Done (Exhausted, cursor :: cs)
      else Done (Absent, cursor :: cs)
  | _, _ => Done (Present, cs)
  end.

(** The loop over the shortest list. *)
Fixpoint intersect (vs : list N) (base : list N) (cs : list nat) (ls : list (N * N)) (acc : list N)
    : run (list N * list nat) :=
  match base with
  | [] => Done (acc, cs)
  | id :: base =>
      '(r, cs) ← check_lists vs id cs ls;
      match r with
      | Present => intersect vs base cs ls (acc ++ [id])
      | Absent => intersect vs base cs ls acc
      | Exhausted => Done (acc, cs)
      end
  end.

(** [sort_by_key(|&(start, end)| end - start)]. *)
Definition cmp_len (x y : N * N) : comparison := ((x.2 - x.1) ?= (y.2 - y.1))%N.

Definition candidates_with_scratch (self : TrigramIndex) (query : str) (s : TrigramCandidateScratch)
    : run (list N * TrigramCandidateScratch) :=
  gs ← trigrams query [];
  if decide (gs = []) then Done ([], mkScratch gs [] (cursors s) [])
  else
    let gs := sorted_dedup gs in
    ls ← collect_lists self gs [];
    if decide (ls = []) then Done ([], mkScratch gs ls (cursors s) [])
    else
      let ls := sort_by cmp_len ls in
      '(base_start, base_end) ← idx ls 0;
      base ← slice_of (values self) (N.to_nat base_start) (N.to_nat base_end);
      if decide (length ls = 1) then Done (base, mkScratch gs ls (cursors s) [])
      else
        let cs := resize (length ls - 1) 0 (cursors s) in
        let cs := (fun _ => 0) <$> cs in
        '(res, cs) ← intersect (values self) base cs (drop 1 ls) [];
        Done (res, mkScratch gs ls cs res).

Definition candidates (self : TrigramIndex) (query : str) : run (list N) :=
  '(res, _) ← candidates_with_scratch self query scratch_default;
  Done res.

(** ** The trigrams of a text *)

(** The trigrams of the windows of three bytes. *)
Fixpoint grams (bs : list N) : list N :=
  match bs with
  | a :: ((b :: c :: _) as rest) => pack_trigram (fold_byte a) (fold_byte b) (fold_byte c) :: grams rest
  | _ => []
  end.

Lemma grams_cons a b c l :
  grams (a :: b :: c :: l) = pack_trigram (fold_byte a) (fold_byte b) (fold_byte c) :: grams (b :: c :: l).
Proof. done. Qed.

Lemma trigrams_loop_spec cs : forall a b out,
  trigrams_loop (fold_byte a) (fold_byte b) cs out = out ++ grams (a :: b :: cs).
Proof.
  induction cs as [|c cs IH]; intros a b out; simpl; [by rewrite app_nil_r|].
  rewrite IH, <-app_assoc. done.
Qed.

Lemma trigrams_spec text out : trigrams text out = Done (out ++ grams (as_bytes text)).
Proof.
  unfold trigrams, trigrams_ascii_bytes.
  destruct (as_bytes text) as [|a [|b [|c cs]]]; simpl; [by rewrite app_nil_r..|].
  by rewrite trigrams_loop_spec, <-app_assoc.
Qed.

Lemma fold_byte_idem b : fold_byte (fold_byte b) = fold_byte b.
Proof.
  unfold fold_byte, is_ascii_uppercase. destruct (N.leb_spec 65 b), (N.leb_spec b 90); simpl;
    repeat match goal with |- context [(?x <=? ?y)%N] => destruct (N.leb_spec x y) end; simpl; lia.
Qed.

(** Trigrams do not see case. *)
Lemma grams_fold bs : grams (fold_byte <$> bs) = grams bs.
Proof.
  induction bs as [|a [|b [|c bs]] IH]; [done..|]. rewrite !fmap_cons in *. rewrite !grams_cons, !fold_byte_idem.
  f_equal. exact IH.
Qed.

Lemma grams_app_r x y g : g ∈ grams y -> g ∈ grams (x ++ y).
Proof.
  intros Hg. induction x as [|a x IH]; [done|]. simpl.
  destruct (x ++ y) as [|b [|c l]]; [by apply not_elem_of_nil in IH..|]. by apply elem_of_cons; right.
Qed.

Lemma grams_app_l x y g : g ∈ grams x -> g ∈ grams (x ++ y).
Proof.
  induction x as [|a [|b [|c x]] IH]; [by intros ?%not_elem_of_nil..|].
  rewrite <-!app_comm_cons in *. rewrite !grams_cons, !elem_of_cons. naive_solver.
Qed.

(** ** Packed trigrams and pairs *)

Lemma lor_lt x y n : (x < 2 ^ n)%N -> (y < 2 ^ n)%N -> (N.lor x y < 2 ^ n)%N.
Proof.
  intros Hx Hy. destruct (decide (x = 0%N)) as [->|Hx0]; [by rewrite N.lor_0_l|].
  destruct (decide (y = 0%N)) as [->|Hy0]; [by rewrite N.lor_0_r|].
  apply N.log2_lt_pow2.
  - destruct (N.eq_0_gt_0_cases (N.lor x y)) as [[? _]%N.lor_eq_0_iff|?]; done.
  - rewrite N.log2_lor. apply N.max_lub_lt; apply N.log2_lt_pow2; lia.
Qed.

Lemma encode_utf8_byte c x : is_scalar c = true -> x ∈ encode_utf8 c -> (x < 2 ^ 8)%N.
Proof.
  intros Hc Hx. assert (Hlt : (c < 0x110000)%N).
  { unfold is_scalar in Hc. destruct (N.ltb_spec c 0xD800); [lia|]. simpl in Hc.
    apply andb_true_iff in Hc as [_ Hc]. by apply N.ltb_lt. }
  assert (Hcont : forall s, (continuation c s < 2 ^ 8)%N).
  { intros s. apply lor_lt; [done|]. change 0x3F%N with (N.ones 6). rewrite N.land_ones.
    pose proof (N.mod_lt (N.shiftr c s) (2 ^ 6)). lia. }
  unfold encode_utf8 in Hx.
  repeat match type of Hx with context [(c <? ?k)%N] => destruct (N.ltb_spec c k) end;
    repeat (apply elem_of_cons in Hx as [->|Hx]); try apply Hcont; try (by apply not_elem_of_nil in Hx);
    first [lia|apply lor_lt; [done|apply shiftr_lt; lia]].
Qed.

Lemma as_bytes_byte s x : scalars s -> x ∈ as_bytes s -> (x < 2 ^ 8)%N.
Proof.
  intros Hs Hx. unfold as_bytes in Hx. apply list_elem_of_In, List.in_concat in Hx as (l & Hl%list_elem_of_In & Hx%list_elem_of_In).
  apply list_elem_of_fmap in Hl as (c & -> & Hc). unfold scalars in Hs. rewrite Forall_forall in Hs.
  apply (encode_utf8_byte c); [by apply Hs|done].
Qed.

Lemma fold_byte_lt b : (b < 2 ^ 8)%N -> (fold_byte b < 2 ^ 8)%N.
Proof.
  unfold fold_byte, is_ascii_uppercase. intros Hb. destruct (N.leb_spec 65 b), (N.leb_spec b 90); simpl; lia.
Qed.

Lemma grams_lt bs g : Forall (fun b => b < 2 ^ 8)%N bs -> g ∈ grams bs -> (g < 2 ^ 32)%N.
Proof.
  induction bs as [|a [|b [|c bs]] IH]; intros Hb; [by intros ?%not_elem_of_nil..|].
  apply Forall_cons in Hb as [Ha Hb]. pose proof Hb as [Hb1 [Hc1 _]%Forall_cons]%Forall_cons.
  rewrite grams_cons. intros [->|Hg]%elem_of_cons; [|by apply IH].
  apply fold_byte_lt in Ha, Hb1, Hc1. unfold pack_trigram. rewrite !N.shiftl_mul_pow2.
  repeat apply lor_lt; lia.
Qed.

Lemma pack_pair_eq id g : (id < 2 ^ 32)%N -> pack_pair id g = (g * 2 ^ 32 + id)%N.
Proof.
  intros Hid. unfold pack_pair. rewrite N.shiftl_mul_pow2.
  assert (Hl : N.land (g * 2 ^ 32) id = 0%N).
  { rewrite <-N.shiftl_mul_pow2. apply N.bits_inj_0. intros n. rewrite N.land_spec.
    destruct (N.lt_ge_cases n 32) as [Hn|Hn]; [by rewrite N.shiftl_spec_low|].
    rewrite <-(N.mod_small id (2 ^ 32)), N.mod_pow2_bits_high by done. apply andb_false_r. }
  by rewrite <-N.lxor_lor, <-N.add_nocarry_lxor.
Qed.

Lemma unpack_pair id g :
  (id < 2 ^ 32)%N -> (g < 2 ^ 32)%N ->
  (N.shiftr (pack_pair id g) 32 mod 2 ^ 32 = g /\ pack_pair id g mod 2 ^ 32 = id)%N.
Proof.
  intros Hid Hg. rewrite pack_pair_eq by done. rewrite N.shiftr_div_pow2. split.
  - rewrite N.div_add_l, (N.div_small id) by done. rewrite N.add_0_r. by apply N.mod_small.
  - rewrite N.add_comm, N.Div0.mod_add. by apply N.mod_small.
Qed.

(** ** The layout of posting lists *)

(** The posting list of each trigram, in order. *)
Notation table := (list (N * list N)) (only parsing).

Definition starts (D : table) (i : nat) : nat := length (concat (take i D).*2).

Definition layout (D : table) : TrigramIndex :=
  mkIndex D.*1 ((fun i => as_u32 (starts D i)) <$> seq 0 (S (length D))) (concat D.*2).

(** Consecutive pairs with the same trigram, after the ids [l] of the trigram [k]. *)
Fixpoint group_from (k : N) (l : list N) (ps : list (N * N)) : table :=
  match ps with
  | [] => [(k, l)]
  | (g, id) :: ps => if decide (k = g) then group_from k (l ++ [id]) ps else (k, l) :: group_from g [id] ps
  end.

Definition groups (ps : list (N * N)) : table :=
  match ps with [] => [] | (g, id) :: ps => group_from g [id] ps end.

Lemma concat_snoc_table (D : table) k l : concat (D ++ [(k, l)]).*2 = concat D.*2 ++ l.
Proof. rewrite fmap_app, concat_app. simpl. by rewrite app_nil_r. Qed.

Lemma layout_snoc (D : table) k l :
  layout (D ++ [(k, l)]) =
  mkIndex (keys (layout D) ++ [k]) (offsets (layout D) ++ [as_u32 (length (values (layout D) ++ l))])
    (values (layout D) ++ l).
Proof.
  unfold layout. cbn [keys offsets values]. rewrite concat_snoc_table, fmap_app. f_equal.
  rewrite length_app, Nat.add_1_r, (seq_S (S (length D))), fmap_app. f_equal.
  - apply list_fmap_ext. intros i x Hx. apply lookup_seq in Hx as [-> Hi]. unfold starts. simpl.
    by rewrite take_app_le by lia.
  - simpl. unfold starts. rewrite take_ge by (rewrite length_app; simpl; lia). by rewrite concat_snoc_table.
Qed.

Definition finish (r : list N * list N * list N * option N) : TrigramIndex :=
  let '(ks, os, vs, cur_key) := r in
  match cur_key with
  | Some k => mkIndex (ks ++ [k]) (os ++ [as_u32 (length vs)]) vs
  | None => mkIndex ks os vs
  end.

Lemma build_loop_spec ps : forall (D : table) k l,
  Forall (fun p => (p.1 < 2 ^ 32)%N /\ (p.2 < 2 ^ 32)%N) ps ->
  finish (build_loop ((fun p => pack_pair p.2 p.1) <$> ps) (keys (layout D)) (offsets (layout D))
            (values (layout D) ++ l) (Some k)) =
  layout (D ++ group_from k l ps).
Proof.
  induction ps as [|[g id] ps IH]; intros D k l Hps; cbn -[layout pack_pair].
  { by rewrite layout_snoc. }
  apply Forall_cons in Hps as [[Hg Hid] Hps]. simpl in Hg, Hid.
  destruct (unpack_pair id g Hid Hg) as [-> ->]. case_decide as Hk.
  - rewrite <-app_assoc. by apply IH.
  - specialize (IH (D ++ [(k, l)]) g [id] Hps). rewrite layout_snoc in IH. cbn -[layout pack_pair] in IH.
    rewrite <-!app_assoc in IH. rewrite <-app_assoc. exact IH.
Qed.

Lemma build_spec b ps :
  sorted_dedup (pairs b) = (fun p => pack_pair p.2 p.1) <$> ps ->
  Forall (fun p => (p.1 < 2 ^ 32)%N /\ (p.2 < 2 ^ 32)%N) ps ->
  build b = layout (groups ps).
Proof.
  intros Hs Hps. unfold build. rewrite Hs.
  change (finish (build_loop ((λ p : N * N, pack_pair p.2 p.1) <$> ps) [] [0%N] [] None) = layout (groups ps)).
  destruct ps as [|[g id] ps]; [done|]. apply Forall_cons in Hps as [[Hg Hid] Hps]. simpl in Hg, Hid.
  cbn -[layout pack_pair]. destruct (unpack_pair id g Hid Hg) as [-> ->].
  apply (build_loop_spec ps [] g [id] Hps).
Qed.

Lemma build_aligned b : length (offsets (build b)) = S (length (keys (build b))).
Proof.
  assert (Hloop : forall ps ks os vs k ks' os' vs' k', build_loop ps ks os vs k = (ks', os', vs', k') ->
    length os = S (length ks) -> length os' = S (length ks')).
  { induction ps as [|p ps IH]; intros ks os vs k ks' os' vs' k' He Hl; simpl in He; [by simplify_eq|].
    repeat case_match; eapply IH; try exact He; rewrite ?length_app; simpl; lia. }
  unfold build. destruct (build_loop _ _ _ _ _) as [[[ks os] vs] [k|]] eqn:He; simpl;
    apply Hloop in He; rewrite ?length_app; simpl; done || lia.
Qed.

(** ** The groups of sorted pairs *)

Definition lt_pair (p q : N * N) : Prop := (p.1 < q.1 \/ p.1 = q.1 /\ p.2 < q.2)%N.

Record wf_table (D : table) : Prop := {
  wt_keys : StronglySorted N.lt D.*1;
  wt_lists : Forall (fun e => e.2 <> [] /\ StronglySorted N.lt e.2) D
}.

Lemma group_from_elem ps : forall k l g id,
  (exists l', (g, l') ∈ group_from k l ps /\ id ∈ l') <-> (g, id) ∈ ((k,.) <$> l) ++ ps.
Proof.
  induction ps as [|[g' id'] ps IH]; intros k l g id; simpl.
  - rewrite app_nil_r, list_elem_of_fmap. setoid_rewrite list_elem_of_singleton. naive_solver.
  - case_decide as Hk.
    + subst g'. rewrite IH, fmap_app, <-app_assoc. done.
    + setoid_rewrite elem_of_cons. rewrite elem_of_app, elem_of_cons, list_elem_of_fmap.
      specialize (IH g' [id'] g id). simpl in IH. rewrite elem_of_cons in IH. naive_solver.
Qed.

Lemma StronglySorted_fmap_pair k l :
  StronglySorted lt_pair ((k,.) <$> l) -> StronglySorted N.lt l.
Proof.
  induction l as [|x l IH]; intros Hs; [constructor|]. rewrite fmap_cons in Hs. apply StronglySorted_inv in Hs as [Hs Hx].
  constructor; [by apply IH|]. rewrite Forall_fmap in Hx. eapply Forall_impl; [exact Hx|].
  intros y [Hy|[_ Hy]]; simpl in Hy; [lia|done].
Qed.

Lemma StronglySorted_app_inv {A} (R : relation A) l1 l2 :
  StronglySorted R (l1 ++ l2) ->
  StronglySorted R l1 /\ StronglySorted R l2 /\ forall x y, x ∈ l1 -> y ∈ l2 -> R x y.
Proof.
  induction l1 as [|x l1 IH]; simpl; intros Hs.
  { split_and!; [constructor|done|]. by intros ? ? ?%not_elem_of_nil. }
  apply StronglySorted_inv in Hs as [Hs Hx]. destruct (IH Hs) as (H1 & H2 & H3).
  rewrite Forall_app in Hx. destruct Hx as [Hx1 Hx2]. split_and!; [by constructor|done|].
  intros y z [->|Hy]%elem_of_cons Hz; [|by apply H3]. rewrite Forall_forall in Hx2. by apply Hx2.
Qed.

Lemma group_from_wf ps : forall k l,
  l <> [] -> StronglySorted lt_pair (((k,.) <$> l) ++ ps) ->
  wf_table (group_from k l ps) /\ Forall (fun e => (k <= e.1)%N) (group_from k l ps).
Proof.
  induction ps as [|[g id] ps IH]; intros k l Hne Hs; simpl.
  - rewrite app_nil_r in Hs. split; [|by repeat constructor]. split; [repeat constructor|].
    constructor; [|constructor]. split; [done|]. by eapply StronglySorted_fmap_pair.
  - case_decide as Hk.
    + subst g. apply IH; [by destruct l|]. by rewrite fmap_app, <-app_assoc.
    + apply StronglySorted_app_inv in Hs as (H1 & H2 & H3).
      destruct (IH g [id] ltac:(done) H2) as [[Hk' Hl] Hge].
      assert (Hkg : (k < g)%N).
      { destruct l as [|x l]; [done|]. destruct (H3 (k, x) (g, id)) as [?|[? _]]; [by left|by left|done|].
        simpl in *. done. }
      split; [split|].
      * simpl. constructor; [done|]. apply Forall_fmap. eapply Forall_impl; [exact Hge|]. simpl. lia.
      * constructor; [|done]. split; [done|]. by eapply StronglySorted_fmap_pair.
      * constructor; [done|]. eapply Forall_impl; [exact Hge|]. simpl. lia.
Qed.

Lemma groups_spec ps :
  StronglySorted lt_pair ps ->
  wf_table (groups ps) /\
  forall g id, (exists l, (g, l) ∈ groups ps /\ id ∈ l) <-> (g, id) ∈ ps.
Proof.
  destruct ps as [|[g0 id0] ps]; intros Hs; simpl.
  { split; [split; constructor|]. intros g id. setoid_rewrite elem_of_nil. naive_solver. }
  split; [by apply (group_from_wf ps g0 [id0])|]. intros g id. apply (group_from_elem ps g0 [id0]).
Qed.

(** ** Searching in sorted lists *)

(** The elements before [c] are below the target, the others are not. *)
Definition below_to (l : list N) (c : nat) (x : N) : Prop := forall i y, i < c -> l !! i = Some y -> (y < x)%N.
Definition above_from (l : list N) (c : nat) (x : N) : Prop := forall i y, c <= i -> l !! i = Some y -> (x <= y)%N.

Lemma sorted_lookup l i j x y :
  StronglySorted N.lt l -> l !! i = Some x -> l !! j = Some y -> i < j -> (x < y)%N.
Proof.
  intros Hs. revert i j. induction Hs as [|z l Hs IH Hz]; intros i j Hi Hj Hij; [done|].
  destruct j as [|j]; [lia|]. simpl in Hj. destruct i as [|i]; [|by apply (IH i j); [..|lia]].
  injection Hi as ->. rewrite Forall_forall in Hz. apply Hz. by eapply list_elem_of_lookup_2.
Qed.

Lemma above_from_at l c x y :
  StronglySorted N.lt l -> l !! c = Some y -> (x <= y)%N -> above_from l c x.
Proof.
  intros Hs Hy Hle i z Hi Hz. destruct (decide (i = c)) as [->|Hne]; [by simplify_eq|].
  pose proof (sorted_lookup l c i y z Hs Hy Hz ltac:(lia)). lia.
Qed.

Lemma below_to_at l c x y :
  StronglySorted N.lt l -> l !! c = Some y -> (y < x)%N -> below_to l (S c) x.
Proof.
  intros Hs Hy Hlt i z Hi Hz. destruct (decide (i = c)) as [->|Hne]; [by simplify_eq|].
  pose proof (sorted_lookup l i c z y Hs Hz Hy ltac:(lia)). lia.
Qed.

Lemma search_place l x : StronglySorted N.lt l -> forall i,
  match search_from i l x with
  | Found j => exists c, j = i + c /\ l !! c = Some x
  | Insert j => exists c, j = i + c /\ c <= length l /\ below_to l c x /\
      forall y, l !! c = Some y -> (x < y)%N
  end.
Proof.
  induction 1 as [|y l Hs IH Hy]; intros i; simpl.
  { exists 0. split_and!; [lia|done|intros ? ? ?; lia|done]. }
  destruct (N.compare_spec y x) as [->|Hlt|Hgt].
  - exists 0. split; [lia|done].
  - specialize (IH (S i)). destruct (search_from (S i) l x) as [j|j].
    + destruct IH as (c & -> & Hc). exists (S c). split; [lia|done].
    + destruct IH as (c & -> & Hc & Hb & Ha). exists (S c). split_and!; [lia|simpl; lia| |done].
      intros [|k] z Hk Hz; simpl in Hz; [by simplify_eq|]. apply (Hb k); [lia|done].
  - exists 0. split_and!; [lia|simpl; lia|intros ? ? ?; lia|]. by intros ? [= <-].
Qed.

Lemma binary_search_found l x :
  StronglySorted N.lt l ->
  match binary_search l x with Found j => l !! j = Some x | Insert _ => x ∉ l end.
Proof.
  intros Hs. pose proof (search_place l x Hs 0) as H. unfold binary_search.
  destruct (search_from 0 l x) as [j|j]; destruct H as (c & -> & H); simpl; [done|].
  destruct H as (_ & Hb & Ha). intros (i & Hi)%list_elem_of_lookup.
  destruct (decide (i < c)) as [Hlt|Hge]; [specialize (Hb _ _ Hlt Hi); lia|].
  destruct (l !! c) as [y|] eqn:Hy.
  - pose proof (above_from_at l c (x + 1) y Hs Hy) as Hab. specialize (Ha y eq_refl).
    specialize (Hab ltac:(lia) i x ltac:(lia) Hi). lia.
  - apply lookup_ge_None in Hy. apply lookup_lt_Some in Hi. lia.
Qed.

Lemma gallop_spec l ix x fuel : forall step y,
  1 <= fuel -> 1 <= step -> length l < fuel + step -> l !! (ix + step / 2) = Some y -> (y < x)%N ->
  exists step', gallop fuel l ix step x = Done step' /\ 1 <= step' /\
    (exists y', l !! (ix + step' / 2) = Some y' /\ (y' < x)%N) /\
    (forall z, l !! (ix + step') = Some z -> (x <= z)%N).
Proof.
  induction fuel as [|fuel IH]; intros step y Hf1 H1 Hf Hy Hlt; [lia|]. cbn [gallop].
  case_decide as Hin.
  2:{ exists step. split_and!; [done|done|by exists y|]. intros z Hz%lookup_lt_Some. lia. }
  destruct (lookup_lt_is_Some_2 l (ix + step) Hin) as [z Hz]. unfold idx. rewrite Hz, bind_Done_l.
  case_decide as Hc.
  - apply (IH (step * 2) z); [lia..| |done]. rewrite Nat.div_mul by done. done.
  - exists step. split_and!; [done|done|by exists y|]. intros w Hw. simplify_eq. lia.
Qed.

Lemma slice_of_lookup l lo hi :
  lo <= hi -> hi <= length l ->
  slice_of l lo hi = Done (take (hi - lo) (drop lo l)) /\ length (take (hi - lo) (drop lo l)) = hi - lo /\
  forall i, i < hi - lo -> take (hi - lo) (drop lo l) !! i = l !! (lo + i).
Proof.
  intros H1 H2. unfold slice_of. rewrite decide_True by done. split_and!; [done| |].
  - rewrite length_take, length_drop. lia.
  - intros i Hi. rewrite lookup_take_lt by done. apply lookup_drop.
Qed.

Lemma sublist_sorted (l k : list N) : k `sublist_of` l -> StronglySorted N.lt l -> StronglySorted N.lt k.
Proof.
  induction 1 as [|x k l Hsub IH|x k l Hsub IH]; intros Hs; [done|..];
    apply StronglySorted_inv in Hs as [Hs Hx]; [|by apply IH].
  constructor; [by apply IH|]. rewrite Forall_forall in *. intros y Hy. apply Hx. by eapply elem_of_sublist.
Qed.

(** The binary search in the range that galloping leaves finds the place of the target. *)
Lemma advance_range l lo hi x :
  StronglySorted N.lt l -> lo < hi -> hi <= length l ->
  (exists y, l !! lo = Some y /\ (y < x)%N) -> (hi = length l \/ exists z, l !! (hi - 1) = Some z /\ (x <= z)%N) ->
  exists pos, (range ← slice_of l lo hi;
     match binary_search range x with Found pos | Insert pos => Done (lo + pos) end) = Done (lo + pos) /\
    below_to l (lo + pos) x /\ above_from l (lo + pos) x.
Proof.
  intros Hs Hlo Hhi (y & Hy & Hyx) Hend.
  destruct (slice_of_lookup l lo hi ltac:(lia) Hhi) as (-> & Hlen & Hlook). rewrite bind_Done_l.
  set (range := take (hi - lo) (drop lo l)) in *.
  assert (Hrs : StronglySorted N.lt range).
  { eapply sublist_sorted; [|exact Hs]. unfold range. etrans; [apply sublist_take|apply sublist_drop]. }
  pose proof (search_place range x Hrs 0) as H. unfold binary_search.
  assert (Hbelow : forall c, (forall i z, i < c -> range !! i = Some z -> (z < x)%N) -> c <= hi - lo -> below_to l (lo + c) x).
  { intros c Hc Hcl i z Hi Hz. destruct (decide (i < S lo)) as [Hil|Hil]; [by eapply (below_to_at l lo x y)|].
    apply (Hc (i - lo)); [lia|]. rewrite Hlook by lia. by replace (lo + (i - lo)) with i by lia. }
  destruct (search_from 0 range x) as [j|j]; destruct H as (c & -> & H); exists (0 + c); (split; [done|]); simpl.
  - apply lookup_lt_Some in H as Hc. assert (Hlc : l !! (lo + c) = Some x) by (rewrite <-Hlook by lia; done).
    split; [|by apply (above_from_at l (lo + c) x x)]. apply Hbelow; [|lia].
    intros i z Hi Hz. by apply (sorted_lookup range i c z x).
  - destruct H as (Hc & Hb & Ha). split; [apply Hbelow; [exact Hb|lia]|].
    destruct (decide (c < hi - lo)) as [Hlt|Hge].
    + destruct (lookup_lt_is_Some_2 range c ltac:(lia)) as [z Hz]. specialize (Ha z Hz).
      apply (above_from_at l (lo + c) x z Hs); [by rewrite <-Hlook|lia].
    + assert (Hch : lo + c = hi) by lia. rewrite Hch. destruct Hend as [->|(z & Hz & Hxz)].
      * intros i w Hi Hw%lookup_lt_Some. lia.
      * exfalso. assert (Hr : range !! (hi - lo - 1) = Some z).
        { rewrite Hlook by lia. by replace (lo + (hi - lo - 1)) with (hi - 1) by lia. }
        pose proof (Hb (hi - lo - 1) z ltac:(lia) Hr). lia.
Qed.

Lemma split_elem l c x :
  StronglySorted N.lt l -> below_to l c x -> above_from l c x -> x ∈ l <-> l !! c = Some x.
Proof.
  intros Hs Hb Ha. split; [|by apply list_elem_of_lookup_2]. intros (i & Hi)%list_elem_of_lookup.
  destruct (decide (i < c)) as [Hlt|Hge]; [specialize (Hb _ _ Hlt Hi); lia|].
  destruct (decide (i = c)) as [->|Hne]; [done|]. apply lookup_lt_Some in Hi as Hil.
  destruct (lookup_lt_is_Some_2 l c ltac:(lia)) as [y Hy]. pose proof (Ha c y ltac:(lia) Hy).
  pose proof (sorted_lookup l c i y x Hs Hy Hi ltac:(lia)). lia.
Qed.

(** [advance_to] moves the cursor to the first element that is not before the target. *)
Lemma advance_to_spec l cursor x :
  StronglySorted N.lt l -> below_to l cursor x ->
  exists c, advance_to l cursor x = Done (bool_decide (x ∈ l), c) /\ below_to l c x /\ above_from l c x.
Proof.
  intros Hs Hb. unfold advance_to. case_decide as Hlen.
  { exists cursor. assert (Ha : above_from l cursor x) by (intros i y Hi Hy%lookup_lt_Some; lia).
    split; [|done]. rewrite bool_decide_eq_false_2; [done|]. rewrite (split_elem l cursor x Hs Hb Ha).
    intros Hc%lookup_lt_Some. lia. }
  assert (Hfound : forall c, below_to l c x -> above_from l c x ->
    (found ← (if decide (c < length l) then y ← idx l c; Done (bool_decide (y = x)) else Done false);
     Done (found, c)) = Done (bool_decide (x ∈ l), c)).
  { intros c Hbc Hac. pose proof (split_elem l c x Hs Hbc Hac) as He. case_decide as Hcl.
    - destruct (lookup_lt_is_Some_2 l c Hcl) as [y Hy]. unfold idx. rewrite Hy. simpl. do 2 f_equal.
      apply bool_decide_ext. rewrite He, Hy. split; congruence.
    - simpl. rewrite bool_decide_eq_false_2; [done|]. rewrite He. intros Hc%lookup_lt_Some. lia. }
  destruct (lookup_lt_is_Some_2 l cursor ltac:(lia)) as [y Hy]. rewrite (proj2 (idx_Done l cursor y) Hy), bind_Done_l.
  destruct (decide (y < x)%N) as [Hyx|Hyx].
  2:{ exists cursor. rewrite bind_Done_l. assert (Ha : above_from l cursor x) by (apply (above_from_at l cursor x y Hs Hy); lia).
      by rewrite Hfound. }
  destruct (gallop_spec l cursor x (S (length l)) 1 y) as (step & -> & Hstep & (y' & Hy' & Hyx') & Hz);
    [lia..|by rewrite Nat.add_0_r|done|].
  rewrite bind_Done_l. cbv zeta. apply lookup_lt_Some in Hy' as Hlo.
  assert (Hdiv : step / 2 < step) by (apply Nat.div_lt; lia).
  destruct (advance_range l (cursor + step / 2) (Nat.min (cursor + step + 1) (length l)) x)
    as (pos & -> & Hb' & Ha'); [done|lia|lia|by exists y'| |].
  { destruct (decide (cursor + step + 1 <= length l)) as [Hle|Hgt]; [right|left; lia].
    destruct (lookup_lt_is_Some_2 l (cursor + step) ltac:(lia)) as [z Hzz]. exists z.
    replace (Nat.min _ _ - 1) with (cursor + step) by lia. auto. }
  rewrite bind_Done_l. exists (cursor + step / 2 + pos). by rewrite Hfound.
Qed.

(** ** Intersecting posting lists *)

(** The range [r] of [vs] holds the sorted list [l]. *)
Definition range_ok (vs : list N) (r : N * N) (l : list N) : Prop :=
  slice_of vs (N.to_nat r.1) (N.to_nat r.2) = Done l /\ StronglySorted N.lt l.

Lemma below_mono l c x y : below_to l c x -> (x <= y)%N -> below_to l c y.
Proof. intros Hb Hxy i z Hi Hz. specialize (Hb i z Hi Hz). lia. Qed.

Lemma check_lists_spec vs x ls : forall cs others,
  Forall2 (range_ok vs) ls others -> Forall2 (fun c l => below_to l c x) cs others ->
  exists r cs', check_lists vs x cs ls = Done (r, cs') /\
    Forall2 (fun c l => below_to l c x) cs' others /\
    match r with
    | Present => forall l, l ∈ others -> x ∈ l
    | Absent => exists l, l ∈ others /\ x ∉ l
    | Exhausted => exists l, l ∈ others /\ forall y, y ∈ l -> (y < x)%N
    end.
Proof.
  induction ls as [|[s e] ls IH]; intros cs others Hr Hc; inversion Hr as [|? l ? others' [Hsl Hs] Hr']; subst;
    inversion Hc as [|c ? cs' ? Hb Hc']; subst; cbn [check_lists].
  { eexists _, _. split; [done|]. split; [done|]. by intros l ?%not_elem_of_nil. }
  simpl in Hsl. rewrite Hsl, bind_Done_l.
  destruct (advance_to_spec l c x Hs Hb) as (c' & -> & Hb' & Ha'). rewrite bind_Done_l.
  case_bool_decide as Hx.
  - destruct (IH cs' others' Hr' Hc') as (r & cs'' & -> & Hcs & Hm). rewrite bind_Done_l.
    eexists _, _. split; [done|]. split; [by constructor|].
    destruct r; [intros l'; rewrite elem_of_cons; naive_solver|..];
      (destruct Hm as (l' & Hl' & Hm); exists l'; split; [by right|done]).
  - case_decide as Hlen; eexists _, _; (split; [done|]); (split; [by constructor|]); exists l; (split; [by left|]); [|done].
    intros y (i & Hi)%list_elem_of_lookup. apply (Hb' i); [|done]. apply lookup_lt_Some in Hi. lia.
Qed.

Lemma intersect_spec vs ls others base : forall cs acc,
  Forall2 (range_ok vs) ls others -> StronglySorted N.lt base ->
  (forall x, x ∈ base -> Forall2 (fun c l => below_to l c x) cs others) ->
  Forall2 (fun _ _ => True) cs others ->
  exists cs', intersect vs base cs ls acc =
    Done (acc ++ filter (fun x => Forall (fun l => x ∈ l) others) base, cs').
Proof.
  induction base as [|x base IH]; intros cs acc Hr Hs Hb Hc; cbn [intersect].
  { exists cs. by rewrite filter_nil, app_nil_r. }
  apply StronglySorted_inv in Hs as [Hs Hx]. rewrite Forall_forall in Hx.
  destruct (check_lists_spec vs x ls cs others Hr (Hb x ltac:(by left))) as (r & cs' & -> & Hcs & Hm).
  rewrite bind_Done_l. rewrite filter_cons.
  assert (Hnext : forall y, y ∈ base -> Forall2 (fun c l => below_to l c y) cs' others).
  { intros y Hy. eapply Forall2_impl; [exact Hcs|]. intros c l Hcl. eapply below_mono; [exact Hcl|].
    specialize (Hx y Hy). lia. }
  assert (Hlen : Forall2 (fun _ _ => True) cs' others) by (eapply Forall2_impl; [exact Hcs|done]).
  destruct r.
  - rewrite decide_True by (by apply Forall_forall). destruct (IH cs' (acc ++ [x]) Hr Hs Hnext Hlen) as (cs'' & ->).
    exists cs''. by rewrite <-app_assoc.
  - destruct Hm as (l & Hl & Hxl). rewrite decide_False by (rewrite Forall_forall; naive_solver). by apply IH.
  - destruct Hm as (l & Hl & Hall). exists cs'. rewrite decide_False.
    2:{ rewrite Forall_forall. intros Hin. specialize (Hall x (Hin l Hl)). lia. }
    rewrite (elem_of_nil_inv (filter _ base)), app_nil_r; [done|]. intros y [Hy Hin]%list_elem_of_filter.
    rewrite Forall_forall in Hy. specialize (Hall y (Hy l Hl)). specialize (Hx y Hin). lia.
Qed.

(** ** Candidates *)

Section Candidates.
Context (D : table) (Hwf : wf_table D) (Hsmall : (N.of_nat (length (concat D.*2)) < 2 ^ 32)%N).

Lemma table_split i g l :
  D !! i = Some (g, l) -> concat D.*2 = concat (take i D).*2 ++ l ++ concat (drop (S i) D).*2.
Proof.
  intros Hi. rewrite <-(take_drop_middle D i (g, l) Hi) at 1. by rewrite fmap_app, concat_app.
Qed.

Lemma starts_S i g l : D !! i = Some (g, l) -> starts D (S i) = starts D i + length l.
Proof.
  intros Hi. unfold starts. rewrite (take_S_r _ _ _ Hi), fmap_app, concat_app, length_app. simpl.
  by rewrite app_nil_r.
Qed.

Lemma list_starts_le i : starts D i <= length (concat D.*2).
Proof.
  unfold starts. rewrite <-(take_drop i D) at 2. rewrite fmap_app, concat_app, length_app. lia.
Qed.

Lemma layout_offset i : i <= length D -> offsets (layout D) !! i = Some (N.of_nat (starts D i)).
Proof.
  intros Hi. unfold layout. cbn [offsets]. rewrite list_lookup_fmap, lookup_seq_lt by lia. simpl.
  rewrite as_u32_small; [done|]. pose proof (list_starts_le i). lia.
Qed.

(** The range of a posting list. *)
Definition range_at (i : nat) : N * N := (N.of_nat (starts D i), N.of_nat (starts D (S i))).

Lemma range_at_ok i g l : D !! i = Some (g, l) -> range_ok (values (layout D)) (range_at i) l /\ l <> [].
Proof.
  intros Hi. pose proof (wt_lists _ Hwf) as Hl. rewrite Forall_forall in Hl.
  destruct (Hl (g, l)) as [Hne Hs]; [by eapply list_elem_of_lookup_2|]. split; [|done]. split; [|done].
  unfold range_at, slice_of. cbn [fst snd]. rewrite !Nat2N.id, (starts_S i g l Hi).
  pose proof (list_starts_le (S i)) as Hle. rewrite (starts_S i g l Hi) in Hle.
  rewrite decide_True by (split; [lia|exact Hle]). cbn [values layout].
  rewrite (table_split i g l Hi). unfold starts. rewrite drop_app_length.
  replace (_ + length l - _) with (length l) by lia. by rewrite take_app_length.
Qed.

Lemma key_index g : match binary_search (keys (layout D)) g with
  | Found i => exists l, D !! i = Some (g, l)
  | Insert _ => forall l, (g, l) ∉ D
  end.
Proof.
  pose proof (binary_search_found (keys (layout D)) g (wt_keys _ Hwf)) as H. cbn [keys layout] in *.
  destruct (binary_search D.*1 g) as [i|i].
  - rewrite list_lookup_fmap in H. destruct (D !! i) as [[g' l]|]; [|done]. injection H as ->. by exists l.
  - intros l Hin. apply H. apply list_elem_of_fmap. by exists (g, l).
Qed.

Lemma key_unique i g l l' : D !! i = Some (g, l) -> (g, l') ∈ D -> l' = l.
Proof.
  intros Hi (j & Hj)%list_elem_of_lookup. destruct (decide (i = j)) as [->|Hne]; [by simplify_eq|].
  assert (Hk : forall k l0, D !! k = Some (g, l0) -> D.*1 !! k = Some g) by (intros k l0 Hk; by rewrite list_lookup_fmap, Hk).
  pose proof (sorted_lookup D.*1 i j g g (wt_keys _ Hwf) (Hk _ _ Hi) (Hk _ _ Hj)).
  pose proof (sorted_lookup D.*1 j i g g (wt_keys _ Hwf) (Hk _ _ Hj) (Hk _ _ Hi)). lia.
Qed.

Lemma postings_spec g :
  exists l, postings (layout D) g = Done l /\
    forall id, id ∈ l <-> exists l', (g, l') ∈ D /\ id ∈ l'.
Proof.
  unfold postings. pose proof (key_index g) as Hk. destruct (binary_search _ g) as [i|i].
  - destruct Hk as [l Hi]. apply lookup_lt_Some in Hi as Hlt. exists l.
    rewrite (proj2 (idx_Done _ _ _) (layout_offset i ltac:(lia))), bind_Done_l.
    rewrite (proj2 (idx_Done _ _ _) (layout_offset (i + 1) ltac:(lia))), bind_Done_l.
    rewrite Nat.add_1_r. split; [apply (range_at_ok i g l Hi)|]. intros id. split.
    + intros Hid. exists l. split; [by eapply list_elem_of_lookup_2|done].
    + intros (l' & Hl' & Hid). by rewrite (key_unique i g l l' Hi Hl') in Hid.
  - exists []. split; [done|]. intros id. split; [by intros ?%not_elem_of_nil|]. intros (l & Hl & _). by destruct (Hk l).
Qed.

Lemma collect_lists_spec gs : forall ls0,
  exists ls, collect_lists (layout D) gs ls0 = Done (ls0 ++ ls) /\
    (forall r, r ∈ ls -> exists g l, g ∈ gs /\ (g, l) ∈ D /\ range_ok (values (layout D)) r l) /\
    (forall g l, g ∈ gs -> (g, l) ∈ D -> exists r, r ∈ ls /\ range_ok (values (layout D)) r l).
Proof.
  induction gs as [|g gs IH]; intros ls0; cbn [collect_lists].
  { exists []. rewrite app_nil_r. split_and!; [done|..]; by intros ? ?%not_elem_of_nil || intros ? ? ?%not_elem_of_nil. }
  pose proof (key_index g) as Hk. destruct (binary_search _ g) as [i|i].
  - destruct Hk as [l Hi]. apply lookup_lt_Some in Hi as Hlt.
    destruct (range_at_ok i g l Hi) as [Hr Hne].
    rewrite (proj2 (idx_Done _ _ _) (layout_offset i ltac:(lia))), bind_Done_l.
    rewrite (proj2 (idx_Done _ _ _) (layout_offset (i + 1) ltac:(lia))), bind_Done_l, Nat.add_1_r.
    rewrite decide_True. 2:{ rewrite (starts_S i g l Hi). destruct l; [done|]. simpl. lia. }
    destruct (IH (ls0 ++ [range_at i])) as (ls & He & H1 & H2). exists (range_at i :: ls).
    rewrite <-app_assoc in He. split_and!; [exact He|..].
    + intros r [->|Hr']%elem_of_cons.
      * exists g, l. split_and!; [by left|by eapply list_elem_of_lookup_2|done].
      * destruct (H1 r Hr') as (g' & l' & Hg' & Hl'). exists g', l'. split; [by right|done].
    + intros g' l' [->|Hg']%elem_of_cons Hl'.
      * rewrite (key_unique i g l l' Hi Hl'). exists (range_at i). split; [by left|done].
      * destruct (H2 g' l' Hg' Hl') as (r & Hr' & ?). exists r. split; [by right|done].
  - destruct (IH ls0) as (ls & -> & H1 & H2). exists ls. split_and!; [done|..].
    + intros r Hr. destruct (H1 r Hr) as (g' & l & Hg & ?). exists g', l. split; [by right|done].
    + intros g' l [->|Hg]%elem_of_cons Hl; [by destruct (Hk l)|]. by apply (H2 g' l).
Qed.

Lemma ranges_exist ls :
  (forall r, r ∈ ls -> exists l, range_ok (values (layout D)) r l) ->
  exists others, Forall2 (range_ok (values (layout D))) ls others.
Proof.
  induction ls as [|r ls IH]; intros H; [exists []; constructor|].
  destruct IH as [others Ho]; [intros r' Hr'; apply H; by right|]. destruct (H r) as [l Hl]; [by left|].
  exists (l :: others). by constructor.
Qed.

Lemma range_ok_fun vs r l l' : range_ok vs r l -> range_ok vs r l' -> l = l'.
Proof. intros [H1 _] [H2 _]. congruence. Qed.

(** The id is in every posting list of the trigrams [gs], and there is one. *)
Definition selected (gs : list N) (id : N) : Prop :=
  (exists g l, g ∈ gs /\ (g, l) ∈ D) /\ forall g l, g ∈ gs -> (g, l) ∈ D -> id ∈ l.

(** The intersection of the lists of ranges. *)
Lemma intersection_selected gs r0 ls l0 others :
  (forall r, r ∈ r0 :: ls -> exists g l, g ∈ gs /\ (g, l) ∈ D /\ range_ok (values (layout D)) r l) ->
  (forall g l, g ∈ gs -> (g, l) ∈ D -> exists r, r ∈ r0 :: ls /\ range_ok (values (layout D)) r l) ->
  range_ok (values (layout D)) r0 l0 -> Forall2 (range_ok (values (layout D))) ls others ->
  forall id, selected gs id <-> (forall l, l ∈ l0 :: others -> id ∈ l).
Proof.
  intros H1 H2 H0 Ho id. split.
  - intros [_ Hsel] l [->|Hl]%elem_of_cons.
    + destruct (H1 r0) as (g & l & Hg & Hl & Hr); [by left|].
      rewrite (range_ok_fun _ _ _ _ H0 Hr). by apply (Hsel g).
    + apply list_elem_of_lookup in Hl as (i & Hi). destruct (Forall2_lookup_r _ _ _ _ _ Ho Hi) as (r & Hri & Hr).
      destruct (H1 r) as (g & l' & Hg & Hl' & Hr'); [right; by eapply list_elem_of_lookup_2|].
      rewrite (range_ok_fun _ _ _ _ Hr Hr'). by apply (Hsel g).
  - intros Hall. split.
    + destruct (H1 r0) as (g & l & Hg & Hl & _); [by left|]. by exists g, l.
    + intros g l Hg Hl. destruct (H2 g l Hg Hl) as (r & [->|Hr]%elem_of_cons & Hok).
      * rewrite (range_ok_fun _ _ _ _ Hok H0). apply Hall. by left.
      * apply list_elem_of_lookup in Hr as (i & Hi). destruct (Forall2_lookup_l _ _ _ _ _ Ho Hi) as (l' & Hli & Hr').
        rewrite (range_ok_fun _ _ _ _ Hok Hr'). apply Hall. right. by eapply list_elem_of_lookup_2.
Qed.

Lemma zero_cursors n (cs : list nat) : (fun _ => 0) <$> resize n 0 cs = replicate n 0.
Proof.
  apply list_eq. intros i. rewrite list_lookup_fmap. destruct (decide (i < n)) as [Hi|Hi].
  - destruct (lookup_lt_is_Some_2 (resize n 0 cs) i) as [x Hx]; [by rewrite length_resize|].
    by rewrite Hx, lookup_replicate_2.
  - by rewrite !lookup_ge_None_2 by (rewrite ?length_resize, ?length_replicate; lia).
Qed.

Lemma filter_sorted (P : N -> Prop) `{forall x, Decision (P x)} l :
  StronglySorted N.lt l -> StronglySorted N.lt (filter P l).
Proof. apply sublist_sorted, sublist_filter. Qed.

Lemma candidates_spec q s :
  exists res s', candidates_with_scratch (layout D) q s = Done (res, s') /\
    StronglySorted N.lt res /\ forall id, id ∈ res <-> selected (grams (as_bytes q)) id.
Proof.
  unfold candidates_with_scratch. rewrite trigrams_spec, bind_Done_l. simpl app.
  destruct (decide (grams (as_bytes q) = [])) as [Hg|Hg].
  { eexists _, _. split; [done|]. split; [constructor|]. rewrite Hg. intros id. unfold selected.
    rewrite elem_of_nil. setoid_rewrite elem_of_nil. naive_solver. }
  cbv zeta. set (gs := sorted_dedup (grams (as_bytes q))).
  assert (Hgs : forall g, g ∈ gs <-> g ∈ grams (as_bytes q)).
  { intros g. unfold gs, sorted_dedup. by rewrite elem_of_dedup, elem_of_sort_by. }
  assert (Hsel : forall id, selected (grams (as_bytes q)) id <-> selected gs id).
  { intros id. unfold selected. by setoid_rewrite Hgs. }
  setoid_rewrite Hsel.
  destruct (collect_lists_spec gs []) as (ls & -> & H1 & H2). rewrite bind_Done_l. simpl app.
  destruct (decide (ls = [])) as [->|Hls].
  { eexists _, _. split; [done|]. split; [constructor|]. intros id. rewrite elem_of_nil. split; [done|].
    intros [(g & l & Hgg & Hl) _]. destruct (H2 g l Hgg Hl) as (r & ?%not_elem_of_nil & _). done. }
  pose proof (sort_by_perm cmp_len ls) as Hperm. setoid_rewrite <-Hperm in H1. setoid_rewrite <-Hperm in H2.
  destruct (sort_by cmp_len ls) as [|r0 rest] eqn:Hsort; [by apply Permutation_nil in Hperm|].
  change (idx (r0 :: rest) 0) with (Done r0). rewrite bind_Done_l. destruct r0 as [s0 e0] eqn:Hr0. rewrite <-Hr0 in *.
  destruct (H1 r0) as (_ & l0 & _ & _ & [Hl0 Hs0]); [by left|].
  replace (slice_of _ (N.to_nat s0) (N.to_nat e0)) with (Done l0) by (by rewrite <-Hl0, Hr0).
  rewrite bind_Done_l.
  destruct (ranges_exist rest) as [others Ho].
  { intros r Hr. destruct (H1 r) as (g & l & _ & _ & ?); [by right|]. by exists l. }
  pose proof (intersection_selected gs r0 rest l0 others H1 H2 (conj Hl0 Hs0) Ho) as Hint.
  case_decide as Hone.
  { destruct rest; [|done]. inversion Ho; subst others. eexists _, _. split; [done|]. split; [done|].
    intros id. rewrite Hint. setoid_rewrite list_elem_of_singleton. naive_solver. }
  rewrite zero_cursors. cbn [length drop]. rewrite Nat.sub_succ, Nat.sub_0_r, drop_0.
  apply Forall2_length in Ho as Hlen.
  assert (Hb : forall x, Forall2 (fun c l => below_to l c x) (replicate (length rest) 0) others).
  { intros x. apply Forall2_replicate_l; [done|]. apply Forall_forall. intros l _ i y Hi. lia. }
  destruct (intersect_spec (values (layout D)) rest others l0 (replicate (length rest) 0) [] Ho Hs0) as (cs' & ->).
  - intros x _. apply Hb.
  - eapply Forall2_impl; [apply (Hb 0%N)|done].
  - rewrite bind_Done_l. eexists _, _. split; [done|]. simpl app. split; [by apply filter_sorted|].
    intros id. rewrite Hint, list_elem_of_filter, Forall_forall. setoid_rewrite elem_of_cons. naive_solver.
Qed.
End Candidates.

(** ** Building from texts *)

(** The texts are inserted one after the other. *)
Definition index_texts (es : list (N * str)) : run TrigramIndexBuilder :=
  for_each (fun b e => insert b e.1 e.2) es builder_new.

(** One of the texts of [id] has the trigram [g]. *)
Definition has_gram (es : list (N * str)) (g id : N) : Prop :=
  exists t, (id, t) ∈ es /\ g ∈ grams (as_bytes t).

Definition valid_texts (es : list (N * str)) : Prop :=
  Forall (fun e => (e.1 < 2 ^ 32)%N /\ scalars e.2) es.

Lemma elem_of_sorted_dedup x l : x ∈ sorted_dedup l <-> x ∈ l.
Proof. unfold sorted_dedup. by rewrite elem_of_dedup, elem_of_sort_by. Qed.

Lemma sorted_dedup_sorted l : StronglySorted N.lt (sorted_dedup l).
Proof.
  unfold sorted_dedup. eapply (dedup_sorted (cmp_le N.compare)); [..|apply sort_by_sorted; apply _];
    unfold cmp_le; intros *; rewrite ?N.compare_le_iff; lia.
Qed.

Lemma sorted_NoDup l : StronglySorted N.lt l -> NoDup l.
Proof.
  induction 1 as [|x l Hs IH Hx]; constructor; [|done]. rewrite Forall_forall in Hx.
  intros Hin. specialize (Hx x Hin). lia.
Qed.

Lemma sorted_dedup_ext l1 l2 : (forall x, x ∈ l1 <-> x ∈ l2) -> sorted_dedup l1 = sorted_dedup l2.
Proof.
  intros He. apply (StronglySorted_unique_strong N.lt); [intros; lia|apply sorted_dedup_sorted..|].
  apply NoDup_Permutation; [apply sorted_NoDup, sorted_dedup_sorted..|].
  intros x. by rewrite !elem_of_sorted_dedup.
Qed.

Lemma extend_pairs_spec b id gs x :
  x ∈ pairs (extend_pairs b id gs) <-> x ∈ pairs b \/ exists g, g ∈ gs /\ x = pack_pair id g.
Proof.
  unfold extend_pairs. case_decide as Hgs; cbn [pairs].
  - subst gs. setoid_rewrite elem_of_nil. naive_solver.
  - rewrite elem_of_app, list_elem_of_fmap. setoid_rewrite elem_of_sorted_dedup. naive_solver.
Qed.

Lemma index_texts_spec es :
  exists b, index_texts es = Done b /\
    forall x, x ∈ pairs b <-> exists id g, has_gram es g id /\ x = pack_pair id g.
Proof.
  apply wp_inv. unfold index_texts.
  apply (wp_for_each _ es (fun done b => forall x, x ∈ pairs b <->
    exists id g, has_gram done g id /\ x = pack_pair id g)).
  - intros x. cbn [pairs builder_new]. rewrite elem_of_nil. split; [done|].
    by intros (id & g & (t & Ht%not_elem_of_nil & _) & _).
  - intros pre [id t] rest b _ Hb. unfold insert. rewrite trigrams_spec. simpl. intros x.
    rewrite extend_pairs_spec, Hb. split.
    + intros [(id' & g & (t' & Ht & Hg) & ->)|(g & Hg & ->)].
      * exists id', g. split; [|done]. exists t'. split; [by apply elem_of_app; left|done].
      * exists id, g. split; [|done]. exists t. split; [apply elem_of_app; right; by left|done].
    + intros (id' & g & (t' & [Ht|Ht%list_elem_of_singleton]%elem_of_app & Hg) & ->).
      * left. exists id', g. split; [by exists t'|done].
      * right. simplify_eq. by exists g.
Qed.

Lemma has_gram_lt es g id : valid_texts es -> has_gram es g id -> (g < 2 ^ 32)%N /\ (id < 2 ^ 32)%N.
Proof.
  intros Hv (t & Ht & Hg). unfold valid_texts in Hv. rewrite Forall_forall in Hv.
  destruct (Hv _ Ht) as [Hid Hs]. split; [|done]. eapply grams_lt; [|exact Hg].
  apply Forall_forall. intros x Hx. by eapply as_bytes_byte.
Qed.

Lemma fmap_sorted_pair ps :
  Forall (fun p => (p.1 < 2 ^ 32)%N /\ (p.2 < 2 ^ 32)%N) ps ->
  StronglySorted N.lt ((fun p => pack_pair p.2 p.1) <$> ps) -> StronglySorted lt_pair ps.
Proof.
  induction ps as [|[g id] ps IH]; intros Hps Hs; [constructor|]. rewrite fmap_cons in Hs.
  apply StronglySorted_inv in Hs as [Hs Hx]. apply Forall_cons in Hps as [[Hg Hid] Hps]. simpl in *.
  constructor; [by apply IH|]. rewrite Forall_fmap in Hx. rewrite Forall_forall in *.
  intros [g' id'] Hin. specialize (Hx _ Hin). destruct (Hps _ Hin) as [Hg' Hid']. simpl in *.
  rewrite !pack_pair_eq in Hx by done. unfold lt_pair. simpl. nia.
Qed.

Lemma group_from_length ps : forall k l,
  length (concat (group_from k l ps).*2) = length l + length ps.
Proof.
  induction ps as [|[g id] ps IH]; intros k l; simpl; [rewrite app_nil_r; lia|].
  case_decide; [rewrite IH, length_app; simpl; lia|]. simpl. rewrite length_app, IH. simpl. lia.
Qed.

Lemma length_sorted_dedup l : length (sorted_dedup l) <= length l.
Proof.
  unfold sorted_dedup. rewrite <-(sort_by_perm N.compare l) at 2. generalize (sort_by N.compare l).
  intros k. induction k as [|x [|y k] IH]; [done..|]. rewrite dedup_cons. case_decide; simpl in *; lia.
Qed.

(** The index of the texts: its posting lists hold exactly the ids that have the trigram. *)
Lemma build_texts es b :
  valid_texts es -> index_texts es = Done b ->
  exists D, build b = layout D /\ wf_table D /\ length (concat D.*2) <= length (pairs b) /\
    forall g id, (exists l, (g, l) ∈ D /\ id ∈ l) <-> has_gram es g id.
Proof.
  intros Hv Hb. destruct (index_texts_spec es) as (b' & Hb' & Hpairs).
  rewrite Hb in Hb'. apply Done_inj in Hb' as <-.
  set (unpack := fun x => (N.shiftr x 32 mod 2 ^ 32, x mod 2 ^ 32)%N).
  set (ps := unpack <$> sorted_dedup (pairs b)).
  assert (Hun : forall x, x ∈ sorted_dedup (pairs b) -> exists g id, has_gram es g id /\ x = pack_pair id g /\ unpack x = (g, id)).
  { intros x (id & g & Hg & ->)%elem_of_sorted_dedup%Hpairs. exists g, id. split_and!; [done..|].
    destruct (has_gram_lt es g id Hv Hg) as [H1 H2]. unfold unpack. by destruct (unpack_pair id g H2 H1) as [-> ->]. }
  assert (Hps : Forall (fun p => (p.1 < 2 ^ 32)%N /\ (p.2 < 2 ^ 32)%N) ps).
  { apply Forall_fmap, Forall_forall. intros x Hx. destruct (Hun x Hx) as (g & id & Hg & _ & Hu).
    unfold compose. rewrite Hu. by apply (has_gram_lt es g id Hv). }
  assert (Hpack : sorted_dedup (pairs b) = (fun p => pack_pair p.2 p.1) <$> ps).
  { unfold ps. rewrite <-list_fmap_compose. rewrite <-(list_fmap_id (sorted_dedup (pairs b))) at 1.
    apply list_fmap_ext. intros i x Hx%list_elem_of_lookup_2. destruct (Hun x Hx) as (g & id & _ & -> & Hu).
    unfold compose. by rewrite Hu. }
  exists (groups ps). destruct (groups_spec ps) as [Hwf Hel].
  { apply fmap_sorted_pair; [done|]. rewrite <-Hpack. apply sorted_dedup_sorted. }
  split_and!; [by apply build_spec|done| |].
  - assert (Hl : length ps <= length (pairs b)) by (unfold ps; rewrite length_fmap; apply length_sorted_dedup).
    destruct ps as [|[g id] ps']; simpl in *; [lia|]. rewrite group_from_length. simpl. lia.
  - intros g id. rewrite Hel. unfold ps. rewrite list_elem_of_fmap. split.
    + intros (x & Hx & Hin). destruct (Hun x Hin) as (g' & id' & Hg & _ & Hu). rewrite Hu in Hx. by injection Hx as -> ->.
    + intros Hg. exists (pack_pair id g). destruct (has_gram_lt es g id Hv Hg) as [H1 H2].
      split; [unfold unpack; by destruct (unpack_pair id g H2 H1) as [-> ->]|].
      apply elem_of_sorted_dedup, Hpairs. by exists id, g.
Qed.

(** ** Theorems *)

(** The candidates of a query are exact.  For an index built from texts, [candidates] returns
    (the galloping search ends and no slice is out of range), whatever its buffers hold, a
    strictly increasing list of the ids that have every trigram of the query that some text has;
    it is empty if no text has any of them. *)
Theorem trigram_candidates_exact es q s :
  valid_texts es ->
  exists b, index_texts es = Done b /\
    ((N.of_nat (length (pairs b)) < 2 ^ 32)%N ->
     exists res s', candidates_with_scratch (build b) q s = Done (res, s') /\
       StronglySorted N.lt res /\
       forall id, id ∈ res <->
         (exists g id', g ∈ grams (as_bytes q) /\ has_gram es g id') /\
         forall g, g ∈ grams (as_bytes q) -> (exists id', has_gram es g id') -> has_gram es g id).
Proof.
  intros Hv. destruct (index_texts_spec es) as (b & Hb & _). exists b. split; [done|]. intros Hlen.
  destruct (build_texts es b Hv Hb) as (D & -> & Hwf & Hle & Hel).
  destruct (candidates_spec D Hwf ltac:(lia) q s) as (res & s' & He & Hs & Hres).
  exists res, s'. split_and!; [done..|]. intros id. rewrite Hres. unfold selected.
  assert (Hne : forall g l, (g, l) ∈ D -> exists id', id' ∈ l).
  { intros g l Hl. pose proof (wt_lists _ Hwf) as Hall. rewrite Forall_forall in Hall.
    destruct (Hall _ Hl) as [Hne _]. simpl in Hne. destruct l as [|x l]; [done|]. exists x. by left. }
  split; intros [(g & x & Hg & Hx) Hall]; (split; [exists g|]).
  - destruct (Hne g x Hx) as [id' Hid']. exists id'. split; [done|]. apply Hel. eauto.
  - intros g' Hg' (id' & (l & Hl & _)%Hel). apply Hel. exists l. split; [done|]. by apply (Hall g').
  - apply Hel in Hx as (l & Hl & _). by exists l.
  - intros g' l Hg' Hl. destruct (Hne g' l Hl) as [id' Hid'].
    destruct (proj2 (Hel g' id)) as (l' & Hl' & Hid); [apply (Hall g' Hg'); exists id'; apply Hel; eauto|].
    apply list_elem_of_lookup in Hl as (i & Hi). by rewrite (key_unique D Hwf ltac:(lia) i g' l l' Hi Hl') in Hid.
Qed.

(** Filtering loses no text that contains the query: if the bytes of the query, at least three,
    are up to ASCII case a slice of the bytes of a text, the id of the text is a candidate. *)
Theorem trigram_finds_substrings es q s id t pre post :
  valid_texts es -> (id, t) ∈ es -> 3 <= length (as_bytes q) ->
  fold_byte <$> as_bytes t = pre ++ (fold_byte <$> as_bytes q) ++ post ->
  exists b, index_texts es = Done b /\
    ((N.of_nat (length (pairs b)) < 2 ^ 32)%N ->
     exists res s', candidates_with_scratch (build b) q s = Done (res, s') /\ id ∈ res).
Proof.
  intros Hv Ht Hq Hsub. destruct (index_texts_spec es) as (b & Hb & _). exists b. split; [done|]. intros Hlen.
  destruct (build_texts es b Hv Hb) as (D & -> & Hwf & Hle & Hel).
  destruct (candidates_spec D Hwf ltac:(lia) q s) as (res & s' & He & Hs & Hres).
  exists res, s'. split; [done|]. apply Hres.
  assert (Hhas : forall g, g ∈ grams (as_bytes q) -> has_gram es g id).
  { intros g Hg. exists t. split; [done|]. rewrite <-grams_fold, Hsub. apply grams_app_r, grams_app_l.
    by rewrite grams_fold. }
  split.
  - destruct (as_bytes q) as [|x [|y [|z l]]]; simpl in Hq; try lia. rewrite grams_cons in *.
    set (g := pack_trigram _ _ _) in *. destruct (proj2 (Hel g id)) as (l' & Hl' & _); [apply Hhas; by left|].
    exists g, l'. split; [by left|done].
  - intros g l Hg Hl. destruct (proj2 (Hel g id) (Hhas g Hg)) as (l' & Hl' & Hid).
    apply list_elem_of_lookup in Hl as (i & Hi). by rewrite (key_unique D Hwf ltac:(lia) i g l l' Hi Hl') in Hid.
Qed.

(** [insert2] is two insertions: the index built after it is the one built after inserting the
    two texts one by one. *)
Theorem insert2_is_two_inserts b id x y :
  exists b1 b2 b3, insert2 b id x y = Done b1 /\ insert b id x = Done b2 /\ insert b2 id y = Done b3 /\
    build b1 = build b3.
Proof.
  unfold insert2, insert. rewrite !trigrams_spec, !bind_Done_l. simpl app.
  assert (Hbuild : forall c d, (forall z, z ∈ pairs c <-> z ∈ pairs d) -> build c = build d).
  { intros c d Hcd. unfold build. by rewrite (sorted_dedup_ext _ _ Hcd). }
  rewrite ?trigrams_spec, ?bind_Done_l.
  case_decide as Hxy; rewrite ?trigrams_spec; eexists _, _, _; (split_and!; [reflexivity..|]); apply Hbuild; intros z; rewrite !extend_pairs_spec.
  - subst y. naive_solver.
  - setoid_rewrite elem_of_app. naive_solver.
Qed.

(** ** Witnesses *)

(** "fooBar" and "barfoo". *)
Definition sample_texts : list (N * str) :=
  [(1, [102; 111; 111; 66; 97; 114]); (2, [98; 97; 114; 102; 111; 111])]%N.

Lemma sample_texts_valid : valid_texts sample_texts.
Proof. repeat constructor. Qed.

Lemma trigram_candidates_exact_witness :
  exists b, index_texts sample_texts = Done b /\ candidates (build b) [98; 97; 114]%N = Done [1; 2]%N /\
    exists res s', candidates_with_scratch (build b) [111; 98; 97; 114]%N scratch_default = Done (res, s') /\
      StronglySorted N.lt res /\ 1%N ∈ res.
Proof.
  destruct (trigram_candidates_exact sample_texts [111; 98; 97; 114]%N scratch_default sample_texts_valid) as (b & Hb & Hc).
  assert (Hd : index_texts sample_texts = Done b /\ candidates (build b) [98; 97; 114]%N = Done [1; 2]%N).
  { vm_compute in Hb. injection Hb as <-. split; vm_compute; reflexivity. }
  destruct Hd as [_ Hd]. exists b. split_and!; [exact Hb|exact Hd|].
  destruct Hc as (res & s' & He & Hs & Hres); [vm_compute in Hb; injection Hb as <-; vm_compute; reflexivity|].
  exists res, s'. split_and!; [exact He|exact Hs|]. vm_compute in Hb. injection Hb as <-. vm_compute in He.
  injection He as <- _. by left.
Defined.

Lemma trigram_finds_substrings_witness :
  exists b, index_texts sample_texts = Done b /\
    exists res s', candidates_with_scratch (build b) [111; 98; 65]%N scratch_default = Done (res, s') /\ 1%N ∈ res.
Proof.
  destruct (trigram_finds_substrings sample_texts [111; 98; 65]%N scratch_default 1%N
    [102; 111; 111; 66; 97; 114]%N [102; 111]%N [114]%N sample_texts_valid) as (b & Hb & Hc);
    [by left|simpl; lia|reflexivity|].
  exists b. split; [exact Hb|]. apply Hc. vm_compute in Hb. injection Hb as <-. vm_compute. reflexivity.
Defined.
