(* ===== verification/DocPrinter.v ===== *)
(** * The pretty printer (crates/nova-format/src/doc.rs)

    Documents in the style of Wadler and Prettier, and the printer that lays them out: a stack of
    commands, a lookahead ([fits]) that decides whether a group goes on one line, line suffixes
    that wait for the end of the line, and filled paragraphs.  [fits] and [fits_flat] stop after
    a number of steps that the code sets; the loop of [print] is bounded by the size of the
    document.  Stacks are lists with the top first.  Widths and indentations are [N]; the
    arithmetic on [isize] is in [Z] (widths are below 2^63). *)

From stdpp Require Import base numbers option list.
From S2P Require Import Prelude Str.

(** ** Documents *)

Record PrintConfig := mkConfig { max_width : N; indent_width : N; newline : str }.

(** [PrintConfig::default]. *)
Definition config_default : PrintConfig := mkConfig 100 4 [10]%N.

Module Mode.
Inductive t := Flat | Break.
End Mode.

Module LineKind.
Inductive t := Line | Soft | Hard.
End LineKind.

Module Doc.
Inductive t :=
| Nil
| Text (text : str)
| Concat (parts : list t)
| Group (inner : t)
| Nest (spaces : N) (inner : t)
| Indent (inner : t)
| Line (kind : LineKind.t)
| LineSuffix (inner : t)
| BreakParent
| Fill (parts : list t)
| IfBreak (break_doc flat_doc : t).
End Doc.
Notation Doc := Doc.t.

Global Instance Mode_eq_dec : EqDecision Mode.t.
Proof. solve_decision. Defined.

Definition is_nil (d : Doc) : bool := match d with Doc.Nil => true | _ => false end.

(** The loop of [Doc::concat]: empty documents are dropped, concatenations are flattened. *)
Definition concat_parts (docs : list Doc) : list Doc :=
  docs ≫= (fun d => match d with Doc.Nil => [] | Doc.Concat inner => inner | _ => [d] end).

(** [0 => nil, 1 => the part, _ => make(parts)]. *)
Definition of_parts (make : list Doc -> Doc) (parts : list Doc) : Doc :=
  match parts with [] => Doc.Nil | [d] => d | _ => make parts end.

Definition doc_concat (docs : list Doc) : Doc := of_parts Doc.Concat (concat_parts docs).

Definition doc_fill (parts : list Doc) : Doc :=
  of_parts Doc.Fill (filter (fun d => is_nil d = false) parts).

Fixpoint join_loop (separator : Doc) (docs parts : list Doc) : list Doc :=
  match docs with
  | [] => parts
  | d :: docs =>
      if is_nil d then join_loop separator docs parts
      else
        let parts := match parts with [] => [] | _ => parts ++ [separator] end in
        join_loop separator docs (parts ++ [d])
  end.

Definition doc_join (separator : Doc) (docs : list Doc) : Doc :=
  doc_concat (join_loop separator docs []).

(** ** Commands *)

Module Command.
Inductive t :=
| Doc (indent : N) (mode : Mode.t) (doc : Doc.t)
| Fill (indent : N) (mode : Mode.t) (doc : Doc.t) (index : nat).
End Command.
Notation Command := Command.t.

(** [usize::saturating_add]. *)
Definition saturating_add (x y : N) : N := N.min (x + y) (2 ^ 64 - 1).

Definition text_width (text : str) : N :=
  if forallb (fun c => (c <? 128)%N) text then N.of_nat (str_len text) else N.of_nat (length text).

Definition is_blank (c : N) : bool := (c =? 32)%N || (c =? 9)%N.

(** [while matches!(out.as_bytes().last(), Some(b' ' | b'\t')) { out.pop(); }], from the end. *)
Fixpoint trim_rev (rout : str) : str :=
  match rout with
  | c :: rout' => if is_blank c then trim_rev rout' else rout
  | [] => []
  end.

Definition trim_trailing_whitespace (out : str) : str := rev (trim_rev (rev out)).

Definition push_spaces (out : str) (count : N) : str := out ++ replicate (N.to_nat count) 32%N.

(** The suffixes are popped in the order of their insertion. *)
Definition flush_line_suffixes (stack line_suffixes : list Command) : list Command :=
  line_suffixes ++ stack.

(** ** Lookahead *)

Fixpoint fits_flat_loop (steps : nat) (remaining_width : Z) (stack : list Doc) : bool :=
  if decide (remaining_width < 0)%Z then false
  else
    match steps with
    | 0 => false
    | S steps =>
        match stack with
        | [] => true
        | d :: stack =>
            match d with
            | Doc.Nil => fits_flat_loop steps remaining_width stack
            | Doc.Text text => fits_flat_loop steps (remaining_width - Z.of_N (text_width text)) stack
            | Doc.Concat parts => fits_flat_loop steps remaining_width (parts ++ stack)
            | Doc.Group inner | Doc.Nest _ inner | Doc.Indent inner =>
                fits_flat_loop steps remaining_width (inner :: stack)
            | Doc.Line LineKind.Line => fits_flat_loop steps (remaining_width - 1) stack
            | Doc.Line LineKind.Soft => fits_flat_loop steps remaining_width stack
            | Doc.Line LineKind.Hard => false
            | Doc.LineSuffix _ => fits_flat_loop steps remaining_width stack
            | Doc.BreakParent => false
            | Doc.Fill parts => fits_flat_loop steps remaining_width (parts ++ stack)
            | Doc.IfBreak _ flat_doc => fits_flat_loop steps remaining_width (flat_doc :: stack)
            end
        end
    end.

Definition FITS_FLAT_MAX_STEPS : nat := N.to_nat 4096.
Definition FITS_MAX_STEPS : nat := N.to_nat 32768.

Definition fits_flat (remaining_width : Z) (docs : list Doc) : bool :=
  fits_flat_loop FITS_FLAT_MAX_STEPS remaining_width docs.

Section Print.
Context (config : PrintConfig).

(** The commands of the parts of a document, all with one indentation and mode. *)
Definition commands (indent : N) (mode : Mode.t) (parts : list Doc) : list Command :=
  Command.Doc indent mode <$> parts.

(** What a [Fill] command pushes: the separator and the content after it are kept together. *)
Definition expand_fill (remaining_width : Z) (indent : N) (mode : Mode.t) (doc : Doc) (index : nat)
    : run (list Command) :=
  match doc with
  | Doc.Fill parts =>
      if decide (length parts <= index) then Done []
      else
        match mode with
        | Mode.Flat => Done (commands indent Mode.Flat (drop index parts))
        | Mode.Break =>
            part ← idx parts index;
            if decide (index mod 2 = 0) then
              Done [Command.Doc indent mode part; Command.Fill indent mode doc (index + 1)]
            else if decide (length parts <= index + 1) then Done [Command.Doc indent mode part]
            else
              next ← idx parts (index + 1);
              let sep_mode := if fits_flat remaining_width [part; next] then Mode.Flat else Mode.Break in
              Done [Command.Doc indent sep_mode part; Command.Doc indent mode next;
                    Command.Fill indent mode doc (index + 2)]
        end
  | _ => Panic
  end.

Fixpoint fits_loop (steps : nat) (remaining_width : Z) (base stack line_suffixes : list Command)
    : run bool :=
  if decide (remaining_width < 0)%Z then Done false
  else
    match steps with
    | 0 => Done false
    | S steps =>
        let next :=
          match stack, base with
          | cmd :: stack, _ => Some (cmd, base, stack)
          | [], cmd :: base => Some (cmd, base, [])
          | [], [] => None
          end in
        match next with
        | None =>
            match line_suffixes with
            | [] => Done true
            | _ => fits_loop steps remaining_width base (flush_line_suffixes stack line_suffixes) []
            end
        | Some (Command.Doc indent mode doc, base, stack) =>
            let push cmds := fits_loop steps remaining_width base (cmds ++ stack) line_suffixes in
            match doc with
            | Doc.Nil => push []
            | Doc.Text text =>
                fits_loop steps (remaining_width - Z.of_N (text_width text)) base stack line_suffixes
            | Doc.Concat parts => push (commands indent mode parts)
            | Doc.Group inner => push [Command.Doc indent mode inner]
            | Doc.Nest spaces inner => push [Command.Doc (saturating_add indent spaces) mode inner]
            | Doc.Indent inner =>
                push [Command.Doc (saturating_add indent (indent_width config)) mode inner]
            | Doc.Line kind =>
                match mode with
                | Mode.Flat =>
                    match kind with
                    | LineKind.Line => fits_loop steps (remaining_width - 1) base stack line_suffixes
                    | LineKind.Soft => push []
                    | LineKind.Hard => Done false
                    end
                | Mode.Break =>
                    match line_suffixes with
                    | [] => Done true
                    | _ => fits_loop steps remaining_width base
                             (flush_line_suffixes (Command.Doc indent mode doc :: stack) line_suffixes) []
                    end
                end
            | Doc.LineSuffix _ => push []
            | Doc.BreakParent => if decide (mode = Mode.Flat) then Done false else push []
            | Doc.Fill _ => push [Command.Fill indent mode doc 0]
            | Doc.IfBreak break_doc flat_doc =>
                push [Command.Doc indent mode (if decide (mode = Mode.Break) then break_doc else flat_doc)]
            end
        | Some (Command.Fill indent mode doc index, base, stack) =>
            cmds ← expand_fill remaining_width indent mode doc index;
            fits_loop steps remaining_width base (cmds ++ stack) line_suffixes
        end
    end.

Definition fits (remaining_width : Z) (base lookahead : list Command) : run bool :=
  fits_loop FITS_MAX_STEPS remaining_width base lookahead [].

(** ** The printer *)

Record State := mkState {
  out : str;
  pos : N;
  stack : list Command;
  line_suffixes : list Command
}.

(** [config.max_width as isize - pos as isize]. *)
Definition remaining (pos : N) : Z := (Z.of_N (max_width config) - Z.of_N pos)%Z.

(** A line break: the blanks before it are dropped, the next line is indented. *)
Definition break_line (st : State) (indent : N) : State :=
  mkState (push_spaces (trim_trailing_whitespace (out st) ++ newline config) indent) indent
    (stack st) (line_suffixes st).

Definition push (st : State) (cmds : list Command) : State :=
  mkState (out st) (pos st) (cmds ++ stack st) (line_suffixes st).

(** [out.push_str(text); pos = pos.saturating_add(width)]. *)
Definition push_text (st : State) (text : str) (width : N) : State :=
  mkState (out st ++ text) (saturating_add (pos st) width) (stack st) (line_suffixes st).

Definition print_line (st : State) (indent : N) (mode : Mode.t) (kind : LineKind.t) : State :=
  let will_break := match mode, kind with Mode.Break, _ | _, LineKind.Hard => true | _, _ => false end in
  match will_break, line_suffixes st with
  | true, _ :: _ =>
      mkState (out st) (pos st)
        (flush_line_suffixes (Command.Doc indent mode (Doc.Line kind) :: stack st) (line_suffixes st)) []
  | _, _ =>
      match mode, kind with
      | Mode.Flat, LineKind.Line => push_text st [32]%N 1
      | Mode.Flat, LineKind.Soft => st
      | _, _ => break_line st indent
      end
  end.

Definition print_doc (st : State) (indent : N) (mode : Mode.t) (doc : Doc) : run State :=
  match doc with
  | Doc.Nil => Done st
  | Doc.Text text => Done (push_text st text (text_width text))
  | Doc.Concat parts => Done (push st (commands indent mode parts))
  | Doc.Group inner =>
      match mode with
      | Mode.Flat => Done (push st [Command.Doc indent Mode.Flat inner])
      | Mode.Break =>
          b ← fits (remaining (pos st)) (stack st) [Command.Doc indent Mode.Flat inner];
          Done (push st [Command.Doc indent (if (b : bool) then Mode.Flat else Mode.Break) inner])
      end
  | Doc.Nest spaces inner => Done (push st [Command.Doc (saturating_add indent spaces) mode inner])
  | Doc.Indent inner =>
      Done (push st [Command.Doc (saturating_add indent (indent_width config)) mode inner])
  | Doc.Line kind => Done (print_line st indent mode kind)
  | Doc.LineSuffix inner =>
      Done (mkState (out st) (pos st) (stack st) (line_suffixes st ++ [Command.Doc indent mode inner]))
  | Doc.BreakParent => Done st
  | Doc.Fill _ => Done (push st [Command.Fill indent mode doc 0])
  | Doc.IfBreak break_doc flat_doc =>
      Done (push st [Command.Doc indent mode (if decide (mode = Mode.Break) then break_doc else flat_doc)])
  end.

Definition print_command (st : State) (cmd : Command) : run State :=
  match cmd with
  | Command.Doc indent mode doc => print_doc st indent mode doc
  | Command.Fill indent mode doc index =>
      cmds ← expand_fill (remaining (pos st)) indent mode doc index;
      Done (push st cmds)
  end.

Fixpoint print_loop (fuel : nat) (st : State) : run str :=
  match fuel with
  | 0 => OutOfFuel
  | S fuel =>
      match stack st with
      | [] =>
          match line_suffixes st with
          | [] => Done (out st)
          | _ => print_loop fuel (mkState (out st) (pos st) (flush_line_suffixes [] (line_suffixes st)) [])
          end
      | cmd :: rest =>
          st ← print_command (mkState (out st) (pos st) rest (line_suffixes st)) cmd;
          print_loop fuel st
      end
  end.
End Print.

(** ** The size of a document, which bounds the loop *)

Fixpoint weight (d : Doc) : nat :=
  match d with
  | Doc.Nil | Doc.Text _ | Doc.Line _ | Doc.BreakParent => 1
  | Doc.Concat parts => S (sum_list_with weight parts)
  | Doc.Fill parts => S (S (sum_list_with (fun d => S (weight d)) parts))
  | Doc.Group inner | Doc.Nest _ inner | Doc.Indent inner => S (weight inner)
  | Doc.LineSuffix inner => S (S (weight inner))
  | Doc.IfBreak b f => S (weight b + weight f)
  end.

Definition print (doc : Doc) (config : PrintConfig) : run str :=
  print_loop config (S (weight doc)) (mkState [] 0 [Command.Doc 0 Mode.Break doc] []).

Example sample_flat :
  print (Doc.Group (Doc.Concat [Doc.Text [97]; Doc.Line LineKind.Line; Doc.Text [98]]%N)) config_default =
  Done [97; 32; 98]%N.
Proof. vm_compute. reflexivity. Qed.

Example sample_broken :
  print (Doc.Group (Doc.Concat [Doc.Text [97]; Doc.Indent (Doc.Line LineKind.Line); Doc.Text [98]]%N)) (mkConfig 2 2 [10]%N) =
  Done [97; 10; 32; 32; 98]%N.
Proof. vm_compute. reflexivity. Qed.

(** ** Induction on documents *)

Lemma doc_ind' (P : Doc -> Prop) :
  P Doc.Nil -> (forall s, P (Doc.Text s)) ->
  (forall l, Forall P l -> P (Doc.Concat l)) -> (forall d, P d -> P (Doc.Group d)) ->
  (forall n d, P d -> P (Doc.Nest n d)) -> (forall d, P d -> P (Doc.Indent d)) ->
  (forall k, P (Doc.Line k)) -> (forall d, P d -> P (Doc.LineSuffix d)) -> P Doc.BreakParent ->
  (forall l, Forall P l -> P (Doc.Fill l)) -> (forall b f, P b -> P f -> P (Doc.IfBreak b f)) ->
  forall d, P d.
Proof.
  intros H1 H2 H3 H4 H5 H6 H7 H8 H9 H10 H11. fix IH 1.
  intros [|s|parts|d|n d|d|k|d| |parts|b f];
    [exact H1|apply H2|apply H3|apply H4, IH|apply H5, IH|apply H6, IH|apply H7|apply H8, IH|exact H9|apply H10
    |apply H11; apply IH];
    (induction parts as [|x l IHl]; constructor; [apply IH|exact IHl]).
Qed.

(** ** What a step does *)

Section Steps.
Context (config : PrintConfig).

(** The commands that replace a command that writes nothing, whatever the lookahead decides. *)
Inductive expands : Command -> list Command -> Prop :=
| expands_nil i m : expands (Command.Doc i m Doc.Nil) []
| expands_break_parent i m : expands (Command.Doc i m Doc.BreakParent) []
| expands_soft i : expands (Command.Doc i Mode.Flat (Doc.Line LineKind.Soft)) []
| expands_concat i m l : expands (Command.Doc i m (Doc.Concat l)) (commands i m l)
| expands_group i m m' d :
    (m = Mode.Flat -> m' = Mode.Flat) -> expands (Command.Doc i m (Doc.Group d)) [Command.Doc i m' d]
| expands_nest i m n d :
    expands (Command.Doc i m (Doc.Nest n d)) [Command.Doc (saturating_add i n) m d]
| expands_indent i m d :
    expands (Command.Doc i m (Doc.Indent d)) [Command.Doc (saturating_add i (indent_width config)) m d]
| expands_fill i m l : expands (Command.Doc i m (Doc.Fill l)) [Command.Fill i m (Doc.Fill l) 0]
| expands_if_break i b f : expands (Command.Doc i Mode.Break (Doc.IfBreak b f)) [Command.Doc i Mode.Break b]
| expands_if_flat i b f : expands (Command.Doc i Mode.Flat (Doc.IfBreak b f)) [Command.Doc i Mode.Flat f]
| expands_fill_end i m l k : length l <= k -> expands (Command.Fill i m (Doc.Fill l) k) []
| expands_fill_flat i l k :
    expands (Command.Fill i Mode.Flat (Doc.Fill l) k) (commands i Mode.Flat (drop k l))
| expands_fill_content i l k p :
    l !! k = Some p ->
    expands (Command.Fill i Mode.Break (Doc.Fill l) k)
      [Command.Doc i Mode.Break p; Command.Fill i Mode.Break (Doc.Fill l) (k + 1)]
| expands_fill_last i l k p :
    l !! k = Some p -> length l <= k + 1 ->
    expands (Command.Fill i Mode.Break (Doc.Fill l) k) [Command.Doc i Mode.Break p]
| expands_fill_sep i m l k p q :
    l !! k = Some p -> l !! (k + 1) = Some q ->
    expands (Command.Fill i Mode.Break (Doc.Fill l) k)
      [Command.Doc i m p; Command.Doc i Mode.Break q; Command.Fill i Mode.Break (Doc.Fill l) (k + 2)].

(** A step of the printer on the command [cmd], from the state without it. *)
Inductive print_step (st : State) : Command -> State -> Prop :=
| step_expand cmd cmds : expands cmd cmds -> print_step st cmd (push st cmds)
| step_text i m s : print_step st (Command.Doc i m (Doc.Text s)) (push_text st s (text_width s))
| step_space i : print_step st (Command.Doc i Mode.Flat (Doc.Line LineKind.Line)) (push_text st [32]%N 1)
| step_break i m k :
    line_suffixes st = [] -> m = Mode.Break \/ k = LineKind.Hard ->
    print_step st (Command.Doc i m (Doc.Line k)) (break_line config st i)
| step_flush i m k :
    line_suffixes st <> [] ->
    print_step st (Command.Doc i m (Doc.Line k))
      (mkState (out st) (pos st) (line_suffixes st ++ Command.Doc i m (Doc.Line k) :: stack st) [])
| step_suffix i m d :
    print_step st (Command.Doc i m (Doc.LineSuffix d))
      (mkState (out st) (pos st) (stack st) (line_suffixes st ++ [Command.Doc i m d])).

(** [Fill] commands refer to [Fill] documents. *)
Definition wf_cmd (cmd : Command) : Prop :=
  match cmd with
  | Command.Doc _ _ _ => True
  | Command.Fill _ _ d _ => match d with Doc.Fill _ => True | _ => False end
  end.

Lemma commands_wf i m l : Forall wf_cmd (commands i m l).
Proof. apply Forall_fmap, Forall_forall. done. Qed.

Lemma expands_wf cmd cmds : expands cmd cmds -> Forall wf_cmd cmds.
Proof. destruct 1; first [apply commands_wf|repeat constructor; done]. Qed.

Lemma expand_fill_spec w i m l k :
  exists cmds, expand_fill w i m (Doc.Fill l) k = Done cmds /\
    expands (Command.Fill i m (Doc.Fill l) k) cmds.
Proof.
  unfold expand_fill. case_decide as Hk; [eexists; split; [done|by constructor]|].
  destruct m; [eexists; split; [done|constructor]|].
  destruct (lookup_lt_is_Some_2 l k ltac:(lia)) as [p Hp]. unfold idx. rewrite Hp, bind_Done_l.
  case_decide; [eexists; split; [done|by constructor]|].
  case_decide as Hk1; [eexists; split; [done|by constructor]|].
  destruct (lookup_lt_is_Some_2 l (k + 1) ltac:(lia)) as [q Hq]. rewrite Hq, bind_Done_l.
  eexists. split; [done|]. by constructor.
Qed.

(** [fits] returns. *)
Lemma fits_loop_total steps : forall w base stk sfx,
  Forall wf_cmd base -> Forall wf_cmd stk -> Forall wf_cmd sfx ->
  exists b, fits_loop config steps w base stk sfx = Done b.
Proof.
  induction steps as [|steps IH]; intros w base stk sfx Hb Hs Hx; cbn [fits_loop].
  { case_decide; eauto. }
  case_decide; [eauto|].
  assert (Hcmd : forall cmd base stk, wf_cmd cmd -> Forall wf_cmd base -> Forall wf_cmd stk -> forall w',
    exists b, fits_loop config (S steps) w' base (cmd :: stk) sfx = Done b); [|destruct stk as [|cmd stk]; [destruct base as [|cmd base]|]].
  - clear - IH Hx. intros cmd base stk Hc Hb Hs w. cbn [fits_loop]. case_decide; [eauto|].
    assert (Hpush : forall cmds w', Forall wf_cmd cmds ->
      exists b, fits_loop config steps w' base (cmds ++ stk) sfx = Done b).
    { intros cmds w' Hcs. apply IH; [done| |done]. by apply Forall_app. }
    destruct cmd as [i m d|i m d k].
    + destruct d as [|s|l|d|n d|d|k|d| |l|b f]; try (apply Hpush; first [apply commands_wf|by repeat constructor]).
      * by apply IH.
      * destruct m, k; try (by apply IH); try (by eexists); destruct sfx as [|x sfx]; try (by eexists);
          (apply IH; [done| |constructor]); unfold flush_line_suffixes; apply Forall_app; (split; [done|]); by constructor.
      * case_decide; [by eexists|]. apply Hpush. constructor.
    + simpl in Hc. destruct d; try done. destruct (expand_fill_spec w i m parts k) as (cmds & -> & He).
      rewrite bind_Done_l. apply Hpush. by eapply expands_wf.
  - destruct sfx as [|x sfx]; [by eexists|]. apply IH; [constructor| |constructor].
    unfold flush_line_suffixes. by rewrite app_nil_r.
  - apply Forall_cons in Hb as [Hc Hb]. specialize (Hcmd cmd base [] Hc Hb ltac:(constructor) w).
    cbn [fits_loop] in Hcmd. by rewrite decide_False in Hcmd.
  - apply Forall_cons in Hs as [Hc Hs]. specialize (Hcmd cmd base stk Hc Hb Hs w).
    cbn [fits_loop] in Hcmd. by rewrite decide_False in Hcmd.
Qed.

(** Every command makes one of the steps. *)
Lemma print_command_step st cmd :
  wf_cmd cmd -> Forall wf_cmd (stack st) ->
  exists st', print_command config st cmd = Done st' /\ print_step st cmd st'.
Proof.
  intros Hc Hs. destruct cmd as [i m d|i m d k]; cbn [print_command].
  2:{ simpl in Hc. destruct d; try done. destruct (expand_fill_spec (remaining config (pos st)) i m parts k) as (cmds & -> & He).
      rewrite bind_Done_l. eexists. split; [done|]. by constructor. }
  assert (Hpush : forall st0 : State, st0 = push st0 []) by (by intros []).
  destruct d as [|s|l|d|n d|d|k|d| |l|b f]; cbn [print_doc];
    try (eexists; split; [done|]; first [by do 2 constructor|rewrite (Hpush st) at 2; by do 2 constructor]).
  - destruct m; [eexists; split; [done|]; by do 2 constructor|]. unfold fits.
    destruct (fits_loop_total FITS_MAX_STEPS (remaining config (pos st)) (stack st) [Command.Doc i Mode.Flat d] [])
      as [b ->]; [done|by repeat constructor|constructor|]. rewrite bind_Done_l.
    eexists. split; [done|]. constructor. by constructor.
  - eexists. split; [done|]. unfold print_line.
    destruct m, k, (line_suffixes st) as [|x sfx] eqn:Hsfx; rewrite <-?Hsfx;
      try (constructor; auto; congruence); rewrite (Hpush st) at 2; constructor; constructor.
  - destruct m; (eexists; split; [done|]); constructor; constructor.
Qed.
End Steps.

(** ** Termination *)

Lemma weight_pos d : 1 <= weight d.
Proof. destruct d; simpl; lia. Qed.

Definition fill_weight (l : list Doc) : nat := S (sum_list_with (fun d => S (weight d)) l).

Definition cmd_weight (cmd : Command) : nat :=
  match cmd with
  | Command.Doc _ _ d => weight d
  | Command.Fill _ _ (Doc.Fill l) k => fill_weight (drop k l)
  | Command.Fill _ _ _ _ => 1
  end.

Lemma cmd_weight_pos cmd : 1 <= cmd_weight cmd.
Proof. destruct cmd as [i m d|i m [] k]; simpl; auto using weight_pos; unfold fill_weight; lia. Qed.

(** A pending suffix has a step more to go: it is pushed back. *)
Definition state_weight (st : State) : nat :=
  sum_list_with cmd_weight (stack st) + sum_list_with (fun c => S (cmd_weight c)) (line_suffixes st).

Lemma commands_weight i m l : sum_list_with cmd_weight (commands i m l) = sum_list_with weight l.
Proof. induction l as [|d l IH]; simpl; [done|]. by rewrite <-IH. Qed.

Lemma fill_weight_ge l : sum_list_with weight l < fill_weight l.
Proof. unfold fill_weight. induction l as [|d l IH]; simpl in *; lia. Qed.

Lemma fill_weight_drop l k p : l !! k = Some p -> fill_weight (drop k l) = S (weight p) + fill_weight (drop (S k) l).
Proof. intros Hp. rewrite (drop_S _ _ _ Hp). unfold fill_weight. simpl. lia. Qed.

Lemma expands_weight config cmd cmds :
  expands config cmd cmds -> sum_list_with cmd_weight cmds < cmd_weight cmd.
Proof.
  destruct 1 as [| | |i m l| | | |i m l| | |i m l k Hk|i l k|i l k p Hp|i l k p Hp Hk|i m l k p q Hp Hq];
    rewrite ?commands_weight; cbn -[fill_weight]; try lia.
  - rewrite drop_0. unfold fill_weight. lia.
  - unfold fill_weight. lia.
  - apply fill_weight_ge.
  - rewrite Nat.add_1_r, (fill_weight_drop l k p Hp). lia.
  - rewrite (fill_weight_drop l k p Hp). unfold fill_weight. lia.
  - rewrite (fill_weight_drop l k p Hp). rewrite Nat.add_1_r in Hq. rewrite (fill_weight_drop l (S k) q Hq).
    replace (k + 2) with (S (S k)) by lia. lia.
Qed.

Lemma step_weight config st cmd st' :
  print_step config st cmd st' -> state_weight st' < cmd_weight cmd + state_weight st.
Proof.
  unfold state_weight. destruct 1 as [cmd cmds He|i m s|i|i m k Hs Hm|i m k Hs|i m d]; cbn [stack line_suffixes push push_text break_line].
  - apply expands_weight in He. rewrite sum_list_with_app. lia.
  - simpl. lia.
  - simpl. lia.
  - simpl. lia.
  - rewrite sum_list_with_app. simpl. destruct (line_suffixes st) as [|x sfx]; [done|]. clear Hs.
    assert (Hle : forall l, sum_list_with cmd_weight l <= sum_list_with (fun c => S (cmd_weight c)) l).
    { induction l as [|y l IH]; simpl; lia. }
    specialize (Hle sfx). simpl. lia.
  - rewrite sum_list_with_app. simpl. lia.
Qed.

Definition wf_state (st : State) : Prop := Forall wf_cmd (stack st) /\ Forall wf_cmd (line_suffixes st).

Lemma step_wf config st cmd st' :
  print_step config st cmd st' -> wf_cmd cmd -> wf_state st -> wf_state st'.
Proof.
  unfold wf_state. destruct 1 as [cmd cmds He|i m s|i|i m k Hs Hm|i m k Hs|i m d]; intros Hc [H1 H2];
    cbn [stack line_suffixes push push_text break_line]; try done.
  - split; [|done]. apply Forall_app. split; [by eapply expands_wf|done].
  - split; [|constructor]. apply Forall_app. split; [done|by constructor].
  - split; [done|]. apply Forall_app. split; [done|by repeat constructor].
Qed.

(** The printer as a sequence of steps: an invariant of the steps holds at the end. *)
Lemma print_loop_ind config (I : State -> Prop) :
  (forall st cmd rest st', I st -> stack st = cmd :: rest ->
     print_step config (mkState (out st) (pos st) rest (line_suffixes st)) cmd st' -> I st') ->
  (forall st, I st -> stack st = [] -> I (mkState (out st) (pos st) (line_suffixes st) [])) ->
  forall fuel st, state_weight st < fuel -> wf_state st -> I st ->
  exists r pos', print_loop config fuel st = Done r /\ I (mkState r pos' [] []).
Proof.
  intros Hstep Hflush. induction fuel as [|fuel IH]; intros st Hf [Hs Hx] HI; [lia|]. cbn [print_loop].
  destruct (stack st) as [|cmd rest] eqn:Hst.
  - destruct (line_suffixes st) as [|x sfx] eqn:Hsfx.
    { exists (out st), (pos st). split; [done|]. destruct st; simpl in *. by subst. }
    specialize (Hflush st HI Hst). rewrite Hsfx in Hflush. unfold flush_line_suffixes. rewrite app_nil_r.
    apply IH; [|by split|done]. unfold state_weight in *. rewrite Hst, Hsfx in Hf. simpl in *.
    assert (Hle : forall l, sum_list_with cmd_weight l <= sum_list_with (fun c => S (cmd_weight c)) l).
    { induction l as [|y l IHl]; simpl; lia. }
    specialize (Hle sfx). lia.
  - apply Forall_cons in Hs as [Hc Hs].
    destruct (print_command_step config (mkState (out st) (pos st) rest (line_suffixes st)) cmd Hc Hs)
      as (st' & -> & Hp). rewrite bind_Done_l. apply IH.
    + apply step_weight in Hp. unfold state_weight in *. rewrite Hst in Hf. simpl in *. lia.
    + by eapply step_wf.
    + by eapply Hstep.
Qed.

(** The same for [print]. *)
Lemma print_ind config doc (I : State -> Prop) :
  (forall st cmd rest st', I st -> stack st = cmd :: rest ->
     print_step config (mkState (out st) (pos st) rest (line_suffixes st)) cmd st' -> I st') ->
  (forall st, I st -> stack st = [] -> I (mkState (out st) (pos st) (line_suffixes st) [])) ->
  I (mkState [] 0 [Command.Doc 0 Mode.Break doc] []) ->
  exists r pos', print doc config = Done r /\ I (mkState r pos' [] []).
Proof.
  intros Hstep Hflush HI. apply (print_loop_ind config I Hstep Hflush); [|split; by repeat constructor|done].
  unfold state_weight. simpl. lia.
Qed.


(** ** Nothing is lost *)

(** The blanks a layout may add or drop: space, tab, line feed, carriage return. *)
Definition is_layout (c : N) : bool := is_blank c || (c =? 10)%N || (c =? 13)%N.
Definition visible (s : str) : str := filter (fun c => is_layout c = false) s.

(** The visible texts of a list, for a relation on its elements. *)
Section RenderList.
Context {A} (R : A -> str -> Prop).
Fixpoint render_list (l : list A) (c : str) : Prop :=
  match l with
  | [] => c = []
  | x :: l => exists c1 c2, c = c1 ++ c2 /\ R x c1 /\ render_list l c2
  end.
End RenderList.

(** The visible texts of a document: one branch of each [IfBreak], suffixes in place. *)
Fixpoint renders (d : Doc) (c : str) : Prop :=
  match d with
  | Doc.Nil | Doc.Line _ | Doc.BreakParent => c = []
  | Doc.Text s => c = visible s
  | Doc.Concat l | Doc.Fill l => render_list renders l c
  | Doc.Group d | Doc.Nest _ d | Doc.Indent d | Doc.LineSuffix d => renders d c
  | Doc.IfBreak b f => renders b c \/ renders f c
  end.

Definition renders_cmd (cmd : Command) (c : str) : Prop :=
  match cmd with
  | Command.Doc _ _ d => renders d c
  | Command.Fill _ _ (Doc.Fill l) k => render_list renders (drop k l) c
  | Command.Fill _ _ _ _ => False
  end.

Lemma render_list_app {A} (R : A -> str -> Prop) l k c :
  render_list R (l ++ k) c <-> exists c1 c2, c = c1 ++ c2 /\ render_list R l c1 /\ render_list R k c2.
Proof.
  revert c. induction l as [|x l IH]; intros c; simpl.
  - split; [intros H; by exists [], c|by intros (? & ? & -> & -> & ?)].
  - setoid_rewrite IH. split.
    + intros (c1 & ? & -> & Hx & c2 & c3 & -> & Hl & Hk). exists (c1 ++ c2), c3. rewrite <-app_assoc. eauto 10.
    + intros (? & c3 & -> & (c1 & c2 & -> & Hx & Hl) & Hk). exists c1, (c2 ++ c3). rewrite <-app_assoc. eauto 10.
Qed.

Lemma render_list_one {A} (R : A -> str -> Prop) x c : render_list R [x] c <-> R x c.
Proof.
  simpl. split; [intros (c1 & c2 & -> & H & ->); by rewrite app_nil_r|].
  intros H. exists c, []. by rewrite app_nil_r.
Qed.

Lemma render_commands i m l c : render_list renders_cmd (commands i m l) c <-> render_list renders l c.
Proof. revert c. induction l as [|d l IH]; intros c; simpl; [done|]. by setoid_rewrite IH. Qed.

Lemma render_drop l k p c :
  l !! k = Some p ->
  render_list renders (drop k l) c <->
  exists c1 c2, c = c1 ++ c2 /\ renders p c1 /\ render_list renders (drop (S k) l) c2.
Proof. intros Hp. by rewrite (drop_S _ _ _ Hp). Qed.

Lemma expands_renders config cmd cmds c :
  expands config cmd cmds -> render_list renders_cmd cmds c -> renders_cmd cmd c.
Proof.
  destruct 1 as [| | |i m l| | | |i m l| | |i m l k Hk|i l k|i l k p Hp|i l k p Hp Hk|i m l k p q Hp Hq];
    rewrite ?render_commands, ?render_list_one; try done; try (by simpl; auto).
  - intros ->. cbn. by rewrite drop_ge.
  - cbn [renders_cmd]. rewrite (render_drop l k p c Hp). cbn [render_list renders_cmd].
    intros (c1 & ? & -> & H1 & c2 & ? & -> & H2 & ->). rewrite app_nil_r, Nat.add_1_r in *. eauto 10.
  - intros H. cbn [renders_cmd]. apply (render_drop l k p c Hp). exists c, []. rewrite app_nil_r.
    rewrite drop_ge by lia. done.
  - cbn [renders_cmd render_list]. intros (c1 & ? & -> & H1 & c2 & ? & -> & H2 & c3 & ? & -> & H3 & ->).
    rewrite (render_drop l k p _ Hp). rewrite Nat.add_1_r in Hq. rewrite app_nil_r in *.
    exists c1, (c2 ++ c3). split_and!; [done|done|]. apply (render_drop l (S k) q _ Hq).
    replace (k + 2) with (S (S k)) in H3 by lia. eauto 10.
Qed.

Lemma visible_app s t : visible (s ++ t) = visible s ++ visible t.
Proof. apply filter_app. Qed.

Lemma visible_none s : Forall (fun c => is_layout c = true) s -> visible s = [].
Proof.
  induction 1 as [|c s Hc _ IH]; [done|]. unfold visible. rewrite filter_cons_False; [done|]. by rewrite Hc.
Qed.

(** What [trim_trailing_whitespace] removes. *)
Lemma trim_blanks_split out :
  exists b, out = trim_trailing_whitespace out ++ b /\ Forall (fun c => is_blank c = true) b.
Proof.
  unfold trim_trailing_whitespace.
  assert (H : forall r, exists b, rev r = rev (trim_rev r) ++ b /\ Forall (fun c => is_blank c = true) b);
    [|specialize (H (rev out)); by rewrite rev_involutive in H].
  induction r as [|c r (b & Hb & Hf)]; [by exists []|]. simpl. destruct (is_blank c) eqn:Hc.
  - exists (b ++ [c]). rewrite Hb, app_assoc. split; [done|]. apply Forall_app. auto.
  - exists []. by rewrite app_nil_r.
Qed.

Lemma visible_blanks b : Forall (fun c => is_blank c = true) b -> visible b = [].
Proof. intros H. apply visible_none. eapply Forall_impl; [done|]. intros c Hc. unfold is_layout. by rewrite Hc. Qed.

Lemma visible_spaces k : visible (replicate k 32%N) = [].
Proof. apply visible_none. by apply Forall_replicate. Qed.

Lemma break_line_visible config st i :
  visible (newline config) = [] -> visible (out (break_line config st i)) = visible (out st).
Proof.
  intros Hn. unfold break_line, push_spaces. cbn [out]. rewrite !visible_app, Hn, visible_spaces, !app_nil_r.
  destruct (trim_blanks_split (out st)) as (b & Hb & Hf). rewrite Hb at 2. by rewrite visible_app, (visible_blanks b Hf), app_nil_r.
Qed.

(** No deferred text: the order of the texts is the order of the document. *)
Fixpoint suffix_free (d : Doc) : bool :=
  match d with
  | Doc.Nil | Doc.Text _ | Doc.Line _ | Doc.BreakParent => true
  | Doc.Concat l | Doc.Fill l => forallb suffix_free l
  | Doc.Group d | Doc.Nest _ d | Doc.Indent d => suffix_free d
  | Doc.LineSuffix _ => false
  | Doc.IfBreak b f => suffix_free b && suffix_free f
  end.

(** A property of the documents of a command, for properties that the parts inherit. *)
Section Hereditary.
Context (P : Doc -> bool).

Definition cmd_all (cmd : Command) : Prop :=
  match cmd with Command.Doc _ _ d | Command.Fill _ _ d _ => P d = true end.

(** The parts of a document of a property have it. *)
Class Hereditary : Prop := {
  her_parts l d : P (Doc.Concat l) = true \/ P (Doc.Fill l) = true -> d ∈ l -> P d = true;
  her_inner d n : P (Doc.Group d) = true \/ P (Doc.Nest n d) = true \/ P (Doc.Indent d) = true -> P d = true;
  her_suffix d : P (Doc.LineSuffix d) = true -> P d = true;
  her_branches b f : P (Doc.IfBreak b f) = true -> P b = true /\ P f = true
}.
Context {HP : Hereditary}.

Lemma commands_all i m l : (forall d, d ∈ l -> P d = true) -> Forall cmd_all (commands i m l).
Proof. intros H. apply Forall_fmap, Forall_forall. exact H. Qed.

Lemma expands_all config cmd cmds : expands config cmd cmds -> cmd_all cmd -> Forall cmd_all cmds.
Proof.
  destruct 1 as [| | |i m l|i m m' d Hm|i m n d|i m d|i m l|i b f|i b f|i m l k Hk|i l k|i l k p Hp|i l k p Hp Hk|i m l k p q Hp Hq];
    cbn [cmd_all]; intros H; try (by constructor).
  - apply commands_all. eauto using her_parts.
  - constructor; [|constructor]. cbn. eapply (her_inner _ 0%N); eauto.
  - constructor; [|constructor]. cbn. eapply (her_inner _ n); eauto.
  - constructor; [|constructor]. cbn. eapply (her_inner _ 0%N); eauto.
  - apply her_branches in H as [H _]. by constructor.
  - apply her_branches in H as [_ H]. by constructor.
  - apply commands_all. intros d Hd. eapply her_parts; [by right|]. revert Hd. apply subseteq_drop.
  - repeat (apply Forall_cons; split); try apply Forall_nil; cbn; eauto using her_parts, list_elem_of_lookup_2.
  - repeat (apply Forall_cons; split); try apply Forall_nil; cbn; eauto using her_parts, list_elem_of_lookup_2.
  - repeat (apply Forall_cons; split); try apply Forall_nil; cbn; eauto using her_parts, list_elem_of_lookup_2.
Qed.

Definition state_all (st : State) : Prop := Forall cmd_all (stack st) /\ Forall cmd_all (line_suffixes st).

Lemma step_all config st cmd st' :
  print_step config st cmd st' -> cmd_all cmd -> state_all st -> state_all st'.
Proof.
  unfold state_all. destruct 1 as [cmd cmds He|i m s|i|i m k Hs Hm|i m k Hs|i m d]; intros Hc [H1 H2];
    cbn [stack line_suffixes push push_text break_line]; try done.
  - split; [|done]. apply Forall_app. split; [by eapply expands_all|done].
  - split; [|constructor]. apply Forall_app. split; [done|by constructor].
  - split; [done|]. apply Forall_app. split; [done|]. constructor; [|constructor]. by apply her_suffix.
Qed.

Lemma pop_all st cmd rest :
  state_all st -> stack st = cmd :: rest ->
  cmd_all cmd /\ state_all (mkState (out st) (pos st) rest (line_suffixes st)).
Proof.
  intros [H1 H2] Hst. rewrite Hst in H1. apply Forall_cons in H1 as [H1 H3]. done.
Qed.
End Hereditary.

Global Instance suffix_free_hereditary : Hereditary suffix_free.
Proof.
  split.
  - intros l d [H|H] Hd; 
      (apply Is_true_true; apply Is_true_true, forallb_True in H; rewrite Forall_forall in H; by apply H).
  - intros d n [H|[H|H]]; exact H.
  - done.
  - intros b f H. by apply andb_true_iff in H.
Qed.

(** What is written and what is still to be written make up the document; in its order when no
    text is deferred. *)
Definition lossless_inv (doc : Doc) (st : State) : Prop :=
  forall c1 c2, render_list renders_cmd (stack st) c1 -> render_list renders_cmd (line_suffixes st) c2 ->
  exists c, renders doc c /\ c ≡ₚ visible (out st) ++ c1 ++ c2.

Definition ordered_inv (doc : Doc) (st : State) : Prop :=
  state_all suffix_free st /\ line_suffixes st = [] /\
  forall c, render_list renders_cmd (stack st) c -> renders doc (visible (out st) ++ c).

Lemma lossless_step config doc st cmd rest st' :
  visible (newline config) = [] -> lossless_inv doc st -> stack st = cmd :: rest ->
  print_step config (mkState (out st) (pos st) rest (line_suffixes st)) cmd st' -> lossless_inv doc st'.
Proof.
  unfold lossless_inv. intros Hn HI Hst Hp c1 c2. rewrite Hst in HI. cbn [render_list] in HI.
  destruct Hp as [cmd cmds He|i m s|i|i m k Hs Hm|i m k Hs|i m d];
    cbn [stack line_suffixes push push_text out] in *.
  - rewrite render_list_app. intros (c0 & c1' & -> & H0 & H1) H2. apply (HI (c0 ++ c1') c2); [|done].
    exists c0, c1'. eauto using expands_renders.
  - intros H1 H2. destruct (HI (visible s ++ c1) c2) as (c & Hc & Hperm); [by exists (visible s), c1|done|].
    exists c. rewrite visible_app, <-app_assoc. by rewrite <-app_assoc in Hperm.
  - intros H1 H2. destruct (HI c1 c2) as (c & Hc & Hperm); [by exists [], c1|done|].
    exists c. by rewrite visible_app, <-app_assoc.
  - intros H1 H2. rewrite break_line_visible by done. apply (HI c1 c2); [by exists [], c1|done].
  - rewrite render_list_app. intros (c0 & c1' & -> & H0 & H1) ->. rewrite app_nil_r.
    destruct (HI c1' c0) as (c & Hc & Hperm); [exact H1|done|]. exists c. split; [done|]. rewrite Hperm.
    by rewrite (Permutation_app_comm c1').
  - rewrite render_list_app. intros H1 (c2' & c3 & -> & H2 & H3). rewrite render_list_one in H3.
    destruct (HI (c3 ++ c1) c2') as (c & Hc & Hperm); [exists c3, c1; split_and!; [done|exact H3|done]|done|]. exists c. split; [done|]. rewrite Hperm.
    apply Permutation_app_head. rewrite <-app_assoc, (Permutation_app_comm c3), app_assoc. done.
Qed.

Lemma ordered_step config doc st cmd rest st' :
  visible (newline config) = [] -> ordered_inv doc st -> stack st = cmd :: rest ->
  print_step config (mkState (out st) (pos st) rest (line_suffixes st)) cmd st' -> ordered_inv doc st'.
Proof.
  unfold ordered_inv. intros Hn (Ha & Hsfx & HI) Hst Hp. destruct (pop_all _ st cmd rest Ha Hst) as [Hc Ha'].
  split; [by apply (step_all suffix_free _ _ _ _ Hp)|]. rewrite Hst in HI. cbn [render_list] in HI.
  destruct Hp as [cmd cmds He|i m s|i|i m k Hs Hm|i m k Hs|i m d];
    cbn [stack line_suffixes push push_text out] in *; (split; [done|]); try done.
  - intros c. rewrite render_list_app. intros (c0 & c1' & -> & H0 & H1). apply HI.
    exists c0, c1'. eauto using expands_renders.
  - intros c H. rewrite visible_app, <-app_assoc. apply HI. by exists (visible s), c.
  - intros c H. rewrite visible_app, <-app_assoc. apply HI. by exists [], c.
  - intros c H. rewrite break_line_visible by done. apply HI. by exists [], c.
Qed.

(** C32: The printer stops, and it changes nothing but the layout.  For every document and every
    width, the output is defined (the loop needs no more steps than the weight of the document),
    and its characters other than blanks and line breaks are those of the texts of the document,
    with one branch taken of each [if_break]; they come in the order of the document when nothing
    is deferred to the end of a line. *)
Theorem print_lossless config doc :
  visible (newline config) = [] ->
  exists r, print doc config = Done r /\
    (exists c, renders doc c /\ visible r ≡ₚ c) /\
    (suffix_free doc = true -> renders doc (visible r)).
Proof.
  intros Hn.
  destruct (print_ind config doc (lossless_inv doc)) as (r & p & Hr & HI).
  - intros. by eapply lossless_step.
  - intros st HI Hst c1 c2 H1 ->. rewrite app_nil_r. specialize (HI [] c1). rewrite Hst in HI. by apply HI.
  - intros c1 c2 H1 ->. cbn [stack] in H1. rewrite render_list_one in H1. exists c1. by rewrite app_nil_r.
  - exists r. split; [done|]. split.
    { destruct (HI [] [] eq_refl eq_refl) as (c & Hc & Hp). exists c. split; [done|]. by rewrite Hp, app_nil_r. }
    intros Hf. destruct (print_ind config doc (ordered_inv doc)) as (r' & p' & Hr' & HI').
    + intros. by eapply ordered_step.
    + intros st (Ha & Hs & HI') Hst. destruct st; simpl in *. subst. by split_and!.
    + split_and!; [split; by repeat constructor|done|]. intros c Hc. cbn [stack] in Hc. by rewrite render_list_one in Hc.
    + rewrite Hr in Hr'. injection Hr' as ->. destruct HI' as (_ & _ & HI').
      specialize (HI' [] eq_refl). by rewrite app_nil_r in HI'.
Qed.

(** A group that does not fit, with a comment deferred to the end of its line. *)
Definition sample_doc : Doc :=
  Doc.Group (Doc.Concat [Doc.Text [97; 40]; Doc.LineSuffix (Doc.Text [32; 47; 47]);
    Doc.Indent (Doc.Concat [Doc.Line LineKind.Soft; Doc.Fill [Doc.Text [98]; Doc.Line LineKind.Line; Doc.Text [99]]]);
    Doc.Line LineKind.Soft; Doc.Text [41]])%N.

Lemma print_lossless_witness :
  exists r, print sample_doc (mkConfig 4 2 [10]%N) = Done r /\
    exists c, renders sample_doc c /\ visible r ≡ₚ c.
Proof.
  destruct (print_lossless (mkConfig 4 2 [10]%N) sample_doc eq_refl) as (r & Hr & Hc & _). exact (ex_intro _ r (conj Hr Hc)).
Defined.

(** ** No blanks at the end of a line *)

Definition is_newline (c : N) : bool := (c =? 10)%N || (c =? 13)%N.

(** No text of the document holds a line break. *)
Fixpoint one_line_texts (d : Doc) : bool :=
  match d with
  | Doc.Nil | Doc.Line _ | Doc.BreakParent => true
  | Doc.Text s => forallb (fun c => negb (is_newline c)) s
  | Doc.Concat l | Doc.Fill l => forallb one_line_texts l
  | Doc.Group d | Doc.Nest _ d | Doc.Indent d | Doc.LineSuffix d => one_line_texts d
  | Doc.IfBreak b f => one_line_texts b && one_line_texts f
  end.

Global Instance one_line_texts_hereditary : Hereditary one_line_texts.
Proof.
  split.
  - intros l d [H|H] Hd;
      (apply Is_true_true; apply Is_true_true, forallb_True in H; rewrite Forall_forall in H; by apply H).
  - intros d n [H|[H|H]]; exact H.
  - done.
  - intros b f H. by apply andb_true_iff in H.
Qed.

(** No blank stands right before a line break. *)
Definition no_trailing_blanks (s : str) : Prop :=
  forall a c d b, s = a ++ c :: d :: b -> is_blank c = true -> is_newline d = false.

Lemma ntb_app s t :
  no_trailing_blanks s -> Forall (fun c => is_newline c = false) t -> no_trailing_blanks (s ++ t).
Proof.
  intros Hs Ht a c d b Heq Hc. apply app_eq_inv in Heq as [(k & -> & Hk)|(k & -> & Hk)].
  - destruct k as [|x [|y k]]; simpl in Hk.
    + subst t. rewrite !Forall_cons in Ht. tauto.
    + injection Hk as <- <-. rewrite Forall_cons in Ht. tauto.
    + injection Hk as <- <- ->. by apply (Hs a c d k).
  - rewrite Hk in Ht. rewrite Forall_app, !Forall_cons in Ht. tauto.
Qed.

Lemma trim_last out a c : trim_trailing_whitespace out = a ++ [c] -> is_blank c = false.
Proof.
  unfold trim_trailing_whitespace. intros H. apply (f_equal (@rev N)) in H.
  rewrite rev_involutive, rev_app_distr in H. simpl in H. revert H. generalize (rev out). intros r.
  induction r as [|x r IH]; simpl; [done|]. destruct (is_blank x) eqn:Hx; [done|]. by intros [= -> _].
Qed.

Lemma ntb_prefix s t : no_trailing_blanks (s ++ t) -> no_trailing_blanks s.
Proof. intros H a c d b -> Hc. apply (H a c d (b ++ t)); [|done]. by rewrite <-app_assoc. Qed.

(** [\n] and [\r\n]. *)
Definition line_terminator (nl : str) : Prop := nl = [10]%N \/ nl = [13; 10]%N.

Lemma ntb_newline out nl :
  line_terminator nl -> no_trailing_blanks (trim_trailing_whitespace out) ->
  no_trailing_blanks (trim_trailing_whitespace out ++ nl).
Proof.
  intros Hnl Hs a c d b Heq Hc. apply app_eq_inv in Heq as [(k & Hk & Hnl')|(k & -> & Hnl')].
  - destruct k as [|x [|y k]]; simpl in Hnl'.
    + destruct Hnl as [->| ->]; [done|]. simplify_eq; done.
    + injection Hnl' as <- _. by rewrite (trim_last _ _ _ Hk) in Hc.
    + injection Hnl' as <- <- ->. by apply (Hs a c d k).
  - destruct Hnl as [->| ->]; destruct k as [|x [|y [|z k]]]; simplify_eq/=; done.
Qed.

Lemma ntb_break_line config st i :
  line_terminator (newline config) -> no_trailing_blanks (out st) ->
  no_trailing_blanks (out (break_line config st i)).
Proof.
  intros Hnl Hs. unfold break_line, push_spaces. cbn [out]. apply ntb_app; [|by apply Forall_replicate].
  apply ntb_newline; [done|]. destruct (trim_blanks_split (out st)) as (b & Hb & _). rewrite Hb in Hs. by apply ntb_prefix in Hs.
Qed.

(** No line of the output ends in blanks: for a document whose texts hold no line breaks, and
    the line terminators [\n] and [\r\n], a space or tab is never followed by a line break. *)
Theorem print_no_trailing_blanks config doc :
  line_terminator (newline config) -> one_line_texts doc = true ->
  exists r, print doc config = Done r /\ no_trailing_blanks r.
Proof.
  intros Hnl Hd.
  destruct (print_ind config doc (fun st => state_all one_line_texts st /\ no_trailing_blanks (out st)))
    as (r & p & Hr & _ & HI); [| | |by exists r].
  - intros st cmd rest st' [Ha Hs] Hst Hp. destruct (pop_all _ st cmd rest Ha Hst) as [Hc Ha'].
    split; [by apply (step_all one_line_texts _ _ _ _ Hp)|].
    destruct Hp as [cmd cmds He|i m s|i|i m k Hx Hm|i m k Hx|i m d]; cbn [out push push_text] in *; try done.
    + apply ntb_app; [done|]. cbn in Hc. apply Is_true_true, forallb_True in Hc. eapply Forall_impl; [exact Hc|].
      intros c Hi. apply Is_true_true in Hi. by apply negb_true_iff.
    + apply ntb_app; [done|]. by repeat constructor.
    + by apply ntb_break_line.
  - intros st [[H1 H2] Hs] Hst. split; [|done]. by split.
  - split; [split; by repeat constructor|]. intros [|x a] c d b Heq; done.
Qed.

Lemma print_no_trailing_blanks_witness :
  exists r, print sample_doc (mkConfig 4 2 [13; 10]%N) = Done r /\ no_trailing_blanks r.
Proof. apply print_no_trailing_blanks; [by right|reflexivity]. Defined.

(** ** Groups *)

Section ConcatOption.
Context {A} (f : A -> option str).
Fixpoint concat_option (l : list A) : option str :=
  match l with
  | [] => Some []
  | x :: l => match f x, concat_option l with Some a, Some b => Some (a ++ b) | _, _ => None end
  end.

Lemma concat_option_app l k :
  concat_option (l ++ k) =
  match concat_option l, concat_option k with Some a, Some b => Some (a ++ b) | _, _ => None end.
Proof.
  induction l as [|x l IH]; simpl; [by destruct (concat_option k)|]. rewrite IH.
  destruct (f x), (concat_option l), (concat_option k); try done. by rewrite app_assoc.
Qed.

Lemma concat_option_one x : concat_option [x] = f x.
Proof. simpl. destruct (f x); [by rewrite app_nil_r|done]. Qed.
End ConcatOption.

(** The text of a document on one line; none when it forces a break. *)
Fixpoint flat (d : Doc) : option str :=
  match d with
  | Doc.Nil | Doc.LineSuffix _ | Doc.Line LineKind.Soft => Some []
  | Doc.Text s => Some s
  | Doc.Concat l | Doc.Fill l => concat_option flat l
  | Doc.Group d | Doc.Nest _ d | Doc.Indent d | Doc.IfBreak _ d => flat d
  | Doc.Line LineKind.Line => Some [32]%N
  | Doc.Line LineKind.Hard | Doc.BreakParent => None
  end.

Definition flat_cmd (cmd : Command) : option str :=
  match cmd with
  | Command.Doc _ _ d => flat d
  | Command.Fill _ _ (Doc.Fill l) k => concat_option flat (drop k l)
  | Command.Fill _ _ _ _ => None
  end.

Definition in_flat_mode (cmd : Command) : Prop :=
  match cmd with Command.Doc _ m _ | Command.Fill _ m _ _ => m = Mode.Flat end /\ wf_cmd cmd.

Lemma flat_commands i m l : concat_option flat_cmd (commands i m l) = concat_option flat l.
Proof. induction l as [|d l IH]; simpl; [done|]. by rewrite IH. Qed.

Lemma commands_flat i l : Forall in_flat_mode (commands i Mode.Flat l).
Proof. apply Forall_fmap, Forall_forall. done. Qed.

Lemma expands_flat config cmd cmds :
  expands config cmd cmds -> in_flat_mode cmd ->
  Forall in_flat_mode cmds /\
  (forall t, flat_cmd cmd = Some t -> concat_option flat_cmd cmds = Some t) /\
  (flat_cmd cmd = None -> concat_option flat_cmd cmds = None \/ exists i m, cmd = Command.Doc i m Doc.BreakParent).
Proof.
  destruct 1 as [| | |i m l|i m m' d Hm|i m n d|i m d|i m l|i b f|i b f|i m l k Hk|i l k|i l k p Hp|i l k p Hp Hk|i m l k p q Hp Hq];
    intros [Hf _]; simpl in Hf; try done; subst; try specialize (Hm eq_refl); subst;
    rewrite ?flat_commands, ?concat_option_one; cbn [flat_cmd];
    try (split; [first [apply commands_flat|by repeat constructor]|]); try (by eauto).
  - split; [done|eauto].
  - rewrite drop_ge by done. eauto.
Qed.

Lemma text_width_length s : text_width s = N.of_nat (length s).
Proof.
  unfold text_width. destruct (forallb _ s) eqn:Hs; [|done]. f_equal.
  induction s as [|c s IH]; simpl in *; [done|]. apply andb_true_iff in Hs as [Hc Hs].
  rewrite str_len_cons, (IH Hs). unfold len_utf8. by rewrite Hc.
Qed.

Definition flat_fits (w : Z) (t : option str) : bool :=
  match t with Some t => bool_decide (Z.of_nat (length t) <= w)%Z | None => false end.

Lemma flat_fits_app w s t :
  flat_fits (w - Z.of_nat (length s)) t = flat_fits w (match t with Some b => Some (s ++ b) | None => None end).
Proof. destruct t as [t|]; simpl; [|done]. apply bool_decide_ext. rewrite length_app. lia. Qed.

Lemma flat_fits_neg w t : (w < 0)%Z -> flat_fits w t = false.
Proof. intros Hw. destruct t as [t|]; simpl; [|done]. apply bool_decide_eq_false. lia. Qed.

(** The lookahead over commands that are all flat measures their text. *)
Lemma fits_loop_flat config steps : forall w cmds,
  Forall in_flat_mode cmds -> sum_list_with cmd_weight cmds < steps ->
  fits_loop config steps w [] cmds [] = Done (flat_fits w (concat_option flat_cmd cmds)).
Proof.
  induction steps as [|steps IH]; intros w cmds Hf Hw; [lia|]. cbn [fits_loop].
  case_decide as Hneg; [by rewrite flat_fits_neg|].
  destruct cmds as [|cmd rest]; [simpl; rewrite bool_decide_eq_true_2 by lia; done|].
  apply Forall_cons in Hf as [Hc Hf]. cbn [sum_list_with] in Hw.
  assert (Hpush : forall cmds', expands config cmd cmds' -> (forall i m, cmd <> Command.Doc i m Doc.BreakParent) ->
    fits_loop config steps w [] (cmds' ++ rest) [] = Done (flat_fits w (concat_option flat_cmd (cmd :: rest)))).
  { intros cmds' He Hb. destruct (expands_flat _ _ _ He Hc) as (Hf' & Hs & Hn). apply expands_weight in He.
    rewrite IH; [|by apply Forall_app|rewrite sum_list_with_app; lia]. rewrite concat_option_app. cbn [concat_option].
    destruct (flat_cmd cmd) as [t|]; [by rewrite (Hs t)|].
    destruct Hn as [->|(i & m & ->)]; [done|done|]. by destruct (Hb i m). }
  assert (Htext : forall s, flat_cmd cmd = Some s ->
    fits_loop config steps (w - Z.of_nat (length s)) [] rest [] =
    Done (flat_fits w (concat_option flat_cmd (cmd :: rest)))).
  { intros s Hs. pose proof (cmd_weight_pos cmd). rewrite IH; [|done|lia]. cbn [concat_option]. by rewrite Hs, flat_fits_app. }
  destruct cmd as [i m d|i m d k]; destruct Hc as [Hm Hwf]; simpl in Hm; subst m.
  - destruct d as [|s|l|d|n d|d|[]|d| |l|b f]; try (apply Hpush; [by constructor|done]).
    + rewrite text_width_length, nat_N_Z. by apply Htext.
    + apply (Htext [32]%N). done.
    + done.
    + specialize (Htext [] eq_refl). by rewrite Z.sub_0_r in Htext.
    + done.
  - simpl in Hwf. destruct d; try done. destruct (expand_fill_spec config w i Mode.Flat parts k) as (cmds & -> & He).
    rewrite bind_Done_l. by apply Hpush.
Qed.

(** Commands that are all flat write their text. *)
Lemma print_loop_flat config fuel st t :
  state_weight st < fuel -> Forall in_flat_mode (stack st) -> state_all suffix_free st ->
  line_suffixes st = [] -> concat_option flat_cmd (stack st) = Some t ->
  print_loop config fuel st = Done (out st ++ t).
Proof.
  intros Hw Hf Ha Hx Ht.
  destruct (print_loop_ind config (fun st' => Forall in_flat_mode (stack st') /\ state_all suffix_free st' /\
    line_suffixes st' = [] /\ exists t', concat_option flat_cmd (stack st') = Some t' /\ out st ++ t = out st' ++ t'))
    with (fuel := fuel) (st := st) as (r & p & Hr & _ & _ & _ & t' & Ht' & Heq); [| |done| | |].
  - clear - config. intros st1 cmd rest st2 (Hf & Ha & Hx & t1 & Ht & Heq) Hst Hp.
    destruct (pop_all _ st1 cmd rest Ha Hst) as [Hc Ha']. rewrite Hst in Hf, Ht. apply Forall_cons in Hf as [Hc' Hf].
    cbn [concat_option] in Ht. destruct (flat_cmd cmd) as [a|] eqn:Hcmd; [|done].
    destruct (concat_option flat_cmd rest) as [b|] eqn:Hrest; [|done]. injection Ht as <-.
    split_and!; [|by apply (step_all suffix_free _ _ _ _ Hp)| |].
    + destruct Hp; try done. cbn. apply Forall_app. split; [|done]. by eapply expands_flat.
    + destruct Hp; done.
    + destruct Hp as [cmd cmds He|i m s|i|i m k Hs Hm|i m k Hs|i m d]; cbn [stack out push push_text] in *; simplify_eq/=.
      * apply expands_flat in He as (_ & He & _); [|done]. exists (a ++ b). by rewrite concat_option_app, (He a), Hrest.
      * exists b. by rewrite Heq, app_assoc.
      * exists b. by rewrite Heq, <-app_assoc.
      * destruct Hc' as [Hm' _]. simpl in Hm'. destruct Hm; simplify_eq/=.
  - clear. intros st1 (Hf & Ha & Hx & t1 & Ht & Heq) Hst. rewrite Hx, Hst in *. cbn. split_and!; [done| |done|by eauto].
    split; constructor.
  - unfold wf_state. rewrite Hx. split; [|constructor]. eapply Forall_impl; [exact Hf|]. by intros c [_ ?].
  - eauto 10.
  - cbn in Ht', Heq. injection Ht' as <-. rewrite app_nil_r in Heq. by rewrite Hr, Heq.
Qed.

(** A group is laid out on one line exactly when it fits there: when the document has no
    deferred text and is within the bound of the lookahead, the group prints its flat text if
    there is one (no hard line break, no [break_parent]) that is not wider than the maximal
    width, and otherwise what the document without the group prints. *)
Theorem print_group config d :
  suffix_free d = true -> weight d < FITS_MAX_STEPS ->
  print (Doc.Group d) config =
  match flat d with
  | Some t => if decide (length t <= N.to_nat (max_width config)) then Done t else print d config
  | None => print d config
  end.
Proof.
  intros Hs Hw. unfold print at 1. cbn [weight print_loop stack print_command print_doc].
  unfold fits. cbn [pos]. rewrite fits_loop_flat; [|by repeat constructor|simpl; lia].
  rewrite concat_option_one, bind_Done_l. cbn [flat_cmd]. rewrite bind_Done_l.
  destruct (flat d) as [t|] eqn:Ht; [|done]. unfold flat_fits, remaining. case_decide as Hle.
  - rewrite bool_decide_eq_true_2 by lia.
    apply (print_loop_flat config (S (weight d)) (mkState [] 0 [Command.Doc 0 Mode.Flat d] []) t);
      [|by repeat constructor|split; by repeat constructor|done|].
    + unfold state_weight. simpl. lia.
    + cbn [stack]. by rewrite concat_option_one.
  - rewrite bool_decide_eq_false_2 by lia. done.
Qed.

Lemma print_group_witness :
  print (Doc.Group (Doc.Concat [Doc.Text [97]; Doc.Line LineKind.Line; Doc.Text [98]]%N)) (mkConfig 3 2 [10]%N) =
  Done [97; 32; 98]%N.
Proof.
  rewrite print_group; [reflexivity|reflexivity|apply Nat.ltb_lt; vm_compute; reflexivity].
Defined.

(** ** The smart constructors *)

Lemma of_parts_renders make parts c :
  (forall l c, renders (make l) c <-> render_list renders l c) ->
  renders (of_parts make parts) c <-> render_list renders parts c.
Proof.
  intros Hmake. destruct parts as [|d [|e l]]; [done|by rewrite render_list_one|apply Hmake].
Qed.

Lemma concat_parts_renders docs c : render_list renders (concat_parts docs) c <-> render_list renders docs c.
Proof.
  revert c. induction docs as [|d docs IH]; intros c; [done|]. unfold concat_parts in *. cbn [mbind list_bind].
  rewrite render_list_app. setoid_rewrite IH. change (render_list renders (d :: docs) c) with
    (exists c1 c2, c = c1 ++ c2 /\ renders d c1 /\ render_list renders docs c2).
  assert (Hd : forall c1, render_list renders (match d with Doc.Nil => [] | Doc.Concat inner => inner | _ => [d] end) c1
    <-> renders d c1) by (intros c1; destruct d; rewrite ?render_list_one; done).
  by setoid_rewrite Hd.
Qed.

(** [Doc::concat] and [Doc::fill] drop and flatten nothing that is printed. *)
Lemma doc_concat_renders docs c : renders (doc_concat docs) c <-> render_list renders docs c.
Proof. unfold doc_concat. rewrite of_parts_renders by done. apply concat_parts_renders. Qed.

Lemma doc_fill_renders docs c : renders (doc_fill docs) c <-> render_list renders docs c.
Proof.
  unfold doc_fill. rewrite of_parts_renders by done. revert c.
  induction docs as [|d docs IH]; intros c; [done|]. rewrite filter_cons. case_decide as Hd.
  - cbn [render_list]. by setoid_rewrite IH.
  - destruct d; try done. rewrite IH. cbn [render_list renders].
    split; [intros H; by exists [], c|by intros (? & ? & -> & -> & ?)].
Qed.
