(* ===== verification/Budget.v ===== *)
(** * Memory budgets (crates/nova-memory: types.rs, budget.rs)

    The categories of the memory budget, a budget per category, the sizes that users write
    ([512M], [2GiB]), the overrides of a budget by the configuration and by the environment, and
    the limits of the system.  [u64] is [N]; the operations that panic on overflow are in [run]
    (as in the profiles with overflow checks), the saturating ones saturate at [2^64 - 1].  The
    environment, the host's memory and the limits of the process are arguments. *)

From Stdlib Require Import String Ascii.
From stdpp Require Import base numbers option list.
From S2P Require Import Prelude Str.

Local Open Scope N_scope.

(** ** Machine words *)

Definition U64_MAX : N := 2 ^ 64 - 1.

Definition u64 (n : N) : run N := if n <=? U64_MAX then Done n else Panic.
Definition add_u64 (x y : N) : run N := u64 (x + y).
Definition mul_u64 (x y : N) : run N := u64 (x * y).
(** [x - y]: panics below 0. *)
Definition sub_u64 (x y : N) : run N := if y <=? x then Done (x - y) else Panic.
Definition saturating_add_u64 (x y : N) : N := N.min (x + y) U64_MAX.
Definition saturating_mul_u64 (x y : N) : N := N.min (x * y) U64_MAX.
Definition saturating_sub_u64 (x y : N) : N := x - y.

(** ** Categories *)

Module MemoryCategory.
Inductive t := QueryCache | SyntaxTrees | Indexes | TypeInfo | Other.
End MemoryCategory.
Notation MemoryCategory := MemoryCategory.t.

Global Instance MemoryCategory_eq_dec : EqDecision MemoryCategory.
Proof. solve_decision. Defined.

Record MemoryBreakdown := mkBreakdown {
  query_cache : N;
  syntax_trees : N;
  indexes : N;
  type_info : N;
  other : N
}.

(** [MemoryBreakdown::default()]. *)
Definition breakdown_default : MemoryBreakdown := mkBreakdown 0 0 0 0 0.

Definition breakdown_total (self : MemoryBreakdown) : run N :=
  s ← add_u64 (query_cache self) (syntax_trees self);
  s ← add_u64 s (indexes self);
  s ← add_u64 s (type_info self);
  add_u64 s (other self).

Definition get (self : MemoryBreakdown) (category : MemoryCategory) : N :=
  match category with
  | MemoryCategory.QueryCache => query_cache self
  | MemoryCategory.SyntaxTrees => syntax_trees self
  | MemoryCategory.Indexes => indexes self
  | MemoryCategory.TypeInfo => type_info self
  | MemoryCategory.Other => other self
  end.

Definition set (self : MemoryBreakdown) (category : MemoryCategory) (bytes : N) : MemoryBreakdown :=
  let '(mkBreakdown q s i t o) := self in
  match category with
  | MemoryCategory.QueryCache => mkBreakdown bytes s i t o
  | MemoryCategory.SyntaxTrees => mkBreakdown q bytes i t o
  | MemoryCategory.Indexes => mkBreakdown q s bytes t o
  | MemoryCategory.TypeInfo => mkBreakdown q s i bytes o
  | MemoryCategory.Other => mkBreakdown q s i t bytes
  end.

Definition categories : list MemoryCategory :=
  [MemoryCategory.QueryCache; MemoryCategory.SyntaxTrees; MemoryCategory.Indexes;
   MemoryCategory.TypeInfo; MemoryCategory.Other].

(** ** Budgets *)

Definition MB : N := 1024 * 1024.
Definition GB : N := 1024 * MB.

Record MemoryBudget := mkBudget { budget_total : N; budget_categories : MemoryBreakdown }.

Record MemoryBreakdownOverrides := mkBreakdownOverrides {
  ov_query_cache : option N;
  ov_syntax_trees : option N;
  ov_indexes : option N;
  ov_type_info : option N;
  ov_other : option N
}.

Record MemoryBudgetOverrides := mkBudgetOverrides {
  ov_total : option N;
  ov_categories : MemoryBreakdownOverrides
}.

Definition from_total (total : N) : run MemoryBudget :=
  q ← mul_u64 total 40;
  let query_cache := q / 100 in
  s ← mul_u64 total 25;
  let syntax_trees := s / 100 in
  i ← mul_u64 total 20;
  let indexes := i / 100 in
  t ← mul_u64 total 10;
  let type_info := t / 100 in
  a ← add_u64 query_cache syntax_trees;
  a ← add_u64 a indexes;
  assigned ← add_u64 a type_info;
  let other := saturating_sub_u64 total assigned in
  Done (mkBudget total (mkBreakdown query_cache syntax_trees indexes type_info other)).

(** [(system_memory_bytes / 4).clamp(512 * MB, 4 * GB)]. *)
Definition default_for_system_memory_bytes (system_memory_bytes : N) : run MemoryBudget :=
  from_total (N.min (N.max (system_memory_bytes / 4) (512 * MB)) (4 * GB)).

(** The categories that are set replace those of the budget. *)
Definition override_categories (c : MemoryBreakdown) (o : MemoryBreakdownOverrides) : MemoryBreakdown :=
  mkBreakdown (default (query_cache c) (ov_query_cache o)) (default (syntax_trees c) (ov_syntax_trees o))
    (default (indexes c) (ov_indexes o)) (default (type_info c) (ov_type_info o))
    (default (other c) (ov_other o)).

(** The re-normalisation at the end of [apply_overrides]. *)
Definition renormalize (total : N) (c : MemoryBreakdown) : run MemoryBreakdown :=
  sum ← breakdown_total c;
  match sum ?= total with
  | Lt =>
      headroom ← sub_u64 total sum;
      Done (mkBreakdown (query_cache c) (syntax_trees c) (indexes c) (type_info c)
        (saturating_add_u64 (other c) headroom))
  | Eq => Done c
  | Gt =>
      let total := N.max total 1 in
      let scale n := saturating_mul_u64 n total / sum in
      let q := scale (query_cache c) in
      let s := scale (syntax_trees c) in
      let i := scale (indexes c) in
      let t := scale (type_info c) in
      a ← add_u64 q s;
      a ← add_u64 a i;
      assigned ← add_u64 a t;
      Done (mkBreakdown q s i t (saturating_sub_u64 total assigned))
  end.

Definition apply_overrides (self : MemoryBudget) (overrides : MemoryBudgetOverrides) : run MemoryBudget :=
  self ← match ov_total overrides with Some total => from_total total | None => Done self end;
  c ← renormalize (budget_total self) (override_categories (budget_categories self) (ov_categories overrides));
  Done (mkBudget (budget_total self) c).

(** ** Sizes as users write them *)

(** [char::is_whitespace] (Unicode [White_Space]). *)
Definition is_whitespace (c : N) : bool :=
  ((9 <=? c) && (c <=? 13)) || (c =? 0x20) || (c =? 0x85) || (c =? 0xA0) || (c =? 0x1680) ||
  ((0x2000 <=? c) && (c <=? 0x200A)) || (c =? 0x2028) || (c =? 0x2029) || (c =? 0x202F) ||
  (c =? 0x205F) || (c =? 0x3000).

Fixpoint trim_start (s : str) : str :=
  match s with
  | c :: s' => if is_whitespace c then trim_start s' else s
  | [] => []
  end.

Definition trim_end (s : str) : str := rev (trim_start (rev s)).
Definition trim (s : str) : str := trim_end (trim_start s).

Definition is_ascii_digit (c : N) : bool := (48 <=? c) && (c <=? 57).

(** [char::to_ascii_lowercase]. *)
Definition ascii_lower (c : N) : N := if (65 <=? c) && (c <=? 90) then c + 32 else c.
Definition to_ascii_lowercase (s : str) : str := ascii_lower <$> s.

(** The digits at the start, and the rest. *)
Fixpoint span_digits (s : str) : str * str :=
  match s with
  | c :: s' => if is_ascii_digit c then let '(ds, rest) := span_digits s' in (c :: ds, rest) else ([], s)
  | [] => ([], [])
  end.

(** [u64::from_str]: an optional [+], then digits, without overflow. *)
Fixpoint parse_digits (acc : N) (s : str) : option N :=
  match s with
  | [] => Some acc
  | c :: s =>
      if is_ascii_digit c then
        let acc := acc * 10 + (c - 48) in
        if acc <=? U64_MAX then parse_digits acc s else None
      else None
  end.

Definition parse_u64 (s : str) : option N :=
  let digits := match s with 43 :: s => s | _ => s end in
  match digits with [] => None | _ => parse_digits 0 digits end.

Module ParseByteSizeError.
Inductive t := Empty | InvalidNumber | UnknownUnit (unit : str) | Overflow.
End ParseByteSizeError.

Definition multiplier (suffix : str) : option N :=
  if decide (suffix ∈ [[]; lit "b"]) then Some 1
  else if decide (suffix ∈ [lit "k"; lit "kb"; lit "kib"]) then Some 1024
  else if decide (suffix ∈ [lit "m"; lit "mb"; lit "mib"]) then Some (1024 ^ 2)
  else if decide (suffix ∈ [lit "g"; lit "gb"; lit "gib"]) then Some (1024 ^ 3)
  else if decide (suffix ∈ [lit "t"; lit "tb"; lit "tib"]) then Some (1024 ^ 4)
  else None.

Definition parse_byte_size (input : str) : ParseByteSizeError.t + N :=
  let raw := trim input in
  match raw with
  | [] => inl ParseByteSizeError.Empty
  | _ =>
      let normalized := trim (filter (fun c => c <> 95) raw) in
      match normalized with
      | [] => inl ParseByteSizeError.Empty
      | _ =>
          let '(num_str, suffix) := span_digits normalized in
          let suffix := trim suffix in
          match parse_u64 num_str with
          | None => inl ParseByteSizeError.InvalidNumber
          | Some value =>
              let suffix := to_ascii_lowercase suffix in
              match multiplier suffix with
              | None => inl (ParseByteSizeError.UnknownUnit suffix)
              | Some m =>
                  if value * m <=? U64_MAX then inr (value * m) else inl ParseByteSizeError.Overflow
              end
          end
      end
  end.

(** [MemoryBudgetOverrides::from_env], for the variables that are set to valid Unicode. *)
Section Env.
Context (var : string -> option str).

Definition read (name : string) : option N :=
  value ← var name;
  let value := trim value in
  match value with
  | [] => None
  | _ => match parse_byte_size value with inr n => Some n | inl _ => None end
  end.

Definition from_env : MemoryBudgetOverrides :=
  mkBudgetOverrides (read "NOVA_MEMORY_BUDGET_TOTAL")
    (mkBreakdownOverrides (read "NOVA_MEMORY_BUDGET_QUERY_CACHE") (read "NOVA_MEMORY_BUDGET_SYNTAX_TREES")
      (read "NOVA_MEMORY_BUDGET_INDEXES") (read "NOVA_MEMORY_BUDGET_TYPE_INFO") (read "NOVA_MEMORY_BUDGET_OTHER")).
End Env.

(** ** The limits of the system *)

Definition UNLIMITED_THRESHOLD_BYTES : N := N.shiftl 1 60.

Definition interpret_rlimit_as_bytes (raw_bytes rlim_infinity : N) : option N :=
  if (raw_bytes =? rlim_infinity) || (UNLIMITED_THRESHOLD_BYTES <=? raw_bytes) then None else Some raw_bytes.

Definition effective_system_total_memory_bytes (host_total_memory_bytes : N)
    (cgroup_limit_bytes rlimit_as_bytes : option N) : N :=
  let effective := host_total_memory_bytes in
  let effective := match cgroup_limit_bytes with Some limit => N.min effective limit | None => effective end in
  match rlimit_as_bytes with Some limit => N.min effective limit | None => effective end.

(** [cgroup.rs]: [max] or a number of bytes. *)
Definition parse_cgroup_memory_limit_bytes (raw : str) : option N :=
  let raw := trim raw in
  if decide (raw = [] \/ raw = lit "max") then None
  else
    value ← parse_u64 raw;
    if UNLIMITED_THRESHOLD_BYTES <=? value then None else Some value.

(** [sys.total_memory().saturating_mul(1024)], bounded by the limits. *)
Definition system_total_memory_bytes (total_memory : N) (cgroup_limit rlimit_as : option N) : option N :=
  let host_total := saturating_mul_u64 total_memory 1024 in
  Some (effective_system_total_memory_bytes host_total cgroup_limit rlimit_as).

Definition default_for_system (system_total : option N) : run MemoryBudget :=
  default_for_system_memory_bytes (default (8 * GB) system_total).

Definition default_for_system_with_env_overrides (system_total : option N) (var : string -> option str)
    : run MemoryBudget :=
  b ← default_for_system system_total;
  apply_overrides b (from_env var).

(** ** Sums of categories *)

Definition bsum (b : MemoryBreakdown) : N :=
  query_cache b + syntax_trees b + indexes b + type_info b + other b.

Lemma U64_MAX_pos : 1 <= U64_MAX.
Proof. done. Qed.

Lemma u64_Done n : n <= U64_MAX -> u64 n = Done n.
Proof. intros H. unfold u64. by rewrite (proj2 (N.leb_le _ _) H). Qed.

Lemma breakdown_total_Done b : bsum b <= U64_MAX -> breakdown_total b = Done (bsum b).
Proof.
  unfold breakdown_total, bsum, add_u64. intros H. rewrite !u64_Done, bind_Done_l by lia.
  rewrite u64_Done, bind_Done_l by lia. rewrite u64_Done, bind_Done_l by lia. by rewrite u64_Done by lia.
Qed.

(** The default split of a total. *)
Definition default_split (total : N) : MemoryBreakdown :=
  mkBreakdown (total * 40 / 100) (total * 25 / 100) (total * 20 / 100) (total * 10 / 100)
    (total - (total * 40 / 100 + total * 25 / 100 + total * 20 / 100 + total * 10 / 100)).

Lemma percentages_le total :
  total * 40 / 100 + total * 25 / 100 + total * 20 / 100 + total * 10 / 100 <= total.
Proof.
  pose proof (N.Div0.mul_div_le (total * 40) 100). pose proof (N.Div0.mul_div_le (total * 25) 100).
  pose proof (N.Div0.mul_div_le (total * 20) 100). pose proof (N.Div0.mul_div_le (total * 10) 100). lia.
Qed.

Lemma from_total_Done total : total * 40 <= U64_MAX -> from_total total = Done (mkBudget total (default_split total)).
Proof.
  intros H. pose proof (percentages_le total) as Hp. unfold from_total, mul_u64, add_u64.
  rewrite (u64_Done (total * 40)), (u64_Done (total * 25)), (u64_Done (total * 20)), (u64_Done (total * 10)) by lia.
  repeat (rewrite bind_Done_l). unfold default_split. revert Hp.
  generalize (total * 40 / 100), (total * 25 / 100), (total * 20 / 100), (total * 10 / 100). intros q s i t Hp.
  repeat (rewrite u64_Done by lia; rewrite bind_Done_l). done.
Qed.

Lemma default_split_sum total : bsum (default_split total) = total.
Proof.
  pose proof (percentages_le total) as Hp. unfold bsum, default_split.
  cbn [query_cache syntax_trees indexes type_info other]. revert Hp.
  generalize (total * 40 / 100), (total * 25 / 100), (total * 20 / 100), (total * 10 / 100). lia.
Qed.

(** Parts scaled down to a total leave a remainder of it. *)
Lemma scaled_le (n m sum : N) : sum <> 0 -> saturating_mul_u64 n m / sum <= n * m / sum.
Proof. intros H. apply N.Div0.div_le_mono. unfold saturating_mul_u64. lia. Qed.

Lemma scaled_sum_le a b c d m sum :
  sum <> 0 -> a + b + c + d <= sum -> a * m / sum + b * m / sum + c * m / sum + d * m / sum <= m.
Proof.
  intros H Hle.
  assert (Hd : forall n, sum * (n * m / sum) <= n * m) by (intros n; by apply N.Div0.mul_div_le).
  pose proof (Hd a); pose proof (Hd b); pose proof (Hd c); pose proof (Hd d).
  set (x := a * m / sum) in *. set (y := b * m / sum) in *. set (z := c * m / sum) in *. set (w := d * m / sum) in *.
  apply (N.mul_le_mono_pos_l _ _ sum); [lia|]. nia.
Qed.

(** What the re-normalisation gives. *)
Lemma renormalize_spec total c :
  total <= U64_MAX -> bsum c <= U64_MAX ->
  exists c', renormalize total c = Done c' /\
    bsum c' = (if bsum c <=? total then total else N.max total 1) /\
    (bsum c <= total -> forall k, k <> MemoryCategory.Other -> get c' k = get c k) /\
    (total < bsum c -> forall k, k <> MemoryCategory.Other ->
       get c' k = saturating_mul_u64 (get c k) (N.max total 1) / bsum c).
Proof.
  intros Ht Hc. unfold renormalize. rewrite breakdown_total_Done, bind_Done_l by done.
  destruct (bsum c ?= total) eqn:Hcmp.
  - rewrite N.compare_eq_iff in Hcmp. exists c. rewrite (proj2 (N.leb_le _ _)) by lia.
    split_and!; [done|done|done|lia].
  - rewrite N.compare_lt_iff in Hcmp. unfold sub_u64. rewrite (proj2 (N.leb_le _ _)), bind_Done_l by lia.
    eexists. split; [done|]. split_and!.
    + unfold bsum, saturating_add_u64 in *. cbn. lia.
    + intros _ [] Hk; done.
    + lia.
  - rewrite N.compare_gt_iff in Hcmp. rewrite (proj2 (N.leb_gt _ _)) by lia.
    set (m := N.max total 1). set (sum := bsum c) in *.
    assert (Hs : sum <> 0) by lia. assert (Hm : m <= U64_MAX) by (pose proof U64_MAX_pos; unfold m; lia).
    pose proof (scaled_le (query_cache c) m sum Hs). pose proof (scaled_le (syntax_trees c) m sum Hs).
    pose proof (scaled_le (indexes c) m sum Hs). pose proof (scaled_le (type_info c) m sum Hs).
    pose proof (scaled_sum_le (query_cache c) (syntax_trees c) (indexes c) (type_info c) m sum Hs ltac:(unfold sum, bsum; lia)).
    set (q := saturating_mul_u64 (query_cache c) m / sum) in *. set (s := saturating_mul_u64 (syntax_trees c) m / sum) in *.
    set (i := saturating_mul_u64 (indexes c) m / sum) in *. set (t := saturating_mul_u64 (type_info c) m / sum) in *.
    assert (Hle : q + s + i + t <= m) by lia. unfold add_u64. repeat (rewrite u64_Done by lia; rewrite bind_Done_l).
    eexists. split; [done|]. split_and!.
    + unfold bsum, saturating_sub_u64. cbn. lia.
    + lia.
    + intros _ [] Hk; done.
Qed.

(** A budget is what its categories add up to, also after overrides: when nothing overflows,
    [apply_overrides] returns a budget of the requested total whose categories sum to it (to 1
    when the total is 0 and the categories exceed it); categories that fit are kept, and only
    [other] takes the headroom. *)
Theorem apply_overrides_sum b ov :
  let total := default (budget_total b) (ov_total ov) in
  let base := match ov_total ov with Some t => default_split t | None => budget_categories b end in
  let c := override_categories base (ov_categories ov) in
  (ov_total ov <> None -> total * 40 <= U64_MAX) -> total <= U64_MAX -> bsum c <= U64_MAX ->
  exists c', apply_overrides b ov = Done (mkBudget total c') /\
    bsum c' = (if bsum c <=? total then total else N.max total 1) /\
    (bsum c <= total -> forall k, k <> MemoryCategory.Other -> get c' k = get c k).
Proof.
  intros total base c H40 Ht Hc. destruct (renormalize_spec total c Ht Hc) as (c' & Hr & Hs & Hk & _).
  exists c'. split; [|done]. unfold apply_overrides.
  assert (Hb : match ov_total ov with Some t => from_total t | None => Done b end = Done (mkBudget total base)).
  { unfold total, base in *. destruct (ov_total ov) as [t|]; [|by destruct b]. by apply from_total_Done, H40. }
  rewrite Hb, bind_Done_l. cbn [budget_total budget_categories].
  change (override_categories base (ov_categories ov)) with c. by rewrite Hr, bind_Done_l.
Qed.

Lemma apply_overrides_sum_witness :
  let ov := mkBudgetOverrides (Some 1000) (mkBreakdownOverrides (Some 900) None None None (Some 300)) in
  exists c', apply_overrides (mkBudget 7 (default_split 7)) ov = Done (mkBudget 1000 c') /\ bsum c' = 1000.
Proof.
  destruct (apply_overrides_sum (mkBudget 7 (default_split 7))
    (mkBudgetOverrides (Some 1000) (mkBreakdownOverrides (Some 900) None None None (Some 300)))) as (c' & H & Hs & _);
    [by vm_compute|by vm_compute|by vm_compute|].
  exists c'. split; [exact H|exact Hs].
Defined.

(** Scaling down is proportional only below 2^64.  When the categories exceed the total, a
    category gets its share of the total (rounded down) provided that category times total fits
    in 64 bits.  The product saturates otherwise: a budget of 4 GiB whose query cache is
    overridden to 8 GiB leaves it about half of its share. *)
Theorem apply_overrides_scaling b ov :
  let c := override_categories (budget_categories b) (ov_categories ov) in
  ov_total ov = None -> 0 < budget_total b -> budget_total b <= U64_MAX ->
  bsum c <= U64_MAX -> budget_total b < bsum c ->
  (exists c', apply_overrides b ov = Done (mkBudget (budget_total b) c') /\
    forall k, k <> MemoryCategory.Other -> get c k * budget_total b <= U64_MAX ->
      get c' k = get c k * budget_total b / bsum c) /\
  exists c', apply_overrides (mkBudget (4 * GB) (default_split (4 * GB)))
      (mkBudgetOverrides None (mkBreakdownOverrides (Some (8 * GB)) None None None None)) = Done (mkBudget (4 * GB) c') /\
    query_cache c' = 1651910498 /\
    8 * GB * (4 * GB) / (8 * GB + bsum (default_split (4 * GB)) - query_cache (default_split (4 * GB))) = 3303820996.
Proof.
  intros c Hov H0 Ht Hc Hlt. split; [|eexists; split; [vm_compute; reflexivity|split; [reflexivity|vm_compute; reflexivity]]].
  destruct (renormalize_spec (budget_total b) c Ht Hc) as (c' & Hr & _ & _ & Hk).
  exists c'. split; [unfold apply_overrides; rewrite Hov, bind_Done_l; change (override_categories _ _) with c; by rewrite Hr, bind_Done_l|].
  intros k Hko Hfit. rewrite (Hk Hlt k Hko). replace (N.max (budget_total b) 1) with (budget_total b) by lia.
  unfold saturating_mul_u64. by rewrite N.min_l by done.
Qed.

Lemma apply_overrides_scaling_witness :
  exists c', apply_overrides (mkBudget 100 (default_split 100))
      (mkBudgetOverrides None (mkBreakdownOverrides (Some 140) None None None None)) = Done (mkBudget 100 c') /\
    query_cache c' = 70.
Proof.
  destruct (apply_overrides_scaling (mkBudget 100 (default_split 100))
    (mkBudgetOverrides None (mkBreakdownOverrides (Some 140) None None None None))) as [(c' & H & Hk) _];
    [reflexivity|reflexivity|by vm_compute|by vm_compute|by vm_compute|].
  exists c'. split; [exact H|exact (Hk MemoryCategory.QueryCache ltac:(discriminate) ltac:(vm_compute; discriminate))].
Defined.

(** ** Parsing sizes *)

(** The number that digits stand for. *)
Definition decimal (ds : str) : N := foldl (fun acc c => acc * 10 + (c - 48)) 0 ds.

Definition is_digits (ds : str) : Prop := Forall (fun c => is_ascii_digit c = true) ds.

Lemma decimal_from_ge acc ds : acc <= foldl (fun acc c => acc * 10 + (c - 48)) acc ds.
Proof. revert acc. induction ds as [|c ds IH]; intros acc; cbn [foldl]; [done|]. etransitivity; [|apply IH]. lia. Qed.

Lemma parse_digits_spec acc ds v :
  parse_digits acc ds = Some v <->
  is_digits ds /\ v = foldl (fun acc c => acc * 10 + (c - 48)) acc ds /\ (ds = [] \/ v <= U64_MAX).
Proof.
  unfold is_digits. revert acc. induction ds as [|c ds IH]; intros acc; cbn [parse_digits foldl].
  - split; [intros [= ->]; auto|]. by intros (_ & -> & _).
  - rewrite Forall_cons. destruct (is_ascii_digit c); [|naive_solver].
    pose proof (decimal_from_ge (acc * 10 + (c - 48)) ds) as Hge.
    destruct (acc * 10 + (c - 48) <=? U64_MAX) eqn:Hle.
    + apply N.leb_le in Hle. rewrite IH. split; [|naive_solver].
      intros (Hd & -> & Hv). split_and!; [done|done|done|]. right. destruct Hv as [->|Hv]; [done|done].
    + apply N.leb_gt in Hle. split; [done|]. intros (_ & -> & [|Hv]); [done|lia].
Qed.

Lemma parse_u64_digits ds v : is_digits ds -> parse_u64 ds = Some v <-> ds <> [] /\ v = decimal ds /\ v <= U64_MAX.
Proof.
  intros Hd. unfold parse_u64. destruct ds as [|c ds]; [naive_solver|].
  assert (Hc : c <> 43) by (intros ->; apply Forall_cons in Hd as [Hd _]; done).
  assert (Heq : (match c :: ds with 43 :: s => s | _ => c :: ds end) = c :: ds).
  { destruct c as [|p]; [done|]. do 6 (destruct p as [p|p|]; try done). }
  rewrite Heq, parse_digits_spec. unfold decimal. naive_solver.
Qed.

Definition spaces (s : str) : Prop := Forall (fun c => is_whitespace c = true) s.
Definition no_spaces (s : str) : Prop := Forall (fun c => is_whitespace c = false) s.

Lemma trim_start_split s : exists w, spaces w /\ s = w ++ trim_start s.
Proof.
  induction s as [|c s (w & Hw & Hs)]; [exists []; split; [constructor|done]|]. cbn [trim_start]. destruct (is_whitespace c) eqn:Hc.
  - exists (c :: w). split; [by constructor|]. simpl. by rewrite <-Hs.
  - exists []. split; [constructor|done].
Qed.

Lemma trim_end_split s : exists w, spaces w /\ s = trim_end s ++ w.
Proof.
  destruct (trim_start_split (rev s)) as (w & Hw & Hs). exists (rev w). split; [by apply List.Forall_rev|].
  unfold trim_end. rewrite <-rev_app_distr, <-Hs. by rewrite rev_involutive.
Qed.

(** [trim] removes blanks at both ends. *)
Lemma trim_split s : exists w1 w2, spaces w1 /\ spaces w2 /\ s = w1 ++ trim s ++ w2.
Proof.
  destruct (trim_start_split s) as (w1 & H1 & Hs). destruct (trim_end_split (trim_start s)) as (w2 & H2 & Ht).
  exists w1, w2. split_and!; [done|done|]. unfold trim. by rewrite <-Ht.
Qed.

Lemma trim_start_app w s : spaces w -> trim_start (w ++ s) = trim_start s.
Proof. induction 1 as [|c w Hc _ IH]; [done|]. simpl. by rewrite Hc. Qed.

Lemma trim_start_id s : no_spaces s -> trim_start s = s.
Proof. destruct s as [|c s]; [done|]. intros [Hc _]%Forall_cons. simpl. by rewrite Hc. Qed.

Lemma trim_start_spaces w : spaces w -> trim_start w = [].
Proof. intros Hw. rewrite <-(app_nil_r w). by rewrite trim_start_app. Qed.

Lemma trim_unit w1 u w2 : spaces w1 -> spaces w2 -> no_spaces u -> trim (w1 ++ u ++ w2) = u.
Proof.
  intros H1 H2 Hu. unfold trim, trim_end. rewrite trim_start_app by done. destruct u as [|c u].
  - simpl. by rewrite (trim_start_spaces w2 H2).
  - assert (Hs : trim_start ((c :: u) ++ w2) = (c :: u) ++ w2).
    { apply Forall_cons in Hu as [Hc _]. simpl. by rewrite Hc. }
    rewrite Hs, rev_app_distr, trim_start_app by (by apply List.Forall_rev).
    rewrite trim_start_id by (by apply List.Forall_rev). by rewrite rev_involutive.
Qed.

Definition starts_no_digit (s : str) : Prop := match s with c :: _ => is_ascii_digit c = false | [] => True end.

Lemma span_digits_sound s ds rest : span_digits s = (ds, rest) -> s = ds ++ rest /\ is_digits ds.
Proof.
  revert ds. induction s as [|c s IH]; intros ds; cbn [span_digits]; [intros [= <- <-]; split; [done|constructor]|].
  destruct (is_ascii_digit c) eqn:Hc; [|intros [= <- <-]; split; [done|constructor]].
  destruct (span_digits s) as [ds' rest']. intros [= <- <-]. destruct (IH ds' eq_refl) as [-> Hd].
  split; [done|by constructor].
Qed.

Lemma span_digits_app ds rest : is_digits ds -> starts_no_digit rest -> span_digits (ds ++ rest) = (ds, rest).
Proof.
  intros Hd Hr. induction Hd as [|c ds Hc _ IH]; simpl; [|by rewrite Hc, IH].
  destruct rest as [|c rest]; [done|]. simpl. by rewrite Hr.
Qed.

Definition is_letter (c : N) : Prop := 97 <= c <= 122.

Lemma multiplier_letters suffix m : multiplier suffix = Some m -> Forall is_letter suffix.
Proof.
  assert (HL : forall L, Forall (Forall is_letter) L -> suffix ∈ L -> Forall is_letter suffix)
    by (intros L HL; by apply Forall_forall).
  unfold multiplier.
  repeat (case_decide as H; [intros _; revert H; apply HL; repeat constructor; done|clear H]). done.
Qed.

Lemma unit_char c : is_letter (ascii_lower c) -> is_whitespace c = false /\ is_ascii_digit c = false.
Proof.
  unfold is_letter, ascii_lower. intros H.
  assert (Hc : 65 <= c <= 90 \/ 97 <= c <= 122).
  { destruct ((65 <=? c) && (c <=? 90)) eqn:E; [|by right]. apply andb_true_iff in E as [E1%N.leb_le E2%N.leb_le]. by left. }
  unfold is_whitespace, is_ascii_digit. split.
  - repeat rewrite orb_false_iff. repeat rewrite andb_false_iff. repeat rewrite N.leb_gt. repeat rewrite N.eqb_neq. lia.
  - rewrite andb_false_iff, !N.leb_gt. lia.
Qed.

Lemma whitespace_no_digit c : is_whitespace c = true -> is_ascii_digit c = false.
Proof.
  intros H. destruct (is_ascii_digit c) eqn:Hd; [|done]. unfold is_ascii_digit in Hd.
  apply andb_true_iff in Hd as [H1%N.leb_le H2%N.leb_le]. exfalso. revert H. apply not_true_iff_false.
  unfold is_whitespace. repeat rewrite orb_false_iff. repeat rewrite andb_false_iff. repeat rewrite N.leb_gt.
  repeat rewrite N.eqb_neq. lia.
Qed.

Lemma starts_no_digit_app w1 unit w2 :
  spaces w1 -> spaces w2 -> Forall (fun c => is_ascii_digit c = false) unit ->
  starts_no_digit (w1 ++ unit ++ w2).
Proof.
  intros H1 H2 Hu. destruct w1 as [|c w1]; [|apply Forall_cons in H1 as [H1 _]; by apply whitespace_no_digit].
  destruct unit as [|c unit]; [|by apply Forall_cons in Hu as [Hu _]].
  destruct w2 as [|c w2]; [done|]. apply Forall_cons in H2 as [H2 _]. by apply whitespace_no_digit.
Qed.

(** The documented units: a power of 1024 by the letter, with an optional [b] or [ib]. *)
Definition unit_power (u : str) (k : nat) : Prop :=
  k = 0%nat /\ (u = [] \/ u = lit "b") \/
  exists j c, k = S j /\ lit "kmgt" !! j = Some c /\ (u = [c] \/ u = c :: lit "b" \/ u = c :: lit "ib").

Lemma multiplier_spec u m : multiplier u = Some m <-> exists k, unit_power u k /\ m = 1024 ^ N.of_nat k.
Proof.
  split.
  - unfold multiplier.
    repeat (case_decide as Hu; [rewrite !elem_of_cons, elem_of_nil in Hu; intros [= <-]|clear Hu]); [| | | | |done].
    + exists 0%nat. split; [left; tauto|done].
    + exists 1%nat. split; [right; exists 0%nat, 107; split_and!; [done|done|tauto]|done].
    + exists 2%nat. split; [right; exists 1%nat, 109; split_and!; [done|done|tauto]|done].
    + exists 3%nat. split; [right; exists 2%nat, 103; split_and!; [done|done|tauto]|done].
    + exists 4%nat. split; [right; exists 3%nat, 116; split_and!; [done|done|tauto]|done].
  - intros (k & [[-> [->| ->]]|(j & c & -> & Hj & Hu)] & ->); [done|done|].
    do 4 (destruct j as [|j]; [cbn in Hj; injection Hj as <-; destruct Hu as [->|[->| ->]]; vm_compute; reflexivity|]).
    done.
Qed.

(** The characters of a size, without blanks around it and without [_]. *)
Definition size_text (input : str) : str := trim (filter (fun c => c <> 95) (trim input)).

(** [parse_byte_size] accepts the documented sizes, and nothing else: digits, an optional unit
    in either case with blanks before it, blanks around and underscores anywhere; the value is
    the number times the power of 1024 of the unit, and it fits in 64 bits. *)
Theorem parse_byte_size_exact input v :
  parse_byte_size input = inr v <->
  exists ds w1 unit w2 k,
    size_text input = ds ++ w1 ++ unit ++ w2 /\ ds <> [] /\ is_digits ds /\ spaces w1 /\ spaces w2 /\
    unit_power (to_ascii_lowercase unit) k /\ v = decimal ds * 1024 ^ N.of_nat k /\ decimal ds <= U64_MAX /\ v <= U64_MAX.
Proof.
  assert (Hshape : parse_byte_size input =
    match size_text input with
    | [] => inl ParseByteSizeError.Empty
    | _ => let '(num_str, suffix) := span_digits (size_text input) in
        match parse_u64 num_str with
        | None => inl ParseByteSizeError.InvalidNumber
        | Some value =>
            match multiplier (to_ascii_lowercase (trim suffix)) with
            | None => inl (ParseByteSizeError.UnknownUnit (to_ascii_lowercase (trim suffix)))
            | Some m => if value * m <=? U64_MAX then inr (value * m) else inl ParseByteSizeError.Overflow
            end
        end
    end).
  { unfold parse_byte_size, size_text. destruct (trim input) as [|c raw]; done. }
  rewrite Hshape. clear Hshape. split.
  - destruct (size_text input) as [|c0 s0] eqn:Hst; [done|]. rewrite <-Hst. clear Hst c0 s0.
    destruct (span_digits (size_text input)) as [ds suffix] eqn:Hs. apply span_digits_sound in Hs as [Hs Hd].
    destruct (parse_u64 ds) as [n|] eqn:Hn; [|done]. apply parse_u64_digits in Hn as (Hne & -> & Hn); [|done].
    destruct (multiplier _) as [m|] eqn:Hm; [|done]. destruct (_ <=? _) eqn:Hle; [|done]. intros [= <-].
    apply N.leb_le in Hle. destruct (trim_split suffix) as (w1 & w2 & H1 & H2 & Heq).
    apply multiplier_spec in Hm as (k & Hk & ->). exists ds, w1, (trim suffix), w2, k. rewrite <-Heq. done.
  - intros (ds & w1 & unit & w2 & k & Hst & Hne & Hd & H1 & H2 & Hk & -> & Hn & Hv).
    assert (Hm : multiplier (to_ascii_lowercase unit) = Some (1024 ^ N.of_nat k)) by (apply multiplier_spec; eauto).
    assert (Hu : Forall (fun c => is_whitespace c = false /\ is_ascii_digit c = false) unit).
    { apply multiplier_letters in Hm. unfold to_ascii_lowercase in Hm. rewrite Forall_fmap in Hm.
      eapply Forall_impl; [exact Hm|]. intros c. apply unit_char. }
    assert (Hspan : span_digits (size_text input) = (ds, w1 ++ unit ++ w2)).
    { rewrite Hst. apply span_digits_app; [done|]. apply starts_no_digit_app; [done|done|].
      eapply Forall_impl; [exact Hu|]. naive_solver. }
    destruct (size_text input) as [|c0 s0] eqn:Hst'; [by destruct ds|]. rewrite Hspan.
    rewrite (proj2 (parse_u64_digits ds (decimal ds) Hd)) by done.
    rewrite trim_unit; [|done|done|eapply Forall_impl; [exact Hu|]; naive_solver].
    rewrite Hm. by rewrite (proj2 (N.leb_le _ _) Hv).
Qed.

(** A size that parses may still be too large for a total: [from_total] computes forty times
    the total in 64 bits, and overflows exactly when that does not fit; [500000T] parses. *)
Theorem from_total_overflow total :
  from_total total = (if total * 40 <=? U64_MAX then Done (mkBudget total (default_split total)) else Panic) /\
  exists n, parse_byte_size (lit "500000T") = inr n /\ from_total n = Panic.
Proof.
  split; [|eexists; split; [vm_compute; reflexivity|reflexivity]].
  destruct (total * 40 <=? U64_MAX) eqn:H; [apply from_total_Done; by apply N.leb_le|].
  unfold from_total, mul_u64, u64. by rewrite H.
Qed.
