(* ===== verification/MemoryManager.v ===== *)
(** * The memory manager (crates/nova-memory: manager.rs, pressure.rs, degraded.rs, eviction.rs)

    Components register a counter of the bytes they hold, some of them with an evictor.  The
    manager sums the counters per category, computes the pressure, and when a category is over its
    target asks the evictors to shrink.  [f64] is the binary64 format of [SpecFloat].  What the
    manager calls (evictors, the counters, the file that gives the resident size) is the class
    [World]; a registration's counter is named by its id, the order of [registrations] is the order
    in which the hash map is traversed, and listeners are named by numbers. *)

From Stdlib Require Import SpecFloat String.
From stdpp Require Import base numbers option list.
From S2P Require Import Prelude Sorting Str Budget.

Local Open Scope N_scope.

(** ** Floating point *)

Module F64.
Definition t := spec_float.
(** [n as f64]. *)
Definition of_u64 (n : N) : t := binary_normalize 53 1024 (Z.of_N n) 0 false.
Definition div : t -> t -> t := SFdiv 53 1024.
Definition mul : t -> t -> t := SFmul 53 1024.
Definition ge (x y : t) : bool := SFleb y x.

(** [x.round() as u64]: half away from zero, then a saturating conversion. *)
Definition round_as_u64 (x : t) : N :=
  match x with
  | S754_zero _ | S754_nan => 0
  | S754_infinity s => if s then 0 else U64_MAX
  | S754_finite s m e =>
      if s then 0
      else
        let n := if (0 <=? e)%Z then (Zpos m * 2 ^ e)%Z else ((Zpos m + 2 ^ (- e - 1)) / 2 ^ (- e))%Z in
        N.min (Z.to_N n) U64_MAX
  end.

(** The literals [1.0], [0.95], [0.85], [0.70], [0.50] and [0.0], to nearest. *)
Definition one : t := S754_finite false 4503599627370496 (-52).
Definition p95 : t := S754_finite false 8556839292003942 (-53).
Definition p85 : t := S754_finite false 7656119366529843 (-53).
Definition p70 : t := S754_finite false 6305039478318694 (-53).
Definition p50 : t := S754_finite false 4503599627370496 (-53).
Definition zero : t := S754_zero false.
End F64.

(** ** Pressure *)

Module MemoryPressure.
Inductive t := Low | Medium | High | Critical.
End MemoryPressure.
Notation MemoryPressure := MemoryPressure.t.

Global Instance MemoryPressure_eq_dec : EqDecision MemoryPressure.
Proof. solve_decision. Defined.

Record MemoryPressureThresholds := mkThresholds { medium : F64.t; high : F64.t; critical : F64.t }.

Definition thresholds_default : MemoryPressureThresholds := mkThresholds F64.p70 F64.p85 F64.p95.

Definition level_for_ratio (self : MemoryPressureThresholds) (ratio : F64.t) : MemoryPressure :=
  if F64.ge ratio (critical self) then MemoryPressure.Critical
  else if F64.ge ratio (high self) then MemoryPressure.High
  else if F64.ge ratio (medium self) then MemoryPressure.Medium
  else MemoryPressure.Low.

Module BackgroundIndexingMode.
Inductive t := Full | Reduced | Paused.
End BackgroundIndexingMode.

Global Instance BackgroundIndexingMode_eq_dec : EqDecision BackgroundIndexingMode.t.
Proof. solve_decision. Defined.

Record DegradedSettings := mkDegraded {
  skip_expensive_diagnostics : bool;
  completion_candidate_cap : N;
  background_indexing : BackgroundIndexingMode.t
}.

Global Instance DegradedSettings_eq_dec : EqDecision DegradedSettings.
Proof. solve_decision. Defined.

Definition for_pressure (pressure : MemoryPressure) : DegradedSettings :=
  match pressure with
  | MemoryPressure.Low | MemoryPressure.Medium => mkDegraded false 200 BackgroundIndexingMode.Full
  | MemoryPressure.High => mkDegraded true 50 BackgroundIndexingMode.Reduced
  | MemoryPressure.Critical => mkDegraded true 20 BackgroundIndexingMode.Paused
  end.

(** ** Evictors and the world *)

Record EvictionRequest := mkRequest { request_pressure : MemoryPressure; target_bytes : N }.

(** A [dyn MemoryEvictor]: the object, its name and its priority. *)
Record Evictor := mkEvictor { ev_object : N; ev_name : str; ev_priority : N }.

Class World (W : Type) := {
  load : W -> N -> N;
  store : W -> N -> N -> W;
  evict : Evictor -> EvictionRequest -> W -> W;
  flush_to_disk : Evictor -> W -> W;
  proc_self_status : W -> option str
}.

(** ** The state of the manager *)

Record RegistrationEntry := mkEntry {
  entry_name : str;
  entry_category : MemoryCategory;
  entry_evictor : option Evictor
}.

Record Manager := mkManager {
  budget : MemoryBudget;
  thresholds : MemoryPressureThresholds;
  next_id : N;
  registrations : list (N * RegistrationEntry);
  state_pressure : MemoryPressure;
  state_degraded : DegradedSettings;
  listeners : list N
}.

Record MemoryReport := mkReport {
  report_budget : MemoryBudget;
  report_usage : MemoryBreakdown;
  report_rss : option N;
  report_pressure : MemoryPressure;
  report_degraded : DegradedSettings
}.

Record MemoryEvent := mkEvent {
  previous_pressure : MemoryPressure;
  event_pressure : MemoryPressure;
  event_report : MemoryReport
}.

Record ComponentUsage := mkComponent {
  component_name : str;
  component_category : MemoryCategory;
  component_bytes : N
}.

Definition with_thresholds (budget : MemoryBudget) (thresholds : MemoryPressureThresholds) : Manager :=
  let pressure := MemoryPressure.Low in
  mkManager budget thresholds 1 [] pressure (for_pressure pressure) [].

Definition new (budget : MemoryBudget) : Manager := with_thresholds budget thresholds_default.

Definition subscribe (self : Manager) (listener : N) : Manager :=
  let '(mkManager b t n r p d ls) := self in mkManager b t n r p d (ls ++ [listener]).

Definition effective_usage_total (tracked_total : N) (rss_bytes : option N) : N :=
  match rss_bytes with Some rss => N.max tracked_total rss | None => tracked_total end.

Definition category_sort_key (category : MemoryCategory) : N :=
  match category with
  | MemoryCategory.QueryCache => 0
  | MemoryCategory.SyntaxTrees => 1
  | MemoryCategory.Indexes => 2
  | MemoryCategory.TypeInfo => 3
  | MemoryCategory.Other => 4
  end.

Definition eviction_target_ratio (pressure : MemoryPressure) : F64.t :=
  match pressure with
  | MemoryPressure.Low => F64.one
  | MemoryPressure.Medium => F64.p70
  | MemoryPressure.High => F64.p50
  | MemoryPressure.Critical => F64.zero
  end.

(** [str::cmp]: the order of the bytes. *)
Fixpoint bytes_cmp (x y : list N) : comparison :=
  match x, y with
  | [], [] => Eq
  | [], _ :: _ => Lt
  | _ :: _, [] => Gt
  | a :: x, b :: y => match a ?= b with Eq => bytes_cmp x y | c => c end
  end.

Definition str_cmp (x y : str) : comparison := bytes_cmp (as_bytes x) (as_bytes y).

(** [process.rs]: the resident size in [/proc/self/status]. *)

(** [str::lines]: the last line needs no terminator, a carriage return before a line feed goes. *)
Definition drop_cr (rline : str) : str := match rline with 13 :: rline => rline | _ => rline end.

Fixpoint lines_from (rline : str) (s : str) : list str :=
  match s with
  | [] => match rline with [] => [] | _ => [rev rline] end
  | c :: s => if c =? 10 then rev (drop_cr rline) :: lines_from [] s else lines_from (c :: rline) s
  end.

Definition lines (s : str) : list str := lines_from [] s.

Fixpoint strip_prefix (prefix s : str) : option str :=
  match prefix, s with
  | [], _ => Some s
  | p :: prefix, c :: s => if p =? c then strip_prefix prefix s else None
  | _ :: _, [] => None
  end.

Fixpoint take_word (s : str) : str :=
  match s with c :: s => if is_whitespace c then [] else c :: take_word s | [] => [] end.

(** [s.split_whitespace().next()]. *)
Definition first_word (s : str) : option str :=
  match take_word (trim_start s) with [] => None | w => Some w end.

Fixpoint rss_of_lines (ls : list str) : option N :=
  match ls with
  | [] => None
  | line :: ls =>
      match strip_prefix (lit "VmRSS:") (trim_start line) with
      | Some rest => w ← first_word rest; kb ← parse_u64 w; Some (saturating_mul_u64 kb 1024)
      | None => rss_of_lines ls
      end
  end.

Section Operations.
Context `{World W}.

Definition current_rss_bytes (w : W) : option N :=
  status ← proc_self_status w; rss_of_lines (lines status).

(** A registration gets the next id and a counter at 0. *)
Definition register_inner (self : Manager) (w : W) (name : str) (category : MemoryCategory)
    (evictor : option Evictor) : N * Manager * W :=
  let '(mkManager b t id r p d ls) := self in
  let r := (id, mkEntry name category evictor) :: filter (fun e => e.1 <> id) r in
  (id, mkManager b t ((id + 1) mod 2 ^ 64) r p d ls, store w id 0).

(** [Drop for MemoryRegistration], while the manager lives. *)
Definition drop_registration (self : Manager) (w : W) (id : N) : Manager * W :=
  let '(mkManager b t n r p d ls) := self in
  (mkManager b t n (filter (fun e => e.1 <> id) r) p d ls, store w id 0).

Definition set_bytes (w : W) (id bytes : N) : W := store w id bytes.

(** [add_bytes]: the compare-and-exchange succeeds at once when nothing interferes. *)
Definition add_bytes (w : W) (id : N) (delta : Z) : W :=
  let current := load w id in
  let next :=
    if (0 <=? delta)%Z then saturating_add_u64 current (Z.to_N delta)
    else saturating_sub_u64 current (Z.to_N (- delta)) in
  store w id next.

(** Adds the counter [id] to its category. *)
Definition add_usage (w : W) (breakdown : MemoryBreakdown) (category : MemoryCategory) (id : N) : MemoryBreakdown :=
  set breakdown category (saturating_add_u64 (get breakdown category) (load w id)).

Definition usage_breakdown (self : Manager) (w : W) : MemoryBreakdown :=
  foldl (fun b e => add_usage w b (entry_category e.2) e.1) breakdown_default (registrations self).

Definition pressure_for_total (self : Manager) (usage_total : N) : MemoryPressure :=
  let budget_total := N.max (budget_total (budget self)) 1 in
  level_for_ratio (thresholds self) (F64.div (F64.of_u64 usage_total) (F64.of_u64 budget_total)).

Definition pressure (self : Manager) (w : W) : run MemoryPressure :=
  usage_total ← breakdown_total (usage_breakdown self w);
  Done (pressure_for_total self (effective_usage_total usage_total (current_rss_bytes w))).

Definition report_for (self : Manager) (w : W) (usage : MemoryBreakdown) : run MemoryReport :=
  total ← breakdown_total usage;
  let rss_bytes := current_rss_bytes w in
  let pressure := pressure_for_total self (effective_usage_total total rss_bytes) in
  Done (mkReport (budget self) usage rss_bytes pressure (for_pressure pressure)).

Definition report (self : Manager) (w : W) : run MemoryReport := report_for self w (usage_breakdown self w).

(** The order of [report_detailed]: largest first, then by name, then by category. *)
Definition component_cmp (a b : ComponentUsage) : comparison :=
  then_with (component_bytes b ?= component_bytes a)
    (then_with (str_cmp (component_name a) (component_name b))
       (category_sort_key (component_category a) ?= category_sort_key (component_category b))).

Definition report_detailed (self : Manager) (w : W) : run (MemoryReport * list ComponentUsage) :=
  let components :=
    (fun e => mkComponent (entry_name e.2) (entry_category e.2) (load w e.1)) <$> registrations self in
  r ← report_for self w (usage_breakdown self w);
  Done (r, sort_by component_cmp components).

(** ** Eviction *)

(** [collect_evictor_entries]: id (and counter), category, evictor. *)
Definition collect_evictor_entries (self : Manager) : list (N * MemoryCategory * Evictor) :=
  omap (fun e => match entry_evictor e.2 with Some ev => Some (e.1, entry_category e.2, ev) | None => None end)
    (registrations self).

Definition flush_to_disk_best_effort (self : Manager) (w : W) : W :=
  foldl (fun w ev => flush_to_disk ev w) w (omap (fun e => entry_evictor e.2) (registrations self)).

Definition within_targets (usage target : MemoryBreakdown) : bool :=
  forallb (fun c => get usage c <=? get target c) categories.

(** [iter().sum()]: panics on overflow. *)
Fixpoint sum_u64 (acc : N) (l : list N) : run N :=
  match l with [] => Done acc | x :: l => acc ← add_u64 acc x; sum_u64 acc l end.

(** The usage, the id and the evictor of a component of a category. *)
Notation candidate := (N * N * Evictor)%type.

Definition candidate_cmp (a b : candidate) : comparison :=
  let '(a_usage, _, a_evictor) := a in
  let '(b_usage, _, b_evictor) := b in
  then_with (ev_priority a_evictor ?= ev_priority b_evictor)
    (then_with (b_usage ?= a_usage) (str_cmp (ev_name a_evictor) (ev_name b_evictor))).

Section EvictLoop.
Context (pressure : MemoryPressure).
Context (category_usage category_target non_evictable evictable_usage evictable_target : N).

(** The proportional share of the evictable target. *)
Definition component_target (component_usage : N) : N :=
  if category_usage =? 0 then 0
  else (component_usage * evictable_target / N.max evictable_usage 1) mod 2 ^ 64.

(** [for idx in 0..candidates.len()]: [todo] are the candidates from [idx] on. *)
Fixpoint evict_loop (candidates todo : list candidate) (w : W) : run W :=
  match todo with
  | [] => Done w
  | (component_usage, _, evictor) :: todo =>
      current_evictable ← sum_u64 0 ((fun c : candidate => load w c.1.2) <$> candidates);
      let current_usage := saturating_add_u64 non_evictable current_evictable in
      if current_usage <=? category_target then Done w
      else evict_loop candidates todo (evict evictor (mkRequest pressure (component_target component_usage)) w)
  end.
End EvictLoop.

Definition candidates_of (w : W) (category : MemoryCategory) (entries : list (N * MemoryCategory * Evictor))
    : list candidate :=
  omap (fun '(id, entry_category, evictor) =>
          if decide (entry_category = category) then Some (load w id, id, evictor) else None) entries.

Definition evict_category (pressure : MemoryPressure) (usage target : MemoryBreakdown)
    (entries : list (N * MemoryCategory * Evictor)) (w : W) (category : MemoryCategory) : run W :=
  let category_usage := get usage category in
  let category_target := get target category in
  if category_usage <=? category_target then Done w
  else
    let candidates := candidates_of w category entries in
    let evictable_usage := foldl (fun s (c : candidate) => saturating_add_u64 s c.1.1) 0 candidates in
    if evictable_usage =? 0 then Done w
    else
      let non_evictable := saturating_sub_u64 category_usage evictable_usage in
      let effective_target := N.max category_target non_evictable in
      let evictable_target := saturating_sub_u64 effective_target non_evictable in
      let candidates := sort_by candidate_cmp candidates in
      evict_loop pressure category_usage category_target non_evictable evictable_usage evictable_target
        candidates candidates w.

Definition evict_once (pressure : MemoryPressure) (usage target : MemoryBreakdown)
    (entries : list (N * MemoryCategory * Evictor)) (w : W) : run W :=
  for_each (evict_category pressure usage target entries) categories w.

(** A breakdown computed category by category. *)
Definition tabulate (f : MemoryCategory -> N) : MemoryBreakdown :=
  foldl (fun b c => set b c (f c)) breakdown_default categories.

Definition compensated_target (usage target : MemoryBreakdown)
    (entries : list (N * MemoryCategory * Evictor)) (w : W) : run MemoryBreakdown :=
  let evictable := foldl (fun b e => add_usage w b e.1.2 e.1.1) breakdown_default entries in
  let non_evictable := tabulate (fun c => saturating_sub_u64 (get usage c) (get evictable c)) in
  total_non_evictable ← breakdown_total non_evictable;
  target_total ← breakdown_total target;
  let global_evictable_budget := saturating_sub_u64 target_total total_non_evictable in
  let desired_keep :=
    tabulate (fun c => N.min (get evictable c) (saturating_sub_u64 (get target c) (get non_evictable c))) in
  total_desired_keep ← breakdown_total desired_keep;
  let adjusted_keep :=
    if (global_evictable_budget <? total_desired_keep) && (0 <? total_desired_keep) then
      tabulate (fun c => (get desired_keep c * global_evictable_budget / total_desired_keep) mod 2 ^ 64)
    else desired_keep in
  Done (tabulate (fun c => saturating_add_u64 (get non_evictable c) (get adjusted_keep c))).

Fixpoint evict_rounds (rounds : nat) (self : Manager) (pressure : MemoryPressure) (target : MemoryBreakdown)
    (entries : list (N * MemoryCategory * Evictor)) (w : W) : run W :=
  match rounds with
  | O => Done w
  | S rounds =>
      let usage := usage_breakdown self w in
      compensated ← compensated_target usage target entries w;
      if within_targets usage compensated then Done w
      else
        w ← evict_once pressure usage compensated entries w;
        evict_rounds rounds self pressure target entries w
  end.

(** The budget of each category times the ratio. *)
Definition ratio_target (self : Manager) (ratio : F64.t) : MemoryBreakdown :=
  foldl (fun target c => set target c (F64.round_as_u64 (F64.mul (F64.of_u64 (get target c)) ratio)))
    (budget_categories (budget self)) categories.

Definition evict_to_ratio (self : Manager) (pressure : MemoryPressure) (ratio : F64.t) (w : W) : run W :=
  evict_rounds 3 self pressure (ratio_target self ratio) (collect_evictor_entries self) w.

(** ** Events and enforcement *)

(** The new state and the calls of the listeners, in their order. *)
Definition maybe_emit_event (self : Manager) (report : MemoryReport) : Manager * list (N * MemoryEvent) :=
  let '(mkManager b t n r pressure degraded ls) := self in
  let after_pressure := report_pressure report in
  let after_degraded := report_degraded report in
  if decide (pressure = after_pressure /\ degraded = after_degraded) then (self, [])
  else
    (mkManager b t n r after_pressure after_degraded ls,
     (fun l => (l, mkEvent pressure after_pressure report)) <$> ls).

Definition enforce (self : Manager) (w : W) : run (MemoryReport * Manager * W * list (N * MemoryEvent)) :=
  let before_usage := usage_breakdown self w in
  tracked_total ← breakdown_total before_usage;
  let before_pressure := pressure_for_total self (effective_usage_total tracked_total (current_rss_bytes w)) in
  if bool_decide (before_pressure = MemoryPressure.Low) && (tracked_total <=? budget_total (budget self)) &&
     within_targets before_usage (budget_categories (budget self))
  then
    r ← report self w;
    let '(self, calls) := maybe_emit_event self r in
    Done (r, self, w, calls)
  else
    let w := match before_pressure with
             | MemoryPressure.High | MemoryPressure.Critical => flush_to_disk_best_effort self w
             | _ => w
             end in
    w ← evict_to_ratio self before_pressure (eviction_target_ratio before_pressure) w;
    after_report ← report self w;
    let '(self, calls) := maybe_emit_event self after_report in
    Done (after_report, self, w, calls).
End Operations.

(** ** Sums of counters *)

Section Sums.
Context {A : Type} (f : A -> N).

Definition nsum (l : list A) : N := foldr (fun x s => f x + s) 0 l.

Lemma nsum_cons x l : nsum (x :: l) = f x + nsum l.
Proof. done. Qed.

Lemma nsum_perm l k : l ≡ₚ k -> nsum l = nsum k.
Proof. induction 1; rewrite ?nsum_cons in *; lia. Qed.

Lemma nsum_filter (P : A -> Prop) `{!forall x, Decision (P x)} l :
  nsum l = nsum (filter P l) + nsum (filter (fun x => ~ P x) l).
Proof.
  induction l as [|x l IH]; [done|]. rewrite !filter_cons. destruct (decide (P x)), (decide (~ P x)); try done;
    rewrite ?nsum_cons in *; lia.
Qed.

Lemma nsum_filter_le (P : A -> Prop) `{!forall x, Decision (P x)} l : nsum (filter P l) <= nsum l.
Proof. rewrite (nsum_filter P l). lia. Qed.

Lemma nsum_elem x l : x ∈ l -> f x <= nsum l.
Proof. induction 1; rewrite nsum_cons; lia. Qed.

(** Saturating sums are the sums when these fit. *)
Lemma saturating_sum_from acc l :
  foldl (fun s x => saturating_add_u64 s (f x)) acc l = N.min (acc + nsum l) U64_MAX \/ (l = [] /\ U64_MAX < acc).
Proof.
  revert acc. induction l as [|x l IH]; intros acc; cbn [foldl].
  - unfold nsum. cbn. destruct (decide (U64_MAX < acc)); [by right|left; lia].
  - left. rewrite nsum_cons. unfold saturating_add_u64 in *. destruct (IH (N.min (acc + f x) U64_MAX)) as [->|[-> Hlt]]; lia.
Qed.

Lemma saturating_sum l : foldl (fun s x => saturating_add_u64 s (f x)) 0 l = N.min (nsum l) U64_MAX.
Proof. destruct (saturating_sum_from 0 l) as [->|[_ H]]; [done|lia]. Qed.
End Sums.

Lemma nsum_le {A} (f g : A -> N) l : (forall x, x ∈ l -> f x <= g x) -> nsum f l <= nsum g l.
Proof.
  induction l as [|x l IH]; intros H; [done|]. rewrite !nsum_cons. pose proof (H x ltac:(left)).
  assert (nsum f l <= nsum g l) by (apply IH; intros y Hy; apply H; by right). lia.
Qed.

Lemma nsum_ext {A} (f g : A -> N) l : (forall x, x ∈ l -> f x = g x) -> nsum f l = nsum g l.
Proof. intros H. apply N.le_antisymm; apply nsum_le; intros x Hx; rewrite (H x Hx); done. Qed.

Lemma nsum_fmap {A B} (g : A -> B) (f : B -> N) l : nsum f (g <$> l) = nsum (fun x => f (g x)) l.
Proof. induction l as [|x l IH]; [done|]. rewrite fmap_cons, !nsum_cons. by rewrite IH. Qed.

Lemma sum_u64_Done acc l :
  acc + nsum (fun x => x) l <= U64_MAX -> sum_u64 acc l = Done (acc + nsum (fun x => x) l).
Proof.
  revert acc. induction l as [|x l IH]; intros acc; cbn [sum_u64]; [intros _; by rewrite N.add_0_r|].
  rewrite nsum_cons. unfold add_u64. intros H. rewrite u64_Done, bind_Done_l by lia.
  rewrite IH by lia. f_equal. lia.
Qed.

(** ** Breakdowns *)

Lemma get_set b c k n : get (set b c n) k = if decide (c = k) then n else get b k.
Proof. by destruct b, c, k. Qed.

Lemma get_tabulate f k : get (tabulate f) k = f k.
Proof. by destruct k. Qed.

Lemma bsum_get b : bsum b = nsum (get b) categories.
Proof. unfold bsum, nsum, categories. cbn [foldr get]. lia. Qed.

Lemma breakdown_ext a b : (forall k, get a k = get b k) -> a = b.
Proof.
  intros H. destruct a, b. pose proof (H MemoryCategory.QueryCache). pose proof (H MemoryCategory.SyntaxTrees).
  pose proof (H MemoryCategory.Indexes). pose proof (H MemoryCategory.TypeInfo). pose proof (H MemoryCategory.Other).
  simpl in *. by subst.
Qed.

Lemma elem_of_categories k : k ∈ categories.
Proof. unfold categories. rewrite !elem_of_cons. destruct k; tauto. Qed.

Lemma within_targets_spec usage target : within_targets usage target = true <-> forall k, get usage k <= get target k.
Proof.
  unfold within_targets. rewrite forallb_forall. setoid_rewrite N.leb_le. split.
  - intros H k. apply H. destruct k; simpl; tauto.
  - intros H k _. apply H.
Qed.

(** Shares of [m] proportional to [f], rounded down. *)
Lemma shares_le {A} (f : A -> N) m sum l :
  sum <> 0 -> nsum f l <= sum -> nsum (fun x => f x * m / sum) l <= m.
Proof.
  intros Hs Hle. assert (Hm : sum * nsum (fun x => f x * m / sum) l <= nsum f l * m).
  { clear Hle. induction l as [|x l IH]; [unfold nsum; simpl; lia|]. rewrite !nsum_cons.
    pose proof (N.Div0.mul_div_le (f x * m) sum). rewrite N.mul_add_distr_l, N.mul_add_distr_r. lia. }
  apply (N.mul_le_mono_pos_l _ _ sum); [lia|]. etransitivity; [exact Hm|]. by apply N.mul_le_mono_r.
Qed.

Lemma share_le u m sum : sum <> 0 -> m <= sum -> u * m / sum <= u.
Proof. intros Hs Hm. apply N.Div0.div_le_upper_bound. nia. Qed.

(** ** What evictors promise *)

Section Eviction.
Context `{World W}.

(** An evictor brings its counter down to the target it is given, and touches no other. *)
Definition cooperative (id : N) (ev : Evictor) : Prop :=
  forall r w, load (evict ev r w) id <= target_bytes r /\
    forall id', id' <> id -> load (evict ev r w) id' = load w id'.

Notation usage_of c := (c.1.1 : N).
Notation id_of c := (c.1.2 : N).

Section Loop.
Context (pressure : MemoryPressure) (cu ct ne eu et : N) (cs : list (N * N * Evictor)).
Context (Hids : NoDup ((fun c => id_of c) <$> cs)).
Context (Hcoop : forall c, c ∈ cs -> cooperative (id_of c) c.2).
Context (Heu : nsum (fun c => usage_of c) cs = eu) (Hmax : eu <= U64_MAX) (Het : et <= eu) (Hpos : eu <> 0) (Hcu : cu <> 0) (Hct : ct < U64_MAX).

Lemma component_target_share u : u <= eu -> component_target cu eu et u = u * et / eu.
Proof.
  intros Hu. unfold component_target. rewrite (proj2 (N.eqb_neq _ _) Hcu). replace (N.max eu 1) with eu by lia.
  apply N.mod_small. pose proof (share_le u et eu Hpos Het). unfold U64_MAX in Hmax. lia.
Qed.

Lemma evict_candidates_spec processed todo w :
  cs = processed ++ todo ->
  (forall c, c ∈ processed -> load w (id_of c) <= usage_of c * et / eu) ->
  (forall c, c ∈ todo -> load w (id_of c) = usage_of c) ->
  exists w', evict_loop pressure cu ct ne eu et cs todo w = Done w' /\
    (forall id, id ∉ ((fun c => id_of c) <$> cs) -> load w' id = load w id) /\
    (forall c, c ∈ cs -> load w' (id_of c) <= usage_of c) /\
    ne + nsum (fun c => load w' (id_of c)) cs <= N.max ct (ne + et).
Proof.
  revert processed w. induction todo as [|[[u id] ev] todo IH]; intros processed w Hcs Hp Ht; cbn [evict_loop].
  - rewrite app_nil_r in Hcs. subst processed. exists w. split_and!; [done|done| |].
    + intros c Hc. etransitivity; [by apply Hp|]. by apply share_le.
    + assert (nsum (fun c => load w (id_of c)) cs <= et); [|lia].
      etransitivity; [by apply nsum_le, Hp|]. apply shares_le; [done|lia].
  - assert (Hle : forall c, c ∈ cs -> load w (id_of c) <= usage_of c).
    { intros c Hc. rewrite Hcs, elem_of_app in Hc. destruct Hc as [Hc|Hc]; [|by rewrite Ht].
      etransitivity; [by apply Hp|]. by apply share_le. }
    pose proof (nsum_le _ _ cs Hle) as Hsum.
    rewrite sum_u64_Done; rewrite nsum_fmap; [|simpl; lia]. rewrite bind_Done_l.
    destruct (_ <=? ct) eqn:Hbreak.
    { apply N.leb_le in Hbreak. exists w. split_and!; [done|done|done|].
      unfold saturating_add_u64 in Hbreak. simpl in *. lia. }
    assert (Hid : forall c, c ∈ processed \/ c ∈ todo -> id_of c <> id).
    { intros c Hc Heq. rewrite Hcs, fmap_app, fmap_cons in Hids. apply NoDup_app in Hids as (_ & Hd & Hn).
      apply NoDup_cons in Hn as [Hn _]. destruct Hc as [Hc|Hc].
      - apply (Hd (id_of c)); [by apply (list_elem_of_fmap_2 (fun c : N * N * Evictor => id_of c))|]. rewrite Heq. by left.
      - apply Hn. simpl. rewrite <-Heq. by apply (list_elem_of_fmap_2 (fun c : N * N * Evictor => id_of c)). }
    assert (Hin : (u, id, ev) ∈ cs) by (rewrite Hcs, elem_of_app; right; by left).
    assert (Hu : u <= eu) by (rewrite <-Heu; by apply (nsum_elem (fun c => usage_of c) (u, id, ev))).
    set (r := mkRequest pressure (component_target cu eu et u)).
    destruct (Hcoop _ Hin r w) as [Hload Hframe]. simpl in Hload, Hframe.
    destruct (IH (processed ++ [(u, id, ev)]) (evict ev r w)) as (w' & Hw' & Hf & Hl & Hs).
    + by rewrite <-app_assoc.
    + intros c Hc. apply elem_of_app in Hc as [Hc|Hc%list_elem_of_singleton].
      * rewrite Hframe; [by apply Hp|]. by apply Hid; left.
      * subst c. simpl. by rewrite <-component_target_share.
    + intros c Hc. rewrite Hframe; [apply Ht; by right|]. by apply Hid; right.
    + exists w'. split_and!; [done| |done|done]. intros id' Hn. rewrite Hf by done. apply Hframe.
      intros ->. apply Hn. by apply (list_elem_of_fmap_2 (fun c : N * N * Evictor => id_of c) cs (u, id, ev)).
Qed.
End Loop.

(** ** Usage by category *)

Notation reg := (N * RegistrationEntry)%type.

Definition counter (w : W) (e : reg) : N := load w e.1.
Definition in_category (k : MemoryCategory) (e : reg) : Prop := entry_category e.2 = k.
Definition evictable (e : reg) : Prop := is_Some (entry_evictor e.2).

Global Instance in_category_dec k e : Decision (in_category k e).
Proof. unfold in_category. apply _. Defined.
Global Instance evictable_dec e : Decision (evictable e).
Proof. unfold evictable. apply _. Defined.
#[global] Typeclasses Opaque in_category evictable.

(** The bytes of a category: all, those of components with an evictor, and the others. *)
Definition usage_in (m : Manager) (w : W) (k : MemoryCategory) : N :=
  nsum (counter w) (filter (in_category k) (registrations m)).
Definition evictable_in (m : Manager) (w : W) (k : MemoryCategory) : N :=
  nsum (counter w) (filter evictable (filter (in_category k) (registrations m))).
Definition pinned_in (m : Manager) (w : W) (k : MemoryCategory) : N :=
  nsum (counter w) (filter (fun e => ~ evictable e) (filter (in_category k) (registrations m))).

Lemma usage_split m w k : usage_in m w k = pinned_in m w k + evictable_in m w k.
Proof. unfold usage_in, pinned_in, evictable_in. rewrite (nsum_filter _ evictable). lia. Qed.

(** The bytes of all components. *)
Definition all_usage (m : Manager) (w : W) : N := nsum (counter w) (registrations m).

Lemma usage_in_le m w k : usage_in m w k <= all_usage m w.
Proof. apply nsum_filter_le. Qed.

Lemma nsum_category_cons w k (e : reg) l :
  nsum (counter w) (filter (in_category k) (e :: l)) =
  (if decide (entry_category e.2 = k) then counter w e else 0) + nsum (counter w) (filter (in_category k) l).
Proof.
  rewrite filter_cons. destruct (decide (in_category k e)) as [Hd|Hd]; unfold in_category in Hd.
  - by rewrite decide_True.
  - by rewrite decide_False.
Qed.

Lemma usage_in_sum m w : nsum (usage_in m w) categories = all_usage m w.
Proof.
  unfold usage_in, all_usage. induction (registrations m) as [|e l IH]; [done|].
  rewrite nsum_cons, <-IH. unfold categories. rewrite !nsum_cons, !nsum_category_cons.
  destruct (entry_category e.2); cbn [decide]; simpl; unfold nsum; lia.
Qed.

(** Usage added up entry by entry. *)
Lemma get_fold_usage {A} (cat : A -> MemoryCategory) (id : A -> N) w l k :
  get (foldl (fun b e => add_usage w b (cat e) (id e)) breakdown_default l) k =
  N.min (nsum (fun e => load w (id e)) (filter (fun e => cat e = k) l)) U64_MAX.
Proof.
  rewrite <-saturating_sum. assert (Hgen : forall b,
    get (foldl (fun b e => add_usage w b (cat e) (id e)) b l) k =
    foldl (fun s e => saturating_add_u64 s (load w (id e))) (get b k) (filter (fun e => cat e = k) l)).
  { induction l as [|e l IH]; intros b; [done|]. cbn [foldl]. rewrite IH, filter_cons. unfold add_usage.
    rewrite get_set. case_decide as Hc; cbn [foldl]; [by rewrite Hc|done]. }
  rewrite Hgen. f_equal. by destruct k.
Qed.

Lemma get_usage m w k : all_usage m w <= U64_MAX -> get (usage_breakdown m w) k = usage_in m w k.
Proof.
  intros Hmax. unfold usage_breakdown.
  rewrite (get_fold_usage (fun e : reg => entry_category e.2) (fun e => e.1)).
  rewrite (list_filter_iff _ (in_category k)) by done. fold (counter w). pose proof (usage_in_le m w k).
  unfold usage_in in *. change (nsum (fun e : reg => load w e.1)) with (nsum (counter w)). lia.
Qed.

(** The candidates of a category are its components with an evictor. *)
Lemma candidates_sum m w w' k :
  nsum (fun c => load w' (id_of c)) (candidates_of w k (collect_evictor_entries m)) = evictable_in m w' k.
Proof.
  unfold candidates_of, collect_evictor_entries, evictable_in. induction (registrations m) as [|[id [n c ev]] l IH]; [done|].
  rewrite filter_cons. destruct ev as [ev|]; cbn [omap list_omap entry_evictor snd fst entry_category].
  - destruct (decide (c = k)) as [->|Hc].
    + rewrite decide_True by done. rewrite filter_cons, decide_True by (by eexists). rewrite !nsum_cons. by rewrite IH.
    + rewrite decide_False by done. done.
  - case_decide; [|done]. rewrite filter_cons, decide_False; [done|]. by intros [? ?].
Qed.

Lemma entries_sum m w k :
  nsum (fun e => load w e.1.1) (filter (fun e => e.1.2 = k) (collect_evictor_entries m)) = evictable_in m w k.
Proof.
  rewrite <-(candidates_sum m w w k). unfold candidates_of.
  induction (collect_evictor_entries m) as [|[[id c] ev] l IH]; [done|]. rewrite filter_cons. cbn [omap list_omap fst snd].
  case_decide; [|done]. rewrite !nsum_cons. by rewrite IH.
Qed.

Lemma elem_of_candidates m w k c :
  c ∈ candidates_of w k (collect_evictor_entries m) <->
  exists e, e ∈ registrations m /\ in_category k e /\ entry_evictor e.2 = Some c.2 /\
    id_of c = e.1 /\ usage_of c = load w e.1.
Proof.
  unfold candidates_of. rewrite list_elem_of_omap. setoid_rewrite list_elem_of_omap. split.
  - intros ([[id cat] ev] & (e & He & Hev) & Hc). destruct (entry_evictor e.2) as [ev'|] eqn:E; simplify_eq/=.
    case_decide; simplify_eq/=. by exists e.
  - intros (e & He & Hk & Hev & Hid & Hu). destruct c as [[u id] ev]. simpl in *. subst.
    exists (e.1, entry_category e.2, ev). split; [exists e; by rewrite Hev|]. by rewrite decide_True.
Qed.

Lemma candidates_NoDup m w k :
  NoDup (fst <$> registrations m) -> NoDup ((fun c => id_of c) <$> candidates_of w k (collect_evictor_entries m)).
Proof.
  unfold candidates_of, collect_evictor_entries. induction (registrations m) as [|[id [n c ev]] l IH]; [constructor|].
  rewrite fmap_cons, NoDup_cons. intros [Hid Hl]. specialize (IH Hl).
  destruct ev as [ev|]; cbn [omap list_omap entry_evictor snd fst entry_category]; [|done].
  case_decide; [|done]. rewrite fmap_cons, NoDup_cons. split; [|done]. intros Hin. apply Hid.
  apply list_elem_of_fmap in Hin as (x & Hid' & Hx). apply list_elem_of_omap in Hx as ([[id' c'] ev'] & Hx & Heq).
  apply list_elem_of_omap in Hx as (e & He & Hev). destruct (entry_evictor e.2); simplify_eq/=. case_decide; simplify_eq/=.
  by apply list_elem_of_fmap_2.
Qed.

(** ** A pass over the categories *)

Section Pass.
Context (m : Manager).
Context (Hids : NoDup (fst <$> registrations m)).
Context (Hcoop : forall e ev, e ∈ registrations m -> entry_evictor e.2 = Some ev -> cooperative e.1 ev).

(** Counters of the registrations in [w'] that do not exceed those in [w]. *)
Definition shrunk (w w' : W) : Prop := forall e, e ∈ registrations m -> load w' e.1 <= load w e.1.

Lemma shrunk_all_usage w w' : shrunk w w' -> all_usage m w' <= all_usage m w.
Proof. intros Hs. apply nsum_le. exact Hs. Qed.

(** The counters that a pass over category [k] does not touch. *)
Definition frame (k : MemoryCategory) (w w' : W) : Prop :=
  forall e, e ∈ registrations m -> ~ (in_category k e /\ evictable e) -> load w' e.1 = load w e.1.

Lemma frame_pinned k k' w w' : frame k w w' -> pinned_in m w' k' = pinned_in m w k'.
Proof.
  intros Hf. apply nsum_ext. intros e He. apply list_elem_of_filter in He as [Hn [_ He]%list_elem_of_filter].
  apply Hf; [done|]. by intros [_ ?].
Qed.

Lemma frame_other k k' w w' : frame k w w' -> k' <> k -> evictable_in m w' k' = evictable_in m w k'.
Proof.
  intros Hf Hk. apply nsum_ext. intros e He. apply list_elem_of_filter in He as [Hn [Hc He]%list_elem_of_filter].
  apply Hf; [done|]. intros [Hc' _]. unfold in_category in *. congruence.
Qed.

Lemma same_id e e' : e ∈ registrations m -> e' ∈ registrations m -> e.1 = e'.1 -> e = e'.
Proof.
  intros He He' Heq. apply list_elem_of_lookup in He as [i Hi]. apply list_elem_of_lookup in He' as [j Hj].
  assert (i = j); [|by simplify_eq]. apply (NoDup_lookup _ i j e.1 Hids); rewrite list_lookup_fmap; [by rewrite Hi|rewrite Hj; simpl; by rewrite Heq].
Qed.

Lemma evict_category_spec pressure usage target w k :
  all_usage m w <= U64_MAX -> get usage k = usage_in m w k -> pinned_in m w k <= get target k ->
  exists w', evict_category pressure usage target (collect_evictor_entries m) w k = Done w' /\
    shrunk w w' /\ frame k w w' /\ usage_in m w' k <= get target k.
Proof.
  intros Hmax Hu Hp. unfold evict_category. rewrite Hu. pose proof (usage_in_le m w k) as Hle.
  destruct (usage_in m w k <=? get target k) eqn:Hle1.
  { apply N.leb_le in Hle1. exists w. split_and!; [done|by intros e _|by intros e _ _|done]. }
  apply N.leb_gt in Hle1. rewrite (saturating_sum (fun c : N * N * Evictor => usage_of c)).
  set (cs := candidates_of w k (collect_evictor_entries m)).
  assert (Hsum : nsum (fun c => usage_of c) cs = evictable_in m w k).
  { rewrite <-(candidates_sum m w w k). apply nsum_ext. intros c Hc. apply elem_of_candidates in Hc as (e & _ & _ & _ & -> & ->). done. }
  pose proof (usage_split m w k) as Hsplit. rewrite Hsum, N.min_l by lia.
  rewrite (proj2 (N.eqb_neq _ _)) by lia. unfold saturating_sub_u64.
  replace (usage_in m w k - evictable_in m w k) with (pinned_in m w k) by lia.
  replace (N.max (get target k) (pinned_in m w k)) with (get target k) by lia.
  pose proof (sort_by_perm candidate_cmp cs) as Hperm. set (sorted := sort_by candidate_cmp cs) in *.
  destruct (evict_candidates_spec pressure (usage_in m w k) (get target k) (pinned_in m w k) (evictable_in m w k)
    (get target k - pinned_in m w k) sorted) with (processed := @nil (N * N * Evictor)) (todo := sorted) (w := w)
    as (w' & Hw' & Hf & Hl & Hs); try lia; try done.
  - rewrite Hperm. by apply candidates_NoDup.
  - intros c Hc. rewrite Hperm in Hc. apply elem_of_candidates in Hc as (e & He & _ & Hev & -> & _). by eapply Hcoop.
  - by rewrite (nsum_perm _ _ _ Hperm).
  - intros c Hc. by apply elem_of_nil in Hc.
  - intros c Hc. rewrite Hperm in Hc. by apply elem_of_candidates in Hc as (e & _ & _ & _ & -> & ->).
  - exists w'. split; [done|]. setoid_rewrite Hperm in Hf.
    assert (Hframe : frame k w w').
    { intros e He Hn. apply Hf. intros Hin. apply list_elem_of_fmap in Hin as (c & Hid & Hc).
      apply elem_of_candidates in Hc as (e' & He' & Hk & Hev & Hid' & _). apply Hn.
      rewrite (same_id e e') by congruence. split; [done|by eexists]. }
    split_and!; [|done|].
    + intros e He. destruct (decide (in_category k e /\ evictable e)) as [[Hk [ev Hev]]|Hn]; [|by rewrite (Hframe e)].
      apply (Hl (load w e.1, e.1, ev)). rewrite Hperm. apply elem_of_candidates. by exists e.
    + rewrite (usage_split m w' k), (frame_pinned k k w w' Hframe), <-(candidates_sum m w w' k).
      fold cs. rewrite <-(nsum_perm _ _ _ Hperm). lia.
Qed.

(** One pass brings every category to its target, and frees nothing that is not evictable. *)
Lemma evict_once_spec pressure target w :
  all_usage m w <= U64_MAX -> (forall k, pinned_in m w k <= get target k) ->
  exists w', evict_once pressure (usage_breakdown m w) target (collect_evictor_entries m) w = Done w' /\
    shrunk w w' /\ (forall k, pinned_in m w' k = pinned_in m w k) /\ forall k, usage_in m w' k <= get target k.
Proof.
  intros Hmax Hp. unfold evict_once.
  set (I := fun (ks : list MemoryCategory) (w' : W) => shrunk w w' /\ (forall k, pinned_in m w' k = pinned_in m w k) /\
    (forall k, k ∉ ks -> evictable_in m w' k = evictable_in m w k) /\ (forall k, k ∈ ks -> usage_in m w' k <= get target k)).
  pose proof (wp_for_each (evict_category pressure (usage_breakdown m w) target (collect_evictor_entries m)) categories I w) as Hwp.
  apply wp_inv in Hwp as (w' & Hw' & Hs & Hpin & _ & Hu).
  - exists w'. split_and!; [done|done|done|]. intros k. apply Hu, elem_of_categories.
  - split_and!; [by intros e _|done|done|]. intros k Hk. by apply elem_of_nil in Hk.
  - intros ks k rest w1 Hl (Hs & Hpin & Hother & Hu). apply wp_inv.
    assert (Hk : k ∉ ks).
    { assert (Hnd : NoDup categories) by (by apply (bool_decide_eq_true_1 (NoDup categories))). rewrite Hl in Hnd.
      apply NoDup_app in Hnd as (_ & Hd & _). intros Hk. apply (Hd k Hk). by left. }
    destruct (evict_category_spec pressure (usage_breakdown m w) target w1 k) as (w2 & Hw2 & Hs2 & Hf2 & Hu2).
    + pose proof (shrunk_all_usage w w1 Hs). lia.
    + rewrite get_usage by done. by rewrite !usage_split, Hpin, (Hother k Hk).
    + by rewrite Hpin.
    + exists w2. split; [done|]. split_and!.
      * intros e He. etransitivity; [by apply Hs2|by apply Hs].
      * intros k'. by rewrite (frame_pinned k k' w1 w2 Hf2).
      * intros k' Hk'. rewrite elem_of_app, list_elem_of_singleton in Hk'.
        rewrite (frame_other k k' w1 w2 Hf2); [apply Hother|]; tauto.
      * intros k' Hk'. destruct (decide (k' = k)) as [->|Hne]; [done|].
        rewrite elem_of_app, list_elem_of_singleton in Hk'. destruct Hk' as [Hk'| ->]; [|done].
        rewrite usage_split, (frame_pinned k k' w1 w2 Hf2), (frame_other k k' w1 w2 Hf2), <-usage_split by done. by apply Hu.
Qed.

(** ** The target of a pass *)

Definition pinned (w : W) : N := nsum (pinned_in m w) categories.

(** What a pass keeps of category [k]. *)
Definition desired (target : MemoryBreakdown) (w : W) (k : MemoryCategory) : N :=
  N.min (evictable_in m w k) (get target k - pinned_in m w k).

Lemma nsum_categories_le f g : (forall k, f k <= g k) -> nsum f categories <= nsum g categories.
Proof. intros Hle. apply nsum_le. auto. Qed.

Lemma bsum_tabulate f : bsum (tabulate f) = nsum f categories.
Proof. rewrite bsum_get. apply nsum_ext. intros k _. apply get_tabulate. Qed.

Lemma compensated_target_spec target w :
  all_usage m w <= U64_MAX -> bsum target <= U64_MAX ->
  exists c keep, compensated_target (usage_breakdown m w) target (collect_evictor_entries m) w = Done c /\
    (forall k, get c k = pinned_in m w k + keep k) /\
    (forall k, keep k <= desired target w k) /\
    nsum keep categories <= bsum target - pinned w /\
    (nsum (desired target w) categories <= bsum target - pinned w -> forall k, keep k = desired target w k).
Proof.
  intros Hmax Htarget. unfold compensated_target.
  set (ev := foldl _ breakdown_default (collect_evictor_entries m)).
  assert (Hev : forall k, get ev k = evictable_in m w k).
  { intros k. unfold ev. rewrite (get_fold_usage (fun e : N * MemoryCategory * Evictor => e.1.2) (fun e => e.1.1)), entries_sum.
    pose proof (usage_split m w k). pose proof (usage_in_le m w k). lia. }
  set (ne := tabulate _).
  assert (Hne : forall k, get ne k = pinned_in m w k).
  { intros k. unfold ne. rewrite get_tabulate, Hev, get_usage, usage_split by done. unfold saturating_sub_u64. lia. }
  assert (Hpin : bsum ne = pinned w) by (rewrite bsum_get; by apply nsum_ext; intros k _).
  assert (Htot : nsum (usage_in m w) categories <= U64_MAX) by (by rewrite usage_in_sum).
  assert (Hpmax : pinned w <= U64_MAX).
  { etransitivity; [|exact Htot]. apply nsum_categories_le. intros k. rewrite usage_split. lia. }
  rewrite (breakdown_total_Done ne), bind_Done_l by (by rewrite Hpin).
  rewrite (breakdown_total_Done target), bind_Done_l by done. rewrite Hpin.
  set (dk := tabulate _).
  assert (Hdk : forall k, get dk k = desired target w k).
  { intros k. unfold dk. by rewrite get_tabulate, Hev, Hne. }
  assert (Hdsum : bsum dk = nsum (desired target w) categories) by (rewrite bsum_get; by apply nsum_ext; intros k _).
  assert (Hdmax : bsum dk <= U64_MAX).
  { rewrite Hdsum. etransitivity; [|exact Htot]. apply nsum_categories_le. intros k. unfold desired. rewrite usage_split. lia. }
  rewrite (breakdown_total_Done dk), bind_Done_l by done. unfold saturating_sub_u64.
  set (G := bsum target - pinned w) in *. set (D := nsum (desired target w) categories) in *. rewrite Hdsum in *.
  eexists. exists (fun k => if (G <? D) && (0 <? D) then desired target w k * G / D else desired target w k).
  split; [done|].
  assert (Hle : forall k, D <> 0 -> G < D -> desired target w k * G / D <= desired target w k).
  { intros k H0 HG. apply share_le; lia. }
  assert (Hkeep : forall k, get (if (G <? D) && (0 <? D)
      then tabulate (fun c => (get dk c * G / D) mod 2 ^ 64) else dk) k =
    (if (G <? D) && (0 <? D) then desired target w k * G / D else desired target w k)).
  { intros k. destruct (G <? D) eqn:HG; cbn [andb]; [|apply Hdk]. destruct (0 <? D) eqn:H0; [|apply Hdk].
    apply N.ltb_lt in HG, H0. rewrite get_tabulate, Hdk. apply N.mod_small.
    pose proof (Hle k ltac:(lia) HG). assert (HD : desired target w k <= D) by apply nsum_elem, elem_of_categories.
    unfold U64_MAX in *. lia. }
  assert (Hles : forall k, (if (G <? D) && (0 <? D) then desired target w k * G / D else desired target w k) <= desired target w k).
  { intros k. destruct (G <? D) eqn:HG; cbn [andb]; [|done]. destruct (0 <? D) eqn:H0; [|done].
    apply N.ltb_lt in HG, H0. apply Hle; lia. }
  split_and!; [|exact Hles| |].
  - intros k. rewrite get_tabulate, Hne, Hkeep. unfold saturating_add_u64. specialize (Hles k). unfold desired in Hles at 3.
    pose proof (usage_split m w k). pose proof (usage_in_le m w k). lia.
  - destruct (G <? D) eqn:HG; cbn [andb]; [|apply N.ltb_ge in HG; done]. destruct (0 <? D) eqn:H0.
    + apply N.ltb_lt in H0. apply shares_le; [lia|done].
    + apply N.ltb_lt in HG. apply N.ltb_ge in H0. lia.
  - intros HD k. rewrite (proj2 (N.ltb_ge _ _)) by done. done.
Qed.

(** Every category is at its target, or holds only what cannot be evicted; so is the total. *)
Definition settled (target : MemoryBreakdown) (w : W) : Prop :=
  (forall k, usage_in m w k <= N.max (get target k) (pinned_in m w k)) /\
  all_usage m w <= N.max (bsum target) (pinned w).

Lemma settled_intro target w keep :
  (forall k, usage_in m w k <= pinned_in m w k + keep k) ->
  (forall k, keep k <= get target k - pinned_in m w k) -> nsum keep categories <= bsum target - pinned w ->
  settled target w.
Proof.
  intros Hu Hk Hs. split; [intros k; specialize (Hu k); specialize (Hk k); lia|].
  rewrite <-usage_in_sum. assert (Hsum : nsum (usage_in m w) categories <= pinned w + nsum keep categories); [|lia].
  etransitivity; [by apply nsum_categories_le, Hu|]. unfold pinned, nsum, categories. cbn [foldr]. lia.
Qed.

(** A second pass finds nothing to do. *)
Lemma evict_rounds_stop rounds pressure target w :
  all_usage m w <= U64_MAX -> bsum target <= U64_MAX ->
  (forall k, evictable_in m w k <= get target k - pinned_in m w k) ->
  nsum (evictable_in m w) categories <= bsum target - pinned w ->
  evict_rounds rounds m pressure target (collect_evictor_entries m) w = Done w.
Proof.
  intros Hmax Ht Hk Hs. destruct rounds as [|rounds]; [done|]. cbn [evict_rounds].
  destruct (compensated_target_spec target w Hmax Ht) as (c & keep & -> & Hc & _ & _ & Hkeep). rewrite bind_Done_l.
  assert (Hd : forall k, desired target w k = evictable_in m w k) by (intros k; unfold desired; specialize (Hk k); lia).
  rewrite (proj2 (within_targets_spec _ _)); [done|]. intros k. rewrite get_usage, Hc, Hkeep, Hd, usage_split; [lia| |done].
  rewrite (nsum_ext (desired target w) (evictable_in m w)) by auto. done.
Qed.

Lemma evict_to_ratio_spec pressure ratio w :
  all_usage m w <= U64_MAX -> bsum (ratio_target m ratio) <= U64_MAX ->
  exists w', evict_to_ratio m pressure ratio w = Done w' /\ shrunk w w' /\
    (forall k, pinned_in m w' k = pinned_in m w k) /\ settled (ratio_target m ratio) w'.
Proof.
  intros Hmax Ht. unfold evict_to_ratio. cbn [evict_rounds]. set (target := ratio_target m ratio) in *.
  destruct (compensated_target_spec target w Hmax Ht) as (c & keep & -> & Hc & Hk & Hs & _). rewrite bind_Done_l.
  destruct (within_targets _ _) eqn:Hw.
  { exists w. rewrite within_targets_spec in Hw. split_and!; [done|by intros e _|done|].
    apply (settled_intro target w keep); [|intros k; specialize (Hk k); unfold desired in Hk; lia|done].
    intros k. specialize (Hw k). by rewrite get_usage, Hc in Hw. }
  destruct (evict_once_spec pressure c w Hmax) as (w' & -> & Hsh & Hp & Hu); [intros k; rewrite Hc; lia|].
  rewrite bind_Done_l.
  assert (Hpw : pinned w' = pinned w) by (apply nsum_ext; auto).
  assert (Hu' : forall k, evictable_in m w' k <= keep k).
  { intros k. specialize (Hu k). rewrite Hc, usage_split, Hp in Hu. lia. }
  assert (Hk' : forall k, keep k <= get target k - pinned_in m w' k).
  { intros k. specialize (Hk k). unfold desired in Hk. rewrite Hp. lia. }
  exists w'. split_and!; [|done|done|].
  - apply (evict_rounds_stop 2).
    + pose proof (shrunk_all_usage w w' Hsh). lia.
    + done.
    + intros k. etransitivity; [apply Hu'|apply Hk'].
    + rewrite Hpw. etransitivity; [by apply nsum_categories_le, Hu'|done].
  - apply (settled_intro target w' keep); [|done|by rewrite Hpw].
    intros k. rewrite usage_split. specialize (Hu' k). lia.
Qed.
End Pass.

Lemma flush_shrinks m w :
  (forall ev w id, load (flush_to_disk ev w) id <= load w id) -> shrunk m w (flush_to_disk_best_effort m w).
Proof.
  intros Hf e _. unfold flush_to_disk_best_effort. generalize (omap (fun e : reg => entry_evictor e.2) (registrations m)).
  intros l. revert w. induction l as [|ev l IH]; intros w; [done|]. cbn [foldl]. etransitivity; [apply IH|apply Hf].
Qed.

Lemma report_Done m w : all_usage m w <= U64_MAX ->
  exists r, report m w = Done r /\ (forall k, get (report_usage r) k = usage_in m w k) /\
    report_degraded r = for_pressure (report_pressure r).
Proof.
  intros Hmax. unfold report, report_for. rewrite breakdown_total_Done, bind_Done_l.
  - eexists. split; [done|]. split; [|done]. intros k. by apply get_usage.
  - rewrite bsum_get, (nsum_ext _ (usage_in m w)), usage_in_sum by (intros k _; by apply get_usage). done.
Qed.

(** C35: Enforcement brings memory down to its target in one call.  When every evictor shrinks to
    the target it is given and no sum overflows, [enforce] returns; each category then holds at
    most its share of the budget at the pressure found (or what cannot be evicted, if that is
    more), the total is at most the total of these shares (or what cannot be evicted), the report
    states exactly the counters of the new state, and nobody's counter has grown. *)
Theorem enforce_settles m w :
  NoDup (fst <$> registrations m) ->
  (forall e ev, e ∈ registrations m -> entry_evictor e.2 = Some ev -> cooperative e.1 ev) ->
  (forall ev w id, load (flush_to_disk ev w) id <= load w id) ->
  all_usage m w <= U64_MAX -> bsum (budget_categories (budget m)) = budget_total (budget m) ->
  (forall p, bsum (ratio_target m (eviction_target_ratio p)) <= U64_MAX) ->
  exists p target r m' w' calls,
    pressure m w = Done p /\
    (target = ratio_target m (eviction_target_ratio p) \/
     p = MemoryPressure.Low /\ target = budget_categories (budget m)) /\
    enforce m w = Done (r, m', w', calls) /\
    settled m target w' /\ shrunk m w w' /\ forall k, get (report_usage r) k = usage_in m w' k.
Proof.
  intros Hids Hcoop Hflush Hmax Hb Hratio. unfold enforce, pressure.
  assert (Htotal : bsum (usage_breakdown m w) = all_usage m w).
  { by rewrite bsum_get, (nsum_ext _ (usage_in m w)), usage_in_sum by (intros k _; by apply get_usage). }
  rewrite breakdown_total_Done, !bind_Done_l, Htotal by (by rewrite Htotal).
  set (p := pressure_for_total m _). exists p. destruct (bool_decide _ && _ && _) eqn:Hfast.
  - apply andb_true_iff in Hfast as [[Hp Hle]%andb_true_iff Hw]. apply bool_decide_eq_true_1 in Hp. apply N.leb_le in Hle.
    rewrite within_targets_spec in Hw. destruct (report_Done m w Hmax) as (r & -> & Hr & _). rewrite bind_Done_l.
    destruct (maybe_emit_event m r) as [m' calls]. exists (budget_categories (budget m)), r, m', w, calls.
    split_and!; [done|by right|done| |by intros e _|done]. split; [|rewrite Hb; lia].
    intros k. specialize (Hw k). rewrite get_usage in Hw by done. lia.
  - set (w1 := match p with MemoryPressure.High | MemoryPressure.Critical => _ | _ => w end).
    assert (Hs1 : shrunk m w w1) by (destruct p; try (by intros e _); by apply flush_shrinks).
    destruct (evict_to_ratio_spec m Hids Hcoop p (eviction_target_ratio p) w1) as (w2 & -> & Hs2 & _ & Hset).
    { pose proof (shrunk_all_usage m w w1 Hs1). lia. }
    { apply Hratio. }
    rewrite bind_Done_l. assert (Hs : shrunk m w w2) by (intros e He; etransitivity; [by apply Hs2|by apply Hs1]).
    destruct (report_Done m w2) as (r & -> & Hr & _); [pose proof (shrunk_all_usage m w w2 Hs); lia|]. rewrite bind_Done_l.
    destruct (maybe_emit_event m r) as [m' calls]. exists (ratio_target m (eviction_target_ratio p)), r, m', w2, calls.
    split_and!; [done|by left|done|done|done|done].
Qed.
End Eviction.

(** A world whose evictors do what they are asked, for the counters of their own. *)
Module SampleWorld.
Definition W := N -> N.
Definition upd (w : W) (id n : N) : W := fun i => if i =? id then n else w i.

#[global] Instance world : World W := {|
  load w id := w id;
  store w id n := upd w id n;
  evict ev r w := upd w (ev_object ev) (N.min (w (ev_object ev)) (target_bytes r));
  flush_to_disk _ w := w;
  proc_self_status _ := Some (lit "VmRSS:   0 kB")
|}.

Definition manager : Manager :=
  mkManager (mkBudget 100 (default_split 100)) thresholds_default 3
    [(1, mkEntry (lit "cache") MemoryCategory.QueryCache (Some (mkEvictor 1 (lit "cache") 0)));
     (2, mkEntry (lit "files") MemoryCategory.Other None)]
    MemoryPressure.Low (for_pressure MemoryPressure.Low) [7].

Definition counters : W := upd (upd (fun _ => 0) 1 60) 2 15.

Lemma evictor_cooperative id name priority : cooperative id (mkEvictor id name priority).
Proof.
  intros r w. cbn. unfold upd. rewrite N.eqb_refl. split; [lia|]. intros id' Hid. by rewrite (proj2 (N.eqb_neq _ _) Hid).
Qed.
End SampleWorld.

Lemma enforce_settles_witness :
  exists target r m' w' calls,
    enforce SampleWorld.manager SampleWorld.counters = Done (r, m', w', calls) /\
    settled SampleWorld.manager target w'.
Proof.
  destruct (enforce_settles SampleWorld.manager SampleWorld.counters)
    as (p & target & r & m' & w' & calls & _ & _ & He & Hs & _).
  - apply (bool_decide_eq_true_1 (NoDup _)). vm_compute. reflexivity.
  - intros e ev He Hev. cbn in He. rewrite !elem_of_cons, elem_of_nil in He.
    destruct He as [->|[->|[]]]; simpl in Hev; simplify_eq. apply SampleWorld.evictor_cooperative.
  - intros ev w id. reflexivity.
  - vm_compute. discriminate.
  - vm_compute. reflexivity.
  - intros []; vm_compute; discriminate.
  - exists target, r, m', w', calls. exact (conj He Hs).
Defined.

(** ** Events *)

Section Events.
Context `{World W}.

(** A use of the manager: what the components and the clients may do. *)
Inductive step : Manager * W -> list (N * MemoryEvent) -> Manager * W -> Prop :=
| step_register m w name cat ev id m' w' :
    register_inner m w name cat ev = (id, m', w') -> step (m, w) [] (m', w')
| step_drop m w id m' w' : drop_registration m w id = (m', w') -> step (m, w) [] (m', w')
| step_set m w id bytes : step (m, w) [] (m, set_bytes w id bytes)
| step_add m w id delta : step (m, w) [] (m, add_bytes w id delta)
| step_subscribe m w l : l ∉ listeners m -> step (m, w) [] (subscribe m l, w)
| step_enforce m w r m' w' calls : enforce m w = Done (r, m', w', calls) -> step (m, w) calls (m', w')
| step_world m w w' : step (m, w) [] (m, w').

Inductive steps (s : Manager * W) : list (N * MemoryEvent) -> Manager * W -> Prop :=
| steps_nil : steps s [] s
| steps_snoc calls calls' s' s'' : steps s calls s' -> step s' calls' s'' -> steps s (calls ++ calls') s''.

(** The events of a listener. *)
Definition events_of (l : N) (calls : list (N * MemoryEvent)) : list MemoryEvent :=
  snd <$> filter (fun c => c.1 = l) calls.

(** Events that follow each other from a pressure to a pressure, each a real change. *)
Inductive linked (p : MemoryPressure) : list MemoryEvent -> MemoryPressure -> Prop :=
| linked_nil : linked p [] p
| linked_snoc es e q :
    linked p es q -> previous_pressure e = q -> event_pressure e <> q -> linked p (es ++ [e]) (event_pressure e).

Definition events_inv (calls : list (N * MemoryEvent)) (m : Manager) : Prop :=
  NoDup (listeners m) /\ NoDup (fst <$> registrations m) /\
  state_degraded m = for_pressure (state_pressure m) /\
  forall l, (l ∉ listeners m -> events_of l calls = []) /\ exists p, linked p (events_of l calls) (state_pressure m).

Lemma events_of_app l c1 c2 : events_of l (c1 ++ c2) = events_of l c1 ++ events_of l c2.
Proof. unfold events_of. by rewrite filter_app, fmap_app. Qed.

Lemma events_of_calls l ls e :
  NoDup ls -> events_of l ((fun l => (l, e)) <$> ls) = if decide (l ∈ ls) then [e] else [].
Proof.
  unfold events_of. induction 1 as [|x ls Hx Hnd IH]; [by rewrite decide_False by apply not_elem_of_nil|].
  rewrite fmap_cons, filter_cons. cbn [fst]. destruct (decide (x = l)) as [Hl|Hl].
  - simpl in Hl. subst l. rewrite fmap_cons, IH, decide_False by done. rewrite decide_True by left. done.
  - rewrite IH. case_decide; [rewrite decide_True by (by right); done|]. rewrite decide_False; [done|].
    by intros [?|?]%elem_of_cons.
Qed.

Lemma report_Done_inv m w r : report m w = Done r -> report_degraded r = for_pressure (report_pressure r).
Proof. unfold report, report_for. intros (t & _ & [= <-])%bind_Done. done. Qed.

Lemma enforce_event m w r m' w' calls :
  enforce m w = Done (r, m', w', calls) ->
  maybe_emit_event m r = (m', calls) /\ report_degraded r = for_pressure (report_pressure r).
Proof.
  unfold enforce. intros (total & _ & He)%bind_Done. destruct (_ && _ && _).
  - apply bind_Done in He as (r' & Hr & He). destruct (maybe_emit_event m r') as [m1 c1] eqn:Hm.
    injection He as <- <- <- <-. split; [done|by eapply report_Done_inv].
  - apply bind_Done in He as (w1 & _ & He). apply bind_Done in He as (r' & Hr & He).
    destruct (maybe_emit_event m r') as [m1 c1] eqn:Hm. injection He as <- <- <- <-. split; [done|by eapply report_Done_inv].
Qed.

Lemma emit_inv calls m r m' calls' :
  maybe_emit_event m r = (m', calls') -> report_degraded r = for_pressure (report_pressure r) ->
  events_inv calls m -> events_inv (calls ++ calls') m'.
Proof.
  destruct m as [b t n rs p d ls]. unfold events_inv, maybe_emit_event. cbn [listeners registrations state_degraded state_pressure].
  intros He Hr (Hls & Hrs & Hd & Hl). case_decide as Hsame; injection He as <- <-; cbn [listeners registrations state_degraded state_pressure].
  - rewrite app_nil_r. done.
  - assert (Hne : report_pressure r <> p).
    { intros Heq. apply Hsame. split; [done|]. by rewrite Hr, Heq. }
    split_and!; [done|done|done|]. intros l. destruct (Hl l) as [Hnone [p0 Hlink]].
    rewrite events_of_app, events_of_calls by done. case_decide as Hin.
    + split; [done|]. exists p0. by eapply linked_snoc.
    + split; [intros _; by rewrite Hnone|]. rewrite Hnone by done. eexists. constructor.
Qed.

Lemma NoDup_fst_filter {A} (P : N * A -> Prop) `{!forall x, Decision (P x)} l :
  NoDup (fst <$> l) -> NoDup (fst <$> filter P l).
Proof.
  induction l as [|x l IH]; [done|]. rewrite fmap_cons, NoDup_cons, filter_cons. intros [Hx Hl]. case_decide; [|by apply IH].
  rewrite fmap_cons, NoDup_cons. split; [|by apply IH]. intros Hin. apply Hx.
  apply list_elem_of_fmap in Hin as (y & -> & [_ Hy]%list_elem_of_filter). by apply list_elem_of_fmap_2.
Qed.

Lemma step_inv calls s calls' s' : step s calls' s' -> events_inv calls s.1 -> events_inv (calls ++ calls') s'.1.
Proof.
  destruct 1 as [m w name cat ev id m' w' He|m w id m' w' He|m w id bytes|m w id delta|m w l Hnin|m w r m' w' calls' He|m w w'];
    cbn [fst]; try (by rewrite app_nil_r).
  - rewrite app_nil_r. destruct m as [b t n rs p d ls]. injection He as <- <- <-. intros (Hls & Hrs & Hd & Hl).
    split_and!; [done| |done|exact Hl]. cbn [registrations] in *. rewrite fmap_cons, NoDup_cons.
    split; [|by apply NoDup_fst_filter]. intros Hin. by apply list_elem_of_fmap in Hin as (y & Hy & [Hn _]%list_elem_of_filter).
  - rewrite app_nil_r. destruct m as [b t n rs p d ls]. injection He as <- <-. intros (Hls & Hrs & Hd & Hl).
    split_and!; [done|by apply NoDup_fst_filter|done|exact Hl].
  - rewrite app_nil_r. destruct m as [b t n rs p d ls]. intros (Hls & Hrs & Hd & Hl). cbn in Hnin.
    split_and!; [|done|done|]; cbn [listeners subscribe] in *.
    + apply NoDup_app. split_and!; [done| |by apply NoDup_singleton]. intros x Hx ->%list_elem_of_singleton. done.
    + intros l'. destruct (Hl l') as [Hnone Hex]. split; [|done]. intros Hn. apply Hnone.
      intros Hin. apply Hn, elem_of_app. by left.
  - apply enforce_event in He as [He Hr]. by eapply emit_inv.
Qed.

(** Listeners see every change of the pressure, once and in order.  However the manager is
    used from its creation on (components registering and unregistering, counters changing,
    clients subscribing, enforcement), the events that a listener has received link up: each one
    starts at the pressure where the last ended, reports a pressure different from it, and the
    last one ends at the current pressure; the degraded settings are those of that pressure. *)
Theorem events_link_up b th w0 calls m w :
  steps (with_thresholds b th, w0) calls (m, w) ->
  state_degraded m = for_pressure (state_pressure m) /\ NoDup (fst <$> registrations m) /\
  forall l, exists p, linked p (events_of l calls) (state_pressure m).
Proof.
  intros Hs. assert (Hinv : events_inv calls (m, w).1).
  { remember (m, w) as s eqn:Heq. clear Heq. induction Hs as [|calls calls' s' s'' _ IH Hstep]; [|by eapply step_inv].
    split_and!; [constructor|constructor|done|]. intros l. split; [done|]. eexists. constructor. }
  destruct Hinv as (_ & Hids & Hd & Hl). split_and!; [done|done|]. intros l. by destruct (Hl l).
Qed.
End Events.

(** Files of 96 bytes that nobody can evict, against a budget of 100. *)
Module SampleUse.
Import SampleWorld.
Definition m0 : Manager := with_thresholds (mkBudget 100 (default_split 100)) thresholds_default.
Definition w0 : W := fun _ => 0.
Definition m1 : Manager := subscribe m0 7.
Definition registered : N * Manager * W := register_inner m1 w0 (lit "files") MemoryCategory.Other None.
Definition m2 : Manager := registered.1.2.
Definition w3 : W := set_bytes registered.2 1 96.
End SampleUse.

Lemma events_link_up_witness :
  exists r m' w' calls p,
    enforce SampleUse.m2 SampleUse.w3 = Done (r, m', w', calls) /\
    state_pressure m' = MemoryPressure.Critical /\ length (events_of 7 calls) = 1%nat /\
    linked p (events_of 7 calls) (state_pressure m').
Proof.
  destruct (enforce SampleUse.m2 SampleUse.w3) as [[[[r m'] w'] calls]| |] eqn:He; [|by vm_compute in He..].
  destruct (events_link_up (mkBudget 100 (default_split 100)) thresholds_default SampleUse.w0 calls m' w')
    as (_ & _ & Hl).
  { change calls with ([] ++ [] ++ [] ++ calls). rewrite !app_assoc.
    eapply (steps_snoc _ (([] ++ []) ++ [])); [eapply (steps_snoc _ ([] ++ []));
      [eapply (steps_snoc _ []); [eapply (steps_snoc _ []); [constructor|]|]|]|].
    - apply (step_subscribe SampleUse.m0 SampleUse.w0 7). apply not_elem_of_nil.
    - eapply (step_register SampleUse.m1 SampleUse.w0 (lit "files") MemoryCategory.Other None). reflexivity.
    - apply (step_set SampleUse.m2 SampleUse.registered.2 1 96).
    - eapply step_enforce. exact He. }
  destruct (Hl 7) as [p Hp]. exists r, m', w', calls, p. split_and!; [reflexivity| | |exact Hp].
  - vm_compute in He. injection He as <- <- <- <-. reflexivity.
  - vm_compute in He. injection He as <- <- <- <-. reflexivity.
Defined.
