(* ===== verification/Modules.v ===== *)
(** * The module graph (crates/nova-modules/src/lib.rs)

    JPMS modules, the packages they export and which modules a module reads.  The reference is
    the relation [readable], the reachability of the module system's rules; the theorems show
    that the breadth-first search of [readable_modules] ends and computes it, and where its
    early exit at an automatic module makes it incomplete. *)

From stdpp Require Import base list numbers strings option relations sets fin_sets gmap.
From S2P Require Import Prelude.

(** ** Data *)

Notation ModuleName := string (only parsing).

Definition JAVA_BASE : ModuleName := "java.base".
Definition UNNAMED_MODULE : ModuleName := "<unnamed>".

Definition is_java_base (m : ModuleName) : bool := bool_decide (m = JAVA_BASE).
Definition is_unnamed (m : ModuleName) : bool := bool_decide (m = UNNAMED_MODULE).

Inductive ModuleKind := Explicit | Automatic | Unnamed.

Global Instance ModuleKind_eq_dec : EqDecision ModuleKind.
Proof. solve_decision. Defined.

Record Requires := mkRequires {
  req_module : ModuleName;
  is_transitive : bool;
  is_static : bool
}.

Record Exports := mkExports { exp_package : string; exp_to : list ModuleName }.
Record Opens := mkOpens { opens_package : string; opens_to : list ModuleName }.
Record Uses := mkUses { uses_service : string }.
Record Provides := mkProvides { prov_service : string; prov_implementations : list string }.

Record ModuleInfo := mkModule {
  mi_kind : ModuleKind;
  mi_name : ModuleName;
  mi_is_open : bool;
  mi_requires : list Requires;
  mi_exports : list Exports;
  mi_opens : list Opens;
  mi_uses : list Uses;
  mi_provides : list Provides
}.

Definition exports_package_to (self : ModuleInfo) (package : string) (to : ModuleName) : bool :=
  match mi_kind self with
  | Automatic | Unnamed => true
  | Explicit =>
      if decide (mi_name self = to) then true
      else existsb (fun e =>
             bool_decide (exp_package e = package) &&
             (bool_decide (exp_to e = []) || existsb (fun m => bool_decide (m = to)) (exp_to e)))
           (mi_exports self)
  end.

(** ** [impl ModuleGraph] *)

Notation ModuleGraph := (gmap string ModuleInfo) (only parsing).

Definition graph_new : ModuleGraph := ∅.

Definition graph_insert (g : ModuleGraph) (info : ModuleInfo) : ModuleGraph :=
  <[mi_name info := info]> g.

Definition graph_get (g : ModuleGraph) (name : ModuleName) : option ModuleInfo := g !! name.

(** The keys of the modules that are not of the unnamed kind. *)
Definition named_modules (g : ModuleGraph) : gset string :=
  dom (filter (fun '(_, info) => mi_kind info <> Unnamed) g).

Definition add_all_named_modules (g : ModuleGraph) (out : gset string) : gset string :=
  out ∪ named_modules g.

(** The body of the loop over the requirements of the current module. *)
Definition follow_requires (follow_all : bool) (acc : gset string * list ModuleName)
    (req : Requires) : gset string * list ModuleName :=
  let '(out, queue) := acc in
  if negb follow_all && negb (is_transitive req) then (out, queue)
  else if decide (req_module req ∈ out) then (out, queue)
  else ({[req_module req]} ∪ out, queue ++ [req_module req]).

(** The [while let Some(current) = queue.pop_front()] loop. *)
Fixpoint readable_loop (fuel : nat) (g : ModuleGraph) (from : ModuleName)
    (queue : list ModuleName) (out : gset string) : run (gset string) :=
  match fuel with
  | 0 => OutOfFuel
  | S fuel =>
      match queue with
      | [] => Done out
      | current :: queue =>
          match graph_get g current with
          | None => readable_loop fuel g from queue out
          | Some info =>
              if decide (mi_kind info = Automatic) then Done (add_all_named_modules g out)
              else
                let '(out, queue) :=
                  foldl (follow_requires (bool_decide (current = from))) (out, queue)
                    (mi_requires info) in
                readable_loop fuel g from queue out
          end
      end
  end.

(** The modules that are required by some module: each enters the queue at most once. *)
Definition required (g : ModuleGraph) : gset string :=
  list_to_set (concat ((fun '(_, info) => req_module <$> mi_requires info) <$> map_to_list g)).

Definition readable_modules (g : ModuleGraph) (from : ModuleName) : run (gset string) :=
  let out := {[JAVA_BASE]} ∪ {[from]} in
  if is_unnamed from then Done (add_all_named_modules g out)
  else
    match graph_get g from with
    | Some info =>
        if decide (mi_kind info = Unnamed \/ mi_kind info = Automatic) then
          Done (add_all_named_modules g out)
        else readable_loop (S (S (size (required g)))) g from [from] out
    | None => readable_loop (S (S (size (required g)))) g from [from] out
    end.

Definition can_read (g : ModuleGraph) (from to : ModuleName) : run bool :=
  if bool_decide (from = to) || is_java_base to then Done true
  else out ← readable_modules g from; Done (bool_decide (to ∈ out)).

(** ** The reference *)

(** The module reads all named modules, whatever it requires. *)
Definition reads_everything (g : ModuleGraph) (from : ModuleName) : Prop :=
  from = UNNAMED_MODULE \/
  exists info, g !! from = Some info /\ (mi_kind info = Unnamed \/ mi_kind info = Automatic).

Definition automatic (g : ModuleGraph) (m : ModuleName) : Prop :=
  exists info, g !! m = Some info /\ mi_kind info = Automatic.

Definition named (g : ModuleGraph) (m : ModuleName) : Prop :=
  exists info, g !! m = Some info /\ mi_kind info <> Unnamed.

(** One step of readability: all requirements of [from], the transitive ones of the others. *)
Definition requires_step (g : ModuleGraph) (from current dep : ModuleName) : Prop :=
  exists info req, g !! current = Some info /\ mi_kind info <> Automatic /\
    req ∈ mi_requires info /\ (current = from \/ is_transitive req = true) /\
    req_module req = dep /\ dep <> from /\ dep <> JAVA_BASE.

Definition requires_path (g : ModuleGraph) (from m : ModuleName) : Prop :=
  rtc (requires_step g from) from m.

(** An automatic module is reached. *)
Definition reaches_automatic (g : ModuleGraph) (from : ModuleName) : Prop :=
  exists m, requires_path g from m /\ automatic g m.

(** The modules the rules let [from] read. *)
Definition readable (g : ModuleGraph) (from m : ModuleName) : Prop :=
  m = from \/ m = JAVA_BASE \/
  (~ reads_everything g from /\ requires_path g from m) \/
  ((reads_everything g from \/ reaches_automatic g from) /\ named g m).

(** ** The search *)

Lemma elem_of_named g m : m ∈ named_modules g <-> named g m.
Proof.
  unfold named_modules, named. rewrite elem_of_dom. unfold is_Some.
  setoid_rewrite map_lookup_filter_Some. naive_solver.
Qed.

Section Search.
Context (g : ModuleGraph) (from : ModuleName).

(** The state of the search. *)
Record search_inv (queue : list ModuleName) (out : gset string) : Prop := {
  sv_from : from ∈ out;
  sv_base : JAVA_BASE ∈ out;
  sv_queue : forall q, q ∈ queue -> requires_path g from q;
  sv_out : forall m, m ∈ out -> m = from \/ m = JAVA_BASE \/ requires_path g from m;
  sv_closed : forall m, m ∈ out -> m = from \/ m <> JAVA_BASE ->
    m ∈ queue \/ (~ automatic g m /\ forall d, requires_step g from m d -> d ∈ out)
}.

(** The inner loop keeps what is known of the modules other than the current one. *)
Record follow_inv (current : ModuleName) (info : ModuleInfo) (out0 : gset string)
    (queue0 : list ModuleName) (dn : list Requires) (out : gset string)
    (queue : list ModuleName) : Prop := {
  fv_mono : out0 ⊆ out;
  fv_queue : exists new, queue = queue0 ++ new /\ (forall m, m ∈ out <-> m ∈ out0 \/ m ∈ new) /\
    forall m, m ∈ new -> requires_step g from current m;
  fv_done : forall req, req ∈ dn -> current = from \/ is_transitive req = true ->
    req_module req ∈ out;
  fv_size : length queue + size (required g ∖ out) <= length queue0 + size (required g ∖ out0)
}.

Lemma required_spec m info req :
  g !! m = Some info -> req ∈ mi_requires info -> req_module req ∈ required g.
Proof.
  intros Hm Hr. unfold required. rewrite elem_of_list_to_set. apply list_elem_of_In, in_concat.
  exists (req_module <$> mi_requires info). rewrite <-!list_elem_of_In. split.
  - apply list_elem_of_fmap. exists (m, info). split; [done|]. by apply elem_of_map_to_list.
  - by apply list_elem_of_fmap_2.
Qed.

Lemma size_required_insert out d :
  d ∈ required g -> d ∉ out -> S (size (required g ∖ ({[d]} ∪ out))) = size (required g ∖ out).
Proof.
  intros Hd Hn.
  replace (required g ∖ out) with ({[d]} ∪ required g ∖ ({[d]} ∪ out)).
  - pose proof (size_union (C := gset string) {[d]} (required g ∖ ({[d]} ∪ out)) ltac:(set_solver)) as Hu.
    rewrite Hu. pose proof (size_singleton (C := gset string) d) as H1. rewrite H1. done.
  - apply set_eq. intros x. destruct (decide (x = d)); set_solver.
Qed.

Lemma follow_requires_inv current info out0 queue0 :
  g !! current = Some info -> mi_kind info <> Automatic -> from ∈ out0 -> JAVA_BASE ∈ out0 ->
  let '(out, queue) :=
    foldl (follow_requires (bool_decide (current = from))) (out0, queue0) (mi_requires info) in
  follow_inv current info out0 queue0 (mi_requires info) out queue.
Proof.
  intros Hcur Hk Hf Hb.
  assert (Hgen : forall rest dn out queue, mi_requires info = dn ++ rest ->
    follow_inv current info out0 queue0 dn out queue ->
    let '(out', queue') :=
      foldl (follow_requires (bool_decide (current = from))) (out, queue) rest in
    follow_inv current info out0 queue0 (mi_requires info) out' queue').
  { induction rest as [|req rest IH]; intros dn out queue Heq Hinv; simpl.
    { rewrite app_nil_r in Heq. by rewrite Heq. }
    assert (Hin : req ∈ mi_requires info) by (rewrite Heq; set_solver).
    pose proof (required_spec _ _ _ Hcur Hin) as Hreq.
    destruct Hinv as [H1 (new & Hq & Ho & Hn) H3 H4].
    destruct (negb (bool_decide (current = from)) && negb (is_transitive req)) eqn:Eskip.
    { apply (IH (dn ++ [req])); [by rewrite <-app_assoc|]. split; [done|by exists new| |done].
      intros r [Hr| ->%list_elem_of_singleton]%elem_of_app Hfol; [by apply H3|].
      apply andb_true_iff in Eskip as [E1%negb_true_iff%bool_decide_eq_false E2%negb_true_iff].
      destruct Hfol; congruence. }
    destruct (decide (req_module req ∈ out)) as [Hd|Hd].
    { apply (IH (dn ++ [req])); [by rewrite <-app_assoc|]. split; [done|by exists new| |done].
      intros r [Hr| ->%list_elem_of_singleton]%elem_of_app Hfol; [by apply H3|done]. }
    apply (IH (dn ++ [req])); [by rewrite <-app_assoc|]. split.
    - set_solver.
    - exists (new ++ [req_module req]). split_and!; [by rewrite Hq, <-app_assoc|set_solver|].
      intros m [Hm| ->%list_elem_of_singleton]%elem_of_app; [by apply Hn|].
      assert (Hfol : current = from \/ is_transitive req = true).
      { apply andb_false_iff in Eskip as [E%negb_false_iff%bool_decide_eq_true|E%negb_false_iff]; auto. }
      exists info, req. split_and!; [done..| |].
      + intros Hx. apply Hd. rewrite Hx. by apply H1.
      + intros Hx. apply Hd. rewrite Hx. by apply H1.
    - intros r [Hr| ->%list_elem_of_singleton]%elem_of_app Hfol; [|set_solver].
      specialize (H3 r Hr Hfol). set_solver.
    - pose proof (size_required_insert _ _ Hreq Hd). rewrite length_app. simpl. lia. }
  apply (Hgen (mi_requires info) [] out0 queue0 eq_refl). split; [done| |set_solver|done].
  exists []. split_and!; [by rewrite app_nil_r|set_solver|set_solver].
Qed.

Lemma search_inv_skip current queue out :
  search_inv (current :: queue) out -> g !! current = None -> search_inv queue out.
Proof.
  intros [H1 H2 H3 H4 H5] Hn. split; [done..|set_solver|done|].
  intros m Hm Hb. destruct (H5 m Hm Hb) as [[->|?]%elem_of_cons|?]; [right|by left|by right].
  split; [intros (info & ? & _); congruence|].
  intros d (info & req & ? & _). congruence.
Qed.

Lemma search_inv_follow current info queue0 out0 out queue :
  search_inv (current :: queue0) out0 -> g !! current = Some info ->
  mi_kind info <> Automatic ->
  follow_inv current info out0 queue0 (mi_requires info) out queue ->
  search_inv queue out.
Proof.
  intros [H1 H2 H3 H4 H5] Hcur Hk [F1 (new & -> & Fo & Fn) F3 _].
  assert (Hpath : forall m, m ∈ new -> requires_path g from m).
  { intros m Hm. eapply rtc_r; [apply (H3 current); by left|by apply Fn]. }
  split.
  - by apply F1.
  - by apply F1.
  - intros q [Hq|Hq]%elem_of_app; [apply H3; by right|by apply Hpath].
  - intros m [Hm|Hm]%Fo; [by apply H4|right; right; by apply Hpath].
  - intros m Hm Hb. apply Fo in Hm as [Hm|Hm]; [|left; set_solver].
    destruct (H5 m Hm Hb) as [[->|?]%elem_of_cons|[Ha Hs]]; [|set_solver|].
    + right. split; [intros (i & ? & ?); congruence|].
      intros d (i & req & Hi & _ & Hr & Hf & <- & _). assert (i = info) as -> by congruence.
      by apply F3.
    + right. split; [done|]. intros d Hd. apply F1. by apply Hs.
Qed.

(** What the search returns. *)
Definition search_result_ok (out : gset string) : Prop :=
  (reaches_automatic g from /\ named_modules g ⊆ out /\ from ∈ out /\ JAVA_BASE ∈ out /\
   forall m, m ∈ out -> m = from \/ m = JAVA_BASE \/ requires_path g from m \/ named g m) \/
  (~ reaches_automatic g from /\
   forall m, m ∈ out <-> m = from \/ m = JAVA_BASE \/ requires_path g from m).

Lemma search_inv_final out : search_inv [] out -> search_result_ok out.
Proof.
  intros [H1 H2 H3 H4 H5]. right.
  assert (Hall : forall m, requires_path g from m ->
    m ∈ out /\ (m = from \/ m <> JAVA_BASE) /\ ~ automatic g m).
  { unfold requires_path. refine (rtc_ind_r _ _ _ _).
    - destruct (H5 from H1 (or_introl eq_refl)) as [[]%not_elem_of_nil|[Ha _]]. auto.
    - intros x y _ Hstep (Hx & Hxb & Hxa).
      destruct (H5 x Hx Hxb) as [[]%not_elem_of_nil|[_ Hs]].
      pose proof (Hs y Hstep) as Hy. destruct Hstep as (_ & _ & _ & _ & _ & _ & _ & Hyf & Hyb).
      destruct (H5 y Hy (or_intror Hyb)) as [[]%not_elem_of_nil|[Ha _]]. auto. }
  split.
  - intros (m & Hm & Ha). by apply (Hall m Hm).
  - intros m. split; [apply H4|]. intros [->|[->|Hm]]; [done..|]. by apply Hall.
Qed.

Lemma wp_readable_loop fuel queue out :
  search_inv queue out -> length queue + size (required g ∖ out) < fuel ->
  wp (readable_loop fuel g from queue out) search_result_ok.
Proof.
  revert queue out; induction fuel as [|fuel IH]; intros queue out Hinv Hf; [lia|].
  destruct queue as [|current queue]; simpl; [by apply search_inv_final|].
  unfold graph_get. destruct (g !! current) as [info|] eqn:Hcur.
  2:{ apply IH; [by eapply search_inv_skip|]. simpl in Hf. lia. }
  case_decide as Hk.
  { left. split_and!.
    - exists current. split; [apply (sv_queue _ _ Hinv); by left|by exists info].
    - unfold add_all_named_modules. set_solver.
    - unfold add_all_named_modules. apply elem_of_union_l, Hinv.
    - unfold add_all_named_modules. apply elem_of_union_l, Hinv.
    - unfold add_all_named_modules. intros m [Hm|Hm]%elem_of_union.
      + destruct (sv_out _ _ Hinv m Hm) as [|[|]]; auto.
      + right; right; right. by apply elem_of_named. }
  pose proof (follow_requires_inv current info out queue Hcur Hk (sv_from _ _ Hinv)
    (sv_base _ _ Hinv)) as Hfol.
  destruct (foldl _ _ _) as [out' queue'].
  apply IH; [by eapply search_inv_follow|].
  pose proof (fv_size _ _ _ _ _ _ _ Hfol). simpl in Hf. lia.
Qed.

Lemma wp_readable_start :
  wp (readable_loop (S (S (size (required g)))) g from [from] ({[JAVA_BASE]} ∪ {[from]}))
     search_result_ok.
Proof.
  apply wp_readable_loop.
  - split; [set_solver..| | |].
    + intros q ->%list_elem_of_singleton. apply rtc_refl.
    + set_solver.
    + intros m Hm Hb. left. set_solver.
  - simpl. assert (size (required g ∖ ({[JAVA_BASE]} ∪ {[from]})) <= size (required g)); [|lia].
    apply subseteq_size. set_solver.
Qed.
End Search.

Lemma reads_everything_dec g from :
  (reads_everything g from /\ readable_modules g from =
     Done (add_all_named_modules g ({[JAVA_BASE]} ∪ {[from]}))) \/
  (~ reads_everything g from /\ readable_modules g from =
     readable_loop (S (S (size (required g)))) g from [from] ({[JAVA_BASE]} ∪ {[from]})).
Proof.
  unfold readable_modules, is_unnamed, reads_everything, graph_get.
  destruct (bool_decide_reflect (from = UNNAMED_MODULE)) as [Hu|Hu]; [left; auto|].
  destruct (g !! from) as [info|] eqn:E; [|right; naive_solver].
  case_decide as Hk; [left; naive_solver|right; naive_solver].
Qed.

Lemma wp_readable_modules g from :
  wp (readable_modules g from) (fun out =>
    (forall m, m ∈ out -> readable g from m) /\
    (forall m, readable g from m -> m = from \/ m = JAVA_BASE \/ named g m \/
       ~ (reads_everything g from \/ reaches_automatic g from) -> m ∈ out)).
Proof.
  unfold readable. destruct (reads_everything_dec g from) as [[Hr ->]|[Hr ->]].
  - simpl. unfold add_all_named_modules. split.
    + intros m Hm. rewrite !elem_of_union, !elem_of_singleton, elem_of_named in Hm. naive_solver.
    + intros m _ Hm. rewrite !elem_of_union, !elem_of_singleton, elem_of_named. naive_solver.
  - eapply wp_mono; [apply wp_readable_start|].
    intros out [(Ha & Hn & Hf & Hb & Ho)|[Ha Ho]]; simpl; split.
    + intros m Hm. destruct (Ho m Hm) as [|[|[|]]]; auto 10.
    + intros m _ [->|[->|[Hm|Hm]]]; [done..| |tauto]. by apply Hn, elem_of_named.
    + intros m Hm. destruct (proj1 (Ho m) Hm) as [|[|]]; auto 10.
    + intros m [->|[->|[[_ Hm]|[[?|?] _]]]] _; try done; apply Ho; auto.
Qed.

(** ** Theorems *)

(** C39: [readable_modules] computes readability.  The search ends; every module it returns is
    readable by the rules (which do not follow what java.base requires); and it returns every readable module of the graph that is named,
    and every readable module at all when no automatic module is involved (after an automatic
    module the search stops, and a required module that is not in the graph may be left out). *)
Theorem readable_modules_exact g from :
  exists out, readable_modules g from = Done out /\
    (forall m, m ∈ out -> readable g from m) /\
    (forall m, readable g from m -> m = from \/ m = JAVA_BASE \/ named g m \/
       ~ (reads_everything g from \/ reaches_automatic g from) -> m ∈ out).
Proof. apply wp_inv, wp_readable_modules. Qed.

(** [can_read] decides readability of the named modules of the graph. *)
Theorem can_read_iff g from to :
  named g to ->
  exists r, can_read g from to = Done r /\ (r = true <-> readable g from to).
Proof.
  intros Hn. unfold can_read, is_java_base.
  destruct (bool_decide_reflect (from = to)) as [<-|Hne]; simpl.
  { exists true. split; [done|]. split; [|done]. intros _. by left. }
  destruct (bool_decide_reflect (to = JAVA_BASE)) as [->|Hb].
  { exists true. split; [done|]. split; [|done]. intros _. right. by left. }
  pose proof (wp_readable_modules g from) as (out & Hr & Hs & Hc)%wp_inv. rewrite Hr. simpl.
  eexists. split; [done|]. rewrite bool_decide_eq_true. split; [apply Hs|].
  intros H. apply Hc; auto.
Qed.

(** An application that requires a library, which requires another one transitively. *)
Definition sample_graph : ModuleGraph :=
  foldl graph_insert graph_new
    [ mkModule Explicit "app" false [mkRequires "lib" false false] [] [] [] [];
      mkModule Explicit "lib" false [mkRequires "core" true false; mkRequires "hidden" false false]
        [mkExports "lib.api" []] [] [] [];
      mkModule Explicit "core" false [] [] [] [] [];
      mkModule Explicit "hidden" false [] [] [] [] [] ].

Lemma can_read_iff_witness :
  exists r, can_read sample_graph "app" "core" = Done r /\
    (r = true <-> readable sample_graph "app" "core").
Proof.
  apply (can_read_iff sample_graph "app" "core").
  eexists. split; [vm_compute; reflexivity|discriminate].
Defined.
