(* ===== verification/ClassReader.v ===== *)
(** * Reading class files (crates/nova-classfile/src/reader.rs, error.rs)

    The error type, the fallible computations of the crate ([Result] on top of [run], so that
    panics stay visible) and the byte reader.  The theorems: reading an integer takes exactly
    the next bytes, in big-endian order, or fails at the end of the input without a panic. *)

From stdpp Require Import base list numbers strings option.
From S2P Require Import Prelude Str.

(** ** Errors *)

Module Error.
Inductive t :=
| UnexpectedEof
| InvalidMagic (magic : N)
| InvalidConstantPoolIndex (index : N)
| InvalidConstantPoolTag (tag : N)
| ConstantPoolTypeMismatch (index : N) (expected found : string)
| InvalidModifiedUtf8
| InvalidDescriptor (desc : str)
| InvalidSignature (sig : str)
| MalformedAttribute (name : string)
| Other (msg : string).
End Error.

(** ** Results *)

Definition result (A : Type) : Type := run (Error.t + A).

Definition ok {A} (x : A) : result A := Done (inr x).
Definition err {A} (e : Error.t) : result A := Done (inl e).

(** Code that may panic and does not return a [Result]. *)
Definition lift {A} (m : run A) : result A := x ← m; Done (inr x).

(** The [?] operator: an error returns from the function. *)
Definition try_bind {A B} (m : result A) (f : A -> result B) : result B :=
  match m with
  | Done (inl e) => err e
  | Done (inr x) => f x
  | Panic => Panic
  | OutOfFuel => OutOfFuel
  end.

Declare Scope result_scope.
Delimit Scope result_scope with result.
Notation "x <-? m ;; k" := (try_bind m (fun x => k))
  (at level 100, m at next level, right associativity) : result_scope.
Notation "' p <-? m ;; k" := (try_bind m (fun x => match x with p => k end))
  (at level 100, p pattern, m at next level, right associativity) : result_scope.
Open Scope result_scope.

(** Total correctness: the computation returns, with an error or a value that satisfies [Q]. *)
Definition wpr {A} (m : result A) (Q : A -> Prop) : Prop :=
  wp m (fun r => match r with inl _ => True | inr x => Q x end).

Lemma wpr_ok {A} (x : A) (Q : A -> Prop) : Q x -> wpr (ok x) Q.
Proof. done. Qed.

Lemma wpr_err {A} e (Q : A -> Prop) : wpr (err e) Q.
Proof. done. Qed.

Lemma wpr_bind {A B} (m : result A) (f : A -> result B) (Q : B -> Prop) :
  wpr m (fun x => wpr (f x) Q) -> wpr (try_bind m f) Q.
Proof. unfold wpr, try_bind. destruct m as [[e|x]| |]; done. Qed.

Lemma wpr_mono {A} (m : result A) (Q R : A -> Prop) :
  wpr m Q -> (forall x, Q x -> R x) -> wpr m R.
Proof. unfold wpr. destruct m as [[e|x]| |]; simpl; auto. Qed.

Lemma wpr_seq {A B} (m : result A) (f : A -> result B) (Q : A -> Prop) (R : B -> Prop) :
  wpr m Q -> (forall x, Q x -> wpr (f x) R) -> wpr (try_bind m f) R.
Proof. unfold wpr, try_bind. destruct m as [[e|x]| |]; simpl; auto. Qed.

Lemma try_bind_ok {A B} (m : result A) (f : A -> result B) y :
  try_bind m f = ok y <-> exists x, m = ok x /\ f x = ok y.
Proof. unfold try_bind, ok, err. destruct m as [[e|x]| |]; naive_solver. Qed.

Create HintDb wpr.
#[export] Hint Resolve wpr_ok wpr_err : wpr.

(** ** [Reader] *)

Record Reader := mkReader { rd_bytes : list N; rd_pos : nat }.

Definition reader_new (bytes : list N) : Reader := mkReader bytes 0.

Definition remaining (r : Reader) : nat := length (rd_bytes r) - rd_pos r.

(** [usize::checked_add]. *)
Definition checked_add (x y : nat) : option nat :=
  if (N.of_nat x + N.of_nat y <? 2 ^ 64)%N then Some (x + y) else None.

(** [&bytes[start..end]]. *)
Definition slice_bytes (bytes : list N) (start end_ : nat) : run (list N) :=
  if decide (start <= end_ <= length bytes) then Done (take (end_ - start) (drop start bytes))
  else Panic.

Definition read_u1 (r : Reader) : result (N * Reader) :=
  match rd_bytes r !! rd_pos r with
  | None => err Error.UnexpectedEof
  | Some b => ok (b, mkReader (rd_bytes r) (rd_pos r + 1))
  end.

Definition read_bytes (r : Reader) (len : nat) : result (list N * Reader) :=
  match checked_add (rd_pos r) len with
  | None => err Error.UnexpectedEof
  | Some end_ =>
      if decide (length (rd_bytes r) < end_) then err Error.UnexpectedEof
      else
        slice <-? lift (slice_bytes (rd_bytes r) (rd_pos r) end_) ;;
        ok (slice, mkReader (rd_bytes r) end_)
  end.

(** [read_n::<N>]: the same, copied into an array; [copy_from_slice] needs equal lengths. *)
Definition read_n (n : nat) (r : Reader) : result (list N * Reader) :=
  match checked_add (rd_pos r) n with
  | None => err Error.UnexpectedEof
  | Some end_ =>
      if decide (length (rd_bytes r) < end_) then err Error.UnexpectedEof
      else
        slice <-? lift (slice_bytes (rd_bytes r) (rd_pos r) end_) ;;
        if decide (length slice = n) then ok (slice, mkReader (rd_bytes r) end_) else Panic
  end.

(** [from_be_bytes], for the unsigned and for the signed integers of a width. *)
Definition from_be_bytes (bytes : list N) : N :=
  foldl (fun acc b => N.lor (N.shiftl acc 8) b) 0%N bytes.

Definition to_signed (width n : N) : Z :=
  if (n <? 2 ^ (width - 1))%N then Z.of_N n else (Z.of_N n - 2 ^ Z.of_N width)%Z.

Definition read_u2 (r : Reader) : result (N * Reader) :=
  '(bytes, r) <-? read_n 2 r ;; ok (from_be_bytes bytes, r).

Definition read_u4 (r : Reader) : result (N * Reader) :=
  '(bytes, r) <-? read_n 4 r ;; ok (from_be_bytes bytes, r).

Definition read_i4 (r : Reader) : result (Z * Reader) :=
  '(n, r) <-? read_u4 r ;; ok (to_signed 32 n, r).

Definition read_i8 (r : Reader) : result (Z * Reader) :=
  '(bytes, r) <-? read_n 8 r ;; ok (to_signed 64 (from_be_bytes bytes), r).

Definition ensure_empty (r : Reader) : result unit :=
  if decide (remaining r = 0) then ok () else err (Error.Other "unexpected trailing bytes").

(** ** Big-endian integers *)

Definition is_byte (b : N) : Prop := (b < 256)%N.

(** The [k] bytes of [n], the most significant first. *)
Fixpoint to_be_bytes (k : nat) (n : N) : list N :=
  match k with
  | 0 => []
  | S k => to_be_bytes k (n / 256) ++ [n mod 256]%N
  end.

Lemma length_to_be_bytes k n : length (to_be_bytes k n) = k.
Proof. revert n; induction k as [|k IH]; intros n; simpl; [done|]. rewrite length_app, IH. simpl. lia. Qed.

Lemma to_be_bytes_byte k n : Forall is_byte (to_be_bytes k n).
Proof.
  revert n; induction k as [|k IH]; intros n; simpl; [constructor|].
  apply Forall_app. split; [apply IH|]. constructor; [|constructor]. by apply N.mod_lt.
Qed.

(** Appending a byte is [* 256 +]. *)
Lemma lor_shift_low acc b k : (b < 2 ^ k)%N -> N.lor (N.shiftl acc k) b = (acc * 2 ^ k + b)%N.
Proof.
  intros Hb. rewrite N.shiftl_mul_pow2.
  assert (H0 : N.land (acc * 2 ^ k) b = 0%N).
  { apply N.bits_inj. intros i. rewrite N.land_spec, N.bits_0.
    destruct (N.ltb_spec i k) as [Hi|Hi]; [by rewrite N.mul_pow2_bits_low|].
    replace (N.testbit b i) with false; [by rewrite andb_false_r|]. symmetry.
    destruct (decide (b = 0%N)) as [->|Hz]; [apply N.bits_0|]. apply N.bits_above_log2.
    apply N.log2_lt_pow2; [lia|]. apply (N.lt_le_trans _ _ _ Hb). by apply N.pow_le_mono_r. }
  by rewrite <-N.lxor_lor, <-N.add_nocarry_lxor.
Qed.

Lemma from_be_bytes_snoc l b :
  is_byte b -> from_be_bytes (l ++ [b]) = (from_be_bytes l * 256 + b)%N.
Proof. intros Hb. unfold from_be_bytes. rewrite foldl_app. simpl. by apply (lor_shift_low _ _ 8). Qed.

Lemma from_to_be_bytes k n : (n < 256 ^ N.of_nat k)%N -> from_be_bytes (to_be_bytes k n) = n.
Proof.
  revert n; induction k as [|k IH]; intros n Hn; simpl to_be_bytes.
  { simpl in Hn. unfold from_be_bytes. simpl. lia. }
  rewrite Nat2N.inj_succ, N.pow_succ_r' in Hn.
  rewrite from_be_bytes_snoc by (by apply N.mod_lt).
  rewrite IH by (apply N.Div0.div_lt_upper_bound; lia).
  pose proof (N.div_mod n 256). lia.
Qed.

Lemma from_be_bytes_bound l :
  Forall is_byte l -> (from_be_bytes l < 256 ^ N.of_nat (length l))%N.
Proof.
  induction l as [|b l IH] using rev_ind; intros Hl; [done|].
  apply Forall_app in Hl as [Hl Hb]. apply Forall_cons_1 in Hb as [Hb _].
  rewrite from_be_bytes_snoc by done. specialize (IH Hl). unfold is_byte in Hb.
  rewrite length_app, Nat.add_1_r, Nat2N.inj_succ, N.pow_succ_r'. lia.
Qed.

Lemma to_signed_bound w n :
  (0 < w)%N -> (n < 2 ^ w)%N -> (- 2 ^ (Z.of_N w - 1) <= to_signed w n < 2 ^ (Z.of_N w - 1))%Z.
Proof.
  intros Hw Hn. unfold to_signed.
  assert (Hp : (2 ^ Z.of_N w = 2 * 2 ^ (Z.of_N w - 1))%Z).
  { rewrite <-Z.pow_succ_r by lia. f_equal. lia. }
  assert (Hm : (Z.of_N (2 ^ (w - 1)) = 2 ^ (Z.of_N w - 1))%Z).
  { rewrite N2Z.inj_pow. f_equal. lia. }
  assert (Hn' : (Z.of_N n < 2 ^ Z.of_N w)%Z).
  { change 2%Z with (Z.of_N 2). rewrite <-N2Z.inj_pow. lia. }
  destruct (N.ltb_spec n (2 ^ (w - 1))); lia.
Qed.

(** ** Reading *)

(** The input fits in memory. *)
Definition small_input (r : Reader) : Prop :=
  (N.of_nat (length (rd_bytes r)) < 2 ^ 63)%N /\ rd_pos r <= length (rd_bytes r).

(** [r] with the next [n] bytes read. *)
Definition advance (r : Reader) (n : nat) : Reader := mkReader (rd_bytes r) (rd_pos r + n).

Definition next_bytes (r : Reader) (n : nat) : list N := take n (drop (rd_pos r) (rd_bytes r)).

Lemma checked_add_small r n :
  small_input r -> (N.of_nat n < 2 ^ 32)%N -> checked_add (rd_pos r) n = Some (rd_pos r + n).
Proof.
  intros [Hs Hp] Hn. unfold checked_add. rewrite (proj2 (N.ltb_lt _ _)); [done|].
  assert (2 ^ 63 + 2 ^ 32 < 2 ^ 64)%N by done. lia.
Qed.

Lemma small_advance r n : small_input r -> n <= remaining r -> small_input (advance r n).
Proof. intros [Hs Hp] Hn. unfold remaining in Hn. split; simpl; [done|lia]. Qed.

Lemma read_bytes_spec r n :
  small_input r -> (N.of_nat n < 2 ^ 32)%N ->
  read_bytes r n =
  if decide (n <= remaining r) then ok (next_bytes r n, advance r n) else err Error.UnexpectedEof.
Proof.
  intros Hs Hn. unfold read_bytes. rewrite checked_add_small by done.
  destruct Hs as [_ Hp]. unfold remaining. repeat case_decide; try done; try lia.
  unfold slice_bytes. rewrite decide_True by lia. simpl. unfold ok, next_bytes. do 4 f_equal. lia.
Qed.

Lemma read_n_spec r n :
  small_input r -> (N.of_nat n < 2 ^ 32)%N ->
  read_n n r =
  if decide (n <= remaining r) then ok (next_bytes r n, advance r n) else err Error.UnexpectedEof.
Proof.
  intros Hs Hn. unfold read_n. rewrite checked_add_small by done.
  destruct Hs as [_ Hp]. unfold remaining. repeat case_decide; try done; try lia.
  unfold slice_bytes. rewrite decide_True by lia. simpl.
  replace (rd_pos r + n - rd_pos r) with n by lia.
  rewrite decide_True; [done|]. rewrite length_take, length_drop. lia.
Qed.

Lemma read_u1_spec r :
  small_input r ->
  read_u1 r = (if decide (1 <= remaining r)
               then ok (from_be_bytes (next_bytes r 1), advance r 1) else err Error.UnexpectedEof).
Proof.
  intros [_ Hp]. unfold read_u1, remaining, next_bytes.
  destruct (rd_bytes r !! rd_pos r) as [b|] eqn:E.
  - pose proof (lookup_lt_Some _ _ _ E). rewrite decide_True by lia.
    by rewrite (drop_S _ _ _ E).
  - apply lookup_ge_None in E. by rewrite decide_False by lia.
Qed.

(** [f] of the next [k] bytes, or the end of the input. *)
Definition take_or_eof {A} (r : Reader) (k : nat) (f : list N -> A) : result (A * Reader) :=
  if decide (k <= remaining r) then ok (f (next_bytes r k), advance r k)
  else err Error.UnexpectedEof.

(** [read_u1], [read_u2], [read_u4], [read_i4] and [read_i8] read the next 1, 2, 4 or 8
    bytes, in big-endian order and two's complement, and move past exactly those;
    [read_bytes] returns the next bytes as they are.  When the input is too short they return
    [UnexpectedEof]; none of them panics.  A value read from [k] bytes is below [256 ^ k]. *)
Theorem read_integers r :
  small_input r ->
  read_u1 r = take_or_eof r 1 from_be_bytes /\
  read_u2 r = take_or_eof r 2 from_be_bytes /\
  read_u4 r = take_or_eof r 4 from_be_bytes /\
  read_i4 r = take_or_eof r 4 (fun b => to_signed 32 (from_be_bytes b)) /\
  read_i8 r = take_or_eof r 8 (fun b => to_signed 64 (from_be_bytes b)) /\
  (forall n, (N.of_nat n < 2 ^ 32)%N -> read_bytes r n = take_or_eof r n id) /\
  (Forall is_byte (rd_bytes r) -> forall k,
     (from_be_bytes (next_bytes r k) < 256 ^ N.of_nat k)%N).
Proof.
  intros Hs. unfold read_i4, read_u2, read_u4, read_i8. rewrite !read_n_spec by done.
  split_and!; [by apply read_u1_spec|by unfold take_or_eof; case_decide..| |].
  - intros n Hn. by rewrite read_bytes_spec.
  - intros Hb k. eapply N.lt_le_trans.
    + apply from_be_bytes_bound. by apply Forall_take, Forall_drop.
    + apply N.pow_le_mono_r; [done|]. unfold next_bytes. rewrite length_take. lia.
Qed.

(** An integer written as big-endian bytes is read back, from any position of the input. *)
Theorem read_write_roundtrip pre post n :
  (N.of_nat (length (pre ++ to_be_bytes 4 n ++ post)) < 2 ^ 63)%N -> (n < 2 ^ 32)%N ->
  read_u4 (mkReader (pre ++ to_be_bytes 4 n ++ post) (length pre)) =
  ok (n, mkReader (pre ++ to_be_bytes 4 n ++ post) (length pre + 4)).
Proof.
  intros Hl Hn. set (r := mkReader _ _).
  assert (Hs : small_input r) by (split; [done|simpl; rewrite length_app; lia]).
  assert (Hnext : next_bytes r 4 = to_be_bytes 4 n).
  { unfold next_bytes, r. cbn [rd_pos rd_bytes]. rewrite drop_app_length.
    apply take_app_length'. by rewrite length_to_be_bytes. }
  unfold read_u4. rewrite (read_n_spec r 4 Hs) by done. rewrite decide_True.
  - rewrite Hnext. cbn [try_bind ok]. by rewrite (from_to_be_bytes 4 n).
  - unfold remaining, r. cbn [rd_pos rd_bytes]. rewrite !length_app, length_to_be_bytes. lia.
Qed.

Lemma read_integers_witness :
  read_u2 (mkReader [1; 2; 3]%N 1) = ok (515%N, mkReader [1; 2; 3]%N 3).
Proof.
  destruct (read_integers (mkReader [1; 2; 3]%N 1)) as (_ & H & _); [split; [done|simpl; lia]|].
  rewrite H. reflexivity.
Defined.

Lemma read_write_roundtrip_witness :
  read_u4 (mkReader ([7%N] ++ to_be_bytes 4 0xCAFEBABE ++ [9%N]) 1) =
  ok (0xCAFEBABE%N, mkReader ([7%N] ++ to_be_bytes 4 0xCAFEBABE ++ [9%N]) 5).
Proof. apply (read_write_roundtrip [7%N] [9%N] 0xCAFEBABE); vm_compute; reflexivity. Defined.
