(* ===== verification/Descriptor.v ===== *)
(** * Field and method descriptors (crates/nova-classfile/src/descriptor.rs)

    The parser of JVM descriptors.  The reference is the printer, the grammar of descriptors
    read as a function; the theorems: parsing returns on every string (no slice panics), and
    accepts a string exactly when it is the descriptor of the type it returns. *)

From Stdlib Require Import Ascii.
From stdpp Require Import base list numbers strings option sets.
From S2P Require Import Prelude Str ClassReader.

(** ** Data *)

Inductive BaseType := Byte | Char | Double | Float | Int | Long | Short | Boolean.

Inductive FieldType :=
| Base (t : BaseType)
| Object (name : str)
| Array (component : FieldType).

Inductive ReturnType := Void | Type_ (t : FieldType).

Record MethodDescriptor := mkMethodDescriptor {
  md_params : list FieldType;
  md_return : ReturnType
}.

(** ** Strings *)

(** The code of an ASCII character. *)
Definition ch (a : Ascii.ascii) : N := Ascii.N_of_ascii a.
#[global] Arguments ch a%_char_scope : simpl never.

(** [&s[i..]]. *)
Definition slice_from (s : str) (i : nat) : run str :=
  match split_at s i with Some (_, q) => Done q | None => Panic end.

(** [s.find(c)]: the byte offset of the first [c]. *)
Fixpoint find_char (s : str) (c : char) : option nat :=
  match s with
  | [] => None
  | x :: s => if decide (x = c) then Some 0 else i ← find_char s c; Some (len_utf8 x + i)
  end.

(** ** Parsing *)

(** The primitive of a descriptor character. *)
Definition base_type (b : N) : option BaseType :=
  if decide (b = ch "B") then Some Byte
  else if decide (b = ch "C") then Some Char
  else if decide (b = ch "D") then Some Double
  else if decide (b = ch "F") then Some Float
  else if decide (b = ch "I") then Some Int
  else if decide (b = ch "J") then Some Long
  else if decide (b = ch "S") then Some Short
  else if decide (b = ch "Z") then Some Boolean
  else None.

Fixpoint parse_field_type (fuel : nat) (input : str) : result (FieldType * str) :=
  match fuel with
  | 0 => OutOfFuel
  | S fuel =>
      match as_bytes input with
      | [] => err (Error.InvalidDescriptor input)
      | b :: _ =>
          match base_type b with
          | Some t => rest <-? lift (slice_from input 1) ;; ok (Base t, rest)
          | None =>
              if decide (b = ch "L") then
                match find_char input (ch ";") with
                | Some end_ =>
                    name <-? lift (slice input 1 end_) ;;
                    rest <-? lift (slice_from input (end_ + 1)) ;;
                    ok (Object name, rest)
                | None => err (Error.InvalidDescriptor input)
                end
              else if decide (b = ch "[") then
                input' <-? lift (slice_from input 1) ;;
                '(component, rest) <-? parse_field_type fuel input' ;;
                ok (Array component, rest)
              else err (Error.InvalidDescriptor input)
          end
      end
  end.

(** Each step of the recursion drops a character. *)
Definition field_fuel (input : str) : nat := S (length input).

Definition parse_field_descriptor (desc : str) : result FieldType :=
  '(ty, rest) <-? parse_field_type (field_fuel desc) desc ;;
  if decide (rest = []) then ok ty else err (Error.InvalidDescriptor desc).

(** The loop over the parameters, at the byte [idx]. *)
Fixpoint params_loop (fuel : nat) (desc : str) (i : nat) (params : list FieldType)
    : result (nat * list FieldType) :=
  match fuel with
  | 0 => OutOfFuel
  | S fuel =>
      if decide (i < str_len desc) then
        b <-? lift (idx (as_bytes desc) i) ;;
        if decide (b = ch ")") then ok (i + 1, params)
        else
          input <-? lift (slice_from desc i) ;;
          '(param, rest) <-? parse_field_type (field_fuel input) input ;;
          params_loop fuel desc (str_len desc - str_len rest) (params ++ [param])
      else ok (i, params)
  end.

Definition parse_return (desc return_part : str) : result (ReturnType * str) :=
  match return_part with
  | c :: rest =>
      if decide (c = ch "V") then ok (Void, rest)
      else
        '(ty, rest) <-? parse_field_type (field_fuel return_part) return_part ;;
        ok (Type_ ty, rest)
  | [] => err (Error.InvalidDescriptor desc)
  end.

Definition parse_method_descriptor (desc : str) : result MethodDescriptor :=
  if decide (head desc = Some (ch "(")) then
    '(i, params) <-? params_loop (S (length desc)) desc 1 [] ;;
    if decide (str_len desc < i) then err (Error.InvalidDescriptor desc)
    else
      return_part <-? lift (slice_from desc i) ;;
      '(return_type, rest) <-? parse_return desc return_part ;;
      if decide (rest = []) then ok (mkMethodDescriptor params return_type)
      else err (Error.InvalidDescriptor desc)
  else err (Error.InvalidDescriptor desc).

(** ** The reference: printing *)

Definition base_char (t : BaseType) : N :=
  match t with
  | Byte => ch "B" | Char => ch "C" | Double => ch "D" | Float => ch "F"
  | Int => ch "I" | Long => ch "J" | Short => ch "S" | Boolean => ch "Z"
  end.

Fixpoint print_field (t : FieldType) : str :=
  match t with
  | Base t => [base_char t]
  | Object name => ch "L" :: name ++ [ch ";"]
  | Array c => ch "[" :: print_field c
  end.

Definition print_return (t : ReturnType) : str :=
  match t with Void => [ch "V"] | Type_ t => print_field t end.

Definition print_method (d : MethodDescriptor) : str :=
  ch "(" :: concat (print_field <$> md_params d) ++ ch ")" :: print_return (md_return d).

(** A class name has no semicolon. *)
Fixpoint wf_field (t : FieldType) : Prop :=
  match t with
  | Base _ => True
  | Object name => ch ";" ∉ name
  | Array c => wf_field c
  end.

Definition wf_return (t : ReturnType) : Prop :=
  match t with Void => True | Type_ t => wf_field t end.

Definition wf_method (d : MethodDescriptor) : Prop :=
  Forall wf_field (md_params d) /\ wf_return (md_return d).

(** ** Strings and their bytes *)

Lemma slice_from_app p q : slice_from (p ++ q) (str_len p) = Done q.
Proof. unfold slice_from. by rewrite split_at_app. Qed.

Lemma ascii_len c : (c < 0x80)%N -> len_utf8 c = 1.
Proof. intros Hc. unfold len_utf8. by rewrite (proj2 (N.ltb_lt _ _) Hc). Qed.

Lemma str_len_ascii c : (c < 0x80)%N -> str_len [c] = 1.
Proof. intros Hc. rewrite str_len_cons, ascii_len by done. done. Qed.

(** An ASCII byte at the start of a string is its first character. *)
Lemma as_bytes_ascii s b bs :
  as_bytes s = b :: bs -> (b < 0x80)%N -> exists s', s = b :: s'.
Proof.
  intros Hs Hb. destruct s as [|c s]; [done|]. exists s. f_equal.
  change (as_bytes (c :: s)) with (encode_utf8 c ++ as_bytes s) in Hs.
  destruct (decide (c < 0x80)%N) as [Hc|Hc].
  - unfold encode_utf8 in Hs. rewrite (proj2 (N.ltb_lt _ _) Hc) in Hs. by simplify_eq/=.
  - destruct (encode_utf8 c) as [|x xs] eqn:E.
    { pose proof (length_encode_utf8 c) as Hl. rewrite E in Hl. pose proof (len_utf8_pos c). simpl in Hl. lia. }
    simplify_eq/=. assert (Hin : b ∈ encode_utf8 c) by (rewrite E; by left).
    apply encode_utf8_high in Hin; lia.
Qed.

Lemma as_bytes_cons_ascii c s : (c < 0x80)%N -> as_bytes (c :: s) = c :: as_bytes s.
Proof.
  intros Hc. change (as_bytes (c :: s)) with (encode_utf8 c ++ as_bytes s).
  unfold encode_utf8. by rewrite (proj2 (N.ltb_lt _ _) Hc).
Qed.

Lemma slice_from_ascii c s : (c < 0x80)%N -> slice_from (c :: s) 1 = Done s.
Proof. intros Hc. rewrite <-(str_len_ascii c Hc). apply (slice_from_app [c] s). Qed.

Lemma find_char_Some s c i :
  find_char s c = Some i -> exists p q, s = p ++ c :: q /\ str_len p = i /\ c ∉ p.
Proof.
  revert i; induction s as [|x s IH]; intros i Hf; simpl in Hf; [done|].
  case_decide as Hx.
  - simplify_eq. exists [], s. split_and!; [done..|]. apply not_elem_of_nil.
  - apply bind_Some in Hf as (j & Hj & [= <-]). destruct (IH j Hj) as (p & q & -> & <- & Hn).
    exists (x :: p), q. split_and!; [done..|]. set_solver.
Qed.

Lemma find_char_app p c q : c ∉ p -> find_char (p ++ c :: q) c = Some (str_len p).
Proof.
  induction p as [|x p IH]; intros Hn; simpl.
  - by rewrite decide_True.
  - rewrite decide_False by set_solver. rewrite IH by set_solver. done.
Qed.

(** The rest of the string after an object type. *)
Lemma object_slices name rest :
  slice (ch "L" :: name ++ ch ";" :: rest) 1 (S (str_len name)) = Done name /\
  slice_from (ch "L" :: name ++ ch ";" :: rest) (S (str_len name + 1)) = Done rest.
Proof.
  split.
  - apply (slice_app [ch "L"] name (ch ";" :: rest)).
  - replace (ch "L" :: name ++ ch ";" :: rest) with ((ch "L" :: name ++ [ch ";"]) ++ rest)
      by (simpl; by rewrite <-app_assoc).
    replace (S (str_len name + 1)) with (str_len (ch "L" :: name ++ [ch ";"])).
    + apply slice_from_app.
    + rewrite str_len_cons, str_len_app. reflexivity.
Qed.

(** ** The parser and the printer *)

Lemma base_type_Some b t : base_type b = Some t <-> b = base_char t.
Proof.
  unfold base_type. split.
  - repeat case_decide; intros; simplify_eq; done.
  - intros ->. by destruct t.
Qed.

(** What [parse_field_type] does: it returns, and splits off the type at the front. *)
Lemma wpr_parse_field_type fuel input :
  length input < fuel ->
  wpr (parse_field_type fuel input) (fun '(ty, rest) => input = print_field ty ++ rest /\ wf_field ty).
Proof.
  revert input; induction fuel as [|fuel IH]; intros input Hf; [lia|]. simpl.
  destruct (as_bytes input) as [|b bs] eqn:Eb; [apply wpr_err|].
  destruct (base_type b) as [t|] eqn:Et.
  { apply base_type_Some in Et as ->.
    destruct (as_bytes_ascii _ _ _ Eb) as [s ->]; [by destruct t|].
    rewrite slice_from_ascii by (by destruct t). done. }
  case_decide as HL.
  { subst b. destruct (as_bytes_ascii _ _ _ Eb) as [s ->]; [done|].
    destruct (find_char (ch "L" :: s) (ch ";")) as [end_|] eqn:Ef; [|apply wpr_err].
    apply find_char_Some in Ef as ([|x p] & q & Hs & <- & Hn); simplify_eq/=.
    rewrite str_len_cons. change (len_utf8 (ch "L")) with 1. simpl.
    destruct (object_slices p q) as [H1 H2]. rewrite H1. simpl. rewrite H2. simpl.
    split; [by rewrite <-app_assoc|]. set_solver. }
  case_decide as HA; [|apply wpr_err].
  subst b. destruct (as_bytes_ascii _ _ _ Eb) as [s ->]; [done|].
  rewrite slice_from_ascii by done. simpl. eapply wpr_seq; [apply IH; simpl in Hf; lia|]. intros [c rest] [-> Hw]. done.
Qed.

Lemma parse_print_field fuel ty rest :
  length (print_field ty ++ rest) < fuel -> wf_field ty ->
  parse_field_type fuel (print_field ty ++ rest) = ok (ty, rest).
Proof.
  revert fuel; induction ty as [t|name|c IH]; intros [|fuel] Hf Hw; try lia; simpl print_field; simpl app.
  - simpl. rewrite as_bytes_cons_ascii by (by destruct t).
    rewrite (proj2 (base_type_Some _ _) eq_refl), slice_from_ascii by (by destruct t). done.
  - rewrite <-app_assoc. simpl. simpl in Hw. rewrite (find_char_app name) by done.
    destruct (object_slices name rest) as [H1 H2]. simpl in *. by rewrite H1; simpl; rewrite H2.
  - simpl. rewrite slice_from_ascii by done. simpl. rewrite IH; [done| |done]. simpl in Hf. lia.
Qed.

#[global] Arguments parse_field_type : simpl never.

(** ** Method descriptors *)

Lemma print_field_nonempty t : print_field t <> [].
Proof. by destruct t. Qed.

Lemma print_field_head t rest : exists c s, print_field t ++ rest = c :: s /\ c <> ch ")" /\ (c < 0x80)%N.
Proof. destruct t as [[]|name|c]; eexists _, _; (split; [done|]); split; done. Qed.

(** The byte at the offset of a prefix. *)
Lemma idx_bytes_ascii p c q :
  (c < 0x80)%N -> idx (as_bytes (p ++ c :: q)) (str_len p) = Done c.
Proof.
  intros Hc. apply idx_Done. rewrite as_bytes_app, <-length_as_bytes, lookup_app_r by lia.
  by rewrite Nat.sub_diag, as_bytes_cons_ascii.
Qed.

Lemma idx_bytes_head p c q b :
  idx (as_bytes (p ++ c :: q)) (str_len p) = Done b -> (b < 0x80)%N -> b = c.
Proof.
  intros Hb Hlt. apply idx_Done in Hb.
  rewrite as_bytes_app, <-length_as_bytes, lookup_app_r, Nat.sub_diag in Hb by lia.
  destruct (as_bytes (c :: q)) as [|x xs] eqn:E; [done|]. simplify_eq/=.
  destruct (as_bytes_ascii _ _ _ E Hlt) as [s' [= -> _]]. done.
Qed.

Definition print_params (ps : list FieldType) : str := concat (print_field <$> ps).

Lemma print_params_snoc ps t : print_params (ps ++ [t]) = print_params ps ++ print_field t.
Proof. unfold print_params. rewrite fmap_app, concat_app. simpl. by rewrite app_nil_r. Qed.

(** The loop splits off the parameters, up to the closing parenthesis or the end. *)
Lemma wpr_params_loop fuel desc p suf params :
  desc = p ++ suf -> length suf < fuel -> Forall wf_field params ->
  wpr (params_loop fuel desc (str_len p) params) (fun '(i, params') =>
    Forall wf_field params' /\
    exists new, params' = params ++ new /\
      ((exists rest, suf = print_params new ++ ch ")" :: rest /\
          i = str_len (p ++ print_params new) + 1) \/
       (suf = print_params new /\ i = str_len desc))).
Proof.
  revert p suf params; induction fuel as [|fuel IH]; intros p suf params Hd Hf Hps; [lia|]. simpl.
  destruct suf as [|c suf].
  { rewrite decide_False by (rewrite Hd, app_nil_r; lia). split; [done|].
    exists []. rewrite app_nil_r. split; [done|]. right. split; [done|]. by rewrite Hd, app_nil_r. }
  assert (Hlen : str_len desc = str_len p + str_len (c :: suf)) by (by rewrite Hd, str_len_app).
  pose proof (len_utf8_pos c). rewrite str_len_cons in Hlen. rewrite decide_True by lia.
  destruct (idx (as_bytes desc) (str_len p)) as [b| |] eqn:Eb; simpl.
  2,3: exfalso; assert (Hlt : str_len p < length (as_bytes desc)) by (rewrite length_as_bytes; lia);
    apply lookup_lt_is_Some in Hlt as [x Hx]; rewrite (proj2 (idx_Done _ _ _) Hx) in Eb; done.
  case_decide as Hb.
  { subst b. rewrite Hd in Eb. apply idx_bytes_head in Eb as <-; [|done]. split; [done|].
    exists []. rewrite app_nil_r. split; [done|]. left. exists suf. split; [done|].
    unfold print_params. simpl. by rewrite app_nil_r. }
  assert (Hsl : slice_from desc (str_len p) = Done (c :: suf)) by (rewrite Hd; apply slice_from_app).
  rewrite Hsl. simpl. eapply wpr_seq; [apply wpr_parse_field_type; unfold field_fuel; lia|].
  intros [t rest] [Hsuf Hwt].
  replace (str_len desc - str_len rest) with (str_len (p ++ print_field t)).
  2:{ rewrite Hd, Hsuf, !str_len_app. lia. }
  eapply wpr_mono.
  - apply (IH (p ++ print_field t) rest).
    + by rewrite Hd, <-app_assoc, <-Hsuf.
    + assert (Hl : length (c :: suf) = length (print_field t) + length rest) by (by rewrite Hsuf, length_app).
      pose proof (print_field_nonempty t). destruct (print_field t); [done|]. simpl in *. lia.
    + apply Forall_app. split; [done|]. by constructor.
  - intros [i params'] (Hw & new & -> & Hcase). split; [done|]. exists (t :: new).
    split; [by rewrite <-app_assoc|]. unfold print_params in *. simpl.
    destruct Hcase as [(rest' & -> & ->)|[-> ->]]; [left|right].
    + exists rest'. rewrite Hsuf, <-!app_assoc. done.
    + by rewrite Hsuf.
Qed.

Lemma params_loop_print fuel p new params rest :
  length (print_params new ++ ch ")" :: rest) < fuel -> Forall wf_field new ->
  params_loop fuel (p ++ print_params new ++ ch ")" :: rest) (str_len p) params =
  ok (str_len (p ++ print_params new) + 1, params ++ new).
Proof.
  intros Hf Hw. revert fuel p params Hf; induction Hw as [|t new Ht Hw IH]; intros [|fuel] p params Hf; try lia.
  - simpl. rewrite decide_True by (rewrite str_len_app, str_len_cons; pose proof (len_utf8_pos (ch ")")); lia).
    rewrite idx_bytes_ascii by done. simpl. unfold print_params. simpl. by rewrite !app_nil_r.
  - change (print_params (t :: new)) with (print_field t ++ print_params new) in *.
    rewrite <-app_assoc in *. set (suf := print_params new ++ ch ")" :: rest) in *.
    destruct (print_field_head t suf) as (c & s & Hc & Hne & Hlt).
    simpl. rewrite decide_True.
    2:{ rewrite str_len_app, Hc, str_len_cons. pose proof (len_utf8_pos c). lia. }
    rewrite Hc at 1. rewrite idx_bytes_ascii by done. simpl. rewrite decide_False by done.
    rewrite slice_from_app. simpl.
    rewrite parse_print_field by (unfold field_fuel; done || lia). simpl.
    replace (str_len (p ++ print_field t ++ suf) - str_len suf) with (str_len (p ++ print_field t))
      by (rewrite !str_len_app; lia).
    replace (p ++ print_field t ++ suf) with ((p ++ print_field t) ++ suf) by (by rewrite <-app_assoc).
    rewrite IH.
    + by rewrite <-!app_assoc.
    + rewrite length_app in Hf. pose proof (print_field_nonempty t).
      destruct (print_field t); [done|]. simpl in Hf. lia.
Qed.

#[global] Arguments params_loop : simpl never.

Lemma wpr_parse_return desc part :
  wpr (parse_return desc part) (fun '(t, rest) => part = print_return t ++ rest /\ wf_return t).
Proof.
  unfold parse_return. destruct part as [|c part]; [apply wpr_err|]. case_decide as Hc.
  - by subst.
  - eapply wpr_seq; [apply wpr_parse_field_type; unfold field_fuel; lia|].
    intros [t rest] [H1 H2]. done.
Qed.

Lemma parse_return_print desc t : wf_return t -> parse_return desc (print_return t) = ok (t, []).
Proof.
  destruct t as [|t]; [done|]. intros Hw. simpl print_return.
  pose proof (parse_print_field (field_fuel (print_field t)) t []) as Hp. rewrite app_nil_r in Hp.
  specialize (Hp ltac:(unfold field_fuel; lia) Hw).
  unfold parse_return. destruct (print_field t) as [|c s] eqn:E; [by apply print_field_nonempty in E|].
  rewrite decide_False; [by rewrite Hp|].
  intros ->. destruct t as [[]|n|t]; done.
Qed.

Lemma wpr_parse_method desc :
  wpr (parse_method_descriptor desc) (fun d => desc = print_method d /\ wf_method d).
Proof.
  unfold parse_method_descriptor. case_decide as Hh; [|apply wpr_err].
  destruct desc as [|c desc]; [done|]. simpl in Hh. injection Hh as ->.
  eapply wpr_seq.
  { apply (wpr_params_loop _ _ [ch "("] desc []); [done|simpl; lia|constructor]. }
  intros [i params] (Hw & new & Hnew & Hcase). simpl in Hnew. subst new.
  destruct Hcase as [(rest & Hdesc & ->)|[Hdesc ->]].
  - case_decide as Hlt; [apply wpr_err|]. subst desc.
    replace (ch "(" :: print_params params ++ ch ")" :: rest)
      with (([ch "("] ++ print_params params ++ [ch ")"]) ++ rest) by (simpl; by rewrite <-app_assoc).
    replace (str_len ([ch "("] ++ print_params params) + 1)
      with (str_len ([ch "("] ++ print_params params ++ [ch ")"])) by (rewrite !str_len_app; reflexivity || lia).
    rewrite slice_from_app. simpl. eapply wpr_seq; [apply wpr_parse_return|]. intros [t r] [-> Ht].
    case_decide as Hr; [|apply wpr_err]. subst r. rewrite app_nil_r. split; [|done].
    unfold print_method, print_params. simpl. by rewrite <-app_assoc.
  - rewrite decide_False by lia. rewrite <-(app_nil_r (ch "(" :: desc)) at 1.
    rewrite <-(app_nil_r (ch "(" :: desc)) at 2.
    replace (str_len ((ch "(" :: desc) ++ [])) with (str_len (ch "(" :: desc)) by (by rewrite app_nil_r).
    rewrite slice_from_app. simpl. done.
Qed.

Lemma parse_print_method d : wf_method d -> parse_method_descriptor (print_method d) = ok d.
Proof.
  intros [Hp Hr]. destruct d as [params ret]. unfold parse_method_descriptor, print_method.
  cbn [md_params md_return] in *.
  rewrite decide_True by done. fold (print_params params).
  pose proof (params_loop_print (S (length (ch "(" :: print_params params ++ ch ")" :: print_return ret)))
    [ch "("] params [] (print_return ret) ltac:(simpl; lia) Hp) as Hl.
  change ([ch "("] ++ print_params params ++ ch ")" :: print_return ret)
    with (ch "(" :: print_params params ++ ch ")" :: print_return ret) in Hl.
  change (str_len [ch "("]) with 1 in Hl. rewrite Hl. simpl try_bind.
  set (pre := [ch "("] ++ print_params params ++ [ch ")"]).
  assert (Hi : str_len ([ch "("] ++ print_params params) + 1 = str_len pre).
  { unfold pre. rewrite !str_len_app. change (str_len [ch ")"]) with 1. lia. }
  assert (Hd : ch "(" :: print_params params ++ ch ")" :: print_return ret = pre ++ print_return ret).
  { unfold pre. simpl. by rewrite <-app_assoc. }
  simpl in Hi. rewrite Hi, Hd. rewrite decide_False by (rewrite str_len_app; lia).
  rewrite slice_from_app. simpl. by rewrite parse_return_print.
Qed.

Lemma parse_print_field_descriptor ty : wf_field ty -> parse_field_descriptor (print_field ty) = ok ty.
Proof.
  intros Hwf. unfold parse_field_descriptor.
  pose proof (parse_print_field (field_fuel (print_field ty)) ty []) as Hp. rewrite app_nil_r in Hp.
  by rewrite Hp by (unfold field_fuel; done || lia).
Qed.

(** A parser that is sound and reads back what is printed is exact. *)
Lemma exact_of_print {A} (parse : str -> result A) (print : A -> str) (wf : A -> Prop) desc :
  wpr (parse desc) (fun x => desc = print x /\ wf x) ->
  (forall x, wf x -> parse (print x) = ok x) ->
  exists r, parse desc = Done r /\ forall x, r = inr x <-> desc = print x /\ wf x.
Proof.
  intros Hw Hp. apply wp_inv in Hw as (r & Hr & Hs). exists r. split; [done|]. intros x. split.
  - by intros ->.
  - intros [-> Hwf]. rewrite Hp in Hr by done. by injection Hr as <-.
Qed.

Lemma wpr_parse_field_descriptor desc :
  wpr (parse_field_descriptor desc) (fun ty => desc = print_field ty /\ wf_field ty).
Proof.
  unfold parse_field_descriptor. eapply wpr_seq; [apply wpr_parse_field_type; unfold field_fuel; lia|].
  intros [ty rest] [-> Hwf]. case_decide as Hr; [|apply wpr_err]. subst. by rewrite app_nil_r.
Qed.

(** ** Theorems *)

(** The parser of field descriptors is exact.  It returns on every string, and it accepts a
    string exactly when the string is the descriptor of the type it returns. *)
Theorem parse_field_descriptor_exact desc :
  exists r, parse_field_descriptor desc = Done r /\
    forall ty, r = inr ty <-> desc = print_field ty /\ wf_field ty.
Proof. apply exact_of_print; [apply wpr_parse_field_descriptor|apply parse_print_field_descriptor]. Qed.

(** The parser of method descriptors is exact: it returns on every string, and accepts
    exactly the strings that are the descriptor of what it returns.  Parameters that are not
    closed by a parenthesis, a missing return type and trailing text are rejected. *)
Theorem parse_method_descriptor_exact desc :
  exists r, parse_method_descriptor desc = Done r /\
    forall d, r = inr d <-> desc = print_method d /\ wf_method d.
Proof. apply exact_of_print; [apply wpr_parse_method|apply parse_print_method]. Qed.
