(* ===== verification/ConstantPool.v ===== *)
(** * The constant pool (crates/nova-classfile/src/constant_pool.rs)

    The entries of a constant pool, its parser, the accessors and the decoder of modified
    UTF-8.  The references are encoders.  The theorems: parsing returns on every input (no
    index panics) and yields a pool whose two-slot entries are followed by an empty slot; and
    a pool that is written is read back, strings included. *)

From stdpp Require Import base list numbers strings option.
From S2P Require Import Prelude Str ClassReader.

(** ** Data *)

(** Floats are kept as their bits ([f32::from_bits], [f64::from_bits]). *)
Module CpInfo.
Inductive t :=
| Utf8 (s : str)
| Integer (n : Z)
| Float (bits : N)
| Long (n : Z)
| Double (bits : N)
| Class (name_index : N)
| String (string_index : N)
| Fieldref (class_index name_and_type_index : N)
| Methodref (class_index name_and_type_index : N)
| InterfaceMethodref (class_index name_and_type_index : N)
| NameAndType (name_index descriptor_index : N)
| MethodHandle (reference_kind reference_index : N)
| MethodType (descriptor_index : N)
| Dynamic (bootstrap_method_attr_index name_and_type_index : N)
| InvokeDynamic (bootstrap_method_attr_index name_and_type_index : N)
| Module_ (name_index : N)
| Package (name_index : N).

Definition kind (self : t) : string :=
  match self with
  | Utf8 _ => "Utf8" | Integer _ => "Integer" | Float _ => "Float" | Long _ => "Long"
  | Double _ => "Double" | Class _ => "Class" | String _ => "String"
  | Fieldref _ _ => "Fieldref" | Methodref _ _ => "Methodref"
  | InterfaceMethodref _ _ => "InterfaceMethodref" | NameAndType _ _ => "NameAndType"
  | MethodHandle _ _ => "MethodHandle" | MethodType _ => "MethodType"
  | Dynamic _ _ => "Dynamic" | InvokeDynamic _ _ => "InvokeDynamic"
  | Module_ _ => "Module" | Package _ => "Package"
  end.
End CpInfo.

Definition ConstantPool : Type := list (option CpInfo.t).

(** ** Modified UTF-8 *)

(** [String::from_utf16_lossy]: an unpaired surrogate becomes the replacement character. *)
Definition is_high_surrogate (u : N) : bool := ((0xD800 <=? u) && (u <? 0xDC00))%N.
Definition is_low_surrogate (u : N) : bool := ((0xDC00 <=? u) && (u <? 0xE000))%N.

Definition combine_surrogates (hi lo : N) : char :=
  (0x10000 + (hi - 0xD800) * 0x400 + (lo - 0xDC00))%N.

Fixpoint from_utf16_lossy (units : list N) : str :=
  match units with
  | [] => []
  | u :: rest =>
      if is_high_surrogate u then
        match rest with
        | lo :: rest' =>
            if is_low_surrogate lo then combine_surrogates u lo :: from_utf16_lossy rest'
            else 0xFFFD%N :: from_utf16_lossy rest
        | [] => [0xFFFD%N]
        end
      else if is_low_surrogate u then 0xFFFD%N :: from_utf16_lossy rest
      else u :: from_utf16_lossy rest
  end.

(** The loop of [decode_modified_utf8], at the byte [i]. *)
Fixpoint decode_loop (fuel : nat) (bytes : list N) (i : nat) (units : list N)
    : result (list N) :=
  match fuel with
  | 0 => OutOfFuel
  | S fuel =>
      if decide (i < length bytes) then
        b <-? lift (idx bytes i) ;;
        if decide (N.land b 0x80 = 0%N) then decode_loop fuel bytes (i + 1) (units ++ [b])
        else if decide (N.land b 0xE0 = 0xC0%N) then
          if decide (length bytes <= i + 1) then err Error.InvalidModifiedUtf8
          else
            b2 <-? lift (idx bytes (i + 1)) ;;
            if decide (b = 0xC0%N /\ b2 = 0x80%N) then
              decode_loop fuel bytes (i + 2) (units ++ [0%N])
            else if decide (N.land b2 0xC0 = 0x80%N) then
              let value := N.lor (N.shiftl (N.land b 0x1F) 6) (N.land b2 0x3F) in
              decode_loop fuel bytes (i + 2) (units ++ [value])
            else err Error.InvalidModifiedUtf8
        else if decide (N.land b 0xF0 = 0xE0%N) then
          if decide (length bytes <= i + 2) then err Error.InvalidModifiedUtf8
          else
            b2 <-? lift (idx bytes (i + 1)) ;;
            b3 <-? lift (idx bytes (i + 2)) ;;
            if decide (N.land b2 0xC0 = 0x80%N /\ N.land b3 0xC0 = 0x80%N) then
              let value := N.lor (N.lor (N.shiftl (N.land b 0x0F) 12)
                                        (N.shiftl (N.land b2 0x3F) 6)) (N.land b3 0x3F) in
              decode_loop fuel bytes (i + 3) (units ++ [value])
            else err Error.InvalidModifiedUtf8
        else err Error.InvalidModifiedUtf8
      else ok units
  end.

Definition decode_modified_utf8 (bytes : list N) : result str :=
  units <-? decode_loop (S (length bytes)) bytes 0 [] ;;
  ok (from_utf16_lossy units).

(** ** [ConstantPool::parse] *)

Definition as_u64 (n : Z) : N := Z.to_N (n mod 2 ^ 64).

(** The [match tag] of the loop: one entry. *)
Definition parse_entry (r : Reader) : result (CpInfo.t * Reader) :=
  '(tag, r) <-? read_u1 r ;;
  let one_index (f : N -> CpInfo.t) :=
    '(a, r) <-? read_u2 r ;; ok (f a, r) in
  let two_indices (f : N -> N -> CpInfo.t) :=
    '(a, r) <-? read_u2 r ;; '(b, r) <-? read_u2 r ;; ok (f a b, r) in
  if decide (tag = 1%N) then
    '(len, r) <-? read_u2 r ;;
    '(bytes, r) <-? read_bytes r (N.to_nat len) ;;
    s <-? decode_modified_utf8 bytes ;;
    ok (CpInfo.Utf8 s, r)
  else if decide (tag = 3%N) then '(n, r) <-? read_i4 r ;; ok (CpInfo.Integer n, r)
  else if decide (tag = 4%N) then '(bits, r) <-? read_u4 r ;; ok (CpInfo.Float bits, r)
  else if decide (tag = 5%N) then '(n, r) <-? read_i8 r ;; ok (CpInfo.Long n, r)
  else if decide (tag = 6%N) then '(n, r) <-? read_i8 r ;; ok (CpInfo.Double (as_u64 n), r)
  else if decide (tag = 7%N) then one_index CpInfo.Class
  else if decide (tag = 8%N) then one_index CpInfo.String
  else if decide (tag = 9%N) then two_indices CpInfo.Fieldref
  else if decide (tag = 10%N) then two_indices CpInfo.Methodref
  else if decide (tag = 11%N) then two_indices CpInfo.InterfaceMethodref
  else if decide (tag = 12%N) then two_indices CpInfo.NameAndType
  else if decide (tag = 15%N) then
    '(k, r) <-? read_u1 r ;; '(i, r) <-? read_u2 r ;; ok (CpInfo.MethodHandle k i, r)
  else if decide (tag = 16%N) then one_index CpInfo.MethodType
  else if decide (tag = 17%N) then two_indices CpInfo.Dynamic
  else if decide (tag = 18%N) then two_indices CpInfo.InvokeDynamic
  else if decide (tag = 19%N) then one_index CpInfo.Module_
  else if decide (tag = 20%N) then one_index CpInfo.Package
  else err (Error.InvalidConstantPoolTag tag).

(** Entries that take two slots. *)
Definition is_wide (e : CpInfo.t) : bool :=
  match e with CpInfo.Long _ | CpInfo.Double _ => true | _ => false end.

(** The [while i < count] loop. *)
Fixpoint parse_loop (fuel count i : nat) (entries : ConstantPool) (r : Reader)
    : result (ConstantPool * Reader) :=
  match fuel with
  | 0 => OutOfFuel
  | S fuel =>
      if decide (i < count) then
        '(entry, r) <-? parse_entry r ;;
        entries <-? lift (set_idx entries i (Some entry)) ;;
        if is_wide entry then
          if decide (count <= i + 1) then err (Error.Other "malformed constant pool")
          else parse_loop fuel count (i + 2) entries r
        else parse_loop fuel count (i + 1) entries r
      else ok (entries, r)
  end.

Definition parse (r : Reader) : result (ConstantPool * Reader) :=
  '(n, r) <-? read_u2 r ;;
  let count := N.to_nat n in
  if decide (count = 0) then err (Error.Other "constant_pool_count must be >= 1")
  else parse_loop (S count) count 1 (replicate count None) r.

(** ** Accessors *)

Definition get (pool : ConstantPool) (index : N) : result CpInfo.t :=
  let i := N.to_nat index in
  if decide (i = 0 \/ length pool <= i) then err (Error.InvalidConstantPoolIndex index)
  else
    e <-? lift (idx pool i) ;;
    match e with
    | Some e => ok e
    | None => err (Error.InvalidConstantPoolIndex index)
    end.

Definition get_utf8 (pool : ConstantPool) (index : N) : result str :=
  e <-? get pool index ;;
  match e with
  | CpInfo.Utf8 s => ok s
  | other => err (Error.ConstantPoolTypeMismatch index "Utf8" (CpInfo.kind other))
  end.

Definition get_class_name (pool : ConstantPool) (index : N) : result str :=
  e <-? get pool index ;;
  match e with
  | CpInfo.Class name_index => get_utf8 pool name_index
  | other => err (Error.ConstantPoolTypeMismatch index "Class" (CpInfo.kind other))
  end.

(** ** The references: encoders *)

(** [char::encode_utf16]. *)
Definition encode_utf16 (c : char) : list N :=
  if (c <? 0x10000)%N then [c]
  else [0xD800 + (c - 0x10000) / 0x400; 0xDC00 + (c - 0x10000) mod 0x400]%N.

(** The modified UTF-8 of a code unit: NUL takes two bytes. *)
Definition encode_unit (u : N) : list N :=
  if decide (u = 0%N) then [0xC0; 0x80]%N
  else if (u <? 0x80)%N then [u]
  else if (u <? 0x800)%N then [0xC0 + u / 0x40; 0x80 + u mod 0x40]%N
  else [0xE0 + u / 0x1000; 0x80 + u / 0x40 mod 0x40; 0x80 + u mod 0x40]%N.

Definition encode_modified_utf8 (s : str) : list N :=
  concat (encode_unit <$> concat (encode_utf16 <$> s)).

Definition encode_u2 (n : N) : list N := to_be_bytes 2 n.

Definition encode_entry (e : CpInfo.t) : list N :=
  match e with
  | CpInfo.Utf8 s =>
      1%N :: encode_u2 (N.of_nat (length (encode_modified_utf8 s))) ++ encode_modified_utf8 s
  | CpInfo.Integer n => 3%N :: to_be_bytes 4 (Z.to_N (n mod 2 ^ 32))
  | CpInfo.Float bits => 4%N :: to_be_bytes 4 bits
  | CpInfo.Long n => 5%N :: to_be_bytes 8 (Z.to_N (n mod 2 ^ 64))
  | CpInfo.Double bits => 6%N :: to_be_bytes 8 bits
  | CpInfo.Class a => 7%N :: encode_u2 a
  | CpInfo.String a => 8%N :: encode_u2 a
  | CpInfo.Fieldref a b => 9%N :: encode_u2 a ++ encode_u2 b
  | CpInfo.Methodref a b => 10%N :: encode_u2 a ++ encode_u2 b
  | CpInfo.InterfaceMethodref a b => 11%N :: encode_u2 a ++ encode_u2 b
  | CpInfo.NameAndType a b => 12%N :: encode_u2 a ++ encode_u2 b
  | CpInfo.MethodHandle k i => 15%N :: k :: encode_u2 i
  | CpInfo.MethodType a => 16%N :: encode_u2 a
  | CpInfo.Dynamic a b => 17%N :: encode_u2 a ++ encode_u2 b
  | CpInfo.InvokeDynamic a b => 18%N :: encode_u2 a ++ encode_u2 b
  | CpInfo.Module_ a => 19%N :: encode_u2 a
  | CpInfo.Package a => 20%N :: encode_u2 a
  end.

(** The slots of an entry, and of a pool: eight-byte constants take two (JVMS 4.4.5). *)
Definition entry_slots (e : CpInfo.t) : ConstantPool :=
  match e with
  | CpInfo.Long _ | CpInfo.Double _ => [Some e; None]
  | _ => [Some e]
  end.

Definition pool_slots (es : list CpInfo.t) : ConstantPool :=
  None :: concat (entry_slots <$> es).

Definition encode_pool (es : list CpInfo.t) : list N :=
  encode_u2 (N.of_nat (length (pool_slots es))) ++ concat (encode_entry <$> es).

Lemma entry_slots_wide e : entry_slots e = if is_wide e then [Some e; None] else [Some e].
Proof. by destruct e. Qed.

(** ** Modified UTF-8: what is encoded is decoded *)

(** A property of all the code units, checked by computation. *)
Fixpoint check_from (P : N -> bool) (fuel : nat) (u : N) : bool :=
  match fuel with 0 => true | S fuel => P u && check_from P fuel (N.succ u) end.

Lemma check_from_spec P fuel u x :
  check_from P fuel u = true -> (u <= x < u + N.of_nat fuel)%N -> P x = true.
Proof.
  revert u; induction fuel as [|fuel IH]; intros u Hc Hx; [lia|]. simpl in Hc.
  apply andb_true_iff in Hc as [H1 H2]. destruct (decide (x = u)) as [->|Hne]; [done|].
  apply (IH (N.succ u)); [done|]. lia.
Qed.

(** What the decoder computes from the bytes of a code unit. *)
Definition unit_check (u : N) : bool :=
  if decide (u = 0%N) then true
  else if (u <? 0x80)%N then bool_decide (N.land u 0x80 = 0%N)
  else if (u <? 0x800)%N then
    let b := (0xC0 + u / 0x40)%N in
    let b2 := (0x80 + u mod 0x40)%N in
    bool_decide (N.land b 0x80 <> 0%N) && bool_decide (N.land b 0xE0 = 0xC0%N) &&
    bool_decide (b <> 0xC0%N) && bool_decide (N.land b2 0xC0 = 0x80%N) &&
    bool_decide (N.lor (N.shiftl (N.land b 0x1F) 6) (N.land b2 0x3F) = u)
  else
    let b := (0xE0 + u / 0x1000)%N in
    let b2 := (0x80 + u / 0x40 mod 0x40)%N in
    let b3 := (0x80 + u mod 0x40)%N in
    bool_decide (N.land b 0x80 <> 0%N) && bool_decide (N.land b 0xE0 <> 0xC0%N) &&
    bool_decide (N.land b 0xF0 = 0xE0%N) && bool_decide (N.land b2 0xC0 = 0x80%N) &&
    bool_decide (N.land b3 0xC0 = 0x80%N) &&
    bool_decide (N.lor (N.lor (N.shiftl (N.land b 0x0F) 12) (N.shiftl (N.land b2 0x3F) 6))
                   (N.land b3 0x3F) = u).

Lemma unit_check_all u : (u < 0x10000)%N -> unit_check u = true.
Proof.
  intros Hu. apply (check_from_spec unit_check (N.to_nat 0x10000) 0).
  - vm_compute. reflexivity.
  - rewrite N2Nat.id. lia.
Qed.

Lemma idx_app {A} (pre : list A) x post : idx (pre ++ x :: post) (length pre) = Done x.
Proof. apply idx_Done. by rewrite list_lookup_middle. Qed.

Lemma idx_app_S {A} (pre : list A) x y post : idx (pre ++ x :: y :: post) (length pre + 1) = Done y.
Proof.
  replace (pre ++ x :: y :: post) with ((pre ++ [x]) ++ y :: post) by (by rewrite <-app_assoc).
  replace (length pre + 1) with (length (pre ++ [x])) by (rewrite length_app; simpl; lia).
  apply idx_app.
Qed.

Lemma idx_app_SS {A} (pre : list A) x y z post : idx (pre ++ x :: y :: z :: post) (length pre + 2) = Done z.
Proof.
  replace (pre ++ x :: y :: z :: post) with ((pre ++ [x]) ++ y :: z :: post) by (by rewrite <-app_assoc).
  replace (length pre + 2) with (length (pre ++ [x]) + 1) by (rewrite length_app; simpl; lia).
  apply idx_app_S.
Qed.

(** One code unit. *)
Lemma decode_loop_unit fuel pre u post units :
  (u < 0x10000)%N ->
  decode_loop (S fuel) (pre ++ encode_unit u ++ post) (length pre) units =
  decode_loop fuel (pre ++ encode_unit u ++ post) (length (pre ++ encode_unit u)) (units ++ [u]).
Proof.
  intros Hu. pose proof (unit_check_all u Hu) as Hc. unfold unit_check, encode_unit in *.
  destruct (decide (u = 0%N)) as [->|Hz].
  { simpl. rewrite decide_True by (rewrite length_app; simpl; lia). rewrite idx_app. simpl.
    rewrite decide_False by (rewrite length_app; simpl; lia). rewrite idx_app_S. simpl.
    by rewrite length_app. }
  destruct (u <? 0x80)%N.
  { simpl. rewrite bool_decide_eq_true in Hc.
    rewrite decide_True by (rewrite length_app; simpl; lia). rewrite idx_app. simpl.
    rewrite decide_True by done. by rewrite length_app. }
  destruct (u <? 0x800)%N.
  - cbv zeta in Hc. rewrite !andb_true_iff, !bool_decide_eq_true in Hc.
    destruct Hc as [[[[H1 H2] H3] H4] H5]. cbn [app decode_loop].
    rewrite decide_True by (rewrite length_app; simpl; lia). rewrite idx_app. cbn [lift mbind run_bind try_bind].
    rewrite (decide_False _ _ H1), (decide_True _ _ H2).
    rewrite decide_False by (rewrite length_app; simpl; lia). rewrite idx_app_S. cbn [lift mbind run_bind try_bind].
    rewrite decide_False by tauto. rewrite (decide_True _ _ H4). rewrite H5.
    by rewrite length_app.
  - cbv zeta in Hc. rewrite !andb_true_iff, !bool_decide_eq_true in Hc.
    destruct Hc as [[[[[H1 H2] H3] H4] H5] H6]. cbn [app decode_loop].
    rewrite decide_True by (rewrite length_app; simpl; lia). rewrite idx_app. cbn [lift mbind run_bind try_bind].
    rewrite (decide_False _ _ H1), (decide_False _ _ H2), (decide_True _ _ H3).
    rewrite decide_False by (rewrite length_app; simpl; lia).
    rewrite idx_app_S. cbn [lift mbind run_bind try_bind]. rewrite idx_app_SS. cbn [lift mbind run_bind try_bind].
    rewrite (decide_True _ _ (conj H4 H5)). rewrite H6. by rewrite length_app.
Qed.

Lemma encode_unit_nonempty u : 1 <= length (encode_unit u).
Proof. unfold encode_unit. case_decide; [simpl; lia|]. repeat case_match; simpl; lia. Qed.

Lemma decode_loop_units us fuel pre units :
  Forall (fun u => u < 0x10000)%N us -> length (concat (encode_unit <$> us)) < fuel ->
  decode_loop fuel (pre ++ concat (encode_unit <$> us)) (length pre) units = ok (units ++ us).
Proof.
  intros Hus. revert fuel pre units; induction Hus as [|u us Hu Hus IH]; intros fuel pre units Hf.
  - simpl. rewrite !app_nil_r. destruct fuel as [|fuel]; [simpl in Hf; lia|]. simpl.
    by rewrite decide_False by lia.
  - rewrite fmap_cons in *. change (concat (encode_unit u :: (encode_unit <$> us)))
      with (encode_unit u ++ concat (encode_unit <$> us)) in *.
    rewrite length_app in Hf. pose proof (encode_unit_nonempty u).
    destruct fuel as [|fuel]; [lia|]. rewrite decode_loop_unit by done.
    rewrite app_assoc. rewrite IH by lia. by rewrite <-app_assoc.
Qed.

(** Surrogate pairs are combined to the character they come from. *)
Lemma from_utf16_encode c rest :
  is_scalar c = true ->
  from_utf16_lossy (encode_utf16 c ++ rest) = c :: from_utf16_lossy rest.
Proof.
  intros Hs. unfold is_scalar in Hs. unfold encode_utf16.
  rewrite orb_true_iff, andb_true_iff, !N.ltb_lt, N.leb_le in Hs.
  destruct (N.ltb_spec c 0x10000) as [Hc|Hc]; simpl app.
  - unfold from_utf16_lossy; fold from_utf16_lossy. unfold is_high_surrogate, is_low_surrogate.
    destruct (N.leb_spec 0xD800 c), (N.ltb_spec c 0xDC00), (N.leb_spec 0xDC00 c),
      (N.ltb_spec c 0xE000); simpl; try done; lia.
  - assert (Hx : (c - 0x10000 < 0x100000)%N) by lia.
    assert (Hcx : c = (0x10000 + (c - 0x10000))%N) by lia.
    set (x := (c - 0x10000)%N) in *. clearbody x.
    pose proof (N.div_mod x 0x400 ltac:(done)) as Hdm.
    pose proof (N.mod_lt x 0x400 ltac:(done)) as Hm.
    assert (Hd : (x / 0x400 < 0x400)%N) by (apply N.Div0.div_lt_upper_bound; lia).
    set (q := (x / 0x400)%N) in *. set (m := (x mod 0x400)%N) in *. clearbody q m.
    unfold from_utf16_lossy; fold from_utf16_lossy. unfold is_high_surrogate, is_low_surrogate.
    rewrite (proj2 (N.leb_le 0xD800 (0xD800 + q))) by lia.
    rewrite (proj2 (N.ltb_lt (0xD800 + q) 0xDC00)) by lia. simpl andb. cbv iota.
    rewrite (proj2 (N.leb_le 0xDC00 (0xDC00 + m))) by lia.
    rewrite (proj2 (N.ltb_lt (0xDC00 + m) 0xE000)) by lia. simpl andb. cbv iota.
    f_equal. unfold combine_surrogates. lia.
Qed.

Lemma encode_utf16_units c : is_scalar c = true -> Forall (fun u => u < 0x10000)%N (encode_utf16 c).
Proof.
  intros Hs. unfold is_scalar in Hs. unfold encode_utf16.
  rewrite orb_true_iff, andb_true_iff, !N.ltb_lt, N.leb_le in Hs.
  destruct (N.ltb_spec c 0x10000) as [Hc|Hc]; [by repeat constructor|].
  pose proof (N.mod_lt (c - 0x10000) 0x400 ltac:(done)).
  assert ((c - 0x10000) / 0x400 < 0x400)%N by (apply N.Div0.div_lt_upper_bound; lia).
  repeat constructor; lia.
Qed.

Definition scalar_str (s : str) : Prop := Forall (fun c => is_scalar c = true) s.

Lemma decode_encode_modified_utf8 s :
  scalar_str s -> decode_modified_utf8 (encode_modified_utf8 s) = ok s.
Proof.
  intros Hs. unfold decode_modified_utf8, encode_modified_utf8.
  set (us := concat (encode_utf16 <$> s)).
  assert (Hus : Forall (fun u => u < 0x10000)%N us).
  { unfold us. induction Hs as [|c s Hc Hs IH]; [constructor|].
    rewrite fmap_cons. apply Forall_app. split; [by apply encode_utf16_units|done]. }
  pose proof (decode_loop_units us (S (length (concat (encode_unit <$> us)))) [] [] Hus ltac:(lia)) as Hd.
  simpl app in Hd. change (length (@nil N)) with 0 in Hd. rewrite Hd. cbn [try_bind ok]. do 2 f_equal. unfold us.
  clear us Hus Hd. induction Hs as [|c s Hc Hs IH]; [done|].
  rewrite fmap_cons. change (concat (encode_utf16 c :: (encode_utf16 <$> s)))
    with (encode_utf16 c ++ concat (encode_utf16 <$> s)).
  by rewrite from_utf16_encode, IH.
Qed.

(** ** The decoder and the parser return on every input *)

Lemma wpr_lift_idx {A B} (l : list A) i (f : A -> result B) Q :
  i < length l -> (forall x, l !! i = Some x -> wpr (f x) Q) -> wpr (try_bind (lift (idx l i)) f) Q.
Proof.
  intros [x Hx]%lookup_lt_is_Some Hf. rewrite (proj2 (idx_Done _ _ _) Hx). simpl. by apply Hf.
Qed.

Lemma wpr_decode_loop fuel bytes i units :
  length bytes - i < fuel -> wpr (decode_loop fuel bytes i units) (fun _ => True).
Proof.
  revert i units; induction fuel as [|fuel IH]; intros i units Hf; [lia|]. simpl.
  case_decide as Hi; [|done]. apply wpr_lift_idx; [done|]. intros b Hb.
  repeat first [solve [auto with wpr] | apply IH; lia | apply wpr_lift_idx; [lia|intros ? _] | case_decide].
Qed.

(** Reading leaves the input in place and moves forward. *)
Definition moved (r r' : Reader) : Prop :=
  rd_bytes r' = rd_bytes r /\ rd_pos r <= rd_pos r' /\ small_input r'.

Lemma moved_refl r : small_input r -> moved r r.
Proof. done. Qed.

Lemma moved_advance r n : small_input r -> n <= remaining r -> moved r (advance r n).
Proof. intros Hs Hn. split_and!; [done|simpl; lia|by apply small_advance]. Qed.

Lemma moved_trans r1 r2 r3 : moved r1 r2 -> moved r2 r3 -> moved r1 r3.
Proof. intros (H1 & H2 & H3) (H4 & H5 & H6). split_and!; [congruence|lia|done]. Qed.

Lemma wpr_read_n n r :
  small_input r -> (N.of_nat n < 2 ^ 32)%N -> wpr (read_n n r) (fun '(_, r') => moved r r').
Proof.
  intros Hs Hn. rewrite read_n_spec by done. case_decide; [|apply wpr_err].
  by apply moved_advance.
Qed.

Lemma wpr_read_u1 r : small_input r -> wpr (read_u1 r) (fun '(_, r') => moved r r').
Proof.
  intros Hs. unfold read_u1. destruct (rd_bytes r !! rd_pos r) eqn:E; [|apply wpr_err].
  apply moved_advance; [done|]. apply lookup_lt_Some in E. unfold remaining. lia.
Qed.

Lemma wpr_read_u2 r :
  small_input r -> Forall is_byte (rd_bytes r) ->
  wpr (read_u2 r) (fun '(n, r') => moved r r' /\ (n < 2 ^ 16)%N).
Proof.
  intros Hs Hb. unfold read_u2. rewrite read_n_spec by done. case_decide as Hr; [|apply wpr_err].
  split; [by apply moved_advance|].
  assert (Hl : length (next_bytes r 2) = 2).
  { unfold next_bytes. rewrite length_take, length_drop. unfold remaining in Hr. lia. }
  pose proof (from_be_bytes_bound (next_bytes r 2)) as Hub. rewrite Hl in Hub. apply Hub.
  by apply Forall_take, Forall_drop.
Qed.

(** A step of the parser: read, then go on with the reader that moved. *)
Ltac step_read lem :=
  eapply wpr_seq; [by apply lem|];
  let n := fresh "n" in let r' := fresh "r" in intros [n r'] ?.

Lemma wpr_read_ints r :
  small_input r ->
  wpr (read_u4 r) (fun '(_, r') => moved r r') /\ wpr (read_i4 r) (fun '(_, r') => moved r r') /\
  wpr (read_i8 r) (fun '(_, r') => moved r r').
Proof.
  intros Hs. assert (H4 : wpr (read_u4 r) (fun '(_, r') => moved r r')).
  { unfold read_u4. step_read wpr_read_n. done. }
  split_and!; [done| |].
  - unfold read_i4. eapply wpr_seq; [exact H4|]. by intros [n r'] ?.
  - unfold read_i8. step_read wpr_read_n. done.
Qed.

Lemma wpr_parse_entry r :
  small_input r -> Forall is_byte (rd_bytes r) ->
  wpr (parse_entry r) (fun '(_, r') => moved r r').
Proof.
  intros Hs Hb. unfold parse_entry. eapply wpr_seq; [by apply wpr_read_u1|].
  intros [tag r1] Hm1. pose proof Hm1 as (Hb1 & _ & Hs1). rewrite <-Hb1 in Hb.
  assert (H1 : forall f, wpr ('(a, r) <-? read_u2 r1 ;; ok (f a : CpInfo.t, r)) (fun '(_, r') => moved r r')).
  { intros f. eapply wpr_seq; [by apply wpr_read_u2|].
    intros [a r2] [Hm2 _]. by eapply moved_trans. }
  assert (H2 : forall f, wpr ('(a, r) <-? read_u2 r1 ;; '(b, r) <-? read_u2 r ;; ok (f a b : CpInfo.t, r))
    (fun '(_, r') => moved r r')).
  { intros f. eapply wpr_seq; [by apply wpr_read_u2|].
    intros [a r2] [Hm2 _]. pose proof Hm2 as (Hb2 & _ & Hs2). eapply wpr_seq; [apply wpr_read_u2; [done|by rewrite Hb2]|].
    intros [c r3] [Hm3 _]. eapply moved_trans; [done|]. by eapply moved_trans. }
  assert (H3 : forall A (m : Reader -> result (A * Reader)) (f : A -> CpInfo.t),
    wpr (m r1) (fun '(_, r') => moved r1 r') ->
    wpr ('(a, r) <-? m r1 ;; ok (f a, r)) (fun '(_, r') => moved r r')).
  { intros A m f Hm. eapply wpr_seq; [exact Hm|]. intros [a r2] Hm2.
    by eapply moved_trans. }
  destruct (wpr_read_ints r1 Hs1) as (R4 & Ri4 & R8).
  repeat case_decide; try apply H1; try apply H2; try apply wpr_err;
    try (by apply (H3 _ read_u4)); try (by apply (H3 _ read_i4)); try (by apply (H3 _ read_i8)).
  - eapply wpr_seq; [by apply wpr_read_u2|]. intros [len r2] [Hm2 Hlen].
    pose proof Hm2 as (_ & _ & Hs2). apply wpr_bind.
    rewrite read_bytes_spec by (done || lia). case_decide as Hr; [|apply wpr_err].
    eapply wpr_seq.
    { unfold decode_modified_utf8. eapply wpr_seq; [apply wpr_decode_loop; lia|].
      intros us _. by apply (wpr_ok _ (fun _ => True)). }
    intros s _. eapply moved_trans; [done|]. eapply moved_trans; [done|]. by apply moved_advance.
  - eapply wpr_seq; [by apply wpr_read_u1|]. intros [k r2] Hm2.
    pose proof Hm2 as (Hb2 & _ & Hs2). eapply wpr_seq; [apply wpr_read_u2; [done|by rewrite Hb2]|].
    intros [j r3] [Hm3 _]. eapply moved_trans; [done|]. by eapply moved_trans.
Qed.

(** The slots of a pool: the first is empty, and so is the one after a two-slot entry. *)
Definition pool_ok (pool : list (option CpInfo.t)) (i : nat) : Prop :=
  pool !! 0 = Some None /\
  (forall j e, pool !! j = Some (Some e) -> j < i) /\
  (forall j e, pool !! j = Some (Some e) -> is_wide e = true ->
     S j < length pool /\ S j < i /\ pool !! S j = Some None).

Lemma pool_ok_insert (pool : list (option CpInfo.t)) i e :
  pool_ok pool i -> 0 < i -> (if is_wide e then S i < length pool else i < length pool) ->
  pool_ok (<[i := Some e]> pool) (if is_wide e then i + 2 else i + 1).
Proof.
  intros (H1 & H2 & H3) Hi Hw. split_and!.
  - rewrite list_lookup_insert_ne by lia. done.
  - intros j e' [(<- & _ & _)|[_ Hj]]%list_lookup_insert_Some; [destruct (is_wide e); lia|].
    apply H2 in Hj. destruct (is_wide e); lia.
  - rewrite length_insert. intros j e' [(<- & [= <-] & _)|[Hne Hj]]%list_lookup_insert_Some Hwide.
    + rewrite Hwide in *. rewrite list_lookup_insert_ne by lia. split_and!; [lia..|].
      destruct (lookup_lt_is_Some_2 pool (S i)) as [[x|] Hx]; [lia| |done].
      specialize (H2 _ _ Hx). lia.
    + destruct (H3 j e' Hj Hwide) as (? & ? & ?). split_and!; [done|destruct (is_wide e); lia|].
      rewrite list_lookup_insert_ne by lia. done.
Qed.

Lemma wpr_parse_loop fuel count i entries r :
  count - i < fuel -> 0 < i -> length entries = count -> small_input r ->
  Forall is_byte (rd_bytes r) -> pool_ok entries i ->
  wpr (parse_loop fuel count i entries r)
      (fun '(pool, r') => moved r r' /\ length pool = count /\ exists j, pool_ok pool j).
Proof.
  revert i entries r; induction fuel as [|fuel IH]; intros i entries r Hf Hi Hl Hs Hb Hp; [lia|].
  simpl. case_decide as Hlt; [|split_and!; [by apply moved_refl|done|by exists i]]. eapply wpr_seq; [by apply wpr_parse_entry|]. intros [e r1] Hm. pose proof Hm as (Hb1 & _ & Hs1).
  unfold set_idx. rewrite decide_True by lia. simpl.
  assert (Hgo : forall k, k = (if is_wide e then i + 2 else i + 1) ->
    (if is_wide e then S i < length entries else i < length entries) ->
    wpr (parse_loop fuel count k (<[i := Some e]> entries) r1)
      (fun '(pool, r') => moved r r' /\ length pool = count /\ exists j, pool_ok pool j)).
  { intros k -> Hw. eapply wpr_mono.
    - apply IH; [destruct (is_wide e); lia|destruct (is_wide e); lia|by rewrite length_insert|done
        |by rewrite Hb1|by apply pool_ok_insert].
    - intros [pool r2] (Hm2 & Hl2 & Hok). split_and!; [by eapply moved_trans|done..]. }
  destruct (is_wide e); [case_decide; [apply wpr_err|]|]; apply Hgo; (done || lia).
Qed.

Lemma wpr_parse r :
  small_input r -> Forall is_byte (rd_bytes r) ->
  wpr (parse r) (fun '(pool, r') => moved r r' /\ 0 < length pool < 2 ^ 16 /\ exists j, pool_ok pool j).
Proof.
  intros Hs Hb. unfold parse. eapply wpr_seq; [by apply wpr_read_u2|].
  intros [n r1] [Hm Hn]. pose proof Hm as (Hb1 & _ & Hs1). case_decide as Hc; [apply wpr_err|].
  eapply wpr_mono.
  - apply wpr_parse_loop; [lia..|by rewrite length_replicate|done|by rewrite Hb1|].
    split_and!.
    + apply lookup_replicate_2. lia.
    + intros j e [? _]%lookup_replicate_1. done.
    + intros j e [? _]%lookup_replicate_1. done.
  - intros [pool r2] (Hm2 & Hl & Hok). split_and!; [by eapply moved_trans|lia| |done].
    rewrite Hl. change (2 ^ 16) with (N.to_nat (2 ^ 16)). lia.
Qed.

(** ** What is written is read back *)

(** The bytes [l] are next in the input. *)
Definition ahead (r : Reader) (l : list N) : Prop := drop (rd_pos r) (rd_bytes r) = l.

(** [c], started at [r], returns [x] and stops before [post]. *)
Definition yields {A} (c : result (A * Reader)) (r : Reader) (x : A) (post : list N) : Prop :=
  exists r', c = ok (x, r') /\ moved r r' /\ ahead r' post.

(** [m] reads [x] from the bytes [l], whatever follows them. *)
Definition reads {A} (m : Reader -> result (A * Reader)) (l : list N) (x : A) : Prop :=
  forall r post, small_input r -> ahead r (l ++ post) -> yields (m r) r x post.

Lemma yields_bind {A B} (m : Reader -> result (A * Reader)) l x (k : A * Reader -> result (B * Reader))
    r y rest post :
  reads m l x -> small_input r -> ahead r (l ++ rest) ->
  (forall r', small_input r' -> ahead r' rest -> yields (k (x, r')) r' y post) ->
  yields (try_bind (m r) k) r y post.
Proof.
  intros Hm Hs Ha Hk. destruct (Hm r rest Hs Ha) as (r1 & -> & Hmv & Ha1).
  destruct (Hk r1 ltac:(apply Hmv) Ha1) as (r2 & He & Hmv2 & Ha2).
  exists r2. split_and!; [done|by eapply moved_trans|done].
Qed.

Lemma yields_ok {A} (x : A) r post : small_input r -> ahead r post -> yields (ok (x, r)) r x post.
Proof. intros Hs Ha. exists r. split_and!; [done|by apply moved_refl|done]. Qed.

Lemma ahead_take r l post :
  ahead r (l ++ post) -> length l <= remaining r /\ next_bytes r (length l) = l /\
  ahead (advance r (length l)) post.
Proof.
  unfold ahead, next_bytes, remaining. simpl. intros Ha. split_and!.
  - rewrite <-length_drop, Ha, length_app. lia.
  - rewrite Ha. by apply take_app_length.
  - rewrite <-drop_drop, Ha. by apply drop_app_length.
Qed.

Lemma reads_bytes l : (N.of_nat (length l) < 2 ^ 32)%N -> reads (fun r => read_bytes r (length l)) l l.
Proof.
  intros Hl r post Hs Ha. rewrite read_bytes_spec by done.
  destruct (ahead_take _ _ _ Ha) as (Hr & Hn & Ha'). rewrite decide_True by done.
  rewrite Hn. exists (advance r (length l)). split_and!; [done|by apply moved_advance|done].
Qed.

Lemma reads_n k l : length l = k -> (N.of_nat k < 2 ^ 32)%N -> reads (read_n k) l l.
Proof.
  intros <- Hl r post Hs Ha. rewrite read_n_spec by done.
  destruct (ahead_take _ _ _ Ha) as (Hr & Hn & Ha'). rewrite decide_True by done.
  rewrite Hn. exists (advance r (length l)). split_and!; [done|by apply moved_advance|done].
Qed.

Lemma reads_u1 b : reads read_u1 [b] b.
Proof.
  intros r post Hs Ha. destruct (ahead_take r [b] post Ha) as (Hr & _ & Ha').
  unfold read_u1. assert (Hl : rd_bytes r !! rd_pos r = Some b).
  { rewrite <-(Nat.add_0_r (rd_pos r)), <-lookup_drop. unfold ahead in Ha. by rewrite Ha. }
  rewrite Hl. exists (advance r 1). split_and!; [done|by apply moved_advance|done].
Qed.

Lemma reads_be k n :
  (N.of_nat k < 2 ^ 32)%N -> reads (read_n k) (to_be_bytes k n) (to_be_bytes k n).
Proof. intros Hk. apply reads_n; [apply length_to_be_bytes|done]. Qed.

Lemma reads_map {A B} (m : Reader -> result (A * Reader)) l x (f : A -> B) y :
  reads m l x -> f x = y -> reads (fun r => '(a, r) <-? m r ;; ok (f a, r)) l y.
Proof.
  intros Hm <- r post Hs Ha. eapply yields_bind; [done..|]. intros r' Hs' Ha'.
  by apply yields_ok.
Qed.

Lemma reads_u2 n : (n < 2 ^ 16)%N -> reads read_u2 (encode_u2 n) n.
Proof. intros Hn. eapply reads_map; [by apply reads_be|]. by apply (from_to_be_bytes 2). Qed.

Lemma reads_u4 n : (n < 2 ^ 32)%N -> reads read_u4 (to_be_bytes 4 n) n.
Proof. intros Hn. eapply reads_map; [by apply reads_be|]. by apply (from_to_be_bytes 4). Qed.

(** Two's complement. *)
Definition in_signed (w n : Z) : Prop := (- 2 ^ (w - 1) <= n < 2 ^ (w - 1))%Z.

Lemma to_signed_wrap w n :
  (0 < w)%N -> in_signed (Z.of_N w) n -> to_signed w (Z.to_N (n mod 2 ^ Z.of_N w)) = n.
Proof.
  intros Hw [H1 H2]. unfold to_signed.
  assert (Hp : (2 ^ Z.of_N w = 2 * 2 ^ (Z.of_N w - 1))%Z).
  { rewrite <-Z.pow_succ_r by lia. f_equal. lia. }
  assert (Hm : (Z.of_N (2 ^ (w - 1)) = 2 ^ (Z.of_N w - 1))%Z).
  { rewrite N2Z.inj_pow. f_equal. lia. }
  destruct (Z.ltb_spec n 0) as [Hn|Hn].
  - replace (n mod 2 ^ Z.of_N w)%Z with (n + 2 ^ Z.of_N w)%Z.
    + rewrite (proj2 (N.ltb_ge _ _)) by lia. rewrite Z2N.id by lia. lia.
    + apply (Z.mod_unique _ _ (-1)); lia.
  - rewrite Z.mod_small by lia. rewrite (proj2 (N.ltb_lt _ _)) by lia. lia.
Qed.

Lemma as_u64_to_signed n : (n < 2 ^ 64)%N -> as_u64 (to_signed 64 n) = n.
Proof.
  intros Hn. unfold as_u64, to_signed.
  assert (Hn' : (Z.of_N n < 2 ^ 64)%Z) by (change (2 ^ 64)%Z with (Z.of_N (2 ^ 64)); lia).
  destruct (n <? 2 ^ (64 - 1))%N; [rewrite Z.mod_small by lia; lia|].
  rewrite <-(Z.mod_unique (Z.of_N n - 2 ^ Z.of_N 64) (2 ^ 64) (-1) (Z.of_N n)); lia.
Qed.

Lemma as_u64_bound n : (as_u64 n < 2 ^ 64)%N.
Proof.
  unfold as_u64. pose proof (Z.mod_pos_bound n (2 ^ 64) ltac:(done)) as [H1 H2].
  apply N2Z.inj_lt. rewrite Z2N.id by done. exact H2.
Qed.

Lemma reads_i4 n : in_signed 32 n -> reads read_i4 (to_be_bytes 4 (Z.to_N (n mod 2 ^ 32))) n.
Proof.
  intros Hn. unfold read_i4. eapply reads_map; [|by apply (to_signed_wrap 32)].
  apply reads_u4. pose proof (Z.mod_pos_bound n (2 ^ 32) ltac:(done)) as [H1 H2].
  apply N2Z.inj_lt. rewrite Z2N.id by done. exact H2.
Qed.

Lemma reads_i8_bits n : (n < 2 ^ 64)%N -> reads read_i8 (to_be_bytes 8 n) (to_signed 64 n).
Proof.
  intros Hn. unfold read_i8. apply (reads_map _ _ (to_be_bytes 8 n)); [by apply reads_be|].
  by rewrite (from_to_be_bytes 8).
Qed.

(** The entries a class file can hold: the integers have their width. *)
Definition is_u2 (n : N) : Prop := (n < 2 ^ 16)%N.

Definition wf_entry (e : CpInfo.t) : Prop :=
  match e with
  | CpInfo.Utf8 s => scalar_str s /\ is_u2 (N.of_nat (length (encode_modified_utf8 s)))
  | CpInfo.Integer n => in_signed 32 n
  | CpInfo.Float bits => (bits < 2 ^ 32)%N
  | CpInfo.Long n => in_signed 64 n
  | CpInfo.Double bits => (bits < 2 ^ 64)%N
  | CpInfo.Class a | CpInfo.String a | CpInfo.MethodType a | CpInfo.Module_ a
  | CpInfo.Package a => is_u2 a
  | CpInfo.Fieldref a b | CpInfo.Methodref a b | CpInfo.InterfaceMethodref a b
  | CpInfo.NameAndType a b | CpInfo.Dynamic a b | CpInfo.InvokeDynamic a b => is_u2 a /\ is_u2 b
  | CpInfo.MethodHandle k i => is_byte k /\ is_u2 i
  end.

Lemma reads_one_index (f : N -> CpInfo.t) a :
  is_u2 a -> reads (fun r => '(a, r) <-? read_u2 r ;; ok (f a, r)) (encode_u2 a) (f a).
Proof. intros Ha. eapply reads_map; [by apply reads_u2|done]. Qed.

Lemma reads_two_indices (f : N -> N -> CpInfo.t) a b :
  is_u2 a /\ is_u2 b ->
  reads (fun r => '(a, r) <-? read_u2 r ;; '(b, r) <-? read_u2 r ;; ok (f a b, r))
    (encode_u2 a ++ encode_u2 b) (f a b).
Proof.
  intros [Ha Hb] r post Hs Hr. rewrite <-app_assoc in Hr.
  eapply yields_bind; [by apply (reads_u2 a)|done..|]. intros r1 Hs1 Hr1. cbv beta iota.
  by apply (reads_map _ _ _ (f a) _ (reads_u2 b Hb) eq_refl).
Qed.

Lemma reads_utf8 s :
  wf_entry (CpInfo.Utf8 s) ->
  reads (fun r =>
    '(len, r) <-? read_u2 r ;;
    '(bytes, r) <-? read_bytes r (N.to_nat len) ;;
    s <-? decode_modified_utf8 bytes ;;
    ok (CpInfo.Utf8 s, r))
    (encode_u2 (N.of_nat (length (encode_modified_utf8 s))) ++ encode_modified_utf8 s)
    (CpInfo.Utf8 s).
Proof.
  intros [Hs Hl] r post Hr Ha. rewrite <-app_assoc in Ha.
  eapply yields_bind; [by apply reads_u2|done..|]. intros r1 Hr1 Ha1. cbv beta iota.
  rewrite Nat2N.id. eapply (yields_bind (fun r => read_bytes r _)); [apply reads_bytes|done..|].
  - unfold is_u2 in Hl. assert (2 ^ 16 < 2 ^ 32)%N by done. lia.
  - intros r2 Hr2 Ha2. cbv beta iota. rewrite decode_encode_modified_utf8 by done. by apply yields_ok.
Qed.

Lemma reads_entry e : wf_entry e -> reads parse_entry (encode_entry e) e.
Proof.
  intros Hw r post Hs Ha. unfold parse_entry. destruct e; cbn [encode_entry app] in Ha;
    (eapply yields_bind; [apply reads_u1|done|exact Ha|]); clear r Hs Ha; intros r Hs Ha; cbv zeta beta iota;
    repeat first [rewrite decide_False by done | rewrite decide_True by done];
    try (by apply reads_one_index); try (by apply reads_two_indices).
  - by apply reads_utf8.
  - by apply (reads_map _ _ _ _ _ (reads_i4 _ Hw) eq_refl).
  - by apply (reads_map _ _ _ _ _ (reads_u4 _ Hw) eq_refl).
  - apply (reads_map _ _ _ CpInfo.Long _ (reads_i8_bits _ (as_u64_bound n))); [|done..].
    f_equal. by apply (to_signed_wrap 64).
  - apply (reads_map _ _ _ (fun n => CpInfo.Double (as_u64 n)) _ (reads_i8_bits _ Hw)); [|done..].
    f_equal. by apply as_u64_to_signed.
  - destruct Hw as [_ Hi]. eapply yields_bind; [apply reads_u1|done|exact Ha|].
    intros r1 Hs1 Ha1. cbv beta iota. by apply reads_one_index.
Qed.

(** The loop fills the slots from left to right. *)
Lemma reads_loop es pre fuel :
  Forall wf_entry es -> length (concat (entry_slots <$> es)) < fuel ->
  reads (parse_loop fuel (length pre + length (concat (entry_slots <$> es))) (length pre)
           (pre ++ replicate (length (concat (entry_slots <$> es))) None))
    (concat (encode_entry <$> es)) (pre ++ concat (entry_slots <$> es)).
Proof.
  intros Hes. revert pre fuel; induction Hes as [|e es He Hes IH]; intros pre fuel Hf r post Hs Ha.
  - destruct fuel as [|fuel]; [simpl in Hf; lia|]. simpl. rewrite decide_False by lia.
    by apply yields_ok.
  - rewrite !fmap_cons in *. cbn [concat] in *. rewrite <-app_assoc in Ha.
    rewrite length_app in *.
    assert (Hsl : length (entry_slots e) = if is_wide e then 2 else 1)
      by (rewrite entry_slots_wide; by destruct (is_wide e)).
    destruct fuel as [|fuel]; [lia|]. simpl. rewrite decide_True by (destruct (is_wide e); lia).
    eapply yields_bind; [by apply reads_entry|done..|]. intros r1 Hs1 Ha1. cbv beta iota.
    unfold set_idx. rewrite decide_True
      by (rewrite length_app, length_replicate; destruct (is_wide e); lia). cbn [lift mbind run_bind try_bind].
    specialize (IH (pre ++ entry_slots e) fuel). rewrite length_app in IH.
    rewrite <-!app_assoc, Hsl in IH. rewrite Nat.add_assoc, Hsl. rewrite !entry_slots_wide in *.
    rewrite insert_app_r_alt, Nat.sub_diag by lia. cbn [concat].
    destruct (is_wide e).
    + rewrite decide_False by lia. apply IH; [lia|done..].
    + apply IH; [lia|done..].
Qed.

Lemma reads_pool es :
  Forall wf_entry es -> is_u2 (N.of_nat (length (pool_slots es))) ->
  reads parse (encode_pool es) (pool_slots es).
Proof.
  intros Hes Hl r post Hs Ha. unfold encode_pool in Ha. rewrite <-app_assoc in Ha.
  unfold parse. eapply yields_bind; [by apply reads_u2|done..|]. intros r1 Hs1 Ha1. cbv beta iota zeta.
  rewrite Nat2N.id. unfold pool_slots in *. rewrite decide_False by done.
  apply (reads_loop es [None]); [done|simpl; lia|done..].
Qed.

(** [get] reads the slot; the slot 0 is never filled. *)
Lemma get_slot (pool : list (option CpInfo.t)) index :
  pool !! 0 = Some None ->
  get pool index =
  match pool !! N.to_nat index with
  | Some (Some e) => ok e
  | _ => err (Error.InvalidConstantPoolIndex index)
  end.
Proof.
  intros H0. unfold get. case_decide as Hi.
  - destruct Hi as [Hi|Hi]; [by rewrite Hi, H0|]. by rewrite (lookup_ge_None_2 _ _ Hi).
  - destruct (lookup_lt_is_Some_2 pool (N.to_nat index)) as [o Ho]; [lia|].
    rewrite (proj2 (idx_Done _ _ _) Ho). rewrite Ho. by destruct o.
Qed.

(** ** Theorems *)

(** [decode_modified_utf8] reads back every string written in the modified UTF-8 of class
    files: NUL in two bytes, the characters above U+FFFF as two surrogates of three bytes
    each. *)
Theorem modified_utf8_roundtrip s :
  scalar_str s -> decode_modified_utf8 (encode_modified_utf8 s) = ok s.
Proof. apply decode_encode_modified_utf8. Qed.

(** [ConstantPool::parse] reads back every constant pool: of an input that holds a pool
    with the entries [es] it consumes exactly the pool's bytes and returns the entries at
    their indices, with the slot 0 and the slot after each [Long] and [Double] empty. *)
Theorem pool_roundtrip pre es post :
  Forall wf_entry es -> is_u2 (N.of_nat (length (pool_slots es))) ->
  (N.of_nat (length (pre ++ encode_pool es ++ post)) < 2 ^ 63)%N ->
  parse (mkReader (pre ++ encode_pool es ++ post) (length pre)) =
  ok (pool_slots es,
      mkReader (pre ++ encode_pool es ++ post) (length pre + length (encode_pool es))).
Proof.
  intros Hes Hl Hs. set (bytes := pre ++ encode_pool es ++ post).
  assert (Hlen : length bytes = length pre + length (encode_pool es) + length post)
    by (unfold bytes; rewrite !length_app; lia).
  destruct (reads_pool es Hes Hl (mkReader bytes (length pre)) post) as (r' & -> & Hmv & Ha).
  - split; [done|simpl; lia].
  - apply drop_app_length.
  - destruct Hmv as (Hb & _ & _ & Hp). destruct r' as [b' p]; simpl in *; subst b'.
    unfold ahead in Ha; simpl in Ha. apply (f_equal length) in Ha. rewrite length_drop in Ha.
    do 3 f_equal. lia.
Qed.

(** On any bytes, [ConstantPool::parse] returns (no index or slice panics, the loops
    end).  A pool it accepts has between 1 and 65535 slots, the slot 0 is empty, and the slot
    after a two-slot entry exists and is empty; [get] then returns the entry of a filled slot
    and [InvalidConstantPoolIndex] for every other index. *)
Theorem parse_total r :
  small_input r -> Forall is_byte (rd_bytes r) ->
  exists res, parse r = Done res /\
  forall pool r', res = inr (pool, r') ->
    rd_bytes r' = rd_bytes r /\ rd_pos r <= rd_pos r' <= length (rd_bytes r) /\
    (0 < length pool)%nat /\ is_u2 (N.of_nat (length pool)) /\
    (forall j e, pool !! j = Some (Some e) ->
       0 < j /\ (is_wide e = true -> pool !! S j = Some None)) /\
    (forall index, get pool index =
       match pool !! N.to_nat index with
       | Some (Some e) => ok e
       | _ => err (Error.InvalidConstantPoolIndex index)
       end).
Proof.
  intros Hs Hb. pose proof (wpr_parse r Hs Hb) as Hw.
  destruct (parse r) as [res| |]; [|done..]. exists res. split; [done|]. intros pool r' ->.
  destruct Hw as ((H1 & H2 & H3) & (H4 & H5) & j & H6 & H7 & H8).
  split_and!; [done|done|rewrite <-H1; apply H3|done| | |].
  - unfold is_u2. change (2 ^ 16) with (N.to_nat (2 ^ 16)) in H5. lia.
  - intros k e Hk. split.
    + destruct k; [by pose proof (eq_trans (eq_sym H6) Hk)|lia].
    + intros Hwide. apply (H8 _ _ Hk Hwide).
  - intros index. by apply get_slot.
Qed.

(** ** Witnesses *)

(** "a", NUL, e acute, the euro sign and U+1D11E. *)
Definition sample_str : str := [0x61; 0; 0xE9; 0x20AC; 0x1D11E]%N.

Definition sample_entries : list CpInfo.t :=
  [CpInfo.Class 2; CpInfo.Utf8 sample_str; CpInfo.Long (-5); CpInfo.NameAndType 2 2]%N.

Lemma modified_utf8_roundtrip_witness :
  decode_modified_utf8 [0x61; 0xC0; 0x80; 0xC3; 0xA9; 0xE2; 0x82; 0xAC;
                        0xED; 0xA0; 0xB4; 0xED; 0xB4; 0x9E]%N = ok sample_str.
Proof. apply (modified_utf8_roundtrip sample_str). by repeat constructor. Defined.

Lemma sample_entries_wf : Forall wf_entry sample_entries.
Proof.
  repeat constructor; try done; try (by unfold is_u2); simpl; unfold in_signed; lia.
Qed.

Lemma pool_roundtrip_witness :
  parse (mkReader ([0xCA] ++ encode_pool sample_entries ++ [0])%N 1) =
  ok (pool_slots sample_entries,
      mkReader ([0xCA] ++ encode_pool sample_entries ++ [0])%N
        (1 + length (encode_pool sample_entries))).
Proof.
  apply (pool_roundtrip [0xCA]%N sample_entries [0]%N);
    [apply sample_entries_wf|vm_compute; reflexivity..].
Defined.

Lemma parse_total_witness :
  exists res, parse (mkReader [0; 2; 7; 0]%N 0) = Done res.
Proof.
  destruct (parse_total (mkReader [0; 2; 7; 0]%N 0)) as (res & H & _).
  - split; [done|simpl; lia].
  - by repeat constructor.
  - by exists res.
Defined.
