(* ===== verification/ModifiedUtf8.v ===== *)
(** * Modified UTF-8

    What the bytes of a [CONSTANT_Utf8] stand for, apart from the decoder: [Units] are the UTF-16 code
    units of JVMS 4.4.7, one, two or three bytes each (longer encodings than necessary included),
    and [Chars] the characters of these, where a surrogate without its partner is a replacement
    character.  The decoder of ConstantPool.v accepts exactly these bytes, for these characters. *)

From stdpp Require Import base list numbers strings option.
From S2P Require Import Prelude Str ClassReader ConstantPool.

Local Open Scope N_scope.

Inductive Units : list N -> list N -> Prop :=
| units_nil : Units [] []
| units_one u us bs : u < 0x80 -> Units us bs -> Units (u :: us) (u :: bs)
| units_two h l us bs : h < 0x20 -> l < 0x40 -> Units us bs ->
    Units (h * 0x40 + l :: us) (0xC0 + h :: 0x80 + l :: bs)
| units_three h m l us bs : h < 0x10 -> m < 0x40 -> l < 0x40 -> Units us bs ->
    Units (h * 0x1000 + m * 0x40 + l :: us) (0xE0 + h :: 0x80 + m :: 0x80 + l :: bs).

Inductive Chars : list N -> str -> Prop :=
| chars_nil : Chars [] []
| chars_plain u us s : u < 0xD800 \/ 0xE000 <= u -> Chars us s -> Chars (u :: us) (u :: s)
| chars_pair h l us s : h < 0x400 -> l < 0x400 -> Chars us s ->
    Chars (0xD800 + h :: 0xDC00 + l :: us) (0x10000 + h * 0x400 + l :: s)
| chars_high h us s : h < 0x400 -> (forall l, l < 0x400 -> head us <> Some (0xDC00 + l)) -> Chars us s ->
    Chars (0xD800 + h :: us) (0xFFFD :: s)
| chars_low l us s : l < 0x400 -> Chars us s -> Chars (0xDC00 + l :: us) (0xFFFD :: s).

(** The bytes [text] stand for the string [s]. *)
Definition modified_utf8 (text : list N) (s : str) : Prop := exists us, Units us text /\ Chars us s.

(** ** Code units *)

Lemma is_high_iff u : is_high_surrogate u = true <-> exists h, h < 0x400 /\ u = 0xD800 + h.
Proof.
  unfold is_high_surrogate. rewrite andb_true_iff, N.leb_le, N.ltb_lt. split.
  - intros ?. exists (u - 0xD800). lia.
  - intros (h & ? & ->). lia.
Qed.

Lemma is_low_iff u : is_low_surrogate u = true <-> exists l, l < 0x400 /\ u = 0xDC00 + l.
Proof.
  unfold is_low_surrogate. rewrite andb_true_iff, N.leb_le, N.ltb_lt. split.
  - intros ?. exists (u - 0xDC00). lia.
  - intros (l & ? & ->). lia.
Qed.

Lemma high_not_low h : h < 0x400 -> is_low_surrogate (0xD800 + h) = false.
Proof. intros Hh. apply not_true_iff_false. rewrite is_low_iff. intros (l & ? & ?). lia. Qed.

Lemma low_not_high l : l < 0x400 -> is_high_surrogate (0xDC00 + l) = false.
Proof. intros Hl. apply not_true_iff_false. rewrite is_high_iff. intros (h & ? & ?). lia. Qed.

Lemma from_utf16_cons u us :
  from_utf16_lossy (u :: us) =
  if is_high_surrogate u then
    match us with
    | lo :: us' => if is_low_surrogate lo then combine_surrogates u lo :: from_utf16_lossy us'
                   else 0xFFFD :: from_utf16_lossy us
    | [] => [0xFFFD]
    end
  else if is_low_surrogate u then 0xFFFD :: from_utf16_lossy us else u :: from_utf16_lossy us.
Proof. done. Qed.

Lemma chars_decode us s : Chars us s -> from_utf16_lossy us = s.
Proof.
  induction 1 as [|u us s Hu _ IH|h l us s Hh Hl _ IH|h us s Hh Hnl _ IH|l us s Hl _ IH]; [done|..]; rewrite from_utf16_cons.
  - destruct (is_high_surrogate u) eqn:E1; [apply is_high_iff in E1 as (? & ? & ?); lia|].
    destruct (is_low_surrogate u) eqn:E2; [apply is_low_iff in E2 as (? & ? & ?); lia|]. by rewrite IH.
  - rewrite (proj2 (is_high_iff _)) by eauto. rewrite (proj2 (is_low_iff _)) by eauto. rewrite IH.
    f_equal. unfold combine_surrogates. lia.
  - rewrite (proj2 (is_high_iff _)) by eauto. destruct us as [|lo us]; [by rewrite <-IH|].
    destruct (is_low_surrogate lo) eqn:E; [|by rewrite IH].
    apply is_low_iff in E as (l & Hl & ->). by destruct (Hnl l Hl).
  - rewrite low_not_high, (proj2 (is_low_iff _)) by eauto. by rewrite IH.
Qed.

Lemma decode_chars us : Chars us (from_utf16_lossy us).
Proof.
  remember (length us) as n eqn:Hn. revert us Hn. induction (Nat.lt_wf_0 n) as [n _ IH]. intros [|u us] ->; [constructor|].
  assert (IHl : forall us', (length us' <= length us)%nat -> Chars us' (from_utf16_lossy us')).
  { intros us' Hl. eapply IH; [|done]. simpl. lia. }
  rewrite from_utf16_cons. destruct (is_high_surrogate u) eqn:E1.
  - apply is_high_iff in E1 as (h & Hh & ->). destruct us as [|lo us].
    { apply chars_high; [done|done|constructor]. }
    destruct (is_low_surrogate lo) eqn:E2.
    + apply is_low_iff in E2 as (l & Hl & ->).
      replace (combine_surrogates (0xD800 + h) (0xDC00 + l)) with (0x10000 + h * 0x400 + l) by (unfold combine_surrogates; lia).
      apply chars_pair; [done..|]. apply IHl. simpl. lia.
    + apply chars_high; [done| |by apply IHl]. intros l Hl [= ->].
      rewrite (proj2 (is_low_iff _)) in E2 by eauto. done.
  - destruct (is_low_surrogate u) eqn:E2.
    + apply is_low_iff in E2 as (l & Hl & ->). apply chars_low; [done|by apply IHl].
    + apply chars_plain; [|by apply IHl]. destruct (N.lt_ge_cases u 0xD800) as [|H1]; [by left|]. right.
      destruct (N.lt_ge_cases u 0xE000) as [H2|]; [|done]. exfalso.
      destruct (N.lt_ge_cases u 0xDC00) as [H3|H3].
      * rewrite (proj2 (is_high_iff u)) in E1; [done|]. exists (u - 0xD800). lia.
      * rewrite (proj2 (is_low_iff u)) in E2; [done|]. exists (u - 0xDC00). lia.
Qed.

Lemma chars_iff us s : Chars us s <-> from_utf16_lossy us = s.
Proof. split; [apply chars_decode|]. intros <-. apply decode_chars. Qed.

(** ** Bytes *)

(** The four kinds of bytes, by the bits the decoder tests. *)
Definition byte_check (b : N) : bool :=
  bool_decide (N.land b 0x80 = 0 <-> b < 0x80) &&
  bool_decide (N.land b 0xE0 = 0xC0 <-> 0xC0 <= b < 0xE0) &&
  bool_decide (N.land b 0xF0 = 0xE0 <-> 0xE0 <= b < 0xF0) &&
  bool_decide (N.land b 0xC0 = 0x80 <-> 0x80 <= b < 0xC0).

Lemma byte_kinds b : is_byte b ->
  (N.land b 0x80 = 0 <-> b < 0x80) /\ (N.land b 0xE0 = 0xC0 <-> 0xC0 <= b < 0xE0) /\
  (N.land b 0xF0 = 0xE0 <-> 0xE0 <= b < 0xF0) /\ (N.land b 0xC0 = 0x80 <-> 0x80 <= b < 0xC0).
Proof.
  intros Hb. assert (Hc : byte_check b = true).
  { apply (check_from_spec byte_check 256 0); [vm_compute; reflexivity|]. unfold is_byte in Hb. lia. }
  unfold byte_check in Hc. rewrite !andb_true_iff, !bool_decide_eq_true in Hc. tauto.
Qed.

(** The bits of the bytes of a code unit, put together. *)
Definition bits_check (u : N) : bool :=
  let h := u / 0x1000 in
  let m := u / 0x40 mod 0x40 in
  let l := u mod 0x40 in
  bool_decide (N.lor (N.lor (N.shiftl (N.land (0xE0 + h) 0x0F) 12) (N.shiftl (N.land (0x80 + m) 0x3F) 6))
                 (N.land (0x80 + l) 0x3F) = u) &&
  (if u <? 0x800 then bool_decide (N.lor (N.shiftl (N.land (0xC0 + m) 0x1F) 6) (N.land (0x80 + l) 0x3F) = u) else true).

Lemma bits_all u : u < 0x10000 -> bits_check u = true.
Proof.
  intros Hu. apply (check_from_spec bits_check (N.to_nat 0x10000) 0); [vm_compute; reflexivity|].
  rewrite N2Nat.id. lia.
Qed.

Lemma div_mod_small q b r : r < b -> (q * b + r) / b = q /\ (q * b + r) mod b = r.
Proof.
  intros Hr. split.
  - rewrite N.div_add_l, N.div_small by lia. lia.
  - rewrite N.add_comm, N.Div0.mod_add. by apply N.mod_small.
Qed.

Lemma three_bits h m l : h < 0x10 -> m < 0x40 -> l < 0x40 ->
  N.lor (N.lor (N.shiftl (N.land (0xE0 + h) 0x0F) 12) (N.shiftl (N.land (0x80 + m) 0x3F) 6)) (N.land (0x80 + l) 0x3F) =
  h * 0x1000 + m * 0x40 + l.
Proof.
  intros Hh Hm Hl. pose proof (bits_all (h * 0x1000 + m * 0x40 + l) ltac:(lia)) as Hc.
  unfold bits_check in Hc. cbv zeta in Hc. apply andb_true_iff in Hc as [Hc _]. apply bool_decide_eq_true in Hc.
  replace (h * 0x1000 + m * 0x40 + l) with ((h * 0x40 + m) * 0x40 + l) in Hc at 2 3 by lia.
  rewrite <-N.add_assoc in Hc at 1. rewrite (proj1 (div_mod_small h 0x1000 (m * 0x40 + l) ltac:(lia))) in Hc.
  rewrite (proj1 (div_mod_small (h * 0x40 + m) 0x40 l Hl)), (proj2 (div_mod_small (h * 0x40 + m) 0x40 l Hl)) in Hc.
  by rewrite (proj2 (div_mod_small h 0x40 m Hm)) in Hc.
Qed.

Lemma two_bits h l : h < 0x20 -> l < 0x40 ->
  N.lor (N.shiftl (N.land (0xC0 + h) 0x1F) 6) (N.land (0x80 + l) 0x3F) = h * 0x40 + l.
Proof.
  intros Hh Hl. pose proof (bits_all (h * 0x40 + l) ltac:(lia)) as Hc.
  unfold bits_check in Hc. cbv zeta in Hc. apply andb_true_iff in Hc as [_ Hc].
  rewrite (proj2 (N.ltb_lt _ _)) in Hc by lia. apply bool_decide_eq_true in Hc.
  rewrite (proj1 (div_mod_small h 0x40 l Hl)), (proj2 (div_mod_small h 0x40 l Hl)) in Hc.
  by rewrite (N.mod_small h 0x40) in Hc by lia.
Qed.

(** ** The decoder *)

Lemma Units_cons b bs us : Units us (b :: bs) <->
  (exists us', b < 0x80 /\ us = b :: us' /\ Units us' bs) \/
  (exists h l us' bs', h < 0x20 /\ l < 0x40 /\ b = 0xC0 + h /\ bs = 0x80 + l :: bs' /\
     us = h * 0x40 + l :: us' /\ Units us' bs') \/
  (exists h m l us' bs', h < 0x10 /\ m < 0x40 /\ l < 0x40 /\ b = 0xE0 + h /\ bs = 0x80 + m :: 0x80 + l :: bs' /\
     us = h * 0x1000 + m * 0x40 + l :: us' /\ Units us' bs').
Proof.
  split.
  - intros H. inversion H; subst; [left; eauto|right; left; eauto 12|right; right; eauto 12].
  - intros [(us' & ? & -> & ?)|[(h & l & us' & bs' & ? & ? & -> & -> & -> & ?)
      |(h & m & l & us' & bs' & ? & ? & ? & -> & -> & -> & ?)]]; by constructor.
Qed.

(** [out] is what the decoder returns that has the units [acc] so far. *)
Definition decodes (acc bs out : list N) : Prop := exists us, Units us bs /\ out = acc ++ us.

Lemma decodes_snoc acc u bs out : decodes (acc ++ [u]) bs out <-> exists us, Units us bs /\ out = acc ++ u :: us.
Proof. unfold decodes. by setoid_rewrite <-app_assoc. Qed.

(** One step of the decoder at each kind of byte. *)
Lemma decodes_one acc b bs out : b < 0x80 -> decodes acc (b :: bs) out <-> decodes (acc ++ [b]) bs out.
Proof.
  intros Hb. rewrite decodes_snoc. unfold decodes. setoid_rewrite Units_cons. split.
  - intros (us & [(us' & _ & -> & ?)|[(?&?&?&?&?&?&?&_)|(?&?&?&?&?&?&?&?&?&_)]] & ->); [eauto|lia..].
  - intros (us & ? & ->). eexists. split; [left; eauto|done].
Qed.

Lemma decodes_two acc h l bs out : h < 0x20 -> l < 0x40 ->
  decodes acc (0xC0 + h :: 0x80 + l :: bs) out <-> decodes (acc ++ [h * 0x40 + l]) bs out.
Proof.
  intros Hh Hl. rewrite decodes_snoc. unfold decodes. setoid_rewrite Units_cons. split.
  - intros (us & [(us' & ? & _)|[(h'&l'&us'&bs'&?&?&?&[= ? ->]&->&?)|(?&?&?&?&?&?&?&?&?&_)]] & ->); [lia| |lia].
    replace h' with h by lia. replace l' with l by lia. eauto.
  - intros (us & ? & ->). eexists. split; [right; left; eauto 12|done].
Qed.

Lemma decodes_three acc h m l bs out : h < 0x10 -> m < 0x40 -> l < 0x40 ->
  decodes acc (0xE0 + h :: 0x80 + m :: 0x80 + l :: bs) out <->
  decodes (acc ++ [h * 0x1000 + m * 0x40 + l]) bs out.
Proof.
  intros Hh Hm Hl. rewrite decodes_snoc. unfold decodes. setoid_rewrite Units_cons. split.
  - intros (us & [(us' & ? & _)|[(?&?&?&?&?&?&?&_)|(h'&m'&l'&us'&bs'&?&?&?&?&[= ? ? ->]&->&?)]] & ->); [lia..|].
    replace h' with h by lia. replace m' with m by lia. replace l' with l by lia. eauto.
  - intros (us & ? & ->). eexists. split; [right; right; eauto 14|done].
Qed.

(** Bytes at which nothing can be read. *)
Lemma decodes_none acc b bs out :
  0x80 <= b -> ~ (0xC0 <= b < 0xE0 /\ exists l bs', l < 0x40 /\ bs = 0x80 + l :: bs') ->
  ~ (0xE0 <= b < 0xF0 /\ exists m l bs', m < 0x40 /\ l < 0x40 /\ bs = 0x80 + m :: 0x80 + l :: bs') ->
  ~ decodes acc (b :: bs) out.
Proof.
  intros Hb H2 H3 (us & Hu & _). apply Units_cons in Hu.
  destruct Hu as [(us' & ? & _)|[(h&l&us'&bs'&?&?&->& -> &_)|(h&m&l&us'&bs'&?&?&?&->& -> &_)]]; [lia| |].
  - apply H2. split; [lia|]. eauto.
  - apply H3. split; [lia|]. eauto 10.
Qed.

Lemma continuation_iff b : 0x80 <= b < 0xC0 <-> exists l, l < 0x40 /\ b = 0x80 + l.
Proof. split; [intros ?; exists (b - 0x80); lia|intros (l & ? & ->); lia]. Qed.

(** [m] returns, and succeeds exactly with [Q]. *)
Definition returns {A} (m : result A) (Q : A -> Prop) : Prop := exists r, m = Done r /\ forall x, r = inr x <-> Q x.

Lemma returns_err {A} e (Q : A -> Prop) : (forall x, ~ Q x) -> returns (err e) Q.
Proof. intros HQ. exists (inl e). split; [done|]. intros x. split; [done|]. by intros ?%HQ. Qed.

Lemma returns_iff {A} (m : result A) (Q Q' : A -> Prop) : returns m Q -> (forall x, Q x <-> Q' x) -> returns m Q'.
Proof. intros (r & Hr & HQ) H. exists r. split; [done|]. intros x. by rewrite HQ. Qed.

Section Loop.
Context (fuel : nat) (IH : forall pre bs acc, (length bs < fuel)%nat -> Forall is_byte bs ->
  returns (decode_loop fuel (pre ++ bs) (length pre) acc) (decodes acc bs)).

(** The loop after the bytes [k]. *)
Lemma decode_rest pre k bs acc i : (length bs < fuel)%nat -> Forall is_byte bs -> i = length (pre ++ k) ->
  returns (decode_loop fuel (pre ++ k ++ bs) i acc) (decodes acc bs).
Proof. intros Hl Hb ->. rewrite app_assoc. by apply IH. Qed.

Lemma decode_two pre b bs acc : (length (b :: bs) < S fuel)%nat -> Forall is_byte (b :: bs) -> 0xC0 <= b < 0xE0 ->
  returns (if decide (length (pre ++ b :: bs) <= length pre + 1)%nat then err Error.InvalidModifiedUtf8
     else
       b2 <-? lift (idx (pre ++ b :: bs) (length pre + 1)) ;;
       if decide (b = 0xC0 /\ b2 = 0x80) then decode_loop fuel (pre ++ b :: bs) (length pre + 2) (acc ++ [0])
       else if decide (N.land b2 0xC0 = 0x80) then
         let value := N.lor (N.shiftl (N.land b 0x1F) 6) (N.land b2 0x3F) in
         decode_loop fuel (pre ++ b :: bs) (length pre + 2) (acc ++ [value])
       else err Error.InvalidModifiedUtf8)
    (decodes acc (b :: bs)).
Proof.
  intros Hl Hby Hb. apply Forall_inv_tail in Hby. simpl in Hl. rewrite length_app. destruct bs as [|b2 bs]; simpl.
  { rewrite decide_True by lia. apply returns_err. intros x. apply decodes_none; [lia|naive_solver..]. }
  rewrite decide_False by (simpl; lia). rewrite idx_app_S. cbn [lift mbind run_bind try_bind].
  assert (Hb2 := Forall_inv Hby); apply Forall_inv_tail in Hby. destruct (byte_kinds b2 Hb2) as (_ & _ & _ & Hk).
  assert (Hh : b = 0xC0 + (b - 0xC0)) by lia. set (h := b - 0xC0) in *. simpl in Hl.
  assert (Hgo : forall l v, l < 0x40 -> b2 = 0x80 + l -> v = h * 0x40 + l ->
    returns (decode_loop fuel (pre ++ b :: b2 :: bs) (length pre + 2) (acc ++ [v])) (decodes acc (b :: b2 :: bs))).
  { intros l v Hl' -> ->. rewrite Hh. eapply returns_iff; [apply (decode_rest pre [0xC0 + h; 0x80 + l]); [lia|done|]|].
    - rewrite length_app. simpl. lia.
    - intros x. symmetry. apply decodes_two; lia. }
  case_decide as Hz.
  - apply (Hgo 0); lia.
  - case_decide as Hc; rewrite Hk in Hc.
    + apply continuation_iff in Hc as (l & Hl' & ->). apply (Hgo l); [done..|]. rewrite Hh. apply two_bits; lia.
    + apply returns_err. intros x. apply decodes_none; [lia| |lia]. intros [_ (l & bs' & ? & [= -> _])]. lia.
Qed.

Lemma decode_three pre b bs acc : (length (b :: bs) < S fuel)%nat -> Forall is_byte (b :: bs) -> 0xE0 <= b < 0xF0 ->
  returns (if decide (length (pre ++ b :: bs) <= length pre + 2)%nat then err Error.InvalidModifiedUtf8
     else
       b2 <-? lift (idx (pre ++ b :: bs) (length pre + 1)) ;;
       b3 <-? lift (idx (pre ++ b :: bs) (length pre + 2)) ;;
       if decide (N.land b2 0xC0 = 0x80 /\ N.land b3 0xC0 = 0x80) then
         let value := N.lor (N.lor (N.shiftl (N.land b 0x0F) 12) (N.shiftl (N.land b2 0x3F) 6)) (N.land b3 0x3F) in
         decode_loop fuel (pre ++ b :: bs) (length pre + 3) (acc ++ [value])
       else err Error.InvalidModifiedUtf8)
    (decodes acc (b :: bs)).
Proof.
  intros Hl Hby Hb. apply Forall_inv_tail in Hby. simpl in Hl. rewrite length_app. destruct bs as [|b2 [|b3 bs]]; simpl.
  1,2: rewrite decide_True by lia; apply returns_err; intros x; apply decodes_none; [lia|lia|naive_solver].
  rewrite decide_False by (simpl; lia). rewrite idx_app_S. cbn [lift mbind run_bind try_bind].
  rewrite idx_app_SS. cbn [lift mbind run_bind try_bind].
  assert (Hb2 := Forall_inv Hby); apply Forall_inv_tail in Hby. assert (Hb3 := Forall_inv Hby); apply Forall_inv_tail in Hby.
  destruct (byte_kinds b2 Hb2) as (_ & _ & _ & Hk2), (byte_kinds b3 Hb3) as (_ & _ & _ & Hk3).
  assert (Hh : b = 0xE0 + (b - 0xE0)) by lia. set (h := b - 0xE0) in *. simpl in Hl.
  case_decide as Hc; rewrite Hk2, Hk3, !continuation_iff in Hc.
  - destruct Hc as [(m & Hm & ->) (l & Hl' & ->)]. rewrite Hh, three_bits by lia.
    eapply returns_iff; [apply (decode_rest pre [0xE0 + h; 0x80 + m; 0x80 + l]); [lia|done|]|].
    + rewrite length_app. simpl. lia.
    + intros x. symmetry. apply decodes_three; lia.
  - apply returns_err. intros x. apply decodes_none; [lia|lia|]. intros [_ (m & l & bs' & ? & ? & [= -> -> _])].
    apply Hc. eauto 10.
Qed.
End Loop.

Lemma decode_loop_exact fuel pre bs acc : (length bs < fuel)%nat -> Forall is_byte bs ->
  returns (decode_loop fuel (pre ++ bs) (length pre) acc) (decodes acc bs).
Proof.
  revert pre bs acc; induction fuel as [|fuel IH]; intros pre [|b bs] acc Hl Hby; [simpl in Hl; lia..| |]; cbn [decode_loop].
  { rewrite app_nil_r, decide_False by lia. exists (inr acc). split; [done|]. intros x. unfold decodes. split.
    - intros [= ->]. exists []. split; [constructor|]. by rewrite app_nil_r.
    - intros (us & Hu & ->). inversion Hu; subst. by rewrite app_nil_r. }
  rewrite decide_True by (rewrite length_app; simpl; lia). rewrite idx_app. cbn [lift mbind run_bind try_bind].
  destruct (byte_kinds b (Forall_inv Hby)) as (K1 & K2 & K3 & _).
  case_decide as H1.
  { apply K1 in H1. eapply returns_iff; [apply (decode_rest fuel IH pre [b]); [simpl in Hl; lia|by apply Forall_inv_tail in Hby|rewrite length_app; simpl; lia]|].
    intros x. symmetry. by apply decodes_one. }
  case_decide as H2; [apply decode_two; [done..|by apply K2]|].
  case_decide as H3; [apply decode_three; [done..|by apply K3]|].
  rewrite K1 in H1. rewrite K2 in H2. rewrite K3 in H3.
  apply returns_err. intros x. apply decodes_none; [lia|by intros [? _]..].
Qed.

(** The decoder returns, and accepts exactly the bytes of strings. *)
Lemma decode_exact bytes : Forall is_byte bytes -> returns (decode_modified_utf8 bytes) (modified_utf8 bytes).
Proof.
  intros Hb. destruct (decode_loop_exact (S (length bytes)) [] bytes [] ltac:(lia) Hb) as ([e|us] & Hr & HQ);
    unfold decode_modified_utf8; simpl app in Hr; change (length (@nil N)) with 0%nat in Hr; rewrite Hr; cbn [try_bind].
  - apply returns_err. intros s (us & Hu & _). assert (H : inl e = inr us) by (apply HQ; by exists us). done.
  - exists (inr (from_utf16_lossy us)). split; [done|]. intros s. unfold modified_utf8. setoid_rewrite chars_iff.
    assert (HQ' : Units us bytes). { destruct (proj1 (HQ us) eq_refl) as (us' & Hu & ->). done. }
    split; [intros [= <-]; eauto|]. intros (us' & Hu & <-). f_equal. f_equal.
    assert (H : inr us = inr us' :> Error.t + list N) by (apply HQ; by exists us'). by injection H.
Qed.

Lemma decode_ok_iff bytes s : Forall is_byte bytes -> decode_modified_utf8 bytes = ok s <-> modified_utf8 bytes s.
Proof. intros Hb. destruct (decode_exact bytes Hb) as (r & -> & <-). unfold ok. split; congruence. Qed.
