(* ===== verification/Signature.v ===== *)
(** * Generic signatures (crates/nova-classfile/src/signature.rs)

    The recursive-descent parser of class, method and field signatures.  It runs over the
    bytes of a string and slices the string at byte offsets; the recursion through
    [parse_field_type_signature] is the argument [rec] of the functions that make it.  The
    reference is the printer.  The theorems: parsing returns on every string (no slice or
    [unwrap] panics, the recursion and the loops end) and its only error is
    [InvalidSignature] of the whole string; it reads back every printed signature; what it
    accepts is, up to empty argument lists, the print of the well-formed signature it
    returns. *)

From Stdlib Require Import Ascii.
From stdpp Require Import base list numbers strings option sets.
From S2P Require Import Prelude Str ClassReader Descriptor.

(** ** Data *)

Module Sig.
Inductive TypeSignature :=
| Base (t : BaseType)
| Array (component : TypeSignature)
| Class (c : ClassTypeSignature)
| TypeVariable (name : str)
with ClassTypeSignature :=
| mkClassTypeSignature (package : list str) (segments : list ClassTypeSegment)
with ClassTypeSegment :=
| mkClassTypeSegment (name : str) (type_arguments : list TypeArgument)
with TypeArgument :=
| Any
| Exact (t : TypeSignature)
| Extends (t : TypeSignature)
| Super (t : TypeSignature).
End Sig.

Definition FieldTypeSignature : Type := Sig.TypeSignature.

Record TypeParameter := mkTypeParameter {
  tp_name : str;
  tp_class_bound : option Sig.TypeSignature;
  tp_interface_bounds : list Sig.TypeSignature
}.

Record ClassSignature := mkClassSignature {
  cs_type_parameters : list TypeParameter;
  cs_super_class : Sig.ClassTypeSignature;
  cs_interfaces : list Sig.ClassTypeSignature
}.

Record MethodSignature := mkMethodSignature {
  ms_type_parameters : list TypeParameter;
  ms_parameters : list Sig.TypeSignature;
  ms_return_type : option Sig.TypeSignature;
  ms_throws : list Sig.TypeSignature
}.

(** [Vec<String>::join]. *)
Fixpoint join (sep : char) (l : list str) : str :=
  match l with
  | [] => []
  | [s] => s
  | s :: l => s ++ sep :: join sep l
  end.

Definition seg_name (s : Sig.ClassTypeSegment) : str :=
  match s with Sig.mkClassTypeSegment n _ => n end.

Definition internal_name (self : Sig.ClassTypeSignature) : str :=
  match self with
  | Sig.mkClassTypeSignature package segments =>
      (if decide (package = []) then [] else join (ch "/") package ++ [ch "/"]) ++
      concat (imap (fun i seg => (if decide (0 < i) then [ch "$"] else []) ++ seg_name seg) segments)
  end.

(** ** [Parser] *)

Record Parser := mkParser { ps_sig : str; ps_bytes : list N; ps_pos : nat }.

Definition parser_new (sig : str) : Parser := mkParser sig (as_bytes sig) 0.

Definition is_eof (p : Parser) : bool := bool_decide (length (ps_bytes p) <= ps_pos p).

(** [self.pos += n]. *)
Definition skip (p : Parser) (n : nat) : Parser := mkParser (ps_sig p) (ps_bytes p) (ps_pos p + n).

(** A byte as a [char]: the bytes of a character above U+007F are above U+007F too. *)
Definition peek (p : Parser) : option char := ps_bytes p !! ps_pos p.

Definition bump (p : Parser) : option char * Parser :=
  match peek p with
  | None => (None, p)
  | Some c => (Some c, skip p 1)
  end.

Definition invalid {A} (p : Parser) : result A := err (Error.InvalidSignature (ps_sig p)).

Definition expect (p : Parser) (c : char) : result Parser :=
  match bump p with
  | (Some c', p') => if decide (c' = c) then ok p' else invalid p
  | (None, _) => invalid p
  end.

Definition is_forbidden_in_identifier (c : char) : bool :=
  bool_decide (c ∈ [ch "["; ch "^"; ch "("; ch ")"; ch "*"; ch "+"; ch "-"]).

Definition is_signature_delimiter (c : char) : bool :=
  bool_decide (c ∈ [ch "/"; ch ";"; ch "<"; ch ">"; ch "."; ch ":"]).

Fixpoint until_loop (fuel : nat) (p : Parser) (delim : char) : result Parser :=
  match fuel with
  | 0 => OutOfFuel
  | S fuel =>
      if negb (is_eof p) && bool_decide (peek p <> Some delim) then
        match peek p with
        | None => Panic
        | Some c =>
            if is_forbidden_in_identifier c || is_signature_delimiter c then invalid p
            else until_loop fuel (skip p 1) delim
        end
      else ok p
  end.

Definition parse_identifier_until (p : Parser) (delim : char) : result (str * Parser) :=
  let start := ps_pos p in
  p <-? until_loop (S (length (ps_bytes p))) p delim ;;
  if is_eof p then invalid p
  else if decide (start = ps_pos p) then invalid p
  else
    name <-? lift (slice (ps_sig p) start (ps_pos p)) ;;
    ok (name, p).

Fixpoint ident_loop (fuel : nat) (p : Parser) : result Parser :=
  match fuel with
  | 0 => OutOfFuel
  | S fuel =>
      if negb (is_eof p) then
        match peek p with
        | None => Panic
        | Some c =>
            if is_signature_delimiter c then ok p
            else if is_forbidden_in_identifier c then invalid p
            else ident_loop fuel (skip p 1)
        end
      else ok p
  end.

Definition parse_identifier (p : Parser) : result (str * Parser) :=
  let start := ps_pos p in
  p <-? ident_loop (S (length (ps_bytes p))) p ;;
  if decide (start = ps_pos p) then invalid p
  else
    name <-? lift (slice (ps_sig p) start (ps_pos p)) ;;
    ok (name, p).

Definition parse_type_variable_signature (p : Parser) : result (Sig.TypeSignature * Parser) :=
  p <-? expect p (ch "T") ;;
  '(name, p) <-? parse_identifier_until p (ch ";") ;;
  p <-? expect p (ch ";") ;;
  ok (Sig.TypeVariable name, p).

(** [Some('L') | Some('T') | Some('[')]. *)
Definition starts_reference (o : option char) : bool :=
  bool_decide (o ∈ [Some (ch "L"); Some (ch "T"); Some (ch "[")]).

Section Rec.
Context (rec : Parser -> result (Sig.TypeSignature * Parser)).

Definition parse_type_argument (p : Parser) : result (Sig.TypeArgument * Parser) :=
  if decide (peek p = Some (ch "*")) then ok (Sig.Any, snd (bump p))
  else if decide (peek p = Some (ch "+")) then
    '(t, p) <-? rec (snd (bump p)) ;; ok (Sig.Extends t, p)
  else if decide (peek p = Some (ch "-")) then
    '(t, p) <-? rec (snd (bump p)) ;; ok (Sig.Super t, p)
  else if starts_reference (peek p) then '(t, p) <-? rec p ;; ok (Sig.Exact t, p)
  else invalid p.

Fixpoint args_loop (fuel : nat) (p : Parser) (args : list Sig.TypeArgument)
    : result (list Sig.TypeArgument * Parser) :=
  match fuel with
  | 0 => OutOfFuel
  | S fuel =>
      if decide (peek p = Some (ch ">")) then ok (args, p)
      else if is_eof p then invalid p
      else
        '(arg, p) <-? parse_type_argument p ;;
        args_loop fuel p (args ++ [arg])
  end.

Definition parse_type_arguments_if_present (p : Parser)
    : result (list Sig.TypeArgument * Parser) :=
  if decide (peek p = Some (ch "<")) then
    p <-? expect p (ch "<") ;;
    '(args, p) <-? args_loop (S (length (ps_bytes p))) p [] ;;
    p <-? expect p (ch ">") ;;
    ok (args, p)
  else ok ([], p).

Fixpoint package_loop (fuel : nat) (p : Parser) (package : list str) (first : str)
    : result (list str * str * Parser) :=
  match fuel with
  | 0 => OutOfFuel
  | S fuel =>
      if decide (peek p = Some (ch "/")) then
        '(next, p) <-? parse_identifier (snd (bump p)) ;;
        package_loop fuel p (package ++ [first]) next
      else ok (package, first, p)
  end.

Fixpoint segments_loop (fuel : nat) (p : Parser) (segments : list Sig.ClassTypeSegment)
    : result (list Sig.ClassTypeSegment * Parser) :=
  match fuel with
  | 0 => OutOfFuel
  | S fuel =>
      if decide (peek p = Some (ch ".")) then
        '(name, p) <-? parse_identifier (snd (bump p)) ;;
        '(type_arguments, p) <-? parse_type_arguments_if_present p ;;
        segments_loop fuel p (segments ++ [Sig.mkClassTypeSegment name type_arguments])
      else ok (segments, p)
  end.

Definition parse_class_type_signature (p : Parser) : result (Sig.ClassTypeSignature * Parser) :=
  p <-? expect p (ch "L") ;;
  '(first, p) <-? parse_identifier p ;;
  '(package, first, p) <-? package_loop (S (length (ps_bytes p))) p [] first ;;
  '(type_arguments, p) <-? parse_type_arguments_if_present p ;;
  '(segments, p) <-? segments_loop (S (length (ps_bytes p))) p
                       [Sig.mkClassTypeSegment first type_arguments] ;;
  p <-? expect p (ch ";") ;;
  ok (Sig.mkClassTypeSignature package segments, p).

Definition parse_type_signature (p : Parser) : result (Sig.TypeSignature * Parser) :=
  match peek p with
  | Some c =>
      match base_type c with
      | Some t => ok (Sig.Base t, snd (bump p))
      | None => if starts_reference (peek p) then rec p else invalid p
      end
  | None => invalid p
  end.
End Rec.

Fixpoint parse_field_type_signature (fuel : nat) (p : Parser)
    : result (Sig.TypeSignature * Parser) :=
  match fuel with
  | 0 => OutOfFuel
  | S fuel =>
      let rec := parse_field_type_signature fuel in
      if decide (peek p = Some (ch "L")) then
        '(c, p) <-? parse_class_type_signature rec p ;; ok (Sig.Class c, p)
      else if decide (peek p = Some (ch "T")) then parse_type_variable_signature p
      else if decide (peek p = Some (ch "[")) then
        '(component, p) <-? parse_type_signature rec (snd (bump p)) ;;
        ok (Sig.Array component, p)
      else invalid p
  end.

(** Each step of the recursion is past at least one more byte. *)
Definition sig_fuel (p : Parser) : nat := S (length (ps_bytes p)).

Definition field_rec (p : Parser) : result (Sig.TypeSignature * Parser) :=
  parse_field_type_signature (sig_fuel p) p.

Fixpoint bounds_loop (fuel : nat) (p : Parser) (bounds : list Sig.TypeSignature)
    : result (list Sig.TypeSignature * Parser) :=
  match fuel with
  | 0 => OutOfFuel
  | S fuel =>
      if decide (peek p = Some (ch ":")) then
        '(t, p) <-? field_rec (snd (bump p)) ;;
        bounds_loop fuel p (bounds ++ [t])
      else ok (bounds, p)
  end.

Definition parse_class_bound (p : Parser) : result (option Sig.TypeSignature * Parser) :=
  if decide (peek p = Some (ch ":")) then ok (None, p)
  else if starts_reference (peek p) then '(t, p) <-? field_rec p ;; ok (Some t, p)
  else invalid p.

Definition parse_type_parameter (p : Parser) : result (TypeParameter * Parser) :=
  '(name, p) <-? parse_identifier_until p (ch ":") ;;
  p <-? expect p (ch ":") ;;
  '(class_bound, p) <-? parse_class_bound p ;;
  '(interface_bounds, p) <-? bounds_loop (S (length (ps_bytes p))) p [] ;;
  ok (mkTypeParameter name class_bound interface_bounds, p).

Fixpoint type_params_loop (fuel : nat) (p : Parser) (out : list TypeParameter)
    : result (list TypeParameter * Parser) :=
  match fuel with
  | 0 => OutOfFuel
  | S fuel =>
      if decide (peek p = Some (ch ">")) then ok (out, p)
      else if is_eof p then invalid p
      else
        '(tp, p) <-? parse_type_parameter p ;;
        type_params_loop fuel p (out ++ [tp])
  end.

Definition parse_type_parameters_if_present (p : Parser) : result (list TypeParameter * Parser) :=
  if decide (peek p = Some (ch "<")) then
    p <-? expect p (ch "<") ;;
    '(out, p) <-? type_params_loop (S (length (ps_bytes p))) p [] ;;
    p <-? expect p (ch ">") ;;
    ok (out, p)
  else ok ([], p).

Fixpoint interfaces_loop (fuel : nat) (p : Parser) (interfaces : list Sig.ClassTypeSignature)
    : result (list Sig.ClassTypeSignature * Parser) :=
  match fuel with
  | 0 => OutOfFuel
  | S fuel =>
      if negb (is_eof p) then
        '(c, p) <-? parse_class_type_signature field_rec p ;;
        interfaces_loop fuel p (interfaces ++ [c])
      else ok (interfaces, p)
  end.

Definition parse_class_signature (sig : str) : result ClassSignature :=
  let p := parser_new sig in
  '(type_parameters, p) <-? parse_type_parameters_if_present p ;;
  '(super_class, p) <-? parse_class_type_signature field_rec p ;;
  '(interfaces, p) <-? interfaces_loop (S (length (ps_bytes p))) p [] ;;
  ok (mkClassSignature type_parameters super_class interfaces).

Fixpoint parameters_loop (fuel : nat) (p : Parser) (parameters : list Sig.TypeSignature)
    : result (list Sig.TypeSignature * Parser) :=
  match fuel with
  | 0 => OutOfFuel
  | S fuel =>
      if negb (is_eof p) && bool_decide (peek p <> Some (ch ")")) then
        '(t, p) <-? parse_type_signature field_rec p ;;
        parameters_loop fuel p (parameters ++ [t])
      else ok (parameters, p)
  end.

Definition parse_return_type (p : Parser) : result (option Sig.TypeSignature * Parser) :=
  if decide (peek p = Some (ch "V")) then ok (None, snd (bump p))
  else '(t, p) <-? parse_type_signature field_rec p ;; ok (Some t, p).

(** The type after a [^]. *)
Definition parse_thrown (p : Parser) : result (Sig.TypeSignature * Parser) :=
  if decide (peek p = Some (ch "T")) then parse_type_variable_signature p
  else if decide (peek p = Some (ch "L")) then
    '(c, p) <-? parse_class_type_signature field_rec p ;; ok (Sig.Class c, p)
  else invalid p.

Fixpoint throws_loop (fuel : nat) (p : Parser) (throws : list Sig.TypeSignature)
    : result (list Sig.TypeSignature * Parser) :=
  match fuel with
  | 0 => OutOfFuel
  | S fuel =>
      if decide (peek p = Some (ch "^")) then
        '(t, p) <-? parse_thrown (snd (bump p)) ;;
        throws_loop fuel p (throws ++ [t])
      else ok (throws, p)
  end.

Definition parse_method_signature (sig : str) : result MethodSignature :=
  let p := parser_new sig in
  '(type_parameters, p) <-? parse_type_parameters_if_present p ;;
  p <-? expect p (ch "(") ;;
  '(parameters, p) <-? parameters_loop (S (length (ps_bytes p))) p [] ;;
  p <-? expect p (ch ")") ;;
  '(return_type, p) <-? parse_return_type p ;;
  '(throws, p) <-? throws_loop (S (length (ps_bytes p))) p [] ;;
  if is_eof p then ok (mkMethodSignature type_parameters parameters return_type throws)
  else err (Error.InvalidSignature sig).

Definition parse_field_signature (sig : str) : result FieldTypeSignature :=
  let p := parser_new sig in
  '(ty, p) <-? field_rec p ;;
  if is_eof p then ok ty else err (Error.InvalidSignature sig).

(** ** Positions *)

(** The parser before [q], with [pre] behind it. *)
Definition at_pos (pre q : str) : Parser := mkParser (pre ++ q) (as_bytes (pre ++ q)) (str_len pre).

Lemma at_pos_app pre l q : at_pos pre (l ++ q) = mkParser ((pre ++ l) ++ q) (as_bytes ((pre ++ l) ++ q)) (str_len pre).
Proof. unfold at_pos. by rewrite app_assoc. Qed.

Lemma skip_at pre l q : skip (at_pos pre (l ++ q)) (str_len l) = at_pos (pre ++ l) q.
Proof. rewrite at_pos_app. unfold skip, at_pos. simpl. by rewrite (str_len_app pre). Qed.

Lemma ps_bytes_at pre q i : ps_bytes (at_pos pre q) !! (str_len pre + i) = as_bytes q !! i.
Proof.
  unfold at_pos; simpl. rewrite as_bytes_app, <-length_as_bytes, lookup_app_r by lia.
  f_equal. lia.
Qed.

Lemma length_bytes_at pre q : length (ps_bytes (at_pos pre q)) = str_len pre + str_len q.
Proof. unfold at_pos; simpl. by rewrite length_as_bytes, str_len_app. Qed.

Lemma length_le_str_len q : length q <= str_len q.
Proof.
  induction q as [|c q IH]; [done|]. rewrite str_len_cons. pose proof (len_utf8_pos c). simpl. lia.
Qed.

Lemma peek_bytes pre q : peek (at_pos pre q) = head (as_bytes q).
Proof.
  unfold peek. change (ps_pos (at_pos pre q)) with (str_len pre).
  rewrite <-(Nat.add_0_r (str_len pre)), ps_bytes_at. by destruct (as_bytes q).
Qed.

Lemma peek_nil pre : peek (at_pos pre []) = None.
Proof. by rewrite peek_bytes. Qed.

Lemma peek_cons pre c q : (c < 0x80)%N -> peek (at_pos pre (c :: q)) = Some c.
Proof. intros Hc. by rewrite peek_bytes, as_bytes_cons_ascii. Qed.

Lemma peek_inv pre q c : peek (at_pos pre q) = Some c -> (c < 0x80)%N -> exists q', q = c :: q'.
Proof.
  rewrite peek_bytes. destruct (as_bytes q) as [|b bs] eqn:E; simpl; intros Hp Hc; simplify_eq.
  by eapply as_bytes_ascii.
Qed.

Lemma is_eof_at pre q : is_eof (at_pos pre q) = bool_decide (q = []).
Proof.
  unfold is_eof. rewrite length_bytes_at. simpl. apply bool_decide_ext. split.
  - intros Hl. apply str_len_nil_inv. lia.
  - intros ->. change (str_len []) with 0. lia.
Qed.

Lemma skip_cons pre c q : (c < 0x80)%N -> skip (at_pos pre (c :: q)) 1 = at_pos (pre ++ [c]) q.
Proof. intros Hc. rewrite <-(str_len_ascii c Hc). apply (skip_at pre [c] q). Qed.

Lemma bump_cons pre c q : (c < 0x80)%N -> snd (bump (at_pos pre (c :: q))) = at_pos (pre ++ [c]) q.
Proof. intros Hc. unfold bump. rewrite peek_cons by done. by apply skip_cons. Qed.

Lemma expect_cons pre c q : (c < 0x80)%N -> expect (at_pos pre (c :: q)) c = ok (at_pos (pre ++ [c]) q).
Proof.
  intros Hc. unfold expect, bump. rewrite peek_cons by done. rewrite decide_True by done.
  by rewrite skip_cons.
Qed.

(** The parser returns: a value that satisfies [Q], or [InvalidSignature] of [sig]. *)
Definition wps {A} (sig : str) (m : result A) (Q : A -> Prop) : Prop :=
  match m with
  | Done (inl e) => e = Error.InvalidSignature sig
  | Done (inr x) => Q x
  | _ => False
  end.

Lemma wps_bind {A B} sig (m : result A) (f : A -> result B) Q :
  wps sig m (fun x => wps sig (f x) Q) -> wps sig (try_bind m f) Q.
Proof. by destruct m as [[e|x]| |]. Qed.

Lemma wps_mono {A} sig (m : result A) (Q R : A -> Prop) :
  wps sig m Q -> (forall x, Q x -> R x) -> wps sig m R.
Proof. destruct m as [[e|x]| |]; simpl; auto. Qed.

Lemma wps_invalid {A} pre q (Q : A -> Prop) : wps (pre ++ q) (invalid (at_pos pre q)) Q.
Proof. done. Qed.

Lemma wps_expect pre q c Q :
  (c < 0x80)%N -> (forall q', q = c :: q' -> Q (at_pos (pre ++ [c]) q')) ->
  wps (pre ++ q) (expect (at_pos pre q) c) Q.
Proof.
  intros Hc HQ. unfold expect, bump. destruct (peek (at_pos pre q)) as [c'|] eqn:E; [|done].
  case_decide as He; [|done]. subst c'. destruct (peek_inv _ _ _ E Hc) as [q' ->].
  rewrite skip_cons by done. by apply HQ.
Qed.

(** ** Identifiers *)

Definition ident_char (c : char) : bool := negb (is_forbidden_in_identifier c || is_signature_delimiter c).

Definition name_ok (n : str) : bool := negb (bool_decide (n = [])) && forallb ident_char n.

(** An identifier ends here. *)
Definition stops (q : str) : Prop := match q with [] => True | c :: _ => ident_char c = false end.

Lemma forbidden_ascii c : is_forbidden_in_identifier c = true -> (c < 0x80)%N.
Proof.
  unfold is_forbidden_in_identifier. rewrite bool_decide_eq_true, !elem_of_cons, elem_of_nil.
  by intros [->|[->|[->|[->|[->|[->|[->|[]]]]]]]].
Qed.

Lemma delimiter_ascii c : is_signature_delimiter c = true -> (c < 0x80)%N /\ is_forbidden_in_identifier c = false.
Proof.
  unfold is_signature_delimiter. rewrite bool_decide_eq_true, !elem_of_cons, elem_of_nil.
  by intros [->|[->|[->|[->|[->|[->|[]]]]]]].
Qed.

Lemma ident_char_high c : (0x80 <= c)%N -> ident_char c = true.
Proof.
  intros Hc. unfold ident_char.
  destruct (is_forbidden_in_identifier c) eqn:E1; [apply forbidden_ascii in E1; lia|].
  destruct (is_signature_delimiter c) eqn:E2; [apply delimiter_ascii in E2; lia|]. done.
Qed.

Lemma not_ident_ascii c : ident_char c = false -> (c < 0x80)%N.
Proof. intros Hc. destruct (N.ltb_spec c 0x80); [done|]. by rewrite ident_char_high in Hc. Qed.

(** The identifier at the front of a string. *)
Lemma span_ident q : exists name rest, q = name ++ rest /\ forallb ident_char name = true /\ stops rest.
Proof.
  induction q as [|c q (name & rest & -> & Hn & Hs)]; [by exists [], []|].
  destruct (ident_char c) eqn:E.
  - exists (c :: name), rest. simpl. by rewrite E.
  - by exists [], (c :: name ++ rest).
Qed.

Lemma ident_char_split c :
  ident_char c = true -> is_forbidden_in_identifier c = false /\ is_signature_delimiter c = false.
Proof. unfold ident_char. rewrite negb_true_iff, orb_false_iff. done. Qed.

(** The bytes of a character above U+007F are passed one by one. *)
Lemma loops_high n fuel p delim :
  (delim < 0x80)%N ->
  (forall i, i < n -> exists b, ps_bytes p !! (ps_pos p + i) = Some b /\ (0x80 <= b)%N) ->
  ident_loop (n + fuel) p = ident_loop fuel (skip p n) /\
  until_loop (n + fuel) p delim = until_loop fuel (skip p n) delim.
Proof.
  intros Hd. revert p; induction n as [|n IH]; intros p Hb.
  { replace (skip p 0) with p; [done|]. destruct p; unfold skip; simpl. by rewrite Nat.add_0_r. }
  destruct (Hb 0 ltac:(lia)) as (b & Hb0 & Hhi). rewrite Nat.add_0_r in Hb0.
  assert (He : is_eof p = false).
  { apply bool_decide_eq_false. apply lookup_lt_Some in Hb0. lia. }
  destruct (ident_char_split b (ident_char_high b Hhi)) as [Hf Hdl].
  destruct (IH (skip p 1)) as [IH1 IH2].
  { intros i Hi. destruct (Hb (S i) ltac:(lia)) as (x & Hx & Hxhi). exists x. split; [|done].
    simpl. rewrite <-Hx. f_equal. lia. }
  assert (Hsk : skip (skip p 1) n = skip p (S n)) by (unfold skip; simpl; f_equal; lia).
  cbn [Nat.add ident_loop until_loop]. rewrite He. unfold peek. rewrite Hb0, Hf, Hdl. simpl.
  rewrite bool_decide_true by (intros [= ->]; lia). rewrite IH1, IH2, Hsk. done.
Qed.

Lemma loops_char fuel pre c q delim :
  ident_char c = true -> is_signature_delimiter delim = true ->
  ident_loop (len_utf8 c + fuel) (at_pos pre (c :: q)) = ident_loop fuel (at_pos (pre ++ [c]) q) /\
  until_loop (len_utf8 c + fuel) (at_pos pre (c :: q)) delim =
    until_loop fuel (at_pos (pre ++ [c]) q) delim.
Proof.
  intros Hc Hd. assert (Hd' := proj1 (delimiter_ascii _ Hd)).
  destruct (ident_char_split c Hc) as [Hf Hdl]. destruct (N.ltb_spec c 0x80) as [Hlt|Hge].
  - rewrite ascii_len by done. cbn [Nat.add ident_loop until_loop].
    rewrite is_eof_at, peek_cons, skip_cons by done. rewrite Hf, Hdl. simpl.
    rewrite bool_decide_true; [done|]. intros [= ->]. congruence.
  - destruct (loops_high (len_utf8 c) fuel (at_pos pre (c :: q)) delim) as [H1 H2]; [done| |].
    + intros i Hi. change (ps_pos (at_pos pre (c :: q))) with (str_len pre). rewrite ps_bytes_at.
      change (as_bytes (c :: q)) with (encode_utf8 c ++ as_bytes q).
      rewrite <-length_encode_utf8 in Hi. rewrite lookup_app_l by done.
      apply lookup_lt_is_Some in Hi as [b Hb]. exists b. split; [done|].
      apply (encode_utf8_high c); [done|]. by eapply list_elem_of_lookup_2.
    + rewrite H1, H2. replace (skip (at_pos pre (c :: q)) (len_utf8 c)) with (at_pos (pre ++ [c]) q); [done|].
      rewrite <-(skip_at pre [c] q), str_len_cons. simpl. by rewrite Nat.add_0_r.
Qed.

Lemma loops_name name pre rest fuel delim :
  forallb ident_char name = true -> is_signature_delimiter delim = true ->
  ident_loop (str_len name + fuel) (at_pos pre (name ++ rest)) =
    ident_loop fuel (at_pos (pre ++ name) rest) /\
  until_loop (str_len name + fuel) (at_pos pre (name ++ rest)) delim =
    until_loop fuel (at_pos (pre ++ name) rest) delim.
Proof.
  intros Hn Hd. revert pre; induction name as [|c name IH]; intros pre; [by rewrite app_nil_r|].
  simpl in Hn. apply andb_true_iff in Hn as [Hc Hn]. rewrite str_len_cons, <-Nat.add_assoc.
  destruct (loops_char (str_len name + fuel) pre c (name ++ rest) delim Hc Hd) as [H1 H2].
  destruct (IH Hn (pre ++ [c])) as [H3 H4]. rewrite <-app_assoc in H3, H4. simpl app in *.
  by rewrite H1, H2, H3, H4.
Qed.

Lemma ps_sig_at pre q : ps_sig (at_pos pre q) = pre ++ q.
Proof. done. Qed.

(** What the identifier parsers do at the end of the identifier. *)
Lemma parse_identifier_at pre name rest :
  forallb ident_char name = true -> stops rest ->
  parse_identifier (at_pos pre (name ++ rest)) =
  if bool_decide (name = []) || match rest with c :: _ => is_forbidden_in_identifier c | [] => false end
  then err (Error.InvalidSignature (pre ++ name ++ rest))
  else ok (name, at_pos (pre ++ name) rest).
Proof.
  intros Hn Hr. unfold parse_identifier. rewrite length_bytes_at, str_len_app.
  replace (S (str_len pre + (str_len name + str_len rest)))
    with (str_len name + S (str_len pre + str_len rest)) by lia.
  rewrite (proj1 (loops_name name pre rest _ (ch ";") Hn eq_refl)). cbn [ident_loop].
  assert (Hst : ident_loop (S (str_len pre + str_len rest)) (at_pos (pre ++ name) rest) =
    if match rest with c :: _ => is_forbidden_in_identifier c | [] => false end
    then err (Error.InvalidSignature (pre ++ name ++ rest)) else ok (at_pos (pre ++ name) rest)).
  { cbn [ident_loop]. rewrite is_eof_at. destruct rest as [|c rest]; [done|].
    pose proof (not_ident_ascii _ Hr) as Hc. rewrite peek_cons by done. simpl.
    simpl in Hr. unfold ident_char in Hr. rewrite negb_false_iff in Hr.
    destruct (is_signature_delimiter c) eqn:Ed; [by rewrite (proj2 (delimiter_ascii _ Ed))|].
    rewrite orb_false_r in Hr. rewrite Hr. unfold invalid. by rewrite ps_sig_at, <-app_assoc. }
  cbn [ident_loop] in Hst. rewrite Hst. clear Hst.
  destruct (match rest with c :: _ => is_forbidden_in_identifier c | [] => false end);
    [by rewrite orb_true_r|]. rewrite orb_false_r. cbn [try_bind ok]. unfold invalid.
  rewrite ps_sig_at, <-app_assoc. destruct name as [|c name].
  - rewrite decide_True; [done|]. simpl. by rewrite app_nil_r.
  - rewrite decide_False.
    + cbn [bool_decide]. change (ps_pos (at_pos (pre ++ c :: name) rest)) with (str_len (pre ++ c :: name)).
      change (ps_pos (at_pos pre _)) with (str_len pre).
      by rewrite str_len_app, slice_app.
    + simpl. rewrite str_len_app, str_len_cons. pose proof (len_utf8_pos c). lia.
Qed.

Lemma parse_identifier_until_at pre name rest delim :
  forallb ident_char name = true -> stops rest -> is_signature_delimiter delim = true ->
  parse_identifier_until (at_pos pre (name ++ rest)) delim =
  if bool_decide (name = []) || bool_decide (head rest <> Some delim)
  then err (Error.InvalidSignature (pre ++ name ++ rest))
  else ok (name, at_pos (pre ++ name) rest).
Proof.
  intros Hn Hr Hd. unfold parse_identifier_until. rewrite length_bytes_at, str_len_app.
  replace (S (str_len pre + (str_len name + str_len rest)))
    with (str_len name + S (str_len pre + str_len rest)) by lia.
  rewrite (proj2 (loops_name name pre rest _ delim Hn Hd)).
  assert (Hst : until_loop (S (str_len pre + str_len rest)) (at_pos (pre ++ name) rest) delim =
    if bool_decide (rest <> [] /\ head rest <> Some delim)
    then err (Error.InvalidSignature (pre ++ name ++ rest)) else ok (at_pos (pre ++ name) rest)).
  { cbn [until_loop]. rewrite is_eof_at. destruct rest as [|c rest]; [done|].
    pose proof (not_ident_ascii _ Hr) as Hc. rewrite peek_cons by done. simpl.
    case_bool_decide as Hcd; [|rewrite bool_decide_false by tauto; done].
    rewrite bool_decide_true by done. simpl in Hr. unfold ident_char in Hr.
    rewrite negb_false_iff in Hr. rewrite Hr. unfold invalid. by rewrite ps_sig_at, <-app_assoc. }
  rewrite Hst. clear Hst. case_bool_decide as Hh.
  { rewrite (bool_decide_true (head rest <> _)) by tauto. by rewrite orb_true_r. }
  cbn [try_bind ok]. rewrite is_eof_at. unfold invalid. rewrite ps_sig_at.
  destruct rest as [|d rest]; [by rewrite orb_true_r, <-app_assoc|].
  rewrite (bool_decide_false (head (d :: rest) <> _)) by (intros ?; apply Hh; done).
  rewrite orb_false_r. cbn [bool_decide]. destruct name as [|c name].
  - rewrite decide_True; [by rewrite <-app_assoc|]. simpl. by rewrite app_nil_r.
  - rewrite decide_False.
    + change (ps_pos (at_pos (pre ++ c :: name) _)) with (str_len (pre ++ c :: name)).
      change (ps_pos (at_pos pre _)) with (str_len pre). by rewrite <-app_assoc, str_len_app, slice_app.
    + simpl. rewrite str_len_app, str_len_cons. pose proof (len_utf8_pos c). lia.
Qed.

(** ** The reference: printing *)

(** Between angle brackets; nothing when there is nothing to print. *)
Definition angled {A} (f : A -> str) (l : list A) : str :=
  match l with [] => [] | _ => ch "<" :: concat (map f l) ++ [ch ">"] end.

(** The later segments of a class type follow a dot. *)
Definition dotted {A} (f : A -> str) (l : list A) : str :=
  match l with [] => [] | x :: l => f x ++ concat (map (fun y => ch "." :: f y) l) end.

Definition print_package (package : list str) : str := concat (map (fun n => n ++ [ch "/"]) package).

Fixpoint print_type (t : Sig.TypeSignature) : str :=
  match t with
  | Sig.Base b => [base_char b]
  | Sig.Array c => ch "[" :: print_type c
  | Sig.Class c => print_class c
  | Sig.TypeVariable n => ch "T" :: n ++ [ch ";"]
  end
with print_class (c : Sig.ClassTypeSignature) : str :=
  match c with
  | Sig.mkClassTypeSignature package segments =>
      ch "L" :: print_package package ++ dotted print_segment segments ++ [ch ";"]
  end
with print_segment (s : Sig.ClassTypeSegment) : str :=
  match s with Sig.mkClassTypeSegment n args => n ++ angled print_argument args end
with print_argument (a : Sig.TypeArgument) : str :=
  match a with
  | Sig.Any => [ch "*"]
  | Sig.Exact t => print_type t
  | Sig.Extends t => ch "+" :: print_type t
  | Sig.Super t => ch "-" :: print_type t
  end.

Definition print_parameter (tp : TypeParameter) : str :=
  tp_name tp ++ ch ":" :: from_option print_type [] (tp_class_bound tp) ++
  concat (map (fun t => ch ":" :: print_type t) (tp_interface_bounds tp)).

Definition print_class_signature (s : ClassSignature) : str :=
  angled print_parameter (cs_type_parameters s) ++ print_class (cs_super_class s) ++
  concat (map print_class (cs_interfaces s)).

Definition print_method_signature (s : MethodSignature) : str :=
  angled print_parameter (ms_type_parameters s) ++
  ch "(" :: concat (map print_type (ms_parameters s)) ++
  ch ")" :: from_option print_type [ch "V"] (ms_return_type s) ++
  concat (map (fun t => ch "^" :: print_type t) (ms_throws s)).

(** Well-formed signatures: names are identifiers, and bounds and arguments are references. *)
Definition is_reference (t : Sig.TypeSignature) : bool :=
  match t with Sig.Base _ => false | _ => true end.

Fixpoint wf_type (t : Sig.TypeSignature) : bool :=
  match t with
  | Sig.Base _ => true
  | Sig.Array c => wf_type c
  | Sig.Class c => wf_class c
  | Sig.TypeVariable n => name_ok n
  end
with wf_class (c : Sig.ClassTypeSignature) : bool :=
  match c with
  | Sig.mkClassTypeSignature package segments =>
      forallb name_ok package && negb (match segments with [] => true | _ => false end) &&
      forallb wf_segment segments
  end
with wf_segment (s : Sig.ClassTypeSegment) : bool :=
  match s with Sig.mkClassTypeSegment n args => name_ok n && forallb wf_argument args end
with wf_argument (a : Sig.TypeArgument) : bool :=
  match a with
  | Sig.Any => true
  | Sig.Exact t | Sig.Extends t | Sig.Super t => is_reference t && wf_type t
  end.

Definition wf_bound (t : Sig.TypeSignature) : bool := is_reference t && wf_type t.

(** A type parameter has a bound. *)
Definition wf_parameter (tp : TypeParameter) : bool :=
  name_ok (tp_name tp) && forallb wf_bound (tp_interface_bounds tp) &&
  match tp_class_bound tp with
  | Some t => wf_bound t
  | None => match tp_interface_bounds tp with [] => false | _ => true end
  end.

Definition wf_class_signature (s : ClassSignature) : bool :=
  forallb wf_parameter (cs_type_parameters s) && wf_class (cs_super_class s) &&
  forallb wf_class (cs_interfaces s).

(** A thrown type is a class or a type variable. *)
Definition wf_thrown (t : Sig.TypeSignature) : bool :=
  match t with Sig.Class _ | Sig.TypeVariable _ => wf_type t | _ => false end.

Definition wf_method_signature (s : MethodSignature) : bool :=
  forallb wf_parameter (ms_type_parameters s) && forallb wf_type (ms_parameters s) &&
  from_option wf_type true (ms_return_type s) && forallb wf_thrown (ms_throws s).

(** [erases s t]: [t] is [s] less some empty argument lists. *)
Inductive erases : str -> str -> Prop :=
| erases_nil : erases [] []
| erases_cons c s t : erases s t -> erases (c :: s) (c :: t)
| erases_empty s t : erases s t -> erases (ch "<" :: ch ">" :: s) t.

Lemma erases_refl s : erases s s.
Proof. induction s; by constructor. Qed.

Lemma erases_app s1 t1 s2 t2 : erases s1 t1 -> erases s2 t2 -> erases (s1 ++ s2) (t1 ++ t2).
Proof. intros H1 H2. induction H1; simpl; [done|by constructor..]. Qed.

#[local] Hint Resolve erases_refl erases_app erases_cons erases_nil : core.

(** ** What is accepted *)

(** [m], before at most [n] characters, splits off a text of which [R] holds, or fails. *)
Definition sound {A} (m : Parser -> result (A * Parser)) (n : nat) (R : str -> A -> Prop) : Prop :=
  forall pre q, length q < n ->
    wps (pre ++ q) (m (at_pos pre q)) (fun '(x, p') =>
      exists l post, q = l ++ post /\ p' = at_pos (pre ++ l) post /\ R l x).

(** The text of a value. *)
Definition spells {A} (print : A -> str) (wf : A -> bool) (l : str) (x : A) : Prop :=
  erases l (print x) /\ wf x = true.

(** Run [m] inside a parser that has read [pre]. *)
Lemma wps_sound {A B} (m : Parser -> result (A * Parser)) n R pre q (k : A * Parser -> result B) sig Q :
  sound m n R -> length q < n -> sig = pre ++ q ->
  (forall x l post, q = l ++ post -> R l x -> wps sig (k (x, at_pos (pre ++ l) post)) Q) ->
  wps sig (try_bind (m (at_pos pre q)) k) Q.
Proof.
  intros Hm Hl -> Hk. apply wps_bind. eapply wps_mono; [by apply Hm|].
  intros [x p'] (l & post & Hq & -> & HR). by apply (Hk x l post).
Qed.

Lemma wps_expect_bind {B} pre q c (k : Parser -> result B) sig Q :
  (c < 0x80)%N -> sig = pre ++ q ->
  (forall q', q = c :: q' -> wps sig (k (at_pos (pre ++ [c]) q')) Q) ->
  wps sig (try_bind (expect (at_pos pre q) c) k) Q.
Proof. intros Hc -> Hk. apply wps_bind. by apply wps_expect. Qed.

Lemma sound_mono {A} (m : Parser -> result (A * Parser)) n (R R' : str -> A -> Prop) :
  sound m n R -> (forall l x, R l x -> R' l x) -> sound m n R'.
Proof.
  intros Hm HR pre q Hq. eapply wps_mono; [by apply Hm|].
  intros [x p'] (l & post & ? & ? & ?). eauto 10.
Qed.

Lemma sound_identifier n : sound parse_identifier n (fun l x => l = x /\ name_ok x = true).
Proof.
  intros pre q _. destruct (span_ident q) as (name & rest & -> & Hn & Hs).
  rewrite parse_identifier_at by done. unfold name_ok.
  destruct (bool_decide (name = [])) eqn:E; simpl; [done|].
  destruct (match rest with c :: _ => is_forbidden_in_identifier c | [] => false end); simpl; [done|].
  exists name, rest. by rewrite E, Hn.
Qed.

Lemma sound_identifier_until delim n :
  is_signature_delimiter delim = true ->
  sound (fun p => parse_identifier_until p delim) n (fun l x => l = x /\ name_ok x = true).
Proof.
  intros Hd pre q _. destruct (span_ident q) as (name & rest & -> & Hn & Hs).
  rewrite parse_identifier_until_at by done. unfold name_ok.
  destruct (bool_decide (name = [])) eqn:E; simpl; [done|].
  destruct (bool_decide (head rest <> _)); simpl; [done|]. exists name, rest. by rewrite E, Hn.
Qed.

Lemma erases_nil_inv t : erases [] t -> t = [].
Proof. intros H. by inversion H. Qed.

Lemma spells_nonempty {A} (print : A -> str) wf l x : spells print wf l x -> print x <> [] -> l <> [].
Proof. intros [He _] Hp ->. by apply erases_nil_inv in He. Qed.

(** The loops of the parser: stop, fail, or read one more element and push it. *)
Lemma sound_loop {A} (loop : nat -> Parser -> list A -> result (list A * Parser))
    (m : Parser -> result (A * Parser)) n (stop : str -> Prop) print wf :
  (forall fuel pre q acc, let p := at_pos pre q in
     (loop (S fuel) p acc = ok (acc, p) /\ stop q) \/ loop (S fuel) p acc = invalid p \/
     loop (S fuel) p acc = ('(x, p') <-? m p ;; loop fuel p' (acc ++ [x]))) ->
  sound m n (spells print wf) -> (forall x, wf x = true -> print x <> []) ->
  forall fuel pre q acc, length q < fuel -> length q < n ->
    wps (pre ++ q) (loop fuel (at_pos pre q) acc) (fun '(res, p') =>
      exists new l post, res = acc ++ new /\ q = l ++ post /\ p' = at_pos (pre ++ l) post /\
        stop post /\ (new = [] -> l = []) /\ spells (fun l => concat (map print l)) (forallb wf) l new).
Proof.
  intros Hstep Hm Hne fuel. induction fuel as [|fuel IH]; intros pre q acc Hf Hq; [lia|].
  destruct (Hstep fuel pre q acc) as [[-> Hst] | [-> | ->]]; [|done|].
  - by exists [], [], q; rewrite !app_nil_r.
  - eapply wps_sound; [done..|]. intros x l post -> Hx.
    assert (Hl : l <> []) by (eapply spells_nonempty; [done|apply Hne, Hx]).
    rewrite length_app in *. destruct l as [|c l]; [done|]. simpl in Hf, Hq.
    rewrite app_assoc. eapply wps_mono; [apply IH; lia|].
    intros [res p'] (new & l' & post' & -> & -> & -> & Hst & _ & [He Hw]). destruct Hx as [Hxe Hxw].
    exists (x :: new), ((c :: l) ++ l'), post'. rewrite <-!app_assoc. split_and!; [done..|].
    split; simpl; [by apply (erases_app (c :: l))|by rewrite Hxw].
Qed.

(** A list between angle brackets, or nothing. *)
Lemma sound_angled {A} (loop : nat -> Parser -> list A -> result (list A * Parser))
    (m : Parser -> result (A * Parser)) n print wf :
  (forall fuel pre q acc, let p := at_pos pre q in
     loop (S fuel) p acc = ok (acc, p) \/ loop (S fuel) p acc = invalid p \/
     loop (S fuel) p acc = ('(x, p') <-? m p ;; loop fuel p' (acc ++ [x]))) ->
  sound m n (spells print wf) -> (forall x, wf x = true -> print x <> []) ->
  sound (fun p =>
    if decide (peek p = Some (ch "<")) then
      p <-? expect p (ch "<") ;;
      '(out, p) <-? loop (S (length (ps_bytes p))) p [] ;;
      p <-? expect p (ch ">") ;;
      ok (out, p)
    else ok ([], p)) n (spells (angled print) (forallb wf)).
Proof.
  intros Hstep Hm Hne pre q Hq. case_decide as H.
  - eapply wps_expect_bind; [done..|]. intros q' ->. rewrite length_bytes_at. simpl in Hq.
    apply wps_bind. replace (pre ++ ch "<" :: q') with ((pre ++ [ch "<"]) ++ q') by (by rewrite <-app_assoc).
    eapply wps_mono.
    { apply (sound_loop loop m n (fun _ => True) print wf); [|done..| |lia].
      { intros fuel pre' q'' acc. destruct (Hstep fuel pre' q'' acc); auto. }
      pose proof (length_le_str_len q'). lia. }
    intros [res p'] (new & l & post & -> & -> & -> & _ & Hnil & [He Hw]).
    eapply wps_expect_bind; [done|by rewrite <-!app_assoc|]. intros q'' ->.
    exists (ch "<" :: l ++ [ch ">"]), q''. simpl. rewrite <-!app_assoc. split_and!; [done..|].
    split; [|done]. destruct new as [|a new]; [|by apply erases_cons, erases_app].
    rewrite Hnil by done. by apply erases_empty.
  - exists [], q. rewrite app_nil_r. split_and!; [done..|]. split; [apply erases_nil|done].
Qed.

(** The byte that was peeked at is the next character. *)
Lemma decide_peek pre q c :
  (c < 0x80)%N -> peek (at_pos pre q) = Some c -> exists q', q = c :: q'.
Proof. intros Hc Hp. by eapply peek_inv. Qed.

Lemma print_class_head c : exists s, print_class c = ch "L" :: s.
Proof. destruct c. by eexists. Qed.

Lemma print_type_nonempty t : print_type t <> [].
Proof. destruct t; simpl; try done. by destruct (print_class_head c) as [s ->]. Qed.

Lemma print_argument_nonempty a : print_argument a <> [].
Proof. destruct a; simpl; try done. apply print_type_nonempty. Qed.

Lemma name_ok_nonempty n : name_ok n = true -> n <> [].
Proof. unfold name_ok. by destruct n. Qed.

Lemma sound_type_variable n : sound parse_type_variable_signature n (spells print_type wf_thrown).
Proof.
  intros pre q Hq. unfold parse_type_variable_signature. eapply wps_expect_bind; [done..|].
  intros q' ->. simpl in Hq. eapply (wps_sound (fun p => parse_identifier_until p _)).
  - by apply (sound_identifier_until (ch ";") n).
  - lia.
  - by rewrite <-app_assoc.
  - intros x l post -> [-> Hx]. eapply wps_expect_bind; [done|by rewrite <-!app_assoc|].
    intros q' ->. exists (ch "T" :: x ++ [ch ";"]), q'. simpl. rewrite <-!app_assoc.
    split_and!; [done..|]. split; [simpl; auto|done].
Qed.

(** The names before the last one are the package. *)
Lemma package_text first new package last :
  first :: new = package ++ [last] ->
  first ++ concat (map (cons (ch "/")) new) = print_package package ++ last.
Proof.
  revert first package; induction new as [|x new IH]; intros first package Hp; simpl.
  - destruct package as [|y package]; simplify_eq/=; [by rewrite app_nil_r|].
    by destruct package.
  - destruct package as [|y package]; simplify_eq/=. rewrite (IH x package) by done.
    unfold print_package. simpl. by rewrite <-!app_assoc.
Qed.

Lemma wps_package_loop fuel pre q package first :
  length q < fuel ->
  wps (pre ++ q) (package_loop fuel (at_pos pre q) package first) (fun '(package', first', p') =>
    exists new l post, package' ++ [first'] = package ++ first :: new /\
      q = l ++ post /\ p' = at_pos (pre ++ l) post /\
      l = concat (map (cons (ch "/")) new) /\ forallb name_ok new = true).
Proof.
  revert pre q package first; induction fuel as [|fuel IH]; intros pre q package first Hf; [lia|].
  simpl. case_decide as Hs.
  - apply decide_peek in Hs as [q' ->]; [|done]. rewrite bump_cons by done. simpl in Hf.
    eapply wps_sound; [apply (sound_identifier (S (length q')))|lia|by rewrite <-app_assoc|].
    intros x l post -> [-> Hx]. rewrite length_app in Hf. cbv beta iota.
    replace (pre ++ ch "/" :: x ++ post) with (((pre ++ [ch "/"]) ++ x) ++ post)
      by (by rewrite <-!app_assoc).
    eapply wps_mono; [apply IH; lia|].
    intros [[package' first'] p'] (new & l' & post' & Hp & -> & -> & -> & Hn).
    exists (x :: new), (ch "/" :: x ++ concat (map (cons (ch "/")) new)), post'.
    simpl. rewrite <-!app_assoc in *. simpl in *. split_and!; [done..|by rewrite Hx].
  - exists [], [], q. by rewrite app_nil_r.
Qed.

Section SoundRec.
Context (rec : Parser -> result (Sig.TypeSignature * Parser)) (n : nat).
Hypothesis Hrec : sound rec n (spells print_type wf_bound).

Lemma sound_argument : sound (parse_type_argument rec) n (spells print_argument wf_argument).
Proof.
  intros pre q Hq. unfold parse_type_argument. case_decide as H1.
  { apply decide_peek in H1 as [q' ->]; [|done]. rewrite bump_cons by done.
    exists [ch "*"], q'. split_and!; [done..|]. split; [apply erases_refl|done]. }
  case_decide as H2; [|case_decide as H3].
  1,2: match goal with H : peek _ = Some ?c |- _ =>
    apply decide_peek in H as [q' ->]; [|done]; rewrite bump_cons by done; simpl in Hq;
    eapply wps_sound; [done|lia|by rewrite <-app_assoc|];
    intros x l post -> [He Hw]; exists (c :: l), post; rewrite <-app_assoc;
    split_and!; [done..|]; split; [by constructor|done] end.
  destruct (starts_reference (peek (at_pos pre q))); [|done].
  eapply wps_sound; [done..|]. intros x l post -> [He Hw]. by exists l, post.
Qed.

Lemma sound_arguments :
  sound (parse_type_arguments_if_present rec) n (spells (angled print_argument) (forallb wf_argument)).
Proof.
  apply (sound_angled (args_loop rec) (parse_type_argument rec));
    [|apply sound_argument|intros; apply print_argument_nonempty].
  intros fuel pre' q'' acc. simpl. repeat case_decide; auto.
  destruct (is_eof (at_pos pre' q'')); auto.
Qed.

(** The body of the loop over the segments. *)
Definition next_segment (p : Parser) : result (Sig.ClassTypeSegment * Parser) :=
  p <-? expect p (ch ".") ;;
  '(name, p) <-? parse_identifier p ;;
  '(type_arguments, p) <-? parse_type_arguments_if_present rec p ;;
  ok (Sig.mkClassTypeSegment name type_arguments, p).

Lemma sound_next_segment :
  sound next_segment n (spells (fun y => ch "." :: print_segment y) wf_segment).
Proof.
  intros pre q Hq. unfold next_segment. eapply wps_expect_bind; [done..|]. intros q' ->.
  simpl in Hq. eapply wps_sound; [apply (sound_identifier n)|lia|by rewrite <-app_assoc|].
  intros x l post -> [-> Hx]. rewrite length_app in Hq.
  eapply wps_sound; [apply sound_arguments|lia|by rewrite <-!app_assoc|].
  intros args l post' -> [He Hw]. exists (ch "." :: x ++ l), post'. simpl. rewrite <-!app_assoc.
  split_and!; [done..|]. split; simpl; [by auto|by rewrite Hx].
Qed.

Lemma segments_loop_step fuel pre q acc :
  let p := at_pos pre q in
  segments_loop rec (S fuel) p acc = ok (acc, p) \/
  segments_loop rec (S fuel) p acc = ('(x, p') <-? next_segment p ;; segments_loop rec fuel p' (acc ++ [x])).
Proof.
  simpl. case_decide as Hd; [|by left]. right. apply decide_peek in Hd as [q' ->]; [|done].
  unfold next_segment. rewrite expect_cons, bump_cons by done. cbn [try_bind ok].
  destruct (parse_identifier _) as [[e|[x p1]]| |]; try done. cbn [try_bind].
  by destruct (parse_type_arguments_if_present rec p1) as [[e|[args p2]]| |].
Qed.

Lemma sound_class_type :
  sound (parse_class_type_signature rec) (S n) (spells print_class wf_class).
Proof.
  intros pre q Hq. unfold parse_class_type_signature. eapply wps_expect_bind; [done..|]. intros q1 ->.
  simpl in Hq. eapply wps_sound; [apply (sound_identifier n)|lia|by rewrite <-app_assoc|].
  intros first l1 q2 -> [-> Hfirst]. rewrite length_app in Hq. rewrite length_bytes_at.
  apply wps_bind. replace (pre ++ ch "L" :: first ++ q2) with (((pre ++ [ch "L"]) ++ first) ++ q2)
    by (by rewrite <-!app_assoc).
  eapply wps_mono; [apply wps_package_loop; pose proof (length_le_str_len q2); lia|].
  intros [[package last] p'] (new & l2 & q3 & Hp & -> & -> & Hl2 & Hnew). rewrite length_app in Hq.
  eapply wps_sound; [apply sound_arguments|lia|by rewrite <-!app_assoc|].
  intros args l3 q4 -> [He3 Hargs]. rewrite length_app in Hq. rewrite length_bytes_at.
  apply wps_bind. rewrite !app_assoc. eapply wps_mono.
  { apply (sound_loop (segments_loop rec) next_segment n (fun _ => True) (fun y => ch "." :: print_segment y) wf_segment);
      [|apply sound_next_segment|done|pose proof (length_le_str_len q4); lia|lia].
    intros fuel pre' q' acc. destruct (segments_loop_step fuel pre' q' acc); auto. }
  intros [segs p'] (more & l4 & q5 & -> & -> & -> & _ & _ & [He4 Hmore]).
  eapply wps_expect_bind; [done|by rewrite <-!app_assoc|]. intros q6 ->.
  exists (ch "L" :: (first ++ l2) ++ (l3 ++ l4) ++ [ch ";"]), q6.
  rewrite <-!app_assoc. simpl. rewrite <-!app_assoc. split_and!; [done..|].
  assert (Hnames : forallb name_ok (package ++ [last]) = true) by (rewrite Hp; simpl; by rewrite Hfirst).
  rewrite forallb_app in Hnames. simpl in Hnames. rewrite andb_true_r, andb_true_iff in Hnames.
  destruct Hnames as [Hpk Hlast]. split.
  - simpl. apply erases_cons. rewrite app_assoc, Hl2, (package_text _ _ _ _ (eq_sym Hp)), <-!app_assoc. auto.
  - simpl. by rewrite Hpk, Hlast, Hargs, Hmore.
Qed.

Lemma sound_type : sound (parse_type_signature rec) n (spells print_type wf_type).
Proof.
  intros pre q Hq. unfold parse_type_signature. destruct (peek (at_pos pre q)) as [c|] eqn:Ep; [|done].
  destruct (base_type c) as [t|] eqn:Et.
  - apply base_type_Some in Et as ->. apply peek_inv in Ep as [q' ->]; [|by destruct t].
    rewrite bump_cons by (by destruct t). exists [base_char t], q'. split_and!; [done..|].
    split; [apply erases_refl|done].
  - destruct (starts_reference (Some c)); [|done]. eapply wps_mono; [by apply Hrec|].
    intros [x p'] (l & post & -> & -> & [He Hw]). exists l, post. split_and!; [done..|].
    split; [done|]. by apply andb_true_iff in Hw as [_ Hw].
Qed.
End SoundRec.

Lemma wf_thrown_bound t : wf_thrown t = true -> wf_bound t = true.
Proof. by destruct t. Qed.

Lemma sound_field_type n : sound (parse_field_type_signature n) n (spells print_type wf_bound).
Proof.
  induction n as [|n IH]; intros pre q Hq; [lia|]. simpl. repeat case_decide.
  - eapply wps_sound; [by apply sound_class_type|done..|]. intros x l post -> [He Hw].
    by exists l, post.
  - eapply (sound_mono _ (S n)); [apply sound_type_variable| |done].
    intros l x [He Hw]. split; [done|]. by apply wf_thrown_bound.
  - match goal with H : peek _ = Some _ |- _ => apply decide_peek in H as [q' ->]; [|done] end.
    rewrite bump_cons by done. simpl in Hq.
    eapply wps_sound; [by apply sound_type|lia|by rewrite <-app_assoc|].
    intros x l post -> [He Hw]. exists (ch "[" :: l), post. rewrite <-app_assoc.
    split_and!; [done..|]. split; [simpl; auto|done].
  - done.
Qed.

Lemma sound_rec n : sound field_rec n (spells print_type wf_bound).
Proof.
  intros pre q _. unfold field_rec, sig_fuel. rewrite length_bytes_at.
  apply sound_field_type. pose proof (length_le_str_len q). lia.
Qed.

#[local] Hint Resolve sound_rec : core.

(** [length q] fits the fuel of a loop that starts before [q]. *)
Ltac loop_fuel := rewrite ?length_bytes_at; match goal with
  | |- length ?q < _ => pose proof (length_le_str_len q); lia end.

(** A character that was peeked at, then a value. *)
Definition after (c : char) {A} (m : Parser -> result (A * Parser)) (p : Parser) : result (A * Parser) :=
  p <-? expect p c ;; m p.

Lemma sound_after c {A} (m : Parser -> result (A * Parser)) n print wf :
  (c < 0x80)%N -> sound m n (spells print wf) ->
  sound (after c m) n (spells (fun x => c :: print x) wf).
Proof.
  intros Hc Hm pre q Hq. unfold after. eapply wps_expect_bind; [done..|]. intros q' ->. simpl in Hq.
  replace (pre ++ c :: q') with ((pre ++ [c]) ++ q') by (by rewrite <-app_assoc).
  eapply wps_mono; [apply Hm; lia|]. intros [x p'] (l & post & -> & -> & [He Hw]).
  exists (c :: l), post. rewrite <-app_assoc. split_and!; [done..|]. by split; [constructor|].
Qed.

Lemma after_peek c {A B} (m : Parser -> result (A * Parser)) (k : A * Parser -> result B) pre q :
  (c < 0x80)%N -> peek (at_pos pre q) = Some c ->
  try_bind (m (snd (bump (at_pos pre q)))) k = try_bind (after c m (at_pos pre q)) k.
Proof.
  intros Hc Hp. apply decide_peek in Hp as [q' ->]; [|done]. unfold after.
  by rewrite bump_cons, expect_cons.
Qed.

Lemma sound_bounds n fuel :
  forall pre q acc, length q < fuel -> length q < n ->
  wps (pre ++ q) (bounds_loop fuel (at_pos pre q) acc) (fun '(res, p') =>
    exists new l post, res = acc ++ new /\ q = l ++ post /\ p' = at_pos (pre ++ l) post /\
      head post <> Some (ch ":") /\ (new = [] -> l = []) /\
      spells (fun l => concat (map (fun t => ch ":" :: print_type t) l)) (forallb wf_bound) l new).
Proof.
  apply (sound_loop bounds_loop (after (ch ":") field_rec) n (fun q => head q <> Some (ch ":")));
    [|by apply sound_after|done].
  intros fuel' pre q acc. simpl. case_decide as Hd; [by right; right; apply after_peek|].
  left. split; [done|]. destruct q as [|c q]; [done|]. simpl. intros [= ->]. by rewrite peek_cons in Hd.
Qed.

Lemma sound_class_bound pre q Q :
  (forall o l post, q = l ++ post ->
     (o = None /\ l = [] /\ (exists post', post = ch ":" :: post') \/
      exists t, o = Some t /\ spells print_type wf_bound l t) ->
     Q (o, at_pos (pre ++ l) post)) ->
  wps (pre ++ q) (parse_class_bound (at_pos pre q)) Q.
Proof.
  intros HQ. unfold parse_class_bound. case_decide as Hd.
  - apply decide_peek in Hd as [q' ->]; [|done]. specialize (HQ None [] (ch ":" :: q') eq_refl).
    rewrite app_nil_r in HQ. apply HQ. left. eauto.
  - destruct (starts_reference (peek (at_pos pre q))); [|done].
    eapply (wps_sound field_rec (S (length q))); [done|lia|done|]. intros t l post -> Ht. apply HQ; eauto.
Qed.

Lemma sound_parameter n : sound parse_type_parameter n (spells print_parameter wf_parameter).
Proof.
  intros pre q Hq. unfold parse_type_parameter.
  eapply (wps_sound (fun p => parse_identifier_until p _)); [by apply (sound_identifier_until (ch ":") n)|done..|].
  intros name l1 q1 -> [-> Hname]. rewrite length_app in Hq.
  eapply wps_expect_bind; [done|by rewrite <-app_assoc|]. intros q2 ->. simpl in Hq.
  apply wps_bind. replace (pre ++ name ++ ch ":" :: q2) with (((pre ++ name) ++ [ch ":"]) ++ q2)
    by (by rewrite <-!app_assoc).
  apply sound_class_bound. intros o l2 q3 -> Ho. rewrite length_app in Hq.
  apply wps_bind. rewrite app_assoc. eapply wps_mono; [apply (sound_bounds n); [loop_fuel|lia]|].
  intros [bounds p'] (new & l3 & q4 & -> & -> & -> & Hst & Hnil & [He3 Hw3]).
  exists (name ++ ch ":" :: l2 ++ l3), q4. rewrite <-!app_assoc. simpl. rewrite <-!app_assoc.
  split_and!; [done..|]. unfold spells, print_parameter, wf_parameter. simpl. rewrite Hname, Hw3.
  destruct Ho as [(-> & -> & post' & Hpost)|(t & -> & [He2 Hw2])]; simpl; (split; [by auto|]); [|done].
  destruct new; [|done]. rewrite Hnil in Hpost by done. simpl in Hpost. by rewrite Hpost in Hst.
Qed.

Lemma print_parameter_nonempty tp : wf_parameter tp = true -> print_parameter tp <> [].
Proof. intros _. unfold print_parameter. by destruct (tp_name tp). Qed.

Lemma sound_parameters n :
  sound parse_type_parameters_if_present n (spells (angled print_parameter) (forallb wf_parameter)).
Proof.
  apply (sound_angled type_params_loop parse_type_parameter);
    [|apply sound_parameter|apply print_parameter_nonempty].
  intros fuel pre q acc. simpl. repeat case_decide; auto. destruct (is_eof (at_pos pre q)); auto.
Qed.

Lemma sound_class_rec n : sound (parse_class_type_signature field_rec) n (spells print_class wf_class).
Proof.
  intros pre q Hq. apply (sound_class_type field_rec n); [apply sound_rec|lia].
Qed.

Lemma sound_type_rec n : sound (parse_type_signature field_rec) n (spells print_type wf_type).
Proof. apply sound_type, sound_rec. Qed.

Lemma sound_thrown n : sound parse_thrown n (spells print_type wf_thrown).
Proof.
  intros pre q Hq. unfold parse_thrown. repeat case_decide; [by apply (sound_type_variable n)| |done].
  eapply wps_sound; [apply (sound_class_rec n)|done..|]. intros c l post -> [He Hw]. by exists l, post.
Qed.

Lemma sound_return n :
  sound parse_return_type n (spells (from_option print_type [ch "V"]) (from_option wf_type true)).
Proof.
  intros pre q Hq. unfold parse_return_type. case_decide as Hd.
  - apply decide_peek in Hd as [q' ->]; [|done]. rewrite bump_cons by done.
    exists [ch "V"], q'. split_and!; [done..|]. split; [apply erases_refl|done].
  - eapply wps_sound; [apply (sound_type_rec n)|done..|]. intros t l post -> [He Hw]. by exists l, post.
Qed.

(** The three loops of the entry points. *)
Lemma interfaces_step fuel pre q acc :
  let p := at_pos pre q in
  interfaces_loop (S fuel) p acc = (if decide (q = []) then ok (acc, p) else
    '(x, p') <-? parse_class_type_signature field_rec p ;; interfaces_loop fuel p' (acc ++ [x])).
Proof. simpl. rewrite is_eof_at. case_decide; [by rewrite bool_decide_true|by rewrite bool_decide_false]. Qed.

Lemma parameters_step fuel pre q acc :
  let p := at_pos pre q in
  parameters_loop (S fuel) p acc = (if decide (q = [] \/ peek p = Some (ch ")")) then ok (acc, p) else
    '(x, p') <-? parse_type_signature field_rec p ;; parameters_loop fuel p' (acc ++ [x])).
Proof.
  simpl. rewrite is_eof_at. case_decide as Hd.
  - destruct Hd as [-> | ->]; [done|]. by rewrite (bool_decide_false (Some _ <> _)), andb_false_r by auto.
  - rewrite (bool_decide_false (q = [])) by tauto. by rewrite bool_decide_true by tauto.
Qed.

(** A parser of a whole signature: it returns, and what it returns spells the signature. *)
Definition accepts {A} (parse : str -> result A) (print : A -> str) (wf : A -> bool) : Prop :=
  forall sig, wps sig (parse sig) (spells print wf sig).

Lemma accepts_field : accepts parse_field_signature print_type wf_bound.
Proof.
  intros sig. unfold parse_field_signature. change (parser_new sig) with (at_pos [] sig).
  eapply (wps_sound field_rec (S (length sig))); [done|lia|done|]. intros t l post Hs Ht.
  rewrite is_eof_at. simpl. case_bool_decide as Hp; [|done]. subst post. by rewrite Hs, app_nil_r.
Qed.

Lemma accepts_class : accepts parse_class_signature print_class_signature wf_class_signature.
Proof.
  intros sig. unfold parse_class_signature. change (parser_new sig) with (at_pos [] sig).
  set (n := S (length sig)). assert (Hn : length sig < n) by (unfold n; lia). clearbody n.
  eapply wps_sound; [apply (sound_parameters n)|done..|]. intros tps l1 q1 -> [He1 Hw1].
  rewrite length_app in Hn. simpl app.
  eapply wps_sound; [apply (sound_class_rec n)|lia|done|]. intros sup l2 q2 -> [He2 Hw2].
  rewrite length_app in Hn. apply wps_bind. rewrite app_assoc. eapply wps_mono.
  { eapply (sound_loop interfaces_loop (parse_class_type_signature field_rec) n (eq []) print_class wf_class);
      [|apply sound_class_rec| |loop_fuel|lia].
    - intros fuel pre q acc p. unfold p. rewrite interfaces_step. case_decide; auto.
    - intros c _. by destruct (print_class_head c) as [s ->]. }
  intros [ifs p'] (new & l3 & q3 & -> & -> & -> & <- & _ & [He3 Hw3]).
  split; simpl.
  - unfold print_class_signature. simpl. rewrite app_nil_r, <-app_assoc. auto.
  - unfold wf_class_signature. simpl. by rewrite Hw1, Hw2, Hw3.
Qed.

Lemma accepts_method : accepts parse_method_signature print_method_signature wf_method_signature.
Proof.
  intros sig. unfold parse_method_signature. change (parser_new sig) with (at_pos [] sig).
  set (n := S (length sig)). assert (Hn : length sig < n) by (unfold n; lia). clearbody n.
  eapply wps_sound; [apply (sound_parameters n)|done..|]. intros tps l1 q1 -> [He1 Hw1].
  rewrite length_app in Hn. simpl app. eapply wps_expect_bind; [done..|]. intros q2 ->. simpl in Hn.
  apply wps_bind. replace (l1 ++ ch "(" :: q2) with ((l1 ++ [ch "("]) ++ q2) by (by rewrite <-app_assoc).
  eapply wps_mono.
  { apply (sound_loop parameters_loop (parse_type_signature field_rec) n (fun _ => True) print_type wf_type);
      [|apply sound_type_rec|intros; apply print_type_nonempty|loop_fuel|lia].
    intros fuel pre q acc p. unfold p. rewrite parameters_step. case_decide; auto. }
  intros [params p'] (ps & l2 & q3 & -> & -> & -> & _ & _ & [He2 Hw2]). rewrite length_app in Hn.
  eapply wps_expect_bind; [done|by rewrite <-!app_assoc|]. intros q4 ->. simpl in Hn.
  eapply wps_sound; [apply (sound_return n)|lia|by rewrite <-!app_assoc|].
  intros ret l3 q5 -> [He3 Hw3]. rewrite length_app in Hn. apply wps_bind.
  replace ((l1 ++ [ch "("]) ++ l2 ++ ch ")" :: l3 ++ q5)
    with (((((l1 ++ [ch "("]) ++ l2) ++ [ch ")"]) ++ l3) ++ q5) by (by rewrite <-!app_assoc).
  eapply wps_mono.
  { apply (sound_loop throws_loop (after (ch "^") parse_thrown) n (fun _ => True)
      (fun t => ch "^" :: print_type t) wf_thrown); [|by apply sound_after, sound_thrown|done|loop_fuel|lia].
    intros fuel pre q acc. simpl. case_decide; [|by auto]. right; right. by apply after_peek. }
  intros [throws p'] (ts & l4 & q6 & -> & -> & -> & _ & _ & [He4 Hw4]).
  rewrite is_eof_at. case_bool_decide as Hq6; [subst q6|simpl; by rewrite <-!app_assoc].
  split; [|unfold wf_method_signature; simpl; by rewrite Hw1, Hw2, Hw3, Hw4].
  unfold print_method_signature. simpl. rewrite app_nil_r, <-!app_assoc. simpl. auto 10.
Qed.

(** ** What is printed is read back *)

(** [m] reads [x] from the text [l], whatever follows. *)
Definition parses {A} (m : Parser -> result (A * Parser)) (l : str) (x : A) : Prop :=
  forall pre post, m (at_pos pre (l ++ post)) = ok (x, at_pos (pre ++ l) post).

(** A text that ends an identifier. *)
Definition delimited (q : str) : Prop := exists c q', q = c :: q' /\ is_signature_delimiter c = true.

Lemma delimited_cons c q : is_signature_delimiter c = true -> delimited (c :: q).
Proof. by exists c, q. Qed.

Lemma delimited_stops q : delimited q -> stops q.
Proof.
  intros (c & q' & -> & Hc). simpl. unfold ident_char. rewrite Hc. by rewrite orb_true_r.
Qed.

Lemma read_identifier pre n q :
  name_ok n = true -> delimited q -> parse_identifier (at_pos pre (n ++ q)) = ok (n, at_pos (pre ++ n) q).
Proof.
  unfold name_ok. rewrite andb_true_iff, negb_true_iff. intros [Hne Hn] Hq.
  rewrite parse_identifier_at by (done || by apply delimited_stops). rewrite Hne.
  destruct Hq as (c & q' & -> & Hc). by rewrite (proj2 (delimiter_ascii _ Hc)).
Qed.

Lemma read_identifier_until pre n delim q :
  name_ok n = true -> is_signature_delimiter delim = true ->
  parse_identifier_until (at_pos pre (n ++ delim :: q)) delim = ok (n, at_pos (pre ++ n) (delim :: q)).
Proof.
  unfold name_ok. rewrite andb_true_iff, negb_true_iff. intros [Hne Hn] Hd.
  rewrite parse_identifier_until_at by (done || by apply delimited_stops, delimited_cons).
  rewrite Hne. rewrite bool_decide_false; [done|]. intros Hh. by apply Hh.
Qed.

Lemma loop_run {A} (loop : nat -> Parser -> list A -> result (list A * Parser))
    (print : A -> str) (good : A -> Prop) (follow stop : str -> Prop) :
  (forall fuel pre x q acc, good x -> follow q ->
     loop (S fuel) (at_pos pre (print x ++ q)) acc = loop fuel (at_pos (pre ++ print x) q) (acc ++ [x])) ->
  (forall x q, good x -> follow (print x ++ q)) ->
  (forall q, stop q -> follow q) ->
  (forall fuel pre q acc, stop q -> loop (S fuel) (at_pos pre q) acc = ok (acc, at_pos pre q)) ->
  forall l fuel pre q acc, Forall good l -> stop q -> length l < fuel ->
    loop fuel (at_pos pre (concat (map print l) ++ q)) acc =
    ok (acc ++ l, at_pos (pre ++ concat (map print l)) q).
Proof.
  intros Hstep Hfol Hsf Hstop l. induction l as [|x l IH]; intros [|fuel] pre q acc Hl Hq Hf; simpl in *; try lia.
  - rewrite !app_nil_r. by apply Hstop.
  - apply Forall_cons_1 in Hl as [Hx Hl]. rewrite <-app_assoc, Hstep; [|done|].
    + rewrite IH by (done || lia). by rewrite <-!app_assoc.
    + destruct Hl as [|y l Hy Hl]; [by apply Hsf|]. simpl. rewrite <-app_assoc. by apply Hfol.
Qed.

(** The fuel of a loop that starts before a printed list. *)
Lemma length_concat_le {A} (print : A -> str) l :
  (forall x, x ∈ l -> print x <> []) -> length l <= length (concat (map print l)).
Proof.
  induction l as [|x l IH]; intros Hp; simpl; [done|]. rewrite length_app.
  specialize (Hp x) as Hx. destruct (print x); [exfalso; apply Hx; [left|done]|].
  simpl. assert (length l <= length (concat (map print l))); [|lia].
  apply IH. intros y Hy. apply Hp. by right.
Qed.

Lemma length_concat_elem {A} (print : A -> str) l x :
  x ∈ l -> length (print x) <= length (concat (map print l)).
Proof. induction 1; simpl; rewrite length_app; lia. Qed.

Lemma run_fuel {A} (print : A -> str) l pre q :
  (forall x, x ∈ l -> print x <> []) ->
  length l < S (length (ps_bytes (at_pos pre (concat (map print l) ++ q)))).
Proof.
  intros Hp. rewrite length_bytes_at, str_len_app. pose proof (length_concat_le print l Hp).
  pose proof (length_le_str_len (concat (map print l))). lia.
Qed.

(** A list between angle brackets; without one, something else must follow. *)
Lemma angled_run {A} (loop : nat -> Parser -> list A -> result (list A * Parser))
    print good (follow : str -> Prop) pre q l :
  (forall fuel pre x q acc, good x -> follow q ->
     loop (S fuel) (at_pos pre (print x ++ q)) acc = loop fuel (at_pos (pre ++ print x) q) (acc ++ [x])) ->
  (forall x q, good x -> follow (print x ++ q)) -> (forall q, head q = Some (ch ">") -> follow q) ->
  (forall fuel pre q acc, head q = Some (ch ">") -> loop (S fuel) (at_pos pre q) acc = ok (acc, at_pos pre q)) ->
  Forall good l -> (forall x, x ∈ l -> print x <> []) ->
  peek (at_pos pre q) <> Some (ch "<") ->
  (let p := at_pos pre (angled print l ++ q) in
   if decide (peek p = Some (ch "<")) then
      p <-? expect p (ch "<") ;;
      '(out, p) <-? loop (S (length (ps_bytes p))) p [] ;;
      p <-? expect p (ch ">") ;;
      ok (out, p)
   else ok ([], p)) = ok (l, at_pos (pre ++ angled print l) q).
Proof.
  intros Hstep Hfol Hsf Hstop Hl Hne Hq. destruct l as [|x l]; simpl; [by rewrite decide_False, app_nil_r|].
  rewrite <-app_assoc. change (print x ++ concat (map print l)) with (concat (map print (x :: l))).
  rewrite decide_True by (by apply peek_cons). rewrite expect_cons by done. cbn [try_bind ok].
  rewrite (loop_run loop print good follow (fun q => head q = Some (ch ">")));
    [|done..|by apply run_fuel].
  cbn [try_bind ok app]. rewrite expect_cons by done. cbn [try_bind ok]. by rewrite <-!app_assoc.
Qed.

Lemma reference_head t :
  is_reference t = true ->
  exists c s, print_type t = c :: s /\ (c < 0x80)%N /\ starts_reference (Some c) = true.
Proof.
  destruct t as [b|c|c|n]; intros Ht; [done|by eexists _, _..| |by eexists _, _].
  destruct (print_class_head c) as [s Hs]. simpl. rewrite Hs. by eexists _, _.
Qed.

Lemma peek_reference pre t q :
  is_reference t = true -> starts_reference (peek (at_pos pre (print_type t ++ q))) = true.
Proof.
  intros Ht. destruct (reference_head t Ht) as (c & s & -> & Hc & Hs). simpl. by rewrite peek_cons.
Qed.

Lemma wf_bound_inv t : wf_bound t = true -> is_reference t = true /\ wf_type t = true.
Proof. unfold wf_bound. by rewrite andb_true_iff. Qed.

Lemma parses_type_variable n : name_ok n = true ->
  parses parse_type_variable_signature (print_type (Sig.TypeVariable n)) (Sig.TypeVariable n).
Proof.
  intros Hn pre post. simpl. unfold parse_type_variable_signature. rewrite <-app_assoc.
  rewrite expect_cons by done. cbn [try_bind ok app]. rewrite read_identifier_until by done.
  cbn [try_bind ok]. rewrite expect_cons by done. cbn [try_bind ok]. by rewrite <-!app_assoc.
Qed.

(** The package of a class type, up to its first segment. *)
Lemma package_run new fuel pre package first q :
  forallb name_ok new = true -> delimited q -> head q <> Some (ch "/") -> length new < fuel ->
  exists package' last, package ++ first :: new = package' ++ [last] /\
    package_loop fuel (at_pos pre (concat (map (cons (ch "/")) new) ++ q)) package first =
    ok (package', last, at_pos (pre ++ concat (map (cons (ch "/")) new)) q).
Proof.
  intros Hn Hq Hs. revert fuel pre package first; induction new as [|x new IH];
    intros [|fuel] pre package first Hf; simpl in *; try lia.
  - exists package, first. split; [done|]. rewrite decide_False, app_nil_r; [done|].
    destruct Hq as (c & q' & -> & Hc). by rewrite peek_cons by apply delimiter_ascii, Hc.
  - apply andb_true_iff in Hn as [Hx Hn]. rewrite decide_True by (by apply peek_cons).
    rewrite bump_cons by done. rewrite <-app_assoc, read_identifier; [|done|].
    + cbn [try_bind ok]. destruct (IH Hn fuel ((pre ++ [ch "/"]) ++ x) (package ++ [first]) x ltac:(lia))
        as (package' & last & Hp & ->). rewrite <-app_assoc in Hp. exists package', last.
      split; [done|]. by rewrite <-!app_assoc.
    + destruct new; simpl; [done|]. by apply delimited_cons.
Qed.

Section CompleteRec.
Context (rec : Parser -> result (Sig.TypeSignature * Parser)) (n : nat).
Hypothesis Hrec : forall t, wf_bound t = true -> length (print_type t) < n -> parses rec (print_type t) t.

Definition good_argument (a : Sig.TypeArgument) : Prop :=
  wf_argument a = true /\ length (print_argument a) < n.

Lemma parses_argument a : good_argument a -> parses (parse_type_argument rec) (print_argument a) a.
Proof.
  intros [Hw Hl] pre post. unfold parse_type_argument.
  destruct a as [|t|t|t]; simpl print_argument; simpl app; simpl in Hl.
  - by rewrite decide_True, bump_cons by (done || by apply peek_cons).
  - pose proof (wf_bound_inv t Hw) as [Hr _]. destruct (reference_head t Hr) as (c & s & Hs & Hc & Hst).
    assert (Hpk : peek (at_pos pre (print_type t ++ post)) = Some c) by (rewrite Hs; by apply peek_cons).
    rewrite Hpk, Hst. rewrite !decide_False by (intros [= ->]; vm_compute in Hst; discriminate).
    by rewrite Hrec by (done || lia).
  - rewrite peek_cons by done. rewrite decide_False, decide_True by done. rewrite bump_cons by done.
    rewrite Hrec by (done || lia). cbn [try_bind ok]. by rewrite <-app_assoc.
  - rewrite peek_cons by done. rewrite !decide_False, decide_True by done. rewrite bump_cons by done.
    rewrite Hrec by (done || lia). cbn [try_bind ok]. by rewrite <-app_assoc.
Qed.

Lemma argument_head pre a q :
  good_argument a -> peek (at_pos pre (print_argument a ++ q)) <> Some (ch ">") /\ print_argument a ++ q <> [].
Proof.
  intros [Hw _]. destruct a as [|t|t|t]; simpl; try (by rewrite peek_cons).
  pose proof (wf_bound_inv t Hw) as [Hr _]. destruct (reference_head t Hr) as (c & s & -> & Hc & Hst).
  simpl. rewrite peek_cons by done. split; [|done]. intros [= ->]. vm_compute in Hst. discriminate.
Qed.

Lemma arguments_run pre args q :
  Forall good_argument args -> peek (at_pos pre q) <> Some (ch "<") ->
  parse_type_arguments_if_present rec (at_pos pre (angled print_argument args ++ q)) =
  ok (args, at_pos (pre ++ angled print_argument args) q).
Proof.
  intros Hargs Hq. apply (angled_run (args_loop rec) print_argument good_argument (fun _ => True));
    [|done..| |done| |done].
  - intros fuel pre' x q' acc Hx _. destruct (argument_head pre' x q' Hx) as [H1 H2]. cbn [args_loop].
    rewrite decide_False, is_eof_at, bool_decide_false by done. by rewrite parses_argument.
  - intros fuel pre' [|c q'] acc Hh; simplify_eq/=. by rewrite decide_True by (by apply peek_cons).
  - intros x _. apply print_argument_nonempty.
Qed.

Definition good_segment (s : Sig.ClassTypeSegment) : Prop :=
  wf_segment s = true /\ length (print_segment s) < n.

Lemma angled_elem {A} (print : A -> str) l x : x ∈ l -> length (print x) <= length (angled print l).
Proof.
  intros Hx. destruct l as [|y l]; [by apply elem_of_nil in Hx|].
  pose proof (length_concat_elem print _ _ Hx). simpl in *. rewrite !length_app in *. lia.
Qed.

Lemma good_segment_inv name args :
  good_segment (Sig.mkClassTypeSegment name args) -> name_ok name = true /\ Forall good_argument args.
Proof.
  intros [Hw Hl]. simpl in *. apply andb_true_iff in Hw as [Hn Ha]. split; [done|].
  apply Forall_forall. intros a Hin. split.
  - rewrite forallb_forall in Ha. apply Ha. by apply list_elem_of_In.
  - pose proof (angled_elem print_argument args a Hin). rewrite length_app in Hl. lia.
Qed.

(** What follows a segment: another one or the end. *)
Definition segment_end (q : str) : Prop := head q = Some (ch ".") \/ head q = Some (ch ";").

Lemma segment_end_inv pre q :
  segment_end q -> delimited q /\ peek (at_pos pre q) <> Some (ch "<") /\ head q <> Some (ch "/").
Proof.
  intros [Hq|Hq]; destruct q as [|c q]; simplify_eq/=; rewrite peek_cons by done;
    (split; [by apply delimited_cons|done]).
Qed.

Lemma delimited_angled {A} (print : A -> str) l q : delimited q -> delimited (angled print l ++ q).
Proof. destruct l; [done|]. intros _. by apply delimited_cons. Qed.

Lemma segments_run segs fuel pre q acc :
  Forall good_segment segs -> head q = Some (ch ";") -> length segs < fuel ->
  segments_loop rec fuel (at_pos pre (concat (map (fun y => ch "." :: print_segment y) segs) ++ q)) acc =
  ok (acc ++ segs, at_pos (pre ++ concat (map (fun y => ch "." :: print_segment y) segs)) q).
Proof.
  apply (loop_run (segments_loop rec) (fun y => ch "." :: print_segment y) good_segment segment_end
    (fun q => head q = Some (ch ";"))).
  - intros fuel' pre' [name args] q' acc' [Hn Ha]%good_segment_inv Hq'.
    destruct (segment_end_inv (((pre' ++ [ch "."]) ++ name) ++ angled print_argument args) q' Hq')
      as (Hd & _ & _).
    simpl. rewrite decide_True by (by apply peek_cons). rewrite bump_cons, <-app_assoc by done.
    rewrite read_identifier by (done || by apply delimited_angled). cbn [try_bind ok].
    rewrite arguments_run; [|done|apply segment_end_inv, Hq'].
    cbn [try_bind ok]. by rewrite <-!app_assoc.
  - intros x q' _. by left.
  - intros q' Hq'. by right.
  - intros fuel' pre' [|c q'] acc' Hh; simplify_eq/=. by rewrite decide_False by (by rewrite peek_cons).
Qed.

Lemma good_segments package segs :
  length (print_class (Sig.mkClassTypeSignature package segs)) < S n ->
  forallb wf_segment segs = true -> Forall good_segment segs.
Proof.
  intros Hl Hw. apply Forall_forall. intros s Hs. split.
  - rewrite forallb_forall in Hw. apply Hw. by apply list_elem_of_In.
  - simpl in Hl. rewrite !length_app in Hl. enough (length (print_segment s) <= length (dotted print_segment segs)) by lia.
    destruct segs as [|x segs]; [by apply elem_of_nil in Hs|]. simpl. rewrite length_app.
    apply elem_of_cons in Hs as [->|Hs]; [lia|].
    pose proof (length_concat_elem (fun y => ch "." :: print_segment y) _ _ Hs). simpl in *. lia.
Qed.

(** The text of a class type: the first name, the other names after slashes, the segments. *)
Lemma class_text package last args segs :
  exists first new, first :: new = package ++ [last] /\
  print_class (Sig.mkClassTypeSignature package (Sig.mkClassTypeSegment last args :: segs)) =
  ch "L" :: first ++ concat (map (cons (ch "/")) new) ++ angled print_argument args ++
    concat (map (fun y => ch "." :: print_segment y) segs) ++ [ch ";"].
Proof.
  assert (exists first new, first :: new = package ++ [last]) as (first & new & Hp)
    by (destruct package; by eexists _, _).
  exists first, new. split; [done|]. rewrite (app_assoc first), (package_text _ _ _ _ Hp).
  simpl. by rewrite <-!app_assoc.
Qed.

Lemma parses_class c :
  wf_class c = true -> length (print_class c) < S n ->
  parses (parse_class_type_signature rec) (print_class c) c.
Proof.
  destruct c as [package segs]. intros Hw Hl pre post. simpl in Hw.
  apply andb_true_iff in Hw as [[Hpk Hne]%andb_true_iff Hsegs].
  pose proof (good_segments _ _ Hl Hsegs) as Hgood. clear Hl Hsegs.
  destruct segs as [|[last args] segs]; [done|]. clear Hne.
  apply Forall_cons_1 in Hgood as [[Hlast Hargs]%good_segment_inv Hgood].
  destruct (class_text package last args segs) as (first & new & Hp & ->).
  assert (Hnames : forallb name_ok (first :: new) = true)
    by (rewrite Hp, forallb_app, Hpk; simpl; by rewrite Hlast).
  simpl in Hnames. apply andb_true_iff in Hnames as [Hfirst Hnew].
  set (more := concat (map (fun y => ch "." :: print_segment y) segs)).
  assert (Hse : segment_end (more ++ ch ";" :: post))
    by (unfold more; destruct segs; [by right|by left]).
  unfold parse_class_type_signature. simpl app. rewrite expect_cons by done. cbn [try_bind ok].
  rewrite <-!app_assoc. simpl app.
  assert (Hd : delimited (angled print_argument args ++ more ++ ch ";" :: post))
    by apply delimited_angled, (segment_end_inv [] _ Hse).
  rewrite read_identifier; [|done|by destruct new; [|apply delimited_cons]]. cbn [try_bind ok].
  destruct (package_run new (S (length (ps_bytes (at_pos ((pre ++ [ch "L"]) ++ first)
      (concat (map (cons (ch "/")) new) ++ angled print_argument args ++ more ++ ch ";" :: post)))))
    ((pre ++ [ch "L"]) ++ first) [] first (angled print_argument args ++ more ++ ch ";" :: post))
    as (package' & last' & Hp' & ->); [done|done| |by apply run_fuel|].
  { destruct args; [|done]. apply (segment_end_inv [] _ Hse). }
  simpl in Hp'. rewrite Hp in Hp'. apply app_inj_2 in Hp' as [<- [= <-]]; [|done].
  cbn [try_bind ok]. rewrite arguments_run; [|done|apply segment_end_inv, Hse]. cbn [try_bind ok].
  unfold more in *. rewrite segments_run; [|done|done|by apply run_fuel]. cbn [try_bind ok].
  rewrite expect_cons by done. cbn [try_bind ok app]. by rewrite <-!app_assoc.
Qed.

Lemma parses_type t :
  wf_type t = true -> length (print_type t) < n -> parses (parse_type_signature rec) (print_type t) t.
Proof.
  intros Hw Hl pre post. unfold parse_type_signature. destruct t as [b|c|c|v].
  { simpl. rewrite peek_cons by (by destruct b). rewrite (proj2 (base_type_Some _ _) eq_refl).
    by rewrite bump_cons by (by destruct b). }
  all: match goal with |- context [print_type ?t] =>
    destruct (reference_head t eq_refl) as (h & s & Hs & Hc & Hst);
    assert (Hpk : peek (at_pos pre (print_type t ++ post)) = Some h) by (rewrite Hs; by apply peek_cons);
    assert (Hb : base_type h = None) by (unfold starts_reference in Hst;
      rewrite bool_decide_eq_true, !elem_of_cons, elem_of_nil in Hst; by destruct Hst as [[= ->]|[[= ->]|[[= ->]|[]]]]);
    rewrite Hpk, Hb, Hst; by apply Hrec end.
Qed.
End CompleteRec.

Lemma parses_field n t :
  wf_bound t = true -> length (print_type t) < n -> parses (parse_field_type_signature n) (print_type t) t.
Proof.
  revert t; induction n as [|n IH]; intros t Hw Hl pre post; [lia|].
  apply wf_bound_inv in Hw as [Hr Hw]. destruct t as [b|c|c|v]; [done|..]; cbn [parse_field_type_signature].
  - simpl. rewrite peek_cons by done. rewrite !decide_False, decide_True, bump_cons by done. simpl in Hl.
    rewrite (parses_type _ n IH) by (done || lia). cbn [try_bind ok]. by rewrite <-app_assoc.
  - destruct (print_class_head c) as [s Hs].
    rewrite decide_True by (simpl; rewrite Hs; by apply peek_cons).
    simpl print_type. by rewrite (parses_class _ n IH).
  - rewrite decide_False, decide_True by (simpl; by rewrite peek_cons). by apply parses_type_variable.
Qed.

Lemma parses_rec t : wf_bound t = true -> parses field_rec (print_type t) t.
Proof.
  intros Hw pre post. unfold field_rec, sig_fuel. apply parses_field; [done|].
  rewrite length_bytes_at, str_len_app. pose proof (length_le_str_len (print_type t)). lia.
Qed.

Lemma peek_other pre q c : (c < 0x80)%N -> head q <> Some c -> peek (at_pos pre q) <> Some c.
Proof. intros Hc Hq Hp. by apply decide_peek in Hp as [q' ->]. Qed.

Lemma forallb_Forall {A} (f : A -> bool) l : forallb f l = true -> Forall (fun x => f x = true) l.
Proof. intros H. apply Forall_forall. intros x Hx%list_elem_of_In. rewrite forallb_forall in H. auto. Qed.

Lemma name_ok_head n q c : name_ok n = true -> is_signature_delimiter c = true -> head (n ++ q) <> Some c.
Proof.
  unfold name_ok. destruct n as [|x n]; [done|]. simpl. rewrite andb_true_iff. intros [Hx _] Hc [= ->].
  unfold ident_char in Hx. by rewrite Hc, orb_true_r in Hx.
Qed.

Lemma bounds_run bounds fuel pre q acc :
  forallb wf_bound bounds = true -> head q <> Some (ch ":") -> length bounds < fuel ->
  bounds_loop fuel (at_pos pre (concat (map (fun t => ch ":" :: print_type t) bounds) ++ q)) acc =
  ok (acc ++ bounds, at_pos (pre ++ concat (map (fun t => ch ":" :: print_type t) bounds)) q).
Proof.
  intros Hb%forallb_Forall.
  eapply (loop_run bounds_loop _ _ (fun _ => True) (fun q => head q <> Some (ch ":"))); [|done..| |exact Hb].
  - intros fuel' pre' t q' acc' Ht _. simpl. rewrite decide_True by (by apply peek_cons).
    rewrite bump_cons, parses_rec by done. cbn [try_bind ok]. by rewrite <-app_assoc.
  - intros fuel' pre' q' acc' Hq'. simpl. by rewrite decide_False by (by apply peek_other).
Qed.

Lemma parameter_run tp pre q :
  wf_parameter tp = true -> head q <> Some (ch ":") ->
  parse_type_parameter (at_pos pre (print_parameter tp ++ q)) = ok (tp, at_pos (pre ++ print_parameter tp) q).
Proof.
  destruct tp as [name class bounds]. unfold wf_parameter, print_parameter. simpl.
  rewrite !andb_true_iff. intros [[Hn Hb] Hc] Hq. unfold parse_type_parameter.
  rewrite <-!app_assoc. simpl app. rewrite <-!app_assoc.
  rewrite read_identifier_until by done. cbn [try_bind ok]. rewrite expect_cons by done. cbn [try_bind ok].
  set (bs := concat (map (fun t => ch ":" :: print_type t) bounds)).
  assert (Hcb : forall p, parse_class_bound (at_pos p (from_option print_type [] class ++ bs ++ q)) =
    ok (class, at_pos (p ++ from_option print_type [] class) (bs ++ q))).
  { intros p. unfold parse_class_bound. destruct class as [t|]; simpl.
    - rewrite decide_False, peek_reference, parses_rec; [done|done|apply wf_bound_inv, Hc|].
      destruct (reference_head t) as (c & s & -> & Hlt & Hst); [apply wf_bound_inv, Hc|].
      simpl. rewrite peek_cons by done. intros [= ->]. vm_compute in Hst. discriminate.
    - unfold bs. destruct bounds as [|b bounds]; [done|]. rewrite app_nil_r. simpl.
      by rewrite decide_True by (by apply peek_cons). }
  rewrite Hcb. cbn [try_bind ok]. unfold bs. rewrite bounds_run; [|done|done|by apply run_fuel].
  cbn [try_bind ok app]. by rewrite <-!app_assoc.
Qed.

Lemma parameters_run pre tps q :
  forallb wf_parameter tps = true -> peek (at_pos pre q) <> Some (ch "<") ->
  parse_type_parameters_if_present (at_pos pre (angled print_parameter tps ++ q)) =
  ok (tps, at_pos (pre ++ angled print_parameter tps) q).
Proof.
  intros Htps%forallb_Forall Hq.
  assert (Hhd : forall c tp q, wf_parameter tp = true -> is_signature_delimiter c = true ->
    head (print_parameter tp ++ q) <> Some c).
  { intros c tp q' Htp. unfold print_parameter. rewrite <-app_assoc. apply name_ok_head.
    unfold wf_parameter in Htp. rewrite !andb_true_iff in Htp. tauto. }
  apply (angled_run type_params_loop print_parameter (fun tp => wf_parameter tp = true)
    (fun q => head q <> Some (ch ":"))); [|by auto| | |done| |done].
  - intros fuel pre' tp q' acc Htp Hq'. cbn [type_params_loop].
    rewrite decide_False by (apply peek_other; [done|by apply Hhd]).
    rewrite is_eof_at, bool_decide_false, parameter_run; [done|done|done|].
    intros He. apply app_eq_nil in He as [He _]. by apply print_parameter_nonempty in He.
  - intros q' Hh Hc. by rewrite Hh in Hc.
  - intros fuel pre' [|c q'] acc Hh; simplify_eq/=. by rewrite decide_True by (by apply peek_cons).
  - intros tp Hin. apply print_parameter_nonempty. rewrite Forall_forall in Htps. by apply Htps.
Qed.

Lemma class_rec_run c pre q :
  wf_class c = true ->
  parse_class_type_signature field_rec (at_pos pre (print_class c ++ q)) = ok (c, at_pos (pre ++ print_class c) q).
Proof.
  intros Hc. apply (parses_class field_rec (S (length (print_class c)))); [|done|lia].
  intros t Ht _. by apply parses_rec.
Qed.

Lemma type_rec_run t pre q :
  wf_type t = true ->
  parse_type_signature field_rec (at_pos pre (print_type t ++ q)) = ok (t, at_pos (pre ++ print_type t) q).
Proof.
  intros Ht. apply (parses_type field_rec (S (length (print_type t)))); [|done|lia].
  intros t' Ht' _. by apply parses_rec.
Qed.

Lemma print_class_signature_run s :
  wf_class_signature s = true -> parse_class_signature (print_class_signature s) = ok s.
Proof.
  destruct s as [tps sup ifs]. unfold wf_class_signature, print_class_signature. simpl.
  rewrite !andb_true_iff. intros [[Ht Hs] Hi]. unfold parse_class_signature.
  match goal with |- context [parser_new ?s] => change (parser_new s) with (at_pos [] s) end.
  rewrite parameters_run; [|done|destruct (print_class_head sup) as [s ->]; simpl; by rewrite peek_cons].
  cbn [try_bind ok]. rewrite class_rec_run by done. cbn [try_bind ok].
  rewrite <-(app_nil_r (concat (map print_class ifs))).
  rewrite (loop_run interfaces_loop print_class (fun c => wf_class c = true) (fun _ => True) (eq []));
    [done| |done..| |by apply forallb_Forall|done|].
  - intros fuel pre c q acc Hc _. rewrite interfaces_step.
    destruct (print_class_head c) as [s' Hs']. rewrite decide_False by (by rewrite Hs').
    by rewrite class_rec_run.
  - intros fuel pre q acc <-. rewrite interfaces_step. by rewrite decide_True.
  - apply run_fuel. intros c _. by destruct (print_class_head c) as [s' ->].
Qed.

Lemma params_run ps fuel pre q acc :
  forallb wf_type ps = true -> head q = Some (ch ")") -> length ps < fuel ->
  parameters_loop fuel (at_pos pre (concat (map print_type ps) ++ q)) acc =
  ok (acc ++ ps, at_pos (pre ++ concat (map print_type ps)) q).
Proof.
  intros Hps%forallb_Forall.
  eapply (loop_run parameters_loop _ _ (fun _ => True) (fun q => head q = Some (ch ")"))); [|done..| |exact Hps].
  - intros fuel' pre' t q' acc' Ht _. rewrite parameters_step, decide_False; [by rewrite type_rec_run|].
    intros [He|Hp].
    + apply app_eq_nil in He as [He _]. by apply print_type_nonempty in He.
    + apply decide_peek in Hp as [s Hs]; [|done]. destruct t as [b|t|c|v]; try done; [by destruct b|].
      simpl in Hs. by destruct (print_class_head c) as [s' Hs']; rewrite Hs' in Hs.
  - intros fuel' pre' q' acc' Hq'. rewrite parameters_step, decide_True; [done|]. right.
    destruct q'; simplify_eq/=. by apply peek_cons.
Qed.

Lemma thrown_run t pre q :
  wf_thrown t = true ->
  parse_thrown (at_pos pre (print_type t ++ q)) = ok (t, at_pos (pre ++ print_type t) q).
Proof.
  intros Ht. unfold parse_thrown. destruct t as [b|t|c|v]; try done.
  - assert (Hpk : peek (at_pos pre (print_class c ++ q)) = Some (ch "L")).
    { destruct (print_class_head c) as [s ->]. by apply peek_cons. }
    simpl print_type. by rewrite Hpk, decide_False, decide_True, class_rec_run.
  - simpl. rewrite peek_cons by done. rewrite decide_True by done. by apply parses_type_variable.
Qed.

Lemma throws_run ts fuel pre acc :
  forallb wf_thrown ts = true -> length ts < fuel ->
  throws_loop fuel (at_pos pre (concat (map (fun t => ch "^" :: print_type t) ts) ++ [])) acc =
  ok (acc ++ ts, at_pos (pre ++ concat (map (fun t => ch "^" :: print_type t) ts)) []).
Proof.
  intros Hts%forallb_Forall Hf.
  eapply (loop_run throws_loop _ _ (fun _ => True) (eq [])); [|done..| |exact Hts|done|done].
  - intros fuel' pre' t q' acc' Ht _. simpl. rewrite decide_True by (by apply peek_cons).
    rewrite bump_cons, thrown_run by done. cbn [try_bind ok]. by rewrite <-app_assoc.
  - intros fuel' pre' q' acc' <-. simpl. by rewrite decide_False by (by rewrite peek_nil).
Qed.

Lemma return_run ret pre q :
  from_option wf_type true ret = true ->
  parse_return_type (at_pos pre (from_option print_type [ch "V"] ret ++ q)) =
  ok (ret, at_pos (pre ++ from_option print_type [ch "V"] ret) q).
Proof.
  intros Hr. unfold parse_return_type. destruct ret as [t|]; simpl.
  - rewrite decide_False; [by rewrite type_rec_run|]. intros Hp.
    apply decide_peek in Hp as [s Hs]; [|done]. destruct t as [b|t|c|v]; try done; [by destruct b|].
    simpl in Hs. by destruct (print_class_head c) as [s' Hs']; rewrite Hs' in Hs.
  - rewrite decide_True by (by apply peek_cons). by rewrite bump_cons.
Qed.

Lemma print_method_signature_run s :
  wf_method_signature s = true -> parse_method_signature (print_method_signature s) = ok s.
Proof.
  destruct s as [tps ps ret ts]. unfold wf_method_signature, print_method_signature. simpl.
  rewrite !andb_true_iff. intros [[[Ht Hp] Hr] Hth]. unfold parse_method_signature.
  match goal with |- context [parser_new ?s] => change (parser_new s) with (at_pos [] s) end.
  rewrite parameters_run; [|done|by rewrite peek_cons]. cbn [try_bind ok].
  rewrite expect_cons by done. cbn [try_bind ok].
  rewrite params_run; [|done|done|apply run_fuel; intros; apply print_type_nonempty].
  cbn [try_bind ok]. rewrite expect_cons by done. cbn [try_bind ok].
  rewrite return_run by done. cbn [try_bind ok]. rewrite <-(app_nil_r (concat (map _ ts))).
  rewrite throws_run; [|done|by apply run_fuel]. cbn [try_bind ok].
  by rewrite is_eof_at.
Qed.

Lemma print_field_signature_run t :
  wf_bound t = true -> parse_field_signature (print_type t) = ok t.
Proof.
  intros Ht. unfold parse_field_signature. change (parser_new (print_type t)) with (at_pos [] (print_type t)).
  rewrite <-(app_nil_r (print_type t)), parses_rec by done. cbn [try_bind ok]. by rewrite is_eof_at.
Qed.

(** ** Signatures and descriptors *)

(** A type without arguments, type variables and inner classes. *)
Fixpoint plain (t : Sig.TypeSignature) : bool :=
  match t with
  | Sig.Base _ => true
  | Sig.Array c => plain c
  | Sig.Class (Sig.mkClassTypeSignature _ [Sig.mkClassTypeSegment _ []]) => true
  | _ => false
  end.

(** The type of the descriptor: a class by its [internal_name]. *)
Fixpoint erasure (t : Sig.TypeSignature) : FieldType :=
  match t with
  | Sig.Base b => Base b
  | Sig.Array c => Array (erasure c)
  | Sig.Class c => Object (internal_name c)
  | Sig.TypeVariable n => Object n
  end.

Lemma join_package package name :
  (if decide (package = []) then [] else join (ch "/") package ++ [ch "/"]) ++ name =
  print_package package ++ name.
Proof.
  f_equal. case_decide as Hp; [by subst|]. induction package as [|x package IH]; [done|].
  destruct package as [|y package]; [by unfold print_package; simpl; rewrite app_nil_r|].
  change (join (ch "/") (x :: y :: package)) with (x ++ ch "/" :: join (ch "/") (y :: package)).
  rewrite <-app_assoc. cbn [app]. rewrite IH by done. unfold print_package. simpl. by rewrite <-!app_assoc.
Qed.

Lemma print_erasure t : plain t = true -> print_field (erasure t) = print_type t.
Proof.
  induction t as [b|t IH|[package [|[name [|]] [|]]]|v]; intros Ht; try done; simpl.
  - by rewrite IH.
  - rewrite !app_nil_r, join_package, <-app_assoc. done.
Qed.

Lemma semicolon_not_in_name n : name_ok n = true -> ch ";" ∉ n.
Proof.
  unfold name_ok. rewrite andb_true_iff. intros [_ Hn] Hin. rewrite forallb_forall in Hn.
  apply list_elem_of_In, Hn in Hin. done.
Qed.

Lemma wf_erasure t : plain t = true -> wf_type t = true -> wf_field (erasure t).
Proof.
  induction t as [b|t IH|[package [|[name [|]] [|]]]|v]; intros Ht Hw; try done; simpl in *.
  - by apply IH.
  - rewrite !app_nil_r, join_package. rewrite !andb_true_iff in Hw. destruct Hw as [[Hp _] [[Hn _] _]].
    apply not_elem_of_app. split; [|by apply semicolon_not_in_name]. clear Ht.
    induction package as [|x package IH]; [apply not_elem_of_nil|]. simpl in Hp.
    apply andb_true_iff in Hp as [Hx Hp]. unfold print_package. simpl. rewrite !not_elem_of_app.
    split_and!; [by apply semicolon_not_in_name| |by apply IH].
    rewrite elem_of_cons, elem_of_nil. by intros [?|[]].
Qed.

(** ** Theorems *)

(** [parse_class_signature], [parse_method_signature] and [parse_field_signature] return
    on every string: no slice, index or [unwrap] panics, and the recursion and the loops end.
    The only error is [InvalidSignature] of the whole string.  What is accepted is well-formed
    (names are identifiers, arguments and bounds are reference types, type parameters have a
    bound, thrown types are classes or type variables), and the string is its print, up to
    empty argument lists. *)
Theorem signature_parse_sound sig :
  wps sig (parse_class_signature sig) (fun s =>
    erases sig (print_class_signature s) /\ wf_class_signature s = true) /\
  wps sig (parse_method_signature sig) (fun s =>
    erases sig (print_method_signature s) /\ wf_method_signature s = true) /\
  wps sig (parse_field_signature sig) (fun t => erases sig (print_type t) /\ wf_bound t = true).
Proof. split_and!; [apply accepts_class|apply accepts_method|apply accepts_field]. Qed.

(** Every well-formed class, method and field signature is read back from its print. *)
Theorem signature_roundtrip cs ms fs :
  wf_class_signature cs = true -> wf_method_signature ms = true -> wf_bound fs = true ->
  parse_class_signature (print_class_signature cs) = ok cs /\
  parse_method_signature (print_method_signature ms) = ok ms /\
  parse_field_signature (print_type fs) = ok fs.
Proof.
  intros. split_and!; [by apply print_class_signature_run|by apply print_method_signature_run|].
  by apply print_field_signature_run.
Qed.

(** The descriptor parser and the signature parser agree on types without generics: both
    accept the text, and the class names of the descriptor are the [internal_name]s of the
    signature. *)
Theorem signature_descriptor_agree t :
  plain t = true -> wf_bound t = true ->
  parse_field_signature (print_type t) = ok t /\
  parse_field_descriptor (print_type t) = ok (erasure t).
Proof.
  intros Hp Hw. split; [by apply print_field_signature_run|]. rewrite <-(print_erasure t) by done.
  apply parse_print_field_descriptor, wf_erasure; [done|]. apply wf_bound_inv, Hw.
Qed.

(** ** Witnesses *)

Definition str_of (s : string) : str := Ascii.N_of_ascii <$> String.list_ascii_of_string s.

Definition list_of (arg : Sig.TypeArgument) : Sig.ClassTypeSignature :=
  Sig.mkClassTypeSignature [str_of "java"; str_of "util"] [Sig.mkClassTypeSegment (str_of "List") [arg]].

Definition object_type : Sig.ClassTypeSignature :=
  Sig.mkClassTypeSignature [str_of "java"; str_of "lang"] [Sig.mkClassTypeSegment (str_of "Object") []].

(** <T:Ljava/lang/Object;>Ljava/util/List<TT;>;Ljava/util/List<+[I>; *)
Definition sample_class_signature : ClassSignature :=
  mkClassSignature [mkTypeParameter (str_of "T") (Some (Sig.Class object_type)) []]
    (list_of (Sig.Exact (Sig.TypeVariable (str_of "T"))))
    [list_of (Sig.Extends (Sig.Array (Sig.Base Int)))].

(** <E::Ljava/util/List<*>;>(I[TE;)V^TE; *)
Definition sample_method_signature : MethodSignature :=
  mkMethodSignature [mkTypeParameter (str_of "E") None [Sig.Class (list_of Sig.Any)]]
    [Sig.Base Int; Sig.Array (Sig.TypeVariable (str_of "E"))] None [Sig.TypeVariable (str_of "E")].

Lemma signature_roundtrip_witness :
  parse_class_signature (str_of "<T:Ljava/lang/Object;>Ljava/util/List<TT;>;Ljava/util/List<+[I>;") =
    ok sample_class_signature /\
  parse_method_signature (str_of "<E::Ljava/util/List<*>;>(I[TE;)V^TE;") = ok sample_method_signature.
Proof.
  destruct (signature_roundtrip sample_class_signature sample_method_signature
    (Sig.Class object_type)) as (H1 & H2 & _); [reflexivity..|]. split; [exact H1|exact H2].
Defined.

Lemma signature_descriptor_agree_witness :
  parse_field_descriptor (str_of "[Ljava/lang/Object;") = ok (Array (Object (str_of "java/lang/Object"))).
Proof. apply (signature_descriptor_agree (Sig.Array (Sig.Class object_type))); reflexivity. Defined.
