(* ===== verification/ByteGrammar.v ===== *)
(** * Parsers of bytes that accept exactly a grammar

    A reader function of crates/nova-classfile is compared with a grammar: the relation between
    a value and the bytes that stand for it.  [exact k m G]: on inputs of fewer than [k] unread
    bytes, [m] returns; what it accepts is a word of [G], and every word of [G] is accepted, for
    its value, whatever follows it.  The rules below follow the structure of the parsers, so
    that the proof that a parser is exact is a walk through its code. *)

From stdpp Require Import base list numbers strings option.
From S2P Require Import Prelude Str ClassReader ConstantPool.

(** The bytes that are left. *)
Definition unread (r : Reader) : list N := drop (rd_pos r) (rd_bytes r).

(** An input in memory, made of bytes. *)
Definition ok_reader (r : Reader) : Prop := small_input r /\ Forall is_byte (rd_bytes r).

(** The relation between values and their bytes. *)
Notation grammar A := (A -> list N -> Prop).

Record exact {A} (k : nat) (m : Reader -> result (A * Reader)) (G : grammar A) : Prop := {
  ex_sound : forall r, ok_reader r -> remaining r < k ->
    wpr (m r) (fun '(a, r') => moved r r' /\ exists bs, G a bs /\ unread r = bs ++ unread r');
  ex_complete : forall a bs r post, ok_reader r -> remaining r < k -> G a bs ->
    ahead r (bs ++ post) -> yields (m r) r a post
}.

Lemma remaining_unread r : remaining r = length (unread r).
Proof. unfold remaining, unread. by rewrite length_drop. Qed.

Lemma moved_remaining r r' : moved r r' -> remaining r' <= remaining r.
Proof. intros (Hb & Hp & _). unfold remaining. rewrite Hb. lia. Qed.

Lemma moved_ok r r' : moved r r' -> ok_reader r -> ok_reader r'.
Proof. intros (Hb & _ & Hs) [_ Hby]. split; [done|]. by rewrite Hb. Qed.

Lemma unread_bytes r : ok_reader r -> Forall is_byte (unread r).
Proof. intros [_ Hb]. by apply Forall_drop. Qed.

(** ** Rules *)

Section Rules.
Context {A B : Type}.

Lemma exact_mono k k' (m : Reader -> result (A * Reader)) G :
  exact k m G -> k' <= k -> exact k' m G.
Proof. intros [Hs Hc] Hk. split; [intros; apply Hs|intros; eapply Hc]; eauto; lia. Qed.

Lemma exact_iff k (m : Reader -> result (A * Reader)) (G G' : grammar A) :
  exact k m G -> (forall a bs, G a bs <-> G' a bs) -> exact k m G'.
Proof.
  intros [Hs Hc] HG. split.
  - intros r Hr Hk. eapply wpr_mono; [by apply Hs|]. intros [a r'] (Hm & bs & Hbs & Hu).
    split; [done|]. exists bs. by rewrite <-HG.
  - intros a bs r post Hr Hk Hg. apply Hc; [done..|]. by rewrite HG.
Qed.

(** Grammars are taken up to equivalence. *)
Global Instance exact_proper k (m : Reader -> result (A * Reader)) :
  Proper (pointwise_relation A (pointwise_relation (list N) iff) ==> iff) (exact k m).
Proof.
  intros G G' HG. split; intros H; eapply exact_iff; try exact H; intros a bs; [|symmetry]; apply HG.
Qed.

Lemma exact_ext k (m m' : Reader -> result (A * Reader)) G :
  exact k m G -> (forall r, m' r = m r) -> exact k m' G.
Proof. intros [Hs Hc] Hm. split; intros; rewrite Hm; eauto. Qed.

Lemma exact_ret k (a : A) : exact k (fun r => ok (a, r)) (fun a' bs => a' = a /\ bs = []).
Proof.
  split.
  - intros r Hr _. split; [by apply moved_refl, Hr|]. by exists [].
  - intros a' bs r post [Hr _] _ [-> ->] Ha. by apply yields_ok.
Qed.

Lemma exact_err k e : exact k (fun _ => @err (A * Reader) e) (fun _ _ => False).
Proof. by split. Qed.

(** A computation on values that were read, such as a look-up in the constant pool. *)
Lemma exact_pure k (p : result B) (f : B -> Reader -> result (A * Reader)) G :
  (exists x, p = Done x) -> (forall x, p = ok x -> exact k (f x) (G x)) ->
  exact k (fun r => x <-? p ;; f x r) (fun a bs => exists x, p = ok x /\ G x a bs).
Proof.
  intros [[e|x] ->] Hf.
  - split; [done|]. by intros a bs r post _ _ (x & ? & _).
  - destruct (Hf x eq_refl) as [Hs Hc]. split; simpl.
    + intros r Hr Hk. eapply wpr_mono; [by apply Hs|]. intros [a r'] (Hm & bs & HG & Hu).
      split; [done|]. exists bs. split; [|done]. by exists x.
    + intros a bs r post Hr Hk (y & [= <-] & HG). by apply Hc.
Qed.

(** One parser after the other. *)
Lemma exact_bind k (m : Reader -> result (B * Reader)) (f : B -> Reader -> result (A * Reader))
    G1 G2 :
  exact k m G1 -> (forall x bs, G1 x bs -> exact k (f x) (G2 x)) ->
  exact k (fun r => '(x, r) <-? m r ;; f x r)
    (fun a bs => exists x bs1 bs2, bs = bs1 ++ bs2 /\ G1 x bs1 /\ G2 x a bs2).
Proof.
  intros [Hs Hc] Hf. split.
  - intros r Hr Hk. eapply wpr_seq; [by apply Hs|]. intros [x r1] (Hm & bs1 & HG1 & Hu1).
    pose proof (moved_remaining _ _ Hm). destruct (Hf x bs1 HG1) as [Hs2 _].
    eapply wpr_mono; [apply Hs2; [by eapply moved_ok|lia]|].
    intros [a r2] (Hm2 & bs2 & HG2 & Hu2). split; [by eapply moved_trans|].
    exists (bs1 ++ bs2). split; [by exists x, bs1, bs2|]. by rewrite Hu1, Hu2, app_assoc.
  - intros a bs r post Hr Hk (x & bs1 & bs2 & -> & HG1 & HG2) Ha. rewrite <-app_assoc in Ha.
    destruct (Hc x bs1 r _ Hr Hk HG1 Ha) as (r1 & -> & Hm & Ha1). simpl.
    destruct (Hf x bs1 HG1) as [_ Hc2]. pose proof (moved_remaining _ _ Hm).
    destruct (Hc2 a bs2 r1 post) as (r2 & He & Hm2 & Ha2); [by eapply moved_ok|lia|done..|].
    exists r2. split_and!; [done|by eapply moved_trans|done].
Qed.
End Rules.

(** ** Integers and bytes *)

Lemma to_from_be_bytes l : Forall is_byte l -> to_be_bytes (length l) (from_be_bytes l) = l.
Proof.
  induction l as [|b l IH] using rev_ind; intros Hl; [done|].
  apply Forall_app in Hl as [Hl Hb]. apply Forall_inv in Hb. unfold is_byte in Hb.
  rewrite length_app, Nat.add_1_r, from_be_bytes_snoc by done. cbn [to_be_bytes].
  rewrite N.div_add_l, N.div_small, N.add_0_r by done. rewrite IH by done. do 2 f_equal.
  rewrite N.add_comm, N.Div0.mod_add. by apply N.mod_small.
Qed.

Lemma next_unread r n : n <= remaining r -> unread r = next_bytes r n ++ unread (advance r n).
Proof.
  intros Hn. unfold unread, next_bytes. simpl. rewrite <-drop_drop. by rewrite take_drop.
Qed.

Lemma length_next_bytes r n : n <= remaining r -> length (next_bytes r n) = n.
Proof. unfold next_bytes, remaining. rewrite length_take, length_drop. lia. Qed.

(** A parser that returns [f] of the next [n] bytes. *)
Lemma exact_take {A} k n (m : Reader -> result (A * Reader)) (f : list N -> A) :
  (forall r, small_input r -> m r = take_or_eof r n f) ->
  exact k m (fun a bs => length bs = n /\ Forall is_byte bs /\ a = f bs).
Proof.
  intros Hm. split.
  - intros r Hr _. rewrite Hm by apply Hr. unfold take_or_eof. case_decide as Hn; [|apply wpr_err].
    split; [by apply moved_advance; [apply Hr|]|]. exists (next_bytes r n).
    split_and!; [by apply length_next_bytes| |done|by apply next_unread].
    apply Forall_take, (unread_bytes r Hr).
  - intros a bs r post [Hr _] _ (<- & _ & ->) Ha. rewrite Hm by done.
    destruct (ahead_take _ _ _ Ha) as (Hn & Hb & Ha'). unfold take_or_eof.
    rewrite decide_True, Hb by done. exists (advance r (length bs)).
    split_and!; [done|by apply moved_advance|done].
Qed.

Lemma take_or_eof_u2 r : small_input r -> read_u2 r = take_or_eof r 2 from_be_bytes.
Proof. intros Hr. unfold read_u2, take_or_eof. rewrite read_n_spec by done. by case_decide. Qed.

Lemma take_or_eof_u4 r : small_input r -> read_u4 r = take_or_eof r 4 from_be_bytes.
Proof. intros Hr. unfold read_u4, take_or_eof. rewrite read_n_spec by done. by case_decide. Qed.

(** The bytes of an integer are those of its big-endian encoding. *)
Lemma be_bytes_iff n x bs :
  length bs = n /\ Forall is_byte bs /\ x = from_be_bytes bs <->
  (x < 256 ^ N.of_nat n)%N /\ bs = to_be_bytes n x.
Proof.
  split.
  - intros (<- & Hb & ->). split; [by apply from_be_bytes_bound|]. by rewrite to_from_be_bytes.
  - intros [Hx ->]. split_and!; [apply length_to_be_bytes|apply to_be_bytes_byte|].
    by rewrite from_to_be_bytes.
Qed.

Definition g_u2 : grammar N := fun n bs => is_u2 n /\ bs = encode_u2 n.

Lemma exact_u2 k : exact k read_u2 g_u2.
Proof.
  eapply exact_iff; [apply (exact_take k 2 read_u2 from_be_bytes), take_or_eof_u2|].
  intros x bs. apply (be_bytes_iff 2).
Qed.

Definition g_u4 : grammar N := fun n bs => (n < 2 ^ 32)%N /\ bs = to_be_bytes 4 n.

Lemma exact_u4 k : exact k read_u4 g_u4.
Proof.
  eapply exact_iff; [apply (exact_take k 4 read_u4 from_be_bytes), take_or_eof_u4|].
  intros x bs. apply (be_bytes_iff 4).
Qed.

Lemma exact_bytes k n :
  (N.of_nat n < 2 ^ 32)%N ->
  exact k (fun r => read_bytes r n) (fun x bs => length x = n /\ Forall is_byte x /\ bs = x).
Proof.
  intros Hn. eapply exact_iff; [apply (exact_take k n _ id)|].
  - intros r Hr. by rewrite read_bytes_spec.
  - intros x bs. unfold id. naive_solver.
Qed.

(** A byte is consumed: what follows may rely on one unread byte less. *)
Lemma exact_u1_bind {A} k (f : N -> Reader -> result (A * Reader)) G :
  (forall b, is_byte b -> exact k (f b) (G b)) ->
  exact (S k) (fun r => '(b, r) <-? read_u1 r ;; f b r)
    (fun a bs => exists b bs', bs = b :: bs' /\ is_byte b /\ G b a bs').
Proof.
  intros Hf. split.
  - intros r Hr Hk. apply wpr_bind. rewrite read_u1_spec by apply Hr.
    case_decide as Hn; [|apply wpr_err].
    assert (Hm : moved r (advance r 1)) by (by apply moved_advance; [apply Hr|]).
    assert (Hlt : remaining (advance r 1) < k) by (unfold remaining in *; simpl; lia).
    pose proof (next_unread r 1 Hn) as Hu. pose proof (length_next_bytes r 1 Hn) as Hl.
    assert (Hb : Forall is_byte (next_bytes r 1)) by apply Forall_take, (unread_bytes r Hr).
    destruct (next_bytes r 1) as [|b [|]]; try done. apply Forall_inv in Hb. simpl.
    replace (from_be_bytes [b]) with b by done.
    destruct (Hf b Hb) as [Hs _]. eapply wpr_mono; [by apply Hs; [eapply moved_ok|]|].
    intros [a r'] (Hm' & bs & HG & Hu'). split; [by eapply moved_trans|].
    exists (b :: bs). split; [by exists b, bs|]. rewrite Hu. simpl. by rewrite Hu'.
  - intros a bs r post Hr Hk (b & bs' & -> & Hb & HG) Ha.
    destruct (reads_u1 b r (bs' ++ post) (proj1 Hr) Ha) as (r1 & He & Hm & Ha1).
    assert (Hlt : remaining r1 < k).
    { rewrite remaining_unread in *. unfold unread in *. unfold ahead in *. rewrite Ha in Hk. rewrite Ha1.
      simpl in Hk. lia. }
    rewrite He. simpl. destruct (Hf b Hb) as [_ Hc].
    destruct (Hc a bs' r1 post) as (r2 & He2 & Hm2 & Ha2); [by eapply moved_ok|done..|].
    exists r2. split_and!; [done|by eapply moved_trans|done].
Qed.

(** ** Repetition *)

(** [for _ in 0..n { acc = step(acc)?; }] and the same that collects values in a [Vec]. *)
Fixpoint fold_times {S} (n : nat) (m : S -> Reader -> result (S * Reader)) (acc : S) (r : Reader)
    : result (S * Reader) :=
  match n with
  | 0 => ok (acc, r)
  | S n => '(acc, r) <-? m acc r ;; fold_times n m acc r
  end.

Definition push_times {A} (n : nat) (m : Reader -> result (A * Reader)) (r : Reader)
    : result (list A * Reader) :=
  fold_times n (fun acc r => '(x, r) <-? m r ;; ok (acc ++ [x], r)) [] r.

(** The words of [n] values, one after the other. *)
Definition g_list {A} (n : nat) (G : grammar A) : grammar (list A) := fun l bs =>
  length l = n /\ exists bss, Forall2 G l bss /\ bs = concat bss.

Lemma exact_fold {A S} k n (m : S -> Reader -> result (S * Reader)) (G : grammar A)
    (f : S -> A -> S) acc :
  (forall acc, exact k (m acc) (fun acc' bs => exists a, G a bs /\ acc' = f acc a)) ->
  exact k (fold_times n m acc)
    (fun acc' bs => exists l, g_list n G l bs /\ acc' = foldl f acc l).
Proof.
  intros Hm. revert acc; induction n as [|n IH]; intros acc; simpl.
  - eapply exact_iff; [apply exact_ret|]. intros acc' bs. split.
    + intros [-> ->]. exists []. split; [|done]. split; [done|]. by exists [].
    + intros ([|] & (? & bss & H & ->) & ->); [|done]. by inversion H.
  - eapply exact_iff; [apply exact_bind; [apply Hm|]; intros acc1 bs1 _; apply IH|].
    intros acc' bs. split.
    + intros (acc1 & bs1 & bs2 & -> & (a & HG & ->) & (l & (Hl & bss & H2 & ->) & ->)).
      exists (a :: l). split; [|done]. split; [by simpl; f_equal|]. exists (bs1 :: bss). by split; [constructor|].
    + intros ([|a l] & ([= Hl] & bss & H & ->) & ->). inversion H as [|? bs1 ? bss' H1 H2]; subst.
      exists (f acc a), bs1, (concat bss'). split_and!; [done|by exists a|].
      exists l. split; [|done]. split; [done|]. by exists bss'.
Qed.

Lemma foldl_push {A} (acc l : list A) : foldl (fun acc x => acc ++ [x]) acc l = acc ++ l.
Proof. revert acc; induction l as [|x l IH]; intros acc; simpl; [by rewrite app_nil_r|]. by rewrite IH, <-app_assoc. Qed.

Lemma exact_push {A} k n (m : Reader -> result (A * Reader)) G :
  exact k m G -> exact k (push_times n m) (g_list n G).
Proof.
  intros Hm. eapply exact_iff.
  - apply (exact_fold k n _ G (fun acc x => acc ++ [x]) []). intros acc.
    eapply exact_iff; [apply exact_bind; [exact Hm|]; intros x bs _; apply exact_ret|].
    intros acc' bs. split.
    + intros (x & bs1 & bs2 & -> & HG & -> & ->). rewrite app_nil_r. by exists x.
    + intros (x & HG & ->). exists x, bs, []. by rewrite app_nil_r.
  - intros l bs. split; [intros (l' & H & ->); by rewrite foldl_push|].
    intros H. exists l. by rewrite foldl_push.
Qed.

(** ** The whole of an input *)

(** [m] on a reader of its own over [bytes], which must be used up. *)
Definition parse_all {A} (m : Reader -> result (A * Reader)) (bytes : list N) : result A :=
  '(x, r) <-? m (reader_new bytes) ;; _ <-? ensure_empty r ;; ok x.

Lemma unread_new bytes : unread (reader_new bytes) = bytes.
Proof. done. Qed.

Lemma ok_reader_new bytes :
  (N.of_nat (length bytes) < 2 ^ 63)%N -> Forall is_byte bytes -> ok_reader (reader_new bytes).
Proof. intros Hl Hb. split; [split; [done|simpl; lia]|done]. Qed.

Lemma ensure_empty_ok r : ensure_empty r = ok () <-> unread r = [].
Proof.
  unfold ensure_empty. rewrite remaining_unread. case_decide as H.
  - by apply length_zero_iff_nil in H.
  - split; [done|]. by intros H2; rewrite H2 in H.
Qed.

Lemma parse_all_exact {A} (m : Reader -> result (A * Reader)) (G : grammar A) bytes :
  exact (S (length bytes)) m G ->
  (N.of_nat (length bytes) < 2 ^ 63)%N -> Forall is_byte bytes ->
  exists res, parse_all m bytes = Done res /\ forall x, res = inr x <-> G x bytes.
Proof.
  intros [Hs Hc] Hl Hb. pose proof (ok_reader_new bytes Hl Hb) as Hr.
  assert (Hrem : remaining (reader_new bytes) < S (length bytes)).
  { rewrite remaining_unread, unread_new. lia. }
  assert (Hw : wpr (parse_all m bytes) (fun x => G x bytes)).
  { unfold parse_all. eapply wpr_seq; [by apply Hs|]. intros [x r] (_ & bs & HG & Hu).
    rewrite unread_new in Hu. apply wpr_bind. unfold ensure_empty. case_decide as H0; [|done].
    rewrite remaining_unread in H0. apply length_zero_iff_nil in H0. simpl.
    by rewrite Hu, H0, app_nil_r. }
  apply wp_inv in Hw as (res & He & Hw). exists res. split; [done|]. intros x. split.
  - by intros ->.
  - intros HG. destruct (Hc x bytes (reader_new bytes) [] Hr Hrem HG) as (r' & Hm & _ & Ha).
    { unfold ahead. by rewrite app_nil_r. }
    unfold parse_all in He. rewrite Hm in He. simpl in He.
    rewrite (proj2 (ensure_empty_ok r') Ha) in He. by injection He as <-.
Qed.

(** The same for a parser that stops before the end of its input: it accepts the inputs that
    start with a word. *)
Lemma parse_prefix_exact {A} (m : Reader -> result (A * Reader)) (G : grammar A) bytes :
  exact (S (length bytes)) m G ->
  (N.of_nat (length bytes) < 2 ^ 63)%N -> Forall is_byte bytes ->
  exists res, ('(x, _) <-? m (reader_new bytes) ;; ok x) = Done res /\
    forall x, res = inr x <-> exists bs rest, bytes = bs ++ rest /\ G x bs.
Proof.
  intros [Hs Hc] Hl Hb. pose proof (ok_reader_new bytes Hl Hb) as Hr.
  assert (Hrem : remaining (reader_new bytes) < S (length bytes)).
  { rewrite remaining_unread, unread_new. lia. }
  assert (Hw : wpr ('(x, _) <-? m (reader_new bytes) ;; ok x)
                 (fun x => exists bs rest, bytes = bs ++ rest /\ G x bs)).
  { eapply wpr_seq; [by apply Hs|]. intros [x r] (_ & bs & HG & Hu). by exists bs, (unread r). }
  apply wp_inv in Hw as (res & He & Hw). exists res. split; [done|]. intros x. split.
  - by intros ->.
  - intros (bs & rest & -> & HG).
    destruct (Hc x bs (reader_new (bs ++ rest)) rest Hr Hrem HG) as (r' & Hm & _ & _); [done|].
    rewrite Hm in He. by injection He as <-.
Qed.
