(* ===== verification/PoolGrammar.v ===== *)
(** * The constant pool parser is exact

    The grammar of the constant pool of JVMS 4.4 and the proof that the parser of
    ConstantPool.v accepts it, and nothing else: with [g_pool], the pool is one of the
    non-terminals of the grammar of class files.  The bytes of a [CONSTANT_Utf8] are those of
    ModifiedUtf8.v, which are more than the encoder of ConstantPool.v writes (overlong encodings,
    unpaired surrogates). *)

From stdpp Require Import base list numbers strings option.
From S2P Require Import Prelude Str ClassReader ConstantPool ModifiedUtf8 ByteGrammar.

(** ** The grammar *)

Definition g_entry : grammar CpInfo.t := fun e bs =>
  match e with
  | CpInfo.Utf8 s => exists text, is_u2 (N.of_nat (length text)) /\ Forall is_byte text /\
      modified_utf8 text s /\
      bs = 1%N :: encode_u2 (N.of_nat (length text)) ++ text
  | e => wf_entry e /\ bs = encode_entry e
  end.

(** The entries of a pool, in their slots. *)
Definition g_pool : grammar ConstantPool := fun pool bs =>
  exists es bs', pool = pool_slots es /\ is_u2 (N.of_nat (length pool)) /\
    g_list (length es) g_entry es bs' /\ bs = encode_u2 (N.of_nat (length pool)) ++ bs'.

(** ** Signed integers *)

Lemma to_signed_unwrap w n :
  (0 < w)%N -> (n < 2 ^ w)%N ->
  in_signed (Z.of_N w) (to_signed w n) /\ Z.to_N (to_signed w n mod 2 ^ Z.of_N w) = n.
Proof.
  intros Hw Hn. unfold to_signed, in_signed.
  assert (Hp : (2 ^ Z.of_N w = 2 * 2 ^ (Z.of_N w - 1))%Z).
  { rewrite <-Z.pow_succ_r by lia. f_equal. lia. }
  assert (Hm : (Z.of_N (2 ^ (w - 1)) = 2 ^ (Z.of_N w - 1))%Z).
  { rewrite N2Z.inj_pow. f_equal. lia. }
  assert (Hn' : (Z.of_N n < 2 ^ Z.of_N w)%Z) by (rewrite <-(N2Z.inj_pow 2); lia).
  destruct (N.ltb_spec n (2 ^ (w - 1))) as [H|H].
  - split; [lia|]. rewrite Z.mod_small by lia. lia.
  - split; [lia|].
    rewrite <-(Z.mod_unique (Z.of_N n - 2 ^ Z.of_N w) (2 ^ Z.of_N w) (-1) (Z.of_N n)); lia.
Qed.

(** The bytes of a signed integer. *)
Lemma signed_bytes_iff w k n bs :
  w = N.of_nat (8 * k) -> (0 < w)%N ->
  length bs = k /\ Forall is_byte bs /\ n = to_signed w (from_be_bytes bs) <->
  in_signed (Z.of_N w) n /\ bs = to_be_bytes k (Z.to_N (n mod 2 ^ Z.of_N w)).
Proof.
  intros Hk Hw.
  assert (H256 : (256 ^ N.of_nat k = 2 ^ w)%N).
  { change 256%N with (2 ^ 8)%N. rewrite <-N.pow_mul_r. f_equal. lia. }
  split.
  - intros (Hl & Hb & ->).
    destruct (proj1 (be_bytes_iff k _ bs) (conj Hl (conj Hb eq_refl))) as [Hlt Hbs].
    rewrite H256 in Hlt. destruct (to_signed_unwrap w _ Hw Hlt) as [Hs ->]. done.
  - intros [Hs ->].
    assert (Hlt : (Z.to_N (n mod 2 ^ Z.of_N w) < 256 ^ N.of_nat k)%N).
    { rewrite H256. apply N2Z.inj_lt. rewrite N2Z.inj_pow.
      pose proof (Z.mod_pos_bound n (2 ^ Z.of_N w) ltac:(lia)). rewrite Z2N.id by lia. lia. }
    destruct (proj2 (be_bytes_iff k _ _) (conj Hlt eq_refl)) as (H1 & H2 & H3).
    split_and!; [done..|]. rewrite <-H3. by rewrite to_signed_wrap.
Qed.

Definition g_i4 : grammar Z := fun n bs =>
  in_signed 32 n /\ bs = to_be_bytes 4 (Z.to_N (n mod 2 ^ 32)).

Lemma exact_i4 k : exact k read_i4 g_i4.
Proof.
  eapply exact_iff; [apply (exact_take k 4 read_i4 (fun bs => to_signed 32 (from_be_bytes bs)))|].
  - intros r Hr. unfold read_i4. rewrite take_or_eof_u4 by done. unfold take_or_eof. by case_decide.
  - intros n bs. by apply (signed_bytes_iff 32 4).
Qed.

Definition g_i8 : grammar Z := fun n bs => in_signed 64 n /\ bs = to_be_bytes 8 (as_u64 n).

Lemma exact_i8 k : exact k read_i8 g_i8.
Proof.
  eapply exact_iff; [apply (exact_take k 8 read_i8 (fun bs => to_signed 64 (from_be_bytes bs)))|].
  - intros r Hr. unfold read_i8, take_or_eof. rewrite read_n_spec by done. by case_decide.
  - intros n bs. by apply (signed_bytes_iff 64 8).
Qed.

(** ** Entries *)

(** A parser, and a function of its value. *)
Lemma exact_map {A B} k (m : Reader -> result (B * Reader)) (G : grammar B) (f : B -> A) :
  exact k m G ->
  exact k (fun r => '(x, r) <-? m r ;; ok (f x, r)) (fun a bs => exists x, G x bs /\ a = f x).
Proof.
  intros Hm. eapply exact_iff; [apply exact_bind; [exact Hm|]; intros x bs _; apply exact_ret|].
  intros a bs. split.
  - intros (x & b1 & b2 & -> & Hx & -> & ->). rewrite app_nil_r. by exists x.
  - intros (x & Hx & ->). exists x, bs, []. by rewrite app_nil_r.
Qed.

Lemma exact_two_indices {A} k (f : N -> N -> A) :
  exact k (fun r => '(a, r) <-? read_u2 r ;; '(b, r) <-? read_u2 r ;; ok (f a b, r))
    (fun x bs => exists a b, is_u2 a /\ is_u2 b /\ x = f a b /\ bs = encode_u2 a ++ encode_u2 b).
Proof.
  eapply exact_iff; [apply exact_bind; [apply exact_u2|]; intros a bs _; apply exact_map, exact_u2|].
  intros x bs. split.
  - intros (a & b1 & b2 & -> & [Ha ->] & b & [Hb ->] & ->). by exists a, b.
  - intros (a & b & Ha & Hb & -> & ->). exists a, (encode_u2 a), (encode_u2 b).
    split_and!; [done..|]. by exists b.
Qed.

Lemma total_decode bytes : exists res, decode_modified_utf8 bytes = Done res.
Proof.
  assert (H : wpr (decode_modified_utf8 bytes) (fun _ => True)).
  { unfold decode_modified_utf8. eapply wpr_seq; [apply wpr_decode_loop; lia|].
    intros us _. by apply (wpr_ok _ (fun _ => True)). }
  apply wp_inv in H as (res & He & _). by exists res.
Qed.

Lemma exact_utf8 k :
  exact k (fun r => '(len, r) <-? read_u2 r ;; '(bytes, r) <-? read_bytes r (N.to_nat len) ;;
      s <-? decode_modified_utf8 bytes ;; ok (CpInfo.Utf8 s, r))
    (fun e bs => g_entry e (1%N :: bs)).
Proof.
  eapply exact_iff.
  - apply exact_bind; [apply exact_u2|]. intros len bs [Hlen _].
    apply exact_bind; [apply exact_bytes|].
    { rewrite N2Nat.id. eapply N.lt_trans; [exact Hlen|done]. }
    intros text bs' _. apply exact_pure; [apply total_decode|]. intros s _. apply exact_ret.
  - intros e bs. split.
    + intros (len & b1 & b2 & -> & [Hlen ->] & text & b3 & b4 & -> & (Hl & Hb & ->) & s & Hs & -> & ->).
      exists text. assert (Hn : N.of_nat (length text) = len) by (rewrite Hl; lia).
      rewrite app_nil_r, Hn. split_and!; [done..| |done]. by apply decode_ok_iff.
    + destruct e; try by intros [_ He]. intros (text & Hl & Hb & Hs & [= ->]).
      exists (N.of_nat (length text)), (encode_u2 (N.of_nat (length text))), text.
      split_and!; [done..|]. exists text, text, []. rewrite app_nil_r, Nat2N.id.
      split_and!; [done..|]. exists s. split; [by apply decode_ok_iff|done].
Qed.

Lemma exact_double k :
  exact k (fun r => '(n, r) <-? read_i8 r ;; ok (CpInfo.Double (as_u64 n), r))
    (fun e bs => exists bits, (bits < 2 ^ 64)%N /\ e = CpInfo.Double bits /\
       bs = to_be_bytes 8 bits).
Proof.
  eapply exact_iff; [apply (exact_map k _ g_i8 (fun n => CpInfo.Double (as_u64 n))), exact_i8|].
  intros e bs. split.
  - intros (n & [_ ->] & ->). exists (as_u64 n). split; [apply as_u64_bound|done].
  - intros (bits & Hb & -> & ->). exists (to_signed 64 bits).
    destruct (to_signed_unwrap 64 bits) as [Hs _]; [done..|]. unfold g_i8.
    by rewrite as_u64_to_signed.
Qed.

Lemma exact_method_handle k :
  exact k (fun r => '(k, r) <-? read_u1 r ;; '(i, r) <-? read_u2 r ;; ok (CpInfo.MethodHandle k i, r))
    (fun e bs => exists a i, is_byte a /\ is_u2 i /\ e = CpInfo.MethodHandle a i /\
       bs = a :: encode_u2 i).
Proof.
  apply exact_mono with (k := S k); [|lia]. eapply exact_iff.
  - apply exact_u1_bind. intros a _. apply exact_map, exact_u2.
  - intros e bs. unfold g_u2. split.
    + intros (a & bs' & -> & Ha & i & [Hi ->] & ->). by exists a, i.
    + intros (a & i & Ha & Hi & -> & ->). exists a, (encode_u2 i). split_and!; [done..|]. by exists i.
Qed.

(** The entry that starts with a given tag: of the cases of [g_entry], the one that applies. *)
Ltac by_entry :=
  let e := fresh "e" in let bs := fresh "bs" in
  intros e bs; unfold g_u2, g_u4, g_i4, g_i8; split;
  [ naive_solver
  | destruct e; cbn [g_entry wf_entry encode_entry];
    try (by intros [_ ?]); try (by intros (? & _ & _ & _ & ?)); naive_solver ].

Lemma exact_entry k : exact k parse_entry g_entry.
Proof.
  apply exact_mono with (k := S k); [|lia]. unfold parse_entry. cbv zeta. eapply exact_iff.
  { apply (exact_u1_bind k _ (fun tag e bs => g_entry e (tag :: bs))). intros tag Htag.
    case_decide as H1; [subst; apply exact_utf8|].
    repeat (case_decide; [subst tag|]);
    (eapply exact_iff; [first [apply exact_double | apply exact_method_handle
      | apply exact_two_indices | apply exact_map, exact_i4 | apply exact_map, exact_u4
      | apply exact_map, exact_i8 | apply exact_map, exact_u2 | apply exact_err]|]).
    all: by_entry. }
  intros e bs. split.
  - by intros (tag & bs' & -> & _ & H).
  - intros H. destruct e; cbn [g_entry] in H;
      [destruct H as (text & ? & ? & ? & ->)|destruct H as [Hw ->]..]; eexists _, _;
      (split; [done|]); (split; [done|]); try done.
    by exists text.
Qed.

(** ** The pool *)

(** The pools that the loop can still build, from the slots [pre] it has filled. *)
Definition g_slots (pre : ConstantPool) (count : nat) : grammar ConstantPool := fun pool bs =>
  exists es, pool = pre ++ concat (entry_slots <$> es) /\ length pool = count /\
    g_list (length es) g_entry es bs.

Lemma g_slots_full pre bs pool : g_slots pre (length pre) pool bs <-> pool = pre /\ bs = [].
Proof.
  split.
  - intros ([|e es] & -> & Hl & Hg).
    + destruct Hg as (_ & bss & H & ->). apply Forall2_nil_inv_l in H as ->. by rewrite app_nil_r.
    + exfalso. rewrite length_app, fmap_cons in Hl. cbn [concat] in Hl. rewrite length_app in Hl.
      rewrite (entry_slots_wide e) in Hl. destruct (is_wide e); simpl in Hl; lia.
  - intros [-> ->]. exists []. rewrite app_nil_r. split_and!; [done..|]. split; [done|]. by exists [].
Qed.

Lemma g_slots_cons pre count bs pool :
  length pre < count ->
  g_slots pre count pool bs <->
  exists e bs1 bs2, bs = bs1 ++ bs2 /\ g_entry e bs1 /\
    length (pre ++ entry_slots e) <= count /\ g_slots (pre ++ entry_slots e) count pool bs2.
Proof.
  intros Hlt. split.
  - intros ([|e es] & -> & Hl & Hlen & bss & Hg & ->); [rewrite length_app in Hl; simpl in Hl; lia|].
    apply Forall2_cons_inv_l in Hg as (b & bss' & Hb & Hg & ->). exists e, b, (concat bss').
    rewrite fmap_cons in *. cbn [concat] in *. rewrite app_assoc in *.
    split_and!; [done..|rewrite <-Hl, (length_app (pre ++ _)); lia|]. exists es. split_and!; [done..|].
    split; [done|]. by exists bss'.
  - intros (e & b1 & b2 & -> & He & _ & es & -> & Hl & _ & bss & Hg & ->). exists (e :: es).
    rewrite fmap_cons. cbn [concat]. rewrite app_assoc. split_and!; [done..|].
    split; [done|]. exists (b1 :: bss). split; [by constructor|done].
Qed.

Lemma exact_loop k fuel count pre :
  count - length pre < fuel -> length pre <= count ->
  exact k (parse_loop fuel count (length pre) (pre ++ replicate (count - length pre) None))
    (g_slots pre count).
Proof.
  revert pre; induction fuel as [|fuel IH]; intros pre Hf Hle; [lia|]. cbn [parse_loop].
  case_decide as Hlt.
  - eapply exact_iff; [|intros pool bs; symmetry; by apply (g_slots_cons pre count bs pool)].
    apply exact_bind; [apply exact_entry|]. intros e bs _.
    unfold set_idx. rewrite decide_True by (rewrite length_app, length_replicate; lia).
    cbn [lift mbind run_bind try_bind]. rewrite insert_app_r_alt, Nat.sub_diag by lia.
    assert (Hgo : length (pre ++ entry_slots e) <= count ->
      exact k (parse_loop fuel count (length (pre ++ entry_slots e))
          (pre ++ <[0 := Some e]> (replicate (count - length pre) None)))
        (fun pool bs => length (pre ++ entry_slots e) <= count /\
           g_slots (pre ++ entry_slots e) count pool bs)).
    { intros Hl. specialize (IH (pre ++ entry_slots e)). rewrite <-app_assoc in IH.
      eapply exact_iff; [|intros pool bs'; split; [by split|by intros [_ ?]]].
      replace (<[0 := Some e]> (replicate (count - length pre) None))
        with (entry_slots e ++ replicate (count - length (pre ++ entry_slots e)) None); [apply IH; rewrite ?length_app in *; rewrite ?entry_slots_wide in *; destruct (is_wide e); simpl in *; lia|].
      rewrite length_app in *. rewrite ?entry_slots_wide in *. destruct (is_wide e); simpl in *.
      - replace (count - length pre) with (S (S (count - (length pre + 2)))) by lia. done.
      - replace (count - length pre) with (S (count - (length pre + 1))) by lia. done. }
    rewrite !length_app in Hgo. setoid_rewrite length_app. rewrite ?entry_slots_wide in *.
    destruct (is_wide e); simpl in *.
    + case_decide as Hc; [|apply Hgo; lia]. eapply exact_iff; [apply exact_err|].
      intros pool bs'. split; [done|]. intros [? _]. lia.
    + apply Hgo. lia.
  - replace count with (length pre) by lia. rewrite Nat.sub_diag. simpl. rewrite app_nil_r.
    eapply exact_iff; [apply exact_ret|]. intros pool bs. symmetry. apply g_slots_full.
Qed.

Lemma exact_pool k : exact k parse g_pool.
Proof.
  unfold parse. eapply exact_iff.
  - apply (exact_bind k read_u2 _ g_u2 (fun n pool bs => n <> 0%N /\ g_slots [None] (N.to_nat n) pool bs));
      [apply exact_u2|]. intros n bs Hn. cbv zeta. case_decide as Hz.
    + eapply exact_iff; [apply exact_err|]. intros pool bs'. split; [done|]. intros [? _]. lia.
    + eapply exact_iff.
      * replace (replicate (N.to_nat n) None)
          with ([None] ++ replicate (N.to_nat n - length [@None CpInfo.t]) None : ConstantPool).
        { apply (exact_loop k _ _ [None]); simpl; lia. }
        destruct (N.to_nat n); [done|]. simpl. by rewrite Nat.sub_0_r.
      * intros pool bs'. split; [|by intros [_ ?]]. split; [lia|done].
  - intros pool bs. split.
    + intros (n & b1 & b2 & -> & [Hn ->] & _ & es & -> & Hl & Hg).
      exists es, b2. change ([None] ++ concat (entry_slots <$> es)) with (pool_slots es) in *.
      rewrite Hl, N2Nat.id. done.
    + intros (es & bs' & -> & Hu & Hg & ->).
      exists (N.of_nat (length (pool_slots es))), (encode_u2 (N.of_nat (length (pool_slots es)))), bs'.
      split_and!; [done..|]. exists es. rewrite Nat2N.id. done.
Qed.
