(* ===== verification/Annotation.v ===== *)
(** * Annotations of class files (crates/nova-classfile/src/annotation.rs)

    Annotations and their element values, which nest, and their parser.  The reference is the
    grammar of JVMS 4.7.16, as relations between values, slots of the pool and bytes, which uses
    none of the functions of the parser; the parser is exact for it: it returns on every input, and
    accepts exactly the bytes of the value it returns.  The recursion consumes a byte at every
    level, so the number of unread bytes bounds it; the stack the code needs for that is not
    modelled. *)

From Stdlib Require Import Ascii String.
From stdpp Require Import base list numbers strings option.
From S2P Require Import Prelude Str ClassReader Descriptor ConstantPool ModifiedUtf8 ByteGrammar.

(** ** Data *)

Module ConstValue.
(** Floats are kept as their bits, as in the constant pool. *)
Inductive t :=
| Byte (v : Z)
| Char (v : N)
| Short (v : Z)
| Int (v : Z)
| Long (v : Z)
| Float (bits : N)
| Double (bits : N)
| Boolean (v : bool)
| String (v : str).
End ConstValue.

(** An annotation whose element values are [V]. *)
Record annotation (V : Type) := mkAnnotation {
  type_descriptor : str;
  type_internal_name : option str;
  elements : list (str * V)
}.
Global Arguments mkAnnotation {V} _ _ _.
Global Arguments type_descriptor {V} _.
Global Arguments type_internal_name {V} _.
Global Arguments elements {V} _.

Module ElementValue.
Inductive t :=
| Const (c : ConstValue.t)
| Enum (type_descriptor const_name : str)
| Class (name : str)
| Annotation (a : annotation t)
| Array (values : list t).
End ElementValue.

Notation Annotation := (annotation ElementValue.t).

(** ** Strings *)

(** A literal of the source. *)
Definition text (s : string) : str := ch <$> String.list_ascii_of_string s.

Definition strip_prefix (s : str) (c : char) : option str :=
  match s with x :: s => if decide (x = c) then Some s else None | [] => None end.

Definition strip_suffix (s : str) (c : char) : option str :=
  match list.last s with
  | Some x => if decide (x = c) then Some (removelast s) else None
  | None => None
  end.

Definition descriptor_to_internal_name (desc : str) : option str :=
  rest ← strip_prefix desc (ch "L"); strip_suffix rest (ch ";").

(** ** Constants *)

(** [value as i8], [value as i16] and [value as u16] of an [i32]. *)
Definition as_i8 (v : Z) : Z := to_signed 8 (Z.to_N (v mod 2 ^ 8)).
Definition as_i16 (v : Z) : Z := to_signed 16 (Z.to_N (v mod 2 ^ 16)).
Definition as_u16 (v : Z) : N := Z.to_N (v mod 2 ^ 16).

(** [match cp.get(idx)? { CpInfo::Integer(v) => *v, other => return Err(..) }], and the same for
    the other kinds. *)
Definition get_integer (cp : ConstantPool) (index : N) : result Z :=
  e <-? get cp index ;;
  match e with
  | CpInfo.Integer v => ok v
  | other => err (Error.ConstantPoolTypeMismatch index "Integer" (CpInfo.kind other))
  end.

Definition get_double (cp : ConstantPool) (index : N) : result N :=
  e <-? get cp index ;;
  match e with
  | CpInfo.Double v => ok v
  | other => err (Error.ConstantPoolTypeMismatch index "Double" (CpInfo.kind other))
  end.

Definition get_float (cp : ConstantPool) (index : N) : result N :=
  e <-? get cp index ;;
  match e with
  | CpInfo.Float v => ok v
  | other => err (Error.ConstantPoolTypeMismatch index "Float" (CpInfo.kind other))
  end.

Definition get_long (cp : ConstantPool) (index : N) : result Z :=
  e <-? get cp index ;;
  match e with
  | CpInfo.Long v => ok v
  | other => err (Error.ConstantPoolTypeMismatch index "Long" (CpInfo.kind other))
  end.

(** A string constant: [CONSTANT_Utf8], or [CONSTANT_String], which some producers emit. *)
Definition get_string (cp : ConstantPool) (index : N) : result str :=
  e <-? get cp index ;;
  match e with
  | CpInfo.Utf8 s => ok s
  | CpInfo.String string_index => get_utf8 cp string_index
  | other => err (Error.ConstantPoolTypeMismatch index "Utf8" (CpInfo.kind other))
  end.

(** The tags 'B', 'C', 'I', 'S' and 'Z', whose constants are [CONSTANT_Integer]. *)
Definition integer_const (tag : N) (value : Z) : option ConstValue.t :=
  if decide (tag = ch "B") then Some (ConstValue.Byte (as_i8 value))
  else if decide (tag = ch "C") then Some (ConstValue.Char (as_u16 value))
  else if decide (tag = ch "I") then Some (ConstValue.Int value)
  else if decide (tag = ch "S") then Some (ConstValue.Short (as_i16 value))
  else if decide (tag = ch "Z") then Some (ConstValue.Boolean (bool_decide (value <> 0%Z)))
  else None.

Definition is_integer_tag (tag : N) : bool :=
  bool_decide (tag ∈ [ch "B"; ch "C"; ch "I"; ch "S"; ch "Z"]).

(** ** Parsing *)

Section Parse.
Context (cp : ConstantPool).

(** [Annotation::parse], over the parser of element values. *)
Definition parse_element (value : Reader -> result (ElementValue.t * Reader)) (r : Reader)
    : result ((str * ElementValue.t) * Reader) :=
  '(element_name_index, r) <-? read_u2 r ;;
  name <-? get_utf8 cp element_name_index ;;
  '(v, r) <-? value r ;;
  ok ((name, v), r).

Definition parse_annotation_with (value : Reader -> result (ElementValue.t * Reader))
    (r : Reader) : result (Annotation * Reader) :=
  '(type_index, r) <-? read_u2 r ;;
  type_descriptor <-? get_utf8 cp type_index ;;
  '(num_element_value_pairs, r) <-? read_u2 r ;;
  '(elements, r) <-? push_times (N.to_nat num_element_value_pairs) (parse_element value) r ;;
  ok (mkAnnotation type_descriptor (descriptor_to_internal_name type_descriptor) elements, r).

(** [ElementValue::parse]. *)
Fixpoint parse_value (fuel : nat) (r : Reader) : result (ElementValue.t * Reader) :=
  match fuel with
  | 0 => OutOfFuel
  | S fuel =>
      '(tag, r) <-? read_u1 r ;;
      if is_integer_tag tag then
        '(idx, r) <-? read_u2 r ;;
        value <-? get_integer cp idx ;;
        match integer_const tag value with
        | Some cv => ok (ElementValue.Const cv, r)
        | None => Panic
        end
      else if decide (tag = ch "D") then
        '(idx, r) <-? read_u2 r ;;
        value <-? get_double cp idx ;;
        ok (ElementValue.Const (ConstValue.Double value), r)
      else if decide (tag = ch "F") then
        '(idx, r) <-? read_u2 r ;;
        value <-? get_float cp idx ;;
        ok (ElementValue.Const (ConstValue.Float value), r)
      else if decide (tag = ch "J") then
        '(idx, r) <-? read_u2 r ;;
        value <-? get_long cp idx ;;
        ok (ElementValue.Const (ConstValue.Long value), r)
      else if decide (tag = ch "s") then
        '(idx, r) <-? read_u2 r ;;
        value <-? get_string cp idx ;;
        ok (ElementValue.Const (ConstValue.String value), r)
      else if decide (tag = ch "e") then
        '(type_name_index, r) <-? read_u2 r ;;
        '(const_name_index, r) <-? read_u2 r ;;
        type_descriptor <-? get_utf8 cp type_name_index ;;
        const_name <-? get_utf8 cp const_name_index ;;
        ok (ElementValue.Enum type_descriptor const_name, r)
      else if decide (tag = ch "c") then
        '(class_info_index, r) <-? read_u2 r ;;
        name <-? get_utf8 cp class_info_index ;;
        ok (ElementValue.Class name, r)
      else if decide (tag = ch "@") then
        '(a, r) <-? parse_annotation_with (parse_value fuel) r ;;
        ok (ElementValue.Annotation a, r)
      else if decide (tag = ch "[") then
        '(num_values, r) <-? read_u2 r ;;
        '(values, r) <-? push_times (N.to_nat num_values) (parse_value fuel) r ;;
        ok (ElementValue.Array values, r)
      else err (Error.MalformedAttribute "RuntimeVisibleAnnotations")
  end.

Definition parse_annotation (r : Reader) : result (Annotation * Reader) :=
  parse_annotation_with (parse_value (S (remaining r))) r.

End Parse.

(** ** The reference: the grammar *)

(** What an index stands for: the entry in its slot, which for some kinds names another slot. *)
Definition entry_at (cp : ConstantPool) (i : N) (e : CpInfo.t) : Prop :=
  i <> 0%N /\ cp !! N.to_nat i = Some (Some e).

Definition utf8_at cp i (s : str) : Prop := entry_at cp i (CpInfo.Utf8 s).
Definition class_name_at cp i (s : str) : Prop := exists j, entry_at cp i (CpInfo.Class j) /\ utf8_at cp j s.
Definition integer_at cp i (v : Z) : Prop := entry_at cp i (CpInfo.Integer v).
Definition long_at cp i (v : Z) : Prop := entry_at cp i (CpInfo.Long v).
Definition float_at cp i (bits : N) : Prop := entry_at cp i (CpInfo.Float bits).
Definition double_at cp i (bits : N) : Prop := entry_at cp i (CpInfo.Double bits).
Definition string_at cp i (s : str) : Prop :=
  utf8_at cp i s \/ exists j, entry_at cp i (CpInfo.String j) /\ utf8_at cp j s.

(** [v] without the bits above the lowest [w]: as a signed number, and as an unsigned one. *)
Definition low_signed (w v n : Z) : Prop := (- 2 ^ (w - 1) <= n < 2 ^ (w - 1) /\ exists k, v = n + k * 2 ^ w)%Z.
Definition low_unsigned (w v : Z) (n : N) : Prop := (Z.of_N n < 2 ^ w /\ exists k, v = Z.of_N n + k * 2 ^ w)%Z.

(** The class that a descriptor [L<name>;] names. *)
Definition names_class (descriptor : str) (name : option str) : Prop :=
  match name with
  | Some name => descriptor = [ch "L"] ++ name ++ [ch ";"]
  | None => forall name, descriptor <> [ch "L"] ++ name ++ [ch ";"]
  end.

(** A list with its length in two bytes in front. *)
Definition g_counted {X} (G : grammar X) : grammar (list X) := fun l bs =>
  exists bs', is_u2 (N.of_nat (length l)) /\ g_list (length l) G l bs' /\
    bs = encode_u2 (N.of_nat (length l)) ++ bs'.

Definition g_pair {X Y} (G : grammar X) (H : grammar Y) : grammar (X * Y) := fun p bs =>
  exists bs1 bs2, bs = bs1 ++ bs2 /\ G p.1 bs1 /\ H p.2 bs2.

Section Grammar.
Context (cp : ConstantPool).

(** An index of the pool that stands for [x]. *)
Definition g_index {X} (at_ : ConstantPool -> N -> X -> Prop) : grammar X := fun x bs =>
  exists i, is_u2 i /\ at_ cp i x /\ bs = encode_u2 i.

Definition g_annotation (value : grammar ElementValue.t) : grammar Annotation := fun a bs =>
  exists bs1 bs2, bs = bs1 ++ bs2 /\ g_index utf8_at (type_descriptor a) bs1 /\
    names_class (type_descriptor a) (type_internal_name a) /\
    g_counted (g_pair (g_index utf8_at) value) (elements a) bs2.

(** The constants whose value is a [CONSTANT_Integer] with the value [v]. *)
Inductive narrowed (v : Z) : N -> ConstValue.t -> Prop :=
| narrowed_byte n : low_signed 8 v n -> narrowed v (ch "B") (ConstValue.Byte n)
| narrowed_char n : low_unsigned 16 v n -> narrowed v (ch "C") (ConstValue.Char n)
| narrowed_int : narrowed v (ch "I") (ConstValue.Int v)
| narrowed_short n : low_signed 16 v n -> narrowed v (ch "S") (ConstValue.Short n)
| narrowed_false : v = 0%Z -> narrowed v (ch "Z") (ConstValue.Boolean false)
| narrowed_true : v <> 0%Z -> narrowed v (ch "Z") (ConstValue.Boolean true).

Inductive g_value : ElementValue.t -> list N -> Prop :=
| gv_integer tag v c bs :
    g_index integer_at v bs -> narrowed v tag c -> g_value (ElementValue.Const c) (tag :: bs)
| gv_double v bs :
    g_index double_at v bs -> g_value (ElementValue.Const (ConstValue.Double v)) (ch "D" :: bs)
| gv_float v bs :
    g_index float_at v bs -> g_value (ElementValue.Const (ConstValue.Float v)) (ch "F" :: bs)
| gv_long v bs :
    g_index long_at v bs -> g_value (ElementValue.Const (ConstValue.Long v)) (ch "J" :: bs)
| gv_string v bs :
    g_index string_at v bs -> g_value (ElementValue.Const (ConstValue.String v)) (ch "s" :: bs)
| gv_enum t c bs1 bs2 :
    g_index utf8_at t bs1 -> g_index utf8_at c bs2 ->
    g_value (ElementValue.Enum t c) (ch "e" :: bs1 ++ bs2)
| gv_class n bs : g_index utf8_at n bs -> g_value (ElementValue.Class n) (ch "c" :: bs)
| gv_annotation a bs :
    g_annotation g_value a bs -> g_value (ElementValue.Annotation a) (ch "@" :: bs)
| gv_array vs bs : g_counted g_value vs bs -> g_value (ElementValue.Array vs) (ch "[" :: bs).
End Grammar.

(** ** The parser is exact *)

(** The code looks up what the grammar says: it returns, with the value or an error. *)
Definition resolves {X} (look : ConstantPool -> N -> result X) (at_ : ConstantPool -> N -> X -> Prop) : Prop :=
  forall cp i, returns (look cp i) (at_ cp i).

Lemma resolves_ok {X} (look : ConstantPool -> N -> result X) at_ cp i x :
  resolves look at_ -> look cp i = ok x <-> at_ cp i x.
Proof. intros Hr. destruct (Hr cp i) as (r & -> & <-). unfold ok. split; congruence. Qed.

Lemma resolves_total {X} (look : ConstantPool -> N -> result X) at_ cp i :
  resolves look at_ -> exists res, look cp i = Done res.
Proof. intros Hr. destruct (Hr cp i) as (r & -> & _). by exists r. Qed.

Lemma get_resolves : resolves get entry_at.
Proof.
  intros cp i. unfold get, entry_at. case_decide as Hi.
  - apply returns_err. intros e [Hz He%lookup_lt_Some]. destruct Hi; lia.
  - destruct (lookup_lt_is_Some_2 cp (N.to_nat i)) as [e He]; [lia|].
    rewrite (proj2 (idx_Done _ _ _) He). cbn [lift mbind run_bind try_bind]. destruct e as [e|].
    + exists (inr e). split; [done|]. intros x. split; [intros [= ->]; split; [lia|exact He]|].
      intros [_ Hx]. assert (Heq := eq_trans (eq_sym He) Hx). congruence.
    + apply returns_err. intros e [_ Hx]. assert (Heq := eq_trans (eq_sym He) Hx). congruence.
Qed.

(** A look-up that goes on from the entry. *)
Lemma select_resolves {X} (f : ConstantPool -> N -> CpInfo.t -> result X) (at_ : ConstantPool -> N -> X -> Prop)
    (Q : ConstantPool -> CpInfo.t -> X -> Prop) :
  (forall cp i e, returns (f cp i e) (Q cp e)) ->
  (forall cp i x, at_ cp i x <-> exists e, entry_at cp i e /\ Q cp e x) ->
  resolves (fun cp i => e <-? get cp i ;; f cp i e) at_.
Proof.
  intros Hf Hat cp i. destruct (get_resolves cp i) as ([er|e] & -> & He); cbn [try_bind].
  - apply returns_err. intros x (e & Hx & _)%Hat. by apply He in Hx.
  - eapply returns_iff; [apply Hf|]. intros x. rewrite Hat. split; [intros HQ; exists e; split; [by apply He|done]|].
    intros (e' & Hx & HQ). apply He in Hx as [= ->]. done.
Qed.

Lemma returns_ok {A} (x : A) : returns (ok x) (fun y => y = x).
Proof. exists (inr x). split; [done|]. intros y. split; congruence. Qed.

(** A look-up that selects a kind of entry. *)
Ltac resolves_kind sel :=
  apply select_resolves with (Q := fun cp e x => sel x = e);
  [intros cp i []; first [apply returns_err; intros ? ?; discriminate
     |eapply returns_iff; [apply returns_ok|]; intros ?; cbv beta; split; congruence]
  |intros cp i x; split; [intros ?; by eexists|intros (? & ? & <-); done]].

Lemma utf8_resolves : resolves get_utf8 utf8_at.
Proof. resolves_kind CpInfo.Utf8. Qed.
Lemma integer_resolves : resolves get_integer integer_at.
Proof. resolves_kind CpInfo.Integer. Qed.
Lemma double_resolves : resolves get_double double_at.
Proof. resolves_kind CpInfo.Double. Qed.
Lemma float_resolves : resolves get_float float_at.
Proof. resolves_kind CpInfo.Float. Qed.
Lemma long_resolves : resolves get_long long_at.
Proof. resolves_kind CpInfo.Long. Qed.

Lemma class_name_resolves : resolves get_class_name class_name_at.
Proof.
  apply select_resolves with (Q := fun cp e x => exists j, e = CpInfo.Class j /\ utf8_at cp j x).
  - intros cp i []; try (apply returns_err; naive_solver). eapply returns_iff; [apply utf8_resolves|]. naive_solver.
  - unfold class_name_at. naive_solver.
Qed.

Lemma string_resolves : resolves get_string string_at.
Proof.
  apply select_resolves with (Q := fun cp e x => e = CpInfo.Utf8 x \/ exists j, e = CpInfo.String j /\ utf8_at cp j x).
  - intros cp i []; try (apply returns_err; naive_solver).
    + eapply returns_iff; [apply returns_ok|]. naive_solver.
    + eapply returns_iff; [apply utf8_resolves|]. naive_solver.
  - unfold string_at, utf8_at. naive_solver.
Qed.

Create HintDb lookup.
#[export] Hint Resolve get_resolves utf8_resolves integer_resolves double_resolves float_resolves long_resolves
  class_name_resolves string_resolves : lookup.
#[export] Hint Resolve resolves_total : lookup.

(** *** Names and constants *)

Lemma strip_prefix_Some s c t : strip_prefix s c = Some t <-> s = c :: t.
Proof. destruct s as [|x s]; simpl; [done|]. case_decide; subst; naive_solver. Qed.

Lemma strip_suffix_Some s c t : strip_suffix s c = Some t <-> s = t ++ [c].
Proof.
  unfold strip_suffix. destruct s as [|x s _] using rev_ind; [by destruct t|]. rewrite last_snoc, removelast_last.
  case_decide as Hx; subst; split.
  - by intros [= ->].
  - by intros [-> _]%app_inj_tail.
  - done.
  - by intros [_ ?]%app_inj_tail.
Qed.

Lemma internal_name_exact d name : descriptor_to_internal_name d = name <-> names_class d name.
Proof.
  assert (Hs : forall n, descriptor_to_internal_name d = Some n <-> d = [ch "L"] ++ n ++ [ch ";"]).
  { intros n. unfold descriptor_to_internal_name. rewrite bind_Some. setoid_rewrite strip_prefix_Some.
    setoid_rewrite strip_suffix_Some. split; [by intros (x & -> & ->)|]. intros ->. by eexists. }
  destruct name as [n|]; [apply Hs|]. unfold names_class. split.
  - intros He n Hn%Hs. congruence.
  - intros Hn. destruct (descriptor_to_internal_name d) as [n|]; [|done]. destruct (Hn n). by apply Hs.
Qed.

Lemma low_signed_exact w v n : (0 < w)%N ->
  to_signed w (Z.to_N (v mod 2 ^ Z.of_N w)) = n <-> low_signed (Z.of_N w) v n.
Proof.
  intros Hw. set (W := Z.of_N w). assert (HW : (0 < W)%Z) by lia.
  assert (Hp : (2 ^ W = 2 * 2 ^ (W - 1))%Z) by (rewrite <-Z.pow_succ_r by lia; f_equal; lia).
  assert (Hpos : (0 < 2 ^ (W - 1))%Z) by lia.
  pose proof (Z.mod_pos_bound v (2 ^ W) ltac:(lia)) as Hm. pose proof (Z.div_mod v (2 ^ W) ltac:(lia)) as Hdm.
  assert (Hto : to_signed w (Z.to_N (v mod 2 ^ W)) = (if (v mod 2 ^ W <? 2 ^ (W - 1)) then v mod 2 ^ W else v mod 2 ^ W - 2 ^ W)%Z).
  { unfold to_signed. assert (H1 : Z.of_N (2 ^ (w - 1)) = (2 ^ (W - 1))%Z) by (rewrite N2Z.inj_pow; f_equal; lia).
    change (Z.of_N w) with W. revert H1. generalize (2 ^ (w - 1))%N. intros p H1.
    destruct (N.ltb_spec (Z.to_N (v mod 2 ^ W)) p), (Z.ltb_spec (v mod 2 ^ W) (2 ^ (W - 1))); lia. }
  rewrite Hto. unfold low_signed. split.
  - intros <-. destruct (Z.ltb_spec (v mod 2 ^ W) (2 ^ (W - 1)))%Z.
    + split; [lia|]. exists (v / 2 ^ W)%Z. lia.
    + split; [lia|]. exists (v / 2 ^ W + 1)%Z. lia.
  - intros [Hn (k & Hv)].
    destruct (Z.ltb_spec (v mod 2 ^ W) (2 ^ (W - 1)))%Z; [|]; destruct (Z.lt_ge_cases n 0) as [H0|H0].
    all: try (assert (v mod 2 ^ W = n)%Z by (symmetry; apply (Z.mod_unique v _ k); lia); lia).
    all: assert (v mod 2 ^ W = n + 2 ^ W)%Z by (symmetry; apply (Z.mod_unique v _ (k - 1)); lia); lia.
Qed.

Lemma low_unsigned_exact w v n : (0 <= w)%Z -> Z.to_N (v mod 2 ^ w) = n <-> low_unsigned w v n.
Proof.
  intros Hw. pose proof (Z.mod_pos_bound v (2 ^ w) ltac:(lia)) as Hm. pose proof (Z.div_mod v (2 ^ w) ltac:(lia)) as Hdm.
  unfold low_unsigned. split.
  - intros <-. rewrite Z2N.id by lia. split; [lia|]. exists (v / 2 ^ w)%Z. lia.
  - intros [Hn (k & Hv)]. assert (v mod 2 ^ w = Z.of_N n)%Z by (symmetry; apply (Z.mod_unique v _ k); lia). lia.
Qed.

Section Exact.
Context (cp : ConstantPool).

(** An index that is read and looked up. *)
Lemma exact_index {X A} k (look : ConstantPool -> N -> result X) (at_ : ConstantPool -> N -> X -> Prop)
    (f : X -> Reader -> result (A * Reader)) (G : X -> grammar A) :
  resolves look at_ -> (forall x bs, g_index cp at_ x bs -> exact k (f x) (G x)) ->
  exact k (fun r => '(i, r) <-? read_u2 r ;; x <-? look cp i ;; f x r)
    (fun a bs => exists x bs1 bs2, bs = bs1 ++ bs2 /\ g_index cp at_ x bs1 /\ G x a bs2).
Proof.
  intros Hl Hf. eapply exact_iff.
  - apply exact_bind; [apply exact_u2|]. intros i bs [Hi Hbs].
    apply exact_pure; [by eapply resolves_total|]. intros x Hx. apply (Hf x bs). exists i. by rewrite <-(resolves_ok _ _ _ _ _ Hl).
  - intros a bs. unfold g_index. setoid_rewrite <-(resolves_ok look at_ cp _ _ Hl). split.
    + intros (i & bs1 & bs2 & -> & [Hi ->] & x & Hx & HG). exists x, (encode_u2 i), bs2.
      split_and!; [done|by exists i|done].
    + intros (x & bs1 & bs2 & -> & (i & Hi & Hx & ->) & HG). exists i, (encode_u2 i), bs2.
      split_and!; [done|done|by exists x].
Qed.

(** The same when nothing follows. *)
Lemma exact_index_ret {X A} k (look : ConstantPool -> N -> result X) at_ (f : X -> A) :
  resolves look at_ ->
  exact k (fun r => '(i, r) <-? read_u2 r ;; x <-? look cp i ;; ok (f x, r))
    (fun a bs => exists x, g_index cp at_ x bs /\ a = f x).
Proof.
  intros Hl. eapply exact_iff; [apply exact_index; [exact Hl|]; intros x bs _; apply exact_ret|].
  intros a bs. split.
  - intros (x & bs1 & bs2 & -> & Hi & -> & ->). rewrite app_nil_r. by exists x.
  - intros (x & Hi & ->). exists x, bs, []. by rewrite app_nil_r.
Qed.

(** A counted list. *)
Lemma exact_counted {X A} k (m : Reader -> result (X * Reader)) (G : grammar X)
    (f : list X -> Reader -> result (A * Reader)) (H : list X -> grammar A) :
  exact k m G -> (forall l, exact k (f l) (H l)) ->
  exact k (fun r => '(n, r) <-? read_u2 r ;; '(l, r) <-? push_times (N.to_nat n) m r ;; f l r)
    (fun a bs => exists l bs1 bs2, bs = bs1 ++ bs2 /\ g_counted G l bs1 /\ H l a bs2).
Proof.
  intros Hm Hf. eapply exact_iff.
  - apply exact_bind; [apply exact_u2|]. intros n bs Hn.
    apply exact_bind; [by apply exact_push|]. intros l bs' _. apply Hf.
  - intros a bs. split.
    + intros (n & b1 & b2 & -> & [Hn ->] & l & b3 & b4 & -> & [Hl Hw] & HH).
      assert (Hn' : n = N.of_nat (length l)) by (rewrite Hl; lia).
      exists l, (encode_u2 n ++ b3), b4. split_and!; [by rewrite app_assoc| |done].
      exists b3. rewrite <-Hn'. split_and!; [done|by rewrite Hl|done].
    + intros (l & b1 & b2 & -> & (b3 & Hl & Hw & ->) & HH).
      exists (N.of_nat (length l)), (encode_u2 (N.of_nat (length l))), (b3 ++ b2).
      split_and!; [by rewrite app_assoc|done|]. exists l, b3, b2. rewrite Nat2N.id.
      by split_and!.
Qed.

Lemma exact_counted_list {X} k (m : Reader -> result (X * Reader)) (G : grammar X) :
  exact k m G ->
  exact k (fun r => '(n, r) <-? read_u2 r ;; push_times (N.to_nat n) m r) (g_counted G).
Proof.
  intros Hm. eapply exact_iff.
  - apply exact_bind; [apply exact_u2|]. intros n bs Hn. by apply exact_push.
  - intros l bs. split.
    + intros (n & b1 & b2 & -> & [Hn ->] & [Hl Hw]).
      assert (Hn' : n = N.of_nat (length l)) by (rewrite Hl; lia). exists b2. by rewrite <-Hn', Hl.
    + intros (b2 & Hl & Hw & ->). eexists _, _, b2. split_and!; [done|by split|]. by rewrite Nat2N.id.
Qed.

Lemma exact_element k value Gv :
  exact k value Gv -> exact k (parse_element cp value) (g_pair (g_index cp utf8_at) Gv).
Proof.
  intros Hv. unfold parse_element. eapply exact_iff.
  - apply (exact_index _ get_utf8 utf8_at); [auto with lookup|]. intros name bs _.
    apply exact_bind; [exact Hv|]. intros v bs' _. apply exact_ret.
  - intros [n v] bs. unfold g_pair. simpl. split.
    + intros (x & b1 & b2 & -> & Hi & y & b3 & b4 & -> & Hy & [= -> ->] & ->).
      rewrite app_nil_r. by exists b1, b3.
    + intros (b1 & b2 & -> & Hi & Hy). exists n, b1, b2. split_and!; [done..|].
      exists v, b2, []. by rewrite app_nil_r.
Qed.

Lemma exact_annotation_with k value Gv :
  exact k value Gv -> exact k (parse_annotation_with cp value) (g_annotation cp Gv).
Proof.
  intros Hv. unfold parse_annotation_with. eapply exact_iff.
  - apply (exact_index _ get_utf8 utf8_at); [auto with lookup|]. intros td bs _.
    apply exact_counted; [by apply exact_element|]. intros els. apply exact_ret.
  - intros [td tn els] bs. unfold g_annotation. simpl. split.
    + intros (x & b1 & b2 & -> & Hi & l & b3 & b4 & -> & Hl & [= -> -> ->] & ->).
      rewrite app_nil_r. exists b1, b3. split_and!; [done..|by apply internal_name_exact|done].
    + intros (b1 & b2 & -> & Hi & <-%internal_name_exact & Hl). exists td, b1, b2. split_and!; [done..|].
      exists els, b2, []. by rewrite app_nil_r.
Qed.

Lemma integer_const_tag tag v : is_Some (integer_const tag v) <-> is_integer_tag tag = true.
Proof.
  unfold integer_const, is_integer_tag. rewrite bool_decide_eq_true.
  rewrite !elem_of_cons, elem_of_nil. repeat case_decide; split; try naive_solver.
  all: by intros [? ?].
Qed.

Lemma integer_const_exact tag v c : integer_const tag v = Some c <-> narrowed v tag c.
Proof.
  assert (Hb := fun n => low_signed_exact 8 v n eq_refl). assert (Hs := fun n => low_signed_exact 16 v n eq_refl).
  assert (Hc := fun n => low_unsigned_exact 16 v n ltac:(done)).
  unfold integer_const. split.
  - repeat case_decide; subst; intros [= <-]; [apply narrowed_byte, Hb|apply narrowed_char, Hc|apply narrowed_int|apply narrowed_short, Hs
      |by apply narrowed_false|by apply narrowed_true]; reflexivity.
  - intros H. destruct H as [n Hn|n Hn| |n Hn|Hz|Hz]; simpl.
    + by apply Hb in Hn as <-.
    + by apply Hc in Hn as <-.
    + done.
    + by apply Hs in Hn as <-.
    + by rewrite bool_decide_eq_false_2 by naive_solver.
    + by rewrite bool_decide_eq_true_2.
Qed.

Lemma narrowed_tag v tag c : narrowed v tag c -> is_integer_tag tag = true.
Proof. intros Hc. apply (integer_const_tag tag v). exists c. by apply integer_const_exact. Qed.

(** The words of a value start with a tag. *)
Lemma g_value_tag a bs : g_value cp a bs -> exists tag bs', bs = tag :: bs' /\ is_byte tag.
Proof.
  intros Hg. destruct Hg; eexists _, _; (split; [done|]); try done.
  match goal with H : narrowed _ _ _ |- _ => rename H into Ht end.
  apply narrowed_tag, bool_decide_eq_true in Ht.
  repeat (apply elem_of_cons in Ht as [->|Ht]; [done|]). by apply not_elem_of_nil in Ht.
Qed.

(** The words that start with a given tag: of the rules of [g_value], the one that applies. *)
Ltac by_tag :=
  let H := fresh in
  intros H; inversion H; subst; try done;
  repeat match goal with
  | Ht : is_integer_tag _ = false, Hc : narrowed _ _ _ |- _ =>
      rewrite (narrowed_tag _ _ _ Hc) in Ht; discriminate Ht
  | He : ch _ = ch _ |- _ => discriminate He
  | He : is_integer_tag (ch _) = true |- _ => discriminate He
  | He : narrowed _ (ch _) _ |- _ => apply narrowed_tag in He; discriminate He
  | He : ?x <> ?x |- _ => done
  end.

Lemma exact_integer_value k tag :
  is_integer_tag tag = true ->
  exact k (fun r => '(idx, r) <-? read_u2 r ;; value <-? get_integer cp idx ;;
      match integer_const tag value with
      | Some cv => ok (ElementValue.Const cv, r)
      | None => Panic
      end)
    (fun a bs => g_value cp a (tag :: bs)).
Proof.
  intros Hint. eapply exact_iff.
  - apply (exact_index k get_integer integer_at _
      (fun v a bs => exists c, integer_const tag v = Some c /\ a = ElementValue.Const c /\ bs = []));
      [auto with lookup|]. intros v bs _.
    destruct (proj2 (integer_const_tag tag v) Hint) as [c ->].
    eapply exact_iff; [apply exact_ret|]. naive_solver.
  - intros a bs. split.
    + intros (v & b1 & b2 & -> & Hi & c & Hc & -> & ->). rewrite app_nil_r. eapply gv_integer; [done|]. by apply integer_const_exact.
    + by_tag. exists v, bs, []. rewrite app_nil_r. split_and!; [done..|]. exists c. by rewrite integer_const_exact.
Qed.

Lemma exact_enum_value k :
  exact k (fun r => '(type_name_index, r) <-? read_u2 r ;; '(const_name_index, r) <-? read_u2 r ;;
      type_descriptor <-? get_utf8 cp type_name_index ;;
      const_name <-? get_utf8 cp const_name_index ;;
      ok (ElementValue.Enum type_descriptor const_name, r))
    (fun a bs => g_value cp a (ch "e" :: bs)).
Proof.
  eapply exact_iff.
  - apply exact_bind; [apply exact_u2|]. intros i bs _. apply exact_bind; [apply exact_u2|].
    intros j bs' _. apply exact_pure; [eauto with lookup|]. intros t _.
    apply exact_pure; [eauto with lookup|]. intros c _. apply exact_ret.
  - intros a bs. split.
    + intros (i & b1 & b2 & -> & [Hi ->] & j & b3 & b4 & -> & [Hj ->] & t & Ht & c & Hc & -> & ->).
      apply (resolves_ok _ _ _ _ _ utf8_resolves) in Ht, Hc. rewrite app_nil_r. apply gv_enum; eexists; eauto.
    + by_tag. destruct H1 as (i & Hi & Ht & ->), H3 as (j & Hj & Hc & ->). apply (resolves_ok _ _ _ _ _ utf8_resolves) in Ht, Hc.
      exists i, (encode_u2 i), (encode_u2 j). split_and!; [done..|].
      exists j, (encode_u2 j), []. rewrite app_nil_r. split_and!; [done..|]. eauto 10.
Qed.

Lemma exact_tagged {X} k tag (m : Reader -> result (X * Reader)) (G : grammar X)
    (f : X -> ElementValue.t) :
  exact k m G ->
  (forall a bs, g_value cp a (tag :: bs) <-> exists x, G x bs /\ a = f x) ->
  exact k (fun r => '(x, r) <-? m r ;; ok (f x, r)) (fun a bs => g_value cp a (tag :: bs)).
Proof.
  intros Hm HG. eapply exact_iff.
  - apply exact_bind; [exact Hm|]. intros x bs _. apply exact_ret.
  - intros a bs. rewrite HG. split.
    + intros (x & b1 & b2 & -> & Hx & -> & ->). rewrite app_nil_r. by exists x.
    + intros (x & Hx & ->). exists x, bs, []. by rewrite app_nil_r.
Qed.

Lemma exact_parse_value fuel : exact fuel (parse_value cp fuel) (g_value cp).
Proof.
  induction fuel as [|fuel IH]; [split; intros; lia|].
  eapply exact_iff.
  { apply (exact_u1_bind fuel _ (fun tag a bs => g_value cp a (tag :: bs))). intros tag Htag.
    destruct (is_integer_tag tag) eqn:Hint; [by apply exact_integer_value|].
    repeat case_decide; subst.
    1-4, 6: eapply exact_iff; [eapply exact_index_ret; auto with lookup|].
    1-5: intros a bs; split; [intros (x & Hx & ->); by constructor|by_tag; eauto].
    - apply exact_enum_value.
    - apply exact_tagged with (G := g_annotation cp (g_value cp)); [by apply exact_annotation_with|].
      intros a bs. split; [by_tag; eauto|intros (x & Hx & ->); by constructor].
    - eapply exact_iff; [apply exact_counted; [exact IH|]; intros l; apply exact_ret|].
      intros a bs. split.
      + intros (l & b1 & b2 & -> & Hl & -> & ->). rewrite app_nil_r. by constructor.
      + by_tag. exists vs, bs, []. by rewrite app_nil_r.
    - eapply exact_iff; [apply exact_err|]. intros a bs. split; [done|]. by_tag. }
  intros a bs. split; [by intros (tag & bs' & -> & _ & H)|]. intros H.
  destruct (g_value_tag _ _ H) as (tag & bs' & -> & Ht). by exists tag, bs'.
Qed.

(** The parser of annotations accepts exactly the annotations: the fuel, one more than the number
    of unread bytes, is enough. *)
Lemma exact_parse_annotation k : exact k (parse_annotation cp) (g_annotation cp (g_value cp)).
Proof.
  split.
  - intros r Hr _. unfold parse_annotation.
    apply (ex_sound _ _ _ (exact_annotation_with _ _ _ (exact_parse_value _))); [done|lia].
  - intros a bs r post Hr _ HG Ha. unfold parse_annotation.
    eapply (ex_complete _ _ _ (exact_annotation_with _ _ _ (exact_parse_value _))); [done|lia|done..].
Qed.
End Exact.
