(* ===== verification/ClassFile.v ===== *)
(** * Class files (crates/nova-classfile/src/classfile.rs)

    The parser of a whole class file: header, constant pool, interfaces, fields, methods and
    attributes.  The reference is the grammar of JVMS 4.1, 4.5-4.7, with the attributes that the
    parser keeps and the ones it skips; it shares the data types with the parser and no function.
    The parser returns on every input and accepts exactly the words of the grammar. *)

From Stdlib Require Import Ascii String.
From stdpp Require Import base list numbers strings option.
From S2P Require Import Prelude Str ClassReader Descriptor ConstantPool ModifiedUtf8 ByteGrammar PoolGrammar Annotation.

(** ** Data *)

Record ClassMember := mkClassMember {
  cm_access_flags : N;
  cm_name : str;
  cm_descriptor : str;
  cm_signature : option str;
  cm_runtime_visible_annotations : list Annotation;
  cm_runtime_invisible_annotations : list Annotation
}.

Record InnerClassInfo := mkInnerClassInfo {
  ic_inner_class : str;
  ic_outer_class : option str;
  ic_inner_name : option str;
  ic_access_flags : N
}.

Record ClassFile := mkClassFile {
  minor_version : N;
  major_version : N;
  access_flags : N;
  this_class : str;
  super_class : option str;
  interfaces : list str;
  fields : list ClassMember;
  methods : list ClassMember;
  signature : option str;
  runtime_visible_annotations : list Annotation;
  runtime_invisible_annotations : list Annotation;
  inner_classes : list InnerClassInfo
}.

Record ParsedAttributes := mkParsedAttributes {
  pa_signature : option str;
  pa_runtime_visible_annotations : list Annotation;
  pa_runtime_invisible_annotations : list Annotation;
  pa_inner_classes : list InnerClassInfo
}.

Definition parsed_default : ParsedAttributes := mkParsedAttributes None [] [] [].

Module AttributeTarget.
Inductive t := Class | Member.

Global Instance eq_dec : EqDecision t.
Proof. solve_decision. Defined.
End AttributeTarget.

(** The updates of [parsed]. *)
Definition set_signature (p : ParsedAttributes) (s : str) : ParsedAttributes :=
  mkParsedAttributes (Some s) (pa_runtime_visible_annotations p)
    (pa_runtime_invisible_annotations p) (pa_inner_classes p).

Definition extend_visible (p : ParsedAttributes) (l : list Annotation) : ParsedAttributes :=
  mkParsedAttributes (pa_signature p) (pa_runtime_visible_annotations p ++ l)
    (pa_runtime_invisible_annotations p) (pa_inner_classes p).

Definition extend_invisible (p : ParsedAttributes) (l : list Annotation) : ParsedAttributes :=
  mkParsedAttributes (pa_signature p) (pa_runtime_visible_annotations p)
    (pa_runtime_invisible_annotations p ++ l) (pa_inner_classes p).

Definition extend_inner (p : ParsedAttributes) (l : list InnerClassInfo) : ParsedAttributes :=
  mkParsedAttributes (pa_signature p) (pa_runtime_visible_annotations p)
    (pa_runtime_invisible_annotations p) (pa_inner_classes p ++ l).

(** ** The parser *)

Definition MAGIC : N := 0xCAFEBABE.

Section Parse.
Context (cp : ConstantPool).

(** [if idx == 0 { None } else { Some(cp.get_..(idx)?) }]. *)
Definition optional {X} (look : ConstantPool -> N -> result X) (idx : N) : result (option X) :=
  if decide (idx = 0%N) then ok None else x <-? look cp idx ;; ok (Some x).

Definition parse_signature (sub : Reader) : result (str * Reader) :=
  '(sig_index, sub) <-? read_u2 sub ;; s <-? get_utf8 cp sig_index ;; ok (s, sub).

Definition parse_annotations (sub : Reader) : result (list Annotation * Reader) :=
  '(num, sub) <-? read_u2 sub ;; push_times (N.to_nat num) (parse_annotation cp) sub.

Definition parse_inner_class (sub : Reader) : result (InnerClassInfo * Reader) :=
  '(inner_class_info_index, sub) <-? read_u2 sub ;;
  '(outer_class_info_index, sub) <-? read_u2 sub ;;
  '(inner_name_index, sub) <-? read_u2 sub ;;
  '(inner_access_flags, sub) <-? read_u2 sub ;;
  inner_class <-? get_class_name cp inner_class_info_index ;;
  outer_class <-? optional get_class_name outer_class_info_index ;;
  inner_name <-? optional get_utf8 inner_name_index ;;
  ok (mkInnerClassInfo inner_class outer_class inner_name inner_access_flags, sub).

Definition parse_inner_classes (sub : Reader) : result (list InnerClassInfo * Reader) :=
  '(num, sub) <-? read_u2 sub ;; push_times (N.to_nat num) parse_inner_class sub.

(** The body of the loop over the attributes. *)
Definition parse_attribute (target : AttributeTarget.t) (parsed : ParsedAttributes) (r : Reader)
    : result (ParsedAttributes * Reader) :=
  '(name_index, r) <-? read_u2 r ;;
  '(length, r) <-? read_u4 r ;;
  '(info, r) <-? read_bytes r (N.to_nat length) ;;
  name <-? get_utf8 cp name_index ;;
  if decide (name = text "Signature") then
    s <-? parse_all parse_signature info ;; ok (set_signature parsed s, r)
  else if decide (name = text "RuntimeVisibleAnnotations") then
    anns <-? parse_all parse_annotations info ;; ok (extend_visible parsed anns, r)
  else if decide (name = text "RuntimeInvisibleAnnotations") then
    anns <-? parse_all parse_annotations info ;; ok (extend_invisible parsed anns, r)
  else if decide (name = text "InnerClasses" /\ target = AttributeTarget.Class) then
    inners <-? parse_all parse_inner_classes info ;; ok (extend_inner parsed inners, r)
  else ok (parsed, r).

Definition parse_attributes (target : AttributeTarget.t) (r : Reader)
    : result (ParsedAttributes * Reader) :=
  '(attributes_count, r) <-? read_u2 r ;;
  fold_times (N.to_nat attributes_count) (parse_attribute target) parsed_default r.

Definition parse_member (r : Reader) : result (ClassMember * Reader) :=
  '(flags, r) <-? read_u2 r ;;
  '(name_index, r) <-? read_u2 r ;;
  name <-? get_utf8 cp name_index ;;
  '(descriptor_index, r) <-? read_u2 r ;;
  descriptor <-? get_utf8 cp descriptor_index ;;
  '(attrs, r) <-? parse_attributes AttributeTarget.Member r ;;
  ok (mkClassMember flags name descriptor (pa_signature attrs)
        (pa_runtime_visible_annotations attrs) (pa_runtime_invisible_annotations attrs), r).

Definition parse_interface (r : Reader) : result (str * Reader) :=
  '(i, r) <-? read_u2 r ;; name <-? get_class_name cp i ;; ok (name, r).

(** What follows the constant pool. *)
Definition parse_class_body (minor major : N) (r : Reader) : result (ClassFile * Reader) :=
  '(flags, r) <-? read_u2 r ;;
  '(this_index, r) <-? read_u2 r ;;
  this <-? get_class_name cp this_index ;;
  '(super_class_idx, r) <-? read_u2 r ;;
  super <-? optional get_class_name super_class_idx ;;
  '(interfaces_count, r) <-? read_u2 r ;;
  '(ifaces, r) <-? push_times (N.to_nat interfaces_count) parse_interface r ;;
  '(fields_count, r) <-? read_u2 r ;;
  '(fs, r) <-? push_times (N.to_nat fields_count) parse_member r ;;
  '(methods_count, r) <-? read_u2 r ;;
  '(ms, r) <-? push_times (N.to_nat methods_count) parse_member r ;;
  '(attrs, r) <-? parse_attributes AttributeTarget.Class r ;;
  ok (mkClassFile minor major flags this super ifaces fs ms (pa_signature attrs)
        (pa_runtime_visible_annotations attrs) (pa_runtime_invisible_annotations attrs)
        (pa_inner_classes attrs), r).
End Parse.

Definition parse_class (r : Reader) : result (ClassFile * Reader) :=
  '(magic, r) <-? read_u4 r ;;
  if decide (magic <> MAGIC) then err (Error.InvalidMagic magic)
  else
    '(minor, r) <-? read_u2 r ;;
    '(major, r) <-? read_u2 r ;;
    '(cp, r) <-? parse r ;;
    parse_class_body cp minor major r.

(** [ClassFile::parse]. *)
Definition parse_class_file (bytes : list N) : result ClassFile := parse_all parse_class bytes.

(** ** The reference: the grammar *)

(** What an attribute contributes. *)
Inductive Attribute :=
| ASignature (s : str)
| AVisible (l : list Annotation)
| AInvisible (l : list Annotation)
| AInner (l : list InnerClassInfo)
| ASkipped.

(** What the attributes [l] of a class or member say together: the last signature, and all the
    annotations and inner classes in order. *)
Definition gathered (l : list Attribute) : ParsedAttributes :=
  mkParsedAttributes
    (list.last (omap (fun a => match a with ASignature s => Some s | _ => None end) l))
    (concat ((fun a => match a with AVisible x => x | _ => [] end) <$> l))
    (concat ((fun a => match a with AInvisible x => x | _ => [] end) <$> l))
    (concat ((fun a => match a with AInner x => x | _ => [] end) <$> l)).

Section Grammar.
Context (cp : ConstantPool).

(** An index, or 0 for none. *)
Definition g_optional {X} (at_ : ConstantPool -> N -> X -> Prop) : grammar (option X) :=
  fun x bs => exists i, is_u2 i /\ bs = encode_u2 i /\
    match x with None => i = 0%N | Some x => i <> 0%N /\ at_ cp i x end.

Definition g_inner_class : grammar InnerClassInfo := fun c bs =>
  exists b1 b2 b3, bs = b1 ++ b2 ++ b3 ++ encode_u2 (ic_access_flags c) /\
    g_index cp class_name_at (ic_inner_class c) b1 /\
    g_optional class_name_at (ic_outer_class c) b2 /\
    g_optional utf8_at (ic_inner_name c) b3 /\ is_u2 (ic_access_flags c).

(** The names of the attributes that are parsed. *)
Definition known (target : AttributeTarget.t) (name : str) : Prop :=
  name = text "Signature" \/ name = text "RuntimeVisibleAnnotations" \/
  name = text "RuntimeInvisibleAnnotations" \/
  (name = text "InnerClasses" /\ target = AttributeTarget.Class).

Definition g_info (target : AttributeTarget.t) (name : str) : grammar Attribute := fun a info =>
  match a with
  | ASignature s => name = text "Signature" /\ g_index cp utf8_at s info
  | AVisible l => name = text "RuntimeVisibleAnnotations" /\
      g_counted (g_annotation cp (g_value cp)) l info
  | AInvisible l => name = text "RuntimeInvisibleAnnotations" /\
      g_counted (g_annotation cp (g_value cp)) l info
  | AInner l => (name = text "InnerClasses" /\ target = AttributeTarget.Class) /\
      g_counted g_inner_class l info
  | ASkipped => ~ known target name
  end.

(** A name, and a body with its length in four bytes in front. *)
Definition g_named (body : str -> list N -> Prop) (bs : list N) : Prop :=
  exists name b1 info, bs = b1 ++ to_be_bytes 4 (N.of_nat (length info)) ++ info /\
    g_index cp utf8_at name b1 /\ (N.of_nat (length info) < 2 ^ 32)%N /\
    Forall is_byte info /\ body name info.

Definition g_attribute (target : AttributeTarget.t) : grammar Attribute := fun a bs =>
  g_named (fun name info => g_info target name a info) bs.

Definition g_attributes (target : AttributeTarget.t) : grammar ParsedAttributes := fun p bs =>
  exists l, g_counted (g_attribute target) l bs /\ p = gathered l.

Definition g_member : grammar ClassMember := fun m bs =>
  exists b1 b2 b3 inner, bs = encode_u2 (cm_access_flags m) ++ b1 ++ b2 ++ b3 /\
    is_u2 (cm_access_flags m) /\
    g_index cp utf8_at (cm_name m) b1 /\ g_index cp utf8_at (cm_descriptor m) b2 /\
    g_attributes AttributeTarget.Member
      (mkParsedAttributes (cm_signature m) (cm_runtime_visible_annotations m)
         (cm_runtime_invisible_annotations m) inner) b3.

Definition g_class_body : grammar ClassFile := fun c bs =>
  exists b1 b2 b3 b4 b5 b6,
    bs = encode_u2 (access_flags c) ++ b1 ++ b2 ++ b3 ++ b4 ++ b5 ++ b6 /\
    is_u2 (access_flags c) /\
    g_index cp class_name_at (this_class c) b1 /\
    g_optional class_name_at (super_class c) b2 /\
    g_counted (g_index cp class_name_at) (interfaces c) b3 /\
    g_counted g_member (fields c) b4 /\ g_counted g_member (methods c) b5 /\
    g_attributes AttributeTarget.Class
      (mkParsedAttributes (signature c) (runtime_visible_annotations c)
         (runtime_invisible_annotations c) (inner_classes c)) b6.
End Grammar.

Definition g_class_file : grammar ClassFile := fun c bs =>
  exists cp b1 b2,
    bs = [0xCA; 0xFE; 0xBA; 0xBE]%N ++ encode_u2 (minor_version c) ++ encode_u2 (major_version c) ++
         b1 ++ b2 /\
    is_u2 (minor_version c) /\ is_u2 (major_version c) /\ g_pool cp b1 /\ g_class_body cp c b2.

(** ** The parser is exact *)

Section Exact.
Context (cp : ConstantPool).

(** What an attribute does to the ones before it. *)
Definition apply_attribute (p : ParsedAttributes) (a : Attribute) : ParsedAttributes :=
  match a with
  | ASignature s => set_signature p s
  | AVisible l => extend_visible p l
  | AInvisible l => extend_invisible p l
  | AInner l => extend_inner p l
  | ASkipped => p
  end.

Lemma gathered_snoc l a : gathered (l ++ [a]) = apply_attribute (gathered l) a.
Proof.
  unfold gathered. rewrite omap_app, !fmap_app, !concat_app.
  destruct a; cbn; rewrite ?app_nil_r; by rewrite ?last_snoc.
Qed.

Lemma gathered_fold l : foldl apply_attribute parsed_default l = gathered l.
Proof.
  induction l as [|a l IH] using rev_ind; [done|]. by rewrite foldl_app, gathered_snoc, IH.
Qed.

Lemma total_optional {X} (look : ConstantPool -> N -> result X) at_ i :
  resolves look at_ -> exists res, optional cp look i = Done res.
Proof.
  intros Hl. unfold optional. case_decide; [by eexists|]. destruct (resolves_total look at_ cp i Hl) as [[e|x] ->]; by eexists.
Qed.

Lemma g_optional_iff {X} (look : ConstantPool -> N -> result X) at_ x bs : resolves look at_ ->
  g_optional cp at_ x bs <-> exists i, is_u2 i /\ bs = encode_u2 i /\ optional cp look i = ok x.
Proof.
  intros Hr. unfold g_optional, optional. f_equiv. intros i. do 2 f_equiv. case_decide as Hi.
  - destruct x; split; try done. by intros [? _].
  - destruct x as [x|].
    + rewrite <-(resolves_ok look at_ cp i x Hr). unfold ok.
      destruct (look cp i) as [[e|y]| |]; cbn [try_bind]; naive_solver congruence.
    + unfold ok. destruct (look cp i) as [[e|y]| |]; cbn [try_bind]; naive_solver congruence.
Qed.

Lemma exact_optional {X A} k (look : ConstantPool -> N -> result X) at_
    (f : option X -> Reader -> result (A * Reader)) (G : option X -> grammar A) :
  resolves look at_ -> (forall x, exact k (f x) (G x)) ->
  exact k (fun r => '(i, r) <-? read_u2 r ;; x <-? optional cp look i ;; f x r)
    (fun a bs => exists x bs1 bs2, bs = bs1 ++ bs2 /\ g_optional cp at_ x bs1 /\ G x a bs2).
Proof.
  intros Hl Hf. eapply exact_iff.
  - apply exact_bind; [apply exact_u2|]. intros i bs _.
    apply exact_pure; [by eapply total_optional|]. intros x _. apply Hf.
  - intros a bs. setoid_rewrite (fun x bs => g_optional_iff look at_ x bs Hl). split.
    + intros (i & b1 & b2 & -> & [Hi ->] & x & Hx & HG). exists x, (encode_u2 i), b2. eauto 10.
    + intros (x & b1 & b2 & -> & (i & Hi & -> & Hx) & HG). exists i, (encode_u2 i), b2.
      split_and!; [done|by split|by exists x].
Qed.

Lemma exact_signature k : exact k (parse_signature cp) (g_index cp utf8_at).
Proof.
  eapply exact_iff; [apply (exact_index_ret cp k get_utf8 utf8_at id); auto with lookup|].
  unfold id. naive_solver.
Qed.

Lemma exact_interface k : exact k (parse_interface cp) (g_index cp class_name_at).
Proof.
  eapply exact_iff; [apply (exact_index_ret cp k get_class_name class_name_at id); auto with lookup|].
  unfold id. naive_solver.
Qed.

Lemma exact_annotations k :
  exact k (parse_annotations cp) (g_counted (g_annotation cp (g_value cp))).
Proof. apply exact_counted_list, exact_parse_annotation. Qed.

Lemma exact_inner_class k : exact k (parse_inner_class cp) (g_inner_class cp).
Proof.
  unfold parse_inner_class. eapply exact_iff.
  - do 4 (apply exact_bind; [apply exact_u2|]; intros ? ? _).
    apply exact_pure; [eauto with lookup|]. intros a _.
    do 2 (apply exact_pure; [eapply total_optional; auto with lookup|]; intros ? _). apply exact_ret.
  - intros [c o n f] bs. unfold g_inner_class. simpl.
    setoid_rewrite (fun x bs => g_optional_iff get_class_name class_name_at x bs class_name_resolves).
    setoid_rewrite (fun x bs => g_optional_iff get_utf8 utf8_at x bs utf8_resolves).
    unfold g_index, g_u2. setoid_rewrite <-(resolves_ok get_class_name class_name_at cp _ _ class_name_resolves). split.
    + intros (i & ? & ? & -> & [? ->] & j & ? & ? & -> & [? ->] & l & ? & ? & -> & [? ->] &
        m & ? & ? & -> & [? ->] & x & ? & y & ? & z & ? & [= -> -> -> ->] & ->).
      rewrite app_nil_r. do 3 eexists. split; [done|]. split_and!; eauto 10.
    + intros (? & ? & ? & -> & (i & ? & ? & ->) & (j & ? & -> & ?) & (l & ? & -> & ?) & ?).
      eexists i, _, _. split_and!; [done..|]. eexists j, _, _. split_and!; [done..|].
      eexists l, _, _. split_and!; [done..|]. exists f, (encode_u2 f), [].
      rewrite app_nil_r. split_and!; [done..|]. eauto 10.
Qed.

Lemma exact_inner_classes k : exact k (parse_inner_classes cp) (g_counted (g_inner_class cp)).
Proof. apply exact_counted_list, exact_inner_class. Qed.

(** A parser of the whole body of an attribute. *)
Lemma exact_body {X A} k (m : Reader -> result (X * Reader)) (G : grammar X) info (f : X -> A) :
  (forall k, exact k m G) -> (N.of_nat (length info) < 2 ^ 32)%N -> Forall is_byte info ->
  exact k (fun r => x <-? parse_all m info ;; ok (f x, r))
    (fun a bs => exists x, G x info /\ a = f x /\ bs = []).
Proof.
  intros Hm Hl Hb.
  destruct (parse_all_exact m G info (Hm _)) as (res & He & HG); [|done|].
  { eapply N.lt_trans; [exact Hl|done]. }
  eapply exact_iff.
  - apply (exact_pure k (parse_all m info) _ (fun x a bs => a = f x /\ bs = [])); [by exists res|].
    intros x _. apply exact_ret.
  - intros a bs. rewrite He. setoid_rewrite <-HG. unfold ok. split.
    + intros (x & [= ->] & ? & ?). by exists x.
    + intros (x & -> & ? & ?). by exists x.
Qed.

(** An attribute is framed: its name, and its body with its length. *)
Lemma exact_framed {A} k (f : str -> list N -> Reader -> result (A * Reader))
    (body : A -> str -> list N -> Prop) :
  (forall name info, (N.of_nat (length info) < 2 ^ 32)%N -> Forall is_byte info ->
     exact k (f name info) (fun a bs => body a name info /\ bs = [])) ->
  exact k (fun r =>
      '(name_index, r) <-? read_u2 r ;;
      '(length, r) <-? read_u4 r ;;
      '(info, r) <-? read_bytes r (N.to_nat length) ;;
      name <-? get_utf8 cp name_index ;; f name info r)
    (fun a bs => g_named cp (body a) bs).
Proof.
  intros Hf. eapply exact_iff.
  - apply exact_bind; [apply exact_u2|]. intros i bs1 _.
    apply exact_bind; [apply exact_u4|]. intros n bs2 [Hn _].
    apply exact_bind; [apply exact_bytes; by rewrite N2Nat.id|]. intros info bs3 (Hl & Hb & _).
    apply exact_pure; [eauto with lookup|]. intros name _. apply Hf; [|done].
    by rewrite Hl, N2Nat.id.
  - intros a bs. unfold g_named, g_index, g_u2, g_u4.
    setoid_rewrite <-(resolves_ok get_utf8 utf8_at cp _ _ utf8_resolves). split.
    + intros (i & ? & ? & -> & [Hi ->] & n & ? & ? & -> & [Hn ->] & info & ? & ? & -> &
        (Hl & Hb & ->) & name & Hname & Hbody & ->).
      exists name, (encode_u2 i), info. rewrite Hl, N2Nat.id, app_nil_r. split_and!; [done| |done..]. eauto.
    + intros (name & b1 & info & -> & (i & Hi & Hname & ->) & Hl & Hb & Hbody).
      eexists i, _, _. split_and!; [done..|]. eexists (N.of_nat (length info)), _, _.
      split_and!; [done..|]. exists info, info, []. rewrite Nat2N.id, app_nil_r.
      split_and!; [done..|]. eauto.
Qed.

(** The attributes with a name that is given. *)
Ltac by_name :=
  cbn [g_info apply_attribute] in *; unfold known in *;
  repeat match goal with
  | H : text _ = text _ |- _ => vm_compute in H; discriminate H
  | H : _ /\ _ |- _ => destruct H
  | H : ~ _ |- _ => solve [exfalso; apply H; eauto 10]
  | |- _ => progress simplify_eq
  end.

Lemma exact_attribute k target parsed :
  exact k (parse_attribute cp target parsed)
    (fun parsed' bs => exists a, g_attribute cp target a bs /\ parsed' = apply_attribute parsed a).
Proof.
  eapply exact_iff; [apply (exact_framed k _ (fun p name info =>
    exists a, g_info cp target name a info /\ p = apply_attribute parsed a))|].
  - intros name info Hl Hb.
    repeat case_decide; (eapply exact_iff; [first
      [ apply exact_body; [|done|done]; first [apply exact_signature | apply exact_annotations
          | apply exact_inner_classes]
      | apply exact_ret ]|]); intros p bs; (split;
      [intros Hp|intros [(a & Ha & ->) ->]; destruct a; by_name; eauto]).
    + destruct Hp as (x & Hx & -> & ->). split; [|done]. by exists (ASignature x).
    + destruct Hp as (x & Hx & -> & ->). split; [|done]. by exists (AVisible x).
    + destruct Hp as (x & Hx & -> & ->). split; [|done]. by exists (AInvisible x).
    + destruct Hp as (x & Hx & -> & ->). split; [|done]. by exists (AInner x).
    + destruct Hp as [-> ->]. split; [|done]. exists ASkipped. split; [|done].
      unfold g_info, known. tauto.
  - intros p bs. unfold g_attribute, g_named. split.
    + intros (name & b1 & info & ? & ? & ? & ? & a & ? & ?). exists a. split; [|done].
      by exists name, b1, info.
    + intros (a & (name & b1 & info & ? & ? & ? & ? & ?) & ?). exists name, b1, info.
      split_and!; [done..|]. by exists a.
Qed.

Lemma exact_attributes k target : exact k (parse_attributes cp target) (g_attributes cp target).
Proof.
  unfold parse_attributes. eapply exact_iff.
  - apply exact_bind; [apply exact_u2|]. intros n bs _.
    apply (exact_fold k (N.to_nat n) _ (g_attribute cp target) apply_attribute).
    intros acc. apply exact_attribute.
  - intros p bs. split.
    + intros (n & b1 & b2 & -> & [Hn ->] & l & [Hl Hw] & ->). exists l. split; [|apply gathered_fold].
      assert (Hn' : n = N.of_nat (length l)) by (rewrite Hl; lia). exists b2. by rewrite <-Hn', Hl.
    + intros (l & (b2 & Hl & Hw & ->) & ->). eexists _, _, b2. split_and!; [done|by split|].
      exists l. by rewrite Nat2N.id, gathered_fold.
Qed.

Lemma exact_member k : exact k (parse_member cp) (g_member cp).
Proof.
  unfold parse_member. eapply exact_iff.
  - apply exact_bind; [apply exact_u2|]. intros f bs _.
    do 2 (eapply exact_index; [auto with lookup|]; intros ? ? _).
    apply exact_map, exact_attributes.
  - intros [f n d s v i] bs. unfold g_member. simpl. split.
    + intros (? & ? & ? & -> & [? ->] & ? & b1 & ? & -> & ? & ? & b2 & b3 & -> & ?
        & [s' v' i' c'] & ? & [= -> -> -> -> -> ->]). exists b1, b2, b3, c'. by split_and!.
    + intros (b1 & b2 & b3 & c & -> & ? & ? & ? & ?).
      exists f, (encode_u2 f), (b1 ++ b2 ++ b3). split_and!; [done..|].
      exists n, b1, (b2 ++ b3). split_and!; [done..|]. exists d, b2, b3. split_and!; [done..|].
      by eexists.
Qed.

Lemma exact_class_body k minor major :
  exact k (parse_class_body cp minor major)
    (fun c bs => g_class_body cp c bs /\ minor_version c = minor /\ major_version c = major).
Proof.
  unfold parse_class_body. eapply exact_iff.
  - apply exact_bind; [apply exact_u2|]. intros f bs _.
    eapply exact_index; [auto with lookup|]. intros this ? _.
    eapply exact_optional; [auto with lookup|]. intros super.
    apply exact_counted; [apply exact_interface|]. intros ifaces.
    do 2 (apply exact_counted; [apply exact_member|]; intros ?).
    apply exact_map, exact_attributes.
  - intros [mi ma f th su ifs fs ms sg vi iv inn] bs. unfold g_class_body. simpl. split.
    + intros (? & ? & ? & -> & [? ->] & ? & b1 & ? & -> & ? & ? & b2 & ? & -> & ? & ? & b3 & ? & -> & ?
        & ? & b4 & ? & -> & ? & ? & b5 & b6 & -> & ? & [s' v' i' c'] & ?
        & [= -> -> -> -> -> -> -> -> -> -> -> ->]). split; [|done].
      exists b1, b2, b3, b4, b5, b6. by split_and!.
    + intros ((b1 & b2 & b3 & b4 & b5 & b6 & -> & ? & ? & ? & ? & ? & ? & ?) & -> & ->).
      exists f, (encode_u2 f), (b1 ++ b2 ++ b3 ++ b4 ++ b5 ++ b6). split_and!; [done..|].
      exists th, b1, (b2 ++ b3 ++ b4 ++ b5 ++ b6). split_and!; [done..|].
      exists su, b2, (b3 ++ b4 ++ b5 ++ b6). split_and!; [done..|].
      exists ifs, b3, (b4 ++ b5 ++ b6). split_and!; [done..|].
      exists fs, b4, (b5 ++ b6). split_and!; [done..|].
      exists ms, b5, b6. split_and!; [done..|]. by eexists.
Qed.
End Exact.

Lemma exact_class k : exact k parse_class g_class_file.
Proof.
  unfold parse_class. eapply exact_iff.
  - apply (exact_bind k read_u4 _ g_u4 (fun magic c bs => magic = MAGIC /\
      exists cp b1 b2, bs = encode_u2 (minor_version c) ++ encode_u2 (major_version c) ++ b1 ++ b2 /\
        is_u2 (minor_version c) /\ is_u2 (major_version c) /\ g_pool cp b1 /\ g_class_body cp c b2));
      [apply exact_u4|]. intros magic bs _. case_decide as Hm.
    + eapply exact_iff; [apply exact_err|]. intros c bs'. split; [done|]. by intros [? _].
    + eapply exact_iff.
      * do 2 (apply exact_bind; [apply exact_u2|]; intros ? ? _).
        apply exact_bind; [apply exact_pool|]. intros cp ? _. apply exact_class_body.
      * intros c bs'. split.
        -- intros (? & ? & ? & -> & [? ->] & ? & ? & ? & -> & [? ->] & cp & b1 & b2 & -> & ? & ? & <- & <-).
           split; [done|]. exists cp, b1, b2. by split_and!.
        -- intros (_ & cp & b1 & b2 & -> & ? & ? & ? & ?).
           exists (minor_version c), (encode_u2 (minor_version c)),
             (encode_u2 (major_version c) ++ b1 ++ b2). split_and!; [done..|].
           exists (major_version c), (encode_u2 (major_version c)), (b1 ++ b2).
           split_and!; [done..|].
           exists cp, b1, b2. by split_and!.
  - intros c bs. unfold g_class_file. split.
    + intros (? & ? & ? & -> & [? ->] & -> & cp & b1 & b2 & -> & ? & ? & ? & ?).
      exists cp, b1, b2. by split_and!.
    + intros (cp & b1 & b2 & -> & ? & ? & ? & ?).
      exists MAGIC, [0xCA; 0xFE; 0xBA; 0xBE]%N,
        (encode_u2 (minor_version c) ++ encode_u2 (major_version c) ++ b1 ++ b2).
      split_and!; [done..|].
      exists cp, b1, b2. by split_and!.
Qed.

(** ** Theorems *)

(** C29: [ClassFile::parse] is total and accepts exactly the class files: on any bytes it returns (no
    index or slice panics, the recursion through nested annotations ends), and it returns the class
    [c] exactly when the bytes, all of them, are a word of the grammar for [c]: magic number,
    versions, constant pool (an eight-byte constant takes two slots), and what the indices resolve to:
    names in modified UTF-8, the constants of annotations cut to the width of their type; of the attributes, the
    ones that are known (of a class also [InnerClasses]) are well formed to their last byte and are gathered in
    order, a later signature replacing an earlier one and annotations adding up, and the others are skipped.
    The grammar shares no function with the parser. *)
Theorem class_file_exact bytes :
  (N.of_nat (length bytes) < 2 ^ 63)%N -> Forall is_byte bytes ->
  exists res, parse_class_file bytes = Done res /\
    forall c, res = inr c <-> g_class_file c bytes.
Proof. intros Hl Hb. by apply parse_all_exact; [apply exact_class|..]. Qed.

(** ** Witnesses *)

(** The class [p/A extends p/B], with a field [x : I] that has a signature and an annotation. *)
Definition sample_pool : list CpInfo.t :=
  [CpInfo.Class 2; CpInfo.Utf8 (text "p/A"); CpInfo.Class 4; CpInfo.Utf8 (text "p/B");
   CpInfo.Utf8 (text "x"); CpInfo.Utf8 (text "I"); CpInfo.Utf8 (text "Signature");
   CpInfo.Utf8 (text "RuntimeVisibleAnnotations"); CpInfo.Utf8 (text "Lp/N;");
   CpInfo.Integer 7].

Definition sample_class_bytes : list N :=
  to_be_bytes 4 MAGIC ++ encode_u2 0 ++ encode_u2 61 ++ encode_pool sample_pool ++
  encode_u2 0x21 ++ encode_u2 1 ++ encode_u2 3 ++ encode_u2 0 ++
  encode_u2 1 ++
    (encode_u2 2 ++ encode_u2 5 ++ encode_u2 6 ++ encode_u2 2 ++
      (encode_u2 7 ++ to_be_bytes 4 2 ++ encode_u2 6) ++
      (encode_u2 8 ++ to_be_bytes 4 11 ++
        (encode_u2 1 ++ encode_u2 9 ++ encode_u2 1 ++ encode_u2 5 ++ ch "I" :: encode_u2 10))) ++
  encode_u2 0 ++ encode_u2 0.

Definition sample_class : ClassFile :=
  mkClassFile 0 61 0x21 (text "p/A") (Some (text "p/B")) []
    [mkClassMember 2 (text "x") (text "I") (Some (text "I"))
       [mkAnnotation (text "Lp/N;") (Some (text "p/N"))
          [(text "x", ElementValue.Const (ConstValue.Int 7))]] []]
    [] None [] [] [].

Lemma class_file_exact_witness :
  parse_class_file sample_class_bytes = ok sample_class /\ g_class_file sample_class sample_class_bytes.
Proof.
  assert (Hp : parse_class_file sample_class_bytes = ok sample_class) by (vm_compute; reflexivity).
  split; [exact Hp|]. destruct (class_file_exact sample_class_bytes) as (res & He & HG).
  - vm_compute. reflexivity.
  - apply (bool_decide_unpack _). vm_compute. exact I.
  - rewrite Hp in He. apply HG. by injection He as <-.
Defined.
