(* ===== verification/ModuleClass.v ===== *)
(** * Compiled module descriptors (crates/nova-classfile/src/module_info.rs)

    The parser of [module-info.class], which yields the module of crates/nova-modules that
    Modules.v models.  It skips the members, scans the attributes for the first one named
    [Module] and stops there: what follows that attribute is not read.  The reference is a
    grammar of the bytes up to the end of that attribute. *)

From Stdlib Require Import Ascii String.
From stdpp Require Import base list numbers strings option.
From S2P Require Import Prelude Str ClassReader Descriptor ConstantPool ModifiedUtf8 ByteGrammar PoolGrammar Annotation ClassFile Modules.

(** ** Strings *)

(** A Rust string is its UTF-8 bytes. *)
Definition to_string (s : str) : string :=
  String.string_of_list_ascii (Ascii.ascii_of_N <$> as_bytes s).

(** [s.replace('/', ".")]. *)
Definition dots (s : str) : str := (fun c => if decide (c = ch "/") then ch "." else c) <$> s.

(** ** [ConstantPoolExt] *)

Definition get_module_name (cp : ConstantPool) (index : N) : result str :=
  e <-? get cp index ;;
  match e with
  | CpInfo.Module_ name_index => get_utf8 cp name_index
  | other => err (Error.ConstantPoolTypeMismatch index "Module" (CpInfo.kind other))
  end.

Definition get_package_name (cp : ConstantPool) (index : N) : result str :=
  e <-? get cp index ;;
  match e with
  | CpInfo.Package name_index => get_utf8 cp name_index
  | other => err (Error.ConstantPoolTypeMismatch index "Package" (CpInfo.kind other))
  end.

(** ** The [Module] attribute *)

Definition ACC_OPEN : N := 0x0020.
Definition ACC_TRANSITIVE : N := 0x0020.
Definition ACC_STATIC_PHASE : N := 0x0040.

Definition has_flag (flags mask : N) : bool := bool_decide (N.land flags mask <> 0%N).

Section Parse.
Context (cp : ConstantPool).

Definition parse_requires (r : Reader) : result (Requires * Reader) :=
  '(requires_index, r) <-? read_u2 r ;;
  '(requires_flags, r) <-? read_u2 r ;;
  '(_, r) <-? read_u2 r ;;
  name <-? get_module_name cp requires_index ;;
  ok (mkRequires (to_string name) (has_flag requires_flags ACC_TRANSITIVE)
        (has_flag requires_flags ACC_STATIC_PHASE), r).

(** The loop over the target modules. *)
Definition parse_to (r : Reader) : result (string * Reader) :=
  '(to_index, r) <-? read_u2 r ;;
  name <-? get_module_name cp to_index ;;
  ok (to_string name, r).

(** The entries of [exports] and of [opens], which have the same form. *)
Definition parse_package (r : Reader) : result ((string * list string) * Reader) :=
  '(index, r) <-? read_u2 r ;;
  '(_, r) <-? read_u2 r ;;
  '(to_count, r) <-? read_u2 r ;;
  package <-? get_package_name cp index ;;
  '(to, r) <-? push_times (N.to_nat to_count) parse_to r ;;
  ok ((to_string (dots package), to), r).

Definition parse_exports (r : Reader) : result (Exports * Reader) :=
  '(p, r) <-? parse_package r ;; ok (mkExports p.1 p.2, r).

Definition parse_opens (r : Reader) : result (Opens * Reader) :=
  '(p, r) <-? parse_package r ;; ok (mkOpens p.1 p.2, r).

Definition parse_service (r : Reader) : result (string * Reader) :=
  '(index, r) <-? read_u2 r ;;
  name <-? get_class_name cp index ;;
  ok (to_string (dots name), r).

Definition parse_uses (r : Reader) : result (Uses * Reader) :=
  '(service, r) <-? parse_service r ;; ok (mkUses service, r).

Definition parse_provides (r : Reader) : result (Provides * Reader) :=
  '(service_index, r) <-? read_u2 r ;;
  '(with_count, r) <-? read_u2 r ;;
  name <-? get_class_name cp service_index ;;
  '(implementations, r) <-? push_times (N.to_nat with_count) parse_service r ;;
  ok (mkProvides (to_string (dots name)) implementations, r).

Definition parse_module_attribute (r : Reader) : result (ModuleInfo * Reader) :=
  '(module_name_index, r) <-? read_u2 r ;;
  '(module_flags, r) <-? read_u2 r ;;
  '(_, r) <-? read_u2 r ;;
  name <-? get_module_name cp module_name_index ;;
  '(requires_count, r) <-? read_u2 r ;;
  '(requires, r) <-? push_times (N.to_nat requires_count) parse_requires r ;;
  '(exports_count, r) <-? read_u2 r ;;
  '(exports, r) <-? push_times (N.to_nat exports_count) parse_exports r ;;
  '(opens_count, r) <-? read_u2 r ;;
  '(opens, r) <-? push_times (N.to_nat opens_count) parse_opens r ;;
  '(uses_count, r) <-? read_u2 r ;;
  '(uses, r) <-? push_times (N.to_nat uses_count) parse_uses r ;;
  '(provides_count, r) <-? read_u2 r ;;
  '(provides, r) <-? push_times (N.to_nat provides_count) parse_provides r ;;
  ok (mkModule Explicit (to_string name) (has_flag module_flags ACC_OPEN)
        requires exports opens uses provides, r).

(** The loop over the attributes of the class, which returns at the one named [Module]. *)
Fixpoint module_loop (n : nat) (r : Reader) : result (ModuleInfo * Reader) :=
  match n with
  | 0 => err (Error.Other "missing Module attribute")
  | S n =>
      '(name_index, r) <-? read_u2 r ;;
      '(length, r) <-? read_u4 r ;;
      '(info, r) <-? read_bytes r (N.to_nat length) ;;
      name <-? get_utf8 cp name_index ;;
      if decide (name = text "Module") then
        module <-? parse_all parse_module_attribute info ;; ok (module, r)
      else module_loop n r
  end.
End Parse.

(** ** The rest of the class *)

Definition skip_attribute (r : Reader) : result (unit * Reader) :=
  '(_, r) <-? read_u2 r ;;
  '(len, r) <-? read_u4 r ;;
  '(_, r) <-? read_bytes r (N.to_nat len) ;;
  ok ((), r).

Definition skip_attributes (r : Reader) : result (unit * Reader) :=
  '(attributes_count, r) <-? read_u2 r ;;
  fold_times (N.to_nat attributes_count) (fun _ => skip_attribute) () r.

Definition skip_member (r : Reader) : result (unit * Reader) :=
  '(_, r) <-? read_u2 r ;;
  '(_, r) <-? read_u2 r ;;
  '(_, r) <-? read_u2 r ;;
  skip_attributes r.

Definition skip_interface (r : Reader) : result (unit * Reader) :=
  '(_, r) <-? read_u2 r ;; ok ((), r).

(** [for _ in 0..n { skip(&mut reader)?; }]. *)
Definition skip_times (skip : Reader -> result (unit * Reader)) (r : Reader)
    : result (unit * Reader) :=
  '(count, r) <-? read_u2 r ;;
  fold_times (N.to_nat count) (fun _ => skip) () r.

Definition module_class (r : Reader) : result (ModuleInfo * Reader) :=
  '(magic, r) <-? read_u4 r ;;
  if decide (magic <> MAGIC) then err (Error.InvalidMagic magic)
  else
    '(_, r) <-? read_u2 r ;;
    '(_, r) <-? read_u2 r ;;
    '(cp, r) <-? parse r ;;
    '(_, r) <-? read_u2 r ;;
    '(_, r) <-? read_u2 r ;;
    '(_, r) <-? read_u2 r ;;
    '(_, r) <-? skip_times skip_interface r ;;
    '(_, r) <-? skip_times skip_member r ;;
    '(_, r) <-? skip_times skip_member r ;;
    '(attributes_count, r) <-? read_u2 r ;;
    module_loop cp (N.to_nat attributes_count) r.

Definition parse_module_info_class (bytes : list N) : result ModuleInfo :=
  '(info, _) <-? module_class (reader_new bytes) ;; ok info.

(** ** The reference: the grammar *)

(** Two bytes whose value is ignored. *)
Definition any_u2 (bs : list N) : Prop := exists n, is_u2 n /\ bs = encode_u2 n.

Definition module_name_at cp i (s : str) : Prop := exists j, entry_at cp i (CpInfo.Module_ j) /\ utf8_at cp j s.
Definition package_name_at cp i (s : str) : Prop := exists j, entry_at cp i (CpInfo.Package j) /\ utf8_at cp j s.

Section Grammar.
Context (cp : ConstantPool).

Definition g_module_name : grammar string := fun s bs =>
  exists name, s = to_string name /\ g_index cp module_name_at name bs.

Definition g_package_name : grammar string := fun s bs =>
  exists name, s = to_string (dots name) /\ g_index cp package_name_at name bs.

Definition g_class_name : grammar string := fun s bs =>
  exists name, s = to_string (dots name) /\ g_index cp class_name_at name bs.

Definition g_requires : grammar Requires := fun q bs =>
  exists b1 flags b2, bs = b1 ++ encode_u2 flags ++ b2 /\ is_u2 flags /\ any_u2 b2 /\
    g_module_name (req_module q) b1 /\
    is_transitive q = has_flag flags ACC_TRANSITIVE /\
    is_static q = has_flag flags ACC_STATIC_PHASE.

Definition g_package : grammar (string * list string) := fun p bs =>
  exists b1 b2 b3, bs = b1 ++ b2 ++ b3 /\ g_package_name p.1 b1 /\ any_u2 b2 /\
    g_counted g_module_name p.2 b3.

Definition g_exports : grammar Exports := fun e bs => g_package (exp_package e, exp_to e) bs.
Definition g_opens : grammar Opens := fun o bs => g_package (opens_package o, opens_to o) bs.
Definition g_uses : grammar Uses := fun u bs => g_class_name (uses_service u) bs.

Definition g_provides : grammar Provides := fun p bs =>
  exists b1 b2, bs = b1 ++ b2 /\ g_class_name (prov_service p) b1 /\
    g_counted g_class_name (prov_implementations p) b2.

Definition g_module : grammar ModuleInfo := fun m bs =>
  exists b1 flags b2 b3 b4 b5 b6 b7,
    bs = b1 ++ encode_u2 flags ++ b2 ++ b3 ++ b4 ++ b5 ++ b6 ++ b7 /\
    mi_kind m = Explicit /\ g_module_name (mi_name m) b1 /\
    is_u2 flags /\ mi_is_open m = has_flag flags ACC_OPEN /\ any_u2 b2 /\
    g_counted g_requires (mi_requires m) b3 /\ g_counted g_exports (mi_exports m) b4 /\
    g_counted g_opens (mi_opens m) b5 /\ g_counted g_uses (mi_uses m) b6 /\
    g_counted g_provides (mi_provides m) b7.

(** At most [n] attributes, the last of them named [Module] and the others not. *)
Inductive g_scan : nat -> grammar ModuleInfo :=
| gs_module n m bs :
    g_named cp (fun name info => name = text "Module" /\ g_module m info) bs ->
    g_scan (S n) m bs
| gs_other n m bs1 bs2 :
    g_named cp (fun name _ => name <> text "Module") bs1 -> g_scan n m bs2 ->
    g_scan (S n) m (bs1 ++ bs2).
End Grammar.

Definition g_skipped_attribute : grammar unit := fun _ bs =>
  exists b1 info, bs = b1 ++ to_be_bytes 4 (N.of_nat (length info)) ++ info /\ any_u2 b1 /\
    (N.of_nat (length info) < 2 ^ 32)%N /\ Forall is_byte info.

(** [n] of what is skipped, with [n] in front. *)
Definition g_skipped (G : grammar unit) : grammar unit := fun _ bs => exists l, g_counted G l bs.

Definition g_skipped_member : grammar unit := fun _ bs =>
  exists b1 b2 b3 b4, bs = b1 ++ b2 ++ b3 ++ b4 /\ any_u2 b1 /\ any_u2 b2 /\ any_u2 b3 /\
    g_skipped g_skipped_attribute () b4.

Definition g_module_class : grammar ModuleInfo := fun m bs =>
  exists cp v1 v2 b1 f c s b2 b3 b4 n b5,
    bs = to_be_bytes 4 MAGIC ++ v1 ++ v2 ++ b1 ++ f ++ c ++ s ++ b2 ++ b3 ++ b4 ++
         encode_u2 n ++ b5 /\
    any_u2 v1 /\ any_u2 v2 /\ g_pool cp b1 /\ any_u2 f /\ any_u2 c /\ any_u2 s /\
    g_skipped (fun _ => any_u2) () b2 /\ g_skipped g_skipped_member () b3 /\
    g_skipped g_skipped_member () b4 /\ is_u2 n /\ g_scan cp (N.to_nat n) m b5.

(** ** The parser is exact *)

Lemma module_name_resolves : resolves get_module_name module_name_at.
Proof.
  apply select_resolves with (Q := fun cp e x => exists j, e = CpInfo.Module_ j /\ utf8_at cp j x).
  - intros cp i []; try (apply returns_err; naive_solver). eapply returns_iff; [apply utf8_resolves|]. naive_solver.
  - unfold module_name_at. naive_solver.
Qed.

Lemma package_name_resolves : resolves get_package_name package_name_at.
Proof.
  apply select_resolves with (Q := fun cp e x => exists j, e = CpInfo.Package j /\ utf8_at cp j x).
  - intros cp i []; try (apply returns_err; naive_solver). eapply returns_iff; [apply utf8_resolves|]. naive_solver.
  - unfold package_name_at. naive_solver.
Qed.

#[export] Hint Resolve module_name_resolves package_name_resolves : lookup.

Lemma exact_skip_u2 {A} k (f : Reader -> result (A * Reader)) G :
  exact k f G ->
  exact k (fun r => '(_, r) <-? read_u2 r ;; f r)
    (fun a bs => exists b1 b2, bs = b1 ++ b2 /\ any_u2 b1 /\ G a b2).
Proof.
  intros Hf. eapply exact_iff; [apply exact_bind; [apply exact_u2|]; intros ? ? _; exact Hf|].
  intros a bs. split.
  - intros (n & b1 & b2 & -> & [Hn ->] & HG). exists (encode_u2 n), b2. split_and!; [done| |done].
    by exists n.
  - intros (b1 & b2 & -> & (n & Hn & ->) & HG). by exists n, (encode_u2 n), b2.
Qed.

Lemma exact_skip_times k skip G :
  exact k skip G -> exact k (skip_times skip) (g_skipped G).
Proof.
  intros Hs. unfold skip_times. eapply exact_iff.
  - apply exact_bind; [apply exact_u2|]. intros n bs _.
    apply (exact_fold k (N.to_nat n) _ G (fun _ x => x)). intros acc.
    eapply exact_iff; [exact Hs|]. intros [] bs'. split; [by exists ()|]. by intros ([] & ? & _).
  - intros [] bs. split.
    + intros (n & b1 & b2 & -> & [Hn ->] & l & [Hl Hw] & _). exists l.
      assert (Hn' : n = N.of_nat (length l)) by (rewrite Hl; lia). exists b2. by rewrite <-Hn', Hl.
    + intros (l & b2 & Hl & Hw & ->). eexists _, _, b2. split_and!; [done|by split|].
      exists l. rewrite Nat2N.id. split; [done|]. by destruct (foldl _ _ _).
Qed.

Lemma exact_skip_interface k : exact k skip_interface (fun _ => any_u2).
Proof.
  eapply exact_iff; [apply exact_skip_u2, exact_ret|]. intros [] bs. split.
  - intros (b1 & b2 & -> & Hb & _ & ->). by rewrite app_nil_r.
  - intros Hb. exists bs, []. by rewrite app_nil_r.
Qed.

Lemma exact_skip_attribute k : exact k skip_attribute g_skipped_attribute.
Proof.
  eapply exact_iff.
  - apply exact_skip_u2, exact_bind; [apply exact_u4|]. intros n bs2 [Hn _].
    apply exact_map, exact_bytes. by rewrite N2Nat.id.
  - intros [] bs. unfold g_skipped_attribute. split.
    + intros (b1 & ? & -> & Hb1 & n & ? & ? & -> & [Hn ->] & info & (Hl & Hb & ->) & _).
      exists b1, info. by rewrite Hl, N2Nat.id.
    + intros (b1 & info & -> & Hb1 & Hl & Hb). exists b1, (to_be_bytes 4 (N.of_nat (length info)) ++ info).
      split_and!; [done..|]. eexists (N.of_nat (length info)), _, info. split_and!; [done|by split|].
      exists info. by rewrite Nat2N.id.
Qed.

Lemma exact_skip_member k : exact k skip_member g_skipped_member.
Proof.
  eapply exact_iff.
  - do 3 apply exact_skip_u2. apply (exact_skip_times k skip_attribute), exact_skip_attribute.
  - intros [] bs. unfold g_skipped_member. split.
    + intros (b1 & ? & -> & ? & b2 & ? & -> & ? & b3 & b4 & -> & ? & ?). by exists b1, b2, b3, b4.
    + intros (b1 & b2 & b3 & b4 & -> & ? & ? & ? & ?). exists b1, (b2 ++ b3 ++ b4).
      split_and!; [done..|]. exists b2, (b3 ++ b4). split_and!; [done..|]. by exists b3, b4.
Qed.

Section Exact.
Context (cp : ConstantPool).

Lemma exact_to k : exact k (parse_to cp) (g_module_name cp).
Proof.
  eapply exact_iff; [apply (exact_index_ret cp k get_module_name module_name_at to_string); auto with lookup|].
  unfold g_module_name. naive_solver.
Qed.

Lemma exact_service k : exact k (parse_service cp) (g_class_name cp).
Proof.
  eapply exact_iff;
    [apply (exact_index_ret cp k get_class_name class_name_at (fun n => to_string (dots n))); auto with lookup|].
  unfold g_class_name. naive_solver.
Qed.

Lemma exact_uses k : exact k (parse_uses cp) (g_uses cp).
Proof.
  eapply exact_iff; [apply exact_map, exact_service|]. intros [s] bs. unfold g_uses. simpl. split.
  - by intros (x & Hx & [= ->]).
  - intros Hx. by exists s.
Qed.

(** The index of a name and the flags, in that order, before the name is looked up. *)
Lemma exact_requires k : exact k (parse_requires cp) (g_requires cp).
Proof.
  eapply exact_iff.
  - do 2 (apply exact_bind; [apply exact_u2|]; intros ? ? _). apply exact_skip_u2.
    apply exact_pure; [eauto with lookup|]. intros name _. apply exact_ret.
  - intros [m t s] bs. unfold g_requires, g_module_name, g_index. simpl.
    setoid_rewrite <-(resolves_ok get_module_name module_name_at cp _ _ module_name_resolves). split.
    + intros (i & ? & ? & -> & [Hi ->] & f & ? & ? & -> & [Hf ->] & b2 & ? & -> & Hb & name & Hn
        & [= -> -> ->] & ->).
      exists (encode_u2 i), f, b2. rewrite app_nil_r. split_and!; [done..| |done|done].
      by exists name; split; [|exists i].
    + intros (b1 & f & b2 & -> & Hf & Hb & (name & -> & i & Hi & Hn & ->) & -> & ->).
      exists i, (encode_u2 i), (encode_u2 f ++ b2). split_and!; [done..|].
      exists f, (encode_u2 f), b2. split_and!; [done..|]. exists b2, []. rewrite app_nil_r.
      split_and!; [done..|]. by exists name.
Qed.

Lemma exact_package k : exact k (parse_package cp) (g_package cp).
Proof.
  eapply exact_iff.
  - apply exact_bind; [apply exact_u2|]. intros i ? _. apply exact_skip_u2.
    apply exact_bind; [apply exact_u2|]. intros n ? _.
    apply exact_pure; [eauto with lookup|]. intros package _.
    apply exact_map, exact_push, exact_to.
  - intros [p to] bs. unfold g_package, g_package_name, g_index. simpl.
    setoid_rewrite <-(resolves_ok get_package_name package_name_at cp _ _ package_name_resolves). split.
    + intros (i & ? & ? & -> & [Hi ->] & b2 & ? & -> & Hb & n & ? & ? & -> & [Hn ->] & name & Hname
        & l & [Hl Hw] & [= -> ->]).
      eexists (encode_u2 i), b2, _. split_and!; [done|by exists name; split; [|exists i]|done|]. eexists.
      assert (Hn' : n = N.of_nat (length l)) by (rewrite Hl; lia). rewrite <-Hn'.
      split_and!; [done| |done]. split; [done|exact Hw].
    + intros (b1 & b2 & b3 & -> & (name & -> & i & Hi & Hn & ->) & Hb & b & Hl & Hw & ->).
      exists i, (encode_u2 i), (b2 ++ encode_u2 (N.of_nat (length to)) ++ b). split_and!; [done..|].
      exists b2, (encode_u2 (N.of_nat (length to)) ++ b). split_and!; [done..|].
      exists (N.of_nat (length to)), (encode_u2 (N.of_nat (length to))), b. split_and!; [done..|].
      exists name. split; [done|]. exists to. by rewrite Nat2N.id.
Qed.

Lemma exact_exports k : exact k (parse_exports cp) (g_exports cp).
Proof.
  eapply exact_iff; [apply (exact_map k _ (g_package cp) (fun p => mkExports p.1 p.2)), exact_package|].
  intros [p to] bs. unfold g_exports. simpl. split.
  - by intros ([p' to'] & Hx & [= -> ->]).
  - intros Hx. by exists (p, to).
Qed.

Lemma exact_opens k : exact k (parse_opens cp) (g_opens cp).
Proof.
  eapply exact_iff; [apply (exact_map k _ (g_package cp) (fun p => mkOpens p.1 p.2)), exact_package|].
  intros [p to] bs. unfold g_opens. simpl. split.
  - by intros ([p' to'] & Hx & [= -> ->]).
  - intros Hx. by exists (p, to).
Qed.

Lemma exact_provides k : exact k (parse_provides cp) (g_provides cp).
Proof.
  eapply exact_iff.
  - do 2 (apply exact_bind; [apply exact_u2|]; intros ? ? _).
    apply exact_pure; [eauto with lookup|]. intros name _.
    apply exact_map, exact_push, exact_service.
  - intros [s im] bs. unfold g_provides. simpl. split.
    + intros (i & ? & ? & -> & [Hi ->] & n & ? & b & -> & [Hn ->] & name & Hname
        & l & [Hl Hw] & [= -> ->]). apply (resolves_ok _ _ _ _ _ class_name_resolves) in Hname.
      assert (Hn' : n = N.of_nat (length l)) by (rewrite Hl; lia).
      exists (encode_u2 i), (encode_u2 n ++ b). split_and!; [done|by exists name; split; [|exists i]|].
      exists b. rewrite <-Hn'. split_and!; [done| |done]. split; [done|exact Hw].
    + intros (b1 & b2 & -> & (name & -> & i & Hi & Hn & ->) & b & Hl & Hw & ->). apply (resolves_ok _ _ _ _ _ class_name_resolves) in Hn.
      exists i, (encode_u2 i), (encode_u2 (N.of_nat (length im)) ++ b). split_and!; [done..|].
      exists (N.of_nat (length im)), (encode_u2 (N.of_nat (length im))), b. split_and!; [done..|].
      exists name. split; [done|]. exists im. by rewrite Nat2N.id.
Qed.

Lemma exact_module_attribute k : exact k (parse_module_attribute cp) (g_module cp).
Proof.
  eapply exact_iff.
  - do 2 (apply exact_bind; [apply exact_u2|]; intros ? ? _). apply exact_skip_u2.
    apply exact_pure; [eauto with lookup|]. intros name _.
    apply exact_counted; [apply exact_requires|]. intros requires.
    apply exact_counted; [apply exact_exports|]. intros exports.
    apply exact_counted; [apply exact_opens|]. intros opens.
    apply exact_counted; [apply exact_uses|]. intros uses.
    apply exact_counted; [apply exact_provides|]. intros provides. apply exact_ret.
  - intros [kd nm op rq ex os us pv] bs. unfold g_module. simpl. split.
    + intros (i & ? & ? & -> & [Hi ->] & f & ? & ? & -> & [Hf ->] & b2 & ? & -> & Hb & name & Hname
        & ? & b3 & ? & -> & ? & ? & b4 & ? & -> & ? & ? & b5 & ? & -> & ? & ? & b6 & ? & -> & ?
        & ? & b7 & ? & -> & ? & [= -> -> -> -> -> -> -> ->] & ->). apply (resolves_ok _ _ _ _ _ module_name_resolves) in Hname.
      exists (encode_u2 i), f, b2, b3, b4, b5, b6, b7. rewrite app_nil_r.
      split_and!; [done..| |done|done|done|done|done|done|done|done].
      by exists name; split; [|exists i].
    + intros (b1 & f & b2 & b3 & b4 & b5 & b6 & b7 & -> & -> & (name & -> & i & Hi & Hn & ->) & Hf
        & -> & Hb & ? & ? & ? & ? & ?). apply (resolves_ok _ _ _ _ _ module_name_resolves) in Hn.
      exists i, (encode_u2 i), (encode_u2 f ++ b2 ++ b3 ++ b4 ++ b5 ++ b6 ++ b7). split_and!; [done..|].
      exists f, (encode_u2 f), (b2 ++ b3 ++ b4 ++ b5 ++ b6 ++ b7). split_and!; [done..|].
      exists b2, (b3 ++ b4 ++ b5 ++ b6 ++ b7). split_and!; [done..|]. exists name. split; [done|].
      exists rq, b3, (b4 ++ b5 ++ b6 ++ b7). split_and!; [done..|].
      exists ex, b4, (b5 ++ b6 ++ b7). split_and!; [done..|].
      exists os, b5, (b6 ++ b7). split_and!; [done..|].
      exists us, b6, b7. split_and!; [done..|]. exists pv, b7, []. by rewrite app_nil_r.
Qed.

(** One attribute of the scan. *)
Lemma exact_framed_then {A} k (f : str -> list N -> Reader -> result (A * Reader))
    (G : str -> list N -> grammar A) :
  (forall name info, (N.of_nat (length info) < 2 ^ 32)%N -> Forall is_byte info ->
     exact k (f name info) (G name info)) ->
  exact k (fun r =>
      '(name_index, r) <-? read_u2 r ;;
      '(length, r) <-? read_u4 r ;;
      '(info, r) <-? read_bytes r (N.to_nat length) ;;
      name <-? get_utf8 cp name_index ;; f name info r)
    (fun a bs => exists name info b1 b2, bs = b1 ++ b2 /\
       g_named cp (fun name' info' => name' = name /\ info' = info) b1 /\ G name info a b2).
Proof.
  intros Hf. eapply exact_iff.
  - apply exact_bind; [apply exact_u2|]. intros i bs1 _.
    apply exact_bind; [apply exact_u4|]. intros n bs2 [Hn _].
    apply exact_bind; [apply exact_bytes; by rewrite N2Nat.id|]. intros info bs3 (Hl & Hb & _).
    apply exact_pure; [eauto with lookup|]. intros name _. apply Hf; [|done].
    by rewrite Hl, N2Nat.id.
  - intros a bs. unfold g_named, g_index. setoid_rewrite <-(resolves_ok get_utf8 utf8_at cp _ _ utf8_resolves). split.
    + intros (i & ? & ? & -> & [Hi ->] & n & ? & ? & -> & [Hn ->] & info & ? & b & -> &
        (Hl & Hb & ->) & name & Hname & HG).
      exists name, info, (encode_u2 i ++ to_be_bytes 4 n ++ info), b.
      split_and!; [by rewrite <-!app_assoc| |done]. exists name, (encode_u2 i), info.
      rewrite Hl, N2Nat.id. split_and!; [done| |done..]. by exists i.
    + intros (name & info & b1 & b & -> & (? & b2 & ? & -> & (i & Hi & Hn & ->) & Hl & Hb & -> & ->) & HG).
      exists i, (encode_u2 i), (to_be_bytes 4 (N.of_nat (length info)) ++ info ++ b).
      split_and!; [by rewrite <-!app_assoc|done..|].
      exists (N.of_nat (length info)), (to_be_bytes 4 (N.of_nat (length info))), (info ++ b).
      split_and!; [done..|]. exists info, info, b. rewrite Nat2N.id. split_and!; [done..|]. by exists name.
Qed.

Lemma g_named_mono (P Q : str -> list N -> Prop) bs :
  (forall name info, P name info -> Q name info) -> g_named cp P bs -> g_named cp Q bs.
Proof. intros HPQ (name & b1 & info & ? & ? & ? & ? & ?). exists name, b1, info. eauto 10. Qed.

Lemma g_named_inv (P : str -> list N -> Prop) bs :
  g_named cp P bs ->
  exists name info, P name info /\ g_named cp (fun name' info' => name' = name /\ info' = info) bs.
Proof.
  intros (name & b1 & info & ? & ? & ? & ? & ?). exists name, info. split; [done|].
  by exists name, b1, info.
Qed.

Lemma exact_scan k n : exact k (module_loop cp n) (g_scan cp n).
Proof.
  induction n as [|n IH]; simpl.
  - eapply exact_iff; [apply exact_err|]. intros m bs. split; [done|]. intros H. inversion H.
  - eapply exact_iff.
    + apply (exact_framed_then k _ (fun name info m bs =>
        name = text "Module" /\ g_module cp m info /\ bs = [] \/
        name <> text "Module" /\ g_scan cp n m bs)).
      intros name info Hl Hb. case_decide as Hn.
      * eapply exact_iff; [apply (exact_body k _ (g_module cp) info id); [|done..];
          intros; apply exact_module_attribute|]. unfold id. naive_solver.
      * eapply exact_iff; [apply IH|]. naive_solver.
    + intros m bs. split.
      * intros (name & info & b1 & b2 & -> & Hg & [(Hn & Hm & ->)|[Hn Hs]]).
        -- rewrite app_nil_r. apply gs_module. eapply g_named_mono; [|exact Hg].
           by intros ? ? [-> ->].
        -- apply gs_other; [|done]. eapply g_named_mono; [|exact Hg]. by intros ? ? [-> ->].
      * intros H. inversion H as [? ? ? Hg|? ? b1 b2 Hg Hs]; subst.
        -- apply g_named_inv in Hg as (name & info & [? ?] & Hg). exists name, info, bs, [].
           rewrite app_nil_r. eauto 10.
        -- apply g_named_inv in Hg as (name & info & ? & Hg). exists name, info, b1, b2. eauto 10.
Qed.
End Exact.

Lemma exact_module_class k : exact k module_class g_module_class.
Proof.
  unfold module_class. eapply exact_iff.
  - apply (exact_bind k read_u4 _ g_u4 (fun magic m bs => magic = MAGIC /\
      exists bs0, bs0 = to_be_bytes 4 MAGIC /\ g_module_class m (bs0 ++ bs))); [apply exact_u4|].
    intros magic bs _. case_decide as Hm.
    + eapply exact_iff; [apply exact_err|]. intros m bs'. split; [done|]. by intros [? _].
    + eapply exact_iff.
      * do 2 apply exact_skip_u2. apply exact_bind; [apply exact_pool|]. intros cp ? _.
        do 3 apply exact_skip_u2.
        apply exact_bind; [apply exact_skip_times, exact_skip_interface|]. intros ? ? _.
        do 2 (apply exact_bind; [apply exact_skip_times, exact_skip_member|]; intros ? ? _).
        apply exact_bind; [apply exact_u2|]. intros n ? _. apply exact_scan.
      * intros m bs'. unfold g_module_class. split.
        -- intros (v1 & ? & -> & ? & v2 & ? & -> & ? & cp & b1 & ? & -> & ? & f & ? & -> & ? & c & ? & -> & ?
             & s & ? & -> & ? & [] & b2 & ? & -> & ? & [] & b3 & ? & -> & ? & [] & b4 & ? & -> & ?
             & n & ? & b5 & -> & [? ->] & ?). split; [done|]. eexists. split; [done|].
           exists cp, v1, v2, b1, f, c, s, b2, b3, b4, n, b5. by split_and!.
        -- intros (_ & ? & -> & cp & v1 & v2 & b1 & f & c & s & b2 & b3 & b4 & n & b5 & Heq & ? & ? & ? & ?
             & ? & ? & ? & ? & ? & ? & ?). apply app_inv_head in Heq as ->.
           exists v1. eexists. split_and!; [reflexivity|done|].
           exists v2. eexists. split_and!; [reflexivity|done|]. exists cp, b1. eexists. split_and!; [reflexivity|done|].
           exists f. eexists. split_and!; [reflexivity|done|]. exists c. eexists. split_and!; [reflexivity|done|].
           exists s. eexists. split_and!; [reflexivity|done|]. exists (), b2. eexists. split_and!; [reflexivity|done|].
           exists (), b3. eexists. split_and!; [reflexivity|done|]. exists (), b4. eexists. split_and!; [reflexivity|done|].
           by exists n, (encode_u2 n), b5.
  - intros m bs. split.
    + by intros (? & ? & b & -> & [? ->] & -> & ? & -> & ?).
    + intros H. pose proof H as (cp & v1 & v2 & b1 & f & c & s & b2 & b3 & b4 & n & b5 & -> & _).
      exists MAGIC, (to_be_bytes 4 MAGIC). eexists. split_and!; [reflexivity|by split|done|].
      eexists. by split.
Qed.

(** ** Theorems *)

(** [parse_module_info_class] is total and accepts exactly the inputs that start with a compiled
    module descriptor: on any bytes it returns, and it returns the module [m] exactly when a prefix
    of the bytes is a word of the grammar for [m]: a class header, members of any content, and
    attributes of which the first named [Module] has, to its last byte, the name, flags, requires,
    exports, opens, uses and provides of [m], slashes in package and class names turned into dots.
    What follows that attribute is not looked at. *)
Theorem module_info_exact bytes :
  (N.of_nat (length bytes) < 2 ^ 63)%N -> Forall is_byte bytes ->
  exists res, parse_module_info_class bytes = Done res /\
    forall m, res = inr m <-> exists bs rest, bytes = bs ++ rest /\ g_module_class m bs.
Proof. intros Hl Hb. by apply parse_prefix_exact; [apply exact_module_class|..]. Qed.

(** ** Witnesses *)

(** An open module [m] that requires [java.base] and exports [p.q] to [n]. *)
Definition module_pool : list CpInfo.t :=
  [CpInfo.Utf8 (text "Module"); CpInfo.Module_ 3; CpInfo.Utf8 (text "m"); CpInfo.Module_ 5;
   CpInfo.Utf8 (text "java.base"); CpInfo.Package 7; CpInfo.Utf8 (text "p/q"); CpInfo.Module_ 9;
   CpInfo.Utf8 (text "n")]%N.

Definition module_bytes : list N :=
  to_be_bytes 4 MAGIC ++ encode_u2 0 ++ encode_u2 53 ++ encode_pool module_pool ++
  encode_u2 0x8000 ++ encode_u2 0 ++ encode_u2 0 ++ encode_u2 0 ++ encode_u2 0 ++ encode_u2 0 ++
  encode_u2 1 ++
    (encode_u2 1 ++ to_be_bytes 4 30 ++
      (encode_u2 2 ++ encode_u2 ACC_OPEN ++ encode_u2 0 ++
       encode_u2 1 ++ (encode_u2 4 ++ encode_u2 0x8000 ++ encode_u2 0) ++
       encode_u2 1 ++ (encode_u2 6 ++ encode_u2 0 ++ encode_u2 1 ++ encode_u2 8) ++
       encode_u2 0 ++ encode_u2 0 ++ encode_u2 0)).

Definition module_value : ModuleInfo :=
  mkModule Explicit "m" true [mkRequires "java.base" false false] [mkExports "p.q" ["n"]] [] [] [].

Lemma module_info_exact_witness :
  parse_module_info_class (module_bytes ++ [0]%N) = ok module_value /\
  exists bs rest, module_bytes ++ [0]%N = bs ++ rest /\ g_module_class module_value bs.
Proof.
  assert (Hp : parse_module_info_class (module_bytes ++ [0]%N) = ok module_value)
    by (vm_compute; reflexivity).
  split; [exact Hp|]. destruct (module_info_exact (module_bytes ++ [0]%N)) as (res & He & HG).
  - vm_compute. reflexivity.
  - apply (bool_decide_unpack _). vm_compute. exact I.
  - rewrite Hp in He. apply HG. by injection He as <-.
Defined.
