(* ===== verification/Stub.v ===== *)
(** * Class stubs (crates/nova-classfile/src/stub.rs)

    The summary of a class that the rest of the program uses: the class file with its
    descriptors and generic signatures parsed.  The theorem composes the parsers of class files,
    descriptors and signatures: a malformed descriptor is an error, a malformed signature is
    dropped. *)

From stdpp Require Import base list numbers strings option.
From S2P Require Import Prelude Str ClassReader Descriptor ConstantPool Signature ByteGrammar PoolGrammar Annotation ClassFile.

(** ** Data *)

Record FieldStub := mkFieldStub {
  fst_access_flags : N;
  fst_name : str;
  fst_descriptor : str;
  fst_parsed_descriptor : FieldType;
  fst_raw_signature : option str;
  fst_signature : option FieldTypeSignature;
  fst_annotations : list Annotation
}.

Record MethodStub := mkMethodStub {
  mst_access_flags : N;
  mst_name : str;
  mst_descriptor : str;
  mst_parsed_descriptor : MethodDescriptor;
  mst_raw_signature : option str;
  mst_signature : option MethodSignature;
  mst_annotations : list Annotation
}.

Record ClassStub := mkClassStub {
  st_internal_name : str;
  st_access_flags : N;
  st_super_class : option str;
  st_interfaces : list str;
  st_raw_signature : option str;
  st_signature : option ClassSignature;
  st_annotations : list Annotation;
  st_inner_classes : list InnerClassInfo;
  st_fields : list FieldStub;
  st_methods : list MethodStub
}.

(** ** [ClassStub::from_classfile] *)

(** [sig.as_deref().and_then(|sig| parse(sig).ok())]. *)
Definition parse_ok {A} (parse : str -> result A) (sig : option str) : run (option A) :=
  match sig with
  | None => Done None
  | Some s => res ← parse s; Done (match res with inl _ => None | inr x => Some x end)
  end.

(** [iter().map(f).collect::<Result<Vec<_>>>()]. *)
Fixpoint collect {A B} (f : A -> result B) (l : list A) : result (list B) :=
  match l with
  | [] => ok []
  | x :: l => y <-? f x ;; ys <-? collect f l ;; ok (y :: ys)
  end.

Definition field_stub (f : ClassMember) : result FieldStub :=
  parsed_descriptor <-? parse_field_descriptor (cm_descriptor f) ;;
  sig <-? lift (parse_ok parse_field_signature (cm_signature f)) ;;
  ok (mkFieldStub (cm_access_flags f) (cm_name f) (cm_descriptor f) parsed_descriptor
        (cm_signature f) sig
        (cm_runtime_visible_annotations f ++ cm_runtime_invisible_annotations f)).

Definition method_stub (m : ClassMember) : result MethodStub :=
  parsed_descriptor <-? parse_method_descriptor (cm_descriptor m) ;;
  sig <-? lift (parse_ok parse_method_signature (cm_signature m)) ;;
  ok (mkMethodStub (cm_access_flags m) (cm_name m) (cm_descriptor m) parsed_descriptor
        (cm_signature m) sig
        (cm_runtime_visible_annotations m ++ cm_runtime_invisible_annotations m)).

Definition from_classfile (c : ClassFile) : result ClassStub :=
  sig <-? lift (parse_ok parse_class_signature (signature c)) ;;
  fs <-? collect field_stub (fields c) ;;
  ms <-? collect method_stub (methods c) ;;
  ok (mkClassStub (this_class c) (access_flags c) (super_class c) (interfaces c) (signature c) sig
        (runtime_visible_annotations c ++ runtime_invisible_annotations c)
        (inner_classes c) fs ms).

(** ** The reference *)

(** The parsed form of a [Signature] attribute: what spells it, or nothing if it is rejected. *)
Definition signature_of {A} (parse : str -> result A) (print : A -> str) (wf : A -> bool)
    (raw : option str) (sig : option A) : Prop :=
  match raw, sig with
  | None, None => True
  | Some s, Some x => spells print wf s x
  | Some s, None => parse s = err (Error.InvalidSignature s)
  | None, Some _ => False
  end.

Definition field_stub_of (f : ClassMember) (s : FieldStub) : Prop :=
  s = mkFieldStub (cm_access_flags f) (cm_name f) (cm_descriptor f) (fst_parsed_descriptor s)
        (cm_signature f) (fst_signature s)
        (cm_runtime_visible_annotations f ++ cm_runtime_invisible_annotations f) /\
  cm_descriptor f = print_field (fst_parsed_descriptor s) /\ wf_field (fst_parsed_descriptor s) /\
  signature_of parse_field_signature print_type wf_bound (cm_signature f) (fst_signature s).

Definition method_stub_of (m : ClassMember) (s : MethodStub) : Prop :=
  s = mkMethodStub (cm_access_flags m) (cm_name m) (cm_descriptor m) (mst_parsed_descriptor s)
        (cm_signature m) (mst_signature s)
        (cm_runtime_visible_annotations m ++ cm_runtime_invisible_annotations m) /\
  cm_descriptor m = print_method (mst_parsed_descriptor s) /\ wf_method (mst_parsed_descriptor s) /\
  signature_of parse_method_signature print_method_signature wf_method_signature
    (cm_signature m) (mst_signature s).

Definition stub_of (c : ClassFile) (s : ClassStub) : Prop :=
  s = mkClassStub (this_class c) (access_flags c) (super_class c) (interfaces c) (signature c)
        (st_signature s) (runtime_visible_annotations c ++ runtime_invisible_annotations c)
        (inner_classes c) (st_fields s) (st_methods s) /\
  signature_of parse_class_signature print_class_signature wf_class_signature
    (signature c) (st_signature s) /\
  Forall2 field_stub_of (fields c) (st_fields s) /\
  Forall2 method_stub_of (methods c) (st_methods s).

(** The descriptors of the members are descriptors. *)
Definition field_ok (f : ClassMember) : Prop :=
  exists t, cm_descriptor f = print_field t /\ wf_field t.
Definition method_ok (m : ClassMember) : Prop :=
  exists d, cm_descriptor m = print_method d /\ wf_method d.

(** ** Lemmas *)

(** A parser of signatures returns, and drops what it rejects. *)
Lemma parse_ok_spec {A} (parse : str -> result A) print wf raw :
  accepts parse print wf ->
  exists sig, parse_ok parse raw = Done sig /\ signature_of parse print wf raw sig.
Proof.
  intros Ha. destruct raw as [s|]; [|by exists None]. specialize (Ha s). unfold wps in Ha. simpl.
  destruct (parse s) as [[e|x]| |] eqn:Hp; try done; simpl.
  - exists None. split; [done|]. simpl in *. by subst.
  - by exists (Some x).
Qed.

(** [collect] over a function that returns, with [R] or, when [P] fails, an error. *)
Lemma collect_spec {A B} (f : A -> result B) (P : A -> Prop) (R : A -> B -> Prop) l :
  (forall x, exists res, f x = Done res /\
     match res with inl _ => ~ P x | inr y => P x /\ R x y end) ->
  exists res, collect f l = Done res /\
    match res with inl _ => ~ Forall P l | inr ys => Forall P l /\ Forall2 R l ys end.
Proof.
  intros Hf. induction l as [|x l (res2 & He2 & H2)]; simpl.
  - exists (inr []). split; [done|]. by split.
  - destruct (Hf x) as (res & -> & H1). destruct res as [e|y]; simpl.
    + exists (inl e). split; [done|]. inversion_clear 1; tauto.
    + rewrite He2. destruct res2 as [e|ys]; simpl.
      * exists (inl e). split; [done|]. inversion_clear 1; tauto.
      * exists (inr (y :: ys)). split; [done|]. destruct H1, H2. split; by constructor.
Qed.

(** A member's stub, from the exactness of its descriptor's parser. *)
Lemma field_stub_spec f :
  exists res, field_stub f = Done res /\
    match res with inl _ => ~ field_ok f | inr s => field_ok f /\ field_stub_of f s end.
Proof.
  destruct (exact_of_print parse_field_descriptor print_field wf_field (cm_descriptor f))
    as (r & Hr & HG); [apply wpr_parse_field_descriptor|apply parse_print_field_descriptor|].
  destruct (parse_ok_spec _ _ _ (cm_signature f) accepts_field) as (sig & Hs & Hsig).
  unfold field_stub. rewrite Hr. destruct r as [e|t]; simpl.
  - eexists. split; [done|]. intros (t & Ht). by apply HG in Ht.
  - rewrite Hs. simpl. eexists. split; [done|]. destruct (proj1 (HG t) eq_refl). split; [by exists t|].
    by split_and!.
Qed.

Lemma method_stub_spec m :
  exists res, method_stub m = Done res /\
    match res with inl _ => ~ method_ok m | inr s => method_ok m /\ method_stub_of m s end.
Proof.
  destruct (exact_of_print parse_method_descriptor print_method wf_method (cm_descriptor m))
    as (r & Hr & HG); [apply wpr_parse_method|apply parse_print_method|].
  destruct (parse_ok_spec _ _ _ (cm_signature m) accepts_method) as (sig & Hs & Hsig).
  unfold method_stub. rewrite Hr. destruct r as [e|t]; simpl.
  - eexists. split; [done|]. intros (t & Ht). by apply HG in Ht.
  - rewrite Hs. simpl. eexists. split; [done|]. destruct (proj1 (HG t) eq_refl). split; [by exists t|].
    by split_and!.
Qed.

(** ** Theorems *)

(** [ClassStub::from_classfile] returns on every class, and fails exactly when the descriptor of
    a field or of a method is malformed.  Otherwise the stub has the class's data, the members in
    their order with the parsed form of their descriptors, the visible before the invisible
    annotations, and the parsed form of each [Signature] attribute; a malformed signature does not
    fail the class: its parsed form is absent and its text is kept. *)
Theorem stub_exact c :
  exists res, from_classfile c = Done res /\
    match res with
    | inr s => stub_of c s
    | inl _ => ~ (Forall field_ok (fields c) /\ Forall method_ok (methods c))
    end.
Proof.
  destruct (parse_ok_spec _ _ _ (signature c) accepts_class) as (sig & Hs & Hsig).
  destruct (collect_spec field_stub field_ok field_stub_of (fields c) field_stub_spec)
    as (rf & Hf & HF).
  destruct (collect_spec method_stub method_ok method_stub_of (methods c) method_stub_spec)
    as (rm & Hm & HM).
  unfold from_classfile. rewrite Hs. simpl. rewrite Hf. destruct rf as [e|fs]; simpl.
  { eexists. split; [done|]. by intros [? _]. }
  rewrite Hm. destruct rm as [e|ms]; simpl; eexists; (split; [done|]); [by intros [_ ?]|].
  by destruct HF, HM.
Qed.
