(* ===== verification/Wire.v ===== *)
(** * Reading bytes off the wire (crates/nova-remote-proto)

    What the decoders of the remote protocol share; the debugger protocol uses the same results.  A reader is the list of the bytes that are
    left: the readers of the sources index a buffer at an offset that only grows, after a check
    that enough bytes are left.  Errors are the reasons the code gives, without the contexts that
    are wrapped around them.  [exact_codec] relates a decoder to its encoder: it accepts the
    encodings of the valid values and nothing else, whatever follows them. *)

From stdpp Require Import base numbers option list.
From S2P Require Import Prelude Str Utf8 ClassReader.

Local Open Scope N_scope.

(** ** Limits (lib.rs) *)

Definition MAX_MESSAGE_BYTES : N := 64 * 1024 * 1024.
Definition MAX_FILES_PER_MESSAGE : N := 100000.
Definition MAX_SEARCH_RESULTS_PER_MESSAGE : N := 10000.
Definition MAX_DIAGNOSTICS_PER_MESSAGE : N := 100000.
Definition MAX_SYMBOLS_PER_SHARD_INDEX : N := 1000000.
Definition MAX_FILE_TEXT_BYTES : N := 8 * 1024 * 1024.
Definition MAX_SMALL_STRING_BYTES : N := 16 * 1024.

(** ** Results *)

Module WireError.
Inductive t :=
| UnexpectedEof (need have : N)
| TooLarge (len max : N)
| ExceedsRemaining (len remaining : N)
| LengthDoesNotFit (len : N)
| InvalidUtf8
| InvalidTag (tag : N)
| TrailingBytes (len : N)
| NestingTooDeep
| IndefiniteLength
| InvalidAdditionalInfo (ai : N)
| KeyNotText
| WrongChunkType (major : N)
| UnexpectedBreak.
End WireError.

(** A computation that returns a value or an error of type [E]. *)
Definition eres (E A : Type) : Type := run (E + A).

Notation wres := (eres WireError.t).

Definition wok {E A} (x : A) : eres E A := Done (inr x).
Definition werr {E A} (e : E) : eres E A := Done (inl e).

(** The [?] operator. *)
Definition wbind {E A B} (m : eres E A) (f : A -> eres E B) : eres E B :=
  match m with
  | Done (inl e) => werr e
  | Done (inr x) => f x
  | Panic => Panic
  | OutOfFuel => OutOfFuel
  end.

Declare Scope wire_scope.
Delimit Scope wire_scope with wire.
Notation "x <-- m ;; k" := (wbind m (fun x => k))
  (at level 100, m at next level, right associativity) : wire_scope.
Notation "' p <-- m ;; k" := (wbind m (fun x => match x with p => k end))
  (at level 100, p pattern, m at next level, right associativity) : wire_scope.
Open Scope wire_scope.

(** [ensure!(b, e)]. *)
Definition ensure {E} (b : bool) (e : E) : eres E () := if b then wok () else werr e.

(** ** Reading *)

Notation bytes_left s := (N.of_nat (length (s : list N))).

Definition read_exact (len : N) (s : list N) : wres (list N * list N) :=
  _ <-- ensure (len <=? bytes_left s) (WireError.UnexpectedEof len (bytes_left s)) ;;
  wok (take (N.to_nat len) s, drop (N.to_nat len) s).

Definition read_byte (s : list N) : wres (N * list N) :=
  match s with
  | b :: s => wok (b, s)
  | [] => werr (WireError.UnexpectedEof 1 0)
  end.

(** ** Rules *)

(** The computation returns, with an error or with a value that satisfies [Q]. *)
Definition wpw {E A} (m : eres E A) (Q : A -> Prop) : Prop :=
  wp m (fun r => match r with inl _ => True | inr x => Q x end).

Lemma wpw_bind {E A B} (m : eres E A) (f : A -> eres E B) (Q : B -> Prop) :
  wpw m (fun x => wpw (f x) Q) -> wpw (wbind m f) Q.
Proof. unfold wpw, wbind. by destruct m as [[e|x]| |]. Qed.

Lemma wpw_wok {E A} (x : A) (Q : A -> Prop) : Q x -> wpw (wok x : eres E A) Q.
Proof. done. Qed.

Lemma wpw_seq {E A B} (m : eres E A) (f : A -> eres E B) (Q : A -> Prop) (R : B -> Prop) :
  wpw m Q -> (forall x, Q x -> wpw (f x) R) -> wpw (wbind m f) R.
Proof. unfold wpw, wbind. destruct m as [[e|x]| |]; simpl; auto. Qed.

Lemma wpw_mono {E A} (m : eres E A) (Q R : A -> Prop) : wpw m Q -> (forall x, Q x -> R x) -> wpw m R.
Proof. unfold wpw. destruct m as [[e|x]| |]; simpl; auto. Qed.

Lemma wpw_ensure {E A} b (e : E) (f : () -> eres E A) (Q : A -> Prop) :
  (b = true -> wpw (f ()) Q) -> wpw (wbind (ensure b e) f) Q.
Proof. unfold ensure. destruct b; simpl; auto. Qed.

Lemma wbind_ensure {E A} b (e : E) (f : () -> eres E A) : b = true -> wbind (ensure b e) f = f ().
Proof. by intros ->. Qed.

Lemma wbind_wok {E A B} (x : A) (f : A -> eres E B) : wbind (wok x) f = f x.
Proof. done. Qed.

Lemma wok_inj {E A} (x y : A) : (wok x : eres E A) = wok y -> x = y.
Proof. by intros [= ->]. Qed.

Lemma wbind_ok_inv {E A B} (m : eres E A) (f : A -> eres E B) y :
  wbind m f = wok y -> exists x, m = wok x /\ f x = wok y.
Proof. unfold wbind, wok, werr. destruct m as [[e|x]| |]; naive_solver. Qed.

Lemma wpw_Done {E A} (m : eres E A) (Q : A -> Prop) : wpw m Q -> exists r, m = Done r.
Proof. unfold wpw. destruct m; [by eexists|done..]. Qed.

Lemma wpw_ok {E A} (m : eres E A) (Q : A -> Prop) x : wpw m Q -> m = wok x -> Q x.
Proof. by intros H ->. Qed.

Lemma read_exact_app len p s : bytes_left p = len -> read_exact len (p ++ s) = wok (p, s).
Proof.
  intros <-. unfold read_exact. rewrite wbind_ensure by (apply N.leb_le; rewrite length_app; lia).
  rewrite Nat2N.id. by rewrite take_app_length, drop_app_length.
Qed.

Lemma read_exact_sound len s :
  wpw (read_exact len s) (fun '(p, s') => s = p ++ s' /\ bytes_left p = len).
Proof.
  unfold read_exact. apply wpw_ensure. intros Hle%N.leb_le. simpl. split; [by rewrite take_drop|].
  rewrite length_take_le; [lia|]. lia.
Qed.

(** ** Codecs *)

Record exact_codec {A} (valid : A -> Prop) (enc : A -> wres (list N)) (dec : list N -> wres (A * list N)) : Prop := {
  codec_sound : forall s, Forall is_byte s ->
    wpw (dec s) (fun '(a, s') => valid a /\ exists bs, enc a = wok bs /\ s = bs ++ s');
  codec_complete : forall a bs s, valid a -> enc a = wok bs -> dec (bs ++ s) = wok (a, s)
}.

(** An accepted prefix leaves bytes. *)
Lemma codec_seq {A B} valid enc dec (f : A * list N -> wres B) (Q : B -> Prop) s :
  exact_codec valid enc dec -> Forall is_byte s ->
  (forall a bs s', valid a -> enc a = wok bs -> s = bs ++ s' -> Forall is_byte s' -> wpw (f (a, s')) Q) ->
  wpw (wbind (dec s) f) Q.
Proof.
  intros [Hs _] Hb Hf. eapply wpw_seq; [by apply Hs|]. intros [a s'] (Hv & bs & He & ->).
  apply Forall_app in Hb as [_ Hb]. by eapply Hf.
Qed.

(** *** Little-endian integers *)

Fixpoint to_le_bytes (k : nat) (n : N) : list N :=
  match k with O => [] | S k => (n mod 256) :: to_le_bytes k (n / 256) end.

Fixpoint from_le_bytes (l : list N) : N :=
  match l with [] => 0 | b :: l => b + 256 * from_le_bytes l end.

Lemma length_to_le_bytes k n : length (to_le_bytes k n) = k.
Proof. revert n. induction k as [|k IH]; intros n; simpl; [done|by rewrite IH]. Qed.

Lemma from_to_le_bytes k n : n < 256 ^ N.of_nat k -> from_le_bytes (to_le_bytes k n) = n.
Proof.
  revert n. induction k as [|k IH]; intros n Hn; simpl; [simpl in Hn; lia|].
  rewrite IH; [|rewrite Nat2N.inj_succ, N.pow_succ_r' in Hn; by apply N.Div0.div_lt_upper_bound].
  pose proof (N.div_mod n 256 ltac:(lia)). lia.
Qed.

Lemma to_from_le_bytes l : Forall is_byte l -> to_le_bytes (length l) (from_le_bytes l) = l.
Proof.
  induction 1 as [|b l Hb _ IH]; [done|]. simpl. unfold is_byte in Hb. f_equal.
  - rewrite N.mul_comm, N.Div0.mod_add. by apply N.mod_small.
  - rewrite N.mul_comm, N.div_add by lia. rewrite N.div_small by done. by rewrite N.add_0_l.
Qed.

Lemma from_le_bytes_bound l : Forall is_byte l -> from_le_bytes l < 256 ^ N.of_nat (length l).
Proof.
  induction 1 as [|b l Hb _ IH]; [done|]. cbn [from_le_bytes length]. rewrite Nat2N.inj_succ, N.pow_succ_r'.
  unfold is_byte in Hb. lia.
Qed.

(** A little-endian integer of [k] bytes. *)
Definition read_le (k : N) (s : list N) : wres (N * list N) :=
  '(bs, s) <-- read_exact k s ;; wok (from_le_bytes bs, s).

Lemma le_codec k :
  exact_codec (fun n => n < 256 ^ k) (fun n => wok (to_le_bytes (N.to_nat k) n)) (read_le k).
Proof.
  split.
  - intros s Hb. unfold read_le. eapply wpw_seq; [apply read_exact_sound|]. intros [p s'] [-> Hl]. simpl.
    apply Forall_app in Hb as [Hb _]. split; [rewrite <-Hl; by apply from_le_bytes_bound|].
    exists p. split; [|done]. rewrite <-Hl, Nat2N.id. by rewrite to_from_le_bytes.
  - intros n bs s Hn [= <-]. unfold read_le. rewrite read_exact_app by (rewrite length_to_le_bytes; lia).
    rewrite wbind_wok. rewrite from_to_le_bytes; [done|]. by rewrite N2Nat.id.
Qed.
