(* ===== verification/Literals.v ===== *)
(** * Integer literals (crates/nova-syntax/src/literals.rs)

    The errors of literals and the parsers of [int] and [long] literals.  A text is its bytes: the
    parsers index bytes and the spans of errors count them.  [u64] values are numbers whose
    overflow is checked as the code checks it; results are signed integers. *)

From Stdlib Require Import Ascii String.
From stdpp Require Import base numbers strings option list.
From S2P Require Import Prelude Str Wire.

Local Open Scope N_scope.

(** ** Errors *)

Record LiteralError := mkLiteralError { message : str; span : nat * nat }.

Notation lres := (eres LiteralError).

Definition err {A} (message : str) (start end_ : nat) : lres A := werr (mkLiteralError message (start, end_)).

Definition elift {E A} (m : run A) : eres E A :=
  match m with Done x => wok x | Panic => Panic | OutOfFuel => OutOfFuel end.

(** The computation returns, and succeeds with exactly the results that satisfy [Q]. *)
Definition parses {A} (m : lres A) (Q : A -> Prop) : Prop := exists r, m = Done r /\ forall x, r = inr x <-> Q x.

(** [bytes[i]]. *)
Definition byte_at (bytes : list N) (i : nat) : lres N := elift (idx bytes i).

(** A byte of the source. *)
Definition chr (a : ascii) : N := N_of_ascii a.
Arguments chr a%_char_scope : simpl never.

(** [lo..=hi]. *)
Definition between (lo hi b : N) : bool := (lo <=? b) && (b <=? hi).

Definition is_underscore (b : N) : bool := b =? (chr "_").

Definition hex_value (b : N) : option N :=
  if between (chr "0") (chr "9") b then Some (b - (chr "0"))
  else if between (chr "a") (chr "f") b then Some (b - (chr "a") + 10)
  else if between (chr "A") (chr "F") b then Some (b - (chr "A") + 10)
  else None.

(** ** Integers *)

Definition U64_LIMIT : N := 2 ^ 64 - 1.

(** [checked_mul(base)] and [checked_add(digit)]. *)
Definition checked_push (value base digit : N) : option N :=
  if value * base <=? U64_LIMIT then
    if value * base + digit <=? U64_LIMIT then Some (value * base + digit) else None
  else None.

Definition integer_base (bytes : list N) (end_ : nat) : lres (N * nat * bool) :=
  if decide (end_ = 0%nat) then err (lit "Empty integer literal") 0 0
  else
    b0 <-- byte_at bytes 0 ;;
    if negb (b0 =? (chr "0")) then wok (10, 0%nat, true)
    else
      b1 <-- (if decide (2 <= end_)%nat then b <-- byte_at bytes 1 ;; wok (Some b) else wok None) ;;
      match b1 with
      | Some b1 =>
          if (b1 =? (chr "x")) || (b1 =? (chr "X")) then wok (16, 2%nat, false)
          else if (b1 =? (chr "b")) || (b1 =? (chr "B")) then wok (2, 2%nat, false)
          else wok (8, 1%nat, false)
      | None => wok (10, 0%nat, true)
      end.

(** The digit [b] in [base], or the name of the literals of that base; any other base is
    [unreachable!]. *)
Definition digit_in (base b : N) : run (string + N) :=
  match base with
  | 2 => Done (if between (chr "0") (chr "1") b then inr (b - (chr "0")) else inl "binary"%string)
  | 8 => Done (if between (chr "0") (chr "7") b then inr (b - (chr "0")) else inl "octal"%string)
  | 10 => Done (if between (chr "0") (chr "9") b then inr (b - (chr "0")) else inl "decimal"%string)
  | 16 => Done (match hex_value b with Some d => inr d | None => inl "hexadecimal"%string end)
  | _ => Panic
  end.

(** The loop of [parse_unsigned_integer] over the bytes from [i] on. *)
Fixpoint digits_loop (end_ : nat) (base limit : N) (bytes : list N) (i : nat) (value : N) (seen_digit : bool)
    : lres (N * bool) :=
  match bytes with
  | [] => wok (value, seen_digit)
  | x :: bytes =>
      if is_underscore x then digits_loop end_ base limit bytes (S i) value seen_digit
      else
        d <-- elift (digit_in base x) ;;
        match d with
        | inl name => err (lit "Invalid digit `" ++ [x] ++ lit "` in " ++ lit name ++ lit " literal") i (S i)
        | inr digit =>
            match checked_push value base digit with
            | None => err (lit "Integer literal is too large") 0 end_
            | Some value =>
                if limit <? value then err (lit "Integer literal is out of range") 0 end_
                else digits_loop end_ base limit bytes (S i) value true
            end
        end
  end.

Definition parse_unsigned_integer (bytes : list N) (prefix_len end_ : nat) (base limit : N) : lres N :=
  if decide (end_ < prefix_len)%nat then Panic
  else if decide (end_ = 0%nat) then err (lit "Missing digits") 0 0
  else
    last <-- byte_at bytes (end_ - 1) ;;
    if is_underscore last then
      err (lit "Trailing underscore is not allowed in numeric literal") (end_ - 1) end_
    else
      _ <-- (if decide (prefix_len = 2%nat) then
               if decide (end_ = 2%nat) then err (lit "Missing digits after base prefix") prefix_len prefix_len
               else
                 first <-- byte_at bytes prefix_len ;;
                 if is_underscore first then
                   err (lit "Underscore is not allowed immediately after base prefix") prefix_len (prefix_len + 1)
                 else wok ()
             else wok ()) ;;
      if decide (end_ <= length bytes)%nat then
        '(value, seen_digit) <-- digits_loop end_ base limit (drop prefix_len (take end_ bytes)) prefix_len 0 false ;;
        if negb seen_digit then err (lit "Missing digits") prefix_len end_ else wok value
      else Panic.

(** [value as u32 as i32] and [value as i64]: the two's complement reading. *)
Definition as_signed (w : N) (value : N) : Z :=
  let x := Z.of_N (value mod 2 ^ w) in
  (if (x <? 2 ^ (Z.of_N w - 1))%Z then x else x - 2 ^ Z.of_N w)%Z.

Definition parse_int_literal (bytes : list N) : lres Z :=
  match last bytes with
  | None => err (lit "Empty int literal") 0 0
  | Some l =>
      let last_idx := (length bytes - 1)%nat in
      if (l =? (chr "l")) || (l =? (chr "L")) then
        err (lit "Int literal must not have `L` suffix") last_idx (last_idx + 1)
      else
        let end_ := length bytes in
        '(base, prefix_len, is_decimal) <-- integer_base bytes end_ ;;
        let limit := if is_decimal : bool then 2 ^ 31 - 1 else 2 ^ 32 - 1 in
        value <-- parse_unsigned_integer bytes prefix_len end_ base limit ;;
        wok (as_signed 32 value)
  end.

Definition parse_long_literal (bytes : list N) : lres Z :=
  match bytes with
  | [] => err (lit "Empty long literal") 0 0
  | _ =>
      let suffix_pos := (length bytes - 1)%nat in
      let suffix := default 0 (bytes !! suffix_pos) in
      if negb ((suffix =? (chr "l")) || (suffix =? (chr "L"))) then
        err (lit "Long literal is missing `L` suffix") suffix_pos (suffix_pos + 1)
      else if decide (suffix_pos = 0%nat) then err (lit "Long literal is missing digits") 0 (length bytes)
      else
        before <-- byte_at bytes (suffix_pos - 1) ;;
        if is_underscore before then
          err (lit "Underscore is not allowed immediately before long suffix") (suffix_pos - 1) suffix_pos
        else
          let end_ := suffix_pos in
          '(base, prefix_len, is_decimal) <-- integer_base bytes end_ ;;
          let limit := if is_decimal : bool then 2 ^ 63 - 1 else 2 ^ 64 - 1 in
          value <-- parse_unsigned_integer bytes prefix_len end_ base limit ;;
          wok (as_signed 64 value)
  end.

(** ** The literals of Java *)

Inductive Radix := Dec | Hex | Bin | Oct.

Definition radix_base (r : Radix) : N := match r with Dec => 10 | Hex => 16 | Bin => 2 | Oct => 8 end.

(** The value of a digit: its place among the digits, which may be in upper case. *)
Definition digit_rank (b : N) : option N :=
  match list_find (b =.) (lit "0123456789abcdef"), list_find (b =.) (lit "0123456789ABCDEF") with
  | Some (i, _), _ | None, Some (i, _) => Some (N.of_nat i)
  | None, None => None
  end.

(** The value of a digit below [base]. *)
Definition digit_value (base b : N) : option N :=
  d ← digit_rank b; if d <? base then Some d else None.

(** The digits of a numeral, without its underscores, and its number. *)
Definition digits (ds : list N) : list N := filter (fun b => is_underscore b = false) ds.
Definition number (base : N) (ds : list N) : N :=
  foldl (fun v b => v * base + default 0 (digit_value base b)) 0 (digits ds).

(** Digits of the base and underscores, with a digit at the end. *)
Definition numeral (base : N) (ds : list N) : Prop :=
  Forall (fun b => is_underscore b = true \/ is_Some (digit_value base b)) ds /\
  exists b, last ds = Some b /\ is_underscore b = false.

Definition prefix_of (r : Radix) (prefix : list N) : Prop :=
  match r with
  | Dec => prefix = []
  | Hex => prefix = [(chr "0"); (chr "x")] \/ prefix = [(chr "0"); (chr "X")]
  | Bin => prefix = [(chr "0"); (chr "b")] \/ prefix = [(chr "0"); (chr "B")]
  | Oct => prefix = [(chr "0")]
  end.

(** What comes first after the prefix: a decimal numeral of more than one character does not
    start with a zero, and there is no underscore after [0x] or [0b].  Java does not let a decimal
    numeral start with an underscore either; the code does. *)
Definition starts_ok (r : Radix) (ds : list N) : Prop :=
  match r with
  | Dec => ds = [(chr "0")] \/ head ds <> Some (chr "0")
  | Hex | Bin => head ds <> Some (chr "_")
  | Oct => True
  end.

(** [text] is a literal of radix [r] for the number [v]. *)
Definition integer_literal (r : Radix) (text : list N) (v : N) : Prop :=
  exists prefix ds, text = prefix ++ ds /\ prefix_of r prefix /\ numeral (radix_base r) ds /\
    starts_ok r ds /\ v = number (radix_base r) ds.

(** The largest number a literal may have: the positive range for decimal literals, all bits for
    the others. *)
Definition radix_limit (w : N) (r : Radix) : N := match r with Dec => 2 ^ (w - 1) - 1 | _ => 2 ^ w - 1 end.

(** ** Lemmas *)

Lemma parses_ok {A} (x : A) : parses (wok x) (fun y => y = x).
Proof. eexists. split; [done|]. intros y. split; [by intros [= ->]|by intros ->]. Qed.

Lemma parses_err {A} e (Q : A -> Prop) : (forall x, ~ Q x) -> parses (werr e) Q.
Proof. intros HQ. eexists. split; [done|]. intros y. split; [done|]. intros Hy. by destruct (HQ y). Qed.

Lemma parses_iff {A} (m : lres A) (Q R : A -> Prop) : parses m Q -> (forall x, Q x <-> R x) -> parses m R.
Proof. intros (r & -> & Hr) HQ. exists r. split; [done|]. intros x. by rewrite Hr. Qed.

Global Instance parses_proper {A} (m : lres A) : Proper (pointwise_relation A iff ==> iff) (parses m).
Proof. intros Q R HQ. split; intros Hm; (eapply parses_iff; [exact Hm|]); intros x; [|symmetry]; apply HQ. Qed.

Lemma parses_bind {A B} (m : lres A) (f : A -> lres B) (Q : A -> Prop) (R : A -> B -> Prop) :
  parses m Q -> (forall x, Q x -> parses (f x) (R x)) -> parses (x <-- m ;; f x) (fun y => exists x, Q x /\ R x y).
Proof.
  intros ([e|x] & -> & Hr) Hf; simpl.
  - apply parses_err. intros y (x & Hx%Hr & _). done.
  - destruct (Hf x) as (r & Hr' & Hiff); [by apply Hr|]. exists r. split; [done|]. intros y. rewrite Hiff.
    split; [intros; exists x; split; [by apply Hr|done]|]. intros (x' & Hx'%Hr & ?). by simplify_eq.
Qed.

(** A check that must succeed before the rest. *)
Lemma parses_then {B} (m : lres ()) (f : () -> lres B) (P : Prop) (R : B -> Prop) :
  parses m (fun _ => P) -> (P -> parses (f ()) R) -> parses (x <-- m ;; f x) (fun y => P /\ R y).
Proof.
  intros Hm Hf. eapply parses_iff; [apply (parses_bind m f _ (fun _ => R) Hm); intros [] HP; by apply Hf|].
  intros y. split; [by intros ([] & ?)|]. by exists ().
Qed.

Lemma parses_check (c : bool) e (P : Prop) : (c = false <-> P) -> parses (if c then werr e else wok ()) (fun _ => P).
Proof.
  intros HP. destruct c; [apply parses_err; by intros _ ?%HP|].
  eapply parses_iff; [apply parses_ok|]. intros []. split; [by intros _; apply HP|done].
Qed.

(** The characters of the source as numbers, for [lia]. *)
Ltac chars :=
  repeat match goal with
  | |- context [chr ?c] => let v := eval vm_compute in (chr c) in change (chr c) with v in *
  | H : context [chr ?c] |- _ => let v := eval vm_compute in (chr c) in change (chr c) with v in *
  end.

(** Decide the comparisons of the goal. *)
Ltac compare :=
  repeat match goal with
  | |- context [?a <=? ?c] => destruct (N.leb_spec a c)
  | |- context [?a <? ?c] => destruct (N.ltb_spec a c)
  | |- context [?a =? ?c] => destruct (N.eqb_spec a c)
  | _ => progress simpl
  end.

Lemma is_underscore_spec x : is_underscore x = true <-> x = chr "_".
Proof. apply N.eqb_eq. Qed.

Lemma underscore_no_digit base x d : digit_value base x = Some d -> is_underscore x = false.
Proof.
  intros Hd. destruct (is_underscore x) eqn:Hu; [|done]. apply is_underscore_spec in Hu as ->. done.
Qed.

Lemma hex_value_lt x d : hex_value x = Some d -> d < 16.
Proof. unfold hex_value, between. chars. compare; intros [= <-]; lia. Qed.

(** The place among the digits is what the code computes. *)
Lemma digit_rank_hex b : digit_rank b = hex_value b.
Proof.
  destruct (N.lt_ge_cases b 128) as [Hb|Hb].
  - assert (H : Forall (fun b => digit_rank b = hex_value b) (N.of_nat <$> seq 0 128)).
    { apply (bool_decide_unpack _). vm_compute. exact I. }
    rewrite Forall_forall in H. apply H. apply list_elem_of_fmap. exists (N.to_nat b). split; [by rewrite N2Nat.id|]. apply elem_of_seq. simpl. lia.
  - assert (Hout : forall l, Forall (fun c => c < 128) l -> list_find (b =.) l = None).
    { intros l Hl. apply list_find_None. eapply Forall_impl; [exact Hl|]. intros c Hc Heq. simpl in Hc. lia. }
    unfold digit_rank. rewrite !Hout by (apply (bool_decide_unpack _); vm_compute; exact I).
    unfold hex_value, between. chars. compare; try done; lia.
Qed.

Lemma digit_value_hex base b : digit_value base b = (d ← hex_value b; if d <? base then Some d else None).
Proof. unfold digit_value. by rewrite digit_rank_hex. Qed.

Lemma digit_value_16 b : digit_value 16 b = hex_value b.
Proof.
  rewrite digit_value_hex. destruct (hex_value b) as [d|] eqn:Hd; [|done]. simpl. apply hex_value_lt in Hd.
  by destruct (N.ltb_spec d 16); [|lia].
Qed.

(** The digits of each base are those of the source's patterns. *)
Lemma digit_in_spec base x : base = 2 \/ base = 8 \/ base = 10 \/ base = 16 ->
  exists name, digit_in base x = Done (match digit_value base x with Some d => inr d | None => inl name end).
Proof.
  intros [-> |[-> |[-> | ->]]]; unfold digit_in; rewrite ?digit_value_16, ?digit_value_hex; simpl.
  4: { exists "hexadecimal"%string. do 2 f_equal. }
  all: eexists; f_equal; unfold hex_value, between; chars; compare; try done; try lia; f_equal; lia.
Qed.

(** The number of [ds] after digits of the number [v]. *)
Definition number_from (base v : N) (ds : list N) : N :=
  foldl (fun v b => v * base + default 0 (digit_value base b)) v (digits ds).

Definition in_numeral (base x : N) : Prop := is_underscore x = true \/ is_Some (digit_value base x).

Lemma digits_cons x ds : digits (x :: ds) = if is_underscore x then digits ds else x :: digits ds.
Proof. unfold digits. rewrite filter_cons. by destruct (is_underscore x). Qed.

Lemma number_from_ge base v ds : 1 <= base -> v <= number_from base v ds.
Proof.
  intros Hb. unfold number_from. generalize (digits ds). clear ds. intros ds. revert v.
  induction ds as [|x ds IH]; intros v; simpl; [lia|]. etrans; [|apply IH]. nia.
Qed.

Lemma digits_loop_spec end_ base limit ds i v seen :
  base = 2 \/ base = 8 \/ base = 10 \/ base = 16 -> v <= limit <= U64_LIMIT ->
  exists r, digits_loop end_ base limit ds i v seen = Done r /\
    forall v' seen', r = inr (v', seen') <->
      Forall (in_numeral base) ds /\ v' = number_from base v ds /\ v' <= limit /\
      seen' = seen || negb (bool_decide (digits ds = [])).
Proof.
  intros Hb. revert i v seen. induction ds as [|x ds IH]; intros i v seen Hv; simpl.
  { eexists. split; [done|]. intros v' seen'. rewrite orb_false_r. split.
    - intros [= -> ->]. unfold number_from. simpl. repeat split; [by constructor|lia].
    - by intros (_ & -> & _ & ->). }
  assert (Hiff : forall v' seen', Forall (in_numeral base) (x :: ds) /\ v' = number_from base v (x :: ds) /\
      v' <= limit /\ seen' = seen || negb (bool_decide (digits (x :: ds) = [])) <->
    (in_numeral base x /\ Forall (in_numeral base) ds) /\
    v' = (if is_underscore x then number_from base v ds
          else number_from base (v * base + default 0 (digit_value base x)) ds) /\
    v' <= limit /\ seen' = seen || (if is_underscore x then negb (bool_decide (digits ds = [])) else true)).
  { intros v' seen'. rewrite Forall_cons. unfold number_from. rewrite digits_cons. by destruct (is_underscore x). }
  setoid_rewrite Hiff. clear Hiff. destruct (is_underscore x) eqn:Hu.
  - destruct (IH (S i) v seen Hv) as (r & Hr & Hiff). exists r. split; [done|]. intros v' seen'.
    rewrite Hiff. unfold in_numeral at 2. naive_solver.
  - destruct (digit_in_spec base x Hb) as [name ->]. simpl.
    destruct (digit_value base x) as [d|] eqn:Hd; simpl.
    2:{ eexists. split; [done|]. intros v' seen'. split; [done|]. unfold in_numeral. rewrite Hu, Hd.
        intros ([[?|[? ?]] _] & _); done. }
    assert (Hge : v * base + d <= number_from base (v * base + d) ds) by (apply number_from_ge; lia).
    unfold checked_push.
    destruct (N.leb_spec (v * base) U64_LIMIT), (N.leb_spec (v * base + d) U64_LIMIT);
      try (eexists; split; [done|]; intros v' seen'; split; [done|]; intros (_ & -> & Hle & _); lia).
    destruct (N.ltb_spec limit (v * base + d)).
    { eexists; split; [done|]; intros v' seen'; split; [done|]. intros (_ & -> & Hle & _). lia. }
    destruct (IH (S i) (v * base + d) true ltac:(lia)) as (r & Hr & Hiff). exists r. split; [done|].
    intros v' seen'. rewrite Hiff, orb_true_r. unfold in_numeral at 2. rewrite Hd. naive_solver.
Qed.

Lemma last_digit base ds : numeral base ds -> digits ds <> [].
Proof.
  intros (_ & x & Hx & Hu) Hd. assert (x ∈ digits ds) as Hin; [|rewrite Hd in Hin; by apply not_elem_of_nil in Hin].
  apply list_elem_of_filter. split; [done|]. by eapply last_Some_elem_of.
Qed.

Lemma parse_unsigned_integer_spec (prefix ds tail : list N) base limit :
  base = 2 \/ base = 8 \/ base = 10 \/ base = 16 -> limit <= U64_LIMIT -> last prefix <> Some (chr "_") ->
  exists r, parse_unsigned_integer (prefix ++ ds ++ tail) (length prefix) (length (prefix ++ ds)) base limit = Done r /\
    forall v, r = inr v <-> numeral base ds /\ (length prefix = 2%nat -> head ds <> Some (chr "_")) /\
      v = number base ds /\ v <= limit.
Proof.
  intros Hb Hlim Hp. unfold parse_unsigned_integer.
  rewrite decide_False by (rewrite length_app; lia).
  assert (Hfail : forall e : LiteralError, (ds = [] \/ last ds = Some (chr "_") \/ (length prefix = 2%nat /\ head ds = Some (chr "_"))) ->
    exists r, werr (A := N) e = Done r /\ forall v, r = inr v <-> numeral base ds /\ (length prefix = 2%nat -> head ds <> Some (chr "_")) /\
      v = number base ds /\ v <= limit).
  { intros e Hds. eexists. split; [done|]. intros v. split; [done|]. intros ((_ & x & Hx & Hu) & Hh & _).
    destruct Hds as [-> |[Hl|[? ?]]]; [done| |by destruct Hh]. rewrite Hl in Hx. by simplify_eq. }
  destruct (decide (length (prefix ++ ds) = 0%nat)) as [He|Hne].
  { apply Hfail. left. rewrite length_app in He. destruct ds; [done|simpl in He; lia]. }
  destruct (last (prefix ++ ds)) as [x|] eqn:Hlast; [|apply last_None in Hlast; by rewrite Hlast in Hne].
  assert (Hidx : byte_at (prefix ++ ds ++ tail) (length (prefix ++ ds) - 1) = wok x).
  { unfold byte_at, idx. rewrite app_assoc, lookup_app_l, Nat.sub_1_r by lia.
    by rewrite <-last_lookup, Hlast. }
  rewrite Hidx. simpl. destruct (is_underscore x) eqn:Hu.
  { apply is_underscore_spec in Hu as ->. apply Hfail. destruct ds as [|y ds] using rev_ind; [by left|].
    right. left. rewrite app_assoc, last_snoc in Hlast. by rewrite last_snoc. }
  assert (Htail : exists r, (if decide (length (prefix ++ ds) <= length (prefix ++ ds ++ tail))%nat then
      '(value, seen_digit) <-- digits_loop (length (prefix ++ ds)) base limit
         (drop (length prefix) (take (length (prefix ++ ds)) (prefix ++ ds ++ tail))) (length prefix) 0 false ;;
      if negb seen_digit then err (lit "Missing digits") (length prefix) (length (prefix ++ ds)) else wok value
    else Panic) = Done r /\
    forall v, r = inr v <-> numeral base ds /\ v = number base ds /\ v <= limit).
  { rewrite decide_True by (rewrite !length_app; lia). rewrite app_assoc, take_app_length, drop_app_length.
    destruct (digits_loop_spec (length (prefix ++ ds)) base limit ds (length prefix) 0 false Hb ltac:(lia)) as (r & -> & Hr).
    destruct r as [e|[v' seen']].
    { exists (inl e). split; [done|]. intros v. split; [done|]. intros (Hn & -> & Hle).
      assert (@inl LiteralError (N * bool) e = inr (number base ds, true)) as [=].
      apply Hr. split; [apply Hn|]. split; [done|]. split; [done|]. apply last_digit in Hn. by rewrite bool_decide_false. }
    destruct (proj1 (Hr v' seen') eq_refl) as (Hall & -> & Hle & ->). simpl.
    case_bool_decide as Hd; simpl.
    { eexists. split; [done|]. intros v. split; [done|]. intros (Hn & _). by apply last_digit in Hn. }
    eexists. split; [done|]. intros v. split; [|naive_solver]. intros [= <-]. split; [|done]. split; [done|].
    exists x. split; [|done]. destruct ds as [|y ds] using rev_ind; [done|].
    rewrite app_assoc, last_snoc in Hlast. by rewrite last_snoc. }
  destruct (decide (length prefix = 2%nat)) as [H2|H2]; simpl.
  2:{ destruct Htail as (r & -> & Hr). exists r. split; [done|]. intros v. rewrite Hr. naive_solver. }
  destruct ds as [|y ds].
  { rewrite decide_True by (rewrite app_nil_r; done). simpl. apply Hfail. by left. }
  rewrite decide_False by (rewrite length_app; simpl; lia).
  assert (Hy : byte_at (prefix ++ (y :: ds) ++ tail) (length prefix) = wok y).
  { unfold byte_at, idx. by rewrite <-app_comm_cons, list_lookup_middle. }
  rewrite Hy. simpl. destruct (is_underscore y) eqn:Huy.
  { apply is_underscore_spec in Huy as ->. apply Hfail. by right; right. }
  destruct Htail as (r & Heq & Hr). exists r. split; [exact Heq|]. intros v. rewrite Hr.
  assert (Some y <> Some (chr "_")) by (intros [= ->]; done). naive_solver.
Qed.

Lemma numeral_head base x ds : numeral base (x :: ds) -> in_numeral base x.
Proof. intros [Hall _]. by apply Forall_cons in Hall as [? _]. Qed.

Lemma numeral_nil base : ~ numeral base [].
Proof. by intros (_ & x & [=] & _). Qed.

Definition is_dec (r : Radix) : bool := match r with Dec => true | _ => false end.

(** The code finds the radix and the prefix that the literal has, if it is one. *)
Lemma integer_base_spec text tail : text <> [] ->
  exists r prefix ds, text = prefix ++ ds /\ prefix_of r prefix /\
    integer_base (text ++ tail) (length text) = wok (radix_base r, length prefix, is_dec r) /\
    (numeral (radix_base r) ds -> (length prefix = 2%nat -> head ds <> Some (chr "_")) -> starts_ok r ds) /\
    forall r' prefix' ds', text = prefix' ++ ds' -> prefix_of r' prefix' -> numeral (radix_base r') ds' ->
      starts_ok r' ds' -> r' = r /\ prefix' = prefix /\ ds' = ds.
Proof.
  intros Hne. destruct text as [|x text]; [done|]. unfold integer_base, byte_at. simpl.
  destruct (N.eqb_spec x (chr "0")) as [-> |Hx]; simpl.
  2:{ exists Dec, [], (x :: text). do 3 (split; [done|]). split; [intros _ _; right; by intros [= ->]|].
      intros [] prefix' ds' Heq Hp Hn Hs; simpl in Hp; [by subst| | |]; exfalso; apply Hx;
        repeat (destruct Hp as [Hp|Hp]); subst; by simplify_eq/=. }
  destruct text as [|y text]; simpl.
  { exists Dec, [], [chr "0"]. do 3 (split; [done|]). split; [intros _ _; by left|].
    intros [] prefix' ds' Heq Hp Hn Hs; simpl in Hp; [by subst| | |];
      repeat (destruct Hp as [Hp|Hp]); subst; simplify_eq/=; by apply numeral_nil in Hn. }
  assert (Hother : forall r r' prefix' ds', chr "0" :: y :: text = prefix' ++ ds' -> prefix_of r' prefix' ->
    numeral (radix_base r') ds' -> starts_ok r' ds' ->
    match r with
    | Hex => y = chr "x" \/ y = chr "X" | Bin => y = chr "b" \/ y = chr "B"
    | Oct => y <> chr "x" /\ y <> chr "X" /\ y <> chr "b" /\ y <> chr "B" | Dec => False
    end -> r' = r).
  { intros r r' prefix' ds' Heq Hp Hn Hs Hy. destruct r'; simpl in Hp.
    - subst. simpl in Heq. subst. by destruct Hs.
    - destruct Hp as [-> | ->]; simplify_eq/=; destruct r; naive_solver.
    - destruct Hp as [-> | ->]; simplify_eq/=; destruct r; naive_solver.
    - subst. simplify_eq/=. apply numeral_head in Hn. destruct r; try done;
        destruct Hy as [-> | ->]; by destruct Hn as [?|[? ?]]. }
  destruct (N.eqb_spec y (chr "x")) as [-> |H1]; simpl;
    [|destruct (N.eqb_spec y (chr "X")) as [-> |H2]; simpl;
      [|destruct (N.eqb_spec y (chr "b")) as [-> |H3]; simpl;
        [|destruct (N.eqb_spec y (chr "B")) as [-> |H4]; simpl]]].
  1,2: exists Hex. 3,4: exists Bin. 5: exists Oct.
  1-4: eexists [_; _], text. 5: exists [chr "0"], (y :: text).
  all: split; [done|]; split; [simpl; auto|]; split; [done|]; split; [by (intros _ Hh; try apply Hh)|].
  all: intros r' prefix' ds' Heq Hp Hn Hs.
  1,2: specialize (Hother Hex r' prefix' ds' Heq Hp Hn Hs ltac:(simpl; auto)).
  3,4: specialize (Hother Bin r' prefix' ds' Heq Hp Hn Hs ltac:(simpl; auto)).
  5: specialize (Hother Oct r' prefix' ds' Heq Hp Hn Hs ltac:(simpl; auto)).
  all: subst r'; split; [done|]; simpl in Hp; repeat (destruct Hp as [Hp|Hp]); subst; by simplify_eq/=.
Qed.

(** The common part of the two parsers. *)
Lemma integer_parts text tail (w : N) : w = 32 \/ w = 64 -> text <> [] ->
  exists r, ('(base, prefix_len, is_decimal) <-- integer_base (text ++ tail) (length text) ;;
    value <-- parse_unsigned_integer (text ++ tail) prefix_len (length text) base
                (if is_decimal : bool then 2 ^ (w - 1) - 1 else 2 ^ w - 1) ;;
    wok (as_signed w value)) = Done r /\
    forall v, r = inr v <-> exists radix n, integer_literal radix text n /\ n <= radix_limit w radix /\ v = as_signed w n.
Proof.
  intros Hw Hne. destruct (integer_base_spec text tail Hne) as (r & prefix & ds & Ht & Hp & -> & Hstart & Huniq).
  simpl. assert (Hlim : (if is_dec r then 2 ^ (w - 1) - 1 else 2 ^ w - 1) = radix_limit w r) by by destruct r.
  rewrite Hlim. replace (text ++ tail) with (prefix ++ ds ++ tail) by by rewrite Ht, app_assoc.
  replace (length text) with (length (prefix ++ ds)) by by rewrite Ht.
  destruct (parse_unsigned_integer_spec prefix ds tail (radix_base r) (radix_limit w r)) as (res & -> & Hres).
  { destruct r; simpl; auto. }
  { destruct Hw as [-> | ->], r; vm_compute; discriminate. }
  { destruct r; simpl in Hp; repeat (destruct Hp as [Hp|Hp]); by subst. }
  assert (Hgoal : forall v, (exists radix n, integer_literal radix text n /\ n <= radix_limit w radix /\ v = as_signed w n) <->
    exists n, @inr LiteralError N n = res /\ v = as_signed w n).
  { intros v. split.
    - intros (r' & n & (p' & ds' & Ht' & Hp' & Hn & Hs & ->) & Hle & ->).
      destruct (Huniq r' p' ds' Ht' Hp' Hn Hs) as (-> & -> & ->). eexists. split; [|done]. symmetry. apply Hres.
      split; [done|]. split; [|done]. intros Hlen. destruct r; simpl in Hp; [by subst|done|done|by subst].
    - intros (n & Hn & ->). symmetry in Hn. apply Hres in Hn as (Hnum & Hh & -> & Hle).
      exists r, (number (radix_base r) ds). split; [|done]. exists prefix, ds. auto 10. }
  setoid_rewrite Hgoal. destruct res as [e|n]; simpl; eexists; (split; [done|]); intros v.
  - split; [done|]. by intros (n & [=] & _).
  - split; [intros [= <-]; eauto|]. by intros (n' & [= ->] & ->).
Qed.

(** A literal ends in a digit of its base, which is no suffix. *)
Lemma literal_end r t n : integer_literal r t n ->
  exists x, last t = Some x /\ is_underscore x = false /\ x <> chr "l" /\ x <> chr "L".
Proof.
  intros (p & ds & -> & _ & [Hall (x & Hx & Hu)] & _). exists x. rewrite last_app, Hx.
  rewrite Forall_forall in Hall. specialize (Hall x (last_Some_elem_of _ _ Hx)).
  split; [done|]. split; [done|]. split; intros ->; by destruct r, Hall as [?|[? ?]].
Qed.

Lemma suffix_cases x : ((x =? chr "l") || (x =? chr "L")) = true <-> x = chr "l" \/ x = chr "L".
Proof. by rewrite orb_true_iff, !N.eqb_eq. Qed.

Lemma parse_int_literal_spec text :
  parses (parse_int_literal text) (fun v =>
    exists radix n, integer_literal radix text n /\ n <= radix_limit 32 radix /\ v = as_signed 32 n).
Proof.
  unfold parse_int_literal. destruct (last text) as [x|] eqn:Hx.
  2:{ apply last_None in Hx as ->. eexists. split; [done|]. intros v. split; [done|].
      intros (r & n & Hl & _). apply literal_end in Hl as (? & [=] & _). }
  destruct ((x =? chr "l") || (x =? chr "L")) eqn:Hs.
  - eexists. split; [done|]. intros v. split; [done|]. intros (r & n & Hl & _).
    apply literal_end in Hl as (y & Hy & Hu & ? & ?). rewrite Hx in Hy. injection Hy as <-.
    by apply suffix_cases in Hs as [?|?].
  - destruct (integer_parts text [] 32) as (r & Hr & Hiff); [by left|by intros ->|].
    rewrite app_nil_r in Hr. by exists r.
Qed.

Definition long_literal (text : list N) (v : Z) : Prop :=
  exists radix n digits_ suffix, text = digits_ ++ [suffix] /\ (suffix = chr "l" \/ suffix = chr "L") /\
    integer_literal radix digits_ n /\ n <= radix_limit 64 radix /\ v = as_signed 64 n.

Lemma long_literal_snoc text x v : long_literal (text ++ [x]) v <->
  (x = chr "l" \/ x = chr "L") /\
  exists radix n, integer_literal radix text n /\ n <= radix_limit 64 radix /\ v = as_signed 64 n.
Proof.
  split; [|intros (? & r & n & ?); exists r, n, text, x; naive_solver].
  intros (r & n & ds & s & [-> [= ->]]%app_inj_2 & ?); [naive_solver|done].
Qed.

Lemma parse_long_literal_spec text :
  parses (parse_long_literal text) (long_literal text).
Proof.
  destruct text as [|x text _] using rev_ind.
  { eexists. split; [done|]. intros v. split; [done|]. intros (r & n & ds & s & Ht & _). by destruct ds. }
  eapply parses_iff; [|intros v; symmetry; apply long_literal_snoc]. unfold parses.
  unfold parse_long_literal. destruct (text ++ [x]) as [|z zs] eqn:Htext; [by destruct text|]. rewrite <-Htext.
  clear z zs Htext. rewrite length_app. simpl length. replace (length text + 1 - 1)%nat with (length text) by lia.
  rewrite list_lookup_middle by done. simpl default.
  destruct ((x =? chr "l") || (x =? chr "L")) eqn:Hs; simpl.
  2:{ eexists. split; [done|]. intros v. split; [done|]. intros [Hx%suffix_cases _]. congruence. }
  apply suffix_cases in Hs. destruct text as [|y text _] using rev_ind.
  { eexists. split; [done|]. intros v. split; [done|]. intros (_ & r & n & (? & [=] & _)%literal_end & _). }
  rewrite decide_False by (rewrite length_app; simpl; lia).
  assert (Hy : byte_at ((text ++ [y]) ++ [x]) (length (text ++ [y]) - 1) = wok y).
  { unfold byte_at, idx. rewrite <-app_assoc, length_app. simpl. rewrite Nat.add_sub.
    change ([y] ++ [x]) with (y :: [x]). by rewrite list_lookup_middle. }
  rewrite Hy. simpl. destruct (is_underscore y) eqn:Hu.
  { eexists. split; [done|]. intros v. split; [done|]. intros (_ & r & n & (z & Hz & Huz & _)%literal_end & _).
    rewrite last_snoc in Hz. congruence. }
  destruct (integer_parts (text ++ [y]) [x] 64) as (r & Hr & Hiff); [by right|by destruct text|].
  exists r. split; [exact Hr|]. intros v. rewrite Hiff. naive_solver.
Qed.

(** C19: Integer literals are read as Java defines them, and a decimal one may also start with underscores.  [parse_int_literal] and [parse_long_literal] return
    for every text, and accept exactly the decimal, hexadecimal, binary and octal literals (with an
    [L] for long) whose number is in range: up to the largest positive number in decimal, any 32 or
    64 bits otherwise.  The value is the number, read in two's complement. *)
Theorem integer_literals_exact text :
  parses (parse_int_literal text) (fun v =>
    exists radix n, integer_literal radix text n /\ n <= radix_limit 32 radix /\ v = as_signed 32 n) /\
  parses (parse_long_literal text) (long_literal text).
Proof. split; [apply parse_int_literal_spec|apply parse_long_literal_spec]. Qed.

(** A decimal literal that starts with an underscore is accepted. *)
Theorem leading_underscore_accepted : parse_int_literal (lit "_1") = wok 1%Z.
Proof. reflexivity. Qed.
