(* ===== verification/FloatBits.v ===== *)
(** * Rounding to binary floats (crates/nova-syntax/src/literals.rs)

    A hexadecimal floating literal is a list of hexadecimal digits (nibbles) and a binary exponent;
    [binary_to_ieee_bits] makes the bits of a [f32] or [f64] of it, on the bits of the list, without
    big integers.  The file has the code, a specification of rounding to nearest with ties to even
    on bit patterns, an executable reference that meets it, and the proof that the code computes
    the reference.  Bit positions and exponents are integers; [usize] and [i64] arithmetic is
    written out where it saturates. *)

From Stdlib Require Import ZArith.
From stdpp Require Import base numbers option list.
From S2P Require Import Prelude.

Local Open Scope Z_scope.

(** ** Machine integers *)

Definition I64_MAX : Z := 2 ^ 63 - 1.
Definition I64_MIN : Z := - 2 ^ 63.
Definition clamp_i64 (x : Z) : Z := Z.max I64_MIN (Z.min I64_MAX x).
Definition saturating_add (x y : Z) : Z := clamp_i64 (x + y).
Definition saturating_sub (x y : Z) : Z := clamp_i64 (x - y).
Definition saturating_mul (x y : Z) : Z := clamp_i64 (x * y).

(** [x << n] on [u64]: the bits that leave are lost. *)
Definition shl64 (x n : Z) : Z := Z.shiftl x n mod 2 ^ 64.

(** ** The code *)

Inductive FloatParams := F32 | F64.

Record Format := mkFormat { frac_bits : Z; exp_bias : Z; min_exp : Z; max_exp : Z }.

(** The tuple at the start of [binary_to_ieee_bits]. *)
Definition format (params : FloatParams) : Format :=
  match params with
  | F32 => mkFormat 23 127 (-126) 127
  | F64 => mkFormat 52 1023 (-1022) 1023
  end.

Notation len l := (Z.of_nat (length l)).

Definition get_bit (nibbles : list Z) (bit_pos : Z) : run Z :=
  let total_bits := len nibbles * 4 in
  if (total_bits <=? bit_pos) || (len nibbles =? 0) then Done 0
  else
    let nibble_from_lsb := bit_pos / 4 in
    let bit_in_nibble := bit_pos mod 4 in
    n ← idx nibbles (Z.to_nat (len nibbles - 1 - nibble_from_lsb));
    Done (Z.land (Z.shiftr n bit_in_nibble) 1).

Definition extract_msb_bits (nibbles : list Z) (bit_len count : Z) : run Z :=
  let take := Z.min count bit_len in
  for_each (fun out i => bit ← get_bit nibbles (bit_len - 1 - i); Done (Z.lor (shl64 out 1) bit))
    (seqZ 0 take) 0.

(** The loop over the full nibbles of [low_bits_nonzero]. *)
Fixpoint low_nibbles_nonzero (nibbles : list Z) (is_ : list Z) : run bool :=
  match is_ with
  | [] => Done false
  | i :: is_ =>
      n ← idx nibbles (Z.to_nat (len nibbles - 1 - i));
      if n =? 0 then low_nibbles_nonzero nibbles is_ else Done true
  end.

Definition low_bits_nonzero (nibbles : list Z) (bits_count : Z) : run bool :=
  if bits_count =? 0 then Done false
  else if len nibbles =? 0 then Done false
  else
    let bits_count := Z.min bits_count (len nibbles * 4) in
    let full_nibbles := bits_count / 4 in
    let rem_bits := bits_count mod 4 in
    found ← low_nibbles_nonzero nibbles (seqZ 0 full_nibbles);
    if found : bool then Done true
    else if 0 <? rem_bits then
      let i := Z.max 0 (len nibbles - (1 + full_nibbles)) in
      if i <? len nibbles then
        n ← idx nibbles (Z.to_nat i);
        let mask := Z.shiftl 1 rem_bits - 1 in
        Done (negb (Z.land n mask =? 0))
      else Done false
    else Done false.

Fixpoint trim_leading_zero_nibbles (nibbles : list Z) : list Z :=
  match nibbles with
  | n :: rest => if n =? 0 then trim_leading_zero_nibbles rest else nibbles
  | [] => []
  end.

(** [u8::leading_zeros]. *)
Definition leading_zeros_u8 (n : Z) : Z := if n =? 0 then 8 else 7 - Z.log2 n.

(** The loop of [bit_len_nibbles] skips zeros like [trim_leading_zero_nibbles]. *)
Definition bit_len_nibbles (nibbles : list Z) : option Z :=
  match trim_leading_zero_nibbles nibbles with
  | [] => None
  | (first :: _) as rest =>
      let leading_zeros_in_nibble := Z.max 0 (leading_zeros_u8 first - 4) in
      let total_bits := len rest * 4 in
      Some (total_bits - leading_zeros_in_nibble)
  end.

(** [m_val]: the nibbles as an [u64]. *)
Definition nibbles_u64 (nibbles : list Z) : Z := foldl (fun m n => Z.lor (shl64 m 4) n) 0 nibbles.

(** The pattern of infinity. *)
Definition infinity_bits (f : Format) : Z :=
  Z.land (shl64 (max_exp f + exp_bias f + 1) (frac_bits f)) (Z.lnot (Z.shiftl 1 (frac_bits f) - 1)).

(** The case of a normal number, with exponent [e]. *)
Definition normal_bits (f : Format) (nibbles : list Z) (bit_len e : Z) : run Z :=
  let precision := frac_bits f + 1 in
  let finish (q e : Z) : run Z :=
    let exp_field := e + exp_bias f in
    let frac_mask := Z.shiftl 1 (frac_bits f) - 1 in
    Done (Z.lor (shl64 exp_field (frac_bits f)) (Z.land q frac_mask)) in
  if precision <? bit_len then
    let shift := bit_len - precision in
    q ← extract_msb_bits nibbles bit_len precision;
    guard ← get_bit nibbles (shift - 1);
    sticky ← low_bits_nonzero nibbles (shift - 1);
    if (guard =? 1) && (sticky || (Z.land q 1 =? 1)) then
      let q := q + 1 in
      if q =? Z.shiftl 1 precision then
        let q := Z.shiftr q 1 in
        let e := saturating_add e 1 in
        if max_exp f <? e then Done (infinity_bits f) else finish q e
      else finish q e
    else finish q e
  else finish (shl64 (nibbles_u64 nibbles) (precision - bit_len)) e.

(** The [fraction] of a subnormal number. *)
Definition subnormal_fraction (f : Format) (nibbles : list Z) (bit_len exp2 : Z) : run Z :=
  let scale := saturating_sub (frac_bits f) (min_exp f) in
  let k := saturating_add exp2 scale in
  if 0 <=? k then
    let m_val := nibbles_u64 nibbles in
    if 64 <=? k then Done (2 ^ 64 - 1) else Done (shl64 m_val k)
  else
    let shift_right := - k in
    let q_bit_len := Z.max 0 (bit_len - shift_right) in
    let q_bit_len := Z.min q_bit_len (frac_bits f + 1) in
    q ← for_each (fun q i => bit ← get_bit nibbles (shift_right + i); Done (Z.lor (shl64 q 1) bit))
          (reverse (seqZ 0 q_bit_len)) 0;
    guard ← (if shift_right =? 0 then Done 0 else get_bit nibbles (shift_right - 1));
    sticky ← (if shift_right <=? 1 then Done false else low_bits_nonzero nibbles (shift_right - 1));
    if (guard =? 1) && (sticky || (Z.land q 1 =? 1)) then Done (Z.min (q + 1) (2 ^ 64 - 1)) else Done q.

Definition binary_to_ieee_bits (nibbles : list Z) (bit_len exp2 : Z) (params : FloatParams) : run Z :=
  let f := format params in
  let e := saturating_sub (saturating_add exp2 bit_len) 1 in
  if max_exp f <? e then Done (infinity_bits f)
  else if min_exp f <=? e then normal_bits f nibbles bit_len e
  else
    fraction ← subnormal_fraction f nibbles bit_len exp2;
    if fraction =? 0 then Done 0
    else
      let max_sub := Z.shiftl 1 (frac_bits f) in
      if max_sub <=? fraction then Done (Z.shiftl 1 (frac_bits f)) else Done fraction.

(** ** What rounding means *)

(** The exponent of the smallest subnormal number. *)
Definition min_unit (f : Format) : Z := min_exp f - frac_bits f.

(** The value of the pattern [b] of a number that is not negative, in units of the smallest
    subnormal number.  The pattern of infinity counts as the power of two after the largest
    number, as IEEE 754 rounds. *)
Definition units (f : Format) (b : Z) : Z :=
  if b <? 2 ^ frac_bits f then b
  else (2 ^ frac_bits f + b mod 2 ^ frac_bits f) * 2 ^ (b / 2 ^ frac_bits f - 1).

Definition inf_pattern (f : Format) : Z := (max_exp f + exp_bias f + 1) * 2 ^ frac_bits f.

(** [|n / d - value of b|], times [d], in units of the smallest subnormal number. *)
Definition distance (f : Format) (n d b : Z) : Z := Z.abs (n * 2 ^ (- min_unit f) - units f b * d).

(** [b] is the pattern nearest to [n / d], the even one of two that are equally near. *)
Definition nearest_even (f : Format) (n d b : Z) : Prop :=
  0 <= b <= inf_pattern f /\
  forall b', 0 <= b' <= inf_pattern f ->
    distance f n d b <= distance f n d b' /\
    (b' <> b -> distance f n d b' = distance f n d b -> Z.Even b).

(** The number of a list of nibbles. *)
Definition nibbles_value (nibbles : list Z) : Z := foldl (fun m n => 16 * m + n) 0 nibbles.

(** [v * 2^x] as a fraction. *)
Definition scale_num (v x : Z) : Z := v * 2 ^ Z.max 0 x.
Definition scale_den (x : Z) : Z := 2 ^ Z.max 0 (- x).

(** ** A reference *)

(** [n / d] to the nearest integer, ties to even. *)
Definition rne (n d : Z) : Z :=
  let q := n / d in
  let r := n mod d in
  if 2 * r <? d then q else if d <? 2 * r then q + 1 else q + q mod 2.

Definition round_ratio (f : Format) (n d : Z) : Z :=
  let u := n * 2 ^ (- min_unit f) in
  let t := u / d in
  let q := Z.max 0 (Z.log2 t - frac_bits f) in
  Z.min (inf_pattern f) (q * 2 ^ frac_bits f + rne u (d * 2 ^ q)).

(** ** The reference rounds to nearest *)

Section Reference.
Context (f : Format).
Context (Hfrac : 0 < frac_bits f) (Hunit : min_unit f <= 0) (Hinf : 0 <= inf_pattern f).

Local Notation P := (2 ^ frac_bits f).

Lemma P_pos : 0 < P.
Proof. lia. Qed.

Lemma P_even : Z.Even P.
Proof.
  exists (2 ^ (frac_bits f - 1)). rewrite <-Z.pow_succ_r by lia. f_equal. lia.
Qed.

Lemma units_encode q r :
  0 <= q -> 0 <= r <= 2 * P -> (q = 0 \/ P <= r) -> units f (q * P + r) = r * 2 ^ q.
Proof.
  intros Hq Hr Hn. pose proof P_pos as HP. unfold units.
  destruct (Z.ltb_spec (q * P + r) P) as [Hlt|Hge]; [destruct Hn as [->|]; [lia|nia]|].
  destruct (Z.eq_dec r (2 * P)) as [->|Hne].
  - replace (q * P + 2 * P) with ((q + 2) * P) by lia. rewrite Z.mod_mul, Z.div_mul by lia.
    replace (q + 2 - 1) with (Z.succ q) by lia. rewrite Z.pow_succ_r; lia.
  - assert (Hb : q * P + r = (q + 1) * P + (r - P)) by lia.
    assert (P <= r) by nia.
    rewrite Hb, Z.div_add_l, (Z.div_small (r - P)), (Z.add_comm (_ * _) (r - P)), Z.mod_add,
      (Z.mod_small (r - P)) by lia.
    f_equal; [lia|]. f_equal. lia.
Qed.

(** Every pattern is [q * P + r] in the sense of [units_encode]. *)
Lemma pattern_split b :
  0 <= b -> exists q r, b = q * P + r /\ 0 <= q /\ 0 <= r < 2 * P /\ (q = 0 \/ P <= r).
Proof.
  intros Hb. pose proof P_pos as HP. destruct (Z.lt_ge_cases b P).
  - exists 0, b. lia.
  - exists (b / P - 1), (P + b mod P). pose proof (Z.mod_pos_bound b P HP).
    pose proof (Z.div_mod b P). assert (1 <= b / P) by (apply Z.div_le_lower_bound; lia). lia.
Qed.

Lemma units_step b : 0 <= b -> units f b < units f (b + 1).
Proof.
  intros (q & r & -> & Hq & Hr & Hn)%pattern_split.
  rewrite <-Z.add_assoc, !units_encode by lia. nia.
Qed.

Lemma units_lt a b : 0 <= a < b -> units f a < units f b.
Proof.
  intros [Ha Hab]. replace b with (a + 1 + (b - a - 1)) by lia.
  assert (Hk : 0 <= b - a - 1) by lia. revert Hk. generalize (b - a - 1). clear Hab.
  apply natlike_ind; [rewrite Z.add_0_r; by apply units_step|].
  intros k Hk IH. replace (a + 1 + Z.succ k) with (a + 1 + k + 1) by lia.
  pose proof (units_step (a + 1 + k)). lia.
Qed.

Lemma units_le a b : 0 <= a <= b -> units f a <= units f b.
Proof. intros [? [?%(conj H)%units_lt| ->]%Zle_lt_or_eq]; lia. Qed.

(** The pattern just below [n / d], in the binade of [n / d]. *)
Section Ratio.
Context (n d : Z) (Hn : 0 <= n) (Hd : 0 < d).

Local Notation u := (n * 2 ^ (- min_unit f)).
Local Notation q := (Z.max 0 (Z.log2 (u / d) - frac_bits f)).
Local Notation r0 := (u / (d * 2 ^ q)).

Lemma below_range : 0 <= r0 < 2 * P /\ (q = 0 \/ P <= r0).
Proof.
  pose proof P_pos as HP.
  assert (Hu : 0 <= u / d) by (apply Z.div_pos; nia).
  rewrite <-Z.div_div by lia. set (t := u / d) in *.
  destruct (Z.lt_ge_cases t P) as [Ht|Ht].
  - destruct (Z.eq_dec t 0) as [->|Hnz]; [rewrite Z.div_0_l; simpl; lia|].
    assert (Z.log2 t < frac_bits f) by (apply Z.log2_lt_pow2; lia).
    rewrite Z.max_l, Z.pow_0_r, Z.div_1_r; lia.
  - assert (Hl : frac_bits f <= Z.log2 t) by (apply Z.log2_le_pow2; lia).
    destruct (Z.log2_spec t) as [H1 H2]; [lia|]. rewrite Z.max_r by lia.
    set (l := Z.log2 t) in *. split; [|right].
    + split; [apply Z.div_pos; lia|]. apply Z.div_lt_upper_bound; [lia|].
      replace (2 ^ (l - frac_bits f) * (2 * P)) with (2 ^ Z.succ l); [lia|].
      rewrite Z.pow_succ_r, (Z.mul_comm 2 P), Z.mul_assoc, <-Z.pow_add_r, Z.sub_add; lia.
    + apply Z.div_le_lower_bound; [lia|]. rewrite <-Z.pow_add_r by lia. by rewrite Z.sub_add.
Qed.

Lemma rne_cases a b : 0 < b ->
  (rne a b = a / b /\ 2 * (a mod b) <= b /\ (2 * (a mod b) = b -> Z.Even (rne a b))) \/
  (rne a b = a / b + 1 /\ b <= 2 * (a mod b) /\ (2 * (a mod b) = b -> Z.Even (rne a b))).
Proof.
  intros Hb. unfold rne.
  destruct (Z.ltb_spec (2 * (a mod b)) b); [left; lia|].
  destruct (Z.ltb_spec b (2 * (a mod b))); [right; lia|].
  pose proof (Z.div_mod (a / b) 2 ltac:(lia)) as Hdm. pose proof (Z.mod_pos_bound (a / b) 2 ltac:(lia)).
  assert ((a / b) mod 2 = 0 \/ (a / b) mod 2 = 1) as [Hm|Hm] by lia; rewrite Hm in *; [left|right];
    (split; [lia|split; [lia|]]); intros _; [exists (a / b / 2)|exists (a / b / 2 + 1)]; lia.
Qed.

(** Among all patterns, also those past infinity. *)
Lemma round_unbounded b' : 0 <= b' ->
  let b := q * P + rne u (d * 2 ^ q) in
  0 <= b /\ distance f n d b <= distance f n d b' /\
  (b' <> b -> distance f n d b' = distance f n d b -> Z.Even b).
Proof.
  intros Hb' b. pose proof P_pos as HP. destruct below_range as [Hr Hqr].
  assert (Hdq : 0 < d * 2 ^ q) by nia.
  pose proof (Z.div_mod u (d * 2 ^ q) ltac:(lia)) as Hdm.
  pose proof (Z.mod_pos_bound u (d * 2 ^ q) Hdq) as Hm.
  set (b0 := q * P + r0).
  assert (H0 : units f b0 = r0 * 2 ^ q) by (apply units_encode; lia).
  assert (H1 : units f (b0 + 1) = (r0 + 1) * 2 ^ q).
  { unfold b0. rewrite <-Z.add_assoc. apply units_encode; lia. }
  assert (Hb0 : 0 <= b0) by (unfold b0; nia).
  assert (Hside : units f b' * d < units f b0 * d \/ b' = b0 \/ b' = b0 + 1 \/
                  units f (b0 + 1) * d < units f b' * d).
  { destruct (Z.lt_trichotomy b' b0) as [?|[?|?]]; [left|by right; left|].
    - apply Z.mul_lt_mono_pos_r; [done|]. by apply units_lt.
    - destruct (Z.eq_dec b' (b0 + 1)); [by right; right; left|]. do 3 right.
      apply Z.mul_lt_mono_pos_r; [done|]. apply units_lt. lia. }
  assert (Hev : Z.Even (rne u (d * 2 ^ q)) -> Z.Even b).
  { intros [x Hx]. destruct P_even as [y Hy]. exists (q * y + x). unfold b. rewrite Hx, Hy at 1. lia. }
  set (m := u mod (d * 2 ^ q)) in *.
  assert (Hlo : u - units f b0 * d = m) by (rewrite H0; lia).
  assert (Hhi : units f (b0 + 1) * d - u = d * 2 ^ q - m) by (rewrite H1; lia).
  unfold distance.
  destruct (rne_cases u (d * 2 ^ q) Hdq) as [(He & Hle & Htie)|(He & Hle & Htie)]; fold m in Hle, Htie.
  - replace b with b0 in * by (unfold b, b0; lia). split; [done|].
    destruct Hside as [?|[-> |[-> |?]]]; [lia|split; [lia|done]| |lia].
    split; [lia|]. intros _ ?. apply Hev, Htie. lia.
  - replace b with (b0 + 1) in * by (unfold b, b0; lia). split; [lia|].
    destruct Hside as [?|[-> |[-> |?]]]; [lia| |split; [lia|done]|lia].
    split; [lia|]. intros _ ?. apply Hev, Htie. lia.
Qed.

Lemma round_ratio_nearest : nearest_even f n d (round_ratio f n d).
Proof.
  unfold round_ratio. pose proof P_pos as HP. set (b := q * P + rne u (d * 2 ^ q)).
  destruct (round_unbounded 0 ltac:(lia)) as [Hb _]. fold b in Hb.
  destruct (Z.le_gt_cases b (inf_pattern f)) as [Hle|Hgt].
  - rewrite Z.min_r by done. split; [done|]. intros b' Hb'. apply (round_unbounded b'). lia.
  - rewrite Z.min_l by lia. split; [lia|]. intros b' Hb'.
    assert (Hu : units f (inf_pattern f) * d <= u).
    { destruct below_range as [Hr Hqr]. assert (Hdq : 0 < d * 2 ^ q) by nia.
      pose proof (Z.div_mod u (d * 2 ^ q) ltac:(lia)). pose proof (Z.mod_pos_bound u (d * 2 ^ q) Hdq).
      assert (Hi : inf_pattern f <= q * P + r0).
      { destruct (rne_cases u (d * 2 ^ q) Hdq) as [(He & _)|(He & _)]; unfold b in Hgt; lia. }
      pose proof (units_le (inf_pattern f) (q * P + r0) ltac:(lia)) as Hm. rewrite units_encode in Hm by lia. nia. }
    unfold distance. destruct (Z.eq_dec b' (inf_pattern f)) as [-> |Hne]; [split; [lia|done]|].
    pose proof (units_lt b' (inf_pattern f) ltac:(lia)). split; nia.
Qed.
End Ratio.
End Reference.

Lemma format_ok params :
  let f := format params in
  0 < frac_bits f < 63 /\ min_unit f <= 0 /\ 0 <= inf_pattern f /\ exp_bias f = 1 - min_exp f /\
  (- 2 ^ 20 < min_exp f < 0 /\ 0 < max_exp f < 2 ^ 20) /\ max_exp f + exp_bias f + 1 < 2 ^ (63 - frac_bits f).
Proof. destruct params; repeat split; vm_compute; first [reflexivity|discriminate]. Qed.

(** ** The bits of a list of nibbles *)

Definition Nibbles (l : list Z) : Prop := Forall (fun n => 0 <= n < 16) l.

Lemma nibbles_value_snoc l n : nibbles_value (l ++ [n]) = 16 * nibbles_value l + n.
Proof. unfold nibbles_value. by rewrite foldl_app. Qed.

Lemma len_snoc {A} (l : list A) x : len (l ++ [x]) = len l + 1.
Proof. rewrite length_app. simpl. lia. Qed.

Lemma pow16 k : 0 <= k -> 16 ^ k = 2 ^ (4 * k).
Proof. intros Hk. rewrite Z.pow_mul_r by lia. done. Qed.

Lemma nibbles_value_bound l : Nibbles l -> 0 <= nibbles_value l < 16 ^ len l.
Proof.
  induction l as [|n l IH] using rev_ind; [done|]. intros [Hl Hn]%Forall_app. apply IH in Hl.
  apply List.Forall_inv in Hn. rewrite nibbles_value_snoc, len_snoc, Z.pow_add_r, Z.pow_1_r by lia. lia.
Qed.

Lemma nibbles_value_cons n l : nibbles_value (n :: l) = n * 16 ^ len l + nibbles_value l.
Proof.
  induction l as [|m l IH] using rev_ind; [unfold nibbles_value; simpl; lia|].
  change (n :: l ++ [m]) with ((n :: l) ++ [m]). rewrite !nibbles_value_snoc, len_snoc, Z.pow_add_r, Z.pow_1_r by lia.
  rewrite IH. lia.
Qed.

Lemma nibble_at l i : Nibbles l -> 0 <= i < len l ->
  l !! Z.to_nat (len l - 1 - i) = Some ((nibbles_value l / 16 ^ i) mod 16).
Proof.
  revert i. induction l as [|n l IH] using rev_ind; [simpl; lia|]. intros i [Hl Hn]%Forall_app Hi.
  apply List.Forall_inv in Hn. rewrite len_snoc in *. rewrite nibbles_value_snoc.
  destruct (Z.eq_dec i 0) as [-> |Hne].
  - rewrite lookup_app_r by lia. replace (_ - _)%nat with 0%nat by lia. simpl. f_equal.
    rewrite Z.pow_0_r, Z.div_1_r, Z.add_comm, Z.mul_comm, Z.mod_add, Z.mod_small; lia.
  - rewrite lookup_app_l by lia. replace (len l + 1 - 1 - i) with (len l - 1 - (i - 1)) by lia.
    rewrite IH by (try done; lia). do 2 f_equal.
    replace i with (1 + (i - 1)) at 2 by lia. rewrite Z.pow_add_r, <-Z.div_div by lia. f_equal.
    rewrite Z.pow_1_r, Z.mul_comm, Z.div_add_l, Z.div_small; lia.
Qed.

Lemma lor_add a b n : 0 <= n -> 0 <= b < 2 ^ n -> Z.lor (Z.shiftl a n) b = a * 2 ^ n + b.
Proof.
  intros Hn Hb. assert (Hl : Z.land (Z.shiftl a n) b = 0).
  { apply Z.bits_inj'. intros i Hi. rewrite Z.land_spec, Z.bits_0.
    destruct (Z.lt_ge_cases i n); [rewrite Z.shiftl_spec_low; auto|].
    rewrite <-(Z.mod_small b (2 ^ n)), Z.mod_pow2_bits_high by lia. apply andb_false_r. }
  rewrite <-Z.lxor_lor, <-Z.add_nocarry_lxor, Z.shiftl_mul_pow2; auto.
Qed.

Lemma shl64_small x n : 0 <= n -> 0 <= x * 2 ^ n < 2 ^ 64 -> shl64 x n = Z.shiftl x n.
Proof. intros Hn Hx. unfold shl64. rewrite Z.mod_small; [done|]. by rewrite Z.shiftl_mul_pow2. Qed.

Lemma land_1 n : Z.land n 1 = Z.b2z (Z.testbit n 0).
Proof. change 1 with (Z.ones 1). rewrite Z.land_ones by lia. by rewrite Z.bit0_mod. Qed.

Lemma get_bit_spec l p : Nibbles l -> 0 <= p -> get_bit l p = Done (Z.b2z (Z.testbit (nibbles_value l) p)).
Proof.
  intros Hl Hp. unfold get_bit. pose proof (nibbles_value_bound l Hl) as Hv.
  destruct (Z.leb_spec (len l * 4) p) as [Hge|Hlt]; simpl.
  - rewrite <-(Z.mod_small (nibbles_value l) (2 ^ p)), Z.mod_pow2_bits_high; [done|lia|].
    split; [lia|]. eapply Z.lt_le_trans; [apply Hv|]. rewrite pow16 by lia. apply Z.pow_le_mono_r; lia.
  - destruct (Z.eqb_spec (len l) 0); [lia|].
    pose proof (Z.mod_pos_bound p 4). pose proof (Z.div_mod p 4).
    unfold idx. rewrite nibble_at by (try done; lia). simpl. f_equal. rewrite land_1, Z.shiftr_spec by lia.
    f_equal. rewrite Z.add_0_l, (Z.mod_pow2_bits_low _ 4) by lia.
    rewrite pow16, Z.div_pow2_bits by lia. f_equal. lia.
Qed.

(** The body of the loops that collect bits. *)
Definition push_bit (l : list Z) (q p : Z) : run Z := bit ← get_bit l p; Done (Z.lor (shl64 q 1) bit).

Lemma push_bit_spec l q p : Nibbles l -> 0 <= p -> 0 <= q -> 2 * q + 2 <= 2 ^ 64 ->
  push_bit l q p = Done (q * 2 + Z.b2z (Z.testbit (nibbles_value l) p)).
Proof.
  intros Hl Hp Hq Hb. unfold push_bit. rewrite get_bit_spec by done. simpl. set (bit := Z.testbit _ _).
  assert (0 <= Z.b2z bit < 2) by (destruct bit; simpl; lia). rewrite shl64_small, lor_add; auto; lia.
Qed.

(** The positions [lo + c - 1] down to [lo]. *)
Fixpoint descending (lo : Z) (c : nat) : list Z :=
  match c with O => [] | S c => (lo + Z.of_nat c) :: descending lo c end.

Lemma collect_bits l lo c a : Nibbles l -> 0 <= lo -> 0 <= a -> (a + 1) * 2 ^ Z.of_nat c <= 2 ^ 64 ->
  for_each (push_bit l) (descending lo c) a =
  Done (a * 2 ^ Z.of_nat c + (nibbles_value l / 2 ^ lo) mod 2 ^ Z.of_nat c).
Proof.
  intros Hl Hlo. revert a. induction c as [|c IH]; intros a Ha Hb.
  { simpl. f_equal. rewrite Z.pow_0_r, Z.mod_1_r. lia. }
  assert (Hc : 2 ^ Z.of_nat (S c) = 2 * 2 ^ Z.of_nat c) by (rewrite Nat2Z.inj_succ, Z.pow_succ_r; lia).
  simpl descending. simpl for_each. rewrite push_bit_spec by (try done; nia). simpl.
  set (bit := Z.testbit (nibbles_value l) (lo + Z.of_nat c)).
  assert (0 <= Z.b2z bit < 2) by (destruct bit; simpl; lia).
  rewrite IH by nia. f_equal. rewrite Hc.
  assert (Hm : (nibbles_value l / 2 ^ lo) mod (2 * 2 ^ Z.of_nat c) =
               Z.b2z bit * 2 ^ Z.of_nat c + (nibbles_value l / 2 ^ lo) mod 2 ^ Z.of_nat c).
  { rewrite (Z.mul_comm 2), Z.rem_mul_r by lia. rewrite <-Z.bit0_mod, Z.div_pow2_bits by lia.
    rewrite Z.div_pow2_bits by lia. unfold bit. rewrite (Z.add_comm (0 + _)), Z.add_0_l. lia. }
  rewrite Hm. lia.
Qed.

Lemma for_each_map {A B S} (F : S -> B -> run S) (g : A -> B) (l : list A) s :
  for_each (fun s x => F s (g x)) l s = for_each F (g <$> l) s.
Proof. revert s. induction l as [|x l IH]; intros s; [done|]. simpl. destruct (F s (g x)); simpl; auto. Qed.

Lemma descending_spec lo c : descending lo c = (fun i => lo + Z.of_nat c - 1 - i) <$> seqZ 0 (Z.of_nat c).
Proof.
  induction c as [|c IH]; [done|]. rewrite Nat2Z.inj_succ, seqZ_cons, Z.pred_succ by lia.
  rewrite fmap_cons. simpl descending. rewrite IH. change (Z.succ 0) with (1 + 0).
  rewrite <-(fmap_add_seqZ 1 0), <-list_fmap_compose. f_equal; [lia|].
  apply list_fmap_ext. intros i x _. simpl. lia.
Qed.

Lemma descending_reverse lo c : (fun i => lo + i) <$> reverse (seqZ 0 (Z.of_nat c)) = descending lo c.
Proof.
  induction c as [|c IH]; [done|]. rewrite Nat2Z.inj_succ, <-Z.add_1_r, seqZ_app, reverse_app by lia. simpl.
  rewrite <-IH. done.
Qed.

Lemma extract_msb_bits_spec l bit_len count :
  Nibbles l -> 0 <= count <= 64 -> count <= bit_len -> nibbles_value l < 2 ^ bit_len ->
  extract_msb_bits l bit_len count = Done (nibbles_value l / 2 ^ (bit_len - count)).
Proof.
  intros Hl Hc Hb Hv. unfold extract_msb_bits. rewrite Z.min_l by done.
  rewrite (for_each_map (push_bit l) (fun i => bit_len - 1 - i)).
  pose proof (nibbles_value_bound l Hl).
  replace (seqZ 0 count) with (seqZ 0 (Z.of_nat (Z.to_nat count))) by (f_equal; lia).
  assert (Hg : forall i, bit_len - 1 - i = bit_len - count + Z.of_nat (Z.to_nat count) - 1 - i) by lia.
  rewrite (list_fmap_ext _ (fun i => bit_len - count + Z.of_nat (Z.to_nat count) - 1 - i)) by (intros; apply Hg).
  rewrite <-descending_spec, collect_bits; try done; try lia.
  - f_equal. rewrite Z2Nat.id by lia. rewrite Z.mod_small; [lia|]. split; [apply Z.div_pos; lia|].
    apply Z.div_lt_upper_bound; [lia|]. rewrite <-Z.pow_add_r, Z.sub_add; lia.
  - rewrite Z2Nat.id by lia. rewrite Z.mul_1_l. apply Z.pow_le_mono_r; lia.
Qed.

Lemma low_nibbles_nonzero_spec l s k : Nibbles l -> 0 <= s -> 0 <= k -> s + k <= len l ->
  low_nibbles_nonzero l (seqZ s k) = Done (negb ((nibbles_value l / 16 ^ s) mod 16 ^ k =? 0)).
Proof.
  intros Hl Hs Hk. revert s Hs. pattern k. apply natlike_ind; [| |done]; clear k Hk.
  { intros s Hs Hb. by rewrite Z.mod_1_r. }
  intros k Hk IH s Hs Hb. rewrite seqZ_cons, Z.pred_succ by lia. simpl.
  unfold idx. rewrite nibble_at by (try done; lia). simpl.
  set (v := nibbles_value l) in *.
  assert (Hm : (v / 16 ^ s) mod 16 ^ Z.succ k = (v / 16 ^ s) mod 16 + 16 * ((v / 16 ^ Z.succ s) mod 16 ^ k)).
  { rewrite !Z.pow_succ_r, Z.rem_mul_r by lia. rewrite Z.div_div, (Z.mul_comm (16 ^ s)) by lia. done. }
  pose proof (Z.mod_pos_bound (v / 16 ^ s) 16 ltac:(lia)).
  pose proof (Z.mod_pos_bound (v / 16 ^ Z.succ s) (16 ^ k) ltac:(lia)).
  destruct (Z.eqb_spec ((v / 16 ^ s) mod 16) 0) as [Hz|Hz].
  - rewrite IH by lia. do 2 f_equal. rewrite Hm, Hz.
    destruct (Z.eqb_spec ((v / 16 ^ Z.succ s) mod 16 ^ k) 0), (Z.eqb_spec (0 + 16 * ((v / 16 ^ Z.succ s) mod 16 ^ k)) 0); lia.
  - f_equal. rewrite Hm. destruct (Z.eqb_spec ((v / 16 ^ s) mod 16 + 16 * ((v / 16 ^ Z.succ s) mod 16 ^ k)) 0); [lia|done].
Qed.

Lemma low_bits_nonzero_spec l c : Nibbles l -> 0 <= c ->
  low_bits_nonzero l c = Done (negb (nibbles_value l mod 2 ^ c =? 0)).
Proof.
  intros Hl Hc. pose proof (nibbles_value_bound l Hl) as Hv. unfold low_bits_nonzero.
  destruct (Z.eqb_spec c 0) as [-> |Hnz]; [by rewrite Z.mod_1_r|].
  destruct (Z.eqb_spec (len l) 0) as [He|Hne].
  { destruct l; [|simpl in He; lia]. by rewrite Z.mod_0_l by lia. }
  assert (Hmin : nibbles_value l mod 2 ^ Z.min c (len l * 4) = nibbles_value l mod 2 ^ c).
  { destruct (Z.le_gt_cases c (len l * 4)); [by rewrite Z.min_l|]. rewrite Z.min_r by lia.
    rewrite pow16 in Hv by lia. rewrite !Z.mod_small; [done| |by rewrite Z.mul_comm].
    split; [lia|]. eapply Z.lt_trans; [apply Hv|]. apply Z.pow_lt_mono_r; lia. }
  rewrite <-Hmin. assert (Hr : 0 < Z.min c (len l * 4) <= len l * 4) by lia.
  revert Hr. generalize (Z.min c (len l * 4)). clear c Hc Hnz Hmin. intros c Hc.
  pose proof (Z.mod_pos_bound c 4 ltac:(lia)). pose proof (Z.div_mod c 4 ltac:(lia)) as Hdm.
  assert (0 <= c / 4) by (apply Z.div_pos; lia).
  rewrite low_nibbles_nonzero_spec by (try done; lia). simpl. rewrite Z.pow_0_r, Z.div_1_r.
  set (v := nibbles_value l) in *. set (k := c / 4) in *. set (r := c mod 4) in *.
  assert (Hm : v mod 2 ^ c = v mod 16 ^ k + 16 ^ k * ((v / 16 ^ k) mod 2 ^ r)).
  { rewrite Hdm, Z.pow_add_r, <-pow16, Z.rem_mul_r by lia. done. }
  pose proof (Z.mod_pos_bound v (16 ^ k) ltac:(lia)).
  pose proof (Z.mod_pos_bound (v / 16 ^ k) (2 ^ r) ltac:(lia)).
  destruct (Z.eqb_spec (v mod 16 ^ k) 0) as [Hz|Hz]; simpl.
  - destruct (Z.ltb_spec 0 r) as [Hr|Hr].
    + rewrite Z.max_r by lia. destruct (Z.ltb_spec (len l - (1 + k)) (len l)); [|lia].
      unfold idx. replace (len l - (1 + k)) with (len l - 1 - k) by lia.
      rewrite nibble_at by (try done; lia). fold v. simpl. do 2 f_equal. rewrite Z.shiftl_1_l.
      replace (2 ^ r - 1) with (Z.ones r) by (rewrite Z.ones_equiv; lia). rewrite Z.land_ones by lia.
      replace (((v / 16 ^ k) mod 16) mod 2 ^ r) with ((v / 16 ^ k) mod 2 ^ r).
      * rewrite Hm, Hz.
        destruct (Z.eqb_spec ((v / 16 ^ k) mod 2 ^ r) 0) as [E|E], (Z.eqb_spec (0 + 16 ^ k * ((v / 16 ^ k) mod 2 ^ r)) 0) as [E'|E']; try done; nia.
      * apply Znumtheory.Zmod_div_mod; [lia|lia|]. exists (2 ^ (4 - r)). rewrite <-Z.pow_add_r, Z.sub_add by lia. done.
    + assert (Hr0 : r = 0) by lia. rewrite Hm, Hz, Hr0, Z.pow_0_r, Z.mod_1_r, Z.mul_0_r. done.
  - rewrite Hm. f_equal. destruct (Z.eqb_spec (v mod 16 ^ k + 16 ^ k * ((v / 16 ^ k) mod 2 ^ r)) 0); [nia|done].
Qed.

Lemma nibbles_u64_spec l : Nibbles l -> nibbles_value l < 2 ^ 64 -> nibbles_u64 l = nibbles_value l.
Proof.
  induction l as [|n l IH] using rev_ind; [done|]. intros [Hl Hn]%Forall_app Hv.
  apply List.Forall_inv in Hn. pose proof (nibbles_value_bound l Hl). rewrite nibbles_value_snoc in *.
  unfold nibbles_u64. rewrite foldl_app. simpl. fold (nibbles_u64 l). rewrite IH by (try done; lia).
  rewrite shl64_small, lor_add; lia.
Qed.

Lemma trim_value l : nibbles_value (trim_leading_zero_nibbles l) = nibbles_value l.
Proof.
  induction l as [|n l IH]; [done|]. simpl. destruct (Z.eqb_spec n 0) as [-> |]; [|done].
  rewrite IH, nibbles_value_cons. lia.
Qed.

Lemma trim_Nibbles l : Nibbles l -> Nibbles (trim_leading_zero_nibbles l).
Proof. unfold Nibbles. induction 1; simpl; [constructor|]. case_match; [done|]. by constructor. Qed.

Lemma trim_head l n rest : trim_leading_zero_nibbles l = n :: rest -> n <> 0.
Proof. induction l as [|m l IH]; simpl; [done|]. destruct (Z.eqb_spec m 0); [done|]. by intros [= -> _]. Qed.

Lemma bit_len_nibbles_spec l : Nibbles l ->
  match bit_len_nibbles l with
  | Some bl => 1 <= bl <= 4 * len l /\ 2 ^ (bl - 1) <= nibbles_value l < 2 ^ bl
  | None => nibbles_value l = 0
  end.
Proof.
  intros Hl. rewrite <-(trim_value l). unfold bit_len_nibbles. apply trim_Nibbles in Hl as Ht.
  assert (Hlen : len (trim_leading_zero_nibbles l) <= len l).
  { clear. induction l as [|n l IH]; simpl; [lia|]. case_match; simpl; lia. }
  destruct (trim_leading_zero_nibbles l) as [|n rest] eqn:Htrim; [done|]. apply trim_head in Htrim.
  apply Forall_cons in Ht as [Hn Hrest]. apply nibbles_value_bound in Hrest. unfold leading_zeros_u8.
  destruct (Z.eqb_spec n 0); [lia|]. rewrite nibbles_value_cons.
  destruct (Z.log2_spec n ltac:(lia)) as [H1 H2]. pose proof (Z.log2_nonneg n).
  assert (Z.log2 n < 4) by (apply Z.log2_lt_pow2; lia). simpl length in *. rewrite Nat2Z.inj_succ in *.
  rewrite pow16 in * by lia. set (m := len rest) in *.
  replace (Z.succ m * 4 - Z.max 0 (7 - Z.log2 n - 4)) with (Z.succ (Z.log2 n) + 4 * m) by lia.
  split; [lia|]. replace (Z.succ (Z.log2 n) + 4 * m - 1) with (Z.log2 n + 4 * m) by lia.
  rewrite !Z.pow_add_r by lia. nia.
Qed.

(** ** The code computes the reference *)

(** [v * 2^s] to the nearest integer. *)
Definition shift_round (v s : Z) : Z := if 0 <=? s then v * 2 ^ s else rne v (2 ^ (- s)).

Lemma rne_scale a b c : 0 < b -> 0 < c -> rne (a * c) (b * c) = rne a b.
Proof.
  intros Hb Hc. unfold rne. rewrite Z.div_mul_cancel_r, Z.mul_mod_distr_r by lia.
  destruct (Z.ltb_spec (2 * (a mod b * c)) (b * c)), (Z.ltb_spec (2 * (a mod b)) b); try nia.
  destruct (Z.ltb_spec (b * c) (2 * (a mod b * c))), (Z.ltb_spec b (2 * (a mod b))); nia.
Qed.

Lemma rne_exact a b : 0 < b -> rne (a * b) b = a.
Proof. intros Hb. unfold rne. rewrite Z.mod_mul, Z.div_mul by lia. destruct (Z.ltb_spec (2 * 0) b); lia. Qed.

(** The comparisons of [rne] on the bits. *)
Lemma rne_bits v s : 0 <= v -> 0 < s ->
  rne v (2 ^ s) =
  v / 2 ^ s + Z.b2z (Z.testbit v (s - 1) && (negb (v mod 2 ^ (s - 1) =? 0) || Z.odd (v / 2 ^ s))).
Proof.
  intros Hv Hs. unfold rne. set (h := 2 ^ (s - 1)). assert (0 < h) by (unfold h; lia).
  assert (H2 : 2 ^ s = h * 2) by (unfold h; rewrite Z.mul_comm, <-Z.pow_succ_r by lia; f_equal; lia).
  assert (Hg : (v / h) mod 2 = Z.b2z (Z.testbit v (s - 1))).
  { unfold h. by rewrite <-Z.bit0_mod, Z.div_pow2_bits by lia. }
  rewrite H2, (Z.rem_mul_r v), Hg by lia.
  pose proof (Z.mod_pos_bound v h ltac:(lia)). set (g := Z.testbit v (s - 1)).
  assert (Ho : (v / (h * 2)) mod 2 = Z.b2z (Z.odd (v / (h * 2)))) by apply Zmod_odd.
  destruct (Z.eqb_spec (v mod h) 0) as [Hz|Hz]; destruct g; simpl Z.b2z; simpl andb;
    destruct (Z.ltb_spec (2 * (v mod h + h * 1)) (h * 2)), (Z.ltb_spec (2 * (v mod h + h * 0)) (h * 2));
    try lia; destruct (Z.ltb_spec (h * 2) (2 * (v mod h + h * 1))); simpl; lia.
Qed.

Section Binary.
Context (params : FloatParams).
Local Notation f := (format params).
Local Notation P := (2 ^ frac_bits f).

Context (v bl x : Z) (Hbl : 1 <= bl) (Hv : 2 ^ (bl - 1) <= v < 2 ^ bl).
Local Notation e := (x + bl - 1).
Local Notation q := (Z.max 0 (e - min_exp f)).

Lemma log2_v : Z.log2 v = bl - 1.
Proof. apply Z.log2_unique; [lia|]. by replace (Z.succ (bl - 1)) with bl by lia. Qed.

Lemma round_ratio_binary :
  round_ratio f (scale_num v x) (scale_den x) =
  Z.min (inf_pattern f) (q * P + shift_round v (x - min_unit f - q)).
Proof.
  destruct (format_ok params) as (Hf & Hu & _). unfold round_ratio, scale_num, scale_den.
  set (k := x - min_unit f). set (d := 2 ^ Z.max 0 (- x)). assert (0 < d) by (unfold d; lia).
  assert (0 < v) by lia.
  assert (Hr : forall j, 0 <= j -> 0 <= k - j ->
    v * 2 ^ Z.max 0 x * 2 ^ (- min_unit f) = v * 2 ^ (k - j) * (d * 2 ^ j)).
  { intros j Hj Hk. unfold d. rewrite <-!Z.mul_assoc, <-!Z.pow_add_r by lia. do 2 f_equal. lia. }
  assert (Hl : forall j, 0 <= j -> k - j < 0 ->
    v * 2 ^ Z.max 0 x * 2 ^ (- min_unit f) = v * 2 ^ (Z.max 0 x - min_unit f) /\
    d * 2 ^ j = 2 ^ (- (k - j)) * 2 ^ (Z.max 0 x - min_unit f)).
  { intros j Hj Hk. unfold d. split; rewrite <-?Z.mul_assoc, <-!Z.pow_add_r by lia; [f_equal|]; f_equal; lia. }
  assert (Ht : v * 2 ^ Z.max 0 x * 2 ^ (- min_unit f) / d = Z.shiftr v (- k)).
  { destruct (Z.le_gt_cases 0 k) as [Hk|Hk].
    - rewrite (Hr 0), Z.pow_0_r, Z.mul_1_r, Z.div_mul, Z.shiftr_opp_r, Z.shiftl_mul_pow2 by lia. do 2 f_equal. lia.
    - destruct (Hl 0 ltac:(lia) ltac:(lia)) as [-> Hd]. rewrite Z.pow_0_r, Z.mul_1_r in Hd. rewrite Hd.
      rewrite Z.div_mul_cancel_r, Z.shiftr_div_pow2 by lia. do 2 f_equal. lia. }
  rewrite Ht, Z.log2_shiftr, log2_v by lia.
  replace (Z.max 0 (Z.max 0 (bl - 1 - - k) - frac_bits f)) with q by (unfold k, min_unit; lia).
  f_equal. f_equal. unfold shift_round. destruct (Z.leb_spec 0 (k - q)) as [Hk|Hk].
  - rewrite (Hr q) by lia. apply rne_exact. nia.
  - destruct (Hl q ltac:(lia) Hk) as [-> ->]. apply rne_scale; lia.
Qed.

(** A normal number has the leading bit of its mantissa set. *)
Lemma normal_mantissa :
  let r := shift_round v (frac_bits f + 1 - bl) in
  P <= r <= 2 * P /\ (bl <= frac_bits f + 1 -> r < 2 * P).
Proof.
  destruct (format_ok params) as (Hf & _). unfold shift_round.
  assert (HP : 2 * P = 2 ^ (frac_bits f + 1)) by (rewrite Z.add_1_r, Z.pow_succ_r; lia).
  destruct (Z.leb_spec 0 (frac_bits f + 1 - bl)) as [Hs|Hs].
  - assert (H1 : 2 ^ (bl - 1) * 2 ^ (frac_bits f + 1 - bl) = P) by (rewrite <-Z.pow_add_r by lia; f_equal; lia).
    assert (H2 : 2 ^ bl * 2 ^ (frac_bits f + 1 - bl) = 2 * P) by (rewrite HP, <-Z.pow_add_r by lia; f_equal; lia).
    nia.
  - set (s := - (frac_bits f + 1 - bl)). assert (0 < s) by (unfold s; lia).
    assert (H1 : 2 ^ (bl - 1) = P * 2 ^ s) by (rewrite <-Z.pow_add_r by lia; f_equal; lia).
    assert (H2 : 2 ^ bl = 2 ^ s * (2 * P)) by (rewrite HP, <-Z.pow_add_r by lia; f_equal; lia).
    assert (P <= v / 2 ^ s) by (apply Z.div_le_lower_bound; lia).
    assert (v / 2 ^ s < 2 * P) by (apply Z.div_lt_upper_bound; lia).
    destruct (rne_cases v (2 ^ s)) as [(-> & _)|(-> & _)]; lia.
Qed.

Lemma infinity_bits_spec : infinity_bits f = inf_pattern f.
Proof. destruct params; reflexivity. Qed.

(** The end of the normal case. *)
Lemma assemble r e' : P <= r < 2 * P -> min_exp f <= e' <= max_exp f ->
  Z.lor (shl64 (e' + exp_bias f) (frac_bits f)) (Z.land r (Z.shiftl 1 (frac_bits f) - 1)) =
  (e' - min_exp f) * P + r.
Proof.
  intros Hr He. destruct (format_ok params) as (Hf & _ & _ & Hb & _ & Hm).
  assert (H64 : 2 ^ (63 - frac_bits f) * P = 2 ^ 63) by (rewrite <-Z.pow_add_r by lia; f_equal; lia).
  rewrite Z.shiftl_1_l. replace (P - 1) with (Z.ones (frac_bits f)) by (rewrite Z.ones_equiv; lia).
  rewrite Z.land_ones by lia. replace (r mod P) with (r - P).
  - rewrite shl64_small, lor_add by nia. nia.
  - symmetry. rewrite <-(Z.mod_small (r - P) P) by lia. replace r with (r - P + 1 * P) at 1 by lia. apply Z.mod_add. lia.
Qed.

Context (l : list Z) (Hl : Nibbles l) (Hval : nibbles_value l = v).

Lemma guard_sticky s : 0 < s ->
  get_bit l (s - 1) = Done (Z.b2z (Z.testbit v (s - 1))) /\
  low_bits_nonzero l (s - 1) = Done (negb (v mod 2 ^ (s - 1) =? 0)).
Proof. intros Hs. rewrite get_bit_spec, low_bits_nonzero_spec, Hval by (try done; lia). done. Qed.

(** The condition under which the code rounds up. *)
Lemma round_up_cond (g st : bool) r : ((Z.b2z g =? 1) && (st || (Z.land r 1 =? 1))) = g && (st || Z.odd r).
Proof. rewrite land_1, Z.bit0_odd. by destruct g, st, (Z.odd r). Qed.

Lemma normal_bits_spec : min_exp f <= e <= max_exp f ->
  normal_bits f l bl e = Done ((e - min_exp f) * P + shift_round v (frac_bits f + 1 - bl)).
Proof.
  intros He. destruct (format_ok params) as (Hf & _ & _ & Hb & Hmm & Hm).
  assert (HP : 2 ^ (frac_bits f + 1) = 2 * P) by (rewrite Z.add_1_r, Z.pow_succ_r; lia).
  destruct normal_mantissa as [Hr Hr']. unfold normal_bits, shift_round in *.
  destruct (Z.ltb_spec (frac_bits f + 1) bl) as [Hs|Hs].
  - destruct (Z.leb_spec 0 (frac_bits f + 1 - bl)); [lia|].
    replace (- (frac_bits f + 1 - bl)) with (bl - (frac_bits f + 1)) in * by lia.
    set (s := bl - (frac_bits f + 1)) in *. assert (0 < s) by (unfold s; lia).
    rewrite extract_msb_bits_spec, Hval by (try done; lia). fold s. simpl.
    destruct (guard_sticky s) as [-> ->]; [done|]. simpl. rewrite round_up_cond.
    rewrite rne_bits in * by lia. destruct (Z.testbit v (s - 1) && _); simpl in *.
    + rewrite Z.shiftl_1_l, HP. destruct (Z.eqb_spec (v / 2 ^ s + 1) (2 * P)) as [Hc|Hc].
      * rewrite Hc, Z.shiftr_div_pow2, Z.pow_1_r, Z.mul_comm, Z.div_mul by lia.
        unfold saturating_add, clamp_i64. assert (I64_MIN < - 2 ^ 20 /\ 2 ^ 20 < I64_MAX) by done. rewrite Z.min_r, Z.max_r by lia.
        destruct (Z.ltb_spec (max_exp f) (e + 1)).
        -- f_equal. rewrite infinity_bits_spec. unfold inf_pattern. rewrite Hb. nia.
        -- f_equal. rewrite assemble by lia. lia.
      * f_equal. apply assemble; lia.
    + assert (v / 2 ^ s < 2 * P).
      { apply Z.div_lt_upper_bound; [lia|]. rewrite <-HP, <-Z.pow_add_r by lia.
        unfold s. rewrite Z.sub_add. apply Hv. }
      f_equal. rewrite assemble by lia. lia.
  - destruct (Z.leb_spec 0 (frac_bits f + 1 - bl)); [|lia]. f_equal.
    assert (v < 2 ^ 64) by (eapply Z.lt_le_trans; [apply Hv|]; apply Z.pow_le_mono_r; lia).
    assert (2 * P <= 2 ^ 64) by (rewrite <-HP; apply Z.pow_le_mono_r; lia).
    rewrite nibbles_u64_spec, Hval by (rewrite ?Hval; done).
    rewrite (shl64_small v), (Z.shiftl_mul_pow2 v) by lia. apply assemble; lia.
Qed.

Lemma subnormal_fraction_spec : I64_MIN <= x -> e < min_exp f ->
  subnormal_fraction f l bl x = Done (shift_round v (x - min_unit f)) /\
  0 <= shift_round v (x - min_unit f) <= P.
Proof.
  intros Hx He. destruct (format_ok params) as (Hf & Hu & _ & Hb & Hmm & Hm).
  assert (I64_MIN < - 2 ^ 62 /\ 2 ^ 62 < I64_MAX) by done.
  unfold subnormal_fraction, saturating_sub, saturating_add, clamp_i64, min_unit in *.
  rewrite (Z.min_r _ (frac_bits f - min_exp f)), (Z.max_r _ (frac_bits f - min_exp f)) by lia.
  replace (x + (frac_bits f - min_exp f)) with (x - (min_exp f - frac_bits f)) by lia.
  rewrite Z.min_r, Z.max_r by lia. set (k := x - (min_exp f - frac_bits f)).
  assert (Hk : bl + k <= frac_bits f) by lia. unfold shift_round.
  destruct (Z.leb_spec 0 k) as [Hk0|Hk0].
  - destruct (Z.leb_spec 64 k); [lia|].
    assert (Hp : 2 ^ bl * 2 ^ k <= P) by (rewrite <-Z.pow_add_r by lia; apply Z.pow_le_mono_r; lia).
    assert (P <= 2 ^ 64) by (apply Z.pow_le_mono_r; lia).
    assert (v < 2 ^ 64) by nia.
    rewrite nibbles_u64_spec, Hval by (rewrite ?Hval; done).
    rewrite shl64_small, Z.shiftl_mul_pow2 by nia. split; [done|nia].
  - set (s := - k). assert (0 < s) by (unfold s; lia).
    rewrite (Z.min_l (Z.max 0 (bl - s))) by lia. rewrite (for_each_map (push_bit l) (fun i => s + i)).
    set (c := Z.max 0 (bl - s)).
    assert (Hq : for_each (push_bit l) ((fun i => s + i) <$> reverse (seqZ 0 c)) 0 = Done (v / 2 ^ s)).
    { replace c with (Z.of_nat (Z.to_nat c)) by lia. rewrite descending_reverse, collect_bits; try done; try lia.
      - rewrite Z2Nat.id, Hval by lia. f_equal. rewrite Z.mod_small; [lia|]. split; [apply Z.div_pos; lia|].
        apply Z.div_lt_upper_bound; [lia|]. rewrite <-Z.pow_add_r by lia.
        eapply Z.lt_le_trans; [apply Hv|]. apply Z.pow_le_mono_r; lia.
      - rewrite Z2Nat.id, Z.mul_1_l by lia. apply Z.pow_le_mono_r; lia. }
    rewrite Hq. simpl. destruct (guard_sticky s) as [Hg Hs]; [done|].
    destruct (Z.eqb_spec s 0); [lia|]. rewrite Hg. simpl.
    replace (if s <=? 1 then Done false else low_bits_nonzero l (s - 1)) with
      (Done (negb (v mod 2 ^ (s - 1) =? 0))).
    2:{ rewrite Hs. destruct (Z.leb_spec s 1); [|done]. replace (s - 1) with 0 by lia. by rewrite Z.mod_1_r. }
    simpl. rewrite round_up_cond, rne_bits by lia.
    assert (Hp : v / 2 ^ s < P).
    { apply Z.div_lt_upper_bound; [lia|]. rewrite <-Z.pow_add_r by lia.
      eapply Z.lt_le_trans; [apply Hv|]. apply Z.pow_le_mono_r; lia. }
    assert (0 <= v / 2 ^ s) by (apply Z.div_pos; lia).
    assert (P <= 2 ^ 63) by (apply Z.pow_le_mono_r; lia).
    destruct (Z.testbit v (s - 1) && _); simpl Z.b2z; (split; [|lia]); f_equal; lia.
Qed.

Lemma binary_to_ieee_bits_reference : bl < 2 ^ 62 -> I64_MIN <= x <= I64_MAX ->
  binary_to_ieee_bits l bl x params = Done (round_ratio f (scale_num v x) (scale_den x)).
Proof.
  intros Hb62 Hx. destruct (format_ok params) as (Hf & Hu & _ & Hb & Hmm & Hm).
  assert (I64_MIN < - 2 ^ 20 /\ 2 ^ 20 + 2 ^ 62 < I64_MAX /\ I64_MIN = -2^63 /\ I64_MAX = 2^63 -1) by done.
  rewrite round_ratio_binary. destruct normal_mantissa as [Hr _].
  unfold binary_to_ieee_bits, saturating_sub, saturating_add, clamp_i64.
  set (e' := Z.max I64_MIN (Z.min I64_MAX (Z.max I64_MIN (Z.min I64_MAX (x + bl)) - 1))).
  assert (He' : max_exp f < e' <-> max_exp f < e) by (unfold e'; lia).
  assert (He : e <= max_exp f -> e' = e) by (unfold e'; lia). clearbody e'.
  destruct (Z.ltb_spec (max_exp f) e') as [Hlt|Hge].
  - f_equal. rewrite infinity_bits_spec. symmetry. apply Z.min_l. rewrite Z.max_r by lia.
    replace (x - min_unit f - (e - min_exp f)) with (frac_bits f + 1 - bl) by (unfold min_unit; lia).
    unfold inf_pattern. rewrite Hb. nia.
  - rewrite He by lia. destruct (Z.leb_spec (min_exp f) e) as [Hn|Hn].
    + rewrite normal_bits_spec by lia. rewrite Z.max_r by lia.
      replace (x - min_unit f - (e - min_exp f)) with (frac_bits f + 1 - bl) by (unfold min_unit; lia).
      f_equal. symmetry. apply Z.min_r. unfold inf_pattern. rewrite Hb. nia.
    + destruct subnormal_fraction_spec as [-> Hs]; [lia|lia|]. rewrite Z.max_l, Z.sub_0_r by lia. simpl.
      rewrite Z.shiftl_1_l. set (r := shift_round v (x - min_unit f)) in *.
      rewrite Z.min_r by (unfold inf_pattern; rewrite Hb; nia).
      destruct (Z.eqb_spec r 0); [f_equal; lia|]. destruct (Z.leb_spec P r); f_equal; lia.
Qed.
End Binary.

(** ** Rounding is a function of the number *)

Lemma nearest_even_unique params n d b1 b2 :
  0 < d -> nearest_even (format params) n d b1 -> nearest_even (format params) n d b2 -> b1 = b2.
Proof.
  destruct (format_ok params) as (Hf & _). set (f := format params) in *. intros Hd.
  assert (Hwlog : forall a b, a < b -> nearest_even f n d a -> nearest_even f n d b -> False).
  { intros a b Hab [Ha Na] [Hb Nb]. destruct (Na b Hb) as [H1 H1'], (Nb a Ha) as [H2 H2'].
    destruct (H1' ltac:(lia) ltac:(lia)) as [i Hi], (H2' ltac:(lia) ltac:(lia)) as [j Hj].
    destruct (Na (a + 1) ltac:(lia)) as [H3 _].
    pose proof (units_lt f ltac:(lia) a (a + 1) ltac:(lia)). pose proof (units_lt f ltac:(lia) (a + 1) b ltac:(lia)).
    unfold distance in *. set (u := n * _) in *.
    assert (units f a * d < units f (a + 1) * d < units f b * d) by nia. lia. }
  intros H1 H2. destruct (Z.lt_trichotomy b1 b2) as [?|[?|?]]; [|done|]; exfalso; eauto.
Qed.

Lemma scale_nonneg v x : 0 <= v -> 0 <= scale_num v x /\ 0 < scale_den x.
Proof. intros Hv. unfold scale_num, scale_den. split; [nia|lia]. Qed.

(** The conversion of a literal's nibbles rounds to nearest; it neither panics nor overflows. *)
Lemma binary_to_ieee_bits_nearest l bl x params :
  Nibbles l -> bit_len_nibbles l = Some bl -> len l < 2 ^ 60 -> I64_MIN <= x <= I64_MAX ->
  exists b, binary_to_ieee_bits l bl x params = Done b /\
    nearest_even (format params) (scale_num (nibbles_value l) x) (scale_den x) b.
Proof.
  intros Hl Hbl Hlen Hx. pose proof (bit_len_nibbles_spec l Hl) as Hs. rewrite Hbl in Hs.
  destruct Hs as [Hb Hv]. destruct (format_ok params) as (Hf & Hu & Hi & _).
  destruct (scale_nonneg (nibbles_value l) x); [apply nibbles_value_bound; done|].
  eexists. split; [eapply binary_to_ieee_bits_reference; eauto; lia|].
  apply round_ratio_nearest; lia.
Qed.

Lemma units_inf params :
  let f := format params in units f (inf_pattern f) = 2 ^ (max_exp f + 1 - min_unit f).
Proof. destruct params; reflexivity. Qed.

(** Numbers past the range round to infinity, numbers too small to zero. *)
Lemma nearest_huge params v x : 0 < v -> 2 ^ 20 <= x ->
  nearest_even (format params) (scale_num v x) (scale_den x) (inf_pattern (format params)).
Proof.
  intros Hv Hx. destruct (format_ok params) as (Hf & Hu & Hi & _ & Hmm & _).
  pose proof (units_inf params) as Hinf. simpl in Hinf. set (f := format params) in *.
  unfold scale_num, scale_den. rewrite (Z.max_r 0 x), (Z.max_l 0 (- x)) by lia. simpl.
  assert (Hle : 2 ^ (max_exp f + 1 - min_unit f) <= 2 ^ x * 2 ^ (- min_unit f)).
  { rewrite <-Z.pow_add_r by lia. apply Z.pow_le_mono_r; lia. }
  assert (Hu' : units f (inf_pattern f) * 1 <= v * 2 ^ x * 2 ^ (- min_unit f)) by (rewrite Hinf; nia).
  split; [lia|]. intros b' Hb'. unfold distance.
  destruct (Z.eq_dec b' (inf_pattern f)) as [-> |Hne]; [split; [lia|done]|].
  pose proof (units_lt f ltac:(lia) b' (inf_pattern f) ltac:(lia)). lia.
Qed.

Lemma nearest_tiny params v bl x : 0 <= v < 2 ^ bl -> 0 <= bl -> x <= - 2 ^ 21 - bl ->
  nearest_even (format params) (scale_num v x) (scale_den x) 0.
Proof.
  intros Hv Hbl Hx. destruct (format_ok params) as (Hf & Hu & Hi & _ & Hmm & _). set (f := format params) in *.
  unfold scale_num, scale_den. rewrite (Z.max_l 0 x), (Z.max_r 0 (- x)), Z.pow_0_r, Z.mul_1_r by lia.
  assert (Hu' : 2 ^ bl * 2 ^ (- min_unit f) * 2 <= 2 ^ (- x)).
  { rewrite <-Z.pow_add_r, Z.mul_comm, <-Z.pow_succ_r by lia. apply Z.pow_le_mono_r; unfold min_unit; lia. }
  assert (Hs : 0 <= v * 2 ^ (- min_unit f) * 2 <= 2 ^ (- x)) by nia.
  split; [lia|]. intros b' Hb'. unfold distance.
  assert (H0 : units f 0 = 0). { unfold units. destruct (Z.ltb_spec 0 (2 ^ frac_bits f)); lia. }
  rewrite H0. destruct (Z.eq_dec b' 0) as [-> |Hne]; [rewrite H0; split; [lia|done]|].
  pose proof (units_lt f ltac:(lia) 0 b' ltac:(lia)).
  split; [nia|]. intros _ _. by exists 0.
Qed.
