(* ===== verification/FloatLiterals.v ===== *)
(** * Floating-point literals (crates/nova-syntax/src/literals.rs)

    The parsers of [float] and [double] literals.  A float is its bits.  The conversion of a decimal
    number by the standard library ([str::parse], which rounds to nearest) is modelled by the
    reference [round_ratio] of FloatBits.v; hexadecimal literals go through the code of that
    file.  A text is its bytes, as in Literals.v. *)

From Stdlib Require Import ZArith Ascii String.
From stdpp Require Import base numbers strings option list.
From S2P Require Import Prelude Str Wire Literals FloatBits.

Local Open Scope N_scope.

(** ** Values *)

(** [FloatTarget]: the type of the literal. *)
Notation FloatTarget := FloatParams.

Inductive FloatValue := VF32 (bits : Z) | VF64 (bits : Z).

Definition value_of (target : FloatTarget) (bits : Z) : FloatValue :=
  match target with F32 => VF32 bits | F64 => VF64 bits end.

(** [as] between the two types, for the patterns of numbers that are not negative. *)
Definition cast (from to : FloatTarget) (bits : Z) : Z :=
  if (bits =? inf_pattern (format from))%Z then inf_pattern (format to)
  else round_ratio (format to) (units (format from) bits) (2 ^ (- min_unit (format from))).

(** [FromFloatTarget::from_target] for [f32] and [f64]. *)
Definition from_target (t : FloatTarget) (value : FloatValue) : Z :=
  match t, value with
  | F32, VF32 v => v
  | F32, VF64 v => cast F64 F32 v
  | F64, VF32 v => cast F32 F64 v
  | F64, VF64 v => v
  end.

(** [is_infinite], on the patterns of numbers that are not negative. *)
Definition is_infinite (t : FloatTarget) (bits : Z) : bool := (bits =? inf_pattern (format t))%Z.

(** ** Suffixes *)

(** [i > 0 && bytes[i - 1] == b'_']. *)
Definition underscore_before (bytes : list N) (i : nat) : lres bool :=
  if decide (0 < i)%nat then b <-- byte_at bytes (i - 1) ;; wok (is_underscore b) else wok false.

(** [i + 1 < end && bytes[i + 1] == b'_']. *)
Definition underscore_after (bytes : list N) (i end_ : nat) : lres bool :=
  if decide (i + 1 < end_)%nat then b <-- byte_at bytes (i + 1) ;; wok (is_underscore b) else wok false.

Definition split_float_suffix (bytes : list N) (target : FloatTarget) : lres (nat * bool) :=
  let last_idx := (length bytes - 1)%nat in
  last <-- byte_at bytes last_idx ;;
  let before_suffix (message : string) : lres (nat * bool) :=
    before <-- underscore_before bytes last_idx ;;
    if before : bool then err (lit message) (last_idx - 1) last_idx else wok (last_idx, true) in
  match target with
  | F32 =>
      if negb ((last =? chr "f") || (last =? chr "F")) then
        err (lit "Float literal must end with `f` suffix") last_idx (last_idx + 1)
      else before_suffix "Underscore is not allowed immediately before float suffix"%string
  | F64 =>
      if (last =? chr "f") || (last =? chr "F") then
        err (lit "Double literal must not use `f` suffix") last_idx (last_idx + 1)
      else if (last =? chr "d") || (last =? chr "D") then
        before_suffix "Underscore is not allowed immediately before double suffix"%string
      else wok (length bytes, false)
  end.

(** ** Decimal literals *)

Definition is_ascii_digit (b : N) : bool := between (chr "0") (chr "9") b.
Definition is_exp (b : N) : bool := (b =? chr "e") || (b =? chr "E").
Definition is_sign (b : N) : bool := (b =? chr "+") || (b =? chr "-").

(** The loop of [validate_decimal_floating]: the places of the point and of the exponent. *)
Fixpoint decimal_scan (bytes : list N) (i : nat) (dot_idx exp_idx : option nat) : lres (option nat * option nat) :=
  match bytes with
  | [] => wok (dot_idx, exp_idx)
  | x :: bytes =>
      if is_ascii_digit x || is_underscore x then decimal_scan bytes (S i) dot_idx exp_idx
      else if x =? chr "." then
        if is_some exp_idx then err (lit "Decimal point must appear before exponent") i (S i)
        else if is_some dot_idx then err (lit "Multiple decimal points in literal") i (S i)
        else decimal_scan bytes (S i) (Some i) exp_idx
      else if is_exp x then
        if is_some exp_idx then err (lit "Multiple exponents in literal") i (S i)
        else decimal_scan bytes (S i) dot_idx (Some i)
      else if is_sign x then
        if decide (exp_idx ≫= (fun e => if decide (i = e + 1)%nat then Some () else None) = Some ()) then
          decimal_scan bytes (S i) dot_idx exp_idx
        else err (lit "Sign is only allowed immediately after exponent indicator") i (S i)
      else err (lit "Invalid character `" ++ [x] ++ lit "` in floating literal") i (S i)
  end.

(** The characters next to the point. *)
Definition check_dot (bytes : list N) (d : nat) : lres () :=
  let message := lit "Underscore is not allowed adjacent to decimal point" in
  before <-- underscore_before bytes d ;;
  if before : bool then err message (d - 1) d
  else
    after <-- underscore_after bytes d (length bytes) ;;
    if after : bool then err message (d + 1) (d + 2) else wok ().

(** The characters next to the exponent indicator. *)
Definition check_exp (bytes : list N) (e : nat) : lres () :=
  let message := lit "Underscore is not allowed adjacent to exponent indicator" in
  before <-- underscore_before bytes e ;;
  if before : bool then err message (e - 1) e
  else if decide (length bytes <= e + 1)%nat then err (lit "Missing exponent digits") e (e + 1)
  else
    next <-- byte_at bytes (e + 1) ;;
    if is_underscore next then err message (e + 1) (e + 2)
    else if is_sign next then
      if decide (length bytes <= e + 2)%nat then err (lit "Missing exponent digits") e (e + 1)
      else
        next2 <-- byte_at bytes (e + 2) ;;
        if is_underscore next2 then err (lit "Underscore is not allowed adjacent to exponent sign") (e + 2) (e + 3)
        else wok ()
    else wok ().

(** [bytes[a..b].iter().any(|b| b.is_ascii_digit())]. *)
Definition any_digit (bytes : list N) (a b : nat) : lres bool :=
  if decide (a <= b <= length bytes)%nat then wok (existsb is_ascii_digit (drop a (take b bytes))) else Panic.

(** Whether there is a digit left or right of the point. *)
Definition significand_has_digit (bytes : list N) (dot_idx : option nat) (sig_end : nat) : lres bool :=
  match dot_idx with
  | Some d =>
      left_has_digit <-- any_digit bytes 0 d ;;
      right_has_digit <-- any_digit bytes (d + 1) sig_end ;;
      wok (left_has_digit || right_has_digit)
  | None => any_digit bytes 0 sig_end
  end.

(** Whether there is a digit after the exponent indicator and its sign, if there is an exponent. *)
Definition exponent_has_digit (bytes : list N) (exp_idx : option nat) : lres bool :=
  match exp_idx with
  | Some e =>
      let exp_start := (e + 1)%nat in
      let exp_start :=
        match bytes !! exp_start with
        | Some x => if is_sign x then (exp_start + 1)%nat else exp_start
        | None => exp_start
        end in
      any_digit bytes exp_start (length bytes)
  | None => wok true
  end.

Definition validate_decimal_floating (bytes : list N) (had_suffix : bool) : lres () :=
  if decide (head bytes = Some (chr "_")) then err (lit "Leading underscore is not allowed in numeric literal") 0 1
  else if decide (last bytes = Some (chr "_")) then
    err (lit "Trailing underscore is not allowed in numeric literal") (length bytes - 1) (length bytes)
  else
    '(dot_idx, exp_idx) <-- decimal_scan bytes 0 None None ;;
    _ <-- (match dot_idx with Some d => check_dot bytes d | None => wok () end) ;;
    _ <-- (match exp_idx with Some e => check_exp bytes e | None => wok () end) ;;
    let sig_end := default (length bytes) exp_idx in
    has_digit <-- significand_has_digit bytes dot_idx sig_end ;;
    if negb has_digit then err (lit "Missing digits in literal") 0 sig_end
    else
      exp_ok <-- exponent_has_digit bytes exp_idx ;;
      if negb exp_ok then
        match exp_idx with
        | Some e => err (lit "Missing exponent digits") e (e + 1)
        | None => wok ()
        end
      else if negb had_suffix && negb (is_some dot_idx) && negb (is_some exp_idx) then
        err (lit "Floating literal without suffix must contain a decimal point or exponent") 0 (length bytes)
      else wok ().

(** *** [str::parse] of the standard library

    For texts of digits, a point and an exponent; other texts, which the code does not pass on,
    are refused. *)

Definition decimal (ds : list N) : N := foldl (fun v b => v * 10 + (b - chr "0")) 0 ds.

Definition split_on (p : N -> bool) (bytes : list N) : list N * option (list N) :=
  match list_find (fun b => p b = true) bytes with
  | Some (i, _) => (take i bytes, Some (drop (S i) bytes))
  | None => (bytes, None)
  end.

(** [-?digits] as an integer. *)
Definition parse_exponent (bytes : list N) : option Z :=
  let '(sign, ds) :=
    match bytes with
    | x :: rest => if x =? chr "-" then (-1, rest)%Z else if x =? chr "+" then (1, rest)%Z else (1, bytes)%Z
    | [] => (1, [])%Z
    end in
  if forallb is_ascii_digit ds && negb (bool_decide (ds = [])) then Some (sign * Z.of_N (decimal ds))%Z else None.

(** The bits of the float nearest to [v * 10^e]. *)
Definition round_decimal (target : FloatTarget) (v e : Z) : Z :=
  round_ratio (format target) (v * 10 ^ Z.max 0 e) (10 ^ Z.max 0 (- e)).

Definition parse_std (target : FloatTarget) (bytes : list N) : option Z :=
  let '(sig, exp) := split_on is_exp bytes in
  let '(int, frac) := split_on (fun b => b =? chr ".") sig in
  let frac := default [] frac in
  let ds := int ++ frac in
  if forallb is_ascii_digit ds && negb (bool_decide (ds = [])) then
    e ← match exp with Some exp => parse_exponent exp | None => Some 0%Z end;
    Some (round_decimal target (Z.of_N (decimal ds)) (e - Z.of_nat (length frac)))
  else None.

(** [decimal_significand_has_nonzero_digit]. *)
Definition decimal_significand_has_nonzero_digit (bytes : list N) : bool :=
  existsb (between (chr "1") (chr "9")) (fst (split_on is_exp bytes)).

Definition parse_decimal_floating (bytes : list N) (had_suffix : bool) (target : FloatTarget) : lres FloatValue :=
  _ <-- validate_decimal_floating bytes had_suffix ;;
  let sanitized := filter (fun b => b <> chr "_") bytes in
  let is_nonzero := decimal_significand_has_nonzero_digit bytes in
  let invalid := match target with F32 => "Invalid float literal"%string | F64 => "Invalid double literal"%string end in
  match parse_std target sanitized with
  | None => err (lit invalid) 0 (length bytes)
  | Some value =>
      if is_infinite target value then err (lit "Floating-point literal is too large") 0 (length bytes)
      else if (value =? 0)%Z && is_nonzero then err (lit "Floating-point literal is too small") 0 (length bytes)
      else wok (value_of target value)
  end.

(** ** Hexadecimal literals *)

Definition is_p (b : N) : bool := (b =? chr "p") || (b =? chr "P").

(** The checks around the exponent indicator, up to the significand. *)
Definition check_p (bytes : list N) (p_idx : nat) : lres () :=
  let adjacent := lit "Underscore is not allowed adjacent to exponent indicator" in
  if decide (p_idx <= 2)%nat then err (lit "Hexadecimal floating literal is missing significand digits") 2 p_idx
  else if decide (p_idx = length bytes - 1)%nat then err (lit "Missing exponent digits") p_idx (p_idx + 1)
  else
    before <-- byte_at bytes (p_idx - 1) ;;
    if is_underscore before then err adjacent (p_idx - 1) p_idx
    else
      next <-- byte_at bytes (p_idx + 1) ;;
      if is_underscore next then err adjacent (p_idx + 1) (p_idx + 2)
      else
        _ <-- (if is_sign next then
                 if decide (length bytes <= p_idx + 2)%nat then err (lit "Missing exponent digits") p_idx (p_idx + 1)
                 else
                   next2 <-- byte_at bytes (p_idx + 2) ;;
                   if is_underscore next2 then
                     err (lit "Underscore is not allowed adjacent to exponent sign") (p_idx + 2) (p_idx + 3)
                   else wok ()
               else wok ()) ;;
        if decide (last bytes = Some (chr "_")) then
          err (lit "Trailing underscore is not allowed in numeric literal") (length bytes - 1) (length bytes)
        else wok ().

(** The loop over the significand: the nibbles and the number of those after the point.
    [after_dot] is set together with [seen_dot]. *)
Fixpoint hex_scan (bytes : list N) (p_idx : nat) (rest : list N) (i : nat) (nibbles : list Z)
    (frac_digits : Z) (seen_dot saw_digit : bool) : lres (list Z * Z * bool) :=
  match rest with
  | [] => wok (nibbles, frac_digits, saw_digit)
  | x :: rest =>
      if is_underscore x then hex_scan bytes p_idx rest (S i) nibbles frac_digits seen_dot saw_digit
      else if x =? chr "." then
        let message := lit "Underscore is not allowed adjacent to decimal point" in
        if seen_dot then err (lit "Multiple decimal points in literal") i (S i)
        else
          before <-- underscore_before bytes i ;;
          if before : bool then err message (i - 1) i
          else
            after <-- underscore_after bytes i p_idx ;;
            if after : bool then err message (i + 1) (i + 2)
            else hex_scan bytes p_idx rest (S i) nibbles frac_digits true saw_digit
      else
        match hex_value x with
        | None => err (lit "Invalid character `" ++ [x] ++ lit "` in hexadecimal literal") i (S i)
        | Some nibble =>
            hex_scan bytes p_idx rest (S i) (nibbles ++ [Z.of_N nibble])
              (if seen_dot then frac_digits + 1 else frac_digits)%Z seen_dot true
        end
  end.

(** The loop that checks the characters of the exponent. *)
Fixpoint check_exp_chars (start : nat) (exp_part : list N) (i : nat) : lres () :=
  match exp_part with
  | [] => wok ()
  | x :: exp_part =>
      if bool_decide (i = 0%nat) && is_sign x then check_exp_chars start exp_part (S i)
      else if is_ascii_digit x || is_underscore x then check_exp_chars start exp_part (S i)
      else err (lit "Invalid character `" ++ [x] ++ lit "` in exponent") (start + i) (start + i + 1)
  end.

(** The loop of [parse_signed_decimal_with_underscores]. *)
Fixpoint exp_digits (bytes : list N) (span_base i : nat) (value : Z) (seen_digit : bool) : lres (Z * bool) :=
  match bytes with
  | [] => wok (value, seen_digit)
  | x :: bytes =>
      if is_underscore x then exp_digits bytes span_base (S i) value seen_digit
      else if is_ascii_digit x then
        exp_digits bytes span_base (S i) (saturating_add (saturating_mul value 10) (Z.of_N (x - chr "0"))) true
      else err (lit "Invalid digit `" ++ [x] ++ lit "` in exponent") (span_base + i) (span_base + i + 1)
  end.

Definition parse_signed_decimal_with_underscores (bytes : list N) (span_base : nat) : lres Z :=
  match bytes with
  | [] => err (lit "Missing exponent digits") span_base span_base
  | x :: rest =>
      let '(sign, i) := if x =? chr "+" then (1%Z, 1%nat) else if x =? chr "-" then ((-1)%Z, 1%nat) else (1%Z, 0%nat) in
      '(value, seen_digit) <-- exp_digits (drop i bytes) span_base i 0 false ;;
      if negb seen_digit then err (lit "Missing exponent digits") span_base (span_base + length bytes)
      else wok (saturating_mul value sign)
  end.

(** The first part of [parse_hex_floating]: the nibbles, the number of those after the point, and the
    exponent. *)
Definition hex_components (bytes : list N) : lres (list Z * Z * Z) :=
  if decide (length bytes < 3)%nat then err (lit "Incomplete hexadecimal floating literal") 0 (length bytes)
  else if decide (bytes !! 2%nat = Some (chr "_")) then
    err (lit "Underscore is not allowed immediately after `0x` prefix") 2 3
  else
    match list_find (fun b => is_p b = true) bytes with
    | None => err (lit "Hexadecimal floating literal is missing binary exponent (`p`)") 0 (length bytes)
    | Some (p_idx, _) =>
        _ <-- check_p bytes p_idx ;;
        '(nibbles, frac_digits, saw_digit) <-- hex_scan bytes p_idx (drop 2 (take p_idx bytes)) 2 [] 0 false false ;;
        if negb saw_digit then
          err (lit "Hexadecimal floating literal is missing significand digits") 2 p_idx
        else
          let exp_span_start := (p_idx + 1)%nat in
          let exp_part := drop exp_span_start bytes in
          if decide (head exp_part = Some (chr "_") \/ last exp_part = Some (chr "_")) then
            err (lit "Underscore is not allowed at start/end of exponent") exp_span_start (length bytes)
          else
            _ <-- check_exp_chars exp_span_start exp_part 0 ;;
            exp_val <-- parse_signed_decimal_with_underscores exp_part exp_span_start ;;
            wok (nibbles, frac_digits, exp_val)
    end.

(** The second part: the bits of the number, and the checks on them. *)
Definition hex_round (end_ : nat) (nibbles : list Z) (frac_digits exp_val : Z) (target : FloatTarget) : lres FloatValue :=
  let frac_bits_adjust := saturating_mul frac_digits 4 in
  let exp2 := saturating_sub exp_val frac_bits_adjust in
  let trimmed := trim_leading_zero_nibbles nibbles in
  match bit_len_nibbles trimmed with
  | None => wok (value_of target 0)
  | Some bit_len =>
      bits <-- elift (binary_to_ieee_bits trimmed bit_len exp2 target) ;;
      if is_infinite target bits then err (lit "Floating-point literal is too large") 0 end_
      else if (bits =? 0)%Z then err (lit "Floating-point literal is too small") 0 end_
      else wok (value_of target bits)
  end.

Definition parse_hex_floating (bytes : list N) (target : FloatTarget) : lres FloatValue :=
  '(nibbles, frac_digits, exp_val) <-- hex_components bytes ;;
  hex_round (length bytes) nibbles frac_digits exp_val target.

(** ** Literals *)

Definition starts_0x (bytes : list N) : bool :=
  match bytes with x :: y :: _ => (x =? chr "0") && ((y =? chr "x") || (y =? chr "X")) | _ => false end.

(** The rest of [parse_floating_literal] once the suffix is split off. *)
Definition parse_after_suffix (bytes : list N) (target : FloatTarget) (main_end : nat) (had_suffix : bool) : lres Z :=
  let main := take main_end bytes in
  if decide (main = []) then err (lit "Missing digits") 0 (length bytes)
  else if decide (last main = Some (chr "_")) then
    err (lit "Trailing underscore is not allowed in numeric literal") (main_end - 1) main_end
  else
    value <-- (if starts_0x main then parse_hex_floating main target
               else parse_decimal_floating main had_suffix target) ;;
    wok (from_target target value).

Definition parse_floating_literal (bytes : list N) (target : FloatTarget) : lres Z :=
  if decide (bytes = []) then err (lit "Empty floating literal") 0 0
  else
    '(main_end, had_suffix) <-- split_float_suffix bytes target ;;
    parse_after_suffix bytes target main_end had_suffix.

Definition parse_float_literal (bytes : list N) : lres Z := parse_floating_literal bytes F32.
Definition parse_double_literal (bytes : list N) : lres Z := parse_floating_literal bytes F64.

(** ** The literals of Java *)

(** Characters of the class [p] with underscores between them. *)
Definition neat (p : N -> bool) (ds : list N) : Prop :=
  Forall (fun b => p b || is_underscore b = true) ds /\ head ds <> Some (chr "_") /\ last ds <> Some (chr "_").

(** An exponent: an indicator, a sign and digits, for the number [x]. *)
Definition exponent (indicator : N -> bool) (exp : list N) (x : Z) : Prop :=
  exists c sign ds, exp = c :: sign ++ ds /\ indicator c = true /\ neat is_ascii_digit ds /\ ds <> [] /\
    (sign = [] /\ x = Z.of_N (decimal (digits ds)) \/
     sign = [chr "+"] /\ x = Z.of_N (decimal (digits ds)) \/
     sign = [chr "-"] /\ x = - Z.of_N (decimal (digits ds)))%Z.

(** Digits with a point, or without one. *)
Definition significand (p : N -> bool) (left dot right : list N) : Prop :=
  neat p left /\ neat p right /\ left ++ right <> [] /\ (dot = [chr "."] \/ dot = [] /\ right = []).

(** A decimal literal for the number [n / d]. *)
Definition decimal_float (had_suffix : bool) (text : list N) (n d : Z) : Prop :=
  exists left dot right exp x, text = left ++ dot ++ right ++ exp /\ significand is_ascii_digit left dot right /\
    (exponent is_exp exp x \/ exp = [] /\ x = 0%Z) /\ (had_suffix = false -> dot ++ exp <> []) /\
    let v := Z.of_N (decimal (digits (left ++ right))) in
    let e := (x - Z.of_nat (length (digits right)))%Z in
    (n = v * 10 ^ Z.max 0 e /\ d = 10 ^ Z.max 0 (- e))%Z.

Definition is_hex_digit (b : N) : bool := is_some (digit_value 16 b).

Definition nibbles_of (ds : list N) : list Z := (fun b => Z.of_N (default 0 (digit_value 16 b))) <$> digits ds.

(** A hexadecimal literal for the number [n / d]. *)
Definition hex_float (text : list N) (n d : Z) : Prop :=
  exists c left dot right exp x, text = [chr "0"; c] ++ left ++ dot ++ right ++ exp /\
    (c = chr "x" \/ c = chr "X") /\ significand is_hex_digit left dot right /\ exponent is_p exp x /\
    let v := nibbles_value (nibbles_of (left ++ right)) in
    let e := (x - 4 * Z.of_nat (length (digits right)))%Z in
    (n = scale_num v e /\ d = scale_den e)%Z.

(** The suffix of a literal: [f] for [float], [d] or none for [double]. *)
Definition float_suffix (t : FloatTarget) (suffix : list N) : Prop :=
  match t with
  | F32 => suffix = [chr "f"] \/ suffix = [chr "F"]
  | F64 => suffix = [] \/ suffix = [chr "d"] \/ suffix = [chr "D"]
  end.

Definition float_literal (t : FloatTarget) (text : list N) (n d : Z) : Prop :=
  exists main suffix, text = main ++ suffix /\ float_suffix t suffix /\
    (decimal_float (negb (bool_decide (suffix = []))) main n d \/ hex_float main n d).

(** ** Lemmas on the characters *)

Notation du := (fun b => is_ascii_digit b || is_underscore b = true) (only parsing).

Lemma byte_at_middle (l : list N) x (k : list N) i : i = length l -> byte_at (l ++ x :: k) i = wok x.
Proof. intros ->. unfold byte_at, idx. by rewrite list_lookup_middle. Qed.

Lemma is_underscore_decide x : is_underscore x = bool_decide (x = chr "_").
Proof. unfold is_underscore. destruct (N.eqb_spec x (chr "_")); [by rewrite bool_decide_true|by rewrite bool_decide_false]. Qed.

Lemma underscore_before_spec (l k : list N) i :
  i = length l -> underscore_before (l ++ k) i = wok (bool_decide (last l = Some (chr "_"))).
Proof.
  intros ->. unfold underscore_before. destruct l as [|x l _] using rev_ind; [done|].
  rewrite decide_True by (rewrite length_app; simpl; lia). rewrite <-app_assoc, length_app. simpl.
  rewrite byte_at_middle by lia. simpl. rewrite last_snoc, is_underscore_decide. f_equal. f_equal.
  apply bool_decide_ext. naive_solver.
Qed.

Lemma underscore_after_spec (l : list N) x (k k' : list N) i e :
  i = length l -> e = length (l ++ x :: k) ->
  underscore_after (l ++ x :: k ++ k') i e = wok (bool_decide (head k = Some (chr "_"))).
Proof.
  intros -> ->. unfold underscore_after. rewrite length_app. destruct k as [|y k]; simpl.
  { by rewrite decide_False by lia. }
  rewrite decide_True by lia. rewrite cons_middle, app_assoc. rewrite byte_at_middle by (rewrite length_app; simpl; lia).
  simpl. rewrite is_underscore_decide. f_equal. f_equal. apply bool_decide_ext. naive_solver.
Qed.

(** ** The scan of decimal literals *)

(** What may follow an exponent indicator. *)
Definition exp_tail (s : list N) : Prop :=
  exists sign ds, s = sign ++ ds /\ (sign = [] \/ exists c, sign = [c] /\ is_sign c = true) /\ Forall du ds.

(** The rest of a literal after its point, or of one without a point. *)
Definition after_point (i : nat) (dot : option nat) (s : list N) (out : option nat * option nat) : Prop :=
  (Forall du s /\ out = (dot, None)) \/
  exists r c t, s = r ++ c :: t /\ Forall du r /\ is_exp c = true /\ exp_tail t /\ out = (dot, Some (i + length r)%nat).

Lemma decimal_scan_total s i dot exp : exists r, decimal_scan s i dot exp = Done r.
Proof.
  revert i dot exp. induction s as [|x s IH]; intros; simpl; [by eexists|].
  repeat case_match; eauto; by eexists.
Qed.

(** The classes of characters do not overlap. *)
Lemma classes x :
  (is_ascii_digit x || is_underscore x = true -> (x =? chr ".") = false /\ is_exp x = false /\ is_sign x = false) /\
  (is_exp x = true -> is_ascii_digit x || is_underscore x = false /\ (x =? chr ".") = false /\ is_sign x = false) /\
  (is_sign x = true -> is_ascii_digit x || is_underscore x = false /\ (x =? chr ".") = false /\ is_exp x = false).
Proof.
  unfold is_ascii_digit, is_underscore, is_exp, is_sign, between. chars.
  compare; subst; repeat split; intros; try done; lia.
Qed.

Lemma scan_exponent s i dot e out : (e + 1 < i)%nat ->
  decimal_scan s i dot (Some e) = wok out <-> Forall du s /\ out = (dot, Some e).
Proof.
  revert i. induction s as [|x s IH]; intros i Hi; simpl.
  { split; [intros [= <-]; by split; [constructor|]|by intros [_ ->]]. }
  rewrite Forall_cons. destruct (is_ascii_digit x || is_underscore x) eqn:Hx; [rewrite IH by lia; naive_solver|].
  rewrite decide_False by (simpl; rewrite decide_False by lia; done).
  repeat case_match; (split; [intros [=]|intros [[? ?] ?]; done]).
Qed.

Lemma scan_sign s e dot out :
  decimal_scan s (S e) dot (Some e) = wok out <-> exp_tail s /\ out = (dot, Some e).
Proof.
  destruct s as [|x s]; simpl.
  { split; [intros [= <-]; split; [|done]; exists [], []; naive_solver|by intros [_ ->]]. }
  assert (Htail : exp_tail (x :: s) <-> (is_sign x = true \/ du x) /\ Forall du s).
  { split.
    - intros (sg & ds & Heq & [-> |(c & -> & Hc)] & Hds); simplify_eq/=; [|by auto].
      apply Forall_cons in Hds as [? ?]. auto.
    - intros [[Hs|Hx] Hall]; [exists [x], s; naive_solver|]. exists [], (x :: s). split; [done|].
      split; [by left|]. by constructor. }
  rewrite Htail. destruct (classes x) as (H1 & H2 & H3).
  destruct (is_ascii_digit x || is_underscore x) eqn:Hx; [rewrite scan_exponent by lia; naive_solver|].
  destruct (x =? chr ".") eqn:Hd.
  { split; [by intros [=]|]. intros [[[Hs|?] _] _]; [|done]. apply H3 in Hs as (_ & [=] & _). }
  destruct (is_exp x) eqn:He. { split; [by intros [=]|]. intros [[[Hs|?] _] _]; [|done]. naive_solver. }
  destruct (is_sign x) eqn:Hs; [|split; [by intros [=]|naive_solver]].
  rewrite decide_True by (simpl; by rewrite decide_True by lia). rewrite scan_exponent by lia. naive_solver.
Qed.

Lemma after_point_cons i dot x s out : is_ascii_digit x || is_underscore x = true ->
  after_point i dot (x :: s) out <-> after_point (S i) dot s out.
Proof.
  intros Hx. destruct (classes x) as (H1 & _). specialize (H1 Hx) as (_ & He & _). unfold after_point. rewrite Forall_cons.
  split.
  - intros [[[_ ?] ?]|(r & c & t & Heq & Hr & Hc & Ht & ->)]; [by left|right].
    destruct r as [|y r]; simplify_eq/=; [congruence|]. apply Forall_cons in Hr as [_ Hr].
    exists r, c, t. repeat (split; [done|]). do 2 f_equal. lia.
  - intros [[? ?]|(r & c & t & -> & Hr & Hc & Ht & ->)]; [by left|right].
    exists (x :: r), c, t. repeat (split; [done || by constructor|]). simpl. do 2 f_equal. lia.
Qed.

Lemma scan_after_point s i d out :
  decimal_scan s i (Some d) None = wok out <-> after_point i (Some d) s out.
Proof.
  revert i. induction s as [|x s IH]; intros i; simpl.
  { unfold after_point. split; [intros [= <-]; left; by split; [constructor|]|].
    intros [[_ ->]|(r & c & t & Heq & _)]; [done|by destruct r]. }
  destruct (is_ascii_digit x || is_underscore x) eqn:Hx; [by rewrite IH, after_point_cons|].
  assert (Hcons : after_point i (Some d) (x :: s) out <-> is_exp x = true /\ exp_tail s /\ out = (Some d, Some i)).
  { unfold after_point. rewrite Forall_cons. split.
    - intros [[[? _] _]|(r & c & t & Heq & Hr & Hc & Ht & ->)]; [congruence|].
      destruct r as [|y r]; simplify_eq/=; [by rewrite Nat.add_0_r|]. apply Forall_cons in Hr as [? _]. congruence.
    - intros (He & Ht & ->). right. exists [], x, s. simpl. rewrite Nat.add_0_r. repeat (split; [done || constructor|]). done. }
  rewrite Hcons. destruct (classes x) as (_ & H2 & _).
  destruct (x =? chr ".") eqn:Hd; [split; [by intros [=]|]; intros [He _]; naive_solver|].
  destruct (is_exp x) eqn:He; [rewrite scan_sign; naive_solver|].
  destruct (is_sign x); (split; [by intros [=]|by intros [? _]]).
Qed.

(** A text as the scan splits it. *)
Definition decimal_parts (left dot right exp : list N) : Prop :=
  Forall du left /\ Forall du right /\ (dot = [chr "."] \/ dot = [] /\ right = []) /\
  (exp = [] \/ exists c t, exp = c :: t /\ is_exp c = true /\ exp_tail t).

Definition places (left dot right exp : list N) : option nat * option nat :=
  (if decide (dot = []) then None else Some (length left),
   if decide (exp = []) then None else Some (length (left ++ dot ++ right))).

Lemma scan_start s i out :
  decimal_scan s i None None = wok out <->
  after_point i None s out \/
  exists l s', s = l ++ chr "." :: s' /\ Forall du l /\
    after_point (S (i + length l)) (Some (i + length l)%nat) s' out.
Proof.
  revert i. induction s as [|x s IH]; intros i; simpl.
  { unfold after_point. split; [intros [= <-]; left; left; by split; [constructor|]|].
    intros [[[_ ->]|(r & c & t & Heq & _)]|(l & s' & Heq & _)]; [done|by destruct r|by destruct l]. }
  destruct (is_ascii_digit x || is_underscore x) eqn:Hx.
  { rewrite IH, (after_point_cons i) by done. f_equiv. destruct (classes x) as (H1 & _). specialize (H1 Hx) as (Hd & _).
    split; intros (l & s' & Heq & Hl & Ha).
    - exists (x :: l), s'. simpl. rewrite Heq, Nat.add_succ_r. repeat (split; [done || by constructor|]). done.
    - destruct l as [|y l]; simplify_eq/=. apply Forall_cons in Hl as [_ Hl].
      exists l, s'. repeat (split; [done|]). rewrite Nat.add_succ_r in Ha. done. }
  destruct (classes x) as (_ & H2 & _). destruct (N.eqb_spec x (chr ".")) as [-> |Hd].
  { rewrite scan_after_point. split.
    - intros Ha. right. exists [], s. rewrite Nat.add_0_r. repeat (split; [done || constructor|]). done.
    - intros [[[Ha _]|(r & c & t & Heq & Hr & Hc & _)]|(l & s' & Heq & Hl & Ha)].
      + by apply Forall_cons in Ha as [? _].
      + destruct r as [|y r]; simplify_eq/=. by apply Forall_cons in Hr as [? _].
      + destruct l as [|y l]; simplify_eq/=; [by rewrite Nat.add_0_r in Ha|]. by apply Forall_cons in Hl as [? _]. }
  assert (Hcons : after_point i None (x :: s) out \/ (exists l s', x :: s = l ++ chr "." :: s' /\ Forall du l /\
      after_point (S (i + length l)) (Some (i + length l)%nat) s' out) <->
    is_exp x = true /\ exp_tail s /\ out = (None, Some i)).
  { split.
    - intros [[[[? _]%Forall_cons _]|(r & c & t & Heq & Hr & Hc & Ht & ->)]|(l & s' & Heq & Hl & _)]; [congruence| |].
      + destruct r as [|y r]; simplify_eq/=; [by rewrite Nat.add_0_r|]. apply Forall_cons in Hr as [? _]. congruence.
      + destruct l as [|y l]; simplify_eq/=. apply Forall_cons in Hl as [? _]. congruence.
    - intros (He & Ht & ->). left. right. exists [], x, s. simpl. rewrite Nat.add_0_r. repeat (split; [done || constructor|]). done. }
  rewrite Hcons. destruct (is_exp x) eqn:He; [rewrite scan_sign; naive_solver|].
  destruct (is_sign x); (split; [by intros [=]|by intros [? _]]).
Qed.

Lemma after_point_parts i dot s out :
  after_point i dot s out <->
  exists right exp, s = right ++ exp /\ Forall du right /\
    (exp = [] \/ exists c t, exp = c :: t /\ is_exp c = true /\ exp_tail t) /\
    out = (dot, if decide (exp = []) then None else Some (i + length right)%nat).
Proof.
  split.
  - intros [[Hs ->]|(r & c & t & -> & Hr & Hc & Ht & ->)]; [exists s, []|exists r, (c :: t)].
    + rewrite app_nil_r. naive_solver.
    + rewrite decide_False by done. naive_solver.
  - intros (right & exp & -> & Hr & [-> |(c & t & -> & Hc & Ht)] & ->).
    + left. by rewrite app_nil_r.
    + right. exists right, c, t. rewrite decide_False by done. done.
Qed.

Lemma scan_spec s out :
  decimal_scan s 0 None None = wok out <->
  exists left dot right exp, s = left ++ dot ++ right ++ exp /\ decimal_parts left dot right exp /\
    out = places left dot right exp.
Proof.
  rewrite scan_start, after_point_parts. unfold decimal_parts, places. split.
  - intros [(right & exp & -> & Hr & He & ->)|(l & s' & -> & Hl & (right & exp & -> & Hr & He & ->)%after_point_parts)].
    + exists right, [], [], exp. simpl. rewrite app_nil_r. split_and!; auto.
    + exists l, [chr "."], right, exp. rewrite (decide_False (P := [_] = [])) by done. split_and!; auto.
      rewrite !length_app. simpl. f_equal. case_decide; [done|]. f_equal. lia.
  - intros (left & dot & right & exp & -> & (Hl & Hr & [-> |[-> ->]] & He) & ->).
    + right. exists left, (right ++ exp). split; [done|]. split; [done|]. apply after_point_parts. exists right, exp.
      rewrite (decide_False (P := [_] = [])) by done. split_and!; auto.
      rewrite !length_app. simpl. f_equal. case_decide; [done|]. f_equal. lia.
    + left. exists left, exp. rewrite app_nil_r. split_and!; auto.
Qed.

(** ** The checks *)

Lemma check_dot_spec (left s : list N) :
  parses (check_dot (left ++ chr "." :: s) (length left))
    (fun _ => last left <> Some (chr "_") /\ head s <> Some (chr "_")).
Proof.
  unfold check_dot. rewrite underscore_before_spec by done. simpl.
  case_bool_decide as Hb; [apply parses_err; naive_solver|].
  replace s with (s ++ []) at 1 by apply app_nil_r. rewrite underscore_after_spec by (try done). simpl.
  apply parses_check. rewrite bool_decide_eq_false. naive_solver.
Qed.

(** What follows an exponent indicator is not empty and does not start with an underscore. *)
Definition exp_start_ok (t : list N) : Prop :=
  match t with
  | [] => False
  | x :: t => is_underscore x = false /\
      (is_sign x = true -> match t with [] => False | y :: _ => is_underscore y = false end)
  end.

Lemma check_exp_spec (l : list N) c t :
  parses (check_exp (l ++ c :: t) (length l)) (fun _ => last l <> Some (chr "_") /\ exp_start_ok t).
Proof.
  unfold check_exp. rewrite underscore_before_spec by done. simpl.
  case_bool_decide as Hb; [apply parses_err; naive_solver|]. rewrite !length_app. simpl.
  destruct t as [|x t]; [rewrite decide_True by (simpl; lia); apply parses_err; naive_solver|].
  rewrite decide_False by (simpl; lia). rewrite cons_middle, app_assoc.
  rewrite byte_at_middle by (rewrite length_app; simpl; lia). simpl.
  destruct (is_underscore x) eqn:Hx; [apply parses_err; naive_solver|].
  destruct (is_sign x) eqn:Hs; [|eapply parses_iff; [apply parses_ok|]; intros []; naive_solver].
  destruct t as [|y t]; [rewrite decide_True by (simpl; lia); apply parses_err; naive_solver|].
  rewrite decide_False by (simpl; lia). rewrite cons_middle, app_assoc.
  rewrite byte_at_middle by (rewrite !length_app; simpl; lia). simpl.
  apply parses_check. naive_solver.
Qed.

Lemma any_digit_spec (l m r : list N) a b :
  a = length l -> b = length (l ++ m) -> any_digit (l ++ m ++ r) a b = wok (existsb is_ascii_digit m).
Proof.
  intros -> ->. unfold any_digit. rewrite decide_True by (rewrite !length_app; lia).
  by rewrite app_assoc, take_app_length, drop_app_length.
Qed.

(** The tail of an exponent that passes the checks. *)
Lemma exp_tail_ok t : exp_tail t /\ exp_start_ok t <->
  exists sign ds, t = sign ++ ds /\ (sign = [] \/ exists c, sign = [c] /\ is_sign c = true) /\
    Forall du ds /\ ds <> [] /\ head ds <> Some (chr "_").
Proof.
  assert (Hhead : forall y (ds : list N), is_underscore y = false <-> head (y :: ds) <> Some (chr "_")).
  { intros y ds. rewrite is_underscore_decide, bool_decide_eq_false. simpl. naive_solver. }
  split.
  - intros [(sign & ds & -> & [-> |(c & -> & Hc)] & Hds) Hs]; [exists [], ds|exists [c], ds]; (split; [done|]);
      (split; [eauto|]); (split; [done|]); destruct ds as [|y ds]; simpl in Hs; naive_solver.
  - intros (sign & ds & -> & Hsign & Hds & Hne & Hh). split; [by exists sign, ds|].
    destruct ds as [|y ds]; [done|]. apply Hhead in Hh. apply Forall_cons in Hds as [Hy _].
    destruct Hsign as [-> |(c & -> & Hc)]; simpl.
    + split; [done|]. destruct (classes y) as (H1 & _). destruct (H1 Hy) as (_ & _ & ->). done.
    + split; [|done]. destruct (classes c) as (_ & _ & H3). destruct (H3 Hc) as [Hdu _].
      by apply orb_false_iff in Hdu as [_ ?].
Qed.

(** What [validate_decimal_floating] checks of the parts. *)
Definition decimal_ok (had_suffix : bool) (left dot right exp : list N) : Prop :=
  let text := left ++ dot ++ right ++ exp in
  (head text <> Some (chr "_") /\ last text <> Some (chr "_")) /\
  (dot <> [] -> last left <> Some (chr "_") /\ head (right ++ exp) <> Some (chr "_")) /\
  match exp with [] => True | _ :: t => last (left ++ dot ++ right) <> Some (chr "_") /\ exp_start_ok t end /\
  existsb is_ascii_digit (left ++ right) = true /\
  (had_suffix = false -> dot ++ exp <> []).

Lemma du_digit y : is_ascii_digit y || is_underscore y = true -> is_underscore y = false -> is_ascii_digit y = true.
Proof. by destruct (is_ascii_digit y), (is_underscore y). Qed.

Lemma significand_has_digit_spec left dot right exp :
  dot = [chr "."] \/ dot = [] /\ right = [] ->
  significand_has_digit (left ++ dot ++ right ++ exp) (fst (places left dot right exp))
    (default (length (left ++ dot ++ right ++ exp)) (snd (places left dot right exp))) =
  wok (existsb is_ascii_digit (left ++ right)).
Proof.
  intros Hdot. unfold places. simpl.
  assert (Hend : default (length (left ++ dot ++ right ++ exp))
    (if decide (exp = []) then None else Some (length (left ++ dot ++ right))) = length (left ++ dot ++ right)).
  { case_decide as He; [|done]. simpl. by rewrite He, app_nil_r. }
  rewrite Hend. unfold significand_has_digit. destruct Hdot as [-> |[-> ->]].
  - rewrite decide_False by done. pose proof (any_digit_spec [] left ([chr "."] ++ right ++ exp) 0 (length left)) as H0.
    simpl in H0 |- *. rewrite H0 by done. simpl.
    replace (left ++ chr "." :: right ++ exp) with ((left ++ [chr "."]) ++ right ++ exp) by by rewrite <-app_assoc.
    rewrite any_digit_spec by (rewrite !length_app; simpl; lia). simpl. by rewrite existsb_app.
  - rewrite decide_True by done. simpl. rewrite app_nil_r. by apply (any_digit_spec [] left).
Qed.

Lemma exponent_has_digit_spec left dot right c t : exp_tail t -> exp_start_ok t ->
  exponent_has_digit (left ++ dot ++ right ++ c :: t) (Some (length (left ++ dot ++ right))) = wok true.
Proof.
  intros Ht Hs. destruct (proj1 (exp_tail_ok t) (conj Ht Hs)) as (sign & ds & -> & Hsign & Hds & Hne & Hh).
  destruct ds as [|y ds]; [done|]. apply Forall_cons in Hds as [Hy _].
  assert (Hyd : is_ascii_digit y = true).
  { apply du_digit; [done|]. rewrite is_underscore_decide. apply bool_decide_eq_false. by intros ->. }
  set (l := left ++ dot ++ right). replace (left ++ dot ++ right ++ c :: sign ++ y :: ds) with ((l ++ [c]) ++ sign ++ y :: ds)
    by (unfold l; by rewrite <-!app_assoc).
  unfold exponent_has_digit. replace (length l + 1)%nat with (length (l ++ [c])) by (rewrite length_app; simpl; lia).
  destruct Hsign as [-> |(x & -> & Hx)].
  - rewrite app_nil_l, list_lookup_middle by done. destruct (classes y) as (H1 & _). destruct (H1 Hy) as (_ & _ & ->).
    pose proof (any_digit_spec (l ++ [c]) (y :: ds) [] (length (l ++ [c])) (length ((l ++ [c]) ++ y :: ds))) as H0.
    rewrite app_nil_r in H0. rewrite H0 by done. simpl. by rewrite Hyd.
  - change ([x] ++ y :: ds) with (x :: y :: ds). rewrite list_lookup_middle, Hx by done. rewrite cons_middle, app_assoc.
    pose proof (any_digit_spec ((l ++ [c]) ++ [x]) (y :: ds) [] (length (l ++ [c]) + 1) (length (((l ++ [c]) ++ [x]) ++ y :: ds))) as H0.
    rewrite app_nil_r in H0. rewrite H0 by (rewrite ?length_app; simpl; lia). simpl. by rewrite Hyd.
Qed.

Lemma validate_parts had_suffix left dot right exp : decimal_parts left dot right exp ->
  parses (validate_decimal_floating (left ++ dot ++ right ++ exp) had_suffix)
    (fun _ => decimal_ok had_suffix left dot right exp).
Proof.
  intros Hparts. unfold validate_decimal_floating, decimal_ok. set (text := left ++ dot ++ right ++ exp).
  destruct (decide (head text = Some (chr "_"))); [apply parses_err; naive_solver|].
  destruct (decide (last text = Some (chr "_"))); [apply parses_err; naive_solver|].
  assert (Hscan : decimal_scan text 0 None None = wok (places left dot right exp)).
  { apply scan_spec. by exists left, dot, right, exp. }
  rewrite Hscan. destruct Hparts as (Hl & Hr & Hdot & Hexp). unfold places. simpl.
  eapply parses_iff; [|intros x; instantiate (1 := fun _ => (dot <> [] -> last left <> Some (chr "_") /\ head (right ++ exp) <> Some (chr "_")) /\
    match exp with [] => True | _ :: t => last (left ++ dot ++ right) <> Some (chr "_") /\ exp_start_ok t end /\
    existsb is_ascii_digit (left ++ right) = true /\ (had_suffix = false -> dot ++ exp <> [])); simpl; naive_solver].
  apply (parses_then _ _ (dot <> [] -> _)).
  { destruct Hdot as [-> |[-> ->]].
    - rewrite decide_False by done. eapply parses_iff; [apply check_dot_spec|]. naive_solver.
    - rewrite decide_True by done. eapply parses_iff; [apply parses_ok|]. intros []. naive_solver. }
  intros _. apply (parses_then _ _ (match exp with [] => True | _ :: t => _ end)).
  { destruct exp as [|c t]; [rewrite decide_True by done; eapply parses_iff; [apply parses_ok|]; by intros []|].
    rewrite decide_False by done. unfold text.
    replace (left ++ dot ++ right ++ c :: t) with ((left ++ dot ++ right) ++ c :: t) by by rewrite <-!app_assoc.
    apply check_exp_spec. }
  intros Hexp'.
  pose proof (significand_has_digit_spec left dot right exp Hdot) as Hdigit. fold text in Hdigit. simpl in Hdigit.
  rewrite Hdigit. simpl. destruct (existsb is_ascii_digit (left ++ right)) eqn:Hd; simpl; [|apply parses_err; naive_solver].
  assert (Hexpdigit : exponent_has_digit text (if decide (exp = []) then None else Some (length (left ++ dot ++ right))) = wok true).
  { destruct exp as [|c t]; [by rewrite decide_True|]. rewrite decide_False by done.
    destruct Hexp as [?|(c' & t' & [= <- <-] & _ & Ht)]; [done|]. destruct Hexp' as [_ Hs].
    by apply exponent_has_digit_spec. }
  rewrite Hexpdigit. simpl.
  apply parses_check. destruct had_suffix, dot, exp; simpl; naive_solver.
Qed.

(** ** The grammar of decimal literals *)

Lemma last_app_ne {A} (l k : list A) u :
  last (l ++ k) <> Some u <-> last k <> Some u /\ (k = [] -> last l <> Some u).
Proof.
  destruct k as [|y k _] using rev_ind; [rewrite app_nil_r; naive_solver|].
  rewrite app_assoc, !last_snoc. split; [|naive_solver]. intros Hn. split; [done|]. by destruct k.
Qed.

Lemma head_app_ne {A} (l k : list A) u :
  head (l ++ k) <> Some u <-> head l <> Some u /\ (l = [] -> head k <> Some u).
Proof. destruct l; naive_solver. Qed.

Lemma neat_digit p ds : neat p ds -> ds <> [] -> exists x, x ∈ ds /\ p x = true /\ is_underscore x = false.
Proof.
  intros (Hall & Hh & _) Hne. destruct ds as [|x ds]; [done|]. exists x. split; [constructor|].
  apply Forall_cons in Hall as [Hx _]. assert (is_underscore x = false) as Hu.
  { rewrite is_underscore_decide. apply bool_decide_eq_false. by intros ->. }
  rewrite Hu, orb_false_r in Hx. done.
Qed.

Lemma sign_cases c : is_sign c = true <-> c = chr "+" \/ c = chr "-".
Proof. unfold is_sign. by rewrite orb_true_iff, !N.eqb_eq. Qed.

(** The exponents that pass the checks. *)
Lemma exponent_checks indicator c t :
  (exists x, exponent indicator (c :: t) x) <->
  indicator c = true /\ exp_tail t /\ exp_start_ok t /\ last (c :: t) <> Some (chr "_").
Proof.
  split.
  - intros (x & c' & sign & ds & [= <- ->] & Hc & (Hall & Hh & Hl) & Hne & Hsign). split; [done|].
    assert (Ht : exp_tail (sign ++ ds) /\ exp_start_ok (sign ++ ds)).
    { apply exp_tail_ok. exists sign, ds. split; [done|]. split; [|done].
      destruct Hsign as [[-> _]|[[-> _]|[-> _]]]; [by left|right; by eexists..]. }
    destruct Ht. split; [done|]. split; [done|].
    change (c :: sign ++ ds) with ((c :: sign) ++ ds). apply last_app_ne. naive_solver.
  - intros (Hc & Ht & Hs & Hl).
    destruct (proj1 (exp_tail_ok t) (conj Ht Hs)) as (sign & ds & -> & Hsign & Hds & Hne & Hh).
    change (c :: sign ++ ds) with ((c :: sign) ++ ds) in Hl. apply last_app_ne in Hl as [Hl _].
    destruct Hsign as [-> |(s & -> & [-> | ->]%sign_cases)]; eexists; exists c; eexists; exists ds;
      (split; [done|]); (split; [done|]); (split; [by split_and!|]); (split; [done|]); naive_solver.
Qed.

Lemma decimal_grammar had_suffix left dot right exp :
  decimal_parts left dot right exp /\ decimal_ok had_suffix left dot right exp <->
  significand is_ascii_digit left dot right /\ (exp = [] \/ exists x, exponent is_exp exp x) /\
  (had_suffix = false -> dot ++ exp <> []).
Proof.
  assert (Hexp : forall c : N, is_exp c = true -> Some c <> Some (chr "_")) by (intros c Hc [= ->]; done).
  assert (Hpoint : Some (chr ".") <> Some (chr "_")) by (vm_compute; discriminate).
  unfold decimal_parts, decimal_ok, significand, neat. simpl.
  rewrite !head_app_ne, !last_app_ne. split.
  - intros [(Hl & Hr & Hdot & He) ((Hhead & Hlast) & Hd & Hexpok & Hdig & Hs)].
    assert (Hne : left ++ right <> []) by by destruct (left ++ right).
    destruct He as [-> |(c & t & -> & Hc & Ht)].
    + split; [|split; [by left|done]]. destruct Hdot as [-> |[-> ->]]; simpl in *; split_and!; intuition congruence.
    + simpl in Hexpok. rewrite !last_app_ne in Hexpok. split; [|split; [|done]].
      * destruct Hdot as [-> |[-> ->]]; simpl in *; split_and!; intuition congruence.
      * right. apply exponent_checks. destruct Hdot as [-> |[-> ->]]; simpl in *; intuition congruence.
  - intros [((Hl & Hhl & Hll) & (Hr & Hhr & Hlr) & Hne & Hdot) [He Hs]].
    assert (Hdig : existsb is_ascii_digit (left ++ right) = true).
    { apply existsb_exists. destruct left as [|y left]; [destruct right as [|y right]; [done|]|].
      - destruct (neat_digit is_ascii_digit (y :: right)) as (x & Hx & Hxd & _); [by split_and!|done|].
        exists x. split; [by apply list_elem_of_In|done].
      - destruct (neat_digit is_ascii_digit (y :: left)) as (x & Hx & Hxd & _); [by split_and!|done|].
        exists x. split; [apply list_elem_of_In, elem_of_app; by left|done]. }
    destruct He as [-> |(x & He)].
    + destruct Hdot as [-> |[-> ->]]; simpl in *; split_and!; intuition congruence.
    + destruct exp as [|c t]; [by destruct He as (? & ? & ? & [=] & _)|].
      destruct (proj1 (exponent_checks is_exp c t) (ex_intro _ x He)) as (Hc & Ht & Hst & Hlt).
      specialize (Hexp c Hc). rewrite !last_app_ne.
      destruct Hdot as [-> |[-> ->]]; simpl in *; split_and!; intuition (eauto; congruence).
Qed.

(** ** The value of decimal literals *)

Lemma sanitize l : filter (fun b => b <> chr "_") l = digits l.
Proof.
  unfold digits. apply list_filter_iff. intros x. rewrite is_underscore_decide, bool_decide_eq_false. done.
Qed.

Lemma digits_app l k : digits (l ++ k) = digits l ++ digits k.
Proof. apply filter_app. Qed.

Lemma digits_id l : Forall (fun b => is_underscore b = false) l -> digits l = l.
Proof.
  induction 1 as [|x l Hx _ IH]; [done|]. rewrite digits_cons, Hx, IH. done.
Qed.

Lemma digits_all p ds : neat p ds -> Forall (fun b => p b = true) (digits ds).
Proof.
  intros (Hall & _). apply Forall_forall. intros x [Hu Hx]%list_elem_of_filter.
  rewrite Forall_forall in Hall. apply Hall in Hx. rewrite Hu, orb_false_r in Hx. done.
Qed.

Lemma digits_ne p ds : neat p ds -> ds <> [] -> digits ds <> [].
Proof.
  intros Hn Hne Hd. destruct (neat_digit p ds Hn Hne) as (x & Hx & _ & Hu).
  assert (x ∈ digits ds) as Hin by by apply list_elem_of_filter. rewrite Hd in Hin. by apply not_elem_of_nil in Hin.
Qed.

Lemma split_on_None p l : Forall (fun b => p b = false) l -> split_on p l = (l, None).
Proof.
  intros Hl. unfold split_on. assert (list_find (fun b => p b = true) l = None) as ->; [|done].
  apply list_find_None. eapply Forall_impl; [exact Hl|]. simpl. congruence.
Qed.

Lemma split_on_Some (p : N -> bool) l c r :
  Forall (fun b => p b = false) l -> p c = true -> split_on p (l ++ c :: r) = (l, Some r).
Proof.
  intros Hl Hc. unfold split_on. assert (list_find (fun b => p b = true) (l ++ c :: r) = Some (length l, c)) as ->.
  { apply list_find_Some. split; [by apply list_lookup_middle|]. split; [done|].
    intros j y Hj Hlt Hp. rewrite lookup_app_l in Hj by done. rewrite Forall_lookup in Hl.
    specialize (Hl j y Hj). simpl in Hl. congruence. }
  rewrite take_app_length. f_equal. f_equal. rewrite cons_middle, app_assoc.
  replace (S (length l)) with (length (l ++ [c])) by (rewrite length_app; simpl; lia). apply drop_app_length.
Qed.

Lemma forallb_digits l : Forall (fun b => is_ascii_digit b = true) l -> forallb is_ascii_digit l = true.
Proof. intros Hl. apply forallb_forall. rewrite Forall_forall in Hl. intros x Hx%list_elem_of_In. by apply Hl. Qed.

Lemma digit_facts x : is_ascii_digit x = true ->
  is_exp x = false /\ (x =? chr ".") = false /\ (x =? chr "-") = false /\ (x =? chr "+") = false /\ is_p x = false.
Proof.
  unfold is_ascii_digit, is_exp, between, is_p. chars. compare; intros; try done; split_and!; first [done|lia].
Qed.

(** An exponent, after its underscores are removed, is read back. *)
Lemma parse_exponent_spec indicator exp x : exponent indicator exp x ->
  exists c t, exp = c :: t /\ indicator c = true /\ digits t = digits (tail exp) /\ parse_exponent (digits t) = Some x.
Proof.
  intros (c & sign & ds & -> & Hc & Hneat & Hne & Hsign). exists c, (sign ++ ds). split; [done|]. split; [done|]. split; [done|].
  rewrite digits_app. pose proof (digits_all _ _ Hneat) as Hall. pose proof (digits_ne _ _ Hneat Hne) as Hdne.
  assert (Hok : forallb is_ascii_digit (digits ds) && negb (bool_decide (digits ds = [])) = true).
  { rewrite forallb_digits by done. by rewrite bool_decide_false. }
  unfold parse_exponent. destruct Hsign as [[-> ->]|[[-> ->]|[-> ->]]].
  - simpl. destruct (digits ds) as [|y l] eqn:Hds; [done|]. apply Forall_cons in Hall as [Hy _].
    destruct (digit_facts y Hy) as (_ & _ & -> & -> & _). rewrite Hok. f_equal. lia.
  - change (digits [chr "+"] ++ digits ds) with (chr "+" :: digits ds).
    cbv beta iota. change (chr "+" =? chr "-") with false. change (chr "+" =? chr "+") with true. cbv beta iota.
    rewrite Hok. f_equal. lia.
  - change (digits [chr "-"] ++ digits ds) with (chr "-" :: digits ds).
    cbv beta iota. change (chr "-" =? chr "-") with true. cbv beta iota. by rewrite Hok.
Qed.

Lemma decimal_snoc ds x : decimal (ds ++ [x]) = decimal ds * 10 + (x - chr "0").
Proof. unfold decimal. by rewrite foldl_app. Qed.

Lemma decimal_zero ds : Forall (fun b => is_ascii_digit b = true) ds ->
  decimal ds = 0 <-> existsb (between (chr "1") (chr "9")) ds = false.
Proof.
  induction ds as [|x ds IH] using rev_ind; [done|]. intros [Hds Hx]%Forall_app.
  apply List.Forall_inv in Hx. rewrite decimal_snoc, existsb_app, orb_false_iff, <-IH by done. simpl. rewrite orb_false_r.
  unfold is_ascii_digit, between in *. revert Hx. chars. compare; split; intros; try split; try done; try lia; naive_solver lia.
Qed.

Lemma existsb_digits p l : p (chr "_") = false -> existsb p (digits l) = existsb p l.
Proof.
  intros Hp. induction l as [|x l IH]; [done|]. rewrite digits_cons. destruct (is_underscore x) eqn:Hu; simpl.
  - apply is_underscore_spec in Hu as ->. by rewrite Hp, IH.
  - by rewrite IH.
Qed.

(** A class without underscores and digits does not occur in a numeral. *)
Lemma neat_class (p : N -> bool) ds :
  p (chr "_") = false -> (forall y, is_ascii_digit y = true -> p y = false) -> neat is_ascii_digit ds ->
  Forall (fun b => p b = false) ds /\ Forall (fun b => p b = false) (digits ds).
Proof.
  intros Hu Hp Hneat. assert (Hf : Forall (fun b => p b = false) ds).
  { destruct Hneat as (Hall & _). eapply Forall_impl; [exact Hall|]. intros y. simpl.
    destruct (is_underscore y) eqn:Hy; [apply is_underscore_spec in Hy as ->; done|]. rewrite orb_false_r. apply Hp. }
  split; [done|]. apply Forall_forall. intros y [_ Hy]%list_elem_of_filter. rewrite Forall_forall in Hf. by apply Hf.
Qed.

Section DecimalValue.
Context (left dot right exp : list N) (x : Z).
Context (Hsig : significand is_ascii_digit left dot right).
Context (Hexp : exponent is_exp exp x \/ exp = [] /\ x = 0%Z).

Lemma dot_plain : digits dot = dot /\ Forall (fun b => is_exp b = false) dot.
Proof. destruct Hsig as (_ & _ & _ & [-> |[-> _]]); split; try done; by repeat constructor. Qed.

(** The significand ends at the exponent indicator, with and without underscores. *)
Lemma split_exponent :
  fst (split_on is_exp (left ++ dot ++ right ++ exp)) = left ++ dot ++ right /\
  split_on is_exp (digits (left ++ dot ++ right ++ exp)) =
    (digits left ++ dot ++ digits right, if decide (exp = []) then None else Some (digits (tail exp))).
Proof.
  destruct Hsig as (Hl & Hr & _). destruct dot_plain as [Hdd Hdn].
  destruct (neat_class is_exp left) as [He1 He1']; [done|apply digit_facts|done|].
  destruct (neat_class is_exp right) as [He2 He2']; [done|apply digit_facts|done|].
  rewrite !digits_app, Hdd. destruct Hexp as [He|[-> ->]].
  - apply parse_exponent_spec in He as (c & t & -> & Hc & _).
    assert (Hcu : digits (c :: t) = c :: digits t).
    { rewrite digits_cons. destruct (is_underscore c) eqn:Hu; [apply is_underscore_spec in Hu as ->; done|done]. }
    rewrite Hcu. rewrite !(app_assoc dot), !(app_assoc left), !(app_assoc (digits left)).
    rewrite !split_on_Some by (try done; by repeat apply Forall_app_2). done.
  - rewrite !app_nil_r. rewrite !split_on_None by (by repeat apply Forall_app_2). done.
Qed.

Lemma parse_std_spec t :
  parse_std t (digits (left ++ dot ++ right ++ exp)) =
  Some (round_decimal t (Z.of_N (decimal (digits (left ++ right)))) (x - Z.of_nat (length (digits right)))).
Proof.
  unfold parse_std. destruct split_exponent as [_ ->]. destruct Hsig as (Hl & Hr & Hne & Hdot).
  destruct (neat_class (fun b => b =? chr ".") left) as [_ Hp1]; [done|apply digit_facts|done|].
  assert (Hpoint : split_on (fun b => b =? chr ".") (digits left ++ dot ++ digits right) =
    (digits left, if decide (dot = []) then None else Some (digits right))).
  { destruct Hdot as [-> |[-> ->]]; [by apply split_on_Some|]. rewrite app_nil_r. by apply split_on_None. }
  rewrite Hpoint. assert (Hfrac : default [] (if decide (dot = []) then None else Some (digits right)) = digits right).
  { destruct Hdot as [-> |[-> ->]]; done. }
  rewrite Hfrac, forallb_digits by (apply Forall_app_2; by eapply digits_all). rewrite bool_decide_false; simpl.
  - rewrite digits_app. destruct Hexp as [He|[-> ->]]; [|done].
    apply parse_exponent_spec in He as (c & t' & -> & Hc & _ & Hx). simpl. by rewrite Hx.
  - intros [H1 H2]%app_nil. apply Hne. destruct left; [destruct right; [done|]|]; exfalso;
      [by apply (digits_ne _ _ Hr)|by apply (digits_ne _ _ Hl)].
Qed.

Lemma nonzero_spec :
  decimal_significand_has_nonzero_digit (left ++ dot ++ right ++ exp) = false <-> decimal (digits (left ++ right)) = 0.
Proof.
  unfold decimal_significand_has_nonzero_digit. destruct split_exponent as [-> _]. destruct Hsig as (Hl & Hr & _ & Hdot).
  rewrite decimal_zero by (rewrite digits_app; apply Forall_app_2; by eapply digits_all).
  rewrite existsb_digits, !existsb_app by done. destruct Hdot as [-> |[-> ->]]; done.
Qed.
End DecimalValue.

Lemma decimal_value t had_suffix text n d : decimal_float had_suffix text n d ->
  parse_std t (filter (fun b => b <> chr "_") text) = Some (round_ratio (format t) n d) /\
  (decimal_significand_has_nonzero_digit text = false <-> n = 0%Z) /\ (0 <= n /\ 0 < d)%Z.
Proof.
  intros (left & dot & right & exp & x & -> & Hsig & Hexp & _ & -> & ->).
  rewrite sanitize, (parse_std_spec _ _ _ _ x), (nonzero_spec _ _ _ _ x) by done. split; [done|].
  set (v := decimal _). set (e := (x - _)%Z).
  assert (0 < 10 ^ Z.max 0 e /\ 0 < 10 ^ Z.max 0 (- e))%Z by (split; apply Z.pow_pos_nonneg; lia).
  split; [|nia]. split; [intros ->; lia|]. intros [?|?]%Z.mul_eq_0; lia.
Qed.

(** Rounding, and the checks on its result. *)
Lemma round_checks t n d b e1 e2 (nonzero : bool) :
  (0 <= n)%Z -> (0 < d)%Z -> nearest_even (format t) n d b -> (nonzero = false <-> n = 0%Z) ->
  parses (if is_infinite t b then werr e1 else if (b =? 0)%Z && nonzero then werr e2 else wok (value_of t b))
    (fun v => exists b, nearest_even (format t) n d b /\ b <> inf_pattern (format t) /\ (b = 0%Z -> n = 0%Z) /\
       v = value_of t b).
Proof.
  intros Hn Hd Hb Hnz. unfold is_infinite. destruct (Z.eqb_spec b (inf_pattern (format t))) as [Hi|Hi].
  { apply parses_err. intros v (b' & Hb' & Hne & _). apply Hne. rewrite <-Hi. by eapply nearest_even_unique. }
  destruct ((b =? 0)%Z && nonzero) eqn:Hz.
  { apply parses_err. intros v (b' & Hb' & _ & H0 & _). apply andb_true_iff in Hz as [?%Z.eqb_eq Hnz'].
    assert (b' = b) as -> by by eapply nearest_even_unique. rewrite H0 in Hnz by done. naive_solver. }
  eapply parses_iff; [apply parses_ok|]. intros v. split.
  - intros ->. exists b. split_and!; try done. intros ->. destruct nonzero; [done|]. by apply Hnz.
  - intros (b' & Hb' & _ & _ & ->). f_equal. by eapply nearest_even_unique.
Qed.

(** What a parser returns for a literal of the number [n / d]. *)
Definition rounded (t : FloatTarget) (lit : Z -> Z -> Prop) (bits : Z) : Prop :=
  exists n d, lit n d /\ nearest_even (format t) n d bits /\ bits <> inf_pattern (format t) /\ (bits = 0%Z -> n = 0%Z).

Lemma parse_decimal_floating_spec text had_suffix t :
  parses (parse_decimal_floating text had_suffix t)
    (fun v => exists b, rounded t (decimal_float had_suffix text) b /\ v = value_of t b).
Proof.
  assert (Hval : parses (validate_decimal_floating text had_suffix) (fun _ => exists n d, decimal_float had_suffix text n d)).
  { assert (Hgr : (exists n d, decimal_float had_suffix text n d) <-> exists left dot right exp,
      text = left ++ dot ++ right ++ exp /\ decimal_parts left dot right exp /\ decimal_ok had_suffix left dot right exp).
    { split.
      - intros (n & d & left & dot & right & exp & x & Ht & Hs & He & Hh & _). exists left, dot, right, exp. split; [done|].
        apply decimal_grammar. split; [done|]. split; [|done]. destruct He as [?|[-> _]]; eauto.
      - intros (left & dot & right & exp & Ht & Hp & Hok). destruct (proj1 (decimal_grammar _ _ _ _ _) (conj Hp Hok)) as (Hs & He & Hh).
        destruct He as [-> |[x He]]; do 2 eexists; exists left, dot, right; [exists [], 0%Z|exists exp, x]; (split; [done|]); (split; [done|]); (split; [auto|]); (split; [done|]); split; reflexivity. }
    destruct (decimal_scan_total text 0 None None) as [[e|out] Hscan].
    - assert (Hno : ~ exists n d, decimal_float had_suffix text n d).
      { rewrite Hgr. intros (left & dot & right & exp & Ht & Hp & _).
        assert (Hs : decimal_scan text 0 None None = wok (places left dot right exp)) by (apply scan_spec; eauto 10).
        by rewrite Hs in Hscan. }
      unfold validate_decimal_floating. rewrite Hscan. simpl. repeat case_decide; apply parses_err; by intros _.
    - apply scan_spec in Hscan as (left & dot & right & exp & -> & Hp & _).
      destruct (validate_parts had_suffix left dot right exp Hp) as (r & Hr & Hiff). exists r. split; [done|].
      intros []. rewrite Hiff, Hgr. split; [eauto 10|]. intros (left' & dot' & right' & exp' & Ht & Hp' & Hok').
      destruct (validate_parts had_suffix left' dot' right' exp' Hp') as (r' & Hr' & Hiff').
      rewrite <-Ht, Hr in Hr'. injection Hr' as <-. apply (Hiff ()). by apply (Hiff' ()). }
  unfold parse_decimal_floating.
  eapply parses_iff; [eapply (parses_bind _ _ _ (fun _ v => exists b, rounded t (decimal_float had_suffix text) b /\ v = value_of t b) Hval)|].
  - intros [] (n & d & Hnd). destruct (decimal_value t _ _ _ _ Hnd) as (-> & Hnz & Hn & Hd).
    destruct (format_ok t) as (Hf & Hu & Hi & _).
    eapply parses_iff; [apply (round_checks t n d); try done; apply round_ratio_nearest; lia|].
    intros v. unfold rounded. split; [naive_solver|]. intros (b & (n' & d' & Hnd' & Hb & H1 & H2) & ->).
    destruct (decimal_value t _ _ _ _ Hnd') as (Hstd & Hnz' & Hn' & Hd').
    destruct (decimal_value t _ _ _ _ Hnd) as (Hstd' & _). rewrite Hstd in Hstd'. injection Hstd' as Heq.
    assert (b = round_ratio (format t) n' d') as Hb0.
    { eapply nearest_even_unique; [exact Hd'|done|]. apply round_ratio_nearest; lia. }
    exists b. split; [rewrite Hb0, Heq; apply round_ratio_nearest; lia|]. split; [done|]. split; [|done].
    intros Hz. apply Hnz, Hnz'. by apply H2.
  - intros v. split; [naive_solver|]. intros (b & Hb & ->). exists (). split; [|eauto].
    destruct Hb as (n & d & ? & _). eauto.
Qed.

(** ** The grammar of hexadecimal literals *)

Notation hu := (fun b => is_hex_digit b || is_underscore b = true) (only parsing).

Lemma digits_nil_cons x l : is_underscore x = true -> digits (x :: l) = digits l.
Proof. intros Hx. by rewrite digits_cons, Hx. Qed.

Lemma nibbles_of_app l k : nibbles_of (l ++ k) = nibbles_of l ++ nibbles_of k.
Proof. unfold nibbles_of. by rewrite digits_app, fmap_app. Qed.

(** One step of the significand, in the terms of its result. *)
Lemma nibbles_of_digit x l n : is_underscore x = false -> hex_value x = Some n ->
  nibbles_of (x :: l) = Z.of_N n :: nibbles_of l /\ digits (x :: l) = x :: digits l.
Proof. intros Hu Hx. unfold nibbles_of. rewrite digits_cons, Hu. simpl. by rewrite digit_value_16, Hx. Qed.

Lemma hex_scan_after bytes p_idx rest i nib frac saw :
  parses (hex_scan bytes p_idx rest i nib frac true saw) (fun out => Forall hu rest /\
    out = (nib ++ nibbles_of rest, (frac + Z.of_nat (length (digits rest)))%Z, saw || negb (bool_decide (digits rest = [])))).
Proof.
  revert i nib frac saw. induction rest as [|x rest IH]; intros i nib frac saw; simpl.
  { eapply parses_iff; [apply parses_ok|]. intros out. simpl. rewrite app_nil_r, Z.add_0_r, orb_false_r.
    split; [intros ->; by split; [constructor|]|by intros [_ ->]]. }
  destruct (is_underscore x) eqn:Hu.
  { eapply parses_iff; [apply IH|]. intros out. unfold nibbles_of. rewrite digits_nil_cons, Forall_cons, Hu, orb_true_r by done. naive_solver. }
  destruct (N.eqb_spec x (chr ".")) as [-> |Hd].
  { apply parses_err. intros out [Hall _]. by apply Forall_cons in Hall as [? _]. }
  destruct (hex_value x) as [n|] eqn:Hx.
  2:{ apply parses_err. intros out [Hall _]. apply Forall_cons in Hall as [Hh _]. unfold is_hex_digit in Hh. by rewrite digit_value_16, Hx, Hu in Hh. }
  destruct (nibbles_of_digit x rest n Hu Hx) as [Hn Hds].
  eapply parses_iff; [apply IH|]. intros out. rewrite Hn, Hds, Forall_cons. unfold is_hex_digit at 2. rewrite digit_value_16, Hx, <-app_assoc. simpl.
  rewrite orb_true_r. replace (frac + 1 + Z.of_nat (length (digits rest)))%Z with (frac + Z.of_nat (S (length (digits rest))))%Z by lia.
  naive_solver.
Qed.

(** The significand [rest] after the bytes [pre], as the loop splits it. *)
Definition hex_split (pre rest : list N) (out : list N * list N) : Prop :=
  exists dot, rest = out.1 ++ dot ++ out.2 /\ Forall hu out.1 /\ Forall hu out.2 /\
    (dot = [chr "."] /\ last (pre ++ out.1) <> Some (chr "_") /\ head out.2 <> Some (chr "_") \/ dot = [] /\ out.2 = []).

Definition scan_result (nib : list Z) (frac : Z) (saw : bool) (lr : list N * list N) : list Z * Z * bool :=
  (nib ++ nibbles_of (lr.1 ++ lr.2), (frac + Z.of_nat (length (digits lr.2)))%Z,
   saw || negb (bool_decide (digits (lr.1 ++ lr.2) = []))).

Lemma hex_split_cons pre x rest l r : is_hex_digit x || is_underscore x = true ->
  hex_split pre (x :: rest) (l, r) <-> exists l', l = x :: l' /\ hex_split (pre ++ [x]) rest (l', r).
Proof.
  intros Hx. unfold hex_split. simpl. split.
  - intros (dot & Heq & Hl & Hr & Hdot). destruct l as [|y l].
    { exfalso. destruct Hdot as [(-> & _)|[-> ->]]; simplify_eq/=. }
    simplify_eq/=. exists l. split; [done|]. exists dot. rewrite <-app_assoc. apply Forall_cons in Hl as [_ Hl]. done.
  - intros (l' & -> & dot & -> & Hl & Hr & Hdot). exists dot. rewrite <-app_assoc in Hdot. split_and!; try done. by constructor.
Qed.

Lemma hex_scan_before pre rest exp nib frac saw :
  parses (hex_scan (pre ++ rest ++ exp) (length (pre ++ rest)) rest (length pre) nib frac false saw)
    (fun out => exists lr, hex_split pre rest lr /\ out = scan_result nib frac saw lr).
Proof.
  revert pre nib frac saw. induction rest as [|x rest IH]; intros pre nib frac saw; simpl.
  { eapply parses_iff; [apply parses_ok|]. intros out. unfold scan_result. split.
    - intros ->. exists ([], []). simpl. rewrite app_nil_r, Z.add_0_r, orb_false_r. split; [|done]. exists [].
      simpl. split_and!; auto.
    - intros ([l r] & (dot & Heq & _) & ->). simpl in *. symmetry in Heq. apply app_nil in Heq as [-> [-> ->]%app_nil].
      simpl. by rewrite app_nil_r, Z.add_0_r, orb_false_r. }
  specialize (IH (pre ++ [x])). rewrite !length_app in IH. simpl in IH.
  rewrite <-app_assoc in IH. simpl in IH.
  assert (Hlen : (length pre + 1 + length rest = length (pre ++ x :: rest))%nat) by (rewrite length_app; simpl; lia).
  rewrite Hlen, Nat.add_1_r in IH.
  assert (Hstep : forall nib frac saw nib' frac' saw' (out : list Z * Z * bool), is_hex_digit x || is_underscore x = true ->
    (forall l' r, scan_result nib' frac' saw' (l', r) = scan_result nib frac saw (x :: l', r)) ->
    (exists lr, hex_split (pre ++ [x]) rest lr /\ out = scan_result nib' frac' saw' lr) <->
    (exists lr, hex_split pre (x :: rest) lr /\ out = scan_result nib frac saw lr)).
  { intros nib0 frac0 saw0 nib' frac' saw' out Hx Hres. split.
    - intros ([l' r] & Hs & ->). exists (x :: l', r). split; [|done]. apply hex_split_cons; eauto.
    - intros ([l r] & Hs & ->). apply hex_split_cons in Hs as (l' & -> & Hs); [|done]. by exists (l', r). }
  destruct (is_underscore x) eqn:Hu.
  { eapply parses_iff; [apply IH|]. intros out. apply Hstep; [by apply orb_true_r|]. intros l' r. unfold scan_result, nibbles_of. simpl.
    by rewrite digits_nil_cons. }
  destruct (N.eqb_spec x (chr ".")) as [-> |Hd].
  - rewrite underscore_before_spec by done. simpl.
    assert (Hdot : forall lr, hex_split pre (chr "." :: rest) lr <-> last pre <> Some (chr "_") /\ head rest <> Some (chr "_") /\ Forall hu rest /\ lr = ([], rest)).
    { intros [l r]. unfold hex_split. simpl. split.
      - intros (dot & Heq & Hl & Hr & Hdot). destruct l as [|y l]; [|simplify_eq/=; by apply Forall_cons in Hl as [? _]].
        rewrite app_nil_r in Hdot. destruct Hdot as [(-> & ? & ?)|[-> ->]]; simplify_eq/=; done.
      - intros (Hl & Hh & Hr & [= -> ->]). exists [chr "."]. rewrite app_nil_r. split_and!; auto. }
    case_bool_decide as Hb; [apply parses_err; intros out (lr & Hs%Hdot & _); naive_solver|].
    rewrite underscore_after_spec by done. simpl.
    case_bool_decide as Ha; [apply parses_err; intros out (lr & Hs%Hdot & _); naive_solver|].
    eapply parses_iff; [apply hex_scan_after|]. intros out. setoid_rewrite Hdot. split.
    + intros [Hall ->]. by exists ([], rest).
    + intros (lr & (_ & _ & Hall & ->) & ->). done.
  - destruct (hex_value x) as [n|] eqn:Hx.
    2:{ apply parses_err. intros out ([l r] & (dot & Heq & Hl & Hr & Hdot) & _). simpl in *.
        destruct l as [|y l]; simplify_eq/=; [by destruct Hdot as [(-> & _)|[-> ->]]; simplify_eq/=|].
        apply Forall_cons in Hl as [Hh _]. unfold is_hex_digit in Hh. by rewrite digit_value_16, Hx, Hu in Hh. }
    eapply parses_iff; [apply IH|]. intros out. apply Hstep; [unfold is_hex_digit; by rewrite digit_value_16, Hx|].
    intros l' r. destruct (nibbles_of_digit x (l' ++ r) n Hu Hx) as [Hn Hds].
    unfold scan_result. simpl. rewrite Hn, Hds, <-app_assoc, orb_true_r. done.
Qed.

Lemma check_p_spec (pre : list N) p t : (2 < length pre)%nat ->
  parses (check_p (pre ++ p :: t) (length pre))
    (fun _ => last pre <> Some (chr "_") /\ exp_start_ok t /\ last (p :: t) <> Some (chr "_")).
Proof.
  intros Hpre. unfold check_p. rewrite decide_False by lia. rewrite !length_app. simpl length.
  destruct t as [|x t]; [rewrite decide_True by (simpl; lia); apply parses_err; naive_solver|].
  rewrite decide_False by (simpl; lia).
  destruct pre as [|y pre _] using rev_ind; [simpl in Hpre; lia|]. rewrite last_snoc.
  replace (byte_at ((pre ++ [y]) ++ p :: x :: t) (length (pre ++ [y]) - 1)) with (wok (E := LiteralError) y).
  2:{ rewrite <-app_assoc, length_app. simpl. by rewrite byte_at_middle by lia. }
  simpl. rewrite is_underscore_decide. case_bool_decide as Hy; [apply parses_err; naive_solver|].
  rewrite cons_middle, app_assoc. rewrite byte_at_middle by (rewrite !length_app; simpl; lia). simpl.
  destruct (is_underscore x) eqn:Hx; [apply parses_err; naive_solver|].
  assert (Hend : parses (if decide (last (((pre ++ [y]) ++ [p]) ++ x :: t) = Some (chr "_")) then
      err (lit "Trailing underscore is not allowed in numeric literal") (length (pre ++ [y]) + S (S (length t)) - 1) (length (pre ++ [y]) + S (S (length t)))
    else wok ()) (fun _ => last (p :: x :: t) <> Some (chr "_"))).
  { assert (Hl : last (((pre ++ [y]) ++ [p]) ++ x :: t) = last (p :: x :: t)).
    { rewrite last_app. change (last (p :: x :: t)) with (last (x :: t)).
      destruct (last (x :: t)) eqn:He; [done|]. by apply last_None in He. }
    rewrite Hl. case_decide; [apply parses_err; naive_solver|]. eapply parses_iff; [apply parses_ok|]. by intros []. }
  assert (Hy' : Some y <> Some (chr "_")) by congruence.
  destruct (is_sign x) eqn:Hs; simpl.
  2:{ eapply parses_iff; [apply Hend|]. intros []. naive_solver. }
  destruct t as [|z t]; [rewrite decide_True by (simpl; lia); apply parses_err; naive_solver|].
  rewrite decide_False by (simpl; lia).
  replace (byte_at (((pre ++ [y]) ++ [p]) ++ x :: z :: t) (length (pre ++ [y]) + 2)) with (wok (E := LiteralError) z).
  2:{ rewrite cons_middle, app_assoc. by rewrite byte_at_middle by (rewrite !length_app; simpl; lia). }
  simpl. destruct (is_underscore z) eqn:Hz; [apply parses_err; naive_solver|].
  eapply parses_iff; [apply Hend|]. intros []. naive_solver.
Qed.

Lemma check_exp_chars_spec start t : parses (check_exp_chars start t 0) (fun _ => exp_tail t).
Proof.
  assert (Hrest : forall s i, parses (check_exp_chars start s (S i)) (fun _ => Forall du s)).
  { induction s as [|x s IH]; intros i; simpl.
    { eapply parses_iff; [apply parses_ok|]. intros []. split; [constructor|done]. }
    destruct (is_ascii_digit x || is_underscore x) eqn:Hx.
    - eapply parses_iff; [apply IH|]. intros []. rewrite Forall_cons. naive_solver.
    - apply parses_err. intros _ [? _]%Forall_cons. congruence. }
  destruct t as [|x t]; simpl.
  { eapply parses_iff; [apply parses_ok|]. intros []. split; [intros _; exists [], []; split_and!; auto|done]. }
  assert (Htail : exp_tail (x :: t) <-> (is_sign x = true \/ du x) /\ Forall du t).
  { split.
    - intros (sg & ds & Heq & [-> |(c & -> & Hc)] & Hds); simplify_eq/=; [|by auto].
      apply Forall_cons in Hds as [? ?]. auto.
    - intros [[Hs|Hx] Hall]; [exists [x], t; split_and!; eauto|]. exists [], (x :: t). split_and!; auto. }
  destruct (is_sign x) eqn:Hs; [eapply parses_iff; [apply Hrest|]; intros []; rewrite Htail; naive_solver|].
  destruct (is_ascii_digit x || is_underscore x) eqn:Hx.
  - eapply parses_iff; [apply Hrest|]. intros []. rewrite Htail. naive_solver.
  - apply parses_err. intros _ [[?|?] _]%Htail; congruence.
Qed.

Definition decimal_from (v : N) (ds : list N) : N := foldl (fun v b => v * 10 + (b - chr "0")) v ds.

(** The saturating loop keeps the smaller of the number and the largest [i64]. *)
Lemma exp_digits_spec ds base i w seen : Forall du ds ->
  exp_digits ds base i (Z.min I64_MAX (Z.of_N w)) seen =
  wok (Z.min I64_MAX (Z.of_N (decimal_from w (digits ds))), seen || negb (bool_decide (digits ds = []))).
Proof.
  intros Hds. revert i w seen. induction Hds as [|x ds Hx _ IH]; intros i w seen; simpl; [by rewrite orb_false_r|].
  rewrite digits_cons. destruct (is_underscore x) eqn:Hu; [apply IH|]. rewrite orb_false_r in Hx. rewrite Hx.
  assert (Hstep : saturating_add (saturating_mul (Z.min I64_MAX (Z.of_N w)) 10) (Z.of_N (x - chr "0")) =
    Z.min I64_MAX (Z.of_N (w * 10 + (x - chr "0")))).
  { unfold saturating_add, saturating_mul, clamp_i64. assert (0 < I64_MAX /\ I64_MIN < 0)%Z by done. lia. }
  rewrite Hstep, IH. simpl. by rewrite orb_true_r.
Qed.

(** The exponent of a literal as an [i64]. *)
Definition clamp_exp (x : Z) : Z := Z.max (- I64_MAX) (Z.min I64_MAX x).

Lemma parse_signed_spec indicator c t x base : exponent indicator (c :: t) x ->
  parse_signed_decimal_with_underscores t base = wok (clamp_exp x).
Proof.
  intros (c' & sign & ds & [= <- ->] & _ & Hneat & Hne & Hsign). unfold parse_signed_decimal_with_underscores.
  pose proof (digits_ne _ _ Hneat Hne) as Hdne. destruct Hneat as (Hall & Hh & _).
  assert (Hloop : forall i, exp_digits ds base i 0 false = wok (Z.min I64_MAX (Z.of_N (decimal (digits ds))), true)).
  { intros i. pose proof (exp_digits_spec ds base i 0 false Hall) as He. rewrite bool_decide_false in He by done. apply He. }
  assert (0 < I64_MAX /\ I64_MIN < - I64_MAX)%Z by done. unfold clamp_exp.
  destruct Hsign as [[-> ->]|[[-> ->]|[-> ->]]].
  - destruct ds as [|y ds]; [done|]. simpl app. cbv beta iota.
    assert (Hy : is_ascii_digit y = true).
    { apply Forall_cons in Hall as [Hy _]. apply du_digit; [done|]. rewrite is_underscore_decide.
      apply bool_decide_eq_false. by intros ->. }
    destruct (digit_facts y Hy) as (_ & _ & -> & -> & _). rewrite drop_0, Hloop. simpl. f_equal. f_equal.
    unfold saturating_mul, clamp_i64. lia.
  - change ([chr "+"] ++ ds) with (chr "+" :: ds). cbv beta iota. change (chr "+" =? chr "+") with true.
    cbv beta iota. simpl drop. rewrite drop_0, Hloop. simpl. f_equal. f_equal. unfold saturating_mul, clamp_i64. lia.
  - change ([chr "-"] ++ ds) with (chr "-" :: ds). cbv beta iota. change (chr "-" =? chr "+") with false.
    change (chr "-" =? chr "-") with true. cbv beta iota. simpl drop. rewrite drop_0, Hloop. simpl. f_equal. f_equal.
    unfold saturating_mul, clamp_i64. lia.
Qed.

(** The parts of a hexadecimal literal. *)
Definition hex_parts (text : list N) (out : list Z * Z * Z) : Prop :=
  exists c left dot right exp x, text = [chr "0"; c] ++ left ++ dot ++ right ++ exp /\
    (c = chr "x" \/ c = chr "X") /\ significand is_hex_digit left dot right /\ exponent is_p exp x /\
    out = (nibbles_of (left ++ right), Z.of_nat (length (digits right)), clamp_exp x).

Lemma significand_no_p left dot right : significand is_hex_digit left dot right ->
  Forall (fun b => is_p b = false) (left ++ dot ++ right).
Proof.
  assert (Hp : forall x, hu x -> is_p x = false).
  { intros x. simpl. unfold is_hex_digit. rewrite digit_value_16. unfold hex_value, is_underscore, is_p, between. chars. compare; try done; lia. }
  intros ((Hl & _) & (Hr & _) & _ & Hdot). repeat apply Forall_app_2.
  - by eapply Forall_impl; [exact Hl|].
  - destruct Hdot as [-> |[-> _]]; by repeat constructor.
  - by eapply Forall_impl; [exact Hr|].
Qed.

(** The checks on the significand, as its grammar. *)
Lemma significand_checks c s left right : c <> chr "_" ->
  (exists dot, s = left ++ dot ++ right /\ significand is_hex_digit left dot right) <->
  hex_split [chr "0"; c] s (left, right) /\ head s <> Some (chr "_") /\ last s <> Some (chr "_") /\ digits (left ++ right) <> [].
Proof.
  intros Hc. unfold hex_split, significand, neat. cbn [fst snd].
  assert (Hpoint : Some (chr ".") <> Some (chr "_")) by (vm_compute; discriminate).
  assert (Hpre : forall l : list N, last ([chr "0"; c] ++ l) <> Some (chr "_") <-> last l <> Some (chr "_")).
  { intros l. rewrite last_app_ne. simpl. split; [naive_solver|].
    intros ?. split; [done|]. intros _. congruence. }
  split.
  - intros (dot & -> & (Hl & Hhl & Hll) & (Hr & Hhr & Hlr) & Hne & Hdot).
    assert (Hdig : digits (left ++ right) <> []).
    { rewrite digits_app. intros [H1 H2]%app_nil. destruct left; [destruct right; [done|]|].
      - by apply (digits_ne is_hex_digit (n :: right)).
      - by apply (digits_ne is_hex_digit (n :: left)). }
    setoid_rewrite Hpre. rewrite !head_app_ne, !last_app_ne. split; [exists dot|]; destruct Hdot as [-> |[-> ->]]; simpl in *; split_and!; intuition congruence.
  - intros ((dot & -> & Hl & Hr & Hdot) & Hh & Hlast & Hdig). rewrite Hpre in Hdot. exists dot. split; [done|].
    assert (Hne : left ++ right <> []) by (intros He; by rewrite He in Hdig).
    rewrite !head_app_ne in Hh. rewrite !last_app_ne in Hlast.
    destruct Hdot as [(-> & ? & ?)|[-> ->]]; simpl in *; split_and!; intuition congruence.
Qed.

(** The literal splits at the first [p]. *)
Lemma hex_parts_split c s p t out : (c = chr "x" \/ c = chr "X") ->
  Forall (fun b => is_p b = false) s -> is_p p = true ->
  hex_parts ([chr "0"; c] ++ s ++ p :: t) out <->
  exists left right x, (exists dot, s = left ++ dot ++ right /\ significand is_hex_digit left dot right) /\
    exponent is_p (p :: t) x /\ out = (nibbles_of (left ++ right), Z.of_nat (length (digits right)), clamp_exp x).
Proof.
  intros Hc Hs Hp. split.
  - intros (c' & left & dot & right & exp & x & Heq & _ & Hsig & Hexp & ->). injection Heq as <- Heq.
    exists left, right, x. pose proof (significand_no_p _ _ _ Hsig) as Hno.
    destruct Hexp as (p' & sign & ds & -> & Hp' & Hexp).
    assert (Hsplit : s = left ++ dot ++ right /\ p :: t = p' :: sign ++ ds).
    { pose proof (split_on_Some is_p s p t Hs Hp) as H1.
      pose proof (split_on_Some is_p (left ++ dot ++ right) p' (sign ++ ds) Hno Hp') as H2.
      assert (Heq' : s ++ p :: t = (left ++ dot ++ right) ++ p' :: sign ++ ds) by (rewrite Heq, <-!app_assoc; done).
      rewrite Heq', H2 in H1. injection H1 as H1 H3. split; [done|]. rewrite <-H1 in Heq'. by apply app_inv_head in Heq'. }
    destruct Hsplit as [-> Ht]. split; [by exists dot|]. split; [|done]. rewrite Ht. by exists p', sign, ds.
  - intros (left & right & x & (dot & -> & Hsig) & Hexp & ->). exists c, left, dot, right, (p :: t), x.
    by rewrite <-!app_assoc.
Qed.

(** The same in terms of the checks. *)
Definition hex_checked (c : N) (s : list N) (p : N) (t : list N) (out : list Z * Z * Z) : Prop :=
  exists left right x,
    (hex_split [chr "0"; c] s (left, right) /\ head s <> Some (chr "_") /\ last s <> Some (chr "_") /\ digits (left ++ right) <> []) /\
    exponent is_p (p :: t) x /\ out = (nibbles_of (left ++ right), Z.of_nat (length (digits right)), clamp_exp x).

Lemma hex_parts_checked c s p t out : (c = chr "x" \/ c = chr "X") ->
  Forall (fun b => is_p b = false) s -> is_p p = true ->
  hex_parts ([chr "0"; c] ++ s ++ p :: t) out <-> hex_checked c s p t out.
Proof.
  intros Hc Hs Hp. assert (Hcu : c <> chr "_") by (destruct Hc as [-> | ->]; by intros [=]).
  rewrite hex_parts_split by done.
  split; intros (left & right & x & Hsig & ?); exists left, right, x; (split; [|done]); by apply (significand_checks c).
Qed.

(** The end of [hex_components], from the exponent on. *)
Lemma hex_exponent_spec start e p t (nib : list Z) (frac : Z) (saw : bool) : is_p p = true -> exp_start_ok t -> last (p :: t) <> Some (chr "_") ->
  parses (if negb saw then werr e
    else if decide (head t = Some (chr "_") \/ last t = Some (chr "_")) then
      err (lit "Underscore is not allowed at start/end of exponent") start (start + length t)
    else
      _ <-- check_exp_chars start t 0 ;;
      exp_val <-- parse_signed_decimal_with_underscores t start ;;
      wok (nib, frac, exp_val))
    (fun out => saw = true /\ exists x, exponent is_p (p :: t) x /\ out = (nib, frac, clamp_exp x)).
Proof.
  intros Hp Hst Hlt. destruct saw; simpl; [|by apply parses_err; intros out [? _]].
  rewrite decide_False.
  2:{ destruct t as [|x t]; [done|]. destruct Hst as [Hx _]. rewrite is_underscore_decide, bool_decide_eq_false in Hx.
      simpl in *. intros [Hh|Hl]; [naive_solver|done]. }
  eapply parses_iff; [apply (parses_then _ _ _ (fun out => exists x, exponent is_p (p :: t) x /\ out = (nib, frac, clamp_exp x)) (check_exp_chars_spec start t))|].
  - intros Ht. destruct (proj2 (exponent_checks is_p p t)) as [x Hx]; [done|]. rewrite (parse_signed_spec _ _ _ _ start Hx). simpl.
    eapply parses_iff; [apply parses_ok|]. intros out. split; [by eauto|]. intros (x' & Hx' & ->).
    pose proof (parse_signed_spec _ _ _ _ start Hx) as H1. rewrite (parse_signed_spec _ _ _ _ start Hx') in H1. injection H1 as ->. done.
  - intros out. split; [naive_solver|]. intros (_ & x & Hx & ->). split; [|by eauto].
    by destruct (proj1 (exponent_checks is_p p t) (ex_intro _ x Hx)) as (_ & ? & _).
Qed.

Lemma hex_components_spec c rest : (c = chr "x" \/ c = chr "X") ->
  parses (hex_components ([chr "0"; c] ++ rest)) (hex_parts ([chr "0"; c] ++ rest)).
Proof.
  intros Hc. assert (Hcu : c <> chr "_" /\ is_p c = false) by (destruct Hc as [-> | ->]; split; try done; by intros [=]).
  destruct Hcu as [Hcu Hcp]. unfold hex_components.
  assert (Hnone : forall out, Forall (fun b => is_p b = false) rest -> ~ hex_parts ([chr "0"; c] ++ rest) out).
  { intros out Hrest (c' & left & dot & right & exp & x & Heq & _ & _ & (p & sg & ds & -> & Hp & _) & _). simplify_eq/=.
    rewrite !Forall_app, Forall_cons in Hrest. destruct Hrest as (_ & _ & _ & Hp' & _). congruence. }
  destruct (list_find (fun b => is_p b = true) ([chr "0"; c] ++ rest)) as [[p_idx p]|] eqn:Hfind.
  2:{ repeat case_decide; apply parses_err; intros out; apply Hnone; apply list_find_None in Hfind;
      apply Forall_app in Hfind as [_ Hr]; (eapply Forall_impl; [exact Hr|]); intros y; simpl; by destruct (is_p y). }
  assert (Hsplit : exists s t, rest = s ++ p :: t /\ p_idx = length ([chr "0"; c] ++ s) /\ Forall (fun b => is_p b = false) s /\ is_p p = true).
  { apply list_find_Some in Hfind as (Hi & Hp & Hlt).
    destruct p_idx as [|[|p_idx]]; simpl in Hi; [by simplify_eq|simplify_eq; congruence|].
    exists (take p_idx rest), (drop (S p_idx) rest). split; [symmetry; by apply take_drop_middle|].
    apply lookup_lt_Some in Hi as Hl. split; [simpl; rewrite length_take; lia|]. split; [|done].
    apply Forall_lookup. intros j y [Hj Hjl]%lookup_take_Some. specialize (Hlt (S (S j)) y Hj ltac:(lia)). by destruct (is_p y). }
  clear Hnone. destruct Hsplit as (s & t & -> & -> & Hs & Hp).
  eapply parses_iff; [|intros out; symmetry; by apply hex_parts_checked].
  rewrite decide_False by (rewrite !length_app; simpl; lia).
  destruct s as [|y s].
  { assert (Hno : forall out, ~ hex_checked c [] p t out).
    { intros out (left & right & x & ((dot & Heq & _) & _ & _ & Hd) & _). simpl in Heq. symmetry in Heq.
      apply app_nil in Heq as [-> [-> ->]%app_nil]. done. }
    case_decide; apply parses_err; apply Hno. }
  destruct (decide _) as [Hy|Hy].
  { apply parses_err. intros out (left & right & x & (_ & Hh & _) & _). apply Hh. apply Hy. }
  set (s0 := y :: s) in *.
  assert (Htake : drop 2 (take (length ([chr "0"; c] ++ s0)) ([chr "0"; c] ++ s0 ++ p :: t)) = s0).
  { rewrite app_assoc, take_app_length. done. }
  assert (Hdrop : drop (length ([chr "0"; c] ++ s0) + 1) ([chr "0"; c] ++ s0 ++ p :: t) = t).
  { replace ([chr "0"; c] ++ s0 ++ p :: t) with ((([chr "0"; c] ++ s0) ++ [p]) ++ t) by by rewrite <-!app_assoc.
    replace (length ([chr "0"; c] ++ s0) + 1)%nat with (length (([chr "0"; c] ++ s0) ++ [p])) by (rewrite !length_app; simpl; lia).
    apply drop_app_length. }
  assert (Hlen : length ([chr "0"; c] ++ s0 ++ p :: t) = (length ([chr "0"; c] ++ s0) + 1 + length t)%nat)
    by (rewrite !length_app; simpl; lia).
  rewrite Htake, Hdrop, Hlen.
  eapply parses_iff; [eapply (parses_then _ _ (last ([chr "0"; c] ++ s0) <> Some (chr "_") /\ exp_start_ok t /\ last (p :: t) <> Some (chr "_")))|].
  - rewrite app_assoc. apply check_p_spec. rewrite length_app. simpl. lia.
  - intros (Hlp & Hst & Hlt). eapply (parses_bind _ _ _ (fun '(nib, frac, saw) out => saw = true /\ exists x, exponent is_p (p :: t) x /\ out = (nib, frac, clamp_exp x)));
      [apply (hex_scan_before [chr "0"; c] s0 (p :: t))|].
    intros [[nib frac] saw] _. by apply (hex_exponent_spec _ _ p t).
  - intros out. unfold hex_checked. split.
    + intros ((Hlp%last_app_ne & _) & [[nib frac] saw] & ([left right] & Hsplit & [= -> -> ->]) & Hsaw & x & Hx & ->).
      exists left, right, x. simpl in Hsaw. rewrite negb_true_iff, bool_decide_eq_false in Hsaw.
      split_and!; first [done|apply Hlp|intros Hh; by apply Hy].
    + intros (left & right & x & (Hsplit & Hh & Hl & Hd) & Hx & ->).
      destruct (proj1 (exponent_checks is_p p t) (ex_intro _ x Hx)) as (_ & _ & ? & ?).
      split; [split; [by apply last_app_ne|done]|]. eexists (_, _, _). split; [by exists (left, right)|]. simpl. by rewrite bool_decide_false; eauto.
Qed.

(** ** The value of hexadecimal literals *)

Lemma nearest_zero t d : nearest_even (format t) 0 d 0.
Proof.
  destruct (format_ok t) as (Hf & Hu & Hi & _). split; [lia|]. intros b' Hb'. unfold distance.
  assert (H0 : units (format t) 0 = 0%Z) by (by destruct t). rewrite H0. simpl. split; [lia|]. intros _ _. by exists 0%Z.
Qed.

(** The exponent of the code rounds like the exponent of the literal, also where it saturates. *)
Lemma nearest_saturated t v bl x frac b : (0 < v < 2 ^ bl)%Z -> (0 <= bl <= 2 ^ 60)%Z -> (0 <= frac < 2 ^ 58)%Z ->
  let exp2 := saturating_sub (clamp_exp x) (saturating_mul frac 4) in
  let e := (x - 4 * frac)%Z in
  nearest_even (format t) (scale_num v exp2) (scale_den exp2) b -> nearest_even (format t) (scale_num v e) (scale_den e) b.
Proof.
  intros Hv Hbl Hfrac exp2 e Hb.
  assert (HI : (I64_MIN = - 2 ^ 63 /\ I64_MAX = 2 ^ 63 - 1)%Z) by done.
  assert (He : exp2 = clamp_i64 (clamp_exp x - 4 * frac)).
  { unfold exp2, saturating_sub, saturating_mul. f_equal. unfold clamp_i64. lia. }
  unfold clamp_i64, clamp_exp in He.
  destruct (Z.lt_ge_cases (2 ^ 62) x) as [Hbig|Hbig].
  { assert (b = inf_pattern (format t)) as ->; [|apply nearest_huge; lia].
    eapply nearest_even_unique; [|exact Hb|apply nearest_huge; lia]. apply (scale_nonneg v); lia. }
  destruct (Z.lt_ge_cases x (- 2 ^ 62)) as [Hsmall|Hsmall].
  { assert (b = 0%Z) as ->; [|apply (nearest_tiny t v bl); lia].
    eapply nearest_even_unique; [|exact Hb|apply (nearest_tiny t v bl); lia]. apply (scale_nonneg v); lia. }
  assert (exp2 = e) as Heq by lia. rewrite Heq in Hb. done.
Qed.

Lemma hex_round_spec end_ nib frac x t : Nibbles nib -> (Z.of_nat (length nib) < 2 ^ 58)%Z -> (0 <= frac < 2 ^ 58)%Z ->
  let e := (x - 4 * frac)%Z in
  parses (hex_round end_ nib frac (clamp_exp x) t)
    (fun v => exists b, nearest_even (format t) (scale_num (nibbles_value nib) e) (scale_den e) b /\
       b <> inf_pattern (format t) /\ (b = 0%Z -> scale_num (nibbles_value nib) e = 0%Z) /\ v = value_of t b).
Proof.
  intros Hnib Hlen Hfrac e. unfold hex_round. apply trim_Nibbles in Hnib as Ht.
  pose proof (bit_len_nibbles_spec _ Ht) as Hbl. rewrite trim_value in Hbl.
  assert (Htl : (length (trim_leading_zero_nibbles nib) <= length nib)%nat).
  { clear. induction nib as [|n l IH]; simpl; [lia|]. case_match; simpl; lia. }
  assert (Hden : (0 < scale_den e)%Z) by by apply (scale_nonneg 0).
  destruct (bit_len_nibbles (trim_leading_zero_nibbles nib)) as [bl|] eqn:Hb.
  - destruct Hbl as [Hbl Hv]. assert (0 < nibbles_value nib)%Z by (pose proof (Z.pow_pos_nonneg 2 (bl - 1)); lia).
    destruct (binary_to_ieee_bits_nearest _ bl (saturating_sub (clamp_exp x) (saturating_mul frac 4)) t Ht Hb) as (b & -> & Hnear).
    + lia.
    + unfold saturating_sub, clamp_i64. assert (I64_MIN < I64_MAX)%Z by done. lia.
    + rewrite trim_value in Hnear. simpl. apply (nearest_saturated t _ bl) in Hnear; [|lia..].
      pose proof (round_checks t (scale_num (nibbles_value nib) e) (scale_den e) b (mkLiteralError (lit "Floating-point literal is too large") (0%nat, end_))
        (mkLiteralError (lit "Floating-point literal is too small") (0%nat, end_)) true) as Hr.
      rewrite andb_true_r in Hr. apply Hr; [by apply scale_nonneg; lia|done|done|].
      split; [done|]. unfold scale_num. intros [?|Hp]%Z.mul_eq_0; [lia|]. exfalso. revert Hp. apply Z.pow_nonzero; lia.
  - rewrite Hbl. unfold scale_num. rewrite Z.mul_0_l. eapply parses_iff; [apply parses_ok|]. intros v. split.
    + intros ->. exists 0%Z. split; [apply nearest_zero|]. split; [|done]. by destruct t.
    + intros (b & Hnear & _ & _ & ->). f_equal. eapply nearest_even_unique; [|exact Hnear|apply nearest_zero]. done.
Qed.

Lemma nibbles_of_Nibbles ds : Nibbles (nibbles_of ds).
Proof.
  unfold nibbles_of, Nibbles. apply Forall_fmap, Forall_forall. intros x _. simpl.
  rewrite digit_value_16. destruct (hex_value x) as [n|] eqn:Hx; simpl; [apply hex_value_lt in Hx|]; lia.
Qed.

Lemma length_digits ds : (length (digits ds) <= length ds)%nat.
Proof. apply length_filter. Qed.

Lemma parse_hex_floating_spec c rest t : (c = chr "x" \/ c = chr "X") ->
  (Z.of_nat (length ([chr "0"; c] ++ rest)) < 2 ^ 58)%Z ->
  parses (parse_hex_floating ([chr "0"; c] ++ rest) t)
    (fun v => exists b, rounded t (hex_float ([chr "0"; c] ++ rest)) b /\ v = value_of t b).
Proof.
  intros Hc Hlen. set (text := [chr "0"; c] ++ rest) in *.
  destruct (hex_components_spec c rest Hc) as (r & Hr & Hiff). fold text in Hr, Hiff.
  unfold parse_hex_floating. rewrite Hr.
  assert (Htail : forall out n d, r = inr out -> hex_float text n d ->
    let '(nib, frac, ev) := out in
    parses (hex_round (length text) nib frac ev t) (fun v => exists b, nearest_even (format t) n d b /\
       b <> inf_pattern (format t) /\ (b = 0%Z -> n = 0%Z) /\ v = value_of t b)).
  { intros out n d Hout (c' & left & dot & right & exp & x & Ht & Hc' & Hsig & Hexp & -> & ->).
    assert (Hpart : hex_parts text (nibbles_of (left ++ right), Z.of_nat (length (digits right)), clamp_exp x)) by by exists c', left, dot, right, exp, x.
    apply Hiff in Hpart. rewrite Hout in Hpart. injection Hpart as ->.
    rewrite Ht, !length_app in Hlen. pose proof (length_digits (left ++ right)) as H1. pose proof (length_digits right).
    rewrite length_app in H1. apply hex_round_spec; [apply nibbles_of_Nibbles| |lia].
    unfold nibbles_of. rewrite length_fmap. lia. }
  assert (Hfloat : forall out, hex_parts text out -> exists n d, hex_float text n d).
  { intros out (c' & left & dot & right & exp & x & Ht & Hc' & Hsig & Hexp & _).
    do 2 eexists. exists c', left, dot, right, exp, x. split_and!; done. }
  destruct r as [e|[[nib frac] ev]]; simpl.
  - apply parses_err. intros v (b & (n & d & Hnd & _) & _).
    destruct Hnd as (c' & left & dot & right & exp & x & Ht & Hc' & Hsig & Hexp & _).
    assert (Hpart : hex_parts text (nibbles_of (left ++ right), Z.of_nat (length (digits right)), clamp_exp x)) by by exists c', left, dot, right, exp, x.
    by apply Hiff in Hpart.
  - destruct (Hfloat _ (proj1 (Hiff _) eq_refl)) as (n & d & Hnd). destruct (Htail _ n d eq_refl Hnd) as (r' & Hr' & Hiff').
    exists r'. split; [done|]. intros v. unfold rounded. split.
    + intros (b & ? & ? & ? & ->)%Hiff'. exists b. split; [|done]. by exists n, d.
    + intros (b & (n' & d' & Hnd' & Hb & Hi & Hz) & ->). destruct (Htail _ n' d' eq_refl Hnd') as (r'' & Hr'' & Hiff'').
      rewrite Hr' in Hr''. injection Hr'' as <-. apply Hiff''. by exists b.
Qed.

(** ** Literals with their suffixes *)

Lemma exponent_last indicator exp x : exponent indicator exp x -> exists z, last exp = Some z /\ is_ascii_digit z = true.
Proof.
  intros (c & sign & ds & -> & _ & (Hall & _ & Hl) & Hne & _). destruct ds as [|z ds _] using rev_ind; [done|].
  exists z. change (c :: sign ++ ds ++ [z]) with ((c :: sign) ++ ds ++ [z]). rewrite app_assoc, last_snoc in *. split; [done|].
  apply Forall_app in Hall as [_ Hz]. apply List.Forall_inv in Hz. apply du_digit; [done|].
  rewrite is_underscore_decide. apply bool_decide_eq_false. congruence.
Qed.

Lemma neat_last p ds : neat p ds -> ds <> [] -> exists z, last ds = Some z /\ p z = true.
Proof.
  intros (Hall & _ & Hl) Hne. destruct ds as [|z ds _] using rev_ind; [done|]. exists z. rewrite last_snoc in *. split; [done|].
  apply Forall_app in Hall as [_ Hz]. apply List.Forall_inv in Hz.
  assert (is_underscore z = false) as Hu by (rewrite is_underscore_decide; apply bool_decide_eq_false; congruence).
  by rewrite Hu, orb_false_r in Hz.
Qed.

(** A literal without its suffix ends in a digit or a point. *)
Lemma float_main_last hs main n d : decimal_float hs main n d \/ hex_float main n d ->
  exists z, last main = Some z /\ (is_ascii_digit z = true \/ z = chr ".").
Proof.
  intros [(left & dot & right & exp & x & -> & (Hl & Hr & Hne & Hdot) & Hexp & _)|
          (c & left & dot & right & exp & x & -> & _ & _ & Hexp & _)].
  - rewrite !app_assoc, last_app. destruct Hexp as [(z & -> & Hz)%exponent_last|[-> _]]; [eauto|]. simpl.
    rewrite last_app. destruct right as [|y right].
    + simpl. rewrite last_app. destruct Hdot as [-> |[-> _]]; [simpl; eauto|]. simpl. rewrite app_nil_r in Hne.
      destruct (neat_last _ _ Hl Hne) as (z & -> & Hz). eauto.
    + destruct (neat_last _ _ Hr) as (z & -> & Hz); [done|]. eauto.
  - apply exponent_last in Hexp as (z & Hz & ?). rewrite !app_assoc, last_app, Hz. eauto.
Qed.

Lemma decimal_not_hex hs main n d : decimal_float hs main n d -> starts_0x main = false.
Proof.
  intros (left & dot & right & exp & x & Ht & (Hl & Hr & _ & Hdot) & Hexp & _).
  assert (Hx : Forall (fun b => (b =? chr "x") || (b =? chr "X") = false) main).
  { assert (Hdu : forall b, is_ascii_digit b || is_underscore b = true \/ is_exp b = true \/ is_sign b = true -> (b =? chr "x") || (b =? chr "X") = false).
    { intros b. unfold is_ascii_digit, is_underscore, is_exp, is_sign, between. chars.
      destruct (N.eqb_spec b 120) as [-> |]; [by intros [[=]|[[=]|[=]]]|]. by destruct (N.eqb_spec b 88) as [-> |]; [intros [[=]|[[=]|[=]]]|]. }
    rewrite Ht. repeat apply Forall_app_2.
    - destruct Hl as (Hl & _). eapply Forall_impl; [exact Hl|]. intros b Hb. apply Hdu. by left.
    - destruct Hdot as [-> |[-> _]]; by repeat constructor.
    - destruct Hr as (Hr & _). eapply Forall_impl; [exact Hr|]. intros b Hb. apply Hdu. by left.
    - destruct Hexp as [(c & sign & ds & -> & Hc & (Hds & _) & _ & Hsign)|[-> _]]; [|done].
      constructor; [apply Hdu; auto|]. apply Forall_app_2.
      + destruct Hsign as [[-> _]|[[-> _]|[-> _]]]; by repeat constructor.
      + eapply Forall_impl; [exact Hds|]. intros b Hb. apply Hdu. by left. }
  unfold starts_0x. destruct main as [|a [|b main]]; [done|done|].
  apply Forall_cons in Hx as [_ Hx]. apply Forall_cons in Hx as [-> _]. by rewrite andb_false_r.
Qed.

Lemma hex_starts main n d : hex_float main n d -> starts_0x main = true.
Proof. intros (c & left & dot & right & exp & x & -> & [-> | ->] & _); done. Qed.

Lemma starts_0x_split main : starts_0x main = true -> exists c rest, main = [chr "0"; c] ++ rest /\ (c = chr "x" \/ c = chr "X").
Proof.
  unfold starts_0x. destruct main as [|a [|c rest]]; [done|done|].
  intros [->%N.eqb_eq Hc%orb_true_iff]%andb_true_iff. rewrite !N.eqb_eq in Hc. by exists c, rest.
Qed.

Definition float_main (had_suffix : bool) (main : list N) (n d : Z) : Prop :=
  decimal_float had_suffix main n d \/ hex_float main n d.

Lemma parse_main_spec main had_suffix t : (Z.of_nat (length main) < 2 ^ 58)%Z ->
  parses (value <-- (if starts_0x main then parse_hex_floating main t else parse_decimal_floating main had_suffix t) ;;
          wok (from_target t value))
    (rounded t (float_main had_suffix main)).
Proof.
  intros Hlen.
  assert (Hm : parses (if starts_0x main then parse_hex_floating main t else parse_decimal_floating main had_suffix t)
    (fun v => exists b, rounded t (float_main had_suffix main) b /\ v = value_of t b)).
  { unfold rounded, float_main. destruct (starts_0x main) eqn:Hs.
    - destruct (starts_0x_split main Hs) as (c & rest & -> & Hc). eapply parses_iff; [by apply parse_hex_floating_spec|].
      intros v. unfold rounded. split; [naive_solver|]. intros (b & (n & d & [Hd%decimal_not_hex|Hh] & Hb) & ->); [congruence|eauto 10].
    - eapply parses_iff; [apply parse_decimal_floating_spec|].
      intros v. unfold rounded. split; [naive_solver|]. intros (b & (n & d & [Hd|Hh%hex_starts] & Hb) & ->); [eauto 10|congruence]. }
  eapply parses_iff; [eapply (parses_bind _ _ _ (fun value b => b = from_target t value) Hm); intros v _; apply parses_ok|].
  intros b. assert (Hft : forall b, from_target t (value_of t b) = b) by by destruct t.
  split; [intros (v & (b' & Hb & ->) & ->); by rewrite Hft|]. intros Hb. exists (value_of t b). split; [eauto|by rewrite Hft].
Qed.

Lemma parse_after_suffix_spec bytes t main_end had_suffix : (Z.of_nat (length bytes) < 2 ^ 58)%Z ->
  parses (parse_after_suffix bytes t main_end had_suffix) (rounded t (float_main had_suffix (take main_end bytes))).
Proof.
  intros Hlen. unfold parse_after_suffix. set (main := take main_end bytes).
  assert (Hmain : (Z.of_nat (length main) < 2 ^ 58)%Z) by (unfold main; rewrite length_take; lia).
  assert (Hlast : forall b, rounded t (float_main had_suffix main) b -> last main <> None /\ last main <> Some (chr "_")).
  { intros b (n & d & (z & -> & Hz)%float_main_last & _). split; [done|]. intros [= ->]. by destruct Hz. }
  destruct (decide (main = [])) as [He|_]; [apply parses_err; intros b Hb%Hlast; rewrite He in Hb; naive_solver|].
  destruct (decide (last main = _)); [apply parses_err; intros b Hb%Hlast; naive_solver|]. by apply parse_main_spec.
Qed.

Lemma rounded_iff t (P Q : Z -> Z -> Prop) b : (forall n d, P n d <-> Q n d) -> rounded t P b <-> rounded t Q b.
Proof. intros HPQ. unfold rounded. by setoid_rewrite HPQ. Qed.

Lemma rounded_none t P b : (forall n d, ~ P n d) -> ~ rounded t P b.
Proof. intros HP (n & d & H & _). by destruct (HP n d). Qed.

(** Bytes that end a literal, by their last character. *)
Definition is_f (z : N) : bool := (z =? chr "f") || (z =? chr "F").
Definition is_d (z : N) : bool := (z =? chr "d") || (z =? chr "D").

Lemma float_literal_snoc t text z n d :
  float_literal t (text ++ [z]) n d <->
  match t with
  | F32 => is_f z = true /\ float_main true text n d
  | F64 => is_d z = true /\ float_main true text n d \/ is_f z = false /\ is_d z = false /\ float_main false (text ++ [z]) n d
  end.
Proof.
  assert (Hend : forall hs, float_main hs (text ++ [z]) n d -> is_f z = false /\ is_d z = false).
  { intros hs (y & Hy & Hyz)%float_main_last. rewrite last_snoc in Hy. injection Hy as ->.
    destruct Hyz as [Hyz| ->]; [|done]. revert Hyz. unfold is_f, is_d, is_ascii_digit, between. chars. compare; try done; lia. }
  unfold float_literal, float_suffix, is_f, is_d in *. destruct t.
  - rewrite orb_true_iff, !N.eqb_eq. split.
    + intros (main & suffix & Heq & [-> | ->] & Hm); apply app_inj_2 in Heq as [-> [= ->]]; auto.
    + intros [[-> | ->] Hm]; [exists text, [chr "f"]|exists text, [chr "F"]]; auto.
  - rewrite orb_true_iff, !N.eqb_eq. split.
    + intros (main & suffix & Heq & [-> |[-> | ->]] & Hm); [|by apply app_inj_2 in Heq as [-> [= ->]]; auto..].
      rewrite app_nil_r in Heq. subst main. right. destruct (Hend false Hm). auto.
    + intros [[[-> | ->] Hm]|(_ & _ & Hm)]; [exists text, [chr "d"]|exists text, [chr "D"]|exists (text ++ [z]), []]; auto.
      rewrite app_nil_r. auto.
Qed.

(** The suffix as the code finds it. *)
Lemma split_float_suffix_spec text z t :
  parses (split_float_suffix (text ++ [z]) t) (fun out =>
    match t with
    | F32 => is_f z = true /\ last text <> Some (chr "_") /\ out = (length text, true)
    | F64 => is_f z = false /\
        (is_d z = true /\ last text <> Some (chr "_") /\ out = (length text, true) \/
         is_d z = false /\ out = (length (text ++ [z]), false))
    end).
Proof.
  unfold split_float_suffix. assert (Hl : (length (text ++ [z]) - 1 = length text)%nat) by (rewrite length_app; simpl; lia).
  rewrite Hl, byte_at_middle, underscore_before_spec by done. simpl. fold (is_f z) (is_d z).
  destruct t, (is_f z); simpl; try (apply parses_err; naive_solver); [|destruct (is_d z); simpl];
    try (case_bool_decide; simpl); try (apply parses_err; naive_solver);
    (eapply parses_iff; [apply parses_ok|]); naive_solver.
Qed.

Lemma parse_floating_literal_spec text t : (Z.of_nat (length text) < 2 ^ 58)%Z ->
  parses (parse_floating_literal text t) (rounded t (float_literal t text)).
Proof.
  intros Hlen. unfold parse_floating_literal. destruct text as [|z text _] using rev_ind.
  { apply parses_err. intros b. apply rounded_none. intros n d (main & suffix & Heq & _ & Hm).
    symmetry in Heq. apply app_nil in Heq as [-> _]. by apply float_main_last in Hm as (? & [=] & _). }
  rewrite decide_False by by destruct text.
  assert (Hu : forall n d, float_main true text n d -> last text <> Some (chr "_")).
  { intros n d (y & -> & Hy)%float_main_last [= ->]. by destruct Hy. }
  eapply parses_iff; [eapply (parses_bind _ _ _ (fun '(main_end, hs) => rounded t (float_main hs (take main_end (text ++ [z])))));
    [apply split_float_suffix_spec|]; intros [main_end hs] _; by apply parse_after_suffix_spec|].
  intros b. unfold rounded. setoid_rewrite float_literal_snoc.
  assert (Htake : take (length text) (text ++ [z]) = text) by apply take_app_length.
  assert (Htake' : take (length (text ++ [z])) (text ++ [z]) = text ++ [z]) by by apply take_ge.
  destruct t; split.
  - intros ([m hs] & (Hf & _ & [= -> ->]) & n & d & Hm & Hb). rewrite Htake in Hm. by exists n, d.
  - intros (n & d & (Hf & Hm) & Hb). exists (length text, true). split; [by split_and!; eauto|].
    exists n, d. by rewrite Htake.
  - intros ([m hs] & (Hf & [(Hd & _ & [= -> ->])|(Hd & [= -> ->])]) & n & d & Hm & Hb); exists n, d;
      rewrite ?Htake, ?Htake' in Hm; auto.
  - intros (n & d & [(Hd & Hm)|(Hf & Hd & Hm)] & Hb); [exists (length text, true)|exists (length (text ++ [z]), false)];
      (split; [|exists n, d; by rewrite ?Htake, ?Htake']); [|by auto].
    split; [|left; by split_and!; eauto]. revert Hd. unfold is_f, is_d. chars. compare; try done; lia.
Qed.

(** C16: Floating-point literals are read as Java defines them.  [parse_float_literal] and
    [parse_double_literal] return for every text of less than 2^58 bytes, and accept exactly the decimal and
    hexadecimal literals of their type, underscores included, unless the number rounds to
    infinity or a number other than zero rounds to zero.  The bits are those of the float nearest to the number
    written, the even one of two, for subnormal numbers and for exponents of any length too. *)
Theorem floating_literals_exact text : (Z.of_nat (length text) < 2 ^ 58)%Z ->
  parses (parse_float_literal text) (rounded F32 (float_literal F32 text)) /\
  parses (parse_double_literal text) (rounded F64 (float_literal F64 text)).
Proof. intros Hlen. split; by apply parse_floating_literal_spec. Qed.

(** One and a half times the smallest subnormal number is written as twice that number. *)
Lemma floating_literals_exact_witness :
  (Z.of_nat (length (lit "0x1.8p-149f")) < 2 ^ 58)%Z /\
  rounded F32 (float_literal F32 (lit "0x1.8p-149f")) 2.
Proof.
  split; [reflexivity|]. destruct (proj1 (floating_literals_exact (lit "0x1.8p-149f") eq_refl)) as (r & Hr & Hiff).
  apply Hiff. vm_compute in Hr. injection Hr as <-. reflexivity.
Defined.
