(* ===== verification/Unescape.v ===== *)
(** * Character, string and text block literals (crates/nova-syntax/src/literals.rs)

    The code walks over the bytes of a text and decodes characters that are not ASCII from the
    text.  A text is the list of its characters (Str.v), its bytes are their encoding, positions
    count bytes.  Every turn of a loop consumes a byte at least, so that the number of bytes left is
    enough fuel. *)

From Stdlib Require Import Ascii String.
From stdpp Require Import base numbers strings option list.
From S2P Require Import Prelude Str Wire Literals.

Local Open Scope N_scope.

Notation QUOTE := 34 (only parsing).
Notation APOSTROPHE := 39 (only parsing).
Notation BACKSLASH := 92 (only parsing).
Notation LF := 10 (only parsing).
Notation CR := 13 (only parsing).

(** ** Escapes *)

(** The escapes of one character. *)
Definition simple_escape (next : N) : option N :=
  if next =? chr "b" then Some 8
  else if next =? chr "t" then Some 9
  else if next =? chr "n" then Some 10
  else if next =? chr "f" then Some 12
  else if next =? chr "r" then Some 13
  else if next =? QUOTE then Some QUOTE
  else if next =? APOSTROPHE then Some APOSTROPHE
  else if next =? BACKSLASH then Some BACKSLASH
  else if next =? chr "s" then Some 32
  else None.

(** [while j < end && bytes[j] == b'u' { j += 1 }]. *)
Fixpoint skip_u (fuel : nat) (bytes : list N) (j end_ : nat) : lres nat :=
  if decide (j < end_)%nat then
    match fuel with
    | O => OutOfFuel
    | S fuel =>
        x <-- byte_at bytes j ;;
        if x =? chr "u" then skip_u fuel bytes (S j) end_ else wok j
    end
  else wok j.

(** The loop over the four digits of a Unicode escape. *)
Fixpoint unicode_digits (bytes : list N) (ks : list nat) (j : nat) (value : N) : lres N :=
  match ks with
  | [] => wok value
  | k :: ks =>
      let pos := (j + k)%nat in
      x <-- byte_at bytes pos ;;
      match hex_value x with
      | None => err (lit "Invalid hex digit `" ++ [x] ++ lit "` in unicode escape") pos (pos + 1)
      | Some digit => unicode_digits bytes ks j (N.lor (N.shiftl value 4 mod 2 ^ 32) digit)
      end
  end.

(** [char::from_u32]. *)
Definition from_u32 (value : N) : option N := if is_scalar value then Some value else None.

Definition unicode_escape (text : str) (i end_ : nat) (out : str) : lres (nat * str) :=
  let bytes := as_bytes text in
  j <-- skip_u (end_ - (i + 2)) bytes (i + 2) end_ ;;
  if decide (end_ < j + 4)%nat then err (lit "Incomplete unicode escape") i end_
  else
    value <-- unicode_digits bytes [0; 1; 2; 3]%nat j 0 ;;
    match from_u32 value with
    | None => err (lit "Unicode escape is not a valid scalar value") i (j + 4)
    | Some ch => wok ((j + 4)%nat, out ++ [ch])
    end.

Definition is_octal (b : N) : bool := between (chr "0") (chr "7") b.

(** The loop over the digits of an octal escape; [remaining] is [max_digits - count]. *)
Fixpoint octal_digits (remaining : nat) (bytes : list N) (j end_ : nat) (value : N) : lres (nat * N) :=
  match remaining with
  | O => wok (j, value)
  | S remaining =>
      if decide (j < end_)%nat then
        x <-- byte_at bytes j ;;
        if is_octal x then octal_digits remaining bytes (S j) end_ (value * 8 + (x - chr "0")) else wok (j, value)
      else wok (j, value)
  end.

Definition octal_escape (text : str) (first : N) (i end_ : nat) (out : str) : lres (nat * str) :=
  let max_digits := if first <=? chr "3" then 3%nat else 2%nat in
  '(j, value) <-- octal_digits max_digits (as_bytes text) (i + 1) end_ 0 ;;
  match from_u32 value with
  | None => err (lit "Octal escape is not a valid scalar value") i j
  | Some ch => wok (j, out ++ [ch])
  end.

Definition unescape_java_escape (text : str) (i end_ : nat) (allow_line_continuation : bool) (out : str) : lres (nat * str) :=
  let bytes := as_bytes text in
  backslash <-- byte_at bytes i ;;
  if negb (backslash =? BACKSLASH) then Panic
  else if decide (end_ <= i + 1)%nat then err (lit "Unterminated escape sequence") i end_
  else
    next <-- byte_at bytes (i + 1) ;;
    if allow_line_continuation && ((next =? LF) || (next =? CR)) then
      let new_idx := (i + 2)%nat in
      crlf <-- (if (next =? CR) && bool_decide (new_idx < end_)%nat then b <-- byte_at bytes new_idx ;; wok (b =? LF)
                else wok false) ;;
      wok ((if crlf : bool then new_idx + 1 else new_idx)%nat, out)
    else
      match simple_escape next with
      | Some c => wok ((i + 2)%nat, out ++ [c])
      | None =>
          if next =? chr "u" then unicode_escape text i end_ out
          else if is_octal next then octal_escape text next i end_ out
          else err (lit "Unknown escape sequence `\" ++ [next] ++ lit "`") i (i + 2)
      end.

(** ** Strings and characters *)

(** A character of a literal that is no escape: [text[idx..end].chars().next()], or the replacement
    character. *)
Definition next_char (text : str) (i end_ : nat) (b : N) (out : str) : lres (nat * str) :=
  if b <? 0x80 then wok (S i, out ++ [b])
  else
    rest <-- elift (slice text i end_) ;;
    let ch := default 0xFFFD (head rest) in
    wok ((i + len_utf8 ch)%nat, out ++ [ch]).

(** The loop of [unescape_java_string_like]. *)
Fixpoint string_loop (fuel : nat) (text : str) (i end_ : nat) (allow_line_continuation : bool) (out : str) : lres str :=
  if decide (i < end_)%nat then
    match fuel with
    | O => OutOfFuel
    | S fuel =>
        x <-- byte_at (as_bytes text) i ;;
        if x =? BACKSLASH then
          '(i, out) <-- unescape_java_escape text i end_ allow_line_continuation out ;;
          string_loop fuel text i end_ allow_line_continuation out
        else if (x =? LF) || (x =? CR) then
          err (lit "Line terminator is not allowed in string/char literal") i (i + 1)
        else
          '(i, out) <-- next_char text i end_ x out ;;
          string_loop fuel text i end_ allow_line_continuation out
    end
  else wok out.

Definition unescape_java_string_like (text : str) (start end_ : nat) (allow_line_continuation : bool) (out : str) : lres str :=
  string_loop (end_ - start) text start end_ allow_line_continuation out.

Definition unescape_string_literal (text : str) : lres str :=
  let bytes := as_bytes text in
  if (length bytes <? 2)%nat || negb (bool_decide (head bytes = Some QUOTE)) || negb (bool_decide (last bytes = Some QUOTE)) then
    err (lit "Invalid string literal") 0 (length bytes)
  else unescape_java_string_like text 1 (length bytes - 1) false [].

Definition unescape_char_literal (text : str) : lres N :=
  let bytes := as_bytes text in
  if (length bytes <? 2)%nat || negb (bool_decide (head bytes = Some APOSTROPHE)) || negb (bool_decide (last bytes = Some APOSTROPHE)) then
    err (lit "Invalid char literal") 0 (length bytes)
  else
    out <-- unescape_java_string_like text 1 (length bytes - 1) false [] ;;
    match out with
    | [] => err (lit "Empty char literal") 0 (length bytes)
    | ch :: _ =>
        if 1 <? utf16_len out then err (lit "Char literal must contain exactly one character") 0 (length bytes)
        else wok ch
    end.

(** ** The literals of Java *)

(** The escapes of one character (JLS 3.10.7): backspace, tab, line feed, form feed, carriage return,
    space, the quotes and the backslash. *)
Definition LETTERS : list (N * N) :=
  [(chr "b", 0x08); (chr "t", 0x09); (chr "n", 0x0A); (chr "f", 0x0C); (chr "r", 0x0D); (chr "s", 0x20);
   (QUOTE, 0x22); (APOSTROPHE, 0x27); (BACKSLASH, 0x5C)].

(** The text of an escape after its backslash, and the character it stands for: a letter; four
    hexadecimal digits, after as many [u] as one likes, that are no surrogate; or up to three octal
    digits of a number below 256. *)
Inductive Escape : str -> N -> Prop :=
| EscLetter e c : (e, c) ∈ LETTERS -> Escape [e] c
| EscHex k ds : length ds = 4%nat -> Forall (fun d => is_Some (digit_value 16 d)) ds ->
    ~ 0xD800 <= number 16 ds < 0xE000 -> Escape (replicate (S k) (chr "u") ++ ds) (number 16 ds)
| EscOct ds : ds <> [] -> (length ds <= 3)%nat -> Forall (fun d => is_Some (digit_value 8 d)) ds ->
    (length ds = 3%nat -> number 8 ds < 256) -> Escape ds (number 8 ds).

(** The escape [e] is the longest one at the start of [e ++ rest]. *)
Definition longest (e rest : str) : Prop := forall d c, head rest = Some d -> ~ Escape (e ++ [d]) c.

(** The text between the quotes and the string it stands for. *)
Inductive Content : str -> str -> Prop :=
| ContentEnd : Content [] []
| ContentPlain c cs out : c <> BACKSLASH -> c <> LF -> c <> CR -> Content cs out -> Content (c :: cs) (c :: out)
| ContentEscape e c cs out : Escape e c -> longest e cs -> Content cs out -> Content (BACKSLASH :: e ++ cs) (c :: out).

(** ** Windows of bytes *)

(** [bytes] are the bytes of the text from [i] to [e]. *)
Definition window (text : str) (i e : nat) (bytes : list N) : Prop :=
  exists p s, as_bytes text = p ++ bytes ++ s /\ i = length p /\ e = length (p ++ bytes).

Lemma window_length text i e bytes : window text i e bytes -> e = (i + length bytes)%nat.
Proof. intros (p & s & _ & -> & ->). apply length_app. Qed.

Lemma window_app text i e l k : window text i e (l ++ k) -> window text (i + length l) e k.
Proof.
  intros (p & s & Hb & -> & ->). exists (p ++ l), s. rewrite Hb, <-!app_assoc, length_app. done.
Qed.

Lemma window_cons text i e x k : window text i e (x :: k) ->
  byte_at (as_bytes text) i = wok x /\ (i < e)%nat /\ window text (S i) e k.
Proof.
  intros Hw. split; [|split; [apply window_length in Hw; simpl in Hw; lia|]].
  - destruct Hw as (p & s & -> & -> & _). unfold byte_at, idx. simpl. by rewrite list_lookup_middle.
  - apply (window_app text i e [x]) in Hw. by rewrite Nat.add_1_r in Hw.
Qed.

Lemma window_text pre cur post : window (pre ++ cur ++ post) (str_len pre) (str_len (pre ++ cur)) (as_bytes cur).
Proof. exists (as_bytes pre), (as_bytes post). by rewrite !as_bytes_app, length_app, !length_as_bytes, str_len_app. Qed.

(** *** ASCII characters are their bytes *)

Definition ascii (c : N) : Prop := c < 0x80.

Lemma as_bytes_cons c s : as_bytes (c :: s) = encode_utf8 c ++ as_bytes s.
Proof. done. Qed.

Lemma encode_ascii c : ascii c -> encode_utf8 c = [c].
Proof. unfold ascii, encode_utf8. intros Hc. destruct (N.ltb_spec c 0x80); [done|lia]. Qed.

Lemma bytes_of_ascii l : Forall ascii l -> as_bytes l = l.
Proof. induction 1 as [|c l Hc _ IH]; [done|]. by rewrite as_bytes_cons, encode_ascii, IH. Qed.

Lemma encode_head c : exists b bs, encode_utf8 c = b :: bs /\ (c < 0x80 -> b = c) /\ (0x80 <= c -> 0x80 <= b).
Proof.
  destruct (encode_utf8 c) as [|b bs] eqn:He.
  { pose proof (length_encode_utf8 c) as Hl. rewrite He in Hl. pose proof (len_utf8_pos c). simpl in Hl. lia. }
  exists b, bs. split; [done|]. split.
  - intros Hc. rewrite encode_ascii in He by done. congruence.
  - intros Hc. apply (encode_utf8_high c); [done|]. rewrite He. constructor.
Qed.

(** A prefix of ASCII bytes is a prefix of characters. *)
Lemma ascii_prefix l k cs : Forall ascii l -> as_bytes cs = l ++ k -> exists rest, cs = l ++ rest /\ as_bytes rest = k.
Proof.
  intros Hl. revert cs. induction Hl as [|x l Hx _ IH]; intros cs Hcs; [by exists cs|].
  destruct cs as [|c cs]; [done|]. destruct (encode_head c) as (b & bs & Hb & Hlo & Hhi).
  rewrite as_bytes_cons, Hb in Hcs. injection Hcs as -> Hcs.
  destruct (N.lt_ge_cases c 0x80) as [Hc|Hc]; [|unfold ascii in Hx; specialize (Hhi Hc); lia].
  rewrite (Hlo Hc) in *. rewrite encode_ascii in Hb by done. injection Hb as <-.
  destruct (IH cs Hcs) as (rest & -> & Hr). by exists rest.
Qed.

(** The next byte is ASCII only if the next character is, and then they are equal. *)
Lemma head_bytes cs b : ascii b -> head (as_bytes cs) = Some b <-> head cs = Some b.
Proof.
  intros Hb. destruct cs as [|c cs]; [done|]. destruct (encode_head c) as (x & xs & He & Hlo & Hhi).
  rewrite as_bytes_cons, He. simpl. unfold ascii in Hb. destruct (N.lt_ge_cases c 0x80) as [Hc|Hc].
  - rewrite (Hlo Hc). done.
  - specialize (Hhi Hc). split; intros [= ->]; lia.
Qed.

Lemma octal_ascii d : is_octal d = true -> ascii d.
Proof. unfold is_octal, between, ascii. chars. compare; try done; lia. Qed.

Lemma hex_ascii d : is_Some (hex_value d) -> ascii d.
Proof. intros [v Hv]. revert Hv. unfold hex_value, between, ascii. chars. compare; try done; lia. Qed.

(** ** The loops of escapes *)

Lemma skip_u_spec fuel text j e bytes : window text j e bytes -> (length bytes <= fuel)%nat ->
  exists m k, bytes = replicate m (chr "u") ++ k /\ head k <> Some (chr "u") /\
    skip_u fuel (as_bytes text) j e = wok (j + m)%nat.
Proof.
  revert j fuel. induction bytes as [|x bytes IH]; intros j fuel Hw Hf.
  { apply window_length in Hw. simpl in Hw. exists 0%nat, []. split; [done|]. split; [done|].
    destruct fuel; simpl; rewrite decide_False by lia; by rewrite Nat.add_0_r. }
  destruct (window_cons _ _ _ _ _ Hw) as (Hx & Hlt & Hw'). destruct fuel as [|fuel]; [simpl in Hf; lia|]. simpl.
  rewrite decide_True by done. rewrite Hx. simpl. destruct (N.eqb_spec x (chr "u")) as [-> |Hne].
  - destruct (IH (S j) fuel Hw') as (m & k & -> & Hk & Heq); [simpl in Hf; lia|]. exists (S m), k.
    split; [done|]. split; [done|]. by replace (j + S m)%nat with (S j + m)%nat by lia.
  - exists 0%nat, (x :: bytes). split; [done|]. split; [by intros [= ->]|]. by rewrite Nat.add_0_r.
Qed.

Lemma push_nibble v d : v < 2 ^ 28 -> d < 16 -> N.lor (N.shiftl v 4 mod 2 ^ 32) d = v * 16 + d.
Proof.
  intros Hv Hd. rewrite N.shiftl_mul_pow2. change (2 ^ 28) with 268435456 in Hv. change (2 ^ 32) with 4294967296.
  change (2 ^ 4) with 16. rewrite N.mod_small by lia.
  rewrite <-N.lxor_lor, <-N.add_nocarry_lxor; [done| |].
  all: apply N.bits_inj_0; intros n; rewrite N.land_spec; change 16 with (2 ^ 4); destruct (N.lt_ge_cases n 4);
    [rewrite N.mul_pow2_bits_low by done; done|].
  all: rewrite (N.bits_above_log2 d); [apply andb_false_r|]; destruct (N.eq_dec d 0) as [-> |]; [simpl; lia|];
    apply N.log2_lt_pow2; [lia|]; change 16 with (2 ^ 4) in Hd; eapply N.lt_le_trans; [exact Hd|]; apply N.pow_le_mono_r; lia.
Qed.

Lemma hex_no_underscore d : is_Some (hex_value d) -> is_underscore d = false.
Proof. intros [v Hv]. destruct (is_underscore d) eqn:Hu; [|done]. apply is_underscore_spec in Hu as ->. done. Qed.

Lemma number_4 a b c d : Forall (fun d => is_Some (hex_value d)) [a; b; c; d] ->
  number 16 [a; b; c; d] = (((default 0 (hex_value a)) * 16 + default 0 (hex_value b)) * 16 + default 0 (hex_value c)) * 16 + default 0 (hex_value d).
Proof.
  intros Hall. repeat match goal with H : Forall _ (_ :: _) |- _ => apply Forall_cons in H as [? H] end.
  unfold number. rewrite !digits_cons, !hex_no_underscore by done. simpl.
  by rewrite !digit_value_16.
Qed.

Lemma unicode_digits_spec text j e a b c d bytes : window text j e ([a; b; c; d] ++ bytes) ->
  parses (unicode_digits (as_bytes text) [0; 1; 2; 3]%nat j 0)
    (fun v => Forall (fun d => is_Some (hex_value d)) [a; b; c; d] /\ v = number 16 [a; b; c; d]).
Proof.
  intros Hw. destruct (window_cons _ _ _ _ _ Hw) as (H0 & _ & Hw1). destruct (window_cons _ _ _ _ _ Hw1) as (H1 & _ & Hw2).
  destruct (window_cons _ _ _ _ _ Hw2) as (H2 & _ & Hw3). destruct (window_cons _ _ _ _ _ Hw3) as (H3 & _ & _).
  assert (Hfail : forall x e, x ∈ [a; b; c; d] -> hex_value x = None ->
    parses (werr e) (fun v => Forall (fun d => is_Some (hex_value d)) [a; b; c; d] /\ v = number 16 [a; b; c; d])).
  { intros x e0 Hx Hn. apply parses_err. intros v [Hall _]. rewrite Forall_forall in Hall. apply Hall in Hx as [? ?]. congruence. }
  simpl. rewrite Nat.add_0_r, H0. simpl. destruct (hex_value a) as [va|] eqn:Ha; [|eapply Hfail; [|exact Ha]; apply list_elem_of_In; simpl; tauto].
  rewrite Nat.add_1_r, H1. simpl. destruct (hex_value b) as [vb|] eqn:Hb; [|eapply Hfail; [|exact Hb]; apply list_elem_of_In; simpl; tauto].
  replace (j + 2)%nat with (S (S j)) by lia. rewrite H2. simpl. destruct (hex_value c) as [vc|] eqn:Hc; [|eapply Hfail; [|exact Hc]; apply list_elem_of_In; simpl; tauto].
  replace (j + 3)%nat with (S (S (S j))) by lia. rewrite H3. simpl. destruct (hex_value d) as [vd|] eqn:Hd; [|eapply Hfail; [|exact Hd]; apply list_elem_of_In; simpl; tauto].
  pose proof (hex_value_lt _ _ Ha). pose proof (hex_value_lt _ _ Hb). pose proof (hex_value_lt _ _ Hc). pose proof (hex_value_lt _ _ Hd).
  assert (Hall : Forall (fun d => is_Some (hex_value d)) [a; b; c; d]) by (repeat constructor; eauto).
  eapply parses_iff; [apply parses_ok|]. intros v. rewrite number_4, Ha, Hb, Hc, Hd by done. simpl default.
  rewrite (push_nibble 0 va) by lia. rewrite N.mul_0_l, N.add_0_l.
  rewrite (push_nibble va vb), (push_nibble (va * 16 + vb) vc), (push_nibble ((va * 16 + vb) * 16 + vc) vd) by lia. naive_solver.
Qed.

Lemma octal_digits_spec n text j e bytes v : window text j e bytes ->
  exists ds k, bytes = ds ++ k /\ Forall (fun d => is_octal d = true) ds /\ (length ds <= n)%nat /\
    (length ds = n \/ forall d, head k = Some d -> is_octal d = false) /\
    octal_digits n (as_bytes text) j e v = wok ((j + length ds)%nat, foldl (fun v x => v * 8 + (x - chr "0")) v ds).
Proof.
  revert j bytes v. induction n as [|n IH]; intros j bytes v Hw.
  { exists [], bytes. simpl. rewrite Nat.add_0_r. split_and!; auto. }
  destruct bytes as [|x bytes].
  { apply window_length in Hw. simpl in Hw. exists [], []. simpl. rewrite decide_False by lia.
    rewrite Nat.add_0_r. split_and!; auto; [lia|]. by right. }
  destruct (window_cons _ _ _ _ _ Hw) as (Hx & Hlt & Hw'). simpl. rewrite decide_True by done. rewrite Hx. simpl.
  destruct (is_octal x) eqn:Ho.
  - destruct (IH (S j) bytes (v * 8 + (x - chr "0")) Hw') as (ds & k & -> & Hds & Hl & Hmax & Heq).
    exists (x :: ds), k. simpl. split; [done|]. split; [by constructor|]. split; [lia|]. split; [destruct Hmax; [left; lia|by right]|].
    by replace (j + S (length ds))%nat with (S j + length ds)%nat by lia.
  - exists [], (x :: bytes). simpl. rewrite Nat.add_0_r. split_and!; auto; [lia|]. right. by intros d [= <-].
Qed.

(** ** Escapes *)

(** What the code returns for an escape that starts the characters [cs]. *)
Definition escape_result (cs : str) (i : nat) (out : str) (r : nat * str) : Prop :=
  exists e c rest, cs = e ++ rest /\ Escape e c /\ longest e rest /\ r = ((i + 1 + length e)%nat, out ++ [c]).

Lemma octal_plain d : is_octal d = true ->
  simple_escape d = None /\ d <> chr "u" /\ is_underscore d = false /\ digit_value 8 d = Some (d - chr "0").
Proof.
  unfold is_octal, between. intros Ho.
  assert (Hd : In d [48; 49; 50; 51; 52; 53; 54; 55]).
  { revert Ho. chars. compare; try done; simpl; lia. }
  repeat destruct Hd as [<-|Hd]; done.
Qed.

Lemma simple_plain e c : simple_escape e = Some c -> e <> chr "u" /\ is_octal e = false /\ ascii e.
Proof.
  unfold simple_escape, ascii. intros Hs. split_and!.
  - by intros ->.
  - destruct (is_octal e) eqn:Ho; [|done]. apply octal_plain in Ho as (Hn & _). unfold simple_escape in Hn. congruence.
  - revert Hs. chars. compare; try done; lia.
Qed.

Lemma number_octal ds : Forall (fun d => is_octal d = true) ds ->
  number 8 ds = foldl (fun v x => v * 8 + (x - chr "0")) 0 ds.
Proof.
  assert (Hfrom : forall v, Forall (fun d => is_octal d = true) ds ->
    number_from 8 v ds = foldl (fun v x => v * 8 + (x - chr "0")) v ds); [|apply (Hfrom 0)].
  induction ds as [|x ds IH]; intros v Hds; [done|]. apply Forall_cons in Hds as [Hx Hds].
  destruct (octal_plain x Hx) as (_ & _ & Hu & Hd). unfold number_from. rewrite digits_cons, Hu. simpl.
  rewrite Hd. by apply IH.
Qed.

Lemma octal_scalar ds : Forall (fun d => is_octal d = true) ds -> (length ds <= 3)%nat -> is_scalar (number 8 ds) = true.
Proof.
  intros Hds Hl. rewrite number_octal by done.
  assert (Hb : forall d, is_octal d = true -> d - chr "0" < 8).
  { intros d. unfold is_octal, between. chars. compare; try done; lia. }
  assert (Hlt : foldl (fun v x => v * 8 + (x - chr "0")) 0 ds < 512).
  { destruct ds as [|a [|b [|c [|d ds]]]]; simpl in *; try lia;
      repeat match goal with H : Forall _ (_ :: _) |- _ => apply Forall_cons in H as [?%Hb H] end; lia. }
  unfold is_scalar. destruct (N.ltb_spec (foldl (fun v x => v * 8 + (x - chr "0")) 0 ds) 0xD800); [done|lia].
Qed.

(** *** Escapes as the code sees them *)

Lemma simple_escape_exact e c : simple_escape e = Some c <-> (e, c) ∈ LETTERS.
Proof.
  split.
  - unfold simple_escape, LETTERS. rewrite !elem_of_cons, elem_of_nil. compare; intros [= <-]; subst; tauto.
  - unfold LETTERS. rewrite !elem_of_cons, elem_of_nil. intros H. repeat destruct H as [[= -> ->]|H]; done.
Qed.

Lemma octal_digit_iff d : is_Some (digit_value 8 d) <-> is_octal d = true.
Proof.
  split; [|by intros (_ & _ & _ & ->)%octal_plain].
  rewrite digit_value_hex. unfold hex_value, is_octal, between. chars. compare; try done; try lia; by intros [? ?].
Qed.

Lemma octal_digits_iff ds : Forall (fun d => is_Some (digit_value 8 d)) ds <-> Forall (fun d => is_octal d = true) ds.
Proof. rewrite !Forall_forall. by setoid_rewrite octal_digit_iff. Qed.

Lemma hex_digits_iff ds : Forall (fun d => is_Some (digit_value 16 d)) ds <-> Forall (fun d => is_Some (hex_value d)) ds.
Proof. rewrite !Forall_forall. by setoid_rewrite digit_value_16. Qed.

(** Three digits are below 256 if the first is at most 3. *)
Lemma octal_three ds : ds <> [] -> Forall (fun d => is_octal d = true) ds ->
  (length ds <= 3)%nat /\ (length ds = 3%nat -> number 8 ds < 256) <->
  (length ds <= if (default 0 (head ds) <=? chr "3")%N then 3 else 2)%nat.
Proof.
  intros Hne Hds. destruct ds as [|a ds]; [done|]. simpl default.
  destruct (decide (length (a :: ds) = 3%nat)) as [H3|H3]; [|destruct (a <=? chr "3"); lia].
  rewrite (number_octal _ Hds). destruct ds as [|b [|c [|]]]; try done.
  repeat match goal with H : Forall _ (_ :: _) |- _ => apply Forall_cons in H as [? H] end. simpl.
  unfold is_octal, between in *. chars.
  repeat match goal with H : (_ <=? _) && (_ <=? _) = true |- _ => apply andb_true_iff in H as [?%N.leb_le ?%N.leb_le] end.
  destruct (N.leb_spec a 51); split; [lia..| |lia]. intros [_ Hn]. specialize (Hn eq_refl). lia.
Qed.

Lemma number_16_lt ds : length ds = 4%nat -> Forall (fun d => is_Some (hex_value d)) ds -> number 16 ds < 0x10000.
Proof.
  intros Hl Hds. destruct ds as [|a [|b [|c [|d [|]]]]]; try done. rewrite number_4 by done.
  assert (H : forall x, default 0 (hex_value x) < 16).
  { intros x. destruct (hex_value x) eqn:E; simpl; [by apply hex_value_lt in E|lia]. }
  pose proof (H a). pose proof (H b). pose proof (H c). pose proof (H d). lia.
Qed.

Lemma hex_scalar ds : length ds = 4%nat -> Forall (fun d => is_Some (hex_value d)) ds ->
  is_scalar (number 16 ds) = true <-> ~ 0xD800 <= number 16 ds < 0xE000.
Proof.
  intros Hl Hds. pose proof (number_16_lt ds Hl Hds). unfold is_scalar.
  rewrite orb_true_iff, andb_true_iff, !N.ltb_lt, N.leb_le. lia.
Qed.

Lemma EscSimple e c : simple_escape e = Some c -> Escape [e] c.
Proof. intros ?%simple_escape_exact. by apply EscLetter. Qed.

Lemma EscUnicode k ds : length ds = 4%nat -> Forall (fun d => is_Some (hex_value d)) ds -> is_scalar (number 16 ds) = true ->
  Escape (replicate (S k) (chr "u") ++ ds) (number 16 ds).
Proof. intros Hl Hh Hs. apply EscHex; [done|by apply hex_digits_iff|by apply hex_scalar]. Qed.

Lemma EscOctal ds : ds <> [] -> Forall (fun d => is_octal d = true) ds ->
  (length ds <= if (default 0 (head ds) <=? chr "3")%N then 3 else 2)%nat -> Escape ds (number 8 ds).
Proof. intros Hne Ho Hl. apply octal_three in Hl as [? ?]; [|done..]. apply EscOct; [done..| |done]. by apply octal_digits_iff. Qed.

(** The shape of an escape by its first character. *)
Lemma escape_first e c : Escape e c -> exists x e', e = x :: e' /\
  (simple_escape x = Some c /\ e' = [] \/
   x = chr "u" /\ (exists k ds, e' = replicate k (chr "u") ++ ds /\ length ds = 4%nat /\
     Forall (fun d => is_Some (hex_value d)) ds /\ is_scalar (number 16 ds) = true /\ c = number 16 ds) \/
   is_octal x = true /\ Forall (fun d => is_octal d = true) e /\
     (length e <= if (x <=? chr "3")%N then 3 else 2)%nat /\ c = number 8 e).
Proof.
  intros [e0 c0 Hs%simple_escape_exact|k ds Hl Hh%hex_digits_iff Hs|ds Hne Hl Ho%octal_digits_iff Hn].
  - exists e0, []. auto.
  - apply hex_scalar in Hs; [|done..].
    exists (chr "u"), (replicate k (chr "u") ++ ds). split; [done|]. right. left. split; [done|]. by exists k, ds.
  - pose proof (proj1 (octal_three ds Hne Ho) (conj Hl Hn)). destruct ds as [|x ds]; [done|]. exists x, ds.
    split; [done|]. right. right. split; [by apply Forall_cons in Ho as [? _]|done].
Qed.

Lemma hex_not_u x : is_Some (hex_value x) -> x <> chr "u".
Proof. intros [v Hv] ->. done. Qed.

Lemma replicate_unique (u : N) m k (l r : list N) :
  replicate m u ++ l = replicate k u ++ r -> head l <> Some u -> head r <> Some u -> m = k /\ l = r.
Proof.
  revert k. induction m as [|m IH]; intros [|k] Heq Hl Hr; simpl in *; [done|by subst|by subst|].
  injection Heq as Heq. destruct (IH k Heq Hl Hr) as [-> ->]. done.
Qed.

(** The Unicode escapes at the start of [cs], in terms of the bytes after the letters [u]. *)
Lemma unicode_result cs m k i out r : as_bytes cs = replicate m (chr "u") ++ k -> head k <> Some (chr "u") ->
  escape_result (chr "u" :: cs) i out r <-> exists ds rest, k = ds ++ as_bytes rest /\ length ds = 4%nat /\
    Forall (fun d => is_Some (hex_value d)) ds /\ is_scalar (number 16 ds) = true /\ r = ((i + 2 + m + 4)%nat, out ++ [number 16 ds]).
Proof.
  intros Hb Hk. split.
  - intros (e0 & c & rest & Heq & He0 & Hlong & ->). apply escape_first in He0 as (x & e' & -> & Hcase). simplify_eq/=.
    destruct Hcase as [[Hs _]|[[_ (k' & ds & -> & Hl & Hh & Hs & ->)]|[Ho _]]]; [by apply simple_plain in Hs as [? _]| |by apply octal_plain in Ho as (_ & ? & _)].
    rewrite !as_bytes_app, (bytes_of_ascii (replicate _ _)), <-app_assoc in Hb by (apply Forall_replicate; done).
    assert (Hds : as_bytes ds = ds) by (apply bytes_of_ascii; eapply Forall_impl; [exact Hh|]; apply hex_ascii).
    rewrite Hds in Hb. symmetry in Hb. apply replicate_unique in Hb as [-> ->]; [|done|].
    + exists ds, rest. split_and!; try done. rewrite length_app, length_replicate, Hl. f_equal. lia.
    + destruct ds as [|d ds]; [done|]. simpl. apply Forall_cons in Hh as [Hd _]. intros [= ->]. by apply (hex_not_u _ Hd).
  - intros (ds & rest & -> & Hl & Hh & Hs & ->).
    assert (Hcs : exists rest', cs = (replicate m (chr "u") ++ ds) ++ rest' /\ as_bytes rest' = as_bytes rest).
    { apply ascii_prefix; [|by rewrite <-app_assoc]. apply Forall_app_2; [by apply Forall_replicate|].
      eapply Forall_impl; [exact Hh|]. apply hex_ascii. }
    destruct Hcs as (rest' & -> & _). exists (replicate (S m) (chr "u") ++ ds), (number 16 ds), rest'.
    split; [done|]. split; [by apply EscUnicode|]. split.
    + intros d c _ (x & e' & Heq & Hcase)%escape_first. simplify_eq/=.
      destruct Hcase as [[Hs' _]|[[_ (k' & ds' & Heq & Hl' & Hh' & _)]|[Ho _]]]; [by apply simple_plain in Hs' as [? _]| |by apply octal_plain in Ho as (_ & ? & _)].
      rewrite <-app_assoc in Heq. apply replicate_unique in Heq as [_ Heq].
      * apply (f_equal length) in Heq. rewrite length_app in Heq. simpl in Heq. lia.
      * destruct ds as [|y ds]; [done|]. simpl. apply Forall_cons in Hh as [Hd _]. intros [= ->]. by apply (hex_not_u _ Hd).
      * destruct ds' as [|y ds']; [done|]. simpl. apply Forall_cons in Hh' as [Hd _]. intros [= ->]. by apply (hex_not_u _ Hd).
    + rewrite length_app, length_replicate, Hl. f_equal. lia.
Qed.

(** A Unicode escape. *)
Lemma unicode_escape_spec text i e cs out : window text (i + 1) e (as_bytes (chr "u" :: cs)) ->
  parses (unicode_escape text i e out) (escape_result (chr "u" :: cs) i out).
Proof.
  intros Hw. change (as_bytes (chr "u" :: cs)) with (chr "u" :: as_bytes cs) in Hw.
  apply window_cons in Hw as (_ & _ & Hw). replace (S (i + 1)) with (i + 2)%nat in Hw by lia.
  unfold unicode_escape. pose proof (window_length _ _ _ _ Hw) as He.
  destruct (skip_u_spec (e - (i + 2)) _ _ _ _ Hw) as (m & k & Hb & Hk & ->); [lia|]. simpl.
  eapply parses_iff; [|intros r; symmetry; by apply unicode_result]. rewrite Hb, length_app, length_replicate in He.
  destruct (decide (e < i + 2 + m + 4)%nat) as [Hshort|Hlong].
  { apply parses_err. intros r (ds & rest & -> & Hl & _). rewrite length_app in He. lia. }
  destruct k as [|a [|b [|c [|d k]]]]; simpl in He; try lia.
  rewrite Hb in Hw. apply window_app in Hw. rewrite length_replicate in Hw.
  assert (Hk4 : forall ds rest, a :: b :: c :: d :: k = ds ++ as_bytes rest -> length ds = 4%nat -> ds = [a; b; c; d]).
  { intros [|a' [|b' [|c' [|d' [|? ?]]]]] rest Heq Hl; simplify_eq/=. done. }
  eapply parses_iff; [eapply (parses_bind _ _ _ (fun v r => is_scalar v = true /\ r = ((i + 2 + m + 4)%nat, out ++ [v])));
    [apply (unicode_digits_spec text _ e a b c d k Hw)|]|].
  - intros v _. unfold from_u32. destruct (is_scalar v); [|by apply parses_err; intros r [? _]].
    eapply parses_iff; [apply parses_ok|]. naive_solver.
  - intros r. split.
    + intros (v & (Hh & ->) & Hs & ->).
      assert (Hcs : exists rest', cs = (replicate m (chr "u") ++ [a; b; c; d]) ++ rest' /\ as_bytes rest' = k).
      { apply ascii_prefix; [|by rewrite <-app_assoc]. apply Forall_app_2; [by apply Forall_replicate|].
        eapply Forall_impl; [exact Hh|]. apply hex_ascii. }
      destruct Hcs as (rest' & _ & <-). exists [a; b; c; d], rest'. done.
    + intros (ds & rest & Heq & Hl & Hh & Hs & ->). specialize (Hk4 _ _ Heq Hl). subst ds. eauto.
Qed.

(** An octal escape takes as many digits as it may. *)
Lemma octal_escape_spec text i e x cs out : is_octal x = true -> window text (i + 1) e (as_bytes (x :: cs)) ->
  parses (octal_escape text x i e out) (escape_result (x :: cs) i out).
Proof.
  intros Hx Hw. unfold octal_escape. set (n := if x <=? chr "3" then 3%nat else 2%nat).
  destruct (octal_digits_spec n _ _ _ _ 0 Hw) as (ds & k & Hb & Ho & Hl & Hmax & ->). simpl.
  destruct (ascii_prefix ds k (x :: cs)) as (rest & Hcs & Hrest); [|done|].
  { eapply Forall_impl; [exact Ho|]. apply octal_ascii. }
  assert (Hn : (1 <= n <= 3)%nat) by (unfold n; destruct (x <=? chr "3"); lia).
  destruct ds as [|y ds].
  { exfalso. destruct Hmax as [Hmax|Hmax]; [simpl in Hmax; lia|]. simpl in Hcs, Hb. rewrite <-Hb in Hmax.
    assert (Hh : head (as_bytes (x :: cs)) = Some x) by (apply head_bytes; [by apply octal_ascii|done]).
    apply Hmax in Hh. congruence. }
  simpl in Hcs. injection Hcs as <- Hcs. rewrite <-(number_octal (x :: ds)) by done.
  unfold from_u32. rewrite octal_scalar by (try done; lia).
  assert (Hhead : forall d, head rest = Some d -> is_octal d = true -> length (x :: ds) = n).
  { intros d Hd Hod. destruct Hmax as [?|Hmax]; [done|]. exfalso.
    assert (Hk : head k = Some d) by (rewrite <-Hrest; apply head_bytes; [by apply octal_ascii|done]).
    apply Hmax in Hk. congruence. }
  assert (Hlong : longest (x :: ds) rest).
  { intros d c Hd (z & e' & Heq & Hcase)%escape_first. simpl in Heq. injection Heq as <- Heq.
    destruct Hcase as [[Hs _]|[[-> _]|(_ & Hall & Hlen & _)]]; [by apply octal_plain in Hx as (? & _); congruence|done|].
    simpl in Hall, Hlen. fold n in Hlen. apply Forall_cons in Hall as [_ Hall]. apply Forall_app in Hall as [_ Hd'].
    apply List.Forall_inv in Hd'. specialize (Hhead d Hd Hd'). simpl in *. rewrite length_app in Hlen. simpl in Hlen. lia. }
  eapply parses_iff; [apply parses_ok|]. intros r. split.
  - intros ->. exists (x :: ds), (number 8 (x :: ds)), rest. split; [by rewrite Hcs|]. split; [by apply EscOctal|]. done.
  - intros (e0 & c & rest0 & Heq & He0 & Hlong0 & ->).
    destruct (escape_first _ _ He0) as (z & e' & -> & Hcase). simpl in Heq. injection Heq as <- Heq.
    destruct Hcase as [[Hs _]|[[-> _]|(_ & Hall & Hlen & ->)]]; [by apply octal_plain in Hx as (? & _); congruence|done|].
    fold n in Hlen. rewrite Hcs in Heq. apply Forall_cons in Hall as [_ Hall]. apply Forall_cons in Ho as [_ Ho].
    assert (ds = e') as ->; [|done].
    destruct (app_eq_app _ _ _ _ Heq) as (l & [(-> & Hr)|(-> & Hr)]).
    + destruct l as [|d l]; [by rewrite app_nil_r|]. exfalso. apply (Hlong0 d (number 8 ((x :: e') ++ [d]))); [by rewrite Hr|].
      apply Forall_app in Ho as [Ho1 Ho2]. apply Forall_cons in Ho2 as [Hd _]. apply EscOctal; [done| |].
      * simpl. constructor; [done|]. by apply Forall_app_2; [|constructor].
      * simpl. fold n. rewrite length_app in *. simpl in *. rewrite length_app in Hl. simpl in Hl. lia.
    + destruct l as [|d l]; [by rewrite app_nil_r|]. exfalso. apply Forall_app in Hall as [_ Hd]. apply Forall_cons in Hd as [Hd _].
      specialize (Hhead d). rewrite Hr in Hhead. specialize (Hhead eq_refl Hd). simpl in *. rewrite length_app in Hlen. simpl in Hlen. lia.
Qed.

(** [unescape_java_escape] after a backslash, when no line is continued. *)
Lemma unescape_java_escape_spec text i e cs allow out : window text i e (as_bytes (BACKSLASH :: cs)) ->
  (allow = true -> head cs <> Some LF /\ head cs <> Some CR) ->
  parses (unescape_java_escape text i e allow out) (escape_result cs i out).
Proof.
  intros Hw Hallow. change (as_bytes (BACKSLASH :: cs)) with (BACKSLASH :: as_bytes cs) in Hw.
  apply window_cons in Hw as (Hbs & _ & Hw). rewrite <-Nat.add_1_r in Hw. unfold unescape_java_escape.
  rewrite Hbs. cbn [wbind wok negb]. rewrite N.eqb_refl. cbn [negb].
  pose proof (window_length _ _ _ _ Hw) as He. destruct cs as [|x cs].
  { simpl in He. rewrite decide_True by lia. apply parses_err.
    intros r (e0 & c & rest & Heq & (z & e' & -> & _)%escape_first & _). done. }
  destruct (encode_head x) as (b & bs & Hb & Hlo & Hhi). pose proof Hw as Hw0. rewrite as_bytes_cons, Hb in Hw0, He.
  apply window_cons in Hw0 as (Hbyte & Hlt & _). rewrite decide_False by lia. rewrite Hbyte. simpl.
  assert (Hcont : allow && ((b =? LF) || (b =? CR)) = false).
  { destruct allow; [|done]. destruct (Hallow eq_refl) as [H1 H2]. destruct (N.lt_ge_cases x 0x80) as [Hx|Hx].
    - rewrite (Hlo Hx). simpl in *. destruct (N.eqb_spec x LF); [congruence|]. by destruct (N.eqb_spec x CR); [congruence|].
    - specialize (Hhi Hx). compare; try done; lia. }
  rewrite Hcont. destruct (N.lt_ge_cases x 0x80) as [Hx|Hx].
  - rewrite (Hlo Hx) in *. clear Hcont Hbyte. destruct (simple_escape x) as [c|] eqn:Hs.
    { destruct (simple_plain x c Hs) as (Hu & Ho & _). eapply parses_iff; [apply parses_ok|]. intros r. split.
      - intros ->. exists [x], c, cs. split; [done|]. split; [by apply EscSimple|]. split; [|simpl; by replace (i + 1 + 1)%nat with (i + 2)%nat by lia].
        intros d c' _ (z & e' & Heq & Hcase)%escape_first. simplify_eq/=.
        destruct Hcase as [[_ ?]|[[? _]|[? _]]]; [done|done|congruence].
      - intros (e0 & c' & rest & Heq & (z & e' & -> & Hcase)%escape_first & _ & ->). simplify_eq/=.
        destruct Hcase as [[? ->]|[[? _]|[? _]]]; [simplify_eq/=; by replace (i + 1 + 1)%nat with (i + 2)%nat by lia|done|congruence]. }
    destruct (N.eqb_spec x (chr "u")) as [-> |Hu]; [by apply unicode_escape_spec|].
    destruct (is_octal x) eqn:Ho; [by apply octal_escape_spec|].
    apply parses_err. intros r (e0 & c' & rest & Heq & (z & e' & -> & Hcase)%escape_first & _). simplify_eq/=.
    destruct Hcase as [[? _]|[[? _]|[? _]]]; congruence.
  - specialize (Hhi Hx).
    assert (Hno : forall y, 0x80 <= y -> simple_escape y = None /\ y <> chr "u" /\ is_octal y = false).
    { intros y Hy. unfold simple_escape, is_octal, between. chars. compare; try lia; done || (split_and!; [done|lia|done]). }
    destruct (Hno b Hhi) as (-> & Hbu & ->). destruct (N.eqb_spec b (chr "u")); [done|].
    apply parses_err. intros r (e0 & c' & rest & Heq & (z & e' & -> & Hcase)%escape_first & _). simplify_eq/=.
    destruct (Hno z Hx) as (? & ? & ?). destruct Hcase as [[? _]|[[? _]|[? _]]]; congruence.
Qed.

(** ** Strings *)

Lemma Escape_ascii e c : Escape e c -> Forall ascii e.
Proof.
  intros [e0 c0 Hs%simple_escape_exact|k ds Hl Hh%hex_digits_iff Hs|ds Hne Hl Ho%octal_digits_iff Hn].
  - constructor; [|constructor]. by apply simple_plain in Hs as (_ & _ & ?).
  - apply Forall_app_2; [by apply Forall_replicate|]. eapply Forall_impl; [exact Hh|]. apply hex_ascii.
  - eapply Forall_impl; [exact Ho|]. apply octal_ascii.
Qed.

Lemma length_of_ascii l : Forall ascii l -> str_len l = length l.
Proof. intros Hl. by rewrite <-length_as_bytes, bytes_of_ascii. Qed.

Lemma Content_cons c cs o : Content (c :: cs) o <->
  (c = BACKSLASH /\ exists e c0 rest o', cs = e ++ rest /\ Escape e c0 /\ longest e rest /\ Content rest o' /\ o = c0 :: o') \/
  (c <> BACKSLASH /\ c <> LF /\ c <> CR /\ exists o', Content cs o' /\ o = c :: o').
Proof.
  split.
  - intros H. inversion H; subst; [right|left]; naive_solver.
  - intros [(-> & e & c0 & rest & o' & -> & He & Hl & Ho & ->)|(? & ? & ? & o' & Ho & ->)]; by constructor.
Qed.

(** A character that is copied. *)
Lemma next_char_spec pre c cs post b bs out : encode_utf8 c = b :: bs ->
  next_char (pre ++ (c :: cs) ++ post) (str_len pre) (str_len (pre ++ c :: cs)) b out =
  wok (str_len (pre ++ [c]), out ++ [c]).
Proof.
  intros Hb. unfold next_char. destruct (encode_head c) as (b' & bs' & Hb' & Hlo & Hhi). rewrite Hb in Hb'. simplify_eq.
  rewrite (str_len_app pre [c]), str_len_cons. simpl str_len. rewrite Nat.add_0_r.
  destruct (N.lt_ge_cases c 0x80) as [Hc|Hc].
  - rewrite (Hlo Hc). unfold len_utf8. destruct (N.ltb_spec c 0x80); [|lia]. by rewrite Nat.add_1_r.
  - specialize (Hhi Hc). destruct (N.ltb_spec b' 0x80); [lia|]. rewrite str_len_app, slice_app. done.
Qed.

Lemma string_loop_spec fuel pre cur post out : (length (as_bytes cur) <= fuel)%nat ->
  parses (string_loop fuel (pre ++ cur ++ post) (str_len pre) (str_len (pre ++ cur)) false out)
    (fun r => exists o, Content cur o /\ r = out ++ o).
Proof.
  revert pre cur out. induction fuel as [|fuel IH]; intros pre cur out Hf; (destruct cur as [|c cs];
    [simpl; rewrite app_nil_r, decide_False by lia; eapply parses_iff; [apply parses_ok|]; intros r; split;
      [intros ->; exists []; split; [constructor|by rewrite app_nil_r]|intros (o & Ho & ->); inversion Ho; by rewrite app_nil_r]|]).
  { pose proof (len_utf8_pos c). rewrite as_bytes_cons, length_app, length_encode_utf8 in Hf. lia. }
  pose proof (window_text pre (c :: cs) post) as Hw. pose proof Hw as Hw0.
  destruct (encode_head c) as (b & bs & Hb & Hlo & Hhi). rewrite as_bytes_cons, Hb in Hw0.
  apply window_cons in Hw0 as (Hbyte & Hlt & _). cbn [string_loop]. rewrite decide_True by done. rewrite Hbyte. simpl wbind.
  rewrite as_bytes_cons, length_app, Hb in Hf. simpl in Hf.
  assert (Heqb : forall a, a < 0x80 -> (b =? a) = bool_decide (c = a)).
  { intros a Ha. destruct (N.lt_ge_cases c 0x80) as [Hc|Hc].
    - rewrite (Hlo Hc). destruct (N.eqb_spec c a); [by rewrite bool_decide_true|by rewrite bool_decide_false].
    - specialize (Hhi Hc). rewrite bool_decide_false by lia. apply N.eqb_neq. lia. }
  rewrite !Heqb by lia. case_bool_decide as Hbs.
  - subst c. eapply parses_iff; [eapply (parses_bind _ _ _ (fun '(i', out') r => exists e c rest o, cs = e ++ rest /\ Escape e c /\ longest e rest /\
      (i', out') = ((str_len pre + 1 + length e)%nat, out ++ [c]) /\ Content rest o /\ r = out' ++ o)); [by apply unescape_java_escape_spec|]|].
    + intros [i' out'] (e & c & rest & -> & He & Hl & [= -> ->]).
      assert (Hpos : (str_len pre + 1 + length e)%nat = str_len (pre ++ BACKSLASH :: e)).
      { rewrite str_len_app, str_len_cons, (length_of_ascii e) by by eapply Escape_ascii. simpl. lia. }
      rewrite as_bytes_app, length_app in Hf.
      replace (pre ++ BACKSLASH :: (e ++ rest) ++ post) with ((pre ++ BACKSLASH :: e) ++ rest ++ post) by by rewrite <-!app_assoc.
      replace (pre ++ BACKSLASH :: e ++ rest) with ((pre ++ BACKSLASH :: e) ++ rest) by by rewrite <-!app_assoc.
      rewrite Hpos. eapply parses_iff; [apply IH; lia|]. intros r. rewrite <-Hpos. split.
      * intros (o & Ho & ->). by exists e, c, rest, o.
      * intros (e2 & c2 & rest2 & o & Heq & _ & _ & [= Hlen _] & Ho & ->).
        apply app_inj_1 in Heq as [_ ->]; [|lia]. by exists o.
    + intros r. setoid_rewrite Content_cons. split.
      * intros ([i' out'] & (e & c & rest & Hcs & He & Hl & Hout) & (e2 & c2 & rest2 & o & Hcs2 & He2 & Hl2 & Hout2 & Ho & ->)).
        injection Hout2 as -> ->. exists (c2 :: o). split; [|by rewrite <-app_assoc]. left. split; [done|]. by exists e2, c2, rest2, o.
      * intros (o & [(_ & e & c & rest & o' & -> & He & Hl & Ho & ->)|(? & _)] & ->); [|done].
        eexists (_, _). split; [by exists e, c, rest|]. exists e, c, rest, o'. by rewrite <-app_assoc.
  - case_bool_decide as Hlf; [apply parses_err; intros r (o & Ho & _); apply Content_cons in Ho; naive_solver|].
    case_bool_decide as Hcr; [apply parses_err; intros r (o & Ho & _); apply Content_cons in Ho; naive_solver|]. simpl orb.
    change (pre ++ c :: cs ++ post) with (pre ++ (c :: cs) ++ post).
    rewrite (next_char_spec pre c cs post b bs out Hb). simpl wbind.
    change (pre ++ (c :: cs) ++ post) with (pre ++ c :: cs ++ post).
    replace (pre ++ c :: cs ++ post) with ((pre ++ [c]) ++ cs ++ post) by by rewrite <-app_assoc.
    replace (pre ++ c :: cs) with ((pre ++ [c]) ++ cs) by by rewrite <-app_assoc.
    eapply parses_iff; [apply IH; lia|]. intros r. setoid_rewrite Content_cons. split.
    + intros (o & Ho & ->). exists (c :: o). split; [|by rewrite <-app_assoc]. right. eauto 10.
    + intros (o & [[? _]|(_ & _ & _ & o' & Ho & ->)] & ->); [done|]. exists o'. by rewrite <-app_assoc.
Qed.

Lemma last_bytes cs b : ascii b -> last (as_bytes cs) = Some b <-> last cs = Some b.
Proof.
  intros Hb. destruct cs as [|c cs _] using rev_ind; [done|]. rewrite as_bytes_app, !last_snoc, last_app.
  change (as_bytes [c]) with (encode_utf8 c ++ []). rewrite app_nil_r. unfold ascii in Hb.
  destruct (N.lt_ge_cases c 0x80) as [Hc|Hc]; [by rewrite encode_ascii|].
  destruct (last (encode_utf8 c)) as [x|] eqn:Hx.
  - apply last_Some_elem_of in Hx. apply encode_utf8_high in Hx; [|done]. split; intros [= ->]; lia.
  - apply last_None in Hx. destruct (encode_head c) as (y & ys & Hy & _). congruence.
Qed.

(** The check of the delimiters. *)
Lemma quoted q text : ascii q ->
  (length (as_bytes text) <? 2)%nat || negb (bool_decide (head (as_bytes text) = Some q)) ||
    negb (bool_decide (last (as_bytes text) = Some q)) = false <->
  exists cs, text = q :: cs ++ [q].
Proof.
  intros Hq. rewrite !orb_false_iff, !negb_false_iff, !bool_decide_eq_true, head_bytes, last_bytes, Nat.ltb_ge by done. split.
  - intros [[Hl Hh] Hlast]. destruct text as [|c text]; [done|]. injection Hh as ->.
    destruct text as [|c text _] using rev_ind.
    + rewrite (bytes_of_ascii [q]) in Hl by by repeat constructor. simpl in Hl. lia.
    + change (q :: text ++ [c]) with ((q :: text) ++ [c]) in Hlast. rewrite last_snoc in Hlast. injection Hlast as ->. by exists text.
  - intros (cs & ->). change (q :: cs ++ [q]) with ((q :: cs) ++ [q]). rewrite last_snoc. split; [|done]. split; [|done].
    rewrite length_as_bytes, str_len_app, !str_len_cons. pose proof (len_utf8_pos q). lia.
Qed.

Lemma between_quotes q cs : ascii q ->
  parses (unescape_java_string_like (q :: cs ++ [q]) 1 (length (as_bytes (q :: cs ++ [q])) - 1) false []) (Content cs).
Proof.
  intros Hq. assert (Hlen : len_utf8 q = 1%nat) by (unfold len_utf8; unfold ascii in Hq; destruct (N.ltb_spec q 0x80); [done|lia]).
  assert (He : (length (as_bytes (q :: cs ++ [q])) - 1 = str_len ([q] ++ cs))%nat).
  { rewrite length_as_bytes, str_len_cons, !str_len_app, !str_len_cons, Hlen. change (str_len []) with 0%nat. lia. }
  assert (H1 : 1%nat = str_len [q]) by (by rewrite str_len_cons, Hlen).
  unfold unescape_java_string_like. rewrite He. rewrite H1 at 2. eapply parses_iff; [apply (string_loop_spec _ [q] cs [q])|].
  - rewrite str_len_app, length_as_bytes. simpl. lia.
  - intros r. simpl. naive_solver.
Qed.

Lemma quoted_inj (q : N) (cs cs' : str) : q :: cs ++ [q] = q :: cs' ++ [q] -> cs = cs'.
Proof. intros [= Heq]. by apply app_inj_2 in Heq as [? _]. Qed.

Lemma unescape_string_literal_spec text :
  parses (unescape_string_literal text) (fun s => exists cs, text = QUOTE :: cs ++ [QUOTE] /\ Content cs s).
Proof.
  unfold unescape_string_literal. destruct (_ || _) eqn:Hc.
  + apply parses_err. intros s (cs & -> & _). assert (Hq := proj2 (quoted QUOTE (QUOTE :: cs ++ [QUOTE]) ltac:(done))). rewrite Hq in Hc; eauto. done.
  + apply quoted in Hc as (cs & ->); [|done]. eapply parses_iff; [by apply between_quotes|].
    intros s. split; [eauto|]. by intros (cs' & <-%quoted_inj & ?).
Qed.

Lemma unescape_char_literal_spec text :
  parses (unescape_char_literal text)
    (fun c => exists cs, text = APOSTROPHE :: cs ++ [APOSTROPHE] /\ Content cs [c] /\ c < 0x10000).
Proof.
  unfold unescape_char_literal. destruct (_ || _) eqn:Hc.
  + apply parses_err. intros s (cs & -> & _). assert (Hq := proj2 (quoted APOSTROPHE (APOSTROPHE :: cs ++ [APOSTROPHE]) ltac:(done))). rewrite Hq in Hc; eauto. done.
  + apply quoted in Hc as (cs & ->); [|done].
    eapply parses_iff; [eapply (parses_bind _ _ _ (fun o c => o = [c] /\ c < 0x10000)); [by apply between_quotes|]|].
    * intros [|c o] _; [apply parses_err; naive_solver|]. simpl utf16_len.
      assert (Hlen : len_utf16 c = 1 <-> c < 0x10000) by (unfold len_utf16; destruct (N.ltb_spec c 0x10000); lia).
      pose proof (len_utf16_pos c). destruct o as [|c' o]; simpl; [|pose proof (len_utf16_pos c')].
      -- destruct (N.ltb_spec 1 (len_utf16 c + 0)); [apply parses_err; intros x [[= ->] ?]; lia|].
         eapply parses_iff; [apply parses_ok|]. intros x. split; [intros ->; split; [done|]; apply Hlen; lia|by intros [[= ->] _]].
      -- destruct (N.ltb_spec 1 (len_utf16 c + (len_utf16 c' + utf16_len o))) as [|Hle]; [apply parses_err; by intros x [[=] _]|].
         unfold utf16_len in Hle. simpl in Hle. lia.
    * intros c. split; [intros (o & Ho & -> & ?); eauto|]. intros (cs' & <-%quoted_inj & Ho & ?). by exists [c].
Qed.

(** C17: String and character literals are unescaped exactly.  [unescape_string_literal] and
    [unescape_char_literal] return for every text, without a panic inside a character; they accept exactly the quoted texts
    made of plain characters other than line ends and of the escapes of one letter, of Unicode
    scalar values and of one to three octal digits, each the longest possible, and return the characters these
    stand for; a character literal has one UTF-16 unit. *)
Theorem string_literals_exact text :
  parses (unescape_string_literal text) (fun s => exists cs, text = QUOTE :: cs ++ [QUOTE] /\ Content cs s) /\
  parses (unescape_char_literal text)
    (fun c => exists cs, text = APOSTROPHE :: cs ++ [APOSTROPHE] /\ Content cs [c] /\ c < 0x10000).
Proof. split; [apply unescape_string_literal_spec|apply unescape_char_literal_spec]. Qed.

(** *** Writing strings *)

(** A string as the contents of a literal. *)
Definition escape_char (c : N) : str :=
  match c with
  | 8 => lit "\b" | 9 => lit "\t" | 10 => lit "\n" | 12 => lit "\f" | 13 => lit "\r"
  | 34 => [BACKSLASH; QUOTE] | 39 => lit "\'" | 92 => [BACKSLASH; BACKSLASH]
  | _ => [c]
  end.

Definition escape (s : str) : str := concat (escape_char <$> s).

Lemma longest_simple e c rest : simple_escape e = Some c -> longest [e] rest.
Proof.
  intros Hs d c' _ (z & e' & Heq & Hcase)%escape_first. simplify_eq/=. destruct (simple_plain _ _ Hs) as (? & ? & _).
  destruct Hcase as [[_ ?]|[[? _]|[? _]]]; [done|done|congruence].
Qed.

Lemma escape_char_content c cs o : Content cs o -> Content (escape_char c ++ cs) (c :: o).
Proof.
  intros Ho. assert (Hsimple : forall e, simple_escape e = Some c -> Content ([BACKSLASH; e] ++ cs) (c :: o)).
  { intros e He. apply (ContentEscape [e]); [by apply EscSimple|by eapply longest_simple|done]. }
  destruct (decide (c ∈ [8; 9; 10; 12; 13; 34; 39; 92])) as [Hin|Hin].
  - rewrite !elem_of_cons in Hin. repeat destruct Hin as [-> |Hin]; [by apply Hsimple..|by apply not_elem_of_nil in Hin].
  - assert (Hc : escape_char c = [c]).
    { unfold escape_char. repeat (case_match; subst; try done; try (exfalso; apply Hin; by repeat constructor)). }
    rewrite Hc. apply ContentPlain; [..|done]; intros ->; apply Hin; by repeat constructor.
Qed.

(** Every string has a literal, and reading that gives the string back. *)
Theorem string_literal_roundtrip s : unescape_string_literal (QUOTE :: escape s ++ [QUOTE]) = wok s.
Proof.
  assert (Hc : Content (escape s) s).
  { induction s as [|c s IH]; [constructor|]. by apply escape_char_content. }
  destruct (unescape_string_literal_spec (QUOTE :: escape s ++ [QUOTE])) as (r & -> & Hr).
  assert (r = inr s) as ->; [apply Hr; eauto|done].
Qed.

(** An emoji as the pair of surrogates that Java prescribes for it is refused. *)
Theorem surrogate_pair_refused :
  exists e, unescape_string_literal ([QUOTE] ++ lit "\uD83D\uDE00" ++ [QUOTE]) = werr e /\ span e = (1, 7)%nat.
Proof. eexists. split; [vm_compute; reflexivity|reflexivity]. Qed.
