(* ===== verification/TextBlock.v ===== *)
(** * Text blocks (crates/nova-syntax/src/literals.rs, [unescape_text_block])

    The indentation that is removed from every line is that of the line with the closing
    delimiter.  The code is modelled on bytes and positions like the rest of the literals
    (Unescape.v); a turn of its loop consumes a byte or leaves the start of a line, so that twice
    the number of bytes, and one, is enough fuel. *)

From Stdlib Require Import ZArith Ascii String.
From stdpp Require Import base numbers strings option list.
From S2P Require Import Prelude Str Wire Literals FloatBits FloatLiterals Unescape.

Local Open Scope N_scope.

(** ** The code *)

Definition is_blank (b : N) : bool := (b =? 32) || (b =? 9).
Definition is_line_end (b : N) : bool := (b =? LF) || (b =? CR).

(** The delimiter. *)
Definition DELIMITER : list N := [QUOTE; QUOTE; QUOTE].

(** The search for the start of the closing line: the place after the last line end before [i]. *)
Fixpoint closing_line_start (bytes : list N) (i : nat) : lres nat :=
  match i with
  | O => wok 0%nat
  | S i' =>
      x <-- byte_at bytes i' ;;
      if is_line_end x then wok i else closing_line_start bytes i'
  end.

(** The loops that skip blanks before [end_], [limit] of them at most. *)
Fixpoint skip_blanks (limit : nat) (bytes : list N) (i end_ : nat) : lres nat :=
  match limit with
  | O => wok i
  | S limit =>
      if decide (i < end_)%nat then
        x <-- byte_at bytes i ;;
        if is_blank x then skip_blanks limit bytes (S i) end_ else wok i
      else wok i
  end.

(** [idx < end && bytes[idx] == b'\n']. *)
Definition at_line_feed (bytes : list N) (i end_ : nat) : lres bool :=
  if decide (i < end_)%nat then x <-- byte_at bytes i ;; wok (x =? LF) else wok false.

(** A line end at [i], where [x] is: the place after it. *)
Definition after_line_end (bytes : list N) (x : N) (i end_ : nat) : lres nat :=
  if x =? CR then lf <-- at_line_feed bytes (S i) end_ ;; wok (if lf : bool then S (S i) else S i)
  else wok (S i).

(** The line end after the backslash at [i], if there is one. *)
Definition continues (bytes : list N) (i closing_start : nat) : lres (option N) :=
  if decide (i + 1 < closing_start)%nat then
    next <-- byte_at bytes (i + 1) ;; wok (if is_line_end next then Some next else None)
  else wok None.

(** The loop over the contents. *)
Fixpoint block_loop (fuel : nat) (text : str) (n i closing_start : nat) (at_line_start : bool) (out : str) : lres str :=
  if decide (i < closing_start)%nat then
    match fuel with
    | O => OutOfFuel
    | S fuel =>
        let bytes := as_bytes text in
        if at_line_start then
          i <-- skip_blanks n bytes i closing_start ;;
          block_loop fuel text n i closing_start false out
        else
          x <-- byte_at bytes i ;;
          if x =? BACKSLASH then
            continued <-- continues bytes i closing_start ;;
            match continued with
            | Some next =>
              i <-- after_line_end bytes next (i + 1) closing_start ;;
              block_loop fuel text n i closing_start true out
            | None =>
              '(i, out) <-- unescape_java_escape text i closing_start true out ;;
              block_loop fuel text n i closing_start false out
            end
          else if is_line_end x then
            i <-- after_line_end bytes x i closing_start ;;
            block_loop fuel text n i closing_start true (out ++ [LF])
          else
            '(i, out) <-- next_char text i closing_start x out ;;
            block_loop fuel text n i closing_start false out
    end
  else wok out.

Definition unescape_text_block (text : str) : lres str :=
  let bytes := as_bytes text in
  if negb (bool_decide (take 3 bytes = DELIMITER)) || negb (bool_decide (drop (length bytes - 3) bytes = DELIMITER)) ||
     (length bytes <? 6)%nat then
    err (lit "Invalid text block literal") 0 (length bytes)
  else
    let closing_start := (length bytes - 3)%nat in
    line <-- closing_line_start bytes closing_start ;;
    indent_end <-- skip_blanks (closing_start - line) bytes line closing_start ;;
    let n := (indent_end - line)%nat in
    content_start <-- skip_blanks (closing_start - 3) bytes 3 closing_start ;;
    if decide (closing_start <= content_start)%nat then
      err (lit "Missing line terminator after opening delimiter") 3 closing_start
    else
      x <-- byte_at bytes content_start ;;
      if is_line_end x then
        content_start <-- after_line_end bytes x content_start closing_start ;;
        block_loop (2 * (closing_start - content_start) + 1) text n content_start closing_start true []
      else err (lit "Missing line terminator after opening delimiter") content_start (content_start + 1).

(** ** The text of a block *)

(** A line end before [rest]: a carriage return and the line feed after it are one. *)
Definition LineEnd (nl rest : str) : Prop := nl = [LF] \/ nl = [CR; LF] \/ nl = [CR] /\ head rest <> Some LF.

(** The contents of a block from the start of a line, or from inside one, and their string; up to [n] blanks
    at the start of a line are dropped. *)
Inductive Block (n : nat) : bool -> str -> str -> Prop :=
| BlockEnd b : Block n b [] []
| BlockIndent ws cs out : Forall (fun c => is_blank c = true) ws -> (length ws <= n)%nat ->
    (length ws = n \/ forall c, head cs = Some c -> is_blank c = false) -> Block n false cs out -> Block n true (ws ++ cs) out
| BlockLine nl cs out : LineEnd nl cs -> Block n true cs out -> Block n false (nl ++ cs) (LF :: out)
| BlockContinue nl cs out : LineEnd nl cs -> Block n true cs out -> Block n false (BACKSLASH :: nl ++ cs) out
| BlockEscape e c cs out : Escape e c -> longest e cs -> Block n false cs out -> Block n false (BACKSLASH :: e ++ cs) (c :: out)
| BlockPlain c cs out : c <> BACKSLASH -> is_line_end c = false -> Block n false cs out -> Block n false (c :: cs) (c :: out).

(** What follows the last line end. *)
Definition last_line (l : list N) : list N := foldl (fun acc b => if is_line_end b then [] else acc ++ [b]) [] l.

(** The number of blanks at the start. *)
Fixpoint lead (l : list N) : nat :=
  match l with c :: l => if is_blank c then S (lead l) else 0 | [] => 0 end.

(** [text] is a block that the code reads as [s]. *)
Definition text_block (text s : str) : Prop :=
  exists ws nl body, text = DELIMITER ++ ws ++ nl ++ body ++ DELIMITER /\
    Forall (fun c => is_blank c = true) ws /\ LineEnd nl body /\ Block (lead (last_line (nl ++ body))) true body s.

(** ** Characters and bytes *)

Lemma blank_ascii c : is_blank c = true -> ascii c.
Proof. unfold is_blank, ascii. compare; try done; lia. Qed.

Lemma line_end_ascii c : is_line_end c = true -> ascii c.
Proof. unfold is_line_end, ascii. compare; try done; lia. Qed.

Lemma lead_bytes cs : lead (as_bytes cs) = lead cs.
Proof.
  induction cs as [|c cs IH]; [done|]. rewrite as_bytes_cons. destruct (N.lt_ge_cases c 0x80) as [Hc|Hc].
  - rewrite encode_ascii by done. simpl. by rewrite IH.
  - destruct (encode_head c) as (b & bs & -> & _ & Hhi). specialize (Hhi Hc). simpl.
    destruct (is_blank b) eqn:Hb; [apply blank_ascii in Hb; unfold ascii in Hb; lia|].
    destruct (is_blank c) eqn:Hb'; [apply blank_ascii in Hb'; unfold ascii in Hb'; lia|done].
Qed.

Lemma last_line_snoc l b : last_line (l ++ [b]) = if is_line_end b then [] else last_line l ++ [b].
Proof. unfold last_line. by rewrite foldl_app. Qed.

Lemma last_line_plain l k : Forall (fun b => is_line_end b = false) k -> last_line (l ++ k) = last_line l ++ k.
Proof.
  induction k as [|b k IH] using rev_ind; [by rewrite !app_nil_r|]. intros [Hk Hb]%Forall_app. apply List.Forall_inv in Hb.
  by rewrite app_assoc, last_line_snoc, Hb, IH, app_assoc.
Qed.

Lemma last_line_app l k : existsb is_line_end k = true -> last_line (l ++ k) = last_line k.
Proof.
  induction k as [|b k IH] using rev_ind; [done|]. rewrite existsb_app. simpl. rewrite orb_false_r, app_assoc, !last_line_snoc.
  intros Hk. destruct (is_line_end b); [done|]. rewrite orb_false_r in Hk. by rewrite IH.
Qed.

Lemma last_line_bytes cs : last_line (as_bytes cs) = as_bytes (last_line cs).
Proof.
  induction cs as [|c cs IH] using rev_ind; [done|]. rewrite as_bytes_app, last_line_snoc.
  change (as_bytes [c]) with (encode_utf8 c ++ []). rewrite app_nil_r. destruct (N.lt_ge_cases c 0x80) as [Hc|Hc].
  - rewrite encode_ascii, last_line_snoc, IH by done. destruct (is_line_end c); [done|]. by rewrite as_bytes_app, (bytes_of_ascii [c]) by by repeat constructor.
  - rewrite last_line_plain.
    + destruct (is_line_end c) eqn:Hl; [apply line_end_ascii in Hl; unfold ascii in Hl; lia|]. rewrite as_bytes_app, IH. f_equal.
      change (as_bytes [c]) with (encode_utf8 c ++ []). by rewrite app_nil_r.
    + apply Forall_forall. intros b Hb. apply encode_utf8_high in Hb; [|done]. destruct (is_line_end b) eqn:Hl; [|done].
      apply line_end_ascii in Hl. unfold ascii in Hl. lia.
Qed.

(** ** The loops *)

Lemma closing_line_start_spec bytes i : (i <= length bytes)%nat ->
  closing_line_start bytes i = wok (i - length (last_line (take i bytes)))%nat /\
  (length (last_line (take i bytes)) <= i)%nat /\
  drop (i - length (last_line (take i bytes))) (take i bytes) = last_line (take i bytes).
Proof.
  induction i as [|i IH]; intros Hi; [done|]. destruct (lookup_lt_is_Some_2 bytes i) as [x Hx]; [lia|].
  rewrite (take_S_r _ _ x Hx), last_line_snoc. simpl. unfold byte_at at 1, idx. rewrite Hx. simpl.
  destruct IH as (Heq & Hle & Hd); [lia|]. destruct (is_line_end x).
  - simpl. split; [done|]. split; [lia|]. rewrite drop_ge; [done|]. rewrite length_app, length_take. simpl. lia.
  - rewrite length_app. simpl. replace (S i - (length (last_line (take i bytes)) + 1))%nat with (i - length (last_line (take i bytes)))%nat by lia.
    split; [done|]. split; [lia|]. rewrite drop_app_le by (rewrite length_take; lia). by rewrite Hd.
Qed.

Lemma skip_blanks_spec limit text i e bytes : window text i e bytes ->
  skip_blanks limit (as_bytes text) i e = wok (i + Nat.min limit (lead bytes))%nat.
Proof.
  revert limit i. induction bytes as [|x bytes IH]; intros limit i Hw.
  - apply window_length in Hw. simpl in Hw. simpl lead. rewrite Nat.min_0_r, Nat.add_0_r. destruct limit; [done|]. simpl. by rewrite decide_False by lia.
  - destruct (window_cons _ _ _ _ _ Hw) as (Hx & Hlt & Hw'). destruct limit as [|limit]; simpl; [by rewrite Nat.add_0_r|].
    rewrite decide_True by done. rewrite Hx. simpl. destruct (is_blank x).
    + rewrite IH by done. simpl. by rewrite Nat.add_succ_r.
    + by rewrite Nat.add_0_r.
Qed.

Lemma lead_split l k : (k <= lead l)%nat -> exists ws cs, l = ws ++ cs /\ length ws = k /\
  Forall (fun c => is_blank c = true) ws /\ lead cs = (lead l - k)%nat.
Proof.
  revert k. induction l as [|c l IH]; intros k Hk; simpl in *.
  - assert (k = 0%nat) as -> by lia. by exists [], [].
  - destruct k as [|k]; [exists [], (c :: l); simpl; by rewrite Nat.sub_0_r|].
    destruct (is_blank c) eqn:Hc; [|lia]. destruct (IH k) as (ws & cs & -> & <- & Hws & Hl); [lia|].
    exists (c :: ws), cs. split_and!; auto.
Qed.

Lemma lead_app ws cs : Forall (fun c => is_blank c = true) ws -> lead (ws ++ cs) = (length ws + lead cs)%nat.
Proof. induction 1 as [|c ws Hc _ IH]; [done|]. simpl. by rewrite Hc, IH. Qed.

Lemma lead_0 cs : lead cs = 0%nat <-> forall c, head cs = Some c -> is_blank c = false.
Proof.
  destruct cs as [|c cs]; simpl; [naive_solver|]. destruct (is_blank c) eqn:Hc; split; try done.
  - intros Hh. specialize (Hh c eq_refl). congruence.
  - by intros _ ? [= <-].
Qed.

(** The blanks that are dropped at the start of a line. *)
Lemma Block_true n cs out : Block n true cs out <->
  exists ws rest, cs = ws ++ rest /\ length ws = Nat.min n (lead cs) /\ Forall (fun c => is_blank c = true) ws /\ Block n false rest out.
Proof.
  split.
  - intros H. inversion H; subst.
    + exists [], []. rewrite Nat.min_0_r. split_and!; try done. constructor.
    + exists ws, cs0. split_and!; try done. rewrite lead_app by done. destruct H2 as [H2|H2%lead_0]; [lia|]. rewrite H2. lia.
  - intros (ws & rest & -> & Hl & Hws & Hb). rewrite lead_app in Hl by done. constructor; [done|lia| |done].
    destruct (lead rest) eqn:Hr; [right; by apply lead_0|left; lia].
Qed.

(** ** Line ends *)

Lemma LineEnd_first nl rest : LineEnd nl rest -> exists x nl', nl = x :: nl' /\ is_line_end x = true /\ Forall ascii nl.
Proof. intros [-> |[-> |[-> _]]]; do 2 eexists; (split; [done|]); (split; [done|]); by repeat constructor. Qed.

Lemma LineEnd_unique nl rest nl' rest' : LineEnd nl rest -> LineEnd nl' rest' -> nl ++ rest = nl' ++ rest' -> nl = nl' /\ rest = rest'.
Proof.
  intros [-> |[-> |[-> H]]] [-> |[-> |[-> H']]] Heq; simplify_eq/=; try done.
Qed.

Lemma after_line_end_spec text i e x cs : is_line_end x = true -> window text i e (as_bytes (x :: cs)) ->
  exists nl rest, x :: cs = nl ++ rest /\ LineEnd nl rest /\ after_line_end (as_bytes text) x i e = wok (i + length nl)%nat.
Proof.
  intros Hx Hw. rewrite as_bytes_cons, encode_ascii in Hw by by apply line_end_ascii.
  destruct (window_cons _ _ _ _ _ Hw) as (_ & _ & Hw'). unfold after_line_end, at_line_feed.
  unfold is_line_end in Hx. destruct (N.eqb_spec x CR) as [-> |Hcr].
  - assert (Hlf : (if decide (S i < e)%nat then x <-- byte_at (as_bytes text) (S i) ;; wok (x =? LF) else wok false) =
      (wok (bool_decide (head cs = Some LF)) : lres bool)).
    { pose proof (window_length _ _ _ _ Hw') as Hl. destruct cs as [|c cs]; [simpl in Hl; by rewrite decide_False by lia|].
      destruct (encode_head c) as (b & bs & Hb & Hlo & Hhi). rewrite as_bytes_cons, Hb in Hw'.
      destruct (window_cons _ _ _ _ _ Hw') as (Hbyte & Hlt & _). rewrite decide_True, Hbyte by done. simpl. f_equal. f_equal.
      destruct (N.lt_ge_cases c 0x80) as [Hc|Hc].
      - rewrite (Hlo Hc). destruct (N.eqb_spec c LF) as [-> |]; [by rewrite bool_decide_true|]. by rewrite bool_decide_false by congruence.
      - specialize (Hhi Hc). rewrite bool_decide_false by (intros [= ->]; lia). apply N.eqb_neq. lia. }
    rewrite Hlf. simpl. case_bool_decide as Hh.
    + destruct cs as [|c cs]; [done|]. injection Hh as ->. exists [CR; LF], cs. split_and!; [done|by right; left|]. simpl. do 2 f_equal. lia.
    + exists [CR], cs. split_and!; [done|by right; right|]. simpl. do 2 f_equal. lia.
  - rewrite orb_false_r in Hx. apply N.eqb_eq in Hx as ->. exists [LF], cs. split_and!; [done|by left|]. simpl. do 2 f_equal. lia.
Qed.

Lemma escape_no_line_end e c x e' : Escape e c -> e = x :: e' -> is_line_end x = false.
Proof.
  intros (y & e0 & -> & Hcase)%escape_first [= -> ->]. destruct (is_line_end x) eqn:Hl; [|done]. exfalso.
  unfold is_line_end in Hl. apply orb_true_iff in Hl. rewrite !N.eqb_eq in Hl.
  destruct Hl as [-> | ->]; destruct Hcase as [[? _]|[[? _]|[? _]]]; done.
Qed.

Lemma Block_false n c cs o : Block n false (c :: cs) o <->
  (is_line_end c = true /\ exists nl rest o', c :: cs = nl ++ rest /\ LineEnd nl rest /\ Block n true rest o' /\ o = LF :: o') \/
  (c = BACKSLASH /\ exists nl rest, cs = nl ++ rest /\ LineEnd nl rest /\ Block n true rest o) \/
  (c = BACKSLASH /\ exists e c0 rest o', cs = e ++ rest /\ Escape e c0 /\ longest e rest /\ Block n false rest o' /\ o = c0 :: o') \/
  (c <> BACKSLASH /\ is_line_end c = false /\ exists o', Block n false cs o' /\ o = c :: o').
Proof.
  split.
  - intros H. remember (c :: cs) as l eqn:Hl. remember false as b eqn:Hb.
    destruct H as [b0|ws cs0 out Hws Hlen Hd HB|nl cs0 out HL HB|nl cs0 out HL HB|e c0 cs0 out He Hlo HB|c1 cs0 out Hc1 Hl1 HB]; [done|done| | | |].
    + left. destruct (LineEnd_first _ _ HL) as (x & nl' & -> & Hx & _). injection Hl as -> <-.
      split; [done|]. by exists (c :: nl'), cs0, out.
    + injection Hl as -> <-. right. left. split; [done|]. by exists nl, cs0.
    + injection Hl as -> <-. right. right. left. split; [done|]. by exists e, c0, cs0, out.
    + injection Hl as -> ->. right. right. right. eauto.
  - intros [(_ & nl & rest & o' & -> & Hn & Hb & ->)|[(-> & nl & rest & -> & Hn & Hb)|
      [(-> & e & c0 & rest & o' & -> & He & Hl & Hb & ->)|(? & ? & o' & Hb & ->)]]]; by constructor.
Qed.

Lemma Block_nil n o : Block n false [] o -> o = [].
Proof.
  intros H. remember [] as l eqn:Hl. remember false as b eqn:Hb.
  destruct H as [b0|ws cs0 out Hws Hlen Hd HB|nl cs0 out HL HB|nl cs0 out HL HB|e c0 cs0 out He Hlo HB|c1 cs0 out Hc1 Hl1 HB]; try done.
  by destruct (LineEnd_first _ _ HL) as (x & nl' & -> & _).
Qed.

(** ** The loop over the contents *)

(** The first byte of a character tells line ends and backslashes. *)
Lemma line_end_byte c b bs : encode_utf8 c = b :: bs -> is_line_end b = is_line_end c /\ (is_line_end c = true -> b = c).
Proof.
  intros Hb. destruct (encode_head c) as (b' & bs' & Hb' & Hlo & Hhi). rewrite Hb in Hb'. injection Hb' as <- _.
  destruct (N.lt_ge_cases c 0x80) as [Hc|Hc]; [by rewrite (Hlo Hc)|]. specialize (Hhi Hc).
  destruct (is_line_end c) eqn:Hl; [apply line_end_ascii in Hl; unfold ascii in Hl; lia|].
  destruct (is_line_end b) eqn:Hl'; [apply line_end_ascii in Hl'; unfold ascii in Hl'; lia|done].
Qed.

Lemma backslash_byte c b bs : encode_utf8 c = b :: bs -> (b =? BACKSLASH) = (c =? BACKSLASH).
Proof.
  intros Hb. destruct (encode_head c) as (b' & bs' & Hb' & Hlo & Hhi). rewrite Hb in Hb'. injection Hb' as <- _.
  destruct (N.lt_ge_cases c 0x80) as [Hc|Hc]; [by rewrite (Hlo Hc)|]. specialize (Hhi Hc).
  destruct (N.eqb_spec c BACKSLASH); [lia|]. apply N.eqb_neq. lia.
Qed.

Lemma continues_spec text i e cs : window text (i + 1) e (as_bytes cs) ->
  continues (as_bytes text) i e = wok (match cs with x :: _ => if is_line_end x then Some x else None | [] => None end).
Proof.
  intros Hw. unfold continues. destruct cs as [|x cs]; [apply window_length in Hw; simpl in Hw; by rewrite decide_False by lia|].
  destruct (encode_head x) as (y & ys & Hy & _). rewrite as_bytes_cons, Hy in Hw.
  destruct (window_cons _ _ _ _ _ Hw) as (Hbyte & Hlt & _). rewrite decide_True, Hbyte by done. simpl.
  destruct (line_end_byte x y ys Hy) as [-> Hyx]. destruct (is_line_end x); [by rewrite Hyx|done].
Qed.

(** One turn of the loop at the characters [c :: cs], for a loop that is right about what follows. *)
Section Step.
Context (fuel n : nat) (pre : str) (c : N) (cs post : str) (out : str).
Let text : str := pre ++ (c :: cs) ++ post.
Let e : nat := str_len (pre ++ c :: cs).
Context (Hgo : forall mid rest at' out' p, c :: cs = mid ++ rest -> p = str_len (pre ++ mid) ->
  (2 * length (as_bytes rest) + (if at' : bool then 1 else 0) <= fuel)%nat ->
  parses (block_loop fuel text n p e at' out') (fun r => exists o, Block n at' rest o /\ r = out' ++ o)).

Lemma step_position mid : Forall ascii mid -> str_len (pre ++ mid) = (str_len pre + length mid)%nat.
Proof. intros Hm. by rewrite str_len_app, (length_of_ascii mid). Qed.

Lemma step_bytes mid rest : c :: cs = mid ++ rest ->
  (length (as_bytes (c :: cs)) = length (as_bytes mid) + length (as_bytes rest))%nat.
Proof. intros ->. by rewrite as_bytes_app, length_app. Qed.

Lemma step_window : window text (str_len pre) e (as_bytes (c :: cs)).
Proof. apply window_text. Qed.

Lemma indent_step : (2 * length (as_bytes (c :: cs)) <= fuel)%nat ->
  parses (i <-- skip_blanks n (as_bytes text) (str_len pre) e ;; block_loop fuel text n i e false out)
    (fun r => exists o, Block n true (c :: cs) o /\ r = out ++ o).
Proof.
  intros Hf. pose proof step_window as Hw.
  rewrite (skip_blanks_spec n _ _ _ _ Hw), lead_bytes. simpl wbind.
  destruct (lead_split (c :: cs) (Nat.min n (lead (c :: cs)))) as (ws & rest & Heq & Hl & Hws & _); [lia|].
  pose proof (step_bytes _ _ Heq) as Hbytes. eapply parses_iff; [apply (Hgo ws rest); [done| |lia]|].
  - rewrite step_position, Hl; [done|]. eapply Forall_impl; [exact Hws|]. apply blank_ascii.
  - intros r. setoid_rewrite Block_true. split.
    + intros (o & Ho & ->). exists o. split; [|done]. by exists ws, rest.
    + intros (o & (ws' & rest' & Heq' & Hl' & _ & Ho) & ->). rewrite Heq in Heq' at 1. apply app_inj_1 in Heq' as [_ ->]; [|lia]. eauto.
Qed.

(** A line end, also after a backslash. *)
Lemma line_end_step x nl rest out' p : c :: cs = p ++ nl ++ rest -> Forall ascii p -> LineEnd nl rest -> x = (str_len pre + length p + length nl)%nat ->
  (2 * length (as_bytes (c :: cs)) <= S fuel)%nat ->
  parses (block_loop fuel text n x e true out') (fun r => exists o, Block n true rest o /\ r = out' ++ o).
Proof.
  intros Heq Hp Hnl -> Hf. destruct (LineEnd_first _ _ Hnl) as (y & nl' & Hnl0 & _ & Hasc).
  rewrite app_assoc in Heq. pose proof (step_bytes _ _ Heq) as Hbytes. assert (Hall : Forall ascii (p ++ nl)) by by apply Forall_app_2.
  rewrite (bytes_of_ascii (p ++ nl)), Hnl0, length_app in Hbytes by done. cbn [length] in Hbytes.
  apply (Hgo (p ++ nl) rest); [done| |lia]. rewrite step_position, length_app by done. lia.
Qed.

(** A backslash: the line goes on in the next one, or an escape. *)
Lemma backslash_step : c = BACKSLASH -> (2 * length (as_bytes (c :: cs)) <= S fuel)%nat ->
  parses (continued <-- continues (as_bytes text) (str_len pre) e ;;
      match continued with
      | Some next => i <-- after_line_end (as_bytes text) next (str_len pre + 1) e ;; block_loop fuel text n i e true out
      | None => '(i, out) <-- unescape_java_escape text (str_len pre) e true out ;; block_loop fuel text n i e false out
      end)
    (fun r => exists o, Block n false (c :: cs) o /\ r = out ++ o).
Proof.
  intros Hc Hf. pose proof step_window as Hw. rewrite Hc in Hw.
  assert (Hw1 : window text (str_len pre + 1) e (as_bytes cs)).
  { change (as_bytes (BACKSLASH :: cs)) with ([BACKSLASH] ++ as_bytes cs) in Hw. by apply window_app in Hw. }
  rewrite (continues_spec _ _ _ _ Hw1). simpl wbind. setoid_rewrite Block_false.
  destruct (match cs with x :: _ => if is_line_end x then Some x else None | [] => None end) as [x|] eqn:Hx.
  - assert (exists cs', cs = x :: cs' /\ is_line_end x = true) as (cs' & Hcs & Hl).
    { destruct cs as [|x' cs']; [done|]. destruct (is_line_end x') eqn:Hl; [|done]. injection Hx as ->. eauto. }
    rewrite Hcs in Hw1. destruct (after_line_end_spec _ _ _ _ _ Hl Hw1) as (nl & rest & Heq & Hnl & ->). simpl wbind.
    eapply parses_iff; [apply (line_end_step _ nl rest out [BACKSLASH]); [by rewrite Hc, Hcs, Heq|by repeat constructor|done|done|done]|].
    intros r. split.
    + intros (o & Ho & ->). exists o. split; [|done]. right. left. split; [done|]. exists nl, rest. by rewrite Hcs.
    + intros (o & [[H1 _]|[(_ & nl2 & rest2 & Heq2 & Hnl2 & Ho)|[(_ & e0 & c0 & rest2 & o' & Heq2 & He0 & _)|[? _]]]] & ->); [by rewrite Hc in H1| | |done].
      * rewrite Hcs, Heq in Heq2. destruct (LineEnd_unique _ _ _ _ Hnl Hnl2 Heq2) as [_ ->]. eauto.
      * destruct (escape_first _ _ He0) as (y' & e' & -> & _). rewrite Hcs in Heq2. injection Heq2 as <- _.
        rewrite (escape_no_line_end _ _ _ _ He0 eq_refl) in Hl. done.
  - assert (Hno : head cs <> Some LF /\ head cs <> Some CR).
    { destruct cs as [|x' cs']; [done|]. destruct (is_line_end x') eqn:Hl; [done|]. by split; intros [= ->]. }
    eapply parses_iff; [eapply (parses_bind _ _ _ (fun '(i', out') r => exists e0 c0 rest o, cs = e0 ++ rest /\ Escape e0 c0 /\ longest e0 rest /\
        (i', out') = ((str_len pre + 1 + length e0)%nat, out ++ [c0]) /\ Block n false rest o /\ r = out' ++ o)); [by apply unescape_java_escape_spec|]|].
    + intros [i' out'] (e0 & c0 & rest & Hcs & He0 & Hl & [= -> ->]). pose proof (Escape_ascii _ _ He0) as Hasc.
      assert (Heq : c :: cs = (BACKSLASH :: e0) ++ rest) by by rewrite Hc, Hcs. pose proof (step_bytes _ _ Heq) as Hbytes.
      assert (Hall : Forall ascii (BACKSLASH :: e0)) by by constructor.
      rewrite (bytes_of_ascii (BACKSLASH :: e0)) in Hbytes by done. cbn [length] in Hbytes.
      eapply parses_iff; [apply (Hgo (BACKSLASH :: e0) rest); [done| |lia]|].
      * rewrite step_position by done. simpl. lia.
      * intros r. split; [intros (o & Ho & ->); by exists e0, c0, rest, o|].
        intros (e2 & c2 & rest2 & o & Heq2 & _ & _ & [= Hlen _] & Ho & ->). rewrite Hcs in Heq2. apply app_inj_1 in Heq2 as [_ ->]; [|lia]. by exists o.
    + intros r. split.
      * intros ([i' out'] & _ & (e2 & c2 & rest2 & o & Hcs2 & He2 & Hl2 & [= -> ->] & Ho & ->)).
        exists (c2 :: o). split; [|by rewrite <-app_assoc]. right. right. left. split; [done|]. by exists e2, c2, rest2, o.
      * intros (o & [[H1 _]|[(_ & nl2 & rest2 & Heq2 & Hnl2 & _)|[(_ & e0 & c0 & rest & o' & Heq2 & He & Hl & Ho & ->)|[? _]]]] & ->); [by rewrite Hc in H1| | |done].
        -- exfalso. destruct (LineEnd_first _ _ Hnl2) as (x & nl' & -> & Hx' & _). rewrite Heq2 in Hx. simpl in Hx. by rewrite Hx' in Hx.
        -- eexists (_, _). split; [by exists e0, c0, rest|]. exists e0, c0, rest, o'. by rewrite <-app_assoc.
Qed.

(** Any other character. *)
Lemma plain_step b bs : encode_utf8 c = b :: bs -> c <> BACKSLASH -> (2 * length (as_bytes (c :: cs)) <= S fuel)%nat ->
  parses (if is_line_end b then
      i <-- after_line_end (as_bytes text) b (str_len pre) e ;; block_loop fuel text n i e true (out ++ [LF])
    else '(i, out) <-- next_char text (str_len pre) e b out ;; block_loop fuel text n i e false out)
    (fun r => exists o, Block n false (c :: cs) o /\ r = out ++ o).
Proof.
  intros Hb Hc Hf. pose proof step_window as Hw. destruct (line_end_byte c b bs Hb) as [-> Hbc]. setoid_rewrite Block_false.
  destruct (is_line_end c) eqn:Hl.
  - rewrite (Hbc eq_refl). destruct (after_line_end_spec _ _ _ _ _ Hl Hw) as (nl & rest & Heq & Hnl & ->). simpl wbind.
    eapply parses_iff; [apply (line_end_step _ nl rest (out ++ [LF]) []); [done|constructor|done|by rewrite Nat.add_0_r|done]|].
    intros r. split.
    + intros (o & Ho & ->). exists (LF :: o). split; [|by rewrite <-app_assoc]. left. split; [done|]. by exists nl, rest, o.
    + intros (o & [(_ & nl2 & rest2 & o' & Heq2 & Hnl2 & Ho & ->)|[[? _]|[[? _]|(_ & ? & _)]]] & ->); try done.
      rewrite Heq in Heq2. destruct (LineEnd_unique _ _ _ _ Hnl Hnl2 Heq2) as [_ ->]. exists o'. by rewrite <-app_assoc.
  - unfold text, e. rewrite (next_char_spec pre c cs post b bs out Hb). simpl wbind. fold text e.
    pose proof (step_bytes [c] cs eq_refl) as Hbytes. pose proof (len_utf8_pos c).
    rewrite (length_as_bytes [c]), str_len_cons in Hbytes.
    eapply parses_iff; [apply (Hgo [c] cs); [done|done|lia]|]. intros r. split.
    + intros (o & Ho & ->). exists (c :: o). split; [|by rewrite <-app_assoc]. right. right. right. eauto.
    + intros (o & [[? _]|[[? _]|[[? _]|(_ & _ & o' & Ho & ->)]]] & ->); try done. exists o'. by rewrite <-app_assoc.
Qed.
End Step.

Lemma block_loop_spec fuel n pre cur post (at_start : bool) out :
  (2 * length (as_bytes cur) + (if at_start then 1 else 0) <= fuel)%nat ->
  parses (block_loop fuel (pre ++ cur ++ post) n (str_len pre) (str_len (pre ++ cur)) at_start out)
    (fun r => exists o, Block n at_start cur o /\ r = out ++ o).
Proof.
  revert pre cur at_start out. induction fuel as [|fuel IH]; intros pre cur at_start out Hf; (destruct cur as [|c cs];
    [simpl; rewrite app_nil_r, decide_False by lia; eapply parses_iff; [apply parses_ok|]; intros r; split;
      [intros ->; exists []; split; [constructor|by rewrite app_nil_r]|]|]).
  1,3: intros (o & Ho & ->); assert (o = []) as ->; [|by rewrite app_nil_r].
  1,2: destruct at_start; [apply Block_true in Ho as (ws & rest & Heq & _ & _ & Ho); symmetry in Heq; apply app_nil in Heq as [-> ->]|];
    by apply Block_nil in Ho.
  { pose proof (len_utf8_pos c). rewrite as_bytes_cons, length_app, length_encode_utf8 in Hf. lia. }
  assert (Hgo : forall mid rest at' out' p, c :: cs = mid ++ rest -> p = str_len (pre ++ mid) ->
    (2 * length (as_bytes rest) + (if at' : bool then 1 else 0) <= fuel)%nat ->
    parses (block_loop fuel (pre ++ (c :: cs) ++ post) n p (str_len (pre ++ c :: cs)) at' out') (fun r => exists o, Block n at' rest o /\ r = out' ++ o)).
  { intros mid rest at' out' p Heq -> Hfuel. rewrite Heq.
    replace (pre ++ (mid ++ rest) ++ post) with ((pre ++ mid) ++ rest ++ post) by by rewrite <-!app_assoc.
    rewrite (app_assoc pre mid rest). by apply IH. }
  destruct (encode_head c) as (b & bs & Hb & _). pose proof (window_text pre (c :: cs) post) as Hw.
  rewrite as_bytes_cons, Hb in Hw. destruct (window_cons _ _ _ _ _ Hw) as (Hbyte & Hlt & _).
  cbn [block_loop]. rewrite decide_True by done. destruct at_start; cbv iota in Hf; [apply indent_step; [done|lia]|].
  rewrite Hbyte. simpl wbind. rewrite (backslash_byte c b bs Hb), Nat.add_0_r in *.
  destruct (N.eqb_spec c BACKSLASH) as [Hc|Hc]; [by apply backslash_step|by eapply plain_step].
Qed.

(** ** The delimiters and the indentation *)

Lemma ascii_suffix k l cs : Forall ascii l -> as_bytes cs = k ++ l -> exists rest, cs = rest ++ l /\ as_bytes rest = k.
Proof.
  revert k cs. induction l as [|x l IH] using rev_ind; intros k cs Hl Hcs; [exists cs; by rewrite !app_nil_r in *|].
  apply Forall_app in Hl as [Hl Hx]. apply List.Forall_inv in Hx as Hx'.
  assert (Hlast : last cs = Some x) by (apply last_bytes; [done|]; by rewrite Hcs, app_assoc, last_snoc).
  destruct cs as [|c cs _] using rev_ind; [done|]. rewrite last_snoc in Hlast. injection Hlast as ->.
  rewrite as_bytes_app, (bytes_of_ascii [x]), app_assoc in Hcs by done. apply app_inj_2 in Hcs as [Hcs _]; [|done].
  destruct (IH k cs Hl Hcs) as (rest & -> & <-). exists rest. by rewrite app_assoc.
Qed.

Lemma DELIMITER_ascii : Forall ascii DELIMITER.
Proof. by repeat constructor. Qed.

Lemma delimited text :
  negb (bool_decide (take 3 (as_bytes text) = DELIMITER)) ||
    negb (bool_decide (drop (length (as_bytes text) - 3) (as_bytes text) = DELIMITER)) || (length (as_bytes text) <? 6)%nat = false <->
  exists mid, text = DELIMITER ++ mid ++ DELIMITER.
Proof.
  rewrite !orb_false_iff, !negb_false_iff, !bool_decide_eq_true, Nat.ltb_ge. pose proof DELIMITER_ascii as Hd. split.
  - intros [[Hs He] Hl].
    destruct (ascii_prefix DELIMITER (drop 3 (as_bytes text)) text) as (t & -> & _); [done|by rewrite <-Hs, take_drop|].
    rewrite as_bytes_app, (bytes_of_ascii DELIMITER), length_app in He, Hl by done. change (length DELIMITER) with 3%nat in He, Hl.
    replace (3 + length (as_bytes t) - 3)%nat with (3 + (length (as_bytes t) - 3))%nat in He by lia.
    change (drop (length (as_bytes t) - 3) (as_bytes t) = DELIMITER) in He.
    destruct (ascii_suffix (take (length (as_bytes t) - 3) (as_bytes t)) DELIMITER t) as (mid & -> & _); [done| |by exists mid].
    etrans; [symmetry; apply (take_drop (length (as_bytes t) - 3))|]. by rewrite He.
  - intros (mid & ->). rewrite !as_bytes_app, (bytes_of_ascii DELIMITER), !length_app by done. change (length DELIMITER) with 3%nat.
    split; [split; [done|]|lia]. replace (3 + (length (as_bytes mid) + 3) - 3)%nat with (3 + length (as_bytes mid))%nat by lia.
    change (drop (length (as_bytes mid)) (as_bytes mid ++ DELIMITER) = DELIMITER). apply drop_app_length.
Qed.

Section Delimited.
Context (mid : str).
Let text : str := DELIMITER ++ mid ++ DELIMITER.
Let closing : nat := (length (as_bytes text) - 3)%nat.

Lemma closing_eq : closing = (3 + length (as_bytes mid))%nat.
Proof.
  unfold closing, text. rewrite !as_bytes_app, (bytes_of_ascii DELIMITER), !length_app by apply DELIMITER_ascii. simpl. lia.
Qed.

Lemma mid_window : window text 3 closing (as_bytes mid).
Proof.
  rewrite closing_eq. exists DELIMITER, DELIMITER. unfold text. rewrite !as_bytes_app, (bytes_of_ascii DELIMITER) by apply DELIMITER_ascii.
  split; [done|]. split; [done|]. by rewrite length_app.
Qed.

(** The indentation of the closing line. *)
Lemma indent_spec : exists line indent_end,
  closing_line_start (as_bytes text) closing = wok line /\
  skip_blanks (closing - line) (as_bytes text) line closing = wok indent_end /\
  (indent_end - line)%nat = lead (last_line (DELIMITER ++ mid)).
Proof.
  assert (Htake : take closing (as_bytes text) = as_bytes (DELIMITER ++ mid)).
  { rewrite closing_eq. unfold text. rewrite app_assoc, as_bytes_app, take_app_le, take_ge; [done| |];
      rewrite !as_bytes_app, length_app, (bytes_of_ascii DELIMITER) by apply DELIMITER_ascii; simpl; lia. }
  destruct (closing_line_start_spec (as_bytes text) closing) as (Hstart & Hle & Hdrop); [unfold closing; lia|].
  rewrite Htake, last_line_bytes in *. set (ll := last_line (DELIMITER ++ mid)) in *.
  set (line := (closing - length (as_bytes ll))%nat) in *.
  assert (Hlen : length (as_bytes (DELIMITER ++ mid)) = closing) by (rewrite <-Htake, length_take; unfold closing; lia).
  assert (Hw : window text line closing (as_bytes ll)).
  { exists (take line (as_bytes (DELIMITER ++ mid))), (as_bytes DELIMITER).
    assert (Hsplit : take line (as_bytes (DELIMITER ++ mid)) ++ as_bytes ll = as_bytes (DELIMITER ++ mid)) by (rewrite <-Hdrop; apply take_drop).
    split; [rewrite (app_assoc (take _ _)), Hsplit; unfold text; by rewrite !as_bytes_app, app_assoc|]. rewrite Hsplit.
    split; [rewrite length_take; unfold line; lia|done]. }
  exists line, (line + lead ll)%nat. split; [done|]. split; [|lia]. rewrite (skip_blanks_spec _ _ _ _ _ Hw), lead_bytes.
  assert (Hlead : (lead ll <= length (as_bytes ll))%nat).
  { rewrite <-lead_bytes. generalize (as_bytes ll). clear. induction l as [|x l IH]; simpl; [lia|]. case_match; lia. }
  unfold line. do 2 f_equal. lia.
Qed.

Lemma block_of_mid s : text_block text s <->
  exists ws nl body, mid = ws ++ nl ++ body /\ Forall (fun c => is_blank c = true) ws /\ LineEnd nl body /\
    Block (lead (last_line (DELIMITER ++ mid))) true body s.
Proof.
  assert (Hll : forall ws nl body, LineEnd nl body -> last_line (DELIMITER ++ ws ++ nl ++ body) = last_line (nl ++ body)).
  { intros ws nl body (x & nl' & -> & Hx & _)%LineEnd_first. rewrite app_assoc. apply last_line_app. simpl. by rewrite Hx. }
  unfold text_block, text. split.
  - intros (ws & nl & body & Heq & Hws & Hnl & Hb). apply app_inv_head in Heq. rewrite !app_assoc in Heq. apply app_inj_2 in Heq as [Heq _]; [|done].
    rewrite <-!app_assoc in Heq. exists ws, nl, body. split; [done|]. by rewrite Heq, Hll.
  - intros (ws & nl & body & Heq & Hws & Hnl & Hb). exists ws, nl, body. rewrite Heq, Hll in * by done. by rewrite <-!app_assoc.
Qed.

Lemma delimited_spec ws rest : mid = ws ++ rest -> length ws = lead mid -> Forall (fun c => is_blank c = true) ws -> lead rest = 0%nat ->
  parses (if decide (closing <= 3 + lead mid)%nat then
      err (lit "Missing line terminator after opening delimiter") 3 closing
    else
      x <-- byte_at (as_bytes text) (3 + lead mid) ;;
      if is_line_end x then
        content_start <-- after_line_end (as_bytes text) x (3 + lead mid) closing ;;
        block_loop (2 * (closing - content_start) + 1) text (lead (last_line (DELIMITER ++ mid))) content_start closing true []
      else err (lit "Missing line terminator after opening delimiter") (3 + lead mid) (3 + lead mid + 1))
    (text_block text).
Proof.
  intros Hmid Hlen Hws Hrest. eapply parses_iff; [|intros s; symmetry; apply block_of_mid]. set (n := lead (last_line (DELIMITER ++ mid))).
  assert (Hasc : as_bytes ws = ws) by (apply bytes_of_ascii; eapply Forall_impl; [exact Hws|]; apply blank_ascii).
  assert (Huniq : forall ws' nl body, mid = ws' ++ nl ++ body -> Forall (fun c => is_blank c = true) ws' -> LineEnd nl body -> rest = nl ++ body).
  { intros ws' nl body Heq Hws' Hnl. destruct (LineEnd_first _ _ Hnl) as (x & nl' & -> & Hx & _).
    assert (Hl : lead mid = length ws').
    { rewrite Heq, lead_app by done. simpl. destruct (is_blank x) eqn:Hb; [|lia]. exfalso.
      unfold is_blank, is_line_end in *. destruct (N.eqb_spec x LF) as [-> |]; [done|]. destruct (N.eqb_spec x CR) as [-> |]; done. }
    rewrite Hmid in Heq at 1. apply app_inj_1 in Heq as [_ ->]; [done|lia]. }
  pose proof mid_window as Hw. rewrite Hmid, as_bytes_app, Hasc in Hw. apply window_app in Hw. rewrite Hlen in Hw.
  pose proof (window_length _ _ _ _ Hw) as He. destruct rest as [|x cs].
  { simpl in He. rewrite decide_True by lia. apply parses_err. intros s (ws' & nl & body & Heq & Hws' & Hnl & _).
    specialize (Huniq _ _ _ Heq Hws' Hnl). by destruct (LineEnd_first _ _ Hnl) as (y & nl' & -> & _). }
  destruct (encode_head x) as (b & bs & Hb & _). destruct (line_end_byte x b bs Hb) as [Hle Hbx]. pose proof Hw as Hw0.
  rewrite as_bytes_cons, Hb in Hw0. destruct (window_cons _ _ _ _ _ Hw0) as (Hbyte & Hlt & _).
  rewrite decide_False by lia. rewrite Hbyte. cbn [wbind wok]. rewrite Hle. destruct (is_line_end x) eqn:Hx.
  - rewrite (Hbx eq_refl). destruct (after_line_end_spec _ _ _ _ _ Hx Hw) as (nl & body & Heq & Hnl & ->). cbn [wbind wok].
    destruct (LineEnd_first _ _ Hnl) as (y & nl' & _ & _ & Hnlasc).
    assert (Hpre : Forall ascii (DELIMITER ++ ws ++ nl)).
    { apply Forall_app_2; [apply DELIMITER_ascii|]. apply Forall_app_2; [|done]. eapply Forall_impl; [exact Hws|]. apply blank_ascii. }
    assert (Htext : text = (DELIMITER ++ ws ++ nl) ++ body ++ DELIMITER) by (unfold text; rewrite Hmid, Heq, <-!app_assoc; done).
    assert (Hpos : (3 + lead mid + length nl)%nat = str_len (DELIMITER ++ ws ++ nl)).
    { rewrite (length_of_ascii (DELIMITER ++ ws ++ nl)), !length_app, Hlen by done. simpl. lia. }
    assert (Hcl : closing = str_len ((DELIMITER ++ ws ++ nl) ++ body)).
    { rewrite closing_eq, Hmid, Heq, <-!length_as_bytes, !as_bytes_app, !length_app, (bytes_of_ascii DELIMITER) by apply DELIMITER_ascii. simpl. lia. }
    rewrite Hpos, Hcl, Htext. eapply parses_iff; [apply block_loop_spec|].
    + rewrite (str_len_app _ body), (length_as_bytes body). lia.
    + intros s. simpl. split.
      * intros (o & Ho & ->). exists ws, nl, body. rewrite Hmid at 1. by rewrite Heq.
      * intros (ws' & nl2 & body2 & Heq2 & Hws' & Hnl2 & Ho). specialize (Huniq _ _ _ Heq2 Hws' Hnl2). rewrite Heq in Huniq.
        destruct (LineEnd_unique _ _ _ _ Hnl Hnl2 Huniq) as [_ ->]. eauto.
  - apply parses_err. intros s (ws' & nl & body & Heq & Hws' & Hnl & _). specialize (Huniq _ _ _ Heq Hws' Hnl).
    destruct (LineEnd_first _ _ Hnl) as (y & nl' & -> & Hy & _). injection Huniq as -> _. congruence.
Qed.
End Delimited.

Lemma unescape_text_block_spec text : parses (unescape_text_block text) (text_block text).
Proof.
  unfold unescape_text_block. destruct (_ || _) eqn:Hc.
  - apply parses_err. intros s (ws & nl & body & -> & _).
    assert (Hd := proj2 (delimited (DELIMITER ++ ws ++ nl ++ body ++ DELIMITER))). rewrite Hd in Hc; [done|].
    exists (ws ++ nl ++ body). by rewrite <-!app_assoc.
  - apply delimited in Hc as (mid & ->). destruct (indent_spec mid) as (line & indent_end & -> & Hind & Hn). cbn [wbind wok].
    rewrite Hind. cbn [wbind wok]. rewrite Hn, (skip_blanks_spec _ _ _ _ _ (mid_window mid)), lead_bytes.
    destruct (lead_split mid (lead mid)) as (ws & rest & Hmid & Hlen & Hws & Hr); [done|].
    assert (Hmin : Nat.min (length (as_bytes (DELIMITER ++ mid ++ DELIMITER)) - 3 - 3) (lead mid) = lead mid).
    { rewrite closing_eq, Hmid, as_bytes_app, length_app, <-Hmid, <-Hlen, (bytes_of_ascii ws); [lia|].
      eapply Forall_impl; [exact Hws|]. apply blank_ascii. }
    rewrite Hmin. cbn [wbind wok]. apply (delimited_spec mid ws rest); [done|done|done|lia].
Qed.

(** C18: Text blocks are read line by line.  [unescape_text_block] returns for every text and accepts exactly those between
    delimiters with blanks and a line end after the first one and contents made of plain
    characters, line ends, continued lines and escapes; line ends become line feeds, and from every line
    as many blanks are dropped as the line of the closing delimiter starts with, or all if there are fewer. *)
Theorem text_block_exact text : parses (unescape_text_block text) (text_block text).
Proof. apply unescape_text_block_spec. Qed.

(** *** Java's rule

    For contents without escapes and carriage returns: the indentation is the least of the lines that are not
    blank and of the last one, and blanks at the ends of lines go too (JLS 3.10.6). *)

Definition split_lines (body : str) : list str :=
  foldr (fun c ls => if c =? LF then [] :: ls else match ls with l :: ls => (c :: l) :: ls | [] => [[c]] end) [[]] body.

Definition java_indent (lines : list str) : nat :=
  let last_lead := lead (default [] (last lines)) in
  foldr (fun l m => if forallb is_blank l then m else Nat.min (lead l) m) last_lead lines.

Definition strip_end (l : str) : str := reverse (drop (lead (reverse l)) (reverse l)).

Definition java_strip (body : str) : str :=
  let lines := split_lines body in
  let m := java_indent lines in
  let strip l := if forallb is_blank l then [] else strip_end (drop m l) in
  default [] (foldr (fun l acc => match acc with None => Some (strip l) | Some r => Some (strip l ++ LF :: r) end) None lines).

(** Where the closing delimiter follows text, or is indented further than a line, the code drops more than
    Java does; and it keeps blanks at the ends of lines. *)
Theorem text_block_differs :
  (let body := lit "  a" ++ [LF] ++ lit "    b" in
   unescape_text_block (DELIMITER ++ [LF] ++ body ++ DELIMITER) = wok (lit "a" ++ [LF] ++ lit "b") /\
   java_strip body = lit "a" ++ [LF] ++ lit "  b") /\
  (let body := lit "  a" ++ [LF] ++ lit "    b" ++ [LF] ++ lit "      " in
   unescape_text_block (DELIMITER ++ [LF] ++ body ++ DELIMITER) = wok (lit "a" ++ [LF] ++ lit "b" ++ [LF]) /\
   java_strip body = lit "a" ++ [LF] ++ lit "  b" ++ [LF]) /\
  (let body := lit "a  " ++ [LF] in
   unescape_text_block (DELIMITER ++ [LF] ++ body ++ DELIMITER) = wok (lit "a  " ++ [LF]) /\
   java_strip body = lit "a" ++ [LF]).
Proof. repeat split; vm_compute; reflexivity. Qed.

(** ** All literals *)

Inductive LiteralValue :=
| VInt (v : Z) | VLong (v : Z) | VFloat (bits : Z) | VDouble (bits : Z) | VChar (c : N) | VString (s : str).

(** The kinds of literals; any other kind by its name. *)
Inductive SyntaxKind :=
| IntLiteral | LongLiteral | FloatLiteral | DoubleLiteral | CharLiteral | StringLiteral | TextBlock
| OtherKind (name : string).

Definition parse_literal (kind : SyntaxKind) (text : str) : lres LiteralValue :=
  let bytes := as_bytes text in
  match kind with
  | IntLiteral => v <-- parse_int_literal bytes ;; wok (VInt v)
  | LongLiteral => v <-- parse_long_literal bytes ;; wok (VLong v)
  | FloatLiteral => v <-- parse_float_literal bytes ;; wok (VFloat v)
  | DoubleLiteral => v <-- parse_double_literal bytes ;; wok (VDouble v)
  | CharLiteral => v <-- unescape_char_literal text ;; wok (VChar v)
  | StringLiteral => v <-- unescape_string_literal text ;; wok (VString v)
  | TextBlock => v <-- unescape_text_block text ;; wok (VString v)
  | OtherKind name => err (lit "Unsupported literal kind: " ++ lit name) 0 (length bytes)
  end.

Lemma parses_returns {A B} (m : lres A) Q (f : A -> lres B) : parses m Q -> (forall x, exists r, f x = Done r) ->
  exists r, (x <-- m ;; f x) = Done r.
Proof. intros ([e|x] & -> & _) Hf; simpl; [by eexists|apply Hf]. Qed.

(** Literals of every kind are read without a panic. *)
Theorem parse_literal_total kind text : (Z.of_nat (length (as_bytes text)) < 2 ^ 58)%Z ->
  exists r, parse_literal kind text = Done r.
Proof.
  intros Hlen. destruct kind; simpl; [..|by eexists]; (eapply parses_returns; [|intros x; by eexists]).
  - apply parse_int_literal_spec.
  - apply parse_long_literal_spec.
  - by apply parse_floating_literal_spec.
  - by apply parse_floating_literal_spec.
  - apply unescape_char_literal_spec.
  - apply unescape_string_literal_spec.
  - apply unescape_text_block_spec.
Qed.
