(* ===== verification/LegacyWire.v ===== *)
(** * The legacy message encoding (crates/nova-remote-proto/src/legacy_v2.rs)

    The messages between the router and its workers in the lockstep protocol, their encoder and
    their decoder.  A writer function returns the bytes it appends.  Allocation succeeds. *)

From stdpp Require Import base numbers option list.
From S2P Require Import Prelude Str Utf8 ClassReader Wire.

Local Open Scope N_scope.

Definition PROTOCOL_VERSION : N := 4.

(** ** Messages (lib.rs, legacy_v2.rs) *)

Record FileText := mkFileText { ft_path : str; ft_text : str }.

Record SymbolRankKey := mkRankKey { kind_rank : Z; rk_score : Z }.

Record ScoredSymbol := mkScoredSymbol { ss_name : str; ss_path : str; ss_rank_key : SymbolRankKey }.

Record WorkerStats := mkWorkerStats {
  ws_shard_id : N;
  ws_revision : N;
  ws_index_generation : N;
  ws_file_count : N
}.

Record ShardIndexInfo := mkShardIndexInfo {
  si_shard_id : N;
  si_revision : N;
  si_index_generation : N;
  si_symbol_count : N
}.

Module RpcMessage.
Inductive t :=
| WorkerHello (shard_id : N) (auth_token : option str) (has_cached_index : bool)
| RouterHello (worker_id shard_id revision protocol_version : N)
| LoadFiles (revision : N) (files : list FileText)
| IndexShard (revision : N) (files : list FileText)
| UpdateFile (revision : N) (file : FileText)
| GetWorkerStats
| WorkerStats (stats : WorkerStats)
| ShardIndexInfo (info : ShardIndexInfo)
| SearchSymbols (query : str) (limit : N)
| SearchSymbolsResult (items : list ScoredSymbol)
| Ack
| Shutdown
| Error (message : str).
End RpcMessage.
Notation RpcMessage := RpcMessage.t.

(** ** [WireWriter] *)

Definition write_u8 (v : N) : list N := [v].
Definition write_bool (v : bool) : list N := write_u8 (if v then 1 else 0).
Definition write_u32 (v : N) : list N := to_le_bytes 4 v.
Definition write_u64 (v : N) : list N := to_le_bytes 8 v.
Definition write_i32 (v : Z) : list N := to_le_bytes 4 (Z.to_N (v mod 2 ^ 32)).

Definition write_len (len : N) : wres (list N) :=
  _ <-- ensure (len <? 2 ^ 32) (WireError.LengthDoesNotFit len) ;;
  wok (write_u32 len).

Definition write_string (s : str) (max_bytes : N) : wres (list N) :=
  let len := bytes_left (as_bytes s) in
  _ <-- ensure (len <=? max_bytes) (WireError.TooLarge len max_bytes) ;;
  l <-- write_len len ;;
  wok (l ++ as_bytes s).

Definition write_option {T} (opt : option T) (write : T -> wres (list N)) : wres (list N) :=
  match opt with
  | None => wok (write_u8 0)
  | Some value => v <-- write value ;; wok (write_u8 1 ++ v)
  end.

Fixpoint write_all {T} (values : list T) (write : T -> wres (list N)) : wres (list N) :=
  match values with
  | [] => wok []
  | value :: values => v <-- write value ;; vs <-- write_all values write ;; wok (v ++ vs)
  end.

Definition write_vec {T} (values : list T) (max_len : N) (write : T -> wres (list N)) : wres (list N) :=
  let len := N.of_nat (length values) in
  _ <-- ensure (len <=? max_len) (WireError.TooLarge len max_len) ;;
  l <-- write_len len ;;
  vs <-- write_all values write ;;
  wok (l ++ vs).

Definition write_file_text (file : FileText) : wres (list N) :=
  p <-- write_string (ft_path file) MAX_SMALL_STRING_BYTES ;;
  t <-- write_string (ft_text file) MAX_FILE_TEXT_BYTES ;;
  wok (p ++ t).

Definition write_symbol_rank_key (key : SymbolRankKey) : list N :=
  write_i32 (kind_rank key) ++ write_i32 (rk_score key).

Definition write_scored_symbol (sym : ScoredSymbol) : wres (list N) :=
  n <-- write_string (ss_name sym) MAX_SMALL_STRING_BYTES ;;
  p <-- write_string (ss_path sym) MAX_SMALL_STRING_BYTES ;;
  wok (n ++ p ++ write_symbol_rank_key (ss_rank_key sym)).

Definition write_worker_stats (stats : WorkerStats) : list N :=
  write_u32 (ws_shard_id stats) ++ write_u64 (ws_revision stats) ++
  write_u64 (ws_index_generation stats) ++ write_u32 (ws_file_count stats).

Definition write_shard_index_info (info : ShardIndexInfo) : list N :=
  write_u32 (si_shard_id info) ++ write_u64 (si_revision info) ++
  write_u64 (si_index_generation info) ++ write_u32 (si_symbol_count info).

Definition write_rpc_message (msg : RpcMessage) : wres (list N) :=
  match msg with
  | RpcMessage.WorkerHello shard_id auth_token has_cached_index =>
      t <-- write_option auth_token (fun token => write_string token MAX_SMALL_STRING_BYTES) ;;
      wok (write_u8 0 ++ write_u32 shard_id ++ t ++ write_bool has_cached_index)
  | RpcMessage.RouterHello worker_id shard_id revision protocol_version =>
      wok (write_u8 1 ++ write_u32 worker_id ++ write_u32 shard_id ++ write_u64 revision ++
           write_u32 protocol_version)
  | RpcMessage.LoadFiles revision files =>
      v <-- write_vec files MAX_FILES_PER_MESSAGE write_file_text ;;
      wok (write_u8 2 ++ write_u64 revision ++ v)
  | RpcMessage.IndexShard revision files =>
      v <-- write_vec files MAX_FILES_PER_MESSAGE write_file_text ;;
      wok (write_u8 3 ++ write_u64 revision ++ v)
  | RpcMessage.UpdateFile revision file =>
      f <-- write_file_text file ;;
      wok (write_u8 4 ++ write_u64 revision ++ f)
  | RpcMessage.GetWorkerStats => wok (write_u8 5)
  | RpcMessage.WorkerStats stats => wok (write_u8 6 ++ write_worker_stats stats)
  | RpcMessage.ShardIndexInfo info => wok (write_u8 7 ++ write_shard_index_info info)
  | RpcMessage.SearchSymbols query limit =>
      q <-- write_string query MAX_SMALL_STRING_BYTES ;;
      _ <-- ensure (limit <=? MAX_SEARCH_RESULTS_PER_MESSAGE)
              (WireError.TooLarge limit MAX_SEARCH_RESULTS_PER_MESSAGE) ;;
      wok (write_u8 8 ++ q ++ write_u32 limit)
  | RpcMessage.SearchSymbolsResult items =>
      v <-- write_vec items MAX_SEARCH_RESULTS_PER_MESSAGE write_scored_symbol ;;
      wok (write_u8 9 ++ v)
  | RpcMessage.Ack => wok (write_u8 10)
  | RpcMessage.Shutdown => wok (write_u8 11)
  | RpcMessage.Error message =>
      m <-- write_string message MAX_SMALL_STRING_BYTES ;;
      wok (write_u8 12 ++ m)
  end.

Definition encode_message (msg : RpcMessage) : wres (list N) :=
  buf <-- write_rpc_message msg ;;
  _ <-- ensure (bytes_left buf <=? MAX_MESSAGE_BYTES) (WireError.TooLarge (bytes_left buf) MAX_MESSAGE_BYTES) ;;
  wok buf.

(** ** [WireReader] *)

Definition read_u8 (s : list N) : wres (N * list N) := read_byte s.

Definition read_bool (s : list N) : wres (bool * list N) :=
  '(tag, s) <-- read_u8 s ;;
  match tag with
  | 0 => wok (false, s)
  | 1 => wok (true, s)
  | other => werr (WireError.InvalidTag other)
  end.

Definition read_u32 (s : list N) : wres (N * list N) := read_le 4 s.
Definition read_u64 (s : list N) : wres (N * list N) := read_le 8 s.
Definition read_i32 (s : list N) : wres (Z * list N) :=
  '(n, s) <-- read_le 4 s ;; wok (to_signed 32 n, s).
Definition read_len (s : list N) : wres (N * list N) := read_u32 s.

Definition read_string (max_bytes : N) (s : list N) : wres (str * list N) :=
  '(len, s) <-- read_len s ;;
  _ <-- ensure (len <=? max_bytes) (WireError.TooLarge len max_bytes) ;;
  _ <-- ensure (len <=? bytes_left s) (WireError.UnexpectedEof len (bytes_left s)) ;;
  '(bytes, s) <-- read_exact len s ;;
  match from_utf8 bytes with
  | Some out => wok (out, s)
  | None => werr WireError.InvalidUtf8
  end.

Definition read_option {T} (read : list N -> wres (T * list N)) (s : list N) : wres (option T * list N) :=
  '(tag, s) <-- read_u8 s ;;
  match tag with
  | 0 => wok (None, s)
  | 1 => '(v, s) <-- read s ;; wok (Some v, s)
  | other => werr (WireError.InvalidTag other)
  end.

Fixpoint read_times {T} (n : nat) (read : list N -> wres (T * list N)) (s : list N) : wres (list T * list N) :=
  match n with
  | O => wok ([], s)
  | S n => '(v, s) <-- read s ;; '(vs, s) <-- read_times n read s ;; wok (v :: vs, s)
  end.

Definition read_vec {T} (max_len min_wire_bytes_per_item : N) (read : list N -> wres (T * list N)) (s : list N)
    : wres (list T * list N) :=
  '(len, s) <-- read_len s ;;
  _ <-- ensure (len <=? max_len) (WireError.TooLarge len max_len) ;;
  let max_by_remaining := if min_wire_bytes_per_item =? 0 then 0 else bytes_left s / min_wire_bytes_per_item in
  _ <-- ensure (len <=? max_by_remaining) (WireError.ExceedsRemaining len (bytes_left s)) ;;
  read_times (N.to_nat len) read s.

Definition read_file_text (s : list N) : wres (FileText * list N) :=
  '(path, s) <-- read_string MAX_SMALL_STRING_BYTES s ;;
  '(text, s) <-- read_string MAX_FILE_TEXT_BYTES s ;;
  wok (mkFileText path text, s).

Definition read_symbol_rank_key (s : list N) : wres (SymbolRankKey * list N) :=
  '(kind_rank, s) <-- read_i32 s ;;
  '(score, s) <-- read_i32 s ;;
  wok (mkRankKey kind_rank score, s).

Definition read_scored_symbol (s : list N) : wres (ScoredSymbol * list N) :=
  '(name, s) <-- read_string MAX_SMALL_STRING_BYTES s ;;
  '(path, s) <-- read_string MAX_SMALL_STRING_BYTES s ;;
  '(rank_key, s) <-- read_symbol_rank_key s ;;
  wok (mkScoredSymbol name path rank_key, s).

Definition read_worker_stats (s : list N) : wres (WorkerStats * list N) :=
  '(shard_id, s) <-- read_u32 s ;;
  '(revision, s) <-- read_u64 s ;;
  '(index_generation, s) <-- read_u64 s ;;
  '(file_count, s) <-- read_u32 s ;;
  wok (mkWorkerStats shard_id revision index_generation file_count, s).

Definition read_shard_index_info (s : list N) : wres (ShardIndexInfo * list N) :=
  '(shard_id, s) <-- read_u32 s ;;
  '(revision, s) <-- read_u64 s ;;
  '(index_generation, s) <-- read_u64 s ;;
  '(symbol_count, s) <-- read_u32 s ;;
  wok (mkShardIndexInfo shard_id revision index_generation symbol_count, s).

Definition read_rpc_message (s : list N) : wres (RpcMessage * list N) :=
  '(tag, s) <-- read_u8 s ;;
  match tag with
  | 0 =>
      '(shard_id, s) <-- read_u32 s ;;
      '(auth_token, s) <-- read_option (read_string MAX_SMALL_STRING_BYTES) s ;;
      '(has_cached_index, s) <-- read_bool s ;;
      wok (RpcMessage.WorkerHello shard_id auth_token has_cached_index, s)
  | 1 =>
      '(worker_id, s) <-- read_u32 s ;;
      '(shard_id, s) <-- read_u32 s ;;
      '(revision, s) <-- read_u64 s ;;
      '(protocol_version, s) <-- read_u32 s ;;
      wok (RpcMessage.RouterHello worker_id shard_id revision protocol_version, s)
  | 2 =>
      '(revision, s) <-- read_u64 s ;;
      '(files, s) <-- read_vec MAX_FILES_PER_MESSAGE 8 read_file_text s ;;
      wok (RpcMessage.LoadFiles revision files, s)
  | 3 =>
      '(revision, s) <-- read_u64 s ;;
      '(files, s) <-- read_vec MAX_FILES_PER_MESSAGE 8 read_file_text s ;;
      wok (RpcMessage.IndexShard revision files, s)
  | 4 =>
      '(revision, s) <-- read_u64 s ;;
      '(file, s) <-- read_file_text s ;;
      wok (RpcMessage.UpdateFile revision file, s)
  | 5 => wok (RpcMessage.GetWorkerStats, s)
  | 6 => '(stats, s) <-- read_worker_stats s ;; wok (RpcMessage.WorkerStats stats, s)
  | 7 => '(info, s) <-- read_shard_index_info s ;; wok (RpcMessage.ShardIndexInfo info, s)
  | 8 =>
      '(query, s) <-- read_string MAX_SMALL_STRING_BYTES s ;;
      '(limit, s) <-- read_u32 s ;;
      _ <-- ensure (limit <=? MAX_SEARCH_RESULTS_PER_MESSAGE)
              (WireError.TooLarge limit MAX_SEARCH_RESULTS_PER_MESSAGE) ;;
      wok (RpcMessage.SearchSymbols query limit, s)
  | 9 =>
      '(items, s) <-- read_vec MAX_SEARCH_RESULTS_PER_MESSAGE 16 read_scored_symbol s ;;
      wok (RpcMessage.SearchSymbolsResult items, s)
  | 10 => wok (RpcMessage.Ack, s)
  | 11 => wok (RpcMessage.Shutdown, s)
  | 12 => '(message, s) <-- read_string MAX_SMALL_STRING_BYTES s ;; wok (RpcMessage.Error message, s)
  | other => werr (WireError.InvalidTag other)
  end.

Definition decode_message (bytes : list N) : wres RpcMessage :=
  _ <-- ensure (bytes_left bytes <=? MAX_MESSAGE_BYTES)
          (WireError.TooLarge (bytes_left bytes) MAX_MESSAGE_BYTES) ;;
  '(msg, s) <-- read_rpc_message bytes ;;
  _ <-- ensure (bytes_left s =? 0) (WireError.TrailingBytes (bytes_left s)) ;;
  wok msg.

(** ** Codecs *)

Create HintDb codec.

Definition is_u32 (n : N) : Prop := n < 2 ^ 32.
Definition is_u64 (n : N) : Prop := n < 2 ^ 64.
Definition is_i32 (z : Z) : Prop := (- 2 ^ 31 <= z < 2 ^ 31)%Z.

Lemma u8_codec : exact_codec is_byte (fun n => wok (write_u8 n)) read_u8.
Proof.
  split.
  - intros [|b s] Hb; [done|]. apply Forall_cons in Hb as [Hb _]. split; [done|]. by exists [b].
  - by intros n bs s _ [= <-].
Qed.

Lemma bool_codec : exact_codec (fun _ => True) (fun b => wok (write_bool b)) read_bool.
Proof.
  split.
  - intros [|b s] Hb; [done|]. unfold read_bool. simpl. destruct b as [|[]]; try done; simpl;
      (split; [done|]); eexists; (split; [done|]); done.
  - by intros [] bs s _ [= <-].
Qed.

Lemma u32_codec : exact_codec is_u32 (fun n => wok (write_u32 n)) read_u32.
Proof. exact (le_codec 4). Qed.

Lemma u64_codec : exact_codec is_u64 (fun n => wok (write_u64 n)) read_u64.
Proof. exact (le_codec 8). Qed.

Lemma to_signed_mod n : n < 2 ^ 32 -> Z.to_N (to_signed 32 n mod 2 ^ 32) = n.
Proof.
  intros Hn. unfold to_signed. change (2 ^ (32 - 1)) with 2147483648. change (2 ^ Z.of_N 32)%Z with 4294967296%Z.
  change (2 ^ 32) with 4294967296 in Hn. change (2 ^ 32)%Z with 4294967296%Z. destruct (N.ltb_spec n 2147483648).
  - rewrite Z.mod_small by lia. lia.
  - rewrite <-(Z.mod_unique (Z.of_N n - 4294967296) 4294967296 (-1) (Z.of_N n)); lia.
Qed.

Lemma signed_to_signed z : is_i32 z -> to_signed 32 (Z.to_N (z mod 2 ^ 32)) = z.
Proof.
  unfold is_i32, to_signed. intros Hz. change (2 ^ 31)%Z with 2147483648%Z in Hz. change (2 ^ 32)%Z with 4294967296%Z.
  change (2 ^ (32 - 1)) with 2147483648. change (2 ^ Z.of_N 32)%Z with 4294967296%Z.
  pose proof (Z.mod_pos_bound z 4294967296 ltac:(lia)) as Hm.
  assert (Hd : (z mod 4294967296 = z \/ z mod 4294967296 = z + 4294967296)%Z) by (Z.to_euclidean_division_equations; lia).
  destruct (N.ltb_spec (Z.to_N (z mod 4294967296)) 2147483648); rewrite Z2N.id by lia; lia.
Qed.

Lemma i32_codec : exact_codec is_i32 (fun z => wok (write_i32 z)) read_i32.
Proof.
  split.
  - intros s Hb. unfold read_i32. eapply codec_seq; [apply (le_codec 4)|done|]. intros n bs s' Hn He -> _. cbv beta in He.
    change (256 ^ 4) with (2 ^ 32) in Hn. split; [by apply (to_signed_bound 32)|]. exists bs. split; [|done].
    rewrite <-He. unfold write_i32. by rewrite to_signed_mod.
  - intros z bs s Hz [= <-]. unfold read_i32.
    rewrite (codec_complete _ _ _ (le_codec 4) (Z.to_N (z mod 2 ^ 32))); [|pose proof (Z.mod_pos_bound z (2 ^ 32)); lia|done].
    rewrite wbind_wok. by rewrite signed_to_signed.
Qed.

Lemma write_len_ok n : is_u32 n -> write_len n = wok (write_u32 n).
Proof. intros Hn. unfold write_len. by rewrite wbind_ensure by (by apply N.ltb_lt). Qed.

Lemma string_codec max : max < 2 ^ 32 -> exact_codec scalars (fun s => write_string s max) (read_string max).
Proof.
  intros Hmax. split.
  - intros s Hb. unfold read_string, read_len. eapply codec_seq; [apply u32_codec|done|].
    intros len bs s' Hlen <-%wok_inj -> _. apply wpw_ensure. intros Hle. apply wpw_ensure. intros _.
    eapply wpw_seq; [apply read_exact_sound|]. intros [p s''] [-> Hp]. destruct (from_utf8 p) as [out|] eqn:Hu; [|done].
    apply from_utf8_exact in Hu as [-> Hs]. simpl. split; [done|]. unfold write_string. rewrite Hp.
    rewrite wbind_ensure by done. rewrite (write_len_ok len Hlen), wbind_wok. eexists. split; [done|]. by rewrite <-app_assoc.
  - intros s bs rest Hs He. unfold write_string in He. apply wbind_ok_inv in He as ([] & He & Hw).
    unfold ensure in He. destruct (_ <=? max) eqn:Hle; [|done]. pose proof (proj1 (N.leb_le _ _) Hle) as Hle'.
    assert (Hlen : is_u32 (bytes_left (as_bytes s))) by (unfold is_u32; lia).
    rewrite (write_len_ok _ Hlen), wbind_wok in Hw. apply wok_inj in Hw as <-. rewrite <-app_assoc. unfold read_string, read_len.
    rewrite (codec_complete _ _ _ u32_codec _ _ _ Hlen eq_refl), wbind_wok.
    rewrite wbind_ensure by done. rewrite wbind_ensure by (apply N.leb_le; rewrite length_app; lia).
    rewrite read_exact_app by done. rewrite wbind_wok. by rewrite from_utf8_complete.
Qed.

Lemma small_string_codec :
  exact_codec scalars (fun s => write_string s MAX_SMALL_STRING_BYTES) (read_string MAX_SMALL_STRING_BYTES).
Proof. by apply string_codec. Qed.

Lemma file_string_codec :
  exact_codec scalars (fun s => write_string s MAX_FILE_TEXT_BYTES) (read_string MAX_FILE_TEXT_BYTES).
Proof. by apply string_codec. Qed.

#[export] Hint Resolve u8_codec bool_codec u32_codec u64_codec i32_codec small_string_codec file_string_codec : codec.

(** Walks through a decoder; the bytes read so far stay as equations. *)
Ltac codec_read := repeat (eapply codec_seq; [eauto with codec|assumption|]; intros ? ? ? ? ? -> ?).
(** The encoding of the value that was read. *)
Ltac codec_done :=
  cbv beta in *;
  repeat match goal with H : wok _ = wok _ |- _ => apply wok_inj in H; subst end;
  repeat match goal with H : ?x = wok _ |- context [wbind ?x _] => rewrite H, wbind_wok end;
  try (rewrite wbind_ensure by assumption);
  eexists; split; [reflexivity|by rewrite <- ?app_assoc].
(** Inverts an encoder. *)
Ltac codec_inv :=
  repeat match goal with
  | H : wbind (ensure ?b _) _ = wok _ |- _ =>
      apply wbind_ok_inv in H as ([] & ? & H)
  | H : wbind _ _ = wok _ |- _ => apply wbind_ok_inv in H as (? & ? & H)
  | H : wok _ = wok _ |- _ => apply wok_inj in H; subst
  end.

Definition opt_valid {T} (valid : T -> Prop) (o : option T) : Prop := from_option valid True o.

Lemma option_codec {T} valid (enc : T -> wres (list N)) dec :
  exact_codec valid enc dec -> exact_codec (opt_valid valid) (fun o => write_option o enc) (read_option dec).
Proof.
  intros Hc. split.
  - intros s Hb. unfold read_option. eapply codec_seq; [apply u8_codec|done|]. intros tag bs s' _ <-%wok_inj -> Hb'.
    destruct tag as [|[]]; try done; simpl.
    + split; [done|]. by exists [0].
    + eapply codec_seq; [exact Hc|done|]. intros v bs s Hv He -> _. simpl. split; [done|]. rewrite He. by exists (1 :: bs).
  - intros [v|] bs s Hv He; unfold read_option, write_option in *; codec_inv; [|done]. simpl.
    by rewrite (codec_complete _ _ _ Hc v).
Qed.

(** Encodings of at least [k] bytes. *)
Definition at_least {T} (k : N) (enc : T -> wres (list N)) : Prop := forall v bs, enc v = wok bs -> k <= bytes_left bs.

Lemma write_all_length {T} k (values : list T) enc bs :
  at_least k enc -> write_all values enc = wok bs -> N.of_nat (length values) * k <= bytes_left bs.
Proof.
  intros Hk. revert bs. induction values as [|v values IH]; intros bs He; simpl in He; codec_inv; [done|].
  pose proof (Hk v x H). pose proof (IH x0 ltac:(done)). rewrite length_app. simpl length. lia.
Qed.

Lemma times_sound {T} valid (enc : T -> wres (list N)) dec n s :
  exact_codec valid enc dec -> Forall is_byte s ->
  wpw (read_times n dec s) (fun '(l, s') => length l = n /\ Forall valid l /\
    exists bs, write_all l enc = wok bs /\ s = bs ++ s' ).
Proof.
  intros Hc. revert s. induction n as [|n IH]; intros s Hb; simpl; [split_and!; [done|constructor|by exists []]|].
  eapply codec_seq; [exact Hc|done|]. intros v bs s' Hv He -> Hb'. eapply wpw_seq; [by apply IH|].
  intros [vs s''] (Hl & Hvs & bs' & He' & ->). simpl. split_and!; [by f_equal|by constructor|].
  rewrite He, wbind_wok, He', wbind_wok. eexists. split; [done|by rewrite app_assoc].
Qed.

Lemma times_complete {T} valid (enc : T -> wres (list N)) dec l bs s :
  exact_codec valid enc dec -> Forall valid l -> write_all l enc = wok bs ->
  read_times (length l) dec (bs ++ s) = wok (l, s).
Proof.
  intros Hc Hv. revert bs. induction Hv as [|v l Hv _ IH]; intros bs He; simpl in *; codec_inv; [done|].
  rewrite <-app_assoc, (codec_complete _ _ _ Hc v), wbind_wok by done. by rewrite IH.
Qed.

Lemma vec_codec {T} valid (enc : T -> wres (list N)) dec max k :
  exact_codec valid enc dec -> max < 2 ^ 32 -> k <> 0 -> at_least k enc ->
  exact_codec (Forall valid) (fun l => write_vec l max enc) (read_vec max k dec).
Proof.
  intros Hc Hmax Hk Hlen. split.
  - intros s Hb. unfold read_vec, read_len. eapply codec_seq; [apply u32_codec|done|].
    intros len bs s' Hl <-%wok_inj -> Hb'. apply wpw_ensure. intros Hle. apply wpw_ensure. intros _.
    eapply wpw_mono; [by apply (times_sound valid enc)|]. intros [l s''] (Hll & Hv & bs' & He & ->). split; [done|].
    unfold write_vec. rewrite Hll, N2Nat.id. rewrite wbind_ensure by done.
    rewrite (write_len_ok len Hl), wbind_wok, He, wbind_wok. eexists. split; [done|by rewrite <-app_assoc].
  - intros l bs s Hv He. unfold write_vec in He. apply wbind_ok_inv in He as ([] & He & Hw).
    unfold ensure in He. destruct (_ <=? max) eqn:Hle; [|done]. pose proof (proj1 (N.leb_le _ _) Hle) as Hle'.
    assert (Hl : is_u32 (N.of_nat (length l))) by (unfold is_u32; lia).
    rewrite (write_len_ok _ Hl), wbind_wok in Hw. apply wbind_ok_inv in Hw as (vs & Hvs & Hw). apply wok_inj in Hw as <-.
    rewrite <-app_assoc. unfold read_vec, read_len. rewrite (codec_complete _ _ _ u32_codec _ _ _ Hl eq_refl), wbind_wok.
    rewrite wbind_ensure by done. rewrite (proj2 (N.eqb_neq _ _) Hk).
    pose proof (write_all_length k l enc vs Hlen Hvs). rewrite wbind_ensure.
    + rewrite Nat2N.id. by apply (times_complete valid enc).
    + apply N.leb_le. apply N.div_le_lower_bound; [done|]. rewrite length_app. lia.
Qed.

(** ** Records *)

Definition valid_file (f : FileText) : Prop := scalars (ft_path f) /\ scalars (ft_text f).
Definition valid_rank_key (k : SymbolRankKey) : Prop := is_i32 (kind_rank k) /\ is_i32 (rk_score k).
Definition valid_symbol (s : ScoredSymbol) : Prop :=
  scalars (ss_name s) /\ scalars (ss_path s) /\ valid_rank_key (ss_rank_key s).
Definition valid_stats (s : WorkerStats) : Prop :=
  is_u32 (ws_shard_id s) /\ is_u64 (ws_revision s) /\ is_u64 (ws_index_generation s) /\ is_u32 (ws_file_count s).
Definition valid_info (s : ShardIndexInfo) : Prop :=
  is_u32 (si_shard_id s) /\ is_u64 (si_revision s) /\ is_u64 (si_index_generation s) /\ is_u32 (si_symbol_count s).

(** Runs a decoder over the encodings of its fields. *)
Ltac codec_run :=
  repeat match goal with
  | |- context [wbind (wok _) _] => rewrite wbind_wok
  | |- context [read_u8 (write_u8 ?n ++ ?s)] => change (read_u8 (write_u8 n ++ s)) with (@wok WireError.t _ (n, s))
  | |- context [read_u32 (write_u32 ?n ++ ?s)] => rewrite (codec_complete _ _ _ u32_codec n (write_u32 n) s) by done
  | |- context [read_u64 (write_u64 ?n ++ ?s)] => rewrite (codec_complete _ _ _ u64_codec n (write_u64 n) s) by done
  | |- context [read_i32 (write_i32 ?n ++ ?s)] => rewrite (codec_complete _ _ _ i32_codec n (write_i32 n) s) by done
  | |- context [read_bool (write_bool ?n ++ ?s)] => rewrite (codec_complete _ _ _ bool_codec n (write_bool n) s) by done
  | H : write_string ?t ?m = wok ?bs |- context [read_string ?m (?bs ++ ?s)] =>
      rewrite (codec_complete _ _ _ (string_codec m ltac:(done)) t bs s) by done
  end.

Lemma file_codec : exact_codec valid_file write_file_text read_file_text.
Proof.
  split.
  - intros s Hb. unfold read_file_text. codec_read. simpl. split; [hnf; by split_and?|]. unfold write_file_text. cbn [ft_path ft_text].
    codec_done.
  - intros [p t] bs s [Hp Ht] He. unfold write_file_text in He. cbn [ft_path ft_text] in *. codec_inv.
    unfold read_file_text. rewrite <-app_assoc. codec_run. done.
Qed.

Lemma rank_key_codec : exact_codec valid_rank_key (fun k => wok (write_symbol_rank_key k)) read_symbol_rank_key.
Proof.
  split.
  - intros s Hb. unfold read_symbol_rank_key. codec_read. simpl. split; [hnf; by split_and?|]. unfold write_symbol_rank_key. codec_done.
  - intros [k c] bs s [Hk Hc] He. unfold write_symbol_rank_key in He. cbn [kind_rank rk_score] in *. codec_inv.
    unfold read_symbol_rank_key. rewrite <-app_assoc. codec_run. done.
Qed.
#[export] Hint Resolve file_codec rank_key_codec : codec.

Lemma symbol_codec : exact_codec valid_symbol write_scored_symbol read_scored_symbol.
Proof.
  split.
  - intros s Hb. unfold read_scored_symbol. codec_read. simpl. split; [hnf; by split_and?|]. unfold write_scored_symbol. cbn [ss_name ss_path ss_rank_key].
    codec_done.
  - intros [n p k] bs s (Hn & Hp & Hk) He. unfold write_scored_symbol in He. cbn [ss_name ss_path ss_rank_key] in *. codec_inv.
    unfold read_scored_symbol. rewrite <- !app_assoc. codec_run. by rewrite (codec_complete _ _ _ rank_key_codec k (write_symbol_rank_key k) s).
Qed.

Lemma stats_codec : exact_codec valid_stats (fun s => wok (write_worker_stats s)) read_worker_stats.
Proof.
  split.
  - intros s Hb. unfold read_worker_stats. codec_read. simpl. split; [hnf; by split_and?|]. unfold write_worker_stats. codec_done.
  - intros [a b c d] bs s (Ha & Hb & Hc & Hd) He. unfold write_worker_stats in He. simpl in Ha, Hb, Hc, Hd. codec_inv.
    unfold read_worker_stats. cbn [ws_shard_id ws_revision ws_index_generation ws_file_count]. rewrite <- !app_assoc. codec_run. done.
Qed.

Lemma info_codec : exact_codec valid_info (fun s => wok (write_shard_index_info s)) read_shard_index_info.
Proof.
  split.
  - intros s Hb. unfold read_shard_index_info. codec_read. simpl. split; [hnf; by split_and?|]. unfold write_shard_index_info. codec_done.
  - intros [a b c d] bs s (Ha & Hb & Hc & Hd) He. unfold write_shard_index_info in He. simpl in Ha, Hb, Hc, Hd. codec_inv.
    unfold read_shard_index_info. cbn [si_shard_id si_revision si_index_generation si_symbol_count]. rewrite <- !app_assoc. codec_run. done.
Qed.

Lemma write_string_length s max bs : write_string s max = wok bs -> 4 <= bytes_left bs.
Proof.
  unfold write_string, write_len. intros He. codec_inv. rewrite length_app. unfold write_u32. rewrite length_to_le_bytes. lia.
Qed.

Lemma file_at_least : at_least 8 write_file_text.
Proof.
  intros f bs He. unfold write_file_text in He. codec_inv. rewrite length_app.
  pose proof (write_string_length _ _ _ H). pose proof (write_string_length _ _ _ H0). lia.
Qed.

Lemma symbol_at_least : at_least 16 write_scored_symbol.
Proof.
  intros f bs He. unfold write_scored_symbol in He. codec_inv. rewrite !length_app.
  pose proof (write_string_length _ _ _ H). pose proof (write_string_length _ _ _ H0).
  unfold write_symbol_rank_key, write_i32. rewrite length_app, !length_to_le_bytes. lia.
Qed.

Lemma files_codec :
  exact_codec (Forall valid_file) (fun l => write_vec l MAX_FILES_PER_MESSAGE write_file_text)
    (read_vec MAX_FILES_PER_MESSAGE 8 read_file_text).
Proof. apply vec_codec; [apply file_codec|done|done|apply file_at_least]. Qed.

Lemma symbols_codec :
  exact_codec (Forall valid_symbol) (fun l => write_vec l MAX_SEARCH_RESULTS_PER_MESSAGE write_scored_symbol)
    (read_vec MAX_SEARCH_RESULTS_PER_MESSAGE 16 read_scored_symbol).
Proof. apply vec_codec; [apply symbol_codec|done|done|apply symbol_at_least]. Qed.

Lemma token_codec :
  exact_codec (opt_valid scalars) (fun o => write_option o (fun t => write_string t MAX_SMALL_STRING_BYTES))
    (read_option (read_string MAX_SMALL_STRING_BYTES)).
Proof. apply option_codec, small_string_codec. Qed.

#[export] Hint Resolve symbol_codec stats_codec info_codec files_codec symbols_codec token_codec : codec.

Ltac codec_run_message :=
  repeat (codec_run; match goal with
  | H : write_file_text ?t = wok ?bs |- context [read_file_text (?bs ++ ?s)] =>
      rewrite (codec_complete _ _ _ file_codec t bs s) by done
  | H : write_vec ?t ?m write_file_text = wok ?bs |- context [read_vec _ _ _ (?bs ++ ?s)] =>
      rewrite (codec_complete _ _ _ files_codec t bs s) by done
  | H : write_vec ?t ?m write_scored_symbol = wok ?bs |- context [read_vec _ _ _ (?bs ++ ?s)] =>
      rewrite (codec_complete _ _ _ symbols_codec t bs s) by done
  | H : write_option ?t _ = wok ?bs |- context [read_option _ (?bs ++ ?s)] =>
      rewrite (codec_complete _ _ _ token_codec t bs s) by done
  | |- context [read_worker_stats (write_worker_stats ?t ++ ?s)] =>
      rewrite (codec_complete _ _ _ stats_codec t (write_worker_stats t) s) by done
  | |- context [read_shard_index_info (write_shard_index_info ?t ++ ?s)] =>
      rewrite (codec_complete _ _ _ info_codec t (write_shard_index_info t) s) by done
  end); codec_run.

(** ** Messages *)

(** The values that the types of the source admit. *)
Definition valid_message (msg : RpcMessage) : Prop :=
  match msg with
  | RpcMessage.WorkerHello shard_id auth_token _ => is_u32 shard_id /\ opt_valid scalars auth_token
  | RpcMessage.RouterHello worker_id shard_id revision protocol_version =>
      is_u32 worker_id /\ is_u32 shard_id /\ is_u64 revision /\ is_u32 protocol_version
  | RpcMessage.LoadFiles revision files | RpcMessage.IndexShard revision files =>
      is_u64 revision /\ Forall valid_file files
  | RpcMessage.UpdateFile revision file => is_u64 revision /\ valid_file file
  | RpcMessage.WorkerStats stats => valid_stats stats
  | RpcMessage.ShardIndexInfo info => valid_info info
  | RpcMessage.SearchSymbols query limit => scalars query /\ is_u32 limit
  | RpcMessage.SearchSymbolsResult items => Forall valid_symbol items
  | RpcMessage.Error message => scalars message
  | RpcMessage.GetWorkerStats | RpcMessage.Ack | RpcMessage.Shutdown => True
  end.

Lemma message_codec : exact_codec valid_message write_rpc_message read_rpc_message.
Proof.
  split.
  - intros s Hb. unfold read_rpc_message. eapply codec_seq; [apply u8_codec|done|].
    intros tag bs s' _ <-%wok_inj -> Hb'.
    destruct tag as [|tag]; [|do 4 (try destruct tag as [tag|tag|])]; try exact I; codec_read;
      try (apply wpw_ensure; intros Hlim); apply wpw_wok; cbv beta iota; 
      (split; [first [assumption|hnf; by split_and?]|]); unfold write_rpc_message; codec_done.
  - intros msg bs s Hv He. destruct msg; unfold write_rpc_message in He; simpl in Hv; destruct_and?; codec_inv;
      unfold read_rpc_message; rewrite <- ?app_assoc; codec_run_message; try done.
    by match goal with H : ensure _ _ = wok () |- _ => rewrite H end.
Qed.

(** C34: The legacy encoding is one to one.  [decode_message] always returns, and it accepts exactly
    the bytes that [encode_message] produces: a message comes out of a buffer if and only if it is
    a value of the message type and its encoding is that buffer; so every message survives the
    trip, no two messages share an encoding, and no message has two. *)
Theorem legacy_codec_exact bytes :
  Forall is_byte bytes ->
  exists r, decode_message bytes = Done r /\
    forall msg, r = inr msg <-> valid_message msg /\ encode_message msg = wok bytes.
Proof.
  intros Hb. assert (Hw : wpw (decode_message bytes) (fun msg => valid_message msg /\ encode_message msg = wok bytes)).
  { unfold decode_message. apply wpw_ensure. intros Hlen. eapply codec_seq; [apply message_codec|done|].
    intros msg bs s Hv He -> _. apply wpw_ensure. intros H0%N.eqb_eq. apply wpw_wok. split; [done|].
    destruct s; [|done]. rewrite app_nil_r in *. unfold encode_message. rewrite He, wbind_wok. by rewrite wbind_ensure. }
  destruct (wpw_Done _ _ Hw) as [r Hr]. exists r. split; [done|]. intros msg. split.
  - intros ->. exact (wpw_ok _ _ msg Hw Hr).
  - intros [Hv He]. unfold encode_message in He. apply wbind_ok_inv in He as (buf & Hbuf & He).
    apply wbind_ok_inv in He as ([] & Hlen & He). apply wok_inj in He as ->. unfold ensure in Hlen.
    destruct (_ <=? _) eqn:Hle; [|done]. unfold decode_message in Hr. rewrite wbind_ensure in Hr by done.
    rewrite <-(app_nil_r bytes), (codec_complete _ _ _ message_codec msg bytes []), wbind_wok in Hr by done.
    by injection Hr as <-.
Qed.

Definition sample_message : RpcMessage := RpcMessage.WorkerHello 258 (Some [0x68; 0xE9]) true.

Definition sample_bytes : list N := [0; 2; 1; 0; 0; 1; 3; 0; 0; 0; 0x68; 0xC3; 0xA9; 1].

Lemma legacy_codec_exact_witness : decode_message sample_bytes = wok sample_message.
Proof.
  destruct (legacy_codec_exact sample_bytes) as (r & Hr & Hx); [by repeat constructor|].
  rewrite Hr. unfold wok. f_equal. apply Hx. split; [|vm_compute; reflexivity].
  split; [reflexivity|]. by repeat constructor.
Defined.
