(* ===== verification/CborCheck.v ===== *)
(** * The check of CBOR payloads (crates/nova-remote-proto/src/validate_cbor.rs)

    Before a payload is given to the CBOR library, the code walks through it and rejects lengths
    that the buffer cannot hold or that exceed limits, so that decoding allocates no more than the
    message accounts for.  The nesting of the recursion is bounded by the code; the loops over
    items of indefinite length take a step for every byte that is left, at most. *)

From Stdlib Require Import String.
From stdpp Require Import base numbers option list.
From S2P Require Import Prelude Str Utf8 ClassReader Wire.

Local Open Scope N_scope.

Definition MAX_CBOR_NESTING : N := 64.
Definition MAX_CBOR_MAP_LEN : N := 1024.
Definition MAX_CBOR_KEY_BYTES : N := 64.
Definition MIN_BYTES_PER_COMPLEX_ARRAY_ITEM : N := 8.

Record Limits := mkLimits {
  max_text_len : N;
  max_bytes_len : N;
  max_array_len : N;
  min_array_item_bytes : N
}.

(** [Limits::DEFAULT]. *)
Definition DEFAULT : Limits := mkLimits MAX_FILE_TEXT_BYTES MAX_MESSAGE_BYTES MAX_SYMBOLS_PER_SHARD_INDEX 1.

(** ** Reader *)

Definition peek_u8 (s : list N) : wres N :=
  match s with b :: _ => wok b | [] => werr (WireError.UnexpectedEof 1 0) end.

Definition read_be (k : N) (s : list N) : wres (N * list N) :=
  '(bytes, s) <-- read_exact k s ;; wok (from_be_bytes bytes, s).

Definition read_uint (ai : N) (s : list N) : wres (N * list N) :=
  if ai <=? 23 then wok (ai, s)
  else
    match ai with
    | 24 => read_byte s
    | 25 => read_be 2 s
    | 26 => read_be 4 s
    | 27 => read_be 8 s
    | 31 => werr WireError.IndefiniteLength
    | other => werr (WireError.InvalidAdditionalInfo other)
    end.

(** [read_len]: an [u64] fits in an [usize]. *)
Definition read_len (ai : N) (s : list N) : wres (N * list N) := read_uint ai s.

Definition skip (len : N) (s : list N) : wres (list N) := '(_, s) <-- read_exact len s ;; wok s.

(** The major type and the additional information of a head. *)
Definition major_of (head : N) : N := N.shiftr head 5.
Definition info_of (head : N) : N := N.land head 0x1f.

(** ** Limits by key *)

Definition limits_for_map_value (key : str) (base : Limits) : Limits :=
  let '(mkLimits text bytes array item) := base in
  if decide (key = lit "files") then
    mkLimits text bytes MAX_FILES_PER_MESSAGE MIN_BYTES_PER_COMPLEX_ARRAY_ITEM
  else if decide (key = lit "items") then
    mkLimits text bytes MAX_SEARCH_RESULTS_PER_MESSAGE MIN_BYTES_PER_COMPLEX_ARRAY_ITEM
  else if decide (key = lit "diagnostics") then
    mkLimits text bytes MAX_DIAGNOSTICS_PER_MESSAGE MIN_BYTES_PER_COMPLEX_ARRAY_ITEM
  else if decide (key = lit "symbols") then
    mkLimits text bytes MAX_SYMBOLS_PER_SHARD_INDEX MIN_BYTES_PER_COMPLEX_ARRAY_ITEM
  else if decide (key = lit "data") then mkLimits text MAX_MESSAGE_BYTES MAX_MESSAGE_BYTES 1
  else if decide (key = lit "supported_compression") then mkLimits MAX_SMALL_STRING_BYTES bytes 32 item
  else if decide (key ∈ [lit "path"; lit "name"; lit "auth_token"; lit "message"; lit "details";
                         lit "worker_build"; lit "query"]) then
    mkLimits MAX_SMALL_STRING_BYTES bytes array item
  else if decide (key ∈ [lit "type"; lit "compression"]) then mkLimits 64 bytes array item
  else base.

Definition read_map_key (s : list N) : wres (str * list N) :=
  '(head, s) <-- read_byte s ;;
  let ai := info_of head in
  _ <-- ensure (major_of head =? 3) WireError.KeyNotText ;;
  _ <-- ensure (negb (ai =? 31)) WireError.IndefiniteLength ;;
  '(len, s) <-- read_len ai s ;;
  _ <-- ensure (len <=? MAX_CBOR_KEY_BYTES) (WireError.TooLarge len MAX_CBOR_KEY_BYTES) ;;
  _ <-- ensure (len <=? bytes_left s) (WireError.ExceedsRemaining len (bytes_left s)) ;;
  '(bytes, s) <-- read_exact len s ;;
  match from_utf8 bytes with
  | Some key => wok (key, s)
  | None => werr WireError.InvalidUtf8
  end.

(** ** Items *)

(** A string of definite length. *)
Definition validate_string (max_len ai : N) (s : list N) : wres (list N) :=
  '(len, s) <-- read_len ai s ;;
  _ <-- ensure (len <=? max_len) (WireError.TooLarge len max_len) ;;
  _ <-- ensure (len <=? bytes_left s) (WireError.ExceedsRemaining len (bytes_left s)) ;;
  skip len s.

(** [for _ in 0..n { validate(r)? }]. *)
Fixpoint validate_times (n : nat) (validate : list N -> wres (list N)) (s : list N) : wres (list N) :=
  match n with
  | O => wok s
  | S n => s <-- validate s ;; validate_times n validate s
  end.

(** The loop of [validate_indefinite_array] and [validate_indefinite_map]. *)
Fixpoint indefinite_loop (fuel : nat) (count max : N) (validate : list N -> wres (list N)) (s : list N)
    : wres (list N) :=
  match fuel with
  | O => OutOfFuel
  | S fuel =>
      next <-- peek_u8 s ;;
      if next =? 0xff then '(_, s) <-- read_byte s ;; wok s
      else
        _ <-- ensure (count <? max) (WireError.TooLarge count max) ;;
        s <-- validate s ;;
        indefinite_loop fuel (count + 1) max validate s
  end.

Definition validate_indefinite (max : N) (validate : list N -> wres (list N)) (s : list N) : wres (list N) :=
  indefinite_loop (S (length s)) 0 max validate s.

(** [validate_indefinite_bytes]. *)
Fixpoint chunks_loop (fuel : nat) (total depth : N) (is_text : bool) (max_total : N) (s : list N) : wres (list N) :=
  match fuel with
  | O => OutOfFuel
  | S fuel =>
      next <-- peek_u8 s ;;
      if next =? 0xff then '(_, s) <-- read_byte s ;; wok s
      else
        _ <-- ensure (depth <=? MAX_CBOR_NESTING) WireError.NestingTooDeep ;;
        '(head, s) <-- read_byte s ;;
        let major := major_of head in
        let ai := info_of head in
        let expected_major := if is_text then 3 else 2 in
        _ <-- ensure (major =? expected_major) (WireError.WrongChunkType major) ;;
        _ <-- ensure (negb (ai =? 31)) WireError.IndefiniteLength ;;
        '(len, s) <-- read_len ai s ;;
        _ <-- ensure (len <=? max_total) (WireError.TooLarge len max_total) ;;
        _ <-- ensure (len <=? bytes_left s) (WireError.ExceedsRemaining len (bytes_left s)) ;;
        let total := N.min (total + len) (2 ^ 64 - 1) in
        _ <-- ensure (total <=? max_total) (WireError.TooLarge total max_total) ;;
        s <-- skip len s ;;
        chunks_loop fuel total depth is_text max_total s
  end.

Definition validate_indefinite_bytes (depth : N) (is_text : bool) (max_total : N) (s : list N) : wres (list N) :=
  chunks_loop (S (length s)) 0 depth is_text max_total s.

(** The pairs of a map: a key, and a value under the limits of the key. *)
Definition validate_pair (validate : Limits -> list N -> wres (list N)) (limits : Limits) (s : list N)
    : wres (list N) :=
  '(key, s) <-- read_map_key s ;;
  validate (limits_for_map_value key limits) s.

(** Simple values and floats. *)
Definition validate_simple (ai : N) (s : list N) : wres (list N) :=
  if ai <=? 23 then wok s
  else
    match ai with
    | 24 => skip 1 s
    | 25 => skip 2 s
    | 26 => skip 4 s
    | 27 => skip 8 s
    | 31 => werr WireError.UnexpectedBreak
    | other => werr (WireError.InvalidAdditionalInfo other)
    end.

(** [validate_item]; [fuel] is the number of levels that are left. *)
Fixpoint validate_item (fuel : nat) (depth : N) (limits : Limits) (s : list N) : wres (list N) :=
  match fuel with
  | O => OutOfFuel
  | S fuel =>
      _ <-- ensure (depth <=? MAX_CBOR_NESTING) WireError.NestingTooDeep ;;
      '(head, s) <-- read_byte s ;;
      let major := major_of head in
      let ai := info_of head in
      let item := validate_item fuel (depth + 1) in
      match major with
      | 0 | 1 => '(_, s) <-- read_uint ai s ;; wok s
      | 2 =>
          if ai =? 31 then validate_indefinite_bytes (depth + 1) false (max_bytes_len limits) s
          else validate_string (max_bytes_len limits) ai s
      | 3 =>
          if ai =? 31 then validate_indefinite_bytes (depth + 1) true (max_text_len limits) s
          else validate_string (max_text_len limits) ai s
      | 4 =>
          if ai =? 31 then validate_indefinite (max_array_len limits) (item limits) s
          else
            '(len, s) <-- read_len ai s ;;
            _ <-- ensure (len <=? max_array_len limits) (WireError.TooLarge len (max_array_len limits)) ;;
            let min_item_bytes := N.max (min_array_item_bytes limits) 1 in
            _ <-- ensure (len <=? bytes_left s / min_item_bytes) (WireError.ExceedsRemaining len (bytes_left s)) ;;
            validate_times (N.to_nat len) (item limits) s
      | 5 =>
          if ai =? 31 then validate_indefinite MAX_CBOR_MAP_LEN (validate_pair item limits) s
          else
            '(len, s) <-- read_len ai s ;;
            _ <-- ensure (len <=? MAX_CBOR_MAP_LEN) (WireError.TooLarge len MAX_CBOR_MAP_LEN) ;;
            _ <-- ensure (N.min (len * 2) (2 ^ 64 - 1) <=? bytes_left s) (WireError.ExceedsRemaining len (bytes_left s)) ;;
            validate_times (N.to_nat len) (validate_pair item limits) s
      | 6 => '(_, s) <-- read_uint ai s ;; item limits s
      | 7 => validate_simple ai s
      | other => werr (WireError.InvalidTag other)
      end
  end.

(** A level for every depth up to the limit, and one that reports that it is exceeded. *)
Definition LEVELS : nat := N.to_nat MAX_CBOR_NESTING + 2.

Definition validate_cbor (bytes : list N) : wres () :=
  _ <-- ensure (bytes_left bytes <=? MAX_MESSAGE_BYTES) (WireError.TooLarge (bytes_left bytes) MAX_MESSAGE_BYTES) ;;
  s <-- validate_item LEVELS 0 DEFAULT bytes ;;
  _ <-- ensure (bytes_left s =? 0) (WireError.TrailingBytes (bytes_left s)) ;;
  wok ().

(** ** The grammar *)

(** [n] in the head and the bytes after it. *)
Definition width (ai : N) : option N :=
  match ai with 24 => Some 1 | 25 => Some 2 | 26 => Some 4 | 27 => Some 8 | _ => None end.

Definition uint (ai n : N) (bs : list N) : Prop :=
  ai <= 23 /\ n = ai /\ bs = [] \/ width ai = Some (bytes_left bs) /\ n = from_be_bytes bs.

(** The major type of a head is its high three bits, the additional information the low five. *)
Definition major (head : N) : N := head / 32.
Definition info (head : N) : N := head mod 32.

(** The limits under a key: texts are short under the keys of names and kinds, arrays of
    structures are bounded by their kind, and [data] is one long list of bytes. *)
Definition limits_under (key : str) (base : Limits) : Limits :=
  let key_is (k : string) := bool_decide (key = lit k) in
  let among ks := existsb key_is ks in
  mkLimits
    (if among ["type"; "compression"]%string then 64
     else if among ["path"; "name"; "auth_token"; "message"; "details"; "worker_build"; "query"; "supported_compression"]%string
     then MAX_SMALL_STRING_BYTES else max_text_len base)
    (if key_is "data"%string then MAX_MESSAGE_BYTES else max_bytes_len base)
    (if key_is "files"%string then MAX_FILES_PER_MESSAGE else if key_is "items"%string then MAX_SEARCH_RESULTS_PER_MESSAGE
     else if key_is "diagnostics"%string then MAX_DIAGNOSTICS_PER_MESSAGE else if key_is "symbols"%string then MAX_SYMBOLS_PER_SHARD_INDEX
     else if key_is "data"%string then MAX_MESSAGE_BYTES else if key_is "supported_compression"%string then 32 else max_array_len base)
    (if among ["files"; "items"; "diagnostics"; "symbols"]%string then MIN_BYTES_PER_COMPLEX_ARRAY_ITEM
     else if key_is "data"%string then 1 else min_array_item_bytes base).

(** A text key of a map. *)
Definition is_key (key : str) (bs : list N) : Prop :=
  exists head len lbs payload,
    bs = head :: lbs ++ payload /\ major head = 3 /\ info head <> 31 /\ uint (info head) len lbs /\
    len <= MAX_CBOR_KEY_BYTES /\ bytes_left payload = len /\ from_utf8 payload = Some key.

(** The chunks of a string of indefinite length, of [total] bytes. *)
Inductive chunks (m max : N) : N -> list N -> Prop :=
| chunks_nil : chunks m max 0 []
| chunks_cons head len lbs payload total bs :
    major head = m -> info head <> 31 -> uint (info head) len lbs -> bytes_left payload = len ->
    chunks m max total bs -> len + total <= max ->
    chunks m max (len + total) (head :: lbs ++ payload ++ bs).

(** [n] words one after the other; a word may look at how many bytes follow it. *)
Section Sequence.
Context (P : N -> list N -> Prop).
Inductive sequence : N -> nat -> list N -> Prop :=
| sequence_nil k : sequence k 0 []
| sequence_cons k n bs bs' : P (bytes_left bs' + k) bs -> sequence k n bs' -> sequence k (S n) (bs ++ bs').
End Sequence.

(** Data items at a depth, under limits, that [k] bytes follow.  [simple] are the simple values that may
    be written in a second byte. *)
Inductive data (simple : N -> Prop) (depth : N) (limits : Limits) (k : N) : list N -> Prop :=
| data_int head n bs :
    depth <= MAX_CBOR_NESTING -> major head = 0 \/ major head = 1 -> uint (info head) n bs ->
    data simple depth limits k (head :: bs)
| data_string head max len lbs payload :
    depth <= MAX_CBOR_NESTING ->
    major head = 2 /\ max = max_bytes_len limits \/ major head = 3 /\ max = max_text_len limits ->
    uint (info head) len lbs -> len <= max -> bytes_left payload = len ->
    data simple depth limits k (head :: lbs ++ payload)
| data_chunks head max total bs :
    depth <= MAX_CBOR_NESTING ->
    major head = 2 /\ max = max_bytes_len limits \/ major head = 3 /\ max = max_text_len limits ->
    info head = 31 -> chunks (major head) max total bs -> bs = [] \/ depth + 1 <= MAX_CBOR_NESTING ->
    data simple depth limits k (head :: bs ++ [0xff])
| data_array head len lbs bs :
    depth <= MAX_CBOR_NESTING -> major head = 4 -> uint (info head) len lbs -> len <= max_array_len limits ->
    len * N.max (min_array_item_bytes limits) 1 <= bytes_left bs + k ->
    sequence (data simple (depth + 1) limits) k (N.to_nat len) bs ->
    data simple depth limits k (head :: lbs ++ bs)
| data_array_indefinite head n bs :
    depth <= MAX_CBOR_NESTING -> major head = 4 -> info head = 31 -> N.of_nat n <= max_array_len limits ->
    sequence (data simple (depth + 1) limits) (k + 1) n bs ->
    data simple depth limits k (head :: bs ++ [0xff])
| data_map head len lbs bs :
    depth <= MAX_CBOR_NESTING -> major head = 5 -> uint (info head) len lbs -> len <= MAX_CBOR_MAP_LEN ->
    len * 2 <= bytes_left bs + k ->
    sequence (fun k bs => exists key kbs vbs, bs = kbs ++ vbs /\ is_key key kbs /\
                data simple (depth + 1) (limits_under key limits) k vbs) k (N.to_nat len) bs ->
    data simple depth limits k (head :: lbs ++ bs)
| data_map_indefinite head n bs :
    depth <= MAX_CBOR_NESTING -> major head = 5 -> info head = 31 -> N.of_nat n <= MAX_CBOR_MAP_LEN ->
    sequence (fun k bs => exists key kbs vbs, bs = kbs ++ vbs /\ is_key key kbs /\
                data simple (depth + 1) (limits_under key limits) k vbs) (k + 1) n bs ->
    data simple depth limits k (head :: bs ++ [0xff])
| data_tag head n lbs bs :
    depth <= MAX_CBOR_NESTING -> major head = 6 -> uint (info head) n lbs -> data simple (depth + 1) limits k bs ->
    data simple depth limits k (head :: lbs ++ bs)
| data_simple head bs :
    depth <= MAX_CBOR_NESTING -> major head = 7 ->
    info head <= 23 /\ bs = [] \/ width (info head) = Some (bytes_left bs) ->
    (forall value, info head = 24 -> bs = [value] -> simple value) ->
    data simple depth limits k (head :: bs).

(** ** Validators that accept exactly a grammar *)

(** *** The grammar in the terms of the code *)

Lemma major_eq head : major head = major_of head.
Proof. unfold major, major_of. by rewrite N.shiftr_div_pow2. Qed.

Lemma info_eq head : info head = info_of head.
Proof. unfold info, info_of. change 0x1f with (N.ones 5). by rewrite N.land_ones. Qed.

Lemma limits_under_eq key base : limits_under key base = limits_for_map_value key base.
Proof.
  unfold limits_under, limits_for_map_value. destruct base as [t b a m]. cbn [existsb max_text_len max_bytes_len max_array_len min_array_item_bytes].
  repeat (let Hk := fresh "Hk" in case_decide as Hk; [first [rewrite Hk; reflexivity
    |rewrite !elem_of_cons in Hk; repeat destruct Hk as [-> |Hk]; try reflexivity; by apply not_elem_of_nil in Hk]|]).
  repeat match goal with H : ~ (key ∈ _) |- _ => rewrite !not_elem_of_cons in H; destruct_and! end.
  rewrite !bool_decide_eq_false_2 by done. done.
Qed.

(** The items that the code accepts: any simple value may take two bytes. *)
Notation item := (data (fun _ => True)).

Section Constructors.
Context (depth : N) (limits : Limits) (k head : N) (Hd : depth <= MAX_CBOR_NESTING).

Ltac by_data rule := intros; eapply rule; rewrite ?major_eq, ?info_eq; done.

Lemma item_int n bs : major_of head = 0 \/ major_of head = 1 -> uint (info_of head) n bs -> item depth limits k (head :: bs).
Proof. by_data data_int. Qed.

Lemma item_string max len lbs payload :
  major_of head = 2 /\ max = max_bytes_len limits \/ major_of head = 3 /\ max = max_text_len limits ->
  uint (info_of head) len lbs -> len <= max -> bytes_left payload = len -> item depth limits k (head :: lbs ++ payload).
Proof. by_data data_string. Qed.

Lemma item_chunks max total bs :
  major_of head = 2 /\ max = max_bytes_len limits \/ major_of head = 3 /\ max = max_text_len limits ->
  info_of head = 31 -> chunks (major_of head) max total bs -> bs = [] \/ depth + 1 <= MAX_CBOR_NESTING ->
  item depth limits k (head :: bs ++ [0xff]).
Proof. by_data data_chunks. Qed.

Lemma item_array len lbs bs : major_of head = 4 -> uint (info_of head) len lbs -> len <= max_array_len limits ->
  len * N.max (min_array_item_bytes limits) 1 <= bytes_left bs + k ->
  sequence (item (depth + 1) limits) k (N.to_nat len) bs -> item depth limits k (head :: lbs ++ bs).
Proof. by_data data_array. Qed.

Lemma item_array_indefinite n bs : major_of head = 4 -> info_of head = 31 -> N.of_nat n <= max_array_len limits ->
  sequence (item (depth + 1) limits) (k + 1) n bs -> item depth limits k (head :: bs ++ [0xff]).
Proof. by_data data_array_indefinite. Qed.

Lemma item_map len lbs bs : major_of head = 5 -> uint (info_of head) len lbs -> len <= MAX_CBOR_MAP_LEN ->
  len * 2 <= bytes_left bs + k ->
  sequence (fun k bs => exists key kbs vbs, bs = kbs ++ vbs /\ is_key key kbs /\
              item (depth + 1) (limits_under key limits) k vbs) k (N.to_nat len) bs ->
  item depth limits k (head :: lbs ++ bs).
Proof. by_data data_map. Qed.

Lemma item_map_indefinite n bs : major_of head = 5 -> info_of head = 31 -> N.of_nat n <= MAX_CBOR_MAP_LEN ->
  sequence (fun k bs => exists key kbs vbs, bs = kbs ++ vbs /\ is_key key kbs /\
              item (depth + 1) (limits_under key limits) k vbs) (k + 1) n bs ->
  item depth limits k (head :: bs ++ [0xff]).
Proof. by_data data_map_indefinite. Qed.

Lemma item_tag n lbs bs : major_of head = 6 -> uint (info_of head) n lbs -> item (depth + 1) limits k bs ->
  item depth limits k (head :: lbs ++ bs).
Proof. by_data data_tag. Qed.

Lemma item_simple bs : major_of head = 7 ->
  info_of head <= 23 /\ bs = [] \/ width (info_of head) = Some (bytes_left bs) -> item depth limits k (head :: bs).
Proof. by_data data_simple. Qed.
End Constructors.


Record vexact (v : list N -> wres (list N)) (P : N -> list N -> Prop) : Prop := {
  vx_sound : forall s, wpw (v s) (fun s' => exists bs, s = bs ++ s' /\ P (bytes_left s') bs);
  vx_complete : forall bs s, P (bytes_left s) bs -> v (bs ++ s) = wok s
}.

Lemma read_be_sound k s : wpw (read_be k s) (fun '(n, s') => exists bs, s = bs ++ s' /\ bytes_left bs = k /\ n = from_be_bytes bs).
Proof.
  unfold read_be. eapply wpw_seq; [apply read_exact_sound|]. intros [p s'] [-> Hp]. apply wpw_wok. by exists p.
Qed.

Lemma read_be_complete k bs s : bytes_left bs = k -> read_be k (bs ++ s) = wok (from_be_bytes bs, s).
Proof. intros Hk. unfold read_be. by rewrite read_exact_app. Qed.

Lemma read_byte_sound s : wpw (read_byte s) (fun '(b, s') => s = b :: s').
Proof. destruct s; done. Qed.

Lemma width_cases ai w : width ai = Some w <->
  ai = 24 /\ w = 1 \/ ai = 25 /\ w = 2 \/ ai = 26 /\ w = 4 \/ ai = 27 /\ w = 8.
Proof.
  split; [|naive_solver]. unfold width. destruct ai as [|p]; [done|].
  do 5 (destruct p as [p|p|]; try done); intros [= <-]; auto 10.
Qed.

Lemma from_be_one b : from_be_bytes [b] = b.
Proof. done. Qed.

Lemma uint_sound ai s : wpw (read_uint ai s) (fun '(n, s') => exists bs, s = bs ++ s' /\ uint ai n bs).
Proof.
  unfold read_uint. destruct (N.leb_spec ai 23) as [Hle|Hgt].
  { apply wpw_wok. exists []. split; [done|]. by left. }
  assert (Hbe : forall k, width ai = Some k -> wpw (read_be k s) (fun '(n, s') => exists bs, s = bs ++ s' /\ uint ai n bs)).
  { intros k Hk. eapply wpw_mono; [apply read_be_sound|]. intros [n s'] (bs & -> & Hb & ->). exists bs. split; [done|].
    right. by rewrite Hb. }
  destruct ai as [|p]; [done|]. do 5 (destruct p as [p|p|]; try exact I); try (by apply Hbe).
  eapply wpw_mono; [apply read_byte_sound|]. intros [b s'] ->. exists [b]. split; [done|]. by right.
Qed.

Lemma uint_complete ai n bs s : uint ai n bs -> read_uint ai (bs ++ s) = wok (n, s).
Proof.
  unfold read_uint. intros [(Hle & -> & ->)|[Hw ->]].
  - by rewrite (proj2 (N.leb_le _ _) Hle).
  - apply width_cases in Hw. destruct Hw as [[-> Hl]|[[-> Hl]|[[-> Hl]|[-> Hl]]]]; cbn [N.leb N.compare]; simpl.
    + destruct bs as [|b [|]]; try done; simpl in Hl; lia.
    + by apply read_be_complete.
    + by apply read_be_complete.
    + by apply read_be_complete.
Qed.

Lemma uint_not_31 ai n bs : uint ai n bs -> ai <> 31.
Proof. intros [(Hle & _)|[Hw _]]; [lia|]. apply width_cases in Hw. lia. Qed.

Lemma skip_sound len s : wpw (skip len s) (fun s' => exists p, s = p ++ s' /\ bytes_left p = len).
Proof. unfold skip. eapply wpw_seq; [apply read_exact_sound|]. intros [p s'] [-> Hp]. by exists p. Qed.

Lemma skip_complete p s : skip (bytes_left p) (p ++ s) = wok s.
Proof. unfold skip. by rewrite read_exact_app. Qed.

Lemma key_sound s : wpw (read_map_key s) (fun '(key, s') => exists bs, s = bs ++ s' /\ is_key key bs).
Proof.
  unfold read_map_key. eapply wpw_seq; [apply read_byte_sound|]. intros [head s1] ->.
  apply wpw_ensure. intros H3%N.eqb_eq. apply wpw_ensure. intros H31%negb_true_iff%N.eqb_neq.
  eapply wpw_seq; [apply uint_sound|]. intros [len s2] (lbs & -> & Hu). apply wpw_ensure. intros Hlen%N.leb_le.
  apply wpw_ensure. intros _. eapply wpw_seq; [apply read_exact_sound|]. intros [p s3] [-> Hp].
  destruct (from_utf8 p) as [key|] eqn:Hk; [|done]. apply wpw_wok. exists (head :: lbs ++ p).
  split; [simpl; by rewrite <-app_assoc|]. exists head, len, lbs, p. by rewrite major_eq, info_eq.
Qed.

Lemma key_complete key bs s : is_key key bs -> read_map_key (bs ++ s) = wok (key, s).
Proof.
  intros (head & len & lbs & p & -> & H3 & H31 & Hu & Hlen & Hp & Hk). rewrite major_eq in H3. rewrite info_eq in H31, Hu.
  unfold read_map_key. simpl. rewrite H3.
  rewrite wbind_ensure by done. rewrite wbind_ensure by (apply negb_true_iff; by apply N.eqb_neq).
  unfold read_len. rewrite <-app_assoc, (uint_complete _ len) by done. rewrite wbind_wok.
  rewrite wbind_ensure by (by apply N.leb_le). rewrite wbind_ensure by (apply N.leb_le; rewrite length_app; lia).
  rewrite read_exact_app by done. rewrite wbind_wok. by rewrite Hk.
Qed.

Lemma string_exact max ai : vexact (validate_string max ai)
  (fun _ bs => exists len lbs payload, bs = lbs ++ payload /\ uint ai len lbs /\ len <= max /\ bytes_left payload = len).
Proof.
  unfold validate_string, read_len. split.
  - intros s. eapply wpw_seq; [apply uint_sound|]. intros [len s1] (lbs & -> & Hu). apply wpw_ensure. intros Hle%N.leb_le.
    apply wpw_ensure. intros _. eapply wpw_mono; [apply skip_sound|]. intros s2 (p & -> & Hp).
    exists (lbs ++ p). split; [by rewrite <-app_assoc|]. by exists len, lbs, p.
  - intros bs s (len & lbs & p & -> & Hu & Hle & Hp). rewrite <-app_assoc, (uint_complete _ len) by done. rewrite wbind_wok.
    rewrite wbind_ensure by (by apply N.leb_le). rewrite wbind_ensure by (apply N.leb_le; rewrite length_app; lia).
    rewrite <-Hp. apply skip_complete.
Qed.

(** *** Chunks *)

Notation string_major is_text := (if (is_text : bool) then 3 else 2).

Lemma chunks_sound fuel : forall total depth is_text max s,
  max < 2 ^ 64 - 1 -> total <= max -> (length s < fuel)%nat ->
  wpw (chunks_loop fuel total depth is_text max s) (fun s' => exists bs t, s = bs ++ 0xff :: s' /\
    chunks (string_major is_text) max t bs /\ total + t <= max /\ (bs = [] \/ depth <= MAX_CBOR_NESTING)).
Proof.
  induction fuel as [|fuel IH]; intros total depth is_text max s Hmax Htot Hf; [lia|]. cbn [chunks_loop].
  destruct s as [|next s]; [done|]. cbn [peek_u8]. rewrite wbind_wok. destruct (N.eqb_spec next 0xff) as [->|Hn].
  { apply wpw_wok. exists [], 0. split_and!; [done|constructor|lia|by left]. }
  apply wpw_ensure. intros Hd%N.leb_le. cbn [read_byte]. rewrite wbind_wok.
  apply wpw_ensure. intros Hm%N.eqb_eq. apply wpw_ensure. intros H31%negb_true_iff%N.eqb_neq.
  eapply wpw_seq; [apply uint_sound|]. intros [len s1] (lbs & -> & Hu). apply wpw_ensure. intros Hle%N.leb_le.
  apply wpw_ensure. intros _. apply wpw_ensure. intros Ht%N.leb_le. eapply wpw_seq; [apply skip_sound|].
  intros s2 (p & -> & Hp). replace (N.min (total + len) (2 ^ 64 - 1)) with (total + len) in * by lia.
  eapply wpw_mono; [apply IH; [done|done|]|].
  - simpl in Hf. rewrite !length_app in Hf. lia.
  - intros s' (bs & t & -> & Hc & Hsum & _). exists (next :: lbs ++ p ++ bs), (len + t). split_and!.
    + simpl. by rewrite <-!app_assoc.
    + constructor; rewrite ?major_eq, ?info_eq; [done..|lia].
    + lia.
    + by right.
Qed.

Lemma chunks_complete m max t bs : chunks m max t bs -> forall fuel total depth is_text s,
  m = string_major is_text -> max < 2 ^ 64 - 1 -> total + t <= max -> bs = [] \/ depth <= MAX_CBOR_NESTING ->
  (length (bs ++ 0xff%N :: s) < fuel)%nat -> chunks_loop fuel total depth is_text max (bs ++ 0xff :: s) = wok s.
Proof.
  induction 1 as [|head len lbs p t bs Hm H31 Hu Hp Hc IH Hmax]; intros fuel total depth is_text s Hmaj Hmx Hsum Hd Hf; rewrite ?major_eq, ?info_eq in *.
  - destruct fuel as [|fuel]; [simpl in Hf; lia|]. done.
  - destruct fuel as [|fuel]; [lia|]. destruct Hd as [Hd|Hd]; [done|]. cbn [chunks_loop app peek_u8 read_byte]. rewrite wbind_wok.
    assert (Hff : head <> 0xff) by (intros ->; by apply H31). rewrite (proj2 (N.eqb_neq _ _) Hff).
    rewrite wbind_ensure by (by apply N.leb_le). rewrite wbind_wok. rewrite wbind_ensure by (apply N.eqb_eq; congruence).
    rewrite wbind_ensure by (apply negb_true_iff; by apply N.eqb_neq). unfold read_len.
    rewrite <-!app_assoc, (uint_complete _ len) by done. rewrite wbind_wok.
    rewrite wbind_ensure by (apply N.leb_le; lia). rewrite wbind_ensure by (apply N.leb_le; rewrite length_app; lia).
    replace (N.min (total + len) (2 ^ 64 - 1)) with (total + len) by lia.
    rewrite wbind_ensure by (apply N.leb_le; lia). rewrite <-Hp, skip_complete, wbind_wok.
    apply IH; [done|done|lia|by right|]. simpl in Hf. rewrite !length_app in Hf. rewrite !length_app. lia.
Qed.

(** *** Sequences *)

Section Sequences.
Context (v : list N -> wres (list N)) (P : N -> list N -> Prop) (Hv : vexact v P).

Lemma times_exact n : vexact (validate_times n v) (fun k bs => sequence P k n bs).
Proof.
  induction n as [|n IH]; split.
  - intros s. apply wpw_wok. exists []. split; [done|constructor].
  - intros bs s H. by inversion H.
  - intros s. cbn [validate_times]. eapply wpw_seq; [apply Hv|]. intros s1 (bs & -> & HP).
    eapply wpw_mono; [apply IH|]. intros s2 (bs' & -> & Hs). exists (bs ++ bs'). split; [by rewrite <-app_assoc|].
    constructor; [|done]. rewrite length_app in HP. by rewrite Nat2N.inj_add in HP.
  - intros bs0 s Hs. inversion Hs as [|k n' bs bs' HP Hs']; subst. cbn [validate_times]. rewrite <-app_assoc.
    rewrite (vx_complete _ _ Hv); [|by rewrite length_app, Nat2N.inj_add]. rewrite wbind_wok. by apply (vx_complete _ _ IH).
Qed.

Context (Hword : forall k bs, P k bs -> exists head bs', bs = head :: bs' /\ head <> 0xff).

Lemma indefinite_sound fuel : forall count max s,
  count <= max -> (length s < fuel)%nat ->
  wpw (indefinite_loop fuel count max v s) (fun s' => exists bs n, s = bs ++ 0xff :: s' /\
    sequence P (bytes_left s' + 1) n bs /\ count + N.of_nat n <= max).
Proof.
  induction fuel as [|fuel IH]; intros count max s Hc Hf; [lia|]. cbn [indefinite_loop].
  destruct s as [|next s]; [done|]. cbn [peek_u8]. rewrite wbind_wok. destruct (N.eqb_spec next 0xff) as [->|Hn].
  { apply wpw_wok. exists [], O. split_and!; [done|constructor|lia]. }
  apply wpw_ensure. intros Hlt%N.ltb_lt. eapply wpw_seq; [apply Hv|]. intros s1 (bs & Hs & HP). rewrite Hs in *.
  eapply wpw_mono; [apply IH; [lia|]|].
  - destruct (Hword _ _ HP) as (head & bs' & -> & _). rewrite length_app in Hf. simpl in Hf. lia.
  - intros s' (bs' & n & -> & Hseq & Hle). exists (bs ++ bs'), (S n). split_and!; [by rewrite <-app_assoc| |lia].
    constructor; [|done]. rewrite length_app in HP. simpl length in HP.
    replace (bytes_left bs' + (bytes_left s' + 1)) with (N.of_nat (length bs' + S (length s'))) by lia. done.
Qed.

Lemma indefinite_complete n : forall fuel count max bs s,
  sequence P (bytes_left s + 1) n bs -> count + N.of_nat n <= max -> (length (bs ++ 0xff%N :: s) < fuel)%nat ->
  indefinite_loop fuel count max v (bs ++ 0xff :: s) = wok s.
Proof.
  induction n as [|n IH]; intros fuel count max bs0 s Hs Hc Hf; (destruct fuel as [|fuel]; [lia|]); cbn [indefinite_loop].
  - by inversion Hs.
  - inversion Hs as [|k n' bs bs' HP Hs']; subst. destruct (Hword _ _ HP) as (head & bs1 & -> & Hn).
    cbn [app peek_u8]. rewrite wbind_wok, (proj2 (N.eqb_neq _ _) Hn). rewrite wbind_ensure by (apply N.ltb_lt; lia).
    change (head :: (bs1 ++ bs') ++ 255 :: s) with ((head :: bs1 ++ bs') ++ 255 :: s).
    change (head :: bs1 ++ bs') with ((head :: bs1) ++ bs'). rewrite <-app_assoc.
    rewrite (vx_complete _ _ Hv); [|rewrite length_app; simpl length; replace (N.of_nat (length bs' + S (length s))) with (bytes_left bs' + (bytes_left s + 1)) by lia; done].
    rewrite wbind_wok. apply IH; [done|lia|]. simpl in Hf. rewrite !length_app in *. simpl in *. lia.
Qed.

Lemma indefinite_exact max : vexact (validate_indefinite max v)
  (fun k bs => exists n bs', bs = bs' ++ [0xff] /\ sequence P (k + 1) n bs' /\ N.of_nat n <= max).
Proof.
  unfold validate_indefinite. split.
  - intros s. eapply wpw_mono; [apply indefinite_sound; lia|]. intros s' (bs & n & -> & Hs & Hle).
    exists (bs ++ [0xff]). split; [by rewrite <-app_assoc|]. by exists n, bs.
  - intros bs s (n & bs' & -> & Hs & Hle). rewrite <-app_assoc. eapply indefinite_complete; [exact Hs|lia|]. simpl. lia.
Qed.
End Sequences.

(** *** Items *)

Definition small_limits (l : Limits) : Prop := max_text_len l < 2 ^ 64 - 1 /\ max_bytes_len l < 2 ^ 64 - 1.

Lemma small_limits_key key l : small_limits l -> small_limits (limits_under key l).
Proof. rewrite limits_under_eq. unfold small_limits, limits_for_map_value. intros [H1 H2]. destruct l. simpl in *. repeat case_decide; done. Qed.

Lemma item_head d l k bs : item d l k bs -> exists head bs', bs = head :: bs' /\ head <> 0xff.
Proof.
  intros H. assert (Hm : major_of 0xff = 7) by done. assert (Hi : info_of 0xff = 31) by done.
  destruct H as [head ? ? ? Hmaj|head ? ? ? ? ? Hmaj|head ? ? ? ? Hmaj|head ? ? ? ? Hmaj|head ? ? ? Hmaj|head ? ? ? ? Hmaj|head ? ? ? Hmaj
    |head ? ? ? ? Hmaj|head ? ? Hmaj Hinfo]; eexists head, _; (split; [done|]); intros ->; rewrite ?major_eq, ?info_eq in *; rewrite ?Hm in Hmaj;
    try (destruct Hmaj as [Hmaj|Hmaj]; first [done|by destruct Hmaj]); try done.
  rewrite Hi in Hinfo. destruct Hinfo as [[Hle _]|Hw]; [lia|]. apply width_cases in Hw. lia.
Qed.

(** A pair of a map. *)
Definition pair_at (d : N) (l : Limits) (k : N) (bs : list N) : Prop :=
  exists key kbs vbs, bs = kbs ++ vbs /\ is_key key kbs /\ item d (limits_under key l) k vbs.

Lemma pair_head d l k bs : pair_at d l k bs -> exists head bs', bs = head :: bs' /\ head <> 0xff.
Proof.
  intros (key & kbs & vbs & -> & (head & len & lbs & p & -> & H3 & _) & _). eexists head, _. split; [done|]. by intros ->.
Qed.

Lemma pair_exact v d l :
  (forall key, vexact (v (limits_under key l)) (item d (limits_under key l))) ->
  vexact (validate_pair v l) (pair_at d l).
Proof.
  intros Hv. unfold validate_pair. split.
  - intros s. eapply wpw_seq; [apply key_sound|]. intros [key s1] (kbs & -> & Hk).
    rewrite <-limits_under_eq. eapply wpw_mono; [apply (vx_sound _ _ (Hv key))|]. intros s2 (vbs & -> & Hi). exists (kbs ++ vbs).
    split; [by rewrite <-app_assoc|]. by exists key, kbs, vbs.
  - intros bs s (key & kbs & vbs & -> & Hk & Hi). rewrite <-app_assoc, (key_complete key) by done. rewrite wbind_wok.
    rewrite <-limits_under_eq. by apply (vx_complete _ _ (Hv key)).
Qed.

Definition level_ok (fuel : nat) (depth : N) : Prop := 66 <= N.of_nat fuel + depth /\ depth <= 65.

(** The major types, for a proof by cases. *)
Lemma major_cases (P : N -> Prop) :
  P 0 -> P 1 -> P 2 -> P 3 -> P 4 -> P 5 -> P 6 -> P 7 -> (forall p, 8 <= N.pos p -> P (N.pos p)) -> forall m, P m.
Proof.
  intros. destruct m as [|p]; [done|]. do 3 (destruct p as [p|p|]; try done); match goal with H : forall p, _ -> _ |- _ => apply H; lia end.
Qed.

Section Item.
Context (fuel : nat) (depth : N) (limits : Limits).
Context (Hsmall : small_limits limits) (Hdepth : depth <= MAX_CBOR_NESTING).
Context (IH : forall limits, small_limits limits -> vexact (validate_item fuel (depth + 1) limits) (item (depth + 1) limits)).

Lemma pairs_exact : vexact (validate_pair (validate_item fuel (depth + 1)) limits) (pair_at (depth + 1) limits).
Proof. apply pair_exact. intros key. by apply IH, small_limits_key. Qed.

Lemma array_sound ai s : wpw
  ('(len, s) <-- read_len ai s ;;
   _ <-- ensure (len <=? max_array_len limits) (WireError.TooLarge len (max_array_len limits)) ;;
   _ <-- ensure (len <=? bytes_left s / N.max (min_array_item_bytes limits) 1) (WireError.ExceedsRemaining len (bytes_left s)) ;;
   validate_times (N.to_nat len) (validate_item fuel (depth + 1) limits) s)
  (fun s' => exists bs len lbs, s = lbs ++ bs ++ s' /\ uint ai len lbs /\ len <= max_array_len limits /\
     len * N.max (min_array_item_bytes limits) 1 <= bytes_left bs + bytes_left s' /\
     sequence (item (depth + 1) limits) (bytes_left s') (N.to_nat len) bs).
Proof.
  eapply wpw_seq; [apply uint_sound|]. intros [len s1] (lbs & -> & Hu). apply wpw_ensure. intros Hle%N.leb_le.
  apply wpw_ensure. intros Hrem%N.leb_le. eapply wpw_mono; [apply (times_exact _ _ (IH limits Hsmall))|].
  intros s2 (bs & -> & Hs). exists bs, len, lbs. split_and!; [done|done|done| |done].
  rewrite length_app in Hrem. set (q := N.max (min_array_item_bytes limits) 1) in *.
  pose proof (N.Div0.mul_div_le (N.of_nat (length bs + length s2)) q). nia.
Qed.

Lemma array_complete ai len lbs bs s :
  uint ai len lbs -> len <= max_array_len limits ->
  len * N.max (min_array_item_bytes limits) 1 <= bytes_left bs + bytes_left s ->
  sequence (item (depth + 1) limits) (bytes_left s) (N.to_nat len) bs ->
  ('(len, s) <-- read_len ai (lbs ++ bs ++ s) ;;
   _ <-- ensure (len <=? max_array_len limits) (WireError.TooLarge len (max_array_len limits)) ;;
   _ <-- ensure (len <=? bytes_left s / N.max (min_array_item_bytes limits) 1) (WireError.ExceedsRemaining len (bytes_left s)) ;;
   validate_times (N.to_nat len) (validate_item fuel (depth + 1) limits) s) = wok s.
Proof.
  intros Hu Hle Hrem Hs. unfold read_len. rewrite (uint_complete _ len) by done. rewrite wbind_wok.
  rewrite wbind_ensure by (by apply N.leb_le). rewrite wbind_ensure.
  - by apply (vx_complete _ _ (times_exact _ _ (IH limits Hsmall) (N.to_nat len))).
  - apply N.leb_le. apply N.div_le_lower_bound; [lia|]. rewrite length_app. lia.
Qed.

Lemma map_sound ai s : wpw
  ('(len, s) <-- read_len ai s ;;
   _ <-- ensure (len <=? MAX_CBOR_MAP_LEN) (WireError.TooLarge len MAX_CBOR_MAP_LEN) ;;
   _ <-- ensure (N.min (len * 2) (2 ^ 64 - 1) <=? bytes_left s) (WireError.ExceedsRemaining len (bytes_left s)) ;;
   validate_times (N.to_nat len) (validate_pair (validate_item fuel (depth + 1)) limits) s)
  (fun s' => exists bs len lbs, s = lbs ++ bs ++ s' /\ uint ai len lbs /\ len <= MAX_CBOR_MAP_LEN /\
     len * 2 <= bytes_left bs + bytes_left s' /\ sequence (pair_at (depth + 1) limits) (bytes_left s') (N.to_nat len) bs).
Proof.
  eapply wpw_seq; [apply uint_sound|]. intros [len s1] (lbs & -> & Hu). apply wpw_ensure. intros Hle%N.leb_le.
  apply wpw_ensure. intros Hrem%N.leb_le. eapply wpw_mono; [apply (times_exact _ _ pairs_exact)|].
  intros s2 (bs & -> & Hs). exists bs, len, lbs. split_and!; [done|done|done| |done].
  rewrite length_app in Hrem. unfold MAX_CBOR_MAP_LEN in Hle. lia.
Qed.

Lemma map_complete ai len lbs bs s :
  uint ai len lbs -> len <= MAX_CBOR_MAP_LEN -> len * 2 <= bytes_left bs + bytes_left s ->
  sequence (pair_at (depth + 1) limits) (bytes_left s) (N.to_nat len) bs ->
  ('(len, s) <-- read_len ai (lbs ++ bs ++ s) ;;
   _ <-- ensure (len <=? MAX_CBOR_MAP_LEN) (WireError.TooLarge len MAX_CBOR_MAP_LEN) ;;
   _ <-- ensure (N.min (len * 2) (2 ^ 64 - 1) <=? bytes_left s) (WireError.ExceedsRemaining len (bytes_left s)) ;;
   validate_times (N.to_nat len) (validate_pair (validate_item fuel (depth + 1)) limits) s) = wok s.
Proof.
  intros Hu Hle Hrem Hs. unfold read_len. rewrite (uint_complete _ len) by done. rewrite wbind_wok.
  rewrite wbind_ensure by (by apply N.leb_le). rewrite wbind_ensure by (apply N.leb_le; rewrite length_app; lia).
  by apply (vx_complete _ _ (times_exact _ _ pairs_exact (N.to_nat len))).
Qed.
End Item.

(** What a validator accepts after a head is an item. *)
Definition accepts (depth : N) (limits : Limits) (head : N) (s : list N) (m : wres (list N)) : Prop :=
  wpw m (fun s' => exists bs, head :: s = bs ++ s' /\ item depth limits (bytes_left s') bs).

Section Accepts.
Context (fuel : nat) (depth : N) (limits : Limits) (head : N) (s : list N).
Context (Hsmall : small_limits limits) (Hdepth : depth <= MAX_CBOR_NESTING).
Context (IH : forall limits, small_limits limits -> vexact (validate_item fuel (depth + 1) limits) (item (depth + 1) limits)).

Lemma accepts_int : major_of head = 0 \/ major_of head = 1 ->
  accepts depth limits head s ('(_, s) <-- read_uint (info_of head) s ;; wok s).
Proof.
  intros Hm. eapply wpw_seq; [apply uint_sound|]. intros [n s'] (bs & -> & Hu). apply wpw_wok. exists (head :: bs).
  split; [done|by eapply item_int].
Qed.

Lemma accepts_string is_text max :
  major_of head = string_major is_text -> max = (if is_text : bool then max_text_len limits else max_bytes_len limits) ->
  accepts depth limits head s
    (if info_of head =? 31 then validate_indefinite_bytes (depth + 1) is_text max s else validate_string max (info_of head) s).
Proof.
  intros Hm Hmax. assert (Hor : major_of head = 2 /\ max = max_bytes_len limits \/ major_of head = 3 /\ max = max_text_len limits)
    by (destruct is_text; auto).
  assert (Hlt : max < 2 ^ 64 - 1) by (destruct Hsmall, Hor as [[_ ->]|[_ ->]]; done).
  destruct (N.eqb_spec (info_of head) 31) as [H31|H31].
  - eapply wpw_mono; [apply chunks_sound; [done|lia|lia]|]. intros s' (bs & t & -> & Hc & _ & Hn). exists (head :: bs ++ [0xff]).
    split; [simpl; by rewrite <-app_assoc|]. eapply item_chunks; [done|exact Hor|done|by rewrite Hm|done].
  - eapply wpw_mono; [apply (vx_sound _ _ (string_exact max (info_of head)))|].
    intros s' (bs & -> & len & lbs & p & -> & Hu & Hle & Hp). exists (head :: lbs ++ p). split; [done|by eapply item_string].
Qed.

Lemma accepts_array : major_of head = 4 ->
  accepts depth limits head s
    (if info_of head =? 31 then validate_indefinite (max_array_len limits) (validate_item fuel (depth + 1) limits) s
     else '(len, s) <-- read_len (info_of head) s ;;
       _ <-- ensure (len <=? max_array_len limits) (WireError.TooLarge len (max_array_len limits)) ;;
       _ <-- ensure (len <=? bytes_left s / N.max (min_array_item_bytes limits) 1) (WireError.ExceedsRemaining len (bytes_left s)) ;;
       validate_times (N.to_nat len) (validate_item fuel (depth + 1) limits) s).
Proof.
  intros Hm. destruct (N.eqb_spec (info_of head) 31) as [H31|H31].
  - eapply wpw_mono; [apply (vx_sound _ _ (indefinite_exact _ _ (IH limits Hsmall) (item_head _ _) (max_array_len limits)))|].
    intros s' (bs & -> & n & bs' & -> & Hs & Hle). exists (head :: bs' ++ [0xff]). split; [done|by eapply item_array_indefinite].
  - eapply wpw_mono; [by apply array_sound|]. intros s' (bs & len & lbs & -> & Hu & Hle & Hrem & Hs).
    exists (head :: lbs ++ bs). split; [simpl; by rewrite <-app_assoc|by eapply item_array].
Qed.

Lemma accepts_map : major_of head = 5 ->
  accepts depth limits head s
    (if info_of head =? 31 then validate_indefinite MAX_CBOR_MAP_LEN (validate_pair (validate_item fuel (depth + 1)) limits) s
     else '(len, s) <-- read_len (info_of head) s ;;
       _ <-- ensure (len <=? MAX_CBOR_MAP_LEN) (WireError.TooLarge len MAX_CBOR_MAP_LEN) ;;
       _ <-- ensure (N.min (len * 2) (2 ^ 64 - 1) <=? bytes_left s) (WireError.ExceedsRemaining len (bytes_left s)) ;;
       validate_times (N.to_nat len) (validate_pair (validate_item fuel (depth + 1)) limits) s).
Proof.
  intros Hm. destruct (N.eqb_spec (info_of head) 31) as [H31|H31].
  - eapply wpw_mono; [apply (vx_sound _ _ (indefinite_exact _ _ (pairs_exact fuel depth limits Hsmall IH) (pair_head _ _) MAX_CBOR_MAP_LEN))|].
    intros s' (bs & -> & n & bs' & -> & Hs & Hle). exists (head :: bs' ++ [0xff]). split; [done|by eapply item_map_indefinite].
  - eapply wpw_mono; [by apply map_sound|]. intros s' (bs & len & lbs & -> & Hu & Hle & Hrem & Hs).
    exists (head :: lbs ++ bs). split; [simpl; by rewrite <-app_assoc|by eapply item_map].
Qed.

Lemma accepts_tag : major_of head = 6 ->
  accepts depth limits head s ('(_, s) <-- read_uint (info_of head) s ;; validate_item fuel (depth + 1) limits s).
Proof.
  intros Hm. eapply wpw_seq; [apply uint_sound|]. intros [n s'] (lbs & -> & Hu).
  eapply wpw_mono; [apply (vx_sound _ _ (IH limits Hsmall))|]. intros s2 (bs & -> & Hi). exists (head :: lbs ++ bs).
  split; [simpl; by rewrite <-app_assoc|by eapply item_tag].
Qed.

Lemma accepts_simple : major_of head = 7 ->
  accepts depth limits head s (validate_simple (info_of head) s).
Proof.
  intros Hm. unfold validate_simple. destruct (N.leb_spec (info_of head) 23) as [Hle|Hgt].
  { apply wpw_wok. exists [head]. split; [done|]. apply item_simple; [done|done|by left]. }
  assert (Hskip : forall k, width (info_of head) = Some k -> accepts depth limits head s (skip k s)).
  { intros k Hk. eapply wpw_mono; [apply skip_sound|]. intros s' (p & -> & Hp). exists (head :: p). split; [done|].
    apply item_simple; [done|done|]. right. by rewrite Hp. }
  revert Hskip. generalize (info_of head). intros ai Hskip. destruct ai as [|p]; [exact I|].
  do 5 (try destruct p as [p|p|]); try exact I; by apply Hskip.
Qed.
End Accepts.

Lemma item_exact fuel : forall depth limits,
  small_limits limits -> level_ok fuel depth -> vexact (validate_item fuel depth limits) (item depth limits).
Proof.
  induction fuel as [|fuel IHf]; intros depth limits Hsmall [Hl1 Hl2]; [simpl in Hl1; lia|].
  assert (IH : depth <= MAX_CBOR_NESTING -> forall limits, small_limits limits ->
    vexact (validate_item fuel (depth + 1) limits) (item (depth + 1) limits)).
  { unfold MAX_CBOR_NESTING. intros Hd l Hl. apply IHf; [done|]. split; lia. }
  clear IHf. split.
  - intros s. cbn [validate_item]. apply wpw_ensure. intros Hd%N.leb_le. specialize (IH Hd).
    eapply wpw_seq; [apply read_byte_sound|]. intros [head s1] ->.
    destruct (major_of head) as [|p] eqn:Hmaj; [|do 3 (try destruct p as [p|p|])]; try exact I;
      first [by apply accepts_int; auto|by apply (accepts_string _ _ _ _ Hsmall Hd true)
            |by apply (accepts_string _ _ _ _ Hsmall Hd false)|by apply accepts_array|by apply accepts_map
            |by apply accepts_tag|by apply accepts_simple].
  - intros bs s Hi. assert (Hd : depth <= MAX_CBOR_NESTING) by (by destruct Hi). specialize (IH Hd).
    destruct Hi as [head n bs _ Hm Hu|head max len lbs p _ Hm Hu Hle Hp|head max t bs _ Hm H31 Hc Hn|head len lbs bs _ Hm Hu Hle Hrem Hs
      |head n bs _ Hm H31 Hle Hs|head len lbs bs _ Hm Hu Hle Hrem Hs|head n bs _ Hm H31 Hle Hs|head n lbs bs _ Hm Hu Hb|head bs _ Hm Hw _];
      rewrite ?major_eq, ?info_eq in *; cbn [validate_item app]; rewrite wbind_ensure by (by apply N.leb_le); cbn [read_byte]; rewrite wbind_wok.
    + destruct Hm as [-> | ->]; by rewrite (uint_complete _ n).
    + pose proof (uint_not_31 _ _ _ Hu) as H31. rewrite (proj2 (N.eqb_neq _ _) H31).
      destruct Hm as [[-> ->]|[-> ->]]; rewrite (vx_complete _ _ (string_exact _ _)); eauto 10.
    + rewrite H31. cbn [N.eqb Pos.eqb]. rewrite <-app_assoc. unfold validate_indefinite_bytes. destruct Hsmall as [Ht Hb].
      destruct Hm as [[Hm ->]|[Hm ->]]; rewrite Hm in Hc |- *.
      * eapply chunks_complete; [exact Hc|done|done| |done|simpl; lia]. destruct Hc; lia.
      * eapply chunks_complete; [exact Hc|done|done| |done|simpl; lia]. destruct Hc; lia.
    + pose proof (uint_not_31 _ _ _ Hu) as H31. rewrite Hm, (proj2 (N.eqb_neq _ _) H31), <-app_assoc. by eapply array_complete.
    + rewrite Hm, H31. cbn [N.eqb Pos.eqb].
      apply (vx_complete _ _ (indefinite_exact _ _ (IH limits Hsmall) (item_head _ _) (max_array_len limits))). by exists n, bs.
    + pose proof (uint_not_31 _ _ _ Hu) as H31. rewrite Hm, (proj2 (N.eqb_neq _ _) H31), <-app_assoc. by eapply map_complete.
    + rewrite Hm, H31. cbn [N.eqb Pos.eqb].
      apply (vx_complete _ _ (indefinite_exact _ _ (pairs_exact fuel depth limits Hsmall IH) (pair_head _ _) MAX_CBOR_MAP_LEN)). by exists n, bs.
    + rewrite Hm, <-app_assoc, (uint_complete _ n) by done. rewrite wbind_wok. by apply (vx_complete _ _ (IH limits Hsmall)).
    + rewrite Hm. unfold validate_simple. destruct Hw as [[Hle ->]|Hw]; [by rewrite (proj2 (N.leb_le _ _) Hle)|].
      apply width_cases in Hw. destruct Hw as [[-> Hl]|[[-> Hl]|[[-> Hl]|[-> Hl]]]]; cbn [N.leb N.compare]; simpl;
        rewrite <-Hl; apply skip_complete.
Qed.

(** *** RFC 8949 *)

(** Simple values below 32 are not well-formed in two bytes (section 3.3). *)
Definition rfc_simple (value : N) : Prop := 32 <= value.

Lemma sequence_mono (P Q : N -> list N -> Prop) k n bs :
  (forall k bs', (length bs' <= length bs)%nat -> P k bs' -> Q k bs') -> sequence P k n bs -> sequence Q k n bs.
Proof.
  intros HPQ Hs. induction Hs as [|k n bs bs' HP Hs IH]; [constructor|]. constructor.
  - apply HPQ; [rewrite length_app; lia|done].
  - apply IH. intros k' x Hx. apply HPQ. rewrite length_app. lia.
Qed.

(** Fewer simple values, fewer items. *)
Lemma data_mono (S T : N -> Prop) : (forall v, S v -> T v) -> forall depth limits k bs,
  data S depth limits k bs -> data T depth limits k bs.
Proof.
  intros HST depth limits k bs. remember (length bs) as m eqn:Hm. revert depth limits k bs Hm.
  induction (Nat.lt_wf_0 m) as [m _ IH]. intros depth limits k bs -> Hd.
  assert (IH' : forall d l k' bs', (length bs' < length bs)%nat -> data S d l k' bs' -> data T d l k' bs').
  { intros d l k' bs' Hlt. by eapply IH. }
  clear IH. destruct Hd.
  - by eapply data_int.
  - by eapply data_string.
  - by eapply data_chunks.
  - eapply data_array; [done..|]. eapply sequence_mono; [|done]. intros k' x Hx. apply IH'. simpl. rewrite length_app. lia.
  - eapply data_array_indefinite; [done..|]. eapply sequence_mono; [|done]. intros k' x Hx. apply IH'. simpl. rewrite length_app. lia.
  - eapply data_map; [done..|]. eapply sequence_mono; [|done]. intros k' x Hx (key & kbs & vbs & -> & Hk & Hv).
    exists key, kbs, vbs. split_and!; [done..|]. apply IH'; [|done]. rewrite length_app in Hx. simpl. rewrite length_app. lia.
  - eapply data_map_indefinite; [done..|]. eapply sequence_mono; [|done]. intros k' x Hx (key & kbs & vbs & -> & Hk & Hv).
    exists key, kbs, vbs. split_and!; [done..|]. apply IH'; [|done]. rewrite length_app in Hx. simpl. rewrite length_app. lia.
  - eapply data_tag; [done..|]. apply IH'; [|done]. simpl. rewrite length_app. lia.
  - eapply data_simple; eauto.
Qed.


(** The simple value 0 in two bytes is accepted, and not well-formed. *)
Theorem two_byte_simple_accepted :
  validate_cbor [0xf8; 0x00] = wok () /\ ~ data rfc_simple 0 DEFAULT 0 [0xf8; 0x00].
Proof.
  split; [vm_compute; reflexivity|]. intros H. inversion H; subst; unfold major, info in *;
    repeat match goal with
    | H : 0xf8 / 32 = _ |- _ => vm_compute in H; discriminate H
    | H : 0xf8 mod 32 = 31 |- _ => vm_compute in H; discriminate H
    | H : _ \/ _ |- _ => destruct H
    | H : _ /\ _ |- _ => destruct H
    end.
  all: match goal with H : forall v, _ -> _ -> rfc_simple v |- _ => specialize (H 0 eq_refl eq_refl); unfold rfc_simple in H; lia end.
Qed.

(** A map with one pair; an array that declares 2^32 - 1 items it does not have. *)
Example accepts_small_map : validate_cbor [0xa1; 0x64; 0x74; 0x79; 0x70; 0x65; 0x61; 0x78] = wok ().
Proof. vm_compute. reflexivity. Qed.

Example rejects_bomb :
  validate_cbor [0x9a; 0x00; 0x0f; 0x42; 0x40; 0x80] = werr (WireError.ExceedsRemaining 1000000 1).
Proof. vm_compute. reflexivity. Qed.
