(* ===== verification/JdwpCodec.v ===== *)
(** * Debugger protocol: encoding (crates/nova-jdwp, wire/codec.rs and wire/types.rs)

    The writer and the reader of JDWP payloads.  A writer operation is the list of the bytes that
    it appends; it panics where the code slices out of range.  A reader is the list of the bytes
    that are left, as in Wire.v.  The identifiers of the debugged machine have the widths that it
    announces ([JdwpIdSizes]).  A float is its bits. *)

From stdpp Require Import base numbers option list.
From S2P Require Import Prelude Str Utf8 ClassReader Wire.

Local Open Scope N_scope.

(** ** Types (wire/types.rs) *)

(** The reasons of a protocol error, in place of the text that describes them. *)
Module Reason.
Inductive t :=
| Underflow (need : N)
| InvalidUtf8
| InvalidIdSize (size : N)
| PacketTooLarge (length : N)
| InvalidLength (length : N).
End Reason.

Module JdwpError.
Inductive t :=
| Io
| Protocol (why : Reason.t)
| VmError (code : N)
| Timeout
| Cancelled
| ConnectionClosed.
End JdwpError.

Notation jres := (eres JdwpError.t).
Definition protocol {A} (why : Reason.t) : jres A := werr (JdwpError.Protocol why).

Record JdwpIdSizes := mkIdSizes {
  sz_field_id : N;
  sz_method_id : N;
  sz_object_id : N;
  sz_reference_type_id : N;
  sz_frame_id : N
}.

Definition id_sizes_default : JdwpIdSizes := mkIdSizes 8 8 8 8 8.

Record Location := mkLocation {
  loc_type_tag : N;
  loc_class_id : N;
  loc_method_id : N;
  loc_index : N
}.

Module JdwpValue.
Inductive t :=
| Boolean (v : bool)
| Byte (v : Z)
| Char (v : N)
| Short (v : Z)
| Int (v : Z)
| Long (v : Z)
| Float (bits : N)
| Double (bits : N)
| Object (tag id : N)
| Void.
End JdwpValue.
Notation JdwpValue := JdwpValue.t.

(** ** [JdwpWriter] *)

(** The bits of a signed integer of [w] bits. *)
Definition unsigned (w : N) (v : Z) : N := Z.to_N (v mod 2 ^ Z.of_N w).

Definition write_u8 (v : N) : list N := [v].
Definition write_bool (v : bool) : list N := [if v then 1 else 0].
Definition write_u16 (v : N) : list N := to_be_bytes 2 v.
Definition write_u32 (v : N) : list N := to_be_bytes 4 v.
Definition write_i32 (v : Z) : list N := to_be_bytes 4 (unsigned 32 v).
Definition write_u64 (v : N) : list N := to_be_bytes 8 v.
Definition write_i64 (v : Z) : list N := to_be_bytes 8 (unsigned 64 v).
Definition write_f32 (bits : N) : list N := to_be_bytes 4 bits.
Definition write_f64 (bits : N) : list N := to_be_bytes 8 bits.

(** The length is cut to 32 bits. *)
Definition write_string (s : str) : list N :=
  let bytes := as_bytes s in write_u32 (bytes_left bytes) ++ bytes.

(** [&be[8 - size..]]: a size above 8 makes the subtraction or the slice panic. *)
Definition write_id (id size : N) : run (list N) :=
  if size <=? 8 then Done (drop (N.to_nat (8 - size)) (to_be_bytes 8 id)) else Panic.

Definition write_object_id (id : N) (sizes : JdwpIdSizes) : run (list N) := write_id id (sz_object_id sizes).

Definition write_tagged_object_id (tag id : N) (sizes : JdwpIdSizes) : run (list N) :=
  bs ← write_object_id id sizes; Done (write_u8 tag ++ bs).

Definition write_reference_type_id (id : N) (sizes : JdwpIdSizes) : run (list N) :=
  write_id id (sz_reference_type_id sizes).

Definition write_location (loc : Location) (sizes : JdwpIdSizes) : run (list N) :=
  class ← write_reference_type_id (loc_class_id loc) sizes;
  method ← write_id (loc_method_id loc) (sz_method_id sizes);
  Done (write_u8 (loc_type_tag loc) ++ class ++ method ++ write_u64 (loc_index loc)).

Definition write_value (v : JdwpValue) (sizes : JdwpIdSizes) : run (list N) :=
  match v with
  | JdwpValue.Boolean v => Done (write_bool v)
  | JdwpValue.Byte v => Done (write_u8 (unsigned 8 v))
  | JdwpValue.Char v => Done (write_u16 v)
  | JdwpValue.Short v => Done (write_u16 (unsigned 16 v))
  | JdwpValue.Int v => Done (write_i32 v)
  | JdwpValue.Long v => Done (write_i64 v)
  | JdwpValue.Float bits => Done (write_f32 bits)
  | JdwpValue.Double bits => Done (write_f64 bits)
  | JdwpValue.Object _ id => write_object_id id sizes
  | JdwpValue.Void => Done []
  end.

Definition tag_of (v : JdwpValue) : N :=
  match v with
  | JdwpValue.Boolean _ => 0x5A
  | JdwpValue.Byte _ => 0x42
  | JdwpValue.Char _ => 0x43
  | JdwpValue.Short _ => 0x53
  | JdwpValue.Int _ => 0x49
  | JdwpValue.Long _ => 0x4A
  | JdwpValue.Float _ => 0x46
  | JdwpValue.Double _ => 0x44
  | JdwpValue.Object tag _ => tag
  | JdwpValue.Void => 0x56
  end.

Definition write_tagged_value (v : JdwpValue) (sizes : JdwpIdSizes) : run (list N) :=
  bs ← write_value v sizes; Done (write_u8 (tag_of v) ++ bs).

(** ** [JdwpReader] *)

(** [require] and the slice that follows it.  The position stays within the buffer, so that its
    sum with a length of at most 32 bits does not overflow. *)
Definition read_bytes (len : N) (s : list N) : jres (list N * list N) :=
  _ <-- ensure (len <=? bytes_left s) (JdwpError.Protocol (Reason.Underflow len)) ;;
  wok (take (N.to_nat len) s, drop (N.to_nat len) s).

Definition read_uint (len : N) (s : list N) : jres (N * list N) :=
  '(bs, s) <-- read_bytes len s ;; wok (from_be_bytes bs, s).

Definition read_u8 (s : list N) : jres (N * list N) := read_uint 1 s.
Definition read_bool (s : list N) : jres (bool * list N) := '(b, s) <-- read_u8 s ;; wok (negb (b =? 0), s).
Definition read_u16 (s : list N) : jres (N * list N) := read_uint 2 s.
Definition read_u32 (s : list N) : jres (N * list N) := read_uint 4 s.
Definition read_i32 (s : list N) : jres (Z * list N) := '(n, s) <-- read_uint 4 s ;; wok (to_signed 32 n, s).
Definition read_u64 (s : list N) : jres (N * list N) := read_uint 8 s.
Definition read_i64 (s : list N) : jres (Z * list N) := '(n, s) <-- read_u64 s ;; wok (to_signed 64 n, s).
Definition read_f32 (s : list N) : jres (N * list N) := read_uint 4 s.
Definition read_f64 (s : list N) : jres (N * list N) := read_uint 8 s.

Definition read_string (s : list N) : jres (str * list N) :=
  '(len, s) <-- read_u32 s ;;
  '(bytes, s) <-- read_bytes len s ;;
  match from_utf8 bytes with
  | Some out => wok (out, s)
  | None => protocol Reason.InvalidUtf8
  end.

(** The bytes are copied to the end of a zeroed array of eight. *)
Definition read_id (size : N) (s : list N) : jres (N * list N) :=
  '(bytes, s) <-- read_bytes size s ;;
  _ <-- ensure (negb ((size =? 0) || (8 <? size))) (JdwpError.Protocol (Reason.InvalidIdSize size)) ;;
  wok (from_be_bytes (replicate (N.to_nat (8 - size)) 0 ++ bytes), s).

Definition read_object_id (sizes : JdwpIdSizes) (s : list N) : jres (N * list N) := read_id (sz_object_id sizes) s.

Definition read_tagged_object_id (sizes : JdwpIdSizes) (s : list N) : jres (N * N * list N) :=
  '(tag, s) <-- read_u8 s ;;
  '(id, s) <-- read_object_id sizes s ;;
  wok (tag, id, s).

Definition read_reference_type_id (sizes : JdwpIdSizes) (s : list N) : jres (N * list N) :=
  read_id (sz_reference_type_id sizes) s.

Definition read_location (sizes : JdwpIdSizes) (s : list N) : jres (Location * list N) :=
  '(type_tag, s) <-- read_u8 s ;;
  '(class_id, s) <-- read_reference_type_id sizes s ;;
  '(method_id, s) <-- read_id (sz_method_id sizes) s ;;
  '(index, s) <-- read_u64 s ;;
  wok (mkLocation type_tag class_id method_id index, s).

Definition read_value (tag : N) (sizes : JdwpIdSizes) (s : list N) : jres (JdwpValue * list N) :=
  match tag with
  | 0x5A => '(v, s) <-- read_bool s ;; wok (JdwpValue.Boolean v, s)
  | 0x42 => '(v, s) <-- read_u8 s ;; wok (JdwpValue.Byte (to_signed 8 v), s)
  | 0x43 => '(v, s) <-- read_u16 s ;; wok (JdwpValue.Char v, s)
  | 0x53 => '(v, s) <-- read_u16 s ;; wok (JdwpValue.Short (to_signed 16 v), s)
  | 0x49 => '(v, s) <-- read_i32 s ;; wok (JdwpValue.Int v, s)
  | 0x4A => '(v, s) <-- read_i64 s ;; wok (JdwpValue.Long v, s)
  | 0x46 => '(v, s) <-- read_f32 s ;; wok (JdwpValue.Float v, s)
  | 0x44 => '(v, s) <-- read_f64 s ;; wok (JdwpValue.Double v, s)
  | 0x56 => wok (JdwpValue.Void, s)
  | _ => '(id, s) <-- read_object_id sizes s ;; wok (JdwpValue.Object tag id, s)
  end.

Definition read_tagged_value (sizes : JdwpIdSizes) (s : list N) : jres (JdwpValue * list N) :=
  '(tag, s) <-- read_u8 s ;; read_value tag sizes s.

(** The reply of the machine with its widths: [idsizes] stores what it reads. *)
Definition read_id_sizes (s : list N) : jres JdwpIdSizes :=
  '(field_id, s) <-- read_u32 s ;;
  '(method_id, s) <-- read_u32 s ;;
  '(object_id, s) <-- read_u32 s ;;
  '(reference_type_id, s) <-- read_u32 s ;;
  '(frame_id, s) <-- read_u32 s ;;
  wok (mkIdSizes field_id method_id object_id reference_type_id frame_id).

(** ** Packets *)

Definition HEADER_LEN : N := 11.
Definition MAX_JDWP_PACKET_BYTES : N := 16 * 1024 * 1024.
Definition FLAG_REPLY : N := 0x80.

Definition encode_command (id command_set command : N) (payload : list N) : list N :=
  write_u32 (HEADER_LEN + bytes_left payload) ++ write_u32 id ++ [0; command_set; command] ++ payload.

Definition encode_reply (id error_code : N) (payload : list N) : list N :=
  write_u32 (HEADER_LEN + bytes_left payload) ++ write_u32 id ++ [FLAG_REPLY] ++ write_u16 error_code ++ payload.

Definition validate_jdwp_packet_length (length : N) : jres () :=
  _ <-- ensure (length <=? MAX_JDWP_PACKET_BYTES) (JdwpError.Protocol (Reason.PacketTooLarge length)) ;;
  ensure (HEADER_LEN <=? length) (JdwpError.Protocol (Reason.InvalidLength length)).

(** ** Signatures *)

(** [starts_with('L') && ends_with(';')], on a non-empty or an empty text. *)
Definition signature_to_tag (signature : str) : N := default 0x56 (head (as_bytes signature)).

Definition class_name_to_signature (class : str) : str :=
  if decide (head class = Some 0x4C /\ last class = Some 0x3B) then class
  else [0x4C] ++ ((fun c => if c =? 0x2E then 0x2F else c) <$> class) ++ [0x3B].

(** ** Round trips *)

(** The encoding of [a] exists, and the decoder takes it back, whatever follows. *)
Definition goes_round {A} (enc : run (list N)) (dec : list N -> jres (A * list N)) (a : A) : Prop :=
  exists bs, enc = Done bs /\ forall s, dec (bs ++ s) = wok (a, s).

Lemma read_bytes_app len p s : bytes_left p = len -> read_bytes len (p ++ s) = wok (p, s).
Proof.
  intros <-. unfold read_bytes. rewrite wbind_ensure by (apply N.leb_le; rewrite length_app; lia).
  rewrite Nat2N.id. by rewrite take_app_length, drop_app_length.
Qed.

Lemma read_uint_be k n s : n < 256 ^ N.of_nat k -> read_uint (N.of_nat k) (to_be_bytes k n ++ s) = wok (n, s).
Proof.
  intros Hn. unfold read_uint. rewrite read_bytes_app by (by rewrite length_to_be_bytes).
  rewrite wbind_wok. by rewrite from_to_be_bytes.
Qed.

Lemma to_signed_unsigned w z :
  0 < w -> (- 2 ^ (Z.of_N w - 1) <= z < 2 ^ (Z.of_N w - 1))%Z -> to_signed w (unsigned w z) = z.
Proof.
  intros Hw Hz. assert (H2 : (2 ^ Z.of_N w = 2 * 2 ^ (Z.of_N w - 1))%Z).
  { rewrite <-Z.pow_succ_r by lia. f_equal. lia. }
  pose proof (Z.pow_pos_nonneg 2 (Z.of_N w - 1) ltac:(lia) ltac:(lia)) as Hp.
  unfold to_signed, unsigned. pose proof (Z.mod_pos_bound z (2 ^ Z.of_N w) ltac:(lia)) as Hm.
  rewrite Z2N.id by lia. assert (Hc : Z.of_N (2 ^ (w - 1)) = (2 ^ (Z.of_N w - 1))%Z).
  { rewrite N2Z.inj_pow, N2Z.inj_sub by lia. done. }
  destruct (N.ltb_spec (Z.to_N (z mod 2 ^ Z.of_N w)) (2 ^ (w - 1))) as [Hlt|Hge];
    destruct (decide (0 <= z)%Z) as [H0|H0].
  - apply Z.mod_small. lia.
  - rewrite <-(Z_mod_plus_full z 1), Z.mod_small in Hlt by lia. lia.
  - rewrite Z.mod_small in Hge by lia. lia.
  - rewrite <-(Z_mod_plus_full z 1), Z.mod_small by lia. lia.
Qed.

Lemma unsigned_bound w z : unsigned w z < 2 ^ w.
Proof.
  unfold unsigned. pose proof (Z.mod_pos_bound z (2 ^ Z.of_N w) ltac:(apply Z.pow_pos_nonneg; lia)).
  apply N2Z.inj_lt. rewrite Z2N.id, N2Z.inj_pow by lia. simpl. lia.
Qed.

Lemma drop_to_be_bytes k n id : drop k (to_be_bytes (k + n) id) = to_be_bytes n id.
Proof.
  revert id. induction n as [|n IH]; intros id.
  - rewrite Nat.add_0_r. apply drop_ge. by rewrite length_to_be_bytes.
  - rewrite Nat.add_succ_r. cbn [to_be_bytes]. rewrite drop_app_le by (rewrite length_to_be_bytes; lia). by rewrite IH.
Qed.

Lemma from_be_zeros k bs : from_be_bytes (replicate k 0 ++ bs) = from_be_bytes bs.
Proof. unfold from_be_bytes. rewrite foldl_app. f_equal. induction k as [|k IH]; [done|exact IH]. Qed.

(** The widths that the reader accepts. *)
Definition good_size (size : N) : Prop := 0 < size <= 8.

Record good_sizes (sizes : JdwpIdSizes) : Prop := {
  good_field : good_size (sz_field_id sizes);
  good_method : good_size (sz_method_id sizes);
  good_object : good_size (sz_object_id sizes);
  good_reference : good_size (sz_reference_type_id sizes);
  good_frame : good_size (sz_frame_id sizes)
}.

Definition fits_id (id size : N) : Prop := id < 256 ^ size.

Lemma id_round id size : good_size size -> fits_id id size -> goes_round (write_id id size) (read_id size) id.
Proof.
  intros [H0 H8] Hid. unfold write_id. rewrite (proj2 (N.leb_le _ _) H8).
  exists (to_be_bytes (N.to_nat size) id). split.
  - replace 8%nat with (N.to_nat (8 - size) + N.to_nat size)%nat at 1 by lia. by rewrite drop_to_be_bytes.
  - intros s. unfold read_id. rewrite read_bytes_app by (rewrite length_to_be_bytes; lia). rewrite wbind_wok.
    rewrite wbind_ensure by (destruct (N.eqb_spec size 0), (N.ltb_spec 8 size); simpl; lia).
    rewrite from_be_zeros, from_to_be_bytes; [done|]. by rewrite N2Nat.id.
Qed.

Definition fits_string (s : str) : Prop := scalars s /\ bytes_left (as_bytes s) < 2 ^ 32.

Lemma string_round t s : fits_string t -> read_string (write_string t ++ s) = wok (t, s).
Proof.
  intros [Hs Hl]. unfold read_string, write_string. rewrite <-app_assoc.
  unfold read_u32, write_u32. rewrite (read_uint_be 4) by done. rewrite wbind_wok, read_bytes_app by done.
  rewrite wbind_wok. by rewrite from_utf8_complete.
Qed.

Definition fits_location (sizes : JdwpIdSizes) (loc : Location) : Prop :=
  is_byte (loc_type_tag loc) /\ fits_id (loc_class_id loc) (sz_reference_type_id sizes) /\
  fits_id (loc_method_id loc) (sz_method_id sizes) /\ loc_index loc < 2 ^ 64.

Lemma u8_round b s : is_byte b -> read_u8 (b :: s) = wok (b, s).
Proof. intros Hb. rewrite <-(read_uint_be 1 b s) by done. simpl. rewrite N.mod_small by done. done. Qed.

(** Runs an encoder or a decoder over what it has in front of it. *)
Ltac round_with H := let bs := fresh "bs" in let He := fresh "He" in let Hd := fresh "Hd" in
  destruct H as (bs & He & Hd); rewrite He; simpl.

Lemma location_round sizes loc :
  good_sizes sizes -> fits_location sizes loc ->
  goes_round (write_location loc sizes) (read_location sizes) loc.
Proof.
  intros Hg (Ht & Hc & Hm & Hi). unfold write_location, write_reference_type_id.
  round_with (id_round _ _ (good_reference _ Hg) Hc). round_with (id_round _ _ (good_method _ Hg) Hm).
  eexists. split; [reflexivity|]. intros s. unfold read_location, read_reference_type_id. simpl.
  rewrite u8_round, wbind_wok, <-!app_assoc, Hd, wbind_wok, Hd0, wbind_wok by done.
  unfold read_u64, write_u64. rewrite (read_uint_be 8) by done. by destruct loc.
Qed.

(** The tags of the values that are not objects. *)
Definition primitive_tags : list N := [0x5A; 0x42; 0x43; 0x53; 0x49; 0x4A; 0x46; 0x44; 0x56].

Definition is_int (w : N) (z : Z) : Prop := (- 2 ^ (Z.of_N w - 1) <= z < 2 ^ (Z.of_N w - 1))%Z.

(** The values that the types admit; an object has the tag of an object, and an id that fits. *)
Definition fits_value (sizes : JdwpIdSizes) (v : JdwpValue) : Prop :=
  match v with
  | JdwpValue.Boolean _ | JdwpValue.Void => True
  | JdwpValue.Byte v => is_int 8 v
  | JdwpValue.Char v => v < 2 ^ 16
  | JdwpValue.Short v => is_int 16 v
  | JdwpValue.Int v => is_int 32 v
  | JdwpValue.Long v => is_int 64 v
  | JdwpValue.Float bits => bits < 2 ^ 32
  | JdwpValue.Double bits => bits < 2 ^ 64
  | JdwpValue.Object tag id => is_byte tag /\ tag ∉ primitive_tags /\ fits_id id (sz_object_id sizes)
  end.

Lemma read_value_object tag sizes s :
  tag ∉ primitive_tags ->
  read_value tag sizes s = ('(id, s) <-- read_object_id sizes s ;; wok (JdwpValue.Object tag id, s)).
Proof.
  unfold primitive_tags. rewrite !not_elem_of_cons. intros Ht. destruct_and!.
  unfold read_value. destruct tag as [|p]; [done|]. repeat (destruct p as [p|p|]; try done).
Qed.

Lemma int_round w k z s : is_int w z -> 0 < w -> 2 ^ w = 256 ^ N.of_nat k ->
  ('(n, s) <-- read_uint (N.of_nat k) (to_be_bytes k (unsigned w z) ++ s) ;; wok (to_signed w n, s)) =
  (wok (z, s) : jres _).
Proof.
  intros Hz Hw Hk. rewrite read_uint_be, wbind_wok by (rewrite <-Hk; apply unsigned_bound).
  by rewrite to_signed_unsigned.
Qed.

Lemma value_round sizes v :
  good_sizes sizes -> fits_value sizes v ->
  goes_round (write_value v sizes) (read_value (tag_of v) sizes) v.
Proof.
  intros Hg Hv. destruct v as [v|v|v|v|v|v|v|v|tag id|]; simpl in Hv.
  1-8, 10: eexists; split; [reflexivity|]; intros s; cbn [tag_of read_value].
  - unfold read_bool, write_bool. simpl. rewrite u8_round by (by destruct v). by destruct v.
  - simpl. rewrite u8_round by (apply (unsigned_bound 8)). rewrite wbind_wok. by rewrite to_signed_unsigned.
  - unfold read_u16, write_u16. by rewrite (read_uint_be 2).
  - unfold read_u16, write_u16. rewrite (read_uint_be 2) by (apply (unsigned_bound 16)).
    rewrite wbind_wok. by rewrite to_signed_unsigned.
  - unfold read_i32, write_i32. by rewrite (int_round 32 4).
  - unfold read_i64, read_u64, write_i64. by rewrite (int_round 64 8).
  - unfold read_f32, write_f32. by rewrite (read_uint_be 4).
  - unfold read_f64, write_f64. by rewrite (read_uint_be 8).
  - done.
  - destruct Hv as (_ & Ht & Hid). unfold write_value, write_object_id.
    round_with (id_round _ _ (good_object _ Hg) Hid). exists bs. split; [done|]. intros s.
    simpl. rewrite read_value_object by done. unfold read_object_id. by rewrite Hd.
Qed.

Lemma tag_of_byte sizes v : fits_value sizes v -> is_byte (tag_of v).
Proof. destruct v; simpl; try done. by intros [? _]. Qed.

(** A tagged value survives the trip. *)
Lemma tagged_round sizes v :
  good_sizes sizes -> fits_value sizes v -> goes_round (write_tagged_value v sizes) (read_tagged_value sizes) v.
Proof.
  intros Hg Hv. unfold write_tagged_value. round_with (value_round sizes v Hg Hv).
  eexists. split; [reflexivity|]. intros s. unfold read_tagged_value. simpl.
  by rewrite u8_round, wbind_wok by (by eapply tag_of_byte).
Qed.

(** What the debugger client sends, a reader takes back.  With identifiers of one to eight
    bytes, the encoding of every value of the protocol with its tag exists and is read back to that
    value, and so is that of a location, whatever bytes follow; an object must not carry the tag of
    a primitive, and identifiers must fit the announced width. *)
Theorem jdwp_values_roundtrip sizes v loc :
  good_sizes sizes -> fits_value sizes v -> fits_location sizes loc ->
  goes_round (write_tagged_value v sizes) (read_tagged_value sizes) v /\
  goes_round (write_location loc sizes) (read_location sizes) loc.
Proof. intros Hg Hv Hl. split; [by apply tagged_round|by apply location_round]. Qed.

Definition odd_sizes : JdwpIdSizes := mkIdSizes 4 5 3 8 1.

Lemma odd_sizes_good : good_sizes odd_sizes.
Proof. by split. Qed.

Lemma jdwp_values_roundtrip_witness :
  goes_round (write_tagged_value (JdwpValue.Object 0x4C 0xABCDEF) odd_sizes) (read_tagged_value odd_sizes)
    (JdwpValue.Object 0x4C 0xABCDEF).
Proof.
  apply (jdwp_values_roundtrip odd_sizes _ (mkLocation 1 2 3 4) odd_sizes_good); [|by split_and!].
  split_and!; [done| |done]. unfold primitive_tags. rewrite !not_elem_of_cons. by split_and!; [..|apply not_elem_of_nil].
Defined.

(** Identifier widths outside one to eight bytes.  The client stores every width that the
    debugged machine announces.  For a width of zero or above eight the reader reports a protocol
    error, or the lack of bytes; but the writer panics for every width above eight, whatever the
    identifier, and writes nothing for width zero. *)
Theorem id_size_out_of_range size :
  size < 2 ^ 32 -> size = 0 \/ 8 < size ->
  (exists reply, forall rest, read_id_sizes (reply ++ rest) = wok (mkIdSizes size size size size size)) /\
  (forall s, exists why, read_id size s = protocol why) /\
  (forall id, write_id id size = if size =? 0 then Done [] else Panic).
Proof.
  intros H32 Hsz. split_and!.
  - exists (write_u32 size ++ write_u32 size ++ write_u32 size ++ write_u32 size ++ write_u32 size).
    intros rest. unfold read_id_sizes, read_u32, write_u32. rewrite <-!app_assoc.
    by repeat (rewrite (read_uint_be 4) by done; rewrite wbind_wok).
  - intros s. unfold read_id, read_bytes. destruct (size <=? bytes_left s); simpl; [|by eexists].
    assert (Hb : (size =? 0) || (8 <? size) = true) by (destruct (N.eqb_spec size 0), (N.ltb_spec 8 size); simpl; lia).
    rewrite Hb. by eexists.
  - intros id. unfold write_id. destruct Hsz as [->|H8]; [done|].
    rewrite (proj2 (N.leb_gt _ _) H8), (proj2 (N.eqb_neq _ _)) by lia. done.
Qed.

Lemma id_size_out_of_range_witness : write_id 1 9 = Panic.
Proof. exact (proj2 (proj2 (id_size_out_of_range 9 eq_refl (or_intror eq_refl))) 1). Defined.
