(* ===== verification/JdwpEvents.v ===== *)
(** * Debugger protocol: events (crates/nova-jdwp, wire/client.rs and wire/mock.rs)

    The requests for events with their modifiers, and the composite packets in which the debugged
    machine reports events.  [handle_event_packet] sends the events of a packet to two channels;
    the state records what was sent and whether the shutdown token was cancelled.  The receivers of
    a channel may lag or be gone, and the code ignores that: sending is appending. *)

From stdpp Require Import base numbers option list.
From S2P Require Import Prelude Str Utf8 ClassReader Wire JdwpCodec.

Local Open Scope N_scope.

(** ** Requests for events *)

Module EventModifier.
Inductive t :=
| Count (count : N)
| ThreadOnly (thread : N)
| ClassOnly (class_id : N)
| ClassMatch (pattern : str)
| ClassExclude (pattern : str)
| LocationOnly (location : Location)
| ExceptionOnly (exception_or_null : N) (caught uncaught : bool)
| FieldOnly (class_id field_id : N)
| Step (thread size depth : N)
| InstanceOnly (object_id : N)
| SourceNameMatch (pattern : str).
End EventModifier.
Notation EventModifier := EventModifier.t.

(** [EventModifier::encode]. *)
Definition encode_modifier (sizes : JdwpIdSizes) (m : EventModifier) : run (list N) :=
  match m with
  | EventModifier.Count count => Done (write_u8 1 ++ write_u32 count)
  | EventModifier.ThreadOnly thread => id ← write_object_id thread sizes; Done (write_u8 3 ++ id)
  | EventModifier.ClassOnly class_id => id ← write_reference_type_id class_id sizes; Done (write_u8 4 ++ id)
  | EventModifier.ClassMatch pattern => Done (write_u8 5 ++ write_string pattern)
  | EventModifier.ClassExclude pattern => Done (write_u8 6 ++ write_string pattern)
  | EventModifier.LocationOnly location => loc ← write_location location sizes; Done (write_u8 7 ++ loc)
  | EventModifier.ExceptionOnly exception_or_null caught uncaught =>
      id ← write_reference_type_id exception_or_null sizes;
      Done (write_u8 8 ++ id ++ write_bool caught ++ write_bool uncaught)
  | EventModifier.FieldOnly class_id field_id =>
      class ← write_reference_type_id class_id sizes;
      field ← write_id field_id (sz_field_id sizes);
      Done (write_u8 9 ++ class ++ field)
  | EventModifier.Step thread size depth =>
      id ← write_object_id thread sizes;
      Done (write_u8 10 ++ id ++ write_u32 size ++ write_u32 depth)
  | EventModifier.InstanceOnly object_id => id ← write_object_id object_id sizes; Done (write_u8 11 ++ id)
  | EventModifier.SourceNameMatch pattern => Done (write_u8 12 ++ write_string pattern)
  end.

Fixpoint encode_modifiers (sizes : JdwpIdSizes) (modifiers : list EventModifier) : run (list N) :=
  match modifiers with
  | [] => Done []
  | m :: modifiers =>
      bs ← encode_modifier sizes m; rest ← encode_modifiers sizes modifiers; Done (bs ++ rest)
  end.

(** The payload that [event_request_set] sends. *)
Definition event_request_payload (sizes : JdwpIdSizes) (event_kind suspend_policy : N) (modifiers : list EventModifier)
    : run (list N) :=
  bs ← encode_modifiers sizes modifiers;
  Done (write_u8 event_kind ++ write_u8 suspend_policy ++ write_u32 (N.of_nat (length modifiers)) ++ bs).

(** The scripted debuggee (wire/mock.rs) reads the request; a modifier of another kind has no
    operands and is skipped. *)
Definition read_modifier (sizes : JdwpIdSizes) (s : list N) : jres (option EventModifier * list N) :=
  '(mod_kind, s) <-- read_u8 s ;;
  match mod_kind with
  | 1 => '(count, s) <-- read_u32 s ;; wok (Some (EventModifier.Count count), s)
  | 3 => '(thread, s) <-- read_object_id sizes s ;; wok (Some (EventModifier.ThreadOnly thread), s)
  | 4 => '(class_id, s) <-- read_reference_type_id sizes s ;; wok (Some (EventModifier.ClassOnly class_id), s)
  | 5 => '(pattern, s) <-- read_string s ;; wok (Some (EventModifier.ClassMatch pattern), s)
  | 6 => '(pattern, s) <-- read_string s ;; wok (Some (EventModifier.ClassExclude pattern), s)
  | 7 => '(location, s) <-- read_location sizes s ;; wok (Some (EventModifier.LocationOnly location), s)
  | 8 =>
      '(exception_or_null, s) <-- read_reference_type_id sizes s ;;
      '(caught, s) <-- read_bool s ;;
      '(uncaught, s) <-- read_bool s ;;
      wok (Some (EventModifier.ExceptionOnly exception_or_null caught uncaught), s)
  | 9 =>
      '(class_id, s) <-- read_reference_type_id sizes s ;;
      '(field_id, s) <-- read_id (sz_field_id sizes) s ;;
      wok (Some (EventModifier.FieldOnly class_id field_id), s)
  | 10 =>
      '(thread, s) <-- read_object_id sizes s ;;
      '(size, s) <-- read_u32 s ;;
      '(depth, s) <-- read_u32 s ;;
      wok (Some (EventModifier.Step thread size depth), s)
  | 11 => '(object_id, s) <-- read_object_id sizes s ;; wok (Some (EventModifier.InstanceOnly object_id), s)
  | 12 => '(pattern, s) <-- read_string s ;; wok (Some (EventModifier.SourceNameMatch pattern), s)
  | _ => wok (None, s)
  end.

(** Every modifier takes a byte: [fuel] is one more than the bytes that are left. *)
Fixpoint read_modifiers (fuel : nat) (count : N) (sizes : JdwpIdSizes) (s : list N)
    : jres (list EventModifier * list N) :=
  if count =? 0 then wok ([], s)
  else
    match fuel with
    | O => OutOfFuel
    | S fuel =>
        '(m, s) <-- read_modifier sizes s ;;
        '(ms, s) <-- read_modifiers fuel (count - 1) sizes s ;;
        wok (option_list m ++ ms, s)
    end.

Definition read_event_request (sizes : JdwpIdSizes) (s : list N) : jres (N * N * list EventModifier) :=
  '(event_kind, s) <-- read_u8 s ;;
  '(suspend_policy, s) <-- read_u8 s ;;
  '(modifier_count, s) <-- read_u32 s ;;
  '(modifiers, _) <-- read_modifiers (S (length s)) modifier_count sizes s ;;
  wok (event_kind, suspend_policy, modifiers).

(** ** Events (wire/types.rs) *)

Module JdwpEvent.
Inductive t :=
| VmStart (request_id : Z) (thread : N)
| ThreadStart (request_id : Z) (thread : N)
| ThreadDeath (request_id : Z) (thread : N)
| Breakpoint (request_id : Z) (thread : N) (location : Location)
| SingleStep (request_id : Z) (thread : N) (location : Location)
| MethodExitWithReturnValue (request_id : Z) (thread : N) (location : Location) (value : JdwpValue)
| Exception (request_id : Z) (thread : N) (location : Location) (exception : N) (catch_location : option Location)
| ClassPrepare (request_id : Z) (thread ref_type_tag type_id : N) (signature : str) (status : N)
| ClassUnload (request_id : Z) (signature : str)
| FieldAccess (request_id : Z) (thread : N) (location : Location) (ref_type_tag type_id field_id object : N)
    (value : JdwpValue)
| FieldModification (request_id : Z) (thread : N) (location : Location) (ref_type_tag type_id field_id object : N)
    (value_current : option JdwpValue) (value_to_be : JdwpValue)
| VmDeath
| VmDisconnect.
End JdwpEvent.
Notation JdwpEvent := JdwpEvent.t.

Record JdwpEventEnvelope := mkEnvelope { env_suspend_policy : N; env_event : JdwpEvent }.

(** A catch location of zeroes means that the exception is not caught. *)
Definition catch_location_of (catch_loc : Location) : option Location :=
  if (loc_type_tag catch_loc =? 0) && (loc_class_id catch_loc =? 0) && (loc_method_id catch_loc =? 0)
     && (loc_index catch_loc =? 0)
  then None else Some catch_loc.

(** The operands of the two events on fields. *)
Definition read_field_operands (sizes : JdwpIdSizes) (s : list N)
    : jres (N * Location * N * N * N * N * JdwpValue * list N) :=
  '(thread, s) <-- read_object_id sizes s ;;
  '(location, s) <-- read_location sizes s ;;
  '(ref_type_tag, s) <-- read_u8 s ;;
  '(type_id, s) <-- read_reference_type_id sizes s ;;
  '(field_id, s) <-- read_id (sz_field_id sizes) s ;;
  '(object, s) <-- read_object_id sizes s ;;
  '(tag, s) <-- read_u8 s ;;
  '(value, s) <-- read_value tag sizes s ;;
  wok (thread, location, ref_type_tag, type_id, field_id, object, value, s).

(** The event of a kind; [None] for an unknown kind. *)
Definition read_event (sizes : JdwpIdSizes) (kind : N) (request_id : Z) (s : list N)
    : jres (option JdwpEvent * list N) :=
  match kind with
  | 1 =>
      '(thread, s) <-- read_object_id sizes s ;;
      '(location, s) <-- read_location sizes s ;;
      wok (Some (JdwpEvent.SingleStep request_id thread location), s)
  | 2 =>
      '(thread, s) <-- read_object_id sizes s ;;
      '(location, s) <-- read_location sizes s ;;
      wok (Some (JdwpEvent.Breakpoint request_id thread location), s)
  | 4 =>
      '(thread, s) <-- read_object_id sizes s ;;
      '(location, s) <-- read_location sizes s ;;
      '(exception, s) <-- read_object_id sizes s ;;
      '(catch_loc, s) <-- read_location sizes s ;;
      wok (Some (JdwpEvent.Exception request_id thread location exception (catch_location_of catch_loc)), s)
  | 6 => '(thread, s) <-- read_object_id sizes s ;; wok (Some (JdwpEvent.ThreadStart request_id thread), s)
  | 7 => '(thread, s) <-- read_object_id sizes s ;; wok (Some (JdwpEvent.ThreadDeath request_id thread), s)
  | 8 =>
      '(thread, s) <-- read_object_id sizes s ;;
      '(ref_type_tag, s) <-- read_u8 s ;;
      '(type_id, s) <-- read_reference_type_id sizes s ;;
      '(signature, s) <-- read_string s ;;
      '(status, s) <-- read_u32 s ;;
      wok (Some (JdwpEvent.ClassPrepare request_id thread ref_type_tag type_id signature status), s)
  | 9 => '(signature, s) <-- read_string s ;; wok (Some (JdwpEvent.ClassUnload request_id signature), s)
  | 20 =>
      '(thread, location, ref_type_tag, type_id, field_id, object, value, s) <-- read_field_operands sizes s ;;
      wok (Some (JdwpEvent.FieldAccess request_id thread location ref_type_tag type_id field_id object value), s)
  | 21 =>
      '(thread, location, ref_type_tag, type_id, field_id, object, value, s) <-- read_field_operands sizes s ;;
      wok (Some (JdwpEvent.FieldModification request_id thread location ref_type_tag type_id field_id object None value), s)
  | 42 =>
      '(thread, s) <-- read_object_id sizes s ;;
      '(location, s) <-- read_location sizes s ;;
      '(tag, s) <-- read_u8 s ;;
      '(value, s) <-- read_value tag sizes s ;;
      wok (Some (JdwpEvent.MethodExitWithReturnValue request_id thread location value), s)
  | 90 => '(thread, s) <-- read_object_id sizes s ;; wok (Some (JdwpEvent.VmStart request_id thread), s)
  | 99 => wok (Some JdwpEvent.VmDeath, s)
  | 100 => wok (Some JdwpEvent.VmDisconnect, s)
  | _ => wok (None, s)
  end.

(** ** Composite packets *)

Definition is_stop_event (event : JdwpEvent) : bool :=
  match event with
  | JdwpEvent.SingleStep _ _ _ | JdwpEvent.Breakpoint _ _ _ | JdwpEvent.Exception _ _ _ _ _
  | JdwpEvent.FieldAccess _ _ _ _ _ _ _ _ | JdwpEvent.FieldModification _ _ _ _ _ _ _ _ _ => true
  | _ => false
  end.

Definition is_disconnect (event : JdwpEvent) : bool :=
  match event with JdwpEvent.VmDisconnect => true | _ => false end.

(** What was sent to the two channels, and whether the shutdown token is cancelled. *)
Record Channels := mkChannels {
  ch_events : list JdwpEvent;
  ch_envelopes : list JdwpEventEnvelope;
  ch_shutdown : bool
}.

Definition send (suspend_policy : N) (st : Channels) (event : JdwpEvent) : Channels :=
  mkChannels (ch_events st ++ [event]) (ch_envelopes st ++ [mkEnvelope suspend_policy event]) (ch_shutdown st).

Definition cancel_on_disconnect (st : Channels) (event : JdwpEvent) : Channels :=
  mkChannels (ch_events st) (ch_envelopes st) (ch_shutdown st || is_disconnect event).

(** The head of an event and its operands. *)
Definition next_event (sizes : JdwpIdSizes) (s : list N) : jres (option JdwpEvent * list N) :=
  '(kind, s) <-- read_u8 s ;;
  '(request_id, s) <-- read_i32 s ;;
  read_event sizes kind request_id s.

(** The loop over the events; it returns the stop events that are still to be sent.  Every event
    takes five bytes at least: [fuel] is one more than the bytes that are left. *)
Fixpoint event_loop (fuel : nat) (count : N) (sizes : JdwpIdSizes) (suspend_policy : N)
    (stop_events : list JdwpEvent) (st : Channels) (s : list N)
    : run ((JdwpError.t + list JdwpEvent) * Channels) :=
  if count =? 0 then Done (inr stop_events, st)
  else
    match fuel with
    | O => OutOfFuel
    | S fuel =>
        match next_event sizes s with
        | Done (inl e) => Done (inl e, st)
        | Done (inr (None, _)) => Done (inr stop_events, st)
        | Done (inr (Some event, s)) =>
            let st := cancel_on_disconnect st event in
            if is_stop_event event then event_loop fuel (count - 1) sizes suspend_policy (stop_events ++ [event]) st s
            else event_loop fuel (count - 1) sizes suspend_policy stop_events (send suspend_policy st event) s
        | Panic => Panic
        | OutOfFuel => OutOfFuel
        end
    end.

Definition handle_event_packet (sizes : JdwpIdSizes) (payload : list N) (st : Channels)
    : run ((JdwpError.t + ()) * Channels) :=
  match ('(suspend_policy, s) <-- read_u8 payload ;; '(event_count, s) <-- read_u32 s ;; wok (suspend_policy, event_count, s)) with
  | Done (inl e) => Done (inl e, st)
  | Done (inr (suspend_policy, event_count, s)) =>
      res ← event_loop (S (length s)) event_count sizes suspend_policy [] st s;
      match res with
      | (inl e, st) => Done (inl e, st)
      | (inr stop_events, st) => Done (inr (), foldl (send suspend_policy) st stop_events)
      end
  | Panic => Panic
  | OutOfFuel => OutOfFuel
  end.

(** ** Reading consumes *)

(** The decoder returns; what it leaves is shorter by at least [k] bytes. *)
Definition consumes {A} (k : nat) (dec : list N -> jres (A * list N)) : Prop :=
  forall s, wpw (dec s) (fun '(_, s') => (length s' + k <= length s)%nat).

Lemma consumes_weaken {A} k k' (dec : list N -> jres (A * list N)) :
  (k' <= k)%nat -> consumes k dec -> consumes k' dec.
Proof. intros Hk H s. eapply wpw_mono; [apply H|]. intros [a s'] Hl. lia. Qed.

Lemma read_bytes_consumes len : consumes (N.to_nat len) (read_bytes len).
Proof.
  intros s. unfold read_bytes. apply wpw_ensure. intros Hl%N.leb_le. apply wpw_wok.
  rewrite length_drop. lia.
Qed.

Lemma read_uint_consumes len : consumes (N.to_nat len) (read_uint len).
Proof. intros s. unfold read_uint. eapply wpw_seq; [apply read_bytes_consumes|]. by intros [bs s'] Hl. Qed.

Lemma read_id_consumes size : consumes 0 (read_id size).
Proof.
  intros s. unfold read_id. eapply wpw_seq; [apply read_bytes_consumes|]. intros [bs s'] Hl.
  apply wpw_ensure. intros _. apply wpw_wok. lia.
Qed.

Create HintDb consume.

Lemma consume_seq {A B} k (dec : list N -> jres (A * list N)) (f : A * list N -> jres B) (Q : B -> Prop) s :
  consumes k dec -> (forall a s', (length s' + k <= length s)%nat -> wpw (f (a, s')) Q) -> wpw (wbind (dec s) f) Q.
Proof. intros Hd Hf. eapply wpw_seq; [apply Hd|]. intros [a s'] Hl. by apply Hf. Qed.

(** Walks through a decoder and adds up what it consumes. *)
Ltac destruct_pairs := repeat match goal with x : (_ * _)%type |- _ => destruct x end.
Ltac consume :=
  repeat (eapply consume_seq; [eauto with consume|]; intros ? ? ?; destruct_pairs); try (apply wpw_wok; lia).

Lemma read_u8_consumes : consumes 1 read_u8.
Proof. apply (read_uint_consumes 1). Qed.
Lemma read_u16_consumes : consumes 2 read_u16.
Proof. apply (read_uint_consumes 2). Qed.
Lemma read_u32_consumes : consumes 4 read_u32.
Proof. apply (read_uint_consumes 4). Qed.
Lemma read_u64_consumes : consumes 8 read_u64.
Proof. apply (read_uint_consumes 8). Qed.
#[export] Hint Resolve read_bytes_consumes read_uint_consumes read_id_consumes read_u8_consumes read_u16_consumes
  read_u32_consumes read_u64_consumes : consume.

Lemma read_bool_consumes : consumes 1 read_bool.
Proof. intros s. unfold read_bool. consume. Qed.
Lemma read_i32_consumes : consumes 4 read_i32.
Proof. intros s. unfold read_i32. eapply (consume_seq 4); [apply (read_uint_consumes 4)|]. intros. apply wpw_wok. lia. Qed.
Lemma read_i64_consumes : consumes 8 read_i64.
Proof. intros s. unfold read_i64. consume. Qed.
Lemma read_f32_consumes : consumes 4 read_f32.
Proof. apply (read_uint_consumes 4). Qed.
Lemma read_f64_consumes : consumes 8 read_f64.
Proof. apply (read_uint_consumes 8). Qed.
Lemma read_object_id_consumes sizes : consumes 0 (read_object_id sizes).
Proof. apply read_id_consumes. Qed.
Lemma read_reference_type_id_consumes sizes : consumes 0 (read_reference_type_id sizes).
Proof. apply read_id_consumes. Qed.
#[export] Hint Resolve read_bool_consumes read_i32_consumes read_i64_consumes read_f32_consumes read_f64_consumes
  read_object_id_consumes read_reference_type_id_consumes : consume.

Lemma read_string_consumes : consumes 4 read_string.
Proof. intros s. unfold read_string. consume. by case_match; [apply wpw_wok; lia|]. Qed.
Lemma read_location_consumes sizes : consumes 0 (read_location sizes).
Proof. intros s. unfold read_location. consume. Qed.
Lemma read_value_consumes tag sizes : consumes 0 (read_value tag sizes).
Proof.
  intros s. unfold read_value. destruct tag as [|p]; [consume|].
  repeat (destruct p as [p|p|]; try (solve [consume])).
Qed.
#[export] Hint Resolve read_string_consumes read_location_consumes read_value_consumes : consume.

Lemma read_modifier_consumes sizes : consumes 1 (read_modifier sizes).
Proof.
  intros s. unfold read_modifier. consume. destruct a as [|p]; [consume|].
  repeat (destruct p as [p|p|]; try (solve [consume])).
Qed.
Lemma read_field_operands_consumes sizes : consumes 0 (read_field_operands sizes).
Proof. intros s. unfold read_field_operands. consume. Qed.
#[export] Hint Resolve read_field_operands_consumes : consume.
Lemma read_event_consumes sizes kind request_id : consumes 0 (read_event sizes kind request_id).
Proof.
  intros s. unfold read_event. destruct kind as [|p]; [consume|].
  repeat (destruct p as [p|p|]; try (solve [consume])).
Qed.
#[export] Hint Resolve read_modifier_consumes read_event_consumes : consume.

Lemma next_event_consumes sizes : consumes 5 (next_event sizes).
Proof.
  intros s. unfold next_event. consume. eapply wpw_mono; [apply read_event_consumes|]. intros [e s2] Hl. lia.
Qed.

(** ** What a packet sends *)

(** The state after [events] are sent, in this order. *)
Definition sent (policy : N) (st : Channels) (events : list JdwpEvent) : Channels :=
  mkChannels (ch_events st ++ events) (ch_envelopes st ++ (mkEnvelope policy <$> events))
    (ch_shutdown st || existsb is_disconnect events).

Definition stops (events : list JdwpEvent) : list JdwpEvent := filter (fun e => is_stop_event e = true) events.
Definition others (events : list JdwpEvent) : list JdwpEvent := filter (fun e => is_stop_event e = false) events.

Lemma sent_app policy st l k : sent policy (sent policy st l) k = sent policy st (l ++ k).
Proof. unfold sent. simpl. by rewrite fmap_app, existsb_app, !app_assoc, orb_assoc. Qed.

Lemma sent_nil policy st : sent policy st [] = st.
Proof. unfold sent. simpl. rewrite !app_nil_r, orb_false_r. by destruct st. Qed.

Lemma stop_not_disconnect e : is_stop_event e = true -> is_disconnect e = false.
Proof. by destruct e. Qed.

Lemma send_stops policy st l :
  Forall (fun e => is_stop_event e = true) l -> foldl (send policy) st l = sent policy st l.
Proof.
  intros Hl. revert st. induction Hl as [|e l He _ IH]; intros st; [by rewrite sent_nil|].
  cbn [foldl]. rewrite IH. change (e :: l) with ([e] ++ l). rewrite <-sent_app. f_equal.
  unfold send, sent. simpl. by rewrite (stop_not_disconnect e He), !orb_false_r.
Qed.

Lemma send_other policy st e : is_stop_event e = false -> send policy (cancel_on_disconnect st e) e = sent policy st [e].
Proof. intros _. unfold send, cancel_on_disconnect, sent. simpl. by rewrite orb_false_r. Qed.

Lemma cancel_stop st e : is_stop_event e = true -> cancel_on_disconnect st e = st.
Proof. intros He. unfold cancel_on_disconnect. rewrite (stop_not_disconnect e He), orb_false_r. by destruct st. Qed.

(** The events that a loop reads: [count] of them, or up to an unknown kind, or up to an error. *)
Inductive reads (sizes : JdwpIdSizes) : N -> list N -> list JdwpEvent -> option JdwpError.t -> Prop :=
| reads_all s : reads sizes 0 s [] None
| reads_error count s e : 0 < count -> next_event sizes s = werr e -> reads sizes count s [] (Some e)
| reads_unknown count s s' : 0 < count -> next_event sizes s = wok (None, s') -> reads sizes count s [] None
| reads_event count s event s' events r :
    0 < count -> next_event sizes s = wok (Some event, s') -> reads sizes (count - 1) s' events r ->
    reads sizes count s (event :: events) r.

(** The loop sends the events that do not stop, and returns the others. *)
Lemma event_loop_exact fuel : forall count sizes policy stop st s,
  (length s < fuel)%nat -> exists events r,
    reads sizes count s events r /\
    event_loop fuel count sizes policy stop st s =
      Done (match r with Some e => inl e | None => inr (stop ++ stops events) end, sent policy st (others events)).
Proof.
  induction fuel as [|fuel IH]; intros count sizes policy stop st s Hf; [lia|]. cbn [event_loop].
  destruct (N.eqb_spec count 0) as [->|H0].
  { exists [], None. split; [constructor|]. simpl. by rewrite app_nil_r, sent_nil. }
  pose proof (next_event_consumes sizes s) as Hc.
  destruct (next_event sizes s) as [[e|[[event|] s']]| |] eqn:Hn; try done.
  - exists [], (Some e). split; [by constructor; [lia|]|]. simpl. by rewrite sent_nil.
  - assert (Hs : (length s' + 5 <= length s)%nat) by exact Hc.
    destruct (is_stop_event event) eqn:Hstop.
    + destruct (IH (count - 1) sizes policy (stop ++ [event]) (cancel_on_disconnect st event) s') as (es & r & Hr & ->); [lia|].
      exists (event :: es), r. split; [by econstructor; [lia|..]|]. unfold stops, others.
      rewrite filter_cons_True, filter_cons_False, cancel_stop by congruence. by rewrite <-app_assoc.
    + destruct (IH (count - 1) sizes policy stop (send policy (cancel_on_disconnect st event) event) s') as (es & r & Hr & ->); [lia|].
      exists (event :: es), r. split; [by econstructor; [lia|..]|]. unfold stops, others.
      rewrite filter_cons_False, filter_cons_True, send_other, sent_app by congruence. done.
  - exists [], None. split; [by eapply reads_unknown; [lia|]|]. simpl. by rewrite app_nil_r, sent_nil.
Qed.

Lemma read_uint_inv len s :
  match read_uint len s with
  | Done (inl _) => bytes_left s < len
  | Done (inr (_, s')) => bytes_left s = bytes_left s' + len
  | _ => False
  end.
Proof.
  unfold read_uint, read_bytes. destruct (N.leb_spec len (bytes_left s)); simpl; [|done]. rewrite length_drop. lia.
Qed.

(** What [handle_event_packet] does with any payload. *)
Lemma handle_event_packet_exact sizes payload st :
  (exists e, handle_event_packet sizes payload st = Done (inl e, st) /\ (length payload < 5)%nat) \/
  exists policy s1 count s2 events r,
    read_u8 payload = wok (policy, s1) /\ read_u32 s1 = wok (count, s2) /\ reads sizes count s2 events r /\
    handle_event_packet sizes payload st =
      match r with
      | Some e => Done (inl e, sent policy st (others events))
      | None => Done (inr (), sent policy st (others events ++ stops events))
      end.
Proof.
  unfold handle_event_packet. pose proof (read_uint_inv 1 payload) as H1. change (read_uint 1) with read_u8 in H1.
  destruct (read_u8 payload) as [[e|[policy s1]]| |] eqn:E1; [left; exists e; split; [done|lia]| |done..].
  pose proof (read_uint_inv 4 s1) as H4. change (read_uint 4) with read_u32 in H4. cbn [wbind].
  destruct (read_u32 s1) as [[e|[count s2]]| |] eqn:E4; [left; exists e; split; [done|lia]| |done..].
  right. exists policy, s1, count, s2. cbv beta iota delta [wbind wok].
  destruct (event_loop_exact (S (length s2)) count sizes policy [] st s2) as (events & r & Hr & ->); [lia|].
  exists events, r. split_and!; [done..|]. simpl. destruct r as [e|]; [done|].
  rewrite send_stops by (apply Forall_forall; intros e [He _]%list_elem_of_filter; done). by rewrite sent_app.
Qed.

(** Composite packets are taken apart in full and stops come last.  [handle_event_packet] always
    returns, whatever the payload and the widths.  A payload too short for its head changes
    nothing.  Otherwise it reads the announced number of events, up to an unknown kind or an
    error; it sends the events that do not stop the program in the order of the packet and, unless
    there was an error, after them the ones that do, in their order, each to both channels and with
    the suspend policy of the packet; the shutdown token is cancelled if the machine disconnects. *)
Theorem event_packet_order sizes payload st :
  (exists e, handle_event_packet sizes payload st = Done (inl e, st) /\ (length payload < 5)%nat) \/
  exists policy s1 count s2 events r,
    read_u8 payload = wok (policy, s1) /\ read_u32 s1 = wok (count, s2) /\ reads sizes count s2 events r /\
    handle_event_packet sizes payload st =
      match r with
      | Some e => Done (inl e, sent policy st (others events))
      | None => Done (inr (), sent policy st (others events ++ stops events))
      end.
Proof. apply handle_event_packet_exact. Qed.

(** ** The encoding of a packet, as the protocol describes it *)

Definition no_location : Location := mkLocation 0 0 0 0.

Definition event_kind (e : JdwpEvent) : N :=
  match e with
  | JdwpEvent.SingleStep _ _ _ => 1
  | JdwpEvent.Breakpoint _ _ _ => 2
  | JdwpEvent.Exception _ _ _ _ _ => 4
  | JdwpEvent.ThreadStart _ _ => 6
  | JdwpEvent.ThreadDeath _ _ => 7
  | JdwpEvent.ClassPrepare _ _ _ _ _ _ => 8
  | JdwpEvent.ClassUnload _ _ => 9
  | JdwpEvent.FieldAccess _ _ _ _ _ _ _ _ => 20
  | JdwpEvent.FieldModification _ _ _ _ _ _ _ _ _ => 21
  | JdwpEvent.MethodExitWithReturnValue _ _ _ _ => 42
  | JdwpEvent.VmStart _ _ => 90
  | JdwpEvent.VmDeath => 99
  | JdwpEvent.VmDisconnect => 100
  end.

Definition event_request (e : JdwpEvent) : Z :=
  match e with
  | JdwpEvent.SingleStep r _ _ | JdwpEvent.Breakpoint r _ _ | JdwpEvent.Exception r _ _ _ _
  | JdwpEvent.ThreadStart r _ | JdwpEvent.ThreadDeath r _ | JdwpEvent.ClassPrepare r _ _ _ _ _
  | JdwpEvent.ClassUnload r _ | JdwpEvent.FieldAccess r _ _ _ _ _ _ _
  | JdwpEvent.FieldModification r _ _ _ _ _ _ _ _ | JdwpEvent.MethodExitWithReturnValue r _ _ _
  | JdwpEvent.VmStart r _ => r
  | JdwpEvent.VmDeath | JdwpEvent.VmDisconnect => 0%Z
  end.

Definition field_operands (sizes : JdwpIdSizes) (thread : N) (location : Location)
    (ref_type_tag type_id field_id object : N) (value : JdwpValue) : run (list N) :=
  t ← write_object_id thread sizes;
  l ← write_location location sizes;
  r ← write_reference_type_id type_id sizes;
  f ← write_id field_id (sz_field_id sizes);
  o ← write_object_id object sizes;
  v ← write_tagged_value value sizes;
  Done (t ++ l ++ write_u8 ref_type_tag ++ r ++ f ++ o ++ v).

Definition event_operands (sizes : JdwpIdSizes) (e : JdwpEvent) : run (list N) :=
  match e with
  | JdwpEvent.SingleStep _ thread location | JdwpEvent.Breakpoint _ thread location =>
      t ← write_object_id thread sizes; l ← write_location location sizes; Done (t ++ l)
  | JdwpEvent.Exception _ thread location exception catch_location =>
      t ← write_object_id thread sizes;
      l ← write_location location sizes;
      x ← write_object_id exception sizes;
      c ← write_location (default no_location catch_location) sizes;
      Done (t ++ l ++ x ++ c)
  | JdwpEvent.ThreadStart _ thread | JdwpEvent.ThreadDeath _ thread | JdwpEvent.VmStart _ thread =>
      write_object_id thread sizes
  | JdwpEvent.ClassPrepare _ thread ref_type_tag type_id signature status =>
      t ← write_object_id thread sizes;
      r ← write_reference_type_id type_id sizes;
      Done (t ++ write_u8 ref_type_tag ++ r ++ write_string signature ++ write_u32 status)
  | JdwpEvent.ClassUnload _ signature => Done (write_string signature)
  | JdwpEvent.FieldAccess _ thread location ref_type_tag type_id field_id object value
  | JdwpEvent.FieldModification _ thread location ref_type_tag type_id field_id object _ value =>
      field_operands sizes thread location ref_type_tag type_id field_id object value
  | JdwpEvent.MethodExitWithReturnValue _ thread location value =>
      t ← write_object_id thread sizes;
      l ← write_location location sizes;
      v ← write_tagged_value value sizes;
      Done (t ++ l ++ v)
  | JdwpEvent.VmDeath | JdwpEvent.VmDisconnect => Done []
  end.

Definition event_bytes (sizes : JdwpIdSizes) (e : JdwpEvent) : run (list N) :=
  ops ← event_operands sizes e; Done (write_u8 (event_kind e) ++ write_i32 (event_request e) ++ ops).

(** The events that a machine can report with these widths. *)
Definition fits_event (sizes : JdwpIdSizes) (e : JdwpEvent) : Prop :=
  let object id := fits_id id (sz_object_id sizes) in
  is_int 32 (event_request e) /\
  match e with
  | JdwpEvent.SingleStep _ thread location | JdwpEvent.Breakpoint _ thread location =>
      object thread /\ fits_location sizes location
  | JdwpEvent.Exception _ thread location exception catch_location =>
      object thread /\ fits_location sizes location /\ object exception /\
      from_option (fun l => fits_location sizes l /\ l <> no_location) True catch_location
  | JdwpEvent.ThreadStart _ thread | JdwpEvent.ThreadDeath _ thread | JdwpEvent.VmStart _ thread => object thread
  | JdwpEvent.ClassPrepare _ thread ref_type_tag type_id signature status =>
      object thread /\ is_byte ref_type_tag /\ fits_id type_id (sz_reference_type_id sizes) /\
      fits_string signature /\ status < 2 ^ 32
  | JdwpEvent.ClassUnload _ signature => fits_string signature
  | JdwpEvent.FieldAccess _ thread location ref_type_tag type_id field_id obj value =>
      object thread /\ fits_location sizes location /\ is_byte ref_type_tag /\
      fits_id type_id (sz_reference_type_id sizes) /\ fits_id field_id (sz_field_id sizes) /\ object obj /\
      fits_value sizes value
  | JdwpEvent.FieldModification _ thread location ref_type_tag type_id field_id obj value_current value =>
      object thread /\ fits_location sizes location /\ is_byte ref_type_tag /\
      fits_id type_id (sz_reference_type_id sizes) /\ fits_id field_id (sz_field_id sizes) /\ object obj /\
      fits_value sizes value /\ value_current = None
  | JdwpEvent.MethodExitWithReturnValue _ thread location value =>
      object thread /\ fits_location sizes location /\ fits_value sizes value
  | JdwpEvent.VmDeath | JdwpEvent.VmDisconnect => True
  end.

(** ** Packets that a machine sends *)

Lemma i32_round z s : is_int 32 z -> read_i32 (write_i32 z ++ s) = wok (z, s).
Proof. intros Hz. unfold read_i32, write_i32. by rewrite (int_round 32 4). Qed.

Lemma u32_round n s : n < 2 ^ 32 -> read_u32 (write_u32 n ++ s) = wok (n, s).
Proof. intros Hn. unfold read_u32, write_u32. by rewrite (read_uint_be 4). Qed.

Lemma bool_round b s : read_bool ((if b : bool then 1 else 0) :: s) = wok (b, s).
Proof. unfold read_bool. rewrite u8_round by (by destruct b). by destruct b. Qed.

Lemma tagged_split sizes v : good_sizes sizes -> fits_value sizes v ->
  exists bs, write_tagged_value v sizes = Done (tag_of v :: bs) /\ is_byte (tag_of v) /\
    forall s, read_value (tag_of v) sizes (bs ++ s) = wok (v, s).
Proof.
  intros Hg Hv. unfold write_tagged_value. destruct (value_round sizes v Hg Hv) as (bs & -> & Hd).
  exists bs. split_and!; [done|by eapply tag_of_byte|done].
Qed.

Section Round.
Context (sizes : JdwpIdSizes) (Hg : good_sizes sizes).

Lemma object_round id : fits_id id (sz_object_id sizes) -> goes_round (write_object_id id sizes) (read_object_id sizes) id.
Proof. apply id_round, Hg. Qed.
Lemma reference_round id :
  fits_id id (sz_reference_type_id sizes) -> goes_round (write_reference_type_id id sizes) (read_reference_type_id sizes) id.
Proof. apply id_round, Hg. Qed.
Lemma field_round id : fits_id id (sz_field_id sizes) -> goes_round (write_id id (sz_field_id sizes)) (read_id (sz_field_id sizes)) id.
Proof. apply id_round, Hg. Qed.
End Round.

(** Runs the encoder; the bytes of each part stay with their round trip. *)
Ltac enc_with H := let bs := fresh "bs" in let Hd := fresh "Hd" in
  destruct H as (bs & -> & Hd); cbn [mbind run_bind].
Ltac encode :=
  repeat match goal with
  | Hg : good_sizes ?sz |- context [write_object_id ?id ?sz] => enc_with (object_round sz Hg id ltac:(assumption))
  | Hg : good_sizes ?sz |- context [write_reference_type_id ?id ?sz] => enc_with (reference_round sz Hg id ltac:(assumption))
  | Hg : good_sizes ?sz |- context [write_id ?id (sz_field_id ?sz)] => enc_with (field_round sz Hg id ltac:(assumption))
  | Hg : good_sizes ?sz |- context [write_location ?l ?sz] => enc_with (location_round sz l Hg ltac:(assumption))
  | Hg : good_sizes ?sz, Hv : fits_value ?sz ?v |- context [write_tagged_value ?v ?sz] =>
      let bs := fresh "bs" in let Hd := fresh "Hd" in
      destruct (tagged_split sz v Hg Hv) as (bs & -> & ? & Hd); cbn [mbind run_bind]
  end; eexists; (split; [reflexivity|]); intros ?.
(** Runs the decoder over the encoding. *)
Ltac decode_bytes :=
  rewrite <- ?app_assoc; cbn [app write_u8 write_bool]; rewrite <- ?app_assoc;
  repeat (first
    [ rewrite wbind_wok
    | match goal with H : forall s, _ (?bs ++ s) = wok _ |- context [?bs ++ ?t] => rewrite (H t) end
    | rewrite u8_round by done
    | rewrite bool_round
    | rewrite i32_round by done
    | rewrite u32_round by done
    | rewrite string_round by done ]; cbn [app]; rewrite <- ?app_assoc; cbn [app]).

Lemma catch_location_round l : l <> no_location -> catch_location_of l = Some l.
Proof.
  intros Hl. unfold catch_location_of. destruct l as [t c m i]. cbn.
  destruct (N.eqb_spec t 0) as [->|], (N.eqb_spec c 0) as [->|], (N.eqb_spec m 0) as [->|], (N.eqb_spec i 0) as [->|]; done.
Qed.

Lemma no_location_fits sizes : fits_location sizes no_location.
Proof.
  unfold fits_location, no_location, fits_id; simpl. split_and!; try done; apply N.neq_0_lt_0, N.pow_nonzero; lia.
Qed.

Lemma catch_fits sizes o :
  from_option (fun l => fits_location sizes l /\ l <> no_location) True o ->
  fits_location sizes (default no_location o) /\ catch_location_of (default no_location o) = o.
Proof.
  destruct o as [l|]; simpl; [|split; [apply no_location_fits|done]].
  intros [Hf Hl]. split; [done|by apply catch_location_round].
Qed.

Lemma operands_round sizes e : good_sizes sizes -> fits_event sizes e ->
  goes_round (event_operands sizes e) (read_event sizes (event_kind e) (event_request e)) (Some e).
Proof.
  intros Hg [_ He]. unfold goes_round. destruct e; simpl in He; destruct_and?; unfold event_operands, field_operands.
  7: match goal with H : from_option _ _ _ |- _ => apply catch_fits in H as [? Hc] end.
  all: encode; cbn [event_kind event_request]; unfold read_event, read_field_operands; decode_bytes; try done.
  - by rewrite Hc.
  - by subst.
Qed.

Lemma event_round sizes e : good_sizes sizes -> fits_event sizes e ->
  goes_round (event_bytes sizes e) (next_event sizes) (Some e).
Proof.
  intros Hg He. unfold event_bytes. destruct (operands_round sizes e Hg He) as (ops & -> & Hd).
  destruct He as [Hr _]. eexists. split; [reflexivity|]. intros s. unfold next_event.
  cbn [app write_u8]. rewrite u8_round by (by destruct e). decode_bytes. done.
Qed.

Fixpoint events_bytes (sizes : JdwpIdSizes) (es : list JdwpEvent) : run (list N) :=
  match es with
  | [] => Done []
  | e :: es => bs ← event_bytes sizes e; rest ← events_bytes sizes es; Done (bs ++ rest)
  end.

Lemma reads_events sizes es tail :
  good_sizes sizes -> Forall (fits_event sizes) es ->
  exists bs, events_bytes sizes es = Done bs /\
    forall es' r, reads sizes (N.of_nat (length es)) (bs ++ tail) es' r -> es' = es /\ r = None.
Proof.
  intros Hg. induction 1 as [|e es He _ (rest & Hrest & IH)]; cbn [events_bytes].
  - exists []. split; [done|]. intros es' r Hr. inversion Hr; subst; [done|by simpl in *..].
  - destruct (event_round sizes e Hg He) as (bs & -> & Hd). rewrite Hrest. cbn [mbind run_bind].
    exists (bs ++ rest). split; [done|]. intros es' r Hr. rewrite <-app_assoc in Hr.
    inversion Hr as [|? ? ? ? Hn|? ? ? ? Hn|? ? ev s' es1 r1 ? Hn Hr1]; subst; rewrite Hd in Hn; try discriminate.
    injection Hn as <- <-. replace (N.of_nat (length (e :: es)) - 1) with (N.of_nat (length es)) in Hr1 by (simpl; lia).
    by destruct (IH _ _ Hr1) as [-> ->].
Qed.

(** Every event of a well-formed packet is delivered.  For a packet that encodes a list of
    events as the protocol describes, [handle_event_packet] reports no error and sends exactly these
    events: first those that do not stop the program, then those that do, each group in the order
    of the packet, under its suspend policy; bytes after the last event are ignored. *)
Theorem event_packet_delivers sizes policy es st tail :
  good_sizes sizes -> is_byte policy -> N.of_nat (length es) < 2 ^ 32 -> Forall (fits_event sizes) es ->
  exists bs, events_bytes sizes es = Done bs /\
    handle_event_packet sizes (policy :: write_u32 (N.of_nat (length es)) ++ bs ++ tail) st =
      Done (inr (), sent policy st (others es ++ stops es)).
Proof.
  intros Hg Hp Hlen Hes. destruct (reads_events sizes es tail Hg Hes) as (bs & Hbs & Hreads).
  exists bs. split; [done|]. unfold handle_event_packet. rewrite u8_round, wbind_wok, u32_round, wbind_wok by done.
  unfold wok.
  destruct (event_loop_exact (S (length (bs ++ tail))) (N.of_nat (length es)) sizes policy [] st (bs ++ tail))
    as (es' & r & Hr & ->); [lia|].
  destruct (Hreads _ _ Hr) as [-> ->]. simpl.
  rewrite send_stops by (apply Forall_forall; intros e [He _]%list_elem_of_filter; done). by rewrite sent_app.
Qed.

(** A breakpoint before the exit of a method, from a machine with odd widths. *)
Definition sample_stop : JdwpEvent := JdwpEvent.Breakpoint 7 0x111 (mkLocation 1 2 3 4).
Definition sample_exit : JdwpEvent :=
  JdwpEvent.MethodExitWithReturnValue (-1) 0x111 (mkLocation 1 2 3 5) (JdwpValue.Int (-42)).

Lemma event_packet_delivers_witness : exists bs,
  events_bytes odd_sizes [sample_stop; sample_exit] = Done bs /\
  handle_event_packet odd_sizes (2 :: write_u32 2 ++ bs ++ []) (mkChannels [] [] false) =
    Done (inr (), mkChannels [sample_exit; sample_stop] [mkEnvelope 2 sample_exit; mkEnvelope 2 sample_stop] false).
Proof.
  refine (event_packet_delivers odd_sizes 2 [sample_stop; sample_exit] (mkChannels [] [] false) []
    odd_sizes_good eq_refl eq_refl _).
  repeat apply Forall_cons_2; [| |apply Forall_nil_2]; repeat split; vm_compute; done.
Defined.

(** *** Requests *)

Definition fits_modifier (sizes : JdwpIdSizes) (m : EventModifier) : Prop :=
  let object id := fits_id id (sz_object_id sizes) in
  let reference id := fits_id id (sz_reference_type_id sizes) in
  match m with
  | EventModifier.Count count => count < 2 ^ 32
  | EventModifier.ThreadOnly id | EventModifier.InstanceOnly id => object id
  | EventModifier.ClassOnly id => reference id
  | EventModifier.ClassMatch p | EventModifier.ClassExclude p | EventModifier.SourceNameMatch p => fits_string p
  | EventModifier.LocationOnly l => fits_location sizes l
  | EventModifier.ExceptionOnly id _ _ => reference id
  | EventModifier.FieldOnly class_id field_id => reference class_id /\ fits_id field_id (sz_field_id sizes)
  | EventModifier.Step thread size depth => object thread /\ size < 2 ^ 32 /\ depth < 2 ^ 32
  end.

Lemma modifier_round sizes m : good_sizes sizes -> fits_modifier sizes m ->
  goes_round (encode_modifier sizes m) (read_modifier sizes) (Some m).
Proof.
  intros Hg Hm. unfold goes_round. destruct m; simpl in Hm; destruct_and?; unfold encode_modifier; encode;
    unfold read_modifier; decode_bytes; done.
Qed.

Lemma modifiers_round sizes ms : good_sizes sizes -> Forall (fits_modifier sizes) ms ->
  exists bs, encode_modifiers sizes ms = Done bs /\ (length ms <= length bs)%nat /\
    forall fuel s, (length ms <= fuel)%nat -> read_modifiers fuel (N.of_nat (length ms)) sizes (bs ++ s) = wok (ms, s).
Proof.
  intros Hg. induction 1 as [|m ms Hm _ (rest & Hrest & Hl & IH)]; cbn [encode_modifiers].
  { exists []. split_and!; [done|done|]. by intros [|fuel] s _. }
  destruct (modifier_round sizes m Hg Hm) as (bs & -> & Hd). rewrite Hrest. cbn [mbind run_bind].
  exists (bs ++ rest). split_and!; [done| |].
  - pose proof (read_modifier_consumes sizes (bs ++ [])) as Hc. rewrite Hd in Hc. change (0 + 1 <= length (bs ++ []))%nat in Hc.
    rewrite app_nil_r in Hc. rewrite length_app. simpl. lia.
  - intros [|fuel] s Hf; [simpl in Hf; lia|]. cbn [read_modifiers].
    rewrite (proj2 (N.eqb_neq _ 0)) by (simpl; lia). rewrite <-app_assoc, Hd, wbind_wok.
    replace (N.of_nat (length (m :: ms)) - 1) with (N.of_nat (length ms)) by (simpl; lia).
    rewrite IH by (simpl in Hf; lia). done.
Qed.

(** The debuggee understands the request for an event.  The payload that [event_request_set]
    builds exists, and the scripted debuggee reads from it the same event kind, suspend policy and
    modifiers, all eleven kinds of them. *)
Theorem event_request_roundtrip sizes kind policy ms :
  good_sizes sizes -> is_byte kind -> is_byte policy -> N.of_nat (length ms) < 2 ^ 32 ->
  Forall (fits_modifier sizes) ms ->
  exists payload, event_request_payload sizes kind policy ms = Done payload /\
    read_event_request sizes payload = wok (kind, policy, ms).
Proof.
  intros Hg Hk Hp Hlen Hms. unfold event_request_payload.
  destruct (modifiers_round sizes ms Hg Hms) as (bs & -> & Hl & Hd). eexists. split; [reflexivity|].
  unfold read_event_request. decode_bytes. rewrite <-(app_nil_r bs), Hd by (rewrite length_app; lia). done.
Qed.

Lemma event_request_roundtrip_witness : exists payload,
  event_request_payload odd_sizes 1 2 [EventModifier.Step 5 1 0; EventModifier.ClassMatch [0x61; 0x2A]] = Done payload /\
  read_event_request odd_sizes payload = wok (1, 2, [EventModifier.Step 5 1 0; EventModifier.ClassMatch [0x61; 0x2A]]).
Proof.
  apply (event_request_roundtrip odd_sizes 1 2 _ odd_sizes_good); [done..|].
  repeat apply Forall_cons_2; [| |apply Forall_nil_2]; repeat split; try done. by repeat constructor.
Defined.
