(* ===== verification/JdwpClient.v ===== *)
(** * Debugger protocol: the client (crates/nova-jdwp, wire/client.rs)

    Requests, replies and events over one connection.  [send_command_raw] runs once per request, in
    a task of its own; [read_loop] runs in another one; they share the table of pending requests,
    the writer behind a lock and the shutdown token.  The model is a transition system: a step is
    what one task does between two points where others may run, in any order.  A request may be
    dropped at each point where it waits.  Bytes arrive and the connection closes at any time.
    The [select!] of a request polls its reply first and the token after it, in two steps. *)

From stdpp Require Import base numbers option gmap relations list.
From S2P Require Import Prelude Str Utf8 ClassReader Wire JdwpCodec JdwpEvents.

Local Open Scope N_scope.

(** ** State *)

Record Reply := mkReply { re_error_code : N; re_payload : list N }.

(** A oneshot channel: nothing sent yet, a value, or the sender is gone. *)
Module Chan.
Inductive t :=
| Empty
| Sent (r : JdwpError.t + Reply)
| Closed.
End Chan.

(** Where a call of [send_command_raw] is. *)
Module Phase.
Inductive t :=
| New
| Inserted
| Writing (rest : list N)
| Waiting
| Polled
| Finished (result : JdwpError.t + list N)
| Dropped.
End Phase.

Record request := mkRequest {
  rq_id : N;
  rq_packet : list N;
  rq_phase : Phase.t;
  rq_chan : Chan.t
}.

(** Where [read_loop] is: at the head of its loop, behind it with or without an error, sending the
    error to the requests it took from the table, or at its end. *)
Module Loop.
Inductive t :=
| Reading
| Ended (err : option JdwpError.t)
| Draining (err : JdwpError.t) (tickets : list nat)
| Terminated.
End Loop.

(** [cl_pending] maps an id to the ticket of the request, its place in [cl_requests].  [cl_received]
    and [cl_torn] are not in the code: the replies read so far, and whether a packet was left
    unfinished on the connection. *)
Record client := mkClient {
  cl_next_id : N;
  cl_pending : gmap N nat;
  cl_requests : list request;
  cl_writer : option nat;
  cl_output : list N;
  cl_input : list N;
  cl_closed : bool;
  cl_loop : Loop.t;
  cl_sizes : JdwpIdSizes;
  cl_channels : Channels;
  cl_received : list (N * Reply);
  cl_torn : bool
}.

Definition cl_shutdown (c : client) : bool := ch_shutdown (cl_channels c).

Definition with_pending (p : gmap N nat) (c : client) : client :=
  mkClient (cl_next_id c) p (cl_requests c) (cl_writer c) (cl_output c) (cl_input c) (cl_closed c) (cl_loop c)
    (cl_sizes c) (cl_channels c) (cl_received c) (cl_torn c).
Definition with_requests (rs : list request) (c : client) : client :=
  mkClient (cl_next_id c) (cl_pending c) rs (cl_writer c) (cl_output c) (cl_input c) (cl_closed c) (cl_loop c)
    (cl_sizes c) (cl_channels c) (cl_received c) (cl_torn c).
Definition with_writer (w : option nat) (torn : bool) (out : list N) (c : client) : client :=
  mkClient (cl_next_id c) (cl_pending c) (cl_requests c) w out (cl_input c) (cl_closed c) (cl_loop c)
    (cl_sizes c) (cl_channels c) (cl_received c) torn.
Definition with_loop (l : Loop.t) (c : client) : client :=
  mkClient (cl_next_id c) (cl_pending c) (cl_requests c) (cl_writer c) (cl_output c) (cl_input c) (cl_closed c) l
    (cl_sizes c) (cl_channels c) (cl_received c) (cl_torn c).
Definition with_channels (ch : Channels) (c : client) : client :=
  mkClient (cl_next_id c) (cl_pending c) (cl_requests c) (cl_writer c) (cl_output c) (cl_input c) (cl_closed c)
    (cl_loop c) (cl_sizes c) ch (cl_received c) (cl_torn c).
Definition with_input (input : list N) (closed : bool) (received : list (N * Reply)) (c : client) : client :=
  mkClient (cl_next_id c) (cl_pending c) (cl_requests c) (cl_writer c) (cl_output c) input closed (cl_loop c)
    (cl_sizes c) (cl_channels c) received (cl_torn c).

Definition set_phase (ph : Phase.t) (r : request) : request := mkRequest (rq_id r) (rq_packet r) ph (rq_chan r).

(** A sender is used up or dropped once; a channel that has its value keeps it. *)
Definition set_chan (ch : Chan.t) (r : request) : request :=
  mkRequest (rq_id r) (rq_packet r) (rq_phase r)
    (match rq_chan r with Chan.Empty => ch | other => other end).

Definition phase_to (t : nat) (ph : Phase.t) (c : client) : client :=
  with_requests (alter (set_phase ph) t (cl_requests c)) c.
Definition chan_to (t : nat) (ch : Chan.t) (c : client) : client :=
  with_requests (alter (set_chan ch) t (cl_requests c)) c.

Definition cancel (c : client) : client :=
  with_channels (mkChannels (ch_events (cl_channels c)) (ch_envelopes (cl_channels c)) true) c.

(** The state of a client after the handshake. *)
Definition client_new (sizes : JdwpIdSizes) : client :=
  mkClient 1 ∅ [] None [] [] false Loop.Reading sizes (mkChannels [] [] false) [] false.

(** ** Requests *)

(** The first part of [send_command_raw]: the length, the id and the channel. *)
Definition begin_request (command_set command : N) (payload : list N) (c : client) : JdwpError.t + client :=
  let length := HEADER_LEN + bytes_left payload in
  if MAX_JDWP_PACKET_BYTES <? length then inl (JdwpError.Protocol (Reason.PacketTooLarge length))
  else
    let id := cl_next_id c in
    let r := mkRequest id (encode_command id command_set command payload) Phase.New Chan.Empty in
    inr (mkClient ((id + 1) mod 2 ^ 32) (cl_pending c) (cl_requests c ++ [r]) (cl_writer c) (cl_output c) (cl_input c)
           (cl_closed c) (cl_loop c) (cl_sizes c) (cl_channels c) (cl_received c) (cl_torn c)).

(** [pending.remove(&id)] with the sender dropped: [remove_pending] and the drop of the guard. *)
Definition remove_pending (id : N) (c : client) : client :=
  match cl_pending c !! id with
  | Some t => chan_to t Chan.Closed (with_pending (delete id (cl_pending c)) c)
  | None => c
  end.

(** [pending.insert(id, tx)]: a sender that was there is dropped. *)
Definition insert_pending (t : nat) (id : N) (c : client) : client :=
  let c := remove_pending id c in
  phase_to t Phase.Inserted (with_pending (<[id := t]> (cl_pending c)) c).

(** The request returns while its guard is armed, or after it was removed from the table. *)
Definition finish (t : nat) (id : N) (result : JdwpError.t + list N) (c : client) : client :=
  phase_to t (Phase.Finished result) (remove_pending id c).

(** The request stops while it writes: the lock is released, and what it wrote stays. *)
Definition stop_writing (r : request) (c : client) : client :=
  match rq_phase r with
  | Phase.Writing rest =>
      let partial := negb (bool_decide (rest = [])) && negb (bool_decide (rest = rq_packet r)) in
      with_writer None (cl_torn c || partial) (cl_output c) c
  | _ => c
  end.

Definition result_of (reply : Reply) : JdwpError.t + list N :=
  if re_error_code reply =? 0 then inr (re_payload reply) else inl (JdwpError.VmError (re_error_code reply)).

(** The points where the future of a request can be dropped: it waits for the lock, for the
    connection, or for its reply. *)
Definition awaits (ph : Phase.t) : Prop :=
  match ph with Phase.Inserted | Phase.Writing _ | Phase.Waiting => True | _ => False end.

(** One step of the request with ticket [t]. *)
Inductive request_step (t : nat) (r : request) (c : client) : client -> Prop :=
| rs_insert : rq_phase r = Phase.New -> request_step t r c (insert_pending t (rq_id r) c)
| rs_lock : rq_phase r = Phase.Inserted -> cl_writer c = None ->
    request_step t r c (phase_to t (Phase.Writing (rq_packet r)) (with_writer (Some t) (cl_torn c) (cl_output c) c))
| rs_write chunk rest : rq_phase r = Phase.Writing (chunk ++ rest) ->
    request_step t r c (phase_to t (Phase.Writing rest) (with_writer (cl_writer c) (cl_torn c) (cl_output c ++ chunk) c))
| rs_written : rq_phase r = Phase.Writing [] ->
    request_step t r c (phase_to t Phase.Waiting (with_writer None (cl_torn c) (cl_output c) c))
| rs_write_error rest : rq_phase r = Phase.Writing rest ->
    request_step t r c (finish t (rq_id r) (inl JdwpError.Io) (stop_writing r c))
| rs_reply reply : rq_phase r = Phase.Waiting -> rq_chan r = Chan.Sent (inr reply) ->
    request_step t r c (phase_to t (Phase.Finished (result_of reply)) c)
| rs_error e : rq_phase r = Phase.Waiting -> rq_chan r = Chan.Sent (inl e) ->
    request_step t r c (finish t (rq_id r) (inl e) c)
| rs_closed : rq_phase r = Phase.Waiting -> rq_chan r = Chan.Closed ->
    request_step t r c (finish t (rq_id r) (inl JdwpError.ConnectionClosed) c)
| rs_poll : rq_phase r = Phase.Waiting -> rq_chan r = Chan.Empty -> request_step t r c (phase_to t Phase.Polled c)
| rs_timeout : rq_phase r = Phase.Polled -> request_step t r c (finish t (rq_id r) (inl JdwpError.Timeout) c)
| rs_cancelled : rq_phase r = Phase.Polled -> cl_shutdown c = true ->
    request_step t r c (finish t (rq_id r) (inl JdwpError.Cancelled) c)
| rs_again : rq_phase r = Phase.Polled -> cl_shutdown c = false -> request_step t r c (phase_to t Phase.Waiting c)
| rs_drop : awaits (rq_phase r) ->
    request_step t r c (phase_to t Phase.Dropped (remove_pending (rq_id r) (stop_writing r c))).

(** ** The read loop *)

(** A packet at the front of the input. *)
Module Frame.
Inductive t :=
| NeedMore
| BadLength (e : JdwpError.t)
| Packet (id flags b9 b10 : N) (payload rest : list N).
End Frame.

Definition read_frame (s : list N) : Frame.t :=
  match s with
  | l0 :: l1 :: l2 :: l3 :: i0 :: i1 :: i2 :: i3 :: flags :: b9 :: b10 :: s =>
      let length := from_be_bytes [l0; l1; l2; l3] in
      match validate_jdwp_packet_length length with
      | Done (inr _) =>
          let payload_len := length - HEADER_LEN in
          if payload_len <=? bytes_left s
          then Frame.Packet (from_be_bytes [i0; i1; i2; i3]) flags b9 b10
                 (take (N.to_nat payload_len) s) (drop (N.to_nat payload_len) s)
          else Frame.NeedMore
      | Done (inl e) => Frame.BadLength e
      | _ => Frame.NeedMore
      end
  | _ => Frame.NeedMore
  end.

(** A reply goes to the request with its id, and is ignored if there is none. *)
Definition deliver (id : N) (reply : Reply) (c : client) : client :=
  match cl_pending c !! id with
  | Some t => chan_to t (Chan.Sent (inr reply)) (with_pending (delete id (cl_pending c)) c)
  | None => c
  end.

Definition COMPOSITE_SET : N := 64.
Definition COMPOSITE_COMMAND : N := 100.

(** One round of the loop, when no shutdown is noticed: [None] while it waits for bytes. *)
Definition loop_round (c : client) : option client :=
  match read_frame (cl_input c) with
  | Frame.NeedMore => if cl_closed c then Some (with_loop (Loop.Ended (Some JdwpError.Io)) c) else None
  | Frame.BadLength e => Some (with_loop (Loop.Ended (Some e)) c)
  | Frame.Packet id flags b9 b10 payload rest =>
      if negb (N.land flags FLAG_REPLY =? 0) then
        let reply := mkReply (from_be_bytes [b9; b10]) payload in
        Some (deliver id reply (with_input rest (cl_closed c) (cl_received c ++ [(id, reply)]) c))
      else
        let c := with_input rest (cl_closed c) (cl_received c) c in
        if (b9 =? COMPOSITE_SET) && (b10 =? COMPOSITE_COMMAND) then
          match handle_event_packet (cl_sizes c) payload (cl_channels c) with
          | Done (inr _, ch) => Some (with_channels ch c)
          | Done (inl e, ch) => Some (with_loop (Loop.Ended (Some e)) (with_channels ch c))
          | _ => None
          end
        else Some c
  end.

(** What the pending requests are told. *)
Definition drain_error (e : JdwpError.t) : JdwpError.t :=
  match e with JdwpError.Protocol why => JdwpError.Protocol why | _ => JdwpError.ConnectionClosed end.

(** One step of [read_loop]. *)
Inductive loop_step (c : client) : client -> Prop :=
| ls_round c' : cl_loop c = Loop.Reading -> loop_round c = Some c' -> loop_step c c'
| ls_shutdown : cl_loop c = Loop.Reading -> cl_shutdown c = true -> loop_step c (with_loop (Loop.Ended None) c)
| ls_take e tickets : cl_loop c = Loop.Ended (Some e) -> tickets ≡ₚ (map_to_list (cl_pending c)).*2 ->
    loop_step c (with_loop (Loop.Draining (drain_error e) tickets) (with_pending ∅ c))
| ls_send e t tickets : cl_loop c = Loop.Draining e (t :: tickets) ->
    loop_step c (with_loop (Loop.Draining e tickets) (chan_to t (Chan.Sent (inl e)) c))
| ls_drained e : cl_loop c = Loop.Draining e [] -> loop_step c (with_loop Loop.Terminated (cancel c))
| ls_quiet : cl_loop c = Loop.Ended None -> loop_step c (with_loop Loop.Terminated (cancel c)).

(** ** The client *)

Inductive step (c : client) : client -> Prop :=
| st_begin command_set command payload c' :
    begin_request command_set command payload c = inr c' -> step c c'
| st_request t r c' : cl_requests c !! t = Some r -> request_step t r c c' -> step c c'
| st_loop c' : loop_step c c' -> step c c'
| st_shutdown : step c (cancel c)
| st_sizes sizes : step c (mkClient (cl_next_id c) (cl_pending c) (cl_requests c) (cl_writer c) (cl_output c) (cl_input c)
    (cl_closed c) (cl_loop c) sizes (cl_channels c) (cl_received c) (cl_torn c))
| st_arrive bytes : cl_closed c = false -> Forall is_byte bytes ->
    step c (with_input (cl_input c ++ bytes) false (cl_received c) c)
| st_close : step c (with_input (cl_input c) true (cl_received c) c).

Definition reachable (c : client) : Prop := exists sizes, rtc step (client_new sizes) c.

(** ** Ids *)

(** The id of the request with a ticket. *)
Definition id_at (t : nat) : N := (1 + N.of_nat t) mod 2 ^ 32.

(** Fewer requests than there are ids. *)
Definition few_requests (c : client) : Prop := N.of_nat (length (cl_requests c)) < 2 ^ 32.

Lemma id_at_inj t u : N.of_nat t < 2 ^ 32 -> N.of_nat u < 2 ^ 32 -> id_at t = id_at u -> t = u.
Proof.
  unfold id_at. intros Ht Hu He.
  assert (Hm : forall n, n < 2 ^ 32 -> (1 + n) mod 2 ^ 32 = if n =? 2 ^ 32 - 1 then 0 else 1 + n).
  { intros n Hn. destruct (N.eqb_spec n (2 ^ 32 - 1)) as [->|]; [done|]. apply N.mod_small. lia. }
  rewrite !Hm in He by done. destruct (N.eqb_spec (N.of_nat t) (2 ^ 32 - 1)), (N.eqb_spec (N.of_nat u) (2 ^ 32 - 1)); lia.
Qed.

(** What a step keeps of the requests. *)
Definition same_ids (c c' : client) : Prop :=
  cl_next_id c' = cl_next_id c /\ rq_id <$> cl_requests c' = rq_id <$> cl_requests c.

Lemma phase_to_ids t ph c d : same_ids c d -> same_ids c (phase_to t ph d).
Proof. intros [Hn Hm]. split; [done|]. simpl. by rewrite fmap_alter_same. Qed.
Lemma chan_to_ids t ch c d : same_ids c d -> same_ids c (chan_to t ch d).
Proof. intros [Hn Hm]. split; [done|]. simpl. by rewrite fmap_alter_same. Qed.
Lemma remove_pending_ids id c d : same_ids c d -> same_ids c (remove_pending id d).
Proof. intros H. unfold remove_pending. destruct (_ !! _) as [t|]; [|done]. by apply chan_to_ids. Qed.
Lemma deliver_ids id reply c d : same_ids c d -> same_ids c (deliver id reply d).
Proof. intros H. unfold deliver. destruct (_ !! _) as [t|]; [|done]. by apply chan_to_ids. Qed.
Lemma stop_writing_ids r c d : same_ids c d -> same_ids c (stop_writing r d).
Proof. intros H. unfold stop_writing. by destruct (rq_phase r). Qed.
Lemma finish_ids t id result c d : same_ids c d -> same_ids c (finish t id result d).
Proof. intros H. by apply phase_to_ids, remove_pending_ids. Qed.

Create HintDb ids.
#[export] Hint Resolve phase_to_ids chan_to_ids remove_pending_ids deliver_ids stop_writing_ids finish_ids : ids.
#[export] Hint Extern 9 (same_ids _ _) => (split; reflexivity) : ids.

Lemma request_step_ids t r c c' : request_step t r c c' -> same_ids c c'.
Proof.
  destruct 1; eauto with ids. apply phase_to_ids. apply (remove_pending_ids (rq_id r) c c). by split.
Qed.

Lemma loop_step_ids c c' : loop_step c c' -> same_ids c c'.
Proof.
  destruct 1 as [c' _ Hr| | |e t ts _| |]; try (by split); [|by apply (chan_to_ids t (Chan.Sent (inl e)) c c)].
  unfold loop_round in Hr. repeat case_match; simplify_eq; try (by split). by apply deliver_ids.
Qed.

Record ids_ok (c : client) : Prop := {
  ids_next : cl_next_id c = id_at (length (cl_requests c));
  ids_all : forall t r, cl_requests c !! t = Some r -> rq_id r = id_at t
}.

Lemma same_ids_ok c c' : same_ids c c' -> ids_ok c -> ids_ok c'.
Proof.
  intros [Hn Hm] [Hnext Hall]. pose proof (f_equal length Hm) as Hl. rewrite !length_fmap in Hl. split; [congruence|].
  intros t r Ht. apply (f_equal (fun l => l !! t)) in Hm. rewrite !list_lookup_fmap, Ht in Hm.
  destruct (cl_requests c !! t) as [r0|] eqn:H0; [|done]. injection Hm as ->. by apply Hall.
Qed.

Lemma step_ids_ok c c' : step c c' -> ids_ok c -> ids_ok c'.
Proof.
  intros Hs Hok. destruct Hs as [cs cmd payload c' Hb|t r c' _ Hr|c' Hl| | | |];
    try (by apply (same_ids_ok c)); [|eapply same_ids_ok; [by eapply request_step_ids|done]
                                     |eapply same_ids_ok; [by eapply loop_step_ids|done]].
  unfold begin_request in Hb. case_match; [done|]. injection Hb as <-. destruct Hok as [Hn Ha]. split; simpl.
  - rewrite length_app, Hn. unfold id_at. simpl. rewrite N.Div0.add_mod_idemp_l. f_equal. lia.
  - intros t r [Ht|[Hge Ht]]%lookup_app_Some; [by apply Ha|].
    apply list_lookup_singleton_Some in Ht as [Ht0 <-]. simpl. rewrite Hn. f_equal. lia.
Qed.

Lemma reachable_ind (P : client -> Prop) :
  (forall sizes, P (client_new sizes)) -> (forall c c', reachable c -> P c -> step c c' -> P c') ->
  forall c, reachable c -> P c.
Proof.
  intros H0 HS c [sizes Hr]. revert c Hr. apply (rtc_ind_r P); [apply H0|].
  intros c c' Hr Hs IH. apply (HS c); [by exists sizes|done..].
Qed.

Lemma reachable_ids c : reachable c -> ids_ok c.
Proof.
  revert c. apply reachable_ind; [|intros c c' _ Hok Hs; by apply (step_ids_ok c)].
  intros sizes. split; [done|]. by intros t r Ht.
Qed.

(** The requests only grow. *)
Lemma step_requests c c' : step c c' -> (length (cl_requests c) <= length (cl_requests c'))%nat.
Proof.
  assert (Hsame : forall c c', same_ids c c' -> (length (cl_requests c) <= length (cl_requests c'))%nat).
  { intros d d' [_ Hm]. apply (f_equal length) in Hm. rewrite !length_fmap in Hm. lia. }
  destruct 1 as [cs cmd payload c' Hb|t r c' _ Hr|c' Hl| | | |]; try (by apply Hsame);
    [|by eapply Hsame, request_step_ids|by apply Hsame, loop_step_ids].
  unfold begin_request in Hb. case_match; [done|]. injection Hb as <-. simpl. rewrite length_app. lia.
Qed.

(** Induction over the runs with few requests. *)
Lemma reachable_few_ind (P : client -> Prop) :
  (forall sizes, P (client_new sizes)) ->
  (forall c c', ids_ok c -> few_requests c -> few_requests c' -> P c -> step c c' -> P c') ->
  forall c, reachable c -> few_requests c -> P c.
Proof.
  intros H0 HS. apply (reachable_ind (fun c => few_requests c -> P c)); [by intros sizes _; apply H0|].
  intros c c' Hr IH Hs Hf'. assert (Hf : few_requests c).
  { unfold few_requests in *. pose proof (step_requests _ _ Hs). lia. }
  apply (HS c); [by apply reachable_ids|done..|by apply IH|done].
Qed.

(** ** The table of pending requests *)

(** The request is in the table or was in it, and has not returned. *)
Definition inserted (ph : Phase.t) : Prop :=
  match ph with Phase.Inserted | Phase.Writing _ | Phase.Waiting | Phase.Polled => True | _ => False end.

(** The request has returned or was dropped. *)
Definition gone (ph : Phase.t) : Prop :=
  match ph with Phase.Finished _ | Phase.Dropped => True | _ => False end.

Lemma gone_spec ph : gone ph -> ~ inserted ph /\ ph <> Phase.New.
Proof. destruct ph; simpl; naive_solver. Qed.

Definition draining (l : Loop.t) : list nat := match l with Loop.Draining _ ts => ts | _ => [] end.

Record pend_ok (p : gmap N nat) (rs : list request) (d : list nat) : Prop := {
  po_entry : forall id t, p !! id = Some t ->
    exists r, rs !! t = Some r /\ rq_id r = id /\ inserted (rq_phase r) /\ rq_chan r = Chan.Empty /\ t ∉ d;
  po_waits : forall t r, rs !! t = Some r -> inserted (rq_phase r) -> rq_chan r = Chan.Empty ->
    p !! rq_id r = Some t \/ t ∈ d;
  po_new : forall t r, rs !! t = Some r -> rq_phase r = Phase.New -> rq_chan r = Chan.Empty /\ t ∉ d;
  po_drain : forall t, t ∈ d -> (t < length rs)%nat
}.

Definition table_ok (c : client) : Prop := pend_ok (cl_pending c) (cl_requests c) (draining (cl_loop c)).

(** Entries of different requests have different ids. *)
Definition unique_ids (rs : list request) : Prop :=
  forall t u r s, rs !! t = Some r -> rs !! u = Some s -> rq_id r = rq_id s -> t = u.

Lemma few_unique c : ids_ok c -> few_requests c -> unique_ids (cl_requests c).
Proof.
  intros [_ Ha] Hf t u r s Ht Hu He. rewrite (Ha _ _ Ht), (Ha _ _ Hu) in He.
  apply lookup_lt_Some in Ht, Hu. unfold few_requests in Hf. apply id_at_inj in He; lia.
Qed.

(** A change of one request, and of the entries that lead to it. *)
Lemma pend_ok_change p rs d p' d' t f :
  pend_ok p rs d ->
  (forall r, rq_id (f r) = rq_id r) ->
  (forall id u, u <> t -> p' !! id = Some u <-> p !! id = Some u) ->
  (forall u, u <> t -> u ∈ d' <-> u ∈ d) -> (t ∈ d' -> t ∈ d) ->
  (forall r id, rs !! t = Some r -> p' !! id = Some t ->
    rq_id r = id /\ inserted (rq_phase (f r)) /\ rq_chan (f r) = Chan.Empty /\ t ∉ d') ->
  (forall id, rs !! t = None -> p' !! id <> Some t) ->
  (forall r, rs !! t = Some r -> inserted (rq_phase (f r)) -> rq_chan (f r) = Chan.Empty ->
    p' !! rq_id r = Some t \/ t ∈ d') ->
  (forall r, rs !! t = Some r -> rq_phase (f r) = Phase.New -> rq_chan (f r) = Chan.Empty /\ t ∉ d') ->
  pend_ok p' (alter f t rs) d'.
Proof.
  intros [He Hw Hn Hd] Hid Hp Hd1 Hd2 Ht1 Ht0 Ht2 Ht3. split.
  - intros id u Hu. destruct (decide (u = t)) as [->|Hne].
    + destruct (rs !! t) as [r|] eqn:Hr; [|by destruct (Ht0 id)]. exists (f r). rewrite list_lookup_alter_eq, Hr.
      destruct (Ht1 r id eq_refl Hu) as (<- & ? & ? & ?). rewrite Hid. done.
    + apply Hp in Hu; [|done]. destruct (He _ _ Hu) as (r & Hr & <- & Hi & Hc & Hnd).
      exists r. rewrite list_lookup_alter_ne by done. split_and!; [done..|]. by rewrite Hd1.
  - intros u s Hs Hi Hc. apply lookup_alter_Some in Hs as [[-> (r & Hr & ->)]|[Hne Hs]].
    + rewrite Hid. by apply Ht2.
    + rewrite Hp, Hd1 by done. by apply Hw.
  - intros u s Hs Hph. apply lookup_alter_Some in Hs as [[-> (r & Hr & ->)]|[Hne Hs]]; [by apply Ht3|].
    rewrite Hd1 by done. by apply Hn.
  - intros u Hu. rewrite length_alter. apply Hd. destruct (decide (u = t)) as [->|]; [by apply Hd2|by apply Hd1].
Qed.

(** The request of a ticket has an entry under its own id, or none. *)
Lemma own_entry p rs d t r : pend_ok p rs d -> unique_ids rs -> rs !! t = Some r ->
  (p !! rq_id r = Some t \/ p !! rq_id r = None) /\ (forall id, p !! id = Some t -> id = rq_id r).
Proof.
  intros Hok Hu Hr. split.
  - destruct (p !! rq_id r) as [u|] eqn:Hp; [|by right]. left.
    destruct (po_entry _ _ _ Hok _ _ Hp) as (s & Hs & He & _). by rewrite (Hu u t s r Hs Hr He).
  - intros id Hp. destruct (po_entry _ _ _ Hok _ _ Hp) as (s & Hs & <- & _). congruence.
Qed.

(** The part of the state that [pend_ok] sees after the removal of a request's own entry. *)
Lemma remove_own c t r : table_ok c -> unique_ids (cl_requests c) -> cl_requests c !! t = Some r ->
  exists f, (forall s, rq_id (f s) = rq_id s /\ rq_phase (f s) = rq_phase s) /\
    cl_requests (remove_pending (rq_id r) c) = alter f t (cl_requests c) /\
    cl_pending (remove_pending (rq_id r) c) = delete (rq_id r) (cl_pending c) /\
    cl_loop (remove_pending (rq_id r) c) = cl_loop c.
Proof.
  intros Hok Hu Hr. unfold remove_pending. destruct (own_entry _ _ _ t r Hok Hu Hr) as [[Hp|Hp] _]; rewrite Hp; simpl.
  - by exists (set_chan Chan.Closed).
  - exists id. split_and!; [done| |by rewrite delete_id|done]. symmetry. by apply list_alter_id.
Qed.

Lemma leave_ok c t r ph :
  table_ok c -> unique_ids (cl_requests c) -> cl_requests c !! t = Some r -> gone ph ->
  table_ok (phase_to t ph (remove_pending (rq_id r) c)).
Proof.
  intros Hok Hu Hr [Hph Hnew]%gone_spec. destruct (remove_own c t r Hok Hu Hr) as (f & Hf & Hrs & Hp & Hl).
  destruct (own_entry _ _ _ t r Hok Hu Hr) as [Hown Huniq].
  unfold table_ok. simpl. rewrite Hrs, Hp, Hl, list_alter_alter_eq.
  apply (pend_ok_change (cl_pending c) _ (draining (cl_loop c))); try done.
  - intros s. apply (Hf s).
  - intros id u Hne. destruct (decide (id = rq_id r)) as [->|Hid]; [|by rewrite lookup_delete_ne].
    rewrite lookup_delete_eq. destruct Hown as [->| ->]; naive_solver.
  - intros s id Hs [Hid Hd]%lookup_delete_Some. by destruct Hid; rewrite (Huniq id Hd).
  - intros id Hn. by rewrite Hr in Hn.
Qed.

Lemma move_ok c t r ph :
  table_ok c -> cl_requests c !! t = Some r -> inserted (rq_phase r) -> inserted ph -> table_ok (phase_to t ph c).
Proof.
  intros Hok Hr Hi Hph. unfold table_ok. simpl.
  apply (pend_ok_change (cl_pending c) _ (draining (cl_loop c))); try done.
  - intros s id Hs Hp. destruct (po_entry _ _ _ Hok _ _ Hp) as (s' & Hs' & Hid & _ & Hc & Hd). by simplify_eq.
  - intros id Hn. by rewrite Hr in Hn.
  - intros s Hs _ Hc. simplify_eq. by apply (po_waits _ _ _ Hok).
  - intros s _ Hn. simpl in Hn. by subst.
Qed.

Lemma replied_ok c t r ph v :
  table_ok c -> cl_requests c !! t = Some r -> rq_chan r = Chan.Sent v -> gone ph ->
  table_ok (phase_to t ph c).
Proof.
  intros Hok Hr Hc [Hph Hnew]%gone_spec. unfold table_ok. simpl.
  apply (pend_ok_change (cl_pending c) _ (draining (cl_loop c))); try done.
  - intros s id Hs Hp. destruct (po_entry _ _ _ Hok _ _ Hp) as (s' & Hs' & _ & _ & Hc' & _). simplify_eq. congruence.
  - intros id Hn. by rewrite Hr in Hn.
Qed.

Lemma insert_ok c t r :
  table_ok c -> unique_ids (cl_requests c) -> cl_requests c !! t = Some r -> rq_phase r = Phase.New ->
  table_ok (insert_pending t (rq_id r) c).
Proof.
  intros Hok Hu Hr Hnew. destruct (own_entry _ _ _ t r Hok Hu Hr) as [Hown Huniq].
  destruct (po_new _ _ _ Hok t r Hr Hnew) as [Hc Hd].
  assert (Hnone : cl_pending c !! rq_id r = None).
  { destruct Hown as [Hp|]; [|done]. destruct (po_entry _ _ _ Hok _ _ Hp) as (s & Hs & _ & Hi & _).
    rewrite Hr in Hs. injection Hs as <-. by rewrite Hnew in Hi. }
  unfold insert_pending, remove_pending. rewrite Hnone. unfold table_ok. simpl.
  apply (pend_ok_change (cl_pending c) _ (draining (cl_loop c))); try done.
  - intros id u Hne. destruct (decide (id = rq_id r)) as [->|Hid]; [|by rewrite lookup_insert_ne].
    rewrite lookup_insert_eq, Hnone. naive_solver.
  - intros s id Hs Hp. assert (s = r) as -> by congruence. destruct (decide (id = rq_id r)) as [->|Hid]; [done|].
    rewrite lookup_insert_ne in Hp by done. by rewrite (Huniq id Hp) in Hid.
  - intros id Hn. by rewrite Hr in Hn.
  - intros s Hs _ _. simplify_eq. left. apply lookup_insert_eq.
Qed.

Lemma stop_writing_table r c : table_ok (stop_writing r c) <-> table_ok c.
Proof. unfold stop_writing. by destruct (rq_phase r). Qed.
Lemma stop_writing_requests r c : cl_requests (stop_writing r c) = cl_requests c.
Proof. unfold stop_writing. by destruct (rq_phase r). Qed.

Lemma request_step_table t r c c' :
  table_ok c -> unique_ids (cl_requests c) -> cl_requests c !! t = Some r -> request_step t r c c' -> table_ok c'.
Proof.
  intros Hok Hu Hr. destruct 1 as [Hp|Hp Hw|chunk rest Hp|Hp|rest Hp|reply Hp Hc|e Hp Hc|Hp Hc|Hp Hc|Hp|Hp Hs|Hp Hs|Ha].
  - by apply insert_ok.
  - apply (move_ok _ t r); [done..|by rewrite Hp|done].
  - apply (move_ok _ t r); [done..|by rewrite Hp|done].
  - apply (move_ok _ t r); [done..|by rewrite Hp|done].
  - apply leave_ok; [by apply stop_writing_table|by rewrite stop_writing_requests..|done].
  - by eapply replied_ok.
  - by apply leave_ok.
  - by apply leave_ok.
  - apply (move_ok _ t r); [done..|by rewrite Hp|done].
  - by apply leave_ok.
  - by apply leave_ok.
  - apply (move_ok _ t r); [done..|by rewrite Hp|done].
  - apply leave_ok; [by apply stop_writing_table|by rewrite stop_writing_requests..|done].
Qed.

Lemma deliver_table id reply c : table_ok c -> unique_ids (cl_requests c) -> table_ok (deliver id reply c).
Proof.
  intros Hok Hu. unfold deliver. destruct (cl_pending c !! id) as [t|] eqn:Hp; [|done].
  destruct (po_entry _ _ _ Hok _ _ Hp) as (r & Hr & <- & Hi & Hc & Hd).
  destruct (own_entry _ _ _ t r Hok Hu Hr) as [_ Huniq]. unfold table_ok. simpl.
  apply (pend_ok_change (cl_pending c) _ (draining (cl_loop c))); try done.
  - intros id u Hne. destruct (decide (id = rq_id r)) as [->|Hid]; [|by rewrite lookup_delete_ne].
    rewrite lookup_delete_eq, Hp. naive_solver.
  - intros s id Hs [Hid Hp']%lookup_delete_Some. by rewrite (Huniq id Hp') in Hid.
  - intros id Hn. by rewrite Hr in Hn.
  - intros s Hs _ Hc'. assert (s = r) as -> by congruence. simpl in Hc'. by rewrite Hc in Hc'.
  - intros s Hs Hn. assert (s = r) as -> by congruence. simpl in Hn. by rewrite Hn in Hi.
Qed.

Lemma table_ok_ext c c' :
  cl_pending c' = cl_pending c -> cl_requests c' = cl_requests c -> draining (cl_loop c') = draining (cl_loop c) ->
  table_ok c -> table_ok c'.
Proof. unfold table_ok. by intros -> -> ->. Qed.

Lemma take_ok c e tickets :
  cl_loop c = Loop.Ended (Some e) -> tickets ≡ₚ (map_to_list (cl_pending c)).*2 -> table_ok c ->
  pend_ok ∅ (cl_requests c) tickets.
Proof.
  intros Hl Hts Hok. unfold table_ok in Hok. rewrite Hl in Hok. simpl in Hok.
  assert (Hin : forall t, t ∈ tickets <-> exists id, cl_pending c !! id = Some t).
  { intros t. rewrite Hts, list_elem_of_fmap. split.
    - intros ([id t'] & -> & Hp%elem_of_map_to_list). by exists id.
    - intros [id Hp]. exists (id, t). split; [done|]. by apply elem_of_map_to_list. }
  split.
  - intros id t Hp. by rewrite lookup_empty in Hp.
  - intros t r Hr Hi Hc. right. apply Hin. destruct (po_waits _ _ _ Hok t r Hr Hi Hc) as [Hp|Hd]; [by eexists|].
    by apply elem_of_nil in Hd.
  - intros t r Hr Hn. destruct (po_new _ _ _ Hok t r Hr Hn) as [Hc _]. split; [done|]. intros [id Hp]%Hin.
    destruct (po_entry _ _ _ Hok _ _ Hp) as (s & Hs & _ & Hi & _). rewrite Hr in Hs. injection Hs as <-. by rewrite Hn in Hi.
  - intros t [id Hp]%Hin. destruct (po_entry _ _ _ Hok _ _ Hp) as (s & Hs & _). by apply lookup_lt_Some in Hs.
Qed.

Lemma send_ok c e t tickets :
  cl_loop c = Loop.Draining e (t :: tickets) -> table_ok c ->
  pend_ok (cl_pending c) (alter (set_chan (Chan.Sent (inl e))) t (cl_requests c)) tickets.
Proof.
  intros Hl Hok. unfold table_ok in Hok. rewrite Hl in Hok. simpl in Hok.
  assert (Hnp : forall id, cl_pending c !! id <> Some t).
  { intros id Hp. destruct (po_entry _ _ _ Hok _ _ Hp) as (s & _ & _ & _ & _ & Hd). apply Hd. left. }
  apply (pend_ok_change (cl_pending c) _ (t :: tickets)); try done.
  - intros u Hne. rewrite elem_of_cons. naive_solver.
  - intros Ht. by right.
  - intros r id _ Hp. by destruct (Hnp id).
  - intros r Hr _ Hc. simpl in Hc. by destruct (rq_chan r).
  - intros r Hr Hn. destruct (po_new _ _ _ Hok t r Hr Hn) as [_ Hd]. exfalso. apply Hd. left.
Qed.

Lemma loop_round_frame c c' : loop_round c = Some c' ->
  (cl_requests c' = cl_requests c /\ cl_pending c' = cl_pending c /\
   (cl_loop c' = cl_loop c \/ exists e, cl_loop c' = Loop.Ended (Some e)) /\ cl_received c' = cl_received c) \/
  exists id reply rest, c' = deliver id reply (with_input rest (cl_closed c) (cl_received c ++ [(id, reply)]) c).
Proof.
  unfold loop_round. intros Hr. repeat case_match; simplify_eq; try (left; simpl; split_and!; eauto; fail).
  right. by do 3 eexists.
Qed.

Lemma loop_step_table c c' : table_ok c -> unique_ids (cl_requests c) -> loop_step c c' -> table_ok c'.
Proof.
  intros Hok Hu. destruct 1 as [c' Hl Hr|Hl Hs|e ts Hl Hts|e t ts Hl|e Hl|Hl].
  - apply loop_round_frame in Hr as [(Hrs & Hp & Hl' & _)|(id & reply & rest & ->)].
    + apply (table_ok_ext c); [done..| |done]. destruct Hl' as [-> |[e ->]]; [done|by rewrite Hl].
    + by apply deliver_table.
  - apply (table_ok_ext c); [done..|by rewrite Hl|done].
  - by apply (take_ok c e).
  - by apply (send_ok c e t ts).
  - apply (table_ok_ext c); [done..|by rewrite Hl|done].
  - apply (table_ok_ext c); [done..|by rewrite Hl|done].
Qed.

Lemma begin_table cs cmd payload c c' :
  begin_request cs cmd payload c = inr c' -> table_ok c -> table_ok c'.
Proof.
  unfold begin_request. intros Hb [He Hw Hn Hd]. case_match; [done|]. injection Hb as <-. split; simpl.
  - intros id t Hp. destruct (He _ _ Hp) as (r & Hr & Hrest). exists r. by rewrite (lookup_app_l_Some _ _ _ _ Hr).
  - intros t r [Ht|[_ Ht]]%lookup_app_Some; [by apply Hw|].
    apply list_lookup_singleton_Some in Ht as [_ <-]. done.
  - intros t r [Ht|[Hge Ht]]%lookup_app_Some; [by apply Hn|].
    apply list_lookup_singleton_Some in Ht as [Ht <-]. intros _. split; [done|]. intros Hd'%Hd. lia.
  - intros t Ht%Hd. rewrite length_app. lia.
Qed.

Lemma reachable_table c : reachable c -> few_requests c -> table_ok c.
Proof.
  revert c. apply reachable_few_ind; [by intros sizes; split; [done|intros t r Ht..|intros t []%elem_of_nil]|].
  intros c c' Hids Hf _ Hok Hs. pose proof (few_unique c Hids Hf) as Hu.
  destruct Hs as [cs cmd payload c' Hb|t r c' Hr Hq|c' Hl| | | |]; try done.
  - by eapply begin_table.
  - by eapply request_step_table.
  - by eapply loop_step_table.
Qed.

(** C6: The table of pending requests is exact.  In every state that a client with fewer than 2^32
    requests reaches, under any interleaving: an entry belongs to a request that has this id, has not
    returned, was not dropped and has no answer yet; so no request leaves an entry behind.  Every
    request that waits without an answer has its entry, unless the read loop has taken it to
    report the end of the connection. *)
Theorem pending_exact c :
  reachable c -> few_requests c ->
  (forall id t, cl_pending c !! id = Some t ->
    exists r, cl_requests c !! t = Some r /\ rq_id r = id /\ inserted (rq_phase r) /\ rq_chan r = Chan.Empty) /\
  (forall t r, cl_requests c !! t = Some r -> inserted (rq_phase r) -> rq_chan r = Chan.Empty ->
    cl_pending c !! rq_id r = Some t \/ t ∈ draining (cl_loop c)).
Proof.
  intros Hr Hf. pose proof (reachable_table c Hr Hf) as Hok. split.
  - intros id t Hp. destruct (po_entry _ _ _ Hok _ _ Hp) as (r & ? & ? & ? & ? & _). by exists r.
  - apply Hok.
Qed.

(** ** Replies *)

(** What the result of a request says about the replies that were read. *)
Definition justified (received : list (N * Reply)) (id : N) (result : JdwpError.t + list N) : Prop :=
  match result with
  | inr payload => (id, mkReply 0 payload) ∈ received
  | inl (JdwpError.VmError code) => code <> 0 /\ exists payload, (id, mkReply code payload) ∈ received
  | inl _ => True
  end.

(** The errors that the end of the connection leaves. *)
Definition end_error (e : JdwpError.t) : Prop :=
  match e with JdwpError.Protocol _ | JdwpError.ConnectionClosed => True | _ => False end.

Definition request_ok (received : list (N * Reply)) (r : request) : Prop :=
  match rq_chan r with
  | Chan.Sent (inr reply) => (rq_id r, reply) ∈ received
  | Chan.Sent (inl e) => end_error e
  | _ => True
  end /\
  match rq_phase r with Phase.Finished result => justified received (rq_id r) result | _ => True end.

Definition log_ok (c : client) : Prop :=
  Forall (request_ok (cl_received c)) (cl_requests c) /\
  match cl_loop c with Loop.Draining e _ => end_error e | _ => True end.

Lemma result_justified received id reply : (id, reply) ∈ received -> justified received id (result_of reply).
Proof.
  intros Hin. unfold result_of. destruct reply as [code payload]. simpl.
  destruct (N.eqb_spec code 0) as [->|Hne]; simpl; [done|]. split; [done|by exists payload].
Qed.

Lemma request_ok_mono log log' r : log ⊆ log' -> request_ok log r -> request_ok log' r.
Proof.
  intros Hsub [Hc Hp]. split; [repeat case_match; auto|]. destruct (rq_phase r) as [| | | | |[[]|]|]; simpl in *; auto.
  destruct Hp as [? (p & Hp)]. split; [done|]. exists p. auto.
Qed.

Lemma phase_ok log ph r :
  match ph with Phase.Finished result => justified log (rq_id r) result | _ => True end ->
  request_ok log r -> request_ok log (set_phase ph r).
Proof. intros Hph [Hc _]. by split. Qed.

Lemma chan_ok log ch r :
  match ch with
  | Chan.Sent (inr reply) => (rq_id r, reply) ∈ log | Chan.Sent (inl e) => end_error e | _ => True
  end -> request_ok log r -> request_ok log (set_chan ch r).
Proof. intros Hch [Hc Hp]. split; [|done]. unfold set_chan in *. simpl. by destruct (rq_chan r). Qed.

Definition all_ok (c : client) : Prop := Forall (request_ok (cl_received c)) (cl_requests c).

Lemma phase_to_ok c t ph :
  (forall r, cl_requests c !! t = Some r ->
    match ph with Phase.Finished result => justified (cl_received c) (rq_id r) result | _ => True end) ->
  all_ok c -> all_ok (phase_to t ph c).
Proof. intros Hph Hok. apply Forall_alter; [done|]. intros r Hr. apply phase_ok. by apply Hph. Qed.

Lemma remove_pending_ok id c : all_ok c -> all_ok (remove_pending id c).
Proof.
  intros Hok. unfold remove_pending. case_match; [|done]. apply Forall_alter; [done|]. intros r _. by apply chan_ok.
Qed.

Lemma finish_ok t id e c : end_error e \/ e ∈ [JdwpError.Io; JdwpError.Timeout; JdwpError.Cancelled] ->
  all_ok c -> all_ok (finish t id (inl e) c).
Proof.
  intros He Hok. apply phase_to_ok; [|by apply remove_pending_ok]. intros r _.
  destruct e; simpl in *; try done. destruct He as [[]|He]. by rewrite !elem_of_cons, elem_of_nil in He; naive_solver.
Qed.

Lemma request_step_log t r c c' :
  log_ok c -> cl_requests c !! t = Some r -> request_step t r c c' -> log_ok c'.
Proof.
  intros [Hok Hl] Hr Hs.
  assert (Hrest : cl_loop c' = cl_loop c).
  { destruct Hs; simpl; unfold finish, remove_pending, stop_writing; simpl; repeat case_match; done. }
  split; [|by rewrite Hrest]. clear Hl Hrest. pose proof (Forall_lookup_1 _ _ _ _ Hok Hr) as [Hc Hp].
  change (all_ok c'). change (all_ok c) in Hok.
  destruct Hs as [Hph|Hph Hw|chunk rest Hph|Hph|rest Hph|reply Hph Hch|e Hph Hch|Hph Hch|Hph Hch|Hph|Hph Hs|Hph Hs|Ha];
    try (by apply phase_to_ok).
  - apply phase_to_ok; [done|]. by apply (remove_pending_ok (rq_id r) c).
  - apply finish_ok; [right; set_solver|]. unfold stop_writing. by rewrite Hph.
  - apply phase_to_ok; [|done]. intros s Hs. rewrite Hr in Hs. injection Hs as <-. rewrite Hch in Hc. by apply result_justified.
  - apply finish_ok; [left; by rewrite Hch in Hc|done].
  - apply finish_ok; [by left|done].
  - apply finish_ok; [right; set_solver|done].
  - apply finish_ok; [right; set_solver|done].
  - apply phase_to_ok; [done|]. apply remove_pending_ok. unfold stop_writing. by destruct (rq_phase r).
Qed.

Lemma deliver_log id reply c :
  table_ok c -> all_ok c -> (id, reply) ∈ cl_received c -> all_ok (deliver id reply c).
Proof.
  intros Htab Hok Hin. unfold deliver. destruct (cl_pending c !! id) as [t|] eqn:Hp; [|done].
  apply Forall_alter; [done|]. intros r Hr. apply chan_ok.
  destruct (po_entry _ _ _ Htab _ _ Hp) as (s & Hs & <- & _). simpl in Hr. by simplify_eq.
Qed.

Lemma loop_step_log c c' : table_ok c -> log_ok c -> loop_step c c' -> log_ok c'.
Proof.
  intros Htab [Hok Hl]. destruct 1 as [c' Hrd Hr|Hrd Hs|e ts Hrd Hts|e t ts Hrd|e Hrd|Hrd]; try done.
  - apply loop_round_frame in Hr as [(Hrs & Hp & Hl' & Hrec)|(id & reply & rest & ->)].
    + split; [by rewrite Hrs, Hrec|]. destruct Hl' as [-> |[e ->]]; [by rewrite Hrd|done].
    + assert (Hloop : cl_loop (deliver id reply (with_input rest (cl_closed c) (cl_received c ++ [(id, reply)]) c)) = Loop.Reading)
        by (unfold deliver; simpl; by destruct (cl_pending c !! id)).
      split; [|by rewrite Hloop]. apply deliver_log; [done| |set_solver]. unfold all_ok. simpl.
      eapply Forall_impl; [exact Hok|]. intros r. apply request_ok_mono. set_solver.
  - split; [done|]. by destruct e.
  - rewrite Hrd in Hl. split; [|done]. apply Forall_alter; [done|]. intros r _. by apply chan_ok.
Qed.

Lemma reachable_log c : reachable c -> few_requests c -> log_ok c.
Proof.
  intros Hr Hf. cut (table_ok c /\ log_ok c); [by intros []|]. revert c Hr Hf. apply reachable_few_ind.
  { intros sizes. split; [|by split]. split; [done|intros t r Ht..|intros t []%elem_of_nil]; done. }
  intros c c' Hids Hf Hf' [Htab Hlog] Hs. pose proof (few_unique c Hids Hf) as Hu.
  destruct Hs as [cs cmd payload c' Hb|t r c' Hr Hq|c' Hl| | | |]; try done.
  - split; [by eapply begin_table|]. unfold begin_request in Hb. case_match; [done|]. injection Hb as <-.
    destruct Hlog as [Hok Hl]. split; [|done]. apply Forall_app. split; [done|]. by repeat constructor.
  - split; [by eapply request_step_table|by eapply request_step_log].
  - split; [by eapply loop_step_table|by eapply loop_step_log].
Qed.

(** C7: Replies go where they belong.  In every state that a client with fewer than 2^32 requests
    reaches, no two requests have the same id; a request that returned a payload read a reply packet
    with its own id, this payload and no error; and one that returned an error of the debugged
    machine read a reply packet with its own id and this error code. *)
Theorem replies_routed c t r result :
  reachable c -> few_requests c -> cl_requests c !! t = Some r -> rq_phase r = Phase.Finished result ->
  (forall u s, cl_requests c !! u = Some s -> rq_id s = rq_id r -> u = t) /\
  match result with
  | inr payload => (rq_id r, mkReply 0 payload) ∈ cl_received c
  | inl (JdwpError.VmError code) => code <> 0 /\ exists payload, (rq_id r, mkReply code payload) ∈ cl_received c
  | inl _ => True
  end.
Proof.
  intros Hr Hf Ht Hp. split.
  - intros u s Hs He. by eapply (few_unique c (reachable_ids c Hr) Hf).
  - destruct (reachable_log c Hr Hf) as [Hok _]. apply (Forall_lookup_1 _ _ _ _ Hok) in Ht as [_ Hj]. by rewrite Hp in Hj.
Qed.

(** ** The end of the connection *)

Lemma read_frame_shorter s id flags b9 b10 payload rest :
  read_frame s = Frame.Packet id flags b9 b10 payload rest -> (length rest < length s)%nat.
Proof.
  unfold read_frame. intros H. do 11 (destruct s as [|? s]; [done|]).
  repeat case_match; simplify_eq. rewrite length_drop. simpl. lia.
Qed.

Lemma event_packet_total sizes payload st : exists r ch, handle_event_packet sizes payload st = Done (r, ch).
Proof.
  destruct (handle_event_packet_exact sizes payload st) as [(e & -> & _)|(p & s1 & n & s2 & es & [e|] & _ & _ & _ & ->)]; eauto.
Qed.

(** What the loop still has to do when no more bytes arrive. *)
Definition loop_rank (c : client) : nat :=
  match cl_loop c with
  | Loop.Reading => length (cl_input c) + size (cl_pending c) + 3
  | Loop.Ended _ => size (cl_pending c) + 2
  | Loop.Draining _ ts => length ts + 1
  | Loop.Terminated => 0
  end.

Lemma deliver_rank id reply c :
  cl_loop c = Loop.Reading ->
  (loop_rank (deliver id reply c) <= loop_rank c)%nat /\ cl_closed (deliver id reply c) = cl_closed c.
Proof.
  intros Hl. unfold deliver. destruct (cl_pending c !! id) as [t|] eqn:Hp; [|split; [lia|done]].
  split; [|done]. unfold loop_rank. simpl. rewrite Hl, map_size_delete, Hp. simpl. lia.
Qed.

Lemma loop_round_rank c c' :
  cl_loop c = Loop.Reading -> loop_round c = Some c' ->
  (loop_rank c' < loop_rank c)%nat /\ cl_closed c' = cl_closed c.
Proof.
  intros Hl. unfold loop_round. destruct (read_frame (cl_input c)) as [|e|id flags b9 b10 payload rest] eqn:Hf.
  - case_match eqn:Hc; [|done]. intros [= <-]. unfold loop_rank. simpl. rewrite Hl. split; [lia|done].
  - intros [= <-]. unfold loop_rank. simpl. rewrite Hl. split; [lia|done].
  - apply read_frame_shorter in Hf. intros H.
    assert (Hr : forall r, (loop_rank (with_input rest (cl_closed c) r c) < loop_rank c)%nat)
      by (intros r; unfold loop_rank; simpl; rewrite Hl; lia).
    repeat case_match; simplify_eq.
    + edestruct deliver_rank as [Hd Hc]; [|rewrite Hc; split; [|reflexivity]]; [exact Hl|].
      eapply Nat.le_lt_trans; [exact Hd|apply Hr].
    + split; [|done]. unfold loop_rank in *. simpl in *. rewrite Hl. lia.
    + split; [|done]. unfold loop_rank in *. simpl in *. rewrite Hl in *. apply (Hr []).
    + split; [apply Hr|done].
Qed.

Lemma loop_step_rank c c' : loop_step c c' -> (loop_rank c' < loop_rank c)%nat /\ cl_closed c' = cl_closed c.
Proof.
  destruct 1 as [c' Hl Hr|Hl Hs|e ts Hl Hts|e t ts Hl|e Hl|Hl]; [by apply loop_round_rank|..];
    unfold loop_rank; simpl; rewrite Hl; (split; [|done]); simpl; try lia.
  rewrite Hts, length_fmap, length_map_to_list. lia.
Qed.

Lemma loop_progress c : cl_closed c = true -> cl_loop c <> Loop.Terminated -> exists c', loop_step c c'.
Proof.
  intros Hc Ht. destruct (cl_loop c) as [|[e|]|e [|t ts]|] eqn:Hl; [|by eexists; econstructor..|done].
  assert (Hr : exists c', loop_round c = Some c'); [|destruct Hr as [c' Hr]; exists c'; by apply ls_round].
  unfold loop_round. rewrite Hc. repeat case_match; eauto.
  all: destruct (event_packet_total (cl_sizes c) payload (cl_channels c)) as (r & ch & He); simplify_eq/=; congruence.
Qed.

Lemma loop_normalizes n c : (loop_rank c < n)%nat -> sn loop_step c.
Proof.
  revert c. induction n as [|n IH]; intros c Hc; [lia|]. constructor. intros c' Hs. apply IH.
  pose proof (proj1 (loop_step_rank _ _ Hs)). lia.
Qed.

(** The read loop ends with the connection.  When the connection is closed, the loop takes only
    finitely many steps, whatever bytes are left and whatever they contain, and it stops only at
    its end, after it has cancelled the shutdown token. *)
Theorem read_loop_ends c :
  cl_closed c = true ->
  sn loop_step c /\
  forall c', rtc loop_step c c' -> nf loop_step c' -> cl_loop c' = Loop.Terminated.
Proof.
  intros Hc. split.
  - apply (loop_normalizes (S (loop_rank c))). lia.
  - intros c' Hr Hnf. assert (Hc' : cl_closed c' = true).
    { clear Hnf. induction Hr as [|x y z Hs _ IH]; [done|]. apply IH. by rewrite (proj2 (loop_step_rank _ _ Hs)). }
    destruct (cl_loop c') eqn:Hl; try done; exfalso; apply Hnf, loop_progress; congruence.
Qed.

Lemma request_step_shared t r c c' : request_step t r c c' -> cl_loop c' = cl_loop c /\ cl_channels c' = cl_channels c.
Proof. destruct 1; unfold insert_pending, finish, remove_pending, stop_writing; simpl; repeat case_match; done. Qed.

Lemma deliver_shared id reply c : cl_loop (deliver id reply c) = cl_loop c /\ cl_channels (deliver id reply c) = cl_channels c.
Proof. unfold deliver. by case_match. Qed.

(** The token is cancelled when the loop is at its end. *)
Lemma terminated_shutdown c : reachable c -> cl_loop c = Loop.Terminated -> cl_shutdown c = true.
Proof.
  revert c. apply (reachable_ind (fun c => cl_loop c = Loop.Terminated -> cl_shutdown c = true)); [done|].
  intros c c' _ IH Hs Hl.
  destruct Hs as [cs cmd payload c' Hb|t r c' Hr Hq|c' Hq| | | |]; try (by apply IH); [..|done].
  - unfold begin_request in Hb. case_match; [done|]. injection Hb as <-. by apply IH.
  - destruct (request_step_shared _ _ _ _ Hq) as [Hl' Hc']. unfold cl_shutdown. rewrite Hc'. apply IH. congruence.
  - destruct Hq as [c' Hrd Hround|Hrd Hsd|e ts Hrd Hts|e t ts Hrd|e Hrd|Hrd]; try done.
    exfalso. unfold loop_round in Hround. repeat case_match; simplify_eq; simpl in Hl; try congruence.
    by rewrite (proj1 (deliver_shared _ _ _)) in Hl; simpl in Hl; congruence.
Qed.

(** A step of the request itself. *)
Definition own_step (t : nat) (c c' : client) : Prop :=
  exists r, cl_requests c !! t = Some r /\ request_step t r c c'.

Definition phase_at (t : nat) (c : client) : option Phase.t := rq_phase <$> cl_requests c !! t.

Lemma phase_at_to t ph c : (t < length (cl_requests c))%nat -> phase_at t (phase_to t ph c) = Some ph.
Proof.
  intros [r Hr]%lookup_lt_is_Some. unfold phase_at. simpl. by rewrite list_lookup_alter_eq, Hr.
Qed.

Lemma remove_pending_length id c : length (cl_requests (remove_pending id c)) = length (cl_requests c).
Proof. unfold remove_pending. case_match; [|done]. simpl. by rewrite length_alter. Qed.

Lemma phase_at_finish t id result c :
  (t < length (cl_requests c))%nat -> phase_at t (finish t id result c) = Some (Phase.Finished result).
Proof. intros Ht. apply phase_at_to. by rewrite remove_pending_length. Qed.

(** What a request that looks at its channel and at the token returns. *)
Definition answer (ch : Chan.t) : JdwpError.t + list N :=
  match ch with
  | Chan.Sent (inr reply) => result_of reply
  | Chan.Sent (inl e) => inl e
  | Chan.Closed => inl JdwpError.ConnectionClosed
  | Chan.Empty => inl JdwpError.Cancelled
  end.

(** How many looks a request that waits for its reply has left. *)
Definition looks_left (ph : option Phase.t) : nat :=
  match ph with Some Phase.Waiting => 2 | Some Phase.Polled => 1 | _ => 0 end.

Lemma waiting_answers t r c :
  cl_requests c !! t = Some r -> rq_phase r = Phase.Waiting -> cl_shutdown c = true ->
  exists c', rtc (own_step t) c c' /\ phase_at t c' = Some (Phase.Finished (answer (rq_chan r))).
Proof.
  intros Hr Hp Hs. pose proof (lookup_lt_Some _ _ _ Hr) as Hlt. destruct (rq_chan r) as [|[e|reply]|] eqn:Hc; simpl.
  - set (c1 := phase_to t Phase.Polled c). set (r1 := set_phase Phase.Polled r).
    assert (Hr1 : cl_requests c1 !! t = Some r1) by (simpl; by rewrite list_lookup_alter_eq, Hr).
    exists (finish t (rq_id r1) (inl JdwpError.Cancelled) c1). split.
    + eapply rtc_l; [exists r; split; [done|by apply rs_poll]|]. apply rtc_once. exists r1. split; [done|]. by apply rs_cancelled.
    + apply phase_at_finish. simpl. by rewrite length_alter.
  - exists (finish t (rq_id r) (inl e) c). split; [|by apply phase_at_finish].
    apply rtc_once. exists r. split; [done|]. by apply rs_error.
  - eexists. split; [apply rtc_once; exists r; split; [done|by apply (rs_reply t r c reply)]|]. by apply phase_at_to.
  - exists (finish t (rq_id r) (inl JdwpError.ConnectionClosed) c). split; [|by apply phase_at_finish].
    apply rtc_once. exists r. split; [done|]. by apply rs_closed.
Qed.

Lemma looks_decrease t r c c' :
  cl_requests c !! t = Some r -> rq_phase r = Phase.Waiting \/ rq_phase r = Phase.Polled -> cl_shutdown c = true ->
  request_step t r c c' -> (looks_left (phase_at t c') < looks_left (Some (rq_phase r)))%nat.
Proof.
  intros Hr Hph Hs Hq. pose proof (lookup_lt_Some _ _ _ Hr) as Hlt.
  destruct Hq as [Hp|Hp Hw|chunk rest Hp|Hp|rest Hp|reply Hp Hc|e Hp Hc|Hp Hc|Hp Hc|Hp|Hp Hsd|Hp Hsd|Ha];
    try (rewrite Hp in Hph; by destruct Hph).
  7: by rewrite Hs in Hsd.
  7: { unfold stop_writing. destruct (rq_phase r) eqn:Hp; try (by destruct Ha, Hph);
         try (by destruct Hph). rewrite phase_at_to by (by rewrite remove_pending_length). simpl. lia. }
  all: rewrite Hp; first [rewrite phase_at_finish by done | rewrite phase_at_to by done]; simpl; lia.
Qed.

(** C8: No request hangs on a closed connection.  In every reachable state in which the read loop is
    at its end, a request that waits for its reply finishes by itself: it returns what was sent to
    its channel, that the channel was closed, or that it was cancelled; and every step that it
    takes, in whatever order with those of others, brings it closer to that. *)
Theorem no_request_hangs c t r :
  reachable c -> cl_loop c = Loop.Terminated -> cl_requests c !! t = Some r ->
  rq_phase r = Phase.Waiting \/ rq_phase r = Phase.Polled ->
  (exists c' result, rtc (own_step t) c c' /\ phase_at t c' = Some (Phase.Finished result) /\
     (rq_phase r = Phase.Waiting -> result = answer (rq_chan r))) /\
  (forall c', request_step t r c c' -> (looks_left (phase_at t c') < looks_left (Some (rq_phase r)))%nat).
Proof.
  intros Hr Hl Ht Hp. pose proof (terminated_shutdown c Hr Hl) as Hs.
  split; [|intros c' Hq; by apply (looks_decrease t r c)]. destruct Hp as [Hp|Hp].
  - destruct (waiting_answers t r c Ht Hp Hs) as (c' & Hrtc & Hres). by exists c', (answer (rq_chan r)).
  - exists (finish t (rq_id r) (inl JdwpError.Cancelled) c), (inl JdwpError.Cancelled). split_and!.
    + apply rtc_once. exists r. split; [done|]. by apply rs_cancelled.
    + apply phase_at_finish. by eapply lookup_lt_Some.
    + congruence.
Qed.

(** ** Runs *)

(** The steps as functions, for concrete runs. *)
Module Action.
Inductive t :=
| Begin (command_set command : N) (payload : list N)
| Insert (ticket : nat)
| Lock (ticket : nat)
| Write (ticket : nat) (bytes : nat)
| Written (ticket : nat)
| Poll (ticket : nat)
| Token (ticket : nat)
| Drop (ticket : nat)
| Round
| Take
| Send
| End
| Arrive (bytes : list N)
| Close.
End Action.

Definition at_phase (t : nat) (c : client) (f : request -> option client) : option client := cl_requests c !! t ≫= f.

Definition act (a : Action.t) (c : client) : option client :=
  match a with
  | Action.Begin cs cmd payload => match begin_request cs cmd payload c with inr c' => Some c' | inl _ => None end
  | Action.Insert t => at_phase t c (fun r =>
      match rq_phase r with Phase.New => Some (insert_pending t (rq_id r) c) | _ => None end)
  | Action.Lock t => at_phase t c (fun r =>
      match rq_phase r, cl_writer c with
      | Phase.Inserted, None =>
          Some (phase_to t (Phase.Writing (rq_packet r)) (with_writer (Some t) (cl_torn c) (cl_output c) c))
      | _, _ => None
      end)
  | Action.Write t n => at_phase t c (fun r =>
      match rq_phase r with
      | Phase.Writing rest =>
          Some (phase_to t (Phase.Writing (drop n rest)) (with_writer (cl_writer c) (cl_torn c) (cl_output c ++ take n rest) c))
      | _ => None
      end)
  | Action.Written t => at_phase t c (fun r =>
      match rq_phase r with
      | Phase.Writing [] => Some (phase_to t Phase.Waiting (with_writer None (cl_torn c) (cl_output c) c))
      | _ => None
      end)
  | Action.Poll t => at_phase t c (fun r =>
      match rq_phase r, rq_chan r with
      | Phase.Waiting, Chan.Sent (inr reply) => Some (phase_to t (Phase.Finished (result_of reply)) c)
      | Phase.Waiting, Chan.Sent (inl e) => Some (finish t (rq_id r) (inl e) c)
      | Phase.Waiting, Chan.Closed => Some (finish t (rq_id r) (inl JdwpError.ConnectionClosed) c)
      | Phase.Waiting, Chan.Empty => Some (phase_to t Phase.Polled c)
      | _, _ => None
      end)
  | Action.Token t => at_phase t c (fun r =>
      match rq_phase r, cl_shutdown c with
      | Phase.Polled, true => Some (finish t (rq_id r) (inl JdwpError.Cancelled) c)
      | Phase.Polled, false => Some (phase_to t Phase.Waiting c)
      | _, _ => None
      end)
  | Action.Drop t => at_phase t c (fun r =>
      match rq_phase r with
      | Phase.Inserted | Phase.Writing _ | Phase.Waiting =>
          Some (phase_to t Phase.Dropped (remove_pending (rq_id r) (stop_writing r c)))
      | _ => None
      end)
  | Action.Round => match cl_loop c with Loop.Reading => loop_round c | _ => None end
  | Action.Take =>
      match cl_loop c with
      | Loop.Ended (Some e) =>
          Some (with_loop (Loop.Draining (drain_error e) (map_to_list (cl_pending c)).*2) (with_pending ∅ c))
      | _ => None
      end
  | Action.Send =>
      match cl_loop c with
      | Loop.Draining e (t :: ts) => Some (with_loop (Loop.Draining e ts) (chan_to t (Chan.Sent (inl e)) c))
      | _ => None
      end
  | Action.End =>
      match cl_loop c with
      | Loop.Draining _ [] | Loop.Ended None => Some (with_loop Loop.Terminated (cancel c))
      | _ => None
      end
  | Action.Arrive bytes =>
      if negb (cl_closed c) && forallb (fun b => b <? 256) bytes
      then Some (with_input (cl_input c ++ bytes) false (cl_received c) c) else None
  | Action.Close => Some (with_input (cl_input c) true (cl_received c) c)
  end.

Lemma at_phase_sound t c f c' :
  at_phase t c f = Some c' -> (forall r, f r = Some c' -> request_step t r c c') -> step c c'.
Proof.
  unfold at_phase. intros (r & Hr & Hf)%bind_Some Hs. eapply st_request; [exact Hr|by apply Hs].
Qed.

Lemma act_sound a c c' : act a c = Some c' -> step c c'.
Proof.
  destruct a; simpl; intros H;
    try (apply at_phase_sound in H; [exact H|]; intros r Hf; clear H; repeat case_match; simplify_eq).
  - case_match eqn:Hb; simplify_eq. by eapply st_begin.
  - by apply rs_insert.
  - by apply rs_lock.
  - apply rs_write. by rewrite take_drop.
  - by apply rs_written.
  - by apply rs_poll.
  - by apply rs_error.
  - by apply rs_reply.
  - by apply rs_closed.
  - by apply rs_cancelled.
  - by apply rs_again.
  - apply rs_drop. by match goal with H : rq_phase _ = _ |- _ => rewrite H end.
  - apply rs_drop. by match goal with H : rq_phase _ = _ |- _ => rewrite H end.
  - apply rs_drop. by match goal with H : rq_phase _ = _ |- _ => rewrite H end.
  - repeat case_match; simplify_eq; apply st_loop. by apply ls_round.
  - repeat case_match; simplify_eq; apply st_loop. by apply ls_take.
  - repeat case_match; simplify_eq; apply st_loop. by apply ls_send.
  - repeat case_match; simplify_eq; apply st_loop; [by apply ls_quiet|by eapply ls_drained].
  - case_match eqn:Hb; simplify_eq. apply andb_true_iff in Hb as [Hc Hb]. apply st_arrive.
    + by destruct (cl_closed c).
    + apply Forall_forall. intros b Hin. rewrite forallb_forall in Hb. apply N.ltb_lt, Hb. by apply list_elem_of_In.
  - simplify_eq. apply st_close.
Qed.

Definition run_actions (acts : list Action.t) (c : client) : option client := foldl (fun o a => o ≫= act a) (Some c) acts.

Lemma run_actions_sound acts c c' : run_actions acts c = Some c' -> rtc step c c'.
Proof.
  unfold run_actions. revert c. induction acts as [|a acts IH]; intros c; simpl; [by intros [= ->]|].
  destruct (act a c) as [c1|] eqn:Ha.
  - intros H. eapply rtc_l; [by apply (act_sound a)|by apply IH].
  - intros H. exfalso. clear -H. induction acts; simpl in H; [done|auto].
Qed.

(** ** What goes out *)

Definition is_writing (ph : Phase.t) : bool := match ph with Phase.Writing _ => true | _ => false end.

(** The request is done with the connection. *)
Definition past_writing (ph : Phase.t) : bool :=
  match ph with Phase.New | Phase.Inserted | Phase.Writing _ => false | _ => true end.

Definition packet_at (rs : list request) (t : nat) : list N := default [] (rq_packet <$> rs !! t).

(** A packet as [send_command_raw] builds it. *)
Definition good_packet (r : request) : Prop :=
  exists command_set command payload,
    rq_packet r = encode_command (rq_id r) command_set command payload /\
    HEADER_LEN + bytes_left payload <= MAX_JDWP_PACKET_BYTES.

(** The connection carries the whole packets of the requests [ts], and the part of the packet that
    the request with the lock has written. *)
Record stream_ok (rs : list request) (writer : option nat) (output : list N) (ts : list nat) (part : list N) : Prop := {
  so_nodup : NoDup ts;
  so_past : forall t, t ∈ ts -> exists r, rs !! t = Some r /\ past_writing (rq_phase r) = true;
  so_output : output = concat (packet_at rs <$> ts) ++ part;
  so_part : match writer with
    | None => part = []
    | Some w => exists r rest, rs !! w = Some r /\ rq_phase r = Phase.Writing rest /\ rq_packet r = part ++ rest
    end
}.

(** Only the holder of the lock writes. *)
Definition lock_ok (rs : list request) (writer : option nat) : Prop :=
  forall t r, rs !! t = Some r -> is_writing (rq_phase r) = true -> writer = Some t.

Definition output_ok (c : client) : Prop :=
  Forall good_packet (cl_requests c) /\ lock_ok (cl_requests c) (cl_writer c) /\
  (cl_torn c = false -> exists ts part, stream_ok (cl_requests c) (cl_writer c) (cl_output c) ts part).

Lemma packet_at_alter f t rs u :
  (forall r, rq_packet (f r) = rq_packet r) -> packet_at (alter f t rs) u = packet_at rs u.
Proof.
  intros Hf. unfold packet_at. destruct (decide (u = t)) as [->|Hne]; [|by rewrite list_lookup_alter_ne].
  rewrite list_lookup_alter_eq. destruct (rs !! t); simpl; [by rewrite Hf|done].
Qed.

(** A change of a request that does not write. *)
Lemma stream_ok_change rs writer output ts part t f :
  (forall r, rq_packet (f r) = rq_packet r) ->
  (forall r, rs !! t = Some r -> rq_phase (f r) = rq_phase r \/
    is_writing (rq_phase r) = false /\ (past_writing (rq_phase r) = true -> past_writing (rq_phase (f r)) = true)) ->
  stream_ok rs writer output ts part -> stream_ok (alter f t rs) writer output ts part.
Proof.
  intros Hpk Hph [Hnd Hpast Hout Hpart]. split; [done| | |].
  - intros u Hu. destruct (Hpast u Hu) as (r & Hr & Hp). destruct (decide (u = t)) as [->|Hne].
    + exists (f r). rewrite list_lookup_alter_eq, Hr. split; [done|]. destruct (Hph r Hr) as [->|[_ H]]; auto.
    + exists r. by rewrite list_lookup_alter_ne.
  - rewrite Hout. do 2 f_equal. apply list_fmap_ext. intros i u _. symmetry. by apply packet_at_alter.
  - destruct writer as [w|]; [|done]. destruct Hpart as (r & rest & Hr & Hp & Hpkt).
    destruct (decide (w = t)) as [->|Hne]; [|exists r, rest; by rewrite list_lookup_alter_ne].
    exists (f r), rest. rewrite list_lookup_alter_eq, Hr, Hpk. split_and!; [done| |done].
    destruct (Hph r Hr) as [->|[Hw _]]; [done|]. by rewrite Hp in Hw.
Qed.

Lemma lock_ok_change rs writer t f :
  (forall r, rs !! t = Some r -> is_writing (rq_phase (f r)) = true -> writer = Some t) ->
  lock_ok rs writer -> lock_ok (alter f t rs) writer.
Proof.
  intros Hf Hok u r Hr Hw. apply lookup_alter_Some in Hr as [[-> (s & Hs & ->)]|[_ Hr]]; [by eapply Hf|by eapply Hok].
Qed.

(** The changes that leave the connection alone. *)
Definition quiet (t : nat) (rs : list request) (f : request -> request) : Prop :=
  (forall r, rq_packet (f r) = rq_packet r /\ rq_id (f r) = rq_id r) /\
  forall r, rs !! t = Some r -> rq_phase (f r) = rq_phase r \/
    is_writing (rq_phase r) = false /\ is_writing (rq_phase (f r)) = false /\
    (past_writing (rq_phase r) = true -> past_writing (rq_phase (f r)) = true).

Lemma quiet_ok c c' t f :
  quiet t (cl_requests c) f -> cl_requests c' = alter f t (cl_requests c) -> cl_writer c' = cl_writer c ->
  cl_output c' = cl_output c -> cl_torn c' = cl_torn c -> output_ok c -> output_ok c'.
Proof.
  intros [Hpk Hph] Hrs Hw Ho Ht (Hgood & Hlock & Hstream). unfold output_ok. rewrite Hrs, Hw, Ho, Ht. split_and!.
  - apply Forall_alter; [done|]. intros r _ (cs & cmd & p & H). exists cs, cmd, p. by destruct (Hpk r) as [-> ->].
  - apply lock_ok_change; [|done]. intros r Hr Hwr. destruct (Hph r Hr) as [He|(_ & H & _)]; [|by rewrite H in Hwr].
    rewrite He in Hwr. by apply (Hlock t r).
  - intros Htorn. destruct (Hstream Htorn) as (ts & part & Hs). exists ts, part. apply stream_ok_change; [apply Hpk| |done].
    intros r Hr. destruct (Hph r Hr) as [->|(? & _ & ?)]; [by left|by right].
Qed.

Lemma same_ok c c' :
  cl_requests c' = cl_requests c -> cl_writer c' = cl_writer c -> cl_output c' = cl_output c -> cl_torn c' = cl_torn c ->
  output_ok c -> output_ok c'.
Proof. unfold output_ok. by intros -> -> -> ->. Qed.

Lemma chan_quiet t rs ch : quiet t rs (set_chan ch).
Proof. split; [done|]. intros r _. by left. Qed.

Lemma phase_quiet t rs r ph :
  rs !! t = Some r -> is_writing (rq_phase r) = false -> is_writing ph = false ->
  (past_writing (rq_phase r) = true -> past_writing ph = true) -> quiet t rs (set_phase ph).
Proof. intros Hr Hw Hp Hpast. split; [done|]. intros s Hs. rewrite Hr in Hs. injection Hs as <-. by right. Qed.

Lemma chan_to_output t ch c : output_ok c -> output_ok (chan_to t ch c).
Proof. intros Hok. apply (quiet_ok c _ t (set_chan ch)); [apply chan_quiet|done..]. Qed.

Lemma remove_pending_output id c : output_ok c -> output_ok (remove_pending id c).
Proof. intros Hok. unfold remove_pending. case_match; [|done]. by apply chan_to_output. Qed.

Lemma remove_pending_at id c t r : cl_requests c !! t = Some r ->
  exists s, cl_requests (remove_pending id c) !! t = Some s /\ rq_phase s = rq_phase r /\ rq_packet s = rq_packet r.
Proof.
  intros Hr. unfold remove_pending. destruct (cl_pending c !! id) as [u|]; [|by exists r]. simpl.
  destruct (decide (t = u)) as [->|Hne].
  - exists (set_chan Chan.Closed r). by rewrite list_lookup_alter_eq, Hr.
  - exists r. by rewrite list_lookup_alter_ne.
Qed.

Lemma phase_to_output c t r ph :
  cl_requests c !! t = Some r -> is_writing (rq_phase r) = false -> is_writing ph = false ->
  (past_writing (rq_phase r) = true -> past_writing ph = true) -> output_ok c -> output_ok (phase_to t ph c).
Proof. intros Hr Hw Hp Hpast Hok. apply (quiet_ok c _ t (set_phase ph)); [by eapply phase_quiet|done..]. Qed.

Lemma good_packets_phase c t ph : Forall good_packet (cl_requests c) -> Forall good_packet (cl_requests (phase_to t ph c)).
Proof. intros H. apply Forall_alter; [done|]. by intros r _. Qed.

(** The requests in [ts] are not the one that changes. *)
Lemma stream_past_alter (rs : list request) (ts : list nat) t r ph :
  rs !! t = Some r -> past_writing (rq_phase r) = false ->
  (forall u, u ∈ ts -> exists s, rs !! u = Some s /\ past_writing (rq_phase s) = true) ->
  t ∉ ts /\ forall u, u ∈ ts -> exists s, alter (set_phase ph) t rs !! u = Some s /\ past_writing (rq_phase s) = true.
Proof.
  intros Hr Hp Hpast. assert (Ht : t ∉ ts). { intros Hin. destruct (Hpast t Hin) as (s & Hs & Hps). simplify_eq. congruence. }
  split; [done|]. intros u Hu. rewrite list_lookup_alter_ne by set_solver. by apply Hpast.
Qed.

Lemma packets_alter rs (ts : list nat) t ph : packet_at (alter (set_phase ph) t rs) <$> ts = packet_at rs <$> ts.
Proof. apply list_fmap_ext. intros i u _. by apply packet_at_alter. Qed.

Lemma lock_output c t r :
  cl_requests c !! t = Some r -> rq_phase r = Phase.Inserted -> cl_writer c = None -> output_ok c ->
  output_ok (phase_to t (Phase.Writing (rq_packet r)) (with_writer (Some t) (cl_torn c) (cl_output c) c)).
Proof.
  intros Hr Hp Hw (Hgood & Hlock & Hstream). split_and!; [by apply good_packets_phase|..]; simpl.
  - intros u s Hs Hws. apply lookup_alter_Some in Hs as [[-> _]|[_ Hs]]; [done|]. rewrite (Hlock u s Hs Hws) in Hw. done.
  - intros Ht. destruct (Hstream Ht) as (ts & part & [Hnd Hpast Hout Hpart]). rewrite Hw in Hpart. subst part.
    destruct (stream_past_alter _ ts t r (Phase.Writing (rq_packet r)) Hr ltac:(by rewrite Hp) Hpast) as [Hnt Hpast'].
    exists ts, []. split; [done|done|by rewrite packets_alter|].
    eexists _, _. rewrite list_lookup_alter_eq, Hr. split_and!; [done..|]. done.
Qed.

Lemma write_output c t r chunk rest :
  cl_requests c !! t = Some r -> rq_phase r = Phase.Writing (chunk ++ rest) -> output_ok c ->
  output_ok (phase_to t (Phase.Writing rest) (with_writer (cl_writer c) (cl_torn c) (cl_output c ++ chunk) c)).
Proof.
  intros Hr Hp (Hgood & Hlock & Hstream). assert (Hw : cl_writer c = Some t) by (apply (Hlock t r Hr); by rewrite Hp).
  split_and!; [by apply good_packets_phase|..]; simpl.
  - apply lock_ok_change; [by intros; rewrite Hw|done].
  - intros Ht. destruct (Hstream Ht) as (ts & part & [Hnd Hpast Hout Hpart]). rewrite Hw in Hpart.
    destruct Hpart as (s & rest' & Hs & Hps & Hpk). rewrite Hr in Hs. injection Hs as <-. rewrite Hp in Hps. injection Hps as <-.
    destruct (stream_past_alter _ ts t r (Phase.Writing rest) Hr ltac:(by rewrite Hp) Hpast) as [Hnt Hpast'].
    exists ts, (part ++ chunk). split; [done|done|by rewrite packets_alter, Hout, <-app_assoc|].
    rewrite Hw. eexists _, _. rewrite list_lookup_alter_eq, Hr. split_and!; [done..|]. simpl. by rewrite Hpk, app_assoc.
Qed.

(** A request that leaves the connection, done or not. *)
Lemma release_output c t r ph :
  cl_requests c !! t = Some r -> is_writing ph = false -> past_writing ph = true -> output_ok c ->
  output_ok (phase_to t ph (stop_writing r c)).
Proof.
  intros Hr Hph Hpast Hok. unfold stop_writing. destruct (rq_phase r) as [| |rest| | | |] eqn:Hp;
    try (apply (phase_to_output c t r); [done|by rewrite Hp|done..]).
  destruct Hok as (Hgood & Hlock & Hstream). assert (Hw : cl_writer c = Some t) by (apply (Hlock t r Hr); by rewrite Hp).
  split_and!; [by apply (good_packets_phase c)|..]; simpl.
  - intros u s Hs Hws. apply lookup_alter_Some in Hs as [[-> (y & _ & ->)]|[Hne Hs]]; [simpl in Hws; congruence|].
    rewrite (Hlock u s Hs Hws) in Hw. congruence.
  - intros [Ht Hpartial]%orb_false_iff. destruct (Hstream Ht) as (ts & part & [Hnd Hps Hout Hpart]). rewrite Hw in Hpart.
    destruct Hpart as (s & rest' & Hs & Hps' & Hpk). rewrite Hr in Hs. injection Hs as <-. rewrite Hp in Hps'. injection Hps' as <-.
    destruct (stream_past_alter _ ts t r ph Hr ltac:(by rewrite Hp) Hps) as [Hnt Hpast'].
    destruct (bool_decide_reflect (rest = [])) as [->|Hrest].
    + exists (ts ++ [t]), []. split; [| | |done].
      * apply NoDup_app. split_and!; [done|set_solver|apply NoDup_singleton].
      * intros u [Hu|Hu]%elem_of_app; [by apply Hpast'|]. apply list_elem_of_singleton in Hu as ->.
        exists (set_phase ph r). by rewrite list_lookup_alter_eq, Hr.
      * rewrite fmap_app, concat_app, packets_alter, app_nil_r, Hout. f_equal. simpl. rewrite app_nil_r.
        rewrite packet_at_alter by done. unfold packet_at. rewrite Hr. simpl. by rewrite Hpk, app_nil_r.
    + simpl in Hpartial. apply negb_false_iff, bool_decide_eq_true in Hpartial as ->.
      assert (part = []) as ->. { apply (f_equal length) in Hpk. rewrite length_app in Hpk. destruct part; [done|simpl in Hpk; lia]. }
      exists ts, []. split; [done|done|by rewrite packets_alter|done].
Qed.

Lemma remove_stop id r c : remove_pending id (stop_writing r c) = stop_writing r (remove_pending id c).
Proof. unfold remove_pending, stop_writing. destruct (rq_phase r); simpl; by destruct (cl_pending c !! id). Qed.

Lemma stop_writing_ext r s c : rq_phase s = rq_phase r -> rq_packet s = rq_packet r -> stop_writing s c = stop_writing r c.
Proof. unfold stop_writing. by intros -> ->. Qed.

Lemma leave_output c t r id ph :
  cl_requests c !! t = Some r -> is_writing ph = false -> past_writing ph = true -> output_ok c ->
  output_ok (phase_to t ph (remove_pending id (stop_writing r c))).
Proof.
  intros Hr Hph Hpast Hok. rewrite remove_stop. destruct (remove_pending_at id c t r Hr) as (s & Hs & Hps & Hpk).
  rewrite <-(stop_writing_ext r s) by done. apply release_output; [done..|]. by apply remove_pending_output.
Qed.

Lemma finish_output c t r id result :
  cl_requests c !! t = Some r -> is_writing (rq_phase r) = false -> output_ok c -> output_ok (finish t id result c).
Proof.
  intros Hr Hw Hok. assert (Hs : stop_writing r c = c) by (unfold stop_writing; by destruct (rq_phase r)).
  pose proof (leave_output c t r id (Phase.Finished result) Hr eq_refl eq_refl Hok) as H. by rewrite Hs in H.
Qed.

Lemma written_output c t r :
  cl_requests c !! t = Some r -> rq_phase r = Phase.Writing [] -> output_ok c ->
  output_ok (phase_to t Phase.Waiting (with_writer None (cl_torn c) (cl_output c) c)).
Proof.
  intros Hr Hp Hok. pose proof (release_output c t r Phase.Waiting Hr eq_refl eq_refl Hok) as H.
  unfold stop_writing in H. rewrite Hp in H. simpl in H. by rewrite orb_false_r in H.
Qed.

Lemma request_step_output t r c c' :
  output_ok c -> cl_requests c !! t = Some r -> request_step t r c c' -> output_ok c'.
Proof.
  intros Hok Hr. destruct 1 as [Hp|Hp Hw|chunk rest Hp|Hp|rest Hp|reply Hp Hc|e Hp Hc|Hp Hc|Hp Hc|Hp|Hp Hs|Hp Hs|Ha].
  - destruct (remove_pending_at (rq_id r) c t r Hr) as (s & Hs & Hps & _).
    apply (phase_to_output _ t s); [done|by rewrite Hps, Hp|done|by rewrite Hps, Hp|].
    by apply (remove_pending_output (rq_id r) c).
  - by apply lock_output.
  - by apply (write_output c t r).
  - by apply (written_output c t r).
  - by apply leave_output.
  - by apply (phase_to_output c t r); [|rewrite Hp|..].
  - by apply (finish_output c t r); [|rewrite Hp|].
  - by apply (finish_output c t r); [|rewrite Hp|].
  - by apply (phase_to_output c t r); [|rewrite Hp|..].
  - by apply (finish_output c t r); [|rewrite Hp|].
  - by apply (finish_output c t r); [|rewrite Hp|].
  - by apply (phase_to_output c t r); [|rewrite Hp|..].
  - by apply leave_output.
Qed.

Lemma loop_step_output c c' : output_ok c -> loop_step c c' -> output_ok c'.
Proof.
  intros Hok. destruct 1 as [c' Hl Hr|Hl Hs|e ts Hl Hts|e t ts Hl|e Hl|Hl]; try (by apply (same_ok c)).
  - unfold loop_round in Hr. repeat case_match; simplify_eq; try (by apply (same_ok c)).
    unfold deliver. case_match; [|by apply (same_ok c)]. by apply chan_to_output, (same_ok c).
  - apply (same_ok (chan_to t (Chan.Sent (inl e)) c)); [done..|]. by apply chan_to_output.
Qed.

Lemma begin_output cs cmd payload c c' :
  begin_request cs cmd payload c = inr c' -> output_ok c -> output_ok c'.
Proof.
  unfold begin_request. destruct (N.ltb_spec MAX_JDWP_PACKET_BYTES (HEADER_LEN + bytes_left payload)) as [|Hlen]; [done|].
  intros [= <-] (Hgood & Hlock & Hstream). split_and!; simpl.
  - apply Forall_app. split; [done|]. apply Forall_singleton. by exists cs, cmd, payload.
  - intros t r [Hr|[_ Hr]]%lookup_app_Some Hw; [by apply (Hlock t r)|].
    by apply list_lookup_singleton_Some in Hr as [_ <-].
  - intros Ht. destruct (Hstream Ht) as (ts & part & [Hnd Hpast Hout Hpart]). exists ts, part. split; [done| | |].
    + intros t Hin. destruct (Hpast t Hin) as (r & Hr & Hp). exists r. by rewrite (lookup_app_l_Some _ _ _ _ Hr).
    + rewrite Hout. do 2 f_equal. apply list_fmap_ext. intros i t Hi. apply list_elem_of_lookup_2 in Hi.
      destruct (Hpast t Hi) as (r & Hr & _). unfold packet_at. by rewrite Hr, (lookup_app_l_Some _ _ _ _ Hr).
    + destruct (cl_writer c) as [w|]; [|done]. destruct Hpart as (r & rest & Hr & Hrest). exists r, rest.
      by rewrite (lookup_app_l_Some _ _ _ _ Hr).
Qed.

Lemma reachable_output c : reachable c -> output_ok c.
Proof.
  revert c. apply reachable_ind.
  - intros sizes. split_and!; [done|by intros t r Hr|]. intros _. exists [], []. by split; [constructor|intros t []%elem_of_nil|..].
  - intros c c' _ Hok Hs. destruct Hs as [cs cmd payload c' Hb|t r c' Hr Hq|c' Hl| | | |]; try (by apply (same_ok c)).
    + by eapply begin_output.
    + by eapply request_step_output.
    + by eapply loop_step_output.
Qed.

(** The commands that a peer reads off a stream, up to a rest that is not a whole packet. *)
Inductive frames : list N -> list (N * N * N * list N) -> list N -> Prop :=
| frames_end s : read_frame s = Frame.NeedMore -> frames s [] s
| frames_packet s id command_set command payload s' l rest :
    read_frame s = Frame.Packet id 0 command_set command payload s' -> frames s' l rest ->
    frames s ((id, command_set, command, payload) :: l) rest.

Lemma be4_bytes n : exists b0 b1 b2 b3, to_be_bytes 4 n = [b0; b1; b2; b3].
Proof. by do 4 eexists. Qed.

Lemma read_frame_command id cs cmd payload s :
  id < 2 ^ 32 -> HEADER_LEN + bytes_left payload <= MAX_JDWP_PACKET_BYTES ->
  read_frame (encode_command id cs cmd payload ++ s) = Frame.Packet id 0 cs cmd payload s.
Proof.
  intros Hid Hlen. unfold encode_command, write_u32.
  assert (Hsmall : HEADER_LEN + bytes_left payload < 256 ^ N.of_nat 4)
    by (unfold MAX_JDWP_PACKET_BYTES, HEADER_LEN in *; simpl in *; lia).
  pose proof (from_to_be_bytes 4 _ Hsmall) as Hl. pose proof (from_to_be_bytes 4 id Hid) as Hi.
  destruct (be4_bytes (HEADER_LEN + bytes_left payload)) as (l0 & l1 & l2 & l3 & El).
  destruct (be4_bytes id) as (i0 & i1 & i2 & i3 & Ei). rewrite El in *. rewrite Ei in *. cbn [app read_frame].
  rewrite Hl, Hi. unfold validate_jdwp_packet_length. rewrite wbind_ensure by (by apply N.leb_le).
  rewrite (proj2 (N.leb_le HEADER_LEN _)) by (unfold HEADER_LEN; lia). simpl.
  replace (HEADER_LEN + bytes_left payload - HEADER_LEN) with (bytes_left payload) by lia.
  rewrite (proj2 (N.leb_le _ _)) by (rewrite length_app; lia). rewrite Nat2N.id.
  by rewrite take_app_length, drop_app_length.
Qed.

(** A packet that is not complete is not read. *)
Lemma read_frame_partial id cs cmd payload part rest :
  HEADER_LEN + bytes_left payload <= MAX_JDWP_PACKET_BYTES -> rest <> [] ->
  encode_command id cs cmd payload = part ++ rest -> read_frame part = Frame.NeedMore.
Proof.
  intros Hlen Hrest He. unfold encode_command, write_u32 in He.
  assert (Hsmall : HEADER_LEN + bytes_left payload < 256 ^ N.of_nat 4)
    by (unfold MAX_JDWP_PACKET_BYTES, HEADER_LEN in *; simpl in *; lia).
  pose proof (from_to_be_bytes 4 _ Hsmall) as Hl.
  destruct (be4_bytes (HEADER_LEN + bytes_left payload)) as (l0 & l1 & l2 & l3 & El).
  destruct (be4_bytes id) as (i0 & i1 & i2 & i3 & Ei). rewrite El in *. rewrite Ei in *. cbn [app] in He.
  do 11 (destruct part as [|? part]; [done|]; injection He as <- He). unfold read_frame. rewrite Hl.
  unfold validate_jdwp_packet_length. rewrite wbind_ensure by (by apply N.leb_le).
  rewrite (proj2 (N.leb_le HEADER_LEN _)) by (unfold HEADER_LEN; lia). simpl.
  replace (HEADER_LEN + bytes_left payload - HEADER_LEN) with (bytes_left payload) by lia.
  rewrite (proj2 (N.leb_gt _ _)); [done|]. rewrite He, length_app. destruct rest; [done|simpl; lia].
Qed.

Lemma frames_concat rs (ts : list nat) part :
  Forall good_packet rs -> (forall t r, rs !! t = Some r -> rq_id r < 2 ^ 32) ->
  (forall t, t ∈ ts -> exists r, rs !! t = Some r) -> read_frame part = Frame.NeedMore ->
  exists l, frames (concat (packet_at rs <$> ts) ++ part) l part /\
    Forall2 (fun t '(id, _, _, _) => rq_id <$> rs !! t = Some id) ts l.
Proof.
  intros Hgood Hid Hts Hpart. induction ts as [|t ts IH]; simpl.
  - exists []. split; [by constructor|constructor].
  - destruct IH as (l & Hl & H2); [set_solver|]. destruct (Hts t) as [r Hr]; [left|].
    pose proof (Forall_lookup_1 _ _ _ _ Hgood Hr) as (cs & cmd & payload & Hpk & Hlen).
    exists ((rq_id r, cs, cmd, payload) :: l). split; [|constructor; [by rewrite Hr|done]].
    unfold packet_at at 1. rewrite Hr. simpl. rewrite Hpk, <-app_assoc.
    eapply frames_packet; [|exact Hl]. apply read_frame_command; [by eapply Hid|done].
Qed.

(** C25: The peer can take the stream apart.  In every reachable state, as long as no request was
    stopped in the middle of its packet, what was written to the connection is a sequence of whole
    command packets, at most one per request and each with the id of its request, and then a part
    of the packet of the request that holds the lock: packets of different requests do not mix. *)
Theorem output_framed c :
  reachable c -> cl_torn c = false ->
  exists ts l part, NoDup ts /\ frames (cl_output c) l part /\
    Forall2 (fun t '(id, _, _, _) => rq_id <$> cl_requests c !! t = Some id) ts l /\
    (part = [] \/ exists w rest, cl_writer c = Some w /\ w ∉ ts /\ rest <> [] /\
       packet_at (cl_requests c) w = part ++ rest).
Proof.
  intros Hr Ht. destruct (reachable_output c Hr) as (Hgood & Hlock & Hstream).
  destruct (Hstream Ht) as (ts & part & [Hnd Hpast Hout Hpart]).
  assert (Hid : forall t r, cl_requests c !! t = Some r -> rq_id r < 2 ^ 32).
  { intros t r Hr'. rewrite (ids_all c (reachable_ids c Hr) t r Hr'). by apply N.mod_lt. }
  assert (Hex : forall t, t ∈ ts -> exists r, cl_requests c !! t = Some r) by (intros t Hin; destruct (Hpast t Hin); naive_solver).
  destruct (cl_writer c) as [w|].
  - destruct Hpart as (r & rest & Hw & Hph & Hpk).
    assert (Hnw : w ∉ ts). { intros Hin. destruct (Hpast w Hin) as (s & Hs & Hps). simplify_eq. by rewrite Hph in Hps. }
    destruct (decide (rest = [])) as [->|Hrest].
    + destruct (frames_concat (cl_requests c) (ts ++ [w]) [] Hgood Hid) as (l & Hl & H2); [set_solver|done|].
      exists (ts ++ [w]), l, []. split_and!; [|rewrite Hout|done|by left].
      * apply NoDup_app. split_and!; [done|set_solver|apply NoDup_singleton].
      * rewrite fmap_app, concat_app, app_nil_r in Hl. simpl in Hl. unfold packet_at at 2 in Hl. rewrite Hw in Hl.
        simpl in Hl. by rewrite Hpk, !app_nil_r in Hl.
    + pose proof (Forall_lookup_1 _ _ _ _ Hgood Hw) as (cs & cmd & payload & Hpk' & Hlen).
      destruct (frames_concat (cl_requests c) ts part Hgood Hid Hex) as (l & Hl & H2).
      { eapply read_frame_partial; [done|done|]. by rewrite <-Hpk'. }
      exists ts, l, part. rewrite Hout. split_and!; [done..|]. right. exists w, rest. split_and!; [done..|].
      unfold packet_at. by rewrite Hw.
  - subst part. destruct (frames_concat (cl_requests c) ts [] Hgood Hid Hex eq_refl) as (l & Hl & H2).
    exists ts, l, []. rewrite Hout. split_and!; [done..|by left].
Qed.

(** ** Two races *)

Definition after (acts : list Action.t) : option client := run_actions acts (client_new id_sizes_default).

Lemma after_reachable acts c : after acts = Some c -> reachable c.
Proof. intros H. exists id_sizes_default. by apply (run_actions_sound acts). Qed.

(** A run ends in a state that passes a test. *)
Lemma after_exists acts (P : client -> bool) :
  match after acts with Some c => P c | None => false end = true -> exists c, reachable c /\ P c = true.
Proof. destruct (after acts) as [c|] eqn:Hc; [|done]. intros HP. exists c. split; [by eapply after_reachable|done]. Qed.

(** A request is sent in full; it waits. *)
Definition ask (t : nat) : list Action.t :=
  [Action.Begin 1 7 []; Action.Insert t; Action.Lock t; Action.Write t 11; Action.Written t].

Definition sample_reply : list N := encode_reply 1 0 [7].
Definition sample_disconnect : list N := encode_command 9 64 100 ([0] ++ write_u32 1 ++ [100] ++ write_i32 0).

(** The test that the first request was sent a reply and returned that it was cancelled. *)
Definition lost_reply (c : client) : bool :=
  match cl_requests c with
  | [mkRequest _ _ (Phase.Finished (inl JdwpError.Cancelled)) (Chan.Sent (inr (mkReply 0 _)))] => true
  | _ => false
  end.

(** A reply can still lose against the shutdown.  The request polls its channel before the
    token, and the loop answers pending requests before it cancels the token, so that a request
    that has its reply returns it; but the two polls are not one step: there is a run in which the
    reply to a request is delivered, without an error, after the first poll and the token is
    cancelled before the second, and the request returns that it was cancelled. *)
Theorem reply_lost_between_polls :
  exists c r reply, reachable c /\ cl_requests c !! 0%nat = Some r /\ rq_chan r = Chan.Sent (inr reply) /\
    re_error_code reply = 0 /\ (rq_id r, reply) ∈ cl_received c /\
    rq_phase r = Phase.Finished (inl JdwpError.Cancelled).
Proof.
  destruct (after_exists (ask 0 ++ [Action.Poll 0; Action.Arrive (sample_reply ++ sample_disconnect); Action.Round;
    Action.Round; Action.Token 0]) (fun c => lost_reply c && bool_decide (few_requests c))) as (c & Hr & HP);
    [vm_compute; reflexivity|].
  apply andb_true_iff in HP as [HP Hf%bool_decide_eq_true]. pose proof (reachable_log c Hr Hf) as [Hlog _].
  unfold lost_reply in HP. destruct (cl_requests c) as [|[id pk ph ch] [|]] eqn:Hrs; try done; [|by repeat case_match].
  destruct ph as [| | | | |[[]|]|]; try done. destruct ch as [|[|[code payload]]|]; try done. destruct code; [|done].
  eexists c, _, _. rewrite Hrs. split_and!; [done..| |done].
  apply Forall_inv in Hlog as [Hin _]. exact Hin.
Qed.

(** The request [t] is dropped in the step from [c] to [d], with [part] of its packet written and some of it not. *)
Definition drops_midway (t : nat) (part : list N) (c d : client) : Prop :=
  exists r rest, cl_requests c !! t = Some r /\ rq_phase r = Phase.Writing rest /\ rq_packet r = part ++ rest /\
    part <> [] /\ rest <> [] /\ request_step t r c d /\ phase_at t d = Some Phase.Dropped.

(** Only the drop ends in this phase. *)
Lemma drops_midway_state t part c d :
  drops_midway t part c d -> exists r rest, cl_requests c !! t = Some r /\ rq_phase r = Phase.Writing rest /\
    rq_packet r = part ++ rest /\ rest <> [] /\ d = phase_to t Phase.Dropped (remove_pending (rq_id r) (stop_writing r c)).
Proof.
  intros (r & rest & Hr & Hp & Hpk & _ & Hrest & Hstep & Hd). exists r, rest. split_and!; [done..|].
  pose proof (lookup_lt_Some _ _ _ Hr) as Hlt.
  destruct Hstep as [Hq|Hq Hw|chunk rest' Hq|Hq|rest' Hq|reply Hq Hc|x Hq Hc|Hq Hc|Hq Hc|Hq|Hq Hs|Hq Hs|Ha];
    try (rewrite Hq in Hp; done); try done; exfalso; revert Hd.
  - by rewrite phase_at_to.
  - by rewrite phase_at_to.
  - rewrite phase_at_finish; [done|]. unfold stop_writing. by rewrite Hp.
Qed.

(** A request that waits for a free lock writes its packet and waits for its reply. *)
Lemma writes_in_full u s d :
  cl_requests d !! u = Some s -> rq_phase s = Phase.Inserted -> cl_writer d = None ->
  exists e, rtc (own_step u) d e /\ phase_at u e = Some Phase.Waiting /\ cl_output e = cl_output d ++ rq_packet s.
Proof.
  intros Hs Hp Hw. set (d1 := phase_to u (Phase.Writing (rq_packet s)) (with_writer (Some u) (cl_torn d) (cl_output d) d)).
  assert (H1 : cl_requests d1 !! u = Some (set_phase (Phase.Writing (rq_packet s)) s)) by (simpl; by rewrite list_lookup_alter_eq, Hs).
  set (d2 := phase_to u (Phase.Writing []) (with_writer (cl_writer d1) (cl_torn d1) (cl_output d1 ++ rq_packet s) d1)).
  assert (H2 : cl_requests d2 !! u = Some (set_phase (Phase.Writing []) s))
    by (unfold d2; cbn [phase_to with_requests with_writer cl_requests]; by rewrite list_lookup_alter_eq, H1).
  exists (phase_to u Phase.Waiting (with_writer None (cl_torn d2) (cl_output d2) d2)). split_and!.
  - eapply rtc_l; [exists s; split; [done|by apply rs_lock]|].
    eapply rtc_l; [eexists; split; [exact H1|]; apply (rs_write _ _ _ (rq_packet s) []); simpl; by rewrite app_nil_r|].
    apply rtc_once. eexists; split; [exact H2|by apply rs_written].
  - apply phase_at_to. by eapply lookup_lt_Some.
  - done.
Qed.

(** A packet is as long as the bytes it is read from. *)
Lemma read_frame_length s id flags b9 b10 payload rest :
  read_frame s = Frame.Packet id flags b9 b10 payload rest -> length s = (11 + length payload + length rest)%nat.
Proof.
  do 11 (destruct s as [|? s]; [done|]). unfold read_frame. destruct (validate_jdwp_packet_length _) as [[]| |]; try done.
  destruct (N.leb_spec (from_be_bytes [n; n0; n1; n2] - HEADER_LEN) (bytes_left s)); [|done].
  intros [= _ _ _ _ <- <-]. cbn [length]. rewrite <-(take_drop (N.to_nat (from_be_bytes [n; n0; n1; n2] - HEADER_LEN)) s) at 1.
  rewrite length_app. lia.
Qed.

(** The connection while a request writes. *)
Lemma writing_output c t r part rest :
  reachable c -> cl_torn c = false -> cl_requests c !! t = Some r -> rq_phase r = Phase.Writing rest -> rq_packet r = part ++ rest ->
  exists past l, cl_output c = past ++ part /\ frames past l [].
Proof.
  intros Hreach Ht Hr Hp Hpk. destruct (reachable_output c Hreach) as (Hgood & Hlock & Hstream).
  destruct (Hstream Ht) as (ts & part' & [Hnd Hpast Hout Hpart]). rewrite (Hlock t r Hr) in Hpart by (by rewrite Hp).
  destruct Hpart as (r' & rest' & Hr' & Hp' & Hpk'). rewrite Hr in Hr'. injection Hr' as <-. rewrite Hp in Hp'. injection Hp' as <-.
  rewrite Hpk in Hpk'. apply app_inv_tail in Hpk' as <-.
  destruct (frames_concat (cl_requests c) ts [] Hgood) as (l & Hl & _).
  - intros u q Hq. rewrite (ids_all c (reachable_ids c Hreach) u q Hq). by apply N.mod_lt.
  - intros u Hin. destruct (Hpast u Hin); naive_solver.
  - done.
  - rewrite app_nil_r in Hl. eauto.
Qed.

Definition state_after (acts : list Action.t) : client := default (client_new id_sizes_default) (after acts).

Lemma state_after_reachable acts : reachable (state_after acts).
Proof.
  unfold state_after. destruct (after acts) as [c|] eqn:Hc; [by eapply after_reachable|]. by exists id_sizes_default.
Qed.

(** The run of the example: the first request is dropped, with five bytes of its packet written. *)
Definition writing : client := state_after [Action.Begin 1 7 []; Action.Insert 0; Action.Lock 0; Action.Write 0 5].
Definition writer : request :=
  mkRequest 1 (encode_command 1 1 7 []) (Phase.Writing (drop 5 (encode_command 1 1 7 []))) Chan.Empty.
Definition dropped : client := phase_to 0 Phase.Dropped (remove_pending (rq_id writer) (stop_writing writer writing)).
Definition asked_after : client := default (client_new id_sizes_default) (run_actions (ask 1) dropped).

Lemma writing_dropped : drops_midway 0 (take 5 (encode_command 1 1 7 [])) writing dropped.
Proof.
  exists writer, (drop 5 (encode_command 1 1 7 [])). split_and!; [vm_compute; reflexivity|done|vm_compute; reflexivity|done|done|by apply rs_drop|vm_compute; reflexivity].
Qed.


(** ** Witnesses *)

Definition asked : client := state_after (ask 0).
Definition answered : client := state_after (ask 0 ++ [Action.Arrive sample_reply; Action.Round; Action.Poll 0]).
Definition hung_up : client := state_after (ask 0 ++ [Action.Close; Action.Round; Action.Take; Action.Send; Action.End]).

Lemma pending_exact_witness :
  exists r, cl_requests asked !! 0%nat = Some r /\ rq_id r = 1 /\ inserted (rq_phase r) /\ rq_chan r = Chan.Empty.
Proof.
  destruct (pending_exact asked (state_after_reachable _) ltac:(vm_compute; reflexivity)) as [He _].
  apply He. vm_compute. reflexivity.
Defined.

Lemma replies_routed_witness : (1, mkReply 0 [7]) ∈ cl_received answered.
Proof.
  refine (proj2 (replies_routed answered 0
    (mkRequest 1 (encode_command 1 1 7 []) (Phase.Finished (inr [7])) (Chan.Sent (inr (mkReply 0 [7])))) (inr [7])
    (state_after_reachable _) _ _ _)); vm_compute; reflexivity.
Defined.

Lemma read_loop_ends_witness : sn loop_step (state_after (ask 0 ++ [Action.Close])).
Proof. apply (read_loop_ends (state_after (ask 0 ++ [Action.Close]))). vm_compute. reflexivity. Defined.

Lemma no_request_hangs_witness :
  exists c', rtc (own_step 0) hung_up c' /\ phase_at 0 c' = Some (Phase.Finished (inl JdwpError.ConnectionClosed)).
Proof.
  destruct (no_request_hangs hung_up 0
    (mkRequest 1 (encode_command 1 1 7 []) Phase.Waiting (Chan.Sent (inl JdwpError.ConnectionClosed)))
    (state_after_reachable _)) as [(c' & result & Hc & Hp & Hres) _]; [vm_compute; reflexivity..|by left|].
  exists c'. split; [exact Hc|]. rewrite Hp, Hres by reflexivity. reflexivity.
Defined.

Lemma output_framed_witness :
  cl_output asked = encode_command 1 1 7 [] /\ exists ts l part, NoDup ts /\ frames (cl_output asked) l part /\
    Forall2 (fun t '(id, _, _, _) => rq_id <$> cl_requests asked !! t = Some id) ts l /\
    (part = [] \/ exists w rest, cl_writer asked = Some w /\ w ∉ ts /\ rest <> [] /\
       packet_at (cl_requests asked) w = part ++ rest).
Proof.
  split; [vm_compute; reflexivity|]. apply (output_framed asked (state_after_reachable _)). vm_compute. reflexivity.
Defined.

(** The second request waits for the lock when the first one is dropped. *)
Definition contended : client :=
  state_after [Action.Begin 1 7 []; Action.Insert 0; Action.Lock 0; Action.Write 0 5; Action.Begin 1 7 []; Action.Insert 1].
Definition released : client := phase_to 0 Phase.Dropped (remove_pending (rq_id writer) (stop_writing writer contended)).

