(* ===== verification/Windows.v ===== *)
(** * Debouncing by category (crates/nova-scheduler/src/lib.rs)

    [Debouncer] buffers items per category, and hands the items of a category out when none came
    for the category's window of time; the file watcher of nova-workspace uses it with
    [next_deadline], and splits what it gets with [chunk_vec].  The categories are the keys of a
    [BTreeMap]: a list that is sorted by key.  Times are numbers; an [Instant] that lies before
    another is at distance zero. *)

From stdpp Require Import base numbers option sorting list.
From S2P Require Import Prelude.

Section Windows.
Context {C T : Type} `{EqDecision C} (lt : C -> C -> Prop) `{!RelDecision lt, !StrictOrder lt, !Trichotomy lt}.

(** ** State *)

Record DebounceWindow := mkWindow {
  dw_debounce : N;
  dw_pending : list T;
  dw_last_event_at : option N
}.

Definition Debouncer : Type := list (C * DebounceWindow).

Fixpoint btree_insert {V} (k : C) (v : V) (l : list (C * V)) : list (C * V) :=
  match l with
  | [] => [(k, v)]
  | (k', v') :: l' =>
      if decide (k = k') then (k, v) :: l'
      else if decide (lt k k') then (k, v) :: l
      else (k', v') :: btree_insert k v l'
  end.

Definition windows_new (config : list (C * N)) : Debouncer :=
  foldl (fun d '(category, debounce) => btree_insert category (mkWindow debounce [] None) d) [] config.

(** ** Operations *)

(** [None]: the category is not configured, and [push] panics. *)
Fixpoint push (category : C) (item : T) (now : N) (d : Debouncer) : option Debouncer :=
  match d with
  | [] => None
  | (c, w) :: d' =>
      if decide (c = category) then Some ((c, mkWindow (dw_debounce w) (dw_pending w ++ [item]) (Some now)) :: d')
      else cons (c, w) <$> push category item now d'
  end.

(** The body of the loops of [flush_all] and [flush_due]: what is handed out, and the window after. *)
Definition take_window (w : DebounceWindow) : option (list T) * DebounceWindow :=
  (match dw_pending w with [] => None | items => Some items end, mkWindow (dw_debounce w) [] None).

Definition due_window (now : N) (w : DebounceWindow) : option (list T) * DebounceWindow :=
  match dw_last_event_at w with
  | None => (None, w)
  | Some last => if decide (now - last < dw_debounce w)%N then (None, w) else take_window w
  end.

Fixpoint flush_with (f : DebounceWindow -> option (list T) * DebounceWindow) (d : Debouncer)
  : list (C * list T) * Debouncer :=
  match d with
  | [] => ([], [])
  | (c, w) :: d' =>
      let '(items, w') := f w in
      let '(flushed, rest) := flush_with f d' in
      (match items with Some items => (c, items) :: flushed | None => flushed end, (c, w') :: rest)
  end.

Definition flush_due (now : N) (d : Debouncer) : list (C * list T) * Debouncer := flush_with (due_window now) d.
Definition flush_all (d : Debouncer) : list (C * list T) * Debouncer := flush_with take_window d.

Definition min_opt (a : option N) (b : N) : option N := Some (match a with Some a => N.min a b | None => b end).

Definition next_deadline (d : Debouncer) : option N :=
  foldl min_opt None (omap (fun '(_, w) => (fun t => t + dw_debounce w)%N <$> dw_last_event_at w) d).

Definition has_pending (d : Debouncer) : bool :=
  existsb (fun '(_, w) => match dw_pending w with [] => false | _ => true end) d.

(** ** Sequences of operations *)

Inductive window_op := Push (category : C) (item : T) (now : N) | FlushDue (now : N) | FlushAll.

(** What the operation hands out, and the state after it. *)
Definition window_act (op : window_op) (d : Debouncer) : option (list (C * list T) * Debouncer) :=
  match op with
  | Push c x now => (fun d => ([], d)) <$> push c x now d
  | FlushDue now => Some (flush_due now d)
  | FlushAll => Some (flush_all d)
  end.

Fixpoint window_run (ops : list window_op) (d : Debouncer) : option (list (C * list T) * Debouncer) :=
  match ops with
  | [] => Some ([], d)
  | op :: ops =>
      '(out, d) ← window_act op d;
      '(outs, d) ← window_run ops d;
      Some (out ++ outs, d)
  end.

(** The items of a category: that were pushed, that were handed out, that are buffered. *)
Definition pushed (c : C) (ops : list window_op) : list T :=
  omap (fun op => match op with Push c' x _ => if decide (c' = c) then Some x else None | _ => None end) ops.
Definition handed_out (c : C) (out : list (C * list T)) : list T :=
  concat ((fun '(c', l) => if decide (c' = c) then l else []) <$> out).
Definition buffered (c : C) (d : Debouncer) : list T :=
  concat ((fun '(c', w) => if decide (c' = c) then dw_pending w else []) <$> d).

(** ** The invariant *)

(** The categories are sorted; a window that waits has items. *)
Definition window_ok (w : DebounceWindow) : Prop := dw_pending w = [] <-> dw_last_event_at w = None.
Definition windows_ok (d : Debouncer) : Prop := StronglySorted lt d.*1 /\ Forall (fun e => window_ok e.2) d.

Lemma btree_insert_keys {V} k (v : V) l : forall x, x ∈ (btree_insert k v l).*1 -> x = k \/ x ∈ l.*1.
Proof.
  induction l as [|[k' v'] l IH]; intros x; simpl; [by left; apply list_elem_of_singleton|].
  repeat case_decide; subst; simpl; rewrite ?elem_of_cons; [naive_solver..|].
  intros [->|Hx]; [by right; left|]. destruct (IH x Hx); [by left|by right; right].
Qed.

Lemma btree_insert_sorted {V} k (v : V) l : StronglySorted lt l.*1 -> StronglySorted lt (btree_insert k v l).*1.
Proof.
  induction l as [|[k' v'] l IH]; simpl; intros Hs; [repeat constructor|].
  apply StronglySorted_cons in Hs as [Hall Hs].
  destruct (decide (k = k')) as [->|Hne]; [by apply SSorted_cons|]. destruct (decide (lt k k')) as [Hlt|Hnlt]; simpl.
  - apply SSorted_cons; [by apply SSorted_cons|]. constructor; [done|]. eapply Forall_impl; [exact Hall|]. intros x Hx. by etransitivity.
  - apply SSorted_cons; [by apply IH|]. apply Forall_forall. intros x [->|Hx]%btree_insert_keys; [|by eapply Forall_forall in Hall].
    destruct (trichotomy lt k k') as [?|[?|?]]; done.
Qed.

Lemma btree_insert_Forall {V} (P : C * V -> Prop) k v l : P (k, v) -> Forall P l -> Forall P (btree_insert k v l).
Proof.
  intros Hk. induction 1 as [|[k' v'] l Hp Hl IH]; simpl; [by constructor|]. repeat case_decide; by repeat constructor.
Qed.

Lemma windows_new_ok config : windows_ok (windows_new config).
Proof.
  unfold windows_new. assert (H0 : windows_ok []) by (split; constructor). revert H0. generalize (@nil (C * DebounceWindow)).
  induction config as [|[c n] config IH]; intros d [Hs Hall]; [done|]. apply IH.
  split; [by apply btree_insert_sorted|by apply btree_insert_Forall].
Qed.

Lemma push_keys c x now d d' : push c x now d = Some d' -> d'.*1 = d.*1.
Proof.
  revert d'. induction d as [|[c0 w] d IH]; intros d'; simpl; [done|]. case_decide; [by intros [= <-]|].
  intros (d1 & Hd1 & ->)%fmap_Some. rewrite fmap_cons, (IH d1); [done|exact Hd1].
Qed.

Lemma flush_with_keys f d : (flush_with f d).2.*1 = d.*1.
Proof.
  induction d as [|[c w] d IH]; [done|]. simpl. destruct (f w), (flush_with f d). csimpl in *. by rewrite IH.
Qed.

(** What a flush may do with one window. *)
Definition flush_ok (f : DebounceWindow -> option (list T) * DebounceWindow) : Prop :=
  forall w, window_ok w -> window_ok (f w).2 /\ default [] (f w).1 ++ dw_pending (f w).2 = dw_pending w.

Lemma take_window_ok : flush_ok take_window.
Proof. intros w _. unfold take_window. split; [done|]. by destruct (dw_pending w); rewrite ?app_nil_r. Qed.

Lemma due_window_ok now : flush_ok (due_window now).
Proof.
  intros w Hw. unfold due_window. destruct (dw_last_event_at w); [|done]. case_decide; [done|]. by apply take_window_ok.
Qed.

Lemma flush_with_ok f d : flush_ok f -> windows_ok d -> windows_ok (flush_with f d).2.
Proof.
  intros Hf [Hs Hall]. split; [by rewrite flush_with_keys|]. clear Hs. induction Hall as [|[c w] d Hw _ IH]; [constructor|].
  simpl in *. destruct (Hf w Hw) as [Hok _]. destruct (f w), (flush_with f d). by constructor.
Qed.

Lemma buffered_cons c c' w d : buffered c ((c', w) :: d) = (if decide (c' = c) then dw_pending w else []) ++ buffered c d.
Proof. done. Qed.

Lemma buffered_absent c d : c ∉ d.*1 -> buffered c d = [].
Proof.
  induction d as [|[c' w] d IH]; [done|]. simpl. rewrite not_elem_of_cons. intros [Hne Hn].
  rewrite buffered_cons, decide_False by done. by apply IH.
Qed.

Lemma sorted_absent c (d : Debouncer) w : StronglySorted lt ((c, w) :: d).*1 -> c ∉ d.*1.
Proof.
  simpl. intros [Hall _]%StronglySorted_cons Hin. eapply Forall_forall in Hall; [|exact Hin]. by destruct (irreflexivity lt c).
Qed.

Lemma handed_out_cons c c' (l : list T) out : handed_out c ((c', l) :: out) = (if decide (c' = c) then l else []) ++ handed_out c out.
Proof. done. Qed.

Lemma handed_out_absent f c d : c ∉ d.*1 -> handed_out c (flush_with f d).1 = [].
Proof.
  induction d as [|[c' w] d IH]; [done|]. simpl. rewrite not_elem_of_cons. intros [Hne Hn]. specialize (IH Hn).
  destruct (f w) as [[items|] w'], (flush_with f d) as [out rest]; simpl in *; [|done].
  rewrite handed_out_cons. by rewrite decide_False.
Qed.

Lemma flush_with_items f c d :
  flush_ok f -> windows_ok d -> handed_out c (flush_with f d).1 ++ buffered c (flush_with f d).2 = buffered c d.
Proof.
  intros Hf. induction d as [|[c' w] d IH]; intros [Hs Hall]; [done|]. pose proof (sorted_absent _ _ _ Hs) as Habs.
  apply Forall_cons in Hall as [Hw Hall]. simpl in Hs. apply StronglySorted_cons in Hs as [_ Hs].
  specialize (IH (conj Hs Hall)). destruct (Hf w Hw) as [_ Hp]. pose proof (handed_out_absent f c' d Habs) as Hout.
  pose proof (buffered_absent c' (flush_with f d).2 ltac:(by rewrite flush_with_keys)) as Hbuf.
  simpl. destruct (f w) as [items w'], (flush_with f d) as [out rest]. simpl in *. rewrite !buffered_cons.
  destruct (decide (c' = c)) as [->|Hne].
  - rewrite Hbuf, (buffered_absent c d) by done. rewrite !app_nil_r, <-Hp. f_equal.
    destruct items as [l|]; [|done]. rewrite handed_out_cons, decide_True by done. by rewrite Hout, app_nil_r.
  - simpl. rewrite <-IH. destruct items as [l|]; [|done]. rewrite handed_out_cons. by rewrite decide_False.
Qed.

Lemma push_ok c x now d d' : windows_ok d -> push c x now d = Some d' -> windows_ok d'.
Proof.
  intros [Hs Hall] Hp. split; [by rewrite (push_keys _ _ _ _ _ Hp)|]. clear Hs. revert d' Hp.
  induction Hall as [|[c0 w] d Hw Hall IH]; intros d'; simpl; [done|]. case_decide.
  - intros [= <-]. constructor; [|done]. unfold window_ok. simpl. split; [|done]. by intros []%app_nil.
  - intros (d1 & Hd1 & ->)%fmap_Some. constructor; [done|by apply IH].
Qed.

Lemma push_items c c' x now d d' : windows_ok d -> push c x now d = Some d' ->
  buffered c' d' = buffered c' d ++ if decide (c = c') then [x] else [].
Proof.
  intros [Hs _]. revert d'. induction d as [|[c0 w] d IH]; intros d'; simpl; [done|].
  pose proof (sorted_absent _ _ _ Hs) as Habs. simpl in Hs. apply StronglySorted_cons in Hs as [_ Hs].
  destruct (decide (c0 = c)) as [->|Hne].
  - intros [= <-]. rewrite !buffered_cons. simpl. destruct (decide (c = c')) as [->|]; [|by rewrite app_nil_r].
    by rewrite (buffered_absent c' d), !app_nil_r.
  - intros (d1 & Hd1 & ->)%fmap_Some. rewrite !buffered_cons, (IH Hs d1 Hd1). by rewrite app_assoc.
Qed.

Lemma flush_with_act f d out d' :
  flush_ok f -> windows_ok d -> flush_with f d = (out, d') ->
  windows_ok d' /\ forall c, handed_out c out ++ buffered c d' = buffered c d ++ [].
Proof.
  intros Hf Hok He. pose proof (flush_with_ok f d Hf Hok) as Hok'. rewrite He in Hok'. split; [done|].
  intros c. pose proof (flush_with_items f c d Hf Hok) as Hi. by rewrite He, <-(app_nil_r (buffered c d)) in Hi.
Qed.

Lemma window_act_ok op d out d' :
  windows_ok d -> window_act op d = Some (out, d') ->
  windows_ok d' /\ forall c, handed_out c out ++ buffered c d' = buffered c d ++ pushed c [op].
Proof.
  intros Hok. destruct op as [c0 x now|now|]; simpl.
  - intros (d1 & Hd1 & [= -> ->])%fmap_Some. split; [by eapply push_ok|]. intros c. simpl.
    rewrite (push_items _ c _ _ _ _ Hok Hd1). unfold pushed. simpl. by case_decide.
  - intros [= Hf]. by apply (flush_with_act (due_window now)); [apply due_window_ok|..].
  - intros [= Hf]. by apply (flush_with_act take_window); [apply take_window_ok|..].
Qed.

Lemma window_run_ok ops d out d' :
  windows_ok d -> window_run ops d = Some (out, d') ->
  windows_ok d' /\ forall c, handed_out c out ++ buffered c d' = buffered c d ++ pushed c ops.
Proof.
  revert d out. induction ops as [|op ops IH]; intros d out Hok; simpl; [intros [= <- <-]; split; [done|]; intros c; by rewrite app_nil_r|].
  intros ([out1 d1] & H1 & ([outs d2] & H2 & [= <- <-])%bind_Some)%bind_Some.
  destruct (window_act_ok op d out1 d1 Hok H1) as [Hok1 He1]. destruct (IH d1 outs Hok1 H2) as [Hok2 He2]. split; [done|].
  intros c. specialize (He1 c). specialize (He2 c). unfold handed_out in *. rewrite fmap_app, concat_app, <-app_assoc, He2, app_assoc, He1, <-app_assoc. f_equal.
  unfold pushed. by rewrite <-omap_app.
Qed.

(** ** The next deadline *)

Lemma foldl_min_opt l a :
  exists m, foldl min_opt (Some a) l = Some m /\ forall x : N, (x < m)%N <-> (x < a)%N /\ Forall (fun y => x < y)%N l.
Proof.
  revert a. induction l as [|b l IH]; intros a; simpl.
  - exists a. split; [done|]. intros x. split; [by intros Hx|by intros [Hx _]].
  - destruct (IH (N.min a b)) as (m & Hm & Hx). exists m. split; [done|]. intros x. rewrite Hx, Forall_cons. split; [intros [? ?]|intros (? & ? & ?)]; split_and!; try done; lia.
Qed.

Lemma min_opt_spec (l : list N) :
  match foldl min_opt None l with
  | Some m => l <> [] /\ forall x, (x < m)%N <-> Forall (fun y => x < y)%N l
  | None => l = []
  end.
Proof.
  destruct l as [|b l]; [done|]. change (foldl min_opt None (b :: l)) with (foldl min_opt (Some b) l).
  destruct (foldl_min_opt l b) as (m & -> & Hx). split; [done|].
  intros x. by rewrite Hx, Forall_cons.
Qed.

(** When a window is due. *)
Definition window_deadline (w : DebounceWindow) : option N := (fun t => t + dw_debounce w)%N <$> dw_last_event_at w.

Lemma flush_with_nil f d : (flush_with f d).1 = [] <-> Forall (fun e => (f e.2).1 = None) d.
Proof.
  induction d as [|[c w] d IH]; simpl; [split; [constructor|done]|]. rewrite Forall_cons, <-IH. simpl.
  destruct (f w) as [[items|] w'], (flush_with f d) as [out rest]; simpl; naive_solver.
Qed.

Lemma due_window_None now w :
  window_ok w -> (forall last, dw_last_event_at w = Some last -> (last <= now)%N) ->
  (due_window now w).1 = None <-> (forall t, window_deadline w = Some t -> (now < t)%N).
Proof.
  intros Hw Hclock. unfold due_window, take_window, window_deadline, window_ok in *.
  destruct (dw_last_event_at w) as [last|]; [|done]. specialize (Hclock last eq_refl).
  case_decide; simpl; [split; [|done]; intros _ t [= <-]; lia|].
  destruct (dw_pending w); [by pose proof (proj1 Hw eq_refl)|]. split; [done|]. intros Ht. specialize (Ht _ eq_refl). lia.
Qed.

Lemma omap_nil {A B} (f : A -> option B) (l : list A) : omap f l = [] <-> Forall (fun x => f x = None) l.
Proof.
  induction l as [|x l IH]; simpl; [split; [constructor|done]|]. rewrite Forall_cons.
  destruct (f x) as [y|]; [naive_solver|]. rewrite <-IH. naive_solver.
Qed.

Lemma Forall_omap {A B} (P : B -> Prop) (f : A -> option B) (l : list A) :
  Forall P (omap f l) <-> Forall (fun x => forall y, f x = Some y -> P y) l.
Proof.
  induction l as [|x l IH]; simpl; [split; constructor|]. rewrite Forall_cons, <-IH.
  destruct (f x) as [y|]; [rewrite Forall_cons|]; naive_solver.
Qed.

Lemma next_deadline_alt d : next_deadline d = foldl min_opt None (omap (fun e => window_deadline e.2) d).
Proof. unfold next_deadline. f_equal. apply list_omap_ext. apply Forall_Forall2_diag, Forall_forall. by intros [c w] _. Qed.

Lemma flush_due_nil now d :
  windows_ok d -> Forall (fun e => forall last, dw_last_event_at e.2 = Some last -> (last <= now)%N) d ->
  (flush_due now d).1 = [] <-> match next_deadline d with Some t => (now < t)%N | None => True end.
Proof.
  intros [_ Hall] Hclock. rewrite next_deadline_alt. unfold flush_due. rewrite flush_with_nil.
  trans (Forall (fun t => now < t)%N (omap (fun e => window_deadline e.2) d)).
  - rewrite Forall_omap, !Forall_forall. rewrite Forall_forall in Hall, Hclock.
    split; intros Hd e He; specialize (Hd e He); by apply due_window_None; [apply Hall|apply Hclock|].
  - pose proof (min_opt_spec (omap (fun e => window_deadline e.2) d)) as Hm. destruct (foldl _ _ _) as [m|].
    + by destruct Hm as [_ ->].
    + rewrite Hm. split; [done|constructor].
Qed.

Lemma has_pending_false d : windows_ok d -> has_pending d = false <-> next_deadline d = None.
Proof.
  intros [_ Hall]. rewrite next_deadline_alt. pose proof (min_opt_spec (omap (fun e => window_deadline e.2) d)) as Hm.
  trans (omap (fun e : C * DebounceWindow => window_deadline e.2) d = []).
  - rewrite omap_nil. clear Hm. induction Hall as [|[c w] d Hw _ IH]; [split; [constructor|done]|].
    rewrite Forall_cons, <-IH. simpl. unfold window_ok, window_deadline in *. simpl in Hw.
    rewrite orb_false_iff. destruct (dw_pending w), (dw_last_event_at w); simpl; naive_solver.
  - destruct (foldl _ _ _) as [m|]; [naive_solver|done].
Qed.

Definition no_items (d : Debouncer) : Prop := Forall (fun e => dw_pending e.2 = []) d.

Lemma windows_new_pending config : no_items (windows_new config).
Proof.
  unfold windows_new. assert (H0 : no_items []) by constructor. revert H0. generalize (@nil (C * DebounceWindow)).
  induction config as [|[k n] config IH]; intros l Hl; [done|]. apply IH. by apply btree_insert_Forall.
Qed.

Lemma buffered_none c d : no_items d -> buffered c d = [].
Proof. induction 1 as [|[k w] l Hw _ IH]; [done|]. simpl in Hw. rewrite buffered_cons, IH, Hw. by case_decide. Qed.

(** C24: Nothing is lost and nothing is late.  After any sequence of pushes and flushes: for each
    category, what was handed out and then what is buffered is what was pushed, in order; a flush,
    by a clock that is past the pushes, hands out nothing exactly as long as [next_deadline] lies
    ahead; and there is a next deadline exactly when something is buffered. *)
Theorem windows_exact config ops out d :
  window_run ops (windows_new config) = Some (out, d) ->
  (forall c, handed_out c out ++ buffered c d = pushed c ops) /\
  (forall now, Forall (fun e => forall last, dw_last_event_at e.2 = Some last -> (last <= now)%N) d ->
    (flush_due now d).1 = [] <-> match next_deadline d with Some t => (now < t)%N | None => True end) /\
  (has_pending d = false <-> next_deadline d = None).
Proof.
  intros Hr. destruct (window_run_ok ops _ out d (windows_new_ok config) Hr) as [Hok Hitems].
  split_and!; [|intros now Hclock; by apply flush_due_nil|by apply has_pending_false].
  intros c. rewrite Hitems, (buffered_none c); [done|]. apply windows_new_pending.
Qed.

End Windows.

Arguments window_op C T : clear implicits.

(** ** Chunks *)

(** [chunk_vec]: the chunks of the items that are left; a chunk is filled from the iterator.  There
    are at most as many chunks as items.  [None]: the assertion fails. *)
Fixpoint chunk_loop {A} (fuel : nat) (items : list A) (chunk_size : nat) : list (list A) :=
  match fuel with
  | O => []
  | S fuel =>
      match take chunk_size items with
      | [] => []
      | chunk => chunk :: chunk_loop fuel (drop chunk_size items) chunk_size
      end
  end.

Definition chunk_vec {A} (items : list A) (chunk_size : nat) : option (list (list A)) :=
  if decide (chunk_size = 0) then None else Some (chunk_loop (S (length items)) items chunk_size).

Lemma chunk_loop_exact {A} fuel (items : list A) n :
  0 < n -> length items < fuel ->
  concat (chunk_loop fuel items n) = items /\
  forall i chunk, chunk_loop fuel items n !! i = Some chunk ->
    chunk <> [] /\ length chunk <= n /\ (S i < length (chunk_loop fuel items n) -> length chunk = n).
Proof.
  intros Hn. revert items. induction fuel as [|fuel IH]; intros items Hlen; [lia|]. simpl.
  destruct (take n items) as [|x chunk] eqn:Ht.
  - destruct items as [|y items]; [split; [done|by intros []]|]. destruct n; [lia|done].
  - assert (Hx : length (x :: chunk) = Nat.min n (length items)) by (by rewrite <-Ht, length_take). simpl in Hx.
    destruct (IH (drop n items)) as [Hc Hall]; [rewrite length_drop; lia|]. split.
    { simpl. rewrite Hc. rewrite <-(take_drop n items) at 2. by rewrite Ht. }
    intros [|i] c Hi; simpl in *.
    + injection Hi as <-. split_and!; [done|simpl; lia|]. intros Hlt. simpl.
      destruct (decide (n <= length items)); [lia|]. exfalso. rewrite drop_ge in Hlt by lia. destruct fuel; simpl in Hlt; [lia|].
      rewrite take_nil in Hlt. simpl in Hlt. lia.
    + destruct (Hall i c Hi) as (H1 & H2 & H3). split_and!; [done..|]. intros Hlt. apply H3. lia.
Qed.

(** Splitting keeps the items in order; every chunk but the last is full and none is empty. *)
Theorem chunk_vec_exact {A} (items : list A) n :
  0 < n -> exists chunks, chunk_vec items n = Some chunks /\ concat chunks = items /\
    forall i chunk, chunks !! i = Some chunk ->
      chunk <> [] /\ length chunk <= n /\ (S i < length chunks -> length chunk = n).
Proof.
  intros Hn. unfold chunk_vec. rewrite decide_False by lia. eexists. split; [done|]. by apply chunk_loop_exact; [|lia].
Qed.

(** ** A run *)

Definition sample_ops : list (window_op nat nat) := [Push 1 10 0; Push 2 20 0; Push 1 11 5; FlushDue 7; Push 2 21 8; FlushDue 9].

#[local] Instance nat_lt_trichotomy : Trichotomy Nat.lt.
Proof. intros x y. destruct (Nat.lt_trichotomy x y) as [?|[?|?]]; auto. Qed.

(** Category 1 has a window of 3, and category 2 one of 5; at 7 only category 2 is due. *)
Lemma windows_exact_witness :
  exists d, window_run sample_ops (windows_new Nat.lt [(2, 5%N); (1, 3%N)]) = Some ([(2, [20]); (1, [10; 11])], d) /\
    (forall c, handed_out c [(2, [20]); (1, [10; 11])] ++ buffered c d = pushed c sample_ops) /\ next_deadline d = Some 13%N.
Proof.
  eexists. split; [vm_compute; reflexivity|]. split; [|reflexivity].
  refine (proj1 (windows_exact Nat.lt [(2, 5%N); (1, 3%N)] sample_ops _ _ _)). vm_compute. reflexivity.
Defined.
