(* ===== verification/Debouncer.v ===== *)
(** * Debouncing by key (crates/nova-scheduler/src: debouncer.rs, task.rs, scheduler.rs)

    [KeyedDebouncer] delays work per key, and a new request for a key replaces the one before.
    A call of [debounce_with_delay] removes and cancels the previous entry, spawns a task and
    inserts the new entry: three steps, between which other calls and tasks may run.  A task sleeps,
    hands its closure to a pool ([spawn_blocking_on]), joins it and removes its entry.  The
    runtime drops an aborted task at one of its next waits.  The model is a transition system; with
    [exclusive] set, calls for the same key do not overlap. *)

From stdpp Require Import base numbers option gmap relations list.
From S2P Require Import Prelude.

Section Debouncer.
Context `{Countable K}.

(** ** State *)

(** Where the asynchronous part of a task is. *)
Inductive stage := Sleeping | Joining | Cleaning | Ended | Aborted.

(** Where its closure is: not handed over, in the queue of the pool, called, returned. *)
Inductive job := NoJob | Queued | Running | Returned.

Record task := mkTask {
  tk_key : K;
  tk_id : nat;
  tk_cancelled : bool;
  tk_aborting : bool;
  tk_stage : stage;
  tk_job : job
}.

(** A call that is under way: the previous entry is removed; the task is spawned. *)
Inductive call :=
| Removed (key : K) (id : nat)
| Spawned (key : K) (ticket : nat).

Definition call_key (c : call) : K := match c with Removed k _ | Spawned k _ => k end.

#[global] Instance stage_eq_dec : EqDecision stage.
Proof. solve_decision. Defined.
#[global] Instance job_eq_dec : EqDecision job.
Proof. solve_decision. Defined.
#[global] Instance task_eq_dec : EqDecision task.
Proof. solve_decision. Defined.
#[global] Instance call_eq_dec : EqDecision call.
Proof. solve_decision. Defined.

(** [db_entries] maps a key to the place of its task in [db_tasks]. *)
Record debouncer := mkDebouncer {
  db_next_id : nat;
  db_entries : gmap K nat;
  db_tasks : list task;
  db_calls : list call
}.

Definition debouncer_new : debouncer := mkDebouncer 1 ∅ [] [].

(** ** Operations *)

Definition set_token (t : task) : task := mkTask (tk_key t) (tk_id t) true (tk_aborting t) (tk_stage t) (tk_job t).
Definition abort (t : task) : task := mkTask (tk_key t) (tk_id t) (tk_cancelled t) true (tk_stage t) (tk_job t).
Definition set_stage (s : stage) (t : task) : task :=
  mkTask (tk_key t) (tk_id t) (tk_cancelled t) (tk_aborting t) s (tk_job t).
Definition set_job (s : stage) (j : job) (t : task) : task :=
  mkTask (tk_key t) (tk_id t) (tk_cancelled t) (tk_aborting t) s j.

(** An entry that is removed: its token is cancelled and its task aborted. *)
Definition remove_entry (k : K) (d : debouncer) : debouncer :=
  match db_entries d !! k with
  | Some t =>
      mkDebouncer (db_next_id d) (delete k (db_entries d)) (alter (fun x => abort (set_token x)) t (db_tasks d)) (db_calls d)
  | None => d
  end.

(** [cancel]: whether there was an entry. *)
Definition cancel_key (k : K) (d : debouncer) : bool * debouncer := (is_some (db_entries d !! k), remove_entry k d).

(** The first step of a call: an id, and the previous entry removed. *)
Definition call_begin (k : K) (d : debouncer) : debouncer :=
  let d' := remove_entry k d in
  mkDebouncer (S (db_next_id d)) (db_entries d') (db_tasks d') (db_calls d' ++ [Removed k (db_next_id d)]).

(** The second: the task. *)
Definition call_spawn (i : nat) (k : K) (id : nat) (d : debouncer) : debouncer :=
  mkDebouncer (db_next_id d) (db_entries d) (db_tasks d ++ [mkTask k id false false Sleeping NoJob])
    (<[i := Spawned k (length (db_tasks d))]> (db_calls d)).

(** The third: the entry. *)
Definition call_end (i : nat) (k : K) (t : nat) (d : debouncer) : debouncer :=
  mkDebouncer (db_next_id d) (<[k := t]> (db_entries d)) (db_tasks d) (delete i (db_calls d)).

Definition on_task (f : task -> task) (t : nat) (d : debouncer) : debouncer :=
  mkDebouncer (db_next_id d) (db_entries d) (alter f t (db_tasks d)) (db_calls d).

(** A task that has joined its closure removes the entry of its key, if it is its own. *)
Definition clean (t : nat) (x : task) (d : debouncer) : debouncer :=
  let own :=
    match db_entries d !! tk_key x with
    | Some u => match db_tasks d !! u with Some y => bool_decide (tk_id y = tk_id x) | None => false end
    | None => false
    end in
  let entries := if own then delete (tk_key x) (db_entries d) else db_entries d in
  mkDebouncer (db_next_id d) entries (alter (set_stage Ended) t (db_tasks d)) (db_calls d).

(** ** Steps *)

(** One step of the task at [t]. *)
Inductive task_step (t : nat) (x : task) (d : debouncer) : debouncer -> Prop :=
| ts_woken : tk_stage x = Sleeping -> tk_cancelled x = true -> task_step t x d (on_task (set_stage Cleaning) t d)
| ts_elapsed : tk_stage x = Sleeping -> tk_cancelled x = false -> task_step t x d (on_task (set_job Joining Queued) t d)
| ts_too_late : tk_stage x = Sleeping -> tk_cancelled x = true -> task_step t x d (on_task (set_job Joining Returned) t d)
| ts_start : tk_job x = Queued -> task_step t x d (on_task (set_job (tk_stage x) Running) t d)
| ts_return : tk_job x = Running -> task_step t x d (on_task (set_job (tk_stage x) Returned) t d)
| ts_joined : tk_stage x = Joining -> tk_job x = Returned -> task_step t x d (on_task (set_stage Cleaning) t d)
| ts_given_up : tk_stage x = Joining -> tk_cancelled x = true -> task_step t x d (on_task (set_stage Cleaning) t d)
| ts_clean : tk_stage x = Cleaning -> task_step t x d (clean t x d)
| ts_aborted : tk_aborting x = true -> tk_stage x = Sleeping \/ tk_stage x = Joining ->
    task_step t x d (on_task (set_stage Aborted) t d).

(** [KeyedDebouncedHandle::cancel] is [ds_token], [KeyedDebouncer::cancel] is [ds_cancel]. *)
Inductive db_step (exclusive : bool) (d : debouncer) : debouncer -> Prop :=
| ds_begin k : (exclusive = true -> k ∉ call_key <$> db_calls d) -> db_step exclusive d (call_begin k d)
| ds_spawn i k id : db_calls d !! i = Some (Removed k id) -> db_step exclusive d (call_spawn i k id d)
| ds_insert i k t : db_calls d !! i = Some (Spawned k t) -> db_step exclusive d (call_end i k t d)
| ds_task t x d' : db_tasks d !! t = Some x -> task_step t x d d' -> db_step exclusive d d'
| ds_token t : db_step exclusive d (on_task set_token t d)
| ds_cancel k : db_step exclusive d (snd (cancel_key k d)).

Definition db_reachable (exclusive : bool) (d : debouncer) : Prop := rtc (db_step exclusive) debouncer_new d.

(** ** Ids *)

Definition call_id (c : call) : option nat := match c with Removed _ id => Some id | Spawned _ _ => None end.
Definition ids (d : debouncer) : list nat := (tk_id <$> db_tasks d) ++ omap call_id (db_calls d).

Record ids_fresh (d : debouncer) : Prop := {
  if_nodup : NoDup (ids d);
  if_bound : Forall (fun i => i < db_next_id d) (ids d)
}.

Lemma remove_entry_ids k d : tk_id <$> db_tasks (remove_entry k d) = tk_id <$> db_tasks d /\
  db_calls (remove_entry k d) = db_calls d.
Proof. unfold remove_entry. destruct (db_entries d !! k); simpl; [|done]. split; [by apply fmap_alter_same|done]. Qed.

Lemma ids_fresh_perm d d' : ids d' ≡ₚ ids d -> db_next_id d' = db_next_id d -> ids_fresh d -> ids_fresh d'.
Proof. intros Hp Hn [Hnd Hb]. split; [by rewrite Hp|]. rewrite Hn. by rewrite Hp. Qed.

Lemma task_step_same t x d d' : task_step t x d d' ->
  tk_id <$> db_tasks d' = tk_id <$> db_tasks d /\ db_calls d' = db_calls d /\ db_next_id d' = db_next_id d.
Proof. destruct 1; simpl; (split_and!; [by apply fmap_alter_same|done..]). Qed.

Lemma spawn_perm i k id t (l : list call) :
  l !! i = Some (Removed k id) -> id :: omap call_id (<[i := Spawned k t]> l) ≡ₚ omap call_id l.
Proof.
  revert i. induction l as [|c l IH]; intros [|i] Hi; simpl in *; try done; [by injection Hi as ->|].
  destruct (call_id c) as [j|]; simpl; rewrite <-(IH i Hi); [apply perm_swap|done].
Qed.

Lemma delete_perm i k t (l : list call) : l !! i = Some (Spawned k t) -> omap call_id (delete i l) = omap call_id l.
Proof. revert i. induction l as [|c l IH]; intros [|i] Hi; simpl in *; try done; [by injection Hi as ->|].
  specialize (IH i Hi). unfold omap in *. destruct (call_id c); [f_equal|]; exact IH. Qed.

Lemma step_fresh b d d' : db_step b d d' -> ids_fresh d -> ids_fresh d'.
Proof.
  intros Hs Hf. destruct Hs as [k _|i k id Hi|i k t Hi|t x d' _ Hq|t|k].
  - destruct (remove_entry_ids k d) as [Ht Hc]. destruct Hf as [Hnd Hb]. unfold ids in *.
    assert (Hids : ids (call_begin k d) = ids d ++ [db_next_id d]).
    { unfold ids. simpl. rewrite Ht, Hc, omap_app. simpl. by rewrite app_assoc. }
    split; rewrite Hids.
    + apply NoDup_app. split_and!; [done| |apply NoDup_singleton]. intros j Hj ->%list_elem_of_singleton.
      rewrite Forall_forall in Hb. apply Hb in Hj. lia.
    + apply Forall_app. split; [|apply Forall_singleton; simpl; lia]. eapply Forall_impl; [exact Hb|]. simpl. lia.
  - apply (ids_fresh_perm d); [|done|done]. unfold ids. simpl. rewrite fmap_app. simpl.
    rewrite <-(spawn_perm i k id (length (db_tasks d)) _ Hi), <-!app_assoc. simpl. done.
  - apply (ids_fresh_perm d); [|done|done]. unfold ids. simpl. by rewrite (delete_perm i k t).
  - destruct (task_step_same _ _ _ _ Hq) as (Ht & Hc & Hn). apply (ids_fresh_perm d); [|done|done]. unfold ids. by rewrite Ht, Hc.
  - apply (ids_fresh_perm d); [|done|done]. unfold ids. simpl. by rewrite fmap_alter_same.
  - destruct (remove_entry_ids k d) as [Ht Hc]. apply (ids_fresh_perm d); [|by simpl; unfold remove_entry; case_match|done].
    unfold ids. simpl. by rewrite Ht, Hc.
Qed.

Lemma fresh_inj d t u x y : ids_fresh d -> db_tasks d !! t = Some x -> db_tasks d !! u = Some y -> tk_id x = tk_id y -> t = u.
Proof.
  intros [Hnd _] Ht Hu He. apply NoDup_app in Hnd as (Hnd & _ & _). eapply NoDup_lookup; [exact Hnd|..];
    rewrite list_lookup_fmap; [by rewrite Ht|by rewrite Hu, He].
Qed.

(** ** The entries *)

Definition waiting (x : task) : Prop := tk_stage x = Sleeping \/ tk_stage x = Joining.

(** The task of a key: the one in the table, or the one of a call that will insert it. *)
Definition current (d : debouncer) (k : K) (t : nat) : Prop := db_entries d !! k = Some t \/ Spawned k t ∈ db_calls d.

Record db_ok (d : debouncer) : Prop := {
  do_calls : NoDup (call_key <$> db_calls d);
  do_absent : forall c, c ∈ db_calls d -> db_entries d !! call_key c = None;
  do_key : forall k t, current d k t -> exists x, db_tasks d !! t = Some x /\ tk_key x = k;
  do_newest : forall k t u y, current d k t -> db_tasks d !! u = Some y -> tk_key y = k -> u <= t;
  do_live : forall t x, db_tasks d !! t = Some x -> tk_cancelled x = false -> waiting x -> current d (tk_key x) t
}.

(** What holds of a task by itself. *)
Definition task_ok (x : task) : Prop :=
  (tk_cancelled x = false -> tk_job x = Queued \/ tk_job x = Running -> tk_stage x = Joining) /\
  (tk_cancelled x = false -> tk_aborting x = false /\ tk_stage x <> Aborted).

(** A change of one task that neither revives it nor takes away its cancellation. *)
Definition tame (f : task -> task) (x : task) : Prop :=
  tk_key (f x) = tk_key x /\ (tk_cancelled (f x) = false -> waiting (f x) -> tk_cancelled x = false /\ waiting x).

(** Entries may go, if their task is no longer live. *)
Lemma db_ok_alter d d' t f :
  db_tasks d' = alter f t (db_tasks d) -> db_calls d' = db_calls d ->
  (forall x, db_tasks d !! t = Some x -> tame f x) ->
  (forall k u, db_entries d' !! k = Some u -> db_entries d !! k = Some u) ->
  (forall k u, db_entries d !! k = Some u -> db_entries d' !! k = Some u \/
    (u = t /\ forall x, db_tasks d !! t = Some x -> tk_cancelled (f x) = false -> ~ waiting (f x))) ->
  db_ok d -> db_ok d'.
Proof.
  intros Ht Hc Hf Hsub Hsup [Hnd Habs Hkey Hnew Hlive].
  assert (Hcur : forall k u, current d' k u -> current d k u).
  { intros k u [He|Hs]; [left; by apply Hsub|right; by rewrite <-Hc]. }
  assert (Hback : forall u y', db_tasks d' !! u = Some y' -> exists y, db_tasks d !! u = Some y /\ tk_key y' = tk_key y).
  { rewrite Ht. intros u y' [[-> (x & Hx & ->)]|[_ Hu]]%lookup_alter_Some; [|by exists y']. exists x. split; [done|]. by apply Hf. }
  split.
  - by rewrite Hc.
  - intros c Hin. rewrite Hc in Hin. destruct (db_entries d' !! call_key c) as [u|] eqn:He; [|done].
    apply Hsub in He. by rewrite (Habs c Hin) in He.
  - intros k u Hcu. destruct (Hkey k u (Hcur k u Hcu)) as (x & Hx & Hk). rewrite Ht. destruct (decide (u = t)) as [->|Hne].
    + exists (f x). rewrite list_lookup_alter_eq, Hx. split; [done|]. by rewrite (proj1 (Hf x Hx)).
    + exists x. by rewrite list_lookup_alter_ne.
  - intros k u v y' Hcu Hv Hk. destruct (Hback v y' Hv) as (y & Hy & He). apply (Hnew k u v y); [by apply Hcur|done|congruence].
  - intros u y' Hu Hnc Hw. rewrite Ht in Hu. apply lookup_alter_Some in Hu as [[-> (x & Hx & ->)]|[Hne Hu]].
    + destruct (Hf x Hx) as [Hk Hback']. destruct (Hback' Hnc Hw) as [Hnc0 Hw0]. rewrite Hk.
      destruct (Hlive t x Hx Hnc0 Hw0) as [He|Hs]; [|right; by rewrite Hc].
      destruct (Hsup _ _ He) as [He'|[_ Hbad]]; [by left|]. by destruct (Hbad x Hx Hnc).
    + destruct (Hlive u y' Hu Hnc Hw) as [He|Hs]; [|right; by rewrite Hc].
      destruct (Hsup _ _ He) as [He'|[-> _]]; [by left|done].
Qed.

Lemma on_task_ok d t f : (forall x, db_tasks d !! t = Some x -> tame f x) -> db_ok d -> db_ok (on_task f t d).
Proof. intros Hf Hok. apply (db_ok_alter d _ t f); [done..| |done]. intros k u He. by left. Qed.

Lemma remove_entry_ok k d : db_ok d -> db_ok (remove_entry k d) /\ db_entries (remove_entry k d) !! k = None.
Proof.
  intros Hok. unfold remove_entry. destruct (db_entries d !! k) as [t|] eqn:Hk; [|done]. simpl. split; [|apply lookup_delete_eq].
  apply (db_ok_alter d _ t (fun x => abort (set_token x))); try done; simpl.
  - intros j u. rewrite lookup_delete_Some. by intros [_ Hu].
  - intros j u Hj. destruct (decide (j = k)) as [->|Hne]; [right|left; by rewrite lookup_delete_ne].
    split; [congruence|]. by intros x _ Hc.
Qed.

Lemma clean_ok t x d :
  ids_fresh d -> db_tasks d !! t = Some x -> tk_stage x = Cleaning -> db_ok d -> db_ok (clean t x d).
Proof.
  intros Hf Hx Hs Hok.
  assert (Hdead : forall y, db_tasks d !! t = Some y -> tk_cancelled (set_stage Ended y) = false -> ~ waiting (set_stage Ended y)).
  { intros y _ _ [Hw|Hw]; done. }
  apply (db_ok_alter d _ t (set_stage Ended)); try done; simpl.
  - intros y Hy. split; [done|]. intros Hc Hw. by destruct (Hdead y Hy Hc).
  - intros k u. destruct (match _ with Some u => _ | None => false end); [|done]. rewrite lookup_delete_Some. by intros [_ Hu].
  - intros k u He. destruct (db_entries d !! tk_key x) as [v|] eqn:Hv; [|by left].
    destruct (db_tasks d !! v) as [y|] eqn:Hy; [|by left]. destruct (bool_decide_reflect (tk_id y = tk_id x)) as [Hid|]; [|by left].
    destruct (decide (k = tk_key x)) as [->|Hne]; [right|left; by rewrite lookup_delete_ne].
    split; [|done]. rewrite Hv in He. injection He as <-. by eapply fresh_inj.
Qed.

Lemma task_step_ok t x d d' :
  ids_fresh d -> Forall task_ok (db_tasks d) -> db_tasks d !! t = Some x -> task_step t x d d' -> db_ok d ->
  db_ok d' /\ Forall task_ok (db_tasks d').
Proof.
  intros Hf Hall Hx Hs Hok. pose proof (Forall_lookup_1 _ _ _ _ Hall Hx) as [Hj Ha].
  assert (Hone : forall f, tame f x -> task_ok (f x) -> db_ok (on_task f t d) /\ Forall task_ok (db_tasks (on_task f t d))).
  { intros f Htame Htask. split.
    - apply on_task_ok; [|done]. intros y Hy. by simplify_eq.
    - apply Forall_alter; [done|]. intros y Hy _. by simplify_eq. }
  unfold task_ok, tame, waiting in *.
  destruct Hs as [Hst Hc|Hst Hc|Hst Hc|Hjb|Hjb|Hst Hjb|Hst Hc|Hst|Hab Hst]; try (apply Hone; simpl; intuition congruence).
  split; [by apply clean_ok|]. apply Forall_alter; [done|]. intros y Hy [Hy1 Hy2]. simplify_eq. unfold task_ok. simpl. intuition congruence.
Qed.

Lemma token_ok t d : db_ok d -> Forall task_ok (db_tasks d) ->
  db_ok (on_task set_token t d) /\ Forall task_ok (db_tasks (on_task set_token t d)).
Proof.
  intros Hok Hall. split; [apply on_task_ok; [by intros x _; split|done]|].
  apply Forall_alter; [done|]. by intros x _ _.
Qed.

Lemma remove_entry_tasks k d : Forall task_ok (db_tasks d) -> Forall task_ok (db_tasks (remove_entry k d)).
Proof. intros Hall. unfold remove_entry. case_match; [|done]. apply Forall_alter; [done|]. by intros x _ _. Qed.

Lemma begin_ok k d : k ∉ call_key <$> db_calls d -> db_ok d -> db_ok (call_begin k d).
Proof.
  intros Hk Hok. destruct (remove_entry_ok k d Hok) as [[Hnd Habs Hkey Hnew Hlive] Hnone].
  assert (Hcur : forall j u, current (call_begin k d) j u -> current (remove_entry k d) j u).
  { intros j u [He|Hs]; [by left|right]. simpl in Hs. apply elem_of_app in Hs as [Hs|Hs]; [done|]. by apply list_elem_of_singleton in Hs. }
  assert (Hcalls : db_calls (remove_entry k d) = db_calls d) by (unfold remove_entry; by case_match).
  split; simpl.
  - rewrite Hcalls, fmap_app. apply NoDup_app. split_and!; [by rewrite <-Hcalls| |apply NoDup_singleton].
    intros j Hj ->%list_elem_of_singleton. done.
  - intros c [Hc|Hc]%elem_of_app; [by apply Habs|]. by apply list_elem_of_singleton in Hc as ->.
  - intros j u Hc%Hcur. by apply Hkey.
  - intros j u v y Hc%Hcur. by apply Hnew.
  - intros u y Hu Hc Hw. destruct (Hlive u y Hu Hc Hw) as [He|Hs]; [by left|right]. simpl. apply elem_of_app. by left.
Qed.

(** Only one call has a key. *)
Lemma call_unique (l : list call) i j c c' :
  NoDup (call_key <$> l) -> l !! i = Some c -> l !! j = Some c' -> call_key c = call_key c' -> i = j.
Proof. intros Hnd Hi Hj He. eapply NoDup_lookup; [exact Hnd|..]; rewrite list_lookup_fmap; [by rewrite Hi|by rewrite Hj, He]. Qed.

Lemma spawn_ok i k id d : db_calls d !! i = Some (Removed k id) -> db_ok d -> db_ok (call_spawn i k id d).
Proof.
  intros Hi [Hnd Habs Hkey Hnew Hlive]. pose proof (Habs _ (list_elem_of_lookup_2 _ _ _ Hi)) as Hnone. simpl in Hnone.
  assert (Hlt : i < length (db_calls d)) by (by eapply lookup_lt_Some).
  assert (Hcur : forall j u, current (call_spawn i k id d) j u -> (current d j u /\ j <> k) \/ (j = k /\ u = length (db_tasks d))).
  { intros j u [He|Hs]; simpl in *; [left; split; [by left|congruence]|].
    apply list_elem_of_lookup_1 in Hs as [n Hn]. destruct (decide (n = i)) as [->|Hne].
    - rewrite list_lookup_insert_eq in Hn by done. injection Hn as <- <-. by right.
    - rewrite list_lookup_insert_ne in Hn by done. left. split; [right; by eapply list_elem_of_lookup_2|].
      intros ->. apply Hne. by apply (call_unique (db_calls d) n i (Spawned k u) (Removed k id)). }
  assert (Hkeep : forall j u, current d j u -> current (call_spawn i k id d) j u).
  { intros j u [He|Hs]; [by left|right]. simpl. apply list_elem_of_lookup_1 in Hs as [n Hn].
    apply (list_elem_of_lookup_2 _ n). rewrite list_lookup_insert_ne; [done|]. intros ->. congruence. }
  split; simpl.
  - rewrite list_fmap_insert. simpl. rewrite list_insert_id; [done|]. by rewrite list_lookup_fmap, Hi.
  - intros c Hc. apply list_elem_of_lookup_1 in Hc as [n Hn]. destruct (decide (n = i)) as [->|Hne].
    + rewrite list_lookup_insert_eq in Hn by done. by injection Hn as <-.
    + rewrite list_lookup_insert_ne in Hn by done. apply Habs. by eapply list_elem_of_lookup_2.
  - intros j u [[Hc _]|[-> ->]]%Hcur.
    + destruct (Hkey j u Hc) as (x & Hx & Hk). exists x. by rewrite (lookup_app_l_Some _ _ _ _ Hx).
    + eexists. rewrite lookup_app_r, Nat.sub_diag by lia. done.
  - intros j u v y Hc Hv Hk. apply Hcur in Hc as [[Hc Hne]|[-> ->]].
    + apply lookup_app_Some in Hv as [Hv|[_ Hv]]; [by eapply Hnew|]. apply list_lookup_singleton_Some in Hv as [_ <-]. done.
    + apply lookup_lt_Some in Hv. rewrite length_app in Hv. simpl in Hv. lia.
  - intros u y Hu Hc Hw. apply lookup_app_Some in Hu as [Hu|[Hge Hu]]; [by apply Hkeep, Hlive|].
    apply list_lookup_singleton_Some in Hu as [Hu <-]. right. simpl. replace u with (length (db_tasks d)) by lia.
    apply (list_elem_of_lookup_2 _ i). by apply list_lookup_insert_eq.
Qed.

Lemma end_ok i k t d : db_calls d !! i = Some (Spawned k t) -> db_ok d -> db_ok (call_end i k t d).
Proof.
  intros Hi [Hnd Habs Hkey Hnew Hlive]. pose proof (list_elem_of_lookup_2 _ _ _ Hi) as Hin.
  pose proof (Habs _ Hin) as Hnone. simpl in Hnone.
  assert (Hdel : forall c, c ∈ db_calls d -> c = Spawned k t \/ c ∈ delete i (db_calls d)).
  { intros c Hc. rewrite <-(take_drop_middle _ _ _ Hi) in Hc. rewrite delete_take_drop. set_solver. }
  assert (Hrest : forall c, c ∈ delete i (db_calls d) -> c ∈ db_calls d /\ call_key c <> k).
  { intros c Hc. rewrite <-(take_drop_middle _ _ _ Hi) in Hnd |- *. rewrite delete_take_drop in Hc.
    rewrite fmap_app, fmap_cons in Hnd. apply NoDup_app in Hnd as (_ & Hdis & [Hk _]%NoDup_cons). split; [set_solver|].
    intros He. apply elem_of_app in Hc as [Hc|Hc].
    - apply (Hdis k); [|left]. rewrite <-He. by apply list_elem_of_fmap_2.
    - apply Hk. simpl. rewrite <-He. by apply list_elem_of_fmap_2. }
  assert (Hcur : forall j u, current (call_end i k t d) j u <-> current d j u).
  { intros j u. unfold current. simpl. split.
    - intros [He|Hs]; [|right; by apply Hrest]. destruct (decide (j = k)) as [->|Hne].
      + rewrite lookup_insert_eq in He. injection He as <-. by right.
      + rewrite lookup_insert_ne in He by done. by left.
    - intros [He|Hs].
      + left. rewrite lookup_insert_ne; [done|]. intros ->. congruence.
      + destruct (Hdel _ Hs) as [Heq|Hd]; [|by right]. injection Heq as -> ->. left. apply lookup_insert_eq. }
  split; simpl.
  - rewrite <-(take_drop_middle _ _ _ Hi), fmap_app, fmap_cons in Hnd. rewrite delete_take_drop, fmap_app.
    apply NoDup_app in Hnd as (H1 & Hdis & [_ H2]%NoDup_cons). apply NoDup_app. split_and!; [done| |done].
    intros j Hj Hj'. apply (Hdis j Hj). by right.
  - intros c [Hc Hne]%Hrest. rewrite lookup_insert_ne by done. by apply Habs.
  - intros j u Hc%Hcur. by apply Hkey.
  - intros j u v y Hc%Hcur. by apply Hnew.
  - intros u y Hu Hc Hw. apply Hcur. by apply Hlive.
Qed.

Definition db_inv (d : debouncer) : Prop := ids_fresh d /\ db_ok d /\ Forall task_ok (db_tasks d).

Lemma db_step_inv d d' : db_step true d d' -> db_inv d -> db_inv d'.
Proof.
  intros Hs (Hf & Hok & Hall). split; [by eapply step_fresh|].
  destruct Hs as [k Hk|i k id Hi|i k t Hi|t x d' Hx Hq|t|k].
  - split; [apply begin_ok; [by apply Hk|done]|]. by apply (remove_entry_tasks k d).
  - split; [by apply spawn_ok|]. apply Forall_app. split; [done|]. apply Forall_singleton. split; simpl; [intros _ [?|?]; discriminate|done].
  - split; [by apply end_ok|done].
  - by apply (task_step_ok t x d d').
  - by apply token_ok.
  - split; [by apply remove_entry_ok|by apply remove_entry_tasks].
Qed.

Lemma reachable_inv d : db_reachable true d -> db_inv d.
Proof.
  unfold db_reachable. revert d. apply rtc_ind_r; [|intros d d' _ Hs; by apply db_step_inv].
  split; [split; constructor|]. split; [|constructor]. split; simpl.
  - constructor.
  - by intros c Hc%elem_of_nil.
  - intros k t [He|Hs]; [simpl in He; by rewrite lookup_empty in He|by apply elem_of_nil in Hs].
  - intros k t u y _ Hu. done.
  - intros t x Hx. done.
Qed.

(** C22: The newest request for a key wins.  As long as calls for the same key do not overlap, and
    whatever tasks, cancellations and calls for other keys do in between: a task that was not
    cancelled and still waits, or whose closure is in the queue or running, is the newest one for its
    key; so at most one closure per key runs that has not been told to stop; and a task that nobody
    cancelled is not aborted. *)
Theorem debounce_newest d t x :
  db_reachable true d -> db_tasks d !! t = Some x -> tk_cancelled x = false ->
  (waiting x \/ tk_job x = Queued \/ tk_job x = Running ->
   forall u y, db_tasks d !! u = Some y -> tk_key y = tk_key x ->
     u <= t /\ (tk_cancelled y = false -> waiting y \/ tk_job y = Queued \/ tk_job y = Running -> u = t)) /\
  tk_stage x <> Aborted.
Proof.
  intros Hr Hx Hc. destruct (reachable_inv d Hr) as (_ & [Hnd Habs Hkey Hnew Hlive] & Hall).
  assert (Hw : forall v z, db_tasks d !! v = Some z -> tk_cancelled z = false ->
    waiting z \/ tk_job z = Queued \/ tk_job z = Running -> current d (tk_key z) v).
  { intros v z Hz Hcz Hz'. apply Hlive; [done..|]. pose proof (Forall_lookup_1 _ _ _ _ Hall Hz) as [Hj _].
    destruct Hz' as [Hw|Hjob]; [done|]. right. by apply Hj. }
  split; [|by apply (Forall_lookup_1 _ _ _ _ Hall Hx)].
  intros Hwx u y Hu Hk. pose proof (Hw t x Hx Hc Hwx) as Hcx. split; [by eapply Hnew|]. intros Hcy Hwy.
  pose proof (Hw u y Hu Hcy Hwy) as Hcuy. rewrite Hk in Hcuy.
  pose proof (Hnew _ _ _ _ Hcx Hu Hk). pose proof (Hnew _ _ _ _ Hcuy Hx eq_refl). lia.
Qed.
End Debouncer.

Arguments task K : clear implicits.
Arguments debouncer K {_ _}.

(** ** Runs *)

(** Some of the steps as functions, with keys that are numbers. *)
Inductive db_action :=
| ABegin (k : nat)
| ASpawn (i : nat)
| AInsert (i : nat)
| AElapse (t : nat)
| AStart (t : nat)
| AReturn (t : nat)
| AJoin (t : nat)
| AClean (t : nat).

Definition db_act (exclusive : bool) (a : db_action) (d : debouncer nat) : option (debouncer nat) :=
  let at_task t f := db_tasks d !! t ≫= f in
  match a with
  | ABegin k =>
      if exclusive && bool_decide (k ∈ call_key <$> db_calls d) then None else Some (call_begin k d)
  | ASpawn i => match db_calls d !! i with Some (Removed k id) => Some (call_spawn i k id d) | _ => None end
  | AInsert i => match db_calls d !! i with Some (Spawned k t) => Some (call_end i k t d) | _ => None end
  | AElapse t => at_task t (fun x =>
      match tk_stage x, tk_cancelled x with
      | Sleeping, false => Some (on_task (set_job Joining Queued) t d)
      | _, _ => None
      end)
  | AStart t => at_task t (fun x =>
      match tk_job x with Queued => Some (on_task (set_job (tk_stage x) Running) t d) | _ => None end)
  | AReturn t => at_task t (fun x =>
      match tk_job x with Running => Some (on_task (set_job (tk_stage x) Returned) t d) | _ => None end)
  | AJoin t => at_task t (fun x =>
      match tk_stage x, tk_job x with
      | Joining, Returned => Some (on_task (set_stage Cleaning) t d)
      | _, _ => None
      end)
  | AClean t => at_task t (fun x => match tk_stage x with Cleaning => Some (clean t x d) | _ => None end)
  end.

Lemma db_act_sound b a d d' : db_act b a d = Some d' -> db_step b d d'.
Proof.
  destruct a as [k|i|i|t|t|t|t|t]; simpl; intros Ha;
    try (apply bind_Some in Ha as (x & Hx & Ha); apply (ds_task b d t x); [exact Hx|]; repeat case_match; simplify_eq; by constructor).
  - case_match eqn:He; simplify_eq. apply ds_begin. intros ->. simpl in He. by apply bool_decide_eq_false in He.
  - repeat case_match; simplify_eq. by apply ds_spawn.
  - repeat case_match; simplify_eq. by apply ds_insert.
Qed.

Definition db_run (b : bool) (acts : list db_action) : option (debouncer nat) :=
  foldl (fun o a => o ≫= db_act b a) (Some debouncer_new) acts.

Lemma db_run_sound b acts d : db_run b acts = Some d -> db_reachable b d.
Proof.
  unfold db_run, db_reachable. revert d. induction acts as [|a acts IH] using rev_ind; intros d; [by intros [= <-]|].
  rewrite foldl_app. simpl. intros (d1 & H1 & Ha)%bind_Some. eapply rtc_r; [by apply IH|by apply (db_act_sound b a)].
Qed.

Lemma db_run_exists b acts (P : debouncer nat -> bool) :
  match db_run b acts with Some d => P d | None => false end = true -> exists d, db_reachable b d /\ P d = true.
Proof. destruct (db_run b acts) as [d|] eqn:Hd; [|done]. intros HP. exists d. split; [by eapply db_run_sound|done]. Qed.

(** Overlapping calls are not debounced.  When two calls for one key overlap, both can find no
    previous entry, and the second to insert overwrites the entry of the first without cancelling
    it: there is a run in which the closures of both run for the same key, and neither was told to
    stop. *)
Theorem overlapping_calls_both_run :
  exists (d : debouncer nat) t u x y, db_reachable false d /\ t <> u /\
    db_tasks d !! t = Some x /\ db_tasks d !! u = Some y /\ tk_key x = tk_key y /\
    tk_job x = Running /\ tk_cancelled x = false /\ tk_job y = Running /\ tk_cancelled y = false.
Proof.
  destruct (db_run_exists false [ABegin 7; ABegin 7; ASpawn 0; ASpawn 1; AInsert 0; AInsert 0; AElapse 0; AElapse 1;
    AStart 0; AStart 1] (fun d => bool_decide (db_tasks d =
      [mkTask 7 1 false false Joining Running; mkTask 7 2 false false Joining Running])))
    as (d & Hr & Ht%bool_decide_eq_true); [vm_compute; reflexivity|].
  exists d, 0, 1. do 2 eexists. rewrite Ht. by split_and!.
Qed.

(** An entry can outlive its task.  Even when calls do not overlap, a task that is done before its
    call inserts the entry (its delay is short) removes nothing, and the entry stays: there is a
    run without a call under way in which the table has an entry for a task that has ended, and
    [cancel] reports that it cancelled something. *)
Theorem entry_outlives_task :
  exists (d : debouncer nat) k t x, db_reachable true d /\ db_calls d = [] /\ db_entries d !! k = Some t /\
    db_tasks d !! t = Some x /\ tk_stage x = Ended /\ fst (cancel_key k d) = true.
Proof.
  destruct (db_run_exists true [ABegin 7; ASpawn 0; AElapse 0; AStart 0; AReturn 0; AJoin 0; AClean 0; AInsert 0]
    (fun d => bool_decide (db_tasks d = [mkTask 7 1 false false Ended Returned]) && bool_decide (db_calls d = []) &&
      bool_decide (db_entries d !! 7 = Some 0))) as (d & Hr & HP); [vm_compute; reflexivity|].
  apply andb_true_iff in HP as [[Ht%bool_decide_eq_true Hc%bool_decide_eq_true]%andb_true_iff He%bool_decide_eq_true].
  exists d, 7, 0. eexists. rewrite Ht. split_and!; [done..|]. unfold cancel_key. simpl. by rewrite He.
Qed.

(** A second call for the key replaces the first. *)
Definition two_calls : list db_action := [ABegin 7; ASpawn 0; AInsert 0; ABegin 7; ASpawn 0; AInsert 0; AElapse 1; AStart 1].
Definition two_calls_state : debouncer nat := default debouncer_new (db_run true two_calls).

Lemma debounce_newest_witness :
  exists x, db_tasks two_calls_state !! 0 = Some x /\ ~ (tk_cancelled x = false /\ waiting x).
Proof.
  assert (Hr : db_reachable true two_calls_state).
  { unfold two_calls_state. destruct (db_run true two_calls) as [d|] eqn:Hd; [by eapply db_run_sound|constructor]. }
  eexists. split; [vm_compute; reflexivity|]. intros [Hc Hw].
  destruct (proj1 (debounce_newest two_calls_state 1 (mkTask 7 2 false false Joining Running) Hr
    ltac:(vm_compute; reflexivity) eq_refl) ltac:(right; by right) 0 _ ltac:(vm_compute; reflexivity) eq_refl) as [_ Hu].
  specialize (Hu Hc (or_introl Hw)). discriminate.
Defined.
