(* ===== verification/RequestContext.v ===== *)
(** * Request contexts and progress (crates/nova-scheduler/src: context.rs, progress.rs, scheduler.rs)

    A [RequestContext] carries a cancellation token and a deadline; the scheduler arms a timer that
    cancels the token at the deadline, once per context: the copies of a context share a flag.
    Progress reports go to one channel: a beginning, reports, an end.  The world of the model has
    the tokens, the flags, the timers and the clock; a token is cancelled with its parent.  Each
    operation is one step: the exchange of a flag and the message it sends are not separated. *)

From stdpp Require Import base numbers option relations list.
From S2P Require Import Prelude Str.

(** ** Tokens, flags and timers *)

Record token := mkToken { to_parent : option nat; to_cancelled : bool }.

Record world := mkWorld {
  wo_tokens : list token;
  wo_flags : list bool;
  wo_timers : list (N * nat);
  wo_now : N
}.

(** [CancellationToken::is_cancelled]: the token or one above it was cancelled.  A parent is made
    before its children, so that a chain is no longer than the list. *)
Fixpoint is_cancelled_fuel (fuel : nat) (ts : list token) (t : nat) : bool :=
  match fuel with
  | O => false
  | S fuel =>
      match ts !! t with
      | Some x => to_cancelled x || match to_parent x with Some p => is_cancelled_fuel fuel ts p | None => false end
      | None => false
      end
  end.

Definition is_cancelled (w : world) (t : nat) : bool := is_cancelled_fuel (length (wo_tokens w)) (wo_tokens w) t.

Definition cancel_token (t : nat) (w : world) : world :=
  mkWorld (alter (fun x => mkToken (to_parent x) true) t (wo_tokens w)) (wo_flags w) (wo_timers w) (wo_now w).

Definition new_token (parent : option nat) (w : world) : nat * world :=
  (length (wo_tokens w), mkWorld (wo_tokens w ++ [mkToken parent false]) (wo_flags w) (wo_timers w) (wo_now w)).

(** The clock moves on; the timers that are due cancel their tokens. *)
Definition advance (now : N) (w : world) : world :=
  let now := N.max now (wo_now w) in
  let due := filter (fun '(deadline, _) => (deadline <= now)%N) (wo_timers w) in
  let waiting := filter (fun '(deadline, _) => ~ (deadline <= now)%N) (wo_timers w) in
  foldl (fun w '(_, t) => cancel_token t w) (mkWorld (wo_tokens w) (wo_flags w) waiting now) due.

(** ** [RequestContext] *)

(** [RequestId] (crates/nova-core/src/lib.rs). *)
Module RequestId.
Inductive t := Number (n : Z) | String (s : str).
End RequestId.

(** Tokens, flags and progress senders are shared: the fields are places in the world. *)
Record RequestContext := mkContext {
  rc_request_id : RequestId.t;
  rc_cancel : nat;
  rc_deadline : option N;
  rc_progress : nat;
  rc_timer_started : nat
}.

Definition context_new (request_id : RequestId.t) (cancel : nat) (deadline : option N) (progress : nat) (w : world)
  : RequestContext * world :=
  (mkContext request_id cancel deadline progress (length (wo_flags w)),
   mkWorld (wo_tokens w) (wo_flags w ++ [false]) (wo_timers w) (wo_now w)).

Definition with_deadline (deadline : N) (ctx : RequestContext) : RequestContext :=
  mkContext (rc_request_id ctx) (rc_cancel ctx) (Some deadline) (rc_progress ctx) (rc_timer_started ctx).

Definition with_timeout (timeout : N) (ctx : RequestContext) (w : world) : RequestContext :=
  with_deadline (wo_now w + timeout) ctx.

Definition remaining_time (ctx : RequestContext) (w : world) : option N :=
  (fun d => d - wo_now w)%N <$> rc_deadline ctx.

Definition child (ctx : RequestContext) (w : world) : RequestContext * world :=
  let '(t, w) := new_token (Some (rc_cancel ctx)) w in
  (mkContext (rc_request_id ctx) t (rc_deadline ctx) (rc_progress ctx) (rc_timer_started ctx), w).

(** The flag is exchanged from false to true; the first to do so arms the timer. *)
Definition ensure_deadline_timer (ctx : RequestContext) (w : world) : world :=
  match rc_deadline ctx, wo_flags w !! rc_timer_started ctx with
  | Some deadline, Some false =>
      mkWorld (wo_tokens w) (<[rc_timer_started ctx := true]> (wo_flags w))
        (wo_timers w ++ [(deadline, rc_cancel ctx)]) (wo_now w)
  | _, _ => w
  end.

(** [spawn_blocking_on_ctx] and [spawn_io_ctx]: the context of the task. *)
Definition spawn_ctx (ctx : RequestContext) (w : world) : RequestContext * world :=
  child ctx (ensure_deadline_timer ctx w).

(** ** Cancellation reaches the children *)

(** Parents come before their children. *)
Definition wf_tokens (ts : list token) : Prop :=
  forall t x p, ts !! t = Some x -> to_parent x = Some p -> p < t.

Lemma is_cancelled_fuel_more ts t fuel fuel' :
  wf_tokens ts -> t < fuel -> fuel <= fuel' -> is_cancelled_fuel fuel' ts t = is_cancelled_fuel fuel ts t.
Proof.
  intros Hwf. revert t fuel'. induction fuel as [|fuel IH]; intros t fuel' Ht Hle; [lia|].
  destruct fuel' as [|fuel']; [lia|]. simpl. destruct (ts !! t) as [x|] eqn:Hx; [|done]. f_equal.
  destruct (to_parent x) as [p|] eqn:Hp; [|done]. apply IH; [|lia]. pose proof (Hwf t x p Hx Hp). lia.
Qed.

Lemma is_cancelled_self w t x : wo_tokens w !! t = Some x -> to_cancelled x = true -> is_cancelled w t = true.
Proof.
  intros Hx Hc. unfold is_cancelled. apply lookup_lt_Some in Hx as Hlt. destruct (length (wo_tokens w)); [lia|].
  simpl. by rewrite Hx, Hc.
Qed.

Lemma is_cancelled_parent w t x p :
  wf_tokens (wo_tokens w) -> wo_tokens w !! t = Some x -> to_parent x = Some p -> is_cancelled w p = true ->
  is_cancelled w t = true.
Proof.
  intros Hwf Hx Hp Hc. unfold is_cancelled in *. pose proof (lookup_lt_Some _ _ _ Hx) as Hlt. pose proof (Hwf t x p Hx Hp) as Hpt.
  destruct (length (wo_tokens w)) as [|n]; [lia|]. cbn [is_cancelled_fuel] in Hc |- *. rewrite Hx, Hp.
  apply orb_true_iff. right. rewrite <-(is_cancelled_fuel_more _ p n (S n)); [exact Hc|done|lia|lia].
Qed.

Lemma cancel_all_tokens (due : list (N * nat)) w t x :
  wo_tokens w !! t = Some x -> (to_cancelled x = true \/ exists d, (d, t) ∈ due) ->
  exists y, wo_tokens (foldl (fun w '(_, t) => cancel_token t w) w due) !! t = Some y /\
    to_cancelled y = true /\ to_parent y = to_parent x.
Proof.
  revert w x. induction due as [|[d u] due IH]; intros w x Hx Hc; simpl.
  { exists x. destruct Hc as [Hc|(d & []%elem_of_nil)]. done. }
  destruct (decide (u = t)) as [->|Hne].
  - destruct (IH (cancel_token t w) (mkToken (to_parent x) true)) as (y & Hy & Hcy & Hp); [|by left|by exists y].
    simpl. by rewrite list_lookup_alter_eq, Hx.
  - apply IH; [simpl; by rewrite list_lookup_alter_ne|]. destruct Hc as [Hc|(d' & [Heq|Hin]%elem_of_cons)]; [by left| |right; by exists d'].
    by simplify_eq.
Qed.

Lemma cancel_all_parents (due : list (N * nat)) w t :
  to_parent <$> wo_tokens (foldl (fun w '(_, t) => cancel_token t w) w due) !! t = to_parent <$> wo_tokens w !! t.
Proof.
  revert w. induction due as [|[d u] due IH]; intros w; simpl; [done|]. rewrite IH. simpl.
  destruct (decide (u = t)) as [->|Hne]; [|by rewrite list_lookup_alter_ne].
  rewrite list_lookup_alter_eq. by destruct (wo_tokens w !! t).
Qed.

Lemma advance_parents now w t : to_parent <$> wo_tokens (advance now w) !! t = to_parent <$> wo_tokens w !! t.
Proof. unfold advance. by rewrite cancel_all_parents. Qed.

Lemma advance_wf now w : wf_tokens (wo_tokens w) -> wf_tokens (wo_tokens (advance now w)).
Proof.
  intros Hwf t x p Hx Hp. pose proof (advance_parents now w t) as H. rewrite Hx in H. simpl in H.
  destruct (wo_tokens w !! t) as [y|] eqn:Hy; [|done]. injection H as H. apply (Hwf t y p Hy). congruence.
Qed.

Lemma advance_due now w d t x :
  (d, t) ∈ wo_timers w -> (d <= now)%N -> wo_tokens w !! t = Some x -> is_cancelled (advance now w) t = true.
Proof.
  intros Hin Hd Hx. unfold advance. set (w1 := mkWorld _ _ _ _). set (due := filter _ (wo_timers w)).
  destruct (cancel_all_tokens due w1 t x) as (y & Hy & Hc & _); [done| |by eapply is_cancelled_self].
  right. exists d. apply list_elem_of_filter. split; [lia|done].
Qed.

(** A task ends with the deadline of its request.  A task that is spawned on a context whose timer
    was not armed before runs under a token that is cancelled when the deadline has passed, and so
    is the token of the request. *)
Theorem spawned_task_meets_deadline ctx w d now :
  wf_tokens (wo_tokens w) -> rc_cancel ctx < length (wo_tokens w) ->
  rc_deadline ctx = Some d -> wo_flags w !! rc_timer_started ctx = Some false -> (d <= now)%N ->
  let '(task_ctx, w1) := spawn_ctx ctx w in
  is_cancelled (advance now w1) (rc_cancel task_ctx) = true /\ is_cancelled (advance now w1) (rc_cancel ctx) = true.
Proof.
  intros Hwf Hlt Hd Hf Hnow. unfold spawn_ctx, ensure_deadline_timer. rewrite Hd, Hf. unfold child, new_token. simpl.
  set (w1 := mkWorld _ _ _ _). destruct (lookup_lt_is_Some_2 _ _ Hlt) as [x Hx].
  assert (Hx1 : wo_tokens w1 !! rc_cancel ctx = Some x) by (simpl; by rewrite (lookup_app_l_Some _ _ _ _ Hx)).
  assert (Hc : is_cancelled (advance now w1) (rc_cancel ctx) = true).
  { apply (advance_due now w1 d _ x); [|done|done]. simpl. apply elem_of_app. right. by left. }
  assert (Hwf1 : wf_tokens (wo_tokens w1)).
  { intros t y p Hy Hp. simpl in Hy. apply lookup_app_Some in Hy as [Hy|[Hge Hy]]; [by apply (Hwf t y)|].
    apply list_lookup_singleton_Some in Hy as [Ht <-]. injection Hp as <-. lia. }
  split; [|done]. pose proof (advance_parents now w1 (length (wo_tokens w))) as Hp.
  assert (Hlast : wo_tokens w1 !! length (wo_tokens w) = Some (mkToken (Some (rc_cancel ctx)) false)).
  { simpl. by rewrite lookup_app_r, Nat.sub_diag by lia. }
  rewrite Hlast in Hp. destruct (wo_tokens (advance now w1) !! length (wo_tokens w)) as [y|] eqn:Hy; [|done].
  injection Hp as Hp. eapply is_cancelled_parent; [by apply advance_wf|exact Hy|exact Hp|done].
Qed.

(** A world with one token, and the context of a request on it. *)
Definition one_token : world := mkWorld [mkToken None false] [] [] 0.
Definition request : RequestContext * world := context_new (RequestId.Number 1) 0 (Some 10%N) 0 one_token.

Lemma spawned_task_meets_deadline_witness :
  let '(task_ctx, w1) := spawn_ctx request.1 request.2 in
  is_cancelled (advance 10 w1) (rc_cancel task_ctx) = true /\ is_cancelled (advance 10 w1) (rc_cancel request.1) = true.
Proof.
  apply (spawned_task_meets_deadline request.1 request.2 10 10); [|vm_compute; lia|done|done|done].
  intros [|t] x p Hx Hp; simpl in Hx; [by simplify_eq|done].
Defined.

(** The flag of a context is shared too widely.  [ensure_deadline_timer] promises that the token of
    the context is cancelled once the deadline is reached; the copies of a context share the flag
    but not the deadline and the token.  After the timer of a context with a later deadline was
    armed, a copy with an earlier one gets none; and when a child comes first, the timer is that of
    the child only: in both cases the deadline of the context passes and its token is not
    cancelled. *)
Theorem deadline_timer_not_armed :
  (exists ctx w later now, now < later /\ rc_deadline ctx = Some later /\
     let earlier := with_deadline now ctx in
     let w1 := ensure_deadline_timer earlier (ensure_deadline_timer ctx w) in
     is_cancelled (advance now w1) (rc_cancel earlier) = false)%N /\
  (exists ctx w d, rc_deadline ctx = Some d /\
     let '(c, w1) := child ctx w in
     let w2 := ensure_deadline_timer ctx (ensure_deadline_timer c w1) in
     is_cancelled (advance d w2) (rc_cancel ctx) = false).
Proof.
  split.
  - exists request.1, request.2, 10%N, 5%N. vm_compute. done.
  - exists request.1, request.2, 10%N. vm_compute. done.
Qed.

(** ** Progress *)

Module ProgressEvent.
Inductive t :=
| Begin (id : N) (title : str) (message : option str) (percentage : option N)
| Report (id : N) (message : option str) (percentage : option N)
| End (id : N) (message : option str).
End ProgressEvent.
Notation ProgressEvent := ProgressEvent.t.

Definition event_id (e : ProgressEvent) : N :=
  match e with ProgressEvent.Begin id _ _ _ | ProgressEvent.Report id _ _ | ProgressEvent.End id _ => id end.

(** The channel, the counter of ids, and for each progress whether it is finished and how many
    handles of it there are: a [Progress] can be cloned. *)
Record progress_state := mkProgressState {
  ps_next_id : N;
  ps_sent : list ProgressEvent;
  ps_live : list (bool * nat)
}.

Definition progress_new : progress_state := mkProgressState 1 [] [].

(** The id of the progress at an index: ids are given out in order. *)
Definition id_of (i : nat) : N := (1 + N.of_nat i)%N.

Definition progress_start (title : str) (st : progress_state) : progress_state :=
  mkProgressState ((ps_next_id st + 1) mod 2 ^ 64)
    (ps_sent st ++ [ProgressEvent.Begin (ps_next_id st) title None None]) (ps_live st ++ [(false, 1)]).

Definition progress_report (i : nat) (message : option str) (percentage : option N) (st : progress_state) : progress_state :=
  mkProgressState (ps_next_id st) (ps_sent st ++ [ProgressEvent.Report (id_of i) message percentage]) (ps_live st).

(** The flag is exchanged from false to true; only the first call sends. *)
Definition progress_finish (i : nat) (message : option str) (st : progress_state) : progress_state :=
  match ps_live st !! i with
  | Some (false, handles) =>
      mkProgressState (ps_next_id st) (ps_sent st ++ [ProgressEvent.End (id_of i) message]) (<[i := (true, handles)]> (ps_live st))
  | _ => st
  end.

Definition progress_clone (i : nat) (st : progress_state) : progress_state :=
  mkProgressState (ps_next_id st) (ps_sent st) (alter (fun '(f, n) => (f, S n)) i (ps_live st)).

(** [Drop for Progress]. *)
Definition progress_drop (i : nat) (st : progress_state) : progress_state :=
  let st := progress_finish i None st in
  mkProgressState (ps_next_id st) (ps_sent st) (alter (fun '(f, n) => (f, n - 1)) i (ps_live st)).

(** What can be done with a handle that is there. *)
Inductive progress_step (st : progress_state) : progress_state -> Prop :=
| pg_start title : (N.of_nat (length (ps_live st)) + 2 < 2 ^ 64)%N -> progress_step st (progress_start title st)
| pg_report i f n m p : ps_live st !! i = Some (f, S n) -> progress_step st (progress_report i m p st)
| pg_finish i f n m : ps_live st !! i = Some (f, S n) -> progress_step st (progress_finish i m st)
| pg_clone i f n : ps_live st !! i = Some (f, S n) -> progress_step st (progress_clone i st)
| pg_drop i f n : ps_live st !! i = Some (f, S n) -> progress_step st (progress_drop i st).

Definition progress_reachable (st : progress_state) : Prop := rtc progress_step progress_new st.

Definition is_end (e : ProgressEvent) : bool := match e with ProgressEvent.End _ _ => true | _ => false end.
Definition is_begin (e : ProgressEvent) : bool := match e with ProgressEvent.Begin _ _ _ _ => true | _ => false end.

(** The events of one progress. *)
Definition events_of (id : N) (l : list ProgressEvent) : list ProgressEvent := filter (fun e => event_id e = id) l.

Definition count (P : ProgressEvent -> bool) (l : list ProgressEvent) : nat := length (filter (fun e => P e = true) l).

(** What was sent about the progress at [i]: it begins once and first, and ends once if it is
    finished; it is finished when its handles are gone. *)
Record progress_ok (st : progress_state) (i : nat) (f : bool) (n : nat) : Prop := {
  pk_begin : exists e l, events_of (id_of i) (ps_sent st) = e :: l /\ is_begin e = true /\ count is_begin l = 0;
  pk_end : count is_end (events_of (id_of i) (ps_sent st)) = if f then 1 else 0;
  pk_dropped : n = 0 -> f = true
}.

Lemma events_of_snoc i j l e : event_id e = id_of j ->
  events_of (id_of i) (l ++ [e]) = events_of (id_of i) l ++ if decide (i = j) then [e] else [].
Proof.
  intros He. unfold events_of. rewrite filter_app. f_equal. rewrite filter_cons, He, filter_nil.
  destruct (decide (i = j)) as [->|Hne]; [by rewrite decide_True|]. rewrite decide_False; [done|]. unfold id_of. lia.
Qed.

Lemma count_app P l k : count P (l ++ k) = count P l + count P k.
Proof. unfold count. by rewrite filter_app, length_app. Qed.

(** An event that is not a beginning. *)
Lemma progress_ok_send st st' i j f n f' n' e :
  ps_sent st' = ps_sent st ++ [e] -> event_id e = id_of j -> is_begin e = false -> progress_ok st i f n ->
  (i = j -> if is_end e then f = false /\ f' = true else f' = f) -> (i <> j -> f' = f) -> (n' = 0 -> f' = true) ->
  progress_ok st' i f' n'.
Proof.
  intros Hs He Hb [(b & l & Hl & Hb' & Hc) Hend _] Hij Hne Hn. split; [| |done].
  - exists b, (l ++ if decide (i = j) then [e] else []). rewrite Hs, (events_of_snoc i j), Hl by done. split_and!; [done..|].
    rewrite count_app, Hc. case_decide; [|done]. unfold count. simpl. rewrite filter_cons_False by congruence. done.
  - rewrite Hs, (events_of_snoc i j), count_app, Hend by done. case_decide as Hd.
    + specialize (Hij Hd). unfold count. simpl. destruct (is_end e) eqn:Hi.
      * destruct Hij as [-> ->]. rewrite filter_cons_True by done. done.
      * subst f'. rewrite filter_cons_False by congruence. simpl. lia.
    + rewrite (Hne Hd). unfold count. simpl. lia.
Qed.

Lemma progress_ok_same st st' i f n n' :
  ps_sent st' = ps_sent st -> (n' = 0 -> f = true) -> progress_ok st i f n -> progress_ok st' i f n'.
Proof. intros Hs Hn [Hb He _]. split; by rewrite ?Hs. Qed.

Definition progress_inv (st : progress_state) : Prop :=
  ps_next_id st = id_of (length (ps_live st)) /\
  Forall (fun e => exists j, j < length (ps_live st) /\ event_id e = id_of j) (ps_sent st) /\
  forall i f n, ps_live st !! i = Some (f, n) -> progress_ok st i f n.

Lemma events_of_none i l :
  Forall (fun e => exists j, j < i /\ event_id e = id_of j) l -> events_of (id_of i) l = [].
Proof.
  induction 1 as [|e l (j & Hj & He) _ IH]; [done|]. unfold events_of in *. rewrite filter_cons_False; [done|].
  rewrite He. unfold id_of. lia.
Qed.

Lemma start_inv title st :
  (N.of_nat (length (ps_live st)) + 2 < 2 ^ 64)%N -> progress_inv st -> progress_inv (progress_start title st).
Proof.
  intros Hsmall (Hn & Hids & Hall). unfold progress_inv. simpl. rewrite length_app. simpl. split_and!.
  - rewrite Hn. unfold id_of in *. rewrite N.mod_small by lia. lia.
  - apply Forall_app. split.
    + eapply Forall_impl; [exact Hids|]. intros e (j & Hj & He). exists j. split; [lia|done].
    + apply Forall_singleton. exists (length (ps_live st)). split; [lia|done].
  - set (e := ProgressEvent.Begin (ps_next_id st) title None None). assert (He : event_id e = id_of (length (ps_live st))) by done.
    intros i f n [Hi|[Hge Hi]]%lookup_app_Some.
    + destruct (Hall i f n Hi) as [(b & l & Hl & Hb & Hc) Hend Hd]. apply lookup_lt_Some in Hi.
      assert (Hev : events_of (id_of i) (ps_sent (progress_start title st)) = events_of (id_of i) (ps_sent st)).
      { simpl. rewrite (events_of_snoc i (length (ps_live st))) by done. rewrite decide_False by lia. apply app_nil_r. }
      split; [|by rewrite Hev|done]. exists b, l. by rewrite Hev.
    + apply list_lookup_singleton_Some in Hi as [Hi [= <- <-]]. assert (i = length (ps_live st)) as -> by lia.
      assert (Hev : events_of (id_of (length (ps_live st))) (ps_sent (progress_start title st)) = [e]).
      { simpl. rewrite (events_of_snoc _ (length (ps_live st))) by done. rewrite decide_True by done.
        by rewrite (events_of_none (length (ps_live st))). }
      split; [|by rewrite Hev|done]. exists e, []. by rewrite Hev.
Qed.

Lemma finish_inv i m st : progress_inv st -> progress_inv (progress_finish i m st).
Proof.
  intros (Hn & Hids & Hall). unfold progress_finish. destruct (ps_live st !! i) as [[[] h]|] eqn:Hi; try done.
  unfold progress_inv. simpl. rewrite length_insert. split_and!; [done| |].
  - apply Forall_app. split; [done|]. apply Forall_singleton. exists i. split; [by eapply lookup_lt_Some|done].
  - intros j f n Hj. destruct (decide (j = i)) as [->|Hne].
    + rewrite list_lookup_insert_eq in Hj by (by eapply lookup_lt_Some). injection Hj as <- <-.
      by eapply (progress_ok_send st _ i i); [reflexivity|done|done|by apply Hall| |..].
    + rewrite list_lookup_insert_ne in Hj by done. pose proof (Hall j f n Hj) as Hok.
      eapply (progress_ok_send st _ j i); [reflexivity|done|done|exact Hok|done|done|apply Hok].
Qed.

Lemma handles_inv i (g : bool * nat -> bool * nat) st :
  (forall f n, ps_live st !! i = Some (f, n) -> (g (f, n)).1 = f /\ ((g (f, n)).2 = 0 -> f = true)) ->
  progress_inv st -> progress_inv (mkProgressState (ps_next_id st) (ps_sent st) (alter g i (ps_live st))).
Proof.
  intros Hg (Hn & Hids & Hall). unfold progress_inv. simpl. rewrite length_alter. split_and!; [done..|].
  intros j f n Hj. apply lookup_alter_Some in Hj as [[-> ([f0 n0] & Hi & He)]|[_ Hj]].
  - destruct (Hg f0 n0 Hi) as [H1 H2]. rewrite <-He in H1, H2. simpl in *. subst f0.
    by eapply (progress_ok_same st); [|exact H2|apply Hall].
  - pose proof (Hall j f n Hj) as Hok. eapply (progress_ok_same st); [done|apply Hok|exact Hok].
Qed.

Lemma progress_step_inv st st' : progress_step st st' -> progress_inv st -> progress_inv st'.
Proof.
  intros Hs Hinv. destruct Hs as [title Hsmall|i f n m p Hi|i f n m Hi|i f n Hi|i f n Hi].
  - by apply start_inv.
  - destruct Hinv as (Hn & Hids & Hall). unfold progress_inv. simpl. split_and!; [done| |].
    + apply Forall_app. split; [done|]. apply Forall_singleton. exists i. split; [by eapply lookup_lt_Some|done].
    + intros j g k Hj. pose proof (Hall j g k Hj) as Hok.
      eapply (progress_ok_send st _ j i); [reflexivity|done|done|exact Hok|done|done|apply Hok].
  - by apply finish_inv.
  - apply handles_inv; [|done]. intros g k Hk. simpl. split; [done|lia].
  - unfold progress_drop. pose proof (finish_inv i None st Hinv) as Hf. apply handles_inv; [|done].
    intros g k Hk. simpl. split; [done|]. intros _. unfold progress_finish in Hk. rewrite Hi in Hk. destruct f; [congruence|].
    simpl in Hk. rewrite list_lookup_insert_eq in Hk by (by eapply lookup_lt_Some). by injection Hk as <- _.
Qed.

(** C23: Progress reports are bracketed.  In every state that starts, reports, explicit ends, clones and
    drops of handles lead to, the events of each progress open with its one beginning; an end is
    sent at most once, and exactly once if the progress is finished, which it is when its handles
    are gone. *)
Theorem progress_bracketed st i (f : bool) (n : nat) :
  progress_reachable st -> ps_live st !! i = Some (f, n) ->
  (exists e l, events_of (id_of i) (ps_sent st) = e :: l /\ is_begin e = true /\ count is_begin l = 0) /\
  count is_end (events_of (id_of i) (ps_sent st)) = (if f then 1 else 0) /\ (n = 0 -> f = true).
Proof.
  intros Hr Hi. assert (Hinv : progress_inv st).
  { clear Hi. revert st Hr. unfold progress_reachable. apply rtc_ind_r; [|intros st st' _ Hs; by apply progress_step_inv].
    split_and!; [done|constructor|done]. }
  destruct Hinv as (_ & _ & Hall). by destruct (Hall i f n Hi).
Qed.

Definition started : progress_state := progress_start [105%N] progress_new.

Lemma started_reachable : progress_reachable started.
Proof. apply rtc_once, pg_start. done. Qed.

Lemma progress_bracketed_witness : count is_end (events_of (id_of 0) (ps_sent (progress_drop 0 started))) = 1.
Proof.
  apply (progress_bracketed (progress_drop 0 started) 0 true 0); [|done].
  eapply rtc_r; [apply started_reachable|]. by eapply (pg_drop started 0 false 0).
Defined.

(** A clone of a progress ends it for all.  Dropping one handle sends the end while others are in
    use: there is a run in which a handle that is still there reports after the end. *)
Theorem dropped_clone_ends_progress :
  exists st l, progress_reachable st /\ ps_live st !! 0 = Some (true, 1) /\
    ps_sent st = l ++ [ProgressEvent.End (id_of 0) None; ProgressEvent.Report (id_of 0) None (Some 50%N)].
Proof.
  exists (progress_report 0 None (Some 50%N) (progress_drop 0 (progress_clone 0 started))).
  exists (ps_sent started). split_and!; [|done|done].
  eapply rtc_r; [eapply rtc_r; [eapply rtc_r; [apply started_reachable|]|]|].
  - by eapply (pg_clone started 0 false 0).
  - by eapply (pg_drop _ 0 false 1).
  - by eapply (pg_report _ 0 true 0).
Qed.
