(* ===== verification/Watchdog.v ===== *)
(** * Running with a deadline (crates/nova-scheduler/src: watchdog.rs, lib.rs)

    [run_with_timeout] hands a closure to a pool whose threads are bounded by permits, and waits
    for the result until a deadline.  A call and a job are small state machines; they share the
    permits, the tokens and the clock.  An iteration of [acquire] runs under the mutex of the
    permits, and is one step; so is the part of an iteration of the loop up to [recv_timeout].
    Times are in nanoseconds, without a bound: the deadline is taken to be representable as an
    [Instant] (adding the timeout panics otherwise). *)

From stdpp Require Import base numbers option gmap relations list.
From S2P Require Import Prelude Str Budget.

Module TaskError.
Inductive t := DeadlineExceeded (timeout : N) | Cancelled | Panicked.
End TaskError.

Definition POLL_INTERVAL : N := 5000000.

(** The size of the pool, from the number of processors and the environment variable. *)
Definition run_with_timeout_pool_size (available : option N) (env : option str) : N :=
  let default_size := N.max 2 (N.min 8 (default 1%N available)) in
  match env with
  | Some raw =>
      match parse_u64 raw with
      | Some 0%N | None => default_size
      | Some n => n
      end
  | None => default_size
  end.

Section Watchdog.
Context {V : Type}.

Definition task_result : Type := TaskError.t + V.

(** ** State *)

(** A job: in the queue of the pool, called, its result sent, its permit released. *)
Inductive job_state := JQueued | JRunning | JSent (r : task_result) | JDone (r : task_result).

(** Where a call is: before an iteration of [acquire], in [wait_for], with a permit, before an
    iteration of the loop, in [recv_timeout], back. *)
Inductive phase :=
| Acquiring
| Parked (until : N)
| Acquired
| Polling
| Receiving (until : N)
| Finished (r : task_result).

Record wcall := mkCall {
  wc_token : nat;
  wc_timeout : N;
  wc_deadline : N;
  wc_job : option nat;
  wc_phase : phase
}.

Record pool := mkPool {
  wp_size : nat;
  wp_permits : nat;
  wp_jobs : list job_state;
  wp_calls : list wcall;
  wp_cancelled : gset nat;
  wp_now : N
}.

Definition pool_new (size : nat) : pool := mkPool size size [] [] ∅ 0.

Definition set_phase (ph : phase) (c : wcall) : wcall :=
  mkCall (wc_token c) (wc_timeout c) (wc_deadline c) (wc_job c) ph.

Definition put_call (i : nat) (c : wcall) (p : pool) : pool :=
  mkPool (wp_size p) (wp_permits p) (wp_jobs p) (<[i := c]> (wp_calls p)) (wp_cancelled p) (wp_now p).

Definition put_cancelled (t : nat) (p : pool) : pool :=
  mkPool (wp_size p) (wp_permits p) (wp_jobs p) (wp_calls p) ({[t]} ∪ wp_cancelled p) (wp_now p).

Definition put_permits (n : nat) (p : pool) : pool :=
  mkPool (wp_size p) n (wp_jobs p) (wp_calls p) (wp_cancelled p) (wp_now p).

Definition put_job (j : nat) (s : job_state) (p : pool) : pool :=
  mkPool (wp_size p) (wp_permits p) (<[j := s]> (wp_jobs p)) (wp_calls p) (wp_cancelled p) (wp_now p).

Definition remaining (c : wcall) (p : pool) : N := (wc_deadline c - wp_now p)%N.

(** ** A call *)

Definition call_start (t : nat) (timeout : N) (p : pool) : pool :=
  let ph := if decide (t ∈ wp_cancelled p) then Finished (inl TaskError.Cancelled) else Acquiring in
  mkPool (wp_size p) (wp_permits p) (wp_jobs p)
    (wp_calls p ++ [mkCall t timeout (wp_now p + timeout) None ph]) (wp_cancelled p) (wp_now p).

(** The deadline has passed: the token is cancelled, and the call returns. *)
Definition time_out (i : nat) (c : wcall) (p : pool) : pool :=
  put_call i (set_phase (Finished (inl (TaskError.DeadlineExceeded (wc_timeout c)))) c) (put_cancelled (wc_token c) p).

(** One iteration of the loop of [acquire]. *)
Definition acquire_iter (i : nat) (c : wcall) (p : pool) : pool :=
  if decide (wc_token c ∈ wp_cancelled p) then put_call i (set_phase (Finished (inl TaskError.Cancelled)) c) p
  else
    match wp_permits p with
    | S n => put_call i (set_phase Acquired c) (put_permits n p)
    | O =>
        if (remaining c p =? 0)%N then time_out i c p
        else put_call i (set_phase (Parked (wp_now p + N.min (remaining c p) POLL_INTERVAL)) c) p
    end.

(** The job is handed to the pool, and holds the permit from now on. *)
Definition spawn_job (i : nat) (c : wcall) (p : pool) : pool :=
  mkPool (wp_size p) (wp_permits p) (wp_jobs p ++ [JQueued])
    (<[i := mkCall (wc_token c) (wc_timeout c) (wc_deadline c) (Some (length (wp_jobs p))) Polling]> (wp_calls p))
    (wp_cancelled p) (wp_now p).

(** One iteration of the loop of [run_with_timeout], up to [recv_timeout]. *)
Definition poll_iter (i : nat) (c : wcall) (p : pool) : pool :=
  if decide (wc_token c ∈ wp_cancelled p) then put_call i (set_phase (Finished (inl TaskError.Cancelled)) c) p
  else if (remaining c p =? 0)%N then time_out i c p
  else put_call i (set_phase (Receiving (wp_now p + N.min (remaining c p) POLL_INTERVAL)) c) p.

(** What is in the channel of a job. *)
Definition job_result (s : job_state) : option task_result :=
  match s with JSent r | JDone r => Some r | JQueued | JRunning => None end.

Definition received (c : wcall) (p : pool) : option task_result :=
  j ← wc_job c; s ← wp_jobs p !! j; job_result s.

(** [recv_timeout]: the result if it is there, or the next iteration when the time is up. *)
Definition recv_step (i : nat) (c : wcall) (until : N) (p : pool) : option pool :=
  match received c p with
  | Some r => Some (put_call i (set_phase (Finished r) c) p)
  | None => if (until <=? wp_now p)%N then Some (put_call i (set_phase Polling c) p) else None
  end.

(** The next step of a call, if it can take one. *)
Definition call_act (i : nat) (c : wcall) (p : pool) : option pool :=
  match wc_phase c with
  | Acquiring => Some (acquire_iter i c p)
  | Parked until => if (until <=? wp_now p)%N then Some (put_call i (set_phase Acquiring c) p) else None
  | Acquired => Some (spawn_job i c p)
  | Polling => Some (poll_iter i c p)
  | Receiving until => recv_step i c until p
  | Finished _ => None
  end.

(** [release]. *)
Definition release (p : pool) : pool := put_permits (Nat.min (wp_permits p + 1) (wp_size p)) p.

(** ** Steps *)

Inductive label := LCall (i : nat) | LOther.

#[global] Instance label_eq_dec : EqDecision label.
Proof. solve_decision. Defined.

(** A parked call can be notified before its time; a closure returns or panics. *)
Inductive wd_step : label -> pool -> pool -> Prop :=
| ws_start p t timeout : wd_step LOther p (call_start t timeout p)
| ws_call p i c p' : wp_calls p !! i = Some c -> call_act i c p = Some p' -> wd_step (LCall i) p p'
| ws_notified p i c until : wp_calls p !! i = Some c -> wc_phase c = Parked until ->
    wd_step (LCall i) p (put_call i (set_phase Acquiring c) p)
| ws_run p j : wp_jobs p !! j = Some JQueued -> wd_step LOther p (put_job j JRunning p)
| ws_return p j v : wp_jobs p !! j = Some JRunning -> wd_step LOther p (put_job j (JSent (inr v)) p)
| ws_panic p j : wp_jobs p !! j = Some JRunning -> wd_step LOther p (put_job j (JSent (inl TaskError.Panicked)) p)
| ws_release p j r : wp_jobs p !! j = Some (JSent r) -> wd_step LOther p (release (put_job j (JDone r) p))
| ws_cancel p t : wd_step LOther p (put_cancelled t p)
| ws_tick p n : wd_step LOther p
    (mkPool (wp_size p) (wp_permits p) (wp_jobs p) (wp_calls p) (wp_cancelled p) (wp_now p + n)).

Inductive wd_run : list label -> pool -> pool -> Prop :=
| wr_nil p : wd_run [] p p
| wr_cons l ls p q r : wd_step l p q -> wd_run ls q r -> wd_run (l :: ls) p r.

Definition wd_reachable (size : nat) (p : pool) : Prop := exists ls, wd_run ls (pool_new size) p.

(** ** What is known of a call and of a job *)

(** A result that was sent: a value, or a panic. *)
Definition job_ok (s : job_state) : Prop :=
  match job_result s with Some (inl e) => e = TaskError.Panicked | _ => True end.

Definition call_ok (p : pool) (c : wcall) : Prop :=
  match wc_phase c with
  | Acquiring | Acquired => wc_job c = None
  | Parked until => wc_job c = None /\ (until <= wc_deadline c)%N
  | Polling => is_Some (wc_job c)
  | Receiving until => is_Some (wc_job c) /\ (until <= wc_deadline c)%N
  | Finished (inr v) => received c p = Some (inr v)
  | Finished (inl TaskError.Panicked) => received c p = Some (inl TaskError.Panicked)
  | Finished (inl TaskError.Cancelled) => wc_token c ∈ wp_cancelled p
  | Finished (inl (TaskError.DeadlineExceeded d)) =>
      wc_token c ∈ wp_cancelled p /\ d = wc_timeout c /\ (wc_deadline c <= wp_now p)%N
  end.

(** Who holds a permit. *)
Definition call_holds (c : wcall) : nat := match wc_phase c with Acquired => 1 | _ => 0 end.
Definition job_holds (s : job_state) : nat := match s with JDone _ => 0 | _ => 1 end.
Definition held (p : pool) : nat := sum_list_with call_holds (wp_calls p) + sum_list_with job_holds (wp_jobs p).

Record pool_inv (p : pool) : Prop := {
  pi_permits : wp_permits p + held p = wp_size p;
  pi_jobs : Forall job_ok (wp_jobs p);
  pi_calls : Forall (call_ok p) (wp_calls p);
  pi_bound : forall i c j, wp_calls p !! i = Some c -> wc_job c = Some j -> j < length (wp_jobs p);
  pi_own : forall i i' c c' j, wp_calls p !! i = Some c -> wp_calls p !! i' = Some c' ->
    wc_job c = Some j -> wc_job c' = Some j -> i = i'
}.

(** What a step does not take back. *)
Record extends (p q : pool) : Prop := {
  ex_jobs : forall j s r, wp_jobs p !! j = Some s -> job_result s = Some r ->
    exists s', wp_jobs q !! j = Some s' /\ job_result s' = Some r;
  ex_length : length (wp_jobs p) <= length (wp_jobs q);
  ex_cancelled : wp_cancelled p ⊆ wp_cancelled q;
  ex_now : (wp_now p <= wp_now q)%N
}.

Lemma extends_same p q :
  wp_jobs q = wp_jobs p -> wp_cancelled p ⊆ wp_cancelled q -> (wp_now p <= wp_now q)%N -> extends p q.
Proof. intros Hj Hc Hn. split; rewrite ?Hj; [|lia|done..]. intros j s r Hs Hr. by exists s. Qed.

Lemma extends_put_job p q j s s' :
  wp_jobs q = <[j := s']> (wp_jobs p) -> wp_cancelled q = wp_cancelled p -> wp_now q = wp_now p ->
  wp_jobs p !! j = Some s -> (job_result s = None \/ job_result s' = job_result s) -> extends p q.
Proof.
  intros Hj Hc Hn Hs Hr. split; rewrite ?Hj, ?Hc, ?Hn; [|by rewrite length_insert|done..].
  intros k x r Hx Hxr. destruct (decide (k = j)) as [->|Hne]; [|by exists x; rewrite list_lookup_insert_ne].
  exists s'. rewrite list_lookup_insert_eq by (by eapply lookup_lt_Some). split; [done|]. destruct Hr; congruence.
Qed.

Lemma received_mono p q c r : extends p q -> received c p = Some r -> received c q = Some r.
Proof.
  intros Hex. unfold received. intros (j & Hj & (s & Hs & Hr)%bind_Some)%bind_Some. rewrite Hj. simpl.
  destruct (ex_jobs _ _ Hex j s r Hs Hr) as (s' & -> & Hs'). done.
Qed.

Lemma call_ok_mono p q c : extends p q -> call_ok p c -> call_ok q c.
Proof.
  intros Hex. unfold call_ok. pose proof (ex_cancelled _ _ Hex). pose proof (ex_now _ _ Hex).
  destruct (wc_phase c) as [| | | | |[[d| |]|v]]; try done; try (by apply received_mono); [|set_solver].
  intros (Ht & -> & Hd). split_and!; [set_solver|done|lia].
Qed.

Lemma sum_insert {A} (f : A -> nat) (l : list A) i x y :
  l !! i = Some x -> sum_list_with f (<[i := y]> l) + f x = sum_list_with f l + f y.
Proof.
  revert i. induction l as [|a l IH]; intros [|i] Hi; simplify_eq/=; [lia|]. specialize (IH i Hi). lia.
Qed.

(** A step of the call at [i]. *)
Lemma inv_put_call p q i c c' :
  pool_inv p -> wp_calls p !! i = Some c -> wp_calls q = <[i := c']> (wp_calls p) -> extends p q ->
  wp_permits q + held q = wp_size q -> Forall job_ok (wp_jobs q) -> call_ok q c' ->
  (wc_job c' = wc_job c \/ wc_job c' = Some (length (wp_jobs p)) /\ length (wp_jobs p) < length (wp_jobs q)) ->
  pool_inv q.
Proof.
  intros [_ _ Hcalls Hbound Hown] Hi Hq Hex Hperm Hjobs Hok Hjob.
  pose proof (ex_length _ _ Hex) as Hlen. pose proof (lookup_lt_Some _ _ _ Hi) as Hlt.
  assert (Hcase : forall k x, wp_calls q !! k = Some x -> k = i /\ x = c' \/ k <> i /\ wp_calls p !! k = Some x).
  { intros k x. rewrite Hq. intros [(-> & <- & _)|Hk]%list_lookup_insert_Some; [by left|by right; destruct Hk]. }
  assert (Hnew : forall k x j, wp_calls p !! k = Some x -> k <> i -> wc_job x = Some j -> wc_job c' <> Some j).
  { intros k x j Hk Hne Hx Hc'. destruct Hjob as [He|[He _]].
    - apply Hne. by eapply Hown; [exact Hk|exact Hi|exact Hx|congruence].
    - pose proof (Hbound k x j Hk Hx). simplify_eq. lia. }
  split; [done|done|..].
  - rewrite Hq. apply Forall_insert; [|done]. eapply Forall_impl; [exact Hcalls|]. intros x. by apply call_ok_mono.
  - intros k x j Hk Hj. destruct (Hcase k x Hk) as [[-> ->]|[_ Hk']].
    + destruct Hjob as [He|[He ?]]; [|simplify_eq; lia]. pose proof (Hbound i c j Hi). rewrite He in Hj. specialize (H Hj). lia.
    + pose proof (Hbound k x j Hk' Hj). lia.
  - intros k k' x x' j Hk Hk' Hx Hx'. destruct (Hcase k x Hk) as [[-> ->]|[Hne Hp]], (Hcase k' x' Hk') as [[-> ->]|[Hne' Hp']]; [done|..].
    + by destruct (Hnew k' x' j Hp' Hne' Hx').
    + by destruct (Hnew k x j Hp Hne Hx).
    + by eapply Hown.
Qed.

(** A step that leaves the calls alone. *)
Lemma inv_other p q :
  pool_inv p -> wp_calls q = wp_calls p -> extends p q ->
  wp_permits q + held q = wp_size q -> Forall job_ok (wp_jobs q) -> pool_inv q.
Proof.
  intros [_ _ Hcalls Hbound Hown] Hq Hex Hperm Hjobs. pose proof (ex_length _ _ Hex).
  split; rewrite ?Hq; [done|done|..|done].
  - eapply Forall_impl; [exact Hcalls|]. intros x. by apply call_ok_mono.
  - intros i c j Hi Hj. pose proof (Hbound i c j Hi Hj). lia.
Qed.

(** ** The invariant *)

(** The phase changes, the permits stay where they are. *)
Lemma inv_set_phase p q i c ph :
  pool_inv p -> wp_calls p !! i = Some c -> wp_calls q = <[i := set_phase ph c]> (wp_calls p) ->
  wp_jobs q = wp_jobs p -> wp_cancelled p ⊆ wp_cancelled q -> wp_now q = wp_now p -> wp_size q = wp_size p ->
  wp_permits q + call_holds (set_phase ph c) = wp_permits p + call_holds c ->
  call_ok q (set_phase ph c) -> pool_inv q.
Proof.
  intros Hinv Hi Hq Hj Hc Hn Hs Hperm Hok. apply (inv_put_call p q i c (set_phase ph c)); try done.
  - apply extends_same; [done|done|by rewrite Hn].
  - pose proof (pi_permits _ Hinv) as Hp. unfold held in *. rewrite Hq, Hj, Hs.
    pose proof (sum_insert call_holds _ _ _ (set_phase ph c) Hi). lia.
  - rewrite Hj. apply Hinv.
  - by left.
Qed.

Ltac phase_step := eapply inv_set_phase; [eassumption|eassumption|reflexivity|reflexivity|set_solver|reflexivity|reflexivity|..].

Lemma time_out_inv p i c :
  pool_inv p -> wp_calls p !! i = Some c -> call_holds c = 0 -> remaining c p = 0%N -> pool_inv (time_out i c p).
Proof.
  intros Hinv Hi Hh Hr. phase_step; [unfold call_holds in *; simpl; lia|].
  unfold call_ok, remaining in *. simpl. split_and!; [set_solver|done|lia].
Qed.

Lemma spawn_inv p i c :
  pool_inv p -> wp_calls p !! i = Some c -> wc_phase c = Acquired -> pool_inv (spawn_job i c p).
Proof.
  intros Hinv Hi Hph. pose proof (pi_permits _ Hinv) as Hp. eapply (inv_put_call p _ i c); [done|done|reflexivity|..].
  - split; simpl; [|rewrite length_app; simpl; lia|done..]. intros j s r Hs Hr. exists s. split; [|done]. by apply lookup_app_l_Some.
  - unfold held in *. simpl. rewrite sum_list_with_app. simpl.
    set (c' := mkCall _ _ _ _ _). pose proof (sum_insert call_holds _ _ _ c' Hi) as Hsum.
    unfold call_holds at 2 4 in Hsum. rewrite Hph in Hsum. simpl in Hsum. lia.
  - apply Forall_app. split; [apply Hinv|by apply Forall_singleton].
  - unfold call_ok. simpl. by eexists.
  - right. split; [done|]. simpl. rewrite length_app. simpl. lia.
Qed.

Lemma received_ok p c e : Forall job_ok (wp_jobs p) -> received c p = Some (inl e) -> e = TaskError.Panicked.
Proof.
  intros Hjobs (j & _ & (s & Hs & Hr)%bind_Some)%bind_Some. pose proof (Forall_lookup_1 _ _ _ _ Hjobs Hs) as Hok.
  unfold job_ok in Hok. by rewrite Hr in Hok.
Qed.

Lemma call_act_inv p i c p' :
  pool_inv p -> wp_calls p !! i = Some c -> call_act i c p = Some p' -> pool_inv p'.
Proof.
  intros Hinv Hi. pose proof (Forall_lookup_1 _ _ _ _ (pi_calls _ Hinv) Hi) as Hok. unfold call_act, call_ok in *.
  destruct (wc_phase c) as [|until| | |until|r] eqn:Hph; intros [= <-] || intros Ha.
  - assert (Hh : call_holds c = 0) by (unfold call_holds; by rewrite Hph).
    unfold acquire_iter. destruct (decide (wc_token c ∈ wp_cancelled p)); [phase_step; [by simpl; rewrite Hh|done]|].
    destruct (wp_permits p) as [|free] eqn:Hn; [|phase_step; [rewrite Hn, Hh; unfold call_holds; simpl; lia|done]].
    destruct (N.eqb_spec (remaining c p) 0); [by apply time_out_inv|]. phase_step; [by simpl; rewrite Hh|].
    split; [done|]. unfold remaining in *. simpl. lia.
  - case_match; simplify_eq. phase_step; [|by destruct Hok]. unfold call_holds. by rewrite Hph.
  - by apply spawn_inv.
  - assert (Hh : call_holds c = 0) by (unfold call_holds; by rewrite Hph).
    unfold poll_iter. destruct (decide (wc_token c ∈ wp_cancelled p)); [phase_step; [by simpl; rewrite Hh|done]|].
    destruct (N.eqb_spec (remaining c p) 0); [by apply time_out_inv|]. phase_step; [by simpl; rewrite Hh|].
    split; [done|]. unfold remaining in *. simpl. lia.
  - assert (Hh : call_holds c = 0) by (unfold call_holds; by rewrite Hph).
    unfold recv_step in Ha. destruct (received c p) as [r|] eqn:Hr.
    + injection Ha as <-. phase_step; [by simpl; rewrite Hh|]. unfold call_ok. simpl.
      destruct r as [e|v]; [|done].
      pose proof (received_ok p c e (pi_jobs _ Hinv) Hr) as ->. exact Hr.
    + case_match; simplify_eq. phase_step; [by simpl; rewrite Hh|]. by destruct Hok.
Qed.

(** A job moves on. *)
Lemma job_inv p q j s s' :
  pool_inv p -> wp_jobs p !! j = Some s -> wp_calls q = wp_calls p -> wp_jobs q = <[j := s']> (wp_jobs p) ->
  wp_cancelled q = wp_cancelled p -> wp_now q = wp_now p -> wp_size q = wp_size p ->
  (job_result s = None \/ job_result s' = job_result s) -> job_ok s' ->
  wp_permits q + job_holds s' = wp_permits p + job_holds s -> pool_inv q.
Proof.
  intros Hinv Hs Hcalls Hjobs Hc Hn Hsize Hr Hok Hperm. apply (inv_other p); [done|done|by eapply extends_put_job|..].
  - pose proof (pi_permits _ Hinv). unfold held in *. rewrite Hcalls, Hjobs, Hsize.
    pose proof (sum_insert job_holds _ _ _ s' Hs). lia.
  - rewrite Hjobs. apply Forall_insert; [apply Hinv|done].
Qed.

Lemma held_job p j s : wp_jobs p !! j = Some s -> job_holds s <= held p.
Proof.
  intros Hs. unfold held. pose proof (sum_insert job_holds _ _ _ (JDone (inl TaskError.Panicked)) Hs). simpl in *. lia.
Qed.

Lemma wd_step_inv l p q : wd_step l p q -> pool_inv p -> pool_inv q.
Proof.
  intros Hs Hinv. pose proof (pi_permits _ Hinv) as Hperm.
  destruct Hs as [p t timeout|p i c q Hi Ha|p i c until Hi Hph|p j Hj|p j v Hj|p j Hj|p j r Hj|p t|p n].
  - pose proof (extends_same p (call_start t timeout p) eq_refl ltac:(done) ltac:(done)) as Hex. destruct Hinv as [_ Hjobs Hcalls Hbound Hown].
    assert (Hcase : forall i c j, wp_calls (call_start t timeout p) !! i = Some c -> wc_job c = Some j -> wp_calls p !! i = Some c).
    { intros i c j. simpl. by intros [Hi|[_ [_ <-]%list_lookup_singleton_Some]]%lookup_app_Some Hj. }
    split; [|done|..].
    + unfold held in *. simpl. rewrite sum_list_with_app. simpl. unfold call_holds at 2. simpl. case_decide; lia.
    + apply Forall_app. split; [eapply Forall_impl; [exact Hcalls|]; intros c; by apply call_ok_mono|].
      apply Forall_singleton. unfold call_ok. simpl. by case_decide.
    + intros i c j Hi Hj. by apply (Hbound i c j); [eapply Hcase|].
    + intros i i' c c' j Hi Hi' Hj Hj'. by apply (Hown i i' c c' j); [eapply Hcase|eapply Hcase|..].
  - by apply (call_act_inv p i c).
  - pose proof (Forall_lookup_1 _ _ _ _ (pi_calls _ Hinv) Hi) as Hok. unfold call_ok in Hok. rewrite Hph in Hok.
    phase_step; [|by destruct Hok]. unfold call_holds. by rewrite Hph.
  - eapply (job_inv p); [done|exact Hj|reflexivity..|by left|done|done].
  - eapply (job_inv p); [done|exact Hj|reflexivity..|by left|done|done].
  - eapply (job_inv p); [done|exact Hj|reflexivity..|by left|done|done].
  - eapply (job_inv p); [done|exact Hj|reflexivity..|by right|exact (Forall_lookup_1 _ _ _ _ (pi_jobs _ Hinv) Hj)|].
    pose proof (held_job p j _ Hj) as Hh. simpl in *. lia.
  - apply (inv_other p); [done|done|apply extends_same; [done|set_solver|done]|done|apply Hinv].
  - apply (inv_other p); [done|done|apply extends_same; [done|done|simpl; lia]|done|apply Hinv].
Qed.

Lemma wd_run_inv ls p q : wd_run ls p q -> pool_inv p -> pool_inv q.
Proof. induction 1; intros Hinv; [done|]. by eauto using wd_step_inv. Qed.

Lemma wd_reachable_inv size p : wd_reachable size p -> pool_inv p.
Proof.
  intros [ls Hr]. eapply wd_run_inv; [exact Hr|]. split; simpl; [unfold held; simpl; lia|constructor|constructor|done|done].
Qed.

Lemma wd_step_size l p q : wd_step l p q -> wp_size q = wp_size p.
Proof.
  destruct 1 as [| p i c q Hi Ha | | | | | | |]; try done. unfold call_act, acquire_iter, poll_iter, recv_step in Ha.
  repeat case_match; simplify_eq; done.
Qed.

Lemma wd_reachable_size size p : wd_reachable size p -> wp_size p = size.
Proof.
  intros [ls Hr]. assert (Hsz : wp_size p = wp_size (pool_new size)); [|done].
  induction Hr as [|l ls p q r Hs _ IH]; [done|]. rewrite IH. by eapply wd_step_size.
Qed.

Definition is_running (s : job_state) : bool := match s with JRunning => true | _ => false end.
Definition running (p : pool) : nat := length (filter (fun s => is_running s = true) (wp_jobs p)).

Lemma running_held p : running p <= held p.
Proof.
  unfold running, held. induction (wp_jobs p) as [|s l IH]; [simpl; lia|].
  rewrite filter_cons. destruct s; simpl; lia.
Qed.

(** The pool is bounded.  Whatever calls, jobs, cancellations and the clock do, each permit is
    free or held by one call or job, so that no more closures run than the pool has threads, and
    the permit of a job that ends is counted again: the bound in [release] never cuts one off. *)
Theorem watchdog_pool_bounded size p :
  wd_reachable size p ->
  wp_permits p + held p = size /\ running p <= size /\
  forall j r, wp_jobs p !! j = Some (JSent r) -> wp_permits (release (put_job j (JDone r) p)) = S (wp_permits p).
Proof.
  intros Hr. pose proof (pi_permits _ (wd_reachable_inv _ _ Hr)) as Hp. rewrite (wd_reachable_size _ _ Hr) in Hp.
  pose proof (running_held p). split_and!; [done|lia|]. intros j r Hj. pose proof (held_job _ _ _ Hj) as Hh.
  simpl in *. rewrite (wd_reachable_size _ _ Hr). lia.
Qed.

(** C21: An answer means what it says, for deadlines that an [Instant] can represent.  A value or a panic that a call returns is what its own closure
    did, and no other call waits for that closure; a call that returns [Cancelled] has a token that
    was cancelled; a call that returns [DeadlineExceeded] names its own timeout, its deadline has
    passed, and its token is cancelled, so that the closure can stop. *)
Theorem watchdog_answers size p i c r :
  wd_reachable size p -> wp_calls p !! i = Some c -> wc_phase c = Finished r ->
  match r with
  | inr _ | inl TaskError.Panicked =>
      exists j s, wc_job c = Some j /\ wp_jobs p !! j = Some s /\ job_result s = Some r /\
        forall i' c', wp_calls p !! i' = Some c' -> wc_job c' = Some j -> i' = i
  | inl TaskError.Cancelled => wc_token c ∈ wp_cancelled p
  | inl (TaskError.DeadlineExceeded d) =>
      d = wc_timeout c /\ (wc_deadline c <= wp_now p)%N /\ wc_token c ∈ wp_cancelled p
  end.
Proof.
  intros Hr Hi Hph. destruct (wd_reachable_inv _ _ Hr) as [_ _ Hcalls _ Hown].
  pose proof (Forall_lookup_1 _ _ _ _ Hcalls Hi) as Hok. unfold call_ok in Hok. rewrite Hph in Hok.
  assert (Hres : received c p = Some r -> exists j s, wc_job c = Some j /\ wp_jobs p !! j = Some s /\ job_result s = Some r /\
    forall i' c', wp_calls p !! i' = Some c' -> wc_job c' = Some j -> i' = i).
  { intros (j & Hj & (s & Hs & Hsr)%bind_Some)%bind_Some. exists j, s. split_and!; [done..|]. intros i' c' Hi' Hj'.
    by eapply Hown. }
  destruct r as [[d| |]|v]; [by destruct Hok as (? & ? & ?)|done|by apply Hres..].
Qed.

(** ** Calls come back *)

(** How many steps a call takes at most once its deadline has passed. *)
Definition rank (ph : phase) : nat :=
  match ph with
  | Parked _ => 4
  | Acquiring => 3
  | Acquired | Receiving _ => 2
  | Polling => 1
  | Finished _ => 0
  end.

Lemma lookup_put_call i c p x : wp_calls p !! i = Some x -> wp_calls (put_call i c p) !! i = Some c.
Proof. intros Hi. apply list_lookup_insert_eq. by eapply lookup_lt_Some. Qed.

Lemma call_act_rank p i c p' :
  wp_calls p !! i = Some c -> (wc_deadline c <= wp_now p)%N -> call_act i c p = Some p' ->
  exists c', wp_calls p' !! i = Some c' /\ wc_deadline c' = wc_deadline c /\ rank (wc_phase c') < rank (wc_phase c).
Proof.
  intros Hi Hd Ha. assert (Hr : (remaining c p =? 0)%N = true) by (unfold remaining; apply N.eqb_eq; lia).
  unfold call_act, acquire_iter, poll_iter, recv_step, time_out in Ha. rewrite Hr in Ha.
  destruct (wc_phase c) eqn:Hph; repeat case_match; simplify_eq;
    (eexists; split; [by eapply lookup_put_call|simpl; split; [done|lia]]).
Qed.

(** The calls keep their places; another's step leaves a call as it is. *)
Lemma wd_step_call l p q i c :
  wd_step l p q -> wp_calls p !! i = Some c -> (wc_deadline c <= wp_now p)%N ->
  (wp_now p <= wp_now q)%N /\
  exists c', wp_calls q !! i = Some c' /\ wc_deadline c' = wc_deadline c /\
    rank (wc_phase c') + (if decide (l = LCall i) then 1 else 0) <= rank (wc_phase c).
Proof.
  intros Hs Hi Hd.
  destruct Hs as [p t timeout|p k x q Hk Ha|p k x until Hk Hph|p j Hj|p j v Hj|p j Hj|p j r Hj|p t|p n];
    try (split; [simpl; lia|]; exists c; split_and!; [done|done|simpl; lia]).
  - split; [simpl; lia|]. exists c. split_and!; [simpl; by apply lookup_app_l_Some|done|simpl; lia].
  - assert (Hnow : wp_now q = wp_now p /\ (k <> i -> wp_calls q !! i = wp_calls p !! i)).
    { unfold call_act, acquire_iter, poll_iter, recv_step in Ha.
      repeat case_match; simplify_eq; (split; [done|]; intros; simpl; by rewrite list_lookup_insert_ne). }
    destruct Hnow as [-> Hother]. split; [lia|]. destruct (decide (k = i)) as [->|Hne].
    + rewrite Hi in Hk. injection Hk as <-. destruct (call_act_rank p i c q) as (c' & Hc' & Hdl & Hrk); [done..|]. exists c'. case_decide; [|done]. split_and!; [done|done|lia].
    + exists c. rewrite Hother by done. case_decide; [congruence|]. split_and!; [done|done|lia].
  - split; [simpl; lia|]. destruct (decide (k = i)) as [->|Hne].
    + rewrite Hi in Hk. injection Hk as <-. exists (set_phase Acquiring c). rewrite (lookup_put_call _ _ _ _ Hi), Hph. case_decide; [|done]. simpl. split_and!; [done|done|lia].
    + exists c. simpl. rewrite list_lookup_insert_ne by done. case_decide; [congruence|]. split_and!; [done|done|lia].
Qed.

Lemma wd_run_rank ls p q i c :
  wd_run ls p q -> wp_calls p !! i = Some c -> (wc_deadline c <= wp_now p)%N ->
  exists c', wp_calls q !! i = Some c' /\ rank (wc_phase c') + length (filter (fun l => l = LCall i) ls) <= rank (wc_phase c).
Proof.
  intros Hr. revert c. induction Hr as [|l ls p q r Hs Hr IH]; intros c Hi Hd; [exists c; split; [done|simpl; lia]|].
  destruct (wd_step_call l p q i c Hs Hi Hd) as (Hnow & c1 & Hc1 & Hd1 & Hrk). destruct (IH c1 Hc1) as (c' & Hc' & Hrk'); [lia|].
  exists c'. split; [done|]. rewrite filter_cons. case_decide; simpl; lia.
Qed.

(** C20: A call comes back.  Once its deadline has passed, a call that has not returned can take a step
    whatever the others do: it waits neither for a permit nor for its closure; and after at most four
    steps of its own, in any interleaving, it has returned. *)
Theorem watchdog_returns size p i c :
  wd_reachable size p -> wp_calls p !! i = Some c -> (wc_deadline c <= wp_now p)%N ->
  ((exists p', wd_step (LCall i) p p') \/ exists r, wc_phase c = Finished r) /\
  forall ls q, wd_run ls p q -> 4 <= length (filter (fun l => l = LCall i) ls) ->
    exists c' r, wp_calls q !! i = Some c' /\ wc_phase c' = Finished r.
Proof.
  intros Hr Hi Hd. split.
  - pose proof (Forall_lookup_1 _ _ _ _ (pi_calls _ (wd_reachable_inv _ _ Hr)) Hi) as Hok. unfold call_ok in Hok.
    assert (Hact : (exists p', call_act i c p = Some p') \/ exists r, wc_phase c = Finished r).
    { unfold call_act, recv_step. destruct (wc_phase c) as [|until| | |until|r] eqn:Hph; eauto; left.
      - destruct Hok as [_ Hu]. destruct (N.leb_spec until (wp_now p)); [by eexists|lia].
      - destruct (received c p); [by eexists|]. destruct Hok as [_ Hu]. destruct (N.leb_spec until (wp_now p)); [by eexists|lia]. }
    destruct Hact as [[p' Hp']|Hfin]; [left|by right]. exists p'. by eapply ws_call.
  - intros ls q Hrun Hlen. destruct (wd_run_rank ls p q i c Hrun Hi Hd) as (c' & Hc' & Hrk). exists c'.
    assert (Hle : rank (wc_phase c) <= 4) by (destruct (wc_phase c); simpl; lia).
    destruct (wc_phase c'); simpl in Hrk; try lia. by eexists.
Qed.

End Watchdog.

Arguments pool V : clear implicits.

(** ** A run *)

Lemma wd_reachable_step {V} size l (p q : pool V) : wd_reachable size p -> wd_step l p q -> wd_reachable size q.
Proof.
  intros [ls Hr] Hs. exists (ls ++ [l]). induction Hr as [p|l' ls p p1 p2 Hs' _ IH]; simpl.
  - eapply wr_cons; [exact Hs|apply wr_nil].
  - eapply wr_cons; [exact Hs'|by apply IH].
Qed.

(** A call of one thread; its closure has returned 7; the clock is at the deadline. *)
Definition step_call (p : pool nat) : pool nat :=
  default p (c ← wp_calls p !! 0; call_act 0 c p).
Definition tick (n : N) (p : pool nat) : pool nat :=
  mkPool (wp_size p) (wp_permits p) (wp_jobs p) (wp_calls p) (wp_cancelled p) (wp_now p + n).
Definition waiting_call : pool nat := step_call (step_call (step_call (call_start 0 10 (pool_new 1)))).
Definition late_call : pool nat := tick 10 (put_job 0 JRunning waiting_call).
Definition answered_call : pool nat := step_call (put_job 0 (JSent (inr 7)) late_call).

Lemma late_call_reachable : wd_reachable 1 late_call.
Proof.
  assert (H0 : wd_reachable 1 (call_start (V:=nat) 0 10 (pool_new 1))) by (exists [LOther]; eapply wr_cons; [apply ws_start|apply wr_nil]).
  do 3 (eapply wd_reachable_step in H0; [|by eapply (ws_call _ 0)]).
  eapply wd_reachable_step; [eapply wd_reachable_step; [exact H0|by apply (ws_run _ 0)]|apply (ws_tick _ 10)].
Qed.

Lemma answered_call_reachable : wd_reachable 1 answered_call.
Proof.
  eapply wd_reachable_step; [eapply wd_reachable_step; [apply late_call_reachable|by apply (ws_return _ 0 7)]|].
  by eapply (ws_call _ 0).
Qed.

Lemma watchdog_returns_witness : exists p', wd_step (LCall 0) late_call p'.
Proof.
  by destruct (watchdog_returns 1 late_call 0 (mkCall 0 10 10 (Some 0) (Receiving 10)) late_call_reachable
    eq_refl ltac:(done)) as [[Hs|[r Hr]] _].
Defined.

Lemma watchdog_answers_witness : exists s, wp_jobs answered_call !! 0 = Some s /\ job_result s = Some (inr 7).
Proof.
  destruct (watchdog_answers 1 answered_call 0 (mkCall 0 10 10 (Some 0) (Finished (inr 7))) (inr 7) answered_call_reachable
    eq_refl eq_refl) as (j & s & [= <-] & Hs & Hr & _). by exists s.
Defined.

Lemma watchdog_pool_bounded_witness : wp_permits answered_call + held answered_call = 1 /\ held answered_call = 1.
Proof. split; [apply (watchdog_pool_bounded 1 answered_call answered_call_reachable)|reflexivity]. Defined.
