(* ===== verification/Types.v ===== *)
(** * Java types and the store of classes (crates/nova-types/src/lib.rs)

    [Ty] is the enum [Type], [TypeEnv] the trait through which the algorithms see classes and type
    parameters, and [TypeStore] the store that implements it: classes in a vector, found by
    binary name, with the ids of removed classes kept for their names ([tombstones]).  Ids are
    indices, cast to 32 bits. *)

From stdpp Require Import base numbers option strings pretty gmap list.
From S2P Require Import Prelude Str.

(** ** Types *)

Module PrimitiveType.
Inductive t := Boolean | Byte | Short | Char | Int | Long | Float | Double.

Definition is_numeric (p : t) : bool := match p with Boolean => false | _ => true end.
End PrimitiveType.
Notation PrimitiveType := PrimitiveType.t.

#[global] Instance primitive_eq_dec : EqDecision PrimitiveType.
Proof. solve_decision. Defined.

Notation ClassId := nat (only parsing).
Notation TypeVarId := nat (only parsing).

Inductive WildcardBound (T : Type) :=
| Unbounded
| Extends (upper : T)
| Super (lower : T).
Arguments Unbounded {T}.
Arguments Extends {T} upper.
Arguments Super {T} lower.

#[local] Unset Elimination Schemes.

Inductive Ty :=
| Void
| Primitive (p : PrimitiveType)
| Class (def : ClassId) (args : list Ty)
| Array (elem : Ty)
| TypeVar (id : TypeVarId)
| Wildcard (bound : WildcardBound Ty)
| Intersection (types : list Ty)
| Null
| Named (name : str)
| VirtualInner (owner : ClassId) (name : str)
| Unknown
| Error.

#[local] Set Elimination Schemes.

Section TyInd.
Variable P : Ty -> Prop.
Hypothesis Hvoid : P Void.
Hypothesis Hprim : forall p, P (Primitive p).
Hypothesis Hclass : forall def args, Forall P args -> P (Class def args).
Hypothesis Harray : forall elem, P elem -> P (Array elem).
Hypothesis Hvar : forall id, P (TypeVar id).
Hypothesis Hunbounded : P (Wildcard Unbounded).
Hypothesis Hextends : forall upper, P upper -> P (Wildcard (Extends upper)).
Hypothesis Hsuper : forall lower, P lower -> P (Wildcard (Super lower)).
Hypothesis Hinter : forall types, Forall P types -> P (Intersection types).
Hypothesis Hnull : P Null.
Hypothesis Hnamed : forall name, P (Named name).
Hypothesis Hvirtual : forall owner name, P (VirtualInner owner name).
Hypothesis Hunknown : P Unknown.
Hypothesis Herror : P Error.

Fixpoint Ty_ind (t : Ty) : P t :=
  let all := fix all (l : list Ty) : Forall P l :=
    match l with [] => Forall_nil_2 P | x :: l => Forall_cons_2 P x l (Ty_ind x) (all l) end in
  match t with
  | Void => Hvoid
  | Primitive p => Hprim p
  | Class def args => Hclass def args (all args)
  | Array elem => Harray elem (Ty_ind elem)
  | TypeVar id => Hvar id
  | Wildcard Unbounded => Hunbounded
  | Wildcard (Extends upper) => Hextends upper (Ty_ind upper)
  | Wildcard (Super lower) => Hsuper lower (Ty_ind lower)
  | Intersection types => Hinter types (all types)
  | Null => Hnull
  | Named name => Hnamed name
  | VirtualInner owner name => Hvirtual owner name
  | Unknown => Hunknown
  | Error => Herror
  end.
End TyInd.

(** Equality of types is decided by structural comparison. *)
Fixpoint ty_eqb (a b : Ty) : bool :=
  let list_eqb := fix list_eqb (l k : list Ty) : bool :=
    match l, k with
    | [], [] => true
    | x :: l, y :: k => ty_eqb x y && list_eqb l k
    | _, _ => false
    end in
  match a, b with
  | Void, Void | Null, Null | Unknown, Unknown | Error, Error | Wildcard Unbounded, Wildcard Unbounded => true
  | Primitive p, Primitive q => bool_decide (p = q)
  | Class d l, Class e k => bool_decide (d = e) && list_eqb l k
  | Array x, Array y | Wildcard (Extends x), Wildcard (Extends y) | Wildcard (Super x), Wildcard (Super y) => ty_eqb x y
  | TypeVar i, TypeVar j => bool_decide (i = j)
  | Intersection l, Intersection k => list_eqb l k
  | Named n, Named m => bool_decide (n = m)
  | VirtualInner o n, VirtualInner o' m => bool_decide (o = o') && bool_decide (n = m)
  | _, _ => false
  end.

Fixpoint tys_eqb (l k : list Ty) : bool :=
  match l, k with
  | [], [] => true
  | x :: l, y :: k => ty_eqb x y && tys_eqb l k
  | _, _ => false
  end.

Lemma tys_eqb_spec l : Forall (fun x => forall y, ty_eqb x y = true <-> x = y) l -> forall k, tys_eqb l k = true <-> l = k.
Proof.
  induction 1 as [|x l Hx _ IH]; intros [|y k]; simpl; try done. rewrite andb_true_iff, Hx, IH.
  split; [by intros [-> ->]|by intros [= -> ->]].
Qed.

Lemma ty_eqb_spec a : forall b, ty_eqb a b = true <-> a = b.
Proof.
  induction a as [|p|d l Hl|x IH|i| |x IH|x IH|l Hl| |n|o n| |] using Ty_ind; intros b;
    destruct b as [|q|e k|y|j|[|y|y]|k| |m|o' m| |]; simpl; try done;
    rewrite ?bool_decide_eq_true, ?IH, ?andb_true_iff, ?bool_decide_eq_true;
    try (change ((fix list_eqb (l k : list Ty) : bool := match l, k with
      | [], [] => true | x :: l, y :: k => ty_eqb x y && list_eqb l k | _, _ => false end) l k) with (tys_eqb l k);
      rewrite (tys_eqb_spec l Hl)); naive_solver.
Qed.

#[global] Instance ty_eq_dec : EqDecision Ty.
Proof. intros a b. destruct (ty_eqb a b) eqn:H; [left|right]; [by apply ty_eqb_spec|by rewrite <-ty_eqb_spec, H]. Defined.

Definition is_reference (t : Ty) : bool :=
  match t with Class _ _ | Array _ | TypeVar _ | Intersection _ | Named _ | VirtualInner _ _ => true | _ => false end.

Definition is_errorish (t : Ty) : bool := match t with Unknown | Error => true | _ => false end.

Definition is_wildcard (t : Ty) : bool := match t with Wildcard _ => true | _ => false end.

(** ** Definitions of classes *)

Module ClassKind.
Inductive t := Class | Interface.
End ClassKind.

#[global] Instance class_kind_eq_dec : EqDecision ClassKind.t.
Proof. solve_decision. Defined.

Record TypeParamDef := mkTypeParam {
  tp_name : str;
  tp_upper_bounds : list Ty;
  tp_lower_bound : option Ty
}.

Record FieldDef := mkField { fd_name : str; fd_ty : Ty; fd_is_static : bool; fd_is_final : bool }.

Record ConstructorDef := mkConstructor { cd_params : list Ty; cd_is_varargs : bool; cd_is_accessible : bool }.

Record MethodDef := mkMethod {
  md_name : str;
  md_type_params : list TypeVarId;
  md_params : list Ty;
  md_return_type : Ty;
  md_is_static : bool;
  md_is_varargs : bool;
  md_is_abstract : bool
}.

Record ClassDef := mkClass {
  cl_name : str;
  cl_kind : ClassKind.t;
  cl_type_params : list TypeVarId;
  cl_super_class : option Ty;
  cl_interfaces : list Ty;
  cl_fields : list FieldDef;
  cl_constructors : list ConstructorDef;
  cl_methods : list MethodDef
}.

Record WellKnownTypes := mkWellKnown {
  wk_object : ClassId;
  wk_string : ClassId;
  wk_integer : ClassId;
  wk_cloneable : ClassId;
  wk_serializable : ClassId
}.

(** [MethodDef::param_types_for_arity]: the variable part is repeated to the arity. *)
Definition param_types_for_arity (m : MethodDef) (arity : nat) : list Ty :=
  if negb (md_is_varargs m) then md_params m
  else
    match last (md_params m) with
    | None => []
    | Some vararg =>
        let fixed := length (md_params m) - 1 in
        let elem := match vararg with Array elem => elem | other => other end in
        take fixed (md_params m) ++ replicate (arity - fixed) elem
    end.

(** ** The environment *)

Class TypeEnv := {
  env_class : ClassId -> option ClassDef;
  type_param : TypeVarId -> option TypeParamDef;
  lookup_class : str -> option ClassId;
  well_known : WellKnownTypes
}.

(** [str::split]: there is always a segment. *)
Fixpoint split_on (c : N) (s : str) : list str :=
  match s with
  | [] => [[]]
  | x :: s =>
      if (x =? c)%N then [] :: split_on c s
      else match split_on c s with seg :: segs => (x :: seg) :: segs | [] => [[x]] end
  end.

Fixpoint join (sep : str) (l : list str) : str :=
  match l with
  | [] => []
  | [s] => s
  | s :: l => s ++ sep ++ join sep l
  end.

(** The binary name of a nested class: [outer] starts at [outer_idx] in the segments. *)
Definition nested_candidate (segments : list str) (outer_idx : nat) : option str :=
  match drop outer_idx segments with
  | outer :: ((_ :: _) as nested) =>
      let pkg := take outer_idx segments in
      let prefix := match pkg with [] => [] | _ => join (lit ".") pkg ++ lit "." end in
      Some (prefix ++ outer ++ concat ((fun seg => lit "$" ++ seg) <$> nested))
  | _ => None
  end.

Section Env.
Context `{E : TypeEnv}.

(** The longest package comes first. *)
Fixpoint lookup_nested (segments : list str) (outer_idx : nat) : option ClassId :=
  match match nested_candidate segments outer_idx with Some c => lookup_class c | None => None end, outer_idx with
  | Some id, _ => Some id
  | None, O => None
  | None, S i => lookup_nested segments i
  end.

Definition lookup_class_by_source_name (name : str) : option ClassId :=
  match lookup_class name with
  | Some id => Some id
  | None =>
      if bool_decide (36%N ∈ name) || negb (bool_decide (46%N ∈ name)) then None
      else
        let segments := split_on 46 name in
        if decide (length segments < 2) then None else lookup_nested segments (length segments - 2)
  end.
End Env.

(** ** The store *)

Record TypeStore := mkStore {
  ts_classes : list ClassDef;
  ts_class_by_name : gmap str ClassId;
  ts_tombstones : gmap str ClassId;
  ts_type_params : list TypeParamDef;
  ts_well_known : option WellKnownTypes
}.

Definition store_empty : TypeStore := mkStore [] ∅ ∅ [] None.

(** The id of the next slot of a table: its length, as a [u32]. *)
Definition next_id {A} (l : list A) : nat := N.to_nat (as_u32 (length l)).

(** The table has fewer than 2^32 slots, so that the cast is exact. *)
Definition roomy {A} (l : list A) : Prop := (N.of_nat (length l) < 2 ^ 32)%N.

Lemma next_id_roomy {A} (l : list A) : roomy l -> next_id l = length l.
Proof. intros Hl. unfold next_id. rewrite as_u32_small by done. apply Nat2N.id. Qed.

Lemma roomy_le {A} (l k : list A) : length l <= length k -> roomy k -> roomy l.
Proof. unfold roomy. lia. Qed.

Definition add_type_param (name : str) (upper_bounds : list Ty) (s : TypeStore) : TypeVarId * TypeStore :=
  (next_id (ts_type_params s),
   mkStore (ts_classes s) (ts_class_by_name s) (ts_tombstones s)
     (ts_type_params s ++ [mkTypeParam name upper_bounds None]) (ts_well_known s)).

(** Panics for an id that is out of range, or another name. *)
Definition define_type_param (id : TypeVarId) (def : TypeParamDef) (s : TypeStore) : run TypeStore :=
  match ts_type_params s !! id with
  | None => Panic
  | Some slot =>
      if decide (tp_name def = tp_name slot) then
        Done (mkStore (ts_classes s) (ts_class_by_name s) (ts_tombstones s) (<[id := def]> (ts_type_params s)) (ts_well_known s))
      else Panic
  end.

Definition define_class (id : ClassId) (def : ClassDef) (s : TypeStore) : run TypeStore :=
  match ts_classes s !! id with
  | None => Panic
  | Some slot =>
      if decide (cl_name def = cl_name slot) then
        if decide (ts_class_by_name s !! cl_name slot = Some id) then
          Done (mkStore (<[id := def]> (ts_classes s)) (ts_class_by_name s) (ts_tombstones s) (ts_type_params s) (ts_well_known s))
        else Panic
      else Panic
  end.

Definition add_class (def : ClassDef) (s : TypeStore) : run (ClassId * TypeStore) :=
  let id := next_id (ts_classes s) in
  if decide (is_Some (ts_class_by_name s !! cl_name def) \/ is_Some (ts_tombstones s !! cl_name def)) then Panic
  else
    Done (id, mkStore (ts_classes s ++ [def]) (<[cl_name def := id]> (ts_class_by_name s)) (ts_tombstones s)
           (ts_type_params s) (ts_well_known s)).

(** A tombstone becomes a name again. *)
Definition revive (name : str) (id : ClassId) (s : TypeStore) : TypeStore :=
  mkStore (ts_classes s) (<[name := id]> (ts_class_by_name s)) (delete name (ts_tombstones s)) (ts_type_params s) (ts_well_known s).

Definition placeholder (name : str) : ClassDef := mkClass name ClassKind.Class [] None [] [] [] [].

Definition intern_class_id (name : str) (s : TypeStore) : run (ClassId * TypeStore) :=
  match ts_class_by_name s !! name with
  | Some id => Done (id, s)
  | None =>
      match ts_tombstones s !! name with
      | Some id => Done (id, revive name id s)
      | None => add_class (placeholder name) s
      end
  end.

Definition upsert_class (def : ClassDef) (s : TypeStore) : run (ClassId * TypeStore) :=
  match ts_class_by_name s !! cl_name def with
  | Some id => s ← define_class id def s; Done (id, s)
  | None =>
      match ts_tombstones s !! cl_name def with
      | Some id => s ← define_class id def (revive (cl_name def) id s); Done (id, s)
      | None => add_class def s
      end
  end.

(** A removed class: its slot stays, without members, below [Object]. *)
Definition tombstone_def (wk : option WellKnownTypes) (c : ClassDef) : ClassDef :=
  mkClass (cl_name c) (cl_kind c) []
    (match cl_kind c with
     | ClassKind.Interface => None
     | ClassKind.Class => (fun wk => Class (wk_object wk) []) <$> wk
     end) [] [] [] [].

Definition remove_class (name : str) (s : TypeStore) : option ClassId * TypeStore :=
  match ts_class_by_name s !! name with
  | None => (None, s)
  | Some id =>
      (Some id, mkStore (alter (tombstone_def (ts_well_known s)) id (ts_classes s)) (delete name (ts_class_by_name s))
                  (<[name := id]> (ts_tombstones s)) (ts_type_params s) (ts_well_known s))
  end.

(** [class_mut]: the caller changes the class in its slot, in whatever way. *)
Definition class_mut (id : ClassId) (change : ClassDef -> ClassDef) (s : TypeStore) : option TypeStore :=
  match ts_classes s !! id with
  | None => None
  | Some c => Some (mkStore (<[id := change c]> (ts_classes s)) (ts_class_by_name s) (ts_tombstones s) (ts_type_params s) (ts_well_known s))
  end.

(** [lookup_class] of the store: simple names are looked up in [java.lang] too. *)
Definition store_lookup (s : TypeStore) (name : str) : option ClassId :=
  match ts_class_by_name s !! name with
  | Some id => Some id
  | None => if bool_decide (46%N ∈ name) then None else ts_class_by_name s !! (lit "java.lang." ++ name)
  end.

(** The store as an environment, once its well-known classes are set. *)
Definition store_env (s : TypeStore) (wk : WellKnownTypes) : TypeEnv := {|
  env_class := fun id => ts_classes s !! id;
  type_param := fun id => ts_type_params s !! id;
  lookup_class := store_lookup s;
  well_known := wk
|}.

(** [TypeStore::default]. *)
Definition method0 (name : string) (params : list Ty) (ret : Ty) : MethodDef := mkMethod (lit name) [] params ret false false false.
Definition ctor (params : list Ty) : ConstructorDef := mkConstructor params false true.

Definition object_def (object_ty string_ty : Ty) : ClassDef :=
  mkClass (lit "java.lang.Object") ClassKind.Class [] None [] [] [ctor []]
    [method0 "toString" [] string_ty; method0 "equals" [object_ty] (Primitive PrimitiveType.Boolean);
     method0 "hashCode" [] (Primitive PrimitiveType.Int)].
Definition string_def (object_ty string_ty : Ty) : ClassDef :=
  mkClass (lit "java.lang.String") ClassKind.Class [] (Some object_ty) [] [] [ctor []; ctor [string_ty]] [].
Definition integer_def (object_ty : Ty) : ClassDef :=
  mkClass (lit "java.lang.Integer") ClassKind.Class [] (Some object_ty) [] [] [] [].
Definition interface_def (name : string) : ClassDef := mkClass (lit name) ClassKind.Interface [] None [] [] [] [].

Definition store_default : run TypeStore :=
  '(object, s) ← intern_class_id (lit "java.lang.Object") store_empty;
  '(string, s) ← intern_class_id (lit "java.lang.String") s;
  '(integer, s) ← intern_class_id (lit "java.lang.Integer") s;
  '(cloneable, s) ← intern_class_id (lit "java.lang.Cloneable") s;
  '(serializable, s) ← intern_class_id (lit "java.io.Serializable") s;
  s ← define_class object (object_def (Class object []) (Class string [])) s;
  s ← define_class string (string_def (Class object []) (Class string [])) s;
  s ← define_class integer (integer_def (Class object [])) s;
  s ← define_class cloneable (interface_def "java.lang.Cloneable") s;
  s ← define_class serializable (interface_def "java.io.Serializable") s;
  Done (mkStore (ts_classes s) (ts_class_by_name s) (ts_tombstones s) (ts_type_params s)
          (Some (mkWellKnown object string integer cloneable serializable))).

(** ** Ids are stable *)

(** The id that a name has, whether its class is there or removed. *)
Definition name_id (s : TypeStore) (name : str) : option ClassId :=
  match ts_class_by_name s !! name with Some id => Some id | None => ts_tombstones s !! name end.

(** Names and slots correspond; a name is not both live and removed. *)
Record store_ok (s : TypeStore) : Prop := {
  so_slot : forall name id, name_id s name = Some id -> exists c, ts_classes s !! id = Some c /\ cl_name c = name;
  so_name : forall id c, ts_classes s !! id = Some c -> name_id s (cl_name c) = Some id;
  so_disjoint : forall name, is_Some (ts_class_by_name s !! name) -> ts_tombstones s !! name = None
}.

Lemma store_empty_ok : store_ok store_empty.
Proof. split; unfold name_id; simpl; intros *; rewrite ?lookup_empty; naive_solver. Qed.

(** The slots keep their names and the names their ids. *)
Lemma store_ok_same s s' :
  cl_name <$> ts_classes s' = cl_name <$> ts_classes s -> (forall n, name_id s' n = name_id s n) ->
  (forall name, is_Some (ts_class_by_name s' !! name) -> ts_tombstones s' !! name = None) -> store_ok s -> store_ok s'.
Proof.
  intros Hn Hid Hdis [Hslot Hname _].
  assert (Hsame : forall id, cl_name <$> ts_classes s' !! id = cl_name <$> ts_classes s !! id).
  { intros id. by rewrite <-!list_lookup_fmap, Hn. }
  split; [..|done].
  - intros name id. rewrite Hid. intros (c & Hc & Hcn)%Hslot. specialize (Hsame id). rewrite Hc in Hsame. simpl in Hsame.
    apply fmap_Some in Hsame as (c' & Hc' & He). exists c'. split; [done|congruence].
  - intros id c Hc. specialize (Hsame id). rewrite Hc in Hsame. symmetry in Hsame. apply fmap_Some in Hsame as (c' & Hc' & He).
    rewrite Hid, He. by apply Hname.
Qed.

Lemma revive_name_id s name id n :
  ts_tombstones s !! name = Some id -> ts_class_by_name s !! name = None -> name_id (revive name id s) n = name_id s n.
Proof.
  intros Ht Hb. unfold name_id, revive. simpl. destruct (decide (n = name)) as [->|Hne].
  - by rewrite lookup_insert_eq, Hb, Ht.
  - by rewrite lookup_insert_ne, lookup_delete_ne by done.
Qed.

Lemma revive_ok s name id :
  store_ok s -> ts_tombstones s !! name = Some id -> ts_class_by_name s !! name = None -> store_ok (revive name id s).
Proof.
  intros Hok Ht Hb. apply (store_ok_same s); [done|intros n; by apply revive_name_id| |done].
  intros n Hn. simpl in *. destruct (decide (n = name)) as [->|Hne]; [apply lookup_delete_eq|].
  rewrite lookup_insert_ne in Hn by done. rewrite lookup_delete_ne by done. by apply Hok.
Qed.

Lemma define_class_Done id def s s' :
  define_class id def s = Done s' ->
  (forall n, name_id s' n = name_id s n) /\ ts_classes s' = <[id := def]> (ts_classes s) /\
  ts_class_by_name s' = ts_class_by_name s /\ ts_class_by_name s !! cl_name def = Some id /\ (store_ok s -> store_ok s').
Proof.
  unfold define_class. destruct (ts_classes s !! id) as [slot|] eqn:Hslot; [|done]. do 2 (case_decide; [|done]).
  intros Hd%Done_inj. subst s'. split_and!; [done|done|done|congruence|]. intros Hok. apply (store_ok_same s); [|done|apply Hok|done].
  simpl. rewrite list_fmap_insert, list_insert_id; [done|]. rewrite list_lookup_fmap, Hslot. simpl. by f_equal.
Qed.

(** A live class can be redefined under its own name. *)
Lemma define_class_live s def id :
  store_ok s -> ts_class_by_name s !! cl_name def = Some id -> exists s', define_class id def s = Done s'.
Proof.
  intros Hok Hb. destruct (so_slot s Hok (cl_name def) id) as (c & Hc & Hn); [unfold name_id; by rewrite Hb|].
  unfold define_class. rewrite Hc, Hn, !decide_True by done. by eexists.
Qed.

Lemma add_class_Done def s :
  store_ok s -> roomy (ts_classes s) -> name_id s (cl_name def) = None ->
  exists s', add_class def s = Done (length (ts_classes s), s') /\ store_ok s' /\
    ts_classes s' = ts_classes s ++ [def] /\ ts_class_by_name s' = <[cl_name def := length (ts_classes s)]> (ts_class_by_name s) /\
    (forall n, name_id s' n = if decide (n = cl_name def) then Some (length (ts_classes s)) else name_id s n).
Proof.
  intros [Hslot Hname Hdis] Hroom Hn. assert (Hb : ts_class_by_name s !! cl_name def = None /\ ts_tombstones s !! cl_name def = None).
  { unfold name_id in Hn. by destruct (ts_class_by_name s !! cl_name def). }
  destruct Hb as [Hb Ht]. unfold add_class. rewrite next_id_roomy by done.
  rewrite decide_False by (rewrite Hb, Ht; by intros [[]|[]]). eexists. split; [done|].
  set (s' := mkStore _ _ _ _ _).
  assert (Hid : forall n, name_id s' n = if decide (n = cl_name def) then Some (length (ts_classes s)) else name_id s n).
  { intros n. unfold name_id. simpl. case_decide as Hd; [subst n; by rewrite lookup_insert_eq|by rewrite lookup_insert_ne]. }
  split_and!; [|done..]. split.
  - intros n id. rewrite Hid. simpl. case_decide as Hd.
    + intros [= <-]. exists def. by rewrite lookup_app_r, Nat.sub_diag by lia.
    + intros (c & Hc & Hcn)%Hslot. exists c. by rewrite (lookup_app_l_Some _ _ _ _ Hc).
  - intros id c. rewrite Hid. simpl. intros [Hc|[Hge Hc]]%lookup_app_Some.
    + pose proof (Hname id c Hc) as Hi. case_decide as Hd; [|done]. rewrite Hd in Hi. congruence.
    + apply list_lookup_singleton_Some in Hc as [Hi <-]. rewrite decide_True by done. f_equal. lia.
  - intros n. simpl. destruct (decide (n = cl_name def)) as [->|Hne]; [done|]. rewrite lookup_insert_ne by done. apply Hdis.
Qed.

(** What both ways of making a class come to. *)
Definition keeps_ids (s s' : TypeStore) : Prop := forall n id, name_id s n = Some id -> name_id s' n = Some id.

Lemma upsert_class_Done def s :
  store_ok s -> roomy (ts_classes s) -> exists id s', upsert_class def s = Done (id, s') /\ store_ok s' /\ keeps_ids s s' /\
    ts_class_by_name s' !! cl_name def = Some id /\ ts_classes s' !! id = Some def.
Proof.
  intros Hok Hroom. unfold upsert_class.
  assert (Hdef : forall s0 id, store_ok s0 -> ts_class_by_name s0 !! cl_name def = Some id -> (forall n, name_id s0 n = name_id s n) ->
    exists id' s', (s1 ← define_class id def s0; Done (id, s1)) = Done (id', s') /\ store_ok s' /\ keeps_ids s s' /\
      ts_class_by_name s' !! cl_name def = Some id' /\ ts_classes s' !! id' = Some def).
  { intros s0 id Hok0 Hb Hsame. destruct (define_class_live s0 def id Hok0 Hb) as [s' Hd]. rewrite Hd. simpl. exists id, s'.
    destruct (define_class_Done _ _ _ _ Hd) as (Hid & Hcl & Hbn & _ & Hok'). split_and!; [done|by apply Hok'| |by rewrite Hbn|].
    - intros n i. by rewrite Hid, Hsame.
    - rewrite Hcl. apply list_lookup_insert_eq. destruct (so_slot s0 Hok0 (cl_name def) id) as (c & Hc & _); [unfold name_id; by rewrite Hb|].
      by eapply lookup_lt_Some. }
  destruct (ts_class_by_name s !! cl_name def) as [id|] eqn:Hb; [by apply Hdef|].
  destruct (ts_tombstones s !! cl_name def) as [id|] eqn:Ht.
  - apply Hdef; [by apply revive_ok|simpl; apply lookup_insert_eq|intros n; by apply revive_name_id].
  - destruct (add_class_Done def s Hok Hroom) as (s' & Ha & Hok' & Hcl & Hbn & Hid); [unfold name_id; by rewrite Hb|].
    exists (length (ts_classes s)), s'. split_and!; [done|done| |by rewrite Hbn, lookup_insert_eq|].
    + intros n i Hn. rewrite Hid. case_decide as Hd; [|done]. subst n. unfold name_id in Hn. rewrite Hb in Hn. congruence.
    + by rewrite Hcl, lookup_app_r, Nat.sub_diag by lia.
Qed.

Lemma intern_class_id_Done name s :
  store_ok s -> roomy (ts_classes s) -> exists id s', intern_class_id name s = Done (id, s') /\ store_ok s' /\ keeps_ids s s' /\
    ts_class_by_name s' !! name = Some id.
Proof.
  intros Hok Hroom. unfold intern_class_id. destruct (ts_class_by_name s !! name) as [id|] eqn:Hb; [exists id, s; split_and!; [done|done|by intros n i|done]|].
  destruct (ts_tombstones s !! name) as [id|] eqn:Ht.
  - exists id, (revive name id s). split_and!; [done|by apply revive_ok| |simpl; apply lookup_insert_eq].
    intros n i. by rewrite revive_name_id.
  - destruct (add_class_Done (placeholder name) s Hok Hroom) as (s' & Ha & Hok' & _ & Hbn & Hid); [unfold name_id; simpl; by rewrite Hb|].
    exists (length (ts_classes s)), s'. split_and!; [done|done| |rewrite Hbn; apply lookup_insert_eq].
    intros n i Hn. rewrite Hid. simpl. case_decide as Hd; [|done]. subst n. unfold name_id in Hn. rewrite Hb in Hn. congruence.
Qed.

Lemma remove_class_ok name s :
  store_ok s -> store_ok (snd (remove_class name s)) /\ keeps_ids s (snd (remove_class name s)) /\
  ts_class_by_name (snd (remove_class name s)) !! name = None.
Proof.
  intros Hok. unfold remove_class. destruct (ts_class_by_name s !! name) as [id|] eqn:Hb; [|split_and!; [done|by intros n i|done]]. simpl.
  assert (Hid : forall n, name_id (mkStore (alter (tombstone_def (ts_well_known s)) id (ts_classes s)) (delete name (ts_class_by_name s))
    (<[name := id]> (ts_tombstones s)) (ts_type_params s) (ts_well_known s)) n = name_id s n).
  { intros n. unfold name_id. simpl. destruct (decide (n = name)) as [->|Hne].
    - by rewrite lookup_delete_eq, lookup_insert_eq, Hb.
    - by rewrite lookup_delete_ne, lookup_insert_ne by done. }
  split_and!; [|intros n i; by rewrite Hid|apply lookup_delete_eq].
  apply (store_ok_same s); [by apply fmap_alter_same|exact Hid| |done].
  intros n. simpl. destruct (decide (n = name)) as [->|Hne]; [rewrite lookup_delete_eq; by intros []|].
  rewrite lookup_delete_ne, lookup_insert_ne by done. apply Hok.
Qed.

Inductive store_op :=
| OIntern (name : str)
| OUpsert (def : ClassDef)
| OAdd (def : ClassDef)
| ODefine (id : ClassId) (def : ClassDef)
| ORemove (name : str)
| OMut (id : ClassId) (change : ClassDef -> ClassDef)
| OParam (name : str) (upper_bounds : list Ty)
| ODefineParam (id : TypeVarId) (def : TypeParamDef).

Definition store_act (op : store_op) (s : TypeStore) : run TypeStore :=
  match op with
  | OIntern name => '(_, s) ← intern_class_id name s; Done s
  | OUpsert def => '(_, s) ← upsert_class def s; Done s
  | OAdd def => '(_, s) ← add_class def s; Done s
  | ODefine id def => define_class id def s
  | ORemove name => Done (snd (remove_class name s))
  | OMut id change => Done (default s (class_mut id change s))
  | OParam name bounds => Done (snd (add_type_param name bounds s))
  | ODefineParam id def => define_type_param id def s
  end.

Fixpoint store_run (ops : list store_op) (s : TypeStore) : run TypeStore :=
  match ops with
  | [] => Done s
  | op :: ops => s ← store_act op s; store_run ops s
  end.

(** The caller of [class_mut] leaves the name of the class alone. *)
Definition keeps_name (op : store_op) : Prop :=
  match op with OMut _ change => forall c, cl_name (change c) = cl_name c | _ => True end.

(** Slots are never given back. *)
Lemma add_class_length def s id s' : add_class def s = Done (id, s') -> length (ts_classes s) <= length (ts_classes s').
Proof. unfold add_class. case_decide; [done|]. intros [= _ <-]%Done_inj. simpl. rewrite length_app. lia. Qed.

Lemma define_class_length id def s s' : define_class id def s = Done s' -> length (ts_classes s') = length (ts_classes s).
Proof. intros (_ & -> & _)%define_class_Done. apply length_insert. Qed.

Lemma store_act_length op s s' : store_act op s = Done s' -> length (ts_classes s) <= length (ts_classes s').
Proof.
  destruct op as [name|def|def|id def|name|id change|name bounds|id def]; simpl.
  - intros ([i s1] & Hi & <-%Done_inj)%bind_Done. unfold intern_class_id in Hi.
    destruct (ts_class_by_name s !! name); [by simplify_eq|]. destruct (ts_tombstones s !! name); [by simplify_eq|].
    by eapply add_class_length.
  - intros ([i s1] & Hi & <-%Done_inj)%bind_Done. unfold upsert_class in Hi.
    destruct (ts_class_by_name s !! cl_name def); [|destruct (ts_tombstones s !! cl_name def); [|by eapply add_class_length]];
      apply bind_Done in Hi as (s2 & Hd%define_class_length & [= _ <-]%Done_inj); simpl in Hd; lia.
  - intros ([i s1] & Hi & <-%Done_inj)%bind_Done. by eapply add_class_length.
  - intros Hd%define_class_length. lia.
  - intros <-%Done_inj. unfold remove_class. destruct (ts_class_by_name s !! name); simpl; [|done]. by rewrite length_alter.
  - intros <-%Done_inj. unfold class_mut. destruct (ts_classes s !! id); simpl; [|done]. by rewrite length_insert.
  - by intros <-%Done_inj.
  - unfold define_type_param. destruct (ts_type_params s !! id); [|done]. case_decide; [|done]. by intros <-%Done_inj.
Qed.

Lemma class_mut_ok id change s :
  keeps_name (OMut id change) -> store_ok s -> store_ok (default s (class_mut id change s)) /\ keeps_ids s (default s (class_mut id change s)).
Proof.
  intros Hn Hok. unfold class_mut. destruct (ts_classes s !! id) as [c|] eqn:Hc; simpl; [|split; [done|by intros n i]].
  split; [|by intros n i]. apply (store_ok_same s); [|done|apply Hok|done].
  simpl. rewrite list_fmap_insert, list_insert_id; [done|]. rewrite list_lookup_fmap, Hc. simpl. by rewrite Hn.
Qed.

Lemma store_act_ok op s s' :
  store_ok s -> roomy (ts_classes s) -> keeps_name op -> store_act op s = Done s' -> store_ok s' /\ keeps_ids s s'.
Proof.
  intros Hok Hroom Hkn. destruct op as [name|def|def|id def|name|id change|name bounds|id def]; simpl.
  - destruct (intern_class_id_Done name s Hok Hroom) as (id & s1 & -> & Hok1 & Hk & _). simpl. intros ->%Done_inj. done.
  - destruct (upsert_class_Done def s Hok Hroom) as (id & s1 & -> & Hok1 & Hk & _). simpl. intros ->%Done_inj. done.
  - destruct (name_id s (cl_name def)) as [i|] eqn:Hn.
    + unfold add_class. rewrite decide_True; [done|]. unfold name_id in Hn. destruct (ts_class_by_name s !! cl_name def); [left|right]; by eexists.
    + destruct (add_class_Done def s Hok Hroom Hn) as (s1 & -> & Hok1 & _ & _ & Hid). simpl. intros ->%Done_inj. split; [done|].
      intros n i Hi. rewrite Hid. case_decide as Hd; [subst n; congruence|done].
  - intros (Hid & _ & _ & _ & Hok')%define_class_Done. split; [by apply Hok'|]. intros n i. by rewrite Hid.
  - intros <-%Done_inj. by destruct (remove_class_ok name s Hok) as (? & ? & _).
  - intros <-%Done_inj. by apply class_mut_ok.
  - intros <-%Done_inj. split; [by apply (store_ok_same s); [..|apply Hok|]|by intros n i].
  - unfold define_type_param. destruct (ts_type_params s !! id); [|done]. case_decide; [|done]. intros <-%Done_inj.
    split; [by apply (store_ok_same s); [..|apply Hok|]|by intros n i].
Qed.

Lemma store_run_length ops s s' : store_run ops s = Done s' -> length (ts_classes s) <= length (ts_classes s').
Proof.
  revert s. induction ops as [|op ops IH]; intros s; simpl; [by intros <-%Done_inj|].
  intros (s1 & H1%store_act_length & H2%IH)%bind_Done. lia.
Qed.

Lemma store_run_ok ops s s' :
  store_ok s -> Forall keeps_name ops -> store_run ops s = Done s' -> roomy (ts_classes s') -> store_ok s' /\ keeps_ids s s'.
Proof.
  intros Hok Hops Hr Hroom. revert s Hok Hr. induction Hops as [|op ops Hop _ IH]; intros s Hok; simpl.
  { intros <-%Done_inj. split; [done|by intros n i]. }
  intros (s1 & H1 & H2)%bind_Done. pose proof (store_act_length _ _ _ H1). pose proof (store_run_length _ _ _ H2).
  destruct (store_act_ok op s s1 Hok ltac:(eapply roomy_le; [|done]; lia) Hop H1) as [Hok1 Hk1].
  destruct (IH s1 Hok1 H2) as [Hok2 Hk2]. split; [done|]. intros n i Hi. by apply Hk2, Hk1.
Qed.

(** C13: The id of a class never changes.  Whatever classes are interned, defined, replaced, removed and changed
    in place (by a change that leaves the name of the class alone), as long as there are fewer than 2^32 classes:
    a name keeps its id, and the slot of the id its name; replacing a class always succeeds, and
    then the name and the id both lead to the new definition; a removed class is not found by its
    name, and gets its old id when it comes back. *)
Theorem class_ids_stable s ops s' :
  store_ok s -> Forall keeps_name ops -> store_run ops s = Done s' -> (N.of_nat (length (ts_classes s')) < 2 ^ 32)%N ->
  (forall name id, name_id s name = Some id -> name_id s' name = Some id /\ exists c, ts_classes s' !! id = Some c /\ cl_name c = name) /\
  (forall def, exists id s1, upsert_class def s' = Done (id, s1) /\ store_lookup s1 (cl_name def) = Some id /\ ts_classes s1 !! id = Some def) /\
  (forall name id s1, remove_class name s' = (Some id, s1) ->
    ts_class_by_name s1 !! name = None /\ exists s2, intern_class_id name s1 = Done (id, s2)).
Proof.
  intros Hok Hops Hr Hroom. destruct (store_run_ok ops s s' Hok Hops Hr Hroom) as [Hok' Hk]. split_and!.
  - intros name id Hn. split; [by apply Hk|]. by apply (so_slot s' Hok'), Hk.
  - intros def. destruct (upsert_class_Done def s' Hok' Hroom) as (id & s1 & Hu & _ & _ & Hb & Hc). exists id, s1. split_and!; [done| |done].
    unfold store_lookup. by rewrite Hb.
  - intros name id s1 Hrm. destruct (remove_class_ok name s' Hok') as (Hok1 & Hk1 & Hb). rewrite Hrm in Hok1, Hk1, Hb. simpl in *.
    assert (Hroom1 : roomy (ts_classes s1)).
    { eapply roomy_le, Hroom. unfold remove_class in Hrm. destruct (ts_class_by_name s' !! name); simplify_eq. simpl. by rewrite length_alter. }
    split; [done|]. destruct (intern_class_id_Done name s1 Hok1 Hroom1) as (id' & s2 & Hi & _ & Hk2 & Hb2). exists s2. rewrite Hi. do 2 f_equal.
    assert (Hid : name_id s' name = Some id).
    { unfold remove_class in Hrm. unfold name_id. destruct (ts_class_by_name s' !! name); by simplify_eq. }
    apply Hk1, Hk2 in Hid. unfold name_id in Hid. rewrite Hb2 in Hid. congruence.
Qed.

(** The store with the classes every environment has. *)
Definition store0 : TypeStore := match store_default with Done s => s | _ => store_empty end.
Definition known0 : WellKnownTypes := mkWellKnown 0 1 2 3 4.

Lemma store0_ok : store_ok store0 /\ ts_well_known store0 = Some known0.
Proof.
  split; [|vm_compute; reflexivity].
  apply (store_run_ok [OIntern (lit "java.lang.Object"); OIntern (lit "java.lang.String"); OIntern (lit "java.lang.Integer");
    OIntern (lit "java.lang.Cloneable"); OIntern (lit "java.io.Serializable");
    ODefine 0 (object_def (Class 0 []) (Class 1 [])); ODefine 1 (string_def (Class 0 []) (Class 1 []));
    ODefine 2 (integer_def (Class 0 [])); ODefine 3 (interface_def "java.lang.Cloneable");
    ODefine 4 (interface_def "java.io.Serializable")]
    (mkStore [] ∅ ∅ [] (Some known0))); [|by repeat constructor|vm_compute; reflexivity|vm_compute; reflexivity].
  split; unfold name_id; simpl; intros *; rewrite ?lookup_empty; naive_solver.
Qed.

Definition number_def : ClassDef := mkClass (lit "java.lang.Number") ClassKind.Class [] (Some (Class 0 [])) [] [] [] [].

(** A class gets a field in place. *)
Definition add_field (f : FieldDef) (c : ClassDef) : ClassDef :=
  mkClass (cl_name c) (cl_kind c) (cl_type_params c) (cl_super_class c) (cl_interfaces c) (cl_fields c ++ [f]) (cl_constructors c) (cl_methods c).

Definition sample_ops : list store_op :=
  [OUpsert number_def; ORemove (lit "java.lang.Number"); OIntern (lit "a.B");
   OMut 1 (add_field (mkField (lit "f") (Class 0 []) false true)); OUpsert number_def].

Lemma class_ids_stable_witness :
  exists s', store_run sample_ops store0 = Done s' /\ name_id s' (lit "java.lang.String") = Some 1.
Proof.
  destruct (store_run sample_ops store0) as [s'| |] eqn:Hr; [|vm_compute in Hr; discriminate..].
  exists s'. split; [done|].
  assert (Hlen : length (ts_classes s') = 7) by (vm_compute in Hr; apply Done_inj in Hr as <-; reflexivity).
  assert (Hops : Forall keeps_name sample_ops) by (repeat constructor).
  destruct (class_ids_stable _ _ _ (proj1 store0_ok) Hops Hr ltac:(rewrite Hlen; reflexivity)) as [Hk _].
  by destruct (Hk (lit "java.lang.String") 1 ltac:(vm_compute; reflexivity)).
Defined.

(** A caller of [class_mut] that renames a class: the name still leads to the id, the slot of the id has
    another name, and redefining the class, as [upsert_class] does, panics. *)
Theorem class_mut_renames s name id def :
  store_ok s -> ts_class_by_name s !! name = Some id -> cl_name def <> name ->
  exists s', class_mut id (fun _ => def) s = Some s' /\ ts_class_by_name s' !! name = Some id /\
    forall def', cl_name def' = name -> upsert_class def' s' = Panic.
Proof.
  intros Hok Hb Hne. destruct (so_slot s Hok name id) as (c & Hc & Hn); [unfold name_id; by rewrite Hb|].
  unfold class_mut. rewrite Hc. eexists. split_and!; [done|done|]. intros def' <-. unfold upsert_class. simpl. rewrite Hb.
  unfold define_class. simpl. rewrite list_lookup_insert_eq by (by eapply lookup_lt_Some). by rewrite decide_False.
Qed.
