(* ===== verification/Subtype.v ===== *)
(** * Subtyping (crates/nova-types/src/lib.rs)

    [is_subtype] and the search of supertypes [is_subtype_class] behind it.  Both recurse without a
    measure in the code: the model has fuel, which bounds the depth of calls and the rounds of the
    search, and [OutOfFuel] stands for a computation that goes on.  The reference is the relation
    [Sub], in the style of the Java Language Specification (4.5.1, 4.10), with the code's error
    recovery as rules of their own. *)

From stdpp Require Import base numbers option strings pretty gmap relations list.
From S2P Require Import Prelude Str Sorting Types.

(** ** Operations *)

Definition primitive_widening (from to : PrimitiveType) : bool :=
  bool_decide (from = to) ||
  match from, to with
  | PrimitiveType.Byte, (PrimitiveType.Short | PrimitiveType.Int | PrimitiveType.Long | PrimitiveType.Float | PrimitiveType.Double)
  | PrimitiveType.Short, (PrimitiveType.Int | PrimitiveType.Long | PrimitiveType.Float | PrimitiveType.Double)
  | PrimitiveType.Char, (PrimitiveType.Int | PrimitiveType.Long | PrimitiveType.Float | PrimitiveType.Double)
  | PrimitiveType.Int, (PrimitiveType.Long | PrimitiveType.Float | PrimitiveType.Double)
  | PrimitiveType.Long, (PrimitiveType.Float | PrimitiveType.Double)
  | PrimitiveType.Float, PrimitiveType.Double => true
  | _, _ => false
  end.

(** The substitution is a [HashMap] collected from pairs: the last one counts. *)
Fixpoint lookup_subst (id : TypeVarId) (subst : list (TypeVarId * Ty)) : option Ty :=
  match subst with
  | [] => None
  | (i, t) :: subst =>
      match lookup_subst id subst with
      | Some t' => Some t'
      | None => if decide (i = id) then Some t else None
      end
  end.

Fixpoint substitute (ty : Ty) (subst : list (TypeVarId * Ty)) : Ty :=
  match ty with
  | TypeVar id => default (TypeVar id) (lookup_subst id subst)
  | Array elem => Array (substitute elem subst)
  | Class def args => Class def ((fun a => substitute a subst) <$> args)
  | Wildcard Unbounded => Wildcard Unbounded
  | Wildcard (Extends upper) => Wildcard (Extends (substitute upper subst))
  | Wildcard (Super lower) => Wildcard (Super (substitute lower subst))
  | Intersection types => Intersection ((fun t => substitute t subst) <$> types)
  | other => other
  end.

(** [Iterator::any] and [Iterator::all]: they stop early. *)
Fixpoint any_run {A} (f : A -> run bool) (l : list A) : run bool :=
  match l with
  | [] => Done false
  | x :: l => b ← f x; if b : bool then Done true else any_run f l
  end.

Fixpoint all_run {A} (f : A -> run bool) (l : list A) : run bool :=
  match l with
  | [] => Done true
  | x :: l => b ← f x; if b : bool then all_run f l else Done false
  end.

Definition is_void (t : Ty) : bool := match t with Void => true | _ => false end.

Section Subtype.
Context `{E : TypeEnv}.

Definition object_ty : Ty := Class (wk_object well_known) [].

(** ** The order of interfaces *)

Definition primitive_name (p : PrimitiveType) : str :=
  match p with
  | PrimitiveType.Boolean => lit "Boolean"
  | PrimitiveType.Byte => lit "Byte"
  | PrimitiveType.Short => lit "Short"
  | PrimitiveType.Char => lit "Char"
  | PrimitiveType.Int => lit "Int"
  | PrimitiveType.Long => lit "Long"
  | PrimitiveType.Float => lit "Float"
  | PrimitiveType.Double => lit "Double"
  end.

Definition number_str (n : nat) : str := lit (pretty n).

Definition kind_rank (k : option ClassKind.t) : nat := match k with Some ClassKind.Interface => 2 | _ => 1 end.

Definition intersection_component_rank (ty : Ty) : nat :=
  match ty with
  | Unknown | Error => 0
  | Class def _ => kind_rank (cl_kind <$> env_class def)
  | Named name => kind_rank (cl_kind <$> (lookup_class_by_source_name name ≫= env_class))
  | Array _ | VirtualInner _ _ => 1
  | _ => 2
  end.

(** Strings are compared byte by byte. *)
Fixpoint bytes_compare (l k : list N) : comparison :=
  match l, k with
  | [], [] => Eq
  | [], _ => Lt
  | _, [] => Gt
  | x :: l, y :: k => then_with (N.compare x y) (bytes_compare l k)
  end.
Definition str_compare (s t : str) : comparison := bytes_compare (as_bytes s) (as_bytes t).

Definition ranked_compare (a b : nat * str) : comparison :=
  then_with (Nat.compare a.1 b.1) (str_compare a.2 b.2).

(** The keys of the components of an intersection, nested ones flattened; for another type, its own
    key.  The code flattens with a stack; the sort makes the order immaterial. *)
Fixpoint component_keys (ty : Ty) : list (nat * str) :=
  let key t := match t with
    | Intersection _ => join (lit " & ") ((sort_by ranked_compare (component_keys t)).*2)
    | _ => match component_keys t with [(_, k)] => k | _ => [] end
    end in
  let one k := [(intersection_component_rank ty, k)] in
  match ty with
  | Void => one (lit "void")
  | Null => one (lit "null")
  | Unknown => one (lit "<unknown>")
  | Error => one (lit "<error>")
  | Primitive p => one (primitive_name p)
  | TypeVar id => one (lit "T" ++ number_str id)
  | Named name => one (lit "named:" ++ name)
  | VirtualInner owner name => one (lit "virtual:" ++ number_str owner ++ lit ":" ++ name)
  | Array elem => one (key elem ++ lit "[]")
  | Wildcard Unbounded => one (lit "?")
  | Wildcard (Extends upper) => one (lit "? extends " ++ key upper)
  | Wildcard (Super lower) => one (lit "? super " ++ key lower)
  | Class def args =>
      let name := match env_class def with Some c => cl_name c | None => lit "<class:" ++ number_str def ++ lit ">" end in
      one (name ++ match args with [] => [] | _ => lit "<" ++ join (lit ", ") (key <$> args) ++ lit ">" end)
  | Intersection types => concat (component_keys <$> types)
  end.

Definition type_sort_key (ty : Ty) : str :=
  match ty with
  | Intersection _ => join (lit " & ") ((sort_by ranked_compare (component_keys ty)).*2)
  | _ => match component_keys ty with [(_, k)] => k | _ => [] end
  end.

Definition sort_interfaces (l : list Ty) : list Ty :=
  sort_by (fun a b => str_compare (type_sort_key a) (type_sort_key b)) l.

(** ** The search *)

(** A supertype that is recorded by name. *)
Definition resolve (t : Ty) : Ty :=
  match t with
  | Named name => match lookup_class_by_source_name name with Some id => Class id [] | None => t end
  | _ => t
  end.

(** What a class type adds to the queue: its direct supertypes. *)
Definition direct_supertypes (c : ClassDef) (args : list Ty) : list Ty :=
  let subst := zip (cl_type_params c) args in
  match cl_super_class c with Some sc => [substitute sc subst] | None => [] end ++
  sort_interfaces ((fun i => substitute i subst) <$> cl_interfaces c) ++
  match cl_kind c with ClassKind.Interface => [object_ty] | ClassKind.Class => [] end.

Section Rec.
(** [is_subtype], one level down. *)
Variable rec : Ty -> Ty -> run bool.

Definition type_arg_contained_by (actual formal : Ty) : run bool :=
  match formal with
  | Wildcard Unbounded => Done true
  | Wildcard (Extends upper) =>
      match actual with
      | Wildcard Unbounded => rec object_ty upper
      | Wildcard (Extends actual_upper) => rec actual_upper upper
      | Wildcard (Super _) => Done false
      | other => rec other upper
      end
  | Wildcard (Super lower) =>
      match actual with
      | Wildcard (Super actual_lower) => rec lower actual_lower
      | Wildcard _ => Done false
      | other => rec lower other
      end
  | _ => Done (bool_decide (actual = formal))
  end.

Definition type_args_compatible (def : ClassId) (sub super_ : list Ty) : run bool :=
  let generic := match env_class def with Some c => negb (bool_decide (cl_type_params c = [])) | None => false end in
  if bool_decide (super_ = []) && generic then Done true
  else if bool_decide (sub = []) && generic then Done false
  else if decide (length sub = length super_) then all_run (fun '(a, f) => type_arg_contained_by a f) (zip sub super_)
  else Done false.

(** The loop over the queue. *)
Fixpoint class_search (fuel : nat) (super_def : ClassId) (super_args : list Ty) (queue : list Ty)
    (seen : list (ClassId * list Ty)) : run bool :=
  match queue with
  | [] => Done false
  | current :: queue =>
      match fuel with
      | O => OutOfFuel
      | S fuel =>
          match resolve current with
          | Class def args =>
              if decide ((def, args) ∈ seen) then class_search fuel super_def super_args queue seen
              else if decide (def = super_def) then type_args_compatible def args super_args
              else
                match env_class def with
                | None => class_search fuel super_def super_args queue ((def, args) :: seen)
                | Some c => class_search fuel super_def super_args (queue ++ direct_supertypes c args) ((def, args) :: seen)
                end
          | _ => class_search fuel super_def super_args queue seen
          end
      end
  end.

(** The match of [is_subtype], its arms from that for intersections on. *)
Definition subtype_rest (fuel : nat) (sub super_ : Ty) : run bool :=
  match super_ with
  | Intersection types => all_run (fun t => rec sub t) types
  | _ =>
      match sub with
      | Intersection types => any_run (fun t => rec t super_) types
      | TypeVar id =>
          match type_param id with Some tp => any_run (fun b => rec b super_) (tp_upper_bounds tp) | None => Done false end
      | _ =>
          match super_ with
          | TypeVar id => match type_param id ≫= tp_lower_bound with Some lower => rec sub lower | None => Done false end
          | Wildcard Unbounded => Done true
          | Wildcard (Extends upper) => rec sub upper
          | Wildcard (Super lower) => rec lower sub
          | Class super_def super_args =>
              match sub with
              | VirtualInner _ _ | Named _ => Done (bool_decide (super_def = wk_object well_known))
              | Class def args => class_search fuel super_def super_args [Class def args] []
              | _ => Done false
              end
          | _ => Done false
          end
      end
  end.

(** The match from its start. *)
Definition subtype_match (fuel : nat) (sub super_ : Ty) : run bool :=
  if is_void sub || is_void super_ then Done false
  else
    match sub with
    | Null => if is_reference super_ || is_wildcard super_ then Done true else subtype_rest fuel sub super_
    | Primitive a => match super_ with Primitive b => Done (primitive_widening a b) | _ => subtype_rest fuel sub super_ end
    | Array a =>
        match super_ with
        | Array b => if is_reference a && is_reference b then rec a b else Done (bool_decide (a = b))
        | Class def _ =>
            Done (bool_decide (def = wk_object well_known) || bool_decide (def = wk_cloneable well_known) ||
                  bool_decide (def = wk_serializable well_known))
        | _ => subtype_rest fuel sub super_
        end
    | Class _ _ =>
        match super_ with
        | Class def _ => if decide (def = wk_object well_known) then Done true else subtype_rest fuel sub super_
        | _ => subtype_rest fuel sub super_
        end
    | _ => subtype_rest fuel sub super_
    end.
End Rec.

Fixpoint is_subtype (fuel : nat) (sub super_ : Ty) : run bool :=
  match fuel with
  | O => OutOfFuel
  | S fuel =>
      if decide (sub = super_) then Done true
      else
        if decide (resolve sub <> sub) then is_subtype fuel (resolve sub) super_
        else if decide (resolve super_ <> super_) then is_subtype fuel sub (resolve super_)
        else if is_errorish sub || is_errorish super_ then Done true
        else subtype_match (is_subtype fuel) fuel sub super_
  end.
(** ** The relation *)

(** A direct supertype of a class type: the superclass, an interface, [Object] for an interface. *)
Inductive direct_super (c : ClassDef) (args : list Ty) : Ty -> Prop :=
| DS_class sc : cl_super_class c = Some sc -> direct_super c args (substitute sc (zip (cl_type_params c) args))
| DS_interface i : i ∈ cl_interfaces c -> direct_super c args (substitute i (zip (cl_type_params c) args))
| DS_object : cl_kind c = ClassKind.Interface -> direct_super c args object_ty.

Definition super_step (x y : ClassId * list Ty) : Prop :=
  exists c t, env_class x.1 = Some c /\ direct_super c x.2 t /\ resolve t = Class y.1 y.2.

Definition is_generic (def : ClassId) : bool :=
  match env_class def with Some c => negb (bool_decide (cl_type_params c = [])) | None => false end.

Inductive Sub : Ty -> Ty -> Prop :=
| S_refl t : Sub t t
| S_named_l n id t : lookup_class_by_source_name n = Some id -> Sub (Class id []) t -> Sub (Named n) t
| S_named_r s n id : lookup_class_by_source_name n = Some id -> Sub s (Class id []) -> Sub s (Named n)
| S_error_l s t : is_errorish s = true -> Sub s t
| S_error_r s t : is_errorish t = true -> Sub s t
| S_null t : is_reference t || is_wildcard t = true -> Sub Null t
| S_primitive a b : primitive_widening a b = true -> Sub (Primitive a) (Primitive b)
| S_array a b : is_reference a = true -> is_reference b = true -> Sub a b -> Sub (Array a) (Array b)
| S_array_class a def args :
    def = wk_object well_known \/ def = wk_cloneable well_known \/ def = wk_serializable well_known -> Sub (Array a) (Class def args)
| S_object def args args' : Sub (Class def args) (Class (wk_object well_known) args')
| S_inter_r s ts : is_void s = false -> (forall t, t ∈ ts -> Sub s t) -> Sub s (Intersection ts)
| S_inter_l s ss t : is_void t = false -> s ∈ ss -> Sub s t -> Sub (Intersection ss) t
| S_var_upper id tp b t : is_void t = false -> type_param id = Some tp -> b ∈ tp_upper_bounds tp -> Sub b t -> Sub (TypeVar id) t
| S_var_lower s id tp l : is_void s = false -> type_param id = Some tp -> tp_lower_bound tp = Some l -> Sub s l -> Sub s (TypeVar id)
| S_unbounded s : is_void s = false -> Sub s (Wildcard Unbounded)
| S_extends s u : is_void s = false -> Sub s u -> Sub s (Wildcard (Extends u))
| S_super s l : is_void s = false -> Sub l s -> Sub s (Wildcard (Super l))
| S_named_object n args : Sub (Named n) (Class (wk_object well_known) args)
| S_virtual_object owner n args : Sub (VirtualInner owner n) (Class (wk_object well_known) args)
| S_class d a e b args : rtc super_step (d, a) (e, b) -> Compatible e b args -> Sub (Class d a) (Class e args)

(** The arguments of a class fit those of a target with the same class: the target is raw, or
    each argument is contained. *)
with Compatible : ClassId -> list Ty -> list Ty -> Prop :=
| K_raw e b : is_generic e = true -> Compatible e b []
| K_args e b args : length b = length args ->
    (forall i x y, b !! i = Some x -> args !! i = Some y -> Contained x y) -> Compatible e b args

with Contained : Ty -> Ty -> Prop :=
| N_same a : Contained a a
| N_any a : Contained a (Wildcard Unbounded)
| N_extends a u : is_wildcard a = false -> Sub a u -> Contained a (Wildcard (Extends u))
| N_any_extends u : Sub object_ty u -> Contained (Wildcard Unbounded) (Wildcard (Extends u))
| N_extends_extends v u : Sub v u -> Contained (Wildcard (Extends v)) (Wildcard (Extends u))
| N_super a l : is_wildcard a = false -> Sub l a -> Contained a (Wildcard (Super l))
| N_super_super m l : Sub l m -> Contained (Wildcard (Super m)) (Wildcard (Super l)).

Lemma direct_supertypes_spec c args t : t ∈ direct_supertypes c args <-> direct_super c args t.
Proof.
  unfold direct_supertypes. rewrite !elem_of_app. unfold sort_interfaces. rewrite elem_of_sort_by, list_elem_of_fmap. split.
  - intros [Ht|[(i & -> & Hi)|Ht]].
    + destruct (cl_super_class c) eqn:Hs; [|by apply elem_of_nil in Ht]. apply list_elem_of_singleton in Ht as ->. by apply DS_class.
    + by apply DS_interface.
    + destruct (cl_kind c) eqn:Hk; [by apply elem_of_nil in Ht|]. apply list_elem_of_singleton in Ht as ->. by apply DS_object.
  - intros [sc Hsc|i Hi|Hk]; rewrite ?Hsc, ?Hk; [left|right; left|right; right]; [by apply list_elem_of_singleton| |by apply list_elem_of_singleton].
    by exists i.
Qed.

Lemma resolve_idemp t : resolve (resolve t) = resolve t.
Proof. destruct t; try done. simpl. destruct (lookup_class_by_source_name name) eqn:Hl; simpl; by rewrite ?Hl. Qed.

(** ** The answer yes is right *)

Lemma all_run_true {A} (f : A -> run bool) l : all_run f l = Done true -> forall x, x ∈ l -> f x = Done true.
Proof.
  induction l as [|y l IH]; simpl; intros H x; [by intros ?%elem_of_nil|]. apply bind_Done in H as ([] & Hy & H); [|done].
  intros [->|Hx]%elem_of_cons; [done|by apply IH].
Qed.

Lemma any_run_true {A} (f : A -> run bool) l : any_run f l = Done true -> exists x, x ∈ l /\ f x = Done true.
Proof.
  induction l as [|y l IH]; simpl; intros H; [done|]. apply bind_Done in H as ([] & Hy & H).
  - exists y. split; [by left|done].
  - destruct (IH H) as (x & Hx & Hf). exists x. split; [by right|done].
Qed.

Section Sound.
Variable rec : Ty -> Ty -> run bool.
Hypothesis rec_sound : forall a b, rec a b = Done true -> Sub a b.

Lemma contained_sound a b : type_arg_contained_by rec a b = Done true -> Contained a b.
Proof.
  unfold type_arg_contained_by. destruct b as [|p|d l|x|i|[|u|u]|l| |n|o n| |];
    try (intros H%Done_inj; apply bool_decide_eq_true in H as ->; constructor).
  - intros _. apply N_any.
  - destruct a as [|p|d l|x|i|[|v|v]|l| |n|o n| |]; intros H; try done; by constructor; apply rec_sound || done.
  - destruct a as [|p|d l|x|i|[|v|v]|l| |n|o n| |]; intros H; try done; by constructor; apply rec_sound || done.
Qed.

Lemma compatible_sound e b args : type_args_compatible rec e b args = Done true -> Compatible e b args.
Proof.
  unfold type_args_compatible. fold (is_generic e). destruct (bool_decide_reflect (args = [])) as [->|Hne]; simpl.
  - destruct (is_generic e) eqn:Hg; [intros _; by apply K_raw|]. rewrite andb_false_r. case_decide as Hl; [|done].
    intros _. apply K_args; [done|]. by intros i x y _ Hy.
  - destruct (bool_decide_reflect (b = [])) as [->|Hb]; simpl.
    + destruct (is_generic e); [done|]. case_decide as Hl; [|done]. by destruct args.
    + case_decide as Hl; [|done]. intros Hall. apply K_args; [done|]. intros i x y Hx Hy. apply contained_sound.
      apply (all_run_true _ _ Hall (x, y)). apply (list_elem_of_lookup_2 _ i). apply lookup_zip_with_Some. by exists x, y.
Qed.

Lemma class_search_sound fuel d0 a0 e args queue seen :
  (forall t d a, t ∈ queue -> resolve t = Class d a -> rtc super_step (d0, a0) (d, a)) ->
  class_search rec fuel e args queue seen = Done true -> exists b, rtc super_step (d0, a0) (e, b) /\ Compatible e b args.
Proof.
  revert queue seen. induction fuel as [|fuel IH]; intros [|t queue] seen Hq; simpl; try done.
  assert (Hq' : forall t d a, t ∈ queue -> resolve t = Class d a -> rtc super_step (d0, a0) (d, a)).
  { intros t' d a Ht. apply Hq. by right. }
  destruct (resolve t) as [|p|d a|x|i|w|l| |n|o n| |] eqn:Ht; try (by apply IH).
  assert (Hd : rtc super_step (d0, a0) (d, a)) by (apply (Hq t); [by left|done]).
  case_decide; [by apply IH|]. case_decide as Hde; [subst e; intros Hc%compatible_sound; by exists a|].
  destruct (env_class d) as [c|] eqn:Hc; [|by apply IH]. apply IH.
  intros t' d' a' [Ht'|Ht'%direct_supertypes_spec]%elem_of_app Hr; [by apply (Hq' t')|].
  eapply rtc_r; [exact Hd|]. by exists c, t'.
Qed.

Lemma subtype_rest_sound fuel s t :
  is_void s = false -> is_void t = false -> subtype_rest rec fuel s t = Done true -> Sub s t.
Proof.
  intros Hvs Hvt. unfold subtype_rest.
  assert (Hinter : forall l, all_run (fun t => rec s t) l = Done true -> Sub s (Intersection l)).
  { intros l Hl. apply S_inter_r; [done|]. intros x Hx. apply rec_sound. by apply (all_run_true _ _ Hl). }
  assert (Hany : forall l, any_run (fun b => rec b t) l = Done true -> exists b, b ∈ l /\ Sub b t).
  { intros l (b & Hb & Hr)%any_run_true. exists b. split; [done|by apply rec_sound]. }
  assert (Hleft : match s with
    | Intersection types => any_run (fun s => rec s t) types = Done true -> Sub s t
    | TypeVar id => match type_param id with Some tp => any_run (fun b => rec b t) (tp_upper_bounds tp) | None => Done false end = Done true -> Sub s t
    | _ => True end).
  { destruct s as [|p|d l|x|i|w|l| |n|o n| |]; try done.
    - destruct (type_param i) as [tp|] eqn:Hp; [|done]. intros (b & Hb & Hs)%Hany. by apply (S_var_upper i tp b).
    - intros (b & Hb & Hs)%Hany. by apply (S_inter_l b). }
  assert (Hlow : forall i, match type_param i ≫= tp_lower_bound with Some lower => rec s lower | None => Done false end = Done true -> Sub s (TypeVar i)).
  { intros i. destruct (type_param i) as [tp|] eqn:Hp; simpl; [|done]. destruct (tp_lower_bound tp) as [l|] eqn:Hl; [|done].
    intros Hr%rec_sound. by apply (S_var_lower s i tp l). }
  destruct t as [|p|e args|x|i|[|u|u]|l| |n|o n| |]; try exact (Hinter _); destruct s as [|q|d a|y|j|w|k| |m|o' m| |];
    try exact Hleft; try done; try exact (Hlow _);
    try (intros H; first [by apply S_unbounded|apply S_extends|apply S_super]; [done|by apply rec_sound]);
    try (by intros _; apply S_unbounded).
  - intros Hs. destruct (class_search_sound fuel d a e args [Class d a] []) as (b & Hp & Hc); [|done|by apply (S_class d a e b)].
    intros t d' a' ->%list_elem_of_singleton [= -> ->]. apply rtc_refl.
  - intros H%Done_inj. apply bool_decide_eq_true in H as ->. apply S_named_object.
  - intros H%Done_inj. apply bool_decide_eq_true in H as ->. apply S_virtual_object.
Qed.
End Sound.

Lemma subtype_match_sound rec fuel s t :
  (forall a b, rec a b = Done true -> Sub a b) -> subtype_match rec fuel s t = Done true -> Sub s t.
Proof.
  intros Hrec. unfold subtype_match. destruct (is_void s) eqn:Hs; [done|]. destruct (is_void t) eqn:Ht; [done|]. simpl.
  pose proof (subtype_rest_sound rec Hrec fuel s t Hs Ht) as Hrest.
  destruct s as [|p|d a|x|i|w|l| |n|o n| |]; try exact Hrest.
  - destruct t; try exact Hrest. intros H%Done_inj. by apply S_primitive.
  - destruct t as [|p|e args| | | | | | | | |]; try exact Hrest. case_decide as He; [subst e; intros _; apply S_object|exact Hrest].
  - destruct t as [|p|e args|y| | | | | | | |]; try exact Hrest.
    + intros H%Done_inj. apply S_array_class. apply orb_true_iff in H as [[H|H]%orb_true_iff|H];
        apply bool_decide_eq_true in H; auto.
    + destruct (is_reference x) eqn:Hx; simpl; [destruct (is_reference y) eqn:Hy|].
      * intros H%Hrec. by apply S_array.
      * intros H%Done_inj. apply bool_decide_eq_true in H as ->. apply S_refl.
      * intros H%Done_inj. apply bool_decide_eq_true in H as ->. apply S_refl.
  - destruct (is_reference t || is_wildcard t) eqn:Hr; [intros _; by apply S_null|exact Hrest].
Qed.

(** A name that resolves stands for its class. *)
Lemma sub_unresolve_l s t : Sub (resolve s) t -> Sub s t.
Proof. destruct s; try done. simpl. destruct (lookup_class_by_source_name name) as [id|] eqn:Hl; [|done]. by apply S_named_l. Qed.

Lemma sub_unresolve_r s t : Sub s (resolve t) -> Sub s t.
Proof. destruct t; try done. simpl. destruct (lookup_class_by_source_name name) as [id|] eqn:Hl; [|done]. by apply S_named_r. Qed.

Lemma is_subtype_yes fuel s t : is_subtype fuel s t = Done true -> Sub s t.
Proof.
  revert s t. induction fuel as [|fuel IH]; intros s t; simpl; [done|].
  case_decide as He; [subst t; intros _; apply S_refl|]. case_decide as Hs; [intros H; by apply sub_unresolve_l, IH|].
  case_decide as Ht; [intros H; by apply sub_unresolve_r, IH|]. destruct (is_errorish s) eqn:Hes; [intros _; by apply S_error_l|].
  destruct (is_errorish t) eqn:Het; [intros _; by apply S_error_r|]. by apply subtype_match_sound.
Qed.

(** ** More fuel gives the same answer *)

Definition run_le (f g : Ty -> Ty -> run bool) : Prop := forall a b x, f a b = Done x -> g a b = Done x.

Lemma any_run_le {A} (f g : A -> run bool) l x :
  (forall a y, a ∈ l -> f a = Done y -> g a = Done y) -> any_run f l = Done x -> any_run g l = Done x.
Proof.
  induction l as [|a l IH]; simpl; intros Hfg H; [done|]. apply bind_Done in H as (b & Hb & H).
  rewrite (Hfg a b) by (by left || done). simpl. destruct b; [done|]. apply IH; [|done]. intros c y Hc. apply Hfg. by right.
Qed.

Lemma all_run_le {A} (f g : A -> run bool) l x :
  (forall a y, a ∈ l -> f a = Done y -> g a = Done y) -> all_run f l = Done x -> all_run g l = Done x.
Proof.
  induction l as [|a l IH]; simpl; intros Hfg H; [done|]. apply bind_Done in H as (b & Hb & H).
  rewrite (Hfg a b) by (by left || done). simpl. destruct b; [|done]. apply IH; [|done]. intros c y Hc. apply Hfg. by right.
Qed.

Section Mono.
Variables f g : Ty -> Ty -> run bool.
Hypothesis Hfg : run_le f g.

Lemma contained_le a b x : type_arg_contained_by f a b = Done x -> type_arg_contained_by g a b = Done x.
Proof.
  unfold type_arg_contained_by. destruct b as [|p|d l|y|i|[|u|u]|l| |n|o n| |]; try done;
    destruct a as [|p|d l|y|i|[|v|v]|l| |n|o n| |]; try done; apply Hfg.
Qed.

Lemma compatible_le e b args x : type_args_compatible f e b args = Done x -> type_args_compatible g e b args = Done x.
Proof.
  unfold type_args_compatible. fold (is_generic e). destruct (bool_decide (args = []) && is_generic e); [done|].
  destruct (bool_decide (b = []) && is_generic e); [done|]. case_decide; [|done].
  apply all_run_le. intros [a c] y _. apply contained_le.
Qed.

Lemma class_search_le n m e args queue seen x :
  n <= m -> class_search f n e args queue seen = Done x -> class_search g m e args queue seen = Done x.
Proof.
  revert m queue seen. induction n as [|n IH]; intros m [|t queue] seen Hle; destruct m as [|m]; simpl; try done; try lia.
  apply le_S_n in Hle. destruct (resolve t); try (by apply IH). case_decide; [by apply IH|]. case_decide; [by apply compatible_le|].
  destruct (env_class def); by apply IH.
Qed.

Lemma subtype_rest_le n m s t x : n <= m -> subtype_rest f n s t = Done x -> subtype_rest g m s t = Done x.
Proof.
  intros Hle. assert (Hany : forall l, any_run (fun b => f b t) l = Done x -> any_run (fun b => g b t) l = Done x).
  { intros l. apply any_run_le. intros a y _. apply Hfg. }
  assert (Hall : forall l, all_run (fun b => f s b) l = Done x -> all_run (fun b => g s b) l = Done x).
  { intros l. apply all_run_le. intros a y _. apply Hfg. }
  assert (Hlow : forall i, match type_param i ≫= tp_lower_bound with Some lower => f s lower | None => Done false end = Done x ->
    match type_param i ≫= tp_lower_bound with Some lower => g s lower | None => Done false end = Done x).
  { intros i. destruct (type_param i ≫= tp_lower_bound); [apply Hfg|done]. }
  unfold subtype_rest. destruct t as [|p|e args|y|i|[|u|u]|l| |k|o k| |]; try exact (Hall _);
    destruct s as [|q|d a|z|j|w|r| |h|o' h| |]; try exact (Hany _); try exact (Hlow _); try done; try (apply Hfg);
    try (destruct (type_param j); [exact (Hany _)|done]).
  by apply class_search_le.
Qed.

Lemma subtype_match_le n m s t x : n <= m -> subtype_match f n s t = Done x -> subtype_match g m s t = Done x.
Proof.
  intros Hle. pose proof (subtype_rest_le n m s t x Hle) as Hrest. unfold subtype_match. case_match; [done|].
  destruct s; try exact Hrest.
  - destruct t; try exact Hrest; done.
  - destruct t; try exact Hrest. case_decide; [done|exact Hrest].
  - destruct t; try exact Hrest; [done|]. case_match; [apply Hfg|done].
  - case_match; [done|exact Hrest].
Qed.
End Mono.

Lemma is_subtype_le n m : n <= m -> run_le (is_subtype n) (is_subtype m).
Proof.
  revert m. induction n as [|n IH]; intros m Hle s t x; [done|]. destruct m as [|m]; [lia|]. apply le_S_n in Hle. simpl.
  case_decide; [done|]. case_decide; [by apply IH|]. case_decide; [by apply IH|]. case_match; [done|].
  apply subtype_match_le; [by apply IH|done].
Qed.

End Subtype.
