(* ===== verification/SubtypeExact.v ===== *)
(** * Subtyping: when the answers are exact, and when there is one (crates/nova-types/src/lib.rs)

    On types without type variables whose classes have all their arguments, in an environment in
    which a class has one parameterization of each supertype (which Java demands), [is_subtype]
    answers exactly by the relation [Sub].  It answers at all when the hierarchy has no cycle and
    the target has no wildcard with a lower bound; with such wildcards it may not: there is a
    well-formed class on which it runs for ever. *)

From stdpp Require Import base numbers option strings gmap relations list.
From S2P Require Import Prelude Str Sorting Types Subtype.

Lemma forallb_Forall_true {A} (f : A -> bool) l : forallb f l = true <-> Forall (fun x => f x = true) l.
Proof. induction l as [|x l IH]; simpl; [split; [constructor|done]|]. by rewrite andb_true_iff, IH, Forall_cons. Qed.

Section Exact.
Context `{E : TypeEnv}.

(** ** Ground types *)

Definition arity (def : ClassId) : nat := match env_class def with Some c => length (cl_type_params c) | None => 0 end.

(** Type variables are those of [params], classes have all their arguments, and there is no
    intersection. *)
Fixpoint ground_under (params : list TypeVarId) (t : Ty) : bool :=
  match t with
  | Class def args => bool_decide (length args = arity def) && forallb (ground_under params) args
  | Array elem => ground_under params elem
  | TypeVar id => bool_decide (id ∈ params)
  | Wildcard Unbounded => true
  | Wildcard (Extends u) | Wildcard (Super u) => ground_under params u
  | Intersection _ => false
  | Named n => match lookup_class_by_source_name n with Some id => bool_decide (arity id = 0) | None => true end
  | _ => true
  end.

Definition ground : Ty -> bool := ground_under [].

(** The supertypes of a class are ground in its parameters. *)
Definition ground_env : Prop :=
  arity (wk_object well_known) = 0 /\
  forall d c t, env_class d = Some c -> cl_super_class c = Some t \/ t ∈ cl_interfaces c -> ground_under (cl_type_params c) t = true.

(** One parameterization of each supertype. *)
Definition coherent : Prop :=
  forall d a e b b', ground (Class d a) = true -> rtc super_step (d, a) (e, b) -> rtc super_step (d, a) (e, b') -> b = b'.

Lemma ground_class d args : ground (Class d args) = true <-> length args = arity d /\ Forall (fun t => ground t = true) args.
Proof.
  unfold ground. simpl. by rewrite andb_true_iff, bool_decide_eq_true, forallb_Forall_true.
Qed.

Lemma lookup_subst_zip params args id :
  id ∈ params -> length args = length params -> exists t, lookup_subst id (zip params args) = Some t /\ t ∈ args.
Proof.
  revert args. induction params as [|p params IH]; intros [|t args] Hin Hlen; simpl in *; try done; [by apply elem_of_nil in Hin|].
  destruct (decide (id ∈ params)) as [Hid|Hnid].
  - destruct (IH args Hid) as (t' & -> & Ht'); [lia|]. exists t'. split; [done|by right].
  - apply elem_of_cons in Hin as [->|]; [|done].
    assert (Hnone : forall l, p ∉ params -> lookup_subst p (zip params l) = None).
    { clear. induction params as [|q params IH]; intros [|x l] Hp; simpl; try done. apply not_elem_of_cons in Hp as [Hne Hp].
      by rewrite (IH l Hp), decide_False. }
    rewrite Hnone, decide_True by done. exists t. split; [done|by left].
Qed.

Lemma ground_substitute params args t :
  length args = length params -> Forall (fun t => ground t = true) args ->
  ground_under params t = true -> ground (substitute t (zip params args)) = true.
Proof.
  intros Hlen Hargs. induction t as [|p|d l IH|x IH|i| |x IH|x IH|l IH| |n|o n| |] using Ty_ind; simpl; try done.
  - rewrite andb_true_iff, bool_decide_eq_true. intros [Hl Hall]. apply ground_class. rewrite length_fmap. split; [done|].
    apply Forall_fmap. apply Forall_forall. intros t Ht. simpl. rewrite Forall_forall in IH. apply IH; [done|].
    apply forallb_Forall_true in Hall. rewrite Forall_forall in Hall. by apply Hall.
  - rewrite bool_decide_eq_true. intros Hi. destruct (lookup_subst_zip params args i Hi Hlen) as (t & -> & Ht).
    rewrite Forall_forall in Hargs. by apply Hargs.
Qed.

Lemma ground_resolve t : ground t = true -> ground (resolve t) = true.
Proof.
  destruct t; try done. simpl. destruct (lookup_class_by_source_name name) as [id|] eqn:Hl; [|done]. unfold ground. simpl. rewrite Hl.
  rewrite bool_decide_eq_true. intros Ha. by rewrite Ha, bool_decide_eq_true_2.
Qed.

Lemma ground_step x y : ground_env -> super_step x y -> ground (Class x.1 x.2) = true -> ground (Class y.1 y.2) = true.
Proof.
  intros [Hobj Hsup] (c & t & Hc & Ht & Hr) [Hlen Hall]%ground_class. rewrite <-Hr. apply ground_resolve.
  assert (Hlen' : length x.2 = length (cl_type_params c)) by (rewrite Hlen; unfold arity; by rewrite Hc).
  destruct Ht as [sc Hs|i Hi|_].
  - apply ground_substitute; [done..|]. eapply Hsup; [exact Hc|by left].
  - apply ground_substitute; [done..|]. eapply Hsup; [exact Hc|by right].
  - apply ground_class. by rewrite Hobj.
Qed.

Lemma ground_path x y : ground_env -> rtc super_step x y -> ground (Class x.1 x.2) = true -> ground (Class y.1 y.2) = true.
Proof. intros He Hp. induction Hp as [x|x y z Hs _ IH]; [done|]. intros Hg. apply IH. by eapply ground_step. Qed.

(** ** The answer no is right *)

(** A name may be replaced by what it stands for. *)
Lemma sub_resolve s t : Sub s t -> Sub (resolve s) (resolve t).
Proof.
  induction 1 as [t|n id t Hl _ IH|s n id Hl _ IH|s t He|s t He|t Ht|a b Hab|a b Ha Hb Hs _|a def args Hd|def args args'
    |s ts Hv _ IH|s ss t Hv Hs _ IH|id tp b t Hv Hp Hb _ IH|s id tp l Hv Hp Hl _ IH|s Hv|s u Hv _ IH|s l Hv _ IH|n args|o n args
    |d a e b args Hp Hc]; simpl.
  - apply S_refl.
  - by rewrite Hl.
  - by rewrite Hl.
  - apply S_error_l. by destruct s.
  - apply S_error_r. by destruct t.
  - apply S_null. destruct t; try done. simpl. by destruct (lookup_class_by_source_name name).
  - by apply S_primitive.
  - by apply S_array.
  - by apply S_array_class.
  - apply S_object.
  - apply S_inter_r; [|intros t Ht; by apply sub_unresolve_r, IH]. destruct s; try done. simpl. by destruct (lookup_class_by_source_name name).
  - apply (S_inter_l s); [|done|by apply sub_unresolve_l]. destruct t; try done. simpl. by destruct (lookup_class_by_source_name name).
  - apply (S_var_upper id tp b); [|done..|by apply sub_unresolve_l]. destruct t; try done. simpl. by destruct (lookup_class_by_source_name name).
  - apply (S_var_lower _ id tp l); [|done..|by apply sub_unresolve_r]. destruct s; try done. simpl. by destruct (lookup_class_by_source_name name).
  - apply S_unbounded. destruct s; try done. simpl. by destruct (lookup_class_by_source_name name).
  - apply S_extends; [|by apply sub_unresolve_r]. destruct s; try done. simpl. by destruct (lookup_class_by_source_name name).
  - apply S_super; [|by apply sub_unresolve_l]. destruct s; try done. simpl. by destruct (lookup_class_by_source_name name).
  - destruct (lookup_class_by_source_name n); [apply S_object|apply S_named_object].
  - apply S_virtual_object.
  - by eapply S_class.
Qed.

Lemma all_run_false {A} (f : A -> run bool) l : all_run f l = Done false -> exists x, x ∈ l /\ f x = Done false.
Proof.
  induction l as [|y l IH]; simpl; intros H; [done|]. apply bind_Done in H as ([] & Hy & H).
  - destruct (IH H) as (x & Hx & Hf). exists x. split; [by right|done].
  - exists y. split; [by left|done].
Qed.

Section Complete.
Variable rec : Ty -> Ty -> run bool.
Hypothesis Henv : ground_env.
Hypothesis Hcoh : coherent.
Hypothesis rec_complete : forall a b, ground a = true -> ground b = true -> Sub a b -> rec a b <> Done false.

Lemma contained_complete a b :
  ground a = true -> ground b = true -> Contained a b -> type_arg_contained_by rec a b <> Done false.
Proof.
  intros Ha Hb Hc. assert (Hobj : ground object_ty = true) by (apply ground_class; by rewrite (proj1 Henv)).
  destruct Hc as [a|a|a u Hw Hs|u Hs|v u Hs|a l Hw Hs|m l Hs]; simpl; try done.
  - destruct a as [|p|d l|y|i|[|v|v]|l| |n|o n| |]; simpl; try done; try (by rewrite bool_decide_eq_true_2);
      apply rec_complete; try done; apply S_refl.
  - destruct a as [|p|d l|y|i|w|l| |n|o n| |]; try done; by apply rec_complete.
  - by apply rec_complete.
  - by apply rec_complete.
  - destruct a as [|p|d k|y|i|w|k| |n|o n| |]; try done; by apply rec_complete.
  - by apply rec_complete.
Qed.

Lemma compatible_complete e b args :
  Forall (fun t => ground t = true) b -> Forall (fun t => ground t = true) args -> Compatible e b args ->
  type_args_compatible rec e b args <> Done false.
Proof.
  intros Hb Hargs Hc. unfold type_args_compatible. fold (is_generic e). destruct Hc as [e b Hg|e b args Hlen Hall]; [by rewrite Hg|].
  destruct (bool_decide (args = []) && is_generic e) eqn:Hraw; [done|]. destruct (bool_decide_reflect (b = [])) as [->|Hne]; simpl.
  - destruct args; [|done]. simpl in Hraw. by rewrite Hraw.
  - rewrite decide_True by done. intros ([x y] & Hxy & Hf)%all_run_false. apply list_elem_of_lookup_1 in Hxy as [i Hi].
    apply lookup_zip_with_Some in Hi as (x' & y' & [= <- <-] & Hx & Hy). rewrite Forall_lookup in Hb, Hargs.
    revert Hf. apply contained_complete; [by eapply Hb|by eapply Hargs|by eapply Hall].
Qed.

(** What was seen is not the target, and its supertypes are seen or queued. *)
Definition search_inv (start : ClassId * list Ty) (e : ClassId) (queue : list Ty) (seen : list (ClassId * list Ty)) : Prop :=
  (forall t d a, t ∈ queue -> resolve t = Class d a -> rtc super_step start (d, a)) /\
  (forall x y, x ∈ seen -> super_step x y -> y ∈ seen \/ exists t, t ∈ queue /\ resolve t = Class y.1 y.2) /\
  (forall x, x ∈ seen -> x.1 <> e) /\
  (start ∈ seen \/ exists t, t ∈ queue /\ resolve t = Class start.1 start.2).

Lemma search_pop start e t queue seen :
  search_inv start e (t :: queue) seen ->
  (forall d a, resolve t = Class d a -> (d, a) ∈ seen) -> search_inv start e queue seen.
Proof.
  intros (Hq & Hs & Hne & Hst) Ht. split_and!; [|..|done|].
  - intros t' d a Hin. apply Hq. by right.
  - intros x y Hx Hxy. destruct (Hs x y Hx Hxy) as [?|(t' & [->|Hin]%elem_of_cons & Hr)]; [by left| |right; by exists t'].
    left. destruct y as [d a]. by apply Ht.
  - destruct Hst as [?|(t' & [->|Hin]%elem_of_cons & Hr)]; [by left| |right; by exists t'].
    left. destruct start as [d a]. by apply Ht.
Qed.

Lemma class_search_complete fuel d0 a0 e b args queue seen :
  ground (Class d0 a0) = true -> Forall (fun t => ground t = true) args ->
  rtc super_step (d0, a0) (e, b) -> Compatible e b args -> search_inv (d0, a0) e queue seen ->
  class_search rec fuel e args queue seen <> Done false.
Proof.
  intros Hg Hargs Hp Hc. revert queue seen. induction fuel as [|fuel IH]; intros [|t queue] seen Hinv; simpl; try done.
  1,2: destruct Hinv as (_ & Hs & Hne & Hst); intros _.
  1,2: assert (Hclosed : forall x y, rtc super_step x y -> x ∈ seen -> y ∈ seen).
  1,3: intros x y Hxy; induction Hxy as [x|x y z Hstep _ IHr]; [done|]; intros Hx; apply IHr;
         destruct (Hs x y Hx Hstep) as [?|(t & []%elem_of_nil & _)]; done.
  1,2: destruct Hst as [Hst|(t & []%elem_of_nil & _)]; by apply (Hne (e, b)); [apply (Hclosed (d0, a0))|].
  destruct (resolve t) as [|p|d a|x|i|w|l| |n|o n| |] eqn:Ht; try (apply IH; eapply search_pop; [exact Hinv|by rewrite Ht]).
  case_decide as Hseen; [apply IH; eapply search_pop; [exact Hinv|by rewrite Ht; intros d' a' [= <- <-]]|].
  pose proof Hinv as (Hq & Hs & Hne & Hst). assert (Hd : rtc super_step (d0, a0) (d, a)) by (apply (Hq t); [by left|done]).
  case_decide as Hde.
  { subst d. rewrite <-(Hcoh d0 a0 e b a Hg Hp Hd). apply compatible_complete; [|done|done].
    apply (ground_path _ _ Henv Hp) in Hg. simpl in Hg. by apply ground_class in Hg as [_ Hg]. }
  assert (Hnext : forall new, (forall y, super_step (d, a) y -> exists t, t ∈ new /\ resolve t = Class y.1 y.2) ->
    (forall t' d' a', t' ∈ new -> resolve t' = Class d' a' -> rtc super_step (d0, a0) (d', a')) ->
    search_inv (d0, a0) e (queue ++ new) ((d, a) :: seen)).
  { intros new Hnew Hnr. apply (search_pop _ _ t); [|rewrite Ht; intros d' a' [= <- <-]; by left]. split_and!.
    - intros t' d' a'. rewrite elem_of_cons, elem_of_app. intros [->|[Hin|Hin]] Hr; [by apply (Hq t); [left|]|by apply (Hq t'); [right|]|by apply (Hnr t')].
    - intros x y [->|Hx]%elem_of_cons Hxy.
      + right. destruct (Hnew y Hxy) as (t' & Hin & Hr). exists t'. split; [|done]. right. apply elem_of_app. by right.
      + destruct (Hs x y Hx Hxy) as [?|(t' & Hin & Hr)]; [by left; right|]. right. exists t'. split; [|done].
        apply elem_of_cons in Hin as [->|Hin]; [by left|right; apply elem_of_app; by left].
    - intros x [->|Hx]%elem_of_cons; [done|by apply Hne].
    - destruct Hst as [?|(t' & Hin & Hr)]; [by left; right|]. right. exists t'. split; [|done].
      apply elem_of_cons in Hin as [->|Hin]; [by left|right; apply elem_of_app; by left]. }
  destruct (env_class d) as [c|] eqn:Hcd.
  - apply IH, Hnext.
    + intros y (c' & t' & Hc' & Hds & Hr). simpl in Hc'. simplify_eq. exists t'. by split; [apply direct_supertypes_spec|].
    + intros t' d' a' Hin%direct_supertypes_spec Hr. eapply rtc_r; [exact Hd|]. by exists c, t'.
  - apply IH. rewrite <-(app_nil_r queue). apply Hnext.
    + intros y (c' & t' & Hc' & _). simpl in Hc'. congruence.
    + by intros t' d' a' ?%elem_of_nil.
Qed.

Lemma subtype_rest_complete fuel s t :
  resolve s = s -> resolve t = t -> s <> t -> is_errorish s = false -> is_errorish t = false ->
  ground s = true -> ground t = true -> Sub s t ->
  match s, t with
  | Null, _ => is_reference t || is_wildcard t = false
  | Primitive _, Primitive _ | Array _, Array _ | Array _, Class _ _ => False
  | Class _ _, Class e _ => e <> wk_object well_known
  | _, _ => True
  end -> subtype_rest rec fuel s t <> Done false.
Proof.
  intros Hrs Hrt Hne Hes Het Hgs Hgt Hsub Hearly. unfold subtype_rest.
  assert (Hwild : forall u, t = Wildcard (Extends u) -> Sub s u).
  { intros u ->. inversion Hsub as [|n id ? Hl| | | | | | | | | | | | | | | | | |]; simplify_eq/=; try done; try congruence. by rewrite Hl in Hrs. }
  assert (Hwild' : forall u, t = Wildcard (Super u) -> Sub u s).
  { intros u ->. inversion Hsub as [|n id ? Hl| | | | | | | | | | | | | | | | | |]; simplify_eq/=; try done; try congruence. by rewrite Hl in Hrs. }
  destruct t as [|p|e args|x|i|[|u|u]|l| |n|o n| |]; try done; destruct s as [|q|d a|y|j|w|k| |m|o' m| |]; try done;
    try (by apply rec_complete; [..|apply Hwild || apply Hwild']).
  all: try (simpl in Hrs; destruct (lookup_class_by_source_name m) eqn:Hm; [done|]).
  all: try (simpl in Hrt; destruct (lookup_class_by_source_name n) eqn:Hn; [done|]).
  all: try (inversion Hsub; simplify_eq/=; done).
  - apply ground_class in Hgt as [_ Hargs]. inversion Hsub as [| | | | | | | | | | | | | | | | | | | d' a' e' b args' Hp Hc]; simplify_eq.
    apply (class_search_complete fuel d a e b args); [done..|]. split_and!.
    + intros t' d' a' ->%list_elem_of_singleton [= <- <-]. apply rtc_refl.
    + by intros x y ?%elem_of_nil.
    + by intros x ?%elem_of_nil.
    + right. exists (Class d a). split; [by left|done].
  - inversion Hsub; simplify_eq; try congruence. by rewrite bool_decide_eq_true_2.
  - inversion Hsub; simplify_eq. by rewrite bool_decide_eq_true_2.
Qed.

(** The derivations that the code decides before it looks at their rule. *)
Ltac sub_cases H :=
  inversion H; simplify_eq/=; try done; try congruence;
  repeat match goal with Hl : lookup_class_by_source_name _ = Some _ |- _ => rewrite Hl in * end; try done; congruence.

Lemma subtype_match_complete fuel s t :
  resolve s = s -> resolve t = t -> s <> t -> is_errorish s = false -> is_errorish t = false ->
  ground s = true -> ground t = true -> Sub s t -> subtype_match rec fuel s t <> Done false.
Proof.
  intros Hrs Hrt Hne Hes Het Hgs Hgt Hsub. pose proof (subtype_rest_complete fuel s t Hrs Hrt Hne Hes Het Hgs Hgt Hsub) as Hrest.
  unfold subtype_match. destruct (is_void s) eqn:Hvs.
  { destruct s; try done. sub_cases Hsub. }
  destruct (is_void t) eqn:Hvt.
  { destruct t; try done. sub_cases Hsub. }
  simpl. destruct s as [|q|d a|y|j|w|k| |m|o' m| |]; try (by apply Hrest).
  - destruct t; try (by apply Hrest). sub_cases Hsub.
  - destruct t as [|p|e args|x|i|u|l| |n|o n| |]; try (by apply Hrest). case_decide; [done|by apply Hrest].
  - destruct t as [|p|e args|x|i|u|l| |n|o n| |]; try (by apply Hrest).
    + inversion Hsub as [| | | | | | | |a' def args' Hd| | | | | | | | | | |]; simplify_eq/=.
      destruct Hd as [-> | [-> | -> ]]; rewrite (bool_decide_eq_true_2 _ eq_refl), ?orb_true_r; done.
    + inversion Hsub as [| | | | | | |a b Ha Hb Hs| | | | | | | | | | | |]; simplify_eq/=.
      rewrite Ha, Hb. simpl. by apply rec_complete.
  - destruct (is_reference t || is_wildcard t) eqn:Hr; [done|by apply Hrest].
Qed.
End Complete.

Lemma is_subtype_no fuel s t :
  ground_env -> coherent -> ground s = true -> ground t = true -> Sub s t -> is_subtype fuel s t <> Done false.
Proof.
  intros Henv Hcoh. revert s t. induction fuel as [|fuel IH]; intros s t Hgs Hgt Hsub; simpl; [done|].
  case_decide as He; [done|]. pose proof (sub_resolve _ _ Hsub) as Hres.
  case_decide as Hs; [apply IH; [by apply ground_resolve|done|by apply sub_unresolve_r]|].
  case_decide as Ht; [apply IH; [done|by apply ground_resolve|by apply sub_unresolve_l]|].
  destruct (is_errorish s) eqn:Hes; [done|]. destruct (is_errorish t) eqn:Het; [done|]. simpl.
  apply subtype_match_complete; try done; by apply dec_stable.
Qed.

(** C9: Subtyping answers by the rules of the language.  An answer yes always follows from the rules
    of [Sub].  An answer no means that there is no derivation, types without a type
    variable, an intersection or a class that lacks arguments (a name that resolves counts as the class without
    arguments), in an environment where [Object] has no parameter, the supertypes of each class are such types over
    the parameters of the class, and each class has one parameterization of each supertype.  And the answer does not depend on the fuel. *)
Theorem is_subtype_exact fuel s t b :
  is_subtype fuel s t = Done b ->
  (b = true -> Sub s t) /\
  (ground_env -> coherent -> ground s = true -> ground t = true -> (b = true <-> Sub s t)) /\
  (forall fuel', fuel <= fuel' -> is_subtype fuel' s t = Done b).
Proof.
  intros H. assert (Hyes : b = true -> Sub s t) by (intros ->; by eapply is_subtype_yes). split_and!; [done| |].
  - intros Henv Hcoh Hgs Hgt. split; [done|]. intros Hsub. destruct b; [done|]. by destruct (is_subtype_no fuel s t).
  - intros fuel' Hle. by eapply is_subtype_le.
Qed.

(** ** There is an answer *)

(** No wildcard with a lower bound. *)
Fixpoint no_super (t : Ty) : bool :=
  match t with
  | Class _ args => forallb no_super args
  | Array elem => no_super elem
  | Wildcard (Extends u) => no_super u
  | Wildcard (Super _) => false
  | Intersection l => forallb no_super l
  | _ => true
  end.

(** Ranks of classes, of type variables as sources and of type variables as targets. *)
Section Terminates.
Variables crank vrank lrank : nat -> nat.

Fixpoint ty_size (t : Ty) : nat :=
  match t with
  | Class _ args => S (sum_list_with ty_size args)
  | Array elem => S (ty_size elem)
  | Wildcard (Extends u) | Wildcard (Super u) => S (ty_size u)
  | Intersection l => S (sum_list_with ty_size l)
  | Named _ => 2
  | TypeVar id => S (lrank id)
  | _ => 1
  end.

Lemma size_arg (l : list Ty) t : t ∈ l -> ty_size t <= sum_list_with ty_size l.
Proof. induction l as [|x l IH]; [by intros ?%elem_of_nil|]. intros [->|Ht]%elem_of_cons; simpl; [lia|]. specialize (IH Ht). lia. Qed.

(** How long a source is looked through before a rule with a smaller target applies. *)
Fixpoint source_rank (t : Ty) : nat :=
  match t with
  | TypeVar id => S (vrank id)
  | Intersection l => S (max_list_with source_rank l)
  | Named _ => 1
  | _ => 0
  end.

(** The supertypes of a class have lower rank; the upper bounds of a type variable too.  The lower bound of a
    type variable (only captured wildcards have one) is smaller than the variable, all it mentions included,
    and has no wildcard with a lower bound. *)
Record acyclic : Prop := {
  ac_super : forall d c t, env_class d = Some c -> cl_super_class c = Some t \/ t ∈ cl_interfaces c ->
    match resolve t with Class e _ => crank e < crank d | TypeVar _ => False | _ => True end;
  ac_object : forall d c, env_class d = Some c -> cl_kind c = ClassKind.Interface -> crank (wk_object well_known) < crank d;
  ac_bound : forall id tp b, type_param id = Some tp -> b ∈ tp_upper_bounds tp -> source_rank b <= vrank id;
  ac_lower : forall id tp l, type_param id = Some tp -> tp_lower_bound tp = Some l -> ty_size l <= lrank id /\ no_super l = true
}.
Hypothesis Hac : acyclic.

Lemma resolve_substitute t subst e b :
  resolve (substitute t subst) = Class e b ->
  match resolve t with Class e' _ => e' = e | TypeVar _ => True | _ => False end.
Proof.
  destruct t as [|p|d l|x|i|[|u|u]|l| |n|o n| |]; simpl; try done; try congruence. by destruct (lookup_class_by_source_name n); [intros [= <- <-]|].
Qed.

Lemma step_rank x y : super_step x y -> crank y.1 < crank x.1.
Proof.
  intros (c & t & Hc & Ht & Hr).
  assert (Hsub : forall i, cl_super_class c = Some i \/ i ∈ cl_interfaces c ->
    resolve (substitute i (zip (cl_type_params c) x.2)) = Class y.1 y.2 -> crank y.1 < crank x.1).
  { intros i Hi Hs. pose proof (ac_super Hac _ _ i Hc Hi) as Hrank. pose proof (resolve_substitute _ _ _ _ Hs) as He.
    destruct (resolve i); try done. by subst. }
  destruct Ht as [sc Hs|i Hi|Hk]; [apply (Hsub sc); [by left|done]|apply (Hsub i); [by right|done]|].
  simpl in Hr. injection Hr as <- _. by apply (ac_object Hac _ c).
Qed.

(** How many rounds of the search a type in the queue stands for. *)
Inductive weighs : Ty -> nat -> Prop :=
| W_leaf t : match resolve t with Class d _ => env_class d = None | _ => True end -> weighs t 1
| W_class t d a c ns : resolve t = Class d a -> env_class d = Some c -> Forall2 weighs (direct_supertypes c a) ns ->
    weighs t (S (sum_list ns)).

Lemma Forall2_exists {A B} (R : A -> B -> Prop) l : (forall x, x ∈ l -> exists y, R x y) -> exists k, Forall2 R l k.
Proof.
  induction l as [|x l IH]; intros H; [by exists []|]. destruct (H x) as [y Hy]; [by left|].
  destruct IH as [k Hk]; [intros z Hz; apply H; by right|]. exists (y :: k). by constructor.
Qed.

Lemma weighs_exists t : exists n, weighs t n.
Proof.
  assert (Hrank : forall k t, match resolve t with Class d _ => crank d < k | _ => True end -> exists n, weighs t n).
  { induction k as [|k IH]; intros u Hu.
    - exists 1. apply W_leaf. destruct (resolve u); try done. lia.
    - destruct (resolve u) as [|p|d a|x|i|w|l| |n|o n| |] eqn:Hr; try (exists 1; apply W_leaf; by rewrite Hr).
      destruct (env_class d) as [c|] eqn:Hc; [|exists 1; apply W_leaf; by rewrite Hr].
      destruct (Forall2_exists weighs (direct_supertypes c a)) as [ns Hns]; [|exists (S (sum_list ns)); by eapply W_class].
      intros v Hv%direct_supertypes_spec. apply IH. destruct (resolve v) as [| |e b| | | | | | | | |] eqn:Hrv; try done.
      assert (crank e < crank d); [|lia]. apply (step_rank (d, a) (e, b)). by exists c, v. }
  destruct (resolve t) as [|p|d a|x|i|w|l| |n|o n| |] eqn:Hr; try (apply (Hrank 0); by rewrite Hr).
  apply (Hrank (S (crank d))). rewrite Hr. lia.
Qed.

(** The search ends without the target or with the comparison of arguments. *)
Lemma class_search_ends m e args queue ns seen :
  Forall2 weighs queue ns -> sum_list ns <= m ->
  (forall rec, class_search rec m e args queue seen = Done false) \/
  exists b, forall rec, class_search rec m e args queue seen = type_args_compatible rec e b args.
Proof.
  revert queue ns seen. induction m as [|m IH]; intros queue ns seen Hq Hm; destruct Hq as [|t n queue ns Ht Hq]; [by left| |by left|].
  { simpl in Hm. assert (1 <= n) by (destruct Ht; lia). lia. }
  simpl in Hm. assert (Hn : 1 <= n) by (destruct Ht; lia). simpl.
  assert (Hskip : forall seen, (forall rec, class_search rec m e args queue seen = Done false) \/
    exists b, forall rec, class_search rec m e args queue seen = type_args_compatible rec e b args) by (intros seen'; apply (IH queue ns); [done|lia]).
  destruct (resolve t) as [|p|d a|x|i|w|l| |k|o k| |] eqn:Hr; try (by apply Hskip).
  case_decide; [by apply Hskip|]. case_decide as Hde; [subst d; right; by exists a|].
  destruct (env_class d) as [c|] eqn:Hc; [|by apply Hskip].
  destruct Ht as [t Ht|t d' a' c' ns' Hr' Hc' Hns]; [rewrite Hr in Ht; congruence|]. rewrite Hr in Hr'. injection Hr' as <- <-. simplify_eq.
  apply (IH _ (ns ++ ns')); [by apply Forall2_app|]. rewrite sum_list_with_app. unfold sum_list in *. simpl in *. lia.
Qed.

(** Enough fuel for every source. *)
Definition answers (s t : Ty) : Prop := exists fuel b, is_subtype fuel s t = Done b.

Lemma answers_list (l : list (Ty * Ty)) :
  (forall a b, (a, b) ∈ l -> answers a b) -> exists fuel, forall a b, (a, b) ∈ l -> exists x, is_subtype fuel a b = Done x.
Proof.
  induction l as [|[a b] l IH]; intros Hl; [exists 0; by intros a b ?%elem_of_nil|].
  destruct (Hl a b) as (f1 & x & Hx); [by left|]. destruct IH as [f2 Hf2]; [intros c d Hc; apply Hl; by right|].
  exists (max f1 f2). intros c d [[= -> ->]|Hc]%elem_of_cons.
  - exists x. by apply (is_subtype_le f1); [lia|].
  - destruct (Hf2 c d Hc) as [y Hy]. exists y. by apply (is_subtype_le f2); [lia|].
Qed.

Lemma any_run_Done {A} (f : A -> run bool) l : (forall x, x ∈ l -> exists b, f x = Done b) -> exists b, any_run f l = Done b.
Proof.
  induction l as [|x l IH]; intros H; [by exists false|]. simpl. destruct (H x) as [b Hb]; [by left|]. rewrite Hb. simpl.
  destruct b; [by exists true|]. apply IH. intros y Hy. apply H. by right.
Qed.

Lemma all_run_Done {A} (f : A -> run bool) l : (forall x, x ∈ l -> exists b, f x = Done b) -> exists b, all_run f l = Done b.
Proof.
  induction l as [|x l IH]; intros H; [by exists true|]. simpl. destruct (H x) as [b Hb]; [by left|]. rewrite Hb. simpl.
  destruct b; [|by exists false]. apply IH. intros y Hy. apply H. by right.
Qed.

Lemma answers_rest s t :
  (exists fuel b, subtype_match (is_subtype fuel) fuel s t = Done b) -> resolve s = s -> resolve t = t -> answers s t.
Proof.
  intros (fuel & b & Hb) Hs Ht. exists (S fuel). simpl. case_decide; [by eexists|].
  case_decide as H1; [by rewrite Hs in H1|]. case_decide as H2; [by rewrite Ht in H2|]. case_match; [by eexists|]. by exists b.
Qed.

Lemma compatible_Done fuel e b args :
  (forall x u, (x, u) ∈ zip b args -> exists y, type_arg_contained_by (is_subtype fuel) x u = Done y) ->
  exists y, type_args_compatible (is_subtype fuel) e b args = Done y.
Proof.
  intros Hall. unfold type_args_compatible. fold (is_generic e). destruct (bool_decide (args = []) && is_generic e); [by eexists|].
  destruct (bool_decide (b = []) && is_generic e); [by eexists|]. case_decide; [|by eexists]. apply all_run_Done.
  intros [x u] Hx. by apply Hall.
Qed.

(** One argument against another asks about the bound of the target. *)
Lemma contained_asks x u :
  no_super u = true ->
  (exists y, forall rec, type_arg_contained_by rec x u = Done y) \/
  exists s v, ty_size v < ty_size u /\ no_super v = true /\ forall rec, type_arg_contained_by rec x u = rec s v.
Proof.
  intros Hn. unfold type_arg_contained_by. destruct u as [|p|d l|z|i|[|v|v]|l| |n|o n| |]; try done; try (left; by eexists).
  destruct x as [|q|d l|z|i|[|w|w]|l| |n|o n| |]; try (right; eexists _, v; split_and!; [simpl; lia|done|reflexivity]). left. by eexists.
Qed.

Lemma class_answers d a e args :
  (forall s v, ty_size v < ty_size (Class e args) -> no_super v = true -> answers s v) -> no_super (Class e args) = true ->
  exists fuel b, forall fuel', fuel <= fuel' -> class_search (is_subtype fuel') fuel' e args [Class d a] [] = Done b.
Proof.
  intros IH Hns. destruct (weighs_exists (Class d a)) as [n Hn].
  destruct (class_search_ends n e args [Class d a] [n] [] ltac:(by repeat constructor) ltac:(unfold sum_list; simpl; lia)) as [Hno|[b Hb]].
  { exists n, false. intros f Hf. eapply class_search_le; [|exact Hf|apply Hno]. intros x y z Hz. exact Hz. }
  assert (Hall : exists fuel, forall x u, (x, u) ∈ zip b args -> exists y, type_arg_contained_by (is_subtype fuel) x u = Done y).
  { assert (Hsmall : forall x u, (x, u) ∈ zip b args -> ty_size u < ty_size (Class e args) /\ no_super u = true).
    { intros x u Hx%elem_of_zip_r. split; [simpl; pose proof (size_arg _ _ Hx); lia|].
      simpl in Hns. apply forallb_Forall_true in Hns. rewrite Forall_forall in Hns. by apply Hns. }
    revert Hsmall. generalize (zip b args). induction l as [|[x u] l IHl]; intros Hsmall; [exists 0; by intros x u ?%elem_of_nil|].
    destruct IHl as [f Hf]; [intros y v Hy; apply (Hsmall y); by right|]. destruct (Hsmall x u) as [Hsz Hu]; [by left|].
    assert (Hx : exists g y, type_arg_contained_by (is_subtype g) x u = Done y).
    { destruct (contained_asks x u Hu) as [[y Hy]|(s' & v & Hv & Hvn & Hask)]; [by exists 0, y|].
      destruct (IH s' v) as (g & y & Hy); [lia|done|]. exists g, y. by rewrite Hask. }
    destruct Hx as (g & y & Hy). exists (max f g). intros x' u' [[= -> ->]|Hin]%elem_of_cons.
    - exists y. eapply contained_le; [|exact Hy]. apply is_subtype_le. lia.
    - destruct (Hf x' u' Hin) as [z Hz]. exists z. eapply contained_le; [|exact Hz]. apply is_subtype_le. lia. }
  destruct Hall as [f Hf]. destruct (compatible_Done f e b args Hf) as [y Hy]. exists (max f n), y. intros f' Hf'.
  apply (class_search_le (is_subtype f) (is_subtype f') (is_subtype_le f f' ltac:(lia)) n f'); [lia|]. by rewrite Hb.
Qed.

Lemma max_list_with_le {A} (f : A -> nat) l x : x ∈ l -> f x <= max_list_with f l.
Proof. induction l as [|y l IH]; [by intros ?%elem_of_nil|]. intros [->|Hx]%elem_of_cons; simpl; [lia|]. specialize (IH Hx). lia. Qed.

(** A source that is looked through. *)
Lemma source_answers s t :
  (forall s', source_rank s' < source_rank s -> answers s' t) ->
  exists fuel b, match s with
    | Intersection types => any_run (fun s' => is_subtype fuel s' t) types
    | TypeVar id => match type_param id with Some tp => any_run (fun s' => is_subtype fuel s' t) (tp_upper_bounds tp) | None => Done false end
    | _ => Done false
    end = Done b.
Proof.
  intros IHs. assert (Hany : forall l, (forall s', s' ∈ l -> source_rank s' < source_rank s) -> exists fuel b, any_run (fun s' => is_subtype fuel s' t) l = Done b).
  { intros l Hl. destruct (answers_list ((fun s' => (s', t)) <$> l)) as [f Hf].
    - intros a b (v & [= -> ->] & Hv)%list_elem_of_fmap. by apply IHs, Hl.
    - exists f. apply any_run_Done. intros v Hv. apply Hf. apply list_elem_of_fmap. by exists v. }
  destruct s as [|p|d l|x|i|w|l| |n|o n| |]; try (by exists 0, false).
  - destruct (type_param i) as [tp|] eqn:Hp; [|by exists 0, false]. apply Hany. intros b Hb. simpl. pose proof (ac_bound Hac i tp b Hp Hb). lia.
  - apply Hany. intros v Hv. simpl. apply Nat.lt_succ_r. by apply max_list_with_le.
Qed.

Lemma subtype_rest_answers s t :
  (forall s' v, ty_size v < ty_size t -> no_super v = true -> answers s' v) ->
  (forall s', source_rank s' < source_rank s -> answers s' t) -> no_super t = true ->
  exists fuel b, subtype_rest (is_subtype fuel) fuel s t = Done b.
Proof.
  intros IHt IHs Hns. pose proof (source_answers s t IHs) as Hsrc. unfold subtype_rest.
  destruct t as [|p|e args|x|i|w|l| |n|o n| |].
  7:{ destruct (answers_list ((fun t => (s, t)) <$> l)) as [f Hf].
    - intros a b (v & [= -> ->] & Hv)%list_elem_of_fmap. apply IHt; [simpl; pose proof (size_arg _ _ Hv); lia|].
      simpl in Hns. apply forallb_Forall_true in Hns. rewrite Forall_forall in Hns. by apply Hns.
    - exists f. apply all_run_Done. intros v Hv. apply Hf. apply list_elem_of_fmap. by exists v. }
  3:{ destruct s as [|q|d a|y|j|u|k| |m|o' m| |]; try exact Hsrc; try (exists 0; by eexists).
    destruct (class_answers d a e args IHt Hns) as (f & b & Hf). exists f, b. by apply Hf. }
  4:{ assert (Hlow : exists fuel b, match type_param i ≫= tp_lower_bound with Some l => is_subtype fuel s l | None => Done false end = Done b).
    { destruct (type_param i) as [tp|] eqn:Hp; [|exists 0; by eexists]. simpl.
      destruct (tp_lower_bound tp) as [l|] eqn:Hl; [|exists 0; by eexists].
      destruct (ac_lower Hac i tp l Hp Hl) as [Hsz Hn]. apply IHt; [simpl; lia|done]. }
    destruct s; try exact Hsrc; exact Hlow. }
  4:{ destruct w as [|u|u]; [destruct s; try exact Hsrc; exists 0; by eexists| |done].
    destruct (IHt s u ltac:(simpl; lia) Hns) as (f & b & Hf). destruct s; try exact Hsrc; by exists f, b. }
  all: destruct s; try exact Hsrc; exists 0; by eexists.
Qed.

Lemma subtype_match_answers s t :
  (forall s' v, ty_size v < ty_size t -> no_super v = true -> answers s' v) ->
  (forall s', source_rank s' < source_rank s -> answers s' t) -> no_super t = true ->
  exists fuel b, subtype_match (is_subtype fuel) fuel s t = Done b.
Proof.
  intros IHt IHs Hns. destruct (subtype_rest_answers s t IHt IHs Hns) as (f & b & Hrest). unfold subtype_match.
  case_match; [exists 0; by eexists|]. destruct s as [|q|d a|y|j|u|k| |m|o' m| |]; try (exists f; by exists b).
  - destruct t; try (exists f; by exists b). exists 0. by eexists.
  - destruct t as [|p|e args|x|i|w|l| |n|o n| |]; try (exists f; by exists b). case_decide; [exists 0; by eexists|exists f; by exists b].
  - destruct t as [|p|e args|x|i|w|l| |n|o n| |]; try (exists f; by exists b); [exists 0; by eexists|].
    case_match; [|exists 0; by eexists]. apply (IHt y x); [simpl; lia|done].
  - case_match; [exists 0; by eexists|exists f; by exists b].
Qed.

Lemma answers_unresolve_l s t : resolve s <> s -> answers (resolve s) t -> answers s t.
Proof.
  intros Hs (f & b & Hb). exists (S f). simpl. case_decide; [by eexists|]. case_decide as H1; [by exists b|done].
Qed.

Lemma answers_unresolve_r s t : resolve s = s -> resolve t <> t -> answers s (resolve t) -> answers s t.
Proof.
  intros Hs Ht (f & b & Hb). exists (S f). simpl. case_decide; [by eexists|].
  case_decide as H1; [by rewrite Hs in H1|]. case_decide as H2; [by exists b|done].
Qed.

Lemma always_answers n : forall t, ty_size t <= n -> no_super t = true -> forall s, answers s t.
Proof.
  induction n as [|n IHn]; intros t Hsz Hns; [destruct t as [| | | | |[]| | | | | |]; simpl in Hsz; lia|].
  assert (Hrank : forall k s, source_rank s < k -> answers s t); [|intros s; apply (Hrank (S (source_rank s))); lia].
  induction k as [|k IHk]; intros s Hk; [lia|]. destruct (decide (resolve s = s)) as [Hs|Hs].
  - destruct (decide (resolve t = t)) as [Ht|Ht].
    + apply answers_rest; [|done|done]. apply subtype_match_answers; [|intros s' Hs'; apply IHk; lia|done].
      intros s' v Hv Hvn. apply IHn; [lia|done].
    + apply answers_unresolve_r; [done|done|]. apply IHn; destruct t; try done; simpl in *; destruct (lookup_class_by_source_name name); simpl; done || lia.
  - apply answers_unresolve_l; [done|]. apply IHk. destruct s; try done. simpl in *. destruct (lookup_class_by_source_name name); simpl; done || lia.
Qed.

(** C10: Subtyping has an answer.  Take an environment in which the class hierarchy and the upper bounds have
    no cycle (a bound may still mention its own variable, as in [T extends Comparable<T>], and a superclass may
    nest its parameters), and in which the lower bound of a captured variable neither leads back to the variable,
    not even in its arguments, nor has a wildcard with a lower bound.  For every source and every target
    without a wildcard with a lower bound, [is_subtype] returns, from some fuel on. *)
Theorem is_subtype_terminates s t :
  no_super t = true -> exists fuel b, forall fuel', fuel <= fuel' -> is_subtype fuel' s t = Done b.
Proof.
  intros Hns. destruct (always_answers (ty_size t) t (Nat.le_refl _) Hns s) as (f & b & Hb). exists f, b. intros f' Hf'.
  by eapply is_subtype_le.
Qed.

End Terminates.
End Exact.

(** ** Environments *)

(** An environment from its classes; the first one is [Object]. *)
Definition list_env (classes : list ClassDef) (params : list TypeParamDef) : TypeEnv := {|
  env_class := fun id => classes !! id;
  type_param := fun id => params !! id;
  lookup_class := fun name => fst <$> list_find (fun c => cl_name c = name) classes;
  well_known := mkWellKnown 0 1 1 100 100
|}.

Definition class_def (name : string) (kind : ClassKind.t) (params : list TypeVarId) (sup : option Ty) (ifaces : list Ty) : ClassDef :=
  mkClass (lit name) kind params sup ifaces [] [] [].

Definition object0 : ClassDef := class_def "java.lang.Object" ClassKind.Class [] None [].

(** [interface N<Z>] and [class C implements N<N<? super C>>]. *)
Definition loop_env : TypeEnv := list_env
  [object0; class_def "N" ClassKind.Interface [0] None [];
   class_def "C" ClassKind.Class [] (Some (Class 0 [])) [Class 1 [Class 1 [Wildcard (Super (Class 2 []))]]]]
  [mkTypeParam (lit "Z") [Class 0 []] None].
Definition loop_c : Ty := Class 2 [].
Definition loop_target : Ty := Class 1 [Wildcard (Super (Class 2 []))].

Lemma loop_step rec fuel :
  @subtype_match loop_env rec (S (S (S fuel))) loop_c loop_target = (b ← rec loop_c loop_target; if b : bool then Done true else Done false).
Proof. vm_compute. reflexivity. Qed.

(** C12: Subtyping need not have an answer.  For the class [C implements N<N<? super C>>], which is a
    legal declaration without a cycle, the question whether [C] is a subtype of [N<? super C>]
    leads to itself: whatever fuel there is, it runs out, and the program overflows its stack. *)
Theorem is_subtype_diverges :
  (exists crank vrank lrank, @acyclic loop_env crank vrank lrank) /\ forall fuel, @is_subtype loop_env fuel loop_c loop_target = OutOfFuel.
Proof.
  split.
  - exists (fun d => d), (fun _ => 0), (fun _ => 0). split.
    + intros [|[|[|d]]] c t; simpl; [..|done]; intros [= <-] [Ht|Ht]; simplify_eq/=; try lia; try (by apply elem_of_nil in Ht).
      apply list_elem_of_singleton in Ht as ->. simpl. lia.
    + intros [|[|[|d]]] c; simpl; [..|done]; intros [= <-]; simpl; (done || lia).
    + intros [|id] tp b; simpl; [|done]. intros [= <-]. simpl. intros ->%list_elem_of_singleton. simpl. lia.
    + intros [|id] tp l; simpl; [|done]. by intros [= <-].
  - induction fuel as [|fuel IH]; [done|]. destruct fuel as [|[|[|fuel]]]; [vm_compute; reflexivity..|].
    change (@is_subtype loop_env (S (S (S (S fuel)))) loop_c loop_target) with
      (@subtype_match loop_env (@is_subtype loop_env (S (S (S fuel)))) (S (S (S fuel))) loop_c loop_target).
    by rewrite loop_step, IH.
Qed.

(** A type variable [T], and the capture of [? super T]. *)
Definition capture_env : TypeEnv := list_env [object0]
  [mkTypeParam (lit "T") [Class 0 []] None; mkTypeParam (lit "CAP#1") [Class 0 []] (Some (TypeVar 0))].

(** The lower bound of a captured wildcard is not seen from a type variable.  [T] is a subtype of
    the capture of [? super T] by its lower bound, but [is_subtype] looks only at the upper bounds of a
    variable on the left and says no, so that adding a [T] to a [List<? super T>] is rejected. *)
Theorem lower_bound_not_seen :
  @Sub capture_env (TypeVar 0) (TypeVar 1) /\ forall fuel, 4 <= fuel -> @is_subtype capture_env fuel (TypeVar 0) (TypeVar 1) = Done false.
Proof.
  split; [eapply (@S_var_lower capture_env); [done|reflexivity|reflexivity|apply (@S_refl capture_env)]|].
  intros fuel Hf. apply (@is_subtype_le capture_env 4 fuel Hf). vm_compute. reflexivity.
Qed.

(** Lists of Java: [interface List<E>] and [class ArrayList<E> implements List<E>]. *)
Definition list_classes : TypeEnv := list_env
  [object0; class_def "java.lang.String" ClassKind.Class [] (Some (Class 0 [])) [];
   class_def "List" ClassKind.Interface [0] None [];
   class_def "ArrayList" ClassKind.Class [1] (Some (Class 0 [])) [Class 2 [TypeVar 1]]]
  [mkTypeParam (lit "E") [Class 0 []] None; mkTypeParam (lit "E") [Class 0 []] None].

Lemma list_classes_ground : @ground_env list_classes.
Proof.
  split; [done|]. intros [|[|[|[|d]]]] c t; simpl; [..|done]; intros [= <-] [Ht|Ht]; simplify_eq/=; try done;
    try (by apply elem_of_nil in Ht). apply list_elem_of_singleton in Ht as ->. vm_compute. reflexivity.
Qed.

Lemma list_classes_step d a y :
  @ground list_classes (Class d a) = true -> @super_step list_classes (d, a) y -> y = (0, []) \/ (d = 3 /\ y = (2, a)).
Proof.
  intros Hg (c & t & Hc & Ht & Hr). destruct y as [e b]. simpl in *. apply (@ground_class list_classes) in Hg as [Hlen _].
  assert (Hcase : forall i, cl_super_class c = Some i \/ i ∈ cl_interfaces c -> i = Class 0 [] \/ (d = 3 /\ i = Class 2 [TypeVar 1])).
  { intros i. destruct d as [|[|[|[|d]]]]; simpl in Hc; simplify_eq; simpl; intros [Hi|Hi]; simplify_eq; try (by left);
      try (by apply elem_of_nil in Hi). apply list_elem_of_singleton in Hi as ->. by right. }
  assert (Hsub : forall i, cl_super_class c = Some i \/ i ∈ cl_interfaces c ->
    @resolve list_classes (substitute i (zip (cl_type_params c) a)) = Class e b -> (e, b) = (0, []) \/ (d = 3 /\ (e, b) = (2, a))).
  { intros i [->|[-> ->]]%Hcase; [intros [= <- <-]; by left|]. simpl in Hc. simplify_eq. destruct a as [|x [|x' a]]; try done.
    intros [= <- <-]. right. done. }
  destruct Ht as [sc Hsc|i Hi|_]; [by apply (Hsub sc); [left|]|by apply (Hsub i); [right|]|]. simpl in Hr. left. by injection Hr as <- <-.
Qed.

Lemma list_classes_path x y :
  rtc (@super_step list_classes) x y -> @ground list_classes (Class x.1 x.2) = true ->
  y = x \/ y = (0, []) \/ (x.1 = 3 /\ y = (2, x.2)).
Proof.
  induction 1 as [x|x y z Hs _ IH]; intros Hg; [by left|]. pose proof (ground_step _ _ list_classes_ground Hs Hg) as Hgy.
  destruct x as [d a]. destruct (list_classes_step d a y Hg Hs) as [->|[-> ->]]; simpl in *.
  - destruct (IH Hgy) as [->|[->|[? _]]]; [by right; left..|done].
  - destruct (IH Hgy) as [->|[->|[? _]]]; [by right; right|by right; left|done].
Qed.

Lemma list_classes_coherent : @coherent list_classes.
Proof.
  intros d a e b b' Hg H1 H2. apply list_classes_path in H1, H2; [|done..]. apply (@ground_class list_classes) in Hg as [Hlen _].
  destruct H1 as [|[|[]]], H2 as [|[|[]]]; simplify_eq/=; try done; by match goal with H : length ?l = _ |- _ => destruct l end.
Qed.

(** [ArrayList<String>] is a [List<? extends Object>], and not a [List<Object>]. *)
Lemma is_subtype_exact_witness :
  @Sub list_classes (Class 3 [Class 1 []]) (Class 2 [Wildcard (Extends (Class 0 []))]) /\
  ~ @Sub list_classes (Class 3 [Class 1 []]) (Class 2 [Class 0 []]).
Proof.
  assert (Hyes : @is_subtype list_classes 6 (Class 3 [Class 1 []]) (Class 2 [Wildcard (Extends (Class 0 []))]) = Done true) by (vm_compute; reflexivity).
  assert (Hno : @is_subtype list_classes 6 (Class 3 [Class 1 []]) (Class 2 [Class 0 []]) = Done false) by (vm_compute; reflexivity).
  split; [exact (proj1 (is_subtype_exact _ _ _ _ Hyes) eq_refl)|]. intros Hs.
  destruct (proj1 (proj2 (is_subtype_exact _ _ _ _ Hno)) list_classes_ground list_classes_coherent eq_refl eq_refl) as [_ Hbad].
  specialize (Hbad Hs). discriminate.
Defined.

Lemma list_classes_acyclic : @acyclic list_classes (fun d => d) (fun _ => 0) (fun _ => 0).
Proof.
  split.
  - intros [|[|[|[|d]]]] c t; simpl; [..|done]; intros [= <-] [Ht|Ht]; simplify_eq/=; try lia; try (by apply elem_of_nil in Ht).
    apply list_elem_of_singleton in Ht as ->. simpl. lia.
  - intros [|[|[|[|d]]]] c; simpl; [..|done]; intros [= <-]; simpl; (done || lia).
  - intros [|[|id]] tp b; simpl; [..|done]; intros [= <-]; simpl; intros ->%list_elem_of_singleton; simpl; lia.
  - intros [|[|id]] tp l; simpl; [..|done]; by intros [= <-].
Qed.

Lemma capture_env_acyclic : @acyclic capture_env (fun d => d) (fun _ => 0) (fun id => id).
Proof.
  split.
  - intros [|d] c t; simpl; [|done]; intros [= <-] [Ht|Ht]; simplify_eq/=. by apply elem_of_nil in Ht.
  - intros [|d] c; simpl; [|done]; by intros [= <-].
  - intros [|[|id]] tp b; simpl; [..|done]; intros [= <-]; simpl; intros ->%list_elem_of_singleton; simpl; lia.
  - intros [|[|id]] tp l; simpl; [..|done]; intros [= <-]; simpl; [done|]. intros [= <-]. simpl. split; [lia|done].
Qed.

Lemma is_subtype_terminates_witness :
  (exists fuel b, @is_subtype list_classes fuel (Class 3 [Wildcard (Super (Class 1 []))]) (Class 2 [Wildcard (Extends (Array (Class 1 [])))]) = Done b) /\
  exists fuel b, @is_subtype capture_env fuel (Array (TypeVar 0)) (Array (TypeVar 1)) = Done b.
Proof.
  split.
  - destruct (is_subtype_terminates (E := list_classes) (fun d => d) (fun _ => 0) (fun _ => 0) list_classes_acyclic
      (Class 3 [Wildcard (Super (Class 1 []))]) (Class 2 [Wildcard (Extends (Array (Class 1 [])))]) eq_refl) as (f & b & Hf).
    exists f, b. by apply Hf.
  - destruct (is_subtype_terminates (E := capture_env) (fun d => d) (fun _ => 0) (fun id => id) capture_env_acyclic
      (Array (TypeVar 0)) (Array (TypeVar 1)) eq_refl) as (f & b & Hf).
    exists f, b. by apply Hf.
Defined.

(** [interface N<Z>], [class D implements N<D>], and a variable with the lower bound [N<? extends CAP#1>]. *)
Definition lower_env : TypeEnv := list_env
  [object0; class_def "N" ClassKind.Interface [0] None []; class_def "D" ClassKind.Class [] (Some (Class 0 [])) [Class 1 [Class 2 []]]]
  [mkTypeParam (lit "Z") [Class 0 []] None; mkTypeParam (lit "CAP#1") [Class 0 []] (Some (Class 1 [Wildcard (Extends (TypeVar 1))]))].

Definition lower_d : Ty := Class 2 [].
Definition lower_var : Ty := TypeVar 1.
Definition lower_bound : Ty := Class 1 [Wildcard (Extends (TypeVar 1))].

Lemma lower_var_step rec fuel : @subtype_match lower_env rec fuel lower_d lower_var = rec lower_d lower_bound.
Proof. vm_compute. reflexivity. Qed.

Lemma lower_bound_step rec fuel :
  @subtype_match lower_env rec (S (S (S fuel))) lower_d lower_bound = (b ← rec lower_d lower_var; if b : bool then Done true else Done false).
Proof. vm_compute. reflexivity. Qed.

(** A lower bound that mentions its own variable.  An upper bound may do so; with a lower bound, the question
    whether [D] is a subtype of the variable leads to itself, and there is no answer. *)
Theorem lower_bound_diverges fuel : @is_subtype lower_env fuel lower_d lower_var = OutOfFuel.
Proof.
  induction fuel as [fuel IH] using (well_founded_induction lt_wf). destruct fuel as [|[|[|[|[|fuel]]]]]; [vm_compute; reflexivity..|].
  change (@is_subtype lower_env (S (S (S (S (S fuel))))) lower_d lower_var) with
    (@subtype_match lower_env (@is_subtype lower_env (S (S (S (S fuel))))) (S (S (S (S fuel)))) lower_d lower_var).
  rewrite lower_var_step.
  change (@is_subtype lower_env (S (S (S (S fuel)))) lower_d lower_bound) with
    (@subtype_match lower_env (@is_subtype lower_env (S (S (S fuel)))) (S (S (S fuel))) lower_d lower_bound).
  rewrite lower_bound_step, IH by lia. done.
Qed.
