(* ===== verification/Conversions.v ===== *)
(** * Conversions between types (crates/nova-types/src/lib.rs)

    Strict and loose method invocation, assignment (with constants) and casts, and numeric
    promotion.  The conversions call [is_subtype], [unbox] and [erasure], which recurse without a
    measure: the model has fuel for each of them, and a conversion that is out of fuel has no
    result.  The reference describes what each step of a conversion does to a type, and which
    sequences of steps a context permits. *)

From stdpp Require Import base numbers option strings gmap relations list.
From S2P Require Import Prelude Str Sorting Types Subtype SubtypeExact.

(** ** Data *)

Module ConstValue.
Inductive t := Int (value : Z) | Boolean (value : bool).
End ConstValue.

Module UncheckedReason.
Inductive t := RawConversion | UncheckedCast | UncheckedVarargs.
End UncheckedReason.

Module TypeWarning.
Inductive t := Unchecked (reason : UncheckedReason.t) | StaticAccessViaInstance.
End TypeWarning.

Module Step.
Inductive t :=
| Identity
| WideningPrimitive
| NarrowingPrimitive
| WideningReference
| NarrowingReference
| Boxing
| Unboxing
| Unchecked.
End Step.

#[global] Instance reason_eq_dec : EqDecision UncheckedReason.t.
Proof. solve_decision. Defined.
#[global] Instance warning_eq_dec : EqDecision TypeWarning.t.
Proof. solve_decision. Defined.
#[global] Instance step_eq_dec : EqDecision Step.t.
Proof. solve_decision. Defined.

Record Conversion := mkConversion { cv_steps : list Step.t; cv_warnings : list TypeWarning.t }.

Definition conversion_new (step : Step.t) : Conversion := mkConversion [step] [].
Definition push_step (step : Step.t) (c : Conversion) : Conversion := mkConversion (cv_steps c ++ [step]) (cv_warnings c).
Definition push_warning (w : TypeWarning.t) (c : Conversion) : Conversion := mkConversion (cv_steps c) (cv_warnings c ++ [w]).
Definition warn_if (b : bool) (r : UncheckedReason.t) (c : Conversion) : Conversion :=
  if b then push_warning (TypeWarning.Unchecked r) c else c.

Definition unary_numeric_promotion (from : PrimitiveType) : option PrimitiveType :=
  match from with
  | PrimitiveType.Byte | PrimitiveType.Short | PrimitiveType.Char => Some PrimitiveType.Int
  | PrimitiveType.Int | PrimitiveType.Long | PrimitiveType.Float | PrimitiveType.Double => Some from
  | PrimitiveType.Boolean => None
  end.

Definition binary_numeric_promotion (a b : PrimitiveType) : option PrimitiveType :=
  let either p := bool_decide (a = p) || bool_decide (b = p) in
  if negb (PrimitiveType.is_numeric a) || negb (PrimitiveType.is_numeric b) then None
  else
    Some (if either PrimitiveType.Double then PrimitiveType.Double
          else if either PrimitiveType.Float then PrimitiveType.Float
          else if either PrimitiveType.Long then PrimitiveType.Long
          else PrimitiveType.Int).

Definition primitive_narrowing (from to : PrimitiveType) : bool :=
  bool_decide (from = to) || (PrimitiveType.is_numeric from && PrimitiveType.is_numeric to).

(** The values are 64-bit integers. *)
Definition value_representable_in_primitive (value : Z) (ty : PrimitiveType) : bool :=
  match ty with
  | PrimitiveType.Byte => (-2 ^ 7 <=? value)%Z && (value <=? 2 ^ 7 - 1)%Z
  | PrimitiveType.Short => (-2 ^ 15 <=? value)%Z && (value <=? 2 ^ 15 - 1)%Z
  | PrimitiveType.Char => (0 <=? value)%Z && (value <=? 2 ^ 16 - 1)%Z
  | PrimitiveType.Int => (-2 ^ 31 <=? value)%Z && (value <=? 2 ^ 31 - 1)%Z
  | PrimitiveType.Long => true
  | PrimitiveType.Float | PrimitiveType.Double | PrimitiveType.Boolean => false
  end.

Definition box_name (p : PrimitiveType) : str :=
  match p with
  | PrimitiveType.Boolean => lit "java.lang.Boolean"
  | PrimitiveType.Byte => lit "java.lang.Byte"
  | PrimitiveType.Short => lit "java.lang.Short"
  | PrimitiveType.Char => lit "java.lang.Character"
  | PrimitiveType.Int => lit "java.lang.Integer"
  | PrimitiveType.Long => lit "java.lang.Long"
  | PrimitiveType.Float => lit "java.lang.Float"
  | PrimitiveType.Double => lit "java.lang.Double"
  end.

Definition primitives : list PrimitiveType :=
  [PrimitiveType.Boolean; PrimitiveType.Byte; PrimitiveType.Short; PrimitiveType.Char; PrimitiveType.Int; PrimitiveType.Long;
   PrimitiveType.Float; PrimitiveType.Double].

Definition unbox_class_name (name : str) : option PrimitiveType := snd <$> list_find (fun p => name = box_name p) primitives.

Module Castability.
Inductive t := Yes | No | Uncertain.
End Castability.

(** The costs in their order. *)
Module ConversionCost.
Inductive t := Identity | Widening | Boxing | Unchecked | Narrowing.

Definition rank (c : t) : nat := match c with Identity => 0 | Widening => 1 | Boxing => 2 | Unchecked => 3 | Narrowing => 4 end.
Definition max (a b : t) : t := if rank a <? rank b then b else a.
End ConversionCost.

Definition step_cost (step : Step.t) : ConversionCost.t :=
  match step with
  | Step.Identity => ConversionCost.Identity
  | Step.WideningPrimitive | Step.WideningReference => ConversionCost.Widening
  | Step.Boxing | Step.Unboxing => ConversionCost.Boxing
  | Step.Unchecked => ConversionCost.Unchecked
  | Step.NarrowingPrimitive | Step.NarrowingReference => ConversionCost.Narrowing
  end.

Definition conversion_cost (conv : Conversion) : ConversionCost.t :=
  let cost := foldl (fun cost step => ConversionCost.max cost (step_cost step)) ConversionCost.Identity (cv_steps conv) in
  if existsb (fun w => match w with TypeWarning.Unchecked _ => true | _ => false end) (cv_warnings conv)
  then ConversionCost.max cost ConversionCost.Unchecked else cost.

Section Conversions.
Context `{E : TypeEnv}.

(** ** Operations *)

(** [canonicalize_named] is [resolve]. *)

Definition boxing_type (p : PrimitiveType) : option Ty := (fun id => Class id []) <$> lookup_class (box_name p).

Fixpoint unbox (fuel : nat) (from : Ty) : run (option PrimitiveType) :=
  match fuel with
  | O => OutOfFuel
  | S fuel =>
      match from with
      | Class def _ => Done (env_class def ≫= fun c => unbox_class_name (cl_name c))
      | TypeVar id =>
          match type_param id ≫= fun tp => head (tp_upper_bounds tp) with Some b => unbox fuel b | None => Done None end
      | _ => Done None
      end
  end.

Definition is_raw_class (def : ClassId) (args : list Ty) : bool := bool_decide (args = []) && is_generic def.

Definition raw_warning (from to : Ty) : bool :=
  match from, to with
  | Class f f_args, Class t t_args =>
      let from_raw := is_raw_class f f_args in
      let to_raw := is_raw_class t t_args in
      let from_param := negb from_raw && negb (bool_decide (f_args = [])) in
      let to_param := negb to_raw && negb (bool_decide (t_args = [])) in
      (from_raw && to_param) || (to_raw && from_param)
  | _, _ => false
  end.

Fixpoint erasure (fuel : nat) (ty : Ty) : run Ty :=
  match fuel with
  | O => OutOfFuel
  | S fuel =>
      match ty with
      | Class def _ => Done (Class def [])
      | Array elem => e ← erasure fuel elem; Done (Array e)
      | TypeVar id =>
          match type_param id ≫= fun tp => head (tp_upper_bounds tp) with Some b => erasure fuel b | None => Done object_ty end
      | Intersection types => match head types with Some t => erasure fuel t | None => Done object_ty end
      | Wildcard _ => Done object_ty
      | Named name => Done (match lookup_class_by_source_name name with Some id => Class id [] | None => object_ty end)
      | other => Done other
      end
  end.

Definition raw_conversion (step : Step.t) : Conversion :=
  push_warning (TypeWarning.Unchecked UncheckedReason.RawConversion) (conversion_new step).

(** From a parameterized type to a raw one. *)
Definition param_to_raw (fuel : nat) (f : ClassId) (f_args : list Ty) (t : ClassId) (t_args : list Ty) : run (option Conversion) :=
  if negb (is_raw_class f f_args) && negb (bool_decide (f_args = [])) && is_raw_class t t_args then
    b ← is_subtype fuel (Class f f_args) (Class t t_args);
    Done (if b : bool then Some (raw_conversion Step.WideningReference) else None)
  else Done None.

Definition unchecked_raw_conversion (fuel : nat) (from to : Ty) : run (option Conversion) :=
  match from, to with
  | Class f f_args, Class t t_args =>
      if is_raw_class f f_args && negb (is_raw_class t t_args) && negb (bool_decide (t_args = [])) then
        from_er ← erasure fuel from;
        to_er ← erasure fuel to;
        b ← is_subtype fuel from_er to_er;
        if b : bool then Done (Some (raw_conversion Step.Unchecked)) else param_to_raw fuel f f_args t t_args
      else param_to_raw fuel f f_args t t_args
  | _, _ => Done None
  end.

Definition strict_method_invocation_conversion (fuel : nat) (from to : Ty) : run (option Conversion) :=
  let from := resolve from in
  let to := resolve to in
  let by_subtype :=
    if is_reference from && is_reference to then
      b ← is_subtype fuel from to;
      Done (if b : bool then Some (warn_if (raw_warning from to) UncheckedReason.RawConversion (conversion_new Step.WideningReference)) else None)
    else Done None in
  if decide (from = to) then Done (Some (conversion_new Step.Identity))
  else
    match from, to with
    | Null, _ => if is_reference to || is_wildcard to then Done (Some (conversion_new Step.WideningReference)) else by_subtype
    | Primitive a, Primitive b => if primitive_widening a b then Done (Some (conversion_new Step.WideningPrimitive)) else by_subtype
    | _, _ => by_subtype
    end.

(** A boxed value, as it is or widened. *)
Definition box_to (fuel : nat) (c : Conversion) (boxed to : Ty) : run (option Conversion) :=
  let c := push_step Step.Boxing c in
  if decide (boxed = to) then Done (Some c)
  else if is_reference boxed && is_reference to then
    b ← is_subtype fuel boxed to;
    Done (if b : bool then Some (warn_if (raw_warning boxed to) UncheckedReason.RawConversion (push_step Step.WideningReference c)) else None)
  else Done None.

Definition numeric_targets : list PrimitiveType :=
  [PrimitiveType.Byte; PrimitiveType.Short; PrimitiveType.Char; PrimitiveType.Int; PrimitiveType.Long; PrimitiveType.Float; PrimitiveType.Double].

(** The loop over widened types. *)
Fixpoint widen_box (fuel : nat) (p : PrimitiveType) (targets : list PrimitiveType) (to : Ty) : run (option Conversion) :=
  match targets with
  | [] => Done None
  | widened :: targets =>
      if decide (widened = p) then widen_box fuel p targets to
      else if negb (primitive_widening p widened) then widen_box fuel p targets to
      else
        match boxing_type widened with
        | None => widen_box fuel p targets to
        | Some boxed =>
            r ← box_to fuel (conversion_new Step.WideningPrimitive) boxed to;
            match r with Some c => Done (Some c) | None => widen_box fuel p targets to end
        end
  end.

(** The part for primitive types. *)
Definition box_conversion (fuel : nat) (p : PrimitiveType) (to : Ty) : run (option Conversion) :=
  r ← match boxing_type p with Some boxed => box_to fuel (mkConversion [] []) boxed to | None => Done None end;
  match r with
  | Some c => Done (Some c)
  | None => if is_reference to then widen_box fuel p numeric_targets to else Done None
  end.

Definition unbox_conversion (fuel : nat) (from to : Ty) : run (option Conversion) :=
  u ← unbox fuel from;
  Done (match u, to with
        | Some unboxed, Primitive target =>
            if decide (unboxed = target) then Some (conversion_new Step.Unboxing)
            else if primitive_widening unboxed target then Some (push_step Step.WideningPrimitive (conversion_new Step.Unboxing))
            else None
        | _, _ => None
        end).

(** The first conversion that applies. *)
Definition or_else (m : run (option Conversion)) (k : run (option Conversion)) : run (option Conversion) :=
  r ← m; match r with Some c => Done (Some c) | None => k end.

Definition method_invocation_conversion (fuel : nat) (from to : Ty) : run (option Conversion) :=
  let from := resolve from in
  let to := resolve to in
  if is_errorish from || is_errorish to then Done (Some (conversion_new Step.Identity))
  else
    or_else (strict_method_invocation_conversion fuel from to)
    (or_else (match from with Primitive p => box_conversion fuel p to | _ => Done None end)
    (or_else (unbox_conversion fuel from to) (unchecked_raw_conversion fuel from to))).

Definition constant_narrowing_conversion (from to : Ty) (const_value : option ConstValue.t) : option Conversion :=
  match const_value, resolve from, resolve to with
  | Some (ConstValue.Int value), Primitive from_p, Primitive to_p =>
      if negb (bool_decide (from_p ∈ [PrimitiveType.Byte; PrimitiveType.Short; PrimitiveType.Char; PrimitiveType.Int])) then None
      else if negb (bool_decide (to_p ∈ [PrimitiveType.Byte; PrimitiveType.Short; PrimitiveType.Char])) then None
      else if negb (value_representable_in_primitive value to_p) then None
      else Some (conversion_new Step.NarrowingPrimitive)
  | _, _, _ => None
  end.

Definition assignment_conversion_with_const (fuel : nat) (from to : Ty) (const_value : option ConstValue.t) : run (option Conversion) :=
  or_else (method_invocation_conversion fuel from to) (Done (constant_narrowing_conversion from to const_value)).

Definition assignment_conversion (fuel : nat) (from to : Ty) : run (option Conversion) :=
  assignment_conversion_with_const fuel from to None.

Definition is_assignable (fuel : nat) (from to : Ty) : run bool := c ← assignment_conversion fuel from to; Done (is_some c).

Definition class_castability (f t : ClassId) : Castability.t :=
  match cl_kind <$> env_class f, cl_kind <$> env_class t with
  | None, _ | _, None => Castability.Uncertain
  | Some ClassKind.Class, Some ClassKind.Class => Castability.No
  | _, _ => Castability.Yes
  end.

Fixpoint reference_castability (fuel : nat) (from to : Ty) : run Castability.t :=
  match from with
  | Null => Done (if is_reference to then Castability.Yes else Castability.No)
  | _ =>
      up ← is_subtype fuel from to;
      related ← (if up : bool then Done true else is_subtype fuel to from);
      if related : bool then Done Castability.Yes
      else
        match from, to with
        | Array a, Array b =>
            match a, b with
            | Primitive p, Primitive q => Done (if decide (p = q) then Castability.Yes else Castability.No)
            | _, _ => if is_reference a && is_reference b then reference_castability fuel a b else Done Castability.No
            end
        | Array _, _ | _, Array _ => Done Castability.No
        | Class f _, Class t _ => Done (class_castability f t)
        | TypeVar _, _ | _, TypeVar _ | Intersection _, _ | _, Intersection _
        | Named _, _ | _, Named _ | VirtualInner _ _, _ | _, VirtualInner _ _ => Done Castability.Uncertain
        | (Unknown | Error), _ | _, (Unknown | Error) => Done Castability.Yes
        | _, _ => Done Castability.No
        end
  end.

Fixpoint is_reifiable (ty : Ty) : bool :=
  match ty with
  | Primitive _ => true
  | Array elem => is_reifiable elem
  | Class _ args => match args with [] => true | _ => forallb (fun a => match a with Wildcard Unbounded => true | _ => false end) args end
  | Named _ | VirtualInner _ _ => true
  | _ => false
  end.

Definition reference_cast (fuel : nat) (from to : Ty) : run (option Conversion) :=
  if is_reference from && is_reference to then
    castability ← reference_castability fuel from to;
    Done (match castability with
          | Castability.No => None
          | _ =>
              let c := conversion_new Step.NarrowingReference in
              Some (if raw_warning from to then warn_if true UncheckedReason.RawConversion c
                    else warn_if (match castability with Castability.Uncertain => true | _ => negb (is_reifiable to) end)
                           UncheckedReason.UncheckedCast c)
          end)
  else Done None.

(** The warnings of the components of an intersection, without repetitions. *)
Definition add_warnings (c part : Conversion) : Conversion :=
  mkConversion (cv_steps c) (foldl (fun ws w => if decide (w ∈ ws) then ws else ws ++ [w]) (cv_warnings c) (cv_warnings part)).

(** [None] of the first component that cannot be cast ends the loop. *)
Fixpoint cast_parts (cast : Ty -> run (option Conversion)) (parts : list Ty) (c : Conversion) : run (option Conversion) :=
  match parts with
  | [] => Done (Some c)
  | p :: parts => r ← cast p; match r with Some part => cast_parts cast parts (add_warnings c part) | None => Done None end
  end.

Fixpoint cast_conversion (fuel : nat) (from to : Ty) : run (option Conversion) :=
  match fuel with
  | O => OutOfFuel
  | S fuel =>
      let from := resolve from in
      let to := resolve to in
      or_else (assignment_conversion fuel from to)
      (match from, to with
       | Primitive a, Primitive b => Done (if primitive_narrowing a b then Some (conversion_new Step.NarrowingPrimitive) else None)
       | _, _ =>
           or_else
             (u ← unbox fuel from;
              Done (match u, to with
                    | Some unboxed, Primitive target =>
                        if primitive_narrowing unboxed target then Some (push_step Step.NarrowingPrimitive (conversion_new Step.Unboxing)) else None
                    | _, _ => None
                    end))
           (or_else (reference_cast fuel from to)
              (match to with
               | Intersection parts => cast_parts (cast_conversion fuel from) parts (conversion_new Step.NarrowingReference)
               | _ => Done None
               end))
       end)
  end.

(** ** What the steps do *)

Definition subtypes (s t : Ty) : Prop := exists fuel, is_subtype fuel s t = Done true.
Definition unboxes (s : Ty) (p : PrimitiveType) : Prop := exists fuel, unbox fuel s = Done (Some p).

Inductive conv_step : Step.t -> Ty -> Ty -> Prop :=
| CS_identity t : conv_step Step.Identity t t
| CS_widen a b : primitive_widening a b = true -> conv_step Step.WideningPrimitive (Primitive a) (Primitive b)
| CS_null t : is_reference t || is_wildcard t = true -> conv_step Step.WideningReference Null t
| CS_reference s t : is_reference s = true -> is_reference t = true -> subtypes s t -> conv_step Step.WideningReference s t
| CS_box p t : boxing_type p = Some t -> conv_step Step.Boxing (Primitive p) t
| CS_unbox s p : unboxes s p -> conv_step Step.Unboxing s (Primitive p)
| CS_unchecked f t args : is_generic f = true -> args <> [] -> subtypes (Class f []) (Class t []) ->
    conv_step Step.Unchecked (Class f []) (Class t args).

Inductive conv_path : list Step.t -> Ty -> Ty -> Prop :=
| CP_nil t : conv_path [] t t
| CP_cons step steps s t u : conv_step step s t -> conv_path steps t u -> conv_path (step :: steps) s u.

(** What an invocation permits. *)
Definition loose_shapes : list (list Step.t) :=
  [[Step.Identity]; [Step.WideningPrimitive]; [Step.WideningReference]; [Step.Boxing]; [Step.Boxing; Step.WideningReference];
   [Step.WideningPrimitive; Step.Boxing]; [Step.WideningPrimitive; Step.Boxing; Step.WideningReference];
   [Step.Unboxing]; [Step.Unboxing; Step.WideningPrimitive]; [Step.Unchecked]].

Lemma conv_path_1 step s t : conv_path [step] s t <-> conv_step step s t.
Proof.
  split; [|intros H; econstructor; [exact H|constructor]]. intros H. inversion H as [|? ? ? ? ? Hs Hp]; simplify_eq. by inversion Hp; simplify_eq.
Qed.

Lemma conv_path_cons step steps s u : conv_path (step :: steps) s u <-> exists t, conv_step step s t /\ conv_path steps t u.
Proof.
  split; [|intros (t & H1 & H2); by econstructor]. intros H. inversion H as [|? ? ? t ? Hs Hp]; simplify_eq. by exists t.
Qed.

(** ** Answers do not depend on the fuel *)

Lemma is_subtype_det f g s t x y : is_subtype f s t = Done x -> is_subtype g s t = Done y -> x = y.
Proof.
  intros Hx Hy. apply Done_inj. rewrite <-(is_subtype_le f (max f g) ltac:(lia) _ _ _ Hx), <-(is_subtype_le g (max f g) ltac:(lia) _ _ _ Hy). done.
Qed.

Lemma unbox_le f g s x : f <= g -> unbox f s = Done x -> unbox g s = Done x.
Proof.
  revert g s. induction f as [|f IH]; intros g s Hle; [done|]. destruct g as [|g]; [lia|]. simpl. destruct s; try done.
  case_match; [|done]. apply IH. lia.
Qed.

Lemma unbox_det f g s x y : unbox f s = Done x -> unbox g s = Done y -> x = y.
Proof.
  intros Hx Hy. apply Done_inj. rewrite <-(unbox_le f (max f g) s x), <-(unbox_le g (max f g) s y); [done|lia|done|lia|done].
Qed.

Lemma subtypes_no f s t : is_subtype f s t = Done false -> ~ subtypes s t.
Proof. intros Hf [g Hg]. by pose proof (is_subtype_det _ _ _ _ _ _ Hf Hg). Qed.

Lemma or_else_Done m k r :
  or_else m k = Done r -> (exists c, m = Done (Some c) /\ r = Some c) \/ (m = Done None /\ k = Done r).
Proof.
  unfold or_else. intros ([c|] & Hm & H)%bind_Done; [left|by right]. apply Done_inj in H as <-. by exists c.
Qed.

(** ** The parts of a conversion *)

(** A result is right: its steps lead from one type to the other; and if there is none, none of the
    sequences leads there. *)
Definition conv_exact (shapes : list (list Step.t)) (s t : Ty) (r : option Conversion) : Prop :=
  match r with
  | Some c => cv_steps c ∈ shapes /\ conv_path (cv_steps c) s t
  | None => forall steps, steps ∈ shapes -> ~ conv_path steps s t
  end.

Definition strict_shapes : list (list Step.t) := [[Step.Identity]; [Step.WideningPrimitive]; [Step.WideningReference]].

Lemma warn_if_steps b r c : cv_steps (warn_if b r c) = cv_steps c.
Proof. by destruct b. Qed.

Lemma reference_cases s t : conv_step Step.WideningReference s t ->
  (s = Null /\ is_reference t || is_wildcard t = true) \/ (is_reference s && is_reference t = true /\ subtypes s t).
Proof. inversion 1 as [| |t' Ht|s' t' Hs Ht Hsub| | |]; simplify_eq; [by left|right]. by rewrite Hs, Ht. Qed.

Lemma strict_exact fuel s t r :
  resolve s = s -> resolve t = t -> strict_method_invocation_conversion fuel s t = Done r -> conv_exact strict_shapes s t r.
Proof.
  intros Hs Ht. unfold strict_method_invocation_conversion. rewrite Hs, Ht. case_decide as He.
  { intros <-%Done_inj. subst t. split; [by left|]. apply conv_path_1, CS_identity. }
  set (by_subtype := if is_reference s && is_reference t then _ else _).
  assert (Hby : (forall steps, steps ∈ strict_shapes -> conv_path steps s t -> steps = [Step.WideningReference] /\ s <> Null) ->
    by_subtype = Done r -> conv_exact strict_shapes s t r).
  { intros Hshape. subst by_subtype. destruct (is_reference s && is_reference t) eqn:Hr.
    - intros ([] & Hb & H)%bind_Done; apply Done_inj in H as <-.
      + unfold conv_exact. rewrite warn_if_steps. split; [by right; right; left|]. apply andb_true_iff in Hr as [H1 H2].
        apply conv_path_1, CS_reference; [done..|by exists fuel].
      + intros steps Hin Hp. destruct (Hshape _ Hin Hp) as [-> Hn]. apply conv_path_1, reference_cases in Hp as [[-> _]|[_ Hsub]]; [done|].
        by apply subtypes_no in Hb.
    - intros <-%Done_inj steps Hin Hp. destruct (Hshape _ Hin Hp) as [-> Hn]. apply conv_path_1, reference_cases in Hp as [[-> _]|[Hr' _]]; [done|congruence]. }
  assert (Hshape : (forall a b, s = Primitive a -> t = Primitive b -> primitive_widening a b = false) -> s <> Null ->
    forall steps, steps ∈ strict_shapes -> conv_path steps s t -> steps = [Step.WideningReference] /\ s <> Null).
  { intros Hprim Hnull steps Hin Hp. unfold strict_shapes in Hin. rewrite !elem_of_cons, elem_of_nil in Hin.
    destruct Hin as [->|[->|[->|[]]]]; [| |done]; apply conv_path_1 in Hp; inversion Hp as [|a b Hab| | | | |]; simplify_eq.
    by rewrite (Hprim a b) in Hab. }
  destruct s as [|a|d l|x|i|w|l| |n|o n| |]; try (by apply Hby, Hshape).
  - destruct t as [|b|e k|y|j|u|k| |m|o m| |]; try (by apply Hby, Hshape). destruct (primitive_widening a b) eqn:Hw.
    + intros <-%Done_inj. split; [by right; left|]. by apply conv_path_1, CS_widen.
    + apply Hby, Hshape; [|done]. intros a' b' [= <-] [= <-]. done.
  - destruct (is_reference t || is_wildcard t) eqn:Hr.
    + intros <-%Done_inj. split; [by right; right; left|]. by apply conv_path_1, CS_null.
    + subst by_subtype. simpl. intros <-%Done_inj steps Hin Hp. unfold strict_shapes in Hin. rewrite !elem_of_cons, elem_of_nil in Hin.
      destruct Hin as [->|[->|[->|[]]]]; apply conv_path_1 in Hp; inversion Hp; simplify_eq; congruence.
Qed.

(** Boxing, as it is or widened, after [pre]. *)
Lemma box_to_exact fuel c p boxed to r :
  boxing_type p = Some boxed -> box_to fuel c boxed to = Done r ->
  match r with
  | Some c' => exists rest, cv_steps c' = cv_steps c ++ Step.Boxing :: rest /\ (rest = [] \/ rest = [Step.WideningReference]) /\
                 conv_path (Step.Boxing :: rest) (Primitive p) to
  | None => forall rest, rest = [] \/ rest = [Step.WideningReference] -> ~ conv_path (Step.Boxing :: rest) (Primitive p) to
  end.
Proof.
  intros Hbox. assert (Hpath : forall rest, conv_path (Step.Boxing :: rest) (Primitive p) to <-> conv_path rest boxed to).
  { intros rest. rewrite conv_path_cons. split; [|intros Hp; exists boxed; by split; [apply CS_box|]].
    intros (t & Hs & Hp). inversion Hs; simplify_eq. congruence. }
  assert (Hnull : boxed <> Null) by (unfold boxing_type in Hbox; apply fmap_Some in Hbox as (id & _ & ->); done).
  unfold box_to. case_decide as He; [subst to; intros <-%Done_inj; exists []; split_and!; [done|by left|apply Hpath; constructor]|].
  assert (Hnil : forall rest, conv_path rest boxed to -> rest = [] \/ rest = [Step.WideningReference] ->
    rest = [Step.WideningReference] /\ is_reference boxed && is_reference to = true /\ subtypes boxed to).
  { intros rest Hp [->| ->]; [by inversion Hp|]. split; [done|]. by apply conv_path_1, reference_cases in Hp as [[-> _]|Hp]. }
  destruct (is_reference boxed && is_reference to) eqn:Hr.
  - intros ([] & Hb & H)%bind_Done; apply Done_inj in H as <-.
    + exists [Step.WideningReference]. rewrite warn_if_steps. simpl. rewrite <-app_assoc. split_and!; [done|by right|].
      apply Hpath, conv_path_1. apply andb_true_iff in Hr as [H1 H2]. apply CS_reference; [done..|by exists fuel].
    + intros rest Hrest Hp%Hpath. destruct (Hnil rest Hp Hrest) as (_ & _ & Hsub). by apply subtypes_no in Hb.
  - intros <-%Done_inj rest Hrest Hp%Hpath. by destruct (Hnil rest Hp Hrest) as (_ & ? & _).
Qed.

Definition box_shapes : list (list Step.t) :=
  [[Step.Boxing]; [Step.Boxing; Step.WideningReference];
   [Step.WideningPrimitive; Step.Boxing]; [Step.WideningPrimitive; Step.Boxing; Step.WideningReference]].

Definition boxed_tail (rest : list Step.t) : Prop := rest = [] \/ rest = [Step.WideningReference].

Lemma widen_box_exact fuel p targets to r :
  widen_box fuel p targets to = Done r ->
  match r with
  | Some c => exists rest, cv_steps c = Step.WideningPrimitive :: Step.Boxing :: rest /\ boxed_tail rest /\
                conv_path (cv_steps c) (Primitive p) to
  | None => forall q rest, q ∈ targets -> q <> p -> primitive_widening p q = true -> boxed_tail rest ->
      ~ conv_path (Step.Boxing :: rest) (Primitive q) to
  end.
Proof.
  revert r. induction targets as [|q targets IH]; intros r; simpl; [intros <-%Done_inj q rest Hq; by apply elem_of_nil in Hq|].
  assert (Hskip : (q <> p -> primitive_widening p q = true -> forall rest, boxed_tail rest -> ~ conv_path (Step.Boxing :: rest) (Primitive q) to) ->
    widen_box fuel p targets to = Done r ->
    match r with
    | Some c => exists rest, cv_steps c = Step.WideningPrimitive :: Step.Boxing :: rest /\ boxed_tail rest /\ conv_path (cv_steps c) (Primitive p) to
    | None => forall q' rest, q' ∈ q :: targets -> q' <> p -> primitive_widening p q' = true -> boxed_tail rest ->
        ~ conv_path (Step.Boxing :: rest) (Primitive q') to
    end).
  { intros Hq Hw. specialize (IH r Hw). destruct r as [c|]; [done|]. intros q' rest [->|Hin]%elem_of_cons Hne Hwid Ht; [by apply Hq|by eapply IH]. }
  case_decide as Hqp; [by apply Hskip|]. destruct (primitive_widening p q) eqn:Hw; simpl; [|by apply Hskip].
  destruct (boxing_type q) as [boxed|] eqn:Hb.
  - intros ([c|] & Hbox & H)%bind_Done; pose proof (box_to_exact _ _ _ _ _ _ Hb Hbox) as Hex; simpl in Hex.
    + apply Done_inj in H as <-. destruct Hex as (rest & Hst & Ht & Hp). exists rest. simpl in Hst. rewrite Hst. split_and!; [done|done|].
      apply conv_path_cons. exists (Primitive q). by split; [apply CS_widen|].
    + by apply Hskip.
  - apply Hskip. intros _ _ rest _ (t & Hs & _)%conv_path_cons. by inversion Hs; simplify_eq.
Qed.

Lemma boxed_target_reference p rest to : boxed_tail rest -> conv_path (Step.Boxing :: rest) (Primitive p) to -> is_reference to = true.
Proof.
  intros Ht (b & Hs & Hp)%conv_path_cons. inversion Hs as [| | | |p' t' Hb| |]; simplify_eq. unfold boxing_type in Hb.
  apply fmap_Some in Hb as (id & _ & ->). destruct Ht as [->| ->]; [by inversion Hp; simplify_eq|].
  apply conv_path_1, reference_cases in Hp as [[? _]|[Hr _]]; [done|by apply andb_true_iff in Hr as [_ Hr]].
Qed.

Lemma box_conversion_exact fuel p to r : box_conversion fuel p to = Done r -> conv_exact box_shapes (Primitive p) to r.
Proof.
  unfold box_conversion. intros (r1 & H1 & H)%bind_Done.
  assert (Hfirst : match r1 with
    | Some c => exists rest, cv_steps c = Step.Boxing :: rest /\ boxed_tail rest /\ conv_path (Step.Boxing :: rest) (Primitive p) to
    | None => forall rest, boxed_tail rest -> ~ conv_path (Step.Boxing :: rest) (Primitive p) to end).
  { destruct (boxing_type p) as [boxed|] eqn:Hb; [exact (box_to_exact _ _ _ _ _ _ Hb H1)|]. apply Done_inj in H1 as <-.
    intros rest _ (t & Hs & _)%conv_path_cons. by inversion Hs; simplify_eq. }
  destruct r1 as [c|].
  { apply Done_inj in H as <-. destruct Hfirst as (rest & Hst & Ht & Hp). unfold conv_exact. rewrite Hst. split; [|done].
    destruct Ht as [->| ->]; [by left|by right; left]. }
  assert (Hnone : (forall q rest, q <> p -> primitive_widening p q = true -> boxed_tail rest -> ~ conv_path (Step.Boxing :: rest) (Primitive q) to) ->
    forall steps, steps ∈ box_shapes -> ~ conv_path steps (Primitive p) to).
  { intros Hq steps Hin Hp. unfold box_shapes in Hin. rewrite !elem_of_cons, elem_of_nil in Hin.
    assert (Hw : forall rest, boxed_tail rest -> ~ conv_path (Step.WideningPrimitive :: Step.Boxing :: rest) (Primitive p) to).
    { intros rest Ht (t & Hs & Hpt)%conv_path_cons. inversion Hs as [|a b Hab| | | | |]; simplify_eq.
      destruct (decide (b = p)) as [->|Hne]; [by apply (Hfirst rest)|by apply (Hq b rest)]. }
    destruct Hin as [->|[->|[->|[->|[]]]]]; [apply (Hfirst []); [by left|done]|apply (Hfirst [Step.WideningReference]); [by right|done]|
      apply (Hw []); [by left|done]|apply (Hw [Step.WideningReference]); [by right|done]]. }
  destruct (is_reference to) eqn:Hr.
  - pose proof (widen_box_exact _ _ _ _ _ H) as Hex. destruct r as [c|].
    + destruct Hex as (rest & Hst & Ht & Hp). split; [|done]. rewrite Hst. destruct Ht as [->| ->]; [by right; right; left|by right; right; right; left].
    + refine (Hnone _). intros q rest Hne Hw Ht. apply (Hex q rest); [|done..].
      destruct q; try (by apply (bool_decide_unpack _)); by destruct p.
  - apply Done_inj in H as <-. refine (Hnone _). intros q rest _ _ Ht Hp. pose proof (boxed_target_reference _ _ _ Ht Hp). congruence.
Qed.

Definition unbox_shapes : list (list Step.t) := [[Step.Unboxing]; [Step.Unboxing; Step.WideningPrimitive]].

Lemma unbox_conversion_exact fuel s t r : unbox_conversion fuel s t = Done r -> conv_exact unbox_shapes s t r.
Proof.
  unfold unbox_conversion. intros (u & Hu & H)%bind_Done. apply Done_inj in H as <-.
  assert (Hinv : forall steps, steps ∈ unbox_shapes -> conv_path steps s t -> exists p q, u = Some p /\ t = Primitive q /\ (p = q \/ primitive_widening p q = true)).
  { intros steps Hin Hp. unfold unbox_shapes in Hin. rewrite !elem_of_cons, elem_of_nil in Hin.
    assert (Hub : exists p rest, steps = Step.Unboxing :: rest /\ u = Some p /\ conv_path rest (Primitive p) t /\ (rest = [] \/ rest = [Step.WideningPrimitive])).
    { destruct Hin as [->|[->|[]]]; apply conv_path_cons in Hp as (x & Hs & Hp); inversion Hs as [| | | | |s' p [g Hg]|]; simplify_eq;
        pose proof (unbox_det _ _ _ _ _ Hu Hg) as ->; eexists p, _; eauto. }
    destruct Hub as (p & rest & _ & -> & Hrest & [->| ->]).
    - inversion Hrest; simplify_eq. exists p, p. auto.
    - apply conv_path_1 in Hrest. inversion Hrest as [|a b Hab| | | | |]; simplify_eq. exists p, b. auto. }
  assert (Hno : (forall p q, u = Some p -> t = Primitive q -> p <> q /\ primitive_widening p q = false) -> conv_exact unbox_shapes s t None).
  { intros Hpq steps Hin Hp. destruct (Hinv steps Hin Hp) as (p & q & -> & -> & Hor). destruct (Hpq p q eq_refl eq_refl) as [Hne Hw].
    destruct Hor; [done|congruence]. }
  destruct u as [p|]; [|by apply Hno]. destruct t as [|q|d l|x|i|w|l| |n|o n| |]; try (by apply Hno).
  assert (Hub : conv_step Step.Unboxing s (Primitive p)) by (apply CS_unbox; by exists fuel).
  case_decide as He; [subst q; split; [by left|by apply conv_path_1]|]. destruct (primitive_widening p q) eqn:Hw.
  - split; [by right; left|]. apply conv_path_cons. exists (Primitive p). split; [done|]. by apply conv_path_1, CS_widen.
  - apply Hno. by intros p' q' [= <-] [= <-].
Qed.

Lemma unchecked_exact fuel s t r :
  unchecked_raw_conversion fuel s t = Done r ->
  match r with
  | Some c => cv_steps c ∈ [[Step.WideningReference]; [Step.Unchecked]] /\ conv_path (cv_steps c) s t
  | None => ~ conv_path [Step.Unchecked] s t
  end.
Proof.
  assert (Hinv : conv_path [Step.Unchecked] s t -> exists f e args, s = Class f [] /\ t = Class e args /\ is_generic f = true /\
    args <> [] /\ subtypes (Class f []) (Class e [])).
  { intros Hp%conv_path_1. inversion Hp as [| | | | | |f e args Hg Hne Hs]; simplify_eq. by exists f, e, args. }
  unfold unchecked_raw_conversion. destruct s as [|q|f fa|y|j|u|k| |m|o' m| |];
    try (intros <-%Done_inj Hp; destruct (Hinv Hp) as (? & ? & ? & ? & _); done).
  destruct t as [|p|e ea|x|i|w|l| |n|o n| |]; try (intros <-%Done_inj Hp; destruct (Hinv Hp) as (? & ? & ? & _ & ? & _); done).
  assert (Hsecond : (~ conv_path [Step.Unchecked] (Class f fa) (Class e ea)) -> param_to_raw fuel f fa e ea = Done r ->
    match r with
    | Some c => cv_steps c ∈ [[Step.WideningReference]; [Step.Unchecked]] /\ conv_path (cv_steps c) (Class f fa) (Class e ea)
    | None => ~ conv_path [Step.Unchecked] (Class f fa) (Class e ea)
    end).
  { intros Hno. unfold param_to_raw. case_match eqn:Hc; [|by intros <-%Done_inj]. clear Hc. intros ([] & Hb & H)%bind_Done; apply Done_inj in H as <-; [|done].
    split; [by left|]. apply conv_path_1, CS_reference; [done..|by exists fuel]. }
  destruct (is_raw_class f fa) eqn:Hraw; simpl.
  - unfold is_raw_class in Hraw. apply andb_true_iff in Hraw as [Hfa Hg]. apply bool_decide_eq_true in Hfa as ->.
    destruct (bool_decide_reflect (ea = [])) as [->|Hea].
    + rewrite andb_false_r. apply Hsecond. intros Hp. by destruct (Hinv Hp) as (? & ? & ? & _ & [= <- <-] & _ & ? & _).
    + unfold is_raw_class. rewrite bool_decide_eq_false_2 by done. simpl. intros (fe & Hfe & (te & Hte & (b & Hb & H)%bind_Done)%bind_Done)%bind_Done.
      destruct fuel as [|fuel]; [done|]. simpl in Hfe, Hte. apply Done_inj in Hfe as <-. apply Done_inj in Hte as <-. destruct b.
      * apply Done_inj in H as <-. split; [by right; left|]. apply conv_path_1. apply CS_unchecked; [done|done|by exists (S fuel)].
      * apply Hsecond; [|exact H]. intros Hp. destruct (Hinv Hp) as (? & ? & ? & [= <-] & [= <- <-] & _ & _ & Hsub). by apply subtypes_no in Hb.
  - apply Hsecond. intros Hp. destruct (Hinv Hp) as (? & ? & ? & [= <- ->] & _ & Hg & _). unfold is_raw_class in Hraw. by rewrite Hg in Hraw.
Qed.

Lemma loose_groups : loose_shapes = strict_shapes ++ box_shapes ++ unbox_shapes ++ [[Step.Unchecked]].
Proof. reflexivity. Qed.

Lemma box_shapes_primitive steps s t : steps ∈ box_shapes -> conv_path steps s t -> exists p, s = Primitive p.
Proof.
  intros Hin Hp. unfold box_shapes in Hin. rewrite !elem_of_cons, elem_of_nil in Hin.
  destruct Hin as [->|[->|[->|[->|[]]]]]; apply conv_path_cons in Hp as (x & Hs & _); inversion Hs; simplify_eq; by eexists.
Qed.

Lemma method_invocation_exact fuel from to r :
  is_errorish (resolve from) = false -> is_errorish (resolve to) = false ->
  method_invocation_conversion fuel from to = Done r -> conv_exact loose_shapes (resolve from) (resolve to) r.
Proof.
  intros Hef Het. unfold method_invocation_conversion. rewrite Hef, Het. simpl.
  set (s := resolve from) in *. set (t := resolve to) in *.
  assert (Hs : resolve s = s) by apply resolve_idemp. assert (Ht : resolve t = t) by apply resolve_idemp.
  assert (Hweak : forall shapes c, shapes ⊆ loose_shapes -> conv_exact shapes s t (Some c) -> conv_exact loose_shapes s t (Some c)).
  { intros shapes c Hsub [Hin Hp]. split; [by apply Hsub|done]. }
  intros [(c & Hc & ->)|[H1 H]]%or_else_Done.
  { apply (Hweak strict_shapes); [intros x Hx; rewrite loose_groups, !elem_of_app; tauto|]. by apply strict_exact in Hc. }
  apply strict_exact in H1; [|done..]. apply or_else_Done in H as [(c & Hc & ->)|[H2 H]].
  { apply (Hweak box_shapes); [intros x Hx; rewrite loose_groups, !elem_of_app; tauto|]. destruct s; try done. by apply box_conversion_exact in Hc. }
  assert (H2' : conv_exact box_shapes s t None).
  { intros steps Hin Hp. destruct (box_shapes_primitive _ _ _ Hin Hp) as [p Hsp]. rewrite Hsp in H2, Hp. by apply (box_conversion_exact _ _ _ _ H2 steps). }
  apply or_else_Done in H as [(c & Hc & ->)|[H3 H]].
  { apply (Hweak unbox_shapes); [intros x Hx; rewrite loose_groups, !elem_of_app; tauto|]. by apply unbox_conversion_exact in Hc. }
  apply unbox_conversion_exact in H3. apply unchecked_exact in H. destruct r as [c|].
  - destruct H as [Hin Hp]. split; [|done]. rewrite !elem_of_cons, elem_of_nil in Hin. unfold loose_shapes. rewrite !elem_of_cons. tauto.
  - intros steps Hin Hp. rewrite loose_groups, !elem_of_app, list_elem_of_singleton in Hin.
    destruct Hin as [Hin|[Hin|[Hin| ->]]]; [by apply (H1 steps)|by apply (H2' steps)|by apply (H3 steps)|done].
Qed.

(** ** Conversions are decided *)

(** From some fuel on there is one result. *)
Definition settles {A} (m : nat -> run A) : Prop := exists fuel x, forall fuel', fuel <= fuel' -> m fuel' = Done x.

Lemma settles_ret {A} (x : A) : settles (fun _ => Done x).
Proof. by exists 0, x. Qed.

Lemma settles_bind {A B} (m : nat -> run A) (k : nat -> A -> run B) :
  settles m -> (forall x, settles (fun f => k f x)) -> settles (fun f => m f ≫= k f).
Proof.
  intros (f & x & Hm) Hk. destruct (Hk x) as (g & y & Hy). exists (max f g), y. intros h Hh. rewrite Hm by lia. simpl. apply Hy. lia.
Qed.

Lemma settles_or_else (m k : nat -> run (option Conversion)) : settles m -> settles k -> settles (fun f => or_else (m f) (k f)).
Proof. intros Hm Hk. unfold or_else. apply settles_bind; [done|]. intros [c|]; [apply settles_ret|done]. Qed.

Section Decided.
Variables crank vrank lrank : nat -> nat.
Hypothesis Hac : acyclic crank vrank lrank.

Lemma subtype_settles s t : no_super t = true -> settles (fun f => is_subtype f s t).
Proof.
  intros Ht. destruct (always_answers crank vrank lrank Hac (ty_size lrank t) t (Nat.le_refl _) Ht s) as (f & b & Hb). exists f, b.
  intros g Hg. by eapply is_subtype_le.
Qed.

Lemma unbox_settles s : settles (fun f => unbox f s).
Proof.
  assert (Hrank : forall k s, source_rank vrank s < k -> exists f x, unbox f s = Done x).
  { induction k as [|k IH]; intros u Hu; [lia|]. destruct u as [|q|f fa|y|j|u|l| |m|o' m| |]; try (by exists 1; eexists).
    destruct (type_param j) as [tp|] eqn:Hp; [|exists 1, None; simpl; by rewrite Hp].
    destruct (head (tp_upper_bounds tp)) as [b|] eqn:Hh; [|exists 1, None; simpl; by rewrite Hp; simpl; rewrite Hh].
    destruct (IH b) as (f & x & Hf).
    { assert (b ∈ tp_upper_bounds tp) as Hb by (destruct (tp_upper_bounds tp); simplify_eq/=; by left).
      pose proof (ac_bound _ _ _ Hac j tp b Hp Hb). simpl in Hu. lia. }
    exists (S f), x. simpl. by rewrite Hp; simpl; rewrite Hh. }
  destruct (Hrank (S (source_rank vrank s)) s) as (f & x & Hf); [lia|]. exists f, x. intros g Hg. by eapply unbox_le.
Qed.

Lemma erasure_settles d args : settles (fun f => erasure f (Class d args)).
Proof. exists 1, (Class d []). intros [|f] Hf; [lia|done]. Qed.

Lemma box_to_settles c boxed to : no_super to = true -> settles (fun f => box_to f c boxed to).
Proof.
  intros Hto. unfold box_to. case_decide; [apply settles_ret|]. destruct (is_reference boxed && is_reference to); [|apply settles_ret].
  apply settles_bind; [by apply subtype_settles|]. intros b. apply settles_ret.
Qed.

Lemma widen_box_settles p targets to : no_super to = true -> settles (fun f => widen_box f p targets to).
Proof.
  intros Hto. induction targets as [|q targets IH]; simpl; [apply settles_ret|]. case_decide; [done|]. case_match; [done|]. case_match; [|done].
  apply settles_bind; [by apply box_to_settles|]. intros [c|]; [apply settles_ret|done].
Qed.

Lemma param_to_raw_settles f fa t ta : no_super (Class t ta) = true -> settles (fun fuel => param_to_raw fuel f fa t ta).
Proof.
  intros Hto. unfold param_to_raw. case_match; [|apply settles_ret]. apply settles_bind; [by apply subtype_settles|]. intros b. apply settles_ret.
Qed.

Lemma unchecked_settles s t : no_super t = true -> settles (fun f => unchecked_raw_conversion f s t).
Proof.
  intros Ht. unfold unchecked_raw_conversion. destruct s as [|q|f fa|y|j|u|l| |m|o' m| |]; try apply settles_ret.
  destruct t as [|p|e ea|x|i|w|l| |n|o n| |]; try apply settles_ret. case_match; [|by apply param_to_raw_settles].
  destruct (subtype_settles (Class f []) (Class e []) eq_refl) as (n & b & Hb). destruct (param_to_raw_settles f fa e ea Ht) as (n' & r & Hr).
  exists (S (max n n')), (if b then Some (raw_conversion Step.Unchecked) else r). intros g Hg.
  assert (Her : forall d a, erasure g (Class d a) = Done (Class d [])) by (intros d a; destruct g; [lia|done]).
  rewrite !Her, !bind_Done_l, Hb, bind_Done_l by lia. destruct b; [done|]. apply Hr. lia.
Qed.

Lemma strict_settles s t : no_super (resolve t) = true -> settles (fun f => strict_method_invocation_conversion f s t).
Proof.
  intros Ht. unfold strict_method_invocation_conversion.
  assert (Hby : settles (fun f => if is_reference (resolve s) && is_reference (resolve t) then
      b ← is_subtype f (resolve s) (resolve t);
      Done (if b : bool then Some (warn_if (raw_warning (resolve s) (resolve t)) UncheckedReason.RawConversion (conversion_new Step.WideningReference)) else None)
    else Done None)).
  { destruct (is_reference (resolve s) && is_reference (resolve t)); [|apply settles_ret]. apply settles_bind; [by apply subtype_settles|].
    intros b. apply settles_ret. }
  case_decide; [apply settles_ret|]. destruct (resolve s); try exact Hby.
  - destruct (resolve t); try exact Hby. destruct (primitive_widening _ _); [apply settles_ret|exact Hby].
  - destruct (is_reference (resolve t) || is_wildcard (resolve t)); [apply settles_ret|exact Hby].
Qed.

Lemma method_invocation_settles from to : no_super (resolve to) = true -> settles (fun f => method_invocation_conversion f from to).
Proof.
  intros Hto. unfold method_invocation_conversion. case_match; [apply settles_ret|]. apply settles_or_else; [apply strict_settles; by rewrite resolve_idemp|].
  apply settles_or_else; [|apply settles_or_else; [|by apply unchecked_settles]].
  - destruct (resolve from); try apply settles_ret. unfold box_conversion. apply settles_bind.
    + case_match; [by apply box_to_settles|apply settles_ret].
    + intros [c|]; [apply settles_ret|]. case_match; [by apply widen_box_settles|apply settles_ret].
  - unfold unbox_conversion. apply settles_bind; [apply unbox_settles|]. intros u. apply settles_ret.
Qed.
End Decided.

(** C11: Invocation permits exactly these conversions.  For types that are not errors: a conversion that
    is found leads by its steps from the first type to the second, and its steps are one of the
    permitted sequences; when none is found, no permitted sequence leads there.  There is a result for
    a target without a wildcard with a lower bound, in an environment whose class hierarchy and upper bounds
    have no cycle and where the lower bound of a captured variable neither leads back to the variable, not even
    in its arguments, nor has a wildcard with a lower bound. *)
Theorem invocation_conversions from to :
  is_errorish (resolve from) = false -> is_errorish (resolve to) = false ->
  (forall fuel r, method_invocation_conversion fuel from to = Done r -> conv_exact loose_shapes (resolve from) (resolve to) r) /\
  (forall crank vrank lrank, acyclic crank vrank lrank -> no_super (resolve to) = true ->
    exists fuel r, forall fuel', fuel <= fuel' -> method_invocation_conversion fuel' from to = Done r).
Proof.
  intros Hef Het. split; [intros fuel r; by apply method_invocation_exact|]. intros crank vrank lrank Hac Hto.
  by apply (method_invocation_settles crank vrank lrank Hac).
Qed.

(** An invocation never narrows: no cost is above that of an unchecked conversion. *)
Theorem invocation_never_narrows fuel from to c :
  method_invocation_conversion fuel from to = Done (Some c) -> conversion_cost c <> ConversionCost.Narrowing.
Proof.
  intros Hc. assert (Hsteps : cv_steps c ∈ loose_shapes).
  { destruct (is_errorish (resolve from)) eqn:Hef; [|destruct (is_errorish (resolve to)) eqn:Het].
    1,2: unfold method_invocation_conversion in Hc; rewrite ?Hef, ?Het in Hc; simpl in Hc; apply Done_inj in Hc as [= <-]; by left.
    by apply (method_invocation_exact fuel from to (Some c) Hef Het) in Hc as [Hin _]. }
  unfold conversion_cost, loose_shapes in *. rewrite !elem_of_cons, elem_of_nil in Hsteps.
  destruct (existsb _ (cv_warnings c)); repeat (destruct Hsteps as [->|Hsteps]; [done|]); done.
Qed.

(** ** Assignments *)

(** The widening conversions of primitive types (JLS 5.1.2). *)
Definition widenings : list (PrimitiveType * list PrimitiveType) :=
  [(PrimitiveType.Byte, [PrimitiveType.Short; PrimitiveType.Int; PrimitiveType.Long; PrimitiveType.Float; PrimitiveType.Double]);
   (PrimitiveType.Short, [PrimitiveType.Int; PrimitiveType.Long; PrimitiveType.Float; PrimitiveType.Double]);
   (PrimitiveType.Char, [PrimitiveType.Int; PrimitiveType.Long; PrimitiveType.Float; PrimitiveType.Double]);
   (PrimitiveType.Int, [PrimitiveType.Long; PrimitiveType.Float; PrimitiveType.Double]);
   (PrimitiveType.Long, [PrimitiveType.Float; PrimitiveType.Double]);
   (PrimitiveType.Float, [PrimitiveType.Double])].

Definition widens (p q : PrimitiveType) : Prop := Exists (fun '(a, l) => a = p /\ q ∈ l) widenings.

(** The types a constant may be narrowed to, with their least and their greatest value (JLS 4.2.1, 5.2). *)
Definition narrow_ranges : list (PrimitiveType * (Z * Z)) :=
  [(PrimitiveType.Byte, (-128, 127)%Z); (PrimitiveType.Short, (-32768, 32767)%Z); (PrimitiveType.Char, (0, 65535)%Z)].

Definition narrows (from to : Ty) (const_value : option ConstValue.t) : Prop :=
  exists value p q lo hi,
    const_value = Some (ConstValue.Int value) /\ from = Primitive p /\ to = Primitive q /\
    p ∈ [PrimitiveType.Byte; PrimitiveType.Short; PrimitiveType.Char; PrimitiveType.Int] /\
    (q, (lo, hi)) ∈ narrow_ranges /\ (lo <= value <= hi)%Z.

(** What an assignment makes of the conversion an invocation finds. *)
Definition assigned (from to : Ty) (const_value : option ConstValue.t) (found r : option Conversion) : Prop :=
  match found with
  | Some c => r = Some c
  | None => narrows from to const_value /\ r = Some (mkConversion [Step.NarrowingPrimitive] []) \/ ~ narrows from to const_value /\ r = None
  end.

(** What an invocation finds for primitive types. *)
Definition invoked (p q : PrimitiveType) (found : option Conversion) : Prop :=
  p = q /\ found = Some (mkConversion [Step.Identity] []) \/
  p <> q /\ widens p q /\ found = Some (mkConversion [Step.WideningPrimitive] []) \/
  p <> q /\ ~ widens p q /\ found = None.

Lemma representable_range q value :
  value_representable_in_primitive value q = true /\ q ∈ [PrimitiveType.Byte; PrimitiveType.Short; PrimitiveType.Char] <->
  exists lo hi, (q, (lo, hi)) ∈ narrow_ranges /\ (lo <= value <= hi)%Z.
Proof.
  split.
  - rewrite !elem_of_cons, elem_of_nil. intros [Hv [->|[->|[->|[]]]]]; simpl in Hv; apply andb_true_iff in Hv as [?%Z.leb_le ?%Z.leb_le];
      eexists _, _; (split; [|done]); unfold narrow_ranges; rewrite !elem_of_cons; auto.
  - intros (lo & hi & Hin & Hv). unfold narrow_ranges in Hin. rewrite !elem_of_cons, elem_of_nil in Hin.
    destruct Hin as [[= -> -> ->]|[[= -> -> ->]|[[= -> -> ->]|[]]]]; (split; [|by apply (bool_decide_unpack _)]); simpl;
      apply andb_true_iff; rewrite !Z.leb_le; lia.
Qed.

Lemma constant_narrows from to const_value :
  assigned (resolve from) (resolve to) const_value None (constant_narrowing_conversion from to const_value).
Proof.
  simpl. assert (Hyes : forall c, constant_narrowing_conversion from to const_value = Some c ->
    narrows (resolve from) (resolve to) const_value /\ c = mkConversion [Step.NarrowingPrimitive] []).
  { unfold constant_narrowing_conversion. intros c. destruct const_value as [[value|x]|]; try done.
    destruct (resolve from) as [|p| | | | | | | | | |]; try done. destruct (resolve to) as [|q| | | | | | | | | |]; try done.
    destruct (bool_decide (p ∈ _)) eqn:Hp; [|done]. destruct (bool_decide (q ∈ _)) eqn:Hq; [|done]. simpl.
    destruct (value_representable_in_primitive value q) eqn:Hv; [|done]. intros [= <-]. split; [|done].
    apply bool_decide_eq_true in Hp, Hq. destruct (proj1 (representable_range q value) (conj Hv Hq)) as (lo & hi & Hin & Hr).
    exists value, p, q, lo, hi. done. }
  destruct (constant_narrowing_conversion from to const_value) as [c|] eqn:Hc.
  { left. destruct (Hyes c eq_refl) as [? ->]. done. }
  right. split; [|done]. intros (value & p & q & lo & hi & -> & Hf & Ht & Hp & Hin & Hv).
  unfold constant_narrowing_conversion in Hc. rewrite Hf, Ht in Hc.
  destruct (proj2 (representable_range q value)) as [Hr Hq]; [eauto|].
  by rewrite !bool_decide_eq_true_2, Hr in Hc by done.
Qed.

Lemma primitive_widening_table p q : p <> q -> primitive_widening p q = true <-> widens p q.
Proof.
  intros Hne. unfold widens, widenings. rewrite !Exists_cons, Exists_nil, !elem_of_cons, !elem_of_nil.
  destruct p, q; try done; simpl; naive_solver.
Qed.

(** A primitive target is reached without boxes. *)
Lemma box_conversion_primitive fuel p q : box_conversion fuel p (Primitive q) = Done None.
Proof. unfold box_conversion, boxing_type. by destruct (lookup_class (box_name p)). Qed.

Lemma invocation_primitive fuel from to p q :
  resolve from = Primitive p -> resolve to = Primitive q ->
  exists found, method_invocation_conversion (S fuel) from to = Done found /\ invoked p q found.
Proof.
  intros Hf Ht. unfold method_invocation_conversion, strict_method_invocation_conversion. rewrite Hf, Ht. simpl.
  unfold invoked. case_decide as Heq; [injection Heq as ->; eexists; split; [done|by left]|].
  assert (Hne : p <> q) by congruence. pose proof (primitive_widening_table p q Hne) as Hw.
  destruct (primitive_widening p q).
  - eexists. split; [done|]. right; left. by rewrite <-Hw.
  - exists None. rewrite box_conversion_primitive. split; [done|]. right; right. split_and!; [done| |done].
    by intros ?%Hw.
Qed.

(** C14: A constant is narrowed exactly when it fits.  An assignment finds what an invocation finds.  Where an
    invocation finds nothing it narrows, exactly if there is a constant, it is an integer, its type is
    [byte], [short], [char] or [int], the target is [byte], [short] or [char], and the value is in the range of
    the target; without a constant, or for a boolean one, it finds nothing.  Between primitive types there is
    always an answer, and an invocation finds the identity for equal types, a widening for the pairs of the
    table of the language, and nothing else. *)
Theorem assignment_narrows fuel from to const_value :
  (forall r, assignment_conversion_with_const fuel from to const_value = Done r <->
     exists found, method_invocation_conversion fuel from to = Done found /\
       assigned (resolve from) (resolve to) const_value found r) /\
  (forall p q, resolve from = Primitive p -> resolve to = Primitive q -> 0 < fuel ->
     exists found r, invoked p q found /\ assigned (Primitive p) (Primitive q) const_value found r /\
       assignment_conversion_with_const fuel from to const_value = Done r).
Proof.
  pose proof (constant_narrows from to const_value) as Hn.
  assert (Hex : forall r, assignment_conversion_with_const fuel from to const_value = Done r <->
     exists found, method_invocation_conversion fuel from to = Done found /\
       assigned (resolve from) (resolve to) const_value found r).
  { intros r. unfold assignment_conversion_with_const, or_else. split.
    - intros (found & Hi & H)%bind_Done. exists found. split; [done|]. destruct found; apply Done_inj in H as <-; done.
    - intros (found & -> & H). simpl. destruct found as [c|]; [by rewrite H|]. f_equal. simpl in Hn, H. naive_solver. }
  split; [exact Hex|]. intros p q Hf Ht Hfuel. destruct fuel as [|fuel]; [lia|].
  destruct (invocation_primitive fuel from to p q Hf Ht) as (found & Hi & Hinv). rewrite Hf, Ht in Hex, Hn.
  exists found, (match found with Some c => Some c | None => constant_narrowing_conversion from to const_value end).
  assert (assigned (Primitive p) (Primitive q) const_value found
    (match found with Some c => Some c | None => constant_narrowing_conversion from to const_value end)) as Ha by (by destruct found).
  split_and!; [done|done|]. apply Hex. by exists found.
Qed.

End Conversions.

(** ** Numeric promotion *)

(** The types that arithmetic is done in. *)
Definition arithmetic : list PrimitiveType := [PrimitiveType.Int; PrimitiveType.Long; PrimitiveType.Float; PrimitiveType.Double].

(** C15: Numeric promotion is the least upper bound.  The promoted type of two operands is an arithmetic
    type to which both widen, and it widens to every other arithmetic type to which both do; there
    is none exactly if an operand is boolean; the promotion of one operand is that of it with
    itself. *)
Theorem numeric_promotion_least a b :
  match binary_numeric_promotion a b with
  | Some c =>
      c ∈ arithmetic /\ primitive_widening a c = true /\ primitive_widening b c = true /\
      forall d, d ∈ arithmetic -> primitive_widening a d = true -> primitive_widening b d = true -> primitive_widening c d = true
  | None => a = PrimitiveType.Boolean \/ b = PrimitiveType.Boolean
  end /\ unary_numeric_promotion a = binary_numeric_promotion a a.
Proof.
  split; [|by destruct a].
  destruct a, b; simpl; try (by left); try (by right);
    (split_and!; [by apply (bool_decide_unpack _)|done|done|]; intros d Hd Ha Hb; unfold arithmetic in Hd;
     rewrite !elem_of_cons, elem_of_nil in Hd; destruct Hd as [->|[->|[->|[->|[]]]]]; done).
Qed.

(** ** Examples *)

(** [ArrayList<String>] for a parameter of type [List<? extends Object>]. *)
Lemma invocation_conversions_witness :
  conv_path (E := list_classes) [Step.WideningReference] (Class 3 [Class 1 []]) (Class 2 [Wildcard (Extends (Class 0 []))]) /\
  exists fuel r, method_invocation_conversion (E := list_classes) fuel (Class 3 [Class 1 []]) (Class 2 [Wildcard (Extends (Class 0 []))]) = Done r.
Proof.
  destruct (invocation_conversions (E := list_classes) (Class 3 [Class 1 []]) (Class 2 [Wildcard (Extends (Class 0 []))]) eq_refl eq_refl)
    as [Hexact Hdone]. split.
  - assert (Hr : method_invocation_conversion (E := list_classes) 8 (Class 3 [Class 1 []]) (Class 2 [Wildcard (Extends (Class 0 []))]) =
      Done (Some (conversion_new Step.WideningReference))) by (vm_compute; reflexivity).
    exact (proj2 (Hexact 8 _ Hr)).
  - destruct (Hdone _ _ _ list_classes_acyclic eq_refl) as (f & r & Hf). exists f, r. by apply Hf.
Defined.

(** [byte b = 5], and not [byte b = 200] nor [byte b = n] for a variable [n]. *)
Lemma assignment_narrows_witness :
  assignment_conversion_with_const (E := list_classes) 3 (Primitive PrimitiveType.Int) (Primitive PrimitiveType.Byte) (Some (ConstValue.Int 5)) =
    Done (Some (conversion_new Step.NarrowingPrimitive)) /\
  assignment_conversion_with_const (E := list_classes) 3 (Primitive PrimitiveType.Int) (Primitive PrimitiveType.Byte) (Some (ConstValue.Int 200)) = Done None /\
  exists r, assignment_conversion_with_const (E := list_classes) 3 (Primitive PrimitiveType.Int) (Primitive PrimitiveType.Byte) None = Done r /\
    forall value, ~ narrows (Primitive PrimitiveType.Int) (Primitive PrimitiveType.Byte) (Some (ConstValue.Boolean value)).
Proof.
  assert (Hr : method_invocation_conversion (E := list_classes) 3 (Primitive PrimitiveType.Int) (Primitive PrimitiveType.Byte) = Done None)
    by (vm_compute; reflexivity).
  split_and!.
  - apply (proj2 (proj1 (assignment_narrows (E := list_classes) 3 (Primitive PrimitiveType.Int) (Primitive PrimitiveType.Byte) (Some (ConstValue.Int 5))) _)).
    exists None. split; [exact Hr|]. left. split; [|done]. exists 5%Z, PrimitiveType.Int, PrimitiveType.Byte, (-128)%Z, 127%Z.
    split_and!; try done; [by apply (bool_decide_unpack _)|by left].
  - apply (proj2 (proj1 (assignment_narrows (E := list_classes) 3 (Primitive PrimitiveType.Int) (Primitive PrimitiveType.Byte) (Some (ConstValue.Int 200))) _)).
    exists None. split; [exact Hr|]. right. split; [|done]. intros (v & p & q & lo & hi & [= <-] & _ & [= <-] & _ & Hin & Hv).
    unfold narrow_ranges in Hin. rewrite !elem_of_cons, elem_of_nil in Hin. destruct Hin as [[= -> ->]|[[=]|[[=]|[]]]]. lia.
  - destruct (proj2 (assignment_narrows (E := list_classes) 3 (Primitive PrimitiveType.Int) (Primitive PrimitiveType.Byte) None)
      PrimitiveType.Int PrimitiveType.Byte eq_refl eq_refl ltac:(lia)) as (found & r & _ & _ & Hx).
    exists r. split; [exact Hx|]. intros value (v & p & q & lo & hi & [=] & _).
Defined.

(** The boxes of [int], [long] and [byte]. *)
Definition box_env : TypeEnv := list_env
  [object0; class_def "java.lang.Integer" ClassKind.Class [] (Some (Class 0 [])) [];
   class_def "java.lang.Long" ClassKind.Class [] (Some (Class 0 [])) []; class_def "java.lang.Byte" ClassKind.Class [] (Some (Class 0 [])) []] [].

(** Assignment differs from the language for boxes.  The language permits boxing, and widening of
    the box, and for a constant narrowing before boxing; the code also widens before it boxes, so that
    an [int] is accepted for a [Long], and it does not narrow a constant before it boxes, so that
    the constant 1 is refused for a [Byte]. *)
Theorem assignment_boxes_differ :
  assignment_conversion (E := box_env) 5 (Primitive PrimitiveType.Int) (Class 2 []) =
    Done (Some (mkConversion [Step.WideningPrimitive; Step.Boxing] [])) /\
  boxing_type (E := box_env) PrimitiveType.Byte = Some (Class 3 []) /\
  assignment_conversion_with_const (E := box_env) 5 (Primitive PrimitiveType.Int) (Primitive PrimitiveType.Byte) (Some (ConstValue.Int 1)) =
    Done (Some (conversion_new Step.NarrowingPrimitive)) /\
  assignment_conversion_with_const (E := box_env) 5 (Primitive PrimitiveType.Int) (Class 3 []) (Some (ConstValue.Int 1)) = Done None.
Proof. split_and!; vm_compute; reflexivity. Qed.
